(* ===== verification/_CoqProject ===== *)
-Q . S2P
Prelude.v
Words.v
Vec.v
BitSets.v
IdSets.v
Probing.v
IntMap.v
IndexMaps.v
Paths.v
Cond.v
Lexer.v
IncludeMemo.v
Stmts.v
Parser.v
ParseFiles.v
RoundTrip.v
Bump.v
HashCons.v
Closure.v
ClosureSpec.v
ClosureTarjan.v
Includes.v
Trie.v
Glob.v
Intern.v
Tags.v
Env.v
Expansion.v
MacroString.v
ConfMacros.v
SetVars.v
ShellWords.v
Tokens.v
PeerPolicies.v
Sysincl.v
Registry.v
SourceTree.v
Resolve.v
Lookup.v
Scan.v
Json.v
Emitter.v
Executor.v
ExecutorProofs.v
Build.v
Uid.v
JsonGraph.v
