(* ===== verification/Prelude.v ===== *)
(** * ay: a verification development for the build-graph generator

    The program reads build files and a configuration, generates from them a graph of
    build commands, and executes the graph.  This library models the parts that carry
    its own algorithms and proves what the other parts rely on.

    ** The program's parts and how they work together

    Build files are read by a lexer and a parser (src/yamake.go) that expands INCLUDE and
    compiles IF conditions while it reads.  The statements are evaluated per module in an
    environment of variables (src/env.go); words of statements are expanded
    (src/modules.go), variables in texts substituted (src/macro_string.go) and macros of
    the configuration called (src/conf.go), all through memos (src/expansion_memo.go).
    Sources are scanned for includes (src/parser*.go), the names are resolved against
    search paths (src/scanner.go, src/parsers_manager.go), generated files
    (src/codegen_registry.go), the source tree (src/fs_os.go) and the table of system
    headers (src/sysincl*.go), and closed under inclusion (src/tarjan_ctx.go).  Emitters
    turn modules into nodes; the graph emitter (src/node_emitter.go) orders them and the
    executor (src/executor.go) runs them, each under its uid (src/uid.go).  Everything
    stands on interned strings (src/str_intern.go), tagged ids (src/vfs.go, src/any.go)
    and hand-written containers.

    ** Conventions

    Bytes and machine words are integers with the wrap-around of their width written out
    ([u8], [u32], [u64]); strings are lists of bytes; arrays are lists read through
    [zget], and a slice with spare capacity keeps its backing array.  [option] is a
    run-time fault (an index or slice out of range, a nil map), [res] has the thrown
    errors of the program beside it ([Throw]) and an explicit [NoFuel].  Loops that are
    not structural take fuel: lengths of the remaining input, sizes of arrays, numbers of
    files or of nodes; each such loop has a lemma that the fuel chosen is enough, so no
    theorem speaks about runs that return only.  Ids of interned strings are replaced by
    their texts, as Intern.v shows they can be.  Goroutines are a step relation
    whose schedules are lists of steps.  Code outside of src/ (the xxh3 hash, the regexp
    package, the operating system) is a parameter, with its documented behaviour as the
    laws of a class or as hypotheses, and a concrete instance in the witness.

    ** Files

    Containers and words.
    - Prelude: this header, machine words, arrays, the result type, shared lemmas and
      hints.
    - Words (mix.go, city_hash.go, bucket_hash*.go): mixers are injective, CityHash64
      stays in its buffer.
    - Vec (vec.go), BitSets (bit_set.go, two_bit_set.go), IdSets (id_set.go,
      de_duper.go): growable arrays, bit sets, sets cleared by epochs.
    - Probing, IntMap (int_map.go, int_set.go): linear probing and the open-addressing
      tables; IndexMaps (dense_index.go, dense_map.go, sparse_map.go): one client over an
      interface of indices with two implementations.
    - Bump (bump_allocator.go), HashCons (slice_cache.go, bucket_cache.go): allocation
      in chunks, slices and buckets stored once.
    - Trie (darts.go, ext_matcher.go): double-array tries.  Glob (glob_match.go).
    - Intern (str_intern.go, page_vec.go), Tags (vfs.go, any.go).
    - Paths (fs_utils.go): cleaning, joining and normalising of paths.
    Build files.
    - Cond (yamake.go, macros.go, conf.go): the two compilers of conditions and the
      evaluator, against one grammar and one semantics.
    - Lexer, Stmts, Parser (yamake.go): tokens, typed statements, nested statements.
      IncludeMemo and ParseFiles: INCLUDE and its memo, in the abstract and in the parser.
      RoundTrip: printed files are parsed to what was printed.
    Evaluation.
    - Env (env.go, command_resource_uses.go), SetVars (modules.go): variables with lazy
      appends against finite maps.
    - Expansion (expansion_memo.go), MacroString (macro_string.go), ConfMacros (conf.go),
      Tokens (modules.go), ShellWords (string_utils.go): expansion of texts and words,
      with and without what is remembered.
    - PeerPolicies (peer_policy.go, dir_rows.go): rules about dependencies.
    Includes.
    - Includes (parser.go, parser_c.go): lines of chunked files and directives of C.
    - Sysincl (sysincl.go, sysincl_ctx.go): the table of system headers.
    - Registry (codegen_registry.go): generated files by path, with the bits and
      generations in front.  SourceTree (fs_os.go): files through kept listings, walks.
    - Resolve (scanner.go, parsers_manager.go): names searched by ranks and an index of
      the directories, against the places probed in order, over an interface of files
      that Lookup shows the tree and the registry to meet.
    - Scan (scanner.go): from directives to the entries of files, over deferred scans and
      bindings in any order, with the answers of the files above as an interface.
    - Closure, ClosureSpec, ClosureTarjan (scanner.go, tarjan_ctx.go, closure.go): the
      closures under inclusion.
    Graph.
    - Emitter (node_emitter.go), Executor and ExecutorProofs (executor.go,
      event_queue.go), Build: the two together.
    - Uid (uid.go): the bytes that identify a node.
    - Json (json_write.go, json_split.go): strings escaped eight bytes at a time, and the
      splitter of objects that reads back what was written.
    - JsonGraph (json_write.go, node_attrs.go): the writer of graphs through its caches,
      against the printed value of the graph.
    ** What the theorems show

    - Reading: lexer paths agree, every macro call is a statement or an error, the parser
      with shared memos gives on bytes what parsing each file alone gives, printed
      files are read back, conditions have the value of their grammar.
    - Evaluation: lazily joined variables refine finite maps; memos, kept arguments and
      shared buffers are transparent under any interleaving of environments; one pass
      of substitution is the replacement of its pieces, and its result is a normal form.
    - Includes: directives are found line by line however a file is cut; names are
      resolved as if all places were probed in order; closures are reachability.
    - Graph: the emitter hands over exactly the needed nodes in topological order and
      throws exactly on cycles and holes, which is what the executor relies on; under
      every schedule the executor is safe, makes progress, ends, and has the same outcome.
    - Containers: tables refine finite maps, blocks stay, tries and globs accept the
      languages they stand for, interning is injective, node identities are exact.
    - Some theorems record behaviour that is not intended (appends that are not recorded,
      a fault inside an escape, substitution that does not end, cuts that matter, closures
      over a limit); they are the findings of the manifest.

    ** Not modelled

    The emitters of the single languages and tests (Java, Go, Python, TypeScript, Rust,
    protobuf, tests, archives, linking) are tables that assemble command lines: their
    correctness is their agreement with another program's output, for which the sources
    hold no specification.  The walk over modules (src/gen.go, most of src/modules.go)
    ties the components together over the whole of the configuration's data.  File
    systems, fetching, command line, reports, instrumentation and assembly are
    input/output or variants of modelled code.  The readers of the configuration
    (src/conf.go apart from macros, src/sysincl_yaml.go) and the offline graph tools
    are left for later. *)

From stdpp Require Export base list gmap strings numbers fin_maps sorting.
From Stdlib Require Export ZArith Lia Bool.

Local Open Scope Z_scope.

(** ** Machine words

    Go's unsigned integers are modelled as [Z] with the wrap-around of the
    operation written out: [u64 e] is the value the expression [e] has at type
    uint64. *)

Definition u8 (x : Z) : Z := x mod 2 ^ 8.
Definition u16 (x : Z) : Z := x mod 2 ^ 16.
Definition u32 (x : Z) : Z := x mod 2 ^ 32.
Definition u64 (x : Z) : Z := x mod 2 ^ 64.

(** The bitwise complement [^x] at type uint64. *)
Definition not64 (x : Z) : Z := 2 ^ 64 - 1 - x.

Abbreviation is_u8 x := (0 <= x < 2 ^ 8).
Abbreviation is_u16 x := (0 <= x < 2 ^ 16).
Abbreviation is_u32 x := (0 <= x < 2 ^ 32).
Abbreviation is_u64 x := (0 <= x < 2 ^ 64).

(** ** Zero values

    The value a Go variable of the type has when nothing was assigned: what
    [make] and [new] fill memory with. *)

Class GoZero (A : Type) := go_zero : A.
#[export] Instance Z_go_zero : GoZero Z := 0.
#[export] Instance bool_go_zero : GoZero bool := false.
#[export] Instance list_go_zero A : GoZero (list A) := [].
#[export] Instance option_go_zero A : GoZero (option A) := None.
#[export] Instance prod_go_zero `{GoZero A, GoZero B} : GoZero (A * B) := (go_zero, go_zero).

(** ** Byte strings

    A Go string or []byte is a list of bytes, a byte an integer; [bs] writes
    one from a literal and [ch] a single byte. *)

Abbreviation byte := Z (only parsing).
Definition bs (s : string) : list byte :=
  (λ a, Z.of_N (Ascii.N_of_ascii a)) <$> String.list_ascii_of_string s.
Definition ch (a : Ascii.ascii) : byte := Z.of_N (Ascii.N_of_ascii a).

(** ** Arrays indexed by machine words *)

Section zindex.
Context {A : Type}.
Implicit Types (l : list A) (i : Z).

(** [l[i]] in Go: a run-time fault ([None]) outside [0, len). *)
Definition zget l i : option A :=
  if bool_decide (0 <= i) then l !! Z.to_nat i else None.

(** [l[i] = x] in Go: the same fault. *)
Definition zset l i (x : A) : option (list A) :=
  if bool_decide (0 <= i < Z.of_nat (length l)) then Some (<[Z.to_nat i := x]> l) else None.

Lemma zget_nat l (n : nat) : zget l (Z.of_nat n) = l !! n.
Proof. unfold zget. rewrite bool_decide_true by lia. by rewrite Nat2Z.id. Qed.

Lemma zget_Some_range l i x : zget l i = Some x → 0 <= i < Z.of_nat (length l).
Proof.
  unfold zget. case_bool_decide; [|done]. intros ?%lookup_lt_Some. lia.
Qed.

Lemma zget_in l i : 0 <= i < Z.of_nat (length l) → is_Some (zget l i).
Proof.
  intros ?. unfold zget. rewrite bool_decide_true by lia.
  apply lookup_lt_is_Some. lia.
Qed.

Lemma zget_None l i : zget l i = None ↔ ¬ 0 <= i < Z.of_nat (length l).
Proof.
  split.
  - intros Hn Hr. destruct (zget_in l i Hr) as [x Hx]. congruence.
  - intros Hr. destruct (zget l i) eqn:E; [|done]. by apply zget_Some_range in E.
Qed.

Lemma zset_in l i x :
  0 <= i < Z.of_nat (length l) → zset l i x = Some (<[Z.to_nat i := x]> l).
Proof. intros. unfold zset. by rewrite bool_decide_true. Qed.

Lemma zset_Some l i x l' :
  zset l i x = Some l' → 0 <= i < Z.of_nat (length l) ∧ l' = <[Z.to_nat i := x]> l.
Proof. unfold zset. case_bool_decide; naive_solver. Qed.

Lemma zget_insert_eq l i x :
  0 <= i < Z.of_nat (length l) → zget (<[Z.to_nat i := x]> l) i = Some x.
Proof.
  intros. unfold zget. rewrite bool_decide_true by lia.
  apply list_lookup_insert_eq. lia.
Qed.

Lemma zget_insert_ne l i j x :
  0 <= i → i ≠ j → zget (<[Z.to_nat i := x]> l) j = zget l j.
Proof.
  intros. unfold zget. case_bool_decide; [|done].
  apply list_lookup_insert_ne. lia.
Qed.

Lemma zget_insert l i j x :
  0 <= i < Z.of_nat (length l) →
  zget (<[Z.to_nat i := x]> l) j = if decide (i = j) then Some x else zget l j.
Proof.
  intros. case_decide; subst; [by apply zget_insert_eq|apply zget_insert_ne; lia].
Qed.

Lemma zget_app_l l k i : 0 <= i < Z.of_nat (length l) → zget (l ++ k) i = zget l i.
Proof. intros. unfold zget. case_bool_decide; [|done]. apply lookup_app_l. lia. Qed.

Lemma zget_app_r l k i :
  Z.of_nat (length l) <= i → zget (l ++ k) i = zget k (i - Z.of_nat (length l)).
Proof.
  intros. unfold zget. rewrite !bool_decide_true by lia.
  rewrite lookup_app_r by lia. f_equal. lia.
Qed.

Lemma zget_cons x l i :
  zget (x :: l) i = if decide (i = 0) then Some x else zget l (i - 1).
Proof.
  unfold zget. case_decide as Hi; [by subst|].
  destruct (decide (0 <= i)); [|by rewrite !bool_decide_false by lia].
  rewrite !bool_decide_true by lia.
  by replace (Z.to_nat i) with (S (Z.to_nat (i - 1))) by lia.
Qed.

Lemma zget_nil i : zget (@nil A) i = None.
Proof. unfold zget. by case_bool_decide. Qed.

Lemma zget_replicate n (x : A) i :
  0 <= i < Z.of_nat n → zget (replicate n x) i = Some x.
Proof.
  intros. unfold zget. rewrite bool_decide_true by lia. apply lookup_replicate_2. lia.
Qed.
End zindex.

(** ** Results of fallible code

    [Throw] is an exception the code raises itself ([throwFmt], a parse error);
    [NoFuel] is the model running out of fuel, which the theorems exclude. *)

Inductive res (A : Type) := Ok (a : A) | Throw | NoFuel.
Arguments Ok {A}. Arguments Throw {A}. Arguments NoFuel {A}.

#[export] Instance res_ret : MRet res := @Ok.
#[export] Instance res_bind : MBind res := λ A B f r,
  match r with Ok a => f a | Throw => Throw | NoFuel => NoFuel end.
#[export] Instance res_fmap : FMap res := λ A B f r,
  match r with Ok a => Ok (f a) | Throw => Throw | NoFuel => NoFuel end.

Lemma res_bind_Ok {A B} (r : res A) (f : A → res B) b :
  (r ≫= f) = Ok b ↔ ∃ a, r = Ok a ∧ f a = Ok b.
Proof. destruct r; simpl; naive_solver. Qed.

(** A run-time fault (index out of range, nil pointer) seen as an exception. *)
Definition lift {A} (o : option A) : res A := match o with Some a => Ok a | None => Throw end.

(** ** Tactics *)

(** Split on every boolean comparison of integers and turn it into arithmetic. *)
Ltac zcases :=
  repeat match goal with
  | |- context [Z.ltb ?a ?b] => destruct (Z.ltb_spec a b)
  | |- context [Z.leb ?a ?b] => destruct (Z.leb_spec a b)
  | |- context [Z.eqb ?a ?b] => destruct (Z.eqb_spec a b)
  | H : context [Z.ltb ?a ?b] |- _ => destruct (Z.ltb_spec a b)
  | H : context [Z.leb ?a ?b] |- _ => destruct (Z.leb_spec a b)
  | H : context [Z.eqb ?a ?b] |- _ => destruct (Z.eqb_spec a b)
  end.

Create HintDb ay discriminated.
Create Rewrite HintDb ay_len.
#[export] Hint Rewrite @length_app @length_insert @length_replicate @length_fmap
  @length_take @length_drop : ay_len.
#[export] Hint Resolve zset_in zget_insert_eq : ay.

(** Arithmetic about lengths. *)
Ltac len := autorewrite with ay_len in *; lia.

(** [Forall] of an arithmetic fact over a literal list. *)
Ltac forall_lia := repeat (apply Forall_cons_2; [simpl; lia|]); apply Forall_nil_2.

(** ** Facts about machine words *)

Lemma u64_range x : is_u64 (u64 x).
Proof. unfold u64. apply Z.mod_pos_bound. lia. Qed.

Lemma u32_range x : is_u32 (u32 x).
Proof. unfold u32. apply Z.mod_pos_bound. lia. Qed.

Lemma u64_id x : is_u64 x → u64 x = x.
Proof. intros. unfold u64. apply Z.mod_small. lia. Qed.

Lemma u32_id x : is_u32 x → u32 x = x.
Proof. intros. unfold u32. apply Z.mod_small. lia. Qed.

Lemma u64_u64 x : u64 (u64 x) = u64 x.
Proof. apply u64_id, u64_range. Qed.

Lemma u64_add_l a b : u64 (u64 a + b) = u64 (a + b).
Proof. unfold u64. by rewrite Zplus_mod_idemp_l. Qed.

Lemma u64_add_r a b : u64 (a + u64 b) = u64 (a + b).
Proof. unfold u64. by rewrite Zplus_mod_idemp_r. Qed.

#[export] Hint Resolve u64_range u32_range : ay.

(** A word and its bits: below [2 ^ n] is the same as no bit from [n] on. *)
Lemma testbit_high x n i : 0 <= x < 2 ^ n → 0 <= n <= i → Z.testbit x i = false.
Proof.
  intros Hx Hi. rewrite <-(Z.mod_small x (2 ^ n)) by lia.
  apply Z.mod_pow2_bits_high. lia.
Qed.

Lemma below_pow2 x n :
  0 <= n → 0 <= x → (∀ i, n <= i → Z.testbit x i = false) → x < 2 ^ n.
Proof.
  intros Hn Hx Hb. destruct (Z.eq_dec x 0) as [->|Hne]; [by apply Z.pow_pos_nonneg|].
  apply Z.log2_lt_pow2; [lia|]. destruct (Z.lt_ge_cases (Z.log2 x) n) as [|Hge]; [done|].
  specialize (Hb _ Hge). rewrite Z.bit_log2 in Hb by lia. done.
Qed.

Lemma lxor_range x y n : 0 <= n → 0 <= x < 2 ^ n → 0 <= y < 2 ^ n → 0 <= Z.lxor x y < 2 ^ n.
Proof.
  intros Hn Hx Hy. assert (0 <= Z.lxor x y) by (apply Z.lxor_nonneg; lia).
  split; [done|]. apply below_pow2; [done..|]. intros i Hi.
  rewrite Z.lxor_spec, !(testbit_high _ n) by lia. done.
Qed.

Lemma lor_range x y n : 0 <= n → 0 <= x < 2 ^ n → 0 <= y < 2 ^ n → 0 <= Z.lor x y < 2 ^ n.
Proof.
  intros Hn Hx Hy. assert (0 <= Z.lor x y) by (apply Z.lor_nonneg; lia).
  split; [done|]. apply below_pow2; [done..|]. intros i Hi.
  rewrite Z.lor_spec, !(testbit_high _ n) by lia. done.
Qed.

Lemma land_range_l x y n : 0 <= n → 0 <= x < 2 ^ n → 0 <= Z.land x y < 2 ^ n.
Proof.
  intros Hn Hx. assert (0 <= Z.land x y) by (apply Z.land_nonneg; lia).
  split; [done|]. apply below_pow2; [done..|]. intros i Hi.
  rewrite Z.land_spec, (testbit_high x n) by lia. done.
Qed.

Lemma shiftr_range x k n : 0 <= k → 0 <= x < 2 ^ n → 0 <= Z.shiftr x k < 2 ^ n.
Proof.
  intros Hk Hx. rewrite Z.shiftr_div_pow2 by done.
  pose proof (Z.pow_pos_nonneg 2 k). split; [apply Z.div_pos; lia|].
  apply Z.le_lt_trans with x; [|lia]. apply Z.div_le_upper_bound; nia.
Qed.
