(* ===== verification/Words.v ===== *)
(** * Hash mixers on 64-bit words (mix.go, city_hash.go, bucket_hash.go)

    The integer mixers the containers and the registries key on, and the
    CityHash64 routine. The mixers are shown injective on 64-bit words, the
    fact [sparse_map.go] rests on (Sparse.v); CityHash64 is shown to load only
    bytes inside its argument. *)

From S2P Require Import Prelude.

Local Open Scope Z_scope.

Module Mix.

(** [x ^= x >> k] *)
Definition xorshr (k x : Z) : Z := Z.lxor x (Z.shiftr x k).

Definition mix64 (x : Z) : Z :=
  let x := xorshr 30 x in
  let x := u64 (x * 0xbf58476d1ce4e5b9) in
  let x := xorshr 27 x in
  let x := u64 (x * 0x94d049bb133111eb) in
  xorshr 31 x.

Definition splitMix64 (p s : Z) : Z := mix64 (Z.lor (u64 (Z.shiftl p 32)) s).

(** [key += ^(key << n)] and [key += key << n] *)
Definition addnotshl (n key : Z) : Z := u64 (key + not64 (u64 (Z.shiftl key n))).
Definition addshl (n key : Z) : Z := u64 (key + u64 (Z.shiftl key n)).

Definition utilIntHash64 (key : Z) : Z :=
  let key := addnotshl 32 key in
  let key := xorshr 22 key in
  let key := addnotshl 13 key in
  let key := xorshr 8 key in
  let key := addshl 3 key in
  let key := xorshr 15 key in
  let key := addnotshl 27 key in
  xorshr 31 key.

Definition utilCombineHashes (l r : Z) : Z := Z.lxor (utilIntHash64 l) r.

(** [bucketHashPlatform] of the portable build. *)
Definition bucketHashPlatform (elems : list Z) : Z * Z :=
  foldl (λ '(sum, xr) v, let z := mix64 v in (u64 (sum + z), Z.lxor xr z)) (0, 0) elems.

(** [bucketHashPlatform] of the amd64 build: whole blocks by the assembly
    routines, which are parameters here, then two interleaved accumulators, then
    an odd element. *)
Fixpoint bucketPairs (elems : list Z) (sum xr sum1 xor1 : Z) : Z * Z :=
  match elems with
  | v0 :: v1 :: elems =>
      let z0 := mix64 v0 in
      let z1 := mix64 v1 in
      bucketPairs elems (u64 (sum + z0)) (Z.lxor xr z0) (u64 (sum1 + z1)) (Z.lxor xor1 z1)
  | rest =>
      let '(sum, xr) :=
        foldl (λ '(sum, xr) v, let z := mix64 v in (u64 (sum + z), Z.lxor xr z)) (sum, xr) rest in
      (u64 (sum + sum1), Z.lxor xr xor1)
  end.

Definition bucketHashPlatform_amd64 (avx512 avx2 : bool)
    (bucketMix64BlockAVX512 bucketMix64BlockAVX2 : list Z → Z * Z) (elems : list Z) : Z * Z :=
  let n := length elems in
  let '(sum, xr, rest) :=
    if (16 <=? n)%nat then
      if avx512 then
        let k := (n / 8 * 8)%nat in (bucketMix64BlockAVX512 (take k elems), drop k elems)
      else if avx2 then
        let k := (n / 4 * 4)%nat in (bucketMix64BlockAVX2 (take k elems), drop k elems)
      else (0, 0, elems)
    else (0, 0, elems) in
  bucketPairs rest sum xr 0 0.

Definition bucketHash (elems : list Z) : Z * Z :=
  let '(sum, xr) := bucketHashPlatform elems in
  let count := mix64 (u64 (Z.of_nat (length elems) + 1)) in
  let '(h1, h2) := (u64 (sum + count), Z.lxor xr count) in
  let h1 := if h1 =? 0 then 1 else h1 in
  let h2 := if h2 =? 0 then 1 else h2 in
  (h1, h2).

(** ** Injectivity of the single steps *)

Lemma xorshr_range k x : 0 <= k → is_u64 x → is_u64 (xorshr k x).
Proof. intros. apply lxor_range; [lia|done|]. by apply shiftr_range. Qed.

(** A word equal to its own right shift is zero, so the xor-shift loses
    nothing. *)
Lemma xorshr_inj k x y :
  0 < k → 0 <= x → 0 <= y → xorshr k x = xorshr k y → x = y.
Proof.
  unfold xorshr. intros Hk Hx Hy Heq. apply Z.lxor_eq. set (d := Z.lxor x y).
  assert (0 <= d) by (apply Z.lxor_nonneg; lia).
  assert (Hd : d = Z.shiftr d k).
  { unfold d. rewrite Z.shiftr_lxor. apply Z.lxor_eq.
    rewrite <-(Z.lxor_nilpotent (Z.lxor x (Z.shiftr x k))). rewrite Heq at 2.
    rewrite !Z.lxor_assoc. f_equal. rewrite <-!Z.lxor_assoc. f_equal. apply Z.lxor_comm. }
  rewrite Z.shiftr_div_pow2 in Hd by lia.
  destruct (Z.eq_dec d 0) as [|Hne]; [done|].
  assert (d / 2 ^ k < d); [|lia].
  apply Z.div_lt; [lia|]. apply Z.pow_gt_1; lia.
Qed.

(** Multiplication by an invertible constant (and an offset) loses nothing
    modulo [2 ^ 64]. *)
Lemma affine_inj c ci b x y :
  (c * ci) mod 2 ^ 64 = 1 → is_u64 x → is_u64 y →
  u64 (x * c + b) = u64 (y * c + b) → x = y.
Proof.
  intros Hci Hx Hy Heq.
  assert (Hinv : ∀ z, is_u64 z → u64 (ci * (u64 (z * c + b) - b)) = z).
  { intros z Hz. unfold u64.
    rewrite Z.mul_mod, Zminus_mod_idemp_l, <-Z.mul_mod by lia.
    replace (ci * (z * c + b - b)) with (z * (c * ci)) by ring.
    rewrite Z.mul_mod, Hci, Z.mul_1_r, Z.mod_mod by lia. by apply Z.mod_small. }
  rewrite <-(Hinv x), <-(Hinv y) by done. by rewrite Heq.
Qed.

Lemma mul_inj c ci x y :
  (c * ci) mod 2 ^ 64 = 1 → is_u64 x → is_u64 y → u64 (x * c) = u64 (y * c) → x = y.
Proof.
  intros Hc Hx Hy Heq. apply (affine_inj c ci 0); [done..|]. by rewrite !Z.add_0_r.
Qed.

(** [key += ^(key << n)] is [key * (1 - 2 ^ n) - 1]. *)
Lemma add_not_shl n x : 0 <= n →
  u64 (x + not64 (u64 (Z.shiftl x n))) = u64 (x * (1 - 2 ^ n) + (-1)).
Proof.
  intros. rewrite Z.shiftl_mul_pow2 by done. unfold not64, u64.
  replace (x + (2 ^ 64 - 1 - (x * 2 ^ n) mod 2 ^ 64))
    with ((x - 1 - (x * 2 ^ n) mod 2 ^ 64) + 1 * 2 ^ 64) by ring.
  rewrite Z.mod_add by lia. rewrite Zminus_mod_idemp_r. f_equal. ring.
Qed.

Lemma add_shl n x : 0 <= n →
  u64 (x + u64 (Z.shiftl x n)) = u64 (x * (1 + 2 ^ n)).
Proof.
  intros. rewrite Z.shiftl_mul_pow2 by done. unfold u64.
  rewrite Zplus_mod_idemp_r. f_equal. ring.
Qed.

(** A mixer: a map of 64-bit words to 64-bit words that loses nothing. *)
Class Mixer (f : Z → Z) := {
  mixer_range x : is_u64 x → is_u64 (f x);
  mixer_inj x y : is_u64 x → is_u64 y → f x = f y → x = y }.

#[export] Instance mixer_compose f g : Mixer f → Mixer g → Mixer (λ x, f (g x)).
Proof.
  intros [Rf If] [Rg Ig]. split; [eauto|].
  intros x y Hx Hy H. apply Ig; [done..|]. apply If; eauto.
Qed.

Lemma mixer_xorshr k : 0 < k → Mixer (xorshr k).
Proof.
  intros. split; [intros; apply xorshr_range; lia|].
  intros x y Hx Hy. apply xorshr_inj; lia.
Qed.

Lemma mixer_mul c ci : (c * ci) mod 2 ^ 64 = 1 → Mixer (λ x, u64 (x * c)).
Proof.
  intros Hc. split; [intros; apply u64_range|].
  intros x y Hx Hy. by apply (mul_inj c ci).
Qed.

Lemma mixer_addnotshl n ci :
  0 <= n → ((1 - 2 ^ n) * ci) mod 2 ^ 64 = 1 → Mixer (addnotshl n).
Proof.
  intros Hn Hc. split; [intros; apply u64_range|]. unfold addnotshl.
  intros x y Hx Hy. rewrite !add_not_shl by done. by apply (affine_inj _ ci).
Qed.

Lemma mixer_addshl n ci :
  0 <= n → ((1 + 2 ^ n) * ci) mod 2 ^ 64 = 1 → Mixer (addshl n).
Proof.
  intros Hn Hc. split; [intros; apply u64_range|]. unfold addshl.
  intros x y Hx Hy. rewrite !add_shl by done. by apply (mul_inj _ ci).
Qed.

(** The steps the two mixers are made of, each with its inverse modulo [2 ^ 64]. *)
#[export] Instance mixer_xor31 : Mixer (xorshr 31). Proof. by apply mixer_xorshr. Qed.
#[export] Instance mixer_xor30 : Mixer (xorshr 30). Proof. by apply mixer_xorshr. Qed.
#[export] Instance mixer_xor27 : Mixer (xorshr 27). Proof. by apply mixer_xorshr. Qed.
#[export] Instance mixer_xor22 : Mixer (xorshr 22). Proof. by apply mixer_xorshr. Qed.
#[export] Instance mixer_xor15 : Mixer (xorshr 15). Proof. by apply mixer_xorshr. Qed.
#[export] Instance mixer_xor8 : Mixer (xorshr 8). Proof. by apply mixer_xorshr. Qed.
#[export] Instance mixer_mulb : Mixer (λ x, u64 (x * 0xbf58476d1ce4e5b9)).
Proof. apply (mixer_mul _ 0x96de1b173f119089). vm_compute. reflexivity. Qed.
#[export] Instance mixer_mul9 : Mixer (λ x, u64 (x * 0x94d049bb133111eb)).
Proof. apply (mixer_mul _ 0x319642b2d24d8ec3). vm_compute. reflexivity. Qed.
#[export] Instance mixer_add32 : Mixer (addnotshl 32).
Proof. apply (mixer_addnotshl _ 0x100000001); [done|vm_compute; reflexivity]. Qed.
#[export] Instance mixer_add13 : Mixer (addnotshl 13).
Proof. apply (mixer_addnotshl _ 0x10008004002001); [done|vm_compute; reflexivity]. Qed.
#[export] Instance mixer_add27 : Mixer (addnotshl 27).
Proof. apply (mixer_addnotshl _ 0x40000008000001); [done|vm_compute; reflexivity]. Qed.
#[export] Instance mixer_add3 : Mixer (addshl 3).
Proof. apply (mixer_addshl _ 0x8e38e38e38e38e39); [done|vm_compute; reflexivity]. Qed.

#[export] Instance mixer_mix64 : Mixer mix64.
Proof.
  apply (mixer_compose (xorshr 31) (λ x, u64 (xorshr 27 (u64 (xorshr 30 x * _)) * _))); [apply _|].
  apply (mixer_compose (λ x, u64 (x * _)) (λ x, xorshr 27 (u64 (xorshr 30 x * _)))); [apply _|].
  apply (mixer_compose (xorshr 27) (λ x, u64 (xorshr 30 x * _))); [apply _|].
  apply (mixer_compose (λ x, u64 (x * _)) (xorshr 30)); apply _.
Qed.

#[export] Instance mixer_utilIntHash64 : Mixer utilIntHash64.
Proof.
  apply (mixer_compose (xorshr 31) (λ x, addnotshl 27 (xorshr 15 (addshl 3 (xorshr 8
    (addnotshl 13 (xorshr 22 (addnotshl 32 x)))))))); [apply _|].
  apply (mixer_compose (addnotshl 27)); [apply _|]. apply (mixer_compose (xorshr 15)); [apply _|].
  apply (mixer_compose (addshl 3)); [apply _|]. apply (mixer_compose (xorshr 8)); [apply _|].
  apply (mixer_compose (addnotshl 13)); [apply _|]. apply (mixer_compose (xorshr 22)); apply _.
Qed.

Lemma mix64_range x : is_u64 x → is_u64 (mix64 x).
Proof. apply mixer_range. Qed.

Lemma mix64_inj x y : is_u64 x → is_u64 y → mix64 x = mix64 y → x = y.
Proof. apply mixer_inj. Qed.

(** ** The bucket hash *)

(** One element folded into the two accumulators. *)
Definition absorb (acc : Z * Z) (v : Z) : Z * Z :=
  (u64 (acc.1 + mix64 v), Z.lxor acc.2 (mix64 v)).

Lemma bucketHashPlatform_absorb elems acc :
  foldl (λ '(sum, xr) v, let z := mix64 v in (u64 (sum + z), Z.lxor xr z)) acc elems =
    foldl absorb acc elems.
Proof. revert acc. induction elems as [|v elems IH]; intros [s x]; simpl; [done|apply IH]. Qed.



(** The accumulators are sums, so they can start anywhere and be combined. *)
Lemma absorb_shift elems acc s x :
  foldl absorb (u64 (acc.1 + s), Z.lxor acc.2 x) elems =
    (u64 ((foldl absorb acc elems).1 + s), Z.lxor (foldl absorb acc elems).2 x).
Proof.
  revert acc. induction elems as [|v elems IH]; intros acc; simpl; [done|].
  rewrite <-IH. f_equal. unfold absorb. simpl. f_equal.
  - rewrite !u64_add_l. f_equal. lia.
  - rewrite !Z.lxor_assoc. f_equal. apply Z.lxor_comm.
Qed.

Lemma absorb_swap acc v w : absorb (absorb acc v) w = absorb (absorb acc w) v.
Proof.
  unfold absorb. simpl. f_equal.
  - rewrite !u64_add_l. f_equal. lia.
  - rewrite !Z.lxor_assoc. f_equal. apply Z.lxor_comm.
Qed.

#[export] Instance absorb_perm : Proper (eq ==> (≡ₚ) ==> eq) (foldl absorb).
Proof.
  intros acc ? <- l l' Hp. revert acc.
  induction Hp as [|v l l' _ IH|v w l|l1 l2 l3 _ IH1 _ IH2]; intros acc; simpl; [done|done| |].
  - by rewrite absorb_swap.
  - by rewrite IH1, IH2.
Qed.

Lemma bucketPairs_absorb n elems sum xr sum1 xor1 :
  (length elems <= n)%nat →
  bucketPairs elems sum xr sum1 xor1 =
    (u64 ((foldl absorb (sum, xr) elems).1 + sum1), Z.lxor (foldl absorb (sum, xr) elems).2 xor1).
Proof.
  revert elems sum xr sum1 xor1. induction n as [|n IH];
    intros [|v0 [|v1 elems]] sum xr sum1 xor1 Hn; simpl in Hn; try lia; try done.
  cbn [bucketPairs]. rewrite IH by lia. simpl.
  rewrite (absorb_shift elems (absorb (sum, xr) v0) (mix64 v1) (mix64 v1) :
    foldl absorb (absorb (absorb (sum, xr) v0) v1) elems = _).
  change (u64 (sum + mix64 v0), Z.lxor xr (mix64 v0)) with (absorb (sum, xr) v0).
  cbn [fst snd]. f_equal.
  - rewrite u64_add_l, u64_add_r. f_equal. lia.
  - rewrite !Z.lxor_assoc. f_equal. apply Z.lxor_comm.
Qed.

Lemma foldl_absorb_range acc elems :
  is_u64 acc.1 → is_u64 (foldl absorb acc elems).1.
Proof.
  revert acc. induction elems as [|v elems IH]; intros acc Hacc; [done|]. simpl.
  apply IH. simpl. apply u64_range.
Qed.

Lemma bucketPairs_start elems sum xr :
  is_u64 sum → bucketPairs elems sum xr 0 0 = foldl absorb (sum, xr) elems.
Proof.
  intros Hs. rewrite (bucketPairs_absorb (length elems)) by done.
  rewrite Z.add_0_r, Z.lxor_0_r, u64_id; [by destruct (foldl _ _ _)|].
  by apply foldl_absorb_range.
Qed.

(** The two builds of [bucketHashPlatform] agree on every slice, whichever
    vector extension the processor has, given that the assembly routines compute
    the two accumulators of the block they are handed (which is what they
    replace): splitting off the blocks and interleaving two accumulators loses
    and duplicates no element. *)
Theorem bucketHash_builds_agree (avx512 avx2 : bool) (block512 block256 : list Z → Z * Z) elems :
  (∀ l, block512 l = foldl absorb (0, 0) l) →
  (∀ l, block256 l = foldl absorb (0, 0) l) →
  bucketHashPlatform_amd64 avx512 avx2 block512 block256 elems = bucketHashPlatform elems.
Proof.
  intros H512 H256. unfold bucketHashPlatform_amd64, bucketHashPlatform.
  rewrite bucketHashPlatform_absorb.
  assert (Hsplit : ∀ k, (let '(sum, xr, rest) := (foldl absorb (0, 0) (take k elems), drop k elems) in
    bucketPairs rest sum xr 0 0) = foldl absorb (0, 0) elems).
  { intros k. destruct (foldl absorb (0, 0) (take k elems)) as [sum xr] eqn:E.
    rewrite bucketPairs_start, <-E, <-foldl_app, take_drop; [done|].
    change sum with (sum, xr).1. rewrite <-E. by apply foldl_absorb_range. }
  destruct (16 <=? length elems)%nat; [destruct avx512; [|destruct avx2]|];
    rewrite ?H512, ?H256; first [apply Hsplit|by apply bucketPairs_start].
Qed.

Lemma bucketHash_builds_agree_witness :
  bucketHashPlatform_amd64 true true (foldl absorb (0, 0)) (foldl absorb (0, 0))
    (Z.of_nat <$> seq 0 19) = bucketHashPlatform (Z.of_nat <$> seq 0 19).
Proof. apply (bucketHash_builds_agree true true); intros l; reflexivity. Defined.

Lemma bucketHash_perm l l' : l ≡ₚ l' → bucketHash l = bucketHash l'.
Proof.
  intros Hp. unfold bucketHash, bucketHashPlatform. rewrite !bucketHashPlatform_absorb.
  by rewrite (absorb_perm (0, 0) (0, 0) eq_refl l l' Hp), (Permutation_length Hp).
Qed.

(** The hash of a bucket does not depend on the order of its elements, and
    neither half is 0, the empty marker of the tables it indexes. *)
Theorem bucketHash_set_hash l l' :
  l ≡ₚ l' → bucketHash l = bucketHash l' ∧ (bucketHash l).1 ≠ 0 ∧ (bucketHash l).2 ≠ 0.
Proof.
  intros Hp. rewrite (bucketHash_perm l l' Hp). split; [done|]. unfold bucketHash.
  destruct (bucketHashPlatform l') as [s x]. simpl. split; zcases; lia.
Qed.

Lemma bucketHash_set_hash_witness : bucketHash [6; 2; 4] = bucketHash [4; 6; 2].
Proof. apply (bucketHash_set_hash [6; 2; 4] [4; 6; 2]). apply (Permutation_app_comm [6; 2] [4]). Defined.

End Mix.

(** ** CityHash64 (city_hash.go)

    The loads are Go slice expressions and index operations, so every one can
    fault; the functions return [None] when one does. *)

Module City.

Definition cityK0 : Z := 0xc3a5c85c97cb3127.
Definition cityK1 : Z := 0xb492b66fbe98f273.
Definition cityK2 : Z := 0x9ae16a3b2f90404f.
Definition cityK3 : Z := 0xc949d7c7509e6557.
Definition cityMul : Z := 0x9ddfea08eb382d69.

(** The little-endian value of a run of bytes. *)
Definition le_value (l : list byte) : Z := foldr (λ b acc, b + 256 * acc) 0 l.

(** [binary.LittleEndian.Uint64(s[i:])] and [Uint32]: [s[i:]] faults past the
    end and the decoder faults on fewer than [w] bytes. *)
Definition load_le (w : nat) (s : list byte) (i : Z) : option Z :=
  if bool_decide (0 <= i ∧ i + Z.of_nat w <= Z.of_nat (length s))
  then Some (le_value (take w (drop (Z.to_nat i) s))) else None.

Definition cityLoad64 (s : list byte) (i : Z) : option Z := u64 <$> load_le 8 s i.
Definition cityLoad32 (s : list byte) (i : Z) : option Z := u32 <$> load_le 4 s i.

(** [bits.RotateLeft64(v, -shift)] *)
Definition cityRotate (v shift : Z) : Z :=
  let k := (- shift) mod 64 in
  Z.lor (u64 (Z.shiftl v k)) (Z.shiftr v (64 - k)).

Definition cityShiftMix (v : Z) : Z := Z.lxor v (Z.shiftr v 47).

Definition cityHashLen16 (u v : Z) : Z :=
  let a := u64 (Z.lxor u v * cityMul) in
  let a := Z.lxor a (Z.shiftr a 47) in
  let b := u64 (Z.lxor v a * cityMul) in
  let b := Z.lxor b (Z.shiftr b 47) in
  u64 (b * cityMul).

Definition cityHashLen0to16 (s : list byte) : option Z :=
  let n := Z.of_nat (length s) in
  if 8 <? n then
    a ← cityLoad64 s 0;
    b ← cityLoad64 s (n - 8);
    Some (Z.lxor (cityHashLen16 a (cityRotate (u64 (b + u64 n)) n)) b)
  else if 4 <=? n then
    a ← cityLoad32 s 0;
    b ← cityLoad32 s (n - 4);
    Some (cityHashLen16 (u64 (u64 n + u64 (Z.shiftl a 3))) b)
  else if 0 <? n then
    s0 ← zget s 0;
    sm ← zget s (Z.shiftr n 1);
    sl ← zget s (n - 1);
    let y := u32 (s0 + u32 (Z.shiftl sm 8)) in
    let z := u32 (u32 n + u32 (Z.shiftl sl 2)) in
    Some (u64 (cityShiftMix (Z.lxor (u64 (y * cityK2)) (u64 (z * cityK3))) * cityK2))
  else Some cityK2.

Definition cityHashLen17to32 (s : list byte) : option Z :=
  let n := Z.of_nat (length s) in
  l0 ← cityLoad64 s 0;
  b ← cityLoad64 s 8;
  l8 ← cityLoad64 s (n - 8);
  l16 ← cityLoad64 s (n - 16);
  let a := u64 (l0 * cityK1) in
  let c := u64 (l8 * cityK2) in
  let d := u64 (l16 * cityK0) in
  Some (cityHashLen16
    (u64 (u64 (cityRotate (u64 (a - b)) 43 + cityRotate c 30) + d))
    (u64 (u64 (u64 (a + cityRotate (Z.lxor b cityK3) 20) - c) + u64 n))).

Definition cityWeakHashLen32 (s : list byte) (i a b : Z) : option (Z * Z) :=
  w ← cityLoad64 s i;
  x ← cityLoad64 s (i + 8);
  y ← cityLoad64 s (i + 16);
  z ← cityLoad64 s (i + 24);
  let a := u64 (a + w) in
  let b := cityRotate (u64 (u64 (b + a) + z)) 21 in
  let c := a in
  let a := u64 (a + x) in
  let a := u64 (a + y) in
  let b := u64 (b + cityRotate a 44) in
  Some (u64 (a + z), u64 (b + c)).

Definition cityHashLen33to64 (s : list byte) : option Z :=
  let n := Z.of_nat (length s) in
  z ← cityLoad64 s 24;
  l0 ← cityLoad64 s 0;
  l16 ← cityLoad64 s (n - 16);
  let a := u64 (l0 + u64 (u64 (u64 n + l16) * cityK0)) in
  let b := cityRotate (u64 (a + z)) 52 in
  let c := cityRotate a 37 in
  m8 ← cityLoad64 s 8;
  let a := u64 (a + m8) in
  let c := u64 (c + cityRotate a 7) in
  m16 ← cityLoad64 s 16;
  let a := u64 (a + m16) in
  let vf := u64 (a + z) in
  let vs := u64 (u64 (b + cityRotate a 31) + c) in
  l32 ← cityLoad64 s (n - 32);
  let a := u64 (m16 + l32) in
  z ← cityLoad64 s (n - 8);
  let b := cityRotate (u64 (a + z)) 52 in
  let c := cityRotate a 37 in
  l24 ← cityLoad64 s (n - 24);
  let a := u64 (a + l24) in
  let c := u64 (c + cityRotate a 7) in
  let a := u64 (a + l16) in
  let wf := u64 (a + z) in
  let ws := u64 (u64 (b + cityRotate a 31) + c) in
  let r := cityShiftMix (u64 (u64 (u64 (vf + ws) * cityK2) + u64 (u64 (wf + vs) * cityK0))) in
  Some (u64 (cityShiftMix (u64 (u64 (r * cityK0) + vs)) * cityK2)).

(** The loop state of [cityHash64]: x, y, z and the two pairs v, w. *)
Record CityState := mkCity { cx : Z; cy : Z; cz : Z; cv : Z * Z; cw : Z * Z }.

(** One iteration of the loop body at offset [i]. *)
Definition cityBlock (s : list byte) (i : Z) (st : CityState) : option CityState :=
  let '(mkCity x y z (v1, v2) (w1, w2)) := st in
  l16 ← cityLoad64 s (i + 16);
  let x := u64 (cityRotate (u64 (u64 (u64 (x + y) + v1) + l16)) 37 * cityK1) in
  l48 ← cityLoad64 s (i + 48);
  let y := u64 (cityRotate (u64 (u64 (y + v2) + l48)) 42 * cityK1) in
  let x := Z.lxor x w2 in
  let y := Z.lxor y v1 in
  let z := cityRotate (Z.lxor z w1) 33 in
  v ← cityWeakHashLen32 s i (u64 (v2 * cityK1)) (u64 (x + w1));
  w ← cityWeakHashLen32 s (i + 32) (u64 (z + w2)) y;
  Some (mkCity z y x v w).

(** [for i, rest := 0, (n-1)&^63; rest != 0; i, rest = i+64, rest-64]: [blocks]
    is [rest / 64]. *)
Fixpoint cityLoop (s : list byte) (blocks : nat) (i : Z) (st : CityState) : option CityState :=
  match blocks with
  | O => Some st
  | S blocks => st ← cityBlock s i st; cityLoop s blocks (i + 64) st
  end.

Definition cityHash64 (s : list byte) : option Z :=
  let n := Z.of_nat (length s) in
  if n <=? 16 then cityHashLen0to16 s
  else if n <=? 32 then cityHashLen17to32 s
  else if n <=? 64 then cityHashLen33to64 s
  else
    x ← cityLoad64 s 0;
    l16 ← cityLoad64 s (n - 16);
    let y := Z.lxor l16 cityK1 in
    l56 ← cityLoad64 s (n - 56);
    let z := Z.lxor l56 cityK0 in
    '(v1, v2) ← cityWeakHashLen32 s (n - 64) (u64 n) y;
    w ← cityWeakHashLen32 s (n - 32) (u64 (u64 n * cityK1)) cityK0;
    let z := u64 (z + u64 (cityShiftMix v2 * cityK1)) in
    let x := u64 (cityRotate (u64 (z + x)) 39 * cityK1) in
    let y := u64 (cityRotate y 33 * cityK1) in
    let rest := Z.ldiff (n - 1) 63 in
    st ← cityLoop s (Z.to_nat (rest / 64)) 0 (mkCity x y z (v1, v2) w);
    let '(mkCity x y z (v1, v2) (w1, w2)) := st in
    Some (cityHashLen16
      (u64 (u64 (cityHashLen16 v1 w1 + u64 (cityShiftMix y * cityK1)) + z))
      (u64 (cityHashLen16 v2 w2 + x))).

(** *** Totality *)

Lemma load_le_ok w s i :
  0 <= i → i + Z.of_nat w <= Z.of_nat (length s) → is_Some (load_le w s i).
Proof. intros. unfold load_le. rewrite bool_decide_true by lia. done. Qed.

Lemma cityLoad64_ok s i :
  0 <= i → i + 8 <= Z.of_nat (length s) → ∃ v, cityLoad64 s i = Some v ∧ is_u64 v.
Proof.
  intros. destruct (load_le_ok 8 s i) as [v Hv]; [lia..|].
  exists (u64 v). unfold cityLoad64. rewrite Hv. split; [done|apply u64_range].
Qed.

Lemma cityLoad32_ok s i :
  0 <= i → i + 4 <= Z.of_nat (length s) → ∃ v, cityLoad32 s i = Some v.
Proof.
  intros. destruct (load_le_ok 4 s i) as [v Hv]; [lia..|].
  exists (u32 v). unfold cityLoad32. by rewrite Hv.
Qed.

Lemma cityWeakHashLen32_ok s i a b :
  0 <= i → i + 32 <= Z.of_nat (length s) → is_Some (cityWeakHashLen32 s i a b).
Proof.
  intros. unfold cityWeakHashLen32.
  repeat (edestruct cityLoad64_ok as (? & -> & _); [..|simpl]; [lia..|]). done.
Qed.

(** Replace the next load or weak hash by its result; the bounds are left to
    [lia]. *)
Ltac city_step :=
  match goal with
  | |- context [cityLoad64 ?s ?i] =>
      let v := fresh "v" in let E := fresh "E" in let R := fresh "R" in
      destruct (cityLoad64_ok s i) as (v & E & R); [lia..|rewrite E; simpl]
  | |- context [cityLoad32 ?s ?i] =>
      let v := fresh "v" in let E := fresh "E" in
      destruct (cityLoad32_ok s i) as (v & E); [lia..|rewrite E; simpl]
  | |- context [cityWeakHashLen32 ?s ?i ?a ?b] =>
      let v := fresh "v" in let E := fresh "E" in
      destruct (cityWeakHashLen32_ok s i a b) as [v E]; [lia..|rewrite E; simpl]
  | |- context [zget ?s ?i] =>
      let v := fresh "v" in let E := fresh "E" in
      destruct (zget_in s i) as [v E]; [lia..|rewrite E; simpl]
  end.

Lemma cityBlock_ok s i st :
  0 <= i → i + 64 <= Z.of_nat (length s) → is_Some (cityBlock s i st).
Proof.
  intros. destruct st as [x y z [v1 v2] [w1 w2]]. unfold cityBlock.
  repeat city_step. done.
Qed.

Lemma cityLoop_ok s blocks i st :
  0 <= i → i + 64 * Z.of_nat blocks <= Z.of_nat (length s) → is_Some (cityLoop s blocks i st).
Proof.
  revert i st. induction blocks as [|blocks IH]; intros i st Hi Hb; [done|]. simpl.
  destruct (cityBlock_ok s i st) as [st' ->]; [lia..|]. simpl. apply IH; lia.
Qed.

Lemma cityHashLen16_range u v : is_u64 (cityHashLen16 u v).
Proof. apply u64_range. Qed.

Lemma cityHashLen0to16_ok s :
  (length s ≤ 16)%nat → ∃ h, cityHashLen0to16 s = Some h ∧ is_u64 h.
Proof.
  intros. unfold cityHashLen0to16.
  destruct (Z.ltb_spec 8 (Z.of_nat (length s))).
  { do 2 city_step. eexists; split; [done|].
    apply lxor_range; [done|apply u64_range|done]. }
  destruct (Z.leb_spec 4 (Z.of_nat (length s))).
  { do 2 city_step. eexists; split; [done|apply u64_range]. }
  destruct (Z.ltb_spec 0 (Z.of_nat (length s))).
  { rewrite (Z.shiftr_div_pow2 _ 1) by lia. change (2 ^ 1) with 2.
    pose proof (Z.div_mod (Z.of_nat (length s)) 2 ltac:(lia)).
    pose proof (Z.mod_pos_bound (Z.of_nat (length s)) 2 ltac:(lia)).
    do 3 city_step. eexists; split; [done|apply u64_range]. }
  exists cityK2. done.
Qed.

(** Go's [(n-1) &^ 63] rounds down to a multiple of the block size. *)
Lemma rest_blocks n : 0 < n → 64 * (Z.ldiff (n - 1) 63 / 64) <= n - 1.
Proof.
  intros. change 63 with (Z.ones 6). rewrite Z.ldiff_ones_r by lia.
  rewrite Z.shiftl_mul_pow2, Z.shiftr_div_pow2 by lia. change (2 ^ 6) with 64.
  rewrite Z.div_mul by lia. apply Z.mul_div_le. lia.
Qed.

(** Memory safety of the hash: on every byte string, of every length,
    [cityHash64] performs only in-range loads and returns a 64-bit word. *)
Theorem cityHash64_total s : ∃ h, cityHash64 s = Some h ∧ is_u64 h.
Proof.
  unfold cityHash64. destruct (Z.leb_spec (Z.of_nat (length s)) 16).
  { apply cityHashLen0to16_ok. lia. }
  destruct (Z.leb_spec (Z.of_nat (length s)) 32).
  { unfold cityHashLen17to32. repeat city_step. eexists; split; [done|apply u64_range]. }
  destruct (Z.leb_spec (Z.of_nat (length s)) 64).
  { unfold cityHashLen33to64. repeat city_step. eexists; split; [done|apply u64_range]. }
  repeat (city_step || match goal with v : Z * Z |- _ => destruct v end).
  pose proof (rest_blocks (Z.of_nat (length s)) ltac:(lia)).
  edestruct (cityLoop_ok s) as [st ->]; [..|simpl]; cycle 2.
  { destruct st as [? ? ? [??] [??]]. eexists; split; [done|apply u64_range]. }
  all: rewrite ?Z2Nat.id; try lia. apply Z.div_pos; [|lia].
  apply Z.ldiff_nonneg. lia.
Qed.

End City.
