(* ===== verification/Vec.v ===== *)
(** * Growable arrays (vec.go)

    A Go slice is a window on a backing array: [vbuf] is the backing array
    (its length is the capacity) and [vlen] the length of the window. The
    distinction is kept because [ensureLen] extends the window over whatever the
    backing array holds: a reader of the new cells sees zeros only while nothing
    was left there ([vclean]). *)

From S2P Require Import Prelude.

Local Open Scope Z_scope.

Record vec (T : Type) := mkVec { vbuf : list T; vlen : nat }.
Arguments mkVec {T} _ _.
Arguments vbuf {T} _.
Arguments vlen {T} _.

#[export] Instance vec_go_zero T : GoZero (vec T) := mkVec [] 0.

Section vec.
Context {T : Type} `{GoZero T}.
Implicit Types (v : vec T) (x : T).

(** [v.s], [v.len()] and [cap(v.s)] *)
Definition vslice v : list T := take (vlen v) (vbuf v).
Definition vcap v : nat := length (vbuf v).

(** [unsafeAt(v.s, i)]: raw memory, so the bound is the allocation and not the
    length. *)
Definition unsafeAt v (i : Z) : option T := zget (vbuf v) i.
Definition unsafeSet v (i : Z) x : option (vec T) :=
  b ← zset (vbuf v) i x; Some (mkVec b (vlen v)).

(** [v.s[i]] and [v.s[i] = x], which check against the length. *)
Definition vget v (i : Z) : option T :=
  if bool_decide (i < Z.of_nat (vlen v)) then unsafeAt v i else None.
Definition vset v (i : Z) x : option (vec T) :=
  if bool_decide (i < Z.of_nat (vlen v)) then unsafeSet v i x else None.

Definition nextCap v (need : nat) : nat :=
  let c := (vcap v * 2)%nat in
  let c := if bool_decide (c < 8)%nat then 8%nat else c in
  if bool_decide (c < need)%nat then need else c.

Definition grow v (need : nat) : vec T :=
  mkVec (vslice v ++ replicate (nextCap v need - vlen v) go_zero) (vlen v).

Definition freshLen v (n : nat) : bool * vec T :=
  if bool_decide (n ≤ vlen v)%nat then (false, v)
  else (true, mkVec (replicate (n + n / 4) go_zero) (n + n / 4)).

Definition reserve v (n : nat) : vec T :=
  if bool_decide (vcap v < n)%nat then grow v n else v.

(** [append(s, x)] with room left writes in place. *)
Definition appendInPlace v x : vec T := mkVec (<[vlen v := x]> (vbuf v)) (S (vlen v)).

Definition pushBack v x : vec T :=
  let v := if bool_decide (vlen v = vcap v) then grow v (S (vlen v)) else v in
  appendInPlace v x.

Definition ensureLen v (n : nat) : vec T :=
  if bool_decide (n ≤ vlen v)%nat then v
  else mkVec (vbuf (reserve v n)) n.

(** [append(v.s[:0], xs...)]: in place when the capacity allows, else a fresh
    allocation whose capacity the runtime picks ([extra] zeroed cells more
    than needed). *)
Definition appendOver v (xs : list T) (extra : nat) : vec T :=
  if bool_decide (length xs ≤ vcap v)%nat
  then mkVec (xs ++ drop (length xs) (vbuf v)) (length xs)
  else mkVec (xs ++ replicate extra go_zero) (length xs).

(** ** Invariants *)

(** The window lies inside the allocation. *)
Definition vwf v : Prop := (vlen v ≤ vcap v)%nat.

(** Nothing but zeros behind the window. *)
Definition vclean v : Prop :=
  ∀ i x, vbuf v !! i = Some x → (vlen v ≤ i)%nat → x = go_zero.

Lemma length_vslice v : vwf v → length (vslice v) = vlen v.
Proof. unfold vwf, vcap, vslice. intros. rewrite length_take. lia. Qed.

Lemma nextCap_ge v need : (need ≤ nextCap v need)%nat.
Proof. unfold nextCap. repeat case_bool_decide; lia. Qed.

Lemma nextCap_len v need : vwf v → (vlen v ≤ nextCap v need)%nat.
Proof. unfold vwf, nextCap. intros. repeat case_bool_decide; lia. Qed.

Lemma vcap_grow v need : vwf v → vcap (grow v need) = nextCap v need.
Proof.
  intros Hw. pose proof (nextCap_len v need Hw). unfold vcap at 1, grow; simpl.
  rewrite length_app, length_replicate, length_vslice by done. lia.
Qed.

Lemma vslice_grow v need : vwf v → vslice (grow v need) = vslice v.
Proof.
  intros Hw. unfold vslice at 1, grow; simpl.
  by rewrite take_app_length' by (by rewrite length_vslice).
Qed.

Lemma vclean_grow v need : vwf v → vclean (grow v need).
Proof.
  intros Hw i x. unfold grow; simpl. intros Hi Hge.
  rewrite lookup_app_r in Hi by (by rewrite length_vslice).
  by apply lookup_replicate_1 in Hi as [-> _].
Qed.

Lemma vwf_grow v need : vwf v → vwf (grow v need).
Proof.
  intros Hw. unfold vwf. rewrite vcap_grow by done. simpl. by apply nextCap_len.
Qed.

Lemma vclean_zero : vclean (go_zero : vec T).
Proof. intros i x Hx. by destruct i. Qed.

Lemma vwf_zero : vwf (go_zero : vec T).
Proof. unfold vwf. simpl. lia. Qed.

Lemma reserve_spec v n :
  vwf v → vclean v →
  vwf (reserve v n) ∧ vclean (reserve v n) ∧ vslice (reserve v n) = vslice v ∧
  vlen (reserve v n) = vlen v ∧ (n ≤ vcap (reserve v n))%nat.
Proof.
  intros Hw Hc. unfold reserve. case_bool_decide.
  - split_and!; [by apply vwf_grow|by apply vclean_grow|by apply vslice_grow|done|].
    rewrite vcap_grow by done. apply nextCap_ge.
  - split_and!; [done..|lia].
Qed.

(** The window of a clean vector is read with zeros past its end. *)
Lemma unsafeAt_clean v i :
  vwf v → vclean v → Z.of_nat (vlen v) <= i < Z.of_nat (vcap v) → unsafeAt v i = Some go_zero.
Proof.
  intros Hw Hc Hi. unfold unsafeAt. destruct (zget_in (vbuf v) i) as [x Hx].
  { unfold vcap in Hi. lia. }
  rewrite Hx. f_equal. unfold zget in Hx. rewrite bool_decide_true in Hx by lia.
  apply (Hc _ _ Hx). lia.
Qed.

Lemma vslice_lookup v i : vwf v → (i < vlen v)%nat → vslice v !! i = vbuf v !! i.
Proof. intros. unfold vslice. by apply lookup_take_lt. Qed.

Lemma zget_vslice v i : vwf v → i < Z.of_nat (vlen v) → zget (vslice v) i = unsafeAt v i.
Proof.
  intros Hw Hi. unfold unsafeAt, zget. case_bool_decide; [|done].
  apply vslice_lookup; [done|lia].
Qed.

(** [ensureLen] on a clean vector adds zeros. *)
Lemma ensureLen_spec v n :
  vwf v → vclean v →
  vwf (ensureLen v n) ∧ vclean (ensureLen v n) ∧ vlen (ensureLen v n) = (vlen v `max` n)%nat ∧
  vslice (ensureLen v n) = vslice v ++ replicate (n - vlen v) go_zero.
Proof.
  intros Hw Hc. unfold ensureLen. case_bool_decide as Hn.
  { replace (n - vlen v)%nat with 0%nat by lia. rewrite app_nil_r. split_and!; [done..|lia|done]. }
  destruct (reserve_spec v n Hw Hc) as (Hw' & Hc' & Hs & Hl & Hcap).
  set (r := reserve v n) in *. split_and!; [done| |simpl; lia|].
  - intros i x Hx Hi. simpl in *. apply (Hc' i); [done|lia].
  - unfold vslice at 1; simpl. apply list_eq. intros i.
    destruct (decide (i < n)%nat) as [Hin|Hin].
    + rewrite lookup_take_lt by done. destruct (decide (i < vlen v)%nat) as [Hiv|Hiv].
      * rewrite lookup_app_l by (by rewrite length_vslice).
        rewrite <-Hs. symmetry. apply vslice_lookup; [done|lia].
      * rewrite lookup_app_r by (rewrite length_vslice by done; lia).
        rewrite length_vslice by done. rewrite lookup_replicate_2 by lia.
        destruct (lookup_lt_is_Some_2 (vbuf r) i) as [x Hx]; [unfold vcap in Hcap; lia|].
        rewrite Hx. f_equal. apply (Hc' i); [done|lia].
    + rewrite lookup_take_ge by lia. symmetry. apply lookup_ge_None_2.
      rewrite length_app, length_replicate, length_vslice by done. lia.
Qed.

(** [pushBack] appends. *)
Lemma pushBack_spec v x :
  vwf v → vclean v →
  vwf (pushBack v x) ∧ vclean (pushBack v x) ∧ vslice (pushBack v x) = vslice v ++ [x].
Proof.
  intros Hw Hc. unfold pushBack.
  set (v' := if bool_decide (vlen v = vcap v) then grow v (S (vlen v)) else v).
  assert (vwf v' ∧ vclean v' ∧ vslice v' = vslice v ∧ (vlen v' < vcap v')%nat)
    as (Hw' & Hc' & Hs & Hlt).
  { unfold v'. case_bool_decide.
    - split_and!; [by apply vwf_grow|by apply vclean_grow|by apply vslice_grow|].
      rewrite vcap_grow by done. simpl. pose proof (nextCap_ge v (S (vlen v))). lia.
    - unfold vwf in *. split_and!; [done..|lia]. }
  unfold vcap in Hlt. split_and!.
  - unfold vwf, vcap. simpl. rewrite length_insert. lia.
  - intros i y. simpl. intros Hy Hi. rewrite list_lookup_insert_ne in Hy by lia.
    apply (Hc' i); [done|lia].
  - rewrite <-Hs. unfold vslice, appendInPlace; simpl. rewrite (take_S_r _ _ x).
    + f_equal. rewrite take_insert_ge by lia. done.
    + apply list_lookup_insert_eq. lia.
Qed.

Lemma vlen_pushBack v x : vlen (pushBack v x) = S (vlen v).
Proof. unfold pushBack. simpl. by case_bool_decide. Qed.

Lemma freshLen_spec v n b v' :
  vwf v → vclean v → freshLen v n = (b, v') →
  vwf v' ∧ vclean v' ∧ (n ≤ vlen v')%nat ∧
  (if b then vslice v' = replicate (vlen v') go_zero else v' = v).
Proof.
  intros Hw Hc. unfold freshLen. case_bool_decide; intros [= <- <-].
  - done.
  - split_and!.
    + unfold vwf, vcap. simpl. by rewrite length_replicate.
    + intros i x. simpl. intros Hi Hge. by apply lookup_replicate_1 in Hi as [-> _].
    + simpl. lia.
    + unfold vslice; simpl. rewrite take_ge; [done|]. by rewrite length_replicate.
Qed.

Lemma unsafeSet_in v i x :
  0 <= i < Z.of_nat (vcap v) →
  unsafeSet v i x = Some (mkVec (<[Z.to_nat i := x]> (vbuf v)) (vlen v)).
Proof. intros. unfold unsafeSet. by rewrite zset_in. Qed.

(** A raw write inside the window is a write of the window. *)
Lemma unsafeSet_spec v i x :
  vwf v → vclean v → 0 <= i < Z.of_nat (vlen v) →
  ∃ v', unsafeSet v i x = Some v' ∧ vwf v' ∧ vclean v' ∧ vlen v' = vlen v ∧
        vslice v' = <[Z.to_nat i := x]> (vslice v).
Proof.
  intros Hw Hc Hi. unfold vwf in Hw. rewrite unsafeSet_in by lia. eexists; split; [done|].
  split_and!; simpl.
  - unfold vwf, vcap in *. simpl. by rewrite length_insert.
  - intros j y. simpl. intros Hy Hj. rewrite list_lookup_insert_ne in Hy by lia.
    by apply (Hc j).
  - done.
  - unfold vslice; simpl. by rewrite take_insert_lt by lia.
Qed.
End vec.

#[export] Hint Resolve vwf_zero vclean_zero vwf_grow vclean_grow : ay.
