(* ===== verification/BitSets.v ===== *)
(** * Bit sets over machine-word ids (bit_set.go, two_bit_set.go)

    [BitSet] packs a set of uint32 ids into 64-bit words, [TwoBitSet] packs a
    two-bit state per id; both grow on demand. Their operations are shown to
    refine a predicate, respectively a function, on ids, as long as nothing is
    left behind the window of the word vector. [copyFrom] is the operation that
    can leave something there. *)

From S2P Require Import Prelude Vec.

Local Open Scope Z_scope.

(** Bits of the word operations the two sets use. *)
Lemma testbit_bit i j : 0 <= i < 64 → 0 <= j →
  Z.testbit (u64 (Z.shiftl 1 i)) j = bool_decide (i = j).
Proof.
  intros Hi Hj. unfold u64. rewrite Z.shiftl_1_l, Z.mod_small.
  - rewrite Z.pow2_bits_eqb by lia. case_bool_decide; destruct (Z.eqb_spec i j); congruence.
  - split; [apply Z.pow_nonneg; lia|]. apply Z.pow_lt_mono_r; lia.
Qed.

(** Id arithmetic: [v >> k] and [v & (2 ^ k - 1)] identify [v]. *)
Lemma id_split k u v : 0 <= k → 0 <= u → 0 <= v →
  Z.shiftr u k = Z.shiftr v k → Z.land u (Z.ones k) = Z.land v (Z.ones k) → u = v.
Proof.
  intros Hk Hu Hv. rewrite !Z.shiftr_div_pow2, !Z.land_ones by done. intros Hd Hm.
  rewrite (Z.div_mod u (2 ^ k)), (Z.div_mod v (2 ^ k)) by (apply Z.pow_nonzero; lia).
  by rewrite Hd, Hm.
Qed.

Lemma land_ones_range v k : 0 <= k → 0 <= Z.land v (Z.ones k) < 2 ^ k.
Proof. intros. rewrite Z.land_ones by done. apply Z.mod_pos_bound, Z.pow_pos_nonneg; lia. Qed.

Lemma shiftr_u32 v k : 0 <= k <= 32 → is_u32 v → 0 <= Z.shiftr v k < 2 ^ (32 - k).
Proof.
  intros Hk Hv. rewrite Z.shiftr_div_pow2 by lia.
  split; [apply Z.div_pos; [lia|apply Z.pow_pos_nonneg; lia]|].
  apply Z.div_lt_upper_bound; [apply Z.pow_pos_nonneg; lia|].
  rewrite <-Z.pow_add_r by lia. replace (k + (32 - k)) with 32 by lia. lia.
Qed.

Module BitSet.

Record BitSet := mkBitSet { words : vec Z }.

#[export] Instance BitSet_go_zero : GoZero BitSet := mkBitSet go_zero.

Definition has (b : BitSet) (v : Z) : option bool :=
  let w := Z.shiftr v 6 in
  if u32 (Z.of_nat (vlen (words b))) <=? w then Some false
  else x ← unsafeAt (words b) w;
       Some (negb (Z.land x (u64 (Z.shiftl 1 (Z.land v 63))) =? 0)).

Definition add (b : BitSet) (v : Z) : option BitSet :=
  let w := Z.shiftr v 6 in
  let ws := if Z.of_nat (vlen (words b)) <=? w
            then ensureLen (words b) (Z.to_nat w + 1) else words b in
  x ← unsafeAt ws w;
  ws ← unsafeSet ws w (Z.lor x (u64 (Z.shiftl 1 (Z.land v 63))));
  Some (mkBitSet ws).

(** [b.words.s = append(b.words.s[:0], o.words.s...)]; [extra] is the room the
    runtime adds when it reallocates. *)
Definition copyFrom (extra : nat) (b o : BitSet) : BitSet :=
  mkBitSet (appendOver (words b) (vslice (words o)) extra).

Definition remove (b : BitSet) (v : Z) : option BitSet :=
  let w := Z.shiftr v 6 in
  if w <? u32 (Z.of_nat (vlen (words b))) then
    x ← unsafeAt (words b) w;
    ws ← unsafeSet (words b) w (Z.ldiff x (u64 (Z.shiftl 1 (Z.land v 63))));
    Some (mkBitSet ws)
  else Some b.

(** ** The set a bit set stands for *)

Definition member (b : BitSet) (v : Z) : bool :=
  match zget (vslice (words b)) (Z.shiftr v 6) with
  | Some x => Z.testbit x (Z.land v 63)
  | None => false
  end.

(** Ids are 32-bit, so [2 ^ 26] words suffice. *)
Record wf (b : BitSet) : Prop := mk_wf {
  wf_vec : vwf (words b);
  wf_clean : vclean (words b);
  wf_len : Z.of_nat (vlen (words b)) <= 2 ^ 26 }.

Lemma bitset_wf_zero : wf go_zero.
Proof. split; simpl; [apply vwf_zero|apply vclean_zero|lia]. Qed.

Lemma member_zero v : member go_zero v = false.
Proof. unfold member. simpl. unfold zget. case_bool_decide; [|done]. by destruct (Z.to_nat _). Qed.

Lemma bit_test x i : 0 <= i < 64 →
  negb (Z.land x (u64 (Z.shiftl 1 i)) =? 0) = Z.testbit x i.
Proof.
  intros Hi. destruct (Z.eqb_spec (Z.land x (u64 (Z.shiftl 1 i))) 0) as [E|E]; simpl.
  - apply (f_equal (λ z, Z.testbit z i)) in E.
    rewrite Z.land_spec, testbit_bit, bool_decide_true, Z.bits_0, andb_true_r in E by lia.
    done.
  - destruct (Z.testbit x i) eqn:Hb; [done|]. exfalso. apply E, Z.bits_inj'. intros j Hj.
    rewrite Z.land_spec, testbit_bit, Z.bits_0 by lia.
    case_bool_decide; subst; by rewrite ?Hb, ?andb_false_r.
Qed.

(** ** Bit sets that may have bits left over

    After [copyFrom] the cells behind the window need not be zero, and [add] can
    bring bits back.  Members are never lost. *)

Record bounded (b : BitSet) : Prop := mk_bounded {
  bounded_vec : vwf (words b);
  bounded_len : Z.of_nat (vlen (words b)) <= 2 ^ 26 }.

Lemma wf_bounded b : wf b → bounded b.
Proof. by intros []. Qed.

Lemma bounded_has b v : bounded b → is_u32 v → has b v = Some (member b v).
Proof.
  intros [Hw Hl] Hv. unfold has, member. pose proof (shiftr_u32 v 6 ltac:(lia) Hv).
  pose proof (land_ones_range v 6 ltac:(lia)). change (Z.ones 6) with 63 in *.
  rewrite u32_id by lia. zcases.
  - replace (zget _ _) with (@None Z); [done|]. symmetry. apply zget_None.
    rewrite length_vslice by done. lia.
  - rewrite zget_vslice by (done || lia). unfold unsafeAt.
    destruct (zget_in (vbuf (words b)) (Z.shiftr v 6)) as [x ->].
    { unfold vwf, vcap in Hw. lia. }
    simpl. by rewrite bit_test by lia.
Qed.

(** [has] answers membership. *)
Lemma bitset_has_spec b v : wf b → is_u32 v → has b v = Some (member b v).
Proof. intros Hb. by apply bounded_has, wf_bounded. Qed.

(** Writing the word of [v] changes membership as the new word says. *)
Lemma member_write ws ws' v x u :
  is_u32 u → is_u32 v → Z.shiftr v 6 < Z.of_nat (length (vslice ws)) →
  vslice ws' = <[Z.to_nat (Z.shiftr v 6) := x]> (vslice ws) →
  member (mkBitSet ws') u =
    if decide (Z.shiftr v 6 = Z.shiftr u 6) then Z.testbit x (Z.land u 63)
    else member (mkBitSet ws) u.
Proof.
  intros Hu Hv Hlt Hs. pose proof (shiftr_u32 v 6 ltac:(lia) Hv). unfold member; simpl.
  rewrite Hs, zget_insert by lia. by case_decide.
Qed.

Lemma same_word_bit u v :
  is_u32 u → is_u32 v → Z.shiftr v 6 = Z.shiftr u 6 →
  bool_decide (Z.land v 63 = Z.land u 63) = bool_decide (v = u).
Proof.
  intros Hu Hv Hw. apply bool_decide_ext. split; [|congruence].
  intros. by apply (id_split 6); try lia.
Qed.

(** [ensureLen] with room for [w] leaves the set alone and makes [w] readable. *)
Lemma room_spec b w :
  wf b → 0 <= w < 2 ^ 26 →
  let ws := if Z.of_nat (vlen (words b)) <=? w
            then ensureLen (words b) (Z.to_nat w + 1) else words b in
  vwf ws ∧ vclean ws ∧ w < Z.of_nat (vlen ws) ∧ Z.of_nat (vlen ws) <= 2 ^ 26 ∧
  ∀ u, member (mkBitSet ws) u = member b u.
Proof.
  intros [Hw Hc Hl] Hr. zcases; simpl; [|by destruct b].
  destruct (ensureLen_spec (words b) (Z.to_nat w + 1) Hw Hc) as (Hw' & Hc' & Hl' & Hs).
  split_and!; [done..|lia|lia|]. intros u. unfold member; simpl. rewrite Hs.
  destruct (decide (0 <= Z.shiftr u 6 < Z.of_nat (vlen (words b)))) as [Hin|Hout].
  { by rewrite zget_app_l by (rewrite length_vslice by done; lia). }
  replace (zget (vslice (words b)) _) with (@None Z)
    by (symmetry; apply zget_None; by rewrite length_vslice).
  destruct (zget _ _) as [x|] eqn:E; [|done].
  pose proof (zget_Some_range _ _ _ E) as Hr'.
  rewrite zget_app_r in E by (rewrite length_vslice by done; lia).
  unfold zget in E. case_bool_decide; [|done]. apply lookup_replicate_1 in E as [-> _].
  apply Z.bits_0.
Qed.

(** [add] inserts. *)
Lemma bitset_add_spec b v :
  wf b → is_u32 v →
  ∃ b', add b v = Some b' ∧ wf b' ∧
        ∀ u, is_u32 u → member b' u = bool_decide (v = u) || member b u.
Proof.
  intros Hwf Hv. unfold add. pose proof (shiftr_u32 v 6 ltac:(lia) Hv).
  pose proof (room_spec b (Z.shiftr v 6) Hwf ltac:(lia)) as Hroom; simpl in Hroom.
  set (ws := if _ <=? _ then _ else _) in *. destruct Hroom as (Hw & Hc & Hlt & Hl & Hm).
  destruct (zget_in (vslice ws) (Z.shiftr v 6)) as [x Hx].
  { rewrite length_vslice by done. lia. }
  rewrite <-(zget_vslice ws), Hx by (done || lia). simpl.
  edestruct (unsafeSet_spec ws (Z.shiftr v 6)) as (ws' & -> & Hw' & Hc' & Hl' & Hs); [done..|lia|].
  simpl. eexists; split; [done|]. split; [by split; simpl; rewrite ?Hl'|]. intros u Hu.
  rewrite (member_write ws ws' v _ u) by (done || rewrite length_vslice by done; lia).
  rewrite <-Hm. pose proof (land_ones_range u 6 ltac:(lia)).
  pose proof (land_ones_range v 6 ltac:(lia)). change (Z.ones 6) with 63 in *. case_decide as Hsame.
  - rewrite Z.lor_spec, testbit_bit, same_word_bit by (done || lia).
    unfold member; simpl. by rewrite <-Hsame, Hx, orb_comm.
  - rewrite bool_decide_false by congruence. done.
Qed.

(** [remove] deletes. *)
Lemma remove_spec b v :
  wf b → is_u32 v →
  ∃ b', remove b v = Some b' ∧ wf b' ∧
        ∀ u, is_u32 u → member b' u = negb (bool_decide (v = u)) && member b u.
Proof.
  intros Hwf Hv. pose proof Hwf as [Hw Hc Hl]. unfold remove.
  pose proof (shiftr_u32 v 6 ltac:(lia) Hv). rewrite u32_id by lia. zcases.
  - destruct (zget_in (vslice (words b)) (Z.shiftr v 6)) as [x Hx].
    { rewrite length_vslice by done. lia. }
    rewrite <-(zget_vslice (words b)), Hx by (done || lia). simpl.
    edestruct (unsafeSet_spec (words b) (Z.shiftr v 6)) as (ws' & -> & Hw' & Hc' & Hl' & Hs);
      [done..|lia|].
    simpl. eexists; split; [done|]. split; [by split; simpl; rewrite ?Hl'|]. intros u Hu.
    rewrite (member_write (words b) ws' v _ u) by (done || rewrite length_vslice by done; lia).
    pose proof (land_ones_range u 6 ltac:(lia)).
    pose proof (land_ones_range v 6 ltac:(lia)). change (Z.ones 6) with 63 in *.
    case_decide as Hsame.
    + rewrite Z.ldiff_spec, testbit_bit, same_word_bit by (done || lia).
      unfold member; simpl. by rewrite <-Hsame, Hx, andb_comm.
    + rewrite bool_decide_false by congruence. by destruct b.
  - eexists; split; [done|]. split; [done|]. intros u Hu. case_bool_decide; [subst|done].
    unfold member. replace (zget _ _) with (@None Z); [done|]. symmetry.
    apply zget_None. rewrite length_vslice by done. lia.
Qed.

(** [copyFrom] copies the set, whatever the receiver held. *)
Lemma copyFrom_spec extra b o :
  vwf (words b) → vwf (words o) →
  vwf (words (copyFrom extra b o)) ∧ ∀ u, member (copyFrom extra b o) u = member o u.
Proof.
  intros Hwb Hwo. unfold copyFrom, appendOver. case_bool_decide as Hcap; simpl.
  - split; [unfold vwf, vcap; simpl; len|]. intros u. unfold member; simpl.
    unfold vslice at 1; simpl. by rewrite take_app_length.
  - split; [unfold vwf, vcap; simpl; len|]. intros u. unfold member; simpl.
    unfold vslice at 1; simpl. by rewrite take_app_length.
Qed.

(** A receiver no longer than the source stays clean, so it can be used as a
    set again. *)
Lemma copyFrom_wf extra b o :
  wf b → wf o → (vlen (words b) ≤ vlen (words o))%nat → wf (copyFrom extra b o).
Proof.
  intros [Hwb Hcb _] [Hwo Hco Hlo] Hle. pose proof (length_vslice _ Hwo) as Hlen.
  unfold copyFrom, appendOver. split; simpl; case_bool_decide; simpl; [unfold vwf, vcap; simpl; len..| | |lia|lia].
  - intros j x Hx Hj; simpl in *. rewrite lookup_app_r, lookup_drop in Hx by lia.
    apply (Hcb _ _ Hx). lia.
  - intros j x Hx Hj; simpl in *. rewrite lookup_app_r in Hx by lia.
    by apply lookup_replicate_1 in Hx as [-> _].
Qed.

(** Rewriting the word of [v] by [f]. *)
Lemma bounded_update ws v (f : Z → Z) : vwf ws → Z.of_nat (vlen ws) <= 2 ^ 26 → is_u32 v → Z.shiftr v 6 < Z.of_nat (vlen ws) →
  ∃ x ws', unsafeAt ws (Z.shiftr v 6) = Some x ∧ unsafeSet ws (Z.shiftr v 6) (f x) = Some ws' ∧ bounded (mkBitSet ws') ∧
    zget (vslice ws) (Z.shiftr v 6) = Some x ∧
    ∀ u, is_u32 u → member (mkBitSet ws') u = if decide (Z.shiftr v 6 = Z.shiftr u 6) then Z.testbit (f x) (Z.land u 63) else member (mkBitSet ws) u.
Proof.
  intros Hw Hl Hv Hlt. pose proof (shiftr_u32 v 6 ltac:(lia) Hv). pose proof Hw as Hw'. unfold vwf in Hw'.
  destruct (zget_in (vslice ws) (Z.shiftr v 6)) as [x Hx]; [rewrite length_vslice by done; lia|]. exists x.
  rewrite unsafeSet_in by lia. eexists. split; [by rewrite <-(zget_vslice ws) by (done || lia)|]. split; [done|]. split_and!.
  - split; simpl; [|done]. unfold vwf, vcap in *. simpl. by rewrite length_insert.
  - done.
  - intros u Hu. apply member_write; [done..|rewrite length_vslice by done; lia|]. unfold vslice. simpl. by rewrite take_insert_lt by lia.
Qed.

Lemma bounded_remove b v : bounded b → is_u32 v →
  ∃ b', remove b v = Some b' ∧ bounded b' ∧ ∀ u, is_u32 u → member b' u = negb (bool_decide (v = u)) && member b u.
Proof.
  intros Hb Hv. pose proof Hb as [Hw Hl]. unfold remove. pose proof (shiftr_u32 v 6 ltac:(lia) Hv). rewrite u32_id by lia. zcases.
  - edestruct (bounded_update (words b) v) as (x & ws' & -> & Hset & Hb' & Hx & Hm); [done..|]. simpl. rewrite Hset. simpl. eexists. split; [done|].
    split; [done|]. intros u Hu. rewrite Hm by done. pose proof (land_ones_range u 6 ltac:(lia)). pose proof (land_ones_range v 6 ltac:(lia)).
    change (Z.ones 6) with 63 in *. case_decide as Hsame.
    + rewrite Z.ldiff_spec, testbit_bit, same_word_bit by (done || lia). unfold member; simpl. by rewrite <-Hsame, Hx, andb_comm.
    + rewrite bool_decide_false by congruence. by destruct b.
  - eexists; split; [done|]. split; [done|]. intros u Hu. case_bool_decide; [subst|done].
    unfold member. replace (zget _ _) with (@None Z); [done|]. symmetry. apply zget_None. rewrite length_vslice by done. lia.
Qed.

Lemma bounded_add b v : bounded b → is_u32 v →
  ∃ b', add b v = Some b' ∧ bounded b' ∧ member b' v = true ∧ ∀ u, is_u32 u → member b u = true → member b' u = true.
Proof.
  intros [Hw Hl] Hv. pose proof (shiftr_u32 v 6 ltac:(lia) Hv). unfold add.
  set (ws := if _ <=? _ then _ else _).
  assert (vwf ws ∧ Z.of_nat (vlen ws) <= 2 ^ 26 ∧ Z.shiftr v 6 < Z.of_nat (vlen ws) ∧ take (vlen (words b)) (vbuf ws) = vslice (words b) ∧ (vlen (words b) <= vlen ws)%nat)
    as (Hw' & Hl' & Hlt & Hs & Hge).
  { unfold ws. zcases; [|split_and!; [done|done|lia|done|lia]]. unfold ensureLen. rewrite bool_decide_false by lia. unfold reserve. case_bool_decide.
    - pose proof (nextCap_ge (words b) (Z.to_nat (Z.shiftr v 6) + 1)). pose proof (vcap_grow (words b) (Z.to_nat (Z.shiftr v 6) + 1) Hw).
      split_and!; [unfold vwf, vcap in *; simpl in *; lia|simpl; lia|simpl; lia|by apply vslice_grow|simpl; lia].
    - split_and!; [unfold vwf, vcap in *; simpl in *; lia|simpl; lia|simpl; lia|done|simpl; lia]. }
  edestruct (bounded_update ws v) as (x & ws' & -> & Hset & Hb' & Hx & Hm); [done..|]. simpl. rewrite Hset. simpl. eexists. split; [done|].
  split; [done|]. pose proof (land_ones_range v 6 ltac:(lia)). split.
  - rewrite Hm, decide_True by done. change (Z.ones 6) with 63 in *. rewrite Z.lor_spec, testbit_bit, bool_decide_true by lia. apply orb_true_r.
  - intros u Hu Hmem. rewrite Hm by done. pose proof (land_ones_range u 6 ltac:(lia)). change (Z.ones 6) with 63 in *.
    assert (Hold : member (mkBitSet ws) u = true).
    { revert Hmem. unfold member. simpl. destruct (zget (vslice (words b)) (Z.shiftr u 6)) as [y|] eqn:E; [|done].
      assert (zget (vslice ws) (Z.shiftr u 6) = Some y) as ->; [|done]. pose proof (zget_Some_range _ _ _ E) as Hr. rewrite length_vslice in Hr by done.
      rewrite <-E, <-Hs. unfold zget, vslice. case_bool_decide; [|done]. by rewrite !lookup_take_lt by lia. }
    case_decide as Hsame; [|done]. rewrite Z.lor_spec. unfold member in Hold; simpl in Hold. rewrite <-Hsame, Hx in Hold. by rewrite Hold.
Qed.

(** ** Sequences of operations against a mathematical set *)

Inductive op := OpAdd (v : Z) | OpRemove (v : Z).

Definition op_id (o : op) : Z := match o with OpAdd v | OpRemove v => v end.

Definition exec (b : BitSet) (o : op) : option BitSet :=
  match o with OpAdd v => add b v | OpRemove v => remove b v end.

Definition run (b : BitSet) (ops : list op) : option BitSet :=
  foldl (λ ob o, b ← ob; exec b o) (Some b) ops.

Definition spec_step (s : gset Z) (o : op) : gset Z :=
  match o with OpAdd v => {[v]} ∪ s | OpRemove v => s ∖ {[v]} end.

Lemma exec_spec b o s :
  wf b → is_u32 (op_id o) → (∀ u, is_u32 u → member b u = bool_decide (u ∈ s)) →
  ∃ b', exec b o = Some b' ∧ wf b' ∧
        ∀ u, is_u32 u → member b' u = bool_decide (u ∈ spec_step s o).
Proof.
  intros Hwf Ho Hs. destruct o as [v|v]; simpl in *.
  - destruct (bitset_add_spec b v Hwf Ho) as (b' & -> & Hwf' & Hm). exists b'. split_and!; [done..|].
    intros u Hu. rewrite Hm, Hs by done. repeat case_bool_decide; set_solver.
  - destruct (remove_spec b v Hwf Ho) as (b' & -> & Hwf' & Hm). exists b'. split_and!; [done..|].
    intros u Hu. rewrite Hm, Hs by done. repeat case_bool_decide; set_solver.
Qed.

Lemma run_spec ops b s :
  wf b → (∀ u, is_u32 u → member b u = bool_decide (u ∈ s)) →
  Forall (λ o, is_u32 (op_id o)) ops →
  ∃ b', run b ops = Some b' ∧ wf b' ∧
        ∀ u, is_u32 u → member b' u = bool_decide (u ∈ foldl spec_step s ops).
Proof.
  revert b s. induction ops as [|o ops IH]; intros b s Hwf Hs Hops; [by exists b|].
  apply Forall_cons in Hops as [Ho Hops].
  destruct (exec_spec b o s Hwf Ho Hs) as (b1 & E & Hwf1 & Hs1).
  destruct (IH b1 _ Hwf1 Hs1 Hops) as (b' & E' & ?). exists b'. split; [|done].
  unfold run. simpl. by rewrite E.
Qed.

(** Any sequence of [add] and [remove] on a fresh bit set runs without a
    fault, and afterwards [has] answers exactly what the same operations on a
    mathematical set say. *)
Theorem bitset_refines_set ops :
  Forall (λ o, is_u32 (op_id o)) ops →
  ∃ b, run go_zero ops = Some b ∧
       ∀ u, is_u32 u → has b u = Some (bool_decide (u ∈ foldl spec_step ∅ ops)).
Proof.
  intros Hops. destruct (run_spec ops go_zero ∅) as (b & E & Hwf & Hs);
    [apply bitset_wf_zero|by intros; rewrite member_zero|done|].
  exists b. split; [done|]. intros u Hu. by rewrite bitset_has_spec, Hs.
Qed.

Lemma bitset_refines_set_witness :
  ∃ b, run go_zero [OpAdd 7; OpAdd 200; OpRemove 7] = Some b ∧
       ∀ u, is_u32 u → has b u = Some (bool_decide (u ∈ ({[200]} : gset Z))).
Proof.
  destruct (bitset_refines_set [OpAdd 7; OpAdd 200; OpRemove 7]) as (b & E & Hb);
    [forall_lia|].
  exists b. split; [exact E|]. intros u Hu. rewrite Hb by exact Hu.
  reflexivity.
Defined.

(** [copyFrom] is not a full reset of its receiver: a set that held the ids
    0 and 100, overwritten by a copy of the set {1}, contains 100 again as soon
    as an id beyond it is added, although nothing added it after the copy. *)
Theorem copyFrom_resurrects extra :
  ∃ b o c : BitSet,
    run go_zero [OpAdd 0; OpAdd 100] = Some b ∧ run go_zero [OpAdd 1] = Some o ∧
    has (copyFrom extra b o) 100 = Some false ∧
    add (copyFrom extra b o) 128 = Some c ∧ has c 100 = Some true.
Proof.
  exists (mkBitSet (mkVec [1; 2 ^ 36; 0; 0; 0; 0; 0; 0] 2)).
  exists (mkBitSet (mkVec [2; 0; 0; 0; 0; 0; 0; 0] 1)).
  exists (mkBitSet (mkVec [2; 2 ^ 36; 1; 0; 0; 0; 0; 0] 3)).
  split_and!; vm_compute; reflexivity.
Qed.

End BitSet.

Module TwoBitSet.

Record TwoBitSet := mkTwoBitSet { words : vec Z }.

#[export] Instance TwoBitSet_go_zero : GoZero TwoBitSet := mkTwoBitSet go_zero.

Definition get (b : TwoBitSet) (v : Z) : option Z :=
  let w := Z.shiftr v 5 in
  if u32 (Z.of_nat (vlen (words b))) <=? w then Some 0
  else x ← unsafeAt (words b) w;
       Some (u8 (Z.land (Z.shiftr x (Z.land v 31 * 2)) 3)).

Definition set (b : TwoBitSet) (v val : Z) : option TwoBitSet :=
  let w := Z.shiftr v 5 in
  let ws := ensureLen (words b) (Z.to_nat w + 1) in
  let shift := Z.land v 31 * 2 in
  cell ← unsafeAt ws w;
  ws ← unsafeSet ws w (Z.lor (Z.ldiff cell (u64 (Z.shiftl 3 shift)))
                             (u64 (Z.shiftl (Z.land val 3) shift)));
  Some (mkTwoBitSet ws).

(** The state the packed words give an id. *)
Definition state (b : TwoBitSet) (v : Z) : Z :=
  match zget (vslice (words b)) (Z.shiftr v 5) with
  | Some x => Z.land (Z.shiftr x (Z.land v 31 * 2)) 3
  | None => 0
  end.

Record wf (b : TwoBitSet) : Prop := mk_wf {
  wf_vec : vwf (words b);
  wf_clean : vclean (words b);
  wf_len : Z.of_nat (vlen (words b)) <= 2 ^ 27 }.

Lemma land3_range x : 0 <= Z.land x 3 < 4.
Proof. change 3 with (Z.ones 2). rewrite Z.land_ones by lia. apply Z.mod_pos_bound. lia. Qed.

(** Reading the field that was just written, and reading any other one. *)
Lemma field_same x val s : 0 <= s → s <= 62 →
  Z.land (Z.shiftr (Z.lor (Z.ldiff x (u64 (Z.shiftl 3 s))) (u64 (Z.shiftl (Z.land val 3) s))) s) 3
  = Z.land val 3.
Proof.
  intros Hs Hs'. apply Z.bits_inj'. intros j Hj. change 3 with (Z.ones 2). unfold u64.
  rewrite !Z.land_spec, Z.shiftr_spec, Z.lor_spec, Z.ldiff_spec by lia.
  destruct (Z.lt_ge_cases j 2).
  - rewrite !Z.mod_pow2_bits_low, !Z.shiftl_spec, !Z.land_spec by lia.
    replace (j + s - s) with j by lia. rewrite !(Z.ones_spec_low 2) by lia.
    by rewrite andb_false_r, andb_true_r.
  - rewrite (Z.ones_spec_high 2) by lia. by rewrite !andb_false_r.
Qed.

Lemma field_other x val s t : 0 <= s <= 62 → 0 <= t <= 62 → s + 2 <= t ∨ t + 2 <= s →
  Z.land (Z.shiftr (Z.lor (Z.ldiff x (u64 (Z.shiftl 3 s))) (u64 (Z.shiftl (Z.land val 3) s))) t) 3
  = Z.land (Z.shiftr x t) 3.
Proof.
  intros Hs Ht Hd. apply Z.bits_inj'. intros j Hj. change 3 with (Z.ones 2). unfold u64.
  rewrite !Z.land_spec, !Z.shiftr_spec, Z.lor_spec, Z.ldiff_spec by lia.
  destruct (Z.lt_ge_cases j 2).
  - rewrite !Z.mod_pow2_bits_low by lia. rewrite !Z.shiftl_spec, !Z.land_spec by lia.
    destruct Hd.
    + rewrite !(Z.ones_spec_high 2 (j + t - s)) by lia. by rewrite andb_false_r, orb_false_r, andb_true_r.
    + rewrite !(Z.testbit_neg_r _ (j + t - s)) by lia. by rewrite orb_false_r, andb_true_r.
  - rewrite (Z.ones_spec_high 2) by lia. by rewrite !andb_false_r.
Qed.

Lemma get_spec b v : wf b → is_u32 v → get b v = Some (state b v).
Proof.
  intros [Hw _ Hl] Hv. unfold get, state. pose proof (shiftr_u32 v 5 ltac:(lia) Hv).
  rewrite u32_id by lia. zcases.
  - replace (zget _ _) with (@None Z); [done|]. symmetry. apply zget_None.
    rewrite length_vslice by done. lia.
  - rewrite zget_vslice by (done || lia). unfold unsafeAt.
    destruct (zget_in (vbuf (words b)) (Z.shiftr v 5)) as [x ->].
    { unfold vwf, vcap in Hw. lia. }
    simpl. f_equal. unfold u8. apply Z.mod_small.
    pose proof (land3_range (Z.shiftr x (Z.land v 31 * 2))). lia.
Qed.

Lemma state_ensureLen b n u :
  wf b → state (mkTwoBitSet (ensureLen (words b) n)) u = state b u.
Proof.
  intros [Hw Hc Hl]. destruct (ensureLen_spec (words b) n Hw Hc) as (_ & _ & _ & Hs).
  unfold state; simpl. rewrite Hs.
  destruct (decide (0 <= Z.shiftr u 5 < Z.of_nat (vlen (words b)))) as [Hin|Hout].
  { by rewrite zget_app_l by (rewrite length_vslice by done; lia). }
  replace (zget (vslice (words b)) _) with (@None Z)
    by (symmetry; apply zget_None; by rewrite length_vslice).
  destruct (zget _ _) as [x|] eqn:E; [|done].
  pose proof (zget_Some_range _ _ _ E) as Hr'.
  rewrite zget_app_r in E by (rewrite length_vslice by done; lia).
  unfold zget in E. case_bool_decide; [|done]. apply lookup_replicate_1 in E as [-> _].
  by rewrite Z.shiftr_0_l.
Qed.

(** [set] stores the low two bits of the value for its id and disturbs no
    other id, and [get] reads them back; neither faults on a well-formed set. *)
Theorem twobit_set_get b v val u :
  wf b → is_u32 v → is_u32 u →
  ∃ b', set b v val = Some b' ∧ wf b' ∧
        get b' u = if decide (v = u) then Some (Z.land val 3) else get b u.
Proof.
  intros Hwf Hv Hu. pose proof Hwf as [Hw Hc Hl]. unfold set.
  pose proof (shiftr_u32 v 5 ltac:(lia) Hv).
  destruct (ensureLen_spec (words b) (Z.to_nat (Z.shiftr v 5) + 1) Hw Hc) as (Hw' & Hc' & Hl' & _).
  pose proof (λ w, state_ensureLen b (Z.to_nat (Z.shiftr v 5) + 1) w Hwf) as Hst.
  set (ws := ensureLen _ _) in *.
  destruct (zget_in (vslice ws) (Z.shiftr v 5)) as [x Hx]; [rewrite length_vslice by done; lia|].
  rewrite <-(zget_vslice ws), Hx by (done || lia). simpl.
  edestruct (unsafeSet_spec ws (Z.shiftr v 5)) as (ws' & -> & Hw'' & Hc'' & Hl'' & Hs); [done..|lia|].
  simpl. eexists; split; [done|]. assert (Hwf' : wf (mkTwoBitSet ws')).
  { split; simpl; [done..|]. rewrite Hl'', Hl'. lia. }
  split; [done|]. rewrite !get_spec by done. rewrite <-(Hst u). unfold state; simpl.
  rewrite Hs, zget_insert by (rewrite length_vslice by done; lia).
  pose proof (land_ones_range u 5 ltac:(lia)). pose proof (land_ones_range v 5 ltac:(lia)).
  change (Z.ones 5) with 31 in *. case_decide as Hsame.
  - destruct (decide (v = u)) as [->|Hne]; [by rewrite field_same by lia|].
    rewrite <-Hsame, Hx, field_other; [done|lia..|].
    assert (Z.land v 31 ≠ Z.land u 31) by (intros ?; by apply Hne, (id_split 5); try lia). lia.
  - rewrite decide_False by congruence. done.
Qed.

Lemma twobit_wf_zero : wf go_zero.
Proof. split; simpl; [apply vwf_zero|apply vclean_zero|lia]. Qed.

Lemma twobit_set_get_witness :
  ∃ b', set go_zero 70 6 = Some b' ∧ wf b' ∧ get b' 70 = Some 2.
Proof.
  destruct (twobit_set_get go_zero 70 6 70) as (b' & E & Hw & Hg); [exact twobit_wf_zero|lia|lia|].
  exists b'. split; [exact E|]. split; [exact Hw|]. rewrite Hg. reflexivity.
Defined.

End TwoBitSet.
