(* ===== verification/IdSets.v ===== *)
(** * Epoch-stamped id sets and deduplication (id_set.go, de_duper.go)

    A set of ids that is cleared in constant time: an id is a member when its
    cell holds the current 16-bit epoch, and a reset only moves to the next
    epoch. When the epoch counter wraps around, the cells are cleared, so that a
    cell stamped 65535 resets ago is not mistaken for a member. *)

From S2P Require Import Prelude Vec.

Local Open Scope Z_scope.

(** [type IdSet struct { gen Vec[uint16]; epoch uint16 }], and [DeDuper], which
    has the same fields. *)
Record Stamps := mkStamps { gen : vec Z; epoch : Z }.

#[export] Instance Stamps_go_zero : GoZero Stamps := mkStamps go_zero 0.

(** [clear(s)]: zero the cells of the window. *)
Definition clear_vec (v : vec Z) : vec Z :=
  mkVec (replicate (vlen v) 0 ++ drop (vlen v) (vbuf v)) (vlen v).

(** ** Abstraction *)

Definition stamped (s : Stamps) (id : Z) : bool :=
  match zget (vslice (gen s)) id with
  | Some g => g =? epoch s
  | None => false
  end.

(** No cell is stamped with an epoch still to come. *)
Record wf (s : Stamps) : Prop := mk_wf {
  wf_vec : vwf (gen s);
  wf_clean : vclean (gen s);
  wf_epoch : 0 <= epoch s < 2 ^ 16;
  wf_cells : Forall (λ g, 0 <= g <= epoch s) (vslice (gen s)) }.

(** A set in use: some reset happened, so the zero of a fresh cell is not the
    epoch. *)
Record live (s : Stamps) : Prop := mk_live {
  live_wf : wf s;
  live_epoch : 1 <= epoch s }.

Lemma stamps_wf_zero : wf go_zero.
Proof. split; simpl; [apply vwf_zero|apply vclean_zero|lia|constructor]. Qed.

Lemma vslice_clear v : vwf v → vslice (clear_vec v) = replicate (vlen v) 0.
Proof.
  intros. unfold vslice, clear_vec; simpl. apply take_app_length'. by rewrite length_replicate.
Qed.

Lemma clear_vec_ok v : vwf v → vclean v → vwf (clear_vec v) ∧ vclean (clear_vec v).
Proof.
  intros Hw Hc. unfold vwf, vcap in *. simpl. split; [len|].
  intros i x Hx Hi; simpl in *. rewrite lookup_app_r in Hx by len.
  rewrite length_replicate, lookup_drop in Hx. apply (Hc _ _ Hx). lia.
Qed.

Lemma stamped_fresh v e id :
  1 <= e → Forall (λ g, 0 <= g < e) (vslice v) → stamped (mkStamps v e) id = false.
Proof.
  intros He Hc. unfold stamped; simpl. destruct (zget _ _) as [g|] eqn:E; [|done].
  unfold zget in E. case_bool_decide; [|done].
  rewrite Forall_lookup in Hc. apply Hc in E. zcases; [lia|done].
Qed.

(** Both resets, after the growth test: move to the next epoch, or wrap. *)
Definition next_epoch (s : Stamps) : Stamps :=
  let e := u16 (epoch s + 1) in
  if e =? 0 then mkStamps (clear_vec (gen s)) 1 else mkStamps (gen s) e.

Definition reset_to (n : nat) (s : Stamps) : Stamps :=
  let '(fresh, g) := freshLen (gen s) n in
  if fresh then mkStamps g 1 else next_epoch s.

Lemma replicate_zero_range n e : 1 <= e → Forall (λ g, 0 <= g < e) (replicate n 0).
Proof. intros. apply Forall_replicate. lia. Qed.

Lemma reset_to_spec n s :
  wf s → live (reset_to n s) ∧ (n ≤ vlen (gen (reset_to n s)))%nat ∧
  ∀ id, stamped (reset_to n s) id = false.
Proof.
  intros [Hw Hc He Hs]. unfold reset_to. destruct (freshLen (gen s) n) as [b g] eqn:E.
  destruct (freshLen_spec _ _ _ _ Hw Hc E) as (Hw' & Hc' & Hl' & Hb). destruct b.
  { pose proof (replicate_zero_range (vlen g) 1 ltac:(lia)) as Hz. split_and!; [|done|].
    - split; [split; simpl; [done..|lia|]|simpl; lia]. rewrite Hb.
      eapply Forall_impl; [exact Hz|simpl; lia].
    - intros id. apply stamped_fresh; [lia|]. by rewrite Hb. }
  subst g. unfold next_epoch, u16. destruct (decide (epoch s = 2 ^ 16 - 1)) as [Hmax|Hmax].
  - rewrite Hmax. simpl. destruct (clear_vec_ok _ Hw Hc).
    pose proof (replicate_zero_range (vlen (gen s)) 1 ltac:(lia)) as Hz. split_and!; [|done|].
    + split; [split; simpl; [done..|lia|]|simpl; lia]. rewrite vslice_clear by done.
      eapply Forall_impl; [exact Hz|simpl; lia].
    + intros id. apply stamped_fresh; [lia|]. by rewrite vslice_clear.
  - rewrite Z.mod_small by lia. zcases; [lia|]. split_and!; [|done|].
    + split; [split; simpl; [done..|lia|]|simpl; lia].
      eapply Forall_impl; [exact Hs|simpl; lia].
    + intros id. apply stamped_fresh; [lia|]. eapply Forall_impl; [exact Hs|simpl; lia].
Qed.

(** Stamping the cell of an id inside the window. *)
Lemma stamp_cell s id g' :
  live s → 0 <= id < Z.of_nat (vlen (gen s)) → vwf g' → vclean g' →
  vslice g' = <[Z.to_nat id := epoch s]> (vslice (gen s)) →
  live (mkStamps g' (epoch s)) ∧
  ∀ u, stamped (mkStamps g' (epoch s)) u = bool_decide (id = u) || stamped s u.
Proof.
  intros [[Hw Hc He Hs] Hl] Hid Hw' Hc' Hg. split.
  - split; [split; simpl; [done..|]|done]. rewrite Hg.
    apply Forall_insert; [done|lia].
  - intros u. unfold stamped; simpl. rewrite Hg, zget_insert by (by rewrite length_vslice).
    case_decide as Hu; [subst; rewrite bool_decide_true by done; by rewrite Z.eqb_refl|].
    by rewrite bool_decide_false.
Qed.

(** Growing the window does not add members. *)
Lemma stamped_ensureLen s n :
  live s →
  live (mkStamps (ensureLen (gen s) n) (epoch s)) ∧
  ∀ u, stamped (mkStamps (ensureLen (gen s) n) (epoch s)) u = stamped s u.
Proof.
  intros [[Hw Hc He Hs] Hl].
  destruct (ensureLen_spec (gen s) n Hw Hc) as (Hw' & Hc' & Hl' & Hsl). split.
  - split; [split; simpl; [done..|]|done]. rewrite Hsl. apply Forall_app. split; [done|].
    apply Forall_replicate. unfold go_zero, Z_go_zero. lia.
  - intros u. unfold stamped; simpl. rewrite Hsl.
    destruct (decide (0 <= u < Z.of_nat (vlen (gen s)))) as [Hin|Hout].
    { by rewrite zget_app_l by (by rewrite length_vslice). }
    replace (zget (vslice (gen s)) u) with (@None Z)
      by (symmetry; apply zget_None; by rewrite length_vslice).
    destruct (zget _ _) as [g|] eqn:E; [|done].
    pose proof (zget_Some_range _ _ _ E). rewrite zget_app_r in E by (rewrite length_vslice by done; lia).
    unfold zget in E. case_bool_decide; [|done]. apply lookup_replicate_1 in E as [-> _].
    unfold go_zero, Z_go_zero. zcases; [lia|done].
Qed.

(** The reference: keep the first occurrence of every id not seen yet. *)
Fixpoint keep_first (seen : Z → bool) (l : list Z) : list Z :=
  match l with
  | [] => []
  | x :: l => if seen x then keep_first seen l
              else x :: keep_first (λ y, bool_decide (x = y) || seen y) l
  end.

Lemma keep_first_ext f g l : (∀ x, f x = g x) → keep_first f l = keep_first g l.
Proof.
  revert f g. induction l as [|x l IH]; intros f g Hfg; simpl; [done|].
  rewrite (Hfg x), (IH f g Hfg). case_match; [done|]. f_equal. apply IH. intros. by rewrite Hfg.
Qed.

(** What [keep_first] computes: each unseen id once, at its first place. *)
Lemma keep_first_elem f l x : x ∈ keep_first f l ↔ x ∈ l ∧ f x = false.
Proof.
  revert f. induction l as [|y l IH]; intros f; simpl; [set_solver|].
  destruct (f y) eqn:Hy.
  - rewrite IH, elem_of_cons. naive_solver congruence.
  - rewrite !elem_of_cons, IH, orb_false_iff, bool_decide_eq_false.
    destruct (decide (x = y)) as [->|]; naive_solver.
Qed.

Lemma keep_first_NoDup f l : NoDup (keep_first f l).
Proof.
  revert f. induction l as [|x l IH]; intros f; simpl; [constructor|].
  case_match; [done|]. constructor; [|done].
  rewrite keep_first_elem, orb_false_iff, bool_decide_eq_false. naive_solver.
Qed.

Lemma keep_first_sublist f l : keep_first f l `sublist_of` l.
Proof.
  revert f. induction l as [|x l IH]; intros f; simpl; [constructor|].
  case_match; [by apply sublist_cons|by apply sublist_skip].
Qed.

Module IdSet.

Definition reset (s : Stamps) (size : Z) : Stamps := reset_to (Z.to_nat size) s.

Definition has (s : Stamps) (v : Z) : option bool :=
  if v <? u32 (Z.of_nat (vlen (gen s))) then
    g ← vget (gen s) v; Some (g =? epoch s)
  else Some false.

Definition add (s : Stamps) (v : Z) : option Stamps :=
  let g := ensureLen (gen s) (Z.to_nat v + 1) in
  g ← vset g v (epoch s); Some (mkStamps g (epoch s)).

(** [block] is the caller's output slice, [k] the number of ids in it. *)
Definition spliceOne (s : Stamps) (v : Z) (block : list Z) (k : Z) : option (Stamps * list Z * Z) :=
  g ← vget (gen s) v;
  if g =? epoch s then Some (s, block, k)
  else g' ← vset (gen s) v (epoch s);
       block ← zset block k v;
       Some (mkStamps g' (epoch s), block, k + 1).

Fixpoint spliceNew (s : Stamps) (win : list Z) (block : list Z) (k : Z)
  : option (Stamps * list Z * Z) :=
  match win with
  | [] => Some (s, block, k)
  | v :: win =>
      g ← vget (gen s) v;
      if g =? epoch s then spliceNew s win block k
      else g' ← vset (gen s) v (epoch s);
           block ← zset block k v;
           spliceNew (mkStamps g' (epoch s)) win block (k + 1)
  end.

Lemma idset_has_spec s v :
  live s → Z.of_nat (vlen (gen s)) < 2 ^ 32 → 0 <= v → has s v = Some (stamped s v).
Proof.
  intros [[Hw _ _ _] _] Hl Hv. unfold has, stamped, vget. rewrite u32_id by lia. zcases.
  - rewrite bool_decide_true by done. rewrite <-zget_vslice by done.
    destruct (zget_in (vslice (gen s)) v) as [g ->]; [rewrite length_vslice by done; lia|done].
  - by rewrite (proj2 (zget_None _ _)) by (rewrite length_vslice by done; lia).
Qed.

Lemma vget_in s v :
  live s → 0 <= v < Z.of_nat (vlen (gen s)) →
  ∃ g, vget (gen s) v = Some g ∧ (g =? epoch s) = stamped s v.
Proof.
  intros [[Hw _ _ _] _] Hv. unfold vget. rewrite bool_decide_true by lia.
  rewrite <-zget_vslice by (done || lia).
  destruct (zget_in (vslice (gen s)) v) as [g Hg]; [by rewrite length_vslice|].
  exists g. split; [done|]. unfold stamped. by rewrite Hg.
Qed.

Lemma vset_in s v :
  live s → 0 <= v < Z.of_nat (vlen (gen s)) →
  ∃ g', vset (gen s) v (epoch s) = Some g' ∧ vlen g' = vlen (gen s) ∧
        live (mkStamps g' (epoch s)) ∧
        ∀ u, stamped (mkStamps g' (epoch s)) u = bool_decide (v = u) || stamped s u.
Proof.
  intros Hlive Hv. pose proof Hlive as [[Hw Hc _ _] _]. unfold vset.
  rewrite bool_decide_true by lia.
  destruct (unsafeSet_spec (gen s) v (epoch s) Hw Hc Hv) as (g' & E & Hw' & Hc' & Hl' & Hs).
  exists g'. split_and!; [done..| |]; by eapply stamp_cell.
Qed.

Lemma idset_add_spec s v :
  live s → 0 <= v →
  ∃ s', add s v = Some s' ∧ live s' ∧ ∀ u, stamped s' u = bool_decide (v = u) || stamped s u.
Proof.
  intros Hlive Hv. unfold add.
  destruct (stamped_ensureLen s (Z.to_nat v + 1) Hlive) as [Hlive' Hst].
  pose proof Hlive as [[Hw Hc _ _] _].
  destruct (ensureLen_spec (gen s) (Z.to_nat v + 1) Hw Hc) as (_ & _ & Hl & _).
  destruct (vset_in (mkStamps (ensureLen (gen s) (Z.to_nat v + 1)) (epoch s)) v Hlive')
    as (g' & E & _ & Hlive'' & Hm); [simpl; lia|]. simpl in *.
  rewrite E. simpl. eexists; split; [done|]. split; [done|]. intros u. by rewrite Hm, Hst.
Qed.

(** The fill of the output block: [xs] written from position [k] on. *)
Definition fill (block : list Z) (k : Z) (xs : list Z) : list Z :=
  take (Z.to_nat k) block ++ xs ++ drop (Z.to_nat k + length xs) block.

Lemma fill_nil block k : fill block k [] = block.
Proof. unfold fill. simpl. rewrite Nat.add_0_r. by rewrite take_drop. Qed.

Lemma fill_cons block k x xs :
  0 <= k < Z.of_nat (length block) →
  fill (<[Z.to_nat k := x]> block) (k + 1) xs = fill block k (x :: xs).
Proof.
  intros Hk. unfold fill. replace (Z.to_nat (k + 1)) with (S (Z.to_nat k)) by lia.
  rewrite (take_S_r _ _ x) by (apply list_lookup_insert_eq; lia).
  rewrite take_insert_ge by lia. rewrite drop_insert_lt by lia. rewrite <-app_assoc. simpl.
  do 4 f_equal. lia.
Qed.

(** [spliceNew] appends to the output block exactly the ids of the window
    that are not members yet, each once and in window order, makes them members
    and returns the new count; it faults neither on the set nor on the block
    when the block has room for them. *)
Theorem spliceNew_keeps_first s win block k :
  live s → Forall (λ v, 0 <= v < Z.of_nat (vlen (gen s))) win → 0 <= k →
  k + Z.of_nat (length (keep_first (stamped s) win)) <= Z.of_nat (length block) →
  ∃ s', let fresh := keep_first (stamped s) win in
        spliceNew s win block k = Some (s', fill block k fresh, k + Z.of_nat (length fresh)) ∧
        live s' ∧ ∀ u, stamped s' u = bool_decide (u ∈ win) || stamped s u.
Proof.
  revert s block k. induction win as [|v win IH]; intros s block k Hlive Hwin Hk Hroom; simpl.
  { exists s. rewrite fill_nil, Z.add_0_r. by split_and!. }
  apply Forall_cons in Hwin as [Hv Hwin]. destruct (vget_in s v Hlive Hv) as (g & -> & Hg).
  simpl. rewrite Hg. simpl in Hroom. destruct (stamped s v) eqn:Hm.
  - destruct (IH s block k Hlive Hwin Hk Hroom) as (s' & E & Hlive' & Hst).
    exists s'. split_and!; [done..|]. intros u. rewrite Hst.
    repeat case_bool_decide; simpl; set_solver.
  - destruct (vset_in s v Hlive Hv) as (g' & -> & Hl & Hlive' & Hst). simpl in *.
    rewrite zset_in by lia. simpl.
    erewrite (keep_first_ext (λ y, bool_decide (v = y) || stamped s y)
      (stamped (mkStamps g' (epoch s))) win) in * by (intros; by rewrite Hst).
    destruct (IH (mkStamps g' (epoch s)) (<[Z.to_nat k := v]> block) (k + 1))
      as (s' & E & Hlive'' & Hst'); [done|eapply Forall_impl; [exact Hwin|simpl; lia]|lia|rewrite length_insert; lia|].
    exists s'. rewrite E. split_and!; [|done|].
    + rewrite fill_cons by lia. do 2 f_equal. simpl. lia.
    + intros u. rewrite Hst', Hst. repeat case_bool_decide; simpl; set_solver.
Qed.

Lemma spliceNew_keeps_first_witness :
  ∃ s', spliceNew (reset go_zero 16) [3; 5; 3; 9] [0; 0; 0; 0] 0 = Some (s', [3; 5; 9; 0], 3).
Proof.
  destruct (reset_to_spec 16 go_zero stamps_wf_zero) as (Hlive & Hlen & Hst).
  destruct (spliceNew_keeps_first (reset go_zero 16) [3; 5; 3; 9] [0; 0; 0; 0] 0)
    as (s' & E & _); [exact Hlive|forall_lia|lia|vm_compute; discriminate|].
  exists s'. exact E.
Defined.

End IdSet.

(** ** Deduplication

    [bound] stands for [vfsBound()], the number of ids handed out so far
    (Intern.v); [addStable] is only used on ids below it, which is why it does
    not check the window. A [T] with [IdKey] is its id. *)

Module DeDuper.

Section dedup.
Context (bound : Z).

Definition reset (dd : Stamps) : Stamps := reset_to (Z.to_nat bound) dd.

Definition grow (dd : Stamps) (id : Z) : Stamps :=
  mkStamps (ensureLen (gen dd) (Z.to_nat id + 1)) (epoch dd).

Definition addStable (dd : Stamps) (id : Z) : option (Stamps * bool) :=
  cell ← unsafeAt (gen dd) id;
  if cell =? epoch dd then Some (dd, false)
  else g ← unsafeSet (gen dd) id (epoch dd); Some (mkStamps g (epoch dd), true).

Definition add (dd : Stamps) (id : Z) : option (Stamps * bool) :=
  let dd := if Z.of_nat (vlen (gen dd)) <=? id then grow dd id else dd in
  addStable dd id.

Definition has (dd : Stamps) (id : Z) : option bool :=
  g ← vget (gen dd) id; Some (g =? epoch dd).

(** [out := xs[:0]; for _, x := range xs { if fresh(x) { out = append(out, x) } }]:
    [out] and [xs] share the array [buf]; [i] is the read position, [k] the
    length of [out], [n] the iterations left. *)
Fixpoint inPlaceLoop (dd : Stamps) (buf : list Z) (i k : nat) (n : nat)
  : option (Stamps * list Z * nat) :=
  match n with
  | O => Some (dd, buf, k)
  | S n =>
      x ← buf !! i;
      '(dd, fresh) ← addStable dd x;
      if fresh : bool then inPlaceLoop dd (<[k := x]> buf) (S i) (S k) n
      else inPlaceLoop dd buf (S i) k n
  end.

(** The deduper, the array after the call and the result [xs[:k]]. *)
Definition dedupInPlaceWith (dd : Stamps) (xs : list Z) : option (Stamps * list Z * list Z) :=
  let dd := reset dd in
  '(dd, buf, k) ← inPlaceLoop dd xs 0 0 (length xs);
  Some (dd, buf, take k buf).

(** The body of [dedup] and [dedupInto]: append what is fresh. *)
Fixpoint appendFresh (dd : Stamps) (out l : list Z) : option (Stamps * list Z) :=
  match l with
  | [] => Some (dd, out)
  | x :: l =>
      '(dd, fresh) ← addStable dd x;
      appendFresh dd (if fresh : bool then out ++ [x] else out) l
  end.

Fixpoint appendFreshAll (dd : Stamps) (out : list Z) (lists : list (list Z))
  : option (Stamps * list Z) :=
  match lists with
  | [] => Some (dd, out)
  | l :: lists => '(dd, out) ← appendFresh dd out l; appendFreshAll dd out lists
  end.

(** The pool lends its one deduper; a second borrow before the return throws. *)
Record DeDuperPool := mkPool { deduper : Stamps; lent : bool }.

Definition pool_get (p : DeDuperPool) : option (DeDuperPool * Stamps) :=
  if lent p then None else let d := reset (deduper p) in Some (mkPool d true, d).

Definition pool_put (p : DeDuperPool) (d : Stamps) : option DeDuperPool :=
  if lent p then Some (mkPool d false) else None.

Definition pool_with {A} (p : DeDuperPool) (f : Stamps → option (Stamps * A))
  : option (DeDuperPool * A) :=
  '(p, d) ← pool_get p;
  '(d, r) ← f d;
  p ← pool_put p d;
  Some (p, r).

Definition dedupInPlace (p : DeDuperPool) (xs : list Z) : option (DeDuperPool * list Z) :=
  pool_with p (λ d, '(d, _, out) ← dedupInPlaceWith d xs; Some (d, out)).

Definition dedup (p : DeDuperPool) (lists : list (list Z)) : option (DeDuperPool * list Z) :=
  let total := foldr (λ l n, (length l + n)%nat) 0%nat lists in
  if bool_decide (total = 0%nat) then Some (p, [])
  else pool_with p (λ d, appendFreshAll d [] lists).

Definition dedupInto (p : DeDuperPool) (out : list Z) (lists : list (list Z))
  : option (DeDuperPool * list Z) :=
  pool_with p (λ d, appendFreshAll d out lists).

(** *** Correctness *)

Lemma addStable_spec dd id :
  live dd → 0 <= id < Z.of_nat (vlen (gen dd)) →
  ∃ dd', addStable dd id = Some (dd', negb (stamped dd id)) ∧ live dd' ∧
         vlen (gen dd') = vlen (gen dd) ∧
         ∀ u, stamped dd' u = bool_decide (id = u) || stamped dd u.
Proof.
  intros Hlive Hid. pose proof Hlive as [[Hw Hc _ _] _]. unfold addStable.
  destruct (IdSet.vget_in dd id Hlive Hid) as (g & Hg & Heq).
  unfold vget in Hg. rewrite bool_decide_true in Hg by lia. rewrite Hg. simpl. rewrite Heq.
  destruct (stamped dd id) eqn:Hst; simpl.
  - exists dd. split_and!; [done..|]. intros u. case_bool_decide; [by subst|done].
  - destruct (unsafeSet_spec (gen dd) id (epoch dd) Hw Hc Hid) as (g' & -> & Hw' & Hc' & Hl' & Hs).
    simpl. eexists; split; [done|].
    destruct (stamp_cell dd id g' Hlive Hid Hw' Hc' Hs) as [Hlive' Hm]. by split_and!.
Qed.

(** [add] inserts whatever the window is. *)
Lemma deduper_add_spec dd id :
  live dd → 0 <= id →
  ∃ dd', add dd id = Some (dd', negb (stamped dd id)) ∧ live dd' ∧
         ∀ u, stamped dd' u = bool_decide (id = u) || stamped dd u.
Proof.
  intros Hlive Hid. unfold add. zcases.
  - destruct (stamped_ensureLen dd (Z.to_nat id + 1) Hlive) as [Hlive' Hst].
    pose proof Hlive as [[Hw Hc _ _] _].
    destruct (ensureLen_spec (gen dd) (Z.to_nat id + 1) Hw Hc) as (_ & _ & Hl & _).
    destruct (addStable_spec (grow dd id) id Hlive') as (dd' & E & Hlive'' & _ & Hm).
    { unfold grow; simpl. lia. }
    exists dd'. unfold grow in *. rewrite E, Hst. split_and!; [done..|]. intros u. by rewrite Hm, Hst.
  - destruct (addStable_spec dd id Hlive) as (dd' & E & Hlive' & _ & Hm); [lia|].
    exists dd'. by split_and!.
Qed.

Lemma reset_spec dd :
  wf dd → live (reset dd) ∧ bound <= Z.of_nat (vlen (gen (reset dd))) ∧
          ∀ u, stamped (reset dd) u = false.
Proof. intros Hwf. destruct (reset_to_spec (Z.to_nat bound) dd Hwf) as (? & ? & ?). split_and!; [done|unfold reset; lia|done]. Qed.

Abbreviation below n l := (Forall (λ v, 0 <= v < n) l).

Lemma appendFresh_spec l dd out :
  live dd → below (Z.of_nat (vlen (gen dd))) l →
  ∃ dd', appendFresh dd out l = Some (dd', out ++ keep_first (stamped dd) l) ∧ live dd' ∧
         vlen (gen dd') = vlen (gen dd) ∧
         ∀ u, stamped dd' u = bool_decide (u ∈ l) || stamped dd u.
Proof.
  revert dd out. induction l as [|x l IH]; intros dd out Hlive Hl; simpl.
  { exists dd. rewrite app_nil_r. by split_and!. }
  apply Forall_cons in Hl as [Hx Hl].
  destruct (addStable_spec dd x Hlive Hx) as (dd1 & -> & Hlive1 & Hlen & Hst). simpl.
  destruct (IH dd1 (if negb (stamped dd x) then out ++ [x] else out) Hlive1)
    as (dd' & -> & Hlive' & Hlen' & Hst'); [by rewrite Hlen|].
  exists dd'. split_and!; [|done|congruence|].
  - do 2 f_equal. destruct (stamped dd x) eqn:Hx'; simpl.
    + f_equal. apply keep_first_ext. intros u. rewrite Hst. case_bool_decide; [by subst|done].
    + rewrite <-app_assoc. simpl. do 2 f_equal. apply keep_first_ext. done.
  - intros u. rewrite Hst', Hst. repeat case_bool_decide; simpl; set_solver.
Qed.

(** Deduplicating list after list is deduplicating the concatenation. *)
Lemma keep_first_app f l k :
  keep_first f (l ++ k) = keep_first f l ++ keep_first (λ u, bool_decide (u ∈ l) || f u) k.
Proof.
  revert f. induction l as [|x l IH]; intros f; simpl.
  { by apply keep_first_ext. }
  destruct (f x) eqn:Hx; simpl.
  - rewrite IH. f_equal. apply keep_first_ext. intros u.
    repeat case_bool_decide; simpl; [done|set_solver| |done]. set_solver.
  - rewrite IH. do 2 f_equal. apply keep_first_ext. intros u.
    repeat case_bool_decide; simpl; set_solver.
Qed.

Lemma appendFreshAll_spec lists dd out :
  live dd → below (Z.of_nat (vlen (gen dd))) (concat lists) →
  ∃ dd', appendFreshAll dd out lists = Some (dd', out ++ keep_first (stamped dd) (concat lists)) ∧
         live dd'.
Proof.
  revert dd out. induction lists as [|l lists IH]; intros dd out Hlive Hl; simpl.
  { exists dd. by rewrite app_nil_r. }
  simpl in Hl. apply Forall_app in Hl as [Hl Hlists].
  destruct (appendFresh_spec l dd out Hlive Hl) as (dd1 & -> & Hlive1 & Hlen & Hst). simpl.
  destruct (IH dd1 (out ++ keep_first (stamped dd) l) Hlive1) as (dd' & -> & Hlive');
    [by rewrite Hlen|].
  exists dd'. split; [|done]. rewrite keep_first_app, <-app_assoc. do 4 f_equal.
  apply keep_first_ext. done.
Qed.

(** Reading ahead of the writes: the cells from [i] on are still the input. *)
Lemma inPlaceLoop_spec n : ∀ dd buf i k,
  live dd → (k ≤ i)%nat → (i + n = length buf)%nat →
  below (Z.of_nat (vlen (gen dd))) (drop i buf) →
  ∃ dd' buf', let fresh := keep_first (stamped dd) (drop i buf) in
    inPlaceLoop dd buf i k n = Some (dd', buf', (k + length fresh)%nat) ∧
    live dd' ∧ take (k + length fresh) buf' = take k buf ++ fresh.
Proof.
  induction n as [|n IH]; intros dd buf i k Hlive Hk Hn Hb.
  { assert (drop i buf = []) as -> by (apply drop_ge; lia). simpl.
    exists dd, buf. rewrite Nat.add_0_r, app_nil_r. by split_and!. }
  destruct (lookup_lt_is_Some_2 buf i) as [x Hx]; [lia|].
  rewrite (drop_S _ _ _ Hx) in Hb. apply Forall_cons in Hb as [Hxb Hb].
  rewrite (drop_S _ _ _ Hx). simpl. rewrite Hx. simpl.
  destruct (addStable_spec dd x Hlive Hxb) as (dd1 & -> & Hlive1 & Hlen & Hst). simpl.
  destruct (stamped dd x) eqn:Hsx; simpl.
  - destruct (IH dd1 buf (S i) k) as (dd' & buf' & E & Hlive' & Ht); [done|lia|lia|by rewrite Hlen|].
    rewrite (keep_first_ext (stamped dd1) (stamped dd)) in E, Ht
      by (intros u; rewrite Hst; case_bool_decide; [by subst|done]).
    exists dd', buf'. by split_and!.
  - destruct (IH dd1 (<[k := x]> buf) (S i) (S k)) as (dd' & buf' & E & Hlive' & Ht).
    { done. } { lia. } { rewrite length_insert. lia. }
    { rewrite drop_insert_lt by lia. by rewrite Hlen. }
    rewrite drop_insert_lt in E, Ht by lia.
    rewrite (keep_first_ext (stamped dd1) (λ y, bool_decide (x = y) || stamped dd y)) in E, Ht
      by done.
    rewrite (take_S_r _ _ x) in Ht by (apply list_lookup_insert_eq; lia).
    rewrite take_insert_ge, <-app_assoc in Ht by lia. simpl in Ht.
    exists dd', buf'. rewrite !Nat.add_succ_r. by split_and!.
Qed.

(** In-place deduplication: although the result overwrites the array it is
    read from, it is the list of the distinct ids of the input in order of first
    occurrence, and the deduper can be used again. *)
Theorem dedupInPlaceWith_correct dd xs :
  wf dd → below bound xs →
  ∃ dd' buf, dedupInPlaceWith dd xs = Some (dd', buf, keep_first (λ _, false) xs) ∧ live dd'.
Proof.
  intros Hwf Hxs. destruct (reset_spec dd Hwf) as (Hlive & Hb & Hst). unfold dedupInPlaceWith.
  destruct (inPlaceLoop_spec (length xs) (reset dd) xs 0 0 Hlive) as (dd' & buf & E & Hlive' & Ht);
    [lia|lia|rewrite drop_0; eapply Forall_impl; [exact Hxs|simpl; lia]|].
  rewrite drop_0 in E, Ht. rewrite E. simpl in *. exists dd', buf. split; [|done].
  rewrite Ht. do 2 f_equal. by apply keep_first_ext.
Qed.

(** [dedup] returns the distinct ids of all its lists in order of first
    occurrence and leaves the pool free to be borrowed again; while the pool is
    lent it throws. *)
Theorem dedup_correct p lists :
  wf (deduper p) → below bound (concat lists) →
  if lent p && negb (bool_decide (concat lists = [])) then dedup p lists = None
  else ∃ d, dedup p lists = Some (mkPool d (lent p), keep_first (λ _, false) (concat lists)) ∧ wf d.
Proof.
  intros Hwf Hb. unfold dedup.
  assert (foldr (λ l n, (length l + n)%nat) 0%nat lists = length (concat lists)) as ->.
  { clear. induction lists; simpl; [done|]. by rewrite length_app, IHlists. }
  destruct (concat lists) as [|x l] eqn:Hc; simpl.
  { rewrite andb_false_r. exists (deduper p). split; [by destruct p|done]. }
  rewrite andb_true_r. unfold pool_with, pool_get. destruct (lent p); simpl; [done|].
  destruct (reset_spec (deduper p) Hwf) as (Hlive & Hbd & Hst).
  destruct (appendFreshAll_spec lists (reset (deduper p)) [] Hlive) as (dd & E & Hlive').
  { rewrite Hc. eapply Forall_impl; [exact Hb|simpl; lia]. }
  rewrite E. simpl. exists dd. split; [|by destruct Hlive']. rewrite Hc. do 2 f_equal.
  by apply (keep_first_ext _ (λ _, false)).
Qed.

End dedup.

Arguments mkPool _ _ : clear implicits.

Lemma dedupInPlaceWith_correct_witness :
  ∃ dd' buf, dedupInPlaceWith 10 go_zero [4; 2; 4; 9; 2] = Some (dd', buf, [4; 2; 9]) ∧ live dd'.
Proof.
  destruct (dedupInPlaceWith_correct 10 go_zero [4; 2; 4; 9; 2]) as (dd' & buf & E & Hl);
    [exact stamps_wf_zero|forall_lia|].
  exists dd', buf. split; [exact E|exact Hl].
Defined.

Lemma dedup_correct_witness :
  ∃ d, dedup 10 (mkPool go_zero false) [[4; 2]; []; [2; 7]] = Some (mkPool d false, [4; 2; 7]) ∧ wf d.
Proof.
  destruct (dedup_correct 10 (mkPool go_zero false) [[4; 2]; []; [2; 7]]) as (d & E & Hw);
    [exact stamps_wf_zero|forall_lia|].
  exists d. split; [exact E|exact Hw].
Defined.

End DeDuper.
