(* ===== verification/Probing.v ===== *)
(** * Linear probing

    The open-addressing walk that int_map.go and int_set.go share: a table of
    keys whose length is a power of two, [0] marking an empty slot, a key
    stored at the first free slot at or after its home [k & mask].  [probe] is
    the loop of the lookups; [table] relates the key array and a way to read
    the slots' values to the finite map the table stands for.  The two tables
    are instances that differ in how they store values. *)

From S2P Require Import Prelude.
Local Open Scope Z_scope.

Inductive probed := Hit (i : Z) | Miss (i : Z).

(** [for i := k & mask; ; i = (i + 1) & mask { switch key { case k: ...; case 0: ... } }]:
    the slot where the walk for [k] stops.  [None]: a read outside the array,
    or no stop within the fuel. *)
Fixpoint probe (fuel : nat) (keys : list Z) (mask k i : Z) : option probed :=
  match fuel with
  | O => None
  | S fuel =>
      key ← zget keys i;
      if key =? k then Some (Hit i)
      else if key =? 0 then Some (Miss i)
      else probe fuel keys mask k (Z.land (i + 1) mask)
  end.

(** The walk as the lookups start it. *)
Definition lookup_slot (keys : list Z) (mask k : Z) : option probed :=
  probe (length keys) keys mask k (Z.land k mask).

(** The number of occupied slots. *)
Definition occupied (keys : list Z) : nat := length (filter (.≠ 0) keys).

(** ** Slots *)

Section slots.
Context (cap : Z) (e : Z) (He : 0 <= e) (Hcap : cap = 2 ^ e).

Definition slot (k : Z) (n : nat) : Z := (k + Z.of_nat n) mod cap.

Lemma cap_pos : 0 < cap.
Proof using Hcap He. subst cap. by apply Z.pow_pos_nonneg. Qed.

Lemma slot_range k n : 0 <= slot k n < cap.
Proof using Hcap He. apply Z.mod_pos_bound, cap_pos. Qed.

Lemma mask_slot k : Z.land k (cap - 1) = slot k 0.
Proof using Hcap He.
  unfold slot. rewrite Z.add_0_r. subst cap. rewrite Z.sub_1_r, <-Z.ones_equiv.
  by apply Z.land_ones.
Qed.

Lemma next_slot k n : Z.land (slot k n + 1) (cap - 1) = slot k (S n).
Proof using Hcap He.
  rewrite mask_slot. unfold slot. pose proof cap_pos.
  rewrite Z.add_0_r, Z.add_mod_idemp_l by lia. f_equal. lia.
Qed.

Lemma slot_inj k m n :
  Z.of_nat m < cap → Z.of_nat n < cap → slot k m = slot k n → m = n.
Proof using Hcap He.
  pose proof cap_pos. unfold slot. intros Hm Hn Heq.
  pose proof (Z.div_mod (k + Z.of_nat m) cap). pose proof (Z.div_mod (k + Z.of_nat n) cap).
  assert ((k + Z.of_nat m) / cap = (k + Z.of_nat n) / cap); nia.
Qed.

(** Every slot is reached from every key in fewer than [cap] steps. *)
Lemma slot_surj k i : 0 <= i < cap → ∃ n, Z.of_nat n < cap ∧ slot k n = i.
Proof using Hcap He.
  intros Hi. pose proof cap_pos. exists (Z.to_nat ((i - k) mod cap)).
  pose proof (Z.mod_pos_bound (i - k) cap). unfold slot. rewrite Z2Nat.id by lia.
  split; [lia|]. rewrite Z.add_mod_idemp_r by lia.
  replace (k + (i - k)) with i by lia. apply Z.mod_small. lia.
Qed.
End slots.

(** The least number with a decidable property. *)
Lemma least_nat (P : nat → Prop) `{∀ n, Decision (P n)} N :
  P N → ∃ n, (n <= N)%nat ∧ P n ∧ ∀ m, (m < n)%nat → ¬ P m.
Proof.
  revert P H. induction N as [|N IH]; intros P HP HN.
  - exists 0%nat. split; [lia|]. split; [done|lia].
  - destruct (decide (P 0%nat)) as [H0|H0]; [exists 0%nat; split; [lia|]; split; [done|lia]|].
    destruct (IH (λ n, P (S n)) _ HN) as (n & ? & ? & Hmin).
    exists (S n). split; [lia|]. split; [done|]. intros [|m] ?; [done|]. apply Hmin. lia.
Qed.

(** ** The key array *)

Definition at_slot (keys : list Z) (k i : Z) : Prop := zget keys i = Some k ∧ k ≠ 0.

Definition busy (keys : list Z) (i : Z) : Prop := ∃ k, at_slot keys k i.

Record probing (keys : list Z) (mask : Z) : Prop := {
  pr_cap : ∃ e, 0 <= e ∧ Z.of_nat (length keys) = 2 ^ e;
  pr_mask : mask = Z.of_nat (length keys) - 1;
  pr_distinct : ∀ k i j, at_slot keys k i → at_slot keys k j → i = j;
  pr_reach : ∀ k i, at_slot keys k i → ∃ n, Z.of_nat n < Z.of_nat (length keys) ∧
    slot (Z.of_nat (length keys)) k n = i ∧
    ∀ m, (m < n)%nat → busy keys (slot (Z.of_nat (length keys)) k m);
}.

Lemma occupied_insert keys i k :
  zget keys i = Some 0 → k ≠ 0 →
  occupied (<[Z.to_nat i := k]> keys) = S (occupied keys).
Proof.
  intros Hi Hk. pose proof (zget_Some_range _ _ _ Hi).
  assert (Hl : keys !! Z.to_nat i = Some 0).
  { unfold zget in Hi. by rewrite bool_decide_true in Hi by lia. }
  unfold occupied. rewrite insert_take_drop by lia.
  rewrite <-(take_drop_middle _ _ _ Hl) at 3.
  rewrite !filter_app, !filter_cons, decide_True, decide_False by (done || lia).
  len || (rewrite !length_app; simpl; lia).
Qed.

Lemma occupied_replicate n : occupied (replicate n 0) = 0%nat.
Proof. unfold occupied. induction n as [|n IH]; [done|]. simpl. by rewrite filter_cons_False by lia. Qed.

Lemma occupied_free keys :
  (occupied keys < length keys)%nat → ∃ i, zget keys i = Some 0.
Proof.
  intros H. assert (Hex : (∃ j, keys !! j = Some 0) ).
  { unfold occupied in H. induction keys as [|k keys IH]; simpl in H; [lia|].
    destruct (decide (k = 0)) as [->|Hk]; [by exists 0%nat|].
    rewrite filter_cons_True in H by done. simpl in H.
    destruct IH as [j Hj]; [lia|]. by exists (S j). }
  destruct Hex as [j Hj]. exists (Z.of_nat j). by rewrite zget_nat.
Qed.

Lemma at_slot_insert keys i k k' j :
  zget keys i = Some 0 → k ≠ 0 →
  at_slot (<[Z.to_nat i := k]> keys) k' j ↔ at_slot keys k' j ∨ (j = i ∧ k' = k).
Proof.
  intros Hi Hk. pose proof (zget_Some_range _ _ _ Hi). unfold at_slot.
  rewrite zget_insert by lia. case_decide as Hd; [subst j|]; naive_solver.
Qed.

Section walk.
Context (keys : list Z) (mask : Z).
Let cap := Z.of_nat (length keys).
Context (e : Z) (He : 0 <= e) (Hcap : cap = 2 ^ e) (Hmask : mask = cap - 1).

(** The walk stops at the first slot holding the key or nothing. *)
Lemma probe_run k s n m fuel key :
  (m <= n)%nat → (n - m < fuel)%nat →
  zget keys (slot cap s n) = Some key → key = k ∨ key = 0 →
  (∀ j, (m <= j < n)%nat → ∃ k', zget keys (slot cap s j) = Some k' ∧ k' ≠ k ∧ k' ≠ 0) →
  probe fuel keys mask k (slot cap s m) =
    Some (if decide (key = k) then Hit (slot cap s n) else Miss (slot cap s n)).
Proof using He Hcap Hmask.
  revert m. induction fuel as [|fuel IH]; intros m Hmn Hf Hkey Hstop Hwalk; [lia|].
  simpl. destruct (decide (m = n)) as [Heq|Hne]; [subst m|].
  - rewrite Hkey. simpl. case_decide; zcases; naive_solver lia.
  - destruct (Hwalk m) as (k' & Hk' & ? & ?); [lia|]. rewrite Hk'. simpl.
    rewrite (proj2 (Z.eqb_neq k' k)), (proj2 (Z.eqb_neq k' 0)) by done.
    rewrite Hmask, (next_slot cap e He Hcap), <-Hmask.
    apply IH; [lia|lia|done|done|]. intros j ?. apply Hwalk. lia.
Qed.

(** With a free slot in the table the walk stops within [cap] steps. *)
Lemma walk_stops k s :
  (∃ i, zget keys i = Some 0) →
  ∃ n key, (n < length keys)%nat ∧ zget keys (slot cap s n) = Some key ∧
    (key = k ∨ key = 0) ∧
    ∀ j, (j < n)%nat → ∃ k', zget keys (slot cap s j) = Some k' ∧ k' ≠ k ∧ k' ≠ 0.
Proof using He Hcap.
  intros [i Hi]. pose proof (zget_Some_range _ _ _ Hi) as Hr.
  destruct (slot_surj cap e He Hcap s i Hr) as (N & HN & Hs).
  set (P := λ n, zget keys (slot cap s n) = Some k ∨ zget keys (slot cap s n) = Some 0).
  assert (HP : ∀ n, Decision (P n)) by (intros; unfold P; apply _).
  destruct (least_nat P N) as (n & Hn & Hstop & Hmin).
  { right. by rewrite Hs. }
  assert (Hall : ∀ j, ∃ k', zget keys (slot cap s j) = Some k').
  { intros j. apply zget_in. apply (slot_range cap e He Hcap). }
  destruct (Hall n) as [key Hkey]. exists n, key.
  split; [unfold cap in *; lia|]. split; [done|].
  split; [unfold P in Hstop; rewrite Hkey in Hstop; naive_solver|].
  intros j Hj. destruct (Hall j) as [k' Hk']. exists k'. split; [done|].
  specialize (Hmin j Hj). unfold P in Hmin. rewrite Hk' in Hmin.
  split; intros ->; naive_solver.
Qed.
End walk.

Section lookup.
Context (keys : list Z) (mask : Z) (Hpr : probing keys mask).
Let cap := Z.of_nat (length keys).

(** What a lookup of [k] finds: the slot of [k], or a free slot from which
    [k], stored there, would be found again. *)
Lemma lookup_slot_spec k :
  (occupied keys < length keys)%nat → k ≠ 0 →
  (∃ i, lookup_slot keys mask k = Some (Hit i) ∧ at_slot keys k i) ∨
  (∃ i n, lookup_slot keys mask k = Some (Miss i) ∧ (∀ j, ¬ at_slot keys k j) ∧
     zget keys i = Some 0 ∧ Z.of_nat n < cap ∧ slot cap k n = i ∧
     ∀ m, (m < n)%nat → busy keys (slot cap k m)).
Proof using Hpr.
  intros Hfree Hk. destruct Hpr as [(e & He & Hcap) Hmask Hdist Hreach].
  destruct (walk_stops keys e He Hcap k k) as (n & key & Hn & Hkey & Hstop & Hwalk).
  { by apply occupied_free. }
  fold cap in Hwalk, Hkey, Hreach, Hcap, Hmask.
  assert (Hrun : lookup_slot keys mask k =
    Some (if decide (key = k) then Hit (slot cap k n) else Miss (slot cap k n))).
  { unfold lookup_slot. rewrite Hmask, (mask_slot cap e He Hcap), <-Hmask.
    eapply probe_run; [done..|lia|lia|done|done|]. intros; apply Hwalk; lia. }
  rewrite Hrun. case_decide as Hd; [subst key; left; by exists (slot cap k n)|].
  right. exists (slot cap k n), n. destruct Hstop as [?| ->]; [done|].
  split; [done|]. split; [|split_and!; [done|unfold cap; lia|done|]].
  - intros j Hj. destruct (Hreach _ _ Hj) as (n' & Hn' & Hs & Hbusy).
    destruct (decide (n' < n)%nat) as [Hlt|Hge].
    + destruct (Hwalk n' Hlt) as (k' & Hk' & ? & ?). rewrite Hs in Hk'.
      destruct Hj. congruence.
    + destruct (decide (n' = n)) as [->|Hne].
      * rewrite Hs in Hkey. destruct Hj. congruence.
      * destruct (Hbusy n) as (k' & Hk' & ?); [lia|]. congruence.
  - intros m Hm. destruct (Hwalk m Hm) as (k' & ? & ? & ?). by exists k'.
Qed.

Lemma probing_insert k i n :
  k ≠ 0 → (∀ j, ¬ at_slot keys k j) → zget keys i = Some 0 →
  Z.of_nat n < cap → slot cap k n = i → (∀ m, (m < n)%nat → busy keys (slot cap k m)) →
  probing (<[Z.to_nat i := k]> keys) mask.
Proof using Hpr.
  intros Hk Habs Hi Hn Hs Hb. destruct Hpr as [Hcap Hmask Hdist Hreach].
  assert (Hmono : ∀ j, busy keys j → busy (<[Z.to_nat i := k]> keys) j).
  { intros j [k' ?]. exists k'. apply at_slot_insert; [done..|]. by left. }
  split; rewrite ?length_insert; [done|done| |].
  - intros k' j j' Hj Hj'. apply at_slot_insert in Hj, Hj'; [|done..]. naive_solver.
  - intros k' j Hj. apply at_slot_insert in Hj; [|done..].
    destruct Hj as [Hj|[-> ->]]; [|exists n; auto].
    destruct (Hreach _ _ Hj) as (n' & ? & ? & ?). exists n'. auto.
Qed.
End lookup.

Lemma probing_empty e :
  0 <= e → probing (replicate (Z.to_nat (2 ^ e)) 0) (2 ^ e - 1).
Proof.
  intros He. pose proof (Z.pow_pos_nonneg 2 e).
  assert (Hno : ∀ k i, ¬ at_slot (replicate (Z.to_nat (2 ^ e)) 0) k i).
  { intros k i [Hz Hk]. pose proof (zget_Some_range _ _ _ Hz). autorewrite with ay_len in *.
    rewrite zget_replicate in Hz by lia. congruence. }
  split; autorewrite with ay_len; rewrite ?Z2Nat.id by lia.
  - by exists e.
  - lia.
  - intros k i j Hj. by apply Hno in Hj.
  - intros k i Hj. by apply Hno in Hj.
Qed.

(** ** The table as a finite map *)

Section table.
Context {V : Type}.
Implicit Types (rd : Z → option V) (M : gmap Z V).

(** [M] is what the key array and the slots' values, read by [rd], say. *)
Definition table (keys : list Z) (rd : Z → option V) (M : gmap Z V) : Prop :=
  ∀ k v, M !! k = Some v ↔ ∃ i, at_slot keys k i ∧ rd i = Some v.

Lemma table_zero keys rd M : table keys rd M → M !! 0 = None.
Proof.
  intros HT. destruct (M !! 0) eqn:E; [|done]. apply HT in E. destruct E as (? & [] & ?). done.
Qed.

Lemma table_unique keys rd M M' : table keys rd M → table keys rd M' → M = M'.
Proof. intros H1 H2. apply map_eq. intros k. apply option_eq. intros v. by rewrite (H1 k v), (H2 k v). Qed.

Lemma table_ext keys rd rd' M :
  (∀ i, busy keys i → rd i = rd' i) → table keys rd M → table keys rd' M.
Proof.
  intros Hext HT k v. rewrite (HT k v). split; intros (i & Hi & Hv); exists i; split; try done.
  - by rewrite <-Hext by (by exists k).
  - by rewrite Hext by (by exists k).
Qed.

Lemma table_hit keys mask rd M k i :
  probing keys mask → table keys rd M → at_slot keys k i → M !! k = rd i.
Proof.
  intros Hpr HT Hi. apply option_eq. intros v. rewrite (HT k v). split; [|by exists i].
  intros (j & Hj & Hv). by rewrite (pr_distinct _ _ Hpr k i j Hi Hj).
Qed.

Lemma table_miss keys rd M k : table keys rd M → (∀ j, ¬ at_slot keys k j) → M !! k = None.
Proof.
  intros HT Habs. destruct (M !! k) eqn:E; [|done]. apply HT in E. naive_solver.
Qed.

Lemma table_update keys mask rd rd' M k i v :
  probing keys mask → table keys rd M → at_slot keys k i →
  rd' i = Some v → (∀ j, busy keys j → j ≠ i → rd' j = rd j) →
  table keys rd' (<[k := v]> M).
Proof.
  intros Hpr HT Hi Hv Hoth k' v'. destruct (decide (k' = k)) as [->|Hne].
  - rewrite lookup_insert_eq. split; [intros [= <-]; by exists i|].
    intros (j & Hj & Hv'). rewrite (pr_distinct _ _ Hpr k j i Hj Hi) in Hv'. congruence.
  - rewrite lookup_insert_ne by done. rewrite (HT k' v').
    split; intros (j & Hj & Hv'); exists j; split; try done;
      assert (j ≠ i) by (intros ->; destruct Hi, Hj; congruence).
    + rewrite Hoth; [done|by exists k'|done].
    + rewrite <-Hoth; [done|by exists k'|done].
Qed.

Lemma table_insert keys rd rd' M k i v :
  table keys rd M → (∀ j, ¬ at_slot keys k j) → zget keys i = Some 0 → k ≠ 0 →
  rd' i = Some v → (∀ j, busy keys j → j ≠ i → rd' j = rd j) →
  table (<[Z.to_nat i := k]> keys) rd' (<[k := v]> M).
Proof.
  intros HT Habs Hi Hk Hv Hoth k' v'. destruct (decide (k' = k)) as [->|Hne].
  - rewrite lookup_insert_eq. split.
    + intros [= <-]. exists i. split; [|done]. apply at_slot_insert; auto.
    + intros (j & Hj & Hv'). apply at_slot_insert in Hj as [Hj|[-> _]]; [naive_solver|congruence|done..].
  - rewrite lookup_insert_ne by done. rewrite (HT k' v').
    split; intros (j & Hj & Hv'); exists j.
    + assert (j ≠ i) by (intros ->; destruct Hj; congruence).
      split; [apply at_slot_insert; auto|]. rewrite Hoth; [done|by exists k'|done].
    + apply at_slot_insert in Hj as [Hj|[_ ?]]; [|done..].
      assert (j ≠ i) by (intros ->; destruct Hj; congruence).
      split; [done|]. rewrite <-Hoth; [done|by exists k'|done].
Qed.

Lemma table_empty n rd : table (replicate n 0) rd ∅.
Proof.
  intros k v. rewrite lookup_empty. split; [done|]. intros (i & [Hz Hk] & _).
  pose proof (zget_Some_range _ _ _ Hz). autorewrite with ay_len in *.
  rewrite zget_replicate in Hz by lia. congruence.
Qed.

(** The part of a table that lies in the first [n] slots: what a rehash has
    copied after [n] steps. *)
Definition table_upto (n : nat) (keys : list Z) rd M : Prop :=
  ∀ k v, M !! k = Some v ↔ ∃ i, i < Z.of_nat n ∧ at_slot keys k i ∧ rd i = Some v.

Lemma table_upto_0 keys rd : table_upto 0 keys rd ∅.
Proof.
  intros k v. rewrite lookup_empty. split; [done|]. intros (i & ? & [Hz _] & _).
  apply zget_Some_range in Hz. lia.
Qed.

Lemma table_upto_full keys rd M : table_upto (length keys) keys rd M → table keys rd M.
Proof.
  intros HT k v. rewrite (HT k v). split; intros (i & H); exists i; [naive_solver|].
  split; [|done]. destruct H as [[Hz _] _]. apply zget_Some_range in Hz. lia.
Qed.

Lemma table_upto_skip n keys rd M :
  zget keys (Z.of_nat n) = Some 0 → table_upto n keys rd M → table_upto (S n) keys rd M.
Proof.
  intros Hz HT k v. rewrite (HT k v). split; intros (i & Hi & Hat & Hv); exists i;
    (split; [|done]); [lia|].
  destruct (decide (i = Z.of_nat n)) as [->|]; [|lia]. destruct Hat. congruence.
Qed.

Lemma table_upto_step n keys mask rd M k v :
  probing keys mask → at_slot keys k (Z.of_nat n) → rd (Z.of_nat n) = Some v →
  table_upto n keys rd M → M !! k = None ∧ table_upto (S n) keys rd (<[k := v]> M).
Proof.
  intros Hpr Hat Hv HT. split.
  - destruct (M !! k) eqn:E; [|done]. apply HT in E as (i & Hi & Hat' & _).
    pose proof (pr_distinct _ _ Hpr k _ _ Hat Hat'). lia.
  - intros k' v'. destruct (decide (k' = k)) as [->|Hne].
    + rewrite lookup_insert_eq. split.
      * intros [= <-]. exists (Z.of_nat n). split; [lia|done].
      * intros (i & _ & Hat' & Hv'). pose proof (pr_distinct _ _ Hpr k _ _ Hat Hat'). congruence.
    + rewrite lookup_insert_ne by done. rewrite (HT k' v').
      split; intros (i & Hi & Hat' & Hv'); exists i; (split; [|done]); [lia|].
      destruct (decide (i = Z.of_nat n)) as [->|]; [|lia]. destruct Hat, Hat'. congruence.
Qed.
End table.

Lemma occupied_take_S keys (n : nat) (k : Z) :
  keys !! n = Some k →
  occupied (take (S n) keys) = (occupied (take n keys) + if decide (k = 0%Z) then 0 else 1)%nat.
Proof.
  intros Hn. unfold occupied. rewrite (take_S_r _ _ _ Hn), filter_app, length_app, filter_cons.
  repeat case_decide; simpl; lia.
Qed.

Lemma occupied_take_le keys n : (occupied (take n keys) <= occupied keys)%nat.
Proof.
  unfold occupied. rewrite <-(take_drop n keys) at 2. rewrite filter_app, length_app. lia.
Qed.
