(* ===== verification/IntMap.v ===== *)
(** * IntMap and IntSet: open-addressing tables over 64-bit keys

    int_map.go ([IntMap]: values beside the keys) and int_set.go ([IntSet]: one
    bit per slot).  Both refine a finite map as long as no caller uses the key
    0, which marks an empty slot. *)

From S2P Require Import Prelude Vec BitSets Probing.
Local Open Scope Z_scope.

(** [for c*fillNum < hint*fillDen { c <<= 1 }]: the initial capacity. *)
Fixpoint table_cap (fuel : nat) (hint c : Z) : option Z :=
  match fuel with
  | O => None
  | S fuel => if c * 5 <? hint * 8 then table_cap fuel hint (2 * c) else Some c
  end.

Lemma table_cap_spec hint :
  ∃ e, 3 <= e ∧ table_cap (S (Z.to_nat hint)) hint 8 = Some (2 ^ e) ∧ hint * 8 <= 2 ^ e * 5.
Proof.
  assert (Hgen : ∀ fuel n, 0 <= n → hint < n + Z.of_nat fuel →
    ∃ e, 3 <= e ∧ table_cap fuel hint (2 ^ (n + 3)) = Some (2 ^ e) ∧ hint * 8 <= 2 ^ e * 5 ∨
      fuel = O).
  { induction fuel as [|fuel IH]; intros n Hn Hf; [exists 0; by right|]. simpl. zcases.
    - replace (2 * 2 ^ (n + 3)) with (2 ^ (n + 1 + 3)) by (rewrite <-Z.pow_succ_r by lia; f_equal; lia).
      destruct (IH (n + 1)) as (e & [?| ->]); [lia|lia|eauto|].
      assert (hint <= n) by lia. pose proof (Z.pow_gt_lin_r 2 n).
      rewrite Z.pow_add_r in * by lia. lia.
    - exists (n + 3). left. split; [lia|]. split; [done|lia]. }
  destruct (Hgen (S (Z.to_nat hint)) 0) as (e & [?|?]); [lia|lia|by exists e|done].
Qed.

(** At load 5/8 some slot is free. *)
Lemma load_free (cap count : Z) : 8 <= cap → count <= cap * 5 / 8 → count < cap.
Proof. intros. pose proof (Z.div_lt_upper_bound (cap * 5) 8 cap). lia. Qed.

(** Doubling leaves room for one more. *)
Lemma load_double (cap count : Z) : 8 <= cap → count <= cap * 5 / 8 → count < 2 * cap * 5 / 8.
Proof.
  intros. enough (cap * 5 / 8 + 1 <= 2 * cap * 5 / 8) by lia.
  apply Z.div_le_lower_bound; [lia|]. pose proof (Z.mul_div_le (cap * 5) 8). lia.
Qed.

Module IntMap.

Record IntMap (V : Type) := mk {
  keys : list Z;
  values : list V;
  mask : Z;
  count : Z;
  resizeAt : Z;
}.
Arguments mk {V}.
Arguments keys {V}. Arguments values {V}. Arguments mask {V}.
Arguments count {V}. Arguments resizeAt {V}.

Section ops.
Context `{GoZero V}.
Implicit Types m : IntMap V.

Definition alloc m (capacity : Z) : IntMap V :=
  mk (replicate (Z.to_nat capacity) 0) (replicate (Z.to_nat capacity) go_zero)
    (capacity - 1) (count m) (capacity * 5 / 8).

Definition newIntMap (hint : Z) : option (IntMap V) :=
  c ← table_cap (S (Z.to_nat hint)) hint 8;
  Some (alloc (mk [] [] 0 0 0) c).

(** A [*V] the table hands out is the index of the slot it points to;
    [get] returns [Some None] for nil. *)
Definition get m (k : Z) : option (option Z) :=
  p ← lookup_slot (keys m) (mask m) k;
  match p with
  | Hit i => Some (Some i)
  | Miss _ => Some None
  end.

(** [*p] and [*p = v]. *)
Definition load m (p : Z) : option V := zget (values m) p.

Definition store m (p : Z) (v : V) : option (IntMap V) :=
  vals ← zset (values m) p v;
  Some (mk (keys m) vals (mask m) (count m) (resizeAt m)).

(** [for keys[j] != 0 { j = (j + 1) & mask }]. *)
Fixpoint free_slot (fuel : nat) (ks : list Z) (mask j : Z) : option Z :=
  match fuel with
  | O => None
  | S fuel =>
      key ← zget ks j;
      if key =? 0 then Some j else free_slot fuel ks mask (Z.land (j + 1) mask)
  end.

(** The loop of [grow] over the old keys, from index [i] on. *)
Fixpoint rehash (old : list Z) (oldValues : list V) (i : Z) (mask : Z)
    (ks : list Z) (vs : list V) : option (list Z * list V) :=
  match old with
  | [] => Some (ks, vs)
  | k :: old =>
      if k =? 0 then rehash old oldValues (i + 1) mask ks vs
      else
        j ← free_slot (length ks) ks mask (Z.land k mask);
        ks' ← zset ks j k;
        v ← zget oldValues i;
        vs' ← zset vs j v;
        rehash old oldValues (i + 1) mask ks' vs'
  end.

Definition grow m : option (IntMap V) :=
  let m1 := alloc m (Z.of_nat (length (keys m)) * 2) in
  kv ← rehash (keys m) (values m) 0 (mask m1) (keys m1) (values m1);
  Some (mk kv.1 kv.2 (mask m1) (count m) (resizeAt m1)).

(** The outer loop of [cell]: a walk, and a [grow] before the next one
    when the table is full. *)
Fixpoint cell_loop (fuel : nat) m (k : Z) : option (IntMap V * (Z * bool)) :=
  match fuel with
  | O => None
  | S fuel =>
      p ← lookup_slot (keys m) (mask m) k;
      match p with
      | Hit i => Some (m, (i, true))
      | Miss i =>
          if count m <? resizeAt m then
            ks ← zset (keys m) i k;
            Some (mk ks (values m) (mask m) (count m + 1) (resizeAt m), (i, false))
          else m' ← grow m; cell_loop fuel m' k
      end
  end.

Definition cell m (k : Z) : option (IntMap V * (Z * bool)) := cell_loop 2 m k.

Definition put m (k : Z) (v : V) : option (IntMap V) :=
  c ← cell m k;
  store c.1 c.2.1 v.

(** The value behind [get]: what [*m.get(k)] reads, if the pointer is not nil. *)
Definition find m (k : Z) : option (option V) :=
  p ← get m k;
  match p with
  | None => Some None
  | Some p => v ← load m p; Some (Some v)
  end.
End ops.

(** ** Refinement to finite maps *)

Section refine.
Context `{GoZero V}.
Implicit Types (m : IntMap V) (M : gmap Z V).

Record shape m : Prop := {
  sh_probing : probing (keys m) (mask m);
  sh_cap : 8 <= Z.of_nat (length (keys m));
  sh_values : length (values m) = length (keys m);
  sh_count : count m = Z.of_nat (occupied (keys m));
  sh_resize : resizeAt m = Z.of_nat (length (keys m)) * 5 / 8;
  sh_load : count m <= resizeAt m;
  sh_zero : ∀ i, zget (keys m) i = Some 0 → zget (values m) i = Some go_zero;
}.

Definition repr m M : Prop := shape m ∧ table (keys m) (zget (values m)) M.

Lemma intmap_shape_free m : shape m → (occupied (keys m) < length (keys m))%nat.
Proof.
  intros []. pose proof (load_free (Z.of_nat (length (keys m))) (count m)). lia.
Qed.

Lemma alloc_repr m e :
  3 <= e → count m = 0 → repr (alloc m (2 ^ e)) ∅.
Proof.
  intros He Hc. pose proof (Z.pow_le_mono_r 2 3 e).
  split; [|apply table_empty]. unfold alloc. split; simpl; autorewrite with ay_len.
  - by apply probing_empty; lia.
  - lia.
  - done.
  - by rewrite occupied_replicate.
  - by rewrite Z2Nat.id by lia.
  - rewrite Hc. apply Z.div_pos; lia.
  - intros i Hi. apply zget_Some_range in Hi. autorewrite with ay_len in Hi.
    by apply zget_replicate.
Qed.

Lemma newIntMap_repr hint : ∃ m, newIntMap hint = Some m ∧ repr m ∅.
Proof.
  destruct (table_cap_spec hint) as (e & He & Hc & _).
  exists (alloc (mk [] [] 0 0 0) (2 ^ e)). unfold newIntMap. rewrite Hc.
  split; [done|by apply alloc_repr].
Qed.

Lemma find_repr m M k : repr m M → k ≠ 0 → find m k = Some (M !! k).
Proof.
  intros [Hs HT] Hk. unfold find, get.
  destruct (lookup_slot_spec _ _ (sh_probing _ Hs) k (intmap_shape_free _ Hs) Hk)
    as [(i & -> & Hi)|(i & n & -> & Habs & _)]; simpl.
  - unfold load. rewrite (table_hit _ _ _ _ _ _ (sh_probing _ Hs) HT Hi).
    destruct (zget_in (values m) i) as [v Hv]; [|by rewrite Hv].
    rewrite (sh_values _ Hs). destruct Hi as [Hi _]. by apply zget_Some_range in Hi.
  - by rewrite (table_miss _ _ _ _ HT Habs).
Qed.

Lemma free_slot_probe fuel ks mask j :
  free_slot fuel ks mask j =
    match probe fuel ks mask 0 j with Some (Hit i) => Some i | _ => None end.
Proof.
  revert j. induction fuel as [|fuel IH]; intros j; [done|]. simpl.
  destruct (zget ks j) as [key|]; [|done]. simpl. zcases; [done|apply IH].
Qed.

(** What [grow] uses the inner loop for: a free slot that a later walk for
    the key will reach. *)
Lemma free_slot_spec ks mask k :
  probing ks mask → (occupied ks < length ks)%nat →
  ∃ i n, free_slot (length ks) ks mask (Z.land k mask) = Some i ∧
    zget ks i = Some 0 ∧ Z.of_nat n < Z.of_nat (length ks) ∧
    slot (Z.of_nat (length ks)) k n = i ∧
    ∀ q : nat, (q < n)%nat → busy ks (slot (Z.of_nat (length ks)) k q).
Proof.
  intros [(e & He & Hcap) Hmask _ _] Hfree.
  destruct (walk_stops ks e He Hcap 0 k) as (n & key & Hn & Hkey & Hstop & Hwalk).
  { by apply occupied_free. }
  assert (key = 0) as -> by naive_solver.
  exists (slot (Z.of_nat (length ks)) k n), n. split_and!; [|done|lia|done|].
  - rewrite free_slot_probe, Hmask, (mask_slot _ e He Hcap), <-Hmask.
    rewrite (probe_run ks mask e He Hcap Hmask 0 k n 0 (length ks) 0);
      [by rewrite decide_True|lia|lia|done|by left|]. intros; apply Hwalk; lia.
  - intros m Hm. destruct (Hwalk m Hm) as (k' & ? & ? & _). by exists k'.
Qed.

(** One copy of [grow]: [k] is new to the target table. *)
Lemma place_spec ks vs mask M k v :
  probing ks mask → (occupied ks < length ks)%nat → length vs = length ks →
  (∀ i, zget ks i = Some 0 → zget vs i = Some go_zero) →
  table ks (zget vs) M → k ≠ 0 → M !! k = None →
  ∃ j, free_slot (length ks) ks mask (Z.land k mask) = Some j ∧
    0 <= j < Z.of_nat (length ks) ∧
    let ks' := <[Z.to_nat j := k]> ks in let vs' := <[Z.to_nat j := v]> vs in
    probing ks' mask ∧ occupied ks' = S (occupied ks) ∧
    (∀ i, zget ks' i = Some 0 → zget vs' i = Some go_zero) ∧
    table ks' (zget vs') (<[k := v]> M).
Proof.
  intros Hpr Hfree Hlen Hz HT Hk Habs.
  destruct (free_slot_spec ks mask k Hpr Hfree) as (j & n & Hj & Hj0 & Hn & Hs & Hb).
  pose proof (zget_Some_range _ _ _ Hj0) as Hr.
  assert (Hno : ∀ i, ¬ at_slot ks k i).
  { intros i Hi. destruct (zget_in vs i) as [w Hw].
    { rewrite Hlen. destruct Hi as [Hi _]. by apply zget_Some_range in Hi. }
    assert (M !! k = Some w) by (apply HT; by exists i). congruence. }
  exists j. split; [done|]. split; [done|]. split_and!.
  - by eapply probing_insert.
  - by apply occupied_insert.
  - intros i. rewrite !zget_insert by lia. case_decide; [congruence|]. apply Hz.
  - eapply table_insert; [done..| |].
    + apply zget_insert_eq. lia.
    + intros i _ ?. apply zget_insert_ne; lia.
Qed.

Lemma rehash_spec old oldValues mask0 n ks vs mask M :
  probing old mask0 → length oldValues = length old → (n <= length old)%nat →
  probing ks mask → occupied ks = occupied (take n old) →
  (occupied old < length ks)%nat → length vs = length ks →
  (∀ i, zget ks i = Some 0 → zget vs i = Some go_zero) →
  table ks (zget vs) M → table_upto n old (zget oldValues) M →
  ∃ ks' vs' M', rehash (drop n old) oldValues (Z.of_nat n) mask ks vs = Some (ks', vs') ∧
    probing ks' mask ∧ occupied ks' = occupied old ∧
    length ks' = length ks ∧ length vs' = length ks ∧
    (∀ i, zget ks' i = Some 0 → zget vs' i = Some go_zero) ∧
    table ks' (zget vs') M' ∧ table old (zget oldValues) M'.
Proof.
  intros Hold Hov. remember (length old - n)%nat as d eqn:Hd. revert n ks vs M Hd.
  induction d as [|d IH]; intros n ks vs M Hd Hn Hpr Hocc Hroom Hlen Hz HT HU.
  - assert (n = length old) by lia; subst n. rewrite drop_all, take_ge in * by lia.
    exists ks, vs, M. split_and!; try done. by apply table_upto_full.
  - destruct (lookup_lt_is_Some_2 old n) as [k Hk]; [lia|].
    rewrite (drop_S _ _ _ Hk). cbn [rehash].
    replace (Z.of_nat n + 1) with (Z.of_nat (S n)) by lia.
    pose proof (occupied_take_S _ _ _ Hk) as Hocc'. pose proof (occupied_take_le old (S n)).
    pose proof (zget_nat old n) as Hzk. rewrite Hk in Hzk.
    zcases; [subst k; rewrite decide_True in Hocc' by done|rewrite decide_False in Hocc' by done].
    + apply (IH (S n) ks vs M); try done; try lia; try congruence.
      by apply table_upto_skip.
    + destruct (zget_in oldValues (Z.of_nat n)) as [v Hv]; [lia|].
      destruct (table_upto_step n old mask0 (zget oldValues) M k v) as [Habs HU']; [done..|].
      destruct (place_spec ks vs mask M k v) as (j & -> & Hj & Hpr' & Hocc'' & Hz' & HT');
        try done; try lia.
      simpl. rewrite (zset_in ks) by lia. simpl. rewrite Hv. simpl.
      rewrite zset_in by lia. simpl.
      destruct (IH (S n) (<[Z.to_nat j:=k]> ks) (<[Z.to_nat j:=v]> vs) (<[k:=v]> M))
        as (ks' & vs' & M' & Hre & Hr); autorewrite with ay_len in *; try done; try lia.
      by exists ks', vs', M'.
Qed.

Lemma intmap_grow_repr m M :
  repr m M → ∃ m', grow m = Some m' ∧ repr m' M ∧ count m' < resizeAt m'.
Proof.
  intros [Hs HT]. destruct (sh_probing _ Hs) as [(e & He & Hcap) _ _ _].
  pose proof (sh_cap _ Hs). pose proof (sh_count _ Hs). pose proof (sh_load _ Hs).
  pose proof (sh_resize _ Hs). pose proof (intmap_shape_free _ Hs).
  pose proof (load_double (Z.of_nat (length (keys m))) (count m)).
  assert (Hpow : Z.of_nat (length (keys m)) * 2 = 2 ^ (e + 1)).
  { rewrite Hcap, Z.pow_add_r by lia. lia. }
  replace (2 * Z.of_nat (length (keys m))) with (2 ^ (e + 1)) in * by lia.
  unfold grow. rewrite Hpow. unfold alloc. cbn [keys values IntMap.mask resizeAt].
  destruct (rehash_spec (keys m) (values m) (mask m) 0
    (replicate (Z.to_nat (2 ^ (e + 1))) 0) (replicate (Z.to_nat (2 ^ (e + 1))) go_zero)
    (2 ^ (e + 1) - 1) ∅)
    as (ks' & vs' & M' & Hre & Hpr' & Hocc' & Hl & Hl' & Hz' & HT' & HTold);
    autorewrite with ay_len in *.
  { apply (sh_probing _ Hs). } { apply (sh_values _ Hs). } { lia. }
  { apply probing_empty. lia. } { by rewrite occupied_replicate. }
  { lia. } { done. }
  { intros i Hi. apply zget_Some_range in Hi. autorewrite with ay_len in Hi.
    by apply zget_replicate. }
  { apply table_empty. } { apply table_upto_0. }
  rewrite drop_0 in Hre. change (Z.of_nat 0) with 0 in Hre. rewrite Hre. simpl. eexists.
  split; [done|]. rewrite (table_unique _ _ _ _ HTold HT) in HT'.
  split; [|simpl; lia]. split; [|done].
  assert (Hk' : Z.of_nat (length ks') = 2 ^ (e + 1)) by lia.
  split; cbn [keys values IntMap.mask resizeAt count]; try done; try lia.
  by rewrite Hk'.
Qed.

(** The slot [cell] returns holds the value of [k], the zero value when
    [k] was not in the table, and the table now has [k]. *)
Lemma cell_found fuel m M k i :
  repr m M → lookup_slot (keys m) (mask m) k = Some (Hit i) → at_slot (keys m) k i →
  cell_loop (S fuel) m k = Some (m, (i, true)) ∧ M !! k = zget (values m) i.
Proof.
  intros [Hs HT] Hlk Hat. simpl. rewrite Hlk. split; [done|].
  by apply (table_hit _ _ _ _ _ _ (sh_probing _ Hs) HT).
Qed.

Lemma cell_loop_S fuel m k :
  cell_loop (S fuel) m k =
    p ← lookup_slot (keys m) (mask m) k;
    match p with
    | Hit i => Some (m, (i, true))
    | Miss i =>
        if count m <? resizeAt m then
          ks ← zset (keys m) i k;
          Some (mk ks (values m) (mask m) (count m + 1) (resizeAt m), (i, false))
        else m' ← grow m; cell_loop fuel m' k
    end.
Proof. done. Qed.

(** [cell] once there is room: no further [grow]. *)
Lemma cell_room fuel m M k :
  repr m M → k ≠ 0 → M !! k = None → count m < resizeAt m →
  ∃ m' i, cell_loop (S fuel) m k = Some (m', (i, false)) ∧ at_slot (keys m') k i ∧
    repr m' (<[k := go_zero]> M).
Proof.
  intros [Hs HT] Hk Habs Hroom. rewrite cell_loop_S.
  destruct (lookup_slot_spec _ _ (sh_probing _ Hs) k (intmap_shape_free _ Hs) Hk)
    as [(i & -> & Hi)|(i & n & -> & Hno & Hi0 & Hn & Hsl & Hb)].
  { rewrite (table_hit _ _ _ _ _ _ (sh_probing _ Hs) HT Hi) in Habs.
    apply zget_None in Habs. rewrite (sh_values _ Hs) in Habs.
    destruct Hi as [Hi _]. by apply zget_Some_range in Hi. }
  pose proof (zget_Some_range _ _ _ Hi0) as Hr. simpl.
  rewrite (proj2 (Z.ltb_lt _ _) Hroom), zset_in by lia. simpl.
  do 2 eexists. split; [done|]. split; [apply at_slot_insert; auto|].
  split; [|eapply table_insert; [done..|by apply (sh_zero _ Hs)|done]].
  destruct Hs. split; cbn [keys values mask resizeAt count]; autorewrite with ay_len in *; try done.
  - by eapply probing_insert.
  - rewrite occupied_insert by done. lia.
  - lia.
  - intros j. rewrite zget_insert by lia. case_decide; [congruence|auto].
Qed.

Lemma cell_repr m M k :
  repr m M → k ≠ 0 →
  ∃ m' i, cell m k = Some (m', (i, bool_decide (is_Some (M !! k)))) ∧
    at_slot (keys m') k i ∧
    repr m' (match M !! k with Some _ => M | None => <[k := go_zero]> M end).
Proof.
  intros HR Hk. pose proof HR as [Hs HT]. unfold cell.
  destruct (lookup_slot_spec _ _ (sh_probing _ Hs) k (intmap_shape_free _ Hs) Hk)
    as [(i & Hlk & Hi)|(i & n & Hlk & Hno & _)].
  - destruct (cell_found 1 m M k i HR Hlk Hi) as [-> HM].
    destruct (zget_in (values m) i) as [v Hv].
    { rewrite (sh_values _ Hs). destruct Hi as [Hi _]. by apply zget_Some_range in Hi. }
    rewrite HM, Hv. by exists m, i.
  - pose proof (table_miss _ _ _ _ HT Hno) as HM. rewrite HM.
    destruct (Z.ltb_spec (count m) (resizeAt m)) as [Hroom|Hfull].
    + by apply cell_room.
    + rewrite cell_loop_S, Hlk. cbn [mbind option_bind].
      rewrite (proj2 (Z.ltb_ge _ _) Hfull).
      destruct (intmap_grow_repr m M HR) as (m1 & -> & HR1 & Hroom1). cbn [mbind option_bind].
      by apply cell_room.
Qed.

Lemma store_repr m M k i v :
  repr m M → at_slot (keys m) k i →
  ∃ m', store m i v = Some m' ∧ repr m' (<[k := v]> M).
Proof.
  intros [Hs HT] Hi. pose proof Hi as [Hz Hk]. apply zget_Some_range in Hz as Hr.
  unfold store. rewrite zset_in by (rewrite (sh_values _ Hs); lia).
  eexists. split; [done|]. pose proof (sh_values _ Hs). split.
  - destruct Hs. split; cbn [keys values mask resizeAt count]; autorewrite with ay_len in *; try done.
    intros j Hj. rewrite zget_insert by lia. case_decide; [congruence|auto].
  - eapply table_update; [apply (sh_probing _ Hs)|done|done| |].
    + apply zget_insert_eq. lia.
    + intros j _ ?. apply zget_insert_ne; lia.
Qed.

Lemma intmap_put_repr m M k v :
  repr m M → k ≠ 0 → ∃ m', put m k v = Some m' ∧ repr m' (<[k := v]> M).
Proof.
  intros HR Hk. destruct (cell_repr m M k HR Hk) as (m1 & i & Hc & Hat & HR1).
  unfold put. rewrite Hc. simpl.
  destruct (store_repr m1 _ k i v HR1 Hat) as (m2 & -> & HR2). exists m2. split; [done|].
  destruct (M !! k); [done|]. by rewrite insert_insert_eq in HR2.
Qed.
End refine.

(** ** Sequences of operations *)

(** [Upsert k f] is the callers' idiom: take [p, ok := m.cell(k)], then write a value computed from the old one. *)
Inductive op (V : Type) :=
| Get (k : Z)
| Put (k : Z) (v : V)
| Upsert (k : Z) (f : V → bool → V).
Arguments Get {V}. Arguments Put {V}. Arguments Upsert {V}.

Section runs.
Context `{GoZero V}.
Implicit Types (m : IntMap V) (M : gmap Z V) (o : op V).

Definition op_key o : Z :=
  match o with Get k => k | Put k _ => k | Upsert k _ => k end.

(** The table's side: the state after the operation and what a [Get] sees. *)
Definition exec m o : option (IntMap V * option V) :=
  match o with
  | Get k => r ← find m k; Some (m, r)
  | Put k v => m' ← put m k v; Some (m', None)
  | Upsert k f =>
      c ← cell m k;
      v ← load c.1 c.2.1;
      m' ← store c.1 c.2.1 (f v c.2.2);
      Some (m', None)
  end.

Fixpoint run m (ops : list (op V)) : option (IntMap V * list (option V)) :=
  match ops with
  | [] => Some (m, [])
  | o :: ops => r ← exec m o; rs ← run r.1 ops; Some (rs.1, r.2 :: rs.2)
  end.

(** The specification's side, on finite maps. *)
Definition spec_exec M o : gmap Z V * option V :=
  match o with
  | Get k => (M, M !! k)
  | Put k v => (<[k := v]> M, None)
  | Upsert k f =>
      (<[k := f (default go_zero (M !! k)) (bool_decide (is_Some (M !! k)))]> M, None)
  end.

Fixpoint spec_run M (ops : list (op V)) : gmap Z V * list (option V) :=
  match ops with
  | [] => (M, [])
  | o :: ops =>
      let r := spec_exec M o in let rs := spec_run r.1 ops in (rs.1, r.2 :: rs.2)
  end.

Lemma repr_load m M k i : repr m M → at_slot (keys m) k i → load m i = M !! k.
Proof.
  intros [Hs HT] Hi. symmetry. by apply (table_hit _ _ _ _ _ _ (sh_probing _ Hs) HT).
Qed.

Lemma exec_repr m M o :
  repr m M → op_key o ≠ 0 →
  ∃ m', exec m o = Some (m', (spec_exec M o).2) ∧ repr m' (spec_exec M o).1.
Proof.
  intros HR. destruct o as [k|k v|k f]; simpl; intros Hk.
  - exists m. by rewrite (find_repr m M k HR Hk).
  - destruct (intmap_put_repr m M k v HR Hk) as (m' & -> & ?). by exists m'.
  - destruct (cell_repr m M k HR Hk) as (m1 & i & -> & Hat & HR1). simpl.
    rewrite (repr_load _ _ _ _ HR1 Hat).
    destruct (M !! k) as [v|] eqn:E; rewrite ?E, ?lookup_insert_eq; simpl.
    + destruct (store_repr m1 M k i (f v true) HR1 Hat) as (m2 & -> & ?). by exists m2.
    + destruct (store_repr m1 _ k i (f go_zero false) HR1 Hat) as (m2 & -> & HR2).
      rewrite insert_insert_eq in HR2. by exists m2.
Qed.

Lemma intmap_run_repr m M ops :
  repr m M → Forall (λ o, op_key o ≠ 0) ops →
  ∃ m', run m ops = Some (m', (spec_run M ops).2) ∧ repr m' (spec_run M ops).1.
Proof.
  revert m M. induction ops as [|o ops IH]; intros m M HR Hks; [by exists m|].
  apply Forall_cons in Hks as [Hk Hks]. simpl.
  destruct (exec_repr m M o HR Hk) as (m1 & -> & HR1).
  destruct (IH _ _ HR1 Hks) as (m2 & Hrun & HR2). simpl. rewrite Hrun. by exists m2.
Qed.
End runs.

(** C37: a fresh [IntMap], whatever its size hint, behaves as a finite map:
    every sequence of [get], [put] and [cell]-then-write with keys other than
    the empty marker 0 runs to completion (no walk or resize diverges, no
    access leaves the arrays), every lookup returns what the map holds, and
    the final table represents the final map. *)
Theorem intmap_refines_map `{GoZero V} (hint : Z) (ops : list (op V)) :
  Forall (λ o, op_key o ≠ 0) ops →
  ∃ m0 m', newIntMap hint = Some m0 ∧
    run m0 ops = Some (m', (spec_run ∅ ops).2) ∧ repr m' (spec_run ∅ ops).1.
Proof.
  intros Hks. destruct (newIntMap_repr (V:=V) hint) as (m0 & Hnew & HR).
  destruct (intmap_run_repr m0 ∅ ops HR Hks) as (m' & Hrun & HR'). by exists m0, m'.
Qed.

Definition sample_ops : list (op Z) :=
  [Put 8 1; Put 16 2; Put 24 3; Get 16; Upsert 8 (λ v b, v + if b then 10 else 0);
   Put 1 4; Put 9 5; Put 2 6; Get 8; Get 24; Get 3].

Lemma intmap_refines_map_witness :
  (m0 ← newIntMap 2; r ← run m0 sample_ops; Some r.2) =
    Some [None; None; None; Some 2; None; None; None; None; Some 11; Some 3; None].
Proof.
  destruct (intmap_refines_map (V:=Z) 2 sample_ops) as (m0 & m' & -> & Hr & _);
    [repeat (apply Forall_cons_2; [vm_compute; discriminate|]); apply Forall_nil_2|].
  cbn [mbind option_bind]. rewrite Hr. vm_compute. reflexivity.
Defined.

(** The key 0 is not a key.  On every well-formed table [get] of 0
    returns a pointer although 0 was never stored, and [cell] claims to have
    found it without recording anything: callers have to keep 0 out. *)
Theorem intmap_zero_key `{GoZero V} (m : IntMap V) (M : gmap Z V) :
  repr m M →
  M !! 0 = None ∧ find m 0 = Some (Some go_zero) ∧ ∃ i, cell m 0 = Some (m, (i, true)).
Proof.
  intros [Hs HT]. split; [by eapply table_zero|].
  destruct (free_slot_spec (keys m) (mask m) 0 (sh_probing _ Hs) (intmap_shape_free _ Hs))
    as (i & n & Hfree & Hi & _).
  rewrite free_slot_probe in Hfree. unfold cell, find, get, load.
  change (cell_loop 2 m 0) with (cell_loop (S 1) m 0). rewrite cell_loop_S.
  unfold lookup_slot. destruct (probe _ _ _ _ _) as [[j|j]|]; simplify_eq. simpl.
  rewrite (sh_zero _ Hs _ Hi). simpl. split; [done|]. by exists i.
Qed.

Lemma intmap_zero_key_witness :
  ∃ m : IntMap Z, newIntMap 0 = Some m ∧ find m 0 = Some (Some 0).
Proof.
  destruct (newIntMap_repr (V:=Z) 0) as (m & Hm & HR). exists m. split; [exact Hm|].
  exact (proj1 (proj2 (intmap_zero_key m ∅ HR))).
Defined.
End IntMap.

(** ** IntSet *)

Module IntSet.

Record IntSet := mk {
  keys : list Z;
  bits : list Z;
  mask : Z;
  count : Z;
  resizeAt : Z;
}.

Definition alloc (s : IntSet) (capacity : Z) : IntSet :=
  mk (replicate (Z.to_nat capacity) 0) (replicate (Z.to_nat ((capacity + 63) / 64)) 0)
    (capacity - 1) (count s) (capacity * 5 / 8).

Definition newIntSet (hint : Z) : option IntSet :=
  c ← table_cap (S (Z.to_nat hint)) hint 8;
  Some (alloc (mk [] [] 0 0 0) c).

(** [clear] zeroes a slice in place; the capacity stays. *)
Definition reset (s : IntSet) : IntSet :=
  mk (replicate (length (keys s)) 0) (replicate (length (bits s)) 0)
    (mask s) 0 (resizeAt s).

(** [*unsafeAt(bits, i>>6)>>(i&63)&1 != 0], on the receiver's or the old words. *)
Definition bit_of (bits : list Z) (i : Z) : option bool :=
  w ← zget bits (Z.shiftr i 6);
  Some (negb (Z.land (Z.shiftr w (Z.land i 63)) 1 =? 0)).

Definition bit (s : IntSet) (i : Z) : option bool := bit_of (bits s) i.

Definition setBit (s : IntSet) (i : Z) (v : bool) : option IntSet :=
  let b := u64 (Z.shiftl 1 (Z.land i 63)) in
  w ← zget (bits s) (Z.shiftr i 6);
  bs ← zset (bits s) (Z.shiftr i 6) (if v then Z.lor w b else Z.ldiff w b);
  Some (mk (keys s) bs (mask s) (count s) (resizeAt s)).

Definition get (s : IntSet) (k : Z) : option (bool * bool) :=
  p ← lookup_slot (keys s) (mask s) k;
  match p with
  | Hit i => b ← bit s i; Some (b, true)
  | Miss _ => Some (false, false)
  end.

(** The loop of [grow] over the old keys, [put] being the recursive call. *)
Fixpoint reinsert (put : IntSet → Z → bool → option IntSet) (old oldBits : list Z)
    (i : Z) (s : IntSet) : option IntSet :=
  match old with
  | [] => Some s
  | k :: old =>
      if k =? 0 then reinsert put old oldBits (i + 1) s
      else
        b ← bit_of oldBits i;
        s' ← put s k b;
        reinsert put old oldBits (i + 1) s'
  end.

Definition grow_with (put : IntSet → Z → bool → option IntSet) (s : IntSet) : option IntSet :=
  let s1 := alloc s (Z.of_nat (length (keys s)) * 2) in
  reinsert put (keys s) (bits s) 0
    (mk (keys s1) (bits s1) (mask s1) 0 (resizeAt s1)).

(** [put] and [grow] call each other; the fuel counts nested calls and
    retries together. *)
Fixpoint put_loop (fuel : nat) (s : IntSet) (k : Z) (v : bool) : option IntSet :=
  match fuel with
  | O => None
  | S fuel =>
      p ← lookup_slot (keys s) (mask s) k;
      match p with
      | Hit i => setBit s i v
      | Miss i =>
          if count s <? resizeAt s then
            ks ← zset (keys s) i k;
            s' ← setBit (mk ks (bits s) (mask s) (count s) (resizeAt s)) i v;
            Some (mk (keys s') (bits s') (mask s') (count s' + 1) (resizeAt s'))
          else s' ← grow_with (put_loop fuel) s; put_loop fuel s' k v
      end
  end.

Definition put (s : IntSet) (k : Z) (v : bool) : option IntSet := put_loop 2 s k v.

(** ** The slots' bits *)

Lemma bit_of_test w j : Z.land (Z.shiftr w j) 1 =? 0 = negb (Z.testbit w j).
Proof.
  rewrite Z.testbit_odd. change 1 with (Z.ones 1). rewrite Z.land_ones by lia.
  rewrite Zmod_odd. by destruct (Z.odd _).
Qed.

Lemma bit_of_eq bits i w :
  zget bits (Z.shiftr i 6) = Some w → bit_of bits i = Some (Z.testbit w (Z.land i 63)).
Proof. intros Hw. unfold bit_of. rewrite Hw. simpl. by rewrite bit_of_test, negb_involutive. Qed.

(** The word of every slot exists. *)
Lemma word_in cap i : 0 <= i < cap → 0 <= Z.shiftr i 6 < (cap + 63) / 64.
Proof.
  intros Hi. rewrite Z.shiftr_div_pow2 by lia. change (2 ^ 6) with 64.
  split; [apply Z.div_pos; lia|].
  enough (i / 64 + 1 <= (cap + 63) / 64) by lia.
  apply Z.div_le_lower_bound; [lia|]. pose proof (Z.mul_div_le i 64). lia.
Qed.

Lemma testbit_set w i j (v : bool) :
  0 <= i < 64 → 0 <= j →
  Z.testbit (if v then Z.lor w (u64 (Z.shiftl 1 i)) else Z.ldiff w (u64 (Z.shiftl 1 i))) j =
    if decide (i = j) then v else Z.testbit w j.
Proof.
  intros Hi Hj. destruct v; rewrite ?Z.lor_spec, ?Z.ldiff_spec, testbit_bit by lia;
    case_decide as Hd; rewrite ?bool_decide_true, ?bool_decide_false by done;
    by rewrite ?orb_true_r, ?andb_false_r, ?orb_false_r, ?andb_true_r.
Qed.

Definition bits_ok (s : IntSet) : Prop :=
  Z.of_nat (length (bits s)) = (Z.of_nat (length (keys s)) + 63) / 64.

Lemma bit_total s i :
  bits_ok s → 0 <= i < Z.of_nat (length (keys s)) → is_Some (bit s i).
Proof.
  intros Hb Hi. apply word_in in Hi. rewrite <-Hb in Hi.
  destruct (zget_in _ _ Hi) as [w Hw]. unfold bit. rewrite (bit_of_eq _ _ _ Hw). by eexists.
Qed.

Lemma setBit_spec s i v :
  bits_ok s → 0 <= i < Z.of_nat (length (keys s)) →
  ∃ bs, setBit s i v = Some (mk (keys s) bs (mask s) (count s) (resizeAt s)) ∧
    length bs = length (bits s) ∧ bit_of bs i = Some v ∧
    ∀ j, 0 <= j → j ≠ i → bit_of bs j = bit_of (bits s) j.
Proof.
  intros Hb Hi. pose proof (word_in _ _ Hi) as Hw. rewrite <-Hb in Hw.
  destruct (zget_in _ _ Hw) as [w Hzw]. unfold setBit. rewrite Hzw. simpl.
  rewrite zset_in by done. eexists. split; [done|]. split; [len|].
  pose proof (land_ones_range i 6 ltac:(lia)) as Hlo. change (Z.ones 6) with 63 in *.
  split.
  - erewrite bit_of_eq by (apply zget_insert_eq; done).
    rewrite testbit_set by lia. by rewrite decide_True.
  - intros j Hj Hne. pose proof (land_ones_range j 6 ltac:(lia)) as Hlj.
    change (Z.ones 6) with 63 in *.
    destruct (decide (Z.shiftr i 6 = Z.shiftr j 6)) as [E|E].
    + erewrite bit_of_eq by (rewrite <-E; apply zget_insert_eq; done).
      rewrite E in Hzw. rewrite (bit_of_eq _ _ _ Hzw), testbit_set by lia.
      rewrite decide_False; [done|]. intros E'. apply Hne. symmetry.
      apply (id_split 6); [lia|lia|lia|done|done].
    + unfold bit_of. by rewrite zget_insert_ne by lia.
Qed.

(** ** Refinement *)

Record shape (s : IntSet) : Prop := {
  sh_probing : probing (keys s) (mask s);
  sh_cap : 8 <= Z.of_nat (length (keys s));
  sh_bits : bits_ok s;
  sh_count : count s = Z.of_nat (occupied (keys s));
  sh_resize : resizeAt s = Z.of_nat (length (keys s)) * 5 / 8;
  sh_load : count s <= resizeAt s;
}.

Definition repr (s : IntSet) (M : gmap Z bool) : Prop :=
  shape s ∧ table (keys s) (bit s) M.

Lemma intset_shape_free s : shape s → (occupied (keys s) < length (keys s))%nat.
Proof. intros []. pose proof (load_free (Z.of_nat (length (keys s))) (count s)). lia. Qed.

Lemma empty_repr e nbits :
  3 <= e → Z.of_nat nbits = (2 ^ e + 63) / 64 →
  repr (mk (replicate (Z.to_nat (2 ^ e)) 0) (replicate nbits 0) (2 ^ e - 1) 0 (2 ^ e * 5 / 8)) ∅.
Proof.
  intros He Hn. pose proof (Z.pow_le_mono_r 2 3 e). split; [|apply table_empty].
  split; unfold bits_ok; simpl; autorewrite with ay_len; rewrite ?occupied_replicate;
    rewrite ?Z2Nat.id by lia; try done; try lia.
  - apply probing_empty. lia.
  - apply Z.div_pos; lia.
Qed.

Lemma newIntSet_repr hint : ∃ s, newIntSet hint = Some s ∧ repr s ∅.
Proof.
  destruct (table_cap_spec hint) as (e & He & Hc & _).
  unfold newIntSet. rewrite Hc. eexists. split; [done|]. apply empty_repr; [done|].
  rewrite Z2Nat.id; [done|]. pose proof (Z.pow_le_mono_r 2 3 e). apply Z.div_pos; lia.
Qed.

Lemma reset_repr s M : repr s M → repr (reset s) ∅.
Proof.
  intros [[[(e & He & Hcap) Hmask _ _] Hc Hb _ Hr _] _].
  unfold bits_ok in Hb. rewrite Hcap in Hb.
  assert (He3 : 3 <= e) by (apply (Z.pow_le_mono_r_iff 2); lia).
  pose proof (empty_repr e _ He3 Hb) as Hrepr. unfold reset.
  rewrite Hmask, Hr, Hcap. replace (length (keys s)) with (Z.to_nat (2 ^ e)) by lia. done.
Qed.

Lemma intset_get_repr s M k :
  repr s M → k ≠ 0 →
  get s k = Some (match M !! k with Some b => (b, true) | None => (false, false) end).
Proof.
  intros [Hs HT] Hk. unfold get.
  destruct (lookup_slot_spec _ _ (sh_probing _ Hs) k (intset_shape_free _ Hs) Hk)
    as [(i & -> & Hi)|(i & n & -> & Habs & _)]; simpl.
  - rewrite (table_hit _ _ _ _ _ _ (sh_probing _ Hs) HT Hi).
    destruct (bit_total s i (sh_bits _ Hs)) as [b ->]; [|done].
    destruct Hi as [Hi _]. by apply zget_Some_range in Hi.
  - by rewrite (table_miss _ _ _ _ HT Habs).
Qed.

(** [put] when the key is there or there is room for it. *)
Lemma put_room fuel s M k v :
  repr s M → k ≠ 0 → is_Some (M !! k) ∨ count s < resizeAt s →
  ∃ s', put_loop (S fuel) s k v = Some s' ∧ repr s' (<[k := v]> M) ∧
    length (keys s') = length (keys s) ∧ mask s' = mask s ∧ resizeAt s' = resizeAt s ∧
    count s' = count s + (if decide (is_Some (M !! k)) then 0 else 1).
Proof.
  intros [Hs HT] Hk Hor. cbn [put_loop].
  destruct (lookup_slot_spec _ _ (sh_probing _ Hs) k (intset_shape_free _ Hs) Hk)
    as [(i & -> & Hi)|(i & n & -> & Hno & Hi0 & Hn & Hsl & Hb)]; cbn [mbind option_bind].
  - pose proof Hi as [Hz _]. apply zget_Some_range in Hz.
    destruct (setBit_spec s i v (sh_bits _ Hs) Hz) as (bs & -> & Hl & Hv & Hoth).
    eexists. split; [done|].
    rewrite (table_hit _ _ _ _ _ _ (sh_probing _ Hs) HT Hi), decide_True
      by (by apply bit_total, Hz; apply (sh_bits _ Hs)).
    split; [|simpl; split_and!; [done..|lia]]. split.
    + destruct Hs as [? ? Hbs ? ? ?]. split; try done. unfold bits_ok in *. simpl. lia.
    + eapply table_update; [apply (sh_probing _ Hs)|done..|].
      intros j [k' [Hj _]] ?. apply Hoth; [|done]. apply zget_Some_range in Hj. lia.
  - pose proof (table_miss _ _ _ _ HT Hno) as HM. rewrite HM in *.
    destruct Hor as [[? ?]|Hroom]; [done|]. rewrite decide_False by (by intros [? ?]).
    rewrite (proj2 (Z.ltb_lt _ _) Hroom). pose proof (zget_Some_range _ _ _ Hi0) as Hr.
    rewrite zset_in by lia. cbn [mbind option_bind].
    destruct (setBit_spec (mk (<[Z.to_nat i:=k]> (keys s)) (bits s) (mask s) (count s)
      (resizeAt s)) i v) as (bs & -> & Hl & Hv & Hoth).
    { unfold bits_ok. simpl. rewrite length_insert. apply (sh_bits _ Hs). }
    { simpl. by rewrite length_insert. }
    eexists. split; [done|]. simpl in *. split; [|split_and!; [len|done..]].
    split.
    + destruct Hs as [? ? Hbs ? ? ?]. unfold bits_ok in *.
      split; unfold bits_ok; simpl; autorewrite with ay_len; try done; try lia.
      * by eapply probing_insert.
      * rewrite occupied_insert by done. lia.
    + eapply table_insert; [done..|]. intros j [k' [Hj _]] ?.
      apply Hoth; [|done]. apply zget_Some_range in Hj. lia.
Qed.

Lemma reinsert_spec fuel old oldBits mask0 n s M :
  probing old mask0 → (∀ i, busy old i → is_Some (bit_of oldBits i)) →
  (n <= length old)%nat → repr s M → count s = Z.of_nat (occupied (take n old)) →
  Z.of_nat (occupied old) < resizeAt s → table_upto n old (bit_of oldBits) M →
  ∃ s' M', reinsert (put_loop (S fuel)) (drop n old) oldBits (Z.of_nat n) s = Some s' ∧
    repr s' M' ∧ table old (bit_of oldBits) M' ∧
    count s' = Z.of_nat (occupied old) ∧ resizeAt s' = resizeAt s.
Proof.
  intros Hold Hbits. remember (length old - n)%nat as d eqn:Hd. revert n s M Hd.
  induction d as [|d IH]; intros n s M Hd Hn HR Hocc Hroom HU.
  - assert (n = length old) by lia; subst n. rewrite drop_all, take_ge in * by lia.
    exists s, M. split_and!; try done. by apply table_upto_full.
  - destruct (lookup_lt_is_Some_2 old n) as [k Hk]; [lia|].
    rewrite (drop_S _ _ _ Hk). cbn [reinsert].
    replace (Z.of_nat n + 1) with (Z.of_nat (S n)) by lia.
    pose proof (occupied_take_S _ _ _ Hk) as Hocc'. pose proof (occupied_take_le old (S n)).
    pose proof (zget_nat old n) as Hzk. rewrite Hk in Hzk.
    zcases; [subst k; rewrite decide_True in Hocc' by done|rewrite decide_False in Hocc' by done].
    + apply (IH (S n) s M); try done; try lia. by apply table_upto_skip.
    + assert (Hat : at_slot old k (Z.of_nat n)) by done.
      destruct (Hbits (Z.of_nat n)) as [v Hv]; [by exists k|].
      destruct (table_upto_step n old mask0 (bit_of oldBits) M k v) as [Habs HU']; [done..|].
      rewrite Hv. cbn [mbind option_bind].
      destruct (put_room fuel s M k v HR) as (s1 & -> & HR1 & _ & _ & Hra & Hcnt);
        [done|right; lia|].
      rewrite Habs, decide_False in Hcnt by (by intros [? ?]). cbn [mbind option_bind].
      destruct (IH (S n) s1 (<[k:=v]> M)) as (s' & M' & Hre & Hrest); try done; try lia.
      exists s', M'. rewrite Hra in Hrest. done.
Qed.

Lemma intset_grow_repr fuel s M :
  repr s M →
  ∃ s', grow_with (put_loop (S fuel)) s = Some s' ∧ repr s' M ∧ count s' < resizeAt s'.
Proof.
  intros [Hs HT]. destruct (sh_probing _ Hs) as [(e & He & Hcap) _ _ _].
  pose proof (sh_cap _ Hs). pose proof (sh_count _ Hs). pose proof (sh_load _ Hs).
  pose proof (sh_resize _ Hs).
  pose proof (load_double (Z.of_nat (length (keys s))) (count s)).
  assert (Hpow : Z.of_nat (length (keys s)) * 2 = 2 ^ (e + 1)).
  { rewrite Hcap, Z.pow_add_r by lia. lia. }
  replace (2 * Z.of_nat (length (keys s))) with (2 ^ (e + 1)) in * by lia.
  assert (3 <= e) by (apply (Z.pow_le_mono_r_iff 2); lia).
  unfold grow_with, alloc. rewrite Hpow. cbn [keys bits mask resizeAt].
  destruct (reinsert_spec fuel (keys s) (bits s) (mask s) 0
    (mk (replicate (Z.to_nat (2 ^ (e + 1))) 0) (replicate (Z.to_nat ((2 ^ (e + 1) + 63) / 64)) 0)
      (2 ^ (e + 1) - 1) 0 (2 ^ (e + 1) * 5 / 8)) ∅)
    as (s' & M' & Hre & HR' & HT' & Hcnt & Hra).
  { apply (sh_probing _ Hs). }
  { intros i [k [Hi _]]. apply (bit_total s); [apply (sh_bits _ Hs)|].
    by apply zget_Some_range in Hi. }
  { lia. }
  { apply empty_repr; [lia|]. rewrite Z2Nat.id; [done|]. apply Z.div_pos; lia. }
  { done. } { cbn [resizeAt]. lia. } { apply table_upto_0. }
  rewrite drop_0 in Hre. exists s'. split; [done|].
  rewrite (table_unique _ _ _ _ HT' HT) in HR'. split; [done|].
  rewrite Hcnt, Hra. cbn [resizeAt]. lia.
Qed.

(** [put] on a full table is [put] after [grow]. *)
Lemma put_full fuel s M k v :
  repr s M → k ≠ 0 → M !! k = None → resizeAt s <= count s →
  put_loop (S fuel) s k v =
    s' ← grow_with (put_loop fuel) s; put_loop fuel s' k v.
Proof.
  intros [Hs HT] Hk HM Hfull. cbn [put_loop].
  destruct (lookup_slot_spec _ _ (sh_probing _ Hs) k (intset_shape_free _ Hs) Hk)
    as [(i & -> & Hi)|(i & n & -> & _)]; cbn [mbind option_bind].
  - rewrite (table_hit _ _ _ _ _ _ (sh_probing _ Hs) HT Hi) in HM.
    destruct (bit_total s i (sh_bits _ Hs)) as [b ?]; [|congruence].
    destruct Hi as [Hi _]. by apply zget_Some_range in Hi.
  - by rewrite (proj2 (Z.ltb_ge _ _) Hfull).
Qed.

Lemma intset_put_repr s M k v :
  repr s M → k ≠ 0 → ∃ s', put s k v = Some s' ∧ repr s' (<[k := v]> M).
Proof.
  intros HR Hk. pose proof HR as [Hs HT]. unfold put.
  destruct (decide (is_Some (M !! k) ∨ count s < resizeAt s)) as [Hor|Hfull].
  { destruct (put_room 1 s M k v HR Hk Hor) as (s' & ? & ? & _). by exists s'. }
  apply Decidable.not_or in Hfull as [HM Hfull]. apply eq_None_not_Some in HM.
  destruct (intset_grow_repr 0 s M HR) as (s1 & Hg & HR1 & Hroom).
  destruct (put_room 0 s1 M k v HR1 Hk (or_intror Hroom)) as (s' & Hp & ? & _).
  exists s'. split; [|done]. rewrite (put_full 1 s M k v) by (done || lia).
  rewrite Hg. done.
Qed.

(** ** Sequences of operations *)

Inductive op := Get (k : Z) | Put (k : Z) (v : bool) | Reset.

Definition op_ok (o : op) : Prop :=
  match o with Get k => k ≠ 0 | Put k _ => k ≠ 0 | Reset => True end.

Definition exec (s : IntSet) (o : op) : option (IntSet * (bool * bool)) :=
  match o with
  | Get k => r ← get s k; Some (s, r)
  | Put k v => s' ← put s k v; Some (s', (false, false))
  | Reset => Some (reset s, (false, false))
  end.

Definition spec_exec (M : gmap Z bool) (o : op) : gmap Z bool * (bool * bool) :=
  match o with
  | Get k => (M, match M !! k with Some b => (b, true) | None => (false, false) end)
  | Put k v => (<[k := v]> M, (false, false))
  | Reset => (∅, (false, false))
  end.

Fixpoint run (s : IntSet) (ops : list op) : option (list (bool * bool)) :=
  match ops with
  | [] => Some []
  | o :: ops => r ← exec s o; rs ← run r.1 ops; Some (r.2 :: rs)
  end.

Fixpoint spec_run (M : gmap Z bool) (ops : list op) : list (bool * bool) :=
  match ops with
  | [] => []
  | o :: ops => let r := spec_exec M o in r.2 :: spec_run r.1 ops
  end.

Lemma intset_run_repr s M ops :
  repr s M → Forall op_ok ops → run s ops = Some (spec_run M ops).
Proof.
  revert s M. induction ops as [|o ops IH]; intros s M HR Hok; [done|].
  apply Forall_cons in Hok as [Ho Hok].
  assert (∃ s', exec s o = Some (s', (spec_exec M o).2) ∧ repr s' (spec_exec M o).1)
    as (s' & Hex & HR').
  { destruct o as [k|k v|]; simpl in *.
    - exists s. by rewrite (intset_get_repr s M k HR Ho).
    - destruct (intset_put_repr s M k v HR Ho) as (s' & -> & ?). by exists s'.
    - exists (reset s). split; [done|by eapply reset_repr]. }
  simpl. rewrite Hex. cbn [mbind option_bind fst snd]. by rewrite (IH _ _ HR' Hok).
Qed.

(** A fresh [IntSet] behaves as a finite map from keys to booleans under
    every sequence of [get], [put] and [reset] with keys other than 0: nothing
    diverges in the mutual recursion of [put] and [grow], no bit or key access
    leaves its array, and every [get] reports the stored flag and its
    presence. *)
Theorem intset_refines_map (hint : Z) (ops : list op) :
  Forall op_ok ops →
  ∃ s, newIntSet hint = Some s ∧ run s ops = Some (spec_run ∅ ops).
Proof.
  intros Hok. destruct (newIntSet_repr hint) as (s & Hnew & HR). exists s.
  split; [done|]. by apply intset_run_repr.
Qed.

Definition sample_ops : list op :=
  [Put 8 true; Put 16 false; Put 24 true; Put 1 true; Put 9 false; Put 2 true; Put 8 false;
   Get 8; Get 24; Get 2; Get 5; Reset; Get 8].

Lemma intset_refines_map_witness :
  (s ← newIntSet 3; drop 7 <$> run s sample_ops) =
    Some [(false, true); (true, true); (true, true); (false, false); (false, false); (false, false)].
Proof.
  destruct (intset_refines_map 3 sample_ops) as (s & -> & Hr);
    [repeat (apply Forall_cons_2; [vm_compute; first [discriminate|exact I]|]); apply Forall_nil_2|].
  cbn [mbind option_bind]. rewrite Hr. vm_compute. reflexivity.
Defined.
End IntSet.
