(* ===== verification/IndexMaps.v ===== *)
(** * Maps from 32-bit ids (dense_index.go, dense_map.go, sparse_map.go)

    [DenseMap] and [SparseMap] keep their values in a vector in order of first
    insertion, slot 0 unused, and differ only in the index from ids to slots:
    pages of 1024 slots, or an [IntMap] keyed by a mixed id.  [SlotIndex] is
    what the maps rely on; the two indexes are its instances and the theorems
    about the maps are proved once, against the interface. *)

From S2P Require Import Prelude Words Vec BitSets IdSets IntMap.
Local Open Scope Z_scope.

(** ** The interface of an index *)

(** An index stands for a function from ids to slots, 0 for "none". *)
Class SlotIndex (X : Type) := {
  index_get : X → Z → option Z;
  index_put : X → Z → Z → option X;
  index_repr : X → (Z → Z) → Prop;
  index_get_ok x f k : index_repr x f → is_u32 k → index_get x k = Some (f k);
  index_put_ok x f k s : index_repr x f → is_u32 k → is_u32 s →
    ∃ x', index_put x k s = Some x' ∧ index_repr x' (λ k', if decide (k' = k) then s else f k');
}.

(** ** DenseIndex *)

Module DenseIndex.

(** A [*denseIndexPage]: nil, the shared page of zeros, or a page of its own
    (each such page is reachable from one cell only). *)
Inductive page := PNil | PZero | POwn (slots : list Z).
#[export] Instance page_go_zero : GoZero page := PNil.

Record DenseIndex := mk { pages : vec page }.
#[export] Instance DenseIndex_go_zero : GoZero DenseIndex := mk go_zero.

Definition zero_page : list Z := replicate 1024 0.

(** The array a page pointer leads to. *)
Definition deref (p : page) : option (list Z) :=
  match p with PNil => None | PZero => Some zero_page | POwn s => Some s end.

Definition get (idx : DenseIndex) (k : Z) : option Z :=
  let page := Z.shiftr k 10 in
  if page <? Z.of_nat (vlen (pages idx)) then
    p ← vget (pages idx) page;
    a ← deref p;
    zget a (Z.land k 1023)
  else Some 0.

(** [for i := old; i < len(pages); i++ { pages[i] = &denseIndexZero }] *)
Fixpoint fill_zero (n : nat) (i : Z) (ps : vec page) : option (vec page) :=
  match n with
  | O => Some ps
  | S n => ps' ← vset ps i PZero; fill_zero n (i + 1) ps'
  end.

Definition put (idx : DenseIndex) (k slot : Z) : option DenseIndex :=
  let page := Z.shiftr k 10 in
  ps ← (if Z.of_nat (vlen (pages idx)) <=? page then
          let old := vlen (pages idx) in
          let ps := ensureLen (pages idx) (Z.to_nat page + 1) in
          fill_zero (vlen ps - old) (Z.of_nat old) ps
        else Some (pages idx));
  p ← vget ps page;
  a ← (match p with PZero => Some zero_page | _ => deref p end);
  a' ← zset a (Z.land k 1023) slot;
  ps' ← vset ps page (POwn a');
  Some (mk ps').

(** The calls of [visit] for page number [i], from slot [j] on. *)
Fixpoint visit_page (i j : Z) (a : list Z) : list (Z * Z) :=
  match a with
  | [] => []
  | slot :: a =>
      (if slot =? 0 then [] else [(Z.lor (u32 (Z.shiftl i 10)) j, slot)]) ++
      visit_page i (j + 1) a
  end.

Fixpoint each_from (i : Z) (ps : list page) : option (list (Z * Z)) :=
  match ps with
  | [] => Some []
  | p :: ps =>
      l ← (match p with
           | PZero => Some []
           | PNil => None
           | POwn a => Some (visit_page i 0 a)
           end);
      ls ← each_from (i + 1) ps;
      Some (l ++ ls)
  end.

Definition each (idx : DenseIndex) : option (list (Z * Z)) :=
  each_from 0 (vslice (pages idx)).

(** ** What the index stands for *)

Definition page_at (ps : list page) (k : Z) : Z :=
  match zget ps (Z.shiftr k 10) with
  | Some (POwn a) => default 0 (zget a (Z.land k 1023))
  | _ => 0
  end.

Definition page_ok (p : page) : Prop :=
  match p with PNil => False | PZero => True | POwn a => length a = 1024%nat end.

Record repr (idx : DenseIndex) (f : Z → Z) : Prop := {
  rp_vec : vwf (pages idx);
  rp_clean : vclean (pages idx);
  rp_pages : Forall page_ok (vslice (pages idx));
  rp_len : Z.of_nat (vlen (pages idx)) <= 2 ^ 22;
  rp_slots : ∀ k, is_u32 k → f k = page_at (vslice (pages idx)) k;
}.

Lemma repr_zero : repr go_zero (λ _, 0).
Proof.
  split; [apply vwf_zero|apply vclean_zero|constructor|simpl; lia|].
  intros k _. unfold page_at. simpl. unfold zget. case_bool_decide; [|done].
  by destruct (Z.to_nat _).
Qed.

Lemma low_range k : 0 <= Z.land k 1023 < 1024.
Proof. change 1023 with (Z.ones 10). by apply land_ones_range. Qed.

Lemma vget_slice {T} (v : vec T) i : vwf v → vget v i = zget (vslice v) i.
Proof.
  intros Hw. unfold vget. case_bool_decide as Hi.
  - by rewrite zget_vslice.
  - symmetry. apply zget_None. rewrite length_vslice by done. lia.
Qed.

Lemma vset_slice {T} `{GoZero T} (v : vec T) i x :
  vwf v → vclean v → 0 <= i < Z.of_nat (vlen v) →
  ∃ v', vset v i x = Some v' ∧ vwf v' ∧ vclean v' ∧ vlen v' = vlen v ∧
        vslice v' = <[Z.to_nat i := x]> (vslice v).
Proof. intros. unfold vset. rewrite bool_decide_true by lia. by apply unsafeSet_spec. Qed.

Lemma dense_get_repr idx f k : repr idx f → is_u32 k → get idx k = Some (f k).
Proof.
  intros [Hw Hc Hp Hlen Hf] Hk. rewrite Hf by done. unfold get, page_at.
  pose proof (shiftr_u32 k 10 ltac:(lia) Hk) as Hr. pose proof (low_range k) as Hlow.
  zcases.
  - rewrite vget_slice by done.
    destruct (zget_in (vslice (pages idx)) (Z.shiftr k 10)) as [p Hz].
    { rewrite length_vslice by done. lia. }
    rewrite Hz. assert (Hok : page_ok p).
    { rewrite Forall_lookup in Hp. unfold zget in Hz. rewrite bool_decide_true in Hz by lia. eauto. }
    destruct p as [| |a]; [done| |]; cbn [deref mbind option_bind default].
    + unfold zero_page. by rewrite zget_replicate by lia.
    + simpl in Hok. destruct (zget_in a (Z.land k 1023)) as [s ->]; [lia|done].
  - replace (zget _ _) with (@None page); [done|]. symmetry. apply zget_None.
    rewrite length_vslice by done. lia.
Qed.

Lemma fill_zero_spec n ps l q :
  vwf ps → vclean ps → vslice ps = l ++ replicate n q →
  ∃ ps', fill_zero n (Z.of_nat (length l)) ps = Some ps' ∧ vwf ps' ∧ vclean ps' ∧
    vslice ps' = l ++ replicate n PZero.
Proof.
  revert ps l. induction n as [|n IH]; intros ps l Hw Hc Hs; [by exists ps|].
  assert (Hlen : vlen ps = (length l + S n)%nat).
  { rewrite <-length_vslice, Hs by done. len. }
  simpl. destruct (vset_slice ps (Z.of_nat (length l)) PZero Hw Hc)
    as (ps1 & -> & Hw1 & Hc1 & Hl1 & Hs1); [lia|]. simpl.
  replace (Z.of_nat (length l) + 1) with (Z.of_nat (length (l ++ [PZero])))
    by (rewrite length_app; simpl; lia).
  destruct (IH ps1 (l ++ [PZero]) Hw1 Hc1) as (ps2 & -> & Hw2 & Hc2 & Hs2).
  { rewrite Hs1, Hs, Nat2Z.id. rewrite insert_app_r_alt by lia.
    rewrite Nat.sub_diag. simpl. by rewrite <-app_assoc. }
  exists ps2. split_and!; [done..|]. rewrite Hs2, <-app_assoc. done.
Qed.

(** The pages after the growth of [put]. *)
Lemma grown_spec (ps : vec page) (page : Z) :
  vwf ps → vclean ps → Forall page_ok (vslice ps) → 0 <= page →
  ∃ ps', (if Z.of_nat (vlen ps) <=? page then
            let ps' := ensureLen ps (Z.to_nat page + 1) in
            fill_zero (vlen ps' - vlen ps) (Z.of_nat (vlen ps)) ps'
          else Some ps) = Some ps' ∧
    vwf ps' ∧ vclean ps' ∧ Forall page_ok (vslice ps') ∧
    page < Z.of_nat (vlen ps') <= Z.of_nat (vlen ps) `max` (page + 1) ∧
    ∃ n, vslice ps' = vslice ps ++ replicate n PZero.
Proof.
  intros Hw Hc Hp H0. zcases.
  - destruct (ensureLen_spec ps (Z.to_nat page + 1) Hw Hc) as (Hw1 & Hc1 & Hl1 & Hs1).
    set (ps1 := ensureLen ps (Z.to_nat page + 1)) in *. cbv zeta.
    replace (vlen ps1 - vlen ps)%nat with (Z.to_nat page + 1 - vlen ps)%nat by lia.
    destruct (fill_zero_spec _ ps1 (vslice ps) go_zero Hw1 Hc1 Hs1) as (ps2 & Hf & Hw2 & Hc2 & Hs2).
    rewrite length_vslice in Hf by done. exists ps2. split; [done|]. split; [done|]. split; [done|].
    split; [|split; [|by eexists]].
    + rewrite Hs2. apply Forall_app. split; [done|]. by apply Forall_replicate.
    + pose proof (length_vslice ps2 Hw2) as Hl2. rewrite Hs2 in Hl2.
      autorewrite with ay_len in Hl2. rewrite length_vslice in Hl2 by done. lia.
  - exists ps. split; [done|]. split; [done|]. split; [done|]. split; [done|]. split; [lia|]. exists 0%nat. by rewrite app_nil_r.
Qed.

(** Pages of zeros added at the end do not change any slot. *)
Lemma page_at_app ps n k : 0 <= k → page_at (ps ++ replicate n PZero) k = page_at ps k.
Proof.
  intros Hk. unfold page_at. assert (0 <= Z.shiftr k 10) by (by apply Z.shiftr_nonneg).
  destruct (decide (Z.shiftr k 10 < Z.of_nat (length ps))) as [Hlt|Hge].
  - by rewrite zget_app_l by lia.
  - rewrite zget_app_r by lia.
    replace (zget ps (Z.shiftr k 10)) with (@None page) by (symmetry; apply zget_None; lia).
    destruct (zget (replicate n PZero) _) as [p|] eqn:E; [|done].
    unfold zget in E. case_bool_decide; [|done]. by apply lookup_replicate_1 in E as [-> _].
Qed.

Lemma page_at_insert ps a k k' slot :
  is_u32 k → is_u32 k' → Z.shiftr k 10 < Z.of_nat (length ps) → length a = 1024%nat →
  (zget ps (Z.shiftr k 10) = Some (POwn a) ∨
   zget ps (Z.shiftr k 10) = Some PZero ∧ a = zero_page) →
  page_at (<[Z.to_nat (Z.shiftr k 10) := POwn (<[Z.to_nat (Z.land k 1023) := slot]> a)]> ps) k' =
    if decide (k' = k) then slot else page_at ps k'.
Proof.
  intros Hk Hk' Hlt Ha Hold. pose proof (shiftr_u32 k 10 ltac:(lia) Hk) as Hr.
  pose proof (low_range k) as Hlow. pose proof (low_range k') as Hlow'. unfold page_at.
  rewrite zget_insert by lia. case_decide as Hpg.
  - rewrite zget_insert by lia. case_decide as Hlo.
    + rewrite decide_True; [done|]. change 1023 with (Z.ones 10) in Hlo.
      symmetry. by apply (id_split 10); try lia.
    + rewrite decide_False by (by intros ->). rewrite <-Hpg.
      destruct Hold as [->|[-> ->]]; [done|].
      unfold zero_page. by rewrite zget_replicate by lia.
  - rewrite decide_False by (by intros ->). done.
Qed.

Lemma dense_put_repr idx f k slot :
  repr idx f → is_u32 k →
  ∃ idx', put idx k slot = Some idx' ∧ repr idx' (λ k', if decide (k' = k) then slot else f k').
Proof.
  intros [Hw Hc Hp Hlen Hf] Hk. unfold put. cbv zeta.
  pose proof (shiftr_u32 k 10 ltac:(lia) Hk) as Hr. pose proof (low_range k) as Hlow.
  destruct (grown_spec (pages idx) (Z.shiftr k 10) Hw Hc Hp) as
    (ps & Hg & Hw1 & Hc1 & Hp1 & Hlt & n & Hs1); [lia|].
  cbv zeta in Hg. rewrite Hg. cbn [mbind option_bind]. rewrite vget_slice by done.
  destruct (zget_in (vslice ps) (Z.shiftr k 10)) as [p Hz].
  { rewrite length_vslice by done. lia. }
  rewrite Hz. cbn [mbind option_bind].
  assert (Hok : page_ok p).
  { rewrite Forall_lookup in Hp1. unfold zget in Hz. rewrite bool_decide_true in Hz by lia. eauto. }
  assert (∃ a, (match p with PZero => Some zero_page | _ => deref p end) = Some a ∧
    length a = 1024%nat ∧ (p = POwn a ∨ p = PZero ∧ a = zero_page)) as (a & -> & Ha & Hor).
  { destruct p as [| |a]; [done|exists zero_page|exists a];
      (split; [reflexivity|]); (split; [|by auto]); [apply length_replicate|exact Hok]. }
  cbn [mbind option_bind]. rewrite (zset_in a) by lia. cbn [mbind option_bind].
  destruct (vset_slice ps (Z.shiftr k 10) (POwn (<[Z.to_nat (Z.land k 1023):=slot]> a)) Hw1 Hc1)
    as (ps2 & -> & Hw2 & Hc2 & Hl2 & Hs2); [lia|].
  eexists. split; [done|]. split; simpl; [done..| |lia|].
  - rewrite Hs2. apply Forall_insert; [done|]. simpl. by rewrite length_insert.
  - intros k' Hk'. rewrite Hs2, page_at_insert; try done.
    + case_decide; [done|]. rewrite Hs1, page_at_app, Hf by (done || lia). done.
    + rewrite length_vslice by done. lia.
    + destruct Hor as [->|[-> ->]]; [by left|by right].
Qed.

(** ** The visits of [each] *)

Lemma visit_key i j : 0 <= i < 2 ^ 22 → 0 <= j < 1024 →
  Z.lor (u32 (Z.shiftl i 10)) j = 1024 * i + j.
Proof.
  intros Hi Hj. rewrite Z.shiftl_mul_pow2 by lia. change (2 ^ 10) with 1024.
  rewrite u32_id by lia.
  assert (Hdisj : Z.land (i * 1024) j = 0).
  { apply Z.bits_inj'. intros n Hn. rewrite Z.land_spec, Z.bits_0. change 1024 with (2 ^ 10).
    destruct (decide (n < 10)); [by rewrite Z.mul_pow2_bits_low|].
    by rewrite (testbit_high j 10), andb_false_r by lia. }
  rewrite <-Z.lxor_lor, <-Z.add_nocarry_lxor by done. lia.
Qed.

Lemma visit_page_elem i j a k s :
  0 <= i < 2 ^ 22 → 0 <= j → j + Z.of_nat (length a) <= 1024 →
  (k, s) ∈ visit_page i j a ↔ s ≠ 0 ∧ zget a (k - (1024 * i + j)) = Some s.
Proof.
  intros Hi. revert j. induction a as [|x a IH]; intros j Hj Hlen; simpl.
  { rewrite zget_nil. set_solver. }
  simpl in Hlen. rewrite elem_of_app, IH by lia. rewrite visit_key by lia.
  replace (k - (1024 * i + (j + 1))) with (k - (1024 * i + j) - 1) by lia.
  set (d := k - (1024 * i + j)). assert (Hd : k = 1024 * i + j + d) by lia.
  rewrite zget_cons. case_decide as E.
  - replace (1024 * i + j) with k in * by lia. rewrite E.
    assert (zget a (0 - 1) = None) as -> by (apply zget_None; lia).
    destruct (Z.eqb_spec x 0); rewrite ?elem_of_nil, ?list_elem_of_singleton; naive_solver.
  - assert ((k, s) ∉ (if x =? 0 then [] else [(1024 * i + j, x)])); [|naive_solver].
    destruct (Z.eqb_spec x 0); rewrite ?elem_of_nil, ?list_elem_of_singleton;
      [by intros []|]. intros [= ? ?]. lia.
Qed.

Lemma each_from_spec i ps :
  0 <= i → i + Z.of_nat (length ps) <= 2 ^ 22 → Forall page_ok ps →
  ∃ l, each_from i ps = Some l ∧
    ∀ k s, (k, s) ∈ l ↔ ∃ a, zget ps (Z.shiftr k 10 - i) = Some (POwn a) ∧
                             zget a (Z.land k 1023) = Some s ∧ s ≠ 0.
Proof.
  revert i. induction ps as [|p ps IH]; intros i Hi Hlen Hok; simpl.
  { exists []. split; [done|]. intros k s. rewrite zget_nil. set_solver. }
  apply Forall_cons in Hok as [Hp Hok]. simpl in Hlen.
  destruct (IH (i + 1)) as (ls & Hls & Hel); [lia|lia|done|].
  assert (∃ l, (match p with PZero => Some [] | PNil => None
      | POwn a => Some (visit_page i 0 a) end) = Some l ∧
    ∀ k s, (k, s) ∈ l ↔ Z.shiftr k 10 = i ∧ ∃ a, p = POwn a ∧
      zget a (Z.land k 1023) = Some s ∧ s ≠ 0) as (l & Hl & Hel').
  { destruct p as [| |a]; [done| |]; simpl in Hp.
    - exists []. split; [done|]. set_solver.
    - eexists. split; [done|]. intros k s. rewrite visit_page_elem by lia.
      change 1023 with (Z.ones 10). rewrite Z.land_ones, Z.shiftr_div_pow2 by lia.
      pose proof (Z.div_mod k (2 ^ 10)). pose proof (Z.mod_pos_bound k (2 ^ 10)).
      rewrite Z.add_0_r. split.
      + intros [? Hz]. pose proof (zget_Some_range _ _ _ Hz).
        assert (k / 2 ^ 10 = i) as Hq by (symmetry; apply (Z.div_unique _ _ _ (k - 1024 * i)); lia).
        split; [done|]. exists a. replace (k mod 2 ^ 10) with (k - 1024 * i) by lia. done.
      + intros (Hq & a' & [= <-] & Hz & ?). split; [done|].
        replace (k - 1024 * i) with (k mod 2 ^ 10) by lia. done. }
  rewrite Hl. cbn [mbind option_bind]. rewrite Hls. eexists. split; [done|].
  intros k s. rewrite elem_of_app, Hel, Hel', zget_cons.
  replace (Z.shiftr k 10 - (i + 1)) with (Z.shiftr k 10 - i - 1) by lia. split.
  - intros [(Hq & a & -> & ?)|(a & Hz & ?)].
    + exists a. by rewrite decide_True by lia.
    + exists a. rewrite decide_False; [done|]. apply zget_Some_range in Hz. lia.
  - case_decide as Hq; intros (a & Hz & ?); [left|right; by exists a].
    split; [lia|]. exists a. split; [congruence|done].
Qed.

Lemma each_spec idx f :
  repr idx f →
  ∃ l, each idx = Some l ∧ ∀ k s, is_u32 k → (k, s) ∈ l ↔ f k = s ∧ s ≠ 0.
Proof.
  intros [Hw Hc Hp Hlen Hf]. destruct (each_from_spec 0 (vslice (pages idx))) as (l & Hl & Hel);
    [lia|rewrite length_vslice by done; lia|done|].
  exists l. split; [done|]. intros k s Hk. rewrite Hel, Z.sub_0_r, Hf by done. unfold page_at.
  destruct (zget (vslice (pages idx)) (Z.shiftr k 10)) as [[| |a]|] eqn:E; [naive_solver lia..| |naive_solver lia].
  destruct (zget a (Z.land k 1023)) as [s'|] eqn:E'; naive_solver lia.
Qed.

#[export] Instance slot_index : SlotIndex DenseIndex := {
  index_get := get; index_put := put; index_repr := repr;
  index_get_ok := dense_get_repr;
  index_put_ok x f k s Hr Hk _ := dense_put_repr x f k s Hr Hk }.
End DenseIndex.

(** ** SparseIndex *)

Module SparseIndex.

Record SparseIndex := mk { m : IntMap.IntMap Z }.

Definition sparseKey (k : Z) : Z := Mix.mix64 (k + 1).

Definition get (idx : SparseIndex) (k : Z) : option Z :=
  p ← IntMap.get (m idx) (sparseKey k);
  match p with
  | Some slot => IntMap.load (m idx) slot
  | None => Some 0
  end.

Definition put (idx : SparseIndex) (k slot : Z) : option SparseIndex :=
  m' ← IntMap.put (m idx) (sparseKey k) slot;
  Some (mk m').

(** Mixed ids are never the empty marker and never collide. *)
Lemma sparseKey_nonzero k : is_u32 k → sparseKey k ≠ 0.
Proof.
  intros Hk H0. assert (k + 1 = 0); [|lia].
  apply Mix.mix64_inj; [lia|lia|]. fold (sparseKey k). rewrite H0. vm_compute. reflexivity.
Qed.

Lemma sparseKey_inj k k' : is_u32 k → is_u32 k' → sparseKey k = sparseKey k' → k = k'.
Proof. intros Hk Hk' He. apply Mix.mix64_inj in He; lia. Qed.

Definition repr (idx : SparseIndex) (f : Z → Z) : Prop :=
  ∃ M, IntMap.repr (m idx) M ∧ ∀ k, is_u32 k → f k = default 0 (M !! sparseKey k).

Lemma sparse_get_repr idx f k : repr idx f → is_u32 k → get idx k = Some (f k).
Proof.
  intros (M & HR & Hf) Hk. rewrite Hf by done.
  pose proof (IntMap.find_repr _ _ _ HR (sparseKey_nonzero k Hk)) as Hfind.
  unfold IntMap.find in Hfind. unfold get.
  destruct (IntMap.get _ _) as [[p|]|]; simplify_option_eq; by try rewrite <-Hfind.
Qed.

Lemma sparse_put_repr idx f k slot :
  repr idx f → is_u32 k → is_u32 slot →
  ∃ idx', put idx k slot = Some idx' ∧ repr idx' (λ k', if decide (k' = k) then slot else f k').
Proof.
  intros (M & HR & Hf) Hk _. unfold put.
  destruct (IntMap.intmap_put_repr _ _ _ slot HR (sparseKey_nonzero k Hk)) as (m' & -> & HR').
  eexists. split; [done|]. eexists. split; [done|]. intros k' Hk'. case_decide as Hd.
  - subst. by rewrite lookup_insert_eq.
  - rewrite lookup_insert_ne by (intros He; apply sparseKey_inj in He; congruence). by apply Hf.
Qed.

#[export] Instance slot_index : SlotIndex SparseIndex := {
  index_get := get; index_put := put; index_repr := repr;
  index_get_ok := sparse_get_repr; index_put_ok := sparse_put_repr }.
End SparseIndex.

(** ** DenseMap and SparseMap *)

(** The struct both maps have: an index and the vector of values. *)
Record IdMap (X V : Type) := mkIdMap { idx : X; vals : vec V }.
Arguments mkIdMap {X V}. Arguments idx {X V}. Arguments vals {X V}.

Section idmap.
Context {X : Type} `{SlotIndex X} {V : Type} `{GoZero V}.
Implicit Types (x : IdMap X V) (L : list (Z * V)).

Definition idmap_get x (k : Z) : option (V * bool) :=
  slot ← index_get (idx x) k;
  if slot =? 0 then Some (go_zero, false)
  else v ← unsafeAt (vals x) slot; Some (v, true).

Definition idmap_put x (k : Z) (v : V) : option (IdMap X V) :=
  slot ← index_get (idx x) k;
  if slot =? 0 then
    let vs := if bool_decide (vlen (vals x) = 0%nat) then pushBack (vals x) go_zero else vals x in
    let vs := pushBack vs v in
    i ← index_put (idx x) k (u32 (Z.of_nat (vlen vs) - 1));
    Some (mkIdMap i vs)
  else vs ← unsafeSet (vals x) slot v; Some (mkIdMap (idx x) vs).

Definition idmap_values x : list V :=
  if bool_decide (vlen (vals x) = 0%nat) then [] else drop 1 (vslice (vals x)).

(** ** The association list a map stands for, in order of first insertion *)

Definition aput L (k : Z) (v : V) : list (Z * V) :=
  if decide (k ∈ L.*1) then (λ p, if decide (p.1 = k) then (k, v) else p) <$> L
  else L ++ [(k, v)].

Record idmap_repr x L : Prop := {
  im_vec : vwf (vals x);
  im_clean : vclean (vals x);
  im_keys : NoDup L.*1;
  im_range : Forall (λ k, is_u32 k) L.*1;
  im_vals : vslice (vals x) = match L with [] => [] | _ => go_zero :: L.*2 end;
  im_index : ∃ f, index_repr (idx x) f ∧
    ∀ k, is_u32 k → (f k = 0 ∧ k ∉ L.*1) ∨
      ∃ (i : nat) v, L !! i = Some (k, v) ∧ f k = Z.of_nat i + 1;
}.

Lemma vals_slot x L i k v :
  idmap_repr x L → L !! i = Some (k, v) →
  (i + 1 < vlen (vals x))%nat ∧ vslice (vals x) !! (i + 1)%nat = Some v.
Proof.
  intros Hx Hi. pose proof (length_vslice _ (im_vec _ _ Hx)) as Hl.
  pose proof (im_vals _ _ Hx) as Hv. pose proof (lookup_lt_Some _ _ _ Hi).
  destruct L as [|p L]; [done|]. rewrite Hv in *. simpl length in Hl. rewrite length_fmap in Hl.
  simpl length in *. split; [lia|]. rewrite Nat.add_1_r.
  change ((p :: L).*2 !! i = Some v). by rewrite list_lookup_fmap, Hi.
Qed.

Lemma idmap_get_repr x L k :
  idmap_repr x L → is_u32 k →
  idmap_get x k = Some (match list_to_map (M:=gmap Z V) L !! k with
                        | Some v => (v, true)
                        | None => (go_zero, false)
                        end).
Proof.
  intros Hx Hk. destruct (im_index _ _ Hx) as (f & Hf & Hslots). unfold idmap_get.
  rewrite (index_get_ok _ _ _ Hf Hk). simpl.
  destruct (Hslots k Hk) as [[-> Hno]|(i & v & Hi & ->)].
  - by rewrite (not_elem_of_list_to_map_1 L k Hno).
  - zcases; [lia|]. destruct (vals_slot _ _ _ _ _ Hx Hi) as [Hlt Hv].
    rewrite <-zget_vslice by (apply (im_vec _ _ Hx) || lia).
    replace (Z.of_nat i + 1) with (Z.of_nat (i + 1)) by lia. rewrite zget_nat, Hv. simpl.
    erewrite elem_of_list_to_map_1; [done|apply (im_keys _ _ Hx)|].
    by eapply list_elem_of_lookup_2.
Qed.

Lemma aput_update L i k v w :
  NoDup L.*1 → L !! i = Some (k, w) → aput L k v = <[i := (k, v)]> L.
Proof.
  intros Hnd Hi. unfold aput. rewrite decide_True.
  2:{ apply (list_elem_of_fmap_2' fst L (k, w) k); [by eapply list_elem_of_lookup_2|done]. }
  apply list_eq. intros j. rewrite list_lookup_fmap.
  destruct (decide (i = j)) as [<-|Hne].
  - rewrite Hi, list_lookup_insert_eq by (by eapply lookup_lt_Some). simpl.
    by rewrite decide_True.
  - rewrite list_lookup_insert_ne by done. destruct (L !! j) as [[k' v']|] eqn:Hj; [|done].
    simpl. rewrite decide_False; [done|]. intros ->. apply Hne.
    eapply (NoDup_lookup L.*1 i j k); [done|by rewrite list_lookup_fmap, Hi|
      by rewrite list_lookup_fmap, Hj].
Qed.

Lemma aput_keys L k v : (aput L k v).*1 = if decide (k ∈ L.*1) then L.*1 else L.*1 ++ [k].
Proof.
  unfold aput. case_decide; [|by rewrite fmap_app].
  rewrite <-list_fmap_compose. apply list_fmap_ext. intros i p _. simpl. by case_decide.
Qed.

Lemma idmap_put_update x L i k v w :
  idmap_repr x L → L !! i = Some (k, w) →
  ∃ vs, unsafeSet (vals x) (Z.of_nat i + 1) v = Some vs ∧
    idmap_repr (mkIdMap (idx x) vs) (<[i := (k, v)]> L).
Proof.
  intros Hx Hi. destruct (vals_slot _ _ _ _ _ Hx Hi) as [Hlt _].
  destruct (unsafeSet_spec (vals x) (Z.of_nat i + 1) v (im_vec _ _ Hx) (im_clean _ _ Hx))
    as (vs & -> & Hw & Hc & Hl & Hs); [lia|].
  exists vs. split; [done|].
  assert (Hk1 : (<[i:=(k, v)]> L).*1 = L.*1).
  { rewrite <-(aput_update L i k v w), aput_keys by (done || apply (im_keys _ _ Hx)).
    rewrite decide_True; [done|].
    apply (list_elem_of_fmap_2' fst L (k, w) k); [by eapply list_elem_of_lookup_2|done]. }
  destruct Hx as [_ _ Hnd Hr Hv (f & Hf & Hslots)]. split; simpl; rewrite ?Hk1; try done.
  - rewrite Hs, Hv. replace (Z.to_nat (Z.of_nat i + 1)) with (S i) by lia.
    destruct L as [|p L]; [done|]. simpl (<[S i:=v]> _). rewrite (list_fmap_insert snd).
    destruct i; done.
  - exists f. split; [done|]. intros k' Hk'.
    destruct (Hslots k' Hk') as [?|(j & v' & Hj & ?)]; [by left|right].
    exists j. destruct (decide (i = j)) as [<-|Hne].
    + exists v. rewrite list_lookup_insert_eq by (by eapply lookup_lt_Some). naive_solver.
    + exists v'. by rewrite list_lookup_insert_ne.
Qed.

Lemma idmap_put_new x L k v :
  idmap_repr x L → is_u32 k → k ∉ L.*1 → Z.of_nat (length L) + 1 < 2 ^ 32 →
  ∃ i', index_put (idx x) k (Z.of_nat (length L) + 1) = Some i' ∧
    let vs := if bool_decide (vlen (vals x) = 0%nat) then pushBack (vals x) go_zero else vals x in
    vlen (pushBack vs v) = (length L + 2)%nat ∧
    idmap_repr (mkIdMap i' (pushBack vs v)) (L ++ [(k, v)]).
Proof.
  intros [Hw Hc Hnd Hr Hv (f & Hf & Hslots)] Hk Hno Hlen.
  destruct (index_put_ok _ f k (Z.of_nat (length L) + 1) Hf Hk) as (i' & Hi' & Hf'); [lia|].
  exists i'. split; [done|]. cbv zeta.
  set (vs := if bool_decide _ then _ else _).
  assert (vwf vs ∧ vclean vs ∧ vslice vs = go_zero :: L.*2) as (Hw1 & Hc1 & Hs1).
  { pose proof (length_vslice _ Hw) as Hl. rewrite Hv in Hl. unfold vs. destruct L as [|p L].
    - rewrite bool_decide_true by done. destruct (pushBack_spec (vals x) go_zero Hw Hc) as (?&?&->).
      by rewrite Hv.
    - rewrite bool_decide_false by (simpl in Hl; lia). done. }
  destruct (pushBack_spec vs v Hw1 Hc1) as (Hw2 & Hc2 & Hs2). rewrite Hs1 in Hs2.
  split.
  { rewrite <-length_vslice, Hs2 by done. simpl. rewrite length_app, length_fmap. simpl. lia. }
  split; simpl; [done..| | | |].
  - rewrite fmap_app. apply NoDup_app. split_and!; [done| |apply NoDup_singleton].
    intros k' Hk' ->%list_elem_of_singleton. done.
  - rewrite fmap_app. apply Forall_app. split; [done|]. by constructor.
  - rewrite Hs2, fmap_app. by destruct L.
  - eexists. split; [done|]. intros k' Hk'. simpl. case_decide as Hd.
    + subst. right. exists (length L), v. by rewrite list_lookup_middle.
    + destruct (Hslots k' Hk') as [[? Hn]|(j & v' & Hj & ?)].
      * left. rewrite fmap_app. simpl. rewrite elem_of_app, list_elem_of_singleton. naive_solver.
      * right. exists j, v'. by rewrite lookup_app_l by (by eapply lookup_lt_Some).
Qed.

Lemma idmap_put_repr x L k v :
  idmap_repr x L → is_u32 k → Z.of_nat (length L) + 1 < 2 ^ 32 →
  ∃ x', idmap_put x k v = Some x' ∧ idmap_repr x' (aput L k v).
Proof.
  intros Hx Hk Hlen. pose proof (im_index _ _ Hx) as (f & Hf & Hslots). unfold idmap_put.
  rewrite (index_get_ok _ _ _ Hf Hk). cbn [mbind option_bind].
  destruct (Hslots k Hk) as [[-> Hno]|(i & w & Hi & ->)].
  - destruct (idmap_put_new x L k v Hx Hk Hno Hlen) as (i' & Hi' & Hvl & Hx').
    simpl (0 =? 0). cbv iota. cbv zeta in *. rewrite Hvl.
    rewrite u32_id by lia. replace (Z.of_nat (length L + 2) - 1) with (Z.of_nat (length L) + 1) by lia.
    rewrite Hi'. eexists. split; [done|]. unfold aput. by rewrite decide_False.
  - destruct (Z.eqb_spec (Z.of_nat i + 1) 0) as [?|_]; [lia|].
    destruct (idmap_put_update x L i k v w Hx Hi) as (vs & -> & Hx').
    eexists. split; [done|]. by rewrite (aput_update L i k v w (im_keys _ _ Hx) Hi).
Qed.

Lemma idmap_values_repr x L : idmap_repr x L → idmap_values x = L.*2.
Proof.
  intros Hx. unfold idmap_values. rewrite (im_vals _ _ Hx).
  pose proof (length_vslice _ (im_vec _ _ Hx)) as Hl. rewrite (im_vals _ _ Hx) in Hl.
  destruct L; simpl in Hl; [by rewrite bool_decide_true|].
  by rewrite bool_decide_false by lia.
Qed.

(** ** Sequences of insertions *)

Fixpoint idmap_puts x (kvs : list (Z * V)) : option (IdMap X V) :=
  match kvs with
  | [] => Some x
  | (k, v) :: kvs => x' ← idmap_put x k v; idmap_puts x' kvs
  end.

Lemma length_aput L k v : (length (aput L k v) <= S (length L))%nat.
Proof. unfold aput. case_decide; [rewrite length_fmap; lia|]. rewrite length_app. simpl. lia. Qed.

Lemma idmap_puts_repr x L kvs :
  idmap_repr x L → Forall (λ p, is_u32 p.1) kvs →
  Z.of_nat (length L + length kvs) < 2 ^ 32 →
  ∃ x', idmap_puts x kvs = Some x' ∧
    idmap_repr x' (foldl (λ L p, aput L p.1 p.2) L kvs).
Proof.
  revert x L. induction kvs as [|[k v] kvs IH]; intros x L Hx Hks Hlen; [by exists x|].
  apply Forall_cons in Hks as [Hk Hks]. simpl in *.
  destruct (idmap_put_repr x L k v Hx Hk) as (x1 & -> & Hx1); [lia|].
  apply IH; [done..|]. pose proof (length_aput L k v). lia.
Qed.

(** The association list after a sequence of insertions: the distinct keys in
    order of first insertion, each with its last value. *)
Lemma aput_map L k v :
  NoDup L.*1 → list_to_map (M:=gmap Z V) (aput L k v) = <[k := v]> (list_to_map L).
Proof.
  intros Hnd. apply map_eq. intros k'. destruct (decide (k ∈ L.*1)) as [Hin|Hno].
  - apply list_elem_of_fmap in Hin as ([k0 w] & ? & [i Hi]%list_elem_of_lookup). simpl in *; subst k0.
    pose proof (aput_keys L k v) as Hk1. rewrite decide_True in Hk1
      by (apply list_elem_of_fmap; exists (k, w); split; [done|by eapply list_elem_of_lookup_2]).
    rewrite (aput_update L i k v w) in * by done.
    apply option_eq. intros u. rewrite lookup_insert_Some, <-!elem_of_list_to_map by (by rewrite ?Hk1).
    rewrite !list_elem_of_lookup. setoid_rewrite list_lookup_insert_Some.
    pose proof (lookup_lt_Some _ _ _ Hi) as Hlt. split.
    + intros (j & [(-> & [= <- <-] & _)|[Hne Hj]]); [by left|].
      right. split; [|by exists j]. intros <-. apply Hne.
      eapply (NoDup_lookup L.*1); [done|by rewrite list_lookup_fmap, Hi|by rewrite list_lookup_fmap, Hj].
    + intros [[<- <-]|[Hne [j Hj]]]; [exists i; left; auto|].
      exists j. right. split; [|done]. intros ->. rewrite Hi in Hj. congruence.
  - unfold aput. rewrite decide_False by done. rewrite list_to_map_app. simpl.
    rewrite insert_empty. destruct (decide (k' = k)) as [->|Hne].
    + rewrite lookup_insert_eq. rewrite lookup_union_r; [apply lookup_singleton_eq|].
      by apply not_elem_of_list_to_map_1.
    + rewrite lookup_insert_ne by done. apply option_eq. intros u.
      rewrite lookup_union_Some_raw, lookup_singleton_ne by done. naive_solver.
Qed.
End idmap.

(** The finite map after a sequence of insertions. *)
Definition final_map {V} (kvs : list (Z * V)) : gmap Z V :=
  foldl (λ M p, <[p.1 := p.2]> M) ∅ kvs.

Lemma aputs_keys {V} (L kvs : list (Z * V)) :
  (foldl (λ L p, aput L p.1 p.2) L kvs).*1 =
    L.*1 ++ keep_first (λ k, bool_decide (k ∈ L.*1)) kvs.*1.
Proof.
  revert L. induction kvs as [|[k v] kvs IH]; intros L; simpl; [by rewrite app_nil_r|].
  rewrite IH, aput_keys. case_decide as Hk.
  - by rewrite bool_decide_true.
  - rewrite bool_decide_false, <-app_assoc by done. simpl. do 2 f_equal.
    apply keep_first_ext. intros x. destruct (bool_decide (k = x)) eqn:E; simpl.
    + apply bool_decide_eq_true in E. subst. apply bool_decide_true. set_solver.
    + apply bool_decide_eq_false in E. apply bool_decide_ext. set_solver.
Qed.

Lemma aputs_map {V} (L kvs : list (Z * V)) :
  NoDup L.*1 →
  NoDup (foldl (λ L p, aput L p.1 p.2) L kvs).*1 ∧
  list_to_map (M:=gmap Z V) (foldl (λ L p, aput L p.1 p.2) L kvs) =
    foldl (λ M p, <[p.1 := p.2]> M) (list_to_map L) kvs.
Proof.
  revert L. induction kvs as [|[k v] kvs IH]; intros L Hnd; [done|]. simpl.
  rewrite <-aput_map by done. apply IH. rewrite aput_keys. case_decide as Hk; [done|].
  apply NoDup_app. split_and!; [done| |apply NoDup_singleton].
  intros x Hx ->%list_elem_of_singleton. done.
Qed.

Lemma values_by_key {V} (L : list (Z * V)) :
  NoDup L.*1 → L.*2 = omap (λ k, list_to_map (M:=gmap Z V) L !! k) L.*1.
Proof.
  induction L as [|[k v] L IH]; intros Hnd; [done|]. simpl in *.
  apply NoDup_cons in Hnd as [Hno Hnd]. rewrite lookup_insert_eq. f_equal.
  rewrite IH at 1 by done. apply list_omap_ext, Forall_Forall2_diag, Forall_forall.
  intros x Hx. rewrite lookup_insert_ne by (intros ->; done). done.
Qed.

Section idmap_spec.
Context {X : Type} `{SlotIndex X} {V : Type} `{GoZero V}.

(** What both maps promise, from an empty index on. *)
Lemma idmap_correct (x0 : X) (kvs : list (Z * V)) :
  index_repr x0 (λ _, 0) → Forall (λ p, is_u32 p.1) kvs →
  Z.of_nat (length kvs) < 2 ^ 32 →
  ∃ x, idmap_puts (mkIdMap x0 go_zero) kvs = Some x ∧
    (∀ k, is_u32 k → idmap_get x k =
      Some (match final_map kvs !! k with Some v => (v, true) | None => (go_zero, false) end)) ∧
    idmap_values x = omap (λ k, final_map kvs !! k) (keep_first (λ _, false) kvs.*1).
Proof.
  intros Hx0 Hks Hlen.
  destruct (idmap_puts_repr (mkIdMap x0 go_zero) [] kvs) as (x & Hx & Hr); [|done|done|].
  { split; simpl; [apply vwf_zero|apply vclean_zero|constructor..|done|].
    exists (λ _, 0). split; [done|]. intros k _. left. split; [done|]. by intros ?%elem_of_nil. }
  destruct (aputs_map [] kvs) as [Hnd HM]; [constructor|]. simpl list_to_map in HM.
  exists x. split; [done|]. unfold final_map. rewrite <-HM. split.
  - intros k Hk. by apply idmap_get_repr.
  - rewrite (idmap_values_repr _ _ Hr), (values_by_key _ Hnd), aputs_keys. done.
Qed.

Lemma puts_foldl (x : IdMap X V) (kvs : list (Z * V)) :
  foldl (λ om p, m ← om; idmap_put m p.1 p.2) (Some x) kvs = idmap_puts x kvs.
Proof.
  revert x. induction kvs as [|[k v] kvs IH]; intros x; [done|]. simpl.
  destruct (idmap_put x k v) as [x'|]; [apply IH|]. clear. by induction kvs.
Qed.
End idmap_spec.

Module DenseMap.
Import DenseIndex.
Definition DenseMap (V : Type) : Type := IdMap DenseIndex V.
Definition empty {V} : DenseMap V := mkIdMap go_zero go_zero.
Definition get `{GoZero V} (m : DenseMap V) (k : Z) : option (V * bool) := idmap_get m k.
Definition put `{GoZero V} (m : DenseMap V) (k : Z) (v : V) : option (DenseMap V) := idmap_put m k v.
Definition values {V} (m : DenseMap V) : list V := idmap_values m.
Definition puts `{GoZero V} (m : DenseMap V) (kvs : list (Z * V)) : option (DenseMap V) :=
  foldl (λ om p, m ← om; put m p.1 p.2) (Some m) kvs.

(** The zero [DenseMap] after any sequence of [put]s (fewer than [2^32]):
    [get] answers as the finite map built by the same insertions, and
    [values] lists, for each distinct key in order of its first insertion, its
    last value. *)
Theorem densemap_refines_map `{GoZero V} (kvs : list (Z * V)) :
  Forall (λ p, is_u32 p.1) kvs → Z.of_nat (length kvs) < 2 ^ 32 →
  ∃ m, puts empty kvs = Some m ∧
    (∀ k, is_u32 k → get m k =
      Some (match final_map kvs !! k with Some v => (v, true) | None => (go_zero, false) end)) ∧
    values m = omap (λ k, final_map kvs !! k) (keep_first (λ _, false) kvs.*1).
Proof.
  intros Hks Hlen.
  destruct (idmap_correct (X:=DenseIndex) go_zero kvs) as (m & Hm & Hspec); [apply repr_zero|done|done|]. exists m. split; [|done]. etrans; [apply puts_foldl|exact Hm].
Qed.

Lemma densemap_refines_map_witness :
  (m ← puts empty [(5, 10); (70000, 20); (5, 30); (0, 40)];
   r ← get m 70000; Some (values m, r)) = Some ([30; 20; 40], (20, true)).
Proof.
  destruct (densemap_refines_map [(5, 10); (70000, 20); (5, 30); (0, 40)]) as (m & -> & Hg & Hv);
    [forall_lia|simpl; lia|]. cbn [mbind option_bind]. rewrite Hg, Hv by lia.
  vm_compute. reflexivity.
Defined.

(** [each] on the index calls [visit] with exactly the ids that have a
    slot, each with its slot, whatever was put before. *)
Theorem each_visits_all (kss : list (Z * Z)) :
  Forall (λ p, is_u32 p.1) kss →
  ∃ idx l, foldl (λ oi p, i ← oi; DenseIndex.put i p.1 p.2) (Some go_zero) kss = Some idx ∧
    each idx = Some l ∧
    ∀ k s, is_u32 k → (k, s) ∈ l ↔ default 0 (final_map kss !! k) = s ∧ s ≠ 0.
Proof.
  intros Hks. assert (∃ idx, foldl (λ oi p, i ← oi; DenseIndex.put i p.1 p.2) (Some go_zero) kss
    = Some idx ∧ repr idx (λ k, default 0 (final_map kss !! k))) as (idx & Hidx & Hr).
  { induction kss as [|[k s] kss IH] using rev_ind.
    { exists go_zero. split; [done|]. apply repr_zero. }
    apply Forall_app in Hks as [Hks [Hk _]%Forall_cons]. destruct (IH Hks) as (idx & Hidx & Hr).
    destruct (dense_put_repr idx _ k s Hr Hk) as (idx' & Hp & [Hw Hc Hpg Hl Hf]).
    exists idx'. rewrite foldl_app, Hidx. split; [done|]. split; [done..|].
    intros k' Hk'. rewrite <-Hf by done. unfold final_map. rewrite foldl_app. simpl.
    case_decide as Hd; [subst; by rewrite lookup_insert_eq|by rewrite lookup_insert_ne]. }
  destruct (each_spec _ _ Hr) as (l & Hl & Hel). by exists idx, l.
Qed.

Lemma each_visits_all_witness :
  ∃ idx, foldl (λ oi p, i ← oi; DenseIndex.put i p.1 p.2) (Some go_zero) [(3, 1); (70000, 2)]
    = Some idx ∧ ∃ l, each idx = Some l ∧ (70000, 2) ∈ l.
Proof.
  destruct (each_visits_all [(3, 1); (70000, 2)]) as (idx & l & Hi & Hl & Hel); [forall_lia|].
  exists idx. split; [exact Hi|]. exists l. split; [exact Hl|].
  apply Hel; [lia|]. split; [vm_compute; reflexivity|lia].
Defined.
End DenseMap.

Module SparseMap.
Import SparseIndex.
Definition SparseMap (V : Type) : Type := IdMap SparseIndex V.
Definition newSparseMap {V} (hint : Z) : option (SparseMap V) :=
  i ← IntMap.newIntMap hint; Some (mkIdMap (SparseIndex.mk i) go_zero).
Definition get `{GoZero V} (m : SparseMap V) (k : Z) : option (V * bool) := idmap_get m k.
Definition put `{GoZero V} (m : SparseMap V) (k : Z) (v : V) : option (SparseMap V) := idmap_put m k v.
Definition values {V} (m : SparseMap V) : list V := idmap_values m.
Definition puts `{GoZero V} (m : SparseMap V) (kvs : list (Z * V)) : option (SparseMap V) :=
  foldl (λ om p, m ← om; put m p.1 p.2) (Some m) kvs.

(** A new [SparseMap] after any sequence of [put]s (fewer than [2^32])
    answers [get] as the finite map and lists [values] in order of first
    insertion: mixed ids neither collide nor hit the hash table's empty
    marker. *)
Theorem sparsemap_refines_map `{GoZero V} (hint : Z) (kvs : list (Z * V)) :
  Forall (λ p, is_u32 p.1) kvs → Z.of_nat (length kvs) < 2 ^ 32 →
  ∃ m, (m0 ← newSparseMap hint; puts m0 kvs) = Some m ∧
    (∀ k, is_u32 k → get m k =
      Some (match final_map kvs !! k with Some v => (v, true) | None => (go_zero, false) end)) ∧
    values m = omap (λ k, final_map kvs !! k) (keep_first (λ _, false) kvs.*1).
Proof.
  intros Hks Hlen. destruct (IntMap.newIntMap_repr (V:=Z) hint) as (i & Hi & HR).
  destruct (idmap_correct (X:=SparseIndex) (SparseIndex.mk i) kvs) as (m & Hm & Hspec);
    [|done|done|].
  { exists ∅. split; [done|]. intros k _. by rewrite lookup_empty. }
  exists m. split; [|done]. unfold newSparseMap. rewrite Hi. simpl.
  etrans; [apply puts_foldl|exact Hm].
Qed.

Lemma sparsemap_refines_map_witness :
  (m0 ← newSparseMap 4; m ← puts m0 [(5, 10); (70000, 20); (5, 30); (0, 40)];
   r ← get m 7; Some (values m, r)) = Some ([30; 20; 40], (0, false)).
Proof.
  destruct (sparsemap_refines_map 4 [(5, 10); (70000, 20); (5, 30); (0, 40)]) as (m & Hm & Hg & Hv);
    [forall_lia|simpl; lia|].
  destruct (newSparseMap 4) as [m0|]; [|discriminate Hm]. cbn [mbind option_bind] in Hm |- *.
  rewrite Hm. cbn [mbind option_bind]. rewrite Hg, Hv by lia. vm_compute. reflexivity.
Defined.
End SparseMap.
