(* ===== verification/Paths.v ===== *)
(** * Relative paths (fs_utils.go)

    Paths are byte strings split at '/'.  The byte-level scans and the buffered
    normaliser of fs_utils.go are shown to compute what their segment-level
    definitions say; [path.Clean] of the Go library, which the slow branches
    call, is given by its documented rules. *)

From S2P Require Import Prelude.
Local Open Scope Z_scope.

Abbreviation path := (list Z) (only parsing).

Definition c_slash : Z := 47.
Definition c_dot : Z := 46.

Definition dot : path := [46].
Definition dotdot : path := [46; 46].

(** ** The Go library *)

(** [strings.Split(p, "/")] *)
Fixpoint split (p : path) : list path :=
  match p with
  | [] => [[]]
  | c :: p =>
      if c =? c_slash then [] :: split p
      else match split p with
           | s :: ss => (c :: s) :: ss
           | [] => [[c]]
           end
  end.

(** [strings.Join(segs, "/")] *)
Fixpoint join (segs : list path) : path :=
  match segs with
  | [] => []
  | [s] => s
  | s :: ss => s ++ c_slash :: join ss
  end.

(** [path.Clean]: drop empty and "." elements, let ".." remove the element
    before it, drop a ".." at the root, "." for the empty result. *)
Definition clean_step (rooted : bool) (acc : list path) (s : path) : list path :=
  if decide (s = [] ∨ s = dot) then acc
  else if decide (s = dotdot) then
    match last acc with
    | Some l => if decide (l = dotdot) then acc ++ [dotdot] else removelast acc
    | None => if rooted then [] else [dotdot]
    end
  else acc ++ [s].

Definition rooted (p : path) : bool :=
  match p with c :: _ => c =? c_slash | [] => false end.

Definition Clean (p : path) : path :=
  let segs := foldl (clean_step (rooted p)) [] (split p) in
  if rooted p then c_slash :: join segs
  else if decide (segs = []) then dot else join segs.

Definition TrimPrefixSlash (p : path) : path :=
  match p with c :: r => if c =? c_slash then r else p | [] => [] end.

Definition TrimSuffixSlash (p : path) : path :=
  if decide (last p = Some c_slash) then removelast p else p.

(** [strings.LastIndexByte(p, '/')]: the text before and after the last slash. *)
Fixpoint cut_last (p : path) : option (path * path) :=
  match p with
  | [] => None
  | c :: p =>
      match cut_last p with
      | Some (a, b) => Some (c :: a, b)
      | None => if c =? c_slash then Some ([], p) else None
      end
  end.

(** [strings.Contains] *)
Fixpoint contains (p pat : path) : bool :=
  bool_decide (pat `prefix_of` p) ||
  match p with [] => false | _ :: p => contains p pat end.

(** ** fs_utils.go *)

(** The loop of [pathIsClean]; [None]: an index out of range. *)
Fixpoint clean_loop (fuel : nat) (p : path) (i : Z) : option bool :=
  match fuel with
  | O => Some true
  | S fuel =>
      c ← zget p i;
      if negb (c =? c_slash) then clean_loop fuel p (i + 1)
      else
        let n := Z.of_nat (length p) in
        c1 ← zget p (i + 1);
        if c1 =? c_slash then Some false
        else if c1 =? c_dot then
          b1 ← (if i + 2 =? n then Some true else c2 ← zget p (i + 2); Some (c2 =? c_slash));
          if (b1 : bool) then Some false
          else
            c2 ← zget p (i + 2);
            b2 ← (if negb (c2 =? c_dot) then Some false
                  else if i + 3 =? n then Some true
                  else c3 ← zget p (i + 3); Some (c3 =? c_slash));
            if (b2 : bool) then Some false else clean_loop fuel p (i + 1)
        else clean_loop fuel p (i + 1)
  end.

Definition pathIsClean (p : path) : option bool :=
  let n := Z.of_nat (length p) in
  c0 ← zget p 0;
  cl ← zget p (n - 1);
  if (c0 =? c_slash) || (cl =? c_slash) then Some false
  else
    b ← (if negb (c0 =? c_dot) then Some false
         else if n =? 1 then Some true
         else
           c1 ← zget p 1;
           if c1 =? c_slash then Some true
           else if negb (c1 =? c_dot) then Some false
           else if n =? 2 then Some true
           else c2 ← zget p 2; Some (c2 =? c_slash));
    if (b : bool) then Some false else clean_loop (length p) p 0.

Definition cleanRel (rel : path) : option path :=
  if decide (rel = [] ∨ rel = dot) then Some []
  else
    b ← pathIsClean rel;
    if (b : bool) then Some rel
    else
      let rel := Clean rel in
      if decide (rel = dot ∨ rel = [c_slash]) then Some []
      else Some (TrimSuffixSlash (TrimPrefixSlash rel)).

Definition splitDirName (rel : path) : path * path :=
  match cut_last rel with
  | Some (d, n) => (d, n)
  | None => ([], rel)
  end.

Definition firstComponent (p : path) : path * bool :=
  match split p with
  | s :: _ :: _ => (s, true)
  | _ => (p, false)
  end.

Definition baseName (s : path) : path :=
  match cut_last s with Some (_, n) => n | None => s end.

Definition pathDir (p : path) : path :=
  match cut_last p with Some (d, _) => d | None => [] end.

Definition joinRel (prefix suffix : path) : path :=
  if decide (prefix = []) then suffix
  else if decide (suffix = []) then prefix
  else prefix ++ c_slash :: suffix.

(** [internJoined], of texts (str_intern.go) *)
Definition joined (dir rel : path) : path := if bool_decide (dir = []) then rel else dir ++ c_slash :: rel.

Definition joinRelInto (dst a b : path) : path :=
  let dst := if decide (a ≠ []) then dst ++ a else dst in
  let dst := if decide (a ≠ [] ∧ b ≠ []) then dst ++ [c_slash] else dst in
  if decide (b ≠ []) then dst ++ b else dst.

(** A [VFS] is an interned path below one of the two roots. *)
Inductive vfs := InSource (p : path) | InBuild (p : path).

(** [dir != "" && rel != "" && pathIsClean(dir) && pathIsClean(rel)] *)
Definition both_clean (dir rel : path) : option bool :=
  if decide (dir ≠ [] ∧ rel ≠ []) then
    a ← pathIsClean dir;
    if (a : bool) then pathIsClean rel else Some false
  else Some false.

(** [rel != "" && pathIsClean(rel)] *)
Definition one_clean (rel : path) : option bool :=
  if decide (rel ≠ []) then pathIsClean rel else Some false.

Definition buildJoinClean (dir rel : path) : option vfs :=
  fast ← both_clean dir rel;
  Some (InBuild (if (fast : bool) then dir ++ c_slash :: rel else Clean (dir ++ c_slash :: rel))).

Definition sourceJoinClean (dir rel : path) : option vfs :=
  fast ← both_clean dir rel;
  Some (InSource (if (fast : bool) then dir ++ c_slash :: rel else Clean (dir ++ c_slash :: rel))).

Definition sourceClean (rel : path) : option vfs :=
  fast ← one_clean rel;
  Some (InSource (if (fast : bool) then rel else Clean rel)).

Definition buildClean (rel : path) : option vfs :=
  fast ← one_clean rel;
  Some (InBuild (if (fast : bool) then rel else Clean rel)).

(** [for j < len(p) && p[j] != '/' { j++ }]: the segment at the cursor and the
    rest after its slash, [None] when the string is used up. *)
Fixpoint segment (p : path) : path * option path :=
  match p with
  | [] => ([], None)
  | c :: p =>
      if c =? c_slash then ([], Some p)
      else let '(s, r) := segment p in (c :: s, r)
  end.

(** The segment loop of [pathEscapesRoot]; the cursor is the rest of the string. *)
Fixpoint escapes_loop (fuel : nat) (p : path) (depth : nat) : option bool :=
  match fuel with
  | O => None
  | S fuel =>
      let '(seg, rest) := segment p in
      let next depth :=
        match rest with None => Some false | Some r => escapes_loop fuel r depth end in
      if decide (seg = [] ∨ seg = dot) then next depth
      else if decide (seg = dotdot) then
        match depth with O => Some true | S depth => next depth end
      else next (S depth)
  end.

Definition pathEscapesRoot (p : path) : option bool := escapes_loop (S (length p)) p 0.

(** [normaliseAppend]: [out] is the buffer's content, of which the first [base]
    bytes are the caller's, [room] what is left of its capacity; [starts] is the
    array of 64 offsets.  The second component of the result is [ok]. *)
Fixpoint normalise_loop (fuel : nat) (base room : nat) (out : path) (starts : list nat)
    (depth : nat) (p : path) : option (path * bool) :=
  match fuel with
  | O => None
  | S fuel =>
      let '(seg, rest) := segment p in
      let next out starts depth :=
        match rest with
        | None => Some (out, true)
        | Some r => normalise_loop fuel base room out starts depth r
        end in
      if decide (seg = [] ∨ seg = dot) then next out starts depth
      else if decide (seg = dotdot) then
        match depth with
        | O => next out starts depth
        | S d => at0 ← starts !! d; next (take at0 out) starts d
        end
      else if Z.of_nat room - (Z.of_nat (length out) - Z.of_nat base) - 1 <? Z.of_nat (length seg)
      then Some (take base out, false)
      else if decide (depth = length starts) then Some (take base out, false)
      else
        let starts := <[depth := length out]> starts in
        let out := if decide (base < length out)%nat then out ++ [c_slash] else out in
        next (out ++ seg) starts (S depth)
  end.

Definition normaliseAppend (out : path) (room : nat) (p : path) : option (path * bool) :=
  normalise_loop (S (length p)) (length out) room out (replicate 64 0%nat) 0 p.

Definition slow_step (out : list path) (seg : path) : list path :=
  if decide (seg = [] ∨ seg = dot) then out
  else if decide (seg = dotdot) then removelast out
  else out ++ [seg].

Definition normalisePathSlow (p : path) : path := join (foldl slow_step [] (split p)).

Definition normalisePath (p : path) : option path :=
  if negb (contains p dotdot) && negb (contains p [c_dot; c_slash])
     && negb (contains p [c_slash; c_slash])
  then Some p
  else
    r ← normaliseAppend [] 256 p;
    Some (if (r.2 : bool) then r.1 else normalisePathSlow p).

(** ** Splitting and joining *)

Definition noslash (s : path) : Prop := c_slash ∉ s.
Definition clean_seg (s : path) : Prop := s ≠ [] ∧ s ≠ dot ∧ s ≠ dotdot.

(** A path that cleaning leaves as it is. *)
Definition isClean (p : path) : Prop := p ≠ [] ∧ Forall clean_seg (split p).
#[export] Instance isClean_dec p : Decision (isClean p).
Proof. unfold isClean. apply _. Defined.

#[export] Instance clean_seg_dec s : Decision (clean_seg s).
Proof. unfold clean_seg. apply _. Defined.

Lemma split_cons p : ∃ s ss, split p = s :: ss.
Proof.
  induction p as [|c p (s & ss & IH)]; simpl; [by exists [], []|].
  rewrite IH. zcases; eauto.
Qed.

Lemma join_cons s ss : ss ≠ [] → join (s :: ss) = s ++ c_slash :: join ss.
Proof. by destruct ss. Qed.

Lemma join_split p : join (split p) = p.
Proof.
  induction p as [|c p IH]; [done|]. simpl. destruct (split_cons p) as (s & ss & Hs).
  rewrite Hs in *. zcases.
  - rewrite join_cons, IH by done. simpl. by subst.
  - destruct ss; simpl in *; by rewrite IH.
Qed.

Lemma split_app_slash a b : split (a ++ c_slash :: b) = split a ++ split b.
Proof.
  induction a as [|c a IH]; [done|]. simpl. rewrite IH. zcases; [done|].
  destruct (split_cons a) as (s & ss & ->). done.
Qed.

Lemma split_noslash_id s : noslash s → split s = [s].
Proof.
  unfold noslash. induction s as [|c s IH]; intros Hs; [done|]. simpl.
  apply not_elem_of_cons in Hs as [Hc Hs]. rewrite IH by done. zcases; [congruence|done].
Qed.

Lemma split_join segs : segs ≠ [] → Forall noslash segs → split (join segs) = segs.
Proof.
  induction segs as [|s ss IH]; intros Hne Hns; [done|]. apply Forall_cons in Hns as [Hs Hss].
  destruct (decide (ss = [])) as [->|Hss0]; [by apply split_noslash_id|].
  rewrite join_cons, split_app_slash, IH, split_noslash_id by done. done.
Qed.

Lemma split_noslash p : Forall noslash (split p).
Proof.
  induction p as [|c p IH]; simpl.
  { constructor; [|constructor]. by intros ?%elem_of_nil. }
  zcases; [by constructor; [intros ?%elem_of_nil|]|].
  destruct (split_cons p) as (s & ss & Hs). rewrite Hs in *. apply Forall_cons in IH as [? ?].
  constructor; [|done]. apply not_elem_of_cons. split; [congruence|done].
Qed.

Lemma join_app a b : a ≠ [] → b ≠ [] → join (a ++ b) = join a ++ c_slash :: join b.
Proof.
  intros Ha Hb. induction a as [|s a IH]; [done|]. destruct (decide (a = [])) as [->|Ha'].
  - by destruct b.
  - rewrite <-app_comm_cons, !join_cons, IH by (done || by destruct a). by rewrite <-app_assoc.
Qed.

Lemma join_nil segs : Forall (.≠ []) segs → join segs = [] → segs = [].
Proof.
  destruct segs as [|s [|s' segs]]; [done| |]; intros [Hs _]%Forall_cons; simpl; [done|].
  by destruct s.
Qed.

(** ** [pathIsClean] *)

(** The text at the start of a segment makes it unclean. *)
Definition bad (s : path) : bool :=
  match s with
  | [] => true
  | c :: r =>
      (c =? c_slash) ||
      (c =? c_dot) &&
      match r with
      | [] => true
      | c1 :: r1 =>
          (c1 =? c_slash) ||
          (c1 =? c_dot) && match r1 with [] => true | c2 :: _ => c2 =? c_slash end
      end
  end.

Lemma bad_spec s : bad s = false ↔ clean_seg (hd [] (split s)).
Proof.
  unfold clean_seg, dot, dotdot, c_slash, c_dot.
  destruct s as [|c [|c1 [|c2 r]]]; simpl; unfold c_slash, c_dot.
  - naive_solver.
  - zcases; simpl; naive_solver.
  - zcases; simpl; naive_solver.
  - destruct (split_cons r) as (s & ss & ->).
    zcases; simpl; split; try done; try (intros (?&?&?)); naive_solver.
Qed.

(** No unclean segment after a slash. *)
Fixpoint slashes_ok (s : path) : bool :=
  match s with
  | [] => true
  | c :: r => (if c =? c_slash then negb (bad r) else true) && slashes_ok r
  end.

Lemma slashes_ok_spec p : slashes_ok p = true ↔ Forall clean_seg (tail (split p)).
Proof.
  induction p as [|c p IH]; simpl; [naive_solver constructor|].
  destruct (split_cons p) as (s & ss & Hs). rewrite andb_true_iff, IH, Hs. zcases; simpl.
  - rewrite Forall_cons, negb_true_iff, bad_spec, Hs. done.
  - naive_solver.
Qed.

Lemma clean_spec p : Forall clean_seg (split p) ↔ bad p = false ∧ slashes_ok p = true.
Proof.
  rewrite bad_spec, slashes_ok_spec. destruct (split_cons p) as (s & ss & ->). simpl.
  by rewrite Forall_cons.
Qed.

Lemma zget_drop {A} (p s : list A) i k :
  drop i p = s → zget p (Z.of_nat i + Z.of_nat k) = s !! k.
Proof. intros <-. by rewrite <-Nat2Z.inj_add, zget_nat, lookup_drop. Qed.

Lemma clean_loop_spec p i s :
  drop i p = s → last p ≠ Some c_slash → clean_loop (length s) p (Z.of_nat i) = Some (slashes_ok s).
Proof.
  intros Hs Hlast. revert i Hs. induction s as [|c r IH]; intros i Hs; [done|].
  assert (Hr : drop (S i) p = r).
  { change (S i) with (1 + i)%nat. by rewrite Nat.add_comm, <-drop_drop, Hs. }
  assert (Hlen : Z.of_nat (length p) = Z.of_nat i + 1 + Z.of_nat (length r)).
  { apply (f_equal length) in Hs. rewrite length_drop in Hs. simpl in Hs. lia. }
  pose proof (zget_drop p _ i 0 Hs) as H0. pose proof (zget_drop p _ i 1 Hs) as H1.
  pose proof (zget_drop p _ i 2 Hs) as H2. pose proof (zget_drop p _ i 3 Hs) as H3.
  change (Z.of_nat 1) with 1 in H1. change (Z.of_nat 2) with 2 in H2.
  change (Z.of_nat 3) with 3 in H3. rewrite Z.add_0_r in H0.
  simpl lookup in H0, H1, H2, H3. specialize (IH (S i) Hr).
  replace (Z.of_nat (S i)) with (Z.of_nat i + 1) in IH by lia.
  cbn [clean_loop length slashes_ok]. rewrite H0, H1, H2, H3. cbn [mbind option_bind].
  destruct (Z.eqb_spec c c_slash) as [->|Hc]; [|done]. simpl negb. cbv iota.
  destruct r as [|c1 r1].
  { exfalso. apply Hlast. rewrite <-(take_drop i p), Hs. apply last_snoc. }
  set (L := clean_loop _ _ _) in *. rewrite Hlen. simpl lookup. cbn [bad mbind option_bind].
  destruct (c1 =? c_slash); [done|]. destruct (c1 =? c_dot); [|done].
  destruct r1 as [|c2 r2]; cbn [length lookup list_lookup orb andb negb].
  { destruct (Z.eqb_spec (Z.of_nat i + 2) (Z.of_nat i + 1 + Z.of_nat 1)); [done|lia]. }
  destruct (Z.eqb_spec (Z.of_nat i + 2) (Z.of_nat i + 1 + Z.of_nat (S (S (length r2))))); [lia|].
  simpl lookup. cbn [mbind option_bind].
  destruct (c2 =? c_slash); [done|]. destruct (c2 =? c_dot); cbn [negb]; [|done].
  destruct r2 as [|c3 r3]; cbn [mbind option_bind orb andb negb].
  { destruct (Z.eqb_spec (Z.of_nat i + 3) (Z.of_nat i + 1 + Z.of_nat (S (S (length (@nil Z))))));
      [done|simpl in *; lia]. }
  destruct (Z.eqb_spec (Z.of_nat i + 3) (Z.of_nat i + 1 + Z.of_nat (S (S (length (c3 :: r3))))));
    [simpl in *; lia|]. simpl lookup. cbn [mbind option_bind].
  by destruct (c3 =? c_slash).
Qed.

Lemma last_zget (p : path) : p ≠ [] → zget p (Z.of_nat (length p) - 1) = last p.
Proof.
  intros Hp. rewrite last_lookup. destruct p; [done|]. unfold zget.
  rewrite bool_decide_true by (simpl; lia). f_equal. simpl. lia.
Qed.

Lemma clean_not_last_slash p : Forall clean_seg (split p) → last p ≠ Some c_slash.
Proof.
  intros Hc Hl. apply last_Some in Hl as (q & ->). rewrite split_app_slash in Hc.
  apply Forall_app in Hc as [_ [Hbad _]%Forall_cons]. by destruct Hbad.
Qed.

Lemma pathIsClean_spec p :
  p ≠ [] → pathIsClean p = Some (bool_decide (Forall clean_seg (split p))).
Proof.
  intros Hp. unfold pathIsClean. rewrite last_zget by done.
  destruct (last p) as [cl|] eqn:Hl; [|by apply last_None in Hl].
  destruct (decide (cl = c_slash)) as [->|Hcl].
  { rewrite (bool_decide_false (Forall _ _)) by (intros ?%clean_not_last_slash; done).
    destruct p as [|c0 r]; [done|]. rewrite (zget_cons _ _ 0), (decide_True (P := 0 = 0)) by done. simpl.
    by rewrite orb_true_r. }
  assert (Hb : bool_decide (Forall clean_seg (split p)) = negb (bad p) && slashes_ok p).
  { apply eq_true_iff_eq. rewrite bool_decide_eq_true, clean_spec, andb_true_iff, negb_true_iff. done. }
  rewrite Hb. clear Hb. pose proof (clean_loop_spec p 0 p eq_refl) as Hloop.
  rewrite Hl in Hloop. specialize (Hloop ltac:(congruence)). change (Z.of_nat 0) with 0 in Hloop.
  rewrite Hloop. destruct p as [|c0 r]; [done|]. clear Hloop Hl Hp.
  set (ok := slashes_ok _). clearbody ok.
  rewrite !zget_cons, (decide_True (P := 0 = 0)) by done. cbn [mbind option_bind].
  rewrite (proj2 (Z.eqb_neq cl c_slash)), orb_false_r by done.
  rewrite (decide_False (P := 1 = 0)), (decide_False (P := 2 = 0)) by lia. cbn [bad length].
  destruct (c0 =? c_slash); [done|]. destruct (c0 =? c_dot); [|done]. cbn [negb orb andb].
  change (1 - 1) with 0. change (2 - 1) with 1.
  destruct r as [|c1 r]; [done|]. rewrite !zget_cons, (decide_True (P := 0 = 0)) by done. cbn [length].
  rewrite (decide_False (P := 1 = 0)) by lia. change (1 - 1) with 0.
  destruct (Z.eqb_spec (Z.of_nat (S (S (length r)))) 1); [lia|]. cbn [mbind option_bind].
  destruct (c1 =? c_slash); [done|]. destruct (c1 =? c_dot); [|done]. cbn [negb orb andb].
  destruct r as [|c2 r]; [done|]. rewrite zget_cons, (decide_True (P := 0 = 0)) by done. cbn [length].
  destruct (Z.eqb_spec (Z.of_nat (S (S (S (length r))))) 2); [lia|]. cbn [mbind option_bind].
  by destruct (c2 =? c_slash).
Qed.

(** ** [path.Clean] on segments *)

Definition cleaned (r : bool) (segs : list path) : list path := foldl (clean_step r) [] segs.

(** What [clean_step] keeps: leading ".." (none when rooted), then clean segments. *)
Definition normal (r : bool) (segs : list path) : Prop :=
  ∃ k l, segs = replicate k dotdot ++ l ∧ Forall clean_seg l ∧ (r = true → k = 0%nat).

Lemma clean_step_clean r acc s : clean_seg s → clean_step r acc s = acc ++ [s].
Proof.
  intros (? & ? & ?). unfold clean_step. rewrite !decide_False; [done|done|tauto].
Qed.

Lemma foldl_clean r acc segs : Forall clean_seg segs → foldl (clean_step r) acc segs = acc ++ segs.
Proof.
  revert acc. induction segs as [|s segs IH]; intros acc Hc; simpl; [by rewrite app_nil_r|].
  apply Forall_cons in Hc as [Hs Hc]. rewrite clean_step_clean, IH by done.
  by rewrite <-app_assoc.
Qed.

Lemma clean_dotdots k : foldl (clean_step false) [] (replicate k dotdot) = replicate k dotdot.
Proof.
  induction k as [|k IH]; [done|]. rewrite replicate_S_end, foldl_app, IH. simpl.
  unfold clean_step. rewrite decide_False by (unfold dot, dotdot; naive_solver).
  rewrite decide_True by done. destruct k as [|k]; [done|].
  rewrite replicate_S_end, last_snoc, decide_True by done. done.
Qed.

Lemma cleaned_normal r segs : normal r segs → cleaned r segs = segs.
Proof.
  intros (k & l & -> & Hl & Hk). unfold cleaned. rewrite foldl_app, foldl_clean by done. f_equal.
  destruct r; [by rewrite Hk|apply clean_dotdots].
Qed.

Lemma removelast_snoc {A} (l : list A) x : removelast (l ++ [x]) = l.
Proof. apply removelast_last. Qed.

Lemma clean_step_normal r acc s : normal r acc → normal r (clean_step r acc s).
Proof.
  intros (k & l & -> & Hl & Hk). unfold clean_step.
  case_decide as H1; [by exists k, l|]. case_decide as H2; subst.
  - destruct l as [|x l _] using rev_ind.
    + rewrite app_nil_r. destruct k as [|k].
      * simpl. destruct r; [by exists 0%nat, []|]. by exists 1%nat, [].
      * rewrite replicate_S_end, last_snoc, decide_True by done. exists (S (S k)), [].
        rewrite app_nil_r, <-!replicate_S_end. split; [done|]. split; [done|].
        intros Hr. by specialize (Hk Hr).
    + apply Forall_app in Hl as [Hl [Hx _]%Forall_cons]. rewrite app_assoc, last_snoc.
      rewrite decide_False by apply Hx. rewrite removelast_snoc. by exists k, l.
  - exists k, (l ++ [s]). split; [by rewrite app_assoc|]. split; [|done].
    apply Forall_app. split; [done|]. constructor; [|done]. unfold clean_seg. tauto.
Qed.

Lemma normal_cleaned r segs : normal r (cleaned r segs).
Proof.
  unfold cleaned. assert (Hnil : normal r []) by (by exists 0%nat, []).
  revert Hnil. generalize (@nil path). induction segs as [|s segs IH]; intros acc Hacc; [done|].
  simpl. by apply IH, clean_step_normal.
Qed.

Lemma cleaned_noslash r segs : Forall noslash segs → Forall noslash (cleaned r segs).
Proof.
  unfold cleaned. assert (Hnil : Forall noslash []) by constructor.
  revert Hnil. generalize (@nil path).
  assert (Hdd : noslash dotdot) by (unfold noslash, dotdot, c_slash; set_solver).
  induction segs as [|s segs IH]; intros acc Hacc Hs; [done|].
  apply Forall_cons in Hs as [Hs Hss]. simpl. apply IH; [|done]. unfold clean_step.
  case_decide; [done|]. case_decide.
  - destruct acc as [|x acc _] using rev_ind; [destruct r; by repeat constructor|].
    rewrite last_snoc. case_decide; [apply Forall_app; by repeat constructor|].
    rewrite removelast_snoc. by apply Forall_app in Hacc as [? _].
  - apply Forall_app. by repeat constructor.
Qed.

Lemma normal_nonempty r segs : normal r segs → Forall (.≠ []) segs.
Proof.
  intros (k & l & -> & Hl & _). apply Forall_app. split; [by apply Forall_replicate|].
  eapply Forall_impl; [done|]. by intros s [? _].
Qed.

(** A clean path is its own [Clean]. *)
Lemma Clean_clean p : Forall clean_seg (split p) → Clean p = p.
Proof.
  intros Hc. assert (Hr : rooted p = false).
  { destruct p as [|c p]; [done|]. simpl in *. zcases; [|done].
    apply Forall_cons in Hc as [[? _] _]. done. }
  unfold Clean. rewrite Hr, foldl_clean by done. simpl.
  destruct (split_cons p) as (s & ss & Hs). rewrite decide_False by (by rewrite Hs).
  apply join_split.
Qed.

Lemma clean_join a b :
  Forall clean_seg (split a) → Forall clean_seg (split b) →
  Forall clean_seg (split (a ++ c_slash :: b)).
Proof. intros. rewrite split_app_slash. by apply Forall_app. Qed.

(** ** [cleanRel] *)

Lemma Clean_empty r : cleaned r [[]] = [].
Proof. unfold cleaned; simpl. unfold clean_step. by rewrite decide_True by (by left). Qed.

Lemma normal_join_dot r segs :
  normal r segs → Forall noslash segs → join segs ≠ dot ∧ join segs ≠ [c_slash] ∧
  last (join segs) ≠ Some c_slash ∧ rooted (join segs) = false.
Proof.
  intros Hn Hns. destruct (decide (segs = [])) as [->|Hne]; [done|].
  pose proof (split_join segs Hne Hns) as Hsp. pose proof (normal_nonempty _ _ Hn) as Hnn.
  assert (Hdot : dot ∉ segs).
  { destruct Hn as (k & l & -> & Hl & _). rewrite elem_of_app, elem_of_replicate.
    intros [[? _]|Hd]; [done|]. rewrite Forall_forall in Hl. by destruct (Hl _ Hd) as (_ & ? & _). }
  assert (Hemp : [] ∉ segs).
  { intros He. rewrite Forall_forall in Hnn. by apply (Hnn _ He). }
  split_and!.
  - intros He. rewrite He in Hsp. apply Hdot. rewrite <-Hsp. vm_compute. by left.
  - intros He. rewrite He in Hsp. apply Hemp. rewrite <-Hsp. vm_compute. by left.
  - intros He. apply last_Some in He as (q & He). rewrite He, split_app_slash in Hsp.
    apply Hemp. rewrite <-Hsp. apply elem_of_app. right. vm_compute. by left.
  - destruct (join segs) as [|c q]; [done|]. simpl. zcases; [|done]. subst c. simpl in Hsp.
    exfalso. apply Hemp. rewrite <-Hsp. by left.
Qed.

Lemma Clean_join p :
  let segs := cleaned (rooted p) (split p) in
  Clean p = if rooted p then c_slash :: join segs else if decide (segs = []) then dot else join segs.
Proof. done. Qed.

Lemma cleanRel_spec rel : cleanRel rel = Some (join (cleaned (rooted rel) (split rel))).
Proof.
  unfold cleanRel. case_decide as H0; [by destruct H0; subst|].
  rewrite pathIsClean_spec by tauto. simpl. case_bool_decide as Hc.
  { f_equal. pose proof (Clean_clean rel Hc) as HC. rewrite <-HC at 1. rewrite Clean_join. cbv zeta.
    assert (Hr : rooted rel = false).
    { destruct rel as [|c p]; [done|]. simpl in *. zcases; [|done].
      apply Forall_cons in Hc as [[? _] _]. done. }
    rewrite Hr, decide_False; [done|]. unfold cleaned. rewrite foldl_clean by done.
    by destruct (split_cons rel) as (? & ? & ->). }
  rewrite Clean_join. cbv zeta. set (segs := cleaned _ _).
  destruct (normal_join_dot (rooted rel) segs) as (Hd & Hs & Hl & Hr);
    [apply normal_cleaned|apply cleaned_noslash, split_noslash|].
  assert (Hts : ∀ q, last q ≠ Some c_slash → TrimSuffixSlash q = q).
  { intros q Hq. unfold TrimSuffixSlash. by rewrite decide_False. }
  destruct (rooted rel).
  - case_decide as Hd'.
    + destruct Hd' as [Hd'|Hd']; simplify_eq. rewrite Hd'. done.
    + simpl. by rewrite Hts.
  - destruct (decide (segs = [])) as [->|Hne]; [done|].
    rewrite decide_False by tauto. f_equal. rewrite Hts.
    + unfold TrimPrefixSlash. destruct (join segs) as [|c q]; [done|]. simpl in Hr. by rewrite Hr.
    + unfold TrimPrefixSlash. destruct (join segs) as [|c q]; [done|]. simpl in Hr. by rewrite Hr.
Qed.

Lemma cleanRel_cleaned r segs :
  Forall noslash segs → cleanRel (join (cleaned r segs)) = Some (join (cleaned r segs)).
Proof.
  intros Hns. rewrite cleanRel_spec. f_equal. pose proof (normal_cleaned r segs) as Hn.
  pose proof (cleaned_noslash r segs Hns) as Hns'. set (out := cleaned r segs) in *.
  destruct (decide (out = [])) as [->|Hne]; [done|].
  rewrite split_join by done. destruct (normal_join_dot r out) as (_ & _ & _ & ->); [done..|].
  rewrite cleaned_normal; [done|]. destruct Hn as (k & l & ? & ? & ?). exists k, l. split_and!; done.
Qed.

(** [pathIsClean] on a non-empty path reads nothing out of range and says
    whether no segment is empty, "." or "..". *)
Theorem pathIsClean_correct (p : path) :
  p ≠ [] → pathIsClean p = Some (bool_decide (Forall clean_seg (split p))).
Proof. apply pathIsClean_spec. Qed.

Lemma pathIsClean_correct_witness : pathIsClean (bs "a/..b/.c") = Some true.
Proof. etransitivity; [apply pathIsClean_correct; discriminate|]. vm_compute. reflexivity. Defined.

(** The fast branches of the joining constructors (both parts already
    clean: concatenate) and their slow branches ([filepath.Clean] of the
    concatenation) agree: each of them yields the cleaned path on every input. *)
Theorem join_clean_fast_slow (dir rel : path) :
  buildJoinClean dir rel = Some (InBuild (Clean (dir ++ c_slash :: rel))) ∧
  sourceJoinClean dir rel = Some (InSource (Clean (dir ++ c_slash :: rel))) ∧
  sourceClean rel = Some (InSource (Clean rel)) ∧
  buildClean rel = Some (InBuild (Clean rel)).
Proof.
  assert (∃ f, both_clean dir rel = Some f ∧
    (f = true → Clean (dir ++ c_slash :: rel) = dir ++ c_slash :: rel)) as (f2 & H2 & Hf2).
  { unfold both_clean. case_decide as Hne; [|by exists false]. destruct Hne.
    rewrite !pathIsClean_spec by done. simpl.
    case_bool_decide as Hd; [|by exists false]. eexists. split; [done|].
    rewrite bool_decide_eq_true. intros Hr. by apply Clean_clean, clean_join. }
  assert (∃ f, one_clean rel = Some f ∧ (f = true → Clean rel = rel)) as (f1 & H1 & Hf1).
  { unfold one_clean. case_decide as Hne; [|by exists false]. rewrite pathIsClean_spec by done.
    eexists. split; [done|]. rewrite bool_decide_eq_true. by apply Clean_clean. }
  unfold buildJoinClean, sourceJoinClean, sourceClean, buildClean. rewrite H1, H2. simpl.
  destruct f1, f2; rewrite ?Hf1, ?Hf2 by done; done.
Qed.

(** [cleanRel] never fails; it joins what [path.Clean]'s rules leave of the
    segments (so "" instead of "." and "/"), and cleaning twice changes nothing. *)
Theorem cleanRel_correct (rel : path) :
  cleanRel rel = Some (join (cleaned (rooted rel) (split rel))) ∧
  (r ← cleanRel rel; cleanRel r) = cleanRel rel.
Proof.
  rewrite cleanRel_spec. split; [done|]. simpl. apply cleanRel_cleaned, split_noslash.
Qed.

(** ** Segment loops *)

(** The cursor walks [split]. *)
Lemma segment_split p :
  match segment p with
  | (s, None) => split p = [s]
  | (s, Some r) => split p = s :: split r ∧ (length r < length p)%nat
  end.
Proof.
  induction p as [|c p IH]; [done|]. simpl. zcases; [split; [done|lia]|].
  destruct (segment p) as [s [r|]]; [destruct IH as [-> ?]; split; [done|lia]|by rewrite IH].
Qed.

(** How a segment changes the depth. *)
Definition weight (s : path) : Z :=
  if decide (s = [] ∨ s = dot) then 0 else if decide (s = dotdot) then -1 else 1.

Definition depth_of (segs : list path) : Z := foldr (λ s d, weight s + d) 0 segs.

Lemma escapes_loop_spec fuel p depth :
  (length p < fuel)%nat →
  ∃ b, escapes_loop fuel p depth = Some b ∧
    (b = true ↔ ∃ n, Z.of_nat depth + depth_of (take n (split p)) < 0).
Proof.
  revert p depth. induction fuel as [|fuel IH]; intros p depth Hf; [lia|]. simpl.
  pose proof (segment_split p) as Hseg. destruct (segment p) as [s rest].
  assert (Hsplit : ∃ tl, split p = s :: tl ∧ match rest with
    | None => tl = [] | Some r => tl = split r ∧ (length r < length p)%nat end).
  { destruct rest; [exists (split l); tauto|by exists []]. }
  destruct Hsplit as (tl & Htl & Hrest). rewrite Htl. clear Hseg Htl.
  assert (Hnext : ∀ d : nat, Z.of_nat d = Z.of_nat depth + weight s →
    ∃ b, match rest with None => Some false | Some r => escapes_loop fuel r d end = Some b ∧
      (b = true ↔ ∃ n, Z.of_nat depth + depth_of (take n (s :: tl)) < 0)).
  { intros d Hd. assert (Hshift : (∃ n, Z.of_nat depth + depth_of (take n (s :: tl)) < 0) ↔
      ∃ n, Z.of_nat d + depth_of (take n tl) < 0).
    { split; intros [n Hn].
      - destruct n as [|n]; simpl in Hn; [lia|]. exists n. lia.
      - exists (S n). simpl. lia. }
    destruct rest as [r|].
    - destruct Hrest as [-> ?]. destruct (IH r d) as (b & -> & Hb); [lia|].
      exists b. split; [done|]. by rewrite Hb, Hshift.
    - subst tl. exists false. split; [done|]. rewrite Hshift. split; [done|].
      intros [[|n] Hn]; simpl in Hn; lia. }
  unfold weight in Hnext. repeat case_decide.
  - apply Hnext. lia.
  - destruct depth as [|d]; [|apply Hnext; lia]. exists true. split; [done|]. split; [|done].
    intros _. exists 1%nat. simpl. unfold weight. rewrite decide_False, decide_True by done. lia.
  - apply Hnext. lia.
Qed.

(** [pathEscapesRoot] terminates and reports exactly the paths in which, read
    from the left, the ".." at some point outnumber the named segments. *)
Theorem pathEscapesRoot_correct (p : path) :
  ∃ b, pathEscapesRoot p = Some b ∧ (b = true ↔ ∃ n, depth_of (take n (split p)) < 0).
Proof. unfold pathEscapesRoot. apply (escapes_loop_spec (S (length p)) p 0). lia. Qed.

(** ** The buffered normaliser *)

Lemma join_snoc segs s : join (segs ++ [s]) = if decide (segs = []) then s else join segs ++ c_slash :: s.
Proof. case_decide as Hd; [by subst|]. by rewrite join_app. Qed.

(** The buffer holds the joined stack, and [starts] where each prefix of the
    stack ends. *)
Record buffer_ok (pre : path) (room : nat) (out : path) (starts : list nat) (segs : list path) : Prop := {
  bo_out : out = pre ++ join segs;
  bo_segs : Forall (.≠ []) segs;
  bo_starts : ∀ k, (k < length segs)%nat →
    starts !! k = Some (length pre + length (join (take k segs)))%nat;
  bo_len : (length segs <= length starts)%nat;
  bo_room : (length (join segs) <= room)%nat;
}.

Lemma join_take_prefix segs k : join (take k segs) `prefix_of` join segs.
Proof.
  destruct (decide (take k segs = [])) as [->|Ht]; [apply prefix_nil|].
  destruct (decide (drop k segs = [])) as [Hd|Hd].
  - rewrite <-(take_drop k segs) at 2. by rewrite Hd, app_nil_r.
  - rewrite <-(take_drop k segs) at 2. rewrite join_app by done. by eexists.
Qed.

Lemma buffer_pop pre room out starts segs s d :
  buffer_ok pre room out starts (segs ++ [s]) → d = length segs →
  starts !! d = Some (length pre + length (join segs))%nat ∧
  buffer_ok pre room (take (length pre + length (join segs)) out) starts segs.
Proof.
  intros [Hout Hsegs Hst Hl Hr] ->. rewrite length_app in *. simpl in *.
  assert (Htk : take (length segs) (segs ++ [s]) = segs) by apply take_app_length.
  split; [rewrite Hst, Htk by lia; done|].
  destruct (join_take_prefix (segs ++ [s]) (length segs)) as [q Hq]. rewrite Htk in Hq.
  rewrite Hq, length_app in Hr.
  apply Forall_app in Hsegs as [Hsegs _]. split; [|done| |lia|lia].
  - rewrite Hout, Hq, app_assoc. apply take_app_length'. by rewrite length_app.
  - intros k Hk. rewrite Hst, take_app_le by lia. done.
Qed.

Lemma buffer_push pre room out starts segs s :
  buffer_ok pre room out starts segs → s ≠ [] → (length segs < length starts)%nat →
  (length (join segs) + 1 + length s <= room)%nat →
  buffer_ok pre room
    ((if decide (length pre < length out)%nat then out ++ [c_slash] else out) ++ s)
    (<[length segs := length out]> starts) (segs ++ [s]).
Proof.
  intros [Hout Hsegs Hst Hl Hr] Hs Hlt Hroom. pose proof (join_nil segs Hsegs) as Hnil.
  split; rewrite ?length_insert.
  - rewrite join_snoc, Hout, length_app. destruct (join segs) as [|c j] eqn:E.
    + rewrite (Hnil eq_refl), app_nil_r, decide_False by (simpl; lia). by rewrite decide_True.
    + rewrite decide_True by (simpl; lia). rewrite decide_False by (by intros ->).
      by rewrite <-!app_assoc.
  - apply Forall_app. by repeat constructor.
  - intros k Hk. rewrite length_app in Hk. simpl in Hk.
    destruct (decide (k = length segs)) as [->|Hne].
    + rewrite list_lookup_insert_eq, take_app_length, Hout, length_app by lia. done.
    + rewrite list_lookup_insert_ne, Hst, take_app_le by lia. done.
  - rewrite length_app. simpl. lia.
  - rewrite join_snoc. case_decide; [lia|]. rewrite length_app. simpl. lia.
Qed.

Lemma normalise_loop_spec fuel pre room out starts segs p :
  (length p < fuel)%nat → buffer_ok pre room out starts segs →
  ∃ r ok, normalise_loop fuel (length pre) room out starts (length segs) p = Some (r, ok) ∧
    if (ok : bool)
    then r = pre ++ join (foldl slow_step segs (split p)) ∧ (length r <= length pre + room)%nat
    else r = pre.
Proof.
  revert out starts segs p. induction fuel as [|fuel IH]; intros out starts segs p Hf HB; [lia|].
  simpl. pose proof (segment_split p) as Hseg. destruct (segment p) as [s rest].
  assert (Hsplit : ∃ tl, split p = s :: tl ∧ match rest with
    | None => tl = [] | Some r => tl = split r ∧ (length r < length p)%nat end).
  { destruct rest; [exists (split l); tauto|by exists []]. }
  destruct Hsplit as (tl & Htl & Hrest). rewrite Htl. clear Hseg Htl. simpl foldl.
  assert (Hnext : ∀ out starts segs', buffer_ok pre room out starts segs' → slow_step segs s = segs' →
    ∃ r ok, match rest with
      | None => Some (out, true)
      | Some r => normalise_loop fuel (length pre) room out starts (length segs') r
      end = Some (r, ok) ∧
      if (ok : bool)
      then r = pre ++ join (foldl slow_step (slow_step segs s) tl) ∧ (length r <= length pre + room)%nat
      else r = pre).
  { intros out' starts' segs' HB' ->. destruct rest as [r|].
    - destruct Hrest as [-> ?]. apply IH; [lia|done].
    - subst tl. exists out', true. split; [done|]. simpl. destruct HB' as [-> _ _ _ ?].
      rewrite length_app. split; [done|lia]. }
  unfold slow_step in Hnext at 1. case_decide as H1; [by apply Hnext|].
  case_decide as H2.
  - destruct segs as [|x segs _] using rev_ind; [by apply Hnext|].
    rewrite length_app, Nat.add_1_r.
    destruct (buffer_pop _ _ _ _ _ _ _ HB eq_refl) as [-> HB']. simpl.
    apply Hnext; [done|]. apply removelast_snoc.
  - pose proof HB as [Hout _ _ Hl Hr].
    assert (Hpre : take (length pre) out = pre) by (rewrite Hout; apply take_app_length).
    destruct (Z.ltb_spec (Z.of_nat room - (Z.of_nat (length out) - Z.of_nat (length pre)) - 1)
      (Z.of_nat (length s))) as [_|Hfit]; [exists pre, false; by rewrite Hpre|].
    case_decide; [exists pre, false; by rewrite Hpre|].
    assert (length out = length pre + length (join segs))%nat by (rewrite Hout; apply length_app).
    pose proof (Hnext _ _ (segs ++ [s]) (buffer_push pre room out starts segs s HB ltac:(tauto)
      ltac:(lia) ltac:(lia)) eq_refl) as Hn.
    rewrite length_app, Nat.add_1_r in Hn. exact Hn.
Qed.

Lemma normaliseAppend_spec out room p :
  ∃ r ok, normaliseAppend out room p = Some (r, ok) ∧
    if (ok : bool) then r = out ++ normalisePathSlow p ∧ (length r <= length out + room)%nat
    else r = out.
Proof.
  unfold normaliseAppend, normalisePathSlow.
  apply (normalise_loop_spec _ out room out (replicate 64 0%nat) []); [lia|].
  split; simpl; [by rewrite app_nil_r|constructor|lia|lia|lia].
Qed.

(** The buffered normaliser, on every buffer and path, either reports that
    the path does not fit and leaves the buffer as it was, or appends what the
    allocating [normalisePathSlow] returns without exceeding the capacity; so
    [normalisePath] is total and, unless its substring test sends the path back
    untouched, equal to [normalisePathSlow]. *)
Theorem normalise_fast_slow (out : path) (room : nat) (p : path) :
  (∃ r ok, normaliseAppend out room p = Some (r, ok) ∧
    if (ok : bool) then r = out ++ normalisePathSlow p ∧ (length r <= length out + room)%nat
    else r = out) ∧
  normalisePath p =
    Some (if negb (contains p dotdot) && negb (contains p [c_dot; c_slash])
             && negb (contains p [c_slash; c_slash]) then p else normalisePathSlow p).
Proof.
  split; [apply normaliseAppend_spec|]. unfold normalisePath. destruct (_ && _); [done|].
  destruct (normaliseAppend_spec [] 256 p) as (r & ok & -> & Hr). simpl.
  destruct ok; [|done]. by destruct Hr as [-> _].
Qed.

Lemma slow_clean acc segs :
  Forall clean_seg acc → (∀ n, 0 <= Z.of_nat (length acc) + depth_of (take n segs)) →
  foldl (clean_step false) acc segs = foldl slow_step acc segs.
Proof.
  revert acc. induction segs as [|s segs IH]; intros acc Hacc Hd; [done|]. simpl.
  assert (Hw : ∀ n, 0 <= Z.of_nat (length acc) + weight s + depth_of (take n segs)).
  { intros n. specialize (Hd (S n)). simpl in Hd. lia. }
  unfold weight in Hw. unfold clean_step at 2, slow_step at 2.
  case_decide as H1; [apply IH; [done|]; intros n; specialize (Hw n); lia|].
  case_decide as H2.
  - destruct acc as [|x acc _] using rev_ind; [specialize (Hw 0%nat); simpl in Hw; lia|].
    apply Forall_app in Hacc as [Hacc [Hx _]%Forall_cons].
    rewrite last_snoc, decide_False by apply Hx. rewrite removelast_snoc. apply IH; [done|].
    intros n. specialize (Hw n). rewrite length_app in Hw. simpl in Hw. lia.
  - apply IH; [apply Forall_app; split; [done|]; constructor; [|done]; unfold clean_seg; tauto|].
    intros n. specialize (Hw n). rewrite length_app. simpl. lia.
Qed.

(** On a relative path that does not escape the root the project's own
    normaliser and the library's [path.Clean] agree, up to the library's "." for
    the empty path: no ".." is silently swallowed. *)
Theorem normalise_is_Clean (p : path) :
  pathEscapesRoot p = Some false → rooted p = false →
  Clean p = if decide (normalisePathSlow p = []) then dot else normalisePathSlow p.
Proof.
  intros Hesc Hr. destruct (escapes_loop_spec (S (length p)) p 0) as (b & Hb & Hiff); [lia|].
  unfold pathEscapesRoot in Hesc. rewrite Hb in Hesc. simplify_eq.
  assert (Hs : cleaned false (split p) = foldl slow_step [] (split p)).
  { apply slow_clean; [constructor|]. intros n. apply Z.nlt_ge. intros Hn.
    assert (false = true) by (apply Hiff; by exists n). done. }
  rewrite Clean_join. cbv zeta. unfold normalisePathSlow. rewrite Hr, Hs.
  pose proof (normal_nonempty _ _ (normal_cleaned false (split p))) as Hnn. rewrite Hs in Hnn.
  case_decide as He; [by rewrite He|]. rewrite decide_False; [done|]. by intros ?%join_nil.
Qed.

Lemma normalise_is_Clean_witness : Clean (bs "a/x/../b/./c") = bs "a/b/c".
Proof.
  etransitivity; [apply normalise_is_Clean; vm_compute; reflexivity|]. vm_compute. reflexivity.
Defined.

(** ** Directory and base name *)

Lemma cut_last_spec p :
  match cut_last p with
  | Some (d, n) => p = d ++ c_slash :: n ∧ noslash n
  | None => noslash p
  end.
Proof.
  unfold noslash. induction p as [|c p IH]; simpl; [by intros ?%elem_of_nil|].
  destruct (cut_last p) as [[d n]|].
  - destruct IH as [-> ?]. done.
  - zcases; subst; [done|]. apply not_elem_of_cons. split; [congruence|done].
Qed.

(** [splitDirName] and [joinRel] are inverse on paths without a leading
    slash, the name has no slash, and [pathDir] and [baseName] are its two
    halves; [joinRelInto] appends the join. *)
Theorem splitDirName_joinRel (rel dst a b : path) :
  rooted rel = false →
  (let '(d, n) := splitDirName rel in
   joinRel d n = rel ∨ (n = [] ∧ rel = d ++ [c_slash])) ∧
  noslash (splitDirName rel).2 ∧
  splitDirName rel = (pathDir rel, baseName rel) ∧
  joinRelInto dst a b = dst ++ joinRel a b.
Proof.
  intros Hr. pose proof (cut_last_spec rel) as Hc. unfold splitDirName, pathDir, baseName.
  destruct (cut_last rel) as [[d n]|]; [destruct Hc as [-> Hn]|]; (split_and!; [|done|done|]).
  - unfold joinRel. destruct d as [|c d]; [by vm_compute in Hr|]. rewrite decide_False by done.
    case_decide; subst; auto.
  - unfold joinRelInto, joinRel. repeat case_decide; subst; simpl; rewrite ?app_nil_r, <-?app_assoc;
      try done; tauto.
  - left. done.
  - unfold joinRelInto, joinRel. repeat case_decide; subst; simpl; rewrite ?app_nil_r, <-?app_assoc;
      try done; tauto.
Qed.

Lemma splitDirName_joinRel_witness : splitDirName (bs "a/b/c") = (pathDir (bs "a/b/c"), baseName (bs "a/b/c")).
Proof. apply (splitDirName_joinRel (bs "a/b/c") [] [] []). vm_compute. reflexivity. Defined.

(** ** Joined paths *)

Lemma cut_last_noslash n : noslash n → cut_last n = None.
Proof.
  unfold noslash. induction n as [|c n IH]; [done|]. rewrite not_elem_of_cons. intros [Hc Hn]. simpl. rewrite IH by done.
  by rewrite (proj2 (Z.eqb_neq c c_slash)).
Qed.

Lemma cut_last_app d n : noslash n → cut_last (d ++ c_slash :: n) = Some (d, n).
Proof. intros Hn. induction d as [|c d IH]; simpl; [by rewrite cut_last_noslash|]. by rewrite IH. Qed.

Lemma baseName_app d b : baseName (d ++ c_slash :: b) = baseName b.
Proof.
  unfold baseName. pose proof (cut_last_spec b) as Hb. destruct (cut_last b) as [[b1 b2]|].
  - destruct Hb as [-> Hn]. rewrite (app_assoc d (c_slash :: b1) (c_slash :: b2) : d ++ c_slash :: b1 ++ c_slash :: b2 = _). by rewrite cut_last_app.
  - by rewrite cut_last_app.
Qed.

Lemma joined_clean dir s : isClean (joined dir s) → isClean s.
Proof.
  unfold joined, isClean. case_bool_decide; [done|]. rewrite split_app_slash, Forall_app. intros [_ [_ Hs]]. split; [|done].
  intros ->. simpl in Hs. by apply Forall_cons in Hs as [[] _].
Qed.

Lemma splitDirName_joined d n : noslash n → splitDirName (joined d n) = (d, n).
Proof.
  intros Hn. unfold splitDirName, joined. case_bool_decide as Hd; [subst; by rewrite cut_last_noslash|by rewrite cut_last_app].
Qed.

Lemma isClean_parent p d n : isClean p → splitDirName p = (d, n) → (d = [] ∨ isClean d) ∧ clean_seg n ∧ noslash n ∧ p = joined d n.
Proof.
  intros [Hp Hc]. unfold splitDirName. pose proof (cut_last_spec p) as Hs. destruct (cut_last p) as [[d' n']|]; intros [= <- <-].
  - destruct Hs as [-> Hn]. rewrite split_app_slash, Forall_app, (split_noslash_id n') in Hc by done. destruct Hc as [Hd Hc].
    apply Forall_cons in Hc as [Hc _]. assert (Hne : d' ≠ []). { intros ->. simpl in Hd. apply Forall_cons in Hd as [[] _]. done. }
    unfold joined. rewrite bool_decide_eq_false_2 by done. split_and!; [by right|done..].
  - rewrite split_noslash_id in Hc by done. apply Forall_cons in Hc as [Hc _]. unfold joined. split_and!; [by left|done..].
Qed.

Lemma joined_isClean d n : d = [] ∨ isClean d → isClean n → isClean (joined d n).
Proof.
  intros Hd [Hn Hc]. unfold joined. case_bool_decide as He; [done|]. destruct Hd as [?|[_ Hd]]; [done|]. split; [by destruct d|].
  rewrite split_app_slash. by apply Forall_app.
Qed.

Lemma seg_isClean n : clean_seg n → noslash n → isClean n.
Proof. intros Hc Hn. split; [apply Hc|]. rewrite split_noslash_id by done. by constructor. Qed.

Lemma cleanRel_id d : d = [] ∨ isClean d → cleanRel d = Some d.
Proof.
  intros [->|[Hd Hc]]; [done|]. unfold cleanRel. rewrite decide_False.
  - rewrite pathIsClean_spec by done. by rewrite bool_decide_eq_true_2.
  - intros [?|He]; [done|]. rewrite He in Hc. simpl in Hc. by apply Forall_cons in Hc as [(_ & H & _) _].
Qed.

Lemma slow_segments segs acc : Forall clean_seg acc → Forall noslash acc → Forall noslash segs →
  Forall clean_seg (foldl slow_step acc segs) ∧ Forall noslash (foldl slow_step acc segs).
Proof.
  revert acc. induction segs as [|s segs IH]; intros acc Hc Hn Hs; [done|]. apply Forall_cons in Hs as [H1 Hs]. simpl.
  unfold slow_step at 2 4. destruct (decide (s = [] ∨ s = dot)) as [Ha|Ha]; [by apply IH|]. destruct (decide (s = dotdot)) as [Hb|Hb].
  - destruct acc as [|x acc _] using rev_ind; [by apply IH|]. rewrite removelast_snoc. apply Forall_app in Hc as [Hc _], Hn as [Hn _]. by apply IH.
  - apply IH; [apply Forall_app; split; [done|]; constructor; [|done]; unfold clean_seg; tauto|apply Forall_app; split; [done|]; by constructor|done].
Qed.

Lemma slow_isClean p : normalisePathSlow p = [] ∨ isClean (normalisePathSlow p).
Proof.
  unfold normalisePathSlow. destruct (slow_segments (split p) []) as [Hc Hn]; [constructor..|apply split_noslash|].
  destruct (decide (foldl slow_step [] (split p) = [])) as [->|Hne]; [by left|right]. split.
  - intros He. apply join_nil in He; [done|]. eapply Forall_impl; [exact Hc|]. intros s [H _]. done.
  - by rewrite split_join.
Qed.

Lemma slow_id p : isClean p → normalisePathSlow p = p.
Proof.
  intros [_ Hc]. unfold normalisePathSlow. rewrite <- (join_split p) at 2. f_equal.
  assert (∀ acc segs, Forall clean_seg segs → foldl slow_step acc segs = acc ++ segs) as ->; [|done|done].
  intros acc segs. revert acc. induction segs as [|s segs IH]; intros acc Hs; simpl; [by rewrite app_nil_r|].
  apply Forall_cons in Hs as [(H1 & H2 & H3) Hs]. unfold slow_step at 2. rewrite decide_False, decide_False by tauto.
  rewrite IH by done. by rewrite <- app_assoc.
Qed.

Lemma normalisePath_id p : isClean p → normalisePath p = Some p.
Proof.
  intros Hc. unfold normalisePath. destruct (_ && _); [done|]. destruct (normaliseAppend_spec [] 256 p) as (r & ok & -> & Hr). simpl.
  rewrite slow_id in * by done. destruct ok; [|done]. by destruct Hr as [-> _].
Qed.

Lemma joined_ne d n : d ≠ [] ∨ n ≠ [] → joined d n ≠ [].
Proof. unfold joined. case_bool_decide as Hd; [tauto|]. by destruct d. Qed.

Lemma joined_under d x n : x ≠ [] → joined d (x ++ c_slash :: n) = joined (joined d x) n.
Proof.
  intros Hx. unfold joined at 2. rewrite bool_decide_eq_false_2 by (apply joined_ne; by right). unfold joined.
  destruct (bool_decide (d = [])); [done|by rewrite <- app_assoc].
Qed.
