(* ===== verification/Cond.v ===== *)
(** * Conditions (yamake.go: IfCondCompiler, CondParser; macros.go: evalCond)

    IF conditions are compiled to an array of nodes in post-order, the root
    last, and evaluated over the array by index.  [cond] is the tree a node
    stands for, [enc] relates an array and an index to a tree; the evaluator is
    shown to compute the tree's value and the two compilers to build arrays that
    encode what their grammars say. *)

From S2P Require Import Prelude.
Local Open Scope Z_scope.

Abbreviation text := (list Z) (only parsing).

Inductive CondKind :=
| ckIdent | ckString | ckInt | ckNot | ckAnd | ckOr | ckEq | ckLt | ckStartsWith | ckMatches
| ckVersionCmp | ckDefined | ckUnsupportedOp | ckConfLt | ckConfEq | ckConfIdent | ckGt
| ckEndsWith | ckIsNum.

#[export] Instance CondKind_eq_dec : EqDecision CondKind.
Proof. solve_decision. Defined.

Record CondNode := mkNode {
  Kind : CondKind;
  Name : text;
  Env : Z;
  Ival : Z;
  L : Z;
  R : Z;
}.

(** The composite literals of the compilers. *)
Definition leaf (k : CondKind) (name : text) (env : Z) : CondNode := mkNode k name env 0 0 0.
Definition node1 (k : CondKind) (l : Z) : CondNode := mkNode k [] 0 0 l 0.
Definition node2 (k : CondKind) (l r : Z) : CondNode := mkNode k [] 0 0 l r.

(** ** The Go library *)

(** [strings.ToLower], on the bytes that matter for the words it is compared with. *)
Definition lower (c : Z) : Z := if (65 <=? c) && (c <=? 90) then c + 32 else c.

Definition is_digit (c : Z) : bool := (48 <=? c) && (c <=? 57).

Definition digits_value (s : text) : Z := foldl (λ n c, n * 10 + (c - 48)) 0 s.

(** [strconv.ParseUint(s, 10, bits)]: digits only, in range. *)
Definition ParseUint (bits : Z) (s : text) : option Z :=
  if decide (s ≠ []) then
    if forallb is_digit s then
      let n := digits_value s in if n <? 2 ^ bits then Some n else None
    else None
  else None.

(** [strconv.ParseInt(s, 10, 64)] and [strconv.Atoi]: an optional sign. *)
Definition ParseInt (s : text) : option Z :=
  let '(neg, digits) :=
    match s with
    | c :: r => if c =? 45 then (true, r) else if c =? 43 then (false, r) else (false, s)
    | [] => (false, [])
    end in
  if decide (digits ≠ []) then
    if forallb is_digit digits then
      let n := if (neg : bool) then - digits_value digits else digits_value digits in
      if (- 2 ^ 63 <=? n) && (n <? 2 ^ 63) then Some n else None
    else None
  else None.

(** [n = n*10 + int(value[i]-'0')] over a token of digits, at the width of [int]. *)
Definition s64 (x : Z) : Z := (x + 2 ^ 63) mod 2 ^ 64 - 2 ^ 63.
Definition digits_int (s : text) : Z := foldl (λ n c, s64 (n * 10 + u8 (c - 48))) 0 s.

(** [strings.HasPrefix], [HasSuffix], [Contains] and the order on strings. *)
Definition HasPrefix (s p : text) : bool := bool_decide (p `prefix_of` s).
Definition HasSuffix (s p : text) : bool := bool_decide (p `suffix_of` s).
Fixpoint Contains (s p : text) : bool :=
  HasPrefix s p || match s with [] => false | _ :: s => Contains s p end.
Fixpoint text_lt (a b : text) : bool :=
  match a, b with
  | _, [] => false
  | [], _ :: _ => true
  | x :: a, y :: b => (x <? y) || (x =? y) && text_lt a b
  end.

(** [slices.Compare] *)
Fixpoint compare (a b : list Z) : Z :=
  match a, b with
  | [], [] => 0
  | [], _ :: _ => -1
  | _ :: _, [] => 1
  | x :: a, y :: b => if x <? y then -1 else if y <? x then 1 else compare a b
  end.

(** ** Evaluation (macros.go) *)

Definition stringIsTruthy (v : text) : bool :=
  if decide (v = []) then false
  else negb (bool_decide (lower <$> v ∈
    [bs "false"; bs "f"; bs "no"; bs "n"; bs "off"; bs "0"; bs "net"])).

(** What conditions ask of the environment of variables (env.go) and of the
    expansion of make expressions (macro_string.go). *)
Class CondEnv (E : Type) := {
  env_bool : E → Z → bool;
  env_string : E → Z → text;
  env_has_binding : E → Z → bool;
  env_is_empty : E → Z → bool;
  evalIfExpr : text → E → text;
  commandOnlyVar : Z → bool;
}.

Definition ifInteger (value : text) : Z := default 0 (ParseInt value).

(** [strings.IndexAny(rest, ".-")]: the part before the separator, the rest after it. *)
Fixpoint cut_version (s : text) : text * option text :=
  match s with
  | [] => ([], None)
  | c :: s =>
      if (c =? 46) || (c =? 45) then ([], Some s)
      else let '(p, r) := cut_version s in (c :: p, r)
  end.

(** The loop of [ifVersion]; [n] parts are still wanted. *)
Fixpoint ifVersion_loop (n : nat) (rest : text) : res (list Z) :=
  match n with
  | O => Ok []
  | S n =>
      let '(part, more) := cut_version rest in
      match ParseUint 32 part with
      | None => Throw
      | Some v =>
          match more with
          | None => Ok [v]
          | Some rest => vs ← ifVersion_loop n rest; Ok (v :: vs)
          end
      end
  end.

Definition ifVersion (value : text) : res (list Z) := ifVersion_loop 3 value.

Definition version_holds (op : text) (cmp : Z) : bool :=
  if decide (op = bs "VERSION_LT") then cmp <? 0
  else if decide (op = bs "VERSION_LE") then cmp <=? 0
  else if decide (op = bs "VERSION_GT") then 0 <? cmp
  else 0 <=? cmp.

Definition yes_no (b : bool) : text := if b then bs "yes" else bs "no".

Definition confStringOperand (n : CondNode) : bool :=
  match Kind n with ckConfIdent | ckString => true | _ => false end.

(** Reading a node: an index outside the array is a run-time panic, which is
    not an exception the code raises on purpose but stops it all the same. *)
Definition node_at (nodes : list CondNode) (i : Z) : res CondNode :=
  match zget nodes i with Some n => Ok n | None => Throw end.

Section eval.
Context `{CondEnv E}.

Definition evalConfAtomString (nodes : list CondNode) (i : Z) (env : E) : res text :=
  n ← node_at nodes i;
  Ok (match Kind n with ckConfIdent => env_string env (Cond.Env n) | _ => Name n end).

(** [evalIfAtomString] and [confNumber]; [evalCondAt] is the function they call
    back with the same array. *)
Definition evalIfAtomString (evalCondAt : Z → res bool) (nodes : list CondNode) (i : Z) (env : E) : res text :=
  n ← node_at nodes i;
  match Kind n with
  | ckIdent => Ok (if commandOnlyVar (Cond.Env n) then [] else env_string env (Cond.Env n))
  | ckString => Ok (evalIfExpr (Name n) env)
  | _ => b ← evalCondAt i; Ok (yes_no b)
  end.

Definition confNumber (evalCondAt : Z → res bool) (nodes : list CondNode) (i : Z) (env : E) : res Z :=
  n ← node_at nodes i;
  match Kind n with
  | ckInt => Ok (Ival n)
  | ckConfIdent | ckString =>
      s ← evalConfAtomString nodes i env; Ok (if decide (s ≠ []) then 1 else 0)
  | _ => b ← evalCondAt i; Ok (if (b : bool) then 1 else 0)
  end.

Fixpoint evalCondAt (fuel : nat) (nodes : list CondNode) (i : Z) (env : E) : res bool :=
  match fuel with
  | O => NoFuel
  | S fuel =>
      let at_ := evalIfAtomString (λ j, evalCondAt fuel nodes j env) nodes in
      let num := confNumber (λ j, evalCondAt fuel nodes j env) nodes in
      n ← node_at nodes i;
      match Kind n with
      | ckIdent => Ok (negb (commandOnlyVar (Cond.Env n)) && env_bool env (Cond.Env n))
      | ckConfIdent => Ok (negb (env_is_empty env (Cond.Env n)))
      | ckNot => b ← evalCondAt fuel nodes (L n) env; Ok (negb b)
      | ckAnd =>
          b ← evalCondAt fuel nodes (L n) env;
          if (b : bool) then evalCondAt fuel nodes (R n) env else Ok false
      | ckOr =>
          b ← evalCondAt fuel nodes (L n) env;
          if (b : bool) then Ok true else evalCondAt fuel nodes (R n) env
      | ckString => Ok (stringIsTruthy (evalIfExpr (Name n) env))
      | ckEq =>
          l ← at_ (L n) env;
          r ← at_ (R n) env;
          Ok (bool_decide (l = r))
      | ckConfEq =>
          nl ← node_at nodes (L n);
          nr ← node_at nodes (R n);
          if confStringOperand nl && confStringOperand nr then
            l ← evalConfAtomString nodes (L n) env;
            r ← evalConfAtomString nodes (R n) env;
            Ok (bool_decide (l = r))
          else
            l ← num (L n) env;
            r ← num (R n) env;
            Ok (l =? r)
      | ckLt | ckGt =>
          l ← at_ (L n) env;
          r ← at_ (R n) env;
          Ok (if decide (Kind n = ckGt) then ifInteger r <? ifInteger l
              else ifInteger l <? ifInteger r)
      | ckConfLt =>
          nl ← node_at nodes (L n);
          nr ← node_at nodes (R n);
          if confStringOperand nl && confStringOperand nr then
            l ← evalConfAtomString nodes (L n) env;
            r ← evalConfAtomString nodes (R n) env;
            Ok (text_lt l r)
          else
            l ← num (L n) env;
            r ← num (R n) env;
            Ok (l <? r)
      | ckStartsWith =>
          l ← at_ (L n) env;
          r ← at_ (R n) env;
          Ok (HasPrefix l r)
      | ckEndsWith =>
          l ← at_ (L n) env;
          r ← at_ (R n) env;
          Ok (HasSuffix l r)
      | ckVersionCmp =>
          l ← at_ (L n) env;
          lv ← ifVersion l;
          r ← at_ (R n) env;
          rv ← ifVersion r;
          Ok (version_holds (Name n) (compare lv rv))
      | ckMatches =>
          l ← at_ (L n) env;
          r ← at_ (R n) env;
          Ok (Contains l r)
      | ckUnsupportedOp => Throw
      | ckDefined => Ok (env_has_binding env (Cond.Env n))
      | ckIsNum =>
          let operand := if env_has_binding env (Cond.Env n) then env_string env (Cond.Env n)
                         else evalIfExpr (Name n) env in
          Ok (bool_decide (is_Some (ParseInt operand)))
      | ckInt => Throw
      end
  end.

(** Every step goes to the same node or to an earlier one, so the number of
    nodes is fuel enough. *)
Definition evalCond (nodes : list CondNode) (env : E) : res bool :=
  evalCondAt (length nodes) nodes (Z.of_nat (length nodes) - 1) env.
End eval.

(** ** Trees *)

Inductive binop := OpAnd | OpOr | OpEq | OpLt | OpGt | OpStartsWith | OpEndsWith | OpMatches
  | OpVersion (op : text) | OpUnsupported (op : text) | OpConfEq | OpConfLt.

Inductive cond :=
| CIdent (name : text) (env : Z)
| CConfIdent (name : text) (env : Z)
| CString (name : text)
| CInt (name : text) (value : Z)
| CDefined (name : text) (env : Z)
| CIsNum (name : text) (env : Z)
| CNot (c : cond)
| CBin (op : binop) (l r : cond).

(** The value of a tree. *)
Section denote.
Context `{CondEnv E}.

Definition conf_operand (t : cond) (env : E) : option text :=
  match t with
  | CConfIdent _ e => Some (env_string env e)
  | CString s => Some s
  | _ => None
  end.

Section atoms.
Context (denote : cond → E → res bool).

(** A tree as an operand of a comparison: a string... *)
Definition denote_string (t : cond) (env : E) : res text :=
  match t with
  | CIdent _ e => Ok (if commandOnlyVar e then [] else env_string env e)
  | CString s => Ok (evalIfExpr s env)
  | _ => b ← denote t env; Ok (yes_no b)
  end.

(** ... or a number, in configuration files. *)
Definition denote_number (t : cond) (env : E) : res Z :=
  match t with
  | CInt _ v => Ok v
  | CConfIdent _ _ | CString _ =>
      Ok (if decide (default [] (conf_operand t env) ≠ []) then 1 else 0)
  | _ => b ← denote t env; Ok (if (b : bool) then 1 else 0)
  end.

Definition strings2 {A} (f : text → text → res A) (l r : cond) (env : E) : res A :=
  a ← denote_string l env; b ← denote_string r env; f a b.

Definition conf2 {A} (fs : text → text → A) (fn : Z → Z → A) (l r : cond) (env : E) : res A :=
  match conf_operand l env, conf_operand r env with
  | Some a, Some b => Ok (fs a b)
  | _, _ => a ← denote_number l env; b ← denote_number r env; Ok (fn a b)
  end.
End atoms.

Fixpoint denote (t : cond) (env : E) : res bool :=
  match t with
  | CIdent _ e => Ok (negb (commandOnlyVar e) && env_bool env e)
  | CConfIdent _ e => Ok (negb (env_is_empty env e))
  | CString s => Ok (stringIsTruthy (evalIfExpr s env))
  | CInt _ _ => Throw
  | CDefined _ e => Ok (env_has_binding env e)
  | CIsNum name e =>
      Ok (bool_decide (is_Some (ParseInt
        (if env_has_binding env e then env_string env e else evalIfExpr name env))))
  | CNot c => b ← denote c env; Ok (negb b)
  | CBin OpAnd l r => b ← denote l env; if (b : bool) then denote r env else Ok false
  | CBin OpOr l r => b ← denote l env; if (b : bool) then Ok true else denote r env
  | CBin OpEq l r => strings2 denote (λ a b, Ok (bool_decide (a = b))) l r env
  | CBin OpLt l r => strings2 denote (λ a b, Ok (ifInteger a <? ifInteger b)) l r env
  | CBin OpGt l r => strings2 denote (λ a b, Ok (ifInteger b <? ifInteger a)) l r env
  | CBin OpStartsWith l r => strings2 denote (λ a b, Ok (HasPrefix a b)) l r env
  | CBin OpEndsWith l r => strings2 denote (λ a b, Ok (HasSuffix a b)) l r env
  | CBin OpMatches l r => strings2 denote (λ a b, Ok (Contains a b)) l r env
  | CBin (OpVersion op) l r =>
      a ← denote_string denote l env; va ← ifVersion a;
      b ← denote_string denote r env; vb ← ifVersion b;
      Ok (version_holds op (compare va vb))
  | CBin (OpUnsupported _) _ _ => Throw
  | CBin OpConfEq l r => conf2 denote (λ a b, bool_decide (a = b)) Z.eqb l r env
  | CBin OpConfLt l r => conf2 denote text_lt Z.ltb l r env
  end.
End denote.

(** A tree's value needs no fuel. *)
Lemma ifVersion_fuel n s : ifVersion_loop n s ≠ NoFuel.
Proof.
  revert s. induction n as [|n IH]; intros s; simpl; [done|].
  destruct (cut_version s) as [p [r|]]; destruct (ParseUint 32 p); [|done..].
  specialize (IH r). by destruct (ifVersion_loop n r).
Qed.

Lemma denote_fuel `{CondEnv E} t (env : E) : denote t env ≠ NoFuel.
Proof.
  induction t as [| | | | | |c IH|op a IHa b IHb]; simpl; try done.
  { by destruct (denote c env). }
  assert (Hs : ∀ t, denote t env ≠ NoFuel → denote_string denote t env ≠ NoFuel).
  { intros t Ht. unfold denote_string. revert Ht. generalize (denote t env). by destruct t; intros []. }
  assert (Hn : ∀ t, denote t env ≠ NoFuel → denote_number denote t env ≠ NoFuel).
  { intros t Ht. unfold denote_number. revert Ht. generalize (denote t env). by destruct t; intros []. }
  pose proof (Hs a IHa) as Hsa. pose proof (Hs b IHb) as Hsb.
  pose proof (Hn a IHa) as Hna. pose proof (Hn b IHb) as Hnb. unfold strings2, conf2.
  destruct op; try done.
  1-2: destruct (denote a env) as [[]| |]; simpl; done.
  1-6: destruct (denote_string denote a env); simpl; try done;
       by destruct (denote_string denote b env).
  - destruct (denote_string denote a env) as [x| |]; cbn [mbind res_bind]; try done.
    pose proof (ifVersion_fuel 3 x : ifVersion x ≠ NoFuel) as Hx.
    destruct (ifVersion x); cbn [mbind res_bind]; try done.
    destruct (denote_string denote b env) as [y| |]; cbn [mbind res_bind]; try done.
    pose proof (ifVersion_fuel 3 y : ifVersion y ≠ NoFuel) as Hy. by destruct (ifVersion y).
  - destruct (conf_operand a env), (conf_operand b env); try done;
      destruct (denote_number denote a env); simpl; try done;
      by destruct (denote_number denote b env).
  - destruct (conf_operand a env), (conf_operand b env); try done;
      destruct (denote_number denote a env); simpl; try done;
      by destruct (denote_number denote b env).
Qed.

(** ** Arrays of nodes that stand for trees *)

Definition binop_kind (op : binop) : CondKind :=
  match op with
  | OpAnd => ckAnd | OpOr => ckOr | OpEq => ckEq | OpLt => ckLt | OpGt => ckGt
  | OpStartsWith => ckStartsWith | OpEndsWith => ckEndsWith | OpMatches => ckMatches
  | OpVersion _ => ckVersionCmp | OpUnsupported _ => ckUnsupportedOp
  | OpConfEq => ckConfEq | OpConfLt => ckConfLt
  end.

Definition binop_name (op : binop) : text :=
  match op with OpVersion s | OpUnsupported s => s | _ => [] end.

(** Node [i] of the array is the root of tree [t]; children lie before it. *)
Fixpoint enc (nodes : list CondNode) (i : Z) (t : cond) : Prop :=
  match t with
  | CIdent name e => zget nodes i = Some (leaf ckIdent name e)
  | CConfIdent name e => zget nodes i = Some (leaf ckConfIdent name e)
  | CString name => ∃ e, zget nodes i = Some (leaf ckString name e)
  | CInt name v => zget nodes i = Some (mkNode ckInt name 0 v 0 0)
  | CDefined name e => zget nodes i = Some (leaf ckDefined name e)
  | CIsNum name e => zget nodes i = Some (leaf ckIsNum name e)
  | CNot c => ∃ l, zget nodes i = Some (node1 ckNot l) ∧ l < i ∧ enc nodes l c
  | CBin op a b => ∃ l r,
      zget nodes i = Some (mkNode (binop_kind op) (binop_name op) 0 0 l r) ∧
      l < i ∧ r < i ∧ enc nodes l a ∧ enc nodes r b
  end.

Definition represents (nodes : list CondNode) (t : cond) : Prop :=
  enc nodes (Z.of_nat (length nodes) - 1) t.

Lemma enc_range nodes i t : enc nodes i t → 0 <= i < Z.of_nat (length nodes).
Proof.
  destruct t; simpl; [by intros ?%zget_Some_range|by intros ?%zget_Some_range|
    by intros [? ?%zget_Some_range]|by intros ?%zget_Some_range..|intros (? & ?%zget_Some_range & _)|
    intros (? & ? & ?%zget_Some_range & _)]; done.
Qed.

Lemma enc_app nodes more i t : enc nodes i t → enc (nodes ++ more) i t.
Proof.
  revert i. induction t; simpl; intros i Henc.
  3: destruct Henc as [e Henc]; exists e.
  1-6: rewrite zget_app_l; [done|by eapply zget_Some_range].
  - destruct Henc as (l & Hz & ? & ?). exists l. split_and!; auto.
    rewrite zget_app_l; [done|by eapply zget_Some_range].
  - destruct Henc as (l & r & Hz & ? & ? & ? & ?). exists l, r. split_and!; auto.
    rewrite zget_app_l; [done|by eapply zget_Some_range].
Qed.

(** ** The evaluator computes the tree's value *)

Section eval_ok.
Context `{CondEnv E}.

Lemma node_at_Some nodes i n : zget nodes i = Some n → node_at nodes i = Ok n.
Proof. intros Hn. unfold node_at. by rewrite Hn. Qed.

(** What the evaluator says about one tree, with any fuel above the bound. *)
Definition eval_ok (nodes : list CondNode) (env : E) (i : Z) (t : cond) : Prop :=
  ∀ fuel, i < Z.of_nat fuel → evalCondAt fuel nodes i env = denote t env.

Lemma eval_string nodes env i t (ev : Z → res bool) :
  enc nodes i t → ev i = denote t env →
  evalIfAtomString ev nodes i env = denote_string denote t env.
Proof.
  intros Henc Hok. unfold evalIfAtomString.
  destruct t as [| | | | | | |op]; simpl in Henc;
    [| |destruct Henc as [? Henc]|..|destruct Henc as (? & Henc & _)|
     destruct Henc as (? & ? & Henc & _)];
    rewrite (node_at_Some _ _ _ Henc); cbn [mbind res_bind Kind leaf node1]; rewrite ?Hok; try done.
  by destruct op.
Qed.

Lemma eval_number nodes env i t (ev : Z → res bool) :
  enc nodes i t → ev i = denote t env →
  confNumber ev nodes i env = denote_number denote t env.
Proof.
  intros Henc Hok. unfold confNumber, evalConfAtomString.
  destruct t as [| | | | | | |op]; simpl in Henc;
    [| |destruct Henc as [? Henc]|..|destruct Henc as (? & Henc & _)|
     destruct Henc as (? & ? & Henc & _)];
    rewrite ?(node_at_Some _ _ _ Henc); cbn [mbind res_bind Kind leaf node1]; rewrite ?Hok; try done.
  by destruct op.
Qed.

(** Reading an operand as a configuration string. *)
Lemma eval_conf_operand nodes env i t :
  enc nodes i t →
  ∃ n, node_at nodes i = Ok n ∧ confStringOperand n = bool_decide (is_Some (conf_operand t env)) ∧
    ∀ s, conf_operand t env = Some s → evalConfAtomString nodes i env = Ok s.
Proof.
  intros Henc. unfold evalConfAtomString.
  destruct t as [| | | | | | |op]; simpl in Henc;
    [| |destruct Henc as [? Henc]|..|destruct Henc as (? & Henc & _)|
     destruct Henc as (? & ? & Henc & _)];
    (eexists; split; [by apply node_at_Some|]); rewrite ?(node_at_Some _ _ _ Henc);
    simpl; try (split; [done|naive_solver]).
  by destruct op; split.
Qed.

Lemma evalCondAt_denote nodes env t i : enc nodes i t → eval_ok nodes env i t.
Proof.
  revert i. induction t as [| | | | | |c IH|op a IHa b IHb]; intros i Henc fuel Hf;
    (destruct fuel as [|fuel]; [pose proof (enc_range _ _ _ Henc); lia|]); cbn [evalCondAt];
    simpl in Henc.
  3: destruct Henc as [? Henc].
  1-6: rewrite (node_at_Some _ _ _ Henc); done.
  - destruct Henc as (l & Hn & Hl & Henc). rewrite (node_at_Some _ _ _ Hn). simpl.
    by rewrite (IH _ Henc) by lia.
  - destruct Henc as (l & r & Hn & Hl & Hr & Ha & Hb). rewrite (node_at_Some _ _ _ Hn).
    specialize (IHa _ Ha). specialize (IHb _ Hb).
    pose proof (enc_range _ _ _ Ha). pose proof (enc_range _ _ _ Hb).
    destruct (eval_conf_operand nodes env l a Ha) as (nl & Hnl & Hcl & Hsl).
    destruct (eval_conf_operand nodes env r b Hb) as (nr & Hnr & Hcr & Hsr).
    assert (Hl' : evalCondAt fuel nodes l env = denote a env) by (apply IHa; lia).
    assert (Hr' : evalCondAt fuel nodes r env = denote b env) by (apply IHb; lia).
    set (ev := λ j, evalCondAt fuel nodes j env) in *.
    pose proof (eval_string nodes env l a ev Ha Hl') as Hsa.
    pose proof (eval_string nodes env r b ev Hb Hr') as Hsb.
    pose proof (eval_number nodes env l a ev Ha Hl') as Hna.
    pose proof (eval_number nodes env r b ev Hb Hr') as Hnb.
    destruct op; cbn [mbind res_bind Kind Cond.L Cond.R binop_kind denote Name binop_name];
      unfold strings2; rewrite ?Hsa, ?Hsb, ?Hl', ?Hr'; try done.
    all: rewrite Hnl, Hnr; cbn [mbind res_bind]; rewrite Hcl, Hcr, Hna, Hnb; unfold conf2;
      destruct (conf_operand a env) as [sa|], (conf_operand b env) as [sb|]; simpl; try done;
      by rewrite (Hsl sa), (Hsr sb).
Qed.

Lemma evalCond_denote nodes t env : represents nodes t → evalCond nodes env = denote t env.
Proof.
  intros Hr. pose proof (enc_range _ _ _ Hr). apply (evalCondAt_denote _ _ _ _ Hr). lia.
Qed.
End eval_ok.

(** ** Building an array while reading words *)

(** The state of both compilers: the words or tokens still to read ([args[pos:]],
    [toks[pos:]]) and the nodes emitted so far. *)
Record builder (W : Type) := mkC { args : list W; nodes : list CondNode }.
Arguments mkC {W}. Arguments args {W}. Arguments nodes {W}.

Section builder.
Context {W : Type}.
Implicit Types (c : builder W) (ws : list W).

Definition emit c (n : CondNode) : builder W * Z :=
  (mkC (args c) (nodes c ++ [n]), Z.of_nat (length (nodes c))).

(** [c.pos++] *)
Definition skip c : builder W := mkC (tail (args c)) (nodes c).

(** [c'] is [c] after reading [ws], its last result being a node for [t]. *)
Definition yields c c' (i : Z) ws (t : cond) : Prop :=
  args c = ws ++ args c' ∧ (∃ more, nodes c' = nodes c ++ more) ∧
  i = Z.of_nat (length (nodes c')) - 1 ∧ enc (nodes c') i t.

Lemma zget_last {A} (l : list A) x : zget (l ++ [x]) (Z.of_nat (length l)) = Some x.
Proof. rewrite zget_app_r, Z.sub_diag by lia. done. Qed.

Lemma enc_last (nodes : list CondNode) op l r a b name :
  name = binop_name op → enc nodes l a → enc nodes r b →
  enc (nodes ++ [mkNode (binop_kind op) name 0 0 l r]) (Z.of_nat (length nodes)) (CBin op a b).
Proof.
  intros -> Ha Hb. pose proof (enc_range _ _ _ Ha). pose proof (enc_range _ _ _ Hb).
  exists l, r. split_and!; [apply zget_last|lia|lia|by apply enc_app|by apply enc_app].
Qed.

Lemma enc_not (nodes : list CondNode) l a :
  enc nodes l a → enc (nodes ++ [node1 ckNot l]) (Z.of_nat (length nodes)) (CNot a).
Proof.
  intros Ha. pose proof (enc_range _ _ _ Ha).
  exists l. split_and!; [apply zget_last|lia|by apply enc_app].
Qed.

(** An emitted node extends what was read so far. *)
Lemma yields_emit c c' i ws t n t' :
  yields c c' i ws t →
  enc (nodes c' ++ [n]) (Z.of_nat (length (nodes c'))) t' →
  yields c (emit c' n).1 (emit c' n).2 ws t'.
Proof.
  intros (Ha & [more Hm] & Hi & He) Henc. split_and!; simpl; [done| | |done].
  - exists (more ++ [n]). by rewrite Hm, app_assoc.
  - rewrite length_app. simpl. lia.
Qed.

Lemma yields_app c c1 c2 i j ws ws' t t' :
  yields c c1 i ws t → yields c1 c2 j ws' t' →
  yields c c2 j (ws ++ ws') t' ∧ enc (nodes c2) i t.
Proof.
  intros (Ha & [m Hm] & _ & He) (Ha' & [m' Hm'] & Hj & He'). split.
  - split_and!; [by rewrite Ha, Ha', app_assoc|exists (m ++ m'); by rewrite Hm', Hm, app_assoc|done|done].
  - rewrite Hm'. by apply enc_app.
Qed.

Lemma yields_shorter c c' i ws t : yields c c' i ws t → ws ≠ [] → (length (args c') < length (args c))%nat.
Proof. intros [-> _] ?. destruct ws; [done|]. rewrite length_app. simpl. lia. Qed.

Lemma skip_length c : (length (args (skip c)) <= length (args c))%nat.
Proof. unfold skip. simpl. destruct (args c); simpl; lia. Qed.

(** Reading with the rest of the words known: what completeness asks for. *)
Definition reads (r : res (builder W * Z)) c ws (rest : list W) (t : cond) : Prop :=
  ∃ c' i, r = Ok (c', i) ∧ args c' = rest ∧ yields c c' i ws t.

End builder.

(** ** IfCondCompiler: conditions given as a list of words *)

Module IfCond.

Definition kwAND : text := bs "AND".
Definition kwOR : text := bs "OR".
Definition kwNOT : text := bs "NOT".
Definition kwDEFINED : text := bs "DEFINED".
Definition kwISNUM : text := bs "ISNUM".

Definition condFalse : list CondNode := [leaf ckString (bs "no") 0].

Definition IfCondCompiler : Type := builder text.

Definition at_word (c : IfCondCompiler) (w : text) : bool :=
  match args c with x :: _ => bool_decide (x = w) | [] => false end.

Definition take1 (c : IfCondCompiler) : res (IfCondCompiler * text) :=
  match args c with
  | x :: r => Ok (mkC r (nodes c), x)
  | [] => Throw
  end.

Section compile.
Context (internEnvSTR : text → Z).

Definition varExpr (c : IfCondCompiler) (word : text) : IfCondCompiler * Z :=
  if HasPrefix word (bs "$") then emit c (leaf ckString word 0)
  else emit c (leaf ckIdent word (internEnvSTR word)).

Definition unaryExpr (c : IfCondCompiler) : res (IfCondCompiler * Z) :=
  '(c, word) ← take1 c;
  if decide (word = kwDEFINED) then
    '(c, name) ← take1 c; Ok (emit c (leaf ckDefined name (internEnvSTR name)))
  else if decide (word = kwISNUM) then
    '(c, name) ← take1 c; Ok (emit c (leaf ckIsNum name (internEnvSTR name)))
  else Ok (varExpr c word).

(** The [switch op] of [binaryExpr]. *)
Definition emit_op (c : IfCondCompiler) (op : text) (lhs rhs : Z) : IfCondCompiler * Z :=
  let not_of '((c, i) : IfCondCompiler * Z) := emit c (node1 ckNot i) in
  if decide (op = bs "==") then emit c (node2 ckEq lhs rhs)
  else if decide (op = bs "!=") then not_of (emit c (node2 ckEq lhs rhs))
  else if decide (op = bs "MATCHES") then emit c (node2 ckMatches lhs rhs)
  else if decide (op = bs "STARTS_WITH") then emit c (node2 ckStartsWith lhs rhs)
  else if decide (op = bs "ENDS_WITH") then emit c (node2 ckEndsWith lhs rhs)
  else if decide (op ∈ [bs "VERSION_GT"; bs "VERSION_GE"; bs "VERSION_LT"; bs "VERSION_LE"]) then
    emit c (mkNode ckVersionCmp op 0 0 lhs rhs)
  else if decide (op = bs ">") then emit c (node2 ckGt lhs rhs)
  else if decide (op = bs "<") then emit c (node2 ckLt lhs rhs)
  else if decide (op = bs ">=") then not_of (emit c (node2 ckLt lhs rhs))
  else if decide (op = bs "<=") then not_of (emit c (node2 ckGt lhs rhs))
  else emit c (mkNode ckUnsupportedOp op 0 0 lhs rhs).

Definition binaryExpr (c : IfCondCompiler) : res (IfCondCompiler * Z) :=
  '(c, lhs) ← unaryExpr c;
  if bool_decide (args c = []) || at_word c kwAND || at_word c kwOR then Ok (c, lhs)
  else
    '(c, op) ← take1 c;
    '(c, w) ← take1 c;
    let '(c, rhs) := emit c (leaf ckString w 0) in
    Ok (emit_op c op lhs rhs).

Fixpoint notExpr (fuel : nat) (c : IfCondCompiler) : res (IfCondCompiler * Z) :=
  match fuel with
  | O => NoFuel
  | S fuel =>
      if negb (at_word c kwNOT) then binaryExpr c
      else '(c, i) ← notExpr fuel (skip c); Ok (emit c (node1 ckNot i))
  end.

Fixpoint andExpr (fuel : nat) (c : IfCondCompiler) : res (IfCondCompiler * Z) :=
  match fuel with
  | O => NoFuel
  | S fuel =>
      '(c, lhs) ← notExpr (S (length (args c))) c;
      if negb (at_word c kwAND) then Ok (c, lhs)
      else '(c, rhs) ← andExpr fuel (skip c); Ok (emit c (node2 ckAnd lhs rhs))
  end.

Fixpoint orExpr (fuel : nat) (c : IfCondCompiler) : res (IfCondCompiler * Z) :=
  match fuel with
  | O => NoFuel
  | S fuel =>
      '(c, lhs) ← andExpr (S (length (args c))) c;
      if bool_decide (args c = []) then Ok (c, lhs)
      else if negb (at_word c kwOR) then Throw
      else '(c, rhs) ← orExpr fuel (skip c); Ok (emit c (node2 ckOr lhs rhs))
  end.

(** The words are compiled inside [try]: an exception makes the condition false. *)
Definition compileIfCond (words : list text) : res (list CondNode) :=
  if decide (words = []) then Ok condFalse
  else
    let c := mkC words [] in
    match (if decide (length words = 1%nat) then '(c, w) ← take1 c; Ok (varExpr c w)
           else orExpr (S (length words)) c) with
    | Ok (c, _) => Ok (nodes c)
    | Throw => Ok condFalse
    | NoFuel => NoFuel
    end.

(** ** The grammar *)

Definition var_tree (w : text) : cond :=
  if HasPrefix w (bs "$") then CString w else CIdent w (internEnvSTR w).

Definition op_tree (op : text) (l r : cond) : cond :=
  if decide (op = bs "==") then CBin OpEq l r
  else if decide (op = bs "!=") then CNot (CBin OpEq l r)
  else if decide (op = bs "MATCHES") then CBin OpMatches l r
  else if decide (op = bs "STARTS_WITH") then CBin OpStartsWith l r
  else if decide (op = bs "ENDS_WITH") then CBin OpEndsWith l r
  else if decide (op ∈ [bs "VERSION_GT"; bs "VERSION_GE"; bs "VERSION_LT"; bs "VERSION_LE"]) then
    CBin (OpVersion op) l r
  else if decide (op = bs ">") then CBin OpGt l r
  else if decide (op = bs "<") then CBin OpLt l r
  else if decide (op = bs ">=") then CNot (CBin OpLt l r)
  else if decide (op = bs "<=") then CNot (CBin OpGt l r)
  else CBin (OpUnsupported op) l r.

Inductive g_unary : list text → cond → Prop :=
| g_defined n : g_unary [kwDEFINED; n] (CDefined n (internEnvSTR n))
| g_isnum n : g_unary [kwISNUM; n] (CIsNum n (internEnvSTR n))
| g_var w : w ≠ kwDEFINED → w ≠ kwISNUM → g_unary [w] (var_tree w).

Inductive g_binary : list text → cond → Prop :=
| g_alone ws t : g_unary ws t → g_binary ws t
| g_op ws t op w : g_unary ws t → op ≠ kwAND → op ≠ kwOR →
    g_binary (ws ++ [op; w]) (op_tree op t (CString w)).

Inductive g_not : list text → cond → Prop :=
| g_plain ws t : g_binary ws t → head ws ≠ Some kwNOT → g_not ws t
| g_neg ws t : g_not ws t → g_not (kwNOT :: ws) (CNot t).

Inductive g_and : list text → cond → Prop :=
| g_and_one ws t : g_not ws t → g_and ws t
| g_and_more ws t ws' t' : g_not ws t → g_and ws' t' →
    g_and (ws ++ kwAND :: ws') (CBin OpAnd t t').

Inductive g_or : list text → cond → Prop :=
| g_or_one ws t : g_and ws t → g_or ws t
| g_or_more ws t ws' t' : g_and ws t → g_or ws' t' →
    g_or (ws ++ kwOR :: ws') (CBin OpOr t t').

(** ** The compiler follows the grammar *)

Lemma yields_skip c c1 i ws t w :
  at_word c w = true → yields (skip c) c1 i ws t → yields c c1 i (w :: ws) t.
Proof.
  unfold at_word. destruct c as [[|x a] ns]; simpl; [done|]. intros ->%bool_decide_eq_true.
  intros (Ha & Hm & Hi & He). simpl in *. split_and!; simpl; [by rewrite Ha|done|done|done].
Qed.

Lemma varExpr_yields c x a :
  args c = x :: a → x ≠ kwDEFINED → x ≠ kwISNUM →
  yields c (varExpr (mkC a (nodes c)) x).1 (varExpr (mkC a (nodes c)) x).2 [x] (var_tree x).
Proof.
  intros Ha Hx1 Hx2. unfold varExpr, var_tree.
  destruct (HasPrefix _ _); (split_and!; simpl; [done|by eexists|rewrite length_app; simpl; lia|]);
    [exists 0|]; apply zget_last.
Qed.
Lemma unaryExpr_complete c ws t rest :
  g_unary ws t → args c = ws ++ rest → reads (unaryExpr c) c ws rest t.
Proof.
  intros Hg Ha. unfold unaryExpr, take1. rewrite Ha. destruct Hg as [n|n|w H1 H2]; simpl.
  - do 2 eexists. split; [done|]. split; [done|].
    split_and!; simpl; [done|by eexists|rewrite length_app; simpl; lia|apply zget_last].
  - do 2 eexists. split; [done|]. split; [done|].
    split_and!; simpl; [done|by eexists|rewrite length_app; simpl; lia|apply zget_last].
  - rewrite !decide_False by done. do 2 eexists. split; [by rewrite <-surjective_pairing|].
    split; [|by apply varExpr_yields]. unfold varExpr. by destruct (HasPrefix _ _).
Qed.

Lemma unaryExpr_sound c c' i :
  unaryExpr c = Ok (c', i) → ∃ ws t, g_unary ws t ∧ yields c c' i ws t.
Proof.
  intros Hr. assert (∃ ws t rest, g_unary ws t ∧ args c = ws ++ rest) as (ws & t & rest & Hg & Ha).
  { unfold unaryExpr, take1 in Hr. destruct (args c) as [|x a]; [done|]. simpl in Hr.
    case_decide; [destruct a as [|n a]; [done|]; subst; exists [kwDEFINED; n], (CDefined n (internEnvSTR n)), a; split; [constructor|done]|].
    case_decide; [destruct a as [|n a]; [done|]; subst; exists [kwISNUM; n], (CIsNum n (internEnvSTR n)), a; split; [constructor|done]|].
    exists [x], (var_tree x), a. split; [by constructor|done]. }
  exists ws, t. split; [done|].
  destruct (unaryExpr_complete c ws t rest Hg Ha) as (c1 & i1 & Hr1 & _ & Hy). congruence.
Qed.

Lemma unaryExpr_fuel c : unaryExpr c ≠ NoFuel.
Proof.
  unfold unaryExpr, take1. destruct (args c) as [|x [|y a]]; simpl; repeat case_decide; done.
Qed.

(** The word [emit_op] ends with is the tree of the operator. *)
Lemma emit_op_yields c c1 i r ws t w op :
  yields c c1 i ws t → args c1 = op :: w :: r →
  let '(c2, rhs) := emit (mkC r (nodes c1)) (leaf ckString w 0) in
  let res := emit_op c2 op i rhs in
  args res.1 = r ∧ yields c res.1 res.2 (ws ++ [op; w]) (op_tree op t (CString w)).
Proof.
  intros (Ha & [m Hm] & Hi & He) Ha1. simpl.
  set (ns := nodes c1 ++ [leaf ckString w 0]). set (c2 := mkC r ns).
  assert (Hl : enc ns i t) by (by apply enc_app).
  assert (Hr : enc ns (Z.of_nat (length (nodes c1))) (CString w)) by (exists 0; apply zget_last).
  assert (Hy2 : yields c c2 (Z.of_nat (length (nodes c1))) (ws ++ [op; w]) (CString w)).
  { split_and!; simpl; [by rewrite Ha, Ha1, <-app_assoc|
      exists (m ++ [leaf ckString w 0]); unfold ns; by rewrite Hm, app_assoc|
      unfold ns; rewrite length_app; simpl; lia|done]. }
  assert (Hbin : ∀ o name, name = binop_name o →
    yields c (emit c2 (mkNode (binop_kind o) name 0 0 i (Z.of_nat (length (nodes c1))))).1
      (emit c2 (mkNode (binop_kind o) name 0 0 i (Z.of_nat (length (nodes c1))))).2
      (ws ++ [op; w]) (CBin o t (CString w))).
  { intros o name Hname. eapply yields_emit; [done|]. by apply enc_last. }
  assert (Hnot : ∀ o name, name = binop_name o →
    let e := emit c2 (mkNode (binop_kind o) name 0 0 i (Z.of_nat (length (nodes c1)))) in
    yields c (emit e.1 (node1 ckNot e.2)).1 (emit e.1 (node1 ckNot e.2)).2
      (ws ++ [op; w]) (CNot (CBin o t (CString w)))).
  { intros o name Hname e. eapply yields_emit; [by apply Hbin|]. apply enc_not.
    by apply (Hbin o name Hname). }
  unfold emit_op, op_tree.
  repeat case_decide; (split; [done|]).
  - by apply (Hbin OpEq).
  - by apply (Hnot OpEq []).
  - by apply (Hbin OpMatches).
  - by apply (Hbin OpStartsWith).
  - by apply (Hbin OpEndsWith).
  - by apply (Hbin (OpVersion op)).
  - by apply (Hbin OpGt).
  - by apply (Hbin OpLt).
  - by apply (Hnot OpLt []).
  - by apply (Hnot OpGt []).
  - by apply (Hbin (OpUnsupported op)).
Qed.

(** What may follow a comparison. *)
Definition stops (rest : list text) : Prop :=
  rest = [] ∨ head rest = Some kwAND ∨ head rest = Some kwOR.

Lemma stops_test c :
  bool_decide (args c = []) || at_word c kwAND || at_word c kwOR = bool_decide (stops (args c)).
Proof.
  apply eq_true_iff_eq. rewrite !orb_true_iff, !bool_decide_eq_true. unfold stops, at_word.
  destruct (args c) as [|x a]; [naive_solver|]. simpl. rewrite !bool_decide_eq_true. naive_solver.
Qed.

Lemma binaryExpr_complete c ws t rest :
  g_binary ws t → args c = ws ++ rest → stops rest → reads (binaryExpr c) c ws rest t.
Proof.
  intros Hg Ha Hstop. unfold binaryExpr. destruct Hg as [ws t Hg|ws t op w Hg H1 H2].
  - destruct (unaryExpr_complete c ws t rest Hg Ha) as (c1 & i & -> & Ha1 & Hy). simpl.
    rewrite stops_test, bool_decide_true by (by rewrite Ha1). by exists c1, i.
  - rewrite <-app_assoc in Ha.
    destruct (unaryExpr_complete c ws t ([op; w] ++ rest) Hg Ha) as (c1 & i & -> & Ha1 & Hy).
    cbn [mbind res_bind].
    rewrite stops_test, bool_decide_false by (rewrite Ha1; unfold stops; naive_solver).
    pose proof (emit_op_yields c c1 i rest ws t w op Hy Ha1) as Hop.
    unfold take1. rewrite Ha1. cbn [mbind res_bind app args nodes].
    destruct (emit _ _) as [c2 rhs]. destruct Hop as [Hargs Hyo].
    do 2 eexists. split; [by rewrite <-surjective_pairing|]. done.
Qed.

Lemma binaryExpr_sound c c' i :
  binaryExpr c = Ok (c', i) → ∃ ws t, g_binary ws t ∧ yields c c' i ws t.
Proof.
  unfold binaryExpr. intros Hr. destruct (unaryExpr c) as [[c1 i1]| |] eqn:Hu; [|done..].
  destruct (unaryExpr_sound _ _ _ Hu) as (ws & t & Hg & Hy). cbn [mbind res_bind] in Hr.
  rewrite stops_test in Hr. case_bool_decide as Hs.
  { simplify_eq. exists ws, t. split; [by constructor|done]. }
  unfold take1 in Hr. destruct (args c1) as [|op [|w r]] eqn:Ha1; [by destruct Hs; left|done|].
  pose proof (emit_op_yields c c1 i1 r ws t w op Hy Ha1) as Hop.
  cbn [mbind res_bind args nodes] in Hr. destruct (emit _ _) as [c2 rhs]. destruct Hop as [_ Hyo].
  injection Hr as Hr. rewrite Hr in Hyo. simpl in Hyo. exists (ws ++ [op; w]), (op_tree op t (CString w)).
  split; [|done]. constructor; [done|..]; unfold stops in Hs; simpl in Hs; naive_solver.
Qed.

Lemma binaryExpr_fuel c : binaryExpr c ≠ NoFuel.
Proof.
  unfold binaryExpr. pose proof (unaryExpr_fuel c). destruct (unaryExpr c) as [[c1 i]| |]; [|done..].
  cbn [mbind res_bind]. destruct (_ || _); [done|]. unfold take1.
  by destruct (args c1) as [|x [|y a]].
Qed.

Lemma head_app_cons {A} (ws rest : list A) : ws ≠ [] → head (ws ++ rest) = head ws.
Proof. by destruct ws. Qed.

Lemma g_unary_ne ws t : g_unary ws t → ws ≠ [].
Proof. by destruct 1. Qed.

Lemma g_binary_ne ws t : g_binary ws t → ws ≠ [].
Proof. destruct 1; [by eapply g_unary_ne|by destruct ws]. Qed.

Lemma at_word_head c w : at_word c w = bool_decide (head (args c) = Some w).
Proof.
  unfold at_word. destruct (args c) as [|x a]; [done|]. simpl. apply bool_decide_ext. naive_solver.
Qed.

Lemma notExpr_complete fuel c ws t rest :
  g_not ws t → args c = ws ++ rest → stops rest → (length ws < fuel)%nat →
  reads (notExpr fuel c) c ws rest t.
Proof.
  intros Hg. revert fuel c. induction Hg as [ws t Hg Hh|ws t Hg IH]; intros fuel c Ha Hs Hf;
    (destruct fuel as [|fuel]; [lia|]); cbn [notExpr]; rewrite at_word_head, Ha.
  - rewrite head_app_cons, bool_decide_false by (done || by eapply g_binary_ne).
    by apply binaryExpr_complete.
  - rewrite bool_decide_true by done. cbn [negb].
    destruct (IH fuel (skip c)) as (c1 & i & -> & Ha1 & Hy); [unfold skip; simpl; by rewrite Ha|done|simpl in Hf; lia|].
    cbn [mbind res_bind]. do 2 eexists. split; [by rewrite <-surjective_pairing|]. split; [done|].
    eapply yields_emit; [apply (yields_skip c c1 i ws t kwNOT); [|done]|].
    + by rewrite at_word_head, Ha, bool_decide_true.
    + apply enc_not. apply Hy.
Qed.

Lemma notExpr_sound fuel c c' i :
  notExpr fuel c = Ok (c', i) → ∃ ws t, g_not ws t ∧ yields c c' i ws t.
Proof.
  revert c c' i. induction fuel as [|fuel IH]; intros c c' i; [done|]. cbn [notExpr].
  rewrite at_word_head. case_bool_decide as Hh; cbn [negb]; intros Hr.
  - destruct (notExpr fuel (skip c)) as [[c1 j]| |] eqn:E; [|done..]. cbn [mbind res_bind] in Hr.
    destruct (IH _ _ _ E) as (ws & t & Hg & Hy). injection Hr as <- <-.
    exists (kwNOT :: ws), (CNot t). split; [by constructor|].
    assert (Hy' : yields c c1 j (kwNOT :: ws) t).
    { apply yields_skip; [|done]. by rewrite at_word_head, bool_decide_true. }
    pose proof (yields_emit _ _ _ _ _ (node1 ckNot j) (CNot t) Hy' (enc_not _ _ _ ltac:(apply Hy))) as Hye.
    exact Hye.
  - destruct (binaryExpr_sound _ _ _ Hr) as (ws & t & Hg & Hy). exists ws, t. split; [|done].
    constructor; [done|]. intros Hk. apply Hh. destruct Hy as [-> _].
    rewrite head_app_cons; [done|by eapply g_binary_ne].
Qed.

Lemma notExpr_fuel fuel c : (length (args c) < fuel)%nat → notExpr fuel c ≠ NoFuel.
Proof.
  revert c. induction fuel as [|fuel IH]; intros c Hf; [lia|]. cbn [notExpr].
  rewrite at_word_head. case_bool_decide as Hh; cbn [negb]; [|apply binaryExpr_fuel].
  assert (notExpr fuel (skip c) ≠ NoFuel).
  { apply IH. unfold skip. destruct c as [[|x a] ns]; simpl in *; [done|lia]. }
  by destruct (notExpr fuel (skip c)) as [[]| |].
Qed.

Lemma g_not_ne ws t : g_not ws t → ws ≠ [].
Proof. destruct 1; [by eapply g_binary_ne|done]. Qed.

(** What may follow a conjunction. *)
Definition stops_and (rest : list text) : Prop := rest = [] ∨ head rest = Some kwOR.

Lemma andExpr_complete fuel c ws t rest :
  g_and ws t → args c = ws ++ rest → stops_and rest → (length ws < fuel)%nat →
  reads (andExpr fuel c) c ws rest t.
Proof.
  intros Hg. revert fuel c. induction Hg as [ws t Hg|ws t ws' t' Hg Hg' IH];
    intros fuel c Ha Hs Hf; (destruct fuel as [|fuel]; [lia|]); cbn [andExpr].
  - destruct (notExpr_complete (S (length (args c))) c ws t rest) as (c1 & i & -> & Ha1 & Hy);
      [done..|unfold stops, stops_and in *; tauto|rewrite Ha, length_app; lia|].
    cbn [mbind res_bind]. rewrite at_word_head, Ha1, bool_decide_false by
      (destruct Hs as [->| ->]; by vm_compute). by exists c1, i.
  - rewrite <-app_assoc in Ha.
    destruct (notExpr_complete (S (length (args c))) c ws t ((kwAND :: ws') ++ rest))
      as (c1 & i & -> & Ha1 & Hy); [done..|by right; left|rewrite Ha, length_app; lia|].
    cbn [mbind res_bind]. rewrite at_word_head, Ha1, bool_decide_true by done. cbn [negb].
    rewrite length_app in Hf. simpl in Hf.
    destruct (IH fuel (skip c1)) as (c2 & j & -> & Ha2 & Hy2); [unfold skip; simpl; by rewrite Ha1|done|lia|].
    cbn [mbind res_bind]. do 2 eexists. split; [by rewrite <-surjective_pairing|]. split; [done|].
    assert (Hy2' : yields c1 c2 j (kwAND :: ws') t').
    { apply yields_skip; [|done]. by rewrite at_word_head, Ha1, bool_decide_true. }
    destruct (yields_app _ _ _ _ _ _ _ _ _ Hy Hy2') as [Hyy He].
    eapply yields_emit; [done|]. apply (enc_last _ OpAnd); [done|done|apply Hy2].
Qed.

Lemma andExpr_sound fuel c c' i :
  andExpr fuel c = Ok (c', i) → ∃ ws t, g_and ws t ∧ yields c c' i ws t.
Proof.
  revert c c' i. induction fuel as [|fuel IH]; intros c c' i; [done|]. cbn [andExpr].
  destruct (notExpr _ c) as [[c1 j]| |] eqn:E; [|done..]. cbn [mbind res_bind].
  destruct (notExpr_sound _ _ _ _ E) as (ws & t & Hg & Hy).
  destruct (at_word c1 kwAND) eqn:Hat; cbn [negb]; intros Hr.
  - destruct (andExpr fuel (skip c1)) as [[c2 k]| |] eqn:E2; [|done..]. cbn [mbind res_bind] in Hr.
    injection Hr as <- <-. destruct (IH _ _ _ E2) as (ws' & t' & Hg' & Hy2).
    exists (ws ++ kwAND :: ws'), (CBin OpAnd t t'). split; [by constructor|].
    destruct (yields_app _ _ _ _ _ _ _ _ _ Hy (yields_skip _ _ _ _ _ _ Hat Hy2)) as [Hyy He].
    pose proof (yields_emit _ _ _ _ _ (node2 ckAnd j k) (CBin OpAnd t t') Hyy
      (enc_last _ OpAnd _ _ _ _ _ eq_refl He ltac:(apply Hy2))) as Hye.
    exact Hye.
  - simplify_eq. exists ws, t. split; [by constructor|done].
Qed.

Lemma andExpr_fuel fuel c : (length (args c) < fuel)%nat → andExpr fuel c ≠ NoFuel.
Proof.
  revert c. induction fuel as [|fuel IH]; intros c Hf; [lia|]. cbn [andExpr].
  pose proof (notExpr_fuel (S (length (args c))) c ltac:(lia)) as Hn.
  destruct (notExpr _ c) as [[c1 j]| |] eqn:E; [|done..]. cbn [mbind res_bind].
  destruct (at_word c1 kwAND); [|done]. cbn [negb].
  destruct (notExpr_sound _ _ _ _ E) as (ws & t & Hg & Hy).
  pose proof (yields_shorter _ _ _ _ _ Hy (g_not_ne _ _ Hg)). pose proof (skip_length c1).
  specialize (IH (skip c1) ltac:(lia)). by destruct (andExpr fuel (skip c1)) as [[]| |].
Qed.

Lemma g_and_ne ws t : g_and ws t → ws ≠ [].
Proof. destruct 1; [by eapply g_not_ne|by destruct ws]. Qed.

Lemma orExpr_complete fuel c ws t :
  g_or ws t → args c = ws → (length ws < fuel)%nat → reads (orExpr fuel c) c ws [] t.
Proof.
  intros Hg. revert fuel c. induction Hg as [ws t Hg|ws t ws' t' Hg Hg' IH];
    intros fuel c Ha Hf; (destruct fuel as [|fuel]; [lia|]); cbn [orExpr].
  - destruct (andExpr_complete (S (length (args c))) c ws t []) as (c1 & i & -> & Ha1 & Hy);
      [done|by rewrite app_nil_r|by left|rewrite Ha; lia|].
    cbn [mbind res_bind]. rewrite bool_decide_true by done. by exists c1, i.
  - destruct (andExpr_complete (S (length (args c))) c ws t (kwOR :: ws'))
      as (c1 & i & -> & Ha1 & Hy); [done..|by right|rewrite Ha, length_app; lia|].
    cbn [mbind res_bind]. rewrite bool_decide_false by (by rewrite Ha1).
    rewrite at_word_head, Ha1, bool_decide_true by done. cbn [negb].
    rewrite length_app in Hf. simpl in Hf.
    destruct (IH fuel (skip c1)) as (c2 & j & -> & Ha2 & Hy2); [unfold skip; simpl; by rewrite Ha1|lia|].
    cbn [mbind res_bind]. do 2 eexists. split; [by rewrite <-surjective_pairing|]. split; [done|].
    assert (Hy2' : yields c1 c2 j (kwOR :: ws') t').
    { apply yields_skip; [|done]. by rewrite at_word_head, Ha1, bool_decide_true. }
    destruct (yields_app _ _ _ _ _ _ _ _ _ Hy Hy2') as [Hyy He].
    eapply yields_emit; [done|]. apply (enc_last _ OpOr); [done|done|apply Hy2].
Qed.

Lemma orExpr_sound fuel c c' i :
  orExpr fuel c = Ok (c', i) → ∃ ws t, g_or ws t ∧ yields c c' i ws t ∧ args c' = [].
Proof.
  revert c c' i. induction fuel as [|fuel IH]; intros c c' i; [done|]. cbn [orExpr].
  destruct (andExpr _ c) as [[c1 j]| |] eqn:E; [|done..]. cbn [mbind res_bind].
  destruct (andExpr_sound _ _ _ _ E) as (ws & t & Hg & Hy).
  case_bool_decide as Hnil; [intros; simplify_eq; exists ws, t; split; [by constructor|done]|].
  destruct (at_word c1 kwOR) eqn:Hat; cbn [negb]; intros Hr; [|done].
  destruct (orExpr fuel (skip c1)) as [[c2 k]| |] eqn:E2; [|done..]. cbn [mbind res_bind] in Hr.
  injection Hr as <- <-. destruct (IH _ _ _ E2) as (ws' & t' & Hg' & Hy2 & Hend).
  exists (ws ++ kwOR :: ws'), (CBin OpOr t t'). split; [by constructor|].
  destruct (yields_app _ _ _ _ _ _ _ _ _ Hy (yields_skip _ _ _ _ _ _ Hat Hy2)) as [Hyy He].
  pose proof (yields_emit _ _ _ _ _ (node2 ckOr j k) (CBin OpOr t t') Hyy
    (enc_last _ OpOr _ _ _ _ _ eq_refl He ltac:(apply Hy2))) as Hye.
  split; [exact Hye|done].
Qed.

Lemma orExpr_fuel fuel c : (length (args c) < fuel)%nat → orExpr fuel c ≠ NoFuel.
Proof.
  revert c. induction fuel as [|fuel IH]; intros c Hf; [lia|]. cbn [orExpr].
  pose proof (andExpr_fuel (S (length (args c))) c ltac:(lia)) as Hn.
  destruct (andExpr _ c) as [[c1 j]| |] eqn:E; [|done..]. cbn [mbind res_bind].
  case_bool_decide; [done|]. destruct (at_word c1 kwOR); [|done]. cbn [negb].
  destruct (andExpr_sound _ _ _ _ E) as (ws & t & Hg & Hy).
  pose proof (yields_shorter _ _ _ _ _ Hy (g_and_ne _ _ Hg)). pose proof (skip_length c1).
  specialize (IH (skip c1) ltac:(lia)). by destruct (orExpr fuel (skip c1)) as [[]| |].
Qed.

(** The language of conditions: a single word is a variable, whatever it is. *)
Definition parses (words : list text) (t : cond) : Prop :=
  match words with
  | [] => False
  | [w] => t = var_tree w
  | _ => g_or words t
  end.

Lemma compileIfCond_spec words :
  ∃ ns, compileIfCond words = Ok ns ∧
    (∀ t, parses words t → represents ns t) ∧
    ((∀ t, ¬ parses words t) → ns = condFalse) ∧ ∃ t, represents ns t.
Proof.
  assert (Hfalse : represents condFalse (CString (bs "no"))) by (by exists 0).
  unfold compileIfCond, take1. destruct words as [|w [|w' words]].
  { exists condFalse. split_and!; [done..|by eexists]. }
  { simpl. eexists. split; [by rewrite (surjective_pairing (varExpr _ _))|].
    assert (Hv : represents (nodes (varExpr (mkC [] []) w).1) (var_tree w)).
    { unfold varExpr, var_tree, represents. destruct (HasPrefix _ _); [by exists 0|done]. }
    split_and!; [by intros t ->|by intros Hno; destruct (Hno (var_tree w))|by eexists]. }
  rewrite !decide_False by (simpl; lia || done). set (ws := w :: w' :: words).
  pose proof (orExpr_fuel (S (length ws)) (mkC ws []) ltac:(simpl; lia)) as Hfuel.
  destruct (orExpr (S (length ws)) (mkC ws [])) as [[c i]| |] eqn:E; [| |done].
  - destruct (orExpr_sound _ _ _ _ E) as (ws0 & t & Hg & (Ha & _ & Hi & He) & Hend).
    rewrite Hend, app_nil_r in Ha. simpl in Ha. subst ws0.
    assert (Hcomp : ∀ t', g_or ws t' → represents (nodes c) t').
    { intros t' Hg'. destruct (orExpr_complete (S (length ws)) (mkC ws []) ws t' Hg' eq_refl)
        as (c1 & i1 & Hr1 & _ & (_ & _ & Hi1 & He1)); [lia|].
      rewrite E in Hr1. injection Hr1 as <- <-. unfold represents. by rewrite <-Hi1. }
    exists (nodes c). split_and!; [done|done|by intros Hno; destruct (Hno t)|exists t; by apply Hcomp].
  - exists condFalse. split_and!; [done| |done|by eexists]. intros t Hg. exfalso.
    destruct (orExpr_complete (S (length ws)) (mkC ws []) ws t Hg eq_refl) as (c1 & i1 & Hr1 & _); [lia|].
    congruence.
Qed.
End compile.

(** C10: compiling an IF condition always produces an array, evaluating it never
    runs out of steps, and the outcome is the one the grammar gives: words that
    form a condition are evaluated as its tree (NOT over a comparison, AND over
    OR, comparisons negated for "!=", ">=", "<="), words that do not are false. *)
Theorem compileIfCond_correct `{CondEnv E} (internEnvSTR : text → Z) (words : list text) (env : E) :
  ∃ ns, compileIfCond internEnvSTR words = Ok ns ∧
    evalCond ns env ≠ NoFuel ∧
    (∀ t, parses internEnvSTR words t → evalCond ns env = denote t env) ∧
    ((∀ t, ¬ parses internEnvSTR words t) → ns = condFalse).
Proof.
  destruct (compileIfCond_spec internEnvSTR words) as (ns & Hc & Hrep & Hno & t0 & Ht0).
  exists ns. split; [done|]. split; [|split; [|done]].
  - rewrite (evalCond_denote _ _ _ Ht0). apply denote_fuel.
  - intros t Ht. by apply evalCond_denote, Hrep.
Qed.
End IfCond.

(** ** CondParser: conditions of configuration files, given as tokens *)

Module CondParser.

Inductive Token :=
| tokIdent (s : text) | tokString (s : text) | tokWord (s : text) | tokInt (s : text)
| tokLParen | tokRParen
| tokEq | tokLt | tokLe | tokNotEq | tokGe | tokGt.

#[export] Instance Token_eq_dec : EqDecision Token.
Proof. solve_decision. Defined.

Definition kwOR : Token := tokIdent (bs "OR").
Definition kwAND : Token := tokIdent (bs "AND").
Definition kwNOT : Token := tokIdent (bs "NOT").

Definition CondParser : Type := builder Token.

Definition peek (c : CondParser) : option Token := head (args c).

Definition is_letter (b : Z) : bool := (97 <=? b) && (b <=? 122) || (65 <=? b) && (b <=? 90).

Fixpoint ident_tail (s : text) : bool :=
  match s with
  | [] => true
  | b :: s => (is_letter b || is_digit b || (b =? 95)) && ident_tail s
  end.

Definition isIdentShapedName (s : text) : bool :=
  match s with
  | [] => true
  | b :: s => (is_letter b || (b =? 95)) && ident_tail s
  end.

(** The node a comparison token builds from its operands. *)
Definition emit_cmp (c : CondParser) (t : Token) (lhs rhs : Z) : CondParser * Z :=
  let not_of '((c, i) : CondParser * Z) := emit c (node1 ckNot i) in
  match t with
  | tokEq => emit c (node2 ckEq lhs rhs)
  | tokLt => emit c (node2 ckLt lhs rhs)
  | tokNotEq => not_of (emit c (node2 ckEq lhs rhs))
  | tokGt => emit c (node2 ckGt lhs rhs)
  | tokLe => not_of (emit c (node2 ckGt lhs rhs))
  | _ => not_of (emit c (node2 ckLt lhs rhs))
  end.

Definition is_cmp (t : Token) : bool :=
  match t with tokEq | tokLt | tokLe | tokNotEq | tokGe | tokGt => true | _ => false end.

Definition rejectChainedCmp (c : CondParser) : res unit :=
  match peek c with Some t => if is_cmp t then Throw else Ok tt | None => Ok tt end.

Section parse.
Context (internEnvSTR : text → Z).

(** [inner] is [parseOr] for the text inside parentheses. *)
Section level.
Context (inner : CondParser → res (CondParser * Z)).

Definition parseAtom (c : CondParser) : res (CondParser * Z) :=
  match peek c with
  | None => Throw
  | Some tokLParen =>
      '(c, i) ← inner (skip c);
      match peek c with
      | Some tokRParen => Ok (skip c, i)
      | _ => Throw
      end
  | Some (tokString s) => Ok (emit (skip c) (leaf ckString s 0))
  | Some (tokInt s) => Ok (emit (skip c) (mkNode ckInt s 0 (digits_int s) 0 0))
  | Some (tokIdent s) => Ok (emit (skip c) (leaf ckIdent s (internEnvSTR s)))
  | Some (tokWord s) =>
      Ok (emit (skip c) (if isIdentShapedName s then leaf ckIdent s (internEnvSTR s)
                         else leaf ckString s 0))
  | Some _ => Throw
  end.

Definition parseCmp (c : CondParser) : res (CondParser * Z) :=
  '(c, lhs) ← parseAtom c;
  match peek c with
  | Some t =>
      if is_cmp t then
        '(c, rhs) ← parseAtom (skip c);
        _ ← rejectChainedCmp c;
        Ok (emit_cmp c t lhs rhs)
      else Ok (c, lhs)
  | None => Ok (c, lhs)
  end.

Fixpoint parseNot (fuel : nat) (c : CondParser) : res (CondParser * Z) :=
  match fuel with
  | O => NoFuel
  | S fuel =>
      if bool_decide (peek c = Some kwNOT) then
        '(c, i) ← parseNot fuel (skip c); Ok (emit c (node1 ckNot i))
      else parseCmp c
  end.

(** The loop of [parseAnd], [lhs] being the tree read so far. *)
Fixpoint and_loop (fuel : nat) (c : CondParser) (lhs : Z) : res (CondParser * Z) :=
  match fuel with
  | O => NoFuel
  | S fuel =>
      if bool_decide (peek c = Some kwAND) then
        '(c, rhs) ← parseNot (S (length (args c))) (skip c);
        let '(c, lhs) := emit c (node2 ckAnd lhs rhs) in and_loop fuel c lhs
      else Ok (c, lhs)
  end.

Definition parseAnd (c : CondParser) : res (CondParser * Z) :=
  '(c, lhs) ← parseNot (S (length (args c))) c;
  and_loop (S (length (args c))) c lhs.

Fixpoint or_loop (fuel : nat) (c : CondParser) (lhs : Z) : res (CondParser * Z) :=
  match fuel with
  | O => NoFuel
  | S fuel =>
      if bool_decide (peek c = Some kwOR) then
        '(c, rhs) ← parseAnd (skip c);
        let '(c, lhs) := emit c (node2 ckOr lhs rhs) in or_loop fuel c lhs
      else Ok (c, lhs)
  end.

Definition parseOr_body (c : CondParser) : res (CondParser * Z) :=
  '(c, lhs) ← parseAnd c;
  or_loop (S (length (args c))) c lhs.
End level.

(** The fuel counts nested parentheses. *)
Fixpoint parseOr (fuel : nat) (c : CondParser) : res (CondParser * Z) :=
  match fuel with
  | O => NoFuel
  | S fuel => parseOr_body (parseOr fuel) c
  end.

(** ** The grammar: left-associative OR over AND over NOT over comparisons *)

Inductive level := LOr | LAnd | LNot | LCmp | LAtom.

Definition atom_tree (t : Token) : option cond :=
  match t with
  | tokIdent s => Some (CIdent s (internEnvSTR s))
  | tokString s => Some (CString s)
  | tokInt s => Some (CInt s (digits_int s))
  | tokWord s => Some (if isIdentShapedName s then CIdent s (internEnvSTR s) else CString s)
  | _ => None
  end.

Definition cmp_tree (t : Token) (a b : cond) : cond :=
  match t with
  | tokEq => CBin OpEq a b
  | tokLt => CBin OpLt a b
  | tokNotEq => CNot (CBin OpEq a b)
  | tokGt => CBin OpGt a b
  | tokLe => CNot (CBin OpGt a b)
  | _ => CNot (CBin OpLt a b)
  end.

Inductive gram : level → list Token → cond → Prop :=
| gr_or1 ts a : gram LAnd ts a → gram LOr ts a
| gr_or ts a ts' b : gram LOr ts a → gram LAnd ts' b → gram LOr (ts ++ kwOR :: ts') (CBin OpOr a b)
| gr_and1 ts a : gram LNot ts a → gram LAnd ts a
| gr_and ts a ts' b : gram LAnd ts a → gram LNot ts' b → gram LAnd (ts ++ kwAND :: ts') (CBin OpAnd a b)
| gr_not1 ts a : gram LCmp ts a → head ts ≠ Some kwNOT → gram LNot ts a
| gr_not ts a : gram LNot ts a → gram LNot (kwNOT :: ts) (CNot a)
| gr_cmp1 ts a : gram LAtom ts a → gram LCmp ts a
| gr_cmp ts a t ts' b : is_cmp t = true → gram LAtom ts a → gram LAtom ts' b →
    gram LCmp (ts ++ t :: ts') (cmp_tree t a b)
| gr_atom t a : atom_tree t = Some a → gram LAtom [t] a
| gr_paren ts a : gram LOr ts a → gram LAtom (tokLParen :: ts ++ [tokRParen]) a.

(** The loops read a left-associative chain from the left. *)
Inductive chain (kw : Token) (op : binop) (l : level) : cond → list Token → cond → Prop :=
| ch_end a : chain kw op l a [] a
| ch_more a ts b ts' r : gram l ts b → chain kw op l (CBin op a b) ts' r →
    chain kw op l a (kw :: ts ++ ts') r.

Lemma chain_snoc kw op l a ts r ts' b :
  chain kw op l a ts r → gram l ts' b → chain kw op l a (ts ++ kw :: ts') (CBin op r b).
Proof.
  induction 1 as [a|a ts0 b0 ts1 r Hg Hc IH]; intros Hb; simpl.
  - rewrite <-(app_nil_r ts'). econstructor; [done|constructor].
  - rewrite <-app_assoc. econstructor; [done|]. by apply IH.
Qed.

Lemma gram_and_chain ts r :
  gram LAnd ts r → ∃ ts0 a ts1, ts = ts0 ++ ts1 ∧ gram LNot ts0 a ∧ chain kwAND OpAnd LNot a ts1 r.
Proof.
  remember LAnd as l eqn:Hl. induction 1 as [| |ts a Hg _|ts a ts' b Hg IH Hg' _| | | | | |]; try done.
  - exists ts, a, []. rewrite app_nil_r. split_and!; [done|done|constructor].
  - destruct (IH Hl) as (ts0 & a0 & ts1 & -> & H0 & Hc). exists ts0, a0, (ts1 ++ kwAND :: ts').
    rewrite app_assoc. split_and!; [done|done|by apply chain_snoc].
Qed.

Lemma gram_or_chain ts r :
  gram LOr ts r → ∃ ts0 a ts1, ts = ts0 ++ ts1 ∧ gram LAnd ts0 a ∧ chain kwOR OpOr LAnd a ts1 r.
Proof.
  remember LOr as l eqn:Hl. induction 1 as [ts a Hg _|ts a ts' b Hg IH Hg' _| | | | | | | |]; try done.
  - exists ts, a, []. rewrite app_nil_r. split_and!; [done|done|constructor].
  - destruct (IH Hl) as (ts0 & a0 & ts1 & -> & H0 & Hc). exists ts0, a0, (ts1 ++ kwOR :: ts').
    rewrite app_assoc. split_and!; [done|done|by apply chain_snoc].
Qed.

Lemma gram_ne l ts a : gram l ts a → ts ≠ [].
Proof. induction 1; try done; by destruct ts. Qed.

(** ** Soundness *)

(** What is read forms a phrase of the level. *)
Definition sound (l : level) (p : CondParser → res (CondParser * Z)) : Prop :=
  ∀ c c' i, p c = Ok (c', i) → ∃ ts a, gram l ts a ∧ yields c c' i ts a.

Lemma peek_args c t : peek c = Some t → args c = t :: args (skip c).
Proof. unfold peek, skip. destruct c as [[|x a] ns]; simpl; naive_solver. Qed.

Lemma yields_tok c c' i t ts a :
  peek c = Some t → yields (skip c) c' i ts a → yields c c' i (t :: ts) a.
Proof.
  intros Hp (Ha & Hm & Hi & He). split_and!; [|done..].
  by rewrite (peek_args c t Hp), Ha.
Qed.

(** One token, one leaf. *)
Lemma yields_leaf c t n a :
  peek c = Some t → enc (nodes c ++ [n]) (Z.of_nat (length (nodes c))) a →
  yields c (emit (skip c) n).1 (emit (skip c) n).2 [t] a.
Proof.
  intros Hp He. split_and!; simpl; [by apply peek_args|by eexists|rewrite length_app; simpl; lia|done].
Qed.

Lemma parseAtom_leaf inner c t a :
  peek c = Some t → atom_tree t = Some a →
  ∃ n, parseAtom inner c = Ok (emit (skip c) n) ∧
    enc (nodes c ++ [n]) (Z.of_nat (length (nodes c))) a.
Proof.
  intros Hp Ha. unfold parseAtom. rewrite Hp.
  destruct t; simpl in Ha; try done; simplify_eq; (eexists; split; [done|]);
    try apply zget_last; [exists 0; apply zget_last|].
  destruct (isIdentShapedName s); [|exists 0]; apply zget_last.
Qed.

Lemma parseAtom_sound inner : sound LOr inner → sound LAtom (parseAtom inner).
Proof.
  intros Hin c c' i Hr. destruct (peek c) as [t|] eqn:Hp; [|by unfold parseAtom in Hr; rewrite Hp in Hr].
  destruct (atom_tree t) as [a|] eqn:Ha.
  { destruct (parseAtom_leaf inner c t a Hp Ha) as (n & Hn & He). rewrite Hn in Hr.
    exists [t], a. split; [by constructor|]. pose proof (yields_leaf c t n a Hp He) as Hy.
    injection Hr as <- <-. exact Hy. }
  unfold parseAtom in Hr. rewrite Hp in Hr. destruct t; try done.
  destruct (inner (skip c)) as [[c1 j]| |] eqn:E; [|done..]. cbn [mbind res_bind] in Hr.
  destruct (peek c1) as [[]|] eqn:Hp1; try done. injection Hr as <- <-.
  destruct (Hin _ _ _ E) as (ts & a & Hg & Hy). exists (tokLParen :: ts ++ [tokRParen]), a.
  split; [by constructor|]. apply yields_tok; [done|]. destruct Hy as (Ha1 & Hm & Hi & He).
  split_and!; [|done..]. by rewrite Ha1, (peek_args c1 _ Hp1), <-app_assoc.
Qed.

Lemma emit_cmp_yields c c1 i ts a t c2 j ts' b :
  yields c c1 i ts a → peek c1 = Some t → is_cmp t = true → yields (skip c1) c2 j ts' b →
  yields c (emit_cmp c2 t i j).1 (emit_cmp c2 t i j).2 (ts ++ t :: ts') (cmp_tree t a b).
Proof.
  intros Hy Hp Hc Hy2. destruct (yields_app _ _ _ _ _ _ _ _ _ Hy (yields_tok _ _ _ _ _ _ Hp Hy2)) as [Hyy He].
  assert (Hb : enc (nodes c2) j b) by apply Hy2.
  assert (Hbin : ∀ o, binop_name o = [] → yields c (emit c2 (node2 (binop_kind o) i j)).1
    (emit c2 (node2 (binop_kind o) i j)).2 (ts ++ t :: ts') (CBin o a b)).
  { intros o Ho. eapply yields_emit; [done|]. by apply enc_last. }
  assert (Hnot : ∀ o, binop_name o = [] → let e := emit c2 (node2 (binop_kind o) i j) in
    yields c (emit e.1 (node1 ckNot e.2)).1 (emit e.1 (node1 ckNot e.2)).2
      (ts ++ t :: ts') (CNot (CBin o a b))).
  { intros o Ho e. eapply yields_emit; [by apply Hbin|]. apply enc_not. by apply (Hbin o Ho). }
  destruct t; try done; simpl.
  - by apply (Hbin OpEq).
  - by apply (Hbin OpLt).
  - by apply (Hnot OpGt).
  - by apply (Hnot OpEq).
  - by apply (Hnot OpLt).
  - by apply (Hbin OpGt).
Qed.

Lemma parseCmp_sound inner : sound LOr inner → sound LCmp (parseCmp inner).
Proof.
  intros Hin c c' i. unfold parseCmp.
  destruct (parseAtom inner c) as [[c1 j]| |] eqn:E; [|done..]. cbn [mbind res_bind].
  destruct (parseAtom_sound inner Hin _ _ _ E) as (ts & a & Hg & Hy).
  destruct (peek c1) as [t|] eqn:Hp; [destruct (is_cmp t) eqn:Hc|].
  - destruct (parseAtom inner (skip c1)) as [[c2 k]| |] eqn:E2; [|done..]. cbn [mbind res_bind].
    destruct (parseAtom_sound inner Hin _ _ _ E2) as (ts' & b & Hg' & Hy').
    destruct (rejectChainedCmp c2); [|done..]. cbn [mbind res_bind]. intros Hr. injection Hr as Hr.
    exists (ts ++ t :: ts'), (cmp_tree t a b). split; [by constructor|].
    pose proof (emit_cmp_yields _ _ _ _ _ _ _ _ _ _ Hy Hp Hc Hy') as Hyy. by rewrite Hr in Hyy.
  - intros; simplify_eq. exists ts, a. split; [by constructor|done].
  - intros; simplify_eq. exists ts, a. split; [by constructor|done].
Qed.

Lemma parseNot_sound inner fuel : sound LOr inner → sound LNot (parseNot inner fuel).
Proof.
  intros Hin. induction fuel as [|fuel IH]; intros c c' i; [done|]. cbn [parseNot].
  case_bool_decide as Hp.
  - destruct (parseNot inner fuel (skip c)) as [[c1 j]| |] eqn:E; [|done..]. cbn [mbind res_bind].
    destruct (IH _ _ _ E) as (ts & a & Hg & Hy). intros Hr. injection Hr as <- <-.
    exists (kwNOT :: ts), (CNot a). split; [by constructor|].
    apply (yields_emit c c1 j (kwNOT :: ts) a (node1 ckNot j)); [by apply yields_tok|].
    apply enc_not, Hy.
  - intros Hr. destruct (parseCmp_sound inner Hin _ _ _ Hr) as (ts & a & Hg & Hy).
    exists ts, a. split; [|done]. constructor; [done|]. intros Hh. apply Hp. unfold peek.
    destruct Hy as [-> _]. destruct ts; [by apply gram_ne in Hg|done].
Qed.

(** One turn of either loop. *)
Lemma loop_turn c c1 i ts a kw c2 j ts' b op :
  binop_name op = [] → yields c c1 i ts a → peek c1 = Some kw → yields (skip c1) c2 j ts' b →
  yields c (emit c2 (node2 (binop_kind op) i j)).1 (emit c2 (node2 (binop_kind op) i j)).2
    (ts ++ kw :: ts') (CBin op a b).
Proof.
  intros Hop Hy Hp Hy2.
  destruct (yields_app _ _ _ _ _ _ _ _ _ Hy (yields_tok _ _ _ _ _ _ Hp Hy2)) as [Hyy He].
  eapply yields_emit; [done|]. apply enc_last; [done|done|apply Hy2].
Qed.

Lemma parseAnd_sound inner : sound LOr inner → sound LAnd (parseAnd inner).
Proof.
  intros Hin c c' i. unfold parseAnd.
  destruct (parseNot inner _ c) as [[c1 j]| |] eqn:E; [|done..]. cbn [mbind res_bind].
  destruct (parseNot_sound inner _ Hin _ _ _ E) as (ts & a & Hg & Hy).
  apply gr_and1 in Hg. clear E. generalize (S (length (args c1))) as fuel. intros fuel.
  revert c1 j ts a Hg Hy. induction fuel as [|fuel IH]; intros c1 j ts a Hg Hy; [done|]. cbn [and_loop].
  case_bool_decide as Hp; [|intros; simplify_eq; by exists ts, a].
  destruct (parseNot inner _ (skip c1)) as [[c2 k]| |] eqn:E2; [|done..]. cbn [mbind res_bind].
  destruct (parseNot_sound inner _ Hin _ _ _ E2) as (ts' & b & Hg' & Hy').
  pose proof (loop_turn _ _ _ _ _ _ _ _ _ _ OpAnd eq_refl Hy Hp Hy') as Hyy.
  destruct (emit c2 _) as [c3 m]. apply IH with (ts := ts ++ kwAND :: ts') (a := CBin OpAnd a b);
    [by constructor|exact Hyy].
Qed.

Lemma parseOr_body_sound inner : sound LOr inner → sound LOr (parseOr_body inner).
Proof.
  intros Hin c c' i. unfold parseOr_body.
  destruct (parseAnd inner c) as [[c1 j]| |] eqn:E; [|done..]. cbn [mbind res_bind].
  destruct (parseAnd_sound inner Hin _ _ _ E) as (ts & a & Hg & Hy).
  apply gr_or1 in Hg. clear E. generalize (S (length (args c1))) as fuel. intros fuel.
  revert c1 j ts a Hg Hy. induction fuel as [|fuel IH]; intros c1 j ts a Hg Hy; [done|]. cbn [or_loop].
  case_bool_decide as Hp; [|intros; simplify_eq; by exists ts, a].
  destruct (parseAnd inner (skip c1)) as [[c2 k]| |] eqn:E2; [|done..]. cbn [mbind res_bind].
  destruct (parseAnd_sound inner Hin _ _ _ E2) as (ts' & b & Hg' & Hy').
  pose proof (loop_turn _ _ _ _ _ _ _ _ _ _ OpOr eq_refl Hy Hp Hy') as Hyy.
  destruct (emit c2 _) as [c3 m]. apply IH with (ts := ts ++ kwOR :: ts') (a := CBin OpOr a b);
    [by constructor|exact Hyy].
Qed.

Lemma parseOr_sound fuel : sound LOr (parseOr fuel).
Proof.
  induction fuel as [|fuel IH]; [by intros c c' i|]. exact (parseOr_body_sound _ IH).
Qed.

(** ** Completeness *)

(** What may follow a phrase of each level. *)
Definition after_or (rest : list Token) : Prop := rest = [] ∨ head rest = Some tokRParen.
Definition after_and (rest : list Token) : Prop := after_or rest ∨ head rest = Some kwOR.
Definition after_not (rest : list Token) : Prop := after_and rest ∨ head rest = Some kwAND.
Definition after_atom (rest : list Token) : Prop :=
  after_not rest ∨ ∃ t, head rest = Some t ∧ is_cmp t = true.

(** Phrases of the level shorter than [n] are read as such. *)
Definition complete (n : nat) (l : level) (follow : list Token → Prop)
    (p : CondParser → res (CondParser * Z)) : Prop :=
  ∀ c ts a rest, gram l ts a → args c = ts ++ rest → follow rest → (length ts < n)%nat →
    reads (p c) c ts rest a.

Lemma after_not_cmp rest t : after_not rest → head rest = Some t → is_cmp t = false.
Proof.
  unfold after_not, after_and, after_or. destruct rest as [|x rest]; [done|]. simpl.
  intros [[[?|?]|?]|?]; by intros; simplify_eq.
Qed.

Lemma peek_app c t ts rest : args c = t :: ts ++ rest → peek c = Some t ∧ args (skip c) = ts ++ rest.
Proof. intros Ha. unfold peek, skip. by rewrite Ha. Qed.

Lemma parseAtom_complete inner n :
  complete n LOr after_or inner → complete (S n) LAtom (λ _, True) (parseAtom inner).
Proof.
  intros Hin c ts a rest Hg Ha _ Hn.
  assert (Hcase : (∃ t, ts = [t] ∧ atom_tree t = Some a) ∨
    ∃ ts', ts = tokLParen :: ts' ++ [tokRParen] ∧ gram LOr ts' a).
  { inversion Hg; subst; eauto. }
  destruct Hcase as [(t & -> & Ht)|(ts' & -> & Hg')].
  - destruct (peek_app c t [] rest Ha) as [Hp Hs].
    destruct (parseAtom_leaf inner c t a Hp Ht) as (nd & Hr & He).
    do 2 eexists. split; [by rewrite Hr, <-surjective_pairing|]. split; [done|].
    by apply yields_leaf.
  - simpl in Ha. rewrite <-app_assoc in Ha. destruct (peek_app c _ _ _ Ha) as [Hp Hs].
    simpl in Hn. rewrite length_app in Hn. simpl in Hn.
    destruct (Hin (skip c) ts' a ([tokRParen] ++ rest)) as (c1 & i & Hr & Ha1 & Hy);
      [done|done|by right|lia|].
    destruct (peek_app c1 tokRParen [] rest Ha1) as [Hp1 Hs1].
    unfold parseAtom. rewrite Hp, Hr. cbn [mbind res_bind]. rewrite Hp1.
    do 2 eexists. split; [done|]. split; [done|]. apply yields_tok; [done|].
    destruct Hy as (Hb & Hm & Hi & He). split_and!; [|done..].
    by rewrite Hb, (peek_args c1 _ Hp1), <-app_assoc.
Qed.

Lemma parseCmp_complete inner n :
  complete n LOr after_or inner → complete (S n) LCmp after_not (parseCmp inner).
Proof.
  intros Hin c ts a rest Hg Ha Hf Hn. pose proof (parseAtom_complete inner n Hin) as Hat.
  assert (Hcase : gram LAtom ts a ∨ ∃ ts1 a1 t ts2 b, ts = ts1 ++ t :: ts2 ∧ a = cmp_tree t a1 b ∧
    is_cmp t = true ∧ gram LAtom ts1 a1 ∧ gram LAtom ts2 b).
  { inversion Hg; subst; [by left|right]. by do 5 eexists. }
  unfold parseCmp. destruct Hcase as [Hg'|(ts1 & a1 & t & ts2 & b & -> & -> & Ht & Hg1 & Hg2)].
  - destruct (Hat c ts a rest Hg' Ha I Hn) as (c1 & i & -> & Ha1 & Hy). cbn [mbind res_bind].
    unfold peek. rewrite Ha1. destruct (head rest) as [t|] eqn:Hh; [|by exists c1, i].
    rewrite (after_not_cmp rest t Hf Hh). by exists c1, i.
  - rewrite <-app_assoc in Ha. rewrite length_app in Hn. simpl in Hn.
    destruct (Hat c ts1 a1 ((t :: ts2) ++ rest) Hg1 Ha I) as (c1 & i & -> & Ha1 & Hy); [lia|].
    cbn [mbind res_bind]. destruct (peek_app c1 t ts2 rest Ha1) as [Hp Hs]. rewrite Hp, Ht.
    destruct (Hat (skip c1) ts2 b rest Hg2 Hs I) as (c2 & j & -> & Ha2 & Hy2); [lia|].
    cbn [mbind res_bind].
    assert (rejectChainedCmp c2 = Ok tt) as ->.
    { unfold rejectChainedCmp, peek. rewrite Ha2. destruct (head rest) as [t'|] eqn:Hh; [|done].
      by rewrite (after_not_cmp rest t' Hf Hh). }
    cbn [mbind res_bind]. do 2 eexists. split; [by rewrite <-surjective_pairing|].
    split; [by destruct t|]. by eapply emit_cmp_yields.
Qed.

Lemma parseNot_complete inner n fuel :
  complete n LOr after_or inner → complete (S n `min` fuel) LNot after_not (parseNot inner fuel).
Proof.
  intros Hin. induction fuel as [|fuel IH]; intros c ts a rest Hg Ha Hf Hn; [lia|]. cbn [parseNot].
  assert (Hcase : (gram LCmp ts a ∧ head ts ≠ Some kwNOT) ∨
    ∃ ts' b, ts = kwNOT :: ts' ∧ a = CNot b ∧ gram LNot ts' b).
  { inversion Hg; subst; [by left|right; eauto]. }
  destruct Hcase as [[Hg' Hh]|(ts' & b & -> & -> & Hg')].
  - rewrite bool_decide_false.
    { apply (parseCmp_complete inner n Hin); [done..|lia]. }
    unfold peek. rewrite Ha. destruct ts; [by apply gram_ne in Hg|done].
  - destruct (peek_app c kwNOT ts' rest Ha) as [Hp Hs]. rewrite bool_decide_true by done.
    simpl in Hn. destruct (IH (skip c) ts' b rest) as (c1 & i & -> & Ha1 & Hy); [done..|lia|].
    cbn [mbind res_bind]. do 2 eexists. split; [by rewrite <-surjective_pairing|]. split; [done|].
    eapply (yields_emit c c1 i (kwNOT :: ts') b); [by apply yields_tok|]. apply enc_not, Hy.
Qed.

Lemma parseNot_complete_len inner n c ts a rest :
  complete n LOr after_or inner → gram LNot ts a → args c = ts ++ rest → after_not rest →
  (length ts <= n)%nat → ∀ k, (length ts < k)%nat → reads (parseNot inner k c) c ts rest a.
Proof. intros Hin Hg Ha Hf Hn k Hk. apply (parseNot_complete inner n k Hin); [done..|lia]. Qed.

Lemma and_loop_complete inner n fuel c0 c i ts0 a ts r rest :
  complete n LOr after_or inner → chain kwAND OpAnd LNot a ts r →
  yields c0 c i ts0 a → args c = ts ++ rest → after_and rest →
  (length ts <= n)%nat → (length ts < fuel)%nat →
  reads (and_loop inner fuel c i) c0 (ts0 ++ ts) rest r.
Proof.
  intros Hin Hc. revert fuel c i ts0. induction Hc as [a|a ts b ts' r Hg Hc IH];
    intros fuel c i ts0 Hy Ha Hf Hn Hk; (destruct fuel as [|fuel]; [lia|]); cbn [and_loop].
  - rewrite bool_decide_false; [by exists c, i; rewrite app_nil_r|]. unfold peek. rewrite Ha.
    destruct Hf as [[->|Hh]|Hh]; [done|by simpl; rewrite Hh|by simpl; rewrite Hh].
  - simpl in Ha. rewrite <-app_assoc in Ha. destruct (peek_app c _ _ _ Ha) as [Hp Hs].
    rewrite bool_decide_true by done. simpl in Hn, Hk. rewrite length_app in Hn, Hk.
    destruct (parseNot_complete_len inner n (skip c) ts b (ts' ++ rest) Hin Hg Hs) with (k := S (length (args c)))
      as (c1 & j & -> & Ha1 & Hy1); [|lia|rewrite Ha; simpl; rewrite length_app; lia|].
    { inversion Hc; subst; [by left|by right]. }
    cbn [mbind res_bind]. pose proof (loop_turn _ _ _ _ _ _ _ _ _ _ OpAnd eq_refl Hy Hp Hy1) as Hyy.
    simpl in Hyy |- *. rewrite app_comm_cons, app_assoc.
    apply (IH fuel _ _ (ts0 ++ kwAND :: ts)); [exact Hyy|done|done|lia|lia].
Qed.

Lemma parseAnd_complete inner n :
  complete n LOr after_or inner → complete (S n) LAnd after_and (parseAnd inner).
Proof.
  intros Hin c ts a rest Hg Ha Hf Hn. unfold parseAnd.
  destruct (gram_and_chain ts a Hg) as (ts0 & a0 & ts1 & -> & Hg0 & Hc).
  rewrite <-app_assoc in Ha. rewrite length_app in Hn.
  destruct (parseNot_complete_len inner n c ts0 a0 (ts1 ++ rest) Hin Hg0 Ha) with (k := S (length (args c)))
    as (c1 & j & -> & Ha1 & Hy1); [|lia|rewrite Ha, length_app; lia|].
  { inversion Hc; subst; [by left|by right]. }
  cbn [mbind res_bind]. eapply and_loop_complete; [done..|lia|rewrite Ha1, length_app; lia].
Qed.

Lemma or_loop_complete inner n fuel c0 c i ts0 a ts r rest :
  complete n LOr after_or inner → chain kwOR OpOr LAnd a ts r →
  yields c0 c i ts0 a → args c = ts ++ rest → after_or rest →
  (length ts <= n)%nat → (length ts < fuel)%nat →
  reads (or_loop inner fuel c i) c0 (ts0 ++ ts) rest r.
Proof.
  intros Hin Hc. revert fuel c i ts0. induction Hc as [a|a ts b ts' r Hg Hc IH];
    intros fuel c i ts0 Hy Ha Hf Hn Hk; (destruct fuel as [|fuel]; [lia|]); cbn [or_loop].
  - rewrite bool_decide_false; [by exists c, i; rewrite app_nil_r|]. unfold peek. rewrite Ha.
    destruct Hf as [->|Hh]; [done|by simpl; rewrite Hh].
  - simpl in Ha. rewrite <-app_assoc in Ha. destruct (peek_app c _ _ _ Ha) as [Hp Hs].
    rewrite bool_decide_true by done. simpl in Hn, Hk. rewrite length_app in Hn, Hk.
    destruct (parseAnd_complete inner n Hin (skip c) ts b (ts' ++ rest) Hg Hs)
      as (c1 & j & -> & Ha1 & Hy1); [|lia|].
    { inversion Hc; subst; [by left|by right]. }
    cbn [mbind res_bind]. pose proof (loop_turn _ _ _ _ _ _ _ _ _ _ OpOr eq_refl Hy Hp Hy1) as Hyy.
    simpl in Hyy |- *. rewrite app_comm_cons, app_assoc.
    apply (IH fuel _ _ (ts0 ++ kwOR :: ts)); [exact Hyy|done|done|lia|lia].
Qed.

Lemma parseOr_complete fuel : complete fuel LOr after_or (parseOr fuel).
Proof.
  induction fuel as [|fuel IH]; intros c ts a rest Hg Ha Hf Hn; [lia|].
  cbn [parseOr]. unfold parseOr_body.
  destruct (gram_or_chain ts a Hg) as (ts0 & a0 & ts1 & -> & Hg0 & Hc).
  rewrite <-app_assoc in Ha. rewrite length_app in Hn.
  destruct (parseAnd_complete _ fuel IH c ts0 a0 (ts1 ++ rest) Hg0 Ha) as (c1 & j & -> & Ha1 & Hy1);
    [|lia|].
  { inversion Hc; subst; [by left|by right]. }
  cbn [mbind res_bind]. eapply or_loop_complete; [done..|lia|rewrite Ha1, length_app; lia].
Qed.

(** ** Fuel *)

(** On inputs of at most [n] tokens the parser does not run out of fuel. *)
Definition fuelled (n : nat) (p : CondParser → res (CondParser * Z)) : Prop :=
  ∀ c, (length (args c) <= n)%nat → p c ≠ NoFuel.

Lemma skip_shorter c t : peek c = Some t → (length (args (skip c)) < length (args c))%nat.
Proof. intros Hp. rewrite (peek_args c t Hp). simpl. lia. Qed.

Lemma parseAtom_fuel inner n : fuelled n inner → fuelled (S n) (parseAtom inner).
Proof.
  intros Hin c Hn. unfold parseAtom. destruct (peek c) as [t|] eqn:Hp; [|done].
  pose proof (skip_shorter c t Hp). destruct t; try done.
  specialize (Hin (skip c) ltac:(lia)). destruct (inner (skip c)) as [[c1 j]| |]; [|done..].
  cbn [mbind res_bind]. by destruct (peek c1) as [[]|].
Qed.

Lemma parseCmp_fuel inner n : sound LOr inner → fuelled n inner → fuelled (S n) (parseCmp inner).
Proof.
  intros Hs Hin c Hn. unfold parseCmp. pose proof (parseAtom_fuel inner n Hin) as Hat.
  pose proof (Hat c Hn). destruct (parseAtom inner c) as [[c1 j]| |] eqn:E; [|done..]. cbn [mbind res_bind].
  destruct (parseAtom_sound inner Hs _ _ _ E) as (ts & a & Hg & Hy).
  pose proof (yields_shorter _ _ _ _ _ Hy (gram_ne _ _ _ Hg)).
  destruct (peek c1) as [t|] eqn:Hp; [|done]. destruct (is_cmp t); [|done].
  pose proof (skip_shorter c1 t Hp). specialize (Hat (skip c1) ltac:(lia)).
  destruct (parseAtom inner (skip c1)) as [[c2 k]| |]; [|done..]. cbn [mbind res_bind].
  unfold rejectChainedCmp. by destruct (peek c2) as [t'|]; [destruct (is_cmp t')|].
Qed.

Lemma parseNot_fuel inner n fuel :
  sound LOr inner → fuelled n inner →
  ∀ c, (length (args c) <= S n)%nat → (length (args c) < fuel)%nat → parseNot inner fuel c ≠ NoFuel.
Proof.
  intros Hs Hin. induction fuel as [|fuel IH]; intros c Hn Hf; [lia|]. cbn [parseNot].
  case_bool_decide as Hp; [|by apply (parseCmp_fuel inner n)].
  pose proof (skip_shorter c _ Hp). specialize (IH (skip c) ltac:(lia) ltac:(lia)).
  by destruct (parseNot inner fuel (skip c)) as [[]| |].
Qed.

Lemma and_loop_fuel inner n fuel :
  sound LOr inner → fuelled n inner →
  ∀ c i, (length (args c) <= S n)%nat → (length (args c) < fuel)%nat → and_loop inner fuel c i ≠ NoFuel.
Proof.
  intros Hs Hin. induction fuel as [|fuel IH]; intros c i Hn Hf; [lia|]. cbn [and_loop].
  case_bool_decide as Hp; [|done]. pose proof (skip_shorter c _ Hp).
  pose proof (parseNot_fuel inner n (S (length (args c))) Hs Hin (skip c) ltac:(lia) ltac:(lia)) as Hnf.
  destruct (parseNot inner _ (skip c)) as [[c1 j]| |] eqn:E; [|done..]. cbn [mbind res_bind].
  destruct (parseNot_sound inner _ Hs _ _ _ E) as (ts & a & Hg & Hy).
  pose proof (yields_shorter _ _ _ _ _ Hy (gram_ne _ _ _ Hg)). simpl. apply IH; simpl; lia.
Qed.

Lemma parseAnd_fuel inner n : sound LOr inner → fuelled n inner → fuelled (S n) (parseAnd inner).
Proof.
  intros Hs Hin c Hn. unfold parseAnd.
  pose proof (parseNot_fuel inner n (S (length (args c))) Hs Hin c Hn ltac:(lia)) as Hnf.
  destruct (parseNot inner _ c) as [[c1 j]| |] eqn:E; [|done..]. cbn [mbind res_bind].
  destruct (parseNot_sound inner _ Hs _ _ _ E) as (ts & a & Hg & Hy).
  pose proof (yields_shorter _ _ _ _ _ Hy (gram_ne _ _ _ Hg)).
  apply (and_loop_fuel inner n); [done..|lia|lia].
Qed.

Lemma or_loop_fuel inner n fuel :
  sound LOr inner → fuelled n inner →
  ∀ c i, (length (args c) <= S n)%nat → (length (args c) < fuel)%nat → or_loop inner fuel c i ≠ NoFuel.
Proof.
  intros Hs Hin. induction fuel as [|fuel IH]; intros c i Hn Hf; [lia|]. cbn [or_loop].
  case_bool_decide as Hp; [|done]. pose proof (skip_shorter c _ Hp).
  pose proof (parseAnd_fuel inner n Hs Hin (skip c) ltac:(lia)) as Hnf.
  destruct (parseAnd inner (skip c)) as [[c1 j]| |] eqn:E; [|done..]. cbn [mbind res_bind].
  destruct (parseAnd_sound inner Hs _ _ _ E) as (ts & a & Hg & Hy).
  pose proof (yields_shorter _ _ _ _ _ Hy (gram_ne _ _ _ Hg)). simpl. apply IH; simpl; lia.
Qed.

Lemma parseOr_fuel fuel : fuelled fuel (parseOr (S fuel)).
Proof.
  induction fuel as [|fuel IH]; intros c Hn; cbn [parseOr]; unfold parseOr_body.
  - assert (args c = []) as Ha by (by apply nil_length_inv; lia).
    unfold parseAnd. rewrite Ha. cbn [length parseNot]. unfold parseCmp, parseAtom, peek.
    by rewrite Ha.
  - pose proof (parseAnd_fuel _ fuel (parseOr_sound (S fuel)) IH c Hn) as Hnf.
    destruct (parseAnd _ c) as [[c1 j]| |] eqn:E; [|done..]. cbn [mbind res_bind].
    destruct (parseAnd_sound _ (parseOr_sound (S fuel)) _ _ _ E) as (ts & a & Hg & Hy).
    pose proof (yields_shorter _ _ _ _ _ Hy (gram_ne _ _ _ Hg)).
    apply (or_loop_fuel _ fuel); [exact (parseOr_sound (S fuel))|exact IH|lia|lia].
Qed.

(** ** parseCondition (conf.go) *)

(** [cp.parseOr()] and the check that all tokens were read. *)
Definition parseTokens (toks : list Token) : res (list CondNode) :=
  '(c, _) ← parseOr (S (length toks)) (mkC toks []);
  if decide (args c = []) then Ok (nodes c) else Throw.

(** [strings.CutPrefix(name, "$")] *)
Definition cut_dollar (name : text) : option text :=
  match name with c :: r => if c =? 36 then Some r else None | [] => None end.

(** The rewriting of the nodes for configuration files. *)
Definition conf_node (n : CondNode) : res CondNode :=
  match Kind n with
  | ckIdent =>
      match cut_dollar (Name n) with
      | Some name => Ok (mkNode ckConfIdent name (internEnvSTR name) (Ival n) (Cond.L n) (Cond.R n))
      | None =>
          if decide (Name n = bs "yes" ∨ Name n = bs "no")
          then Ok (mkNode ckString (Name n) (Cond.Env n) (Ival n) (Cond.L n) (Cond.R n))
          else Throw
      end
  | ckEq => Ok (mkNode ckConfEq (Name n) (Cond.Env n) (Ival n) (Cond.L n) (Cond.R n))
  | ckGt => Ok (mkNode ckConfLt (Name n) (Cond.Env n) (Ival n) (Cond.R n) (Cond.L n))
  | ckLt => Ok (mkNode ckConfLt (Name n) (Cond.Env n) (Ival n) (Cond.L n) (Cond.R n))
  | _ => Ok n
  end.

Fixpoint confNodes (ns : list CondNode) : res (list CondNode) :=
  match ns with
  | [] => Ok []
  | n :: ns => n' ← conf_node n; ns' ← confNodes ns; Ok (n' :: ns')
  end.

(** The loop that marks [$NAME] words as identifiers. *)
Definition mark_ref (t : Token) : Token :=
  match t with
  | tokWord s =>
      match cut_dollar s with
      | Some name => if isIdentShapedName name then tokIdent s else t
      | None => t
      end
  | _ => t
  end.

Definition parseCondition (toks : list Token) : res (list CondNode) :=
  ns ← parseTokens (mark_ref <$> toks);
  confNodes ns.

(** The same rewriting on trees. *)
Fixpoint conf_tree (t : cond) : cond :=
  match t with
  | CIdent name e =>
      match cut_dollar name with
      | Some name => CConfIdent name (internEnvSTR name)
      | None => CString name
      end
  | CNot c => CNot (conf_tree c)
  | CBin OpEq a b => CBin OpConfEq (conf_tree a) (conf_tree b)
  | CBin OpLt a b => CBin OpConfLt (conf_tree a) (conf_tree b)
  | CBin OpGt a b => CBin OpConfLt (conf_tree b) (conf_tree a)
  | CBin op a b => CBin op (conf_tree a) (conf_tree b)
  | _ => t
  end.

Lemma confNodes_lookup ns ns' (i : Z) n :
  confNodes ns = Ok ns' → zget ns i = Some n →
  length ns' = length ns ∧ ∃ n', conf_node n = Ok n' ∧ zget ns' i = Some n'.
Proof.
  revert ns' i. induction ns as [|m ns IH]; intros ns' i; simpl; [by rewrite zget_nil|].
  destruct (conf_node m) as [m'| |] eqn:Em; [|done..]. cbn [mbind res_bind].
  destruct (confNodes ns) as [ns1| |] eqn:Ens; [|done..]. cbn [mbind res_bind].
  intros [= <-]. assert (Hlen : length ns1 = length ns).
  { clear -Ens. revert ns1 Ens. induction ns as [|x ns IH]; simpl; [by intros ? [= <-]|].
    intros ns1. destruct (conf_node x); [|done..]. cbn [mbind res_bind].
    destruct (confNodes ns) as [l| |]; [|done..]. intros [= <-]. simpl. by rewrite (IH l). }
  rewrite !zget_cons. case_decide as Hi; intros Hn.
  - simplify_eq. split; [simpl; lia|]. by exists m'.
  - destruct (IH ns1 (i - 1) eq_refl Hn) as (_ & n' & ? & ?). split; [simpl; lia|].
    by exists n'.
Qed.

Lemma enc_conf ns ns' i t : confNodes ns = Ok ns' → enc ns i t → enc ns' i (conf_tree t).
Proof.
  intros Hc. revert i. induction t as [name e|name e|name|name v|name e|name e|c IH|op a IHa b IHb];
    intros i Henc; simpl in Henc |- *.
  - destruct (confNodes_lookup _ _ _ _ Hc Henc) as (_ & n' & Hn & Hz). unfold conf_node in Hn. simpl in Hn.
    destruct (cut_dollar name); [by simplify_eq|]. case_decide; [|done]. simplify_eq. by exists e.
  - destruct (confNodes_lookup _ _ _ _ Hc Henc) as (_ & n' & Hn & Hz).
    unfold conf_node in Hn. simpl in Hn. by simplify_eq.
  - destruct Henc as [e Henc]. destruct (confNodes_lookup _ _ _ _ Hc Henc) as (_ & n' & Hn & Hz).
    exists e. unfold conf_node in Hn. simpl in Hn. by simplify_eq.
  - destruct (confNodes_lookup _ _ _ _ Hc Henc) as (_ & n' & Hn & Hz).
    unfold conf_node in Hn. simpl in Hn. by simplify_eq.
  - destruct (confNodes_lookup _ _ _ _ Hc Henc) as (_ & n' & Hn & Hz).
    unfold conf_node in Hn. simpl in Hn. by simplify_eq.
  - destruct (confNodes_lookup _ _ _ _ Hc Henc) as (_ & n' & Hn & Hz).
    unfold conf_node in Hn. simpl in Hn. by simplify_eq.
  - destruct Henc as (l & Hz & Hl & He). destruct (confNodes_lookup _ _ _ _ Hc Hz) as (_ & n' & Hn & Hz').
    unfold conf_node in Hn. simpl in Hn. simplify_eq. exists l. auto.
  - destruct Henc as (l & r & Hz & Hl & Hr & Ha & Hb).
    destruct (confNodes_lookup _ _ _ _ Hc Hz) as (_ & n' & Hn & Hz').
    specialize (IHa _ Ha). specialize (IHb _ Hb).
    unfold conf_node in Hn. destruct op; simpl in Hn; simplify_eq; by repeat eexists.
Qed.

Lemma parseTokens_fuel toks : parseTokens toks ≠ NoFuel.
Proof.
  unfold parseTokens. pose proof (parseOr_fuel (length toks) (mkC toks []) ltac:(simpl; lia)) as Hf.
  destruct (parseOr _ _) as [[c i]| |]; [|done..]. cbn [mbind res_bind]. by case_decide.
Qed.

Lemma parseTokens_sound toks ns :
  parseTokens toks = Ok ns → ∃ t, gram LOr toks t ∧ represents ns t.
Proof.
  unfold parseTokens. destruct (parseOr _ _) as [[c i]| |] eqn:E; [|done..]. cbn [mbind res_bind].
  case_decide as Hend; [|done]. intros [= <-].
  destruct (parseOr_sound _ _ _ _ E) as (ts & t & Hg & (Ha & _ & Hi & He)).
  rewrite Hend, app_nil_r in Ha. simpl in Ha. subst. by exists t.
Qed.

Lemma parseTokens_complete toks t :
  gram LOr toks t → ∃ ns, parseTokens toks = Ok ns ∧ represents ns t.
Proof.
  intros Hg. destruct (parseOr_complete (S (length toks)) (mkC toks []) toks t [] Hg)
    as (c & i & Hr & Hend & (_ & _ & Hi & He)); [by rewrite app_nil_r|by left|lia|].
  exists (nodes c). unfold parseTokens. rewrite Hr. cbn [mbind res_bind].
  rewrite decide_True by done. split; [done|]. unfold represents. by rewrite <-Hi.
Qed.
End parse.

(** C11: the parser of configuration conditions accepts exactly the token
    sequences of its grammar (left-associative OR over AND over NOT over at most
    one comparison per operand, with parentheses), always terminates, and the
    arrays it builds, before and after the rewriting to configuration operators,
    evaluate to the value of the tree. *)
Theorem parseCondition_correct `{CondEnv E} (internEnvSTR : text → Z) (toks : list Token) (env : E) :
  parseTokens internEnvSTR toks ≠ NoFuel ∧
  ((∃ ns, parseTokens internEnvSTR toks = Ok ns) ↔ ∃ t, gram internEnvSTR LOr toks t) ∧
  ∀ ns t, parseTokens internEnvSTR toks = Ok ns → gram internEnvSTR LOr toks t →
    evalCond ns env = denote t env ∧
    ∀ ns', confNodes internEnvSTR ns = Ok ns' →
      evalCond ns' env = denote (conf_tree internEnvSTR t) env.
Proof.
  split; [apply parseTokens_fuel|]. split.
  - split.
    + intros [ns Hns]. destruct (parseTokens_sound _ _ _ Hns) as (t & ? & _). by exists t.
    + intros [t Ht]. destruct (parseTokens_complete _ _ _ Ht) as (ns & ? & _). by exists ns.
  - intros ns t Hns Ht. destruct (parseTokens_complete _ _ _ Ht) as (ns0 & Hns0 & Hrep).
    rewrite Hns in Hns0. simplify_eq. split; [by apply evalCond_denote|].
    intros ns' Hc. apply evalCond_denote. unfold represents in *.
    destruct (zget_in ns0 (Z.of_nat (length ns0) - 1)) as [n Hn]; [by eapply enc_range|].
    destruct (confNodes_lookup _ _ _ _ _ Hc Hn) as [-> _]. by eapply enc_conf.
Qed.
End CondParser.
