(* ===== verification/Lexer.v ===== *)
(** * The lexer of build files (yamake.go: Lexer)

    The lexer reads a word by a fast scan over the source and falls back to a
    byte-by-byte loop when it meets an escape or a quote.  The fast scans are
    shown to agree with the loops, every token to consume input, and the line
    and column the lexer keeps to be those of the consumed text. *)

From S2P Require Import Prelude.
Local Open Scope Z_scope.

Abbreviation text := (list Z) (only parsing).

Inductive TokKind :=
| tokEOF | tokIdent | tokString | tokWord | tokLParen | tokRParen | tokInt
| tokEq | tokLt | tokLe | tokNotEq | tokGe | tokGt.

#[export] Instance TokKind_eq_dec : EqDecision TokKind.
Proof. solve_decision. Defined.

(** [id] is the interned text, kept here as the text itself. *)
Record Token := mkToken {
  kind : TokKind;
  id : text;
  tline : Z;
  tcol : Z;
  n : Z;
  lead : Z;
  backslash : bool;
}.

Definition newToken (k : TokKind) (t : text) (line col : Z) : Token :=
  mkToken k t line col (Z.of_nat (length t)) (default 0 (head t))
    (if decide (k = tokString) then bool_decide (92 ∈ t) else false).

(** A token without text. *)
Definition bareToken (k : TokKind) (line col : Z) : Token := mkToken k [] line col 0 0 false.

(** [rest] is [src[pos:]]; the lexer never looks back in [src] but through
    [prevByte]. *)
Record Lexer := mkLexer {
  rest : text;
  line : Z;
  col : Z;
  prevByte : Z;
  inArgs : bool;
}.

Definition c_nl : Z := 10.
Definition c_cr : Z := 13.
Definition c_bslash : Z := 92.
Definition c_dquote : Z := 34.
Definition c_squote : Z := 39.
Definition c_at : Z := 64.

(** [advance]: one byte, or the two of a CRLF; the byte it returns is the first. *)
Definition advance (l : Lexer) : res (Lexer * Z) :=
  match rest l with
  | [] => Throw
  | b :: r =>
      if b =? c_nl then Ok (mkLexer r (line l + 1) 1 b (inArgs l), b)
      else if b =? c_cr then
        match r with
        | c :: r' =>
            if c =? c_nl then Ok (mkLexer r' (line l + 1) 1 c_nl (inArgs l), b)
            else Ok (mkLexer r (line l + 1) 1 b (inArgs l), b)
        | [] => Ok (mkLexer r (line l + 1) 1 b (inArgs l), b)
        end
      else Ok (mkLexer r (line l) (col l + 1) b (inArgs l), b)
  end.

Definition isWhitespace (b : Z) : bool := (b =? 32) || (b =? 9) || (b =? 13) || (b =? 10).
Definition isIdentStart (b : Z) : bool := (65 <=? b) && (b <=? 90) || (b =? 95).
Definition isIdentCont (b : Z) : bool :=
  (65 <=? b) && (b <=? 90) || (48 <=? b) && (b <=? 57) || (b =? 95).

(** The table [wordBytes]. *)
Definition wordBytes (b : Z) : Z :=
  if (97 <=? b) && (b <=? 122) || (65 <=? b) && (b <=? 90) || (48 <=? b) && (b <=? 57) || (128 <=? b)
     || bool_decide (b ∈ bs "_-./+:=*?$%~,!{}#[]@\") then 1
  else if bool_decide (b ∈ bs ";&`^|<>'") || (b =? c_dquote) then 2
  else 0.

(** The receiver is only asked for [inArgs]. *)
Definition isWordByte (args : bool) (b : Z) : bool :=
  (wordBytes b =? 1) || (wordBytes b =? 2) && args.

Definition is_digit (b : Z) : bool := (48 <=? b) && (b <=? 57).
Definition is_quote (b : Z) : bool := (b =? c_dquote) || (b =? c_squote).

Definition commentBoundary (prev : Z) : bool :=
  if prev =? 0 then true else if prev =? 40 then true else isWhitespace prev.

(** [for pos < len && src[pos] != '\n' && src[pos] != '\r' { advance() }] *)
Fixpoint skipComment (fuel : nat) (l : Lexer) : res Lexer :=
  match fuel with
  | O => NoFuel
  | S fuel =>
      match rest l with
      | [] => Ok l
      | b :: _ =>
          if (b =? c_nl) || (b =? c_cr) then Ok l
          else '(l, _) ← advance l; skipComment fuel l
      end
  end.

Fixpoint skipTrivia (fuel : nat) (l : Lexer) : res Lexer :=
  match fuel with
  | O => NoFuel
  | S fuel =>
      match rest l with
      | [] => Ok l
      | b :: _ =>
          if isWhitespace b then '(l, _) ← advance l; skipTrivia fuel l
          else if (b =? 35) && commentBoundary (prevByte l) then
            l ← skipComment (S (length (rest l))) l; skipTrivia fuel l
          else Ok l
      end
  end.

(** [b == '\\' && pos+1 < len(src)] at the cursor. *)
Definition escape (r : text) : bool :=
  match r with b :: _ :: _ => b =? c_bslash | _ => false end.

(** Moving past a scanned word: [l.pos = pos; l.col += pos - start; l.prevByte = src[pos-1]]. *)
Definition jump (l : Lexer) (word r : text) : Lexer :=
  mkLexer r (line l) (col l + Z.of_nat (length word)) (default 0 (last word)) (inArgs l).

(** ** Strings *)

(** The fast scan: the text up to the quote, unless an escape or a line break comes first. *)
Fixpoint scanString (quote : Z) (r : text) : option (text * text) :=
  match r with
  | [] => None
  | b :: r =>
      if b =? quote then Some ([], r)
      else if (b =? c_bslash) || (b =? c_nl) || (b =? c_cr) then None
      else '(t, r') ← scanString quote r; Some (b :: t, r')
  end.

(** The slow loop, which is also [appendQuotedSegment] after its first [advance]. *)
Fixpoint slowString (fuel : nat) (quote : Z) (l : Lexer) (buf : text) : res (Lexer * text) :=
  match fuel with
  | O => NoFuel
  | S fuel =>
      match rest l with
      | [] => Throw
      | b :: _ =>
          if b =? quote then '(l, _) ← advance l; Ok (l, buf)
          else if escape (rest l) then
            '(l, b1) ← advance l;
            '(l, b2) ← advance l;
            slowString fuel quote l (buf ++ [b1; b2])
          else '(l, b1) ← advance l; slowString fuel quote l (buf ++ [b1])
      end
  end.

Definition appendQuotedSegment (l : Lexer) (buf : text) (quote : Z) : res (Lexer * text) :=
  '(l, _) ← advance l;
  slowString (S (length (rest l))) quote l buf.

Definition readString_slow (l : Lexer) (startLine startCol quote : Z) : res (Lexer * Token) :=
  '(l, t) ← slowString (S (length (rest l))) quote l [];
  Ok (l, newToken tokString t startLine startCol).

Definition readString (l : Lexer) (startLine startCol quote : Z) : res (Lexer * Token) :=
  '(l, _) ← advance l;
  match scanString quote (rest l) with
  | Some (t, r) =>
      Ok (mkLexer r (line l) (col l + Z.of_nat (length t) + 1) quote (inArgs l),
          newToken tokString t startLine startCol)
  | None => readString_slow l startLine startCol quote
  end.

(** ** Identifiers and words *)

(** The fast scan of [readIdentOrWord]: the word, whether it is an identifier,
    the rest; [None]: complex. *)
Fixpoint scanIdent (args : bool) (first : bool) (r : text) : option (text * bool * text) :=
  match r with
  | [] => Some ([], true, [])
  | b :: r' =>
      if escape r || negb args && is_quote b then None
      else if isIdentCont b then
        '(t, pure, r') ← scanIdent args false r'; Some (b :: t, pure, r')
      else if isWordByte args b || (b =? c_at) && negb first then
        '(t, _, r') ← scanIdent args false r'; Some (b :: t, false, r')
      else Some ([], true, r)
  end.

Fixpoint slowIdent (fuel : nat) (l : Lexer) (buf : text) (pure : bool) : res (Lexer * text * bool) :=
  match fuel with
  | O => NoFuel
  | S fuel =>
      match rest l with
      | [] => Ok (l, buf, pure)
      | b :: _ =>
          if escape (rest l) then
            '(l, b1) ← advance l;
            '(l, b2) ← advance l;
            slowIdent fuel l (buf ++ [b1; b2]) false
          else if isIdentCont b then
            '(l, b1) ← advance l; slowIdent fuel l (buf ++ [b1]) pure
          else if isWordByte (inArgs l) b || (b =? c_at) && negb (bool_decide (buf = [])) then
            '(l, b1) ← advance l; slowIdent fuel l (buf ++ [b1]) false
          else if is_quote b && negb (bool_decide (buf = [])) then
            '(l, buf) ← appendQuotedSegment l buf b; slowIdent fuel l buf false
          else Ok (l, buf, pure)
      end
  end.

Definition ident_kind (pure : bool) : TokKind := if pure then tokIdent else tokWord.

Definition readIdentOrWord_slow (l : Lexer) (startLine startCol : Z) : res (Lexer * Token) :=
  '(l, t, pure) ← slowIdent (S (length (rest l))) l [] true;
  Ok (l, newToken (ident_kind pure) t startLine startCol).

Definition readIdentOrWord (l : Lexer) (startLine startCol : Z) : res (Lexer * Token) :=
  match scanIdent (inArgs l) true (rest l) with
  | Some (t, pure, r) => Ok (jump l t r, newToken (ident_kind pure) t startLine startCol)
  | None => readIdentOrWord_slow l startLine startCol
  end.

(** The loop of [dollarParenPrefix] after "$(": the number of bytes up to and
    including the ")". *)
Fixpoint dollarParen_loop (r : text) (k : nat) : nat :=
  match r with
  | [] => 0
  | b :: r =>
      if b =? 41 then if decide (k = 2%nat) then 0 else S k
      else if (b =? 40) || (b =? 35) || (b =? c_bslash) || isWhitespace b then 0
      else dollarParen_loop r (S k)
  end.

Definition dollarParenPrefix (l : Lexer) : nat :=
  if negb (inArgs l) then 0%nat
  else match rest l with
       | b :: c :: ((_ :: _) as r) =>
           if (b =? 36) && (c =? 40) then dollarParen_loop r 2 else 0%nat
       | _ => 0%nat
       end.

(** The fast scan of [readWord] from its [first] byte on. *)
Fixpoint scanWord (args : bool) (first : bool) (r : text) : option (text * text) :=
  match r with
  | [] => Some ([], [])
  | b :: r' =>
      if escape r || negb args && is_quote b && negb first then None
      else if negb (isWordByte args b) && negb ((b =? c_at) && negb first) then Some ([], r)
      else '(t, r') ← scanWord args false r'; Some (b :: t, r')
  end.

Fixpoint slowWord (fuel : nat) (l : Lexer) (buf : text) : res (Lexer * text) :=
  match fuel with
  | O => NoFuel
  | S fuel =>
      match rest l with
      | [] => Ok (l, buf)
      | b :: _ =>
          if escape (rest l) then
            '(l, b1) ← advance l;
            '(l, b2) ← advance l;
            slowWord fuel l (buf ++ [b1; b2])
          else if negb (inArgs l) && is_quote b && negb (bool_decide (buf = [])) then
            '(l, buf) ← appendQuotedSegment l buf b; slowWord fuel l buf
          else if negb (isWordByte (inArgs l) b) && negb ((b =? c_at) && negb (bool_decide (buf = []))) then
            Ok (l, buf)
          else '(l, b1) ← advance l; slowWord fuel l (buf ++ [b1])
      end
  end.

(** [for range prefix { buf = append(buf, l.advance()) }] *)
Fixpoint takeBytes (k : nat) (l : Lexer) (buf : text) : res (Lexer * text) :=
  match k with
  | O => Ok (l, buf)
  | S k => '(l, b) ← advance l; takeBytes k l (buf ++ [b])
  end.

Definition readWord_slow (l : Lexer) (startLine startCol : Z) : res (Lexer * Token) :=
  '(l, buf) ← takeBytes (dollarParenPrefix l) l [];
  '(l, t) ← slowWord (S (length (rest l))) l buf;
  Ok (l, newToken tokWord t startLine startCol).

Definition readWord (l : Lexer) (startLine startCol : Z) : res (Lexer * Token) :=
  let prefix := dollarParenPrefix l in
  match scanWord (inArgs l) (bool_decide (prefix = 0%nat)) (drop prefix (rest l)) with
  | Some (t, r) =>
      let t := take prefix (rest l) ++ t in
      Ok (jump l t r, newToken tokWord t startLine startCol)
  | None => readWord_slow l startLine startCol
  end.

(** ** Numbers *)

Fixpoint scanDigits (r : text) : text * text :=
  match r with
  | b :: r' => if is_digit b then let '(t, r') := scanDigits r' in (b :: t, r') else ([], r)
  | [] => ([], [])
  end.

(** The word bytes after the digits; [None]: an escape, read again by [readWord]. *)
Fixpoint scanRest (args : bool) (r : text) : option (text * text) :=
  match r with
  | b :: r' =>
      if isWordByte args b then
        if escape r then None
        else '(t, r') ← scanRest args r'; Some (b :: t, r')
      else Some ([], r)
  | [] => Some ([], [])
  end.

Definition readNumberOrWord (l : Lexer) (startLine startCol : Z) : res (Lexer * Token) :=
  let '(digits, r) := scanDigits (rest l) in
  match scanRest (inArgs l) r with
  | None => readWord l startLine startCol
  | Some (more, r) =>
      let t := digits ++ more in
      Ok (jump l t r,
          newToken (if decide (more = []) then tokInt else tokWord) t startLine startCol)
  end.

(** ** Tokens *)

(** [<] and [>], with an optional [=]. *)
Definition readAngle (l : Lexer) (alone with_eq : TokKind) (startLine startCol : Z) : res (Lexer * Token) :=
  '(l, _) ← advance l;
  match rest l with
  | c :: _ =>
      if c =? 61 then '(l, _) ← advance l; Ok (l, bareToken with_eq startLine startCol)
      else Ok (l, bareToken alone startLine startCol)
  | [] => Ok (l, bareToken alone startLine startCol)
  end.

Definition readPair (l : Lexer) (k : TokKind) (startLine startCol : Z) : res (Lexer * Token) :=
  '(l, _) ← advance l;
  '(l, _) ← advance l;
  Ok (l, bareToken k startLine startCol).

Definition next_is (r : text) (c : Z) : bool :=
  match r with _ :: x :: _ => x =? c | _ => false end.

(** The [switch] of [readToken], once the trivia before the token is gone. *)
Definition readHere (l : Lexer) : res (Lexer * Token) :=
  match rest l with
  | [] => Ok (l, bareToken tokEOF (line l) (col l))
  | b :: _ =>
      let startLine := line l in
      let startCol := col l in
      if b =? 40 then '(l, _) ← advance l; Ok (l, bareToken tokLParen startLine startCol)
      else if b =? 41 then '(l, _) ← advance l; Ok (l, bareToken tokRParen startLine startCol)
      else if is_quote b then readString l startLine startCol b
      else if (b =? 60) && negb (inArgs l) then readAngle l tokLt tokLe startLine startCol
      else if (b =? 62) && negb (inArgs l) then readAngle l tokGt tokGe startLine startCol
      else if (b =? 61) && negb (inArgs l) && next_is (rest l) 61 then readPair l tokEq startLine startCol
      else if (b =? 33) && negb (inArgs l) && next_is (rest l) 61 then readPair l tokNotEq startLine startCol
      else if is_digit b then readNumberOrWord l startLine startCol
      else if isIdentStart b then readIdentOrWord l startLine startCol
      else if isWordByte (inArgs l) b then readWord l startLine startCol
      else Throw
  end.

Definition readToken (l : Lexer) : res (Lexer * Token) :=
  l ← skipTrivia (S (length (rest l))) l;
  readHere l.

Definition next := readToken.

(** ** Fast scans and slow loops *)

(** Bytes that end no line: [advance] only moves the column over them. *)
Definition plain (b : Z) : Prop := b ≠ c_nl ∧ b ≠ c_cr.

Lemma advance_plain l b r :
  rest l = b :: r → plain b →
  advance l = Ok (mkLexer r (line l) (col l + 1) b (inArgs l), b).
Proof.
  intros Hr [Hn Hc]. unfold advance. rewrite Hr.
  by rewrite (proj2 (Z.eqb_neq b c_nl)), (proj2 (Z.eqb_neq b c_cr)).
Qed.

Lemma ident_plain b : isIdentCont b = true → plain b.
Proof. unfold isIdentCont, plain, c_nl, c_cr. intros Hb. split; intros ->; done. Qed.

Lemma word_plain args b : isWordByte args b = true → plain b.
Proof. unfold isWordByte, plain, c_nl, c_cr. intros Hb. split; intros ->; by destruct args. Qed.

Lemma at_plain : plain c_at.
Proof. done. Qed.

(** [jump] as a relation, with the byte before an empty word. *)
Definition jumped (l : Lexer) (t r : text) : Lexer :=
  mkLexer r (line l) (col l + Z.of_nat (length t)) (default (prevByte l) (last t)) (inArgs l).

Lemma jumped_jump l t r : t ≠ [] → jumped l t r = jump l t r.
Proof.
  intros Ht. unfold jumped, jump. destruct (last t) eqn:E; [done|].
  by apply last_None in E.
Qed.

Lemma jumped_cons l b t r r0 :
  jumped (mkLexer r0 (line l) (col l + 1) b (inArgs l)) t r = jumped l (b :: t) r.
Proof.
  unfold jumped. simpl prevByte. simpl line. simpl col. simpl inArgs. f_equal; [simpl; lia|].
  destruct t as [|x t]; [done|]. rewrite last_cons_cons.
  destruct (last (x :: t)) eqn:E; [done|]. by apply last_None in E.
Qed.

Lemma jumped_nil l : jumped l [] (rest l) = l.
Proof. destruct l. unfold jumped. simpl. f_equal. lia. Qed.

Lemma scanString_slow quote l t r buf fuel :
  plain quote → scanString quote (rest l) = Some (t, r) → (length (rest l) < fuel)%nat →
  slowString fuel quote l buf =
    Ok (mkLexer r (line l) (col l + Z.of_nat (length t) + 1) quote (inArgs l), buf ++ t).
Proof.
  intros Hq. remember (rest l) as src eqn:Hs. revert l t buf fuel Hs.
  induction src as [|b src IH]; intros l t buf fuel Hs Hscan Hf; [done|].
  destruct fuel as [|fuel]; [simpl in Hf; lia|]. cbn [slowString scanString] in *. rewrite <-Hs.
  destruct (Z.eqb_spec b quote) as [->|Hbq].
  { simplify_eq. rewrite (advance_plain l quote r) by done. cbn [mbind res_bind].
    rewrite app_nil_r. simpl. do 3 f_equal. lia. }
  destruct ((b =? c_bslash) || (b =? c_nl) || (b =? c_cr)) eqn:Hbad; [done|].
  apply orb_false_iff in Hbad as [[Hb Hn]%orb_false_iff Hc].
  destruct (scanString quote src) as [[t' r']|] eqn:E; [|done]. simpl in Hscan. simplify_eq.
  assert (escape (b :: src) = false) as -> by (by destruct src).
  rewrite (advance_plain l b src) by (done || split; by apply Z.eqb_neq). cbn [mbind res_bind].
  rewrite (IH _ t' (buf ++ [b])) by (done || simpl in *; lia). simpl.
  rewrite <-app_assoc. do 3 f_equal. lia.
Qed.

Lemma scanIdent_slow l first t pure r buf fuel p :
  scanIdent (inArgs l) first (rest l) = Some (t, pure, r) → (length (rest l) < fuel)%nat →
  first = bool_decide (buf = []) →
  (buf = [] → match rest l with b :: _ => is_quote b = false | [] => True end) →
  slowIdent fuel l buf p = Ok (jumped l t r, buf ++ t, p && pure).
Proof.
  remember (rest l) as src eqn:Hs. revert l first t pure buf fuel p Hs.
  induction src as [|b src IH]; intros l first t pure buf fuel p Hs Hscan Hf Hfirst Hq;
    (destruct fuel as [|fuel]; [simpl in Hf; lia|]); cbn [slowIdent scanIdent] in *; rewrite <-Hs.
  { simplify_eq. rewrite app_nil_r, andb_true_r. pose proof (jumped_nil l) as Hj. rewrite <-Hs in Hj. by rewrite Hj. }
  subst first. destruct (escape (b :: src) || negb (inArgs l) && is_quote b) eqn:Hc; [done|].
  apply orb_false_iff in Hc as [-> Hquote].
  destruct (isIdentCont b) eqn:Hi; [|destruct (isWordByte (inArgs l) b || (b =? c_at) && negb (bool_decide (buf = []))) eqn:Hw].
  - destruct (scanIdent (inArgs l) false src) as [[[t' pure'] r']|] eqn:E; [|done]. simpl in Hscan. simplify_eq.
    rewrite (advance_plain l b src) by (done || by apply ident_plain). cbn [mbind res_bind].
    erewrite (IH _ false t' pure _ fuel p); [|done|exact E|simpl in *; lia|
      by destruct buf|by destruct buf].
    by rewrite jumped_cons, <-app_assoc.
  - destruct (scanIdent (inArgs l) false src) as [[[t' pure'] r']|] eqn:E; [|done]. simpl in Hscan. simplify_eq.
    assert (plain b).
    { apply orb_true_iff in Hw as [Hw|[Hat _]%andb_true_iff]; [by apply word_plain in Hw|].
      apply Z.eqb_eq in Hat. subst. apply at_plain. }
    rewrite (advance_plain l b src) by done. cbn [mbind res_bind].
    erewrite (IH _ false t' pure' _ fuel false); [|done|exact E|simpl in *; lia|
      by destruct buf|by destruct buf].
    by rewrite jumped_cons, <-app_assoc, andb_false_r.
  - simplify_eq.
    assert (is_quote b && negb (bool_decide (buf = [])) = false) as ->.
    { case_bool_decide as Hb; [by rewrite andb_false_r|]. rewrite andb_true_r.
      destruct (is_quote b) eqn:Hqb; [|done]. rewrite andb_true_r in Hquote.
      apply negb_false_iff in Hquote. exfalso. apply orb_false_iff in Hw as [Hw _].
      unfold isWordByte, is_quote in *. rewrite Hquote in Hw.
      apply orb_true_iff in Hqb as [->%Z.eqb_eq| ->%Z.eqb_eq]; by vm_compute in Hw. }
    rewrite app_nil_r, andb_true_r. pose proof (jumped_nil l) as Hj. rewrite <-Hs in Hj. by rewrite Hj.
Qed.

Lemma scanWord_slow l first t r buf fuel :
  scanWord (inArgs l) first (rest l) = Some (t, r) → (length (rest l) < fuel)%nat →
  first = bool_decide (buf = []) →
  slowWord fuel l buf = Ok (jumped l t r, buf ++ t).
Proof.
  remember (rest l) as src eqn:Hs. revert l first t buf fuel Hs.
  induction src as [|b src IH]; intros l first t buf fuel Hs Hscan Hf Hfirst;
    (destruct fuel as [|fuel]; [simpl in Hf; lia|]); cbn [slowWord scanWord] in *; rewrite <-Hs.
  { simplify_eq. rewrite app_nil_r. pose proof (jumped_nil l) as Hj. rewrite <-Hs in Hj. by rewrite Hj. }
  subst first.
  destruct (escape (b :: src) || negb (inArgs l) && is_quote b && negb (bool_decide (buf = []))) eqn:Hc; [done|].
  apply orb_false_iff in Hc as [-> ->].
  destruct (negb (isWordByte (inArgs l) b) && negb ((b =? c_at) && negb (bool_decide (buf = [])))) eqn:Hw.
  { simplify_eq. rewrite app_nil_r. pose proof (jumped_nil l) as Hj. rewrite <-Hs in Hj. by rewrite Hj. }
  destruct (scanWord (inArgs l) false src) as [[t' r']|] eqn:E; [|done]. simpl in Hscan. simplify_eq.
  assert (plain b).
  { apply andb_false_iff in Hw as [Hw%negb_false_iff|[Hat _]%negb_false_iff%andb_true_iff];
      [by apply word_plain in Hw|]. apply Z.eqb_eq in Hat. subst. apply at_plain. }
  rewrite (advance_plain l b src) by done. cbn [mbind res_bind].
  erewrite (IH _ false t' _ fuel); [|done|exact E|simpl in *; lia|by destruct buf].
  by rewrite jumped_cons, <-app_assoc.
Qed.

Lemma jumped_app l a b r1 r2 : jumped (jumped l a r1) b r2 = jumped l (a ++ b) r2.
Proof.
  unfold jumped. simpl. f_equal; [rewrite length_app; lia|].
  destruct b as [|x b _] using rev_ind; [by rewrite app_nil_r|].
  by rewrite app_assoc, !last_snoc.
Qed.

Lemma takeBytes_plain k l buf :
  (k <= length (rest l))%nat → Forall plain (take k (rest l)) →
  takeBytes k l buf = Ok (jumped l (take k (rest l)) (drop k (rest l)), buf ++ take k (rest l)).
Proof.
  revert l buf. induction k as [|k IH]; intros l buf Hk Hp; simpl.
  { by rewrite drop_0, app_nil_r, jumped_nil. }
  destruct (rest l) as [|b r] eqn:Hr; [simpl in Hk; lia|]. simpl in Hp |- *.
  apply Forall_cons in Hp as [Hb Hp]. rewrite (advance_plain l b r) by done. cbn [mbind res_bind].
  rewrite IH by (simpl in *; done || lia). simpl. by rewrite jumped_cons, <-app_assoc.
Qed.

Lemma dollarParen_loop_plain r k :
  dollarParen_loop r k = 0%nat ∨
  (k < dollarParen_loop r k <= k + length r)%nat ∧ Forall plain (take (dollarParen_loop r k - k) r).
Proof.
  revert k. induction r as [|b r IH]; intros k; simpl; [by left|].
  destruct (Z.eqb_spec b 41) as [->|Hb].
  - case_decide; [by left|right]. replace (S k - k)%nat with 1%nat by lia. simpl. split; [lia|].
    by repeat constructor.
  - destruct ((b =? 40) || (b =? 35) || (b =? c_bslash) || isWhitespace b) eqn:Hbad; [by left|].
    destruct (IH (S k)) as [Hz|[Hlt Hp]]; [by left|right]. split; [lia|].
    replace (dollarParen_loop r (S k) - k)%nat with (S (dollarParen_loop r (S k) - S k)) by lia.
    simpl. constructor; [|done]. apply orb_false_iff in Hbad as [_ Hw].
    unfold isWhitespace, plain, c_nl, c_cr in *. split; intros ->; done.
Qed.

Lemma dollarParenPrefix_plain l :
  (dollarParenPrefix l <= length (rest l))%nat ∧ Forall plain (take (dollarParenPrefix l) (rest l)).
Proof.
  unfold dollarParenPrefix. destruct (negb (inArgs l)); [split; [lia|constructor]|].
  destruct (rest l) as [|b [|c [|d r]]]; try (split; [simpl; lia|constructor]).
  destruct ((b =? 36) && (c =? 40)) eqn:Hbc; [|split; [simpl; lia|constructor]].
  apply andb_true_iff in Hbc as [->%Z.eqb_eq ->%Z.eqb_eq].
  destruct (dollarParen_loop_plain (d :: r) 2) as [->|[Hlt Hp]]; [split; [simpl; lia|constructor]|].
  split; [simpl in *; lia|]. destruct (dollarParen_loop (d :: r) 2) as [|[|m]]; [lia|lia|].
  simpl in Hp. rewrite Nat.sub_0_r in Hp. simpl. by repeat constructor.
Qed.

Lemma scanIdent_cons args first b r t pure r' :
  isIdentCont b = true → scanIdent args first (b :: r) = Some (t, pure, r') → t ≠ [].
Proof.
  intros Hb. cbn [scanIdent]. destruct (_ || _); [done|]. rewrite Hb.
  destruct (scanIdent args false r) as [[[]]|]; simpl; intros; by simplify_eq.
Qed.

Lemma readIdentOrWord_eq l sl sc b r :
  rest l = b :: r → isIdentCont b = true → readIdentOrWord l sl sc = readIdentOrWord_slow l sl sc.
Proof.
  intros Hr Hb. unfold readIdentOrWord. destruct (scanIdent (inArgs l) true (rest l)) as [[[t pure] r']|] eqn:E; [|done].
  unfold readIdentOrWord_slow. rewrite (scanIdent_slow l true t pure r' [] _ true); [|done|lia|done|].
  - cbn [mbind res_bind]. rewrite jumped_jump; [done|]. rewrite Hr in E. by eapply scanIdent_cons.
  - intros _. rewrite Hr. unfold isIdentCont, is_quote, c_dquote, c_squote in *.
    destruct (Z.eqb_spec b 34) as [->|]; [done|]. by destruct (Z.eqb_spec b 39) as [->|].
Qed.

Lemma readWord_eq l sl sc b r :
  rest l = b :: r → isWordByte (inArgs l) b = true → readWord l sl sc = readWord_slow l sl sc.
Proof.
  intros Hr Hb. unfold readWord, readWord_slow.
  destruct (dollarParenPrefix_plain l) as [Hlen Hp]. set (k := dollarParenPrefix l) in *.
  destruct (scanWord (inArgs l) (bool_decide (k = 0%nat)) (drop k (rest l))) as [[t r']|] eqn:E; [|done].
  rewrite takeBytes_plain by done. cbn [mbind res_bind app].
  set (l1 := jumped l (take k (rest l)) (drop k (rest l))).
  rewrite (scanWord_slow l1 (bool_decide (k = 0%nat)) t r').
  - cbn [mbind res_bind]. unfold l1. rewrite jumped_app, jumped_jump; [done|].
    destruct k as [|k]; [|by rewrite Hr]. rewrite Hr, drop_0 in E. cbn [scanWord] in E.
    rewrite Hb, bool_decide_true, !andb_false_r, orb_false_r in E by done. cbn [negb andb] in E.
    destruct (escape (b :: r)); [done|].
    destruct (scanWord (inArgs l) false r) as [[]|]; simpl in E; by simplify_eq.
  - done.
  - unfold l1. simpl. lia.
  - apply bool_decide_ext. destruct k as [|k]; [done|]. by rewrite Hr.
Qed.

Lemma readString_eq l sl sc quote :
  plain quote →
  readString l sl sc quote = ('(l, _) ← advance l; readString_slow l sl sc quote).
Proof.
  intros Hq. unfold readString. destruct (advance l) as [[l1 b]| |]; [|done..]. cbn [mbind res_bind].
  destruct (scanString quote (rest l1)) as [[t r]|] eqn:E; [|done].
  unfold readString_slow. by rewrite (scanString_slow quote l1 t r) by (done || lia).
Qed.

(** ** Positions *)

(** The line and column after reading some text, a CRLF being one line break. *)
Fixpoint lc (t : text) (ln cl : Z) : Z * Z :=
  match t with
  | [] => (ln, cl)
  | b :: r =>
      if b =? c_nl then lc r (ln + 1) 1
      else if b =? c_cr then
        match r with
        | c :: r' => if c =? c_nl then lc r' (ln + 1) 1 else lc r (ln + 1) 1
        | [] => (ln + 1, 1)
        end
      else lc r ln (cl + 1)
  end.

(** No line break is cut in two. *)
Definition split_crlf (t r : text) : Prop := last t = Some c_cr ∧ head r = Some c_nl.

Lemma lc_app t1 t2 ln cl :
  ¬ split_crlf t1 t2 → lc (t1 ++ t2) ln cl = lc t2 (lc t1 ln cl).1 (lc t1 ln cl).2.
Proof.
  remember (length t1) as k eqn:Hk. revert t1 ln cl Hk.
  induction k as [k IH] using lt_wf_ind. intros t1 ln cl Hk Hs. destruct t1 as [|b t1]; [done|].
  simpl in Hk. cbn [app lc].
  assert (Hs' : t1 ≠ [] → ¬ split_crlf t1 t2).
  { intros Hne [Hl Hh]. apply Hs. split; [|done]. destruct t1; [done|]. by rewrite last_cons_cons. }
  assert (Hrec : ∀ ln cl, ¬ split_crlf t1 t2 → lc (t1 ++ t2) ln cl = lc t2 (lc t1 ln cl).1 (lc t1 ln cl).2).
  { intros ln' cl' H. apply (IH (length t1)); [lia|done|done]. }
  destruct (b =? c_nl) eqn:Hn; [destruct t1; [done|by apply Hrec, Hs']|].
  destruct (b =? c_cr) eqn:Hc; [|destruct t1; [done|by apply Hrec, Hs']].
  destruct t1 as [|c t1]; cbn [app].
  - destruct t2 as [|c t2]; [done|]. destruct (Z.eqb_spec c c_nl) as [->|]; [|done].
    exfalso. apply Hs. apply Z.eqb_eq in Hc. subst. done.
  - destruct (c =? c_nl) eqn:Hcn; [|by apply (Hrec (ln + 1) 1), Hs'].
    apply (IH (length t1)); [simpl in *; lia|done|]. intros [Hl Hh]. apply (Hs' ltac:(done)).
    split; [|done]. destruct t1; [done|]. by rewrite last_cons_cons.
Qed.

(** [l'] is [l] after some more input, with the position to match. *)
Definition lexed (l l' : Lexer) : Prop :=
  ∃ t, rest l = t ++ rest l' ∧ (line l', col l') = lc t (line l) (col l) ∧
    inArgs l' = inArgs l ∧ ¬ split_crlf t (rest l').

Lemma lexed_refl l : lexed l l.
Proof. exists []. split_and!; [done|by destruct l|done|by intros [? _]]. Qed.

Lemma lexed_trans l1 l2 l3 : lexed l1 l2 → lexed l2 l3 → lexed l1 l3.
Proof.
  intros (t1 & Hr1 & Hp1 & Ha1 & Hs1) (t2 & Hr2 & Hp2 & Ha2 & Hs2).
  exists (t1 ++ t2). split_and!.
  - by rewrite Hr1, Hr2, app_assoc.
  - rewrite lc_app.
    + rewrite <-Hp1. simpl. by rewrite Hp2.
    + intros [Hl Hh]. apply Hs1. split; [done|]. rewrite Hr2. by destruct t2.
  - congruence.
  - destruct t2 as [|x t2 _] using rev_ind; [by rewrite app_nil_r, Hr2 in *|].
    intros [Hl Hh]. apply Hs2. split; [|done]. by rewrite app_assoc, !last_snoc in *.
Qed.

#[export] Instance lexed_preorder : PreOrder lexed.
Proof. split; [exact lexed_refl|exact lexed_trans]. Qed.

Lemma advance_lexed l l' b :
  advance l = Ok (l', b) → lexed l l' ∧ (length (rest l') < length (rest l))%nat.
Proof.
  unfold advance. destruct (rest l) as [|c r] eqn:Hr; [done|]. destruct (Z.eqb_spec c c_nl) as [->|Hn].
  { intros [= <- <-]. split; [|simpl; lia]. exists [c_nl]. rewrite Hr. split_and!; [done|done|done|].
    by intros [[=] _]. }
  destruct (Z.eqb_spec c c_cr) as [->|Hc].
  - destruct r as [|d r']; [|destruct (Z.eqb_spec d c_nl) as [->|Hd]]; intros [= <- <-].
    + split; [|simpl; lia]. exists [c_cr]. rewrite Hr. split_and!; [done|done|done|by intros [_ ?]].
    + split; [|simpl; lia]. exists [c_cr; c_nl]. rewrite Hr. split_and!; [done|done|done|by intros [[=] _]].
    + split; [|simpl; lia]. exists [c_cr]. rewrite Hr. split_and!; [done|done|done|].
      intros [_ [=]]. done.
  - intros [= <- <-]. split; [|simpl; lia]. exists [c]. rewrite Hr. split_and!; [done| |done|].
    + simpl. by rewrite (proj2 (Z.eqb_neq c c_nl)), (proj2 (Z.eqb_neq c c_cr)).
    + intros [[=] _]. done.
Qed.

Lemma lc_plain t ln cl : Forall plain t → lc t ln cl = (ln, cl + Z.of_nat (length t)).
Proof.
  intros Hp. revert cl. induction Hp as [|b t [Hn Hc] _ IH]; intros cl; simpl; [f_equal; lia|].
  rewrite (proj2 (Z.eqb_neq b c_nl)), (proj2 (Z.eqb_neq b c_cr)), IH by done. f_equal. lia.
Qed.

Lemma last_plain t x : Forall plain t → last t = Some x → plain x.
Proof. intros Hp (q & ->)%last_Some. by apply Forall_app in Hp as [_ [? _]%Forall_cons]. Qed.

Lemma jump_lexed l t r :
  rest l = t ++ r → Forall plain t → lexed l (jump l t r).
Proof.
  intros Hr Hp. exists t. split_and!; [done| |done|].
  - unfold jump. simpl. by rewrite lc_plain.
  - intros [Hl _]. apply (last_plain _ _ Hp) in Hl as [_ ?]. done.
Qed.

(** ** Progress *)

(** A reader that, from [l], consumes input properly: it does not run out of
    fuel, and where it succeeds the position is right and at least [k] bytes are
    gone. *)
Definition moves {A} (k : nat) (l : Lexer) (r : res (Lexer * A)) : Prop :=
  match r with
  | Ok (l', _) => lexed l l' ∧ (length (rest l') + k <= length (rest l))%nat
  | Throw => True
  | NoFuel => False
  end.

Lemma advance_moves l : moves 1 l (advance l).
Proof.
  destruct (advance l) as [[l' b]| |] eqn:E; simpl; [|done|].
  - destruct (advance_lexed l l' b E). split; [done|lia].
  - unfold advance in E. destruct (rest l) as [|? [|? ?]]; repeat case_match; done.
Qed.

Lemma moves_bind {A B} k l (r : res (Lexer * A)) (f : Lexer * A → res (Lexer * B)) j :
  moves k l r →
  (∀ l' a, r = Ok (l', a) → lexed l l' → (length (rest l') + k <= length (rest l))%nat →
     moves (j - k) l' (f (l', a))) →
  moves j l (r ≫= f).
Proof.
  intros Hr Hf. destruct r as [[l' a]| |]; [|done..]. destruct Hr as [Hl Hk].
  specialize (Hf l' a eq_refl Hl Hk). cbn [mbind res_bind].
  destruct (f (l', a)) as [[l2 b]| |]; [|done..]. destruct Hf as [Hl2 Hk2].
  split; [by trans l'|lia].
Qed.

Lemma moves_weaken {A} k j l (r : res (Lexer * A)) : moves k l r → (j <= k)%nat → moves j l r.
Proof. intros Hr Hj. destruct r as [[l' a]| |]; [|done..]. destruct Hr. split; [done|lia]. Qed.

Lemma moves_ret {A} l (a : A) : moves 0 l (Ok (l, a)).
Proof. split; [done|lia]. Qed.

Lemma slowString_moves fuel quote l buf :
  (length (rest l) < fuel)%nat → moves 1 l (slowString fuel quote l buf).
Proof.
  revert l buf. induction fuel as [|fuel IH]; intros l buf Hf; [lia|]. cbn [slowString].
  destruct (rest l) as [|b r] eqn:Hr; [done|]. destruct (b =? quote).
  { eapply moves_bind; [apply advance_moves|]. intros l' a _ _ _. apply moves_ret. }
  destruct (escape _).
  - eapply moves_bind; [apply advance_moves|]. intros l1 b1 _ _ H1.
    eapply (moves_bind 1); [apply advance_moves|]. intros l2 b2 _ _ H2.
    apply (moves_weaken 1); [|lia]. apply IH. rewrite Hr in H1. simpl in *. lia.
  - eapply moves_bind; [apply advance_moves|]. intros l1 b1 _ _ H1.
    apply (moves_weaken 1); [|lia]. apply IH. rewrite Hr in H1. simpl in *. lia.
Qed.

Lemma appendQuotedSegment_moves l buf quote : moves 1 l (appendQuotedSegment l buf quote).
Proof.
  unfold appendQuotedSegment. eapply moves_bind; [apply advance_moves|]. intros l1 b _ _ H1.
  apply (moves_weaken 1); [|lia]. apply slowString_moves. lia.
Qed.

(** A reader with a flag besides its text. *)
Definition moves3 {A B} (k : nat) (l : Lexer) (r : res (Lexer * A * B)) : Prop :=
  moves k l ('(l, a, b) ← r; Ok (l, (a, b))).

Lemma moves3_bind {A B C} k l (r : res (Lexer * A)) (f : Lexer * A → res (Lexer * B * C)) j :
  moves k l r →
  (∀ l' a, lexed l l' → (length (rest l') + k <= length (rest l))%nat → moves3 (j - k) l' (f (l', a))) →
  moves3 j l (r ≫= f).
Proof.
  intros Hr Hf. unfold moves3 in *. destruct r as [[l' a]| |]; [|done..]. destruct Hr as [Hl Hk].
  specialize (Hf l' a Hl Hk). cbn [mbind res_bind].
  destruct (f (l', a)) as [[[l2 b] c]| |]; [|done..]. destruct Hf as [Hl2 Hk2].
  split; [by trans l'|lia].
Qed.

Lemma slowIdent_moves fuel l buf pure :
  (length (rest l) < fuel)%nat → moves3 0 l (slowIdent fuel l buf pure).
Proof.
  revert l buf pure. induction fuel as [|fuel IH]; intros l buf pure Hf; [lia|]. cbn [slowIdent].
  destruct (rest l) as [|b r] eqn:Hr; [by split; [|lia]|].
  destruct (escape _); [|destruct (isIdentCont b); [|destruct (_ || _); [|destruct (_ && _)]]].
  - eapply moves3_bind; [apply advance_moves|]. intros l1 b1 _ H1.
    eapply moves3_bind; [apply advance_moves|]. intros l2 b2 _ H2. apply IH. rewrite Hr in H1. simpl in *. lia.
  - eapply moves3_bind; [apply advance_moves|]. intros l1 b1 _ H1. apply IH. rewrite Hr in H1. simpl in *. lia.
  - eapply moves3_bind; [apply advance_moves|]. intros l1 b1 _ H1. apply IH. rewrite Hr in H1. simpl in *. lia.
  - eapply moves3_bind; [apply appendQuotedSegment_moves|]. intros l1 b1 _ H1. apply IH.
    rewrite Hr in H1. simpl in *. lia.
  - split; [done|lia].
Qed.

Lemma slowWord_moves fuel l buf : (length (rest l) < fuel)%nat → moves 0 l (slowWord fuel l buf).
Proof.
  revert l buf. induction fuel as [|fuel IH]; intros l buf Hf; [lia|]. cbn [slowWord].
  destruct (rest l) as [|b r] eqn:Hr; [apply moves_ret|].
  destruct (escape _); [|destruct (negb (inArgs l) && is_quote b && _); [|destruct (_ && _)]].
  - eapply moves_bind; [apply advance_moves|]. intros l1 b1 _ _ H1.
    eapply moves_bind; [apply advance_moves|]. intros l2 b2 _ _ H2. apply IH. rewrite Hr in H1. simpl in *. lia.
  - eapply moves_bind; [apply appendQuotedSegment_moves|]. intros l1 b1 _ _ H1. apply IH.
    rewrite Hr in H1. simpl in *. lia.
  - apply moves_ret.
  - eapply moves_bind; [apply advance_moves|]. intros l1 b1 _ _ H1. apply IH. rewrite Hr in H1. simpl in *. lia.
Qed.

Lemma scanIdent_split args first r t pure r' :
  scanIdent args first r = Some (t, pure, r') → r = t ++ r' ∧ Forall plain t.
Proof.
  revert first t pure r'. induction r as [|b r IH]; intros first t pure r'; cbn [scanIdent];
    [by intros; simplify_eq|]. destruct (_ || _); [done|]. destruct (isIdentCont b) eqn:Hi.
  - destruct (scanIdent args false r) as [[[t1 p1] r1]|] eqn:E; simpl; [|done]. intros; simplify_eq.
    destruct (IH _ _ _ _ E) as [-> ?]. split; [done|]. constructor; [by apply ident_plain|done].
  - destruct (_ || _) eqn:Hw; [|by intros; simplify_eq].
    destruct (scanIdent args false r) as [[[t1 p1] r1]|] eqn:E; simpl; [|done]. intros; simplify_eq.
    destruct (IH _ _ _ _ E) as [-> ?]. split; [done|]. constructor; [|done].
    apply orb_true_iff in Hw as [Hw|[Hat _]%andb_true_iff]; [by eapply word_plain|].
    apply Z.eqb_eq in Hat. subst. apply at_plain.
Qed.

Lemma scanWord_split args first r t r' :
  scanWord args first r = Some (t, r') → r = t ++ r' ∧ Forall plain t.
Proof.
  revert first t r'. induction r as [|b r IH]; intros first t r'; cbn [scanWord];
    [by intros; simplify_eq|]. destruct (_ || _); [done|].
  destruct (negb (isWordByte args b) && _) eqn:Hw; [by intros; simplify_eq|].
  destruct (scanWord args false r) as [[t1 r1]|] eqn:E; simpl; [|done]. intros; simplify_eq.
  destruct (IH _ _ _ E) as [-> ?]. split; [done|]. constructor; [|done].
  apply andb_false_iff in Hw as [Hw%negb_false_iff|[Hat _]%negb_false_iff%andb_true_iff];
    [by eapply word_plain|]. apply Z.eqb_eq in Hat. subst. apply at_plain.
Qed.

Lemma takeBytes_moves k l buf : moves k l (takeBytes k l buf).
Proof.
  revert l buf. induction k as [|k IH]; intros l buf; [exact (moves_ret l buf)|]. simpl.
  eapply moves_bind; [apply advance_moves|]. intros l1 b _ _ _.
  replace (S k - 1)%nat with k by lia. apply IH.
Qed.

Lemma jump_moves {A} l t r (a : A) :
  rest l = t ++ r → Forall plain t → moves (length t) l (Ok (jump l t r, a)).
Proof.
  intros Hr Hp. split; [by apply jump_lexed|]. rewrite Hr, length_app. simpl. lia.
Qed.

Lemma readIdentOrWord_moves l sl sc b r :
  rest l = b :: r → isIdentCont b = true → moves 1 l (readIdentOrWord l sl sc).
Proof.
  intros Hr Hb. rewrite (readIdentOrWord_eq l sl sc b r Hr Hb). unfold readIdentOrWord_slow.
  cbn [slowIdent]. rewrite Hr.
  assert (escape (b :: r) = false) as ->.
  { destruct r; [done|]. simpl. apply Z.eqb_neq. intros ->. done. }
  rewrite Hb. pose proof (advance_moves l) as Hadv.
  destruct (advance l) as [[l1 b1]| |]; [|done..]. destruct Hadv as [Hl Hk]. cbn [mbind res_bind].
  rewrite Hr in Hk. simpl in Hk.
  pose proof (slowIdent_moves (S (length r)) l1 ([] ++ [b1]) true ltac:(lia)) as Hm. simpl length.
  destruct (slowIdent (S (length r)) l1 ([] ++ [b1]) true) as [[[l2 t] p]| |]; [|done..].
  destruct Hm as [Hl2 Hk2]. split; [by trans l1|rewrite Hr; simpl; lia].
Qed.

Lemma slowWord_first l fuel b r :
  rest l = b :: r → isWordByte (inArgs l) b = true → (length (rest l) <= fuel)%nat →
  moves 1 l (slowWord (S fuel) l []).
Proof.
  intros Hr Hb Hf. cbn [slowWord]. rewrite Hr in *. simpl in Hf.
  rewrite Hb, bool_decide_true, andb_false_r by done. cbn [negb andb].
  destruct (escape (b :: r)).
  - eapply moves_bind; [apply advance_moves|]. intros l1 b1 _ _ H1. rewrite Hr in H1. simpl in H1.
    eapply (moves_bind 1); [apply advance_moves|]. intros l2 b2 _ _ H2. apply slowWord_moves. lia.
  - eapply moves_bind; [apply advance_moves|]. intros l1 b1 _ _ H1. rewrite Hr in H1. simpl in H1.
    apply slowWord_moves. lia.
Qed.

Lemma readWord_moves l sl sc b r :
  rest l = b :: r → isWordByte (inArgs l) b = true → moves 1 l (readWord l sl sc).
Proof.
  intros Hr Hb. rewrite (readWord_eq l sl sc b r Hr Hb). unfold readWord_slow.
  destruct (dollarParenPrefix l) as [|k] eqn:Hk.
  - cbn [takeBytes mbind res_bind].
    eapply moves_bind; [by eapply slowWord_first|]. intros l1 t _ _ _. apply moves_ret.
  - eapply moves_bind; [apply takeBytes_moves|]. intros l1 t _ _ _.
    eapply (moves_bind 0); [apply slowWord_moves; lia|]. intros l2 t2 _ _ _.
    apply (moves_weaken 0); [apply moves_ret|lia].
Qed.

Lemma scanDigits_split r t r' : scanDigits r = (t, r') → r = t ++ r' ∧ Forall (λ b, is_digit b = true) t.
Proof.
  revert t r'. induction r as [|b r IH]; intros t r'; simpl; [by intros; simplify_eq|].
  destruct (is_digit b) eqn:Hd; [|by intros; simplify_eq].
  destruct (scanDigits r) as [t1 r1]. intros; simplify_eq. destruct (IH _ _ eq_refl) as [-> ?].
  split; [done|by constructor].
Qed.

Lemma scanRest_split args r t r' :
  scanRest args r = Some (t, r') → r = t ++ r' ∧ Forall plain t.
Proof.
  revert t r'. induction r as [|b r IH]; intros t r'; cbn [scanRest]; [by intros; simplify_eq|].
  destruct (isWordByte args b) eqn:Hw; [|by intros; simplify_eq].
  destruct (escape _); [done|]. destruct (scanRest args r) as [[t1 r1]|] eqn:E; simpl; [|done].
  intros; simplify_eq. destruct (IH _ _ eq_refl) as [-> ?]. split; [done|].
  constructor; [by eapply word_plain|done].
Qed.

Lemma digit_plain b : is_digit b = true → plain b.
Proof. intros Hd. split; intros ->; done. Qed.

Lemma digit_word args b : is_digit b = true → isWordByte args b = true.
Proof.
  intros Hd. unfold isWordByte, wordBytes. unfold is_digit in Hd.
  rewrite Hd, !orb_true_r. by destruct args.
Qed.

Lemma readNumberOrWord_moves l sl sc b r :
  rest l = b :: r → is_digit b = true → moves 1 l (readNumberOrWord l sl sc).
Proof.
  intros Hr Hb. unfold readNumberOrWord. destruct (scanDigits (rest l)) as [ds r1] eqn:E.
  assert (Hne : ds ≠ []).
  { rewrite Hr in E. simpl in E. rewrite Hb in E. destruct (scanDigits r). by simplify_eq. }
  apply scanDigits_split in E as [Hs Hd]. destruct (scanRest _ r1) as [[more r2]|] eqn:E2.
  - apply scanRest_split in E2 as [Hs2 Hp].
    apply (moves_weaken (length (ds ++ more))); [|destruct ds; [done|simpl; lia]].
    apply jump_moves; [by rewrite Hs, Hs2, app_assoc|]. apply Forall_app. split; [|done].
    eapply Forall_impl; [done|]. intros x. apply digit_plain.
  - eapply readWord_moves; [done|by apply digit_word].
Qed.

Lemma readString_moves l sl sc quote : plain quote → moves 1 l (readString l sl sc quote).
Proof.
  intros Hq. rewrite readString_eq by done. eapply moves_bind; [apply advance_moves|].
  intros l1 b _ _ _. unfold readString_slow.
  eapply (moves_bind 1); [apply slowString_moves; lia|]. intros l2 t _ _ _. apply moves_ret.
Qed.

Lemma readAngle_moves l k1 k2 sl sc : moves 1 l (readAngle l k1 k2 sl sc).
Proof.
  unfold readAngle. eapply moves_bind; [apply advance_moves|]. intros l1 b _ _ _.
  destruct (rest l1); [apply moves_ret|]. destruct (_ =? _); [|apply moves_ret].
  eapply (moves_bind 1); [apply advance_moves|]. intros l2 b2 _ _ _. apply moves_ret.
Qed.

Lemma readPair_moves l k sl sc : moves 1 l (readPair l k sl sc).
Proof.
  unfold readPair. eapply moves_bind; [apply advance_moves|]. intros l1 b _ _ _.
  eapply (moves_bind 1); [apply advance_moves|]. intros l2 b2 _ _ _. apply moves_ret.
Qed.

(** ** Trivia *)

Definition moves_l (l : Lexer) (r : res Lexer) : Prop :=
  match r with
  | Ok l' => lexed l l' ∧ (length (rest l') <= length (rest l))%nat
  | Throw => True
  | NoFuel => False
  end.

Lemma moves_l_bind {A} k l (r : res (Lexer * A)) (f : Lexer * A → res Lexer) :
  moves k l r →
  (∀ l' a, lexed l l' → (length (rest l') + k <= length (rest l))%nat → moves_l l' (f (l', a))) →
  moves_l l (r ≫= f).
Proof.
  intros Hr Hf. destruct r as [[l' a]| |]; [|done..]. destruct Hr as [Hl Hk].
  specialize (Hf l' a Hl Hk). cbn [mbind res_bind].
  destruct (f (l', a)) as [l2| |]; [|done..]. destruct Hf. split; [by trans l'|lia].
Qed.

Lemma skipComment_moves fuel l : (length (rest l) < fuel)%nat → moves_l l (skipComment fuel l).
Proof.
  revert l. induction fuel as [|fuel IH]; intros l Hf; [lia|]. cbn [skipComment].
  destruct (rest l) as [|b r] eqn:Hr; [by split; [|lia]|]. destruct (_ || _); [by split; [|lia]|].
  eapply moves_l_bind; [apply advance_moves|]. intros l1 b1 _ H1. apply IH. rewrite Hr in H1. simpl in *. lia.
Qed.

(** A comment is not empty: its "#" is consumed. *)
Lemma skipComment_strict fuel l b r :
  rest l = b :: r → plain b → (length (rest l) < fuel)%nat →
  match skipComment fuel l with
  | Ok l' => lexed l l' ∧ (length (rest l') < length (rest l))%nat
  | Throw => True
  | NoFuel => False
  end.
Proof.
  intros Hr Hb Hf. destruct fuel as [|fuel]; [lia|]. cbn [skipComment]. rewrite Hr.
  destruct Hb as [Hn Hc].
  rewrite (proj2 (Z.eqb_neq b c_nl)), (proj2 (Z.eqb_neq b c_cr)) by done. cbn [orb].
  pose proof (advance_moves l) as Hadv. destruct (advance l) as [[l1 b1]| |]; [|done..].
  destruct Hadv as [Hl Hk]. cbn [mbind res_bind]. pose proof (skipComment_moves fuel l1 ltac:(lia)) as Hm.
  destruct (skipComment fuel l1) as [l2| |]; [|done..]. destruct Hm. rewrite Hr in Hk. simpl in *.
  split; [by trans l1|lia].
Qed.

Lemma skipTrivia_moves fuel l : (length (rest l) < fuel)%nat → moves_l l (skipTrivia fuel l).
Proof.
  revert l. induction fuel as [|fuel IH]; intros l Hf; [lia|]. cbn [skipTrivia].
  destruct (rest l) as [|b r] eqn:Hr; [by split; [|lia]|]. destruct (isWhitespace b).
  { eapply moves_l_bind; [apply advance_moves|]. intros l1 b1 _ H1. apply IH. rewrite Hr in H1. simpl in *. lia. }
  destruct ((b =? 35) && _) eqn:Hc; [|by split; [|lia]].
  apply andb_true_iff in Hc as [->%Z.eqb_eq _].
  pose proof (skipComment_strict (S (length (35 :: r))) l 35 r Hr ltac:(done) ltac:(rewrite Hr; lia)) as Hs.
  destruct (skipComment _ l) as [l1| |]; [|done..]. destruct Hs as [Hl Hk]. cbn [mbind res_bind].
  specialize (IH l1 ltac:(rewrite Hr in Hk; simpl in *; lia)).
  destruct (skipTrivia fuel l1) as [l2| |]; [|done..]. destruct IH. split; [by trans l1|lia].
Qed.

(** What [readToken] does after the trivia: a token that starts at [l]. *)
Definition token_at (l : Lexer) (r : res (Lexer * Token)) : Prop :=
  match r with
  | Ok (l', t) => (tline t, tcol t) = (line l, col l) ∧ (kind t = tokEOF ↔ rest l = [])
  | _ => True
  end.

Lemma token_at_bind {A} l (r : res A) (f : A → res (Lexer * Token)) :
  (∀ a, token_at l (f a)) → token_at l (r ≫= f).
Proof. intros Hf. destruct r; [apply Hf|done..]. Qed.

Lemma readHere_moves l : moves (if decide (rest l = []) then 0 else 1) l (readHere l).
Proof.
  unfold readHere. destruct (rest l) as [|b r] eqn:Hr.
  { rewrite decide_True by done. apply moves_ret. }
  rewrite decide_False by done.
  assert (Hone : ∀ k, moves 1 l ('(l0, _) ← advance l; Ok (l0, bareToken k (line l) (col l)))).
  { intros k. eapply moves_bind; [apply advance_moves|]. intros. apply moves_ret. }
  destruct (b =? 40); [apply Hone|]. destruct (b =? 41); [apply Hone|].
  destruct (is_quote b) eqn:Hq.
  { apply readString_moves. unfold is_quote in Hq. split; intros ->; done. }
  destruct (_ && _); [apply readAngle_moves|]. destruct (_ && _); [apply readAngle_moves|].
  destruct (_ && _); [apply readPair_moves|]. destruct (_ && _); [apply readPair_moves|].
  destruct (is_digit b) eqn:Hd; [by eapply readNumberOrWord_moves|].
  destruct (isIdentStart b) eqn:Hi.
  { eapply readIdentOrWord_moves; [done|]. unfold isIdentStart, isIdentCont in *.
    apply orb_true_iff in Hi as [->| ->]; [done|]. by rewrite orb_true_r. }
  destruct (isWordByte (inArgs l) b) eqn:Hw; [by eapply readWord_moves|done].
Qed.

Lemma token_at_text l k t sl sc l' :
  (sl, sc) = (line l, col l) → k ≠ tokEOF → rest l ≠ [] → token_at l (Ok (l', newToken k t sl sc)).
Proof. intros Hp Hk Hr. split; [done|]. simpl. naive_solver. Qed.

Lemma readHere_at l : token_at l (readHere l).
Proof.
  unfold readHere. destruct (rest l) as [|b r] eqn:Hr; [by split; [|simpl; rewrite Hr]|].
  assert (Hne : rest l ≠ []) by (by rewrite Hr).
  assert (Hbare : ∀ l' k, k ≠ tokEOF → token_at l (Ok (l', bareToken k (line l) (col l)))).
  { intros l' k Hk. split; [done|]. simpl. naive_solver. }
  assert (Htext : ∀ l' k t, k ≠ tokEOF → token_at l (Ok (l', newToken k t (line l) (col l)))).
  { intros. by apply token_at_text. }
  assert (Hword : token_at l (readWord l (line l) (col l))).
  { unfold readWord. destruct (scanWord _ _ _) as [[]|]; [by apply Htext|].
    unfold readWord_slow. apply token_at_bind. intros [l1 t1]. apply token_at_bind. intros [l2 t2].
    by apply Htext. }
  repeat case_match; try done.
  all: unfold readString, readAngle, readPair, readNumberOrWord, readIdentOrWord;
    repeat (apply token_at_bind; intros []); repeat case_match; try done; try by apply Hbare.
  all: try by apply Htext.
  all: try (unfold readString_slow, readIdentOrWord_slow, ident_kind;
    apply token_at_bind; intros []; repeat case_match; try by apply Htext).
  all: repeat (apply token_at_bind; intros []); try by apply Hbare.
  all: unfold ident_kind; case_match; by apply Htext.
Qed.

Lemma readToken_spec l :
  ∃ l0, skipTrivia (S (length (rest l))) l = Ok l0 ∧ lexed l l0 ∧
    (length (rest l0) <= length (rest l))%nat ∧ readToken l = readHere l0 ∨
    readToken l = Throw.
Proof.
  pose proof (skipTrivia_moves (S (length (rest l))) l ltac:(lia)) as Hm. unfold readToken.
  destruct (skipTrivia _ l) as [l0| |]; [|exists l; by right|done].
  destruct Hm. exists l0. left. done.
Qed.

(** All tokens up to the end of the input. *)
Fixpoint tokens (fuel : nat) (l : Lexer) : res (list Token) :=
  match fuel with
  | O => NoFuel
  | S fuel =>
      '(l, t) ← next l;
      if decide (kind t = tokEOF) then Ok [t] else ts ← tokens fuel l; Ok (t :: ts)
  end.

(** C12: the fast scans of the lexer are equivalent to its byte-by-byte loops on
    every input on which [readToken] calls them: same token, same rest of the
    input, same line, column and previous byte. *)
Theorem lexer_fast_slow (l : Lexer) (startLine startCol b : Z) (r : text) :
  rest l = b :: r →
  (is_quote b = true → readString l startLine startCol b =
     ('(l, _) ← advance l; readString_slow l startLine startCol b)) ∧
  (isIdentStart b = true → readIdentOrWord l startLine startCol = readIdentOrWord_slow l startLine startCol) ∧
  (isWordByte (inArgs l) b = true → readWord l startLine startCol = readWord_slow l startLine startCol).
Proof.
  intros Hr. split_and!; intros Hb.
  - apply readString_eq. unfold is_quote in Hb. split; intros ->; done.
  - eapply readIdentOrWord_eq; [done|]. unfold isIdentStart, isIdentCont in *.
    apply orb_true_iff in Hb as [->| ->]; [done|]. by rewrite orb_true_r.
  - by eapply readWord_eq.
Qed.

Lemma lexer_fast_slow_witness :
  readWord (mkLexer (bs "$(X)/a.b rest") 1 1 0 true) 1 1 =
  readWord_slow (mkLexer (bs "$(X)/a.b rest") 1 1 0 true) 1 1.
Proof.
  apply (lexer_fast_slow (mkLexer (bs "$(X)/a.b rest") 1 1 0 true) 1 1 36 (bs "(X)/a.b rest"));
    vm_compute; reflexivity.
Defined.

(** [next] never loops; a token it returns starts at the position it
    carries, which is the position reached after skipping white space and
    comments; the lexer's line and column afterwards are those of the consumed
    text (a CRLF being one line break); only the end-of-file token consumes
    nothing, and it is returned exactly at the end of the input. *)
Theorem next_token (l : Lexer) :
  match next l with
  | Ok (l', t) => ∃ l0, lexed l l0 ∧ lexed l0 l' ∧ (tline t, tcol t) = (line l0, col l0) ∧
      (kind t = tokEOF ↔ rest l0 = []) ∧
      (kind t ≠ tokEOF → (length (rest l') < length (rest l0))%nat)
  | Throw => True
  | NoFuel => False
  end.
Proof.
  unfold next. destruct (readToken_spec l) as (l0 & [(Ht & Hl & Hlen & ->)| ->]); [|done].
  pose proof (readHere_moves l0) as Hm. pose proof (readHere_at l0) as Ha.
  destruct (readHere l0) as [[l' t]| |]; [|done..]. destruct Hm as [Hl' Hk], Ha as [Hp Heof].
  exists l0. split_and!; [done..|]. intros Hne. rewrite decide_False in Hk by tauto. lia.
Qed.

(** Reading tokens until the end of the file terminates on every input,
    after at most one token per byte: it ends with the end-of-file token or with
    a parse error. *)
Theorem tokens_terminate (l : Lexer) : tokens (S (length (rest l))) l ≠ NoFuel.
Proof.
  remember (S (length (rest l))) as fuel eqn:Hf. assert (Hlt : (length (rest l) < fuel)%nat) by lia.
  clear Hf. revert l Hlt. induction fuel as [|fuel IH]; intros l Hlt; [lia|]. cbn [tokens]. unfold next.
  destruct (readToken_spec l) as (l0 & [(Ht & Hl & Hlen & ->)| ->]); [|done].
  pose proof (readHere_moves l0) as Hm. pose proof (readHere_at l0) as Ha.
  destruct (readHere l0) as [[l' t]| |]; [|done..]. destruct Hm as [Hl' Hk], Ha as [Hp Heof].
  cbn [mbind res_bind]. destruct (decide (kind t = tokEOF)) as [|Hk']; [done|]. rewrite decide_False in Hk by tauto.
  specialize (IH l' ltac:(lia)). by destruct (tokens fuel l').
Qed.
