(* ===== verification/IncludeMemo.v ===== *)
(** * INCLUDE expansion and its memo (yamake.go: IncludeState, expandOneInclude)

    INCLUDE splices the statements of another build file while the parser runs;
    INCLUDE_ONCE makes the later inclusions of the current file empty, so what a
    file expands to depends on the files seen so far.  The parser records, for
    each included file, the statements it produced and the questions it asked
    about the set of seen files, and reuses the statements when the questions
    would be answered alike.  Files are given as the sequences of statements,
    INCLUDE_ONCE and INCLUDE they hold, up to a syntax error if there is one; the memo
    is shown to be transparent.  Parser.v shows that build files are such sequences. *)

From S2P Require Import Prelude.
Local Open Scope Z_scope.

Section types.
Context (K T : Type).

Inductive item :=
| IStmt (s : T)                (** a statement *)
| IOnce                        (** INCLUDE_ONCE() *)
| IInclude (f : K) (line : Z)  (** INCLUDE(f), the resolved target *)
| IThrow.                      (** an error *)

(** A statement produced: one of the file's, or the note that a target is missing. *)
Inductive stmt := Stmt (s : T) | MissingIncludeStmt (f : K) (line : Z).
End types.

Arguments IStmt {K T}.
Arguments IOnce {K T}.
Arguments IInclude {K T}.
Arguments IThrow {K T}.
Arguments Stmt {K T}.
Arguments MissingIncludeStmt {K T}.

Inductive includeEventKind := includeSeen | includeUnseen | includeOnce.

#[export] Instance includeEventKind_eq_dec : EqDecision includeEventKind.
Proof. solve_decision. Defined.

Record includeMemo (S E : Type) := mkMemo { mstmts : list S; mevents : list E }.
Arguments mkMemo {S E}.
Arguments mstmts {S E}.
Arguments mevents {S E}.

Section expand.
Context {T : Type} `{Countable K}.
Abbreviation event := (K * includeEventKind)%type.

(** Statements, recorded events, and the set [once] afterwards. *)
Abbreviation outcome := (list (stmt K T) * list event * gset K)%type.

Definition prepend (st : list (stmt K T)) (ev : list event) (o : outcome) : outcome :=
  (st ++ o.1.1, ev ++ o.1.2, o.2).

Context (files : gmap K (list (item K T))).

(** ** Without the memo *)

(** The items of file [name]; [chain] are the files being parsed, this one last;
    [parseFile] parses an included file. *)
Fixpoint run_items (parseFile : list K → K → list (item K T) → gset K → res outcome)
    (chain : list K) (name : K) (items : list (item K T)) (once : gset K) : res outcome :=
  match items with
  | [] => Ok ([], [], once)
  | IStmt s :: items => o ← run_items parseFile chain name items once; Ok (prepend [Stmt s] [] o)
  | IOnce :: items =>
      o ← run_items parseFile chain name items ({[name]} ∪ once);
      Ok (prepend [] [(name, includeOnce)] o)
  | IInclude f line :: items =>
      if decide (f ∈ once) then
        o ← run_items parseFile chain name items once;
        Ok (prepend [] [(f, includeSeen)] o)
      else if decide (f ∈ chain) then Throw
      else
        match files !! f with
        | None =>
            o ← run_items parseFile chain name items once;
            Ok (prepend [MissingIncludeStmt f line] [(f, includeUnseen)] o)
        | Some its =>
            o1 ← parseFile chain f its once;
            o ← run_items parseFile chain name items o1.2;
            Ok (prepend o1.1.1 ((f, includeUnseen) :: o1.1.2) o)
        end
  | IThrow :: _ => Throw
  end.

(** [parseInternalWithState]: the fuel bounds the depth of inclusion. *)
Fixpoint run_file (fuel : nat) (chain : list K) (name : K) (src : list (item K T)) (once : gset K)
    : res outcome :=
  match fuel with
  | O => NoFuel
  | S fuel => run_items (run_file fuel) (chain ++ [name]) name src once
  end.

(** ** With the memo *)

(** [replay]: the list [added] if every question has the recorded answer. *)
Fixpoint replay_events (chain : list K) (once : gset K) (added : list K) (evs : list event)
    : option (list K) :=
  match evs with
  | [] => Some added
  | (f, k) :: evs =>
      if decide (k = includeOnce) then replay_events chain once (added ++ [f]) evs
      else
        let seen := bool_decide (f ∈ once) || bool_decide (f ∈ added) in
        if negb (Bool.eqb seen (bool_decide (k = includeSeen))) || negb seen && bool_decide (f ∈ chain)
        then None
        else replay_events chain once added evs
  end.

Definition replay {X} (chain : list K) (once : gset K) (m : includeMemo X event) : option (gset K) :=
  added ← replay_events chain once [] (mevents m);
  Some (list_to_set added ∪ once).

(** The loop over the memos of a target. *)
Fixpoint find_memo {X} (chain : list K) (once : gset K) (ms : list (includeMemo X event))
    : option (list X * list event * gset K) :=
  match ms with
  | [] => None
  | m :: ms =>
      match replay chain once m with
      | Some once' => Some (mstmts m, mevents m, once')
      | None => find_memo chain once ms
      end
  end.

Abbreviation memos := (gmap K (list (includeMemo (stmt K T) event))).

Definition add_memo (M : memos) (f : K) (o : outcome) : memos :=
  <[f := default [] (M !! f) ++ [mkMemo o.1.1 o.1.2]]> M.

(** The memos outlive an exception, so they are returned beside the result. *)
Fixpoint memo_items (parseFile : memos → list K → K → list (item K T) → gset K → memos * res outcome)
    (M : memos) (chain : list K) (name : K) (items : list (item K T)) (once : gset K)
    : memos * res outcome :=
  match items with
  | [] => (M, Ok ([], [], once))
  | IStmt s :: items =>
      let '(M, r) := memo_items parseFile M chain name items once in
      (M, o ← r; Ok (prepend [Stmt s] [] o))
  | IOnce :: items =>
      let '(M, r) := memo_items parseFile M chain name items ({[name]} ∪ once) in
      (M, o ← r; Ok (prepend [] [(name, includeOnce)] o))
  | IInclude f line :: items =>
      if decide (f ∈ once) then
        let '(M, r) := memo_items parseFile M chain name items once in
        (M, o ← r; Ok (prepend [] [(f, includeSeen)] o))
      else if decide (f ∈ chain) then (M, Throw)
      else
        match find_memo chain once (default [] (M !! f)) with
        | Some o1 =>
            let '(M, r) := memo_items parseFile M chain name items o1.2 in
            (M, o ← r; Ok (prepend o1.1.1 ((f, includeUnseen) :: o1.1.2) o))
        | None =>
            match files !! f with
            | None =>
                let '(M, r) := memo_items parseFile M chain name items once in
                (M, o ← r; Ok (prepend [MissingIncludeStmt f line] [(f, includeUnseen)] o))
            | Some its =>
                match parseFile M chain f its once with
                | (M, Ok o1) =>
                    let '(M, r) := memo_items parseFile (add_memo M f o1) chain name items o1.2 in
                    (M, o ← r; Ok (prepend o1.1.1 ((f, includeUnseen) :: o1.1.2) o))
                | (M, Throw) => (M, Throw)
                | (M, NoFuel) => (M, NoFuel)
                end
            end
        end
  | IThrow :: _ => (M, Throw)
  end.

Fixpoint memo_file (fuel : nat) (M : memos) (chain : list K) (name : K) (src : list (item K T))
    (once : gset K) : memos * res outcome :=
  match fuel with
  | O => (M, NoFuel)
  | S fuel => memo_items (memo_file fuel) M (chain ++ [name]) name src once
  end.

(** [parse]: each top-level file starts with nothing seen; the memos are shared. *)
Definition parse (fuel : nat) (M : memos) (name : K) (src : list (item K T)) : memos * res outcome :=
  memo_file fuel M [] name src ∅.

(** A sequence of top-level files parsed with the same memos. *)
Fixpoint parse_all (fuel : nat) (M : memos) (mks : list (K * list (item K T))) : list (res outcome) :=
  match mks with
  | [] => []
  | (name, src) :: mks => let '(M, r) := parse fuel M name src in r :: parse_all fuel M mks
  end.

(** ** A run repeated under other circumstances *)

Lemma replay_app chain once added e1 e2 :
  replay_events chain once added (e1 ++ e2) =
    a ← replay_events chain once added e1; replay_events chain once a e2.
Proof.
  revert added. induction e1 as [|[f k] e1 IH]; intros added; simpl; [done|].
  case_decide; [apply IH|]. destruct (_ || _); [done|apply IH].
Qed.

(** The state a replay with [added] stands for. *)
Definition seen_set (once : gset K) (added : list K) : gset K := list_to_set added ∪ once.

(** [parseFile] gives the same outcome in every state in which the replay of its
    events succeeds. *)
Definition repeats (parseFile : list K → K → list (item K T) → gset K → res outcome) : Prop :=
  ∀ c1 c2 s f src once1 st ev once1', parseFile (c1 ++ s) f src once1 = Ok (st, ev, once1') →
    ∀ once2 a0 a1, replay_events c2 once2 a0 ev = Some a1 →
      parseFile (c2 ++ s) f src (seen_set once2 a0) = Ok (st, ev, seen_set once2 a1).

(** The first event of a run decides its first step. *)
Lemma replay_seen chain once added f k evs a :
  k ≠ includeOnce → replay_events chain once added ((f, k) :: evs) = Some a →
  bool_decide (f ∈ seen_set once added) = bool_decide (k = includeSeen) ∧
  (k = includeUnseen → f ∉ chain) ∧ replay_events chain once added evs = Some a.
Proof.
  intros Hk. simpl. rewrite decide_False by done.
  assert (Hs : bool_decide (f ∈ once) || bool_decide (f ∈ added) = bool_decide (f ∈ seen_set once added)).
  { apply eq_true_iff_eq. unfold seen_set. rewrite orb_true_iff, !bool_decide_eq_true. set_solver. }
  rewrite Hs. destruct (Bool.eqb _ _) eqn:He; [|done]. apply eqb_prop in He. rewrite He. simpl.
  destruct (negb _ && _) eqn:Hc; [done|]. intros Hr. split_and!; [done| |done].
  intros ->. rewrite bool_decide_false in Hc by done. by apply bool_decide_eq_false in Hc.
Qed.

Lemma seen_set_snoc once added f : seen_set once (added ++ [f]) = {[f]} ∪ seen_set once added.
Proof. unfold seen_set. rewrite list_to_set_app_L. set_solver. Qed.

Lemma run_items_repeats parseFile c1 c2 s name items once1 st ev once1' once2 a0 a1 :
  repeats parseFile →
  run_items parseFile (c1 ++ s) name items once1 = Ok (st, ev, once1') →
  replay_events c2 once2 a0 ev = Some a1 →
  run_items parseFile (c2 ++ s) name items (seen_set once2 a0) = Ok (st, ev, seen_set once2 a1).
Proof.
  intros Hrec. revert once1 st ev once1' a0.
  induction items as [|[t| |f ln|] items IH]; intros once1 st ev once1' a0 Hrun Hre; simpl in Hrun; [| | | |done].
  - simplify_eq. simpl in Hre. by simplify_eq.
  - apply res_bind_Ok in Hrun as ([[st' ev'] o'] & Hr & [= <- <- <-]). simpl.
    by rewrite (IH _ _ _ _ _ Hr Hre).
  - apply res_bind_Ok in Hrun as ([[st' ev'] o'] & Hr & [= <- <- <-]). simpl in Hre |- *.
    rewrite <-seen_set_snoc. by rewrite (IH _ _ _ _ _ Hr Hre).
  - case_decide as Hseen; [|case_decide as Hch; [done|destruct (files !! f) as [its|] eqn:Hf]].
    + apply res_bind_Ok in Hrun as ([[st' ev'] o'] & Hr & [= <- <- <-]).
      apply replay_seen in Hre as (Hb & _ & Hre); [|done].
      rewrite (bool_decide_true (includeSeen = includeSeen)) in Hb by done.
      apply bool_decide_eq_true in Hb. simpl. rewrite decide_True by done.
      by rewrite (IH _ _ _ _ _ Hr Hre).
    + apply res_bind_Ok in Hrun as ([[st0 ev0] o0] & Hr0 & Hrun).
      apply res_bind_Ok in Hrun as ([[st' ev'] o'] & Hr & [= <- <- <-]). simpl in Hre, Hr.
      apply (replay_seen _ _ _ f includeUnseen) in Hre as (Hb & Hch2 & Hre); [|done].
      rewrite (bool_decide_false (includeUnseen = includeSeen)) in Hb by done.
      apply bool_decide_eq_false in Hb. rewrite replay_app in Hre.
      destruct (replay_events c2 once2 a0 ev0) as [a|] eqn:Ha; [|done]. simpl in Hre. simpl.
      assert (f ∉ c2 ++ s) by (rewrite elem_of_app in Hch |- *; specialize (Hch2 eq_refl); tauto).
      rewrite decide_False, decide_False, Hf by done.
      rewrite (Hrec _ _ _ _ _ _ _ _ _ Hr0 _ _ _ Ha). cbn [mbind res_bind snd].
      by rewrite (IH _ _ _ _ _ Hr Hre).
    + apply res_bind_Ok in Hrun as ([[st' ev'] o'] & Hr & [= <- <- <-]). simpl in Hre.
      apply (replay_seen _ _ _ f includeUnseen) in Hre as (Hb & Hch2 & Hre); [|done].
      rewrite (bool_decide_false (includeUnseen = includeSeen)) in Hb by done.
      apply bool_decide_eq_false in Hb. simpl.
      assert (f ∉ c2 ++ s) by (rewrite elem_of_app in Hch |- *; specialize (Hch2 eq_refl); tauto).
      rewrite decide_False, decide_False, Hf by done.
      by rewrite (IH _ _ _ _ _ Hr Hre).
Qed.

Lemma run_file_repeats fuel : repeats (run_file fuel).
Proof.
  induction fuel as [|fuel IH]; intros c1 c2 s f src once1 st ev once1' Hrun once2 a0 a1 Hre; [done|].
  cbn [run_file] in *. rewrite <-app_assoc in *. by eapply run_items_repeats.
Qed.

(** ** More fuel changes nothing *)

Lemma run_items_mono p q chain name items once :
  (∀ f src o, p chain f src o ≠ NoFuel → q chain f src o = p chain f src o) →
  run_items p chain name items once ≠ NoFuel →
  run_items q chain name items once = run_items p chain name items once.
Proof.
  intros Hpq. revert once. induction items as [|[t| |f ln|] items IH]; intros once Hne; simpl in *; [done| | | |done].
  - rewrite IH; [done|]. by intros E; rewrite E in Hne.
  - rewrite IH; [done|]. by intros E; rewrite E in Hne.
  - destruct (decide (f ∈ once)); [|destruct (decide (f ∈ chain)); [done|]].
    + rewrite IH; [done|]. by intros E; rewrite E in Hne.
    + destruct (files !! f) as [its|].
      * rewrite Hpq by (by intros E; rewrite E in Hne).
        destruct (p chain f its once) as [o1| |]; try done. cbn [mbind res_bind] in *.
        rewrite IH; [done|]. by intros E; rewrite E in Hne.
      * rewrite IH; [done|]. by intros E; rewrite E in Hne.
Qed.

Lemma run_file_S n chain f src once :
  run_file n chain f src once ≠ NoFuel → run_file (S n) chain f src once = run_file n chain f src once.
Proof.
  revert chain f src once. induction n as [|n IH]; intros chain f src once Hne; [done|].
  change (run_items (run_file (S n)) (chain ++ [f]) f src once =
          run_items (run_file n) (chain ++ [f]) f src once).
  by apply run_items_mono; [intros; apply IH|].
Qed.

Lemma run_file_mono n m chain f src once :
  (n ≤ m)%nat → run_file n chain f src once ≠ NoFuel →
  run_file m chain f src once = run_file n chain f src once.
Proof.
  induction 1 as [|m Hle IH]; intros Hne; [done|].
  rewrite run_file_S; rewrite IH; done.
Qed.

Lemma run_file_agree n m chain f src once :
  run_file n chain f src once ≠ NoFuel → run_file m chain f src once ≠ NoFuel →
  run_file n chain f src once = run_file m chain f src once.
Proof.
  intros. destruct (Nat.le_ge_cases n m); [symmetry|]; by apply run_file_mono.
Qed.

(** ** The depth of inclusion is bounded by the number of files *)

Definition unvisited (chain : list K) : nat := size (dom files ∖ list_to_set chain).

Lemma unvisited_snoc chain f its :
  files !! f = Some its → f ∉ chain → (unvisited (chain ++ [f]) < unvisited chain)%nat.
Proof.
  intros Hf Hch. unfold unvisited. apply subset_size. rewrite list_to_set_app_L.
  apply elem_of_dom_2 in Hf. split; [set_solver|].
  intros Hsub. assert (f ∈ dom files ∖ list_to_set (C := gset K) chain) by set_solver. set_solver.
Qed.

Lemma run_items_fuel parseFile chain name items once :
  (∀ f its o, files !! f = Some its → f ∉ chain → parseFile chain f its o ≠ NoFuel) →
  run_items parseFile chain name items once ≠ NoFuel.
Proof.
  intros Hp. revert once. induction items as [|[t| |f ln|] items IH]; intros once; simpl; [done| | | |done].
  - specialize (IH once). by destruct (run_items _ _ _ _ _).
  - specialize (IH ({[name]} ∪ once)). by destruct (run_items _ _ _ _ _).
  - destruct (decide (f ∈ once)); [|destruct (decide (f ∈ chain)); [done|]].
    + specialize (IH once). by destruct (run_items _ _ _ _ _).
    + destruct (files !! f) as [its|] eqn:Hf.
      * specialize (Hp f its once Hf). destruct (parseFile chain f its once) as [o1| |]; [|done|tauto].
        cbn [mbind res_bind]. specialize (IH o1.2). by destruct (run_items _ _ _ _ _).
      * specialize (IH once). by destruct (run_items _ _ _ _ _).
Qed.

Lemma run_file_fuel fuel chain name src once :
  (unvisited (chain ++ [name]) < fuel)%nat → run_file fuel chain name src once ≠ NoFuel.
Proof.
  revert chain name src once. induction fuel as [|fuel IH]; intros chain name src once Hlt; [lia|].
  cbn [run_file]. apply run_items_fuel. intros f its o Hf Hch. apply IH.
  pose proof (unvisited_snoc _ _ _ Hf Hch). lia.
Qed.

Lemma run_file_top_fuel fuel name src once :
  (size (dom files) < fuel)%nat → run_file fuel [] name src once ≠ NoFuel.
Proof.
  intros Hlt. apply run_file_fuel. apply (Nat.le_lt_trans _ (size (dom files))); [|done].
  unfold unvisited. apply subseteq_size. set_solver.
Qed.

(** ** The memo is transparent *)

(** Every memo of a target records a run of that target's file. *)
Definition memo_of (f : K) (m : includeMemo (stmt K T) event) : Prop :=
  ∃ its n chain once once',
    files !! f = Some its ∧ run_file n chain f its once = Ok (mstmts m, mevents m, once').

Definition valid (M : memos) : Prop := ∀ f, Forall (memo_of f) (default [] (M !! f)).

Lemma valid_empty : valid ∅.
Proof. intros f. by rewrite lookup_empty. Qed.

Lemma valid_add M f its n chain once o :
  valid M → files !! f = Some its → run_file n chain f its once = Ok o → valid (add_memo M f o).
Proof.
  intros HM Hf Hr g. unfold add_memo. destruct (decide (g = f)) as [->|].
  - rewrite lookup_insert_eq. simpl. apply Forall_app. split; [apply HM|].
    constructor; [|done]. destruct o as [[st ev] o]. by exists its, n, chain, once, o.
  - rewrite lookup_insert_ne by done. apply HM.
Qed.

Lemma find_memo_run chain once f ms o :
  Forall (memo_of f) ms → find_memo chain once ms = Some o →
  ∃ its n, files !! f = Some its ∧ run_file n chain f its once = Ok o.
Proof.
  induction 1 as [|m ms (its & n & c1 & o1 & o1' & Hf & Hr) _ IH]; simpl; [done|].
  unfold replay. destruct (replay_events chain once [] (mevents m)) as [a|] eqn:Ha; simpl; [|done].
  intros [= <-]. exists its, n. split; [done|].
  rewrite <-(app_nil_r c1) in Hr. pose proof (run_file_repeats n _ chain _ _ _ _ _ _ _ Hr _ _ _ Ha) as Hre.
  rewrite app_nil_r in Hre. unfold seen_set in Hre at 1. by rewrite list_to_set_nil, (left_id_L ∅ (∪)) in Hre.
Qed.

(** [mem] computes what [plain] does whenever [plain] has fuel, and keeps the memos valid. *)
Definition transparent (chain : list K) (plain : K → list (item K T) → gset K → res outcome)
    (mem : memos → K → list (item K T) → gset K → memos * res outcome) : Prop :=
  ∀ M f its o, valid M → files !! f = Some its → f ∉ chain → plain f its o ≠ NoFuel →
    ∃ M', mem M f its o = (M', plain f its o) ∧ valid M'.

Lemma memo_items_transparent n mem M chain name items once :
  transparent chain (run_file n chain) (λ M, mem M chain) → valid M →
  run_items (run_file n) chain name items once ≠ NoFuel →
  ∃ M', memo_items mem M chain name items once = (M', run_items (run_file n) chain name items once) ∧
        valid M'.
Proof.
  intros Hmem. revert M once.
  induction items as [|[t| |f ln|] items IH]; intros M once HM Hne; simpl in *; [by exists M| | | |by exists M].
  - edestruct (IH M once) as (M' & -> & ?); [done| |by exists M']. by intros E; rewrite E in Hne.
  - edestruct (IH M ({[name]} ∪ once)) as (M' & -> & ?); [done| |by exists M'].
    by intros E; rewrite E in Hne.
  - destruct (decide (f ∈ once)); [|destruct (decide (f ∈ chain)) as [|Hch]; [by exists M|]].
    { edestruct (IH M once) as (M' & -> & ?); [done| |by exists M']. by intros E; rewrite E in Hne. }
    destruct (find_memo chain once _) as [o1|] eqn:Hfind.
    + destruct (find_memo_run _ _ f _ _ (HM f) Hfind) as (its & m & Hf & Hr). rewrite Hf in *.
      assert (Hn : run_file n chain f its once = Ok o1).
      { rewrite <-Hr. apply run_file_agree; [|by rewrite Hr]. by intros E; rewrite E in Hne. }
      rewrite Hn in *. cbn [mbind res_bind] in *.
      edestruct (IH M o1.2) as (M' & -> & ?); [done| |by exists M']. by intros E; rewrite E in Hne.
    + destruct (files !! f) as [its|] eqn:Hf.
      * destruct (Hmem M f its once) as (M1 & -> & HM1); [done..| |].
        { by intros E; rewrite E in Hne. }
        destruct (run_file n chain f its once) as [o1| |] eqn:Hn; [|by exists M1|by exists M1].
        cbn [mbind res_bind] in *.
        edestruct (IH (add_memo M1 f o1) o1.2) as (M' & -> & ?); [by eapply valid_add| |by exists M'].
        by intros E; rewrite E in Hne.
      * edestruct (IH M once) as (M' & -> & ?); [done| |by exists M']. by intros E; rewrite E in Hne.
Qed.

Lemma memo_file_transparent n M chain name src once :
  valid M → run_file n chain name src once ≠ NoFuel →
  ∃ M', memo_file n M chain name src once = (M', run_file n chain name src once) ∧ valid M'.
Proof.
  revert M chain name src once. induction n as [|n IH]; intros M chain name src once HM Hne; [done|].
  cbn [run_file memo_file] in *. apply memo_items_transparent; [|done..].
  intros M1 f its o HM1 _ _ Hne1. by apply IH.
Qed.

Lemma parse_all_transparent fuel M mks :
  (size (dom files) < fuel)%nat → valid M →
  parse_all fuel M mks = (λ mk, run_file fuel [] mk.1 mk.2 ∅) <$> mks.
Proof.
  intros Hlt. revert M. induction mks as [|[name src] mks IH]; intros M HM; [done|].
  simpl. unfold parse.
  destruct (memo_file_transparent fuel M [] name src ∅) as (M' & -> & HM'); [done| |by rewrite IH].
  by apply run_file_top_fuel.
Qed.
End expand.

(** Reusing recorded INCLUDE expansions changes nothing: whatever files are
    parsed one after the other with shared memos, each yields the statements, the
    recorded questions and the INCLUDE_ONCE set (or the INCLUDE cycle error) of a
    parse that re-reads every included file, and all the parses terminate, the depth
    of inclusion being bounded by the number of files. *)
Theorem include_memo_transparent {T} `{Countable K} (files : gmap K (list (item K T))) fuel mks :
  (size (dom files) < fuel)%nat →
  parse_all files fuel ∅ mks = (λ mk, run_file files fuel [] mk.1 mk.2 ∅) <$> mks ∧
  Forall (λ r, r ≠ NoFuel) (parse_all files fuel ∅ mks).
Proof.
  intros Hlt. rewrite parse_all_transparent by (done || apply valid_empty). split; [done|].
  apply Forall_fmap, Forall_true. intros [name src]. by apply run_file_top_fuel.
Qed.

(** Files 1 (INCLUDE_ONCE, a statement) and 2 (which includes 1); two parses that
    include 2 twice, and 1 before or after it, one that stops at an error and one that
    includes itself through 3. *)
Definition sample_files : gmap Z (list (item Z Z)) :=
  {[1 := [IOnce; IStmt 10]; 2 := [IInclude 1 0; IStmt 20]; 3 := [IInclude 9 0]]}.
Definition sample_parses : list (Z * list (item Z Z)) :=
  [(7, [IInclude 2 0; IInclude 2 0; IInclude 1 0]); (8, [IInclude 1 0; IInclude 2 0; IInclude 5 0]);
   (9, [IInclude 2 0; IThrow]); (9, [IInclude 2 0; IInclude 3 0])].

Lemma include_memo_transparent_witness :
  fmap fst <$> (((λ r, match r with Ok o => Some o.1 | _ => None end) <$> parse_all sample_files 4 ∅ sample_parses))
    = [Some [Stmt 10; Stmt 20; Stmt 20]; Some [Stmt 10; Stmt 20; MissingIncludeStmt 5 0]; None; None] ∧
  parse_all sample_files 4 ∅ sample_parses =
    (λ mk, run_file sample_files 4 [] mk.1 mk.2 ∅) <$> sample_parses.
Proof.
  split; [vm_compute; reflexivity|].
  apply (include_memo_transparent sample_files 4 sample_parses). vm_compute. lia.
Defined.
