(* ===== verification/Stmts.v ===== *)
(** * The statements of a build file (yamake.go: Stmt, buildStmtForID)

    A macro call of a build file, its name and its words, becomes a typed
    statement: the name selects the kind, the number of words is checked, and the
    words of the larger macros are sorted by the keywords among them.  Interned
    words are kept as their texts, as in Lexer.v; [None] is the zero word.  The
    sequence numbers that later passes fill in are left out. *)

From S2P Require Import Prelude Cond.
Local Open Scope Z_scope.

Abbreviation ANY := (list Z) (only parsing).

(** [a == kwX.any()] *)
Definition kw (a : ANY) (w : string) : bool := bool_decide (a = bs w).
Definition oneOf (a : ANY) (ws : list string) : bool := existsb (kw a) ws.

(** ** Data *)

Record AddInclStmt := mkAddIncl {
  GlobalPaths : list ANY; OneLevelPaths : list ANY; OwnPaths : list ANY;
  CythonPaths : list ANY; CythonGlobalPaths : list ANY; AsmPaths : list ANY;
  ProtoPaths : list ANY; ProtoGlobalPaths : list ANY; ProtoAllPaths : list ANY;
  FlatcPaths : list ANY; FlatcGlobalPaths : list ANY; SwigPaths : list ANY; SwigGlobalPaths : list ANY;
  ScPaths : list ANY; ScGlobalPaths : list ANY; ScExportPaths : list ANY;
  UserGlobalPaths : list ANY; AllPaths : list ANY }.

(** What RUN_PROGRAM and RUN_PYTHON3 have in common; [Head] is the tool or the script. *)
Record RunStmt := mkRun {
  Head : ANY; RArgs : list ANY; INFiles : list ANY; INNoParse : Z;
  OUTFiles : list ANY; OUTNoAutoFiles : list ANY; StdoutFile : option ANY; StdoutNoAuto : bool;
  EnvPairs : list ANY; CWD : option ANY; OutputIncludes : list ANY; InducedDeps : list ANY;
  ToolPaths : list ANY }.

Record Antlr4Cpp := mkAntlr4Cpp { Options : list ANY; Visitor : bool; Listener : bool; AOutputIncludes : list ANY }.

Record Antlr := mkAntlr {
  AArgs : list ANY; AINFiles : list ANY; AOUTFiles : list ANY; AOUTNoAutoFiles : list ANY;
  ACWD : option ANY; AnOutputIncludes : list ANY }.

Record FromSandbox := mkSandbox {
  ResourceId : option ANY; File : bool; Executable : bool; Prefix : ANY;
  SOUTFiles : list ANY; SOUTNoAutoFiles : list ANY; SOutputIncludes : list ANY;
  SInducedDeps : list ANY; Renames : list ANY }.

Record SplitCodegen := mkSplit {
  ToolPath : option ANY; SPrefix : option ANY; Opts : list ANY; OutNum : Z; SpOutputIncludes : list ANY }.

Inductive Stmt :=
| ModuleStmt (name : ANY) (schema : bool) (args : list ANY) (line : Z)
| DeclareResourceStmt (macro : ANY) (args : list ANY) (line : Z)
| PeerdirStmt (paths : list ANY) (line : Z)
| SrcsStmt (sources : list ANY) (line : Z)
| SetStmt (name : ANY) (env : Z) (value : ANY) (plain : bool) (lexicalValue : ANY) (line : Z)
| EndStmt (line : Z)
| JoinSrcsStmt (output : ANY) (sources : list ANY) (line : Z)
| AddIncl (paths : AddInclStmt) (line : Z)
| CFlagsStmt (flags : list ANY) (global : bool) (line : Z)
| CXXFlagsStmt (flags : list ANY) (line : Z)
| CONLYFlagsStmt (flags : list ANY) (line : Z)
| LDFlagsStmt (flags : list ANY) (line : Z)
| SrcDirStmt (dirs : list ANY) (line : Z)
| GlobalSrcsStmt (sources : list ANY) (line : Z)
| GenerateEnumSerializationStmt (macro header variant : ANY) (line : Z)
| DefaultVarStmt (name : ANY) (env : Z) (value : ANY) (line : Z)
| ConfigureFileStmt (src dst : ANY) (line : Z)
| CreateBuildInfoStmt (header : ANY) (line : Z)
| RunAntlr4CppStmt (grammar : ANY) (common : Antlr4Cpp) (line : Z)
| RunAntlr4CppSplitStmt (lexer parser : ANY) (common : Antlr4Cpp) (line : Z)
| RunAntlr4PythonStmt (args : list ANY) (version : ANY) (line : Z)
| RunAntlrStmt (macro : ANY) (a : Antlr) (line : Z)
| RunProgramStmt (callArgs : list ANY) (run : RunStmt) (line : Z)
| RunPythonStmt (lua : bool) (run : RunStmt) (line : Z)
| SplitCodegenStmt (split : SplitCodegen) (line : Z)
| BaseCodegenStmt (tool prefix : ANY) (opts outputIncludes : list ANY) (macro : ANY) (line : Z)
| FromSandboxStmt (sandbox : FromSandbox) (line : Z)
| ResourceStmt (args : list ANY) (line : Z)
| ResourceFilesStmt (args : list ANY) (line : Z)
| AllResourceFilesStmt (args : list ANY) (fromDirs : bool) (line : Z)
| UnknownStmt (raw : ANY) (args lexicalArgs : list ANY) (internal : bool) (line : Z)
| IfStmt (cond : list CondNode) (then_ else_ : list Stmt) (line : Z)
| IncludeStmt (file path : ANY) (line : Z)
| MissingIncludeStmt (path : ANY) (line : Z).

(** ** Kinds *)

Inductive StmtKind :=
| kindProgram | kindProtoSchema | kindDeclareExternalResource | kindPeerdir | kindSrcs | kindSet | kindEnd
| kindJoinSrcs | kindAddincl | kindCflags | kindCxxflags | kindConlyflags | kindLdflags | kindSrcdir | kindGlobalSrcs
| kindGenerateEnumSerialization | kindAliceGenerateNoexceptEnumSerialization
| kindGenerateEnumSerializationWithHeader | kindGenerateEnumSerializationNoutf
| kindDefault | kindConfigureFile | kindCreateBuildinfoFor | kindRunAntlr4Cpp | kindRunAntlr4CppSplit
| kindRunAntlr4Python2 | kindRunAntlr | kindRunProgram | kindRunPython3 | kindRunLua | kindSplitCodegen
| kindBaseCodegen | kindStructCodegen | kindFromSandbox | kindResource | kindResourceFiles
| kindAllResourceFiles | kindAllResourceFilesFromDirs.

Local Open Scope string_scope.
Local Open Scope list_scope.

(** The table [stmtKindNames]. *)
Definition stmtKindNames : list (StmtKind * list string) := [
  (kindProgram, ["PROGRAM"; "LIBRARY"; "CUDA_DEVICE_LINK_LIBRARY"; "DOCS"; "DOCS_LIBRARY"; "CRATE";
     "CRATE_PROC_MACRO"; "RUST_BUILD_SCRIPT"; "RUST_RUNTIME"; "TS_PACKAGE"; "TS_LIBRARY"; "TS_NEXT"; "TS_VITE";
     "TS_RSPACK"; "TS_TSC"; "TS_TEST_FOR"; "TS_TEST_JEST_FOR"; "TS_TEST_VITEST_FOR"; "PY23_NATIVE_LIBRARY";
     "PY3_LIBRARY"; "PY23_LIBRARY"; "PY2_LIBRARY"; "SANDBOX_TASK"; "SANDBOX_PY3_TASK"; "SANDBOX_PY23_TASK";
     "SANDBOX_PY23_3_TASK"; "PY3_PROGRAM_BIN"; "PY2_PROGRAM"; "PY3_PROGRAM"; "PY3TEST"; "PY3TEST_BIN";
     "PY2TEST"; "PY23_TEST"; "PY2MODULE"; "PY3MODULE"; "PY_ANY_MODULE"; "YQL_PREBUILT_TOOL"; "YQL_UDF";
     "YQL_PYTHON_UDF"; "YQL_PYTHON3_UDF"; "YQL_UDF_YDB"; "YQL_UDF_CONTRIB"; "YQL_UDF_TEST"; "YQL_UDF_MINITEST";
     "YQL_LIBRARY"; "YQL_PREBUILT_PROGRAM"; "PROTO_LIBRARY"; "ROS_LIBRARY"; "MLAUNCH_LIBRARY";
     "MLAUNCH_COMPONENT"; "MLAUNCH_PIPELINE"; "SDC_DIAGS_LIBRARY"; "GOLAUNCH_PROGRAM"; "GOLAUNCH_COMPOSITE";
     "PROTO_DESCRIPTIONS"; "PROTO_REGISTRY"; "DLL"; "DLL_TOOL"; "SO_PROGRAM"; "DYNAMIC_LIBRARY"; "UDF_BASE";
     "PACKAGE"; "UNION"; "SDC_UNION"; "CI_GROUP"; "RESOURCES_LIBRARY"; "GEN_LIBRARY"; "PREBUILT_PROGRAM";
     "FBS_LIBRARY"; "GO_LIBRARY"; "GO_PROGRAM"; "GO_TEST"; "GO_DLL"; "EXECTEST"; "UNITTEST_FOR"; "UNITTEST";
     "UNITTEST_WITH_CUSTOM_ENTRY_POINT"; "YT_UNITTEST"; "GTEST"; "G_BENCHMARK"; "Y_BENCHMARK"; "FUZZ";
     "BOOSTTEST"; "BOOSTTEST_WITH_MAIN"; "JAVA_LIBRARY"; "JAVA_LIBRARY_SPLIT"; "JAVA_LIBRARY_NON_SPLIT";
     "JAVA_PROGRAM"; "JAVA_CONTRIB"; "JAVA_CONTRIB_PROXY"; "JAVA_CONTRIB_PROGRAM";
     "JAVA_CONTRIB_ANNOTATION_PROCESSOR"; "JAVA_ANNOTATION_PROCESSOR"; "JAVA_TEST_LIBRARY"; "JUNIT5"; "JUNIT6";
     "JTEST"; "JTEST_FOR"; "EXTERNAL_JAVA_LIBRARY"; "JAR_LIBRARY"; "DLL_JAVA"]);
  (kindProtoSchema, ["PROTO_SCHEMA"]);
  (kindDeclareExternalResource, ["DECLARE_EXTERNAL_RESOURCE"; "DECLARE_EXTERNAL_HOST_RESOURCES_BUNDLE";
     "DECLARE_EXTERNAL_HOST_RESOURCES_BUNDLE_BY_JSON"]);
  (kindPeerdir, ["PEERDIR"]);
  (kindSrcs, ["SRCS"]);
  (kindSet, ["SET"]);
  (kindEnd, ["END"]);
  (kindJoinSrcs, ["JOIN_SRCS"]);
  (kindAddincl, ["ADDINCL"]);
  (kindCflags, ["CFLAGS"; "GLOBAL_CFLAGS"]);
  (kindCxxflags, ["CXXFLAGS"]);
  (kindConlyflags, ["CONLYFLAGS"]);
  (kindLdflags, ["LDFLAGS"]);
  (kindSrcdir, ["SRCDIR"]);
  (kindGlobalSrcs, ["GLOBAL_SRCS"]);
  (kindGenerateEnumSerialization, ["GENERATE_ENUM_SERIALIZATION"]);
  (kindAliceGenerateNoexceptEnumSerialization, ["ALICE_GENERATE_NOEXCEPT_ENUM_SERIALIZATION"]);
  (kindGenerateEnumSerializationWithHeader, ["GENERATE_ENUM_SERIALIZATION_WITH_HEADER"]);
  (kindGenerateEnumSerializationNoutf, ["GENERATE_ENUM_SERIALIZATION_NOUTF"]);
  (kindDefault, ["DEFAULT"]);
  (kindConfigureFile, ["CONFIGURE_FILE"]);
  (kindCreateBuildinfoFor, ["CREATE_BUILDINFO_FOR"]);
  (kindRunAntlr4Cpp, ["RUN_ANTLR4_CPP"]);
  (kindRunAntlr4CppSplit, ["RUN_ANTLR4_CPP_SPLIT"]);
  (kindRunAntlr4Python2, ["RUN_ANTLR4_PYTHON2"; "RUN_ANTLR4_PYTHON3"]);
  (kindRunAntlr, ["RUN_ANTLR"; "RUN_ANTLR4"]);
  (kindRunProgram, ["RUN_PROGRAM"; "RUN_PY3_PROGRAM"]);
  (kindRunPython3, ["RUN_PYTHON3"]);
  (kindRunLua, ["RUN_LUA"]);
  (kindSplitCodegen, ["SPLIT_CODEGEN"]);
  (kindBaseCodegen, ["BASE_CODEGEN"]);
  (kindStructCodegen, ["STRUCT_CODEGEN"]);
  (kindFromSandbox, ["FROM_SANDBOX"]);
  (kindResource, ["RESOURCE"]);
  (kindResourceFiles, ["RESOURCE_FILES"]);
  (kindAllResourceFiles, ["ALL_RESOURCE_FILES"]);
  (kindAllResourceFilesFromDirs, ["ALL_RESOURCE_FILES_FROM_DIRS"])].

(** [stmtKindOf]: the entries of the table [stmtKinds] are written in order. *)
Definition stmtKindOf (name : ANY) : option StmtKind :=
  foldl (λ k '(kind, names), if oneOf name names then Some kind else k) None stmtKindNames.

Definition runAntlrKeywords : list string :=
  ["IN"; "IN_NOPARSE"; "IN_DEPS"; "OUT"; "OUT_NOAUTO"; "CWD"; "OUTPUT_INCLUDES"; "INDUCED_DEPS"; "TOOL"; "ENV";
   "STDOUT"; "STDOUT_NOAUTO"; "GRAMMAR_FILES"; "GRAMMAR_CWD"].

Definition runProgramKeywords : list string :=
  ["IN"; "IN_NOPARSE"; "OUT"; "OUT_NOAUTO"; "STDOUT"; "STDOUT_NOAUTO"; "CWD"; "ENV"; "OUTPUT_INCLUDES";
   "INDUCED_DEPS"; "IN_DEPS"; "TOOL"].

Definition structCodegenOutputIncludes : list ANY :=
  bs <$> ["util/generic/singleton.h"; "util/generic/strbuf.h"; "util/generic/vector.h"; "util/generic/ptr.h";
    "util/generic/yexception.h"; "kernel/struct_codegen/reflection/reflection.h";
    "kernel/struct_codegen/reflection/floats.h"].

(** ** RUN_ANTLR4_CPP *)

Definition antlr4Cpp_step (s : Antlr4Cpp * bool) (arg : ANY) : Antlr4Cpp * bool :=
  let '(mkAntlr4Cpp opts v l incs, includes) := s in
  if kw arg "VISITOR" then (mkAntlr4Cpp opts true l incs, false)
  else if kw arg "LISTENER" then (mkAntlr4Cpp opts v true incs, false)
  else if kw arg "OUTPUT_INCLUDES" then (mkAntlr4Cpp opts v l incs, true)
  else if includes then (mkAntlr4Cpp opts v l (incs ++ [arg]), includes)
  else (mkAntlr4Cpp (opts ++ [arg]) v l incs, includes).

Definition parseRunAntlr4Cpp (rest : list ANY) : Antlr4Cpp :=
  (foldl antlr4Cpp_step (mkAntlr4Cpp [] false false [], false) rest).1.

(** ** RUN_ANTLR *)

Definition antlr_step (s : Antlr * ANY) (tok : ANY) : Antlr * ANY :=
  let '(mkAntlr a i o on c oi, section) := s in
  if oneOf tok runAntlrKeywords then (mkAntlr a i o on c oi, tok)
  else if kw section "ARGS" then (mkAntlr (a ++ [tok]) i o on c oi, section)
  else if oneOf section ["IN"; "IN_NOPARSE"; "IN_DEPS"] then (mkAntlr a (i ++ [tok]) o on c oi, section)
  else if kw section "OUT" then (mkAntlr a i (o ++ [tok]) on c oi, section)
  else if kw section "OUT_NOAUTO" then (mkAntlr a i o (on ++ [tok]) c oi, section)
  else if kw section "CWD" then (mkAntlr a i o on (Some (default tok c)) oi, section)
  else if oneOf section ["OUTPUT_INCLUDES"; "INDUCED_DEPS"; "TOOL"; "ENV"; "GRAMMAR_FILES"; "GRAMMAR_CWD"] then
    (mkAntlr a i o on c (oi ++ [tok]), section)
  else (mkAntlr a i o on c oi, section).

Definition parseRunAntlr (args : list ANY) : Antlr :=
  (foldl antlr_step (mkAntlr [] [] [] [] None [], bs "ARGS") args).1.

(** ** FROM_SANDBOX *)

Definition sandbox_step (s : FromSandbox * ANY) (a : ANY) : FromSandbox * ANY :=
  let '(mkSandbox id f x p o on oi ind ren, section) := s in
  if kw a "FILE" then (mkSandbox id true x p o on oi ind ren, bs "")
  else if kw a "EXECUTABLE" then (mkSandbox id f true p o on oi ind ren, bs "")
  else if oneOf a ["AUTOUPDATED"; "PREFIX"; "SBR"] then (mkSandbox id f x p o on oi ind ren, a)
  else if oneOf a ["OUT"; "OUT_NOAUTO"; "OUTPUT_INCLUDES"; "RENAME"; "INDUCED_DEPS"] then
    (mkSandbox id f x p o on oi ind ren, a)
  else if kw section "" then (mkSandbox (Some (default a id)) f x p o on oi ind ren, section)
  else if kw section "PREFIX" then (mkSandbox id f x a o on oi ind ren, bs "")
  else if oneOf section ["AUTOUPDATED"; "SBR"] then (mkSandbox id f x p o on oi ind ren, bs "")
  else if kw section "OUT" then (mkSandbox id f x p (o ++ [a]) on oi ind ren, section)
  else if kw section "OUT_NOAUTO" then (mkSandbox id f x p o (on ++ [a]) oi ind ren, section)
  else if kw section "OUTPUT_INCLUDES" then (mkSandbox id f x p o on (oi ++ [a]) ind ren, section)
  else if kw section "INDUCED_DEPS" then (mkSandbox id f x p o on oi (ind ++ [a]) ren, section)
  else if kw section "RENAME" then (mkSandbox id f x p o on oi ind (ren ++ [a]), section)
  else (mkSandbox id f x p o on oi ind ren, section).

Definition parseFromSandbox (args : list ANY) : FromSandbox :=
  (foldl sandbox_step (mkSandbox None false false (bs ".") [] [] [] [] [], bs "") args).1.

(** ** SPLIT_CODEGEN *)

Definition splitCodegenDefaultOutNum : Z := 25.

(** The positional words, OUT_NUM, the output includes, and the section. *)
Definition split_step (s : list ANY * Z * list ANY * ANY) (tok : ANY) : list ANY * Z * list ANY * ANY :=
  let '(pos, n, incs, section) := s in
  if kw tok "OUT_NUM" then (pos, n, incs, tok)
  else if kw tok "OUTPUT_INCLUDES" then (pos, n, incs, tok)
  else if kw section "OUT_NUM" then (pos, default n (ParseInt tok), incs, bs "")
  else if kw section "OUTPUT_INCLUDES" then (pos, n, incs ++ [tok], section)
  else (pos ++ [tok], n, incs, section).

Definition parseSplitCodegen (args : list ANY) : SplitCodegen :=
  let '(pos, n, incs, _) := foldl split_step ([], splitCodegenDefaultOutNum, [], bs "") args in
  mkSplit (pos !! 0%nat) (pos !! 1%nat) (drop 2 pos) n incs.

(** ** RUN_PYTHON3, RUN_LUA *)

(** The lists of the statement by the number [runProgramListSection] gives them. *)
Definition runProgramListSection (section : ANY) : option nat :=
  if kw section "ARGS" then Some 0%nat
  else if oneOf section ["IN"; "IN_DEPS"] then Some 1%nat
  else if kw section "IN_NOPARSE" then Some 2%nat
  else if kw section "OUT" then Some 3%nat
  else if kw section "OUT_NOAUTO" then Some 4%nat
  else if kw section "ENV" then Some 5%nat
  else if kw section "OUTPUT_INCLUDES" then Some 6%nat
  else if kw section "INDUCED_DEPS" then Some 7%nat
  else if kw section "TOOL" then Some 8%nat
  else None.

(** What is not a list: the standard output, whether it is NOAUTO, the directory. *)
Abbreviation Singles := (option ANY * bool * option ANY)%type.

Definition single_step (s : Singles) (section tok : ANY) : Singles :=
  let '(out, noauto, cwd) := s in
  if oneOf section ["STDOUT"; "STDOUT_NOAUTO"] then
    match out with
    | None => (Some tok, kw section "STDOUT_NOAUTO", cwd)
    | Some _ => (out, noauto, cwd)
    end
  else if kw section "CWD" then (out, noauto, Some (default tok cwd))
  else (out, noauto, cwd).

Definition python_step (s : list (list ANY) * Singles * ANY) (tok : ANY) : list (list ANY) * Singles * ANY :=
  let '(lists, singles, section) := s in
  if oneOf tok runProgramKeywords then (lists, singles, tok)
  else
    match runProgramListSection section with
    | Some k => (alter (λ l, l ++ [tok]) k lists, singles, section)
    | None => (lists, single_step singles section tok, section)
    end.

(** The statement once everything is sorted; the words of IN_NOPARSE go last among the inputs. *)
Definition runStmt (head : ANY) (l : nat → list ANY) (inputs : list ANY) (s : Singles) : RunStmt :=
  let '(out, noauto, cwd) := s in
  mkRun head (l 0%nat) inputs (Z.of_nat (length (l 2%nat))) (l 3%nat) (l 4%nat) out noauto (l 5%nat) cwd
    (l 6%nat) (l 7%nat) (l 8%nat).

Definition parseRunPython (head : ANY) (rest : list ANY) : RunStmt :=
  let '(lists, singles, _) := foldl python_step (replicate 9 [], (None, false, None), bs "ARGS") rest in
  let l k := default [] (lists !! k) in
  runStmt head l (l 1%nat ++ l 2%nat) singles.

(** ** RUN_PROGRAM

    The same, but the lists are cut from one array whose size a first pass counts.
    A slice is a window of that array until it outgrows its capacity. *)

Inductive Slice := Window (off len cap : nat) | Own (l : list ANY).

Definition content (backing : list ANY) (s : Slice) : list ANY :=
  match s with Window off len _ => take len (drop off backing) | Own l => l end.

(** [xs] written at [off]. *)
Definition writeAt (backing : list ANY) (off : nat) (xs : list ANY) : list ANY :=
  take off backing ++ xs ++ drop (off + length xs) backing.

(** [append(s, xs...)] *)
Definition append (backing : list ANY) (s : Slice) (xs : list ANY) : list ANY * Slice :=
  match s with
  | Window off len cap =>
      if decide (len + length xs <= cap)%nat then (writeAt backing (off + len) xs, Window off (len + length xs) cap)
      else (backing, Own (content backing s ++ xs))
  | Own l => (backing, Own (l ++ xs))
  end.

Definition count_step (s : list nat * option nat) (tok : ANY) : list nat * option nat :=
  let '(counts, section) := s in
  if oneOf tok runProgramKeywords then (counts, runProgramListSection tok)
  else match section with Some k => (alter S k counts, section) | None => (counts, section) end.

Definition runCounts (rest : list ANY) : list nat := (foldl count_step (replicate 9 0%nat, Some 0%nat) rest).1.

(** [carve], for the capacities in the order of the code. *)
Fixpoint carve (used : nat) (caps : list nat) : list Slice :=
  match caps with
  | [] => []
  | n :: caps => (if decide (n = 0%nat) then Own [] else Window used 0 n) :: carve (used + n) caps
  end.

(** The inputs have room for the words of IN_NOPARSE. *)
Definition runCaps (counts : list nat) : list nat :=
  match counts with
  | c0 :: c1 :: c2 :: more => c0 :: (c1 + c2)%nat :: c2 :: more
  | _ => counts
  end.

Definition program_step (s : list ANY * list Slice * Singles * ANY) (tok : ANY) : list ANY * list Slice * Singles * ANY :=
  let '(backing, slices, singles, section) := s in
  if oneOf tok runProgramKeywords then (backing, slices, singles, tok)
  else
    match runProgramListSection section with
    | Some k =>
        match slices !! k with
        | Some sl => let '(backing, sl) := append backing sl [tok] in (backing, <[k := sl]> slices, singles, section)
        | None => (backing, slices, singles, section)
        end
    | None => (backing, slices, single_step singles section tok, section)
    end.

(** The array, the nine slices and the inputs with IN_NOPARSE at the end of the function. *)
Definition runSlices (rest : list ANY) : list ANY * list Slice * Slice * Singles :=
  let caps := runCaps (runCounts rest) in
  let '(backing, slices, singles, _) :=
    foldl program_step (replicate (sum_list caps) [], carve 0 caps, (None, false, None), bs "ARGS") rest in
  let sl k := default (Own []) (slices !! k) in
  let '(backing, inputs) := append backing (sl 1%nat) (content backing (sl 2%nat)) in
  (backing, slices, inputs, singles).

Definition parseRunProgram (head : ANY) (rest : list ANY) : RunStmt :=
  let '(backing, slices, inputs, singles) := runSlices rest in
  runStmt head (λ k, content backing (default (Own []) (slices !! k))) (content backing inputs) singles.

(** ** ADDINCL *)

(** [scAddInclArgument]: a path FOR sc with what comes before it; the path, its
    scope and the words after it. *)
Fixpoint scAddInclArgument (sc : bool) (scope : option ANY) (args : list ANY) : option (ANY * option ANY * list ANY) :=
  match args with
  | [] => None
  | a :: args =>
      if oneOf a ["GLOBAL"; "ONE_LEVEL"] then scAddInclArgument sc (Some a) args
      else if kw a "LOCAL" then scAddInclArgument sc scope args
      else if kw a "FOR" then
        match args with
        | b :: args => if kw b "sc" then scAddInclArgument true scope args else None
        | [] => None
        end
      else if sc then Some (a, scope, args) else None
  end.

(** Which lists a path is appended to: one bit for each, in the order of the record. *)
Definition addPath (st : AddInclStmt) (names : list string) (p : ANY) : AddInclStmt :=
  let put n (l : list ANY) := if bool_decide (n ∈ names) then l ++ [p] else l in
  mkAddIncl (put "global" (GlobalPaths st)) (put "oneLevel" (OneLevelPaths st)) (put "own" (OwnPaths st))
    (put "cython" (CythonPaths st)) (put "cythonGlobal" (CythonGlobalPaths st)) (put "asm" (AsmPaths st))
    (put "proto" (ProtoPaths st)) (put "protoGlobal" (ProtoGlobalPaths st)) (put "protoAll" (ProtoAllPaths st))
    (put "flatc" (FlatcPaths st)) (put "flatcGlobal" (FlatcGlobalPaths st))
    (put "swig" (SwigPaths st)) (put "swigGlobal" (SwigGlobalPaths st))
    (put "sc" (ScPaths st)) (put "scGlobal" (ScGlobalPaths st)) (put "scExport" (ScExportPaths st))
    (put "userGlobal" (UserGlobalPaths st)) (put "all" (AllPaths st)).

Definition scLists (scope : option ANY) : list string :=
  match scope with
  | Some s => if kw s "GLOBAL" then ["sc"; "scGlobal"; "scExport"]
              else if kw s "ONE_LEVEL" then ["sc"; "scExport"] else ["sc"]
  | None => ["sc"]
  end.

(** The lists of a path FOR a language, and those of a GLOBAL one. *)
Definition forLists (lang : ANY) : option (list string) :=
  if kw lang "proto" then Some ["proto"; "protoAll"]
  else if kw lang "flatc" then Some ["flatc"]
  else if kw lang "cython" then Some ["cython"]
  else if kw lang "asm" then Some ["asm"]
  else if kw lang "swig" then Some ["swig"]
  else None.

Definition globalForLists (lang : ANY) : option (list string) :=
  if kw lang "flatc" then Some ["flatc"; "flatcGlobal"]
  else if kw lang "cython" then Some ["cython"; "cythonGlobal"]
  else if kw lang "asm" then Some ["asm"]
  else if kw lang "proto" then Some ["protoGlobal"; "protoAll"]
  else if kw lang "swig" then Some ["swig"; "swigGlobal"]
  else None.

Definition globalPath (st : AddInclStmt) (args : list ANY) : AddInclStmt * list ANY :=
  match args with
  | p :: args => (addPath st ["global"; "userGlobal"; "all"] p, args)
  | [] => (st, [])
  end.

(** One iteration of the loop: the first word is [a], [args] are those after it. *)
Definition addIncl_step (st : AddInclStmt) (a : ANY) (args : list ANY) : AddInclStmt * list ANY :=
  match scAddInclArgument false None (a :: args) with
  | Some (p, scope, rest) => (addPath st (scLists scope) p, rest)
  | None =>
      if kw a "ONE_LEVEL" then
        match args with
        | p :: rest => (addPath st ["oneLevel"; "own"; "userGlobal"; "all"] p, rest)
        | [] => (st, [])
        end
      else if kw a "FOR" then
        match args with
        | lang :: p :: rest =>
            match forLists lang with
            | Some names => (addPath st names p, rest)
            | None => if kw lang "c" then (st, p :: rest) else (st, rest)
            end
        | lang :: rest => if kw lang "c" then (st, rest) else (st, drop 2 args)
        | [] => (st, [])
        end
      else if kw a "GLOBAL" then
        match args with
        | f :: more =>
            if kw f "FOR" then
              match more with
              | lang :: p :: rest =>
                  match globalForLists lang with
                  | Some names => (addPath st names p, rest)
                  | None => if kw lang "c" then globalPath st (p :: rest) else (st, rest)
                  end
              | lang :: rest => if kw lang "c" then globalPath st rest else (st, drop 1 rest)
              | [] => globalPath st []
              end
            else globalPath st args
        | [] => (st, [])
        end
      else (addPath st ["own"; "all"] a, args)
  end.

Fixpoint addIncl_loop (fuel : nat) (st : AddInclStmt) (args : list ANY) : res AddInclStmt :=
  match fuel with
  | O => NoFuel
  | S fuel =>
      match args with
      | [] => Ok st
      | a :: args => let '(st, args) := addIncl_step st a args in addIncl_loop fuel st args
      end
  end.

Definition noAddIncl : AddInclStmt := mkAddIncl [] [] [] [] [] [] [] [] [] [] [] [] [] [] [] [] [] [].
Definition splitAddInclPaths (args : list ANY) : res AddInclStmt := addIncl_loop (S (length args)) noAddIncl args.

(** ** From a macro call to a statement *)

(** [strings.Join] and [joinAnysSTR]. *)
Fixpoint joinWords (sep : ANY) (l : list ANY) : ANY :=
  match l with [] => [] | [a] => a | a :: l => a ++ sep ++ joinWords sep l end.

Definition space : ANY := [32].

Definition setValuePlain (value : ANY) : bool := bool_decide (36 ∉ value) && bool_decide (92 ∉ value).

Section build.
Context (internEnvSTR : ANY → Z).

Definition exactly1 (args : list ANY) (f : ANY → Stmt) : res Stmt :=
  match args with [a] => Ok (f a) | _ => Throw end.

Definition atLeast1 (args : list ANY) (f : ANY → list ANY → res Stmt) : res Stmt :=
  match args with a :: rest => f a rest | [] => Throw end.

Definition atLeast2 (args : list ANY) (f : ANY → ANY → list ANY → res Stmt) : res Stmt :=
  match args with a :: b :: rest => f a b rest | _ => Throw end.

Definition buildStmtForID (name : ANY) (args : list ANY) (line : Z) : res Stmt :=
  match stmtKindOf name with
  | Some kindProgram => Ok (ModuleStmt name false args line)
  | Some kindProtoSchema => Ok (ModuleStmt (bs "PROTO_LIBRARY") true args line)
  | Some kindDeclareExternalResource => Ok (DeclareResourceStmt name args line)
  | Some kindPeerdir => Ok (PeerdirStmt args line)
  | Some kindSrcs => Ok (SrcsStmt args line)
  | Some kindSet => atLeast1 args (λ a rest,
      let value := joinWords space rest in Ok (SetStmt a (internEnvSTR a) value (setValuePlain value) [] line))
  | Some kindEnd => Ok (EndStmt line)
  | Some kindJoinSrcs => atLeast1 args (λ a rest, Ok (JoinSrcsStmt a rest line))
  | Some kindAddincl => st ← splitAddInclPaths args; Ok (AddIncl st line)
  | Some kindCflags => Ok (CFlagsStmt args (kw name "GLOBAL_CFLAGS") line)
  | Some kindCxxflags => Ok (CXXFlagsStmt args line)
  | Some kindConlyflags => Ok (CONLYFlagsStmt args line)
  | Some kindLdflags => Ok (LDFlagsStmt args line)
  | Some kindSrcdir => Ok (SrcDirStmt args line)
  | Some kindGlobalSrcs => Ok (GlobalSrcsStmt args line)
  | Some kindGenerateEnumSerialization =>
      exactly1 args (λ h, GenerateEnumSerializationStmt (bs "GENERATE_ENUM_SERIALIZATION") h (bs "plain") line)
  | Some kindAliceGenerateNoexceptEnumSerialization =>
      exactly1 args (λ h, GenerateEnumSerializationStmt (bs "ALICE_GENERATE_NOEXCEPT_ENUM_SERIALIZATION") h
        (bs "noexcept_header") line)
  | Some kindGenerateEnumSerializationWithHeader =>
      exactly1 args (λ h, GenerateEnumSerializationStmt (bs "GENERATE_ENUM_SERIALIZATION_WITH_HEADER") h
        (bs "with_header") line)
  | Some kindGenerateEnumSerializationNoutf =>
      exactly1 args (λ h, GenerateEnumSerializationStmt (bs "GENERATE_ENUM_SERIALIZATION_NOUTF") h (bs "noutf") line)
  | Some kindDefault =>
      let name := default [] (head args) in
      Ok (DefaultVarStmt name (internEnvSTR name) (joinWords space (tail args)) line)
  | Some kindConfigureFile => match args with [src; dst] => Ok (ConfigureFileStmt src dst line) | _ => Throw end
  | Some kindCreateBuildinfoFor => exactly1 args (λ h, CreateBuildInfoStmt h line)
  | Some kindRunAntlr4Cpp => atLeast1 args (λ g rest, Ok (RunAntlr4CppStmt g (parseRunAntlr4Cpp rest) line))
  | Some kindRunAntlr4CppSplit => atLeast2 args (λ l p rest, Ok (RunAntlr4CppSplitStmt l p (parseRunAntlr4Cpp rest) line))
  | Some kindRunAntlr4Python2 => atLeast1 args (λ _ _,
      Ok (RunAntlr4PythonStmt args (drop (length (bs "RUN_ANTLR4_PYTHON")) name) line))
  | Some kindRunAntlr => atLeast1 args (λ _ _, Ok (RunAntlrStmt name (parseRunAntlr args) line))
  | Some kindRunProgram => atLeast1 args (λ t rest, Ok (RunProgramStmt args (parseRunProgram t rest) line))
  | Some kindRunPython3 => atLeast1 args (λ s rest, Ok (RunPythonStmt false (parseRunPython s rest) line))
  | Some kindRunLua => atLeast1 args (λ s rest, Ok (RunPythonStmt true (parseRunPython s rest) line))
  | Some kindSplitCodegen => atLeast2 args (λ _ _ _, Ok (SplitCodegenStmt (parseSplitCodegen args) line))
  | Some kindBaseCodegen => atLeast2 args (λ t p opts, Ok (BaseCodegenStmt t p opts [] [] line))
  | Some kindStructCodegen => exactly1 args (λ p,
      BaseCodegenStmt (bs "kernel/struct_codegen/codegen_tool") p [] structCodegenOutputIncludes (bs "STRUCT_CODEGEN") line)
  | Some kindFromSandbox => atLeast1 args (λ _ _, Ok (FromSandboxStmt (parseFromSandbox args) line))
  | Some kindResource => Ok (ResourceStmt args line)
  | Some kindResourceFiles => Ok (ResourceFilesStmt args line)
  | Some kindAllResourceFiles => atLeast1 args (λ _ _, Ok (AllResourceFilesStmt args false line))
  | Some kindAllResourceFilesFromDirs => Ok (AllResourceFilesStmt args true line)
  | None => Ok (UnknownStmt name args [] false line)
  end.

(** CPP_ENUMS_SERIALIZATION: one statement per header; NAMESPACE and its word are skipped. *)
Fixpoint enumStmts (args : list ANY) (line : Z) : list Stmt :=
  match args with
  | [] => []
  | a :: rest =>
      if kw a "NAMESPACE" then match rest with _ :: rest => enumStmts rest line | [] => [] end
      else GenerateEnumSerializationStmt (bs "GENERATE_ENUM_SERIALIZATION_WITH_HEADER") a (bs "with_header") line
             :: enumStmts rest line
  end.

Definition capturesLexicalArgs (name : ANY) : bool :=
  oneOf name ["RUN_JAVA_PROGRAM"; "SET"; "SET_APPEND"; "NO_CHECK_IMPORTS"].

(** The assertion that the statement is an UnknownStmt faults on others. *)
Definition withLexical (st : Stmt) (lexical : list ANY) : res Stmt :=
  match st with
  | SetStmt n e v p _ line => Ok (SetStmt n e v p (joinWords space (tail lexical)) line)
  | UnknownStmt raw args _ i line => Ok (UnknownStmt raw args lexical i line)
  | _ => Throw
  end.

Definition appendMacroCallStmts (name : ANY) (args lexical : list ANY) (line : Z) : res (list Stmt) :=
  if kw name "CPP_ENUMS_SERIALIZATION" then Ok (enumStmts args line)
  else
    st ← buildStmtForID name args line;
    st ← (if negb (bool_decide (lexical = [])) && capturesLexicalArgs name then withLexical st lexical else Ok st);
    Ok [st].
End build.

(** ** The words by section *)

(** Every word that is no keyword, with the last keyword before it. *)
Fixpoint tagged (section : ANY) (args : list ANY) : list (ANY * ANY) :=
  match args with
  | [] => []
  | tok :: args => if oneOf tok runProgramKeywords then tagged tok args else (section, tok) :: tagged section args
  end.

(** What RUN_PROGRAM and RUN_PYTHON3 mean: each list holds the words of its sections. *)
Definition runSpec (hd : ANY) (rest : list ANY) : RunStmt :=
  let t := tagged (bs "ARGS") rest in
  let words ss := (filter (λ x : ANY * ANY, oneOf x.1 ss = true) t).*2 in
  let stdouts := filter (λ x : ANY * ANY, oneOf x.1 ["STDOUT"; "STDOUT_NOAUTO"] = true) t in
  mkRun hd (words ["ARGS"]) (words ["IN"; "IN_DEPS"] ++ words ["IN_NOPARSE"]) (Z.of_nat (length (words ["IN_NOPARSE"])))
    (words ["OUT"]) (words ["OUT_NOAUTO"])
    (snd <$> head stdouts) (default false ((λ x, kw x.1 "STDOUT_NOAUTO") <$> head stdouts))
    (words ["ENV"]) (head (words ["CWD"])) (words ["OUTPUT_INCLUDES"]) (words ["INDUCED_DEPS"]) (words ["TOOL"]).

Definition wordsOf (k : nat) (section : ANY) (args : list ANY) : list ANY :=
  (filter (λ x : ANY * ANY, runProgramListSection x.1 = Some k) (tagged section args)).*2.

Lemma wordsOf_keyword k section tok args :
  oneOf tok runProgramKeywords = true → wordsOf k section (tok :: args) = wordsOf k tok args.
Proof. intros Hk. unfold wordsOf. cbn [tagged]. by rewrite Hk. Qed.

Lemma wordsOf_word k section tok args :
  oneOf tok runProgramKeywords = false →
  wordsOf k section (tok :: args) =
    (if decide (runProgramListSection section = Some k) then [tok] else []) ++ wordsOf k section args.
Proof.
  intros Hk. unfold wordsOf. cbn [tagged]. rewrite Hk, filter_cons. simpl.
  by case_decide.
Qed.

Definition all_singles (s : Singles) (section : ANY) (args : list ANY) : Singles :=
  foldl (λ s x, single_step s x.1 x.2) s (tagged section args).

Lemma single_step_list s section tok k : runProgramListSection section = Some k → single_step s section tok = s.
Proof.
  destruct s as [[out na] cwd]. intros Hk. unfold single_step. simpl.
  destruct (kw section "STDOUT") eqn:E1; [apply bool_decide_eq_true in E1; subst section; by vm_compute in Hk|].
  destruct (kw section "STDOUT_NOAUTO") eqn:E2; [apply bool_decide_eq_true in E2; subst section; by vm_compute in Hk|]. simpl.
  destruct (kw section "CWD") eqn:E3; [apply bool_decide_eq_true in E3; subst section; by vm_compute in Hk|done].
Qed.

Definition grow (f : nat → list ANY) (lists : list (list ANY)) : list (list ANY) := imap (λ k l, l ++ f k) lists.

Lemma grow_lookup f lists k : grow f lists !! k = (.++ f k) <$> lists !! k.
Proof. unfold grow. by rewrite list_lookup_imap. Qed.

Lemma grow_nil f lists : (∀ k, f k = []) → grow f lists = lists.
Proof.
  intros Hf. apply list_eq. intros k. rewrite grow_lookup, Hf. destruct (lists !! k); simpl; [by rewrite app_nil_r|done].
Qed.

Lemma python_fold args lists singles section : 
  ∃ section', foldl python_step (lists, singles, section) args =
    (grow (λ k, wordsOf k section args) lists, all_singles singles section args, section').
Proof.
  revert lists singles section. induction args as [|tok args IH]; intros lists singles section.
  { exists section. simpl. by rewrite grow_nil. }
  cbn [foldl]. unfold python_step at 2. unfold all_singles. cbn [tagged].
  destruct (oneOf tok runProgramKeywords) eqn:Hk.
  { destruct (IH lists singles tok) as [s' ->]. exists s'. do 2 f_equal.
    apply list_eq. intros k. by rewrite !grow_lookup, wordsOf_keyword. }
  cbn [foldl fst snd]. destruct (runProgramListSection section) as [k|] eqn:Hs.
  - rewrite (single_step_list _ _ _ k) by done.
    destruct (IH (alter (λ l, l ++ [tok]) k lists) singles section) as [s' ->]. exists s'. do 2 f_equal.
    apply list_eq. intros j. rewrite !grow_lookup, wordsOf_word, Hs by done.
    destruct (decide (k = j)) as [->|Hne].
    + rewrite list_lookup_alter, !decide_True by done. destruct (lists !! j); simpl; [|done]. by rewrite <-app_assoc.
    + rewrite list_lookup_alter_ne, decide_False by congruence. done.
  - destruct (IH lists (single_step singles section tok) section) as [s' ->]. exists s'. do 2 f_equal.
    apply list_eq. intros j. rewrite !grow_lookup, wordsOf_word, Hs by done.
    by rewrite decide_False.
Qed.

Lemma runCounts_fold args counts section :
  (foldl count_step (counts, runProgramListSection section) args).1 =
    imap (λ k n, n + length (wordsOf k section args))%nat counts.
Proof.
  revert counts section. induction args as [|tok args IH]; intros counts section.
  { simpl. apply list_eq. intros k. rewrite list_lookup_imap. destruct (counts !! k); simpl; [f_equal; lia|done]. }
  cbn [foldl]. unfold count_step at 2. destruct (oneOf tok runProgramKeywords) eqn:Hk.
  { rewrite IH. apply imap_ext. intros k n _. simpl. by rewrite wordsOf_keyword. }
  destruct (runProgramListSection section) as [k|] eqn:Hs; rewrite <-Hs, IH; apply list_eq; intros j;
    rewrite !list_lookup_imap, wordsOf_word, Hs by done; [|by rewrite decide_False].
  destruct (decide (k = j)) as [->|Hne].
  - rewrite list_lookup_alter, !decide_True by done. destruct (counts !! j); simpl; [f_equal; lia|done].
  - rewrite list_lookup_alter_ne, decide_False by congruence. done.
Qed.

Lemma runCounts_eq rest k : (k < 9)%nat → runCounts rest !! k = Some (length (wordsOf k (bs "ARGS") rest)).
Proof.
  intros Hk. unfold runCounts. change (Some 0%nat) with (runProgramListSection (bs "ARGS")).
  rewrite runCounts_fold, list_lookup_imap, lookup_replicate_2 by done. done.
Qed.

Lemma length_runCounts rest : length (runCounts rest) = 9%nat.
Proof.
  unfold runCounts. change (Some 0%nat) with (runProgramListSection (bs "ARGS")).
  by rewrite runCounts_fold, length_imap.
Qed.

(** ** The windows *)

(** The slices lie one after the other in the array, each as long as its list. *)
Definition offset (caps : list nat) (k : nat) : nat := sum_list (take k caps).

Record laid (caps : list nat) (lists : list (list ANY)) (slices : list Slice) (backing : list ANY) : Prop := {
  laid_len : length slices = length caps ∧ length lists = length caps;
  laid_total : length backing = sum_list caps;
  laid_at : ∀ k c l sl, caps !! k = Some c → lists !! k = Some l → slices !! k = Some sl →
    (length l <= c)%nat ∧ sl = (if decide (c = 0%nat) then Own [] else Window (offset caps k) (length l) c) ∧
    take (length l) (drop (offset caps k) backing) = l }.

Lemma offset_S caps k c : caps !! k = Some c → offset caps (S k) = (offset caps k + c)%nat.
Proof.
  intros Hk. unfold offset. rewrite (take_S_r _ _ c) by done. rewrite sum_list_with_app. simpl. lia.
Qed.

Lemma offset_mono caps j k : (j <= k)%nat → (offset caps j <= offset caps k)%nat.
Proof.
  intros Hle. unfold offset. replace k with (j + (k - j))%nat by lia.
  rewrite <-take_take_drop, sum_list_with_app. lia.
Qed.

Lemma offset_total caps k : (offset caps k <= sum_list caps)%nat.
Proof.
  unfold offset. rewrite <-(take_drop k caps) at 2. rewrite sum_list_with_app. lia.
Qed.

Lemma writeAt_lookup b off xs i : (off <= length b)%nat →
  writeAt b off xs !! i =
    if decide (i < off)%nat then b !! i else if decide (i < off + length xs)%nat then xs !! (i - off)%nat else b !! i.
Proof.
  intros Hoff. unfold writeAt. case_decide.
  - rewrite lookup_app_l, lookup_take_lt by (rewrite ?length_take; lia). done.
  - rewrite lookup_app_r by (rewrite length_take; lia). rewrite length_take, Nat.min_l by lia. case_decide.
    + by rewrite lookup_app_l by lia.
    + rewrite lookup_app_r, lookup_drop by lia. f_equal. lia.
Qed.

Lemma writeAt_length b off xs : (off + length xs <= length b)%nat → length (writeAt b off xs) = length b.
Proof. intros Hle. unfold writeAt. rewrite !length_app, length_take, length_drop. lia. Qed.

(** A window apart from what is written keeps its content. *)
Lemma writeAt_apart b off xs o n : (off + length xs <= length b)%nat →
  (o + n <= off ∨ off + length xs <= o)%nat → take n (drop o (writeAt b off xs)) = take n (drop o b).
Proof.
  intros Hle Hap. apply list_eq. intros i. destruct (decide (i < n)%nat).
  - rewrite !lookup_take_lt, !lookup_drop, writeAt_lookup by lia. repeat case_decide; lia || done.
  - by rewrite !lookup_take_ge by lia.
Qed.

Lemma writeAt_grows b o n xs l : (o + n + length xs <= length b)%nat → take n (drop o b) = l → length l = n →
  take (n + length xs) (drop o (writeAt b (o + n) xs)) = l ++ xs.
Proof.
  intros Hle Hl Hn. apply list_eq. intros i. destruct (decide (i < n + length xs)%nat).
  - rewrite lookup_take_lt, lookup_drop, writeAt_lookup by lia. destruct (decide (i < n)%nat).
    + rewrite decide_True, lookup_app_l by lia. rewrite <-Hl, lookup_take_lt, lookup_drop by lia. done.
    + rewrite decide_False, decide_True, lookup_app_r by lia. f_equal. lia.
  - rewrite lookup_take_ge, lookup_ge_None_2 by (rewrite ?length_app; lia). done.
Qed.

(** Appending within the capacity keeps the layout. *)
Lemma laid_append caps lists slices backing k c l sl xs :
  laid caps lists slices backing → caps !! k = Some c → lists !! k = Some l → slices !! k = Some sl →
  xs ≠ [] → (length l + length xs <= c)%nat →
  ∃ b' sl', append backing sl xs = (b', sl') ∧ laid caps (<[k := l ++ xs]> lists) (<[k := sl']> slices) b' ∧
    sl' = Window (offset caps k) (length (l ++ xs)) c.
Proof.
  intros [[Hs Hls] Ht Hat] Hc Hl Hsl Hxs Hle. destruct (Hat k c l sl Hc Hl Hsl) as (_ & -> & Hcont).
  assert (length xs ≠ 0%nat) by (by destruct xs). rewrite decide_False by lia. unfold append. rewrite decide_True by done.
  assert (Hroom : (offset caps k + c <= length backing)%nat).
  { rewrite Ht, <-(offset_S caps k c) by done. apply offset_total. }
  eexists _, _. split; [done|]. split; [|by rewrite length_app]. split.
  - rewrite !length_insert. done.
  - rewrite writeAt_length; lia.
  - intros j c' l' sl' Hc' Hl' Hsl'. destruct (decide (k = j)) as [->|Hne].
    + rewrite list_lookup_insert_eq in Hl' by (by eapply lookup_lt_Some).
      rewrite list_lookup_insert_eq in Hsl' by (by eapply lookup_lt_Some). simplify_eq.
      rewrite decide_False, length_app by lia. split_and!; [lia|done|]. apply writeAt_grows; [lia|done|done].
    + rewrite list_lookup_insert_ne in Hl' by done. rewrite list_lookup_insert_ne in Hsl' by done. destruct (Hat j c' l' sl') as (Hle' & -> & Hcont'); [done..|].
      split_and!; [done|done|]. rewrite writeAt_apart; [done|lia|].
      destruct (decide (j < k)%nat).
      * left. pose proof (offset_mono caps (S j) k). rewrite (offset_S caps j c') in * by done. lia.
      * right. pose proof (offset_mono caps (S k) j). rewrite (offset_S caps k c) in * by done. lia.
Qed.

Lemma laid_content caps lists slices backing k l sl :
  laid caps lists slices backing → lists !! k = Some l → slices !! k = Some sl → content backing sl = l.
Proof.
  intros [[Hs Hls] Ht Hat] Hl Hsl. destruct (lookup_lt_is_Some_2 caps k) as [c Hc].
  { rewrite <-Hs. by eapply lookup_lt_Some. }
  destruct (Hat k c l sl Hc Hl Hsl) as (Hle & -> & Hcont). case_decide; [|done].
  simpl. destruct l; [done|simpl in *; lia].
Qed.

Lemma carve_lookup used caps k :
  carve used caps !! k = (λ c, if decide (c = 0%nat) then Own [] else Window (used + offset caps k) 0 c) <$> caps !! k.
Proof.
  revert used k. induction caps as [|c caps IH]; intros used [|k]; simpl; [done|done| |].
  - case_decide; [done|]. unfold offset. simpl. do 2 f_equal. lia.
  - rewrite IH. destruct (caps !! k); [|done]. simpl. case_decide; [done|]. unfold offset. simpl. do 2 f_equal. lia.
Qed.

Lemma length_carve used caps : length (carve used caps) = length caps.
Proof. revert used. induction caps as [|c caps IH]; intros used; simpl; [done|]. by rewrite IH. Qed.

Lemma laid_carve caps : laid caps (replicate (length caps) []) (carve 0 caps) (replicate (sum_list caps) []).
Proof.
  split; [by rewrite length_carve, length_replicate|by rewrite length_replicate|].
  intros k c l sl Hc Hl Hsl. apply lookup_replicate in Hl as [-> _]. rewrite carve_lookup, Hc in Hsl.
  simplify_eq/=. split_and!; [lia| |by rewrite take_0]. done.
Qed.

Lemma listSection_range section k : runProgramListSection section = Some k → (k < 9)%nat.
Proof. unfold runProgramListSection. intros Hk. repeat case_match; simplify_eq; lia. Qed.

Lemma program_fold args caps lists slices backing singles section :
  laid caps lists slices backing → length caps = 9%nat →
  (∀ k l c, lists !! k = Some l → caps !! k = Some c → length l + length (wordsOf k section args) <= c)%nat →
  ∃ b' sl' s', foldl program_step (backing, slices, singles, section) args =
      (b', sl', all_singles singles section args, s') ∧
    laid caps (grow (λ k, wordsOf k section args) lists) sl' b'.
Proof.
  revert lists slices backing singles section. induction args as [|tok args IH];
    intros lists slices backing singles section Hlaid Hcaps Hroom.
  { eexists _, _, _. split; [done|]. by rewrite grow_nil. }
  cbn [foldl]. unfold program_step at 2. unfold all_singles. cbn [tagged].
  destruct (oneOf tok runProgramKeywords) eqn:Hk.
  { destruct (IH lists slices backing singles tok) as (b' & sl' & s' & -> & Hl'); [done..| |].
    { intros k l c Hl Hc. rewrite <-(wordsOf_keyword k section tok args) by done. by apply Hroom. }
    eexists _, _, _. split; [done|]. unfold grow in *. erewrite imap_ext; [exact Hl'|].
    intros k l _. simpl. by rewrite wordsOf_keyword. }
  cbn [foldl fst snd]. pose proof (laid_len _ _ _ _ Hlaid) as [Hn1 Hn2].
  destruct (runProgramListSection section) as [k|] eqn:Hs.
  - rewrite (single_step_list _ _ _ k) by done. pose proof (listSection_range _ _ Hs).
    destruct (lookup_lt_is_Some_2 slices k) as [sl Hsl]; [lia|]. destruct (lookup_lt_is_Some_2 lists k) as [l Hl]; [lia|].
    destruct (lookup_lt_is_Some_2 caps k) as [c Hc]; [lia|]. rewrite Hsl.
    pose proof (Hroom k l c Hl Hc) as Hr. rewrite wordsOf_word, Hs, decide_True in Hr by done. simpl in Hr.
    destruct (laid_append caps lists slices backing k c l sl [tok]) as (b1 & sl1 & -> & Hl1 & _); [done..|simpl; lia|].
    destruct (IH (<[k := l ++ [tok]]> lists) (<[k := sl1]> slices) b1 singles section) as (b' & sl' & s' & -> & Hl'); [done..| |].
    { intros j l' c' Hj Hc'. destruct (decide (k = j)) as [<-|Hne].
      - rewrite list_lookup_insert_eq in Hj by lia. simplify_eq. rewrite length_app. simpl. lia.
      - rewrite list_lookup_insert_ne in Hj by done. pose proof (Hroom j l' c' Hj Hc') as Hr'.
        rewrite wordsOf_word, Hs, decide_False in Hr' by congruence. done. }
    eexists _, _, _. split; [done|].
    enough (grow (λ k, wordsOf k section (tok :: args)) lists = grow (λ k, wordsOf k section args) (<[k := l ++ [tok]]> lists)) as -> by done.
    apply list_eq. intros j. rewrite !grow_lookup, wordsOf_word, Hs by done. destruct (decide (k = j)) as [<-|Hne].
    + rewrite list_lookup_insert_eq, Hl, decide_True by (done || lia). simpl. by rewrite <-app_assoc.
    + rewrite list_lookup_insert_ne, decide_False by congruence. done.
  - destruct (IH lists slices backing (single_step singles section tok) section) as (b' & sl' & s' & -> & Hl'); [done..| |].
    { intros k l c Hl Hc. pose proof (Hroom k l c Hl Hc) as Hr. by rewrite wordsOf_word, Hs, decide_False in Hr. }
    eexists _, _, _. split; [done|]. unfold grow in *. erewrite imap_ext; [exact Hl'|].
    intros k l _. simpl. by rewrite wordsOf_word, Hs, decide_False.
Qed.

Lemma append_nil backing sl : append backing sl [] = (backing, sl) ∨ ∃ off len cap, sl = Window off len cap ∧ (cap < len)%nat.
Proof.
  destruct sl as [off len cap|l]; simpl; [|left; by rewrite app_nil_r].
  destruct (decide (len + 0 <= cap)%nat); [left|right; eexists _, _, _; split; [done|lia]].
  unfold writeAt. simpl. by rewrite !Nat.add_0_r, take_drop.
Qed.

Definition lists9 (rest : list ANY) : list (list ANY) := grow (λ k, wordsOf k (bs "ARGS") rest) (replicate 9 []).

Lemma lists9_lookup rest k : (k < 9)%nat → lists9 rest !! k = Some (wordsOf k (bs "ARGS") rest).
Proof. intros Hk. unfold lists9. rewrite grow_lookup, lookup_replicate_2 by done. done. Qed.

Lemma runCaps_lookup rest k : (k < 9)%nat →
  runCaps (runCounts rest) !! k =
    Some (length (wordsOf k (bs "ARGS") rest) + (if decide (k = 1%nat) then length (wordsOf 2 (bs "ARGS") rest) else 0))%nat.
Proof.
  intros Hk. pose proof (runCounts_eq rest k Hk) as Hc. pose proof (runCounts_eq rest 2) as H2.
  pose proof (length_runCounts rest). destruct (runCounts rest) as [|c0 [|c1 [|c2 more]]]; simpl in *; try lia.
  specialize (H2 ltac:(lia)). injection H2 as ->.
  destruct k as [|[|[|k]]]; simpl in *; simplify_eq; f_equal; try lia. rewrite Hc. f_equal. lia.
Qed.

Lemma length_runCaps rest : length (runCaps (runCounts rest)) = 9%nat.
Proof. pose proof (length_runCounts rest). by destruct (runCounts rest) as [|? [|? [|? ?]]]. Qed.

(** At the end the lists of the statement fill the array, and no list left it. *)
Lemma runSlices_laid rest :
  ∃ backing slices inputs,
    runSlices rest = (backing, slices, inputs, all_singles (None, false, None) (bs "ARGS") rest) ∧
    laid (runCaps (runCounts rest)) (<[1%nat := wordsOf 1 (bs "ARGS") rest ++ wordsOf 2 (bs "ARGS") rest]> (lists9 rest))
      (<[1%nat := inputs]> slices) backing ∧ length slices = 9%nat.
Proof.
  pose proof (length_runCaps rest) as Hn. set (caps := runCaps (runCounts rest)) in *.
  pose proof (laid_carve caps) as Hlaid. rewrite Hn in Hlaid.
  destruct (program_fold rest caps _ _ _ (None, false, None) (bs "ARGS") Hlaid Hn) as (b & slices & s' & Hf & Hl).
  { intros k l c Hl Hc. apply lookup_replicate in Hl as [-> Hk]. unfold caps in Hc. rewrite runCaps_lookup in Hc by done.
    simplify_eq. simpl. lia. }
  pose proof (laid_len _ _ _ _ Hl) as [Hns _]. unfold runSlices. fold caps. rewrite Hf.
  destruct (lookup_lt_is_Some_2 slices 1) as [s1 Hs1]; [lia|]. destruct (lookup_lt_is_Some_2 slices 2) as [s2 Hs2]; [lia|].
  rewrite Hs1, Hs2. cbn [from_option id]. fold (lists9 rest) in Hl.
  rewrite (laid_content _ _ _ _ 2 (wordsOf 2 (bs "ARGS") rest) s2 Hl) by (done || by apply lists9_lookup; lia).
  pose proof (runCaps_lookup rest 1 ltac:(lia)) as Hc1. fold caps in Hc1. simpl in Hc1.
  pose proof (lists9_lookup rest 1 ltac:(lia)) as Hl1.
  destruct (decide (wordsOf 2 (bs "ARGS") rest = [])) as [Hnil|Hne].
  - rewrite Hnil. destruct (append_nil b s1) as [->|(off & len & cap & -> & Hlt)].
    + eexists _, _, _. split; [done|]. rewrite app_nil_r, !list_insert_id by done. split; [done|lia].
    + destruct (laid_at _ _ _ _ Hl 1 _ _ _ Hc1 Hl1 Hs1) as (Hle & Heq & _). case_decide; simplify_eq. lia.
  - destruct (laid_append _ _ _ _ 1 _ _ s1 (wordsOf 2 (bs "ARGS") rest) Hl Hc1 Hl1 Hs1 Hne) as (b' & sl' & -> & Hl' & _); [lia|].
    eexists _, _, _. split; [done|]. split; [done|lia].
Qed.

(** ** The declarative reading *)

Lemma listSection_spec x k ss : 
  (k, ss) ∈ [(0%nat, ["ARGS"]); (1%nat, ["IN"; "IN_DEPS"]); (2%nat, ["IN_NOPARSE"]); (3%nat, ["OUT"]); (4%nat, ["OUT_NOAUTO"]);
    (5%nat, ["ENV"]); (6%nat, ["OUTPUT_INCLUDES"]); (7%nat, ["INDUCED_DEPS"]); (8%nat, ["TOOL"])] →
  runProgramListSection x = Some k ↔ oneOf x ss = true.
Proof.
  intros Hin. split.
  - intros Hk. set_unfold in Hin. unfold runProgramListSection, oneOf in *. simpl in *.
    destruct_or? Hin; injection Hin as -> ->; repeat case_match; simplify_eq/=;
      match goal with E : _ = true |- _ => by rewrite E end.
  - unfold oneOf. intros [w [Hw Hkw]]%existsb_exists. apply bool_decide_eq_true in Hkw. subst x.
    apply list_elem_of_In in Hw. set_unfold in Hin. destruct_or? Hin; simplify_eq; set_unfold in Hw;
      destruct_or? Hw; subst; by vm_compute.
Qed.

Lemma wordsOf_words k ss section rest :
  (k, ss) ∈ [(0%nat, ["ARGS"]); (1%nat, ["IN"; "IN_DEPS"]); (2%nat, ["IN_NOPARSE"]); (3%nat, ["OUT"]); (4%nat, ["OUT_NOAUTO"]);
    (5%nat, ["ENV"]); (6%nat, ["OUTPUT_INCLUDES"]); (7%nat, ["INDUCED_DEPS"]); (8%nat, ["TOOL"])] →
  wordsOf k section rest = (filter (λ x : ANY * ANY, oneOf x.1 ss = true) (tagged section rest)).*2.
Proof.
  intros Hin. unfold wordsOf. f_equal. apply list_filter_iff. intros x. by apply listSection_spec.
Qed.

Lemma singles_fold (t : list (ANY * ANY)) out na cwd :
  foldl (λ s x, single_step s x.1 x.2) (out, na, cwd) t =
    (match out with
     | Some o => (Some o, na)
     | None =>
         match head (filter (λ x : ANY * ANY, oneOf x.1 ["STDOUT"; "STDOUT_NOAUTO"] = true) t) with
         | Some x => (Some x.2, kw x.1 "STDOUT_NOAUTO")
         | None => (None, na)
         end
     end,
     match cwd with
     | Some c => Some c
     | None => head (filter (λ x : ANY * ANY, oneOf x.1 ["CWD"] = true) t).*2
     end).
Proof.
  revert out na cwd. induction t as [|[s w] t IH]; intros out na cwd; [by destruct out, cwd|].
  cbn [foldl fst snd]. rewrite !filter_cons. cbn [fst]. unfold single_step.
  destruct (oneOf s ["STDOUT"; "STDOUT_NOAUTO"]) eqn:Ho.
  - rewrite (decide_True (P := true = true)) by done. rewrite decide_False.
    + destruct out; rewrite IH; done.
    + unfold oneOf in *. intros [w' [Hw Hk]]%existsb_exists. apply existsb_exists in Ho as [w'' [Hw' Hk']].
      apply list_elem_of_In in Hw, Hw'. unfold kw in *. rewrite bool_decide_eq_true in Hk, Hk'. subst.
      set_unfold in Hw. set_unfold in Hw'. destruct_or? Hw; destruct_or? Hw'; by subst.
  - rewrite (decide_False (P := false = true)) by done. simpl (oneOf s ["CWD"]). rewrite orb_false_r.
    destruct (kw s "CWD"); [rewrite decide_True by done|rewrite decide_False by done]; rewrite IH; [|done].
    by destruct cwd.
Qed.

Lemma all_singles_spec rest :
  all_singles (None, false, None) (bs "ARGS") rest =
    (StdoutFile (runSpec [] rest), StdoutNoAuto (runSpec [] rest), CWD (runSpec [] rest)).
Proof.
  unfold all_singles. rewrite singles_fold. unfold runSpec. cbn [StdoutFile StdoutNoAuto CWD].
  by destruct (head (filter (λ x : ANY * ANY, oneOf x.1 ["STDOUT"; "STDOUT_NOAUTO"] = true) (tagged (bs "ARGS") rest))).
Qed.

Ltac words_solve := rewrite (wordsOf_words 0 ["ARGS"]), (wordsOf_words 1 ["IN"; "IN_DEPS"]),
  (wordsOf_words 2 ["IN_NOPARSE"]), (wordsOf_words 3 ["OUT"]), (wordsOf_words 4 ["OUT_NOAUTO"]), (wordsOf_words 5 ["ENV"]),
  (wordsOf_words 6 ["OUTPUT_INCLUDES"]), (wordsOf_words 7 ["INDUCED_DEPS"]), (wordsOf_words 8 ["TOOL"]) by set_solver.

Lemma runStmt_spec hd rest l inputs :
  (∀ k, (k < 9)%nat → k ≠ 1%nat → l k = wordsOf k (bs "ARGS") rest) →
  inputs = wordsOf 1 (bs "ARGS") rest ++ wordsOf 2 (bs "ARGS") rest →
  runStmt hd l inputs (all_singles (None, false, None) (bs "ARGS") rest) = runSpec hd rest.
Proof.
  intros Hl ->. rewrite all_singles_spec. unfold runStmt. rewrite !Hl by lia. words_solve. done.
Qed.

Lemma parseRunPython_spec hd rest : parseRunPython hd rest = runSpec hd rest.
Proof.
  unfold parseRunPython. destruct (python_fold rest (replicate 9 []) (None, false, None) (bs "ARGS")) as [s' ->].
  fold (lists9 rest). apply runStmt_spec.
  - intros k Hk _. by rewrite lists9_lookup.
  - by rewrite !lists9_lookup by lia.
Qed.

Lemma parseRunProgram_spec hd rest : parseRunProgram hd rest = runSpec hd rest.
Proof.
  unfold parseRunProgram. destruct (runSlices_laid rest) as (b & slices & inputs & -> & Hl & Hn). apply runStmt_spec.
  - intros k Hk Hk1. destruct (lookup_lt_is_Some_2 slices k) as [sl Hsl]; [lia|]. rewrite Hsl. simpl.
    eapply laid_content; [exact Hl| |by rewrite list_lookup_insert_ne by done].
    rewrite list_lookup_insert_ne by done. by apply lists9_lookup.
  - eapply laid_content; [exact Hl| |by apply list_lookup_insert_eq; lia].
    apply list_lookup_insert_eq. unfold lists9, grow. rewrite length_imap, length_replicate. lia.
Qed.

(** RUN_PROGRAM counts the words of each section in a first pass and cuts its
    lists from one array; the statement is the same as RUN_PYTHON3 builds by plain
    appends, namely every list holds the words of its sections in order, the words
    of IN_NOPARSE last among the inputs.  The count is exact: no list outgrows its
    piece, the pieces are filled and do not overlap. *)
Theorem runProgram_two_pass hd rest :
  parseRunProgram hd rest = runSpec hd rest ∧ parseRunPython hd rest = runSpec hd rest ∧
  ∃ backing slices inputs singles,
    runSlices rest = (backing, slices, inputs, singles) ∧
    ∀ k sl, <[1%nat := inputs]> slices !! k = Some sl →
      sl = Own [] ∨
      ∃ off len, sl = Window off len len ∧ (off + len <= length backing)%nat ∧
        ∀ k' off' len' cap', k' ≠ k → <[1%nat := inputs]> slices !! k' = Some (Window off' len' cap') →
          (off + len <= off' ∨ off' + cap' <= off)%nat.
Proof.
  split_and!; [apply parseRunProgram_spec|apply parseRunPython_spec|].
  destruct (runSlices_laid rest) as (b & slices & inputs & Hr & Hl & Hn). eexists _, _, _, _. split; [exact Hr|].
  pose proof (laid_len _ _ _ _ Hl) as [Hlen Hlen']. rewrite length_insert, length_runCaps in *.
  intros k sl Hsl. assert (Hk : (k < 9)%nat) by (apply lookup_lt_Some in Hsl; rewrite length_insert in Hsl; lia).
  pose proof (runCaps_lookup rest k Hk) as Hc.
  destruct (lookup_lt_is_Some_2 (<[1%nat := wordsOf 1 (bs "ARGS") rest ++ wordsOf 2 (bs "ARGS") rest]> (lists9 rest)) k) as [l Hlk].
  { rewrite length_insert. lia. }
  assert (Hfull : length l = (length (wordsOf k (bs "ARGS") rest) +
      (if decide (k = 1%nat) then length (wordsOf 2 (bs "ARGS") rest) else 0))%nat).
  { destruct (decide (k = 1%nat)) as [->|Hne].
    - rewrite list_lookup_insert_eq in Hlk by (rewrite Hlen'; lia). simplify_eq. by rewrite length_app.
    - rewrite list_lookup_insert_ne, lists9_lookup in Hlk by done. simplify_eq. lia. }
  rewrite <-Hfull in Hc. clear Hfull.
  destruct (laid_at _ _ _ _ Hl k _ l sl Hc Hlk Hsl) as (_ & -> & _). case_decide as Hz; [by left|right].
  eexists _, _. split; [done|]. split.
  - rewrite (laid_total _ _ _ _ Hl), <-(offset_S _ _ _ Hc). apply offset_total.
  - intros k' off' len' cap' Hne Hsl'. assert (Hk' : (k' < 9)%nat) by (apply lookup_lt_Some in Hsl'; rewrite length_insert in Hsl'; lia).
    destruct (lookup_lt_is_Some_2 (runCaps (runCounts rest)) k') as [c' Hc']; [rewrite length_runCaps; lia|].
    destruct (lookup_lt_is_Some_2 (<[1%nat := wordsOf 1 (bs "ARGS") rest ++ wordsOf 2 (bs "ARGS") rest]> (lists9 rest)) k') as [l' Hlk'].
    { rewrite length_insert. lia. }
    destruct (laid_at _ _ _ _ Hl k' _ l' _ Hc' Hlk' Hsl') as (_ & Heq & _). case_decide; [done|]. simplify_eq.
    destruct (decide (k < k')%nat).
    + left. pose proof (offset_mono (runCaps (runCounts rest)) (S k) k' ltac:(lia)). erewrite offset_S in * by exact Hc. lia.
    + right. pose proof (offset_mono (runCaps (runCounts rest)) (S k') k ltac:(lia)). erewrite offset_S in * by exact Hc'. lia.
Qed.

(** ** What ADDINCL means *)

(** A path with what is said of it.  [sc] takes its scope from words before or
    after FOR sc, LOCAL among them. *)
Inductive Seg :=
| SegPath (p : ANY) | SegOneLevel (p : ANY) | SegGlobal (p : ANY)
| SegFor (lang p : ANY) | SegGlobalFor (lang p : ANY)
| SegSc (before after : list ANY) (p : ANY).

Definition printSeg (s : Seg) : list ANY :=
  match s with
  | SegPath p => [p]
  | SegOneLevel p => [bs "ONE_LEVEL"; p]
  | SegGlobal p => [bs "GLOBAL"; p]
  | SegFor lang p => [bs "FOR"; lang; p]
  | SegGlobalFor lang p => [bs "GLOBAL"; bs "FOR"; lang; p]
  | SegSc before after p => before ++ [bs "FOR"; bs "sc"] ++ after ++ [p]
  end.

Definition addinclKeyword (a : ANY) : bool := oneOf a ["GLOBAL"; "ONE_LEVEL"; "LOCAL"; "FOR"].

Definition okSeg (s : Seg) : bool :=
  match s with
  | SegPath p | SegOneLevel p | SegGlobal p => negb (addinclKeyword p)
  | SegFor lang p | SegGlobalFor lang p => negb (kw lang "sc") && negb (addinclKeyword p)
  | SegSc before after p =>
      forallb (λ a, oneOf a ["GLOBAL"; "ONE_LEVEL"; "LOCAL"]) (before ++ after) && negb (addinclKeyword p)
  end.

Definition segWord (s : Seg) : ANY :=
  match s with
  | SegPath p | SegOneLevel p | SegGlobal p | SegFor _ p | SegGlobalFor _ p | SegSc _ _ p => p
  end.

(** The last of GLOBAL and ONE_LEVEL counts. *)
Definition scScope (words : list ANY) : option ANY := last (filter (λ a, oneOf a ["GLOBAL"; "ONE_LEVEL"] = true) words).

(** The lists a path belongs to. *)
Definition segLists (s : Seg) : list string :=
  match s with
  | SegPath _ => ["own"; "all"]
  | SegOneLevel _ => ["oneLevel"; "own"; "userGlobal"; "all"]
  | SegGlobal _ => ["global"; "userGlobal"; "all"]
  | SegFor lang _ => default (if kw lang "c" then ["own"; "all"] else []) (forLists lang)
  | SegGlobalFor lang _ => default (if kw lang "c" then ["global"; "userGlobal"; "all"] else []) (globalForLists lang)
  | SegSc before after _ => scLists (scScope (before ++ after))
  end.

Lemma sc_plain sc scope p rest : addinclKeyword p = false →
  scAddInclArgument sc scope (p :: rest) = if sc then Some (p, scope, rest) else None.
Proof.
  unfold addinclKeyword, oneOf. simpl. rewrite orb_false_r. intros H.
  apply orb_false_iff in H as [-> H]. apply orb_false_iff in H as [-> H]. by apply orb_false_iff in H as [-> ->].
Qed.

Lemma sc_scope ws sc scope rest : forallb (λ a, oneOf a ["GLOBAL"; "ONE_LEVEL"; "LOCAL"]) ws = true →
  scAddInclArgument sc scope (ws ++ rest) =
    scAddInclArgument sc (match scScope ws with Some s => Some s | None => scope end) rest.
Proof.
  revert scope. induction ws as [|a ws IH]; intros scope; [done|].
  cbn [scAddInclArgument forallb app]. intros [Ha Hws]%andb_true_iff.
  unfold scScope in *. rewrite filter_cons. destruct (oneOf a ["GLOBAL"; "ONE_LEVEL"]) eqn:Hs.
  - rewrite IH by done. rewrite decide_True by done. rewrite last_cons. f_equal. by destruct (last _).
  - rewrite decide_False by done. unfold oneOf in Ha, Hs. simpl in Ha, Hs. rewrite orb_false_r in Hs.
    apply orb_false_iff in Hs as [E1 E2]. rewrite E1, E2, orb_false_r in Ha. simpl in Ha. by rewrite Ha, IH.
Qed.

Lemma sc_shorter n ws sc scope p s rest : (length ws <= n)%nat →
  scAddInclArgument sc scope ws = Some (p, s, rest) → (length rest < length ws)%nat.
Proof.
  revert ws sc scope. induction n as [|n IH]; intros ws sc scope Hle; (destruct ws as [|w ws]; [done|]);
    simpl in Hle; [lia|].
  cbn [scAddInclArgument length]. intros Hs. destruct (oneOf w _).
  { apply IH in Hs; lia. }
  destruct (kw w "LOCAL"). { apply IH in Hs; lia. }
  destruct (kw w "FOR").
  { destruct ws as [|b ws]; [done|]. destruct (kw b "sc"); [|done]. simpl in Hle. apply IH in Hs; simpl; lia. }
  destruct sc; [|done]. simplify_eq. lia.
Qed.

Lemma addIncl_step_shorter st a args : (length (addIncl_step st a args).2 <= length args)%nat.
Proof.
  unfold addIncl_step. destruct (scAddInclArgument false None (a :: args)) as [[[p s] rest]|] eqn:Hs.
  { apply (sc_shorter (length (a :: args))) in Hs; simpl in *; lia. }
  repeat (case_match; simpl; try lia).
Qed.

Lemma addIncl_loop_fuel fuel st args : (length args < fuel)%nat → addIncl_loop fuel st args ≠ NoFuel.
Proof.
  revert st args. induction fuel as [|fuel IH]; intros st args Hlt; [lia|]. destruct args as [|a args]; [done|]. simpl in *.
  pose proof (addIncl_step_shorter st a args) as Hsh. destruct (addIncl_step st a args) as [st' args']. simpl in Hsh.
  apply IH. lia.
Qed.

Lemma addPath_nil st p : addPath st [] p = st.
Proof. by destruct st. Qed.

Lemma addinclKeyword_false p : addinclKeyword p = false →
  kw p "GLOBAL" = false ∧ kw p "ONE_LEVEL" = false ∧ kw p "LOCAL" = false ∧ kw p "FOR" = false.
Proof.
  unfold addinclKeyword, oneOf. simpl. rewrite orb_false_r. intros H. by rewrite !orb_false_iff in H.
Qed.

Lemma addIncl_own st p rest : addinclKeyword p = false → addIncl_step st p rest = (addPath st ["own"; "all"] p, rest).
Proof.
  intros Hp. unfold addIncl_step. rewrite sc_plain by done. by destruct (addinclKeyword_false p Hp) as (-> & -> & _ & ->).
Qed.

Lemma sc_seg before after p rest :
  forallb (λ a, oneOf a ["GLOBAL"; "ONE_LEVEL"; "LOCAL"]) (before ++ after) = true → addinclKeyword p = false →
  scAddInclArgument false None ((before ++ [bs "FOR"; bs "sc"] ++ after ++ [p]) ++ rest) =
    Some (p, scScope (before ++ after), rest).
Proof.
  rewrite forallb_app. intros [Hb Ha]%andb_true_iff Hp. rewrite <-!app_assoc, sc_scope by done.
  set (scope := match scScope before with Some s => Some s | None => None end).
  change (scAddInclArgument false scope ([bs "FOR"; bs "sc"] ++ after ++ [p] ++ rest))
    with (scAddInclArgument true scope (after ++ [p] ++ rest)).
  rewrite sc_scope by done. cbn [app]. rewrite sc_plain by done. subst scope. unfold scScope. rewrite filter_app, last_app.
  by repeat case_match.
Qed.

(** One segment is read in one or two iterations. *)
Lemma addIncl_seg s st rest fuel :
  okSeg s = true → (length (printSeg s ++ rest) < fuel)%nat →
  ∃ fuel', addIncl_loop fuel st (printSeg s ++ rest) = addIncl_loop fuel' (addPath st (segLists s) (segWord s)) rest ∧
    (length rest < fuel')%nat.
Proof.
  intros Hok Hf. destruct fuel as [|fuel]; [lia|]. destruct s as [p|p|p|lang p|lang p|before after p]; cbn [okSeg printSeg app] in *.
  - apply negb_true_iff in Hok. exists fuel. cbn [addIncl_loop]. rewrite addIncl_own by done. split; [done|simpl in Hf; lia].
  - exists fuel. split; [|simpl in Hf; lia]. apply negb_true_iff in Hok. cbn [addIncl_loop]. unfold addIncl_step.
    change (scAddInclArgument false None (bs "ONE_LEVEL" :: p :: rest)) with (scAddInclArgument false (Some (bs "ONE_LEVEL")) (p :: rest)).
    by rewrite sc_plain.
  - exists fuel. split; [|simpl in Hf; lia]. apply negb_true_iff in Hok. cbn [addIncl_loop]. unfold addIncl_step.
    change (scAddInclArgument false None (bs "GLOBAL" :: p :: rest)) with (scAddInclArgument false (Some (bs "GLOBAL")) (p :: rest)).
    rewrite sc_plain by done. destruct (addinclKeyword_false p Hok) as (_ & _ & _ & Hfor).
    change (kw (bs "GLOBAL") "ONE_LEVEL") with false. change (kw (bs "GLOBAL") "FOR") with false.
    change (kw (bs "GLOBAL") "GLOBAL") with true. cbn match. by rewrite Hfor.
  - apply andb_true_iff in Hok as [Hsc%negb_true_iff Hp%negb_true_iff]. cbn [addIncl_loop]. unfold addIncl_step.
    assert (Hno : scAddInclArgument false None (bs "FOR" :: lang :: p :: rest) = None) by (cbn; by rewrite Hsc).
    rewrite Hno. change (kw (bs "FOR") "ONE_LEVEL") with false. change (kw (bs "FOR") "FOR") with true. cbn match.
    cbn [segLists segWord]. destruct (forLists lang) as [names|].
    + exists fuel. split; [done|simpl in Hf; lia].
    + simpl in Hf. destruct (kw lang "c").
      * destruct fuel as [|fuel]; [lia|]. cbn [addIncl_loop]. rewrite addIncl_own by done. exists fuel. split; [done|lia].
      * exists fuel. simpl. rewrite addPath_nil. split; [done|lia].
  - apply andb_true_iff in Hok as [Hsc%negb_true_iff Hp%negb_true_iff]. cbn [addIncl_loop]. unfold addIncl_step.
    assert (Hno : scAddInclArgument false None (bs "GLOBAL" :: bs "FOR" :: lang :: p :: rest) = None) by (cbn; by rewrite Hsc).
    rewrite Hno. change (kw (bs "GLOBAL") "ONE_LEVEL") with false. change (kw (bs "GLOBAL") "FOR") with false.
    change (kw (bs "GLOBAL") "GLOBAL") with true. change (kw (bs "FOR") "FOR") with true. cbn match.
    cbn [segLists segWord]. simpl in Hf. exists fuel. split; [|lia]. destruct (globalForLists lang) as [names|]; [done|].
    destruct (kw lang "c"); [done|]. simpl. by rewrite addPath_nil.
  - apply andb_true_iff in Hok as [Hws Hp%negb_true_iff]. exists fuel. pose proof (sc_seg before after p rest Hws Hp) as Hsc.
    cbn [app] in Hsc. destruct ((before ++ bs "FOR" :: bs "sc" :: after ++ [p]) ++ rest) as [|a args] eqn:E; [done|].
    cbn [addIncl_loop]. unfold addIncl_step. rewrite Hsc. split; [done|].
    apply (f_equal length) in E. rewrite !length_app in E. simpl in E, Hf. rewrite length_app in E. simpl in E. lia.
Qed.

Definition addField (name : string) (st : AddInclStmt) : list ANY :=
  if bool_decide (name = "global") then GlobalPaths st else if bool_decide (name = "oneLevel") then OneLevelPaths st
  else if bool_decide (name = "own") then OwnPaths st else if bool_decide (name = "cython") then CythonPaths st
  else if bool_decide (name = "cythonGlobal") then CythonGlobalPaths st else if bool_decide (name = "asm") then AsmPaths st
  else if bool_decide (name = "proto") then ProtoPaths st else if bool_decide (name = "protoGlobal") then ProtoGlobalPaths st
  else if bool_decide (name = "protoAll") then ProtoAllPaths st else if bool_decide (name = "flatc") then FlatcPaths st
  else if bool_decide (name = "flatcGlobal") then FlatcGlobalPaths st else if bool_decide (name = "swig") then SwigPaths st
  else if bool_decide (name = "swigGlobal") then SwigGlobalPaths st else if bool_decide (name = "sc") then ScPaths st
  else if bool_decide (name = "scGlobal") then ScGlobalPaths st else if bool_decide (name = "scExport") then ScExportPaths st
  else if bool_decide (name = "userGlobal") then UserGlobalPaths st else AllPaths st.

Definition addFields : list string :=
  ["global"; "oneLevel"; "own"; "cython"; "cythonGlobal"; "asm"; "proto"; "protoGlobal"; "protoAll"; "flatc";
   "flatcGlobal"; "swig"; "swigGlobal"; "sc"; "scGlobal"; "scExport"; "userGlobal"; "all"].

Lemma addField_addPath name st names p : name ∈ addFields →
  addField name (addPath st names p) = addField name st ++ (if bool_decide (name ∈ names) then [p] else []).
Proof.
  intros Hn. unfold addFields in Hn. set_unfold in Hn. destruct_or? Hn; subst name; unfold addField, addPath; simpl;
    case_bool_decide; rewrite ?app_nil_r; done.
Qed.

Lemma addField_fold segs st name : name ∈ addFields →
  addField name (foldl (λ st s, addPath st (segLists s) (segWord s)) st segs) =
    addField name st ++ (segWord <$> filter (λ s, name ∈ segLists s) segs).
Proof.
  intros Hn. revert st. induction segs as [|s segs IH]; intros st; [by rewrite app_nil_r|].
  cbn [foldl]. rewrite IH, addField_addPath, filter_cons, <-app_assoc by done. f_equal.
  case_bool_decide; case_decide; done.
Qed.

(** The words of ADDINCL.  Every sequence of paths, each with GLOBAL, ONE_LEVEL
    or FOR a language before it, is read as such: each of the eighteen lists holds,
    in order, the paths its name speaks of; FOR c is as without it, and paths for
    unknown languages are dropped.  Whatever the words, the loop ends. *)
Theorem addincl_reads_segments segs args :
  splitAddInclPaths args ≠ NoFuel ∧
  (forallb okSeg segs = true → args = mjoin (printSeg <$> segs) →
    ∃ st, splitAddInclPaths args = Ok st ∧
      ∀ name, name ∈ addFields → addField name st = segWord <$> filter (λ s, name ∈ segLists s) segs).
Proof.
  split; [apply addIncl_loop_fuel; lia|]. intros Hok ->. 
  exists (foldl (λ st s, addPath st (segLists s) (segWord s)) noAddIncl segs). split; cycle 1.
  { intros name Hn. rewrite addField_fold by done. unfold addFields in Hn. set_unfold in Hn. by destruct_or? Hn; subst name. }
  unfold splitAddInclPaths. assert (Hf : (length (mjoin (printSeg <$> segs)) < S (length (mjoin (printSeg <$> segs))))%nat) by lia.
  revert Hf. generalize (S (length (mjoin (printSeg <$> segs)))) as fuel. generalize noAddIncl as st.
  induction segs as [|s segs IH]; intros st fuel Hf.
  - destruct fuel; [simpl in Hf; lia|done].
  - simpl in Hok. apply andb_true_iff in Hok as [Hs Hok]. csimpl in *.
    destruct (addIncl_seg s st (mjoin (printSeg <$> segs)) fuel) as (fuel' & -> & Hf'); [done..|]. by apply IH.
Qed.

Lemma addincl_reads_segments_witness :
  ∃ st, splitAddInclPaths (bs <$> ["a"; "GLOBAL"; "b"; "LOCAL"; "GLOBAL"; "FOR"; "sc"; "c"; "FOR"; "proto"; "d"]) = Ok st ∧
    ∀ name, name ∈ addFields → addField name st =
      segWord <$> filter (λ s, name ∈ segLists s)
        [SegPath (bs "a"); SegGlobal (bs "b"); SegSc [bs "LOCAL"; bs "GLOBAL"] [] (bs "c"); SegFor (bs "proto") (bs "d")].
Proof.
  apply (proj2 (addincl_reads_segments
    [SegPath (bs "a"); SegGlobal (bs "b"); SegSc [bs "LOCAL"; bs "GLOBAL"] [] (bs "c"); SegFor (bs "proto") (bs "d")]
    (bs <$> ["a"; "GLOBAL"; "b"; "LOCAL"; "GLOBAL"; "FOR"; "sc"; "c"; "FOR"; "proto"; "d"]))); vm_compute; reflexivity.
Defined.

(** ** Errors *)

(** The least and the greatest number of words a macro takes. *)
Definition arity (k : StmtKind) : nat * option nat :=
  match k with
  | kindSet | kindJoinSrcs | kindRunAntlr4Cpp | kindRunAntlr4Python2 | kindRunAntlr | kindRunProgram
  | kindRunPython3 | kindRunLua | kindFromSandbox | kindAllResourceFiles => (1%nat, None)
  | kindRunAntlr4CppSplit | kindSplitCodegen | kindBaseCodegen => (2%nat, None)
  | kindGenerateEnumSerialization | kindAliceGenerateNoexceptEnumSerialization
  | kindGenerateEnumSerializationWithHeader | kindGenerateEnumSerializationNoutf
  | kindCreateBuildinfoFor | kindStructCodegen => (1%nat, Some 1%nat)
  | kindConfigureFile => (2%nat, Some 2%nat)
  | _ => (0%nat, None)
  end.

Definition arityOk (name : ANY) (n : nat) : Prop :=
  name = bs "CPP_ENUMS_SERIALIZATION" ∨
  match stmtKindOf name with
  | Some k => ((arity k).1 <= n)%nat ∧ (∀ m, (arity k).2 = Some m → (n <= m)%nat)
  | None => True
  end.

Lemma splitAddInclPaths_Ok args : ∃ st, splitAddInclPaths args = Ok st.
Proof.
  unfold splitAddInclPaths. assert (Hlt : (length args < S (length args))%nat) by lia. revert Hlt.
  generalize (S (length args)) as fuel. generalize noAddIncl as st. intros st fuel. revert st args.
  induction fuel as [|fuel IH]; intros st args Hlt; [lia|]. destruct args as [|a args]; [by eexists|]. simpl in *.
  pose proof (addIncl_step_shorter st a args) as Hsh. destruct (addIncl_step st a args) as [st' args']. simpl in Hsh.
  apply IH. lia.
Qed.

Lemma buildStmt_arity env name args line :
  match buildStmtForID env name args line with
  | Ok _ => match stmtKindOf name with
            | Some k => ((arity k).1 <= length args)%nat ∧ (∀ m, (arity k).2 = Some m → (length args <= m)%nat)
            | None => True
            end
  | Throw => match stmtKindOf name with
             | Some k => ¬ (((arity k).1 <= length args)%nat ∧ (∀ m, (arity k).2 = Some m → (length args <= m)%nat))
             | None => False
             end
  | NoFuel => False
  end.
Proof.
  unfold buildStmtForID. destruct (stmtKindOf name) as [k|]; [|done].
  destruct k; simpl; try (destruct (splitAddInclPaths_Ok args) as [st ->]; simpl);
    destruct args as [|a [|b [|c args]]]; simpl;
    try (split; [lia|intros ? ?; simplify_eq; lia]); try (intros [? Hm]; lia || (specialize (Hm _ eq_refl); lia)).
Qed.

(** Only SET and macros without a kind capture lexical words. *)
Lemma captures_kind env name args line st :
  capturesLexicalArgs name = true → buildStmtForID env name args line = Ok st → ∀ lexical, ∃ st', withLexical st lexical = Ok st'.
Proof.
  unfold capturesLexicalArgs, oneOf. intros [w [Hw Hkw]]%existsb_exists Hb lexical. apply bool_decide_eq_true in Hkw. subst name.
  apply list_elem_of_In in Hw. unfold buildStmtForID in Hb. set_unfold in Hw. destruct_or? Hw; subst w.
  2: { change (stmtKindOf (bs "SET")) with (Some kindSet) in Hb. destruct args; [done|]. simpl in Hb. simplify_eq. by eexists. }
  all: match type of Hb with context [stmtKindOf ?x] =>
    let y := eval vm_compute in (stmtKindOf x) in change (stmtKindOf x) with y in Hb end; cbn match in Hb; injection Hb as <-; by eexists.
Qed.

Lemma appendMacroCall_fuel env name args lexical line : appendMacroCallStmts env name args lexical line ≠ NoFuel.
Proof.
  unfold appendMacroCallStmts. destruct (kw name _); [done|]. pose proof (buildStmt_arity env name args line) as Ha.
  destruct (buildStmtForID env name args line) as [st| |]; [|done..]. simpl. destruct (_ && _); [|done]. by destruct st.
Qed.

