(* ===== verification/Parser.v ===== *)
(** * The parser of build files (yamake.go: Parser)

    The parser reads macro calls, nests IF blocks and expands INCLUDE as it goes.
    Its statements pass through one scratch stack.  What INCLUDE and INCLUDE_ONCE
    do to the state shared by the files is a parameter of the parser of one file
    ([include], [once]); ParseFiles.v fills it in.  Shown here: a build file is a
    sequence of statements and directives up to its first error, whatever the
    directives do, and parsing always ends. *)

From S2P Require Import Prelude Paths Cond Lexer IncludeMemo Stmts.
Local Open Scope Z_scope.

Abbreviation text := (list Z) (only parsing).

Definition setArgs (l : Lexer) (b : bool) : Lexer := mkLexer (rest l) (line l) (col l) (prevByte l) b.

(** ** Macro arguments *)

Local Open Scope string_scope.
Local Open Scope list_scope.
Local Open Scope Z_scope.

(** Macros whose words are taken as they are written. *)
Definition lexicalArgs (name : text) : bool :=
  oneOf name ["IF"; "ELSEIF"; "CFLAGS"; "GLOBAL_CFLAGS"; "CXXFLAGS"; "CONLYFLAGS"; "LDFLAGS"; "RESOURCE";
    "USE_RECIPE"; "ENV"; "RUN_PROGRAM"; "RUN_PY3_PROGRAM"; "RUN"; "DECLARE_IN_DIRS"].

(** [strings.ReplaceAll(s, "\\", "")] *)
Definition dropBackslashes (s : text) : text := filter (λ b, b ≠ 92) s.

(** The word as written: a string without its backslashes, the source of another
    word if the lexer changed it; [l0] and [l] are the lexer before and after. *)
Definition lexicalValue (l0 l : Lexer) (tok : Token) : text :=
  if decide (kind tok = tokString) then if backslash tok then dropBackslashes (id tok) else id tok
  else
    let raw := take (length (rest l0) - length (rest l)) (rest l0) in
    if Z.of_nat (length raw) =? n tok then id tok else raw.

(** The loop of [parseMacroArgsLexical]: the words and the lexical words. *)
Fixpoint args_loop (fuel : nat) (lexArgs capture : bool) (l : Lexer) (scratch lexical : list text)
    : res (Lexer * list text * list text) :=
  match fuel with
  | O => NoFuel
  | S fuel =>
      l0 ← (if capture || lexArgs then skipTrivia (S (length (rest l))) l else Ok l);
      '(l, tok) ← next l0;
      match kind tok with
      | tokRParen => Ok (l, scratch, lexical)
      | tokEOF | tokLParen => Throw
      | tokIdent | tokWord | tokString | tokInt =>
          let value := if capture || lexArgs then lexicalValue l0 l tok else id tok in
          args_loop fuel lexArgs capture l (scratch ++ [if lexArgs then value else id tok])
            (if capture then lexical ++ [value] else lexical)
      | _ => args_loop fuel lexArgs capture l scratch lexical
      end
  end.

Definition parseMacroArgsLexical (nameTok : Token) (capture : bool) (l : Lexer) : res (Lexer * list text * list text) :=
  '(l, lp) ← next l;
  if decide (kind lp = tokLParen) then
    '(l, args, lexical) ← args_loop (S (length (rest l))) (lexicalArgs (id nameTok)) capture (setArgs l true) [] [];
    Ok (setArgs l false, args, lexical)
  else Throw.

Definition parseMacroArgs (nameTok : Token) (l : Lexer) : res (Lexer * list text) :=
  '(l, args, _) ← parseMacroArgsLexical nameTok false l; Ok (l, args).

(** ** Directives *)

(** What a macro call other than IF asks for. *)
Inductive Call := CStmts (sts : list Stmt) | COnce | CInclude (target : text) (line : Z).

Definition arcadiaRoot : text := bs "${ARCADIA_ROOT}/".

(** [filepath.IsAbs] *)
Definition IsAbs (p : text) : bool := bool_decide (head p = Some 47).

(** [expandOneInclude] up to the resolved target, in the file [name]. *)
Definition includeTarget (name rel : text) (line : Z) : res Call :=
  let suffix := if decide (arcadiaRoot `prefix_of` rel) then drop (length arcadiaRoot) rel else rel in
  if decide (36 ∈ suffix) then Ok (CStmts [IncludeStmt name rel line])
  else if decide (arcadiaRoot `prefix_of` rel) then target ← lift (cleanRel suffix); Ok (CInclude target line)
  else if IsAbs rel then Throw
  else target ← lift (cleanRel (joinRel (pathDir name) rel)); Ok (CInclude target line).

(** The last statement appended, if its macro has no kind. *)
Definition markInternal (nameTok : Token) (sts : list Stmt) : list Stmt :=
  if decide (lead nameTok = 95) then
    match last sts with
    | Some (UnknownStmt raw args lexical _ line) =>
        <[pred (length sts) := UnknownStmt raw args lexical true line]> sts
    | _ => sts
    end
  else sts.

Section file.
Context (internEnvSTR : text → Z) (name : text).

(** [parseMacroInto] but for IF: [expandInclude], [applyIncludeOnce], other macros. *)
Definition macroCall (nameTok : Token) (l : Lexer) : res (Lexer * Call) :=
  if kw (id nameTok) "INCLUDE" then
    '(l, args) ← parseMacroArgs nameTok l;
    match args with
    | rel :: _ => c ← includeTarget name rel (tline nameTok); Ok (l, c)
    | [] => Throw
    end
  else if kw (id nameTok) "INCLUDE_ONCE" then
    '(l, args) ← parseMacroArgs nameTok l;
    match args with
    | [] => Ok (l, COnce)
    | [a] => Ok (l, if kw a "no" then CStmts [] else COnce)
    | _ => Throw
    end
  else
    '(l, args, lexical) ← parseMacroArgsLexical nameTok (capturesLexicalArgs (id nameTok)) l;
    sts ← appendMacroCallStmts internEnvSTR (id nameTok) args lexical (tline nameTok);
    Ok (l, CStmts (markInternal nameTok sts)).

(** ** Statements *)

Section parse.
Context {S : Type} (include : S → text → Z → S * res (list Stmt)) (once : S → S).

(** Answers that keep the shared state when the parser throws. *)
Definition orThrow {A B} (s : S) (r : res A) (f : A → S * res B) : S * res B :=
  match r with Ok a => f a | Throw => (s, Throw) | NoFuel => (s, NoFuel) end.
Definition andThen {A B} (r : S * res A) (f : S → A → S * res B) : S * res B := orThrow r.1 r.2 (f r.1).

Definition perform (s : S) (c : Call) : S * res (list Stmt) :=
  match c with
  | CStmts sts => (s, Ok sts)
  | COnce => (once s, Ok [])
  | CInclude target line => include s target line
  end.

Definition nameShaped (tok : Token) : bool :=
  bool_decide (kind tok = tokIdent) || bool_decide (kind tok = tokWord) && CondParser.isIdentShapedName (id tok).

Definition endsBody (tok : Token) : bool := oneOf (id tok) ["ELSE"; "ELSEIF"; "ENDIF"].

(** [parseStmts] from the mark on; the scratch stack is an argument and a result. *)
Fixpoint stmts_loop (fuel : nat) (ifBody : bool) (mark : nat) (l : Lexer) (scratch : list Stmt) (s : S)
    : S * res (list Stmt * Token * Lexer * list Stmt) :=
  match fuel with
  | O => (s, NoFuel)
  | Datatypes.S fuel =>
      orThrow s (next l) (λ '(l, tok),
      if decide (kind tok = tokEOF) then (s, Ok (drop mark scratch, tok, l, take mark scratch))
      else if negb (nameShaped tok) then (s, Throw)
      else if ifBody && endsBody tok then (s, Ok (drop mark scratch, tok, l, take mark scratch))
      else if kw (id tok) "IF" then
        andThen (parseIf fuel tok l scratch s) (λ s '(st, l, scratch), stmts_loop fuel ifBody mark l (scratch ++ [st]) s)
      else
        orThrow s (macroCall tok l) (λ '(l, c),
        andThen (perform s c) (λ s sts, stmts_loop fuel ifBody mark l (scratch ++ sts) s)))
  end
with parseIf (fuel : nat) (ifTok : Token) (l : Lexer) (scratch : list Stmt) (s : S) : S * res (Stmt * Lexer * list Stmt) :=
  match fuel with
  | O => (s, NoFuel)
  | Datatypes.S fuel =>
      orThrow s (parseMacroArgs ifTok l) (λ '(l, args),
      orThrow s (IfCond.compileIfCond internEnvSTR args) (λ cond,
      andThen (stmts_loop fuel true (length scratch) l scratch s) (λ s '(thenBody, endTok, l, scratch),
      if decide (kind endTok = tokEOF) then (s, Ok (IfStmt cond thenBody [] (tline ifTok), l, scratch))
      else if kw (id endTok) "ENDIF" then
        orThrow s (parseMacroArgs endTok l) (λ '(l, _), (s, Ok (IfStmt cond thenBody [] (tline ifTok), l, scratch)))
      else if kw (id endTok) "ELSE" then
        orThrow s (parseMacroArgs endTok l) (λ '(l, _),
        andThen (stmts_loop fuel true (length scratch) l scratch s) (λ s '(elseBody, endIf, l, scratch),
        if decide (kind endIf = tokEOF) then (s, Ok (IfStmt cond thenBody elseBody (tline ifTok), l, scratch))
        else if kw (id endIf) "ENDIF" then
          orThrow s (parseMacroArgs endIf l) (λ '(l, _), (s, Ok (IfStmt cond thenBody elseBody (tline ifTok), l, scratch)))
        else (s, Throw)))
      else
        andThen (parseIf fuel endTok l scratch s) (λ s '(nested, l, scratch),
          (s, Ok (IfStmt cond thenBody [nested] (tline ifTok), l, scratch))))))
  end.

Definition parseStmts (fuel : nat) (ifBody : bool) (l : Lexer) (scratch : list Stmt) (s : S) :=
  stmts_loop fuel ifBody (length scratch) l scratch s.

(** The source without a byte-order mark, and the lexer at its start. *)
Definition trimBOM (src : text) : text := if decide ([239; 187; 191] `prefix_of` src) then drop 3 src else src.
Definition newLexer (src : text) : Lexer := mkLexer src 1 1 0 false.

(** [parseInternalWithState], but for the chain of files. *)
Definition parseSource (src : text) (s : S) : S * res (list Stmt) :=
  let src := trimBOM src in
  andThen (parseStmts (Datatypes.S (length src)) false (newLexer src) [] s) (λ s '(sts, _, _, _), (s, Ok sts)).
End parse.
End file.

(** ** A build file as a sequence *)

(** Statements without nesting: IF blocks open, divide and close. *)
Inductive Flat := FLeaf (st : Stmt) | FIf (cond : list CondNode) (line : Z) | FElse | FEndIf.

Fixpoint flat1 (st : Stmt) : list Flat :=
  match st with
  | IfStmt c t e line => FIf c line :: flat_map flat1 t ++ FElse :: flat_map flat1 e ++ [FEndIf]
  | _ => [FLeaf st]
  end.
Definition flat (sts : list Stmt) : list Flat := flat_map flat1 sts.

Abbreviation Item := (item (list Z) Flat).

(** Items and how the reading ended; the items of one that threw end with [IThrow]. *)
Definition seq {A B} (r : list Item * res A) (f : A → list Item * res B) : list Item * res B :=
  match r with
  | (its, Ok a) => let '(more, b) := f a in (its ++ more, b)
  | (its, Throw) => (its, Throw)
  | (its, NoFuel) => (its, NoFuel)
  end.
Definition pure {A} (r : res A) : list Item * res A :=
  match r with Ok a => ([], Ok a) | Throw => ([IThrow], Throw) | NoFuel => ([], NoFuel) end.
Definition say (fs : list Flat) : list Item * res unit := (IStmt <$> fs, Ok tt).

Definition callItems (c : Call) : list Item :=
  match c with
  | CStmts sts => IStmt <$> flat sts
  | COnce => [IOnce]
  | CInclude target line => [IInclude target line]
  end.

Section script.
Context (internEnvSTR : list Z → Z) (name : list Z).

(** The items of a file: what the parser reads if directives do nothing. *)
Fixpoint script (fuel : nat) (ifBody : bool) (l : Lexer) : list Item * res (Token * Lexer) :=
  match fuel with
  | O => ([], NoFuel)
  | S fuel =>
      seq (pure (next l)) (λ '(l, tok),
      if decide (kind tok = tokEOF) then ([], Ok (tok, l))
      else if negb (nameShaped tok) then ([IThrow], Throw)
      else if ifBody && endsBody tok then ([], Ok (tok, l))
      else
        seq (if kw (id tok) "IF" then scriptIf fuel tok l
             else seq (pure (macroCall internEnvSTR name tok l)) (λ '(l, c), (callItems c, Ok l)))
            (script fuel ifBody))
  end
with scriptIf (fuel : nat) (ifTok : Token) (l : Lexer) : list Item * res Lexer :=
  match fuel with
  | O => ([], NoFuel)
  | S fuel =>
      seq (pure (parseMacroArgs ifTok l)) (λ '(l, args),
      seq (pure (IfCond.compileIfCond internEnvSTR args)) (λ cond,
      seq (say [FIf cond (tline ifTok)]) (λ _,
      seq (script fuel true l) (λ '(endTok, l),
      if decide (kind endTok = tokEOF) then seq (say [FElse; FEndIf]) (λ _, ([], Ok l))
      else if kw (id endTok) "ENDIF" then
        seq (pure (parseMacroArgs endTok l)) (λ '(l, _), seq (say [FElse; FEndIf]) (λ _, ([], Ok l)))
      else if kw (id endTok) "ELSE" then
        seq (pure (parseMacroArgs endTok l)) (λ '(l, _),
        seq (say [FElse]) (λ _,
        seq (script fuel true l) (λ '(endIf, l),
        if decide (kind endIf = tokEOF) then seq (say [FEndIf]) (λ _, ([], Ok l))
        else if kw (id endIf) "ENDIF" then
          seq (pure (parseMacroArgs endIf l)) (λ '(l, _), seq (say [FEndIf]) (λ _, ([], Ok l)))
        else ([IThrow], Throw))))
      else
        seq (say [FElse]) (λ _,
        seq (scriptIf fuel endTok l) (λ l, seq (say [FEndIf]) (λ _, ([], Ok l))))))))
  end.

Definition sourceItems (src : list Z) : list Item :=
  let src := trimBOM src in (script (S (length src)) false (newLexer src)).1.
End script.

(** ** The parser runs the items *)

Lemma seq_assoc {A B C} (r : list Item * res A) (f : A → list Item * res B) (g : B → list Item * res C) :
  seq (seq r f) g = seq r (λ a, seq (f a) g).
Proof.
  destruct r as [its [a| |]]; simpl; try done. destruct (f a) as [more [b| |]]; simpl; try done.
  destruct (g b). by rewrite app_assoc.
Qed.

Section interp.
Context {S : Type} (include : S → list Z → Z → S * res (list Stmt)) (once : S → S).

Fixpoint interp (s : S) (its : list Item) : S * res (list Flat) :=
  match its with
  | [] => (s, Ok [])
  | IStmt f :: its => andThen (interp s its) (λ s fs, (s, Ok (f :: fs)))
  | IOnce :: its => interp (once s) its
  | IInclude target line :: its =>
      andThen (include s target line) (λ s sts, andThen (interp s its) (λ s fs, (s, Ok (flat sts ++ fs))))
  | IThrow :: _ => (s, Throw)
  end.

Lemma interp_app s a b :
  interp s (a ++ b) = andThen (interp s a) (λ s fs, andThen (interp s b) (λ s gs, (s, Ok (fs ++ gs)))).
Proof.
  revert s. induction a as [|[f| |t ln|] a IH]; intros s; cbn [app interp].
  - unfold andThen. simpl. by destruct (interp s b) as [s' []].
  - rewrite IH. unfold andThen. destruct (interp s a) as [s1 [fs| |]]; simpl; try done. by destruct (interp s1 b) as [s2 []].
  - apply IH.
  - unfold andThen. destruct (include s t ln) as [s0 [sts| |]]; simpl; try done. rewrite IH. unfold andThen.
    destruct (interp s0 a) as [s1 [fs| |]]; simpl; try done. destruct (interp s1 b) as [s2 []]; simpl; try done.
    by rewrite app_assoc.
  - done.
Qed.

Lemma interp_say s fs : interp s (IStmt <$> fs) = (s, Ok fs).
Proof. induction fs as [|f fs IH]; [done|]. csimpl. by rewrite IH. Qed.

(** The parser does what running the items does. *)
Definition agrees {X Y} (rel : X → list Flat → Y → Prop) (s : S) (p : S * res X) (sc : list Item * res Y) : Prop :=
  sc.2 ≠ NoFuel →
  match interp s sc.1 with
  | (s', Ok fs) => match sc.2 with Ok y => ∃ x, p = (s', Ok x) ∧ rel x fs y | _ => False end
  | (s', Throw) => p = (s', Throw)
  | (s', NoFuel) => p = (s', NoFuel)
  end.

Lemma agrees_seq {X Y X' Y'} (rel : X → list Flat → Y → Prop) (rel' : X' → list Flat → Y' → Prop) s p sc f g :
  agrees rel s p sc →
  (∀ s' x fs y, rel x fs y → agrees (λ x' fs' y', rel' x' (fs ++ fs') y') s' (f s' x) (g y)) →
  agrees rel' s (andThen p f) (seq sc g).
Proof.
  intros Hp Hf Hnf. destruct sc as [its [y| |]]; simpl in *.
  - specialize (Hp ltac:(done)). simpl in Hp. destruct (g y) as [more b] eqn:Hg. simpl in *. rewrite interp_app.
    destruct (interp s its) as [s1 [fs| |]]; unfold andThen at 1; simpl; [|by subst p..].
    destruct Hp as (x & -> & Hrel). specialize (Hf s1 x fs y Hrel). unfold agrees in Hf. rewrite Hg in Hf. specialize (Hf Hnf).
    simpl in Hf. unfold andThen. simpl. by destruct (interp s1 more) as [s2 [gs| |]]; simpl.
  - specialize (Hp ltac:(done)). simpl in Hp. destruct (interp s its) as [s1 [fs| |]]; [done|by subst p..].
  - done.
Qed.

Lemma agrees_pure {A X' Y'} (rel' : X' → list Flat → Y' → Prop) s (r : res A) f g :
  (∀ a, r = Ok a → agrees rel' s (f a) (g a)) → agrees rel' s (orThrow s r f) (seq (pure r) g).
Proof.
  intros Hf Hnf. destruct r as [a| |]; simpl in *; [|done..]. specialize (Hf a eq_refl). unfold agrees in Hf.
  destruct (g a) as [more b]. simpl in *. by apply Hf.
Qed.

Lemma agrees_say {X' Y'} (rel' : X' → list Flat → Y' → Prop) s fs p g :
  agrees (λ x fs' y, rel' x (fs ++ fs') y) s p (g tt) → agrees rel' s p (seq (say fs) g).
Proof.
  unfold agrees. simpl. destruct (g tt) as [more b]. simpl. rewrite interp_app, interp_say. unfold andThen. simpl.
  intros H Hnf. specialize (H Hnf). by destruct (interp s more) as [s1 [gs| |]].
Qed.

Lemma agrees_ret {X Y} (rel : X → list Flat → Y → Prop) s x y : rel x [] y → agrees rel s (s, Ok x) ([], Ok y).
Proof. intros Hr _. simpl. by exists x. Qed.

Lemma agrees_throw {X Y} (rel : X → list Flat → Y → Prop) s : agrees rel s (s, Throw) ([IThrow], Throw).
Proof. by intros _. Qed.
End interp.

Section parse_items.
Context (internEnvSTR : list Z → Z) (name : list Z).
Context {S : Type} (include : S → list Z → Z → S * res (list Stmt)) (once : S → S).
Abbreviation stmts_loop := (stmts_loop internEnvSTR name include once).
Abbreviation parseIf := (parseIf internEnvSTR name include once).
Abbreviation script := (script internEnvSTR name).
Abbreviation scriptIf := (scriptIf internEnvSTR name).
Abbreviation agrees := (agrees include once).

(** Statements were added above the mark. *)
Definition read_stmts (mark : nat) (scratch : list Stmt) (x : list Stmt * Token * Lexer * list Stmt) (fs : list Flat)
    (y : Token * Lexer) : Prop :=
  ∃ sts, x = (drop mark scratch ++ sts, y.1, y.2, take mark scratch) ∧ flat sts = fs.

Definition read_if (scratch : list Stmt) (pre : list Flat) (x : Stmt * Lexer * list Stmt) (fs : list Flat) (y : Lexer) : Prop :=
  ∃ st, x = (st, y, scratch) ∧ flat1 st = pre ++ fs.

Lemma agrees_perform s c l : agrees (λ x fs (y : Lexer), flat x = fs ∧ y = l) s (perform include once s c) (callItems c, Ok l).
Proof.
  intros _. destruct c as [sts| |t ln]; simpl.
  - rewrite interp_say. by exists sts.
  - by exists [].
  - unfold andThen. destruct (include s t ln) as [s1 [sts| |]]; simpl; [|done..]. exists sts. by rewrite app_nil_r.
Qed.

Lemma flat_app a b : flat (a ++ b) = flat a ++ flat b.
Proof. apply flat_map_app. Qed.

Lemma read_stmts_more mark scratch sts x fs gs y : (mark <= length scratch)%nat → flat sts = fs →
  read_stmts mark (scratch ++ sts) x gs y → read_stmts mark scratch x (fs ++ gs) y.
Proof.
  intros Hm <- (more & -> & <-). exists (sts ++ more). rewrite flat_app, drop_app_le, take_app_le by done. by rewrite app_assoc.
Qed.

Lemma stmts_loop_here mark scratch tok l s : (mark <= length scratch)%nat →
  agrees (read_stmts mark scratch) s (s, Ok (drop mark scratch, tok, l, take mark scratch)) ([], Ok (tok, l)).
Proof. intros Hm. apply agrees_ret. exists []. by rewrite app_nil_r. Qed.

Lemma agrees_weaken {X Y} (rel rel' : X → list Flat → Y → Prop) s p sc :
  (∀ x fs y, rel x fs y → rel' x fs y) → agrees rel s p sc → agrees rel' s p sc.
Proof.
  intros Hr H Hnf. specialize (H Hnf). destruct (interp include once s sc.1) as [s' [fs| |]]; [|done..].
  destruct sc.2; [|done..]. naive_solver.
Qed.

Lemma parser_agrees fuel :
  (∀ ifBody mark l scratch s, (mark <= length scratch)%nat →
     agrees (read_stmts mark scratch) s (stmts_loop fuel ifBody mark l scratch s) (script fuel ifBody l)) ∧
  (∀ ifTok l scratch s, agrees (read_if scratch []) s (parseIf fuel ifTok l scratch s) (scriptIf fuel ifTok l)).
Proof.
  induction fuel as [|fuel [IHs IHi]]; [split; intros; by intros []|]. split.
  - intros ifBody mark l0 scratch s Hm. cbn [Parser.stmts_loop Parser.script]. apply agrees_pure. intros [l tok] _.
    case_decide; [by apply stmts_loop_here|]. destruct (negb _); [apply agrees_throw|].
    destruct (_ && _); [by apply stmts_loop_here|]. destruct (kw (id tok) "IF").
    + eapply agrees_seq; [apply IHi|]. intros s' x fs l' (st & -> & Hst). simpl in Hst. cbn beta iota.
      eapply agrees_weaken; [|apply IHs; rewrite length_app; lia].
      intros x gs y. apply read_stmts_more; [done|]. unfold flat. simpl. by rewrite app_nil_r.
    + rewrite seq_assoc. apply agrees_pure. intros [l' c] _. cbn beta iota.
      eapply agrees_seq; [apply agrees_perform|]. intros s' sts fs l2 [Hfl ->]. cbn beta.
      eapply agrees_weaken; [|apply IHs; rewrite length_app; lia]. intros x gs y. by apply read_stmts_more.
  - intros ifTok l0 scratch s. cbn [Parser.parseIf Parser.scriptIf]. apply agrees_pure. intros [l args] _.
    apply agrees_pure. intros cond _. apply agrees_say. cbn beta iota.
    assert (Hbody : ∀ b l s, agrees (λ x fs y, ∃ sts, x = (sts, y.1, y.2, scratch) ∧ flat sts = fs) s
        (stmts_loop fuel b (length scratch) l scratch s) (script fuel b l)).
    { intros b l' s'. eapply agrees_weaken; [|by apply IHs]. intros x fs y (sts & -> & <-). exists sts.
      by rewrite drop_all, take_ge. }
    eapply agrees_seq; [apply Hbody|]. intros s1 x fs [endTok l1] (thenBody & -> & <-). cbn [fst snd]. cbn beta iota.
    assert (Hend : ∀ eb l s, agrees (λ x fs y, read_if scratch [] x
          ([FIf cond (tline ifTok)] ++ flat thenBody ++ [FElse] ++ flat eb ++ fs) y) s
        (s, Ok (IfStmt cond thenBody eb (tline ifTok), l, scratch)) (seq (say [FEndIf]) (λ _, ([], Ok l)))).
    { intros eb l' s'. apply agrees_say, agrees_ret. eexists. split; [done|]. done. }
    assert (Hend0 : ∀ l s, agrees (λ x fs y, read_if scratch [] x ([FIf cond (tline ifTok)] ++ flat thenBody ++ fs) y) s
        (s, Ok (IfStmt cond thenBody [] (tline ifTok), l, scratch)) (seq (say [FElse; FEndIf]) (λ _, ([], Ok l)))).
    { intros l' s'. apply agrees_say, agrees_ret. eexists. split; [done|]. done. }
    case_decide; [apply Hend0|]. destruct (kw (id endTok) "ENDIF").
    { apply agrees_pure. intros [l2 args'] _. apply Hend0. }
    destruct (kw (id endTok) "ELSE").
    + apply agrees_pure. intros [l2 args'] _. apply agrees_say. eapply agrees_seq; [apply Hbody|].
      intros s2 x fs [endIf l3] (elseBody & -> & <-). cbn [fst snd]. cbn beta iota.
      case_decide; [apply Hend|]. destruct (kw (id endIf) "ENDIF"); [|apply agrees_throw].
      apply agrees_pure. intros [l4 args''] _. apply Hend.
    + apply agrees_say. eapply agrees_seq; [apply IHi|]. intros s2 x fs l3 (st & -> & Hst). simpl in Hst. cbn beta iota.
      eapply agrees_weaken; [|apply (Hend [st])]. intros x gs y. unfold flat at 2. simpl. rewrite app_nil_r, Hst. done.
Qed.

(** The statements of a file are those its items give, nested. *)
Lemma parseSource_items src s :
  (script (Datatypes.S (length (trimBOM src))) false (newLexer (trimBOM src))).2 ≠ NoFuel →
  match interp include once s (sourceItems internEnvSTR name src) with
  | (s', Ok fs) => ∃ sts, parseSource internEnvSTR name include once src s = (s', Ok sts) ∧ flat sts = fs
  | (s', Throw) => parseSource internEnvSTR name include once src s = (s', Throw)
  | (s', NoFuel) => parseSource internEnvSTR name include once src s = (s', NoFuel)
  end.
Proof.
  intros Hnf. destruct (parser_agrees (Datatypes.S (length (trimBOM src)))) as [Hs _].
  specialize (Hs false 0%nat (newLexer (trimBOM src)) [] s ltac:(simpl; lia) Hnf). unfold sourceItems, parseSource, parseStmts.
  cbn [length]. destruct (interp include once s _) as [s' [fs| |]]; [|by rewrite Hs..].
  destruct (Parser.script _ _ _ _ _).2; [|done..]. destruct Hs as (x & -> & sts & -> & <-). by exists sts.
Qed.
End parse_items.

(** ** Parsing ends *)

(** A reader that does not run out of fuel and, where it succeeds, leaves at least
    [k] bytes fewer. *)
Definition consumes {A} (k : nat) (l : Lexer) (r : res (Lexer * A)) : Prop :=
  match r with
  | Ok (l', _) => (length (rest l') + k <= length (rest l))%nat
  | Throw => True
  | NoFuel => False
  end.

Lemma next_consumes l :
  consumes 0 l (next l) ∧ (∀ l' tok, next l = Ok (l', tok) → kind tok ≠ tokEOF → (length (rest l') < length (rest l))%nat).
Proof.
  unfold next. destruct (readToken_spec l) as (l0 & [(Ht & Hl & Hlen & ->)| ->]); [|done].
  pose proof (readHere_moves l0) as Hm. pose proof (readHere_at l0) as Ha.
  destruct (readHere l0) as [[l' t]| |]; [|done..]. destruct Hm as [Hl' Hk], Ha as [Hp Heof]. split; [simpl; lia|].
  intros ? ? [= <- <-] Hne. rewrite decide_False in Hk by tauto. lia.
Qed.

Lemma skipTrivia_consumes l : match skipTrivia (S (length (rest l))) l with
  Ok l' => (length (rest l') <= length (rest l))%nat | Throw => True | NoFuel => False end.
Proof. pose proof (skipTrivia_moves (S (length (rest l))) l ltac:(lia)) as Hm. destruct (skipTrivia _ _); naive_solver. Qed.

Lemma args_loop_consumes fuel lexArgs capture l scratch lexical : (length (rest l) < fuel)%nat →
  match args_loop fuel lexArgs capture l scratch lexical with
  | Ok (l', _, _) => (length (rest l') <= length (rest l))%nat
  | Throw => True
  | NoFuel => False
  end.
Proof.
  revert l scratch lexical. induction fuel as [|fuel IH]; intros l scratch lexical Hf; [lia|]. cbn [args_loop].
  assert (H0 : match (if capture || lexArgs then skipTrivia (S (length (rest l))) l else Ok l) with
    Ok l' => (length (rest l') <= length (rest l))%nat | Throw => True | NoFuel => False end).
  { destruct (_ || _); [apply skipTrivia_consumes|simpl; lia]. }
  destruct (if capture || lexArgs then _ else _) as [l0| |]; [|done..]. cbn [mbind res_bind].
  destruct (next_consumes l0) as [Hc Hs]. destruct (next l0) as [[l1 tok]| |]; [|done..]. simpl in Hc. cbn [mbind res_bind].
  specialize (Hs l1 tok eq_refl).
  assert (Hrec : ∀ a b, kind tok ≠ tokEOF → match args_loop fuel lexArgs capture l1 a b with
    | Ok (l', _, _) => (length (rest l') <= length (rest l))%nat | Throw => True | NoFuel => False end).
  { intros a b Hk. specialize (Hs Hk). specialize (IH l1 a b ltac:(lia)). destruct (args_loop _ _ _ _ _ _) as [[[? ?] ?]| |]; [lia|done..]. }
  destruct (kind tok); try done; try (by apply Hrec). lia.
Qed.

Lemma parseMacroArgsLexical_consumes nameTok capture l :
  match parseMacroArgsLexical nameTok capture l with
  | Ok (l', _, _) => (length (rest l') < length (rest l))%nat
  | Throw => True
  | NoFuel => False
  end.
Proof.
  unfold parseMacroArgsLexical. destruct (next_consumes l) as [Hc Hs]. destruct (next l) as [[l1 lp]| |]; [|done..].
  cbn [mbind res_bind]. case_decide as Hk; [|done]. specialize (Hs l1 lp eq_refl ltac:(congruence)).
  pose proof (args_loop_consumes (S (length (rest l1))) (lexicalArgs (id nameTok)) capture (setArgs l1 true) [] [] ltac:(simpl; lia)) as Ha.
  destruct (args_loop _ _ _ _ _ _) as [[[l2 args] lexical]| |]; [|done..]. simpl in *. lia.
Qed.

Lemma parseMacroArgs_consumes nameTok l : consumes 1 l (parseMacroArgs nameTok l).
Proof.
  unfold parseMacroArgs. pose proof (parseMacroArgsLexical_consumes nameTok false l) as Hp.
  destruct (parseMacroArgsLexical _ _ _) as [[[l2 args] lexical]| |]; [|done..]. simpl. lia.
Qed.

Lemma includeTarget_fuel name rel line : includeTarget name rel line ≠ NoFuel.
Proof.
  unfold includeTarget. repeat case_match; try done;
    match goal with |- context [lift ?x] => by destruct x end.
Qed.

Lemma macroCall_consumes env name nameTok l : consumes 1 l (macroCall env name nameTok l).
Proof.
  unfold macroCall. pose proof (parseMacroArgs_consumes nameTok l) as Hp.
  destruct (kw _ _); [|destruct (kw _ _)].
  - destruct (parseMacroArgs nameTok l) as [[l1 [|rel args]]| |]; [done| |done..]. cbn [mbind res_bind].
    pose proof (includeTarget_fuel name rel (tline nameTok)). by destruct (includeTarget _ _ _).
  - by destruct (parseMacroArgs nameTok l) as [[l1 [|rel [|? args]]]| |].
  - pose proof (parseMacroArgsLexical_consumes nameTok (capturesLexicalArgs (id nameTok)) l) as Hl.
    destruct (parseMacroArgsLexical _ _ _) as [[[l2 args] lexical]| |]; [|done..]. cbn [mbind res_bind].
    pose proof (appendMacroCall_fuel env (id nameTok) args lexical (tline nameTok)).
    destruct (appendMacroCallStmts _ _ _ _ _); [simpl; lia|done..].
Qed.

Lemma compileIfCond_Ok env words : ∃ ns, IfCond.compileIfCond env words = Ok ns.
Proof. destruct (IfCond.compileIfCond_spec env words) as (ns & ? & _). by exists ns. Qed.

(** A reading that does not run out of fuel and leaves what [P] says. *)
Definition ends {A} (P : A → Prop) (r : list Item * res A) : Prop :=
  match r.2 with Ok a => P a | Throw => True | NoFuel => False end.

Lemma ends_seq {A B} (P : A → Prop) (Q : B → Prop) r f : ends P r → (∀ a, P a → ends Q (f a)) → ends Q (seq r f).
Proof.
  destruct r as [its [a| |]]; unfold ends; simpl; [|done..]. intros Ha Hf. specialize (Hf a Ha). by destruct (f a).
Qed.

Lemma ends_args {B} (Q : B → Prop) tok l f :
  (∀ l' args, (length (rest l') < length (rest l))%nat → ends Q (f (l', args))) → ends Q (seq (pure (parseMacroArgs tok l)) f).
Proof.
  intros Hf. pose proof (parseMacroArgs_consumes tok l) as Hc.
  apply (ends_seq (λ x, length (rest x.1) < length (rest l))%nat).
  - destruct (parseMacroArgs tok l) as [[l' args]| |]; unfold ends; simpl in *; [lia|done..].
  - intros [l' args]. simpl. apply Hf.
Qed.

Lemma ends_say {B} (Q : B → Prop) fs f : ends Q (f tt) → ends Q (seq (say fs) f).
Proof. intros Hf. by apply (ends_seq (λ _, True)); [|intros []]. Qed.

Lemma script_ends env name fuel :
  (∀ ifBody l, (length (rest l) < fuel)%nat →
     ends (λ x, length (rest x.2) <= length (rest l))%nat (script env name fuel ifBody l)) ∧
  (∀ ifTok l, (length (rest l) < fuel)%nat →
     ends (λ l', length (rest l') <= length (rest l))%nat (scriptIf env name fuel ifTok l)).
Proof.
  induction fuel as [|fuel [IHs IHi]]; [split; intros; lia|]. split.
  - intros ifBody l Hf. cbn [script]. destruct (next_consumes l) as [Hc Hs].
    apply (ends_seq (λ x, (length (rest x.1) <= length (rest l))%nat ∧ (kind x.2 ≠ tokEOF → length (rest x.1) < length (rest l))%nat)).
    { destruct (next l) as [[l1 tok]| |]; unfold ends; simpl in *; [|done..]. split; [lia|by apply Hs]. }
    intros [l1 tok] [Hle Hlt]. simpl in Hle, Hlt. case_decide as Hk; [done|]. specialize (Hlt Hk). destruct (negb _); [done|].
    destruct (_ && _); [unfold ends; simpl; lia|].
    apply (ends_seq (λ l2, length (rest l2) <= length (rest l1))%nat).
    + destruct (kw (id tok) "IF"); [apply IHi; lia|]. pose proof (macroCall_consumes env name tok l1) as Hm.
      apply (ends_seq (λ x, length (rest x.1) < length (rest l1))%nat).
      * destruct (macroCall _ _ _ _) as [[l2 c]| |]; unfold ends; simpl in *; [lia|done..].
      * intros [l2 c]. unfold ends. simpl. lia.
    + intros l2 Hl2. specialize (IHs ifBody l2 ltac:(lia)). unfold ends in *.
      destruct (script env name fuel ifBody l2).2 as [[tok' l3]| |]; simpl in *; [lia|done..].
  - intros ifTok l Hf. cbn [scriptIf]. apply ends_args. intros l1 args Hl1.
    destruct (compileIfCond_Ok env args) as [cond ->]. simpl pure.
    apply (ends_seq (λ _, True)); [done|]. intros c _. apply ends_say.
    eapply ends_seq; [apply IHs; lia|]. intros [endTok l2] Hl2. simpl in Hl2.
    assert (Hdone : ∀ fs l', (length (rest l') <= length (rest l))%nat →
      ends (λ l', length (rest l') <= length (rest l))%nat (seq (say fs) (λ _, ([], Ok l')))).
    { intros fs l' Hle. by apply ends_say. }
    case_decide; [apply Hdone; lia|]. destruct (kw (id endTok) "ENDIF").
    { apply ends_args. intros l3 args' Hl3. apply Hdone. lia. }
    destruct (kw (id endTok) "ELSE").
    + apply ends_args. intros l3 args' Hl3. apply ends_say. eapply ends_seq; [apply IHs; lia|].
      intros [endIf l4] Hl4. simpl in Hl4. case_decide; [apply Hdone; lia|]. destruct (kw (id endIf) "ENDIF"); [|done].
      apply ends_args. intros l5 args'' Hl5. apply Hdone. lia.
    + apply ends_say. eapply ends_seq; [apply IHi; lia|]. intros l3 Hl3. simpl in Hl3. apply Hdone. lia.
Qed.

(** What a file is: items that its parser runs. *)
Lemma parseSource_runs env name {S} include once src (s : S) :
  match interp include once s (sourceItems env name src) with
  | (s', Ok fs) => ∃ sts, parseSource env name include once src s = (s', Ok sts) ∧ flat sts = fs
  | (s', Throw) => parseSource env name include once src s = (s', Throw)
  | (s', NoFuel) => parseSource env name include once src s = (s', NoFuel)
  end.
Proof.
  apply parseSource_items. pose proof (proj1 (script_ends env name (Datatypes.S (length (trimBOM src)))) false
    (newLexer (trimBOM src)) ltac:(simpl; lia)) as He. unfold ends in He. by destruct (script _ _ _ _ _).2.
Qed.

(** ** Nesting is determined by the items *)

Definition closes (f : Flat) : Prop := f = FElse ∨ f = FEndIf.

Lemma flat1_first st : ∃ f r, flat1 st = f :: r ∧ ¬ closes f.
Proof. destruct st; simpl; eexists _, _; (split; [done|]); intros [|]; done. Qed.

Lemma flat_list_inj n ts ts' d d' x x' :
  (∀ st st' r r', (length (flat1 st) < n)%nat → flat1 st ++ r = flat1 st' ++ r' → st = st' ∧ r = r') →
  (length (flat ts) < n)%nat → closes d → closes d' → flat ts ++ d :: x = flat ts' ++ d' :: x' → ts = ts' ∧ d :: x = d' :: x'.
Proof.
  intros Hst. revert ts'. induction ts as [|st ts IH]; intros [|st' ts'] Hn Hd Hd' Heq.
  - done.
  - destruct (flat1_first st') as (f & r & Hf & Hc). unfold flat in Heq. simpl in Heq. rewrite Hf in Heq. simplify_eq/=. done.
  - destruct (flat1_first st) as (f & r & Hf & Hc). unfold flat in Heq. simpl in Heq. rewrite Hf in Heq. simplify_eq/=. done.
  - unfold flat in Hn, Heq. simpl in Hn, Heq. rewrite length_app in Hn. rewrite <-!app_assoc in Heq.
    destruct (Hst st st' _ _ ltac:(lia) Heq) as [-> Heq']. destruct (IH ts') as [-> ?]; [unfold flat; lia|done..].
Qed.

Lemma flat1_cases st : flat1 st = [FLeaf st] ∨ ∃ c t e line, st = IfStmt c t e line.
Proof. destruct st; simpl; try (by left). right. by eexists _, _, _, _. Qed.

Lemma flat1_inj n st st' r r' :
  (length (flat1 st) < n)%nat → flat1 st ++ r = flat1 st' ++ r' → st = st' ∧ r = r'.
Proof.
  revert st st' r r'. induction n as [|n IH]; intros st st' r r' Hn Heq; [lia|].
  destruct (flat1_cases st) as [E|(c & t & e & ln & ->)], (flat1_cases st') as [E'|(c' & t' & e' & ln' & ->)].
  - rewrite E, E' in Heq. by simplify_eq/=.
  - rewrite E in Heq. by simplify_eq/=.
  - rewrite E' in Heq. by simplify_eq/=.
  - simpl in Hn, Heq. rewrite !length_app in Hn. simpl in Hn. rewrite length_app in Hn.
    injection Heq as <- <- Heq. rewrite <-!app_assoc in Heq. simpl in Heq. rewrite <-!app_assoc in Heq.
    destruct (flat_list_inj n t t' FElse FElse _ _ IH ltac:(unfold flat; lia) (or_introl eq_refl) (or_introl eq_refl) Heq) as [-> Heq'].
    injection Heq' as Heq'.
    destruct (flat_list_inj n e e' FEndIf FEndIf _ _ IH ltac:(unfold flat; simpl in *; lia) (or_intror eq_refl) (or_intror eq_refl) Heq') as [-> Heq''].
    by injection Heq'' as ->.
Qed.

Lemma flat_inj sts sts' : flat sts = flat sts' → sts = sts'.
Proof.
  intros Heq. destruct (flat_list_inj (S (length (flat sts))) sts sts' FEndIf FEndIf [] []) as [-> _]; [|lia|by right..|by rewrite Heq|done].
  intros st st' r r' _. by apply (flat1_inj (S (length (flat1 st)))); lia.
Qed.
