(* ===== verification/ParseFiles.v ===== *)
(** * Parsing files that include files (yamake.go: expandOneInclude, parse)

    The parser of Parser.v with INCLUDE filled in: the files in progress, the files
    that asked to be included once, and the memos of finished inclusions.  The
    memos are shown to change nothing, on the bytes of any set of files. *)

From S2P Require Import Prelude Paths Cond Lexer IncludeMemo Stmts Parser.
Local Open Scope Z_scope.

Abbreviation text := (list Z) (only parsing).
Abbreviation event := (list Z * includeEventKind)%type.

(** The chain of files in progress is an argument, as [includeStack] is. *)
Record IncludeState := mkInc {
  onceSet : gset text;
  events : list event;
  memoTable : gmap text (list (includeMemo Stmts.Stmt event)) }.

Definition note (s : IncludeState) (f : text) (k : includeEventKind) : IncludeState :=
  mkInc (onceSet s) (events s ++ [(f, k)]) (memoTable s).

(** [applyIncludeOnce] in the file [name]. *)
Definition applyOnce (name : text) (s : IncludeState) : IncludeState :=
  note (mkInc ({[name]} ∪ onceSet s) (events s) (memoTable s)) name includeOnce.

Definition addMemo (s : IncludeState) (f : text) (sts : list Stmts.Stmt) (start : nat) : IncludeState :=
  mkInc (onceSet s) (events s)
    (<[f := default [] (memoTable s !! f) ++ [mkMemo sts (drop start (events s))]]> (memoTable s)).

Record MakeFile := mkMakeFile { IncludeOnce : bool; Path : text; Stmts : list Stmts.Stmt }.

Section files.
Context (internEnvSTR : text → Z) (fs : gmap text text).

(** [expandOneInclude] from the resolved target on. *)
Definition expandOneInclude (parseFile : list text → text → text → IncludeState → IncludeState * res (list Stmts.Stmt))
    (chain : list text) (s : IncludeState) (target : text) (line : Z) : IncludeState * res (list Stmts.Stmt) :=
  if decide (target ∈ onceSet s) then (note s target includeSeen, Ok [])
  else
    let s := note s target includeUnseen in
    if decide (target ∈ chain) then (s, Throw)
    else
      match find_memo chain (onceSet s) (default [] (memoTable s !! target)) with
      | Some (sts, evs, once') => (mkInc once' (events s ++ evs) (memoTable s), Ok sts)
      | None =>
          match fs !! target with
          | None => (s, Ok [Stmts.MissingIncludeStmt target line])
          | Some src =>
              andThen (parseFile chain target src s) (λ s' sts, (addMemo s' target sts (length (events s)), Ok sts))
          end
      end.

(** [parseInternalWithState]; the fuel bounds the depth of inclusion. *)
Fixpoint parseFile (fuel : nat) (chain : list text) (name src : text) (s : IncludeState)
    : IncludeState * res (list Stmts.Stmt) :=
  match fuel with
  | O => (s, NoFuel)
  | S fuel =>
      let chain := chain ++ [name] in
      parseSource internEnvSTR name (expandOneInclude (parseFile fuel) chain) (applyOnce name) src s
  end.

(** [parse]: a file is parsed with nothing seen; the memos are shared, also after an error. *)
Definition makeFile (name : text) (r : IncludeState * res (list Stmts.Stmt)) : res MakeFile :=
  sts ← r.2; Ok (mkMakeFile (bool_decide (name ∈ onceSet r.1)) name sts).

Definition parse (fuel : nat) (M : gmap text (list (includeMemo Stmts.Stmt event))) (name src : text)
    : gmap text (list (includeMemo Stmts.Stmt event)) * res MakeFile :=
  let r := parseFile fuel [] name src (mkInc ∅ [] M) in (memoTable r.1, makeFile name r).

Fixpoint parseAll (fuel : nat) (M : gmap text (list (includeMemo Stmts.Stmt event))) (mks : list (text * text))
    : list (res MakeFile) :=
  match mks with
  | [] => []
  | (name, src) :: mks => let '(M, r) := parse fuel M name src in r :: parseAll fuel M mks
  end.

(** ** Without memos *)

Definition expandPlain (parseFile : list text → text → text → IncludeState → IncludeState * res (list Stmts.Stmt))
    (chain : list text) (s : IncludeState) (target : text) (line : Z) : IncludeState * res (list Stmts.Stmt) :=
  if decide (target ∈ onceSet s) then (note s target includeSeen, Ok [])
  else
    let s := note s target includeUnseen in
    if decide (target ∈ chain) then (s, Throw)
    else
      match fs !! target with
      | None => (s, Ok [Stmts.MissingIncludeStmt target line])
      | Some src => parseFile chain target src s
      end.

Fixpoint parsePlain (fuel : nat) (chain : list text) (name src : text) (s : IncludeState)
    : IncludeState * res (list Stmts.Stmt) :=
  match fuel with
  | O => (s, NoFuel)
  | S fuel =>
      let chain := chain ++ [name] in
      parseSource internEnvSTR name (expandPlain (parsePlain fuel) chain) (applyOnce name) src s
  end.

Definition parseAlone (fuel : nat) (name src : text) : res MakeFile :=
  makeFile name (parsePlain fuel [] name src (mkInc ∅ [] ∅)).

(** ** The files as items *)

Definition items : gmap text (list Item) := map_imap (λ name src, Some (sourceItems internEnvSTR name src)) fs.

Lemma items_lookup f : items !! f = sourceItems internEnvSTR f <$> fs !! f.
Proof. unfold items. rewrite map_lookup_imap. by destruct (fs !! f). Qed.

Lemma size_items : size (dom items) = size (dom fs).
Proof.
  apply set_size_proper. intros f. rewrite !elem_of_dom, items_lookup. by destruct (fs !! f); simpl; rewrite !is_Some_alt.
Qed.

(** A statement of IncludeMemo.v as one of the parser. *)
Definition unmark (st : stmt text Flat) : Flat :=
  match st with IncludeMemo.Stmt f => f | IncludeMemo.MissingIncludeStmt f line => FLeaf (Stmts.MissingIncludeStmt f line) end.

Definition memo_rel (m : includeMemo (stmt text Flat) event) (m' : includeMemo Stmts.Stmt event) : Prop :=
  flat (mstmts m') = unmark <$> mstmts m ∧ mevents m' = mevents m.

Definition memos_rel (M : gmap text (list (includeMemo (stmt text Flat) event))) (s : IncludeState) : Prop :=
  ∀ f, Forall2 memo_rel (default [] (M !! f)) (default [] (memoTable s !! f)).

(** What the parser of items and the parser of bytes have in common. *)
Definition same_outcome {X} (view : X → list Flat) (s : IncludeState) (r : res (list (stmt text Flat) * list event * gset text))
    (p : IncludeState * res X) : Prop :=
  match r with
  | Ok (sts, evs, once') => ∃ x, p.2 = Ok x ∧ view x = unmark <$> sts ∧ onceSet p.1 = once' ∧ events p.1 = events s ++ evs
  | Throw => p.2 = Throw
  | NoFuel => p.2 = NoFuel
  end.

Lemma same_outcome_prepend (s s1 : IncludeState) r p st ev fs0 :
  events s1 = events s ++ ev → fs0 = unmark <$> st →
  same_outcome (λ x, x) s1 r p →
  same_outcome (λ x, x) s (o ← r; Ok (prepend st ev o)) (andThen p (λ s fs, (s, Ok (fs0 ++ fs)))).
Proof.
  intros Hev -> Hr. destruct r as [[[sts evs] o]| |], p as [s' r']; simpl in *; [|by subst r'..].
  destruct Hr as (x & -> & -> & <- & Hev'). eexists. split; [done|]. rewrite fmap_app. split_and!; [done..|].
  unfold andThen. simpl. by rewrite Hev', Hev, <-app_assoc.
Qed.

Lemma find_memo_rel chain once ms ms' :
  Forall2 memo_rel ms ms' →
  match find_memo chain once ms with
  | Some (sts, evs, o) => ∃ sts', find_memo chain once ms' = Some (sts', evs, o) ∧ flat sts' = unmark <$> sts
  | None => find_memo chain once ms' = None
  end.
Proof.
  induction 1 as [|m m' ms ms' [Hst Hev] _ IH]; [done|]. cbn [find_memo]. unfold replay. rewrite Hev.
  destruct (replay_events chain once [] (mevents m)); simpl; [|done]. by eexists.
Qed.

Lemma memos_rel_add M s f sts evs sts' start :
  memos_rel M s → drop start (events s) = evs → flat sts' = unmark <$> sts →
  memos_rel (add_memo M f (sts, evs, onceSet s)) (addMemo s f sts' start).
Proof.
  intros HM <- Hst g. unfold add_memo, addMemo. simpl. destruct (decide (f = g)) as [<-|Hne].
  - rewrite !lookup_insert_eq. simpl. apply Forall2_app; [apply HM|]. constructor; [|done]. done.
  - rewrite !lookup_insert_ne by done. apply HM.
Qed.

(** ** The parser with memos *)

Definition memo_sim (pf : gmap text (list (includeMemo (stmt text Flat) event)) → list text → text → list Item → gset text →
      gmap text (list (includeMemo (stmt text Flat) event)) * res (list (stmt text Flat) * list event * gset text))
    (pf' : list text → text → text → IncludeState → IncludeState * res (list Stmts.Stmt)) : Prop :=
  ∀ M s chain f src, memos_rel M s →
    let r := pf M chain f (sourceItems internEnvSTR f src) (onceSet s) in
    let p := pf' chain f src s in
    memos_rel r.1 p.1 ∧ same_outcome flat s r.2 p.

Lemma interp_memo pf pf' chain name its M s :
  memo_sim pf pf' → memos_rel M s →
  let r := memo_items items pf M chain name its (onceSet s) in
  let p := interp (expandOneInclude pf' chain) (applyOnce name) s its in
  memos_rel r.1 p.1 ∧ same_outcome (λ x, x) s r.2 p.
Proof.
  intros Hsim. revert M s. induction its as [|[f| |f ln|] its IH]; intros M s HM; cbn [memo_items interp].
  - split; [done|]. exists []. split_and!; [done..|]. simpl. by rewrite app_nil_r.
  - destruct (IH M s HM) as [HM' Ho]. destruct (memo_items items pf M chain name its (onceSet s)) as [M' r]. simpl in *.
    split; [by destruct (interp _ _ s its) as [s' []]|].
    apply (same_outcome_prepend s s r _ [IncludeMemo.Stmt f] [] [f]); [by rewrite app_nil_r|done|done].
  - specialize (IH M (applyOnce name s) HM) as [HM' Ho]. change (onceSet (applyOnce name s)) with ({[name]} ∪ onceSet s) in *.
    destruct (memo_items items pf M chain name its ({[name]} ∪ onceSet s)) as [M' r]. simpl in *. split; [done|].
    pose proof (same_outcome_prepend s (applyOnce name s) r _ [] [(name, includeOnce)] [] eq_refl eq_refl Ho) as H. simpl in H.
    unfold andThen in H. by destruct (interp _ _ (applyOnce name s) its) as [s' [fs'| |]].
  - unfold expandOneInclude. destruct (decide (f ∈ onceSet s)) as [Hin|Hin].
    { specialize (IH M (note s f includeSeen) HM) as [HM' Ho]. simpl onceSet in *.
      destruct (memo_items items pf M chain name its (onceSet s)) as [M' r]. cbn [fst snd] in *.
      unfold andThen at 1 3. cbn [fst snd orThrow]. split; [by destruct (interp _ _ _ its) as [s' []]|].
      by apply (same_outcome_prepend s (note s f includeSeen) r _ [] [(f, includeSeen)]). }
    destruct (decide (f ∈ chain)); [done|]. simpl onceSet.
    pose proof (find_memo_rel chain (onceSet s) _ _ (HM f)) as Hfind. simpl memoTable.
    destruct (find_memo chain (onceSet s) (default [] (M !! f))) as [[[sts evs] o]|].
    { destruct Hfind as (sts' & -> & Hst). cbn [fst snd].
      set (s1 := mkInc o (events (note s f includeUnseen) ++ evs) (memoTable s)).
      specialize (IH M s1 HM) as [HM' Ho]. simpl onceSet in *.
      destruct (memo_items items pf M chain name its o) as [M' r]. cbn [fst snd] in *.
      unfold andThen at 1 3. cbn [fst snd orThrow]. split; [by destruct (interp _ _ _ its) as [s' []]|].
      apply (same_outcome_prepend s s1 r _ sts ((f, includeUnseen) :: evs)); [|done|done].
      simpl. by rewrite <-app_assoc. }
    rewrite Hfind, items_lookup. destruct (fs !! f) as [src|]; cycle 1.
    { simpl fmap. specialize (IH M (note s f includeUnseen) HM) as [HM' Ho]. simpl onceSet in *.
      destruct (memo_items items pf M chain name its (onceSet s)) as [M' r]. cbn [fst snd] in *.
      unfold andThen at 1 3. cbn [fst snd orThrow]. split; [by destruct (interp _ _ _ its) as [s' []]|].
      by apply (same_outcome_prepend s (note s f includeUnseen) r _ [IncludeMemo.MissingIncludeStmt f ln] [(f, includeUnseen)]). }
    cbn [fmap option_fmap option_map]. destruct (Hsim M (note s f includeUnseen) chain f src HM) as [HM1 Ho1]. simpl onceSet in *.
    destruct (pf M chain f (sourceItems internEnvSTR f src) (onceSet s)) as [M1 [[[sts evs] o]| |]]; cbn [fst snd] in *.
    + destruct Ho1 as (sts' & Hp & Hst & Ho1 & Hev). destruct (pf' chain f src (note s f includeUnseen)) as [s1 r1]. simpl in Hp, Hst, Ho1, Hev, HM1.
      subst r1 o. unfold andThen at 2 5. cbn [fst snd orThrow]. 
      assert (HM2 : memos_rel (add_memo M1 f (sts, evs, onceSet s1)) (addMemo s1 f sts' (length (events (note s f includeUnseen))))).
      { apply memos_rel_add; [done| |done]. rewrite Hev. simpl. by rewrite drop_app_length. }
      specialize (IH _ _ HM2) as [HM' Ho]. simpl onceSet in *.
      destruct (memo_items items pf _ chain name its (onceSet s1)) as [M' r]. cbn [fst snd] in *.
      unfold andThen at 1 3. cbn [fst snd orThrow]. split; [by destruct (interp _ _ _ its) as [s' []]|].
      eapply (same_outcome_prepend s _ r _ sts ((f, includeUnseen) :: evs)); [|done|done].
      simpl. rewrite Hev. simpl. by rewrite <-app_assoc.
    + destruct (pf' chain f src (note s f includeUnseen)) as [s1 r1]. simpl in *. by subst r1.
    + destruct (pf' chain f src (note s f includeUnseen)) as [s1 r1]. simpl in *. by subst r1.
  - done.
Qed.

(** From the items of a file to its bytes. *)
Lemma parseSource_outcome name include once src s r :
  same_outcome (λ x, x) s r (interp include once s (sourceItems internEnvSTR name src)) →
  (parseSource internEnvSTR name include once src s).1 = (interp include once s (sourceItems internEnvSTR name src)).1 ∧
  same_outcome flat s r (parseSource internEnvSTR name include once src s).
Proof.
  pose proof (parseSource_runs internEnvSTR name include once src s) as Hr.
  destruct (interp include once s (sourceItems internEnvSTR name src)) as [s' [fs'| |]]; simpl.
  - destruct Hr as (sts & -> & Hfl). intros Ho. split; [done|]. destruct r as [[[sts' evs] o]| |]; simpl in *; [|done..].
    destruct Ho as (x & [= <-] & Hx & Ho & Hev). exists sts. split_and!; [done|congruence|done|done].
  - rewrite Hr. by destruct r as [[[sts' evs] o]| |]; [intros (x & ? & _)|..].
  - rewrite Hr. by destruct r as [[[sts' evs] o]| |]; [intros (x & ? & _)|..].
Qed.

Lemma parseFile_sim fuel : memo_sim (memo_file items fuel) (parseFile fuel).
Proof.
  induction fuel as [|fuel IH]; intros M s chain f src HM; [done|]. cbn [memo_file parseFile].
  destruct (interp_memo _ _ (chain ++ [f]) f (sourceItems internEnvSTR f src) M s IH HM) as [HM' Ho].
  destruct (parseSource_outcome f _ _ src s _ Ho) as [Hs Ho']. split; [|done]. intros g. rewrite Hs. apply HM'.
Qed.

(** ** The parser without memos *)

Definition plain_sim (pf : list text → text → list Item → gset text → res (list (stmt text Flat) * list event * gset text))
    (pf' : list text → text → text → IncludeState → IncludeState * res (list Stmts.Stmt)) : Prop :=
  ∀ s chain f src, same_outcome flat s (pf chain f (sourceItems internEnvSTR f src) (onceSet s)) (pf' chain f src s).

Lemma interp_plain pf pf' chain name its s :
  plain_sim pf pf' →
  same_outcome (λ x, x) s (run_items items pf chain name its (onceSet s)) (interp (expandPlain pf' chain) (applyOnce name) s its).
Proof.
  intros Hsim. revert s. induction its as [|[f| |f ln|] its IH]; intros s; cbn [run_items interp].
  - exists []. split_and!; [done..|]. simpl. by rewrite app_nil_r.
  - apply (same_outcome_prepend s s _ _ [IncludeMemo.Stmt f] [] [f]); [by rewrite app_nil_r|done|apply IH].
  - pose proof (same_outcome_prepend s (applyOnce name s) _ _ [] [(name, includeOnce)] [] eq_refl eq_refl (IH (applyOnce name s))) as H.
    simpl onceSet in H. unfold andThen in H. simpl in H. by destruct (interp _ _ (applyOnce name s) its) as [s' [fs'| |]].
  - unfold expandPlain. destruct (decide (f ∈ onceSet s)) as [Hin|Hin].
    { unfold andThen at 1. cbn [fst snd orThrow]. 
      by apply (same_outcome_prepend s (note s f includeSeen) _ _ [] [(f, includeSeen)] (flat []) eq_refl eq_refl (IH (note s f includeSeen))). }
    destruct (decide (f ∈ chain)); [done|]. rewrite items_lookup. destruct (fs !! f) as [src|]; cycle 1.
    { cbn [fmap option_fmap option_map]. unfold andThen at 1. cbn [fst snd orThrow].
      apply (same_outcome_prepend s (note s f includeUnseen) _ _ [IncludeMemo.MissingIncludeStmt f ln] [(f, includeUnseen)]
        (flat [Stmts.MissingIncludeStmt f ln]) eq_refl eq_refl (IH (note s f includeUnseen))). }
    cbn [fmap option_fmap option_map]. pose proof (Hsim (note s f includeUnseen) chain f src) as Ho1. simpl onceSet in Ho1.
    destruct (pf chain f (sourceItems internEnvSTR f src) (onceSet s)) as [[[sts evs] o]| |];
      destruct (pf' chain f src (note s f includeUnseen)) as [s1 r1]; simpl in Ho1; [|by subst r1..].
    destruct Ho1 as (sts' & -> & Hst & <- & Hev). unfold andThen at 1. cbn [fst snd orThrow mbind res_bind].
    apply (same_outcome_prepend s s1 _ _ sts ((f, includeUnseen) :: evs)); [|done|apply IH].
    rewrite Hev. simpl. by rewrite <-app_assoc.
  - done.
Qed.

Lemma parsePlain_sim fuel : plain_sim (run_file items fuel) (parsePlain fuel).
Proof.
  induction fuel as [|fuel IH]; intros s chain f src; [done|]. cbn [run_file parsePlain].
  apply parseSource_outcome, interp_plain, IH.
Qed.

(** ** Together *)

Lemma makeFile_outcome name r p p' s s' :
  same_outcome flat s r p → same_outcome flat s' r p' → makeFile name p = makeFile name p'.
Proof.
  intros Hp Hp'. unfold makeFile. destruct r as [[[sts evs] o]| |]; simpl in *; [|by rewrite Hp, Hp'..].
  destruct Hp as (x & -> & Hx & -> & _), Hp' as (x' & -> & Hx' & -> & _). simpl. do 2 f_equal.
  apply flat_inj. congruence.
Qed.

Lemma parseAlone_fuel fuel name src : (size (dom fs) < fuel)%nat → parseAlone fuel name src ≠ NoFuel.
Proof.
  intros Hlt. unfold parseAlone, makeFile. pose proof (parsePlain_sim fuel (mkInc ∅ [] ∅) [] name src) as Hs.
  pose proof (run_file_top_fuel items fuel name (sourceItems internEnvSTR name src) ∅) as Hf.
  rewrite size_items in Hf. specialize (Hf Hlt). simpl onceSet in Hs.
  destruct (run_file items fuel [] name _ ∅) as [[[sts evs] o]| |]; simpl in Hs; [|by rewrite Hs|done].
  destruct Hs as (x & -> & _). done.
Qed.

Lemma parseAll_plain fuel M T mks : (size (dom fs) < fuel)%nat →
  valid items M → memos_rel M (mkInc ∅ [] T) → parseAll fuel T mks = (λ mk, parseAlone fuel mk.1 mk.2) <$> mks.
Proof.
  intros Hlt. revert M T. induction mks as [|[name src] mks IH]; intros M T HV HM; [done|]. csimpl. unfold parse.
  pose proof (parseFile_sim fuel M (mkInc ∅ [] T) [] name src HM) as [HM' Ho]. simpl onceSet in *.
  pose proof (parsePlain_sim fuel (mkInc ∅ [] ∅) [] name src) as Hp. simpl onceSet in Hp.
  destruct (memo_file_transparent items fuel M [] name (sourceItems internEnvSTR name src) ∅) as (M' & Heq & HV'); [done| |].
  { apply run_file_top_fuel. by rewrite size_items. }
  rewrite Heq in HM', Ho. simpl in HM', Ho. f_equal; [by eapply makeFile_outcome|]. eapply IH; [done|].
  intros f. apply HM'.
Qed.
End files.

(** C8: parsing files one after the other with shared memos of inclusions gives, on
    the bytes of any set of files, what parsing each alone and reading every included
    file again gives: the same nested statements and INCLUDE_ONCE mark, or an error in
    the same cases.  Every parse ends, cycles of INCLUDE included. *)
Theorem parse_memo_transparent internEnvSTR fs fuel mks :
  (size (dom fs) < fuel)%nat →
  parseAll internEnvSTR fs fuel ∅ mks = (λ mk, parseAlone internEnvSTR fs fuel mk.1 mk.2) <$> mks ∧
  Forall (λ r, r ≠ NoFuel) (parseAll internEnvSTR fs fuel ∅ mks).
Proof.
  intros Hlt. rewrite (parseAll_plain internEnvSTR fs fuel ∅ ∅ mks Hlt (valid_empty _)).
  - split; [done|]. apply Forall_fmap, Forall_true. intros [name src]. by apply parseAlone_fuel.
  - intros f. rewrite lookup_empty. constructor.
Qed.


(** Two included files and two files that include them; the second includes itself. *)
Definition lines (l : list string) : text := mjoin ((λ s, bs s ++ [10]) <$> l).
Definition sampleFiles : gmap text text :=
  {[bs "d/a.inc" := lines ["INCLUDE_ONCE()"; "SRCS(x.cpp)"];
    bs "d/b.inc" := lines ["IF (X)"; "INCLUDE(a.inc)"; "ENDIF()"; "INCLUDE(${ARCADIA_ROOT}/d/none.inc)"]]}%string.
Definition sampleMakes : list (text * text) :=
  [(bs "d/ya.make", lines ["LIBRARY()"; "INCLUDE(b.inc)"; "INCLUDE(b.inc)"; "END()"]);
   (bs "d/other", lines ["INCLUDE(./b.inc)"; "INCLUDE(other)"])]%string.

Lemma parse_memo_transparent_witness :
  ∃ c, parseAll (λ _, 7) sampleFiles 3 ∅ sampleMakes =
    [Ok (mkMakeFile false (bs "d/ya.make")
       [ModuleStmt (bs "LIBRARY") false [] 1;
        IfStmt c [SrcsStmt [bs "x.cpp"] 2] [] 1; Stmts.MissingIncludeStmt (bs "d/none.inc") 4;
        IfStmt c [] [] 1; Stmts.MissingIncludeStmt (bs "d/none.inc") 4; EndStmt 4]); Throw] ∧
  parseAll (λ _, 7) sampleFiles 3 ∅ sampleMakes = (λ mk, parseAlone (λ _, 7) sampleFiles 3 mk.1 mk.2) <$> sampleMakes.
Proof.
  exists [leaf ckIdent (bs "X") 7]. split; [vm_compute; reflexivity|].
  apply (parse_memo_transparent (λ _, 7) sampleFiles 3 sampleMakes). vm_compute. lia.
Defined.
