(* ===== verification/RoundTrip.v ===== *)
(** * Printing a build file and parsing it again

    A build file written out from its macro calls and IF blocks, one call a line,
    words bare or quoted, is parsed to the statements of those calls: nothing of
    the text is lost, joined or split on the way through lexer and parser. *)

From S2P Require Import Prelude Paths Cond Lexer IncludeMemo Stmts Parser.
Local Open Scope Z_scope.

Abbreviation text := (list Z) (only parsing).

(** ** Words *)

(** Bytes of bare words. *)
Definition bare (b : Z) : bool :=
  (97 <=? b) && (b <=? 122) || (65 <=? b) && (b <=? 90) || (48 <=? b) && (b <=? 57)
  || bool_decide (b ∈ bs "_-./+:=%,!{}~*?").

Inductive Word := Bare (w : text) | Quoted (w : text).

Definition okWord (w : Word) : bool :=
  match w with
  | Bare w => negb (bool_decide (w = [])) && forallb bare w
  | Quoted w => forallb (λ b, negb ((b =? c_dquote) || (b =? c_bslash) || (b =? c_nl) || (b =? c_cr))) w
  end.

Definition wordText (w : Word) : text := match w with Bare w | Quoted w => w end.
Definition printWord (w : Word) : text := match w with Bare w => w | Quoted w => c_dquote :: w ++ [c_dquote] end.

(** ** The lexer on bare words *)

Lemma bare_word args b : bare b = true → isWordByte args b = true.
Proof.
  unfold bare, isWordByte, wordBytes. intros Hb. apply orb_true_iff. left.
  rewrite !orb_true_iff, !andb_true_iff, !Z.leb_le in Hb.
  assert (Hc : (97 <=? b) && (b <=? 122) || (65 <=? b) && (b <=? 90) || (48 <=? b) && (b <=? 57) || (128 <=? b)
     || bool_decide (b ∈ bs "_-./+:=*?$%~,!{}#[]@\") = true); [|by rewrite Hc].
  rewrite !orb_true_iff, !andb_true_iff, !Z.leb_le. destruct Hb as [[[?|?]|?]|Hb]; [tauto..|].
  right. apply bool_decide_eq_true in Hb. apply bool_decide_eq_true. revert Hb. unfold bs. simpl. clear. set_solver.
Qed.

(** Bytes with a meaning of their own. *)
Definition special (b : Z) : Prop :=
  b = c_bslash ∨ b = c_dquote ∨ b = c_squote ∨ b = c_at ∨ b = 36 ∨ b = 35 ∨ b = 40 ∨ b = 41 ∨ b = 60 ∨ b = 62 ∨
  isWhitespace b = true.

Lemma bare_not_special b : bare b = true → ¬ special b.
Proof.
  intros Hb Hs. unfold special, isWhitespace, c_bslash, c_dquote, c_squote, c_at in Hs.
  assert (b ∈ [92; 34; 39; 64; 36; 35; 40; 41; 60; 62; 32; 9; 13; 10]) as Hin.
  { rewrite !orb_true_iff, !Z.eqb_eq in Hs. set_unfold. tauto. }
  clear Hs. set_unfold in Hin. destruct_or? Hin; subst b; by vm_compute in Hb.
Qed.

(** The byte after a word: a space, a parenthesis. *)
Definition delim (d : Z) : Prop := d = 32 ∨ d = 40 ∨ d = 41.

Lemma delim_facts args d : delim d →
  isIdentCont d = false ∧ isWordByte args d = false ∧ d ≠ c_at ∧ d ≠ c_bslash ∧ is_quote d = false ∧ is_digit d = false.
Proof. intros [->|[->| ->]]; by destruct args. Qed.

Lemma escape_no b r : b ≠ c_bslash → escape (b :: r) = false.
Proof. intros Hb. destruct r; simpl; [done|]. by apply Z.eqb_neq. Qed.

Lemma bare_facts b : bare b = true → b ≠ c_bslash ∧ is_quote b = false ∧ b ≠ c_at ∧ b ≠ 36 ∧ isWhitespace b = false ∧ b ≠ 35.
Proof.
  intros Hb. pose proof (bare_not_special b Hb) as Hs. unfold special in Hs. unfold is_quote.
  split_and!; try (intros ->; tauto).
  - apply orb_false_iff. split; apply Z.eqb_neq; intros ->; tauto.
  - destruct (isWhitespace b) eqn:E; [|done]. exfalso. tauto.
Qed.

Lemma scanWord_bare args first w d r : forallb bare w = true → delim d →
  scanWord args first (w ++ d :: r) = Some (w, d :: r).
Proof.
  intros Hw Hd. destruct (delim_facts args d Hd) as (_ & Hwd & Hat & Hbs & Hq & _).
  revert first Hw. induction w as [|b w IH]; intros first Hw; cbn [scanWord app].
  - rewrite escape_no, Hq, Hwd by done. rewrite andb_false_r. simpl. rewrite (proj2 (Z.eqb_neq d c_at)) by done. done.
  - simpl in Hw. apply andb_true_iff in Hw as [Hb Hw]. destruct (bare_facts b Hb) as (? & Hqb & ? & _).
    rewrite escape_no, Hqb, (bare_word args b Hb), andb_false_r by done. simpl. by rewrite IH.
Qed.

Lemma scanIdent_bare args first w d r : forallb bare w = true → delim d →
  scanIdent args first (w ++ d :: r) = Some (w, forallb isIdentCont w, d :: r).
Proof.
  intros Hw Hd. destruct (delim_facts args d Hd) as (Hid & Hwd & Hat & Hbs & Hq & _).
  revert first Hw. induction w as [|b w IH]; intros first Hw; cbn [scanIdent app].
  - rewrite escape_no, Hq, Hwd, Hid by done. rewrite andb_false_r. simpl. rewrite (proj2 (Z.eqb_neq d c_at)) by done. done.
  - simpl in Hw. apply andb_true_iff in Hw as [Hb Hw]. destruct (bare_facts b Hb) as (? & Hqb & ? & _).
    rewrite escape_no, Hqb, (bare_word args b Hb), andb_false_r by done. simpl.
    rewrite (IH false Hw). by destruct (isIdentCont b).
Qed.

Lemma scanNumber_bare args w d r : forallb bare w = true → delim d →
  let '(digits, r') := scanDigits (w ++ d :: r) in
  ∃ more, scanRest args r' = Some (more, d :: r) ∧ w = digits ++ more.
Proof.
  intros Hw Hd. destruct (delim_facts args d Hd) as (Hid & Hwd & Hat & Hbs & Hq & Hdig).
  assert (Hrest : ∀ w, forallb bare w = true → scanRest args (w ++ d :: r) = Some (w, d :: r)).
  { clear Hw. intros w'. induction w' as [|b w' IH]; intros Hw; cbn [scanRest app]; [by rewrite Hwd|].
    simpl in Hw. apply andb_true_iff in Hw as [Hb Hw]. destruct (bare_facts b Hb) as (? & _).
    rewrite (bare_word args b Hb), escape_no by done. by rewrite IH. }
  induction w as [|b w IH]; cbn [scanDigits app].
  - rewrite Hdig. exists []. split; [|done]. apply (Hrest []). done.
  - destruct (is_digit b) eqn:Hb.
    + simpl in Hw. apply andb_true_iff in Hw as [Hbb Hw]. specialize (IH Hw).
      destruct (scanDigits (w ++ d :: r)) as [digits r']. destruct IH as (more & Hm & ->). by exists more.
    + exists (b :: w). split; [|done]. by apply (Hrest (b :: w)).
Qed.

(** A bare word in arguments, and a macro name, are read whole. *)
Definition wordKind (k : TokKind) : Prop := k = tokIdent ∨ k = tokWord ∨ k = tokInt ∨ k = tokString.

Lemma readHere_bare l w d r : rest l = w ++ d :: r → w ≠ [] → forallb bare w = true → delim d → inArgs l = true →
  ∃ k, wordKind k ∧ readHere l = Ok (jump l w (d :: r), newToken k w (line l) (col l)).
Proof.
  intros Hr Hne Hw Hd Ha. destruct w as [|b w]; [done|]. cbn [app] in Hr.
  assert (Hb : bare b = true) by (simpl in Hw; by apply andb_true_iff in Hw as [? _]).
  pose proof (bare_not_special b Hb) as Hs. destruct (bare_facts b Hb) as (_ & Hq & _ & Hdol & _ & _).
  unfold readHere. rewrite Hr, Ha. cbn match.
  rewrite (proj2 (Z.eqb_neq b 40)) by (intros ->; unfold special in Hs; tauto).
  rewrite (proj2 (Z.eqb_neq b 41)) by (intros ->; unfold special in Hs; tauto).
  rewrite Hq. cbn [negb]. rewrite !andb_false_r. cbn [andb].
  destruct (is_digit b).
  { unfold readNumberOrWord. rewrite Hr, Ha. change (b :: w ++ d :: r) with ((b :: w) ++ d :: r).
    pose proof (scanNumber_bare true (b :: w) d r Hw Hd) as Hn. destruct (scanDigits ((b :: w) ++ d :: r)) as [digits r'].
    destruct Hn as (more & -> & ->). eexists. split; [|done]. unfold wordKind. case_decide; tauto. }
  destruct (isIdentStart b).
  { unfold readIdentOrWord. rewrite Hr, Ha. change (b :: w ++ d :: r) with ((b :: w) ++ d :: r).
    rewrite (scanIdent_bare true true (b :: w) d r Hw Hd). eexists. split; [|done].
    unfold wordKind, ident_kind. case_match; tauto. }
  rewrite (bare_word true b Hb). unfold readWord.
  assert (dollarParenPrefix l = 0%nat) as ->.
  { unfold dollarParenPrefix. rewrite Ha, Hr. simpl. destruct w as [|c w]; simpl; [destruct r as [|? ?]; simpl|];
      rewrite ?(proj2 (Z.eqb_neq b 36)) by done; try done. destruct (w ++ d :: r); [done|]. done. }
  rewrite Ha, Hr. change (drop 0 (b :: w ++ d :: r)) with ((b :: w) ++ d :: r). rewrite scanWord_bare by done.
  exists tokWord. split; [unfold wordKind; tauto|done].
Qed.

(** ** Trivia *)

Lemma skip_stop fuel l b r : rest l = b :: r → isWhitespace b = false → b ≠ 35 → skipTrivia (S fuel) l = Ok l.
Proof. intros Hr Hw Hb. cbn [skipTrivia]. rewrite Hr, Hw. by rewrite (proj2 (Z.eqb_neq b 35)). Qed.

Lemma skip_space fuel l r : rest l = 32 :: r →
  skipTrivia (S fuel) l = skipTrivia fuel (mkLexer r (line l) (col l + 1) 32 (inArgs l)).
Proof. intros Hr. cbn [skipTrivia]. rewrite Hr. cbn. unfold advance. by rewrite Hr. Qed.

Lemma skip_newline fuel l r : rest l = 10 :: r →
  skipTrivia (S fuel) l = skipTrivia fuel (mkLexer r (line l + 1) 1 10 (inArgs l)).
Proof. intros Hr. cbn [skipTrivia]. rewrite Hr. cbn. unfold advance. by rewrite Hr. Qed.

(** The first byte of what follows is no trivia. *)
Definition solid (t : text) : Prop := ∃ b r, t = b :: r ∧ isWhitespace b = false ∧ b ≠ 35.

Lemma solid_skip l : solid (rest l) → skipTrivia (S (length (rest l))) l = Ok l.
Proof. intros (b & r & Hr & ? & ?). by eapply skip_stop. Qed.

(** The lexer is before the text [t] on line [k], perhaps before a space or a line break. *)
Definition before (l : Lexer) (t : text) (k : Z) (args : bool) : Prop :=
  inArgs l = args ∧
  (rest l = t ∧ line l = k ∨ rest l = 32 :: t ∧ line l = k ∨ rest l = 10 :: t ∧ line l = k - 1).

Lemma before_next l t k args : before l t k args → solid t →
  ∃ l0, skipTrivia (S (length (rest l))) l = Ok l0 ∧ rest l0 = t ∧ line l0 = k ∧ inArgs l0 = args ∧
    next l = readHere l0 ∧ next l0 = readHere l0.
Proof.
  intros [Ha Hcases] Hs. assert (Hidem : ∀ l0, rest l0 = t → next l0 = readHere l0).
  { intros l0 Hr. unfold next, readToken. rewrite solid_skip by (by rewrite Hr). done. }
  destruct Hs as (b & r & -> & Hw & Hb). destruct Hcases as [[Hr Hk]|[[Hr Hk]|[Hr Hk]]].
  - exists l. rewrite solid_skip by (rewrite Hr; by exists b, r). split_and!; [done..| |]; by apply Hidem.
  - eexists. split; [rewrite (skip_space _ l (b :: r)) by done; rewrite Hr; by eapply skip_stop|].
    simpl. split_and!; [done..| |by apply Hidem]. unfold next, readToken. rewrite (skip_space _ l (b :: r)), Hr by done.
    simpl length. by erewrite skip_stop.
  - eexists. split; [rewrite (skip_newline _ l (b :: r)) by done; rewrite Hr; by eapply skip_stop|].
    simpl. split_and!; [done|lia|done| |by apply Hidem]. unfold next, readToken. rewrite (skip_newline _ l (b :: r)), Hr by done.
    simpl length. by erewrite skip_stop.
Qed.

(** ** Quoted words *)

Lemma scanString_quoted w r :
  forallb (λ b, negb ((b =? c_dquote) || (b =? c_bslash) || (b =? c_nl) || (b =? c_cr))) w = true →
  scanString c_dquote (w ++ c_dquote :: r) = Some (w, r).
Proof.
  induction w as [|b w IH]; cbn [scanString app forallb].
  - intros _. by rewrite Z.eqb_refl.
  - intros [Hb Hw]%andb_true_iff. apply negb_true_iff in Hb. rewrite !orb_false_iff in Hb.
    destruct Hb as [[[-> ->] ->] ->]. simpl. by rewrite IH.
Qed.

Lemma readHere_quoted l w r : rest l = c_dquote :: w ++ c_dquote :: r →
  forallb (λ b, negb ((b =? c_dquote) || (b =? c_bslash) || (b =? c_nl) || (b =? c_cr))) w = true →
  readHere l = Ok (mkLexer r (line l) (col l + 1 + Z.of_nat (length w) + 1) c_dquote (inArgs l),
    newToken tokString w (line l) (col l)).
Proof.
  intros Hr Hw. unfold readHere. rewrite Hr. cbn. unfold readString, advance. rewrite Hr. cbn.
  rewrite scanString_quoted by done. done.
Qed.

Lemma quoted_backslash w k ln cl :
  forallb (λ b, negb ((b =? c_dquote) || (b =? c_bslash) || (b =? c_nl) || (b =? c_cr))) w = true →
  backslash (newToken k w ln cl) = false.
Proof.
  intros Hw. unfold newToken. simpl. case_decide; [|done]. apply bool_decide_eq_false. intros Hin.
  rewrite forallb_forall in Hw. specialize (Hw 92 (proj1 (list_elem_of_In _ _) Hin)). by vm_compute in Hw.
Qed.

(** Any word in arguments. *)
Lemma readHere_word l w r : rest l = printWord w ++ 32 :: r → okWord w = true → inArgs l = true →
  ∃ l' k, readHere l = Ok (l', newToken k (wordText w) (line l) (col l)) ∧ wordKind k ∧
    rest l' = 32 :: r ∧ line l' = line l ∧ inArgs l' = true ∧
    lexicalValue l l' (newToken k (wordText w) (line l) (col l)) = wordText w.
Proof.
  intros Hr Hok Ha. destruct w as [w|w]; simpl in *.
  - apply andb_true_iff in Hok as [Hne Hw]. apply negb_true_iff, bool_decide_eq_false in Hne.
    destruct (readHere_bare l w 32 r Hr Hne Hw) as (k & Hk & ->); [by left|done|].
    eexists _, k. split; [done|]. simpl. split_and!; [done..|]. unfold lexicalValue. simpl.
    assert (Hb : (if decide (k = tokString) then bool_decide (92 ∈ w) else false) = false).
    { case_decide; [|done]. apply bool_decide_eq_false. intros Hin. rewrite forallb_forall in Hw.
      specialize (Hw 92 (proj1 (list_elem_of_In _ _) Hin)). by vm_compute in Hw. }
    case_decide; [by rewrite Hb|]. rewrite Hr, length_app. simpl.
    replace (length w + S (length r) - S (length r))%nat with (length w) by lia.
    rewrite take_app_length. by rewrite Z.eqb_refl.
  - rewrite <-app_assoc in Hr. rewrite (readHere_quoted l w (32 :: r) Hr Hok).
    eexists _, tokString. split; [done|]. simpl. split_and!; [unfold wordKind; tauto|done|done|done|].
    unfold lexicalValue. rewrite quoted_backslash by done. done.
Qed.

Lemma printWord_solid w r : okWord w = true → solid (printWord w ++ r).
Proof.
  destruct w as [[|b w]|w]; simpl; [done| |].
  - intros [Hb _]%andb_true_iff. destruct (bare_facts b Hb) as (_ & _ & _ & _ & ? & ?). by exists b, (w ++ r).
  - intros _. by exists c_dquote, ((w ++ [c_dquote]) ++ r).
Qed.

(** ** Arguments *)

Definition printWords (ws : list Word) : text := mjoin ((λ w, printWord w ++ [32]) <$> ws).
Definition texts (ws : list Word) : list text := wordText <$> ws.

Lemma rparen_solid r : solid (41 :: r).
Proof. by exists 41, r. Qed.

Lemma printWords_solid ws r : forallb okWord ws = true → solid (printWords ws ++ 41 :: r).
Proof.
  destruct ws as [|w ws]; [intros _; apply rparen_solid|]. simpl. intros [Hw _]%andb_true_iff. unfold printWords. csimpl.
  rewrite <-!app_assoc. by apply printWord_solid.
Qed.

Lemma args_loop_words ws l k r fuel lexArgs capture scratch lexical :
  before l (printWords ws ++ 41 :: r) k true → forallb okWord ws = true → (length (rest l) < fuel)%nat →
  ∃ l', args_loop fuel lexArgs capture l scratch lexical =
      Ok (l', scratch ++ texts ws, if capture then lexical ++ texts ws else lexical) ∧ rest l' = r ∧ line l' = k.
Proof.
  revert l fuel scratch lexical. induction ws as [|w ws IH]; intros l fuel scratch lexical Hb Hok Hf; (destruct fuel as [|fuel]; [lia|]).
  - destruct (before_next l _ k true Hb (rparen_solid r)) as (l0 & Hskip & Hr0 & Hk0 & Ha0 & Hn & Hn0). cbn [args_loop].
    assert (Hread : readHere l0 = Ok (mkLexer r (line l0) (col l0 + 1) 41 true, bareToken tokRParen (line l0) (col l0))).
    { unfold readHere. rewrite Hr0. cbn. unfold advance. rewrite Hr0, Ha0. done. }
    exists (mkLexer r (line l0) (col l0 + 1) 41 true). simpl texts. rewrite !app_nil_r. split; [|done].
    rewrite Hread in Hn, Hn0. destruct (capture || lexArgs); [rewrite Hskip; cbn [mbind res_bind]; rewrite Hn0|cbn [mbind res_bind]; rewrite Hn];
      cbn; by destruct capture.
  - simpl in Hok. apply andb_true_iff in Hok as [Hw Hws]. unfold printWords in Hb. csimpl in Hb. fold (printWords ws) in Hb.
    rewrite <-!app_assoc in Hb. cbn [app] in Hb.
    destruct (before_next l _ k true Hb (printWord_solid w _ Hw)) as (l0 & Hskip & Hr0 & Hk0 & Ha0 & Hn & Hn0).
    destruct (readHere_word l0 w _ Hr0 Hw Ha0) as (l1 & kd & Hread & Hkd & Hr1 & Hk1 & Ha1 & Hlex). rewrite Hread in Hn, Hn0.
    assert (Hlen : (length (rest l0) <= length (rest l))%nat).
    { destruct Hb as [_ [[-> _]|[[-> _]|[-> _]]]]; rewrite Hr0; simpl; lia. }
    destruct (IH l1 fuel (scratch ++ [wordText w]) (if capture then lexical ++ [wordText w] else lexical)) as (l' & Hrec & Hr' & Hk').
    { split; [done|]. right. left. split; [done|]. by rewrite Hk1. }
    { done. }
    { rewrite Hr1. rewrite Hr0, length_app in Hlen. simpl in *. assert (length (printWord w) ≠ 0)%nat by (by destruct w as [[|]|]). lia. }
    exists l'. split; [|done]. cbn [args_loop].
    change (texts (w :: ws)) with ([wordText w] ++ texts ws). rewrite !app_assoc.
    destruct capture, lexArgs; cbn [orb]; rewrite ?Hskip; cbn [mbind res_bind]; rewrite ?Hn0, ?Hn; cbn [mbind res_bind];
      cbn [newToken kind]; destruct Hkd as [->|[->|[->| ->]]]; cbn match; rewrite ?Hlex; exact Hrec.
Qed.

Definition printArgs (ws : list Word) : text := 40 :: printWords ws ++ [41; 10].

Lemma parseMacroArgs_words nameTok capture l ws r k :
  rest l = printArgs ws ++ r → line l = k → inArgs l = false → forallb okWord ws = true →
  ∃ l', parseMacroArgsLexical nameTok capture l = Ok (l', texts ws, if capture then texts ws else []) ∧
    before l' r (k + 1) false.
Proof.
  intros Hr Hk Ha Hok. unfold parseMacroArgsLexical, next, readToken. unfold printArgs in Hr. cbn [app] in Hr.
  rewrite (skip_stop _ l 40 _ Hr) by done. cbn [mbind res_bind].
  assert (Hread : readHere l = Ok (mkLexer ((printWords ws ++ [41; 10]) ++ r) (line l) (col l + 1) 40 (inArgs l), bareToken tokLParen (line l) (col l))).
  { unfold readHere. rewrite Hr. cbn. unfold advance. rewrite Hr. done. }
  rewrite Hread. cbn [mbind res_bind kind bareToken]. rewrite decide_True by done.
  set (l1 := mkLexer _ _ _ _ _).
  destruct (args_loop_words ws (setArgs l1 true) k (10 :: r) (S (length (rest l1))) (lexicalArgs (id nameTok)) capture [] [])
    as (l' & -> & Hr' & Hk').
  { split; [done|]. left. simpl. split; [by rewrite <-app_assoc|done]. }
  { done. }
  { simpl. lia. }
  cbn [mbind res_bind]. exists (setArgs l' false). split; [by destruct capture|]. split; [done|].
  right. right. simpl. split; [done|lia].
Qed.

(** ** Macro names *)

Definition okName (n : text) : bool :=
  match n with b :: _ => isIdentStart b && forallb isIdentCont n | [] => false end.

Lemma ident_bare b : isIdentCont b = true → bare b = true.
Proof.
  unfold isIdentCont, bare. rewrite !orb_true_iff, !andb_true_iff, !Z.leb_le, Z.eqb_eq.
  intros [[?|?]| ->]; [tauto|tauto|]. right. by vm_compute.
Qed.

Definition nameTok (n : text) (k c : Z) : Token := newToken tokIdent n k c.

Lemma next_name l name ws r k :
  before l (name ++ printArgs ws ++ r) k false → okName name = true →
  ∃ l' c, next l = Ok (l', nameTok name k c) ∧ rest l' = printArgs ws ++ r ∧ line l' = k ∧ inArgs l' = false.
Proof.
  intros Hb Hn. destruct name as [|b name]; [done|]. simpl in Hn. apply andb_true_iff in Hn as [Hst Hn].
  assert (Hid : forallb isIdentCont (b :: name) = true) by done. cbn [forallb] in Hid. apply andb_true_iff in Hid as [Hib _].
  assert (Hbare : forallb bare (b :: name) = true).
  { apply forallb_forall. intros x Hx. apply ident_bare. by apply (proj1 (forallb_forall _ (b :: name)) Hn). }
  pose proof (ident_bare b Hib) as Hbb. destruct (bare_facts b Hbb) as (_ & Hq & _ & _ & Hws & H35).
  pose proof (bare_not_special b Hbb) as Hs.
  destruct (before_next l _ k false Hb) as (l0 & _ & Hr0 & Hk0 & Ha0 & -> & _).
  { eexists b, _. by split. }
  assert (Hnd : is_digit b = false).
  { unfold isIdentStart in Hst. unfold is_digit. apply andb_false_iff. rewrite !Z.leb_gt.
    rewrite orb_true_iff, andb_true_iff, !Z.leb_le, Z.eqb_eq in Hst. lia. }
  assert (He : (b =? 61) = false ∧ (b =? 33) = false).
  { unfold isIdentStart in Hst. rewrite orb_true_iff, andb_true_iff, !Z.leb_le, Z.eqb_eq in Hst. split; apply Z.eqb_neq; lia. }
  exists (jump l0 (b :: name) (printArgs ws ++ r)), (col l0). split; [|by split_and!].
  unfold readHere. rewrite Hr0. cbn [app]. cbn match.
  rewrite (proj2 (Z.eqb_neq b 40)), (proj2 (Z.eqb_neq b 41)) by (intros ->; unfold special in Hs; tauto).
  rewrite Hq, (proj2 (Z.eqb_neq b 60)), (proj2 (Z.eqb_neq b 62)) by (intros ->; unfold special in Hs; tauto).
  destruct He as [-> ->]. cbn [andb]. rewrite Hnd, Hst. unfold readIdentOrWord. rewrite Hr0, Ha0.
  unfold printArgs. cbn [app].
  change (b :: name ++ 40 :: (printWords ws ++ [41; 10]) ++ r) with ((b :: name) ++ 40 :: (printWords ws ++ [41; 10]) ++ r).
  rewrite scanIdent_bare by (done || (right; by left)). cbn [forallb]. rewrite Hn, Hk0. done.
Qed.

(** ** Files *)

(** A macro call, or an IF with its clauses and perhaps an ELSE. *)
Inductive Src :=
| SCall (name : text) (ws : list Word)
| SIf (clauses : list (list Word * list Src)) (els : option (list Src)).

Definition printClauses (pb : list Src → text) : text → list (list Word * list Src) → text :=
  fix go (name : text) cs :=
    match cs with
    | [] => []
    | (ws, body) :: cs => name ++ printArgs ws ++ pb body ++ go (bs "ELSEIF") cs
    end.

Definition printEls (pb : list Src → text) (els : option (list Src)) : text :=
  match els with Some e => bs "ELSE" ++ printArgs [] ++ pb e | None => [] end ++ bs "ENDIF" ++ printArgs [].

Fixpoint printSrc (s : Src) : text :=
  match s with
  | SCall name ws => name ++ printArgs ws
  | SIf clauses els => printClauses (flat_map printSrc) (bs "IF") clauses ++ printEls (flat_map printSrc) els
  end.

Definition printFile (ss : list Src) : text := flat_map printSrc ss.

Definition reserved : list text := bs <$> ["IF"; "ELSE"; "ELSEIF"; "ENDIF"; "INCLUDE"; "INCLUDE_ONCE"]%string.

Fixpoint okSrc (s : Src) : bool :=
  match s with
  | SCall name ws => okName name && negb (bool_decide (name ∈ reserved)) && forallb okWord ws
  | SIf clauses els =>
      negb (Nat.eqb (length clauses) 0) &&
      forallb (λ c, forallb okWord c.1 && forallb okSrc c.2) clauses &&
      match els with Some e => forallb okSrc e | None => true end
  end.

Section build.
Context (internEnvSTR : text → Z).

(** The statements of a list, and the number of the line after it. *)
Definition buildAll (build : Src → Z → res (list Stmt * Z)) : list Src → Z → res (list Stmt * Z) :=
  fix go ss k :=
    match ss with
    | [] => Ok ([], k)
    | s :: ss => '(a, k) ← build s k; '(b, k) ← go ss k; Ok (a ++ b, k)
    end.

Definition buildClauses (build : list Src → Z → res (list Stmt * Z)) (els : option (list Src))
    : list (list Word * list Src) → Z → res (Stmt * Z) :=
  fix go cs k :=
    match cs with
    | [] => Throw
    | (ws, body) :: cs =>
        cond ← IfCond.compileIfCond internEnvSTR (texts ws);
        '(t, k1) ← build body (k + 1);
        match cs with
        | [] =>
            match els with
            | None => Ok (IfStmt cond t [] k, k1 + 1)
            | Some e => '(e, k2) ← build e (k1 + 1); Ok (IfStmt cond t e k, k2 + 1)
            end
        | _ :: _ => '(nested, k2) ← go cs k1; Ok (IfStmt cond t [nested] k, k2)
        end
    end.

Fixpoint buildSrc (s : Src) (k : Z) : res (list Stmt * Z) :=
  match s with
  | SCall name ws =>
      sts ← appendMacroCallStmts internEnvSTR name (texts ws) (if capturesLexicalArgs name then texts ws else []) k;
      Ok (markInternal (nameTok name k 0) sts, k + 1)
  | SIf clauses els => '(st, k) ← buildClauses (buildAll buildSrc) els clauses k; Ok ([st], k)
  end.

Definition buildFile (ss : list Src) : res (list Stmt) := '(sts, _) ← buildAll buildSrc ss 1; Ok sts.
End build.

Section parse.
Context (internEnvSTR : text → Z) (file : text).
Context {S : Type} (include : S → text → Z → S * res (list Stmt)) (once : S → S).
Abbreviation stmts_loop := (stmts_loop internEnvSTR file include once).
Abbreviation parseIf := (parseIf internEnvSTR file include once).
Abbreviation buildList := (buildAll (buildSrc internEnvSTR)).

(** The printed statements [ss] are read, up to what follows them. *)
Definition reads_list (ss : list Src) : Prop :=
  ∀ l tail k fuel ifBody mark scratch s sts k',
    forallb okSrc ss = true → before l (printFile ss ++ tail) k false → (length (rest l) < fuel)%nat →
    buildList ss k = Ok (sts, k') →
    ∃ l' fuel', stmts_loop fuel ifBody mark l scratch s = stmts_loop fuel' ifBody mark l' (scratch ++ sts) s ∧
      before l' tail k' false ∧ (length (rest l') < fuel')%nat.

Lemma before_length l t k args : before l t k args → (length t <= length (rest l) <= Datatypes.S (length t))%nat.
Proof. intros [_ [[-> _]|[[-> _]|[-> _]]]]; simpl; lia. Qed.

Lemma length_printArgs ws : (3 <= length (printArgs ws))%nat.
Proof. unfold printArgs. simpl. rewrite length_app. simpl. lia. Qed.

Lemma parseMacroArgs_read tok l ws r k : rest l = printArgs ws ++ r → line l = k → inArgs l = false → forallb okWord ws = true →
  ∃ l', parseMacroArgs tok l = Ok (l', texts ws) ∧ before l' r (k + 1) false ∧ (length (rest l') < length (rest l))%nat.
Proof.
  intros Hr Hk Ha Hok. destruct (parseMacroArgs_words tok false l ws r k Hr Hk Ha Hok) as (l' & Hp & Hb).
  exists l'. unfold parseMacroArgs. rewrite Hp. split; [done|]. split; [done|]. pose proof (before_length _ _ _ _ Hb).
  pose proof (length_printArgs ws). rewrite Hr, length_app. lia.
Qed.

(** A line that ends the body of an IF. *)
Lemma body_ends fuel mark l scratch s name ws r k :
  before l (name ++ printArgs ws ++ r) k false → name ∈ [bs "ELSE"; bs "ELSEIF"; bs "ENDIF"] → (length (rest l) < fuel)%nat →
  ∃ l' c, stmts_loop fuel true mark l scratch s = (s, Ok (drop mark scratch, nameTok name k c, l', take mark scratch)) ∧
    rest l' = printArgs ws ++ r ∧ line l' = k ∧ inArgs l' = false ∧ (length (rest l') < length (rest l))%nat.
Proof.
  intros Hb Hname Hf. destruct fuel as [|fuel]; [lia|].
  assert (Hok : okName name = true) by (set_unfold in Hname; by destruct_or? Hname; subst name; vm_compute).
  destruct (next_name l name ws r k Hb Hok) as (l' & c & Hn & Hr & Hk & Ha). exists l', c.
  cbn [Parser.stmts_loop]. rewrite Hn. cbn [orThrow]. rewrite decide_False by done.
  change (nameShaped (nameTok name k c)) with true. cbn [negb].
  assert (endsBody (nameTok name k c) = true) as ->.
  { set_unfold in Hname. by destruct_or? Hname; subst name; vm_compute. }
  cbn [andb]. split; [done|]. split_and!; [done..|]. pose proof (before_length _ _ _ _ Hb) as Hl. rewrite length_app in Hl.
  rewrite Hr. assert (length name ≠ 0)%nat by (set_unfold in Hname; by destruct_or? Hname; subst name). lia.
Qed.

(** A body and the line after it. *)
Lemma body_reads body fuel l scratch s name ws r k t k1 :
  reads_list body → forallb okSrc body = true → name ∈ [bs "ELSE"; bs "ELSEIF"; bs "ENDIF"] →
  before l (printFile body ++ name ++ printArgs ws ++ r) k false → (length (rest l) < fuel)%nat →
  buildList body k = Ok (t, k1) →
  ∃ l' c, stmts_loop fuel true (length scratch) l scratch s = (s, Ok (t, nameTok name k1 c, l', scratch)) ∧
    rest l' = printArgs ws ++ r ∧ line l' = k1 ∧ inArgs l' = false ∧ (length (rest l') < length (rest l))%nat.
Proof.
  intros Hreads Hok Hname Hb Hf Hbuild.
  destruct (Hreads l _ k fuel true (length scratch) scratch s t k1 Hok Hb Hf Hbuild) as (l1 & fuel1 & -> & Hb1 & Hf1).
  destruct (body_ends fuel1 (length scratch) l1 (scratch ++ t) s name ws r k1 Hb1 Hname Hf1) as (l2 & c & -> & Hr & Hk & Ha & Hlen).
  exists l2, c. rewrite drop_app_length, take_app_length. split; [done|]. split_and!; [done..|].
  pose proof (before_length _ _ _ _ Hb) as H1. rewrite Hr, length_app. rewrite !length_app in H1.
  assert (length name ≠ 0)%nat by (set_unfold in Hname; by destruct_or? Hname; subst name). lia.
Qed.

(** Folds the recursive call the parser makes next and replaces it by its answer. *)
Ltac run_body H :=
  match type of H with
  | ?x = _ => match goal with |- context [andThen ?y _] => change y with x; rewrite H end
  end.

Lemma if_reads cs ws body els l tail k fuel tok scratch s st k' :
  (∀ c, c ∈ (ws, body) :: cs → reads_list c.2 ∧ forallb okWord c.1 = true ∧ forallb okSrc c.2 = true) →
  (∀ e, els = Some e → reads_list e ∧ forallb okSrc e = true) →
  rest l = printArgs ws ++ printFile body ++ printClauses (flat_map printSrc) (bs "ELSEIF") cs ++
    printEls (flat_map printSrc) els ++ tail →
  line l = k → inArgs l = false → (length (rest l) < fuel)%nat → tline tok = k →
  buildClauses internEnvSTR buildList els ((ws, body) :: cs) k = Ok (st, k') →
  ∃ l', parseIf fuel tok l scratch s = (s, Ok (st, l', scratch)) ∧ before l' tail k' false ∧ (length (rest l') < length (rest l))%nat.
Proof.
  revert ws body l k fuel tok st k'. induction cs as [|[ws' body'] cs IH]; intros ws body l k fuel tok st k' Hc He Hr Hk Ha Hf Ht Hbuild;
    (destruct fuel as [|fuel]; [lia|]); destruct (Hc (ws, body)) as (Hreads & Hws & Hbody); [by left| |by left|]; simpl in Hreads, Hws, Hbody;
    cbn [buildClauses] in Hbuild; apply res_bind_Ok in Hbuild as (cond & Hcond & Hbuild);
    apply res_bind_Ok in Hbuild as ([t k1] & Hb1 & Hbuild);
    destruct (parseMacroArgs_read tok l ws _ k Hr Hk Ha Hws) as (l1 & Hp & Hbef & Hlen1);
    cbn [Parser.parseIf]; rewrite Hp; cbn [orThrow]; rewrite Hcond; cbn [orThrow]; rewrite Ht.
  - unfold printEls in Hbef. cbn [printClauses app] in Hbef. destruct els as [e|]; rewrite <-!app_assoc in Hbef.
    + apply res_bind_Ok in Hbuild as ([e' k2] & Hb2 & [= <- <-]). destruct (He e eq_refl) as [Hre Hoke].
      destruct (body_reads body fuel l1 scratch s (bs "ELSE") [] _ (k + 1) t k1 Hreads Hbody ltac:(set_solver) Hbef ltac:(lia) Hb1)
        as (l2 & c & Hloop & Hr2 & Hk2 & Ha2 & Hlen2); run_body Hloop.
      unfold andThen at 1. cbn [fst snd orThrow]. rewrite decide_False by done.
      change (kw (id (nameTok (bs "ELSE") k1 c)) "ENDIF") with false. change (kw (id (nameTok (bs "ELSE") k1 c)) "ELSE") with true.
      cbn match. destruct (parseMacroArgs_read (nameTok (bs "ELSE") k1 c) l2 [] _ k1 Hr2 Hk2 Ha2 eq_refl) as (l3 & -> & Hb3 & Hlen3).
      cbn [orThrow].
      destruct (body_reads e fuel l3 scratch s (bs "ENDIF") [] tail (k1 + 1) e' k2 Hre Hoke ltac:(set_solver) Hb3 ltac:(lia) Hb2)
        as (l4 & c4 & Hloop4 & Hr4 & Hk4 & Ha4 & Hlen4); run_body Hloop4.
      unfold andThen at 1. cbn [fst snd orThrow]. rewrite decide_False by done.
      change (kw (id (nameTok (bs "ENDIF") k2 c4)) "ENDIF") with true. cbn match.
      destruct (parseMacroArgs_read (nameTok (bs "ENDIF") k2 c4) l4 [] tail k2 Hr4 Hk4 Ha4 eq_refl) as (l5 & -> & Hb5 & Hlen5).
      exists l5. split; [done|]. split; [done|lia].
    + injection Hbuild as <- <-.
      destruct (body_reads body fuel l1 scratch s (bs "ENDIF") [] tail (k + 1) t k1 Hreads Hbody ltac:(set_solver) Hbef ltac:(lia) Hb1)
        as (l2 & c & Hloop & Hr2 & Hk2 & Ha2 & Hlen2); run_body Hloop.
      unfold andThen at 1. cbn [fst snd orThrow]. rewrite decide_False by done.
      change (kw (id (nameTok (bs "ENDIF") k1 c)) "ENDIF") with true. cbn match.
      destruct (parseMacroArgs_read (nameTok (bs "ENDIF") k1 c) l2 [] tail k1 Hr2 Hk2 Ha2 eq_refl) as (l3 & -> & Hb3 & Hlen3).
      exists l3. split; [done|]. split; [done|lia].
  - apply res_bind_Ok in Hbuild as ([nested k2] & Hb2 & [= <- <-]). cbn [printClauses] in Hbef. rewrite <-!app_assoc in Hbef.
    destruct (body_reads body fuel l1 scratch s (bs "ELSEIF") ws' _ (k + 1) t k1 Hreads Hbody ltac:(set_solver) Hbef ltac:(lia) Hb1)
      as (l2 & c & Hloop & Hr2 & Hk2 & Ha2 & Hlen2); run_body Hloop.
    unfold andThen at 1. cbn [fst snd orThrow]. rewrite decide_False by done.
    change (kw (id (nameTok (bs "ELSEIF") k1 c)) "ENDIF") with false. change (kw (id (nameTok (bs "ELSEIF") k1 c)) "ELSE") with false.
    cbn match.
    destruct (IH ws' body' l2 k1 fuel (nameTok (bs "ELSEIF") k1 c) nested k2) as (l3 & Hloop' & Hb3 & Hlen3); try done; [|lia|].
    { intros c' Hc'. apply Hc. by right. }
    run_body Hloop'.
    exists l3. split; [done|]. split; [done|lia].
Qed.

Lemma call_reads name ws l r k fuel ifBody mark scratch s sts k' :
  okSrc (SCall name ws) = true → before l (name ++ printArgs ws ++ r) k false → (length (rest l) < fuel)%nat →
  buildSrc internEnvSTR (SCall name ws) k = Ok (sts, k') →
  ∃ l' fuel', stmts_loop fuel ifBody mark l scratch s = stmts_loop fuel' ifBody mark l' (scratch ++ sts) s ∧
    before l' r k' false ∧ (length (rest l') < fuel')%nat.
Proof.
  cbn [okSrc]. intros Hok Hb Hf Hbuild. rewrite !andb_true_iff, negb_true_iff, bool_decide_eq_false in Hok. destruct Hok as [[Hn Hres] Hws].
  destruct fuel as [|fuel]; [lia|]. destruct (next_name l name ws r k Hb Hn) as (l1 & c & Hnext & Hr1 & Hk1 & Ha1).
  assert (Hkw : ∀ w, bs w ∈ reserved → kw name w = false).
  { intros w Hw. apply bool_decide_eq_false. intros ->. done. }
  cbn [Parser.stmts_loop]. rewrite Hnext. cbn [orThrow]. rewrite decide_False by done.
  change (nameShaped (nameTok name k c)) with true. cbn [negb].
  assert (endsBody (nameTok name k c) = false) as ->.
  { unfold endsBody, oneOf. simpl. rewrite !Hkw by (vm_compute; repeat constructor). done. }
  rewrite andb_false_r. change (id (nameTok name k c)) with name. rewrite (Hkw "IF"%string) by (vm_compute; repeat constructor).
  cbn [buildSrc] in Hbuild. apply res_bind_Ok in Hbuild as (sts0 & Happ & [= <- <-]).
  unfold macroCall. change (id (nameTok name k c)) with name.
  rewrite (Hkw "INCLUDE"%string), (Hkw "INCLUDE_ONCE"%string) by (vm_compute; repeat constructor).
  destruct (parseMacroArgs_words (nameTok name k c) (capturesLexicalArgs name) l1 ws r k Hr1 Hk1 Ha1 Hws) as (l2 & -> & Hb2).
  cbn [mbind res_bind tline nameTok newToken]. rewrite Happ. cbn [mbind res_bind orThrow perform]. unfold andThen at 1. cbn [fst snd orThrow].
  exists l2, fuel. split; [done|]. split; [done|].
  pose proof (before_length _ _ _ _ Hb) as H1. pose proof (before_length _ _ _ _ Hb2). pose proof (length_printArgs ws).
  rewrite !length_app in H1. lia.
Qed.

Lemma clause_shorter pb nm cs c : c ∈ cs → (length (pb c.2) + 3 <= length (printClauses pb nm cs))%nat.
Proof.
  revert nm. induction cs as [|[ws body] cs IH]; intros nm Hin; [by apply not_elem_of_nil in Hin|].
  cbn [printClauses]. rewrite !length_app. pose proof (length_printArgs ws).
  apply elem_of_cons in Hin as [->|Hin]; [cbn [snd]; lia|]. specialize (IH (bs "ELSEIF") Hin). lia.
Qed.

Lemma all_read n ss : (length (printFile ss) < n)%nat → reads_list ss.
Proof.
  revert ss. induction n as [|n IH]; intros ss Hn; [lia|]. destruct ss as [|s0 ss].
  { intros l tail k fuel ifBody mark scratch s sts k' _ Hb Hf [= <- <-]. exists l, fuel. by rewrite app_nil_r. }
  change (printFile (s0 :: ss)) with (printSrc s0 ++ printFile ss) in Hn. rewrite length_app in Hn.
  intros l tail k fuel ifBody mark scratch s sts k' Hok Hb Hf Hbuild. cbn [forallb] in Hok. apply andb_true_iff in Hok as [Hok0 Hok].
  cbn [buildAll] in Hbuild. apply res_bind_Ok in Hbuild as ([a k1] & Hb0 & Hbuild).
  apply res_bind_Ok in Hbuild as ([b k2] & Hb1 & [= <- <-]). fold buildList in Hb1.
  change (printFile (s0 :: ss)) with (printSrc s0 ++ printFile ss) in Hb. rewrite <-app_assoc in Hb.
  assert (Hhead : ∃ l' fuel', stmts_loop fuel ifBody mark l scratch s = stmts_loop fuel' ifBody mark l' (scratch ++ a) s ∧
    before l' (printFile ss ++ tail) k1 false ∧ (length (rest l') < fuel')%nat).
  { destruct s0 as [name ws|clauses els].
    - cbn [printSrc] in Hb. rewrite <-app_assoc in Hb. by eapply call_reads.
    - cbn [okSrc] in Hok0. rewrite !andb_true_iff in Hok0. destruct Hok0 as [[Hne Hcl] Hels].
      destruct clauses as [|[ws body] cs]; [done|]. cbn [printSrc printClauses] in Hb, Hn. rewrite <-!app_assoc in Hb.
      destruct fuel as [|fuel]; [lia|].
      destruct (next_name l (bs "IF") ws _ k Hb eq_refl) as (l1 & c & Hnext & Hr1 & Hk1 & Ha1).
      cbn [buildSrc] in Hb0. apply res_bind_Ok in Hb0 as ([st k0] & Hcs & [= <- <-]).
      rewrite forallb_forall in Hcl. rewrite !length_app in Hn. pose proof (length_printArgs ws).
      destruct (if_reads cs ws body els l1 (printFile ss ++ tail) k fuel (nameTok (bs "IF") k c) scratch s st k0)
        as (l2 & Hif & Hb2 & Hlen2); try done.
      + intros c' Hc'. specialize (Hcl c' (proj1 (list_elem_of_In _ _) Hc')). apply andb_true_iff in Hcl as [? ?].
        split; [|done]. apply IH. apply elem_of_cons in Hc' as [->|Hc']; [unfold printFile; simpl; lia|].
        pose proof (clause_shorter (flat_map printSrc) (bs "ELSEIF") cs c' Hc'). unfold printFile. lia.
      + intros e ->. split; [|done]. apply IH. unfold printEls in Hn. rewrite !length_app in Hn. unfold printFile. lia.
      + pose proof (before_length _ _ _ _ Hb) as H1. rewrite Hr1. rewrite !length_app in *. simpl in *. lia.
      + exists l2, fuel. cbn [Parser.stmts_loop]. rewrite Hnext. cbn [orThrow]. rewrite decide_False by done.
        change (nameShaped (nameTok (bs "IF") k c)) with true. change (endsBody (nameTok (bs "IF") k c)) with false.
        cbn [negb]. rewrite andb_false_r. change (kw (id (nameTok (bs "IF") k c)) "IF") with true. cbn match.
        run_body Hif. split; [done|]. split; [done|].
        pose proof (before_length _ _ _ _ Hb) as H1. rewrite Hr1 in Hlen2. rewrite !length_app in *. simpl in *. lia. }
  destruct Hhead as (l1 & fuel1 & -> & Hbef & Hf1).
  assert (length (printSrc s0) ≠ 0)%nat.
  { destruct s0 as [name ws|[|[ws body] cs] els]; cbn [printSrc printClauses]; rewrite ?length_app; try (pose proof (length_printArgs ws)).
    - lia.
    - done.
    - lia. }
  destruct (IH ss ltac:(lia) l1 tail k1 fuel1 ifBody mark (scratch ++ a) s b k2 Hok Hbef Hf1 Hb1) as (l' & fuel' & -> & Hb' & Hf').
  exists l', fuel'. by rewrite app_assoc.
Qed.

Lemma next_eof l k args : before l [] k args → ∃ l' tok, next l = Ok (l', tok) ∧ kind tok = tokEOF.
Proof.
  intros [_ [[Hr _]|[[Hr _]|[Hr _]]]]; unfold next, readToken; rewrite Hr.
  - cbn [skipTrivia length]. rewrite Hr. cbn [mbind res_bind]. unfold readHere. rewrite Hr. by eexists _, _.
  - rewrite (skip_space _ l []) by done. by eexists _, _.
  - rewrite (skip_newline _ l []) by done. by eexists _, _.
Qed.

Lemma trimBOM_print ss : forallb okSrc ss = true → trimBOM (printFile ss) = printFile ss.
Proof.
  intros Hok. unfold trimBOM. rewrite decide_False; [done|]. intros [r Hr].
  destruct ss as [|s ss]; [done|]. cbn [forallb] in Hok. apply andb_true_iff in Hok as [Hok _].
  change (printFile (s :: ss)) with (printSrc s ++ printFile ss) in Hr. destruct s as [name ws|[|[ws body] cs] els].
  - cbn [okSrc] in Hok. rewrite !andb_true_iff in Hok. destruct Hok as [[Hn _] _]. destruct name as [|b name]; [done|].
    cbn in Hr. simplify_eq.
  - done.
  - done.
Qed.
End parse.

(** C9: printing and parsing.  The text of a build file written from macro calls
    and IF blocks (any nesting, ELSEIF and ELSE, words bare or quoted, any number of
    words) is parsed to exactly the statements of those calls, with their line
    numbers, whatever INCLUDE would do and without touching the shared state. *)
Theorem print_parse internEnvSTR file {S} include once ss (s : S) sts :
  forallb okSrc ss = true → buildFile internEnvSTR ss = Ok sts →
  parseSource internEnvSTR file include once (printFile ss) s = (s, Ok sts).
Proof.
  intros Hok Hbuild. unfold buildFile in Hbuild. apply res_bind_Ok in Hbuild as ([sts' k'] & Hb & [= ->]).
  unfold parseSource, parseStmts. rewrite trimBOM_print by done. set (src := printFile ss). simpl length.
  destruct (all_read internEnvSTR file include once (Datatypes.S (length (printFile ss))) ss ltac:(lia)
    (newLexer src) [] 1 (Datatypes.S (length src)) false 0%nat [] s sts k' Hok) as (l' & fuel' & -> & Hb' & Hf'); [|simpl; lia|done|].
  - split; [done|]. left. rewrite app_nil_r. done.
  - destruct fuel' as [|fuel']; [lia|]. destruct (next_eof l' k' false Hb') as (l2 & tok & Hn & Hk).
    cbn [stmts_loop]. rewrite Hn. cbn [orThrow]. rewrite decide_True by done. done.
Qed.

Definition sampleSrc : list Src :=
  [SCall (bs "LIBRARY") [Bare (bs "foo")];
   SIf [([Bare (bs "OS"); Bare (bs "=="); Quoted (bs "my os")], [SCall (bs "SRCS") [Bare (bs "a.cpp"); Bare (bs "b.cpp")]]);
        ([Bare (bs "X")], [SCall (bs "_HIDDEN") []])]
     (Some [SIf [([Bare (bs "NOT"); Bare (bs "Y")], [])] None]);
   SCall (bs "SET") [Bare (bs "A"); Quoted (bs "b  c")]; SCall (bs "END") []].

Lemma print_parse_witness :
  ∃ c1 c2 c3, parseSource (λ _, 7) (bs "ya.make") (λ s _ _, (s, Throw)) (λ s, s) (printFile sampleSrc) tt =
    (tt, Ok [ModuleStmt (bs "LIBRARY") false [bs "foo"] 1;
      IfStmt c1 [SrcsStmt [bs "a.cpp"; bs "b.cpp"] 3]
        [IfStmt c2 [UnknownStmt (bs "_HIDDEN") [] [] true 5] [IfStmt c3 [] [] 7] 4] 2;
      SetStmt (bs "A") 7 (bs "b  c") true (bs "b  c") 10; EndStmt 11]).
Proof.
  eexists _, _, _. apply print_parse; vm_compute; reflexivity.
Defined.
