(* ===== verification/Bump.v ===== *)
(** * Bump allocators (bump_allocator.go)

    Chunks of elements handed out from the front; nothing is freed.  A chunk is an
    array that keeps its length; [off] is how much of the last one is used, so
    the Go slice [chunk] is the rest of it.  [IndexedBumpAllocator] also remembers
    its chunks, so that a block can be named by a [BumpSpan]. *)

From S2P Require Import Prelude.
Local Open Scope Z_scope.

Definition bumpChunkInitial : Z := 128.
Definition bumpChunkBytes : Z := 2 ^ 18.

Record BumpSpan := mkSpan { span_chunk : Z; span_start : Z; span_length : Z }.

#[export] Instance BumpSpan_eq_dec : EqDecision BumpSpan.
Proof. solve_decision. Defined.

Record Bump (T : Type) := mkBump { chunks : list (list T); off : nat; next : Z }.
Arguments mkBump {T}. Arguments chunks {T}. Arguments off {T}. Arguments next {T}.

Section bump.
Context {T : Type} (zero : T) (sizeof : Z).
Implicit Types (a : Bump T) (vs : list T) (sp : BumpSpan).

Definition newBumpAllocator : Bump T := mkBump [] 0 bumpChunkInitial.

(** [len(a.chunk)]. *)
Definition room a : nat := match last (chunks a) with Some c => length c - off a | None => 0 end.

(** The size of a fresh chunk for a block of [n]. *)
Definition chunkSize (next n : Z) : Z :=
  let limit := bumpChunkBytes / sizeof in
  let size := if limit <? next then limit else next in
  if size <? n then n else size.

Definition alloc a (n : nat) : Bump T :=
  if decide (room a < n)%nat then
    let size := chunkSize (next a) (Z.of_nat n) in
    mkBump (chunks a ++ [replicate (Z.to_nat size) zero]) 0 (size * 2)
  else a.

(** The stores into the block at the front of the current chunk. *)
Definition overwrite (c : list T) (k : nat) vs : list T := take k c ++ vs ++ drop (k + length vs) c.

Definition write a vs : option (Bump T) :=
  if decide (length vs <= room a)%nat then
    Some (match last (chunks a) with
          | Some c => mkBump (removelast (chunks a) ++ [overwrite c (off a) vs]) (off a) (next a)
          | None => a
          end)
  else None.

Definition commit a (k : nat) : option (Bump T) :=
  if decide (k <= room a)%nat then Some (mkBump (chunks a) (off a + k) (next a)) else None.

Definition commitSpan a (n : nat) : option (Bump T * BumpSpan) :=
  match chunks a with
  | [] => None
  | _ :: _ =>
      a' ← commit a n;
      Some (a', mkSpan (u32 (Z.of_nat (length (chunks a)) - 1)) (u32 (Z.of_nat (off a))) (u32 (Z.of_nat n)))
  end.

Definition slice a sp : option (list T) :=
  c ← chunks a !! Z.to_nat (span_chunk sp);
  let stop := u32 (span_start sp + span_length sp) in
  if decide (span_start sp <= stop <= Z.of_nat (length c)) then
    Some (take (Z.to_nat (stop - span_start sp)) (drop (Z.to_nat (span_start sp)) c))
  else None.

(** A block stored: allocate, fill, commit ([list], [storeBucket]). *)
Definition store a vs : option (Bump T * BumpSpan) :=
  a ← write (alloc a (length vs)) vs; commitSpan a (length vs).

Fixpoint storeAll a (vss : list (list T)) : option (Bump T * list BumpSpan) :=
  match vss with
  | [] => Some (a, [])
  | vs :: vss => '(a, sp) ← store a vs; '(a, sps) ← storeAll a vss; Some (a, sp :: sps)
  end.

(** ** Blocks stay as they were stored *)

Record bump_wf a : Prop := {
  bw_off : match last (chunks a) with Some c => (off a <= length c)%nat | None => off a = 0%nat end;
  bw_next : 0 < next a;
  bw_small : Forall (λ c, Z.of_nat (length c) < 2 ^ 32) (chunks a) }.

(** [sp] lies in the part of the chunks that has been handed out. *)
Definition committed a sp : Prop :=
  0 <= span_chunk sp ∧ 0 <= span_start sp ∧ 0 <= span_length sp ∧
  ∃ c, chunks a !! Z.to_nat (span_chunk sp) = Some c ∧
    span_start sp + span_length sp <= Z.of_nat (length c) ∧
    (Z.to_nat (span_chunk sp) = (length (chunks a) - 1)%nat →
     span_start sp + span_length sp <= Z.of_nat (off a)).

Definition apart sp sp' : Prop :=
  span_chunk sp = span_chunk sp' →
  span_start sp + span_length sp <= span_start sp' ∨ span_start sp' + span_length sp' <= span_start sp.

Context (Hsizeof : 0 < sizeof).

Lemma chunkSize_bounds m n :
  0 < m → 0 <= n < 2 ^ 32 → n <= chunkSize m n < 2 ^ 32 ∧ (0 < n → 0 < chunkSize m n).
Proof.
  intros Hm Hn. unfold chunkSize.
  assert (0 <= bumpChunkBytes / sizeof <= bumpChunkBytes).
  { split; [apply Z.div_pos; unfold bumpChunkBytes; lia|]. apply Z.div_le_upper_bound; unfold bumpChunkBytes; nia. }
  unfold bumpChunkBytes in *. destruct (_ <? m) eqn:?, (_ <? n) eqn:?; lia.
Qed.

Lemma alloc_ok a n :
  bump_wf a → (0 < n)%nat → Z.of_nat n < 2 ^ 32 →
  bump_wf (alloc a n) ∧ (n <= room (alloc a n))%nat ∧
  (length (chunks (alloc a n)) <= S (length (chunks a)))%nat ∧
  ∃ new, chunks (alloc a n) = chunks a ++ new ∧ (new = [] → off (alloc a n) = off a) ∧
    (new ≠ [] → off (alloc a n) = 0%nat).
Proof.
  intros Hw Hn Hs. unfold alloc. case_decide as Hr.
  - destruct (chunkSize_bounds (next a) (Z.of_nat n)) as [Hb Hp]; [apply Hw|lia|]. simpl. split_and!.
    + split; simpl; [rewrite last_snoc; lia|lia|]. apply Forall_app. split; [apply Hw|].
      constructor; [|done]. rewrite length_replicate. lia.
    + unfold room. simpl. rewrite last_snoc, length_replicate. lia.
    + rewrite length_app. simpl. lia.
    + eexists. split_and!; [done|done|]. by intros.
  - split_and!; [done|lia|lia|]. exists []. by rewrite app_nil_r.
Qed.

(** The block at the front of the current chunk holds [vs]. *)
Definition front a vs : Prop :=
  ∃ cs c, chunks a = cs ++ [c] ∧ (off a + length vs <= length c)%nat ∧
    take (length vs) (drop (off a) c) = vs.

Lemma committed_last a cs c sp :
  chunks a = cs ++ [c] → committed a sp →
  (Z.to_nat (span_chunk sp) < length cs)%nat ∨
  Z.to_nat (span_chunk sp) = length cs ∧ span_start sp + span_length sp <= Z.of_nat (off a).
Proof.
  intros Hcs (Hc0 & Hs0 & Hl0 & d & Hd & Hfit & Hlast). rewrite Hcs in Hd, Hlast.
  rewrite length_app in Hlast. simpl in Hlast.
  apply lookup_app_Some in Hd as [?%lookup_lt_Some|[? Hd]]; [by left|right].
  apply list_lookup_singleton_Some in Hd as [? <-]. split; [lia|]. apply Hlast. lia.
Qed.

Lemma write_ok a vs :
  bump_wf a → vs ≠ [] → (length vs <= room a)%nat →
  ∃ a', write a vs = Some a' ∧ bump_wf a' ∧ front a' vs ∧ length (chunks a') = length (chunks a) ∧
    ∀ sp, committed a sp → committed a' sp ∧ slice a' sp = slice a sp.
Proof.
  intros Hw Hne Hr. unfold write. rewrite decide_True by done.
  unfold room in Hr. pose proof (bw_off _ Hw) as Hoff.
  destruct (last (chunks a)) as [c|] eqn:Hl; [|destruct vs; [done|simpl in Hr; lia]].
  apply last_Some in Hl as [cs Hcs]. rewrite Hcs. rewrite removelast_last.
  pose proof (bw_small _ Hw) as Hs. rewrite Hcs in Hs. apply Forall_app in Hs as [Hs Hc]. apply Forall_cons in Hc as [Hc _].
  assert (Hov : length (overwrite c (off a) vs) = length c).
  { unfold overwrite. rewrite !length_app, length_take, length_drop. lia. }
  eexists. split; [done|]. set (c' := overwrite c (off a) vs) in *. split_and!.
  - split; simpl; [rewrite last_snoc; lia|apply Hw|]. apply Forall_app. split; [done|]. constructor; [lia|done].
  - exists cs, c'. simpl. split_and!; [done|lia|]. unfold c', overwrite.
    rewrite drop_app_length' by (rewrite length_take; lia). by rewrite take_app_length.
  - simpl. by rewrite !length_app.
  - intros sp Hsp. pose proof (committed_last _ _ _ _ Hcs Hsp) as Hcase.
    destruct Hsp as (Hc0 & Hs0 & Hl0 & d & Hd & Hfit & Hlast). rewrite Hcs in Hd.
    destruct Hcase as [Hlt|[Heq Hin]].
    + rewrite lookup_app_l in Hd by done. split.
      * split_and!; [done..|]. simpl. exists d. rewrite lookup_app_l by done. split_and!; [done..|].
        rewrite length_app. simpl. lia.
      * unfold slice. simpl. rewrite Hcs. by rewrite !lookup_app_l by done.
    + split.
      * split_and!; [done..|]. simpl. exists c'. rewrite Heq, list_lookup_middle by done. split_and!; [done|lia|lia].
      * unfold slice. simpl. rewrite Hcs, Heq, !list_lookup_middle by done. cbn [mbind option_bind].
        unfold u32. rewrite !Z.mod_small by lia. rewrite Hov. case_decide; [|done]. f_equal.
        unfold c', overwrite. rewrite drop_app_le by (rewrite length_take; lia).
        rewrite take_app_le by (rewrite length_drop, length_take; lia).
        rewrite skipn_firstn_comm, take_take. f_equal. lia.
Qed.

Lemma commitSpan_ok a vs :
  bump_wf a → vs ≠ [] → front a vs → Z.of_nat (length (chunks a)) < 2 ^ 32 →
  ∃ a' sp, commitSpan a (length vs) = Some (a', sp) ∧ bump_wf a' ∧ chunks a' = chunks a ∧
    slice a' sp = Some vs ∧ committed a' sp ∧
    ∀ sp', committed a sp' → committed a' sp' ∧ slice a' sp' = slice a sp' ∧ apart sp' sp.
Proof.
  intros Hw Hne (cs & c & Hcs & Hle & Hvs) Hlen. unfold commitSpan.
  destruct (chunks a) eqn:E; [by destruct cs|]. rewrite <-E in *. clear E.
  rewrite Hcs, length_app in Hlen. simpl in Hlen.
  pose proof (bw_small _ Hw) as Hs. rewrite Hcs in Hs. apply Forall_app in Hs as [_ Hc]. apply Forall_cons in Hc as [Hc _].
  unfold commit, room. rewrite Hcs, last_snoc, decide_True by lia. cbn [mbind option_bind].
  eexists _, _. split; [done|]. rewrite length_app. simpl length.
  unfold u32. rewrite !Z.mod_small by lia. split_and!.
  - split; simpl; [rewrite last_snoc; lia|apply Hw|]. rewrite <-Hcs. apply Hw.
  - done.
  - unfold slice. simpl. replace (Z.to_nat (Z.of_nat (length cs + 1) - 1)) with (length cs) by lia.
    rewrite list_lookup_middle by done. cbn [mbind option_bind]. unfold u32. rewrite Z.mod_small, decide_True by lia.
    f_equal. replace (Z.to_nat (Z.of_nat (off a) + Z.of_nat (length vs) - Z.of_nat (off a))) with (length vs) by lia.
    by rewrite Nat2Z.id.
  - split_and!; simpl; [lia..|]. exists c. replace (Z.to_nat (Z.of_nat (length cs + 1) - 1)) with (length cs) by lia.
    rewrite list_lookup_middle by done. split_and!; [done|lia|lia].
  - intros sp' Hsp'. pose proof (committed_last _ _ _ _ Hcs Hsp') as Hcase.
    destruct Hsp' as (Hc0 & Hs0 & Hl0 & d & Hd & Hfit & Hlast). rewrite Hcs in Hd, Hlast. split_and!.
    + split_and!; [done..|]. simpl. exists d. split_and!; [done..|]. intros Hi. specialize (Hlast Hi). lia.
    + unfold slice. simpl. by rewrite Hcs.
    + intros Hsame. simpl in *. left. destruct Hcase as [?|[_ ?]]; lia.
Qed.

Lemma store_ok a vs :
  bump_wf a → vs ≠ [] → Z.of_nat (length vs) < 2 ^ 32 → Z.of_nat (length (chunks a)) < 2 ^ 32 - 1 →
  ∃ a' sp, store a vs = Some (a', sp) ∧ bump_wf a' ∧ slice a' sp = Some vs ∧ committed a' sp ∧
    (length (chunks a') <= S (length (chunks a)))%nat ∧
    ∀ sp', committed a sp' → committed a' sp' ∧ slice a' sp' = slice a sp' ∧ apart sp' sp.
Proof.
  intros Hw Hne Hlv Hlen. unfold store.
  assert (0 < length vs)%nat by (destruct vs; [done|simpl; lia]).
  destruct (alloc_ok a (length vs)) as (Hw1 & Hr & Hlen1 & new & Hnew & Hoff0 & Hoff1); [done|lia|done|].
  destruct (write_ok (alloc a (length vs)) vs) as (a1 & -> & Hw2 & Hfr & Hl2 & Hold1); [done..|]. cbn [mbind option_bind].
  destruct (commitSpan_ok a1 vs) as (a' & sp & -> & Hw' & Hl' & Hsl & Hco & Hold); [done..|lia|].
  exists a', sp. split_and!; [done..|rewrite Hl'; lia|].
  intros sp' (H1 & H2 & H3 & c & Hc & Hfit & Hlast).
  assert (Hco' : committed (alloc a (length vs)) sp').
  { split_and!; [done..|]. exists c. rewrite Hnew. split_and!; [by apply lookup_app_l_Some|done|].
    intros Hidx. apply lookup_lt_Some in Hc. destruct new as [|n0 new].
    - rewrite app_nil_r in Hidx. rewrite (Hoff0 eq_refl). by apply Hlast.
    - rewrite length_app in Hidx. simpl in Hidx. lia. }
  destruct (Hold1 sp' Hco') as [Hc1 Hs1]. destruct (Hold sp' Hc1) as (? & Hs & ?). split_and!; [done| |done].
  rewrite Hs, Hs1. unfold slice. rewrite Hnew. by rewrite (lookup_app_l_Some _ _ _ _ Hc), Hc.
Qed.

Lemma storeAll_ok a vss :
  bump_wf a → Forall (λ vs, vs ≠ [] ∧ Z.of_nat (length vs) < 2 ^ 32) vss →
  Z.of_nat (length (chunks a)) + Z.of_nat (length vss) < 2 ^ 32 →
  ∃ a' sps, storeAll a vss = Some (a', sps) ∧ Forall2 (λ sp vs, slice a' sp = Some vs) sps vss ∧
    (∀ i j sp sp', i ≠ j → sps !! i = Some sp → sps !! j = Some sp' → apart sp sp') ∧
    ∀ sp', committed a sp' → slice a' sp' = slice a sp' ∧ Forall (apart sp') sps.
Proof.
  revert a. induction vss as [|vs vss IH]; intros a Hw Hvss Hlen.
  { exists a, []. split_and!; [done|constructor|done|]. intros sp' _. split; [done|constructor]. }
  apply Forall_cons in Hvss as [[Hne Hlv] Hvss]. simpl in Hlen.
  destruct (store_ok a vs) as (a1 & sp & Hst & Hw1 & Hsl & Hco & Hl1 & Hold); [done..|lia|].
  destruct (IH a1) as (a2 & sps & Hst2 & Hsl2 & Hap & Hold2); [done..|lia|].
  exists a2, (sp :: sps). cbn [storeAll]. rewrite Hst. cbn [mbind option_bind]. rewrite Hst2.
  destruct (Hold2 sp Hco) as [Hsp Hapart]. split_and!; [done| | |].
  - constructor; [congruence|done].
  - intros i j sp1 sp2 Hij Hi Hj. rewrite Forall_forall in Hapart.
    destruct i as [|i], j as [|j]; simpl in *; [done| | |by eapply (Hap i j); [congruence|..]]; simplify_eq.
    + by eapply Hapart, list_elem_of_lookup_2.
    + assert (apart sp2 sp1) as Ha by by eapply Hapart, list_elem_of_lookup_2.
      intros He. destruct (Ha (eq_sym He)); [right|left]; lia.
  - intros sp' Hsp'. destruct (Hold sp' Hsp') as (Hc1 & Hs1 & Ha1). destruct (Hold2 sp' Hc1) as [Hs2 Ha2].
    split; [congruence|by constructor].
Qed.
End bump.

(** C38: blocks stored one after the other in a fresh bump allocator read back, at
    the end and through their spans, as they were stored, and no two of them
    overlap, whatever chunks had to be allocated on the way. *)
Theorem bump_blocks_stay {T} (zero : T) (sizeof : Z) (vss : list (list T)) :
  0 < sizeof → Forall (λ vs, vs ≠ [] ∧ Z.of_nat (length vs) < 2 ^ 32) vss →
  Z.of_nat (length vss) < 2 ^ 32 →
  ∃ a sps, storeAll zero sizeof newBumpAllocator vss = Some (a, sps) ∧
    Forall2 (λ sp vs, slice a sp = Some vs) sps vss ∧
    ∀ i j sp sp', i ≠ j → sps !! i = Some sp → sps !! j = Some sp' → apart sp sp'.
Proof.
  intros Hs Hvss Hlen.
  destruct (storeAll_ok zero sizeof Hs newBumpAllocator vss) as (a & sps & ? & ? & ? & _); [|done|simpl; lia|].
  - split; simpl; [done|unfold bumpChunkInitial; lia|constructor].
  - by exists a, sps.
Qed.

(** Chunks of 128, then of 300 because 256 would not do. *)
Lemma bump_blocks_stay_witness :
  (snd <$> storeAll 0 4 newBumpAllocator [replicate 100 7; replicate 300 8; [9]]) =
    Some [mkSpan 0 0 100; mkSpan 1 0 300; mkSpan 2 0 1] ∧
  ∃ a sps, storeAll 0 4 newBumpAllocator [replicate 100 7; replicate 300 8; [9]] = Some (a, sps) ∧
    Forall2 (λ sp vs, slice a sp = Some vs) sps [replicate 100 7; replicate 300 8; [9]].
Proof.
  split; [vm_compute; reflexivity|].
  destruct (bump_blocks_stay 0 4 [replicate 100 7; replicate 300 8; [9]]) as (a & sps & H1 & H2 & _).
  - lia.
  - repeat constructor; try discriminate; vm_compute; reflexivity.
  - vm_compute. reflexivity.
  - exists a, sps. split; assumption.
Defined.
