(* ===== verification/HashCons.v ===== *)
(** * Hash-consed slices and buckets (slice_cache.go, bucket_cache.go)

    Lists are stored once, in a bump allocator, and found again through a pair of
    64-bit hashes: a first table is keyed by the first hash and verifies the second,
    an overflow table the other way round.  The scheme is modelled once, over the
    tables and the hash, and used for [BucketCache.internBucket] and
    [SliceCache.intern]. *)

From S2P Require Import Prelude Words IdSets Bump.
Local Open Scope Z_scope.

(** ** Tables from hashes to cells *)

(** [cell_ok n c]: the table is consistent and has at most [n] entries. *)
Class CellMap (C V : Type) := {
  cnew : C;
  cget : C → Z → option V;
  cput : C → Z → V → C }.
Class CellMapLaws (C V : Type) `{!CellMap C V} := {
  cell_ok : nat → C → Prop;
  cell_ok_new : cell_ok 0 cnew;
  cell_ok_le : ∀ n m c, (n <= m)%nat → cell_ok n c → cell_ok m c;
  cell_ok_put : ∀ n c k v, cell_ok n c → Z.of_nat n < 2 ^ 32 → cell_ok (S n) (cput c k v);
  cget_new : ∀ k, cget cnew k = None;
  cget_put : ∀ n c k v k', cell_ok n c → Z.of_nat n < 2 ^ 32 →
    cget (cput c k v) k' = if decide (k = k') then Some v else cget c k' }.

(** [IntMap]: a finite map (IntMap.v). *)
#[export] Instance gmap_cells V : CellMap (gmap Z V) V := {
  cnew := ∅; cget c k := c !! k; cput c k v := <[k := v]> c }.
#[export] Instance gmap_cells_laws V : CellMapLaws (gmap Z V) V.
Proof.
  refine {| cell_ok _ _ := True |}; try done.
  intros n c k v k' _ _. simpl. destruct (decide (k = k')) as [<-|]; [apply lookup_insert_eq|by apply lookup_insert_ne].
Qed.

(** [bucketCells]: an [IntMap] of positions in a vector of cells. *)
Module bucketCells.
Record bucketCells (V : Type) := mkCells { idx : gmap Z Z; vals : list V }.
Arguments mkCells {V}. Arguments idx {V}. Arguments vals {V}.

Definition get {V} (m : bucketCells V) (k : Z) : option V := i ← idx m !! k; zget (vals m) i.

(** [cell] followed by the store through the pointer it returns. *)
Definition put {V} (m : bucketCells V) (k : Z) (v : V) : bucketCells V :=
  match idx m !! k with
  | Some i => mkCells (idx m) (<[Z.to_nat i := v]> (vals m))
  | None => mkCells (<[k := u32 (Z.of_nat (length (vals m)))]> (idx m)) (vals m ++ [v])
  end.

Record cells_wf {V} (n : nat) (m : bucketCells V) : Prop := {
  cw_in : ∀ k i, idx m !! k = Some i → 0 <= i < Z.of_nat (length (vals m));
  cw_inj : ∀ k k' i, idx m !! k = Some i → idx m !! k' = Some i → k = k';
  cw_len : (length (vals m) <= n)%nat }.
End bucketCells.

#[export] Instance bucket_cells V : CellMap (bucketCells.bucketCells V) V := {
  cnew := bucketCells.mkCells ∅ []; cget := bucketCells.get; cput := bucketCells.put }.

Lemma bucketCells_put {V} n (m : bucketCells.bucketCells V) k v :
  bucketCells.cells_wf n m → Z.of_nat n < 2 ^ 32 →
  bucketCells.cells_wf (S n) (bucketCells.put m k v) ∧
  ∀ k', bucketCells.get (bucketCells.put m k v) k' = if decide (k = k') then Some v else bucketCells.get m k'.
Proof.
  intros [Hin Hinj Hlen] Hn. unfold bucketCells.put, bucketCells.get.
  destruct (bucketCells.idx m !! k) as [i|] eqn:Hk; simpl.
  - split.
    + split; simpl; [intros k' i'; rewrite length_insert; apply Hin|done|rewrite length_insert; lia].
    + intros k'. destruct (decide (k = k')) as [<-|Hne].
      * rewrite Hk. simpl. apply zget_insert_eq. eauto.
      * destruct (bucketCells.idx m !! k') as [i'|] eqn:Hk'; [|done]. simpl.
        apply zget_insert_ne; [apply Hin in Hk; lia|]. intros <-. eauto.
  - assert (Hu : u32 (Z.of_nat (length (bucketCells.vals m))) = Z.of_nat (length (bucketCells.vals m)))
      by (apply Z.mod_small; lia). rewrite Hu. split.
    + split; simpl; [intros k' i'|intros k1 k2 i'|rewrite length_app; simpl; lia].
      * rewrite length_app. simpl. rewrite lookup_insert_Some. intros [[_ <-]|[_ ?%Hin]]; lia.
      * rewrite !lookup_insert_Some. intros [[<- <-]|[? H1]] [[<- E]|[? H2]]; [done|..|by eapply Hinj].
        -- apply Hin in H2. lia.
        -- apply Hin in H1. lia.
    + intros k'. destruct (decide (k = k')) as [<-|Hne].
      * rewrite lookup_insert_eq. simpl. rewrite zget_app_r by lia. by rewrite Z.sub_diag.
      * rewrite lookup_insert_ne by done. destruct (bucketCells.idx m !! k') as [i'|] eqn:Hk'; [|done]. simpl.
        apply zget_app_l. eauto.
Qed.

#[export] Instance bucket_cells_laws V : CellMapLaws (bucketCells.bucketCells V) V.
Proof.
  refine {| cell_ok := bucketCells.cells_wf |}.
  - by split.
  - intros n m c Hle [? ? ?]. split; [done..|lia].
  - intros n c k v Hc Hn. by apply bucketCells_put.
  - done.
  - intros n c k v k' Hc Hn. by eapply bucketCells_put.
Qed.

(** ** The two-level lookup *)

Record Table (C : Type) := mkTable { first : C; second : C; mismatches : Z; overflowed : Z }.
Arguments mkTable {C}. Arguments first {C}. Arguments second {C}.
Arguments mismatches {C}. Arguments overflowed {C}.

Section intern.
Context {C V S K : Type} `{CellMapLaws C (Z * V)}.
(** [prepare] puts the list at the front of the arena, [commit] keeps it there. *)
Context (hash : K → Z * Z) (prepare : S → K → res S) (commit : S → K → res (S * V)).

Definition newTable : Table C := mkTable cnew cnew 0 0.

Definition internKey (t : Table C) (s : S) (k : K) : res (Table C * S * V) :=
  s ← prepare s k;
  let '(h1, h2) := hash k in
  match cget (first t) h1 with
  | Some (verify, x) =>
      if verify =? h2 then Ok (t, s, x)
      else
        match cget (second t) h2 with
        | Some (verify2, x2) =>
            if negb (verify2 =? h1) then Throw
            else Ok (mkTable (first t) (second t) (mismatches t + 1) (overflowed t), s, x2)
        | None =>
            '(s, x) ← commit s k;
            Ok (mkTable (first t) (cput (second t) h2 (h1, x)) (mismatches t + 1) (overflowed t + 1), s, x)
        end
  | None =>
      '(s, x) ← commit s k;
      Ok (mkTable (cput (first t) h1 (h2, x)) (second t) (mismatches t) (overflowed t), s, x)
  end.

Fixpoint internKeys (t : Table C) (s : S) (ks : list K) : res (Table C * S * list V) :=
  match ks with
  | [] => Ok (t, s, [])
  | k :: ks =>
      '(t, s, x) ← internKey t s k;
      '(t, s, xs) ← internKeys t s ks;
      Ok (t, s, x :: xs)
  end.

(** Where a hash pair leads. *)
Definition find (t : Table C) (h : Z * Z) : option V :=
  match cget (first t) h.1 with
  | Some (verify, x) =>
      if verify =? h.2 then Some x
      else
        match cget (second t) h.2 with
        | Some (verify2, x2) => if verify2 =? h.1 then Some x2 else None
        | None => None
        end
  | None => None
  end.

(** What is needed of the arena: [arena n s], [ready n s k] after [prepare], and
    [at_ s x k], the value [x] names a copy of [k]. *)
Context (arena : nat → S → Prop) (ready : nat → S → K → Prop) (at_ : S → V → K → Prop) (okk : K → Prop).
Context (prepare_ok : ∀ n s k, arena n s → okk k → Z.of_nat n < 2 ^ 32 - 1 → ∃ s', prepare s k = Ok s' ∧
           ready n s' k ∧ ∀ x k', at_ s x k' → at_ s' x k')
        (ready_arena : ∀ n s k, ready n s k → arena (Datatypes.S n) s)
        (commit_ok : ∀ n s k, ready n s k → okk k → Z.of_nat n < 2 ^ 32 - 1 → ∃ s' x, commit s k = Ok (s', x) ∧
           arena (Datatypes.S n) s' ∧ at_ s' x k ∧ ∀ x k', at_ s x k' → at_ s' x k').

(** Every cell names a list met before ([U]) that has the cell's hashes. *)
Record table_wf (U : K → Prop) (n : nat) (t : Table C) (s : S) : Prop := {
  tb_first : cell_ok n (first t);
  tb_second : cell_ok n (second t);
  tb_arena : arena n s;
  tb_fst : ∀ h1 v x, cget (first t) h1 = Some (v, x) → ∃ k, U k ∧ hash k = (h1, v) ∧ at_ s x k;
  tb_snd : ∀ h2 v x, cget (second t) h2 = Some (v, x) → ∃ k, U k ∧ hash k = (v, h2) ∧ at_ s x k }.

(** No list is turned away: the second hash determines the first. *)
Definition separated (U : K → Prop) : Prop :=
  ∀ k k', U k → U k' → (hash k).2 = (hash k').2 → (hash k).1 = (hash k').1.

Lemma internKey_ok U n t s k :
  table_wf U n t s → Z.of_nat n < 2 ^ 32 - 1 → U k → okk k → separated U →
  ∃ t' s' x k', internKey t s k = Ok (t', s', x) ∧ table_wf U (Datatypes.S n) t' s' ∧
    find t' (hash k) = Some x ∧ U k' ∧ hash k' = hash k ∧ at_ s' x k' ∧
    (∀ h y, find t h = Some y → find t' h = Some y) ∧ (∀ y k0, at_ s y k0 → at_ s' y k0).
Proof.
  intros [Hf Hs Ha Hfst Hsnd] Hn Hk Hok Hsep. unfold internKey.
  destruct (prepare_ok n s k Ha Hok Hn) as (s1 & -> & Hr & Hst1). cbn [mbind res_bind].
  pose proof (ready_arena _ _ _ Hr) as Ha1.
  assert (Hle : (n <= Datatypes.S n)%nat) by lia.
  assert (Hkeep : table_wf U (Datatypes.S n) t s1).
  { split; [by eapply cell_ok_le|by eapply cell_ok_le|done| |].
    - intros h1 v x (k0 & ? & ? & ?)%Hfst. exists k0. auto.
    - intros h2 v x (k0 & ? & ? & ?)%Hsnd. exists k0. auto. }
  destruct (hash k) as [h1 h2] eqn:Hh.
  destruct (cget (first t) h1) as [[v x]|] eqn:H1; [destruct (Z.eqb_spec v h2) as [->|Hv]|].
  - destruct (Hfst _ _ _ H1) as (k' & ? & ? & ?). exists t, s1, x, k'. split_and!; try done; [|auto].
    unfold find. simpl. rewrite H1. by rewrite Z.eqb_refl.
  - destruct (cget (second t) h2) as [[v2 x2]|] eqn:H2.
    + destruct (Hsnd _ _ _ H2) as (k' & Hk' & Hh' & Hat).
      assert (v2 = h1) as ->.
      { specialize (Hsep k k' Hk Hk'). rewrite Hh, Hh' in Hsep. symmetry. by apply Hsep. }
      rewrite Z.eqb_refl. cbn [negb]. eexists _, s1, x2, k'. split; [done|]. split_and!; try done; [by destruct Hkeep| |auto].
      unfold find. simpl. rewrite H1. destruct (Z.eqb_spec v h2); [done|]. by rewrite H2, Z.eqb_refl.
    + destruct (commit_ok n s1 k Hr Hok Hn) as (s2 & x2 & -> & Ha2 & Hat & Hst2). cbn [mbind res_bind].
      eexists _, s2, x2, k. split; [done|]. split_and!; try done; [| | |auto].
      * split; simpl; [by eapply cell_ok_le|apply cell_ok_put; [done|lia]|done|..].
        -- intros h v' x' (k0 & ? & ? & ?)%Hfst. exists k0. auto.
        -- intros h v' x'. rewrite (cget_put n) by (done || lia). case_decide as Hd; [|intros (k0 & ? & ? & ?)%Hsnd; exists k0; auto].
           intros [= <- <-]. subst h. by exists k.
      * unfold find. simpl. rewrite H1. destruct (Z.eqb_spec v h2); [done|].
        rewrite (cget_put n), decide_True by (done || lia). by rewrite Z.eqb_refl.
      * intros [a b] y. unfold find. simpl. destruct (cget (first t) a) as [[v' x']|]; [|done].
        destruct (v' =? b); [done|]. rewrite (cget_put n) by (done || lia).
        case_decide as Hd; [subst b; by rewrite H2|done].
  - destruct (commit_ok n s1 k Hr Hok Hn) as (s2 & x2 & -> & Ha2 & Hat & Hst2). cbn [mbind res_bind].
    eexists _, s2, x2, k. split; [done|]. split_and!; try done; [| | |auto].
    + split; simpl; [apply cell_ok_put; [done|lia]|by eapply cell_ok_le|done|..].
      * intros h v' x'. rewrite (cget_put n) by (done || lia). case_decide as Hd; [|intros (k0 & ? & ? & ?)%Hfst; exists k0; auto].
        intros [= <- <-]. subst h. by exists k.
      * intros h v' x' (k0 & ? & ? & ?)%Hsnd. exists k0. auto.
    + unfold find. simpl. rewrite (cget_put n), decide_True by (done || lia). by rewrite Z.eqb_refl.
    + intros [a b] y. unfold find. simpl. rewrite (cget_put n) by (done || lia).
      case_decide as Hd; [subst a; by rewrite H1|done].
Qed.

Lemma internKeys_ok U n t s ks :
  table_wf U n t s → Z.of_nat n + Z.of_nat (length ks) < 2 ^ 32 → separated U →
  Forall (λ k, U k ∧ okk k) ks →
  ∃ t' s' xs, internKeys t s ks = Ok (t', s', xs) ∧ table_wf U (n + length ks) t' s' ∧
    Forall2 (λ x k, U k ∧ find t' (hash k) = Some x ∧ ∃ k', U k' ∧ hash k' = hash k ∧ at_ s' x k') xs ks ∧
    (∀ h y, find t h = Some y → find t' h = Some y) ∧ (∀ y k0, at_ s y k0 → at_ s' y k0).
Proof.
  intros Hw Hn Hsep Hks. revert n t s Hw Hn. induction Hks as [|k ks [Hk Hok] _ IH]; intros n t s Hw Hn.
  { exists t, s, []. rewrite Nat.add_0_r. split_and!; try done. }
  simpl in Hn. destruct (internKey_ok U n t s k) as (t1 & s1 & x & k' & Heq & Hw1 & Hf1 & Hk' & Hh' & Hat & Hfm1 & Hat1);
    [done|lia|done..|].
  destruct (IH _ _ _ Hw1) as (t2 & s2 & xs & Heq2 & Hw2 & Hall & Hfm2 & Hat2); [lia|].
  cbn [internKeys]. rewrite Heq. cbn [mbind res_bind]. rewrite Heq2. cbn [mbind res_bind].
  exists t2, s2, (x :: xs). split_and!; [done| | |auto|auto].
  - simpl. by rewrite Nat.add_succ_r.
  - constructor; [|done]. split_and!; [done|auto|]. exists k'. auto.
Qed.

Lemma newTable_wf U s : arena 0 s → table_wf U 0 newTable s.
Proof.
  intros. split; simpl; [apply cell_ok_new..|done| |]; intros h v x; rewrite cget_new; done.
Qed.
End intern.

(** ** The arena *)

Section arena.
Context (sizeof : Z) (Hsizeof : 0 < sizeof).

(** [alloc(n)] and the copy into the block it returns. *)
Definition prepareBlock (a : Bump Z) (n : nat) (vs : list Z) : res (Bump Z) :=
  lift (write (alloc 0 sizeof a n) vs).

Definition commitBlock (a : Bump Z) (vs : list Z) : res (Bump Z * BumpSpan) :=
  lift (commitSpan a (length vs)).

Definition arena_ok (n : nat) (a : Bump Z) : Prop := bump_wf a ∧ (length (chunks a) <= n)%nat.
Definition block_ready (n : nat) (a : Bump Z) (vs : list Z) : Prop :=
  bump_wf a ∧ (length (chunks a) <= S n)%nat ∧ front a vs.
Definition block_at (a : Bump Z) (sp : BumpSpan) (vs : list Z) : Prop :=
  committed a sp ∧ slice a sp = Some vs.
Definition block_ok (vs : list Z) : Prop := vs ≠ [] ∧ Z.of_nat (length vs) < 2 ^ 32.

Lemma prepareBlock_ok n a m vs :
  arena_ok n a → block_ok vs → (length vs <= m)%nat → Z.of_nat m < 2 ^ 32 →
  ∃ a', prepareBlock a m vs = Ok a' ∧ block_ready n a' vs ∧
    ∀ sp ws, block_at a sp ws → block_at a' sp ws.
Proof.
  intros [Hw Hn] [Hne Hl] Hm Hm32. assert (0 < length vs)%nat by (destruct vs; [done|simpl; lia]).
  destruct (alloc_ok 0 sizeof Hsizeof a m) as (Hw1 & Hr & Hlen & new & Hnew & Hoff0 & Hoff1); [done|lia|done|].
  unfold prepareBlock. destruct (write_ok (alloc 0 sizeof a m) vs) as (a' & -> & Hw' & Hf & Hl' & Hold); [done|done|lia|].
  exists a'. split; [done|]. split; [split_and!; [done|lia|done]|].
  intros sp ws [(H1 & H2 & H3 & c & Hc & Hfit & Hlast) Hs].
  assert (Hco : committed (alloc 0 sizeof a m) sp).
  { split_and!; [done..|]. exists c. rewrite Hnew. split_and!; [by apply lookup_app_l_Some|done|].
    intros Hidx. apply lookup_lt_Some in Hc. destruct new as [|n0 new].
    - rewrite app_nil_r in Hidx. rewrite (Hoff0 eq_refl). by apply Hlast.
    - rewrite length_app in Hidx. simpl in Hidx. lia. }
  destruct (Hold sp Hco) as [Hco' Hs']. split; [done|]. rewrite Hs', <-Hs. unfold slice. rewrite Hnew.
  by rewrite (lookup_app_l_Some _ _ _ _ Hc), Hc.
Qed.

Lemma commitBlock_ok n a vs :
  block_ready n a vs → block_ok vs → Z.of_nat n < 2 ^ 32 - 1 →
  ∃ a' sp, commitBlock a vs = Ok (a', sp) ∧ arena_ok (S n) a' ∧ block_at a' sp vs ∧
    ∀ sp ws, block_at a sp ws → block_at a' sp ws.
Proof.
  intros (Hw & Hn & Hf) [Hne Hl] Hlim. unfold commitBlock.
  destruct (commitSpan_ok a vs) as (a' & sp & -> & Hw' & Hch & Hs & Hco & Hold); [done..|lia|].
  exists a', sp. split; [done|]. split; [split; [done|by rewrite Hch]|]. split; [done|].
  intros sp' ws [Hc' Hs']. destruct (Hold sp' Hc') as (? & ? & _). split; [done|congruence].
Qed.

Lemma arena_new : arena_ok 0 newBumpAllocator.
Proof. split; [|done]. split; simpl; [done|unfold bumpChunkInitial; lia|constructor]. Qed.
End arena.

(** ** Buckets *)

Module Buckets.
(** A word for the epoch in front of the elements; a VFS has 4 bytes. *)
Definition storeBucket (pool : Bump Z) (l : list Z) : res (Bump Z * BumpSpan) :=
  lift (store 0 4 pool (0 :: l)).

Abbreviation table := (Table (bucketCells.bucketCells (Z * BumpSpan))).

Definition internBucket (t : table) (pool : Bump Z) (l : list Z) : res (table * Bump Z * BumpSpan) :=
  internKey Mix.bucketHash (λ s _, Ok s) storeBucket t pool l.

Definition internBuckets : table → Bump Z → list (list Z) → res (table * Bump Z * list BumpSpan) :=
  internKeys Mix.bucketHash (λ s _, Ok s) storeBucket.

(** [c.pool.slice(span)[1:]]. *)
Definition bucketAt (pool : Bump Z) (sp : BumpSpan) : option (list Z) := tail <$> slice pool sp.

Definition at_ (pool : Bump Z) (sp : BumpSpan) (l : list Z) : Prop := block_at pool sp (0 :: l).

Lemma internBuckets_ok (ls : list (list Z)) :
  Z.of_nat (length ls) < 2 ^ 32 - 1 → Forall (λ l, Z.of_nat (length l) < 2 ^ 32 - 1) ls →
  (∀ l l', l ∈ ls → l' ∈ ls → (Mix.bucketHash l).2 = (Mix.bucketHash l').2 → l ≡ₚ l') →
  ∃ t pool sps, internBuckets newTable newBumpAllocator ls = Ok (t, pool, sps) ∧
    Forall2 (λ sp l, find t (Mix.bucketHash l) = Some sp ∧ ∃ l', bucketAt pool sp = Some l' ∧ l' ≡ₚ l) sps ls.
Proof.
  intros Hlen Hls Hinj.
  destruct (internKeys_ok (C := bucketCells.bucketCells (Z * BumpSpan)) Mix.bucketHash (λ s _, Ok s) storeBucket
    arena_ok (λ n s _, arena_ok n s) at_ (λ l, Z.of_nat (length l) < 2 ^ 32 - 1)) with (U := λ l, l ∈ ls) (n := 0%nat)
    (t := newTable (C := bucketCells.bucketCells (Z * BumpSpan))) (s := newBumpAllocator (T := Z)) (ks := ls)
    as (t & pool & sps & Heq & _ & Hall & _).
  - intros n s k Ha Hk Hn. by exists s.
  - intros n s k [Hw Hn]. split; [done|lia].
  - intros n s k [Hw Hn] Hk Hlim. unfold storeBucket.
    destruct (store_ok 0 4 ltac:(lia) s (0 :: k)) as (s' & sp & -> & Hw' & Hs & Hco & Hl & Hold);
      [done|done|simpl; lia|lia|].
    exists s', sp. split; [done|]. split; [split; [done|lia]|]. split; [done|].
    intros sp' l' [Hc' Hs']. destruct (Hold sp' Hc') as (? & ? & _). split; [done|congruence].
  - apply newTable_wf, arena_new.
  - lia.
  - intros l l' Hl Hl' He. by rewrite (Mix.bucketHash_perm l l') by by apply Hinj.
  - rewrite Forall_forall in *. intros l Hl. split; [done|by apply Hls].
  - exists t, pool, sps. split; [done|]. eapply Forall2_impl; [exact Hall|].
    intros sp l (Hl & Hf & l' & Hl' & Hh & _ & Hs). split; [done|]. exists l'. unfold bucketAt. rewrite Hs.
    split; [done|]. apply Hinj; [done..|]. by rewrite Hh.
Qed.

(** Interning any sequence of buckets, in a run in which the second hash tells
    different sets apart, always succeeds; at its end the bucket handed out for
    each list still holds that list's elements, and lists with the same elements
    got the same bucket. *)
Theorem internBuckets_correct (ls : list (list Z)) :
  Z.of_nat (length ls) < 2 ^ 32 - 1 → Forall (λ l, Z.of_nat (length l) < 2 ^ 32 - 1) ls →
  (∀ l l', l ∈ ls → l' ∈ ls → (Mix.bucketHash l).2 = (Mix.bucketHash l').2 → l ≡ₚ l') →
  ∃ t pool sps, internBuckets newTable newBumpAllocator ls = Ok (t, pool, sps) ∧
    Forall2 (λ sp l, ∃ l', bucketAt pool sp = Some l' ∧ l' ≡ₚ l) sps ls ∧
    ∀ i j l l', ls !! i = Some l → ls !! j = Some l' → l ≡ₚ l' → sps !! i = sps !! j.
Proof.
  intros Hlen Hls Hinj. destruct (internBuckets_ok ls Hlen Hls Hinj) as (t & pool & sps & Heq & Hall).
  exists t, pool, sps. split_and!; [done| |].
  - eapply Forall2_impl; [exact Hall|]. by intros sp l [_ ?].
  - intros i j l l' Hi Hj Hp. destruct (Forall2_lookup_r _ _ _ _ _ Hall Hi) as (sp & -> & Hf & _).
    destruct (Forall2_lookup_r _ _ _ _ _ Hall Hj) as (sp' & -> & Hf' & _).
    rewrite (Mix.bucketHash_perm l l' Hp) in Hf. congruence.
Qed.

(** Two orders of one bucket and another bucket. *)
Lemma internBuckets_correct_witness :
  (match internBuckets newTable newBumpAllocator [[6; 2; 4]; [8]; [4; 6; 2]] with
   | Ok (_, _, sps) => sps | _ => [] end) = [mkSpan 0 0 4; mkSpan 0 4 2; mkSpan 0 0 4] ∧
  ∃ t pool sps, internBuckets newTable newBumpAllocator [[6; 2; 4]; [8]; [4; 6; 2]] = Ok (t, pool, sps) ∧
    Forall2 (λ sp l, ∃ l', bucketAt pool sp = Some l' ∧ l' ≡ₚ l) sps [[6; 2; 4]; [8]; [4; 6; 2]].
Proof.
  split; [vm_compute; reflexivity|].
  destruct (internBuckets_correct [[6; 2; 4]; [8]; [4; 6; 2]]) as (t & pool & sps & H1 & H2 & _).
  - vm_compute. reflexivity.
  - repeat constructor; vm_compute; reflexivity.
  - intros l l' Hl Hl'. rewrite !elem_of_cons in Hl.
    rewrite !elem_of_cons in Hl'.
    destruct Hl as [->|[->|[->|Hl]]]; try (destruct (not_elem_of_nil _ Hl));
      destruct Hl' as [->|[->|[->|Hl']]]; try (destruct (not_elem_of_nil _ Hl')); intros He;
      first [reflexivity | exfalso; vm_compute in He; discriminate He
            | apply (Permutation_app_comm [6; 2] [4]) | apply (Permutation_app_comm [4] [6; 2])].
  - exists t, pool, sps. split; assumption.
Defined.
End Buckets.

(** ** Shared slices *)

Module SliceCache.
(** A slice handed out: nil, one of the arguments itself, or a stored block. *)
Inductive shared := Nil | Arg (i : nat) | Kept (sp : BumpSpan).

Inductive request := internCopy (xs : list Z) | concatShared (ls : list (list Z))
  | dedupSharedWith (ls : list (list Z)).

Section cache.
(** [xxh3.Hash128] of the bytes, and the size of an element. *)
Context (hash128 : list Z → Z * Z) (sizeof : Z).

Definition nonzero (h : Z) : Z := if h =? 0 then 1 else h.
Definition sliceHash (b : nat * list Z) : Z * Z :=
  (nonzero (hash128 b.2).1, nonzero (hash128 b.2).2).

Abbreviation table := (Table (gmap Z (Z * BumpSpan))).

(** [intern] of the block [xs], written into what [alloc(n)] returned. *)
Definition intern (t : table) (pool : Bump Z) (n : nat) (xs : list Z) : res (table * Bump Z * BumpSpan) :=
  internKey sliceHash (λ a b, prepareBlock sizeof a b.1 b.2) (λ a b, commitBlock a b.2) t pool (n, xs).

Definition total (ls : list (list Z)) : nat := length (concat ls).

(** The loop over the arguments: how many are not empty, and the last of these. *)
Fixpoint nonEmpty (ls : list (list Z)) : nat :=
  match ls with [] => 0 | [] :: ls => nonEmpty ls | _ :: ls => S (nonEmpty ls) end.

Fixpoint lastNonEmpty (i last : nat) (ls : list (list Z)) : nat :=
  match ls with
  | [] => last
  | [] :: ls => lastNonEmpty (S i) last ls
  | _ :: ls => lastNonEmpty (S i) i ls
  end.

Definition kept (r : res (table * Bump Z * BumpSpan)) : res (table * Bump Z * shared) :=
  '(t, pool, sp) ← r; Ok (t, pool, Kept sp).

Definition serve (t : table) (pool : Bump Z) (r : request) : res (table * Bump Z * shared) :=
  match r with
  | internCopy xs => if decide (xs = []) then Ok (t, pool, Nil) else kept (intern t pool (length xs) xs)
  | concatShared ls =>
      if decide (total ls = 0%nat) then Ok (t, pool, Nil)
      else if decide (nonEmpty ls = 1%nat) then Ok (t, pool, Arg (lastNonEmpty 0 0 ls))
      else kept (intern t pool (total ls) (concat ls))
  | dedupSharedWith ls =>
      if decide (total ls = 0%nat) then Ok (t, pool, Nil)
      else if decide (total ls = 1%nat) then Ok (t, pool, Arg (lastNonEmpty 0 0 ls))
      else kept (intern t pool (total ls) (keep_first (λ _, false) (concat ls)))
  end.

Fixpoint serveAll (t : table) (pool : Bump Z) (rs : list request) : res (table * Bump Z * list shared) :=
  match rs with
  | [] => Ok (t, pool, [])
  | r :: rs =>
      '(t, pool, x) ← serve t pool r;
      '(t, pool, xs) ← serveAll t pool rs;
      Ok (t, pool, x :: xs)
  end.

(** The list a request asks for, and the list an answer is. *)
Definition wanted (r : request) : list Z :=
  match r with
  | internCopy xs => xs
  | concatShared ls => concat ls
  | dedupSharedWith ls => keep_first (λ _, false) (concat ls)
  end.

Definition args (r : request) : list (list Z) :=
  match r with internCopy xs => [xs] | concatShared ls => ls | dedupSharedWith ls => ls end.

Definition read (pool : Bump Z) (r : request) (x : shared) : option (list Z) :=
  match x with Nil => Some [] | Arg i => args r !! i | Kept sp => slice pool sp end.

(** ** Correctness *)

Lemma nonEmpty_none i last ls : nonEmpty ls = 0%nat → lastNonEmpty i last ls = last ∧ concat ls = [].
Proof.
  revert i last. induction ls as [|[|x l] ls IH]; intros i last Hn; simpl in *; [done|by apply IH|lia].
Qed.

Lemma nonEmpty_one ls i last :
  nonEmpty ls = 1%nat → ∃ k, lastNonEmpty i last ls = (i + k)%nat ∧ ls !! k = Some (concat ls).
Proof.
  revert i last. induction ls as [|[|x l] ls IH]; intros i last Hn; simpl in *; [lia|..].
  - destruct (IH (S i) last Hn) as (k & -> & ?). exists (S k). split; [lia|done].
  - destruct (nonEmpty_none (S i) i ls) as [-> ->]; [lia|]. exists 0%nat. rewrite app_nil_r. split; [lia|done].
Qed.

Lemma total_one ls : total ls = 1%nat → nonEmpty ls = 1%nat.
Proof.
  unfold total. induction ls as [|[|x l] ls IH]; simpl; [done|done|].
  rewrite length_app. intros Hl. assert (Hc : concat ls = []) by (destruct (concat ls); [done|simpl in Hl; lia]).
  f_equal. clear -Hc. induction ls as [|[|y l] ls IH]; simpl in *; auto; done.
Qed.

Lemma keep_first_length f l : (length (keep_first f l) <= length l)%nat.
Proof.
  revert f. induction l as [|x l IH]; intros f; simpl; [done|]. destruct (f x); [|simpl]; [etrans; [apply IH|lia]|].
  specialize (IH (λ y, bool_decide (x = y) || f y)). lia.
Qed.

Context (Hsizeof : 0 < sizeof) (U : nat * list Z → Prop).
Context (Hinj : ∀ b b', U b → U b' → (sliceHash b).2 = (sliceHash b').2 → b.2 = b'.2).

(** The blocks a request may have interned. *)
Definition request_ok (r : request) : Prop :=
  Z.of_nat (total (args r)) < 2 ^ 32 ∧ U (total (args r), wanted r).

Definition cache_wf (n : nat) (t : table) (pool : Bump Z) : Prop :=
  table_wf sliceHash arena_ok (λ a sp b, block_at a sp b.2) U n t pool.

Definition answered (pool : Bump Z) (r : request) (x : shared) : Prop :=
  read pool r x = Some (wanted r) ∧ ∀ sp, x = Kept sp → committed pool sp.

Lemma intern_ok n t pool m xs :
  cache_wf n t pool → Z.of_nat n < 2 ^ 32 - 1 → U (m, xs) → xs ≠ [] → (length xs <= m)%nat → Z.of_nat m < 2 ^ 32 →
  ∃ t' pool' sp, intern t pool m xs = Ok (t', pool', sp) ∧ cache_wf (S n) t' pool' ∧
    block_at pool' sp xs ∧ ∀ sp' ws, block_at pool sp' ws → block_at pool' sp' ws.
Proof.
  intros Hw Hn HU Hne Hl Hm.
  destruct (internKey_ok (C := gmap Z (Z * BumpSpan)) sliceHash (λ a b, prepareBlock sizeof a b.1 b.2) (λ a b, commitBlock a b.2)
    arena_ok (λ n a b, block_ready n a b.2) (λ a sp b, block_at a sp b.2)
    (λ b, block_ok b.2 ∧ (length b.2 <= b.1)%nat ∧ Z.of_nat b.1 < 2 ^ 32))
    with (U := U) (n := n) (t := t) (s := pool) (k := (m, xs))
    as (t' & pool' & sp & [m' xs'] & Heq & Hw' & _ & HU' & Hh & Hat & _ & Hold); try done.
  - intros k a [m0 b0] Ha (Hb & ? & ?) _. destruct (prepareBlock_ok sizeof Hsizeof k a m0 b0) as (a' & ? & ? & ?); [done..|].
    exists a'. split_and!; [done..|]. intros x [m1 b1]. auto.
  - intros k a b (? & ? & _). by split.
  - intros k a [m0 b0] Hr (Hb & _) Hk. destruct (commitBlock_ok k a b0) as (a' & x & ? & ? & ? & ?); [done..|].
    exists a', x. split_and!; [done..|]. intros y [m1 b1]. auto.
  - simpl. split; [split; [done|lia]|by split].
  - intros b b' Hb Hb' He. unfold sliceHash. by rewrite (Hinj b b').
  - exists t', pool', sp. split_and!; [done..| |].
    + assert (E : xs' = xs) by (apply (Hinj (m', xs') (m, xs)); [done..|by rewrite Hh]). by rewrite <-E.
    + intros sp' ws. apply (Hold sp' (0%nat, ws)).
Qed.

Lemma serve_ok n t pool r :
  cache_wf n t pool → Z.of_nat n < 2 ^ 32 - 1 → request_ok r →
  ∃ t' pool' x, serve t pool r = Ok (t', pool', x) ∧ cache_wf (S n) t' pool' ∧ answered pool' r x ∧
    ∀ sp' ws, block_at pool sp' ws → block_at pool' sp' ws.
Proof.
  intros Hw Hn [Ht HU].
  assert (Hw' : cache_wf (S n) t pool).
  { destruct Hw as [Hc1 Hc2 [? ?] ? ?].
    split; [by eapply cell_ok_le, Hc1; lia|by eapply cell_ok_le, Hc2; lia|split; [done|lia]|done..]. }
  assert (Hkept : ∀ m xs, xs = wanted r → U (m, xs) → xs ≠ [] → (length xs <= m)%nat → Z.of_nat m < 2 ^ 32 →
    ∃ t' pool' x, kept (intern t pool m xs) = Ok (t', pool', x) ∧ cache_wf (S n) t' pool' ∧ answered pool' r x ∧
      ∀ sp' ws, block_at pool sp' ws → block_at pool' sp' ws).
  { intros m xs Hxs HUm Hne Hl Hm. destruct (intern_ok n t pool m xs) as (t' & pool' & sp & Heq & ? & [? ?] & ?); [done..|].
    exists t', pool', (Kept sp). unfold kept. rewrite Heq. split_and!; try done. split; simpl; [congruence|naive_solver]. }
  assert (Hsame : ∀ x, read pool r x = Some (wanted r) → (∀ sp, x ≠ Kept sp) →
    ∃ t' pool' x', Ok (t, pool, x) = Ok (t', pool', x') ∧ cache_wf (S n) t' pool' ∧ answered pool' r x' ∧
      ∀ sp' ws, block_at pool sp' ws → block_at pool' sp' ws).
  { intros x Hx Hk. exists t, pool, x. split_and!; try done. split; [done|]. intros sp ->. by destruct (Hk sp). }
  unfold total in *. destruct r as [xs|ls|ls]; simpl in *.
  - rewrite app_nil_r in *. case_decide as Hd; [subst; by apply Hsame|]. by apply Hkept.
  - unfold total. case_decide as Hd; [apply Hsame; [by rewrite (nil_length_inv _ Hd)|done]|].
    case_decide as Hd1; [|apply Hkept; try done; by destruct (concat ls)].
    destruct (nonEmpty_one ls 0 0 Hd1) as (k & -> & ?). by apply Hsame.
  - unfold total. case_decide as Hd; [apply Hsame; [by rewrite (nil_length_inv _ Hd)|done]|].
    case_decide as Hd1.
    + destruct (nonEmpty_one ls 0 0 (total_one ls Hd1)) as (k & -> & Hk). apply Hsame; [|done]. simpl. rewrite Hk.
      destruct (concat ls) as [|x [|]]; done.
    + apply Hkept; try done; [by destruct (concat ls)|apply keep_first_length].
Qed.

Lemma serveAll_ok n t pool rs :
  cache_wf n t pool → Z.of_nat n + Z.of_nat (length rs) < 2 ^ 32 → Forall request_ok rs →
  ∃ t' pool' xs, serveAll t pool rs = Ok (t', pool', xs) ∧ Forall2 (answered pool') rs xs ∧
    ∀ sp' ws, block_at pool sp' ws → block_at pool' sp' ws.
Proof.
  intros Hw Hn Hrs. revert n t pool Hw Hn. induction Hrs as [|r rs Hr _ IH]; intros n t pool Hw Hn.
  { exists t, pool, []. by split_and!. }
  simpl in Hn. destruct (serve_ok n t pool r) as (t1 & pool1 & x & Heq & Hw1 & [Hread Hco] & Hold1); [done|lia|done|].
  destruct (IH _ _ _ Hw1) as (t2 & pool2 & xs & Heq2 & Hall & Hold2); [lia|].
  exists t2, pool2, (x :: xs). cbn [serveAll]. rewrite Heq. cbn [mbind res_bind]. rewrite Heq2. split_and!; [done| |auto].
  constructor; [|done]. destruct x as [|i|sp]; [by split..|].
  destruct (Hold2 sp (wanted r)) as [? ?]; [split; [auto|done]|]. split; [done|naive_solver].
Qed.
End cache.

(** Any sequence of internCopy, concatShared and dedupSharedWith on a fresh
    SliceCache succeeds, in a run in which the hash tells the interned blocks
    apart, and at its end every slice handed out still is the list asked for: the
    copy, the concatenation, the distinct elements in order. *)
Theorem slices_shared (hash128 : list Z → Z * Z) (sizeof : Z) (rs : list request) :
  0 < sizeof → Z.of_nat (length rs) < 2 ^ 32 →
  Forall (λ r, Z.of_nat (total (args r)) < 2 ^ 32) rs →
  (∀ r r', r ∈ rs → r' ∈ rs →
     nonzero (hash128 (wanted r)).2 = nonzero (hash128 (wanted r')).2 → wanted r = wanted r') →
  ∃ t pool xs, serveAll hash128 sizeof newTable newBumpAllocator rs = Ok (t, pool, xs) ∧
    Forall2 (λ r x, read pool r x = Some (wanted r)) rs xs.
Proof.
  intros Hs Hlen Hsmall Hinj.
  destruct (serveAll_ok hash128 sizeof Hs (λ b, ∃ r, r ∈ rs ∧ b.2 = wanted r)) with (n := 0%nat)
    (t := newTable (C := gmap Z (Z * BumpSpan))) (pool := newBumpAllocator (T := Z)) (rs := rs)
    as (t & pool & xs & Heq & Hall & _).
  - intros b b' (r & Hr & Hb) (r' & Hr' & Hb'). unfold sliceHash. rewrite Hb, Hb'. by apply Hinj.
  - apply newTable_wf, arena_new.
  - lia.
  - rewrite Forall_forall in *. intros r Hr. split; [by apply Hsmall|by exists r].
  - exists t, pool, xs. split; [done|]. eapply Forall2_impl; [exact Hall|]. by intros r x [? _].
Qed.

(** A polynomial hash in the place of xxh3. *)
Definition sample_hash (l : list Z) : Z * Z :=
  (Z.of_nat (length l), foldl (λ h x, u64 (h * 1099511628211 + x + 1)) 7 l).

Definition sample_requests : list request :=
  [internCopy [3; 4]; concatShared [[3]; []; [4]]; concatShared [[]; [5; 6]];
   dedupSharedWith [[5; 5]; [6; 5]]; internCopy []].

Lemma slices_shared_witness :
  (match serveAll sample_hash 4 newTable newBumpAllocator sample_requests with
   | Ok (_, _, xs) => xs | _ => [] end) =
    [Kept (mkSpan 0 0 2); Kept (mkSpan 0 0 2); Arg 1; Kept (mkSpan 0 2 2); Nil] ∧
  ∃ t pool xs, serveAll sample_hash 4 newTable newBumpAllocator sample_requests = Ok (t, pool, xs) ∧
    Forall2 (λ r x, read pool r x = Some (wanted r)) sample_requests xs.
Proof.
  split; [vm_compute; reflexivity|]. apply (slices_shared sample_hash 4 sample_requests).
  - lia.
  - vm_compute. reflexivity.
  - repeat constructor; vm_compute; reflexivity.
  - intros r r' Hr Hr' He. unfold sample_requests in Hr, Hr'. rewrite !elem_of_cons in Hr. rewrite !elem_of_cons in Hr'.
    destruct Hr as [->|[->|[->|[->|[->|Hr]]]]]; try (destruct (not_elem_of_nil _ Hr));
      destruct Hr' as [->|[->|[->|[->|[->|Hr']]]]]; try (destruct (not_elem_of_nil _ Hr'));
      first [reflexivity | exfalso; vm_compute in He; discriminate He].
Defined.
End SliceCache.
