(* ===== verification/Closure.v ===== *)
(** * Include closures (scanner.go, tarjan_ctx.go, closure.go, bucket_cache.go)

    The include scanner computes, for every file, the set of files its
    compilation can see.  [dfs] unites the closures of the files a file includes;
    when it meets a file that is still being computed it hands over to Tarjan's
    algorithm, which gives all the files of a cycle one closure.  Closures are
    kept as buckets of file ids that are shared between files, and [dfs] splices
    whole buckets at once.  Proved here: the closures are exactly the files
    reachable through includes, with the files attached to them.

    The included files of each file are given ([children]: the resolved,
    undeferred entries of [ScannedFileCache]); the bit-level sets of ids
    ([IdSet], [BitSet]) are sets here, as IdSets.v and BitSets.v show. *)

From S2P Require Import Prelude.
Local Open Scope Z_scope.

Record Bucket := mkBucket { bid : Z; elems : list Z }.   (** address, content *)

Record Closure := mkClosure { self : Z; hasDiagnostics : bool; buckets : list Bucket }.

(** What the scanner knows of each file. *)
Class Files := {
  children : Z → list Z;         (** resolvedChildren *)
  opaqueInputs : Z → list Z;
  mainOut : Z → Z;               (** 0 if there is none *)
  opaqueMainOut : Z → Z;
  hasOwnDiagnostics : Z → bool }.

(** The interning half of [BucketCache]. *)
Class BucketStore (B : Type) := {
  internBucket : B → list Z → res (B * Bucket) }.

(** A file id that may be missing. *)
Definition some (v : Z) : list Z := if decide (v = 0) then [] else [v].

Definition closureBuckets : nat := 9.

Definition closureBucketIndex (v : Z) : nat :=
  if Z.land (u32 v) 1 =? 0 then S (Z.to_nat (Z.land (Z.shiftr (u32 v) 1) 7)) else 0%nat.

(** ** The splicing half of BucketCache *)

Record BucketCache (B : Type) := mkCache {
  cells : B;
  scratch : list (list Z);
  epochs : gmap Z Z;       (** the word in front of each bucket, 0 if absent *)
  bucketEpoch : Z;
  selfBucket : nat }.
Arguments mkCache {B}. Arguments cells {B}. Arguments scratch {B}. Arguments epochs {B}.
Arguments bucketEpoch {B}. Arguments selfBucket {B}.

Section cache.
Context {B : Type}.
Implicit Types c : BucketCache B.

Definition firstBucketVisit c (b : Bucket) : BucketCache B * bool :=
  if decide (default 0 (epochs c !! bid b) = bucketEpoch c) then (c, false)
  else (mkCache (cells c) (scratch c) (<[bid b := bucketEpoch c]> (epochs c)) (bucketEpoch c)
          (selfBucket c), true).

Definition resetScratch c (slf : Z) : BucketCache B :=
  let e := u32 (bucketEpoch c + 1) in
  mkCache (cells c) (replicate closureBuckets [])
    (if decide (e = 0) then ∅ else epochs c) (if decide (e = 0) then 1 else e)
    (closureBucketIndex slf).

Definition appendScratch c (r : nat) (vs : list Z) : BucketCache B :=
  mkCache (cells c) (alter (λ b, b ++ vs) r (scratch c)) (epochs c) (bucketEpoch c) (selfBucket c).

Definition spliceOne c (seen : gset Z) (v : Z) : BucketCache B * gset Z :=
  if decide (v ∈ seen) then (c, seen)
  else (appendScratch c (closureBucketIndex v) [v], {[v]} ∪ seen).

(** The loop of [spliceBucketSlow]: what is appended. *)
Fixpoint fresh (seen : gset Z) (vs : list Z) : list Z * gset Z :=
  match vs with
  | [] => ([], seen)
  | v :: vs =>
      if decide (v ∈ seen) then fresh seen vs
      else let '(l, seen) := fresh ({[v]} ∪ seen) vs in (v :: l, seen)
  end.

Definition spliceBucketSlow c (seen : gset Z) (r : nat) (vs : list Z) : BucketCache B * gset Z :=
  let '(l, seen) := fresh seen vs in (appendScratch c r l, seen).

Definition spliceBucket c (seen : gset Z) (b : Bucket) : res (BucketCache B * gset Z) :=
  let '(c, first) := firstBucketVisit c b in
  if negb first then Ok (c, seen)
  else
    match elems b with
    | [] => Throw
    | v :: _ =>
        let r := closureBucketIndex v in
        if decide (default [] (scratch c !! r) = [] ∧ r ≠ selfBucket c)
        then Ok (appendScratch c r (elems b), list_to_set (elems b) ∪ seen)
        else Ok (spliceBucketSlow c seen r (elems b))
    end.

Fixpoint spliceBuckets c (seen : gset Z) (bks : list Bucket) : res (BucketCache B * gset Z) :=
  match bks with
  | [] => Ok (c, seen)
  | b :: bks => '(c, seen) ← spliceBucket c seen b; spliceBuckets c seen bks
  end.

Context `{!BucketStore B}.

Fixpoint internScratch (st : B) (ls : list (list Z)) : res (B * list Bucket) :=
  match ls with
  | [] => Ok (st, [])
  | [] :: ls => internScratch st ls
  | l :: ls =>
      '(st, b) ← internBucket st l;
      '(st, bks) ← internScratch st ls;
      Ok (st, b :: bks)
  end.

Definition storeScratch c (slf : Z) (diag : bool) : res (BucketCache B * Closure) :=
  '(st, bks) ← internScratch (cells c) (scratch c);
  Ok (mkCache st (scratch c) (epochs c) (bucketEpoch c) (selfBucket c), mkClosure slf diag bks).

Definition storeBuckets c (slf : Z) (rest : list Z) (diag : bool) : res (BucketCache B * Closure) :=
  storeScratch (foldl (λ c v, appendScratch c (closureBucketIndex v) [v]) (resetScratch c slf) rest)
    slf diag.
End cache.

Definition noClosure : Closure := mkClosure 0 false [].

(** [Closure.each] and [Closure.len]. *)
Definition each (cl : Closure) : list Z := some (self cl) ++ concat (elems <$> buckets cl).
Definition len (cl : Closure) : nat :=
  foldl (λ n b, n + length (elems b))%nat (length (some (self cl))) (buckets cl).

(** The include scanner: the closures cached per file, the bucket cache. *)
Record Scanner (B : Type) := mkScanner { closures : gmap Z Closure; cache : BucketCache B }.
Arguments mkScanner {B}. Arguments closures {B}. Arguments cache {B}.

(** ** Tarjan's algorithm *)

Record tarjanNode := mkNode { index : Z; low : Z; onStack : bool }.

Record TarjanScratch := mkScratch { slots : gmap Z nat; nodes : list tarjanNode }.

Definition slot (t : TarjanScratch) (v : Z) : nat := default 0%nat (slots t !! v).
Definition node (t : TarjanScratch) (v : Z) : res tarjanNode :=
  match nodes t !! slot t v with Some n => Ok n | None => Throw end.

Definition visited (t : TarjanScratch) (v : Z) : bool := bool_decide (is_Some (slots t !! v)).
Definition discover (t : TarjanScratch) (v idx : Z) : TarjanScratch :=
  mkScratch (<[v := length (nodes t)]> (slots t)) (nodes t ++ [mkNode idx idx true]).
Definition onStackHas (t : TarjanScratch) (v : Z) : res bool :=
  if visited t v then n ← node t v; Ok (onStack n) else Ok false.
Definition lowOf (t : TarjanScratch) (v : Z) : res Z := n ← node t v; Ok (low n).
Definition indexOf (t : TarjanScratch) (v : Z) : res Z := n ← node t v; Ok (index n).
Definition setLow (t : TarjanScratch) (v x : Z) : res TarjanScratch :=
  n ← node t v;
  Ok (mkScratch (slots t) (<[slot t v := mkNode (index n) x (onStack n)]> (nodes t))).
Definition setOnStack (t : TarjanScratch) (v : Z) (b : bool) : res TarjanScratch :=
  n ← node t v;
  Ok (mkScratch (slots t) (<[slot t v := mkNode (index n) (low n) b]> (nodes t))).

Record TarjanCtx := mkCtx {
  sc : TarjanScratch; stack : list Z; next : Z; visitV : Z; hits : Z }.

Definition with_sc (t : TarjanCtx) (s : TarjanScratch) : TarjanCtx :=
  mkCtx s (stack t) (next t) (visitV t) (hits t).
Definition with_visit (t : TarjanCtx) (v : Z) : TarjanCtx :=
  mkCtx (sc t) (stack t) (next t) v (hits t).

(** The position of the last occurrence of [v], found from the top of the stack. *)
Fixpoint sccStart (st : list Z) (v : Z) : option nat :=
  match st with
  | [] => None
  | w :: st =>
      match sccStart st v with
      | Some i => Some (S i)
      | None => if decide (w = v) then Some 0%nat else None
      end
  end.

Section scan.
Context `{Files} {B : Type} `{!BucketStore B} (closureAllocHint : nat).

(** [IdSet.spliceOne] into the fixed-size block; [seen] is the set. *)
Definition splice (acc : gset Z * list Z) (v : Z) : res (gset Z * list Z) :=
  if decide (v ∈ acc.1) then Ok acc
  else if decide (length acc.2 < closureAllocHint)%nat then Ok ({[v]} ∪ acc.1, acc.2 ++ [v])
  else Throw.

Fixpoint spliceAll (acc : gset Z * list Z) (vs : list Z) : res (gset Z * list Z) :=
  match vs with
  | [] => Ok acc
  | v :: vs => acc ← splice acc v; spliceAll acc vs
  end.

(** [Closure.spliceInto]. *)
Definition spliceInto (acc : gset Z * list Z) (cl : Closure) : res (gset Z * list Z) :=
  acc ← splice acc (self cl); spliceAll acc (concat (elems <$> buckets cl)).

Definition spliceChild (t : TarjanScratch) (cls : gmap Z Closure)
    (s : bool * (gset Z * list Z)) (ch : Z) : res (bool * (gset Z * list Z)) :=
  on ← onStackHas t ch;
  if (on : bool) then Ok s
  else if decide (ch ∈ s.2.1) then Ok s
  else
    let cl := default noClosure (cls !! ch) in
    acc ← spliceInto s.2 cl;
    acc ← spliceAll acc (some (opaqueMainOut ch));
    Ok (s.1 || hasDiagnostics cl, acc).

Fixpoint spliceChildren (t : TarjanScratch) (cls : gmap Z Closure)
    (s : bool * (gset Z * list Z)) (chs : list Z) : res (bool * (gset Z * list Z)) :=
  match chs with
  | [] => Ok s
  | ch :: chs => s ← spliceChild t cls s ch; spliceChildren t cls s chs
  end.

Definition emitMembers (t : TarjanScratch) (cls : gmap Z Closure) (members : list Z)
    : res (bool * (gset Z * list Z)) :=
  acc ← spliceAll (∅, []) members;
  acc ← spliceAll acc (members ≫= λ u, some (mainOut u) ++ opaqueInputs u);
  spliceChildren t cls (existsb hasOwnDiagnostics members, acc) (members ≫= children).

Definition emitClosure (s : Scanner B) (t : TarjanScratch) (members : list Z) : res (Scanner B) :=
  r ← emitMembers t (closures s) members;
  match r.2.2 with
  | [] => Throw
  | slf :: rest =>
      '(c, cl) ← storeBuckets (cache s) slf rest r.1;
      Ok (mkScanner (foldl (λ m u, <[u := cl]> m) (closures s) members) c)
  end.

Fixpoint setAllOff (t : TarjanScratch) (vs : list Z) : res TarjanScratch :=
  match vs with
  | [] => Ok t
  | v :: vs => t ← setOnStack t v false; setAllOff t vs
  end.

Definition visitChild (strongconnect : TarjanCtx * Scanner B → Z → res (TarjanCtx * Scanner B))
    (st : TarjanCtx * Scanner B) (w : Z) : res (TarjanCtx * Scanner B) :=
  let '(t, s) := st in
  match closures s !! w with
  | Some _ => Ok (mkCtx (sc t) (stack t) (next t) (visitV t) (hits t + 1), s)
  | None =>
      let v := visitV t in
      if negb (visited (sc t) w) then
        '(t, s) ← strongconnect (t, s) w;
        let t := with_visit t v in
        lw ← lowOf (sc t) w; lv ← lowOf (sc t) v;
        if lw <? lv then sc' ← setLow (sc t) v lw; Ok (with_sc t sc', s) else Ok (t, s)
      else
        iw ← indexOf (sc t) w; lv ← lowOf (sc t) v;
        if iw <? lv then sc' ← setLow (sc t) v iw; Ok (with_sc t sc', s) else Ok (t, s)
  end.

Fixpoint visitChildren (strongconnect : TarjanCtx * Scanner B → Z → res (TarjanCtx * Scanner B))
    (st : TarjanCtx * Scanner B) (ws : list Z) : res (TarjanCtx * Scanner B) :=
  match ws with
  | [] => Ok st
  | w :: ws => st ← visitChild strongconnect st w; visitChildren strongconnect st ws
  end.

Definition enter (t : TarjanCtx) (v : Z) : TarjanCtx :=
  mkCtx (discover (sc t) v (next t + 1)) (stack t ++ [v]) (next t + 1) v (hits t).

(** What follows the visit of the children. *)
Definition leave (t : TarjanCtx) (s : Scanner B) (v : Z) : res (TarjanCtx * Scanner B) :=
  lv ← lowOf (sc t) v; iv ← indexOf (sc t) v;
  if negb (lv =? iv) then Ok (t, s)
  else
    match sccStart (stack t) (visitV t) with
    | None => Throw
    | Some k =>
        let members := drop k (stack t) in
        s ← emitClosure s (sc t) members;
        sc' ← setAllOff (sc t) members;
        Ok (mkCtx sc' (take k (stack t)) (next t) (visitV t) (hits t), s)
    end.

Fixpoint strongconnect (fuel : nat) (st : TarjanCtx * Scanner B) (v : Z)
    : res (TarjanCtx * Scanner B) :=
  match fuel with
  | O => NoFuel
  | S fuel =>
      '(t, s) ← visitChildren (strongconnect fuel) (enter st.1 v, st.2) (children v);
      leave t s v
  end.

Definition runSCC (fuel : nat) (s : Scanner B) (root : Z) : res (Scanner B) :=
  '(t, s) ← strongconnect fuel (mkCtx (mkScratch ∅ []) [] 0 0 0, s) root;
  Ok s.

(** ** The depth-first search of the scanner *)

(** The loop over the children that unites their closures. *)
Fixpoint uniteChildren (abs : Z) (cls : gmap Z Closure) (c : BucketCache B) (seen : gset Z)
    (diag : bool) (chs : list Z) : res (BucketCache B * gset Z * bool) :=
  match chs with
  | [] => Ok (c, seen, diag)
  | ch :: chs =>
      if decide (ch = abs) then uniteChildren abs cls c seen diag chs
      else if decide (ch ∈ seen) then uniteChildren abs cls c seen diag chs
      else
        let cl := default noClosure (cls !! ch) in
        let '(c, seen) := spliceOne c seen (self cl) in
        '(c, seen) ← spliceBuckets c seen (buckets cl);
        let '(c, seen) := foldl (λ a v, spliceOne a.1 a.2 v) (c, seen) (some (opaqueMainOut ch)) in
        uniteChildren abs cls c seen (diag || hasDiagnostics cl) chs
  end.

Definition unite (s : Scanner B) (abs : Z) : res (Scanner B) :=
  let '(c, seen) := foldl (λ a v, spliceOne a.1 a.2 v) (resetScratch (cache s) abs, {[abs]})
                      (opaqueInputs abs) in
  '(c, seen, diag) ← uniteChildren abs (closures s) c seen (hasOwnDiagnostics abs) (children abs);
  let '(c, seen) := foldl (λ a v, spliceOne a.1 a.2 v) (c, seen) (some (mainOut abs)) in
  '(c, cl) ← storeScratch c abs diag;
  Ok (mkScanner (<[abs := cl]> (closures s)) c).

Fixpoint ensureAll (dfs : Scanner B → Z → res (Scanner B)) (abs : Z) (s : Scanner B) (chs : list Z)
    : res (Scanner B) :=
  match chs with
  | [] => Ok s
  | ch :: chs =>
      if decide (ch = abs) then ensureAll dfs abs s chs
      else
        match closures s !! ch with
        | Some _ => ensureAll dfs abs s chs
        | None => s ← dfs s ch; ensureAll dfs abs s chs
        end
  end.

(** [sccFuel] is the fuel of [strongconnect]; [active] is [dfsActive]. *)
Fixpoint dfs (sccFuel fuel : nat) (active : gset Z) (s : Scanner B) (abs : Z) : res (Scanner B) :=
  if decide (abs ∈ active) then runSCC sccFuel s abs
  else
    match fuel with
    | O => NoFuel
    | S fuel =>
        s ← ensureAll (dfs sccFuel fuel ({[abs]} ∪ active)) abs s (children abs);
        unite s abs
    end.

Definition closureOf (fuel : nat) (s : Scanner B) (abs : Z) : res (Scanner B * Closure) :=
  match closures s !! abs with
  | Some cl => Ok (s, cl)
  | None =>
      s ← dfs fuel fuel ∅ s abs;
      Ok (s, default noClosure (closures s !! abs))
  end.

(** The closures of several files, one after the other. *)
Fixpoint closuresOf (fuel : nat) (s : Scanner B) (vs : list Z) : res (Scanner B * list Closure) :=
  match vs with
  | [] => Ok (s, [])
  | v :: vs =>
      '(s, cl) ← closureOf fuel s v;
      '(s, cls) ← closuresOf fuel s vs;
      Ok (s, cl :: cls)
  end.
End scan.

(** [newBucketCache] and [newIncludeScannerWith], around a fresh store. *)
Definition newBucketCache {B} (st : B) : BucketCache B := mkCache st (replicate closureBuckets []) ∅ 1 0.
Definition newScanner {B} (st : B) : Scanner B := mkScanner ∅ (newBucketCache st).

(** The size of the scanner's block. *)
Definition closureAllocHint : nat := Z.to_nat (2 ^ 13).
