(* ===== verification/ClosureSpec.v ===== *)
(** * Correctness of the include closures (scanner.go, tarjan_ctx.go)

    [closureOf] of Closure.v computes reachability: the invariants of the bucket
    splicing, of the union of closures, of Tarjan's algorithm and of the
    depth-first search, and the theorem that puts them together. *)

From S2P Require Import Prelude Closure.
Local Open Scope Z_scope.

(** ** What a closure should hold *)

Section spec.
Context `{Files}.

Definition includes (v w : Z) : Prop := w ∈ children v.
Abbreviation reach := (rtc includes).

(** The files attached to a file: itself, its main output and opaque inputs. *)
Definition basic (u : Z) : list Z := u :: some (mainOut u) ++ opaqueInputs u.

(** What a file brings into every closure it is part of. *)
Definition own (u : Z) : list Z := basic u ++ (children u ≫= λ c, some (opaqueMainOut c)).

Definition sees (v x : Z) : Prop := ∃ u, reach v u ∧ x ∈ own u.
Definition seesDiagnostics (v : Z) : Prop := ∃ u, reach v u ∧ hasOwnDiagnostics u = true.

(** A file that brings only itself. *)
Definition inert (x : Z) : Prop :=
  children x = [] ∧ mainOut x = 0 ∧ opaqueInputs x = [] ∧ opaqueMainOut x = 0 ∧
  hasOwnDiagnostics x = false.

(** The files attached to another one are not included by anyone, or bring only
    themselves; an opaque file with a main output is on no include cycle. *)
Record tidy : Prop := {
  tidy_attached : ∀ u x, x ∈ own u → x ≠ u → inert x ∨ ∀ w, x ∉ children w;
  tidy_opaque : ∀ c, opaqueMainOut c ≠ 0 → ¬ tc includes c c }.

Lemma elem_of_some x v : x ∈ some v ↔ x = v ∧ v ≠ 0.
Proof. unfold some. case_decide; set_solver. Qed.

Lemma own_self u : u ∈ own u.
Proof. unfold own, basic. set_solver. Qed.

Lemma own_opaque u c x : c ∈ children u → x ∈ some (opaqueMainOut c) → x ∈ own u.
Proof. intros Hc Hx. unfold own. apply elem_of_app. right. apply list_elem_of_bind. by exists c. Qed.

Lemma sees_reach v w x : reach v w → sees w x → sees v x.
Proof. intros Hr (u & ? & ?). exists u. split; [by etrans|done]. Qed.

Lemma seesDiagnostics_reach v w : reach v w → seesDiagnostics w → seesDiagnostics v.
Proof. intros Hr (u & ? & ?). exists u. split; [by etrans|done]. Qed.

Lemma reach_sees v u : reach v u → sees v u.
Proof. intros. exists u. split; [done|apply own_self]. Qed.

Lemma inert_sees x y : inert x → sees x y → y = x.
Proof.
  intros (Hc & Hm & Hi & _ & _) (u & Hr & Hy).
  destruct Hr as [|? z ? He]; [|unfold includes in He; rewrite Hc in He; set_solver].
  unfold own, basic, some in Hy. rewrite Hc, Hm, Hi in Hy. set_solver.
Qed.

Lemma inert_diagnostics x : inert x → ¬ seesDiagnostics x.
Proof.
  intros (Hc & _ & _ & _ & Hd) (u & Hr & Hu).
  destruct Hr as [|? z ? He]; [congruence|unfold includes in He; rewrite Hc in He; set_solver].
Qed.

(** ** Uniting closures

    Both algorithms go through the included files [P] of the files [M] they
    compute a closure for, skip those in [M] or already present, and add the
    closures and opaque main outputs of the others. *)

Section unite.
Context (Htidy : tidy) (M : list Z).

Record united (base : list Z) (P : list Z) (A : gset Z) (diag : bool) : Prop := {
  un_base : ∀ x, x ∈ base → x ∈ A;
  un_from : ∀ x, x ∈ A → x ∈ base ∨ ∃ d, d ∈ P ∧ d ∉ M ∧ (sees d x ∨ x ∈ some (opaqueMainOut d));
  un_all : ∀ d, d ∈ P → d ∉ M →
    (∀ x, sees d x → x ∈ A) ∧ ∀ x, x ∈ some (opaqueMainOut d) → x ∈ A;
  un_diag : diag = true ↔
    (∃ u, u ∈ M ∧ hasOwnDiagnostics u = true) ∨ ∃ d, d ∈ P ∧ d ∉ M ∧ seesDiagnostics d;
  un_children : ∀ d, d ∈ P → ∃ u, u ∈ M ∧ d ∈ children u }.

Definition based (base : list Z) : Prop := ∀ x, x ∈ base → ∃ u, u ∈ M ∧ x ∈ basic u.

Lemma united_member base P A diag ch :
  ch ∈ M → (∃ u, u ∈ M ∧ ch ∈ children u) → united base P A diag → united base (P ++ [ch]) A diag.
Proof.
  intros Hch Hu [Hb Hf Ha Hd Hc]. split; [done|..].
  - intros x Hx. destruct (Hf x Hx) as [?|(d & ? & ?)]; [by left|]. right. exists d. set_solver.
  - intros d Hd'. apply elem_of_app in Hd' as [?| ->%list_elem_of_singleton]; [by apply Ha|done].
  - rewrite Hd. split; (intros [?|(d & Hin & ? & ?)]; [by left|right; exists d]); [set_solver|].
    apply elem_of_app in Hin as [?| ->%list_elem_of_singleton]; done.
  - intros d Hd'. apply elem_of_app in Hd' as [?| ->%list_elem_of_singleton]; [by apply Hc|done].
Qed.

(** What a file that is already present would add is present. *)
Lemma united_covers base P A diag ch :
  based base → united base P A diag → ch ∉ M → ch ∈ A → (∃ u, u ∈ M ∧ ch ∈ children u) →
  (∀ x, sees ch x → x ∈ A) ∧ (∀ x, x ∈ some (opaqueMainOut ch) → x ∈ A) ∧
  (seesDiagnostics ch → diag = true).
Proof.
  intros Hbase [Hb Hf Ha Hd Hc] Hch HA (u0 & Hu0 & Hch0).
  assert (Hinert : ∀ u, ch ∈ own u → ch ≠ u → (∀ x, sees ch x → x ∈ A) ∧
    (∀ x, x ∈ some (opaqueMainOut ch) → x ∈ A) ∧ (seesDiagnostics ch → diag = true)).
  { intros u Hu Hne. destruct (tidy_attached Htidy u ch Hu Hne) as [Hin|Hno]; [|by destruct (Hno u0)].
    split_and!.
    - by intros x ->%(inert_sees _ _ Hin).
    - intros x. destruct Hin as (_ & _ & _ & -> & _). unfold some. set_solver.
    - by intros ?%(inert_diagnostics _ Hin). }
  destruct (Hf ch HA) as [Hin|(d & HdP & HdM & [(u & Hr & Hu)|Ho])].
  - destruct (Hbase ch Hin) as (u & HuM & Hu). apply (Hinert u); [by apply elem_of_app; left|]. congruence.
  - destruct (decide (ch = u)) as [<-|]; [|by apply (Hinert u)].
    destruct (Ha d HdP HdM) as [Hs Ho]. split_and!.
    + intros x Hx. apply Hs. by eapply sees_reach.
    + intros x Hx. apply rtc_inv_r in Hr as [<-|(w & Hw & Hwc)]; [by apply Ho|].
      apply Hs. exists w. split; [done|]. by eapply own_opaque.
    + intros Hx. apply Hd. right. exists d. split_and!; [done..|by eapply seesDiagnostics_reach].
  - destruct (Hc d HdP) as (u & HuM & Hu). apply (Hinert u); [by eapply own_opaque|]. congruence.
Qed.

Lemma united_subsumed base P A diag ch :
  based base → united base P A diag → ch ∉ M → ch ∈ A → (∃ u, u ∈ M ∧ ch ∈ children u) →
  united base (P ++ [ch]) A diag.
Proof.
  intros Hbase HU Hch HA Hu. destruct (united_covers _ _ _ _ _ Hbase HU Hch HA Hu) as (Hs & Ho & Hg).
  destruct HU as [Hb Hf Ha Hd Hc]. split; [done|..].
  - intros x Hx. destruct (Hf x Hx) as [?|(d & ? & ?)]; [by left|]. right. exists d. set_solver.
  - intros d Hd'. apply elem_of_app in Hd' as [?| ->%list_elem_of_singleton]; [by apply Ha|done].
  - split.
    + intros [?|(d & ? & ? & ?)]%Hd; [by left|right; exists d; set_solver].
    + intros [?|(d & Hin & ? & ?)]; [apply Hd; by left|].
      apply elem_of_app in Hin as [?| ->%list_elem_of_singleton]; [|by apply Hg].
      apply Hd. right. by exists d.
  - intros d Hd'. apply elem_of_app in Hd' as [?| ->%list_elem_of_singleton]; [by apply Hc|done].
Qed.

Lemma united_added base P A diag ch (W : gset Z) g :
  united base P A diag → ch ∉ M → (∃ u, u ∈ M ∧ ch ∈ children u) →
  (∀ x, x ∈ W ↔ sees ch x) → (g = true ↔ seesDiagnostics ch) →
  united base (P ++ [ch]) (list_to_set (some (opaqueMainOut ch)) ∪ (W ∪ A)) (diag || g).
Proof.
  intros [Hb Hf Ha Hd Hc] Hch Hu HW Hg. split.
  - intros x Hx. specialize (Hb x Hx). set_solver.
  - intros x. rewrite !elem_of_union, elem_of_list_to_set, HW. intros [Hx|[Hx|Hx]].
    + right. exists ch. set_solver.
    + right. exists ch. set_solver.
    + destruct (Hf x Hx) as [?|(d & ? & ?)]; [by left|]. right. exists d. set_solver.
  - intros d Hd' HdM. apply elem_of_app in Hd' as [Hd'| ->%list_elem_of_singleton].
    + destruct (Ha d Hd' HdM) as [Hs Ho]. split; intros x Hx; [specialize (Hs x Hx)|specialize (Ho x Hx)]; set_solver.
    + split; intros x; rewrite !elem_of_union, elem_of_list_to_set, HW; tauto.
  - rewrite orb_true_iff, Hd, Hg. split.
    + intros [[?|(d & ? & ? & ?)]|?]; [by left|right; exists d|right; exists ch]; set_solver.
    + intros [?|(d & Hin & ? & ?)]; [by left; left|].
      apply elem_of_app in Hin as [?| ->%list_elem_of_singleton]; [|by right].
      left. right. by exists d.
  - intros d Hd'. apply elem_of_app in Hd' as [?| ->%list_elem_of_singleton]; [by apply Hc|done].
Qed.

Lemma reach_leaves (P : list Z) v u :
  (∀ w ch, w ∈ M → ch ∈ children w → ch ∈ P) → v ∈ M → reach v u →
  u ∈ M ∨ ∃ d, d ∈ P ∧ d ∉ M ∧ reach d u.
Proof.
  intros HP Hv. revert u. refine (rtc_ind_r _ v _ _); [by left|intros w u Hr Hwu IH].
  destruct IH as [HwM|(d & ? & ? & ?)].
  - destruct (decide (u ∈ M)); [by left|]. right. exists u. split_and!; [by eapply HP|done|done].
  - right. exists d. split_and!; [done..|]. by eapply rtc_r.
Qed.

(** When every included file has been dealt with, and the files of [M] include
    each other, the union is the closure of each of them. *)
Lemma united_sees base P A diag (A' : gset Z) v :
  united base P A diag → based base → v ∈ M → (∀ u, u ∈ M → reach v u ∧ reach u v) →
  (∀ u ch, u ∈ M → ch ∈ children u → ch ∈ P) →
  (∀ x, x ∈ A' ↔ x ∈ A ∨ ∃ u, u ∈ M ∧ x ∈ basic u) →
  (∀ x, x ∈ A' ↔ sees v x) ∧ (diag = true ↔ seesDiagnostics v).
Proof.
  intros [Hb Hf Ha Hd Hc] Hbase Hv Hreach HP HA'. split.
  - intros x. rewrite HA'. split.
    + intros [Hx|(u & Hu & Hx)]; [|by exists u; split; [apply Hreach|apply elem_of_app; left]].
      destruct (Hf x Hx) as [Hin|(d & HdP & _ & Hs)].
      * destruct (Hbase x Hin) as (u & Hu & Hxu). exists u. split; [by apply Hreach|apply elem_of_app; by left].
      * destruct (Hc d HdP) as (u & Hu & Hdu). destruct (Hreach u Hu) as [Hr _].
        destruct Hs as [Hs|Ho]; [|exists u; split; [done|by eapply own_opaque]].
        eapply sees_reach, Hs. by eapply rtc_r.
    + intros (u & Hr & Hx).
      destruct (reach_leaves P v u HP Hv Hr) as [HuM|(d & HdP & HdM & Hdu)].
      * apply elem_of_app in Hx as [Hx|Hx]; [right; by exists u|].
        apply list_elem_of_bind in Hx as (c & Hx & Hcu). left.
        destruct (decide (c ∈ M)) as [HcM|HcM].
        -- exfalso. apply elem_of_some in Hx as [_ Hne]. apply (tidy_opaque Htidy c Hne).
           eapply tc_rtc_l; [|by apply tc_once]. etrans; [by apply Hreach|by apply Hreach].
        -- apply (Ha c); [by eapply HP|done..].
      * left. apply (proj1 (Ha d HdP HdM)). by exists u.
  - rewrite Hd. split.
    + intros [(u & Hu & Hx)|(d & HdP & _ & Hs)]; [exists u; split; [by apply Hreach|done]|].
      destruct (Hc d HdP) as (u & Hu & Hdu). eapply seesDiagnostics_reach, Hs.
      destruct (Hreach u Hu). by eapply rtc_r.
    + intros (u & Hr & Hx).
      destruct (reach_leaves P v u HP Hv Hr) as [HuM|(d & HdP & HdM & Hdu)]; [left; by exists u|right; exists d].
      split_and!; [done..|by exists u].
Qed.
End unite.
End spec.

(** ** The bucket cache *)

(** What the interning half promises for the lists it is given ([storable]): the
    bucket returned holds the list in some order, and buckets never change. *)
Class BucketStoreLaws (B : Type) `{!BucketStore B} := {
  store_wf : B → Prop;
  storable : list Z → Prop;
  stored : B → Bucket → Prop;
  stored_id : ∀ st b1 b2,
    store_wf st → stored st b1 → stored st b2 → bid b1 = bid b2 → b1 = b2;
  internBucket_ok : ∀ st l, store_wf st → storable l →
    ∃ st' b, internBucket st l = Ok (st', b) ∧ store_wf st' ∧ stored st' b ∧ elems b ≡ₚ l ∧
      ∀ b', stored st b' → stored st' b' }.

Lemma closureBucketIndex_lt v : (closureBucketIndex v < closureBuckets)%nat.
Proof.
  unfold closureBucketIndex, closureBuckets. destruct (_ =? 0); [|lia].
  assert (Z.land (Z.shiftr (u32 v) 1) 7 < 8); [|lia].
  change 7 with (Z.ones 3). rewrite Z.land_ones by lia. pose proof (Z.mod_pos_bound (Z.shiftr (u32 v) 1) (2 ^ 3)). lia.
Qed.

Lemma concat_alter {A} (ls : list (list A)) r vs :
  (r < length ls)%nat → concat (alter (λ b, b ++ vs) r ls) ≡ₚ vs ++ concat ls.
Proof.
  revert r. induction ls as [|l ls IH]; intros [|r] Hr; simpl in Hr; [lia|lia|..].
  - simpl. rewrite (Permutation_app_comm l vs). by rewrite app_assoc.
  - change (l ++ concat (alter (λ b, b ++ vs) r ls) ≡ₚ vs ++ l ++ concat ls).
    rewrite IH by lia. rewrite !app_assoc. by rewrite (Permutation_app_comm l vs).
Qed.

Lemma elem_of_concat_lookup {A} (ls : list (list A)) r l x :
  ls !! r = Some l → x ∈ l → x ∈ concat ls.
Proof.
  intros Hl Hx. apply list_elem_of_In, in_concat. exists l.
  split; [by eapply list_elem_of_In, list_elem_of_lookup_2|by apply list_elem_of_In].
Qed.

Lemma concat_lookup {A} (ls : list (list A)) x :
  x ∈ concat ls → ∃ r l, ls !! r = Some l ∧ x ∈ l.
Proof.
  intros Hx. apply list_elem_of_In, in_concat in Hx as (l & Hl%list_elem_of_In & Hxl%list_elem_of_In).
  apply list_elem_of_lookup in Hl as [r Hr]. by exists r, l.
Qed.

Lemma NoDup_concat_lookup {A} (ls : list (list A)) r l :
  NoDup (concat ls) → ls !! r = Some l → NoDup l.
Proof.
  revert r. induction ls as [|l0 ls IH]; intros r Hnd Hl; [done|].
  cbn [concat] in Hnd. apply NoDup_app in Hnd as (? & _ & ?). destruct r; simplify_eq/=; eauto.
Qed.

Lemma fresh_spec seen vs :
  let '(l, seen') := fresh seen vs in
  NoDup l ∧ (∀ x, x ∈ l → x ∈ vs ∧ x ∉ seen) ∧ seen' = list_to_set l ∪ seen ∧
  (∀ x, x ∈ seen' ↔ x ∈ vs ∨ x ∈ seen).
Proof.
  revert seen. induction vs as [|v vs IH]; intros seen; simpl.
  - split_and!; [constructor|set_solver|set_solver|set_solver].
  - case_decide as Hv.
    + specialize (IH seen). destruct (fresh seen vs) as [l seen']. destruct IH as (? & ? & ? & Hs).
      split_and!; [done|set_solver|done|]. intros x. rewrite Hs. set_solver.
    + specialize (IH ({[v]} ∪ seen)). destruct (fresh _ vs) as [l seen'].
      destruct IH as (Hnd & Hin & -> & Hs). split_and!.
      * constructor; [|done]. intros ?%Hin. set_solver.
      * intros x [->|Hx]%elem_of_cons; [set_solver|]. apply Hin in Hx. set_solver.
      * set_solver.
      * intros x. rewrite Hs. set_solver.
Qed.

Section buckets.
Context {B : Type} `{BucketStoreLaws B}.
Implicit Types c : BucketCache B.

Definition bucket_ok (b : Bucket) : Prop :=
  elems b ≠ [] ∧ NoDup (elems b) ∧ ∃ r, Forall (λ v, closureBucketIndex v = r) (elems b).

Definition cache_ok c : Prop :=
  store_wf (cells c) ∧ 1 <= bucketEpoch c < 2 ^ 32 ∧
  ∀ id e, epochs c !! id = Some e → 1 <= e <= bucketEpoch c.

(** The scratch lists hold, bucket by bucket, the files seen, [slf] apart. *)
Record splicing c (slf : Z) (seen : gset Z) : Prop := {
  sp_len : length (scratch c) = closureBuckets;
  sp_self : selfBucket c = closureBucketIndex slf;
  sp_index : ∀ r l v, scratch c !! r = Some l → v ∈ l → closureBucketIndex v = r;
  sp_nodup : NoDup (slf :: concat (scratch c));
  sp_seen : ∀ x, x ∈ seen ↔ x ∈ slf :: concat (scratch c) }.

(** A bucket with the current epoch has been spliced. *)
Definition marked c (seen : gset Z) : Prop :=
  ∀ b, stored (cells c) b → epochs c !! bid b = Some (bucketEpoch c) → ∀ x, x ∈ elems b → x ∈ seen.

Definition busy c (slf : Z) (seen : gset Z) : Prop := cache_ok c ∧ splicing c slf seen ∧ marked c seen.

Lemma splicing_append c slf seen r l :
  splicing c slf seen → (r < closureBuckets)%nat → Forall (λ v, closureBucketIndex v = r) l →
  NoDup l → (∀ x, x ∈ l → x ∉ seen) →
  splicing (appendScratch c r l) slf (list_to_set l ∪ seen).
Proof.
  intros [Hlen Hself Hidx Hnd Hseen] Hr Hl Hndl Hdis.
  assert (Hp : concat (alter (λ b, b ++ l) r (scratch c)) ≡ₚ l ++ concat (scratch c))
    by (apply concat_alter; lia).
  split; simpl; [by rewrite length_alter|done|..].
  - intros r' l' v Hl' Hv. destruct (decide (r = r')) as [<-|Hne].
    + rewrite list_lookup_alter_eq in Hl'. destruct (scratch c !! r) as [l0|] eqn:Hl0; simplify_eq/=.
      apply elem_of_app in Hv as [Hv|Hv]; [by eapply Hidx|]. rewrite Forall_forall in Hl. by apply Hl.
    + rewrite list_lookup_alter_ne in Hl' by done. by eapply Hidx.
  - rewrite Hp, Permutation_middle. apply NoDup_app. split_and!; [done| |done].
    intros x Hx Hx'. apply (Hdis x Hx). by apply Hseen.
  - intros x. rewrite elem_of_union, elem_of_list_to_set, Hseen, Hp. set_solver.
Qed.

Lemma busy_append c slf seen r l :
  busy c slf seen → (r < closureBuckets)%nat → Forall (λ v, closureBucketIndex v = r) l →
  NoDup l → (∀ x, x ∈ l → x ∉ seen) → busy (appendScratch c r l) slf (list_to_set l ∪ seen).
Proof.
  intros (Hc & Hs & Hm) ????. split; [done|]. split; [by apply splicing_append|].
  intros b Hb He x Hx. apply elem_of_union_r. by eapply Hm.
Qed.

Lemma spliceOne_ok c slf seen v :
  busy c slf seen → ∃ c', spliceOne c seen v = (c', {[v]} ∪ seen) ∧
    busy c' slf ({[v]} ∪ seen) ∧ cells c' = cells c.
Proof.
  intros Hb. unfold spliceOne. case_decide as Hv.
  - assert ({[v]} ∪ seen = seen) as -> by set_solver. by exists c.
  - eexists. split_and!; [done| |done].
    replace ({[v]} ∪ seen) with (list_to_set [v] ∪ seen) by set_solver.
    apply busy_append; [done|apply closureBucketIndex_lt|by constructor|apply NoDup_singleton|set_solver].
Qed.

Lemma spliceOnes_ok c slf seen vs :
  busy c slf seen → ∃ c', foldl (λ a v, spliceOne a.1 a.2 v) (c, seen) vs = (c', list_to_set vs ∪ seen) ∧
    busy c' slf (list_to_set vs ∪ seen) ∧ cells c' = cells c.
Proof.
  revert c seen. induction vs as [|v vs IH]; intros c seen Hb; simpl.
  - exists c. rewrite (left_id_L ∅ (∪)). done.
  - destruct (spliceOne_ok c slf seen v Hb) as (c1 & -> & Hb1 & Hc1).
    destruct (IH c1 _ Hb1) as (c2 & -> & Hb2 & Hc2). exists c2.
    replace ({[v]} ∪ list_to_set vs ∪ seen) with (list_to_set vs ∪ ({[v]} ∪ seen)) by set_solver.
    split_and!; [done..|congruence].
Qed.

Lemma busy_visit c slf seen b l :
  busy c slf seen → bucket_ok b → stored (cells c) b →
  (∀ x, x ∈ elems b ↔ x ∈ l ∨ x ∈ elems b ∧ x ∈ seen) → NoDup l → (∀ x, x ∈ l → x ∉ seen) →
  let c1 := mkCache (cells c) (scratch c) (<[bid b := bucketEpoch c]> (epochs c)) (bucketEpoch c)
              (selfBucket c) in
  ∀ r, Forall (λ v, closureBucketIndex v = r) (elems b) → (r < closureBuckets)%nat →
  busy (appendScratch c1 r l) slf (list_to_set (elems b) ∪ seen).
Proof.
  intros ((Hw & He & Hep) & Hs & Hm) Hb Hst Hl Hnd Hdis c1 r Hr Hlt.
  assert (Hset : list_to_set (elems b) ∪ seen = (list_to_set l ∪ seen : gset Z)).
  { apply set_eq. intros x. rewrite !elem_of_union, !elem_of_list_to_set. specialize (Hl x). tauto. }
  rewrite Hset. split; [|split].
  - split; [done|]. split; [done|]. simpl. intros id e. destruct (decide (bid b = id)) as [<-|].
    + rewrite lookup_insert_eq. intros. simplify_eq. lia.
    + rewrite lookup_insert_ne by done. apply Hep.
  - apply splicing_append; [|done| |done..].
    + destruct Hs. by split.
    + rewrite Forall_forall in *. intros x Hx. apply Hr, Hl. by left.
  - intros b' Hb'. simpl. destruct (decide (bid b = bid b')) as [Heq|].
    + intros _ x Hx. assert (b = b') as <- by by eapply stored_id. rewrite <-Hset. set_solver.
    + rewrite lookup_insert_ne by done. intros He' x Hx. apply elem_of_union_r. by eapply Hm.
Qed.

Lemma spliceBucket_ok c slf seen b :
  busy c slf seen → bucket_ok b → stored (cells c) b →
  ∃ c', spliceBucket c seen b = Ok (c', list_to_set (elems b) ∪ seen) ∧
    busy c' slf (list_to_set (elems b) ∪ seen) ∧ cells c' = cells c.
Proof.
  intros Hbusy Hb Hst. pose proof Hbusy as ((Hw & He & Hep) & Hs & Hm).
  pose proof Hb as (Hne & Hnd & r & Hr). unfold spliceBucket, firstBucketVisit. case_decide as Hv; simpl.
  - exists c. assert (list_to_set (elems b) ∪ seen = seen) as ->; [|done].
    apply subseteq_union_1_L. intros x Hx. apply (Hm b); [done| |set_solver].
    destruct (epochs c !! bid b) eqn:E; simpl in Hv; [by subst|lia].
  - destruct (elems b) as [|v l0] eqn:Hl0; [done|]. rewrite <-Hl0 in *.
    assert (Hvr : closureBucketIndex v = r) by (rewrite Hl0 in Hr; by inversion Hr).
    assert (Hlt : (r < closureBuckets)%nat) by (subst r; apply closureBucketIndex_lt).
    rewrite Hvr. case_decide as Hfast.
    + eexists. split_and!; [done| |done]. apply busy_visit; try done.
      { intros x. tauto. }
      intros x Hx Hin. apply (sp_seen _ _ _ Hs) in Hin. rewrite Forall_forall in Hr. specialize (Hr x Hx).
      destruct Hfast as [Hempty Hself]. rewrite (sp_self _ _ _ Hs) in Hself.
      apply elem_of_cons in Hin as [->|Hin]; [done|].
      apply concat_lookup in Hin as (r' & l & Hr' & Hxl). pose proof (sp_index _ _ _ Hs _ _ _ Hr' Hxl) as Hri.
      rewrite Hr in Hri. subst r'. rewrite Hr' in Hempty. simpl in Hempty. subst l. set_solver.
    + unfold spliceBucketSlow. pose proof (fresh_spec seen (elems b)) as Hfr.
      destruct (fresh seen (elems b)) as [l seen']. destruct Hfr as (Hndl & Hin & Hs' & Hall).
      assert (seen' = list_to_set (elems b) ∪ seen) as ->.
      { apply set_eq. intros x. rewrite Hall, elem_of_union, elem_of_list_to_set. done. }
      eexists. split_and!; [done| |done]. apply busy_visit; try done.
      * intros x. split; [|intros [?%Hin|?]; tauto]. intros Hx.
        assert (Hx' : x ∈ list_to_set (C := gset Z) (elems b) ∪ seen) by set_solver. rewrite Hs' in Hx'. set_solver.
      * intros x ?%Hin. tauto.
Qed.

Lemma spliceBuckets_ok c slf seen bks :
  busy c slf seen → Forall bucket_ok bks → Forall (stored (cells c)) bks →
  ∃ c', spliceBuckets c seen bks = Ok (c', list_to_set (concat (elems <$> bks)) ∪ seen) ∧
    busy c' slf (list_to_set (concat (elems <$> bks)) ∪ seen) ∧ cells c' = cells c.
Proof.
  revert c seen. induction bks as [|b bks IH]; intros c seen Hb Hok Hst.
  - exists c. simpl. rewrite (left_id_L ∅ (∪)). done.
  - rewrite fmap_cons. cbn [spliceBuckets concat]. apply Forall_cons in Hok as [Hb1 Hok], Hst as [Hs1 Hst].
    destruct (spliceBucket_ok c slf seen b) as (c1 & -> & Hb2 & Hc1); [done..|]. cbn [mbind res_bind].
    destruct (IH c1 _ Hb2) as (c2 & -> & Hb3 & Hc2); [done|by rewrite Hc1|]. exists c2.
    rewrite list_to_set_app_L.
    replace (list_to_set (elems b) ∪ list_to_set (concat (elems <$> bks)) ∪ seen)
      with (list_to_set (concat (elems <$> bks)) ∪ (list_to_set (elems b) ∪ seen)) by set_solver.
    split_and!; [done..|congruence].
Qed.
Lemma resetScratch_ok c slf :
  cache_ok c → busy (resetScratch c slf) slf {[slf]} ∧ cells (resetScratch c slf) = cells c.
Proof.
  intros (Hw & He & Hep). split; [|done].
  assert (Hu : u32 (bucketEpoch c + 1) = 0 ∨
    u32 (bucketEpoch c + 1) = bucketEpoch c + 1 ∧ bucketEpoch c + 1 < 2 ^ 32).
  { unfold u32. destruct (decide (bucketEpoch c + 1 = 2 ^ 32)) as [->|]; [by left|].
    right. split; [apply Z.mod_small|]; lia. }
  assert (Hlt : ∀ id e, epochs (resetScratch c slf) !! id = Some e →
    1 <= e < bucketEpoch (resetScratch c slf)).
  { intros id e. unfold resetScratch. simpl. case_decide; [by rewrite lookup_empty|].
    intros Hx%Hep. lia. }
  split; [|split].
  - split; [done|]. split; [unfold resetScratch; simpl; case_decide; lia|].
    intros id e Hx%Hlt. lia.
  - assert (Hc : concat (replicate closureBuckets ([] : list Z)) = []) by done.
    split; [done|done|..].
    + intros r l v Hl Hv. apply lookup_replicate in Hl as [-> _]. by apply elem_of_nil in Hv.
    + apply NoDup_singleton.
    + cbn [resetScratch scratch]. rewrite Hc. set_solver.
  - intros b _ Hx%Hlt. lia.
Qed.
End buckets.

Definition window (cl : Closure) : list Z := self cl :: concat (elems <$> buckets cl).

Section store.
Context `{Files} {B : Type} `{BucketStoreLaws B} (F : gset Z).
Implicit Types c : BucketCache B.

(** [l] is what the closure of [slf] should have in bucket [r]. *)
Definition shard (slf : Z) (r : nat) (l : list Z) : Prop :=
  l ≠ [] ∧ NoDup l ∧ ∀ x, x ∈ l ↔ sees slf x ∧ x ≠ slf ∧ closureBucketIndex x = r.

(** The buckets of the closures can be stored (no two of them are confused). *)
Context (Hstorable : ∀ slf r l, slf ∈ F → shard slf r l → storable l).

Record closure_ok (st : B) (cl : Closure) (X : gset Z) : Prop := {
  co_nodup : NoDup (window cl);
  co_elems : ∀ x, x ∈ X ↔ x ∈ window cl;
  co_stored : Forall (stored st) (buckets cl);
  co_buckets : Forall bucket_ok (buckets cl) }.

Definition grows (st st' : B) : Prop := ∀ b, stored st b → stored st' b.

Lemma grows_trans st1 st2 st3 : grows st1 st2 → grows st2 st3 → grows st1 st3.
Proof. unfold grows. auto. Qed.

Lemma closure_ok_grows st st' cl X : grows st st' → closure_ok st cl X → closure_ok st' cl X.
Proof. intros Hg [? ? Hs ?]. split; [done..| |done]. exact (Forall_impl _ _ _ Hs Hg). Qed.

Lemma internScratch_ok (st : B) ls :
  store_wf st → NoDup (concat ls) → Forall (λ l, l ≠ [] → storable l) ls →
  Forall (λ l, ∃ r, Forall (λ v, closureBucketIndex v = r) l) ls →
  ∃ st' bks, internScratch st ls = Ok (st', bks) ∧ store_wf st' ∧ grows st st' ∧
    Forall (stored st') bks ∧ Forall bucket_ok bks ∧ concat (elems <$> bks) ≡ₚ concat ls.
Proof.
  revert st. induction ls as [|l ls IH]; intros st Hw Hnd Hst Hidx.
  { exists st, []. split_and!; [done|done|by intros b|done..]. }
  cbn [concat] in *. apply Forall_cons in Hidx as [[r Hr] Hidx], Hst as [Hsl Hst].
  apply NoDup_app in Hnd as (Hl & _ & Hls).
  destruct l as [|v l]; [by apply IH|]. cbn [internScratch].
  destruct (internBucket_ok st (v :: l)) as (st1 & b & -> & Hw1 & Hb & Hp & Hg1);
    [done|by apply Hsl|]. cbn [mbind res_bind].
  destruct (IH st1) as (st2 & bks & -> & Hw2 & Hg2 & Hbks & Hok & Hp2); [done..|].
  cbn [mbind res_bind]. exists st2, (b :: bks). rewrite fmap_cons. cbn [concat].
  split_and!; [done|done|by eapply grows_trans| | |by rewrite Hp, Hp2].
  - constructor; [by apply Hg2|done].
  - constructor; [|done]. split; [intros E; rewrite E in Hp; by apply Permutation_nil_cons in Hp|].
    split; [by rewrite Hp|]. exists r. by rewrite Hp.
Qed.

Lemma storeScratch_ok c slf seen diag :
  cache_ok c → splicing c slf seen → slf ∈ F → (∀ x, x ∈ seen ↔ sees slf x) →
  ∃ c' cl, storeScratch c slf diag = Ok (c', cl) ∧ cache_ok c' ∧ grows (cells c) (cells c') ∧
    closure_ok (cells c') cl seen ∧ hasDiagnostics cl = diag ∧ self cl = slf.
Proof.
  intros (Hw & He & Hep) [Hlen Hself Hidx Hnd Hseen] HF Hsees. unfold storeScratch.
  apply NoDup_cons in Hnd as [Hslf Hnd].
  destruct (internScratch_ok (cells c) (scratch c)) as (st1 & bks & -> & Hw1 & Hg1 & Hst1 & Hok & Hp).
  { done. } { done. }
  { apply Forall_lookup_2. intros r l Hl Hne. apply (Hstorable slf r); [done|]. split_and!; [done|..].
    - by eapply NoDup_concat_lookup.
    - intros x. rewrite <-Hsees, Hseen, elem_of_cons. split.
      + intros Hx. assert (Hc : x ∈ concat (scratch c)) by by eapply elem_of_concat_lookup.
        split_and!; [by right|by intros ->|by eapply Hidx].
      + intros ([?|Hx] & Hne' & Hr); [done|]. apply concat_lookup in Hx as (r' & l' & Hl' & Hx).
        rewrite (Hidx _ _ _ Hl' Hx) in Hr. by simplify_eq. }
  { apply Forall_lookup_2. intros r l Hl. exists r. apply Forall_forall. intros x Hx. by eapply Hidx. }
  cbn [mbind res_bind].
  eexists _, _. split; [done|]. split; [done|]. simpl.
  split; [done|]. split; [|done].
  split; unfold window; simpl; [|intros x; by rewrite Hseen, Hp|done|done].
  constructor; by rewrite Hp.
Qed.

Lemma storeBuckets_ok c slf rest diag :
  cache_ok c → NoDup (slf :: rest) → slf ∈ F → (∀ x, x ∈ slf :: rest ↔ sees slf x) →
  ∃ c' cl, storeBuckets c slf rest diag = Ok (c', cl) ∧ cache_ok c' ∧ grows (cells c) (cells c') ∧
    closure_ok (cells c') cl (list_to_set (slf :: rest)) ∧ hasDiagnostics cl = diag ∧ self cl = slf.
Proof.
  intros Hc Hnd HF Hsees. unfold storeBuckets.
  destruct (resetScratch_ok c slf Hc) as [Hb Hcells].
  assert (∀ c0 seen, busy c0 slf seen → NoDup rest → (∀ x, x ∈ rest → x ∉ seen) →
    let c1 := foldl (λ c v, appendScratch c (closureBucketIndex v) [v]) c0 rest in
    busy c1 slf (list_to_set rest ∪ seen) ∧ cells c1 = cells c0) as Hfold.
  { clear. induction rest as [|v rest IH]; intros c0 seen Hb Hnd Hdis; simpl.
    - by rewrite (left_id_L ∅ (∪)).
    - apply NoDup_cons in Hnd as [Hv Hnd].
      assert (Hb1 : busy (appendScratch c0 (closureBucketIndex v) [v]) slf (list_to_set [v] ∪ seen)).
      { apply busy_append; [done|apply closureBucketIndex_lt|by constructor|apply NoDup_singleton|].
        intros x ->%list_elem_of_singleton. apply Hdis. set_solver. }
      destruct (IH _ _ Hb1 Hnd) as [Hb2 Hc2].
      { intros x Hx. specialize (Hdis x). set_solver. }
      split; [|done].
      by replace ({[v]} ∪ list_to_set rest ∪ seen) with (list_to_set rest ∪ (list_to_set [v] ∪ seen))
        by set_solver. }
  apply NoDup_cons in Hnd as [Hslf Hnd].
  destruct (Hfold _ _ Hb Hnd) as [(Hc1 & Hs1 & _) Hcells1]; [set_solver|].
  destruct (storeScratch_ok _ _ _ diag Hc1 Hs1) as (c' & cl & -> & Hc' & Hg & Hok & Hd & Hsf);
    [done|intros x; rewrite <-Hsees; set_solver|].
  exists c', cl. rewrite Hcells1, Hcells in Hg. split_and!; try done.
  replace (list_to_set (slf :: rest)) with (list_to_set rest ∪ {[slf]} : gset Z) by set_solver. done.
Qed.
End store.
