(* ===== verification/ClosureTarjan.v ===== *)
(** * Tarjan's algorithm and the depth-first search compute closures (tarjan_ctx.go, scanner.go)

    The invariants of [strongconnect] and of [dfs], over the union lemmas and the
    bucket cache of ClosureSpec.v, and the theorem about [closureOf]. *)

From S2P Require Import Prelude Closure ClosureSpec.
Local Open Scope Z_scope.

(** ** The node table *)

Definition nd (t : TarjanScratch) (v : Z) : option tarjanNode := slots t !! v ≫= λ i, nodes t !! i.

Record twf (t : TarjanScratch) : Prop := {
  tw_in : ∀ v i, slots t !! v = Some i → (i < length (nodes t))%nat;
  tw_inj : ∀ v w i, slots t !! v = Some i → slots t !! w = Some i → v = w }.

Lemma nd_slot t v n : nd t v = Some n → slots t !! v = Some (slot t v) ∧ nodes t !! slot t v = Some n.
Proof. unfold nd, slot. destruct (slots t !! v); simpl; [done|discriminate]. Qed.

Lemma node_nd t v n : nd t v = Some n → node t v = Ok n.
Proof. intros [_ Hn]%nd_slot. unfold node. by rewrite Hn. Qed.

Lemma lowOf_nd t v n : nd t v = Some n → lowOf t v = Ok (low n).
Proof. intros Hn. unfold lowOf. by rewrite (node_nd _ _ _ Hn). Qed.

Lemma indexOf_nd t v n : nd t v = Some n → indexOf t v = Ok (index n).
Proof. intros Hn. unfold indexOf. by rewrite (node_nd _ _ _ Hn). Qed.

Lemma nd_is_Some t v : twf t → is_Some (nd t v) ↔ v ∈ dom (slots t).
Proof.
  intros Hw. rewrite elem_of_dom. unfold nd. split.
  - intros [n Hn]. by destruct (slots t !! v).
  - intros [i Hi]. rewrite Hi. simpl. by eapply lookup_lt_is_Some, tw_in.
Qed.

Lemma visited_nd t v : twf t → visited t v = bool_decide (is_Some (nd t v)).
Proof.
  intros Hw. apply bool_decide_ext. rewrite (nd_is_Some _ _ Hw). by rewrite elem_of_dom.
Qed.

Lemma onStackHas_nd t v :
  twf t → onStackHas t v = Ok (match nd t v with Some n => onStack n | None => false end).
Proof.
  intros Hw. unfold onStackHas. rewrite (visited_nd _ _ Hw). destruct (nd t v) as [n|] eqn:Hn.
  - rewrite bool_decide_true by done. by rewrite (node_nd _ _ _ Hn).
  - rewrite bool_decide_false; [done|]. by intros [? ?].
Qed.

Lemma nd_discover t v i :
  twf t → nd t v = None →
  twf (discover t v i) ∧ nd (discover t v i) v = Some (mkNode i i true) ∧
  ∀ u, u ≠ v → nd (discover t v i) u = nd t u.
Proof.
  intros Hw Hv. split_and!.
  - split; simpl; intros u; [intros j|intros w j].
    + rewrite length_app. simpl. destruct (decide (v = u)) as [<-|].
      * rewrite lookup_insert_eq. intros. simplify_eq. lia.
      * rewrite lookup_insert_ne by done. intros ?%(tw_in _ Hw). lia.
    + destruct (decide (v = u)) as [<-|], (decide (v = w)) as [<-|]; rewrite ?lookup_insert_eq, ?lookup_insert_ne by done.
      * done.
      * intros [= <-] Hx%(tw_in _ Hw). lia.
      * intros Hx%(tw_in _ Hw) [= <-]. lia.
      * apply (tw_inj _ Hw).
  - unfold nd, discover. simpl. rewrite lookup_insert_eq. simpl. by rewrite list_lookup_middle.
  - intros u Hne. unfold nd, discover. simpl. rewrite lookup_insert_ne by done.
    destruct (slots t !! u) as [i'|] eqn:Hi; [|done]. simpl.
    apply lookup_app_l. by eapply tw_in.
Qed.

(** Both setters replace the node of [v]. *)
Lemma nd_replace t v n n' :
  twf t → nd t v = Some n →
  let t' := mkScratch (slots t) (<[slot t v := n']> (nodes t)) in
  twf t' ∧ nd t' v = Some n' ∧ ∀ u, u ≠ v → nd t' u = nd t u.
Proof.
  intros Hw [Hs Hn]%nd_slot t'. split_and!.
  - split; simpl; [intros u i; rewrite length_insert; apply (tw_in _ Hw)|apply (tw_inj _ Hw)].
  - unfold nd, t'. simpl. rewrite Hs. simpl. apply list_lookup_insert_eq. by eapply tw_in.
  - intros u Hne. unfold nd, t'. simpl. destruct (slots t !! u) as [i|] eqn:Hi; [|done]. simpl.
    apply list_lookup_insert_ne. intros <-. by apply Hne, (tw_inj _ Hw _ _ _ Hi).
Qed.

Lemma setLow_nd t v n x :
  twf t → nd t v = Some n →
  ∃ t', setLow t v x = Ok t' ∧ twf t' ∧ nd t' v = Some (mkNode (index n) x (onStack n)) ∧
    (∀ u, u ≠ v → nd t' u = nd t u) ∧ slots t' = slots t.
Proof.
  intros Hw Hn. unfold setLow. rewrite (node_nd _ _ _ Hn). eexists. split; [done|].
  destruct (nd_replace t v n (mkNode (index n) x (onStack n)) Hw Hn) as (? & ? & ?). done.
Qed.

Lemma setAllOff_nd t vs :
  twf t → NoDup vs → (∀ v, v ∈ vs → is_Some (nd t v)) →
  ∃ t', setAllOff t vs = Ok t' ∧ twf t' ∧ slots t' = slots t ∧ (∀ u, u ∉ vs → nd t' u = nd t u) ∧
    ∀ u n, u ∈ vs → nd t u = Some n → nd t' u = Some (mkNode (index n) (low n) false).
Proof.
  revert t. induction vs as [|v vs IH]; intros t Hw Hnd Hin; simpl.
  - exists t. split_and!; try done. intros u n Hu. by apply elem_of_nil in Hu.
  - apply NoDup_cons in Hnd as [Hv Hnd].
    destruct (Hin v) as [n Hn]; [set_solver|]. unfold setOnStack. rewrite (node_nd _ _ _ Hn). cbn [mbind res_bind].
    destruct (nd_replace t v n (mkNode (index n) (low n) false) Hw Hn) as (Hw' & Hnv & Hne).
    destruct (IH _ Hw' Hnd) as (t' & -> & Hwt & Hsl & Hout & Hoff).
    { intros u Hu. rewrite Hne by (intros ->; done). apply Hin. set_solver. }
    exists t'. split_and!; [done..| |].
    + intros u Hu. rewrite Hout, Hne by set_solver. done.
    + intros u m Hu Hm. destruct (decide (u = v)) as [->|Huv].
      * rewrite Hout by done. rewrite Hnv. by simplify_eq.
      * apply Hoff; [set_solver|]. by rewrite Hne.
Qed.

Lemma sccStart_app σ v τ : v ∉ τ → sccStart (σ ++ v :: τ) v = Some (length σ).
Proof.
  intros Hv. induction σ as [|w σ IH]; simpl; [|by rewrite IH].
  assert (sccStart τ v = None) as ->; [|by rewrite decide_True].
  induction τ as [|w τ IH]; [done|]. apply not_elem_of_cons in Hv as [? ?]. simpl.
  rewrite IH by done. by rewrite decide_False.
Qed.

(** ** The block of a component *)

Section block.
Context `{Files} (hint : nat).

(** The block only grows. *)
Lemma splice_prefix acc x a : splice hint acc x = Ok a → acc.2 `prefix_of` a.2.
Proof.
  unfold splice. case_decide; [by intros [= <-]|]. case_decide; [|done]. intros [= <-]. simpl. by eexists.
Qed.

Lemma spliceAll_prefix acc vs a : spliceAll hint acc vs = Ok a → acc.2 `prefix_of` a.2.
Proof.
  revert acc. induction vs as [|v vs IH]; intros acc; cbn [spliceAll]; [by intros [= <-]|].
  intros (a1 & H1%splice_prefix & H2%IH)%res_bind_Ok. by etrans.
Qed.

Lemma spliceChild_prefix t cls sp ch sp' :
  spliceChild hint t cls sp ch = Ok sp' → sp.2.2 `prefix_of` sp'.2.2.
Proof.
  intros ([] & _ & Hsp)%res_bind_Ok; [by simplify_eq|]. case_decide; [by simplify_eq|].
  apply res_bind_Ok in Hsp as (a1 & Ha1 & Hsp). apply res_bind_Ok in Hsp as (a2 & Ha2%spliceAll_prefix & [= <-]).
  apply res_bind_Ok in Ha1 as (a0 & Ha0%splice_prefix & Ha1%spliceAll_prefix). simpl. by do 2 (etrans; [|done]).
Qed.

Lemma spliceChildren_prefix t cls sp chs sp' :
  spliceChildren hint t cls sp chs = Ok sp' → sp.2.2 `prefix_of` sp'.2.2.
Proof.
  revert sp. induction chs as [|ch chs IH]; intros sp; cbn [spliceChildren]; [by intros [= <-]|].
  intros (a1 & H1%spliceChild_prefix & H2%IH)%res_bind_Ok. by etrans.
Qed.

Lemma emitMembers_head t cls v τ r :
  emitMembers hint t cls (v :: τ) = Ok r → ∃ rest, r.2.2 = v :: rest.
Proof.
  intros (a1 & H1 & Hr)%res_bind_Ok. apply res_bind_Ok in Hr as (a2 & H2%spliceAll_prefix & H3%spliceChildren_prefix).
  cbn [spliceAll] in H1. apply res_bind_Ok in H1 as (a0 & H0' & H1%spliceAll_prefix).
  unfold splice in H0'. rewrite decide_False in H0' by set_solver. case_decide; [|done]. simplify_eq/=.
  assert ([v] `prefix_of` r.2.2) as [rest ->] by (do 2 (etrans; [done|]); done). by eexists.
Qed.
End block.

Section correct.
Context `{Files} {B : Type} `{BucketStoreLaws B} (hint : nat) (F : gset Z).
Context (Htidy : tidy) (Hchildren : ∀ v ch, v ∈ F → ch ∈ children v → ch ∈ F)
  (Hstorable : ∀ slf r l, slf ∈ F → shard slf r l → storable l).

Abbreviation reach := (rtc includes).

(** A closure too big for the block of [emitClosure]. *)
Definition overflow : Prop :=
  ∃ v l, v ∈ F ∧ NoDup l ∧ (hint < length l)%nat ∧ ∀ x, x ∈ l → sees v x.

(** [r] has a result, and [Q] holds of it, unless a closure overflows. *)
Definition holds {A} (r : res A) (Q : A → Prop) : Prop :=
  match r with Ok a => Q a | Throw => overflow | NoFuel => False end.

Lemma holds_bind {A C} (r : res A) (f : A → res C) Q R :
  holds r R → (∀ a, R a → holds (f a) Q) → holds (r ≫= f) Q.
Proof. destruct r; simpl; auto. Qed.

Lemma holds_mono {A} (r : res A) (Q R : A → Prop) : holds r R → (∀ a, R a → Q a) → holds r Q.
Proof. destruct r; simpl; auto. Qed.

Lemma reach_F v u : v ∈ F → reach v u → u ∈ F.
Proof. intros Hv Hr. induction Hr; [done|]. eauto. Qed.

Lemma holds_and {A} (r : res A) (Q R : A → Prop) :
  holds r Q → (∀ a, r = Ok a → R a) → holds r (λ a, Q a ∧ R a).
Proof. destruct r; simpl; auto. Qed.

(** ** The state of the scanner *)

Definition exact (st : B) (cl : Closure) (v : Z) : Prop :=
  (∃ X, closure_ok st cl X ∧ ∀ x, x ∈ X ↔ sees v x) ∧ (hasDiagnostics cl = true ↔ seesDiagnostics v).

Definition sinv (s : Scanner B) : Prop :=
  cache_ok (cache s) ∧ ∀ v cl, closures s !! v = Some cl → v ∈ F ∧ exact (cells (cache s)) cl v.

Definition cached (s : Scanner B) (v : Z) : Prop := is_Some (closures s !! v).

Lemma exact_grows (st st' : B) cl v : grows st st' → exact st cl v → exact st' cl v.
Proof. intros Hg [(X & Hok & HX) Hd]. split; [|done]. exists X. split; [by eapply closure_ok_grows|done]. Qed.

Lemma exact_reach (st : B) cl v u : reach v u → reach u v → exact st cl v → exact st cl u.
Proof.
  intros H1 H2 [(X & Hok & HX) Hd]. split.
  - exists X. split; [done|]. intros x. rewrite HX. split; by apply sees_reach.
  - rewrite Hd. split; by apply seesDiagnostics_reach.
Qed.

(** ** Splicing into the block *)

Definition acc_ok (v : Z) (acc : gset Z * list Z) : Prop :=
  acc.1 = list_to_set acc.2 ∧ NoDup acc.2 ∧ ∀ x, x ∈ acc.2 → sees v x.

Lemma splice_ok v acc x :
  v ∈ F → acc_ok v acc → sees v x →
  holds (splice hint acc x) (λ a, acc_ok v a ∧ a.1 = {[x]} ∪ acc.1).
Proof.
  intros Hv (Hs & Hnd & Hin) Hx. unfold splice. case_decide as Hd.
  { simpl. split; [done|]. set_solver. }
  assert (Hnd' : NoDup (acc.2 ++ [x])).
  { apply NoDup_app. split_and!; [done|set_solver|apply NoDup_singleton]. }
  assert (Hin' : ∀ y, y ∈ acc.2 ++ [x] → sees v y) by set_solver.
  case_decide as Hl; simpl.
  - split; [|done]. split_and!; simpl; [|done..]. rewrite Hs, list_to_set_app_L. set_solver.
  - exists v, (acc.2 ++ [x]). rewrite length_app. simpl. split_and!; [done..|lia|done].
Qed.

Lemma spliceAll_ok v acc vs :
  v ∈ F → acc_ok v acc → (∀ x, x ∈ vs → sees v x) →
  holds (spliceAll hint acc vs) (λ a, acc_ok v a ∧ a.1 = list_to_set vs ∪ acc.1).
Proof.
  intros Hv. revert acc. induction vs as [|x vs IH]; intros acc Hacc Hin.
  - simpl. split; [done|set_solver].
  - cbn [spliceAll]. eapply holds_bind; [apply (splice_ok v acc x Hv Hacc); set_solver|].
    intros a [Ha Hs]. eapply holds_mono; [apply IH; [done|set_solver]|].
    intros a' [Ha' Hs']. split; [done|]. rewrite Hs', Hs. set_solver.
Qed.

(** ** Emission of a component *)

Section emit.
Context (t : TarjanScratch) (s : Scanner B) (M : list Z) (v : Z).
Context (Hs : sinv s) (HvF : v ∈ F) (HM : ∀ u, u ∈ M → reach v u ∧ reach u v) (HvM : v ∈ M).
Context (Hkids : ∀ u ch, u ∈ M → ch ∈ children u →
  (ch ∈ M ∧ onStackHas t ch = Ok true) ∨ (ch ∉ M ∧ onStackHas t ch = Ok false ∧ cached s ch)).

Lemma spliceChild_ok base P sp ch u :
  based M base → acc_ok v sp.2 → united M base P sp.2.1 sp.1 → u ∈ M → ch ∈ children u →
  holds (spliceChild hint t (closures s) sp ch)
    (λ sp', acc_ok v sp'.2 ∧ united M base (P ++ [ch]) sp'.2.1 sp'.1).
Proof.
  intros Hbase Hacc Hun Hu Hch. unfold spliceChild.
  assert (Hex : ∃ u, u ∈ M ∧ ch ∈ children u) by by exists u.
  destruct (Hkids u ch Hu Hch) as [[HchM ->]|(HchM & -> & cl & Hcl)]; cbn [mbind res_bind].
  { simpl. split; [done|by apply united_member]. }
  case_decide as Hseen.
  { simpl. split; [done|by apply united_subsumed]. }
  rewrite Hcl. cbn [default from_option id].
  destruct (proj2 Hs _ _ Hcl) as [HchF [(X & Hok & HX) Hdiag]].
  assert (Hsee : ∀ x, sees ch x → sees v x).
  { intros x Hx. eapply sees_reach, Hx. by apply (rtc_r _ u); [apply HM|]. }
  assert (HXw : ∀ x, x ∈ window cl ↔ sees ch x) by (intros x; rewrite <-HX; symmetry; apply Hok).
  eapply (holds_bind _ _ _ (λ a, acc_ok v a ∧ a.1 = X ∪ sp.2.1)).
  { unfold spliceInto. eapply holds_bind.
    { apply (splice_ok v); [done..|]. apply Hsee, HXw. unfold window. set_solver. }
    intros a [Ha Has]. eapply holds_mono.
    { apply (spliceAll_ok v); [done..|]. intros x Hx. apply Hsee, HXw. unfold window. set_solver. }
    intros a' [Ha' Has']. split; [done|]. rewrite Has', Has. apply set_eq. intros x.
    rewrite !elem_of_union, elem_of_list_to_set, elem_of_singleton, (co_elems _ _ _ Hok).
    unfold window. set_solver. }
  intros a [Ha Has]. eapply holds_bind.
  { apply (spliceAll_ok v); [done..|]. intros x Hx. exists u. split; [by apply HM|by eapply own_opaque]. }
  intros a' [Ha' Has']. simpl. split; [done|]. rewrite Has', Has. by apply united_added.
Qed.

Lemma spliceChildren_ok base P sp chs :
  based M base → acc_ok v sp.2 → united M base P sp.2.1 sp.1 →
  (∀ ch, ch ∈ chs → ∃ u, u ∈ M ∧ ch ∈ children u) →
  holds (spliceChildren hint t (closures s) sp chs)
    (λ sp', acc_ok v sp'.2 ∧ united M base (P ++ chs) sp'.2.1 sp'.1).
Proof.
  intros Hbase. revert P sp. induction chs as [|ch chs IH]; intros P sp Hacc Hun Hin.
  - simpl. by rewrite app_nil_r.
  - cbn [spliceChildren]. destruct (Hin ch) as (u & Hu & Hch); [set_solver|].
    eapply holds_bind; [by eapply spliceChild_ok|]. intros sp' [Ha' Hun'].
    replace (P ++ ch :: chs) with ((P ++ [ch]) ++ chs) by by rewrite <-app_assoc.
    apply IH; [done..|set_solver].
Qed.

Lemma emitMembers_ok :
  holds (emitMembers hint t (closures s) M)
    (λ r, acc_ok v r.2 ∧ (∀ x, x ∈ r.2.1 ↔ sees v x) ∧ (r.1 = true ↔ seesDiagnostics v)).
Proof.
  set (ext := M ≫= λ u, some (mainOut u) ++ opaqueInputs u).
  assert (Hbase : based M (ext ++ M)).
  { intros x [Hx|Hx]%elem_of_app; [|exists x; unfold basic; set_solver].
    apply list_elem_of_bind in Hx as (u & Hx & Hu). exists u. unfold basic. set_solver. }
  assert (Hb : ∀ u x, u ∈ M → x ∈ basic u → sees v x).
  { intros u x Hu Hx. exists u. split; [by apply HM|by apply elem_of_app; left]. }
  unfold emitMembers. eapply holds_bind.
  { apply (spliceAll_ok v (∅, [])); [done|split_and!; [done|constructor|set_solver]|].
    intros x Hx. by apply reach_sees, HM. }
  intros a1 [Ha1 Hs1]. eapply holds_bind.
  { apply (spliceAll_ok v a1 ext); [done..|]. intros x Hx.
    destruct (Hbase x) as (u & Hu & Hxu); [set_solver|]. by eapply Hb. }
  intros a2 [Ha2 Hs2]. eapply holds_mono.
  { apply (spliceChildren_ok (ext ++ M) []); [done|done| |].
    - simpl. rewrite Hs2, Hs1. simpl. split.
      + intros x [Hx|Hx]%elem_of_app; set_solver.
      + intros x Hx. left. apply elem_of_app. set_solver.
      + intros d Hd. by apply elem_of_nil in Hd.
      + rewrite existsb_exists. split; [intros (u & Hu%list_elem_of_In & Hd); left; by exists u|].
        intros [(u & Hu%list_elem_of_In & Hd)|(d & Hd & _)]; [by exists u|by apply elem_of_nil in Hd].
      + intros d Hd. by apply elem_of_nil in Hd.
    - intros ch (u & ? & ?)%list_elem_of_bind. by exists u. }
  intros [g a] [Ha Hun]. simpl in *. split; [done|].
  eapply (united_sees Htidy M); [exact Hun|done|done|done|..].
  - intros u ch Hu Hch. apply list_elem_of_bind. by exists u.
  - intros x. split; [by left|]. intros [?|(u & Hu & Hx)]; [done|]. apply (un_base _ _ _ _ _ Hun).
    unfold basic in Hx. apply elem_of_cons in Hx as [->|Hx]; [set_solver|].
    apply elem_of_app. left. apply list_elem_of_bind. by exists u.
Qed.

Lemma foldl_insert_lookup (cl : Closure) (m : gmap Z Closure) us u :
  foldl (λ m u, <[u := cl]> m) m us !! u = if decide (u ∈ us) then Some cl else m !! u.
Proof.
  revert m. induction us as [|w us IH]; intros m; [done|].
  - cbn [foldl]. rewrite IH. destruct (decide (u ∈ us)); [by rewrite decide_True by set_solver|].
    destruct (decide (u = w)) as [->|].
    + rewrite lookup_insert_eq. by rewrite decide_True by set_solver.
    + rewrite lookup_insert_ne by done. by rewrite decide_False by set_solver.
Qed.

Context (Hhead : ∃ τ, M = v :: τ).

Lemma emitClosure_ok :
  holds (emitClosure hint s t M) (λ s', sinv s' ∧ ∀ u, cached s' u ↔ u ∈ M ∨ cached s u).
Proof.
  assert (Hh : ∀ r, emitMembers hint t (closures s) M = Ok r → ∃ rest, r.2.2 = v :: rest).
  { destruct Hhead as [τ ->]. intros r. apply emitMembers_head. }
  unfold emitClosure. eapply holds_bind; [exact (holds_and _ _ _ emitMembers_ok Hh)|].
  intros [g [seen block]] (((Hseen & Hnd & Hin) & Hall & Hg) & rest & Hblock). simpl in *. subst block.
  destruct (storeBuckets_ok F Hstorable (cache s) v rest g) as (c' & cl & -> & Hc' & Hgr & Hok & Hd & Hsf).
  { apply Hs. } { done. } { done. } { intros x. rewrite <-Hall, Hseen. by rewrite elem_of_list_to_set. }
  simpl. assert (Hcl : exact (cells c') cl v).
  { split; [|by rewrite Hd]. exists (list_to_set (v :: rest)). split; [done|]. by rewrite <-Hseen. }
  split; [split; [done|]|].
  - intros u cl'. simpl. rewrite foldl_insert_lookup. case_decide as Hu.
    + intros [= <-]. split; [eapply reach_F; [done|by apply HM]|]. by eapply exact_reach; [apply HM..|].
    + intros [HuF Hex]%(proj2 Hs). split; [done|]. by eapply exact_grows.
  - intros u. unfold cached. simpl. rewrite foldl_insert_lookup. case_decide; naive_solver.
Qed.
End emit.

(** ** The invariant of strongconnect *)

Record tinv (t : TarjanCtx) (s : Scanner B) : Prop := {
  ti_wf : twf (sc t);
  ti_nodup : NoDup (stack t);
  ti_node : ∀ u n, nd (sc t) u = Some n →
    u ∈ F ∧ index n <= next t ∧ onStack n = bool_decide (u ∈ stack t);
  ti_stack : ∀ u, u ∈ stack t → is_Some (nd (sc t) u) ∧ ¬ cached s u;
  ti_done : ∀ u n, nd (sc t) u = Some n → u ∉ stack t → cached s u;
  ti_sinv : sinv s }.

(** [w] is finished, or on the stack at or above [l]. *)
Definition settled (t : TarjanCtx) (s : Scanner B) (l w : Z) : Prop :=
  cached s w ∨ ∃ n, w ∈ stack t ∧ nd (sc t) w = Some n ∧ l <= index n.

(** From [m] one gets to the file of the stack with index [l]. *)
Definition leads (t : TarjanCtx) (m l : Z) : Prop :=
  ∃ x n, x ∈ stack t ∧ nd (sc t) x = Some n ∧ index n = l ∧ reach m x.

(** A visited file [m] above [v] on the stack, that does not head a component. *)
Record above (t : TarjanCtx) (s : Scanner B) (i0 v l m : Z) (n : tarjanNode) : Prop := {
  ab_node : nd (sc t) m = Some n;
  ab_index : i0 < index n;
  ab_low : l <= low n;
  ab_reach : reach v m;
  ab_lower : low n < index n;
  ab_leads : leads t m (low n);
  ab_settled : ∀ w, w ∈ children m → settled t s (low n) w }.

(** What a step leaves alone. *)
Record frame (t : TarjanCtx) (s : Scanner B) (t' : TarjanCtx) (s' : Scanner B) : Prop := {
  fr_node : ∀ u n, nd (sc t) u = Some n → nd (sc t') u = Some n;
  fr_cached : ∀ u, cached s u → cached s' u;
  fr_next : next t <= next t' }.

(** [strongconnect v]: [v] is finished, or on the stack below its component's head. *)
Record connected (t : TarjanCtx) (s : Scanner B) (v : Z) (t' : TarjanCtx) (s' : Scanner B)
    (nv : tarjanNode) (τ : list Z) : Prop := {
  cn_inv : tinv t' s';
  cn_frame : frame t s t' s';
  cn_node : nd (sc t') v = Some nv;
  cn_index : index nv = next t + 1;
  cn_stack : stack t' = stack t ++ τ;
  cn_case : (τ = [] ∧ low nv = index nv ∧ cached s' v) ∨
    (v ∈ τ ∧ low nv < index nv ∧ ∀ m, m ∈ τ → ∃ n, above t' s' (next t) v (low nv) m n) }.

(** The loop over the children of [v], those in [P] done; [l] is what [low v]
    becomes. *)
Record visiting (t0 : TarjanCtx) (s0 : Scanner B) (v : Z) (P : list Z) (t : TarjanCtx)
    (s : Scanner B) (nv : tarjanNode) (τ : list Z) (l : Z) : Prop := {
  vi_inv : tinv t s;
  vi_frame : frame t0 s0 t s;
  vi_next : next t0 + 1 <= next t;
  vi_visit : visitV t = v;
  vi_node : nd (sc t) v = Some nv;
  vi_index : index nv = next t0 + 1;
  vi_stack : stack t = stack t0 ++ v :: τ;
  vi_low : l <= low nv <= index nv;
  vi_leads : leads t v l;
  vi_above : ∀ m, m ∈ τ → ∃ n, above t s (index nv) v l m n;
  vi_settled : ∀ w, w ∈ P → settled t s l w }.

(** Nodes keep their index, the stack grows, files stay finished. *)
Definition extends (t : TarjanCtx) (s : Scanner B) (t' : TarjanCtx) (s' : Scanner B) : Prop :=
  (∀ u n, u ∈ stack t → nd (sc t) u = Some n → ∃ n', nd (sc t') u = Some n' ∧ index n' = index n) ∧
  (∀ u, u ∈ stack t → u ∈ stack t') ∧ (∀ u, cached s u → cached s' u).

Lemma settled_extends t s t' s' l l' w :
  extends t s t' s' → l' <= l → settled t s l w → settled t' s' l' w.
Proof.
  intros (Hn & Hs & Hc) Hl [?|(n & Hw & Hnd & Hi)]; [left; auto|].
  destruct (Hn _ _ Hw Hnd) as (n' & ? & ?). right. exists n'. split_and!; [auto|done|lia].
Qed.

Lemma leads_extends t s t' s' m l : extends t s t' s' → leads t m l → leads t' m l.
Proof.
  intros (Hn & Hs & _) (x & n & Hx & Hnd & Hi & Hr). destruct (Hn _ _ Hx Hnd) as (n' & ? & ?).
  exists x, n'. split_and!; [auto|done|lia|done].
Qed.

Lemma above_extends t s t' s' i0 i0' v v' l l' m n :
  extends t s t' s' → nd (sc t') m = Some n → l' <= l → i0' <= i0 → reach v' v →
  above t s i0 v l m n → above t' s' i0' v' l' m n.
Proof.
  intros He Hn Hl Hi Hr [Hm Hidx Hlow Hreach Hlt Hleads Hset]. split; [done|lia|lia|by etrans|done|..].
  - by eapply leads_extends.
  - intros w Hw. by eapply settled_extends, Hset.
Qed.

Lemma frame_extends t s t' s' τ : frame t s t' s' → stack t' = stack t ++ τ → extends t s t' s'.
Proof.
  intros [Hn Hc _] Hs. split_and!; [|rewrite Hs; set_solver|done]. intros u n _ Hu. exists n. auto.
Qed.

Lemma visited_below t0 s0 v P t s nv τ l u n :
  visiting t0 s0 v P t s nv τ l → nd (sc t) u = Some n → u ∈ stack t →
  index n < index nv → u ∈ stack t0.
Proof.
  intros HV Hu Hin Hlt. rewrite (vi_stack _ _ _ _ _ _ _ _ _ HV) in Hin.
  apply elem_of_app in Hin as [?|[->|Hin]%elem_of_cons]; [done|..].
  - rewrite (vi_node _ _ _ _ _ _ _ _ _ HV) in Hu. simplify_eq. lia.
  - destruct (vi_above _ _ _ _ _ _ _ _ _ HV u Hin) as [n' Ha]. rewrite (ab_node _ _ _ _ _ _ _ Ha) in Hu.
    simplify_eq. pose proof (ab_index _ _ _ _ _ _ _ Ha). lia.
Qed.

(** Lowering [low v] to a value found. *)
Lemma lower_ok t0 s0 v P t s nv τ x :
  nd (sc t0) v = None → visiting t0 s0 v P t s nv τ (Z.min x (low nv)) →
  ∃ t' nv', (lv ← lowOf (sc t) v;
             if x <? lv then sc' ← setLow (sc t) v x; Ok (with_sc t sc', s) else Ok (t, s)) = Ok (t', s) ∧
    visiting t0 s0 v P t' s nv' τ (low nv') ∧ dom (slots (sc t')) = dom (slots (sc t)).
Proof.
  intros Hv0 HV. pose proof (vi_node _ _ _ _ _ _ _ _ _ HV) as Hnv. rewrite (lowOf_nd _ _ _ Hnv).
  cbn [mbind res_bind]. destruct (Z.ltb_spec x (low nv)) as [Hlt|Hge]; [|rewrite Z.min_r in HV by lia; eauto].
  rewrite Z.min_l in HV by lia. pose proof (vi_inv _ _ _ _ _ _ _ _ _ HV) as [Hwf Hnd Hnode Hst Hdone Hsi].
  destruct (setLow_nd (sc t) v nv x Hwf Hnv) as (sc' & -> & Hwf' & Hnv' & Hne & Hsl). cbn [mbind res_bind].
  exists (with_sc t sc'), (mkNode (index nv) x (onStack nv)). split; [done|].
  assert (Hkeep : ∀ u n, nd sc' u = Some n → ∃ n0, nd (sc t) u = Some n0 ∧ index n = index n0 ∧ onStack n = onStack n0).
  { intros u n Hu. destruct (decide (u = v)) as [->|]; [|rewrite Hne in Hu by done; eauto].
    rewrite Hnv' in Hu. simplify_eq. by exists nv. }
  assert (Hex : extends t s (with_sc t sc') s).
  { split_and!; [|done..]. intros u n _ Hu. simpl. destruct (decide (u = v)) as [->|]; [|rewrite Hne by done; eauto].
    rewrite Hnv in Hu. simplify_eq. eauto. }
  split; [|simpl; by rewrite Hsl].
  destruct HV as [_ Hfr Hnx Hvis _ Hix Hstk Hlow Hleads Habove Hset]. simpl in *. split; simpl; try done.
  - split; simpl; try done.
    + intros u n (n0 & Hn0 & -> & ->)%Hkeep. by apply Hnode.
    + intros u [[n Hu] Hc]%Hst. split; [|done]. destruct (decide (u = v)) as [->|]; [by eexists|rewrite Hne by done; eauto].
    + intros u n (n0 & Hn0 & _)%Hkeep. by eapply Hdone.
  - destruct Hfr as [Hf1 Hf2 Hf3]. split; [|done..]. simpl. intros u n Hu. rewrite Hne; [auto|]. congruence.
  - lia.
  - by eapply leads_extends.
  - intros m Hm. destruct (Habove m Hm) as [n Ha]. exists n. eapply above_extends; try done; try lia.
    simpl. rewrite Hne; [apply Ha|]. intros ->. pose proof (ab_node _ _ _ _ _ _ _ Ha). pose proof (ab_index _ _ _ _ _ _ _ Ha). simplify_eq. lia.
  - intros w Hw. eapply settled_extends; [done| |by apply Hset]. lia.
Qed.

Lemma extends_refl t s : extends t s t s.
Proof. split_and!; eauto. Qed.

Lemma visiting_snoc t0 s0 v P t s nv τ l w :
  visiting t0 s0 v P t s nv τ l → settled t s l w → visiting t0 s0 v (P ++ [w]) t s nv τ l.
Proof.
  intros [] Hw. split; try done. intros u [?| ->%list_elem_of_singleton]%elem_of_app; auto.
Qed.

Lemma visiting_hit t0 s0 v P t s nv τ l h :
  visiting t0 s0 v P t s nv τ l →
  visiting t0 s0 v P (mkCtx (sc t) (stack t) (next t) (visitV t) h) s nv τ l.
Proof.
  intros [[] [] ? ? ? ? ? ? ? Hab ?]. split; try done; [split; done..|].
  intros m Hm. destruct (Hab m Hm) as [n []]. exists n. by split.
Qed.

(** After the visit of a new child. *)
Lemma visiting_connected t0 s0 v P t s nv τ w t1 s1 nw τw :
  visiting t0 s0 v P t s nv τ (low nv) → w ∈ children v → connected t s w t1 s1 nw τw →
  visiting t0 s0 v (P ++ [w]) (with_visit t1 v) s1 nv (τ ++ τw) (Z.min (low nw) (low nv)).
Proof.
  intros HV Hw HC. pose proof (vi_inv _ _ _ _ _ _ _ _ _ HV) as Hti.
  pose proof (cn_frame _ _ _ _ _ _ _ HC) as Hfr. pose proof (cn_stack _ _ _ _ _ _ _ HC) as Hstk.
  pose proof (cn_index _ _ _ _ _ _ _ HC) as Hiw. pose proof (cn_node _ _ _ _ _ _ _ HC) as Hnw.
  assert (Hex : extends t s (with_visit t1 v) s1) by exact (frame_extends _ _ _ _ _ Hfr Hstk).
  destruct HV as [_ Hf0 Hnx Hvis Hnv Hix Hst Hlow Hleads Hab Hset].
  assert (Hvw : reach v w) by by apply rtc_once.
  destruct (ti_node _ _ Hti _ _ Hnv) as (_ & Hivn & _).
  assert (Hmin : Z.min (low nw) (low nv) <= low nv) by lia.
  apply visiting_snoc.
  - split; simpl; try done.
    + by destruct (cn_inv _ _ _ _ _ _ _ HC); split.
    + destruct Hf0, Hfr. split; simpl; auto; lia.
    + pose proof (fr_next _ _ _ _ Hfr). lia.
    + by apply Hfr.
    + by rewrite Hstk, Hst, <-app_assoc.
    + lia.
    + destruct (cn_case _ _ _ _ _ _ _ HC) as [(_ & Hl & _)|(Hin & Hl & Hall)].
      * rewrite Z.min_r by lia. by eapply leads_extends.
      * destruct (Z.min_spec (low nw) (low nv)) as [[_ ->]|[_ ->]]; [|by eapply leads_extends].
        destruct (Hall w Hin) as [n Ha]. pose proof (ab_node _ _ _ _ _ _ _ Ha). simplify_eq.
        destruct (ab_leads _ _ _ _ _ _ _ Ha) as (x & nx & ? & ? & ? & ?).
        exists x, nx. split_and!; try done. by etrans.
    + intros m [Hm|Hm]%elem_of_app.
      * destruct (Hab m Hm) as [n Ha]. exists n.
        eapply above_extends; [exact Hex|apply Hfr, Ha|exact Hmin|..|exact Ha]; [lia|done].
      * destruct (cn_case _ _ _ _ _ _ _ HC) as [(-> & _)|(_ & _ & Hall)]; [by apply elem_of_nil in Hm|].
        destruct (Hall m Hm) as [n Ha]. exists n.
        assert (Ha' : above (with_visit t1 v) s1 (next t) w (low nw) m n) by (destruct Ha; by split).
        eapply above_extends; [apply extends_refl|apply Ha'|..|exact Ha']; [lia|lia|done].
    + intros u Hu. eapply settled_extends; [done| |by apply Hset]. lia.
  - destruct (cn_case _ _ _ _ _ _ _ HC) as [(_ & _ & ?)|(Hin & Hl & Hall)]; [by left|].
    right. exists nw. simpl. split_and!; [rewrite Hstk; set_solver|done|lia].
Qed.

Definition unseen (t : TarjanScratch) : nat := size (F ∖ dom (slots t)).

Lemma frame_dom t s t' s' : twf (sc t) → twf (sc t') → frame t s t' s' → dom (slots (sc t)) ⊆ dom (slots (sc t')).
Proof.
  intros Hw Hw' Hf u Hu. apply (nd_is_Some _ _ Hw) in Hu as [n Hn]. apply (nd_is_Some _ _ Hw').
  exists n. by apply Hf.
Qed.

Section step.
Context (rec : TarjanCtx * Scanner B → Z → res (TarjanCtx * Scanner B)) (fuel : nat).
Context (Hrec : ∀ t s w, tinv t s → w ∈ F → nd (sc t) w = None → ¬ cached s w →
  (unseen (sc t) <= fuel)%nat → holds (rec (t, s) w) (λ ts, ∃ nw τ, connected t s w ts.1 ts.2 nw τ)).

Lemma visitChild_ok t0 s0 v P t s nv τ w :
  v ∈ F → nd (sc t0) v = None → visiting t0 s0 v P t s nv τ (low nv) → w ∈ children v →
  (unseen (sc t) <= fuel)%nat →
  holds (visitChild rec (t, s) w) (λ ts, ∃ nv' τ',
    visiting t0 s0 v (P ++ [w]) ts.1 ts.2 nv' τ' (low nv') ∧ (unseen (sc ts.1) <= fuel)%nat).
Proof.
  intros HvF Hv0 HV Hw Hfuel. pose proof (vi_inv _ _ _ _ _ _ _ _ _ HV) as Hti. unfold visitChild.
  destruct (closures s !! w) as [cl|] eqn:Hcl.
  { simpl. exists nv, τ. split; [|done]. apply visiting_hit, visiting_snoc; [done|]. left. by exists cl. }
  rewrite (visited_nd _ _ (ti_wf _ _ Hti)), (vi_visit _ _ _ _ _ _ _ _ _ HV).
  assert (Hnc : ¬ cached s w) by (intros [? E]; by rewrite Hcl in E).
  destruct (nd (sc t) w) as [nw|] eqn:Hnw.
  - rewrite bool_decide_true by done. cbn [negb]. rewrite (indexOf_nd _ _ _ Hnw). cbn [mbind res_bind].
    assert (Hin : w ∈ stack t).
    { destruct (decide (w ∈ stack t)); [done|]. by destruct Hnc; eapply ti_done. }
    destruct (lower_ok t0 s0 v (P ++ [w]) t s nv τ (index nw)) as (t' & nv' & -> & HV' & Hdom); [done| |].
    { apply visiting_snoc; [|right; exists nw; split_and!; [done..|lia]].
      destruct HV as [? ? ? ? ? ? ? Hlow Hleads Hab Hset]. split; try done; [lia|..].
      - destruct (Z.min_spec (index nw) (low nv)) as [[_ ->]|[_ ->]]; [|done].
        exists w, nw. split_and!; [done..|]. by apply rtc_once.
      - intros m Hm. destruct (Hab m Hm) as [n Ha]. exists n.
        eapply above_extends; [apply extends_refl|apply Ha|..|exact Ha]; [lia|lia|done].
      - intros u Hu. eapply settled_extends; [apply extends_refl| |by apply Hset]. lia. }
    simpl. exists nv', τ. split; [done|]. unfold unseen in *. by rewrite Hdom.
  - rewrite bool_decide_false by by intros [? ?]. cbn [negb].
    eapply holds_bind; [apply Hrec; try done; by eapply Hchildren|].
    intros [t1 s1] (nw & τw & HC). simpl in HC.
    pose proof (visiting_connected _ _ _ _ _ _ _ _ _ _ _ _ _ HV Hw HC) as HV1.
    change (sc t1) with (sc (with_visit t1 v)) in *.
    pose proof (cn_node _ _ _ _ _ _ _ HC) as Hnw1. cbv zeta. rewrite (lowOf_nd (sc (with_visit t1 v)) w nw Hnw1).
    cbn [mbind res_bind].
    destruct (lower_ok _ _ _ _ _ _ _ _ _ Hv0 HV1) as (t' & nv' & -> & HV' & Hdom).
    simpl. exists nv', (τ ++ τw). split; [done|]. unfold unseen in *. rewrite Hdom.
    etrans; [|exact Hfuel]. apply subseteq_size.
    pose proof (frame_dom _ _ _ _ (ti_wf _ _ Hti) (ti_wf _ _ (cn_inv _ _ _ _ _ _ _ HC)) (cn_frame _ _ _ _ _ _ _ HC)).
    simpl. set_solver.
Qed.

Lemma visitChildren_ok t0 s0 v P ws t s nv τ :
  v ∈ F → nd (sc t0) v = None → visiting t0 s0 v P t s nv τ (low nv) →
  (∀ w, w ∈ ws → w ∈ children v) → (unseen (sc t) <= fuel)%nat →
  holds (visitChildren rec (t, s) ws) (λ ts, ∃ nv' τ',
    visiting t0 s0 v (P ++ ws) ts.1 ts.2 nv' τ' (low nv')).
Proof.
  intros HvF Hv0. revert P t s nv τ. induction ws as [|w ws IH]; intros P t s nv τ HV Hws Hfuel.
  - simpl. rewrite app_nil_r. eauto.
  - cbn [visitChildren]. eapply holds_bind; [eapply visitChild_ok; try done; set_solver|].
    intros [t1 s1] (nv' & τ' & HV' & Hf'). simpl in *.
    replace (P ++ w :: ws) with ((P ++ [w]) ++ ws) by by rewrite <-app_assoc.
    eapply IH; [done|set_solver|done].
Qed.
End step.

(** ** A component is finished *)

Section finish.
Context (t0 : TarjanCtx) (s0 : Scanner B) (v : Z) (t : TarjanCtx) (s : Scanner B)
  (nv : tarjanNode) (τ : list Z).
Context (Hti0 : tinv t0 s0) (HvF : v ∈ F) (Hv0 : nd (sc t0) v = None)
  (HV : visiting t0 s0 v (children v) t s nv τ (low nv)).

Lemma finish_not : low nv ≠ index nv → connected t0 s0 v t s nv (v :: τ).
Proof.
  intros Hne. destruct HV as [Hti Hfr Hnx Hvis Hnv Hix Hst Hlow Hleads Hab Hset].
  split; try done. right. split_and!; [set_solver|lia|].
  intros m [->|Hm]%elem_of_cons.
  - exists nv. split; try done; lia.
  - destruct (Hab m Hm) as [n Ha]. exists n.
    eapply above_extends; [apply extends_refl|apply Ha|..|exact Ha]; [lia|lia|done].
Qed.

Context (Hroot : low nv = index nv).

Lemma below_index u n : u ∈ stack t0 → nd (sc t) u = Some n → index n < index nv.
Proof.
  intros Hu Hn. destruct (ti_stack _ _ Hti0 u Hu) as [[n0 Hn0] _].
  pose proof (fr_node _ _ _ _ (vi_frame _ _ _ _ _ _ _ _ _ HV) _ _ Hn0). simplify_eq.
  destruct (ti_node _ _ Hti0 _ _ Hn0) as (_ & ? & _). rewrite (vi_index _ _ _ _ _ _ _ _ _ HV). lia.
Qed.

(** Every file of the component leads back to its head. *)
Lemma component_back m : m ∈ τ → reach m v.
Proof.
  intros Hm. destruct (vi_above _ _ _ _ _ _ _ _ _ HV m Hm) as [n Ha].
  remember (Z.to_nat (index n - index nv)) as k eqn:Hk. revert m n Hm Ha Hk.
  induction (lt_wf k) as [k _ IH]; intros m n Hm Ha Hk.
  destruct (ab_leads _ _ _ _ _ _ _ Ha) as (x & nx & Hx & Hnx & Hi & Hr).
  pose proof (ab_low _ _ _ _ _ _ _ Ha) as Hl. pose proof (ab_lower _ _ _ _ _ _ _ Ha) as Hlt.
  rewrite (vi_stack _ _ _ _ _ _ _ _ _ HV) in Hx.
  apply elem_of_app in Hx as [Hx|[->|Hx]%elem_of_cons]; [|done|].
  - pose proof (below_index _ _ Hx Hnx). lia.
  - etrans; [exact Hr|]. destruct (vi_above _ _ _ _ _ _ _ _ _ HV x Hx) as [n' Ha'].
    pose proof (ab_node _ _ _ _ _ _ _ Ha') as E. rewrite Hnx in E. injection E as <-.
    eapply (IH (Z.to_nat (index nx - index nv))); [|exact Hx|exact Ha'|done].
    pose proof (ab_index _ _ _ _ _ _ _ Ha). pose proof (ab_index _ _ _ _ _ _ _ Ha'). lia.
Qed.

Lemma component_mutual u : u ∈ v :: τ → reach v u ∧ reach u v.
Proof.
  intros [->|Hu]%elem_of_cons; [done|]. split; [|by apply component_back].
  destruct (vi_above _ _ _ _ _ _ _ _ _ HV u Hu) as [n Ha]. apply Ha.
Qed.

(** The files its files include are in it, or finished. *)
Lemma component_settled u ch : u ∈ v :: τ → ch ∈ children u → cached s ch ∨ ch ∈ v :: τ.
Proof.
  intros Hu Hch. assert (settled t s (index nv) ch) as [?|(n & Hin & Hn & Hi)].
  { apply elem_of_cons in Hu as [->|Hu].
    - rewrite <-Hroot. by apply (vi_settled _ _ _ _ _ _ _ _ _ HV).
    - destruct (vi_above _ _ _ _ _ _ _ _ _ HV u Hu) as [n Ha].
      eapply settled_extends; [apply extends_refl| |by apply (ab_settled _ _ _ _ _ _ _ Ha)].
      pose proof (ab_low _ _ _ _ _ _ _ Ha). lia. }
  { by left. }
  right. rewrite (vi_stack _ _ _ _ _ _ _ _ _ HV) in Hin. apply elem_of_app in Hin as [Hin|?]; [|done].
  pose proof (below_index _ _ Hin Hn). lia.
Qed.

Lemma component_fresh u : u ∈ v :: τ → nd (sc t0) u = None.
Proof.
  intros [->|Hu]%elem_of_cons; [done|]. destruct (nd (sc t0) u) as [n|] eqn:Hn; [|done].
  destruct (vi_above _ _ _ _ _ _ _ _ _ HV u Hu) as [n' Ha].
  pose proof (fr_node _ _ _ _ (vi_frame _ _ _ _ _ _ _ _ _ HV) _ _ Hn) as Hn'.
  rewrite (ab_node _ _ _ _ _ _ _ Ha) in Hn'. simplify_eq.
  destruct (ti_node _ _ Hti0 _ _ Hn) as (_ & ? & _).
  pose proof (ab_index _ _ _ _ _ _ _ Ha). pose proof (vi_index _ _ _ _ _ _ _ _ _ HV). lia.
Qed.

Lemma component_emit :
  holds (emitClosure hint s (sc t) (v :: τ)) (λ s', sinv s' ∧ ∀ u, cached s' u ↔ u ∈ v :: τ ∨ cached s u).
Proof.
  pose proof (vi_inv _ _ _ _ _ _ _ _ _ HV) as Hti.
  apply (emitClosure_ok (sc t) s (v :: τ) v); [apply Hti|done|apply component_mutual|set_solver| |by eexists].
  intros u ch Hu Hch. rewrite (onStackHas_nd _ _ (ti_wf _ _ Hti)).
  destruct (decide (ch ∈ v :: τ)) as [Hin|Hout].
  - left. split; [done|]. assert (Hst : ch ∈ stack t) by (rewrite (vi_stack _ _ _ _ _ _ _ _ _ HV); set_solver).
    destruct (ti_stack _ _ Hti ch Hst) as [[n Hn] _]. rewrite Hn.
    destruct (ti_node _ _ Hti _ _ Hn) as (_ & _ & ->). by rewrite bool_decide_true.
  - right. destruct (component_settled u ch Hu Hch) as [Hc|?]; [|done]. split_and!; [done| |done].
    destruct (nd (sc t) ch) as [n|] eqn:Hn; [|done]. destruct (ti_node _ _ Hti _ _ Hn) as (_ & _ & ->).
    rewrite bool_decide_false; [done|]. intros Hst. by destruct (ti_stack _ _ Hti ch Hst).
Qed.

Lemma finish_ok :
  holds (leave hint t s v) (λ ts, ∃ nv' τ', connected t0 s0 v ts.1 ts.2 nv' τ').
Proof.
  pose proof (vi_inv _ _ _ _ _ _ _ _ _ HV) as Hti. pose proof (vi_node _ _ _ _ _ _ _ _ _ HV) as Hnv.
  pose proof (vi_stack _ _ _ _ _ _ _ _ _ HV) as Hst.
  unfold leave. rewrite (lowOf_nd _ _ _ Hnv), (indexOf_nd _ _ _ Hnv). cbn [mbind res_bind].
  rewrite Hroot, Z.eqb_refl. cbn [negb]. rewrite (vi_visit _ _ _ _ _ _ _ _ _ HV), Hst.
  pose proof (ti_nodup _ _ Hti) as Hnd. rewrite Hst in Hnd. apply NoDup_app in Hnd as (Hnd0 & Hdis & Hndv).
  pose proof Hndv as [Hvτ _]%NoDup_cons.
  rewrite sccStart_app by done. rewrite drop_app_length, take_app_length.
  eapply holds_bind; [apply component_emit|]. intros s' [Hs' Hcached].
  destruct (setAllOff_nd (sc t) (v :: τ)) as (sc' & -> & Hwf' & Hsl & Hout & Hoff).
  { apply Hti. } { done. } { intros u Hu. apply (ti_stack _ _ Hti). rewrite Hst. set_solver. }
  simpl. exists (mkNode (index nv) (low nv) false), [].
  assert (Hmem : ∀ u, u ∈ stack t ↔ u ∈ stack t0 ∨ u ∈ v :: τ) by (intros u; rewrite Hst; set_solver).
  split; simpl.
  - split; simpl; try done.
    + intros u n Hn. destruct (decide (u ∈ v :: τ)) as [Hu|Hu].
      * destruct (ti_stack _ _ Hti u) as [[n0 Hn0] _]; [by apply Hmem; right|].
        rewrite (Hoff _ _ Hu Hn0) in Hn. simplify_eq. simpl.
        destruct (ti_node _ _ Hti _ _ Hn0) as (? & ? & _). split_and!; [done..|].
        symmetry. apply bool_decide_false. intros ?. by eapply Hdis.
      * rewrite Hout in Hn by done. destruct (ti_node _ _ Hti _ _ Hn) as (? & ? & ->). split_and!; [done..|].
        apply bool_decide_ext. rewrite Hmem. tauto.
    + intros u Hu. destruct (ti_stack _ _ Hti u) as [[n0 Hn0] Hc]; [by apply Hmem; left|].
      rewrite Hout by (intros ?; by eapply Hdis). split; [by exists n0|].
      rewrite Hcached. intros [?|?]; [by eapply Hdis|done].
    + intros u n Hn Hu. apply Hcached. destruct (decide (u ∈ v :: τ)) as [?|Hv]; [by left|right].
      rewrite Hout in Hn by done. eapply ti_done; [done..|]. rewrite Hmem. tauto.
  - destruct (vi_frame _ _ _ _ _ _ _ _ _ HV) as [Hf1 Hf2 Hf3]. split; simpl.
    + intros u n Hn. rewrite Hout; [auto|]. intros Hu%component_fresh. congruence.
    + intros u Hu. apply Hcached. auto.
    + done.
  - apply Hoff; [set_solver|done].
  - apply HV.
  - by rewrite app_nil_r.
  - left. split_and!; [done..|]. apply Hcached. left. set_solver.
Qed.
End finish.

Lemma enter_ok t s v :
  tinv t s → v ∈ F → nd (sc t) v = None → ¬ cached s v →
  visiting t s v [] (enter t v) s (mkNode (next t + 1) (next t + 1) true) [] (next t + 1) ∧
  (unseen (sc (enter t v)) < unseen (sc t))%nat.
Proof.
  intros Hti HvF Hv Hnc. destruct (nd_discover (sc t) v (next t + 1) (ti_wf _ _ Hti) Hv) as (Hw & Hnv & Hne).
  assert (Hvst : v ∉ stack t).
  { intros Hin. destruct (ti_stack _ _ Hti v Hin) as [[? E] _]. congruence. }
  assert (Hi : tinv (enter t v) s).
  { split; simpl; [done| |..|apply Hti].
    - apply NoDup_app. split_and!; [apply Hti|set_solver|apply NoDup_singleton].
    - intros u n Hn. destruct (decide (u = v)) as [->|Huv].
      + rewrite Hnv in Hn. simplify_eq. simpl. split_and!; [done|lia|]. symmetry. apply bool_decide_true. set_solver.
      + rewrite Hne in Hn by done. destruct (ti_node _ _ Hti _ _ Hn) as (? & ? & ->). split_and!; [done|lia|].
        apply bool_decide_ext. set_solver.
    - intros u [Hu| ->%list_elem_of_singleton]%elem_of_app; [|rewrite Hnv; done].
      destruct (ti_stack _ _ Hti u Hu). by rewrite Hne by (intros ->; done).
    - intros u n Hn Hu. assert (u ≠ v) by set_solver. rewrite Hne in Hn by done.
      eapply ti_done; [done..|set_solver]. }
  split.
  - split; simpl; try done; try lia.
    + split; simpl; [|done|lia]. intros u n Hn. rewrite Hne; [done|congruence].
    + exists v, (mkNode (next t + 1) (next t + 1) true). simpl. split_and!; [set_solver|done..].
    + intros m Hm. by apply elem_of_nil in Hm.
    + intros w Hm. by apply elem_of_nil in Hm.
  - unfold unseen. simpl. apply subset_size. rewrite dom_insert_L.
    assert (v ∉ dom (slots (sc t))).
    { rewrite <-(nd_is_Some _ _ (ti_wf _ _ Hti)). rewrite Hv. by intros [? ?]. }
    split; [set_solver|]. intros Hsub. specialize (Hsub v). set_solver.
Qed.

Lemma strongconnect_ok fuel t s v :
  tinv t s → v ∈ F → nd (sc t) v = None → ¬ cached s v → (unseen (sc t) <= fuel)%nat →
  holds (strongconnect hint fuel (t, s) v) (λ ts, ∃ nv τ, connected t s v ts.1 ts.2 nv τ).
Proof.
  revert t s v. induction fuel as [|fuel IH]; intros t s v Hti HvF Hv Hnc Hfuel.
  - destruct (enter_ok t s v); [done..|]. lia.
  - destruct (enter_ok t s v) as [HV Hun]; [done..|]. cbn [strongconnect fst snd].
    eapply holds_bind.
    { eapply (visitChildren_ok (strongconnect hint fuel) fuel); [exact IH|done|done|exact HV|done|lia]. }
    intros [t1 s1] (nv & τ & HV1). simpl in HV1.
    destruct (decide (low nv = index nv)) as [Hroot|Hne]; [by eapply finish_ok|].
    unfold leave. pose proof (vi_node _ _ _ _ _ _ _ _ _ HV1) as Hnv.
    rewrite (lowOf_nd _ _ _ Hnv), (indexOf_nd _ _ _ Hnv). cbn [mbind res_bind].
    destruct (Z.eqb_spec (low nv) (index nv)) as [?|_]; [done|]. simpl.
    exists nv, (v :: τ). by apply finish_not.
Qed.

Lemma runSCC_ok fuel s root :
  sinv s → root ∈ F → ¬ cached s root → (size F <= fuel)%nat →
  holds (runSCC hint fuel s root) (λ s', sinv s' ∧ cached s' root ∧ ∀ u, cached s u → cached s' u).
Proof.
  intros Hs HF Hnc Hfuel. unfold runSCC.
  assert (Hnil : ∀ (x : Z), x ∉ ([] : list Z)) by (intros ?; apply not_elem_of_nil).
  eapply holds_bind.
  { apply strongconnect_ok; [|done|done|done|].
    - split; simpl; [by split|constructor|done|intros u Hu; by destruct (Hnil u)|done|done].
    - unfold unseen. simpl. etrans; [|exact Hfuel]. apply subseteq_size. set_solver. }
  intros [t' s'] (nv & τ & HC). simpl in *.
  split_and!; [apply (cn_inv _ _ _ _ _ _ _ HC)| |apply (cn_frame _ _ _ _ _ _ _ HC)].
  destruct (cn_case _ _ _ _ _ _ _ HC) as [(_ & _ & ?)|(Hin & Hlt & Hall)]; [done|].
  destruct (Hall root Hin) as [n Ha]. destruct (ab_leads _ _ _ _ _ _ _ Ha) as (x & nx & Hx & Hnx & Hi & _).
  rewrite (cn_stack _ _ _ _ _ _ _ HC) in Hx. simpl in Hx. destruct (Hall x Hx) as [n' Ha'].
  pose proof (ab_node _ _ _ _ _ _ _ Ha). pose proof (ab_node _ _ _ _ _ _ _ Ha').
  pose proof (cn_node _ _ _ _ _ _ _ HC). pose proof (cn_index _ _ _ _ _ _ _ HC).
  pose proof (ab_index _ _ _ _ _ _ _ Ha'). simplify_eq. simpl in *. lia.
Qed.

(** ** The depth-first search *)

Lemma uniteChildren_ok s abs base P c seen diag chs :
  sinv s → cells c = cells (cache s) → based [abs] base → busy c abs seen →
  united [abs] base P seen diag → (∀ ch, ch ∈ chs → ch ∈ children abs) →
  (∀ ch, ch ∈ chs → ch ≠ abs → cached s ch) →
  ∃ c' seen' diag', uniteChildren abs (closures s) c seen diag chs = Ok (c', seen', diag') ∧
    cells c' = cells c ∧ busy c' abs seen' ∧ united [abs] base (P ++ chs) seen' diag'.
Proof.
  intros Hs Hc Hbase. revert P c seen diag Hc.
  induction chs as [|ch chs IH]; intros P c seen diag Hc Hb Hun Hch Hca.
  { exists c, seen, diag. rewrite app_nil_r. by split_and!. }
  assert (Hex : ∃ u, u ∈ [abs] ∧ ch ∈ children u) by (exists abs; set_solver).
  replace (P ++ ch :: chs) with ((P ++ [ch]) ++ chs) by by rewrite <-app_assoc.
  cbn [uniteChildren]. destruct (decide (ch = abs)) as [->|Hne].
  { apply IH; [done|done|apply (united_member Htidy); [set_solver|exact Hex|exact Hun]|set_solver|set_solver]. }
  assert (HchM : ch ∉ [abs]) by set_solver.
  destruct (decide (ch ∈ seen)) as [Hseen|Hseen].
  { apply IH; [done|done|by apply united_subsumed|set_solver|set_solver]. }
  destruct (Hca ch) as [cl Hcl]; [set_solver|done|]. rewrite Hcl. cbn [default from_option id].
  destruct (proj2 Hs _ _ Hcl) as [_ [(X & Hok & HX) Hdiag]].
  destruct (spliceOne_ok c abs seen (self cl) Hb) as (c1 & -> & Hb1 & Hc1).
  destruct (spliceBuckets_ok c1 abs _ (buckets cl) Hb1) as (c2 & -> & Hb2 & Hc2);
    [apply Hok|rewrite Hc1, Hc; apply Hok|]. cbn [mbind res_bind].
  destruct (spliceOnes_ok c2 abs _ (some (opaqueMainOut ch)) Hb2) as (c3 & -> & Hb3 & Hc3).
  replace (list_to_set (concat (elems <$> buckets cl)) ∪ ({[self cl]} ∪ seen)) with (X ∪ seen) in *.
  2:{ apply set_eq. intros x. rewrite !elem_of_union, elem_of_list_to_set, elem_of_singleton, (co_elems _ _ _ Hok).
      unfold window. set_solver. }
  destruct (IH (P ++ [ch]) c3 (list_to_set (some (opaqueMainOut ch)) ∪ (X ∪ seen)) (diag || hasDiagnostics cl)) as (c' & seen' & diag' & -> & ? & ? & ?).
  - congruence.
  - exact Hb3.
  - by apply united_added.
  - set_solver.
  - set_solver.
  - exists c', seen', diag'. split_and!; [done|congruence|done..].
Qed.

Lemma unite_ok s abs :
  sinv s → abs ∈ F → (∀ ch, ch ∈ children abs → ch ≠ abs → cached s ch) →
  ∃ s', unite s abs = Ok s' ∧ sinv s' ∧ cached s' abs ∧ ∀ u, cached s u → cached s' u.
Proof.
  intros Hs HF Hca. unfold unite.
  destruct (resetScratch_ok (cache s) abs (proj1 Hs)) as [Hb0 Hc0].
  destruct (spliceOnes_ok _ abs _ (opaqueInputs abs) Hb0) as (c1 & -> & Hb1 & Hc1).
  assert (Hbase : based [abs] (opaqueInputs abs ++ [abs])).
  { intros x Hx. exists abs. unfold basic. set_solver. }
  destruct (uniteChildren_ok s abs (opaqueInputs abs ++ [abs]) [] c1
              (list_to_set (opaqueInputs abs) ∪ {[abs]}) (hasOwnDiagnostics abs) (children abs))
    as (c2 & seen & diag & -> & Hc2 & Hb2 & Hun); [done|congruence|done|done| |done|done|].
  { split; try set_solver. }
  cbn [mbind res_bind].
  destruct (spliceOnes_ok c2 abs seen (some (mainOut abs)) Hb2) as (c3 & -> & (Hok3 & Hs3 & _) & Hc3).
  destruct (united_sees Htidy [abs] _ _ _ _ (list_to_set (some (mainOut abs)) ∪ seen) abs Hun) as [Hsees Hdiag].
  { done. } { set_solver. }
  { intros u ->%list_elem_of_singleton. done. }
  { intros u ch ->%list_elem_of_singleton. done. }
  { intros x. pose proof (un_base _ _ _ _ _ Hun x) as Hbx. split.
    - intros [Hx|Hx]%elem_of_union; [right|by left]. exists abs. unfold basic. set_solver.
    - intros [Hx|(u & ->%list_elem_of_singleton & Hx)]; [set_solver|]. unfold basic in Hx. set_solver. }
  destruct (storeScratch_ok F Hstorable c3 abs _ diag Hok3 Hs3) as (c4 & cl & -> & Hok4 & Hg & Hcl & Hd & Hsf);
    [done..|].
  cbn [mbind res_bind]. eexists. split; [done|].
  assert (Hgs : grows (cells (cache s)) (cells c4)) by by rewrite <-Hc0, <-Hc1, <-Hc2, <-Hc3.
  split; [split; [done|]|split].
  - intros u cl'. simpl. destruct (decide (u = abs)) as [->|].
    + rewrite lookup_insert_eq. intros [= <-]. split; [done|]. split; [by eexists|by rewrite Hd].
    + rewrite lookup_insert_ne by done. intros [? ?]%(proj2 Hs). split; [done|by eapply exact_grows].
  - unfold cached. simpl. by rewrite lookup_insert_eq.
  - intros u Hu. unfold cached in *. simpl. destruct (decide (u = abs)) as [->|];
      [by rewrite lookup_insert_eq|by rewrite lookup_insert_ne].
Qed.

Definition dfs_post (s : Scanner B) (abs : Z) (s' : Scanner B) : Prop :=
  sinv s' ∧ cached s' abs ∧ ∀ u, cached s u → cached s' u.

Lemma ensureAll_ok rec abs s chs :
  (∀ s ch, sinv s → ch ∈ F → ¬ cached s ch → holds (rec s ch) (dfs_post s ch)) →
  sinv s → (∀ ch, ch ∈ chs → ch ∈ F) →
  holds (ensureAll rec abs s chs) (λ s', sinv s' ∧ (∀ u, cached s u → cached s' u) ∧
    ∀ ch, ch ∈ chs → ch ≠ abs → cached s' ch).
Proof.
  intros Hrec. revert s. induction chs as [|ch chs IH]; intros s Hs HF.
  { simpl. split_and!; [done|done|]. intros ch Hch. by apply elem_of_nil in Hch. }
  cbn [ensureAll]. destruct (decide (ch = abs)) as [->|Hne].
  { eapply holds_mono; [apply IH; [done|set_solver]|]. intros s' (? & ? & ?). split_and!; [done..|set_solver]. }
  destruct (closures s !! ch) as [cl|] eqn:Hcl.
  - eapply holds_mono; [apply IH; [done|set_solver]|]. intros s' (? & Hm & ?). split_and!; [done..|].
    intros u [->|Hu]%elem_of_cons; [|auto]. intros _. apply Hm. by exists cl.
  - eapply holds_bind; [apply Hrec; [done|set_solver|]|].
    { intros [? E]. congruence. }
    intros s1 (Hs1 & Hc1 & Hm1). eapply holds_mono; [apply IH; [done|set_solver]|].
    intros s' (? & Hm & ?). split_and!; [done|auto|]. intros u [->|Hu]%elem_of_cons; auto.
Qed.

Lemma dfs_ok sccFuel fuel active s abs :
  (size F <= sccFuel)%nat → (size (F ∖ active) <= fuel)%nat → sinv s → abs ∈ F → ¬ cached s abs →
  holds (dfs hint sccFuel fuel active s abs) (dfs_post s abs).
Proof.
  intros Hscc. revert active s abs. induction fuel as [|fuel IH]; intros active s abs Hfuel Hs HF Hnc;
    cbn [dfs]; (destruct (decide (abs ∈ active)) as [Ha|Ha]; [by apply runSCC_ok|]).
  - assert (abs ∈ F ∖ active) by set_solver. assert (size (F ∖ active) ≠ 0%nat); [|lia].
    apply size_non_empty_iff. set_solver.
  - assert (Hlt : (size (F ∖ ({[abs]} ∪ active)) < size (F ∖ active))%nat).
    { apply subset_size. split; [set_solver|]. intros Hsub. specialize (Hsub abs). set_solver. }
    eapply holds_bind.
    { apply (ensureAll_ok (dfs hint sccFuel fuel ({[abs]} ∪ active))); [|done|].
      - intros s1 ch Hs1 HchF Hnc1. apply IH; [lia|done..].
      - intros ch Hch. by eapply Hchildren. }
    intros s1 (Hs1 & Hm1 & Hc1). destruct (unite_ok s1 abs Hs1 HF Hc1) as (s2 & -> & ? & ? & ?).
    simpl. split_and!; auto.
Qed.

Lemma closureOf_ok fuel s abs :
  (size F <= fuel)%nat → sinv s → abs ∈ F →
  holds (closureOf hint fuel s abs) (λ r, sinv r.1 ∧ closures r.1 !! abs = Some r.2).
Proof.
  intros Hfuel Hs HF. unfold closureOf. destruct (closures s !! abs) as [cl|] eqn:Hcl; [done|].
  eapply holds_bind.
  { apply dfs_ok; [done| |done|done|by intros [? E]; congruence].
    etrans; [|exact Hfuel]. apply subseteq_size. set_solver. }
  intros s' (Hs' & [cl Hcl'] & _). simpl. by rewrite Hcl'.
Qed.

Lemma closuresOf_ok fuel s vs :
  (size F <= fuel)%nat → sinv s → (∀ v, v ∈ vs → v ∈ F) →
  holds (closuresOf hint fuel s vs) (λ r, sinv r.1 ∧
    Forall2 (λ v cl, ∃ st, exact st cl v) vs r.2).
Proof.
  intros Hfuel. revert s. induction vs as [|v vs IH]; intros s Hs HF; [done|].
  cbn [closuresOf]. eapply holds_bind; [apply closureOf_ok; [done|done|set_solver]|].
  intros [s1 cl] [Hs1 Hcl]. simpl in Hs1, Hcl. eapply holds_bind; [apply IH; [done|set_solver]|].
  intros [s2 cls] [Hs2 Hall]. simpl in *. split; [done|]. constructor; [|done].
  eexists. by apply (proj2 Hs1).
Qed.

Lemma newScanner_ok (st : B) : store_wf st → sinv (newScanner st).
Proof. intros Hw. split; [|done]. split; [done|]. by split. Qed.

Lemma exact_window (st : B) cl v x : exact st cl v → x ∈ window cl ↔ sees v x.
Proof. intros [(X & Hok & HX) _]. by rewrite <-HX, (co_elems _ _ _ Hok). Qed.
End correct.

Lemma each_window cl : self cl ≠ 0 → each cl = window cl.
Proof. intros Hs. unfold each, window, some. by rewrite decide_False. Qed.

Lemma len_each cl : len cl = length (each cl).
Proof.
  unfold len, each. rewrite length_app. generalize (length (some (self cl))) as n.
  induction (buckets cl) as [|b bks IH]; intros n; [simpl; lia|].
  rewrite fmap_cons. cbn [foldl concat]. rewrite IH, length_app. lia.
Qed.


(** A store that keeps every list it is given. *)
#[local] Instance plain_store : BucketStore (list (list Z)) := {
  internBucket st l := Ok (st ++ [l], mkBucket (Z.of_nat (length st)) l) }.
#[local] Instance plain_store_laws : BucketStoreLaws (list (list Z)).
Proof.
  refine {| store_wf _ := True; storable _ := True;
            stored st b := 0 <= bid b ∧ st !! Z.to_nat (bid b) = Some (elems b) |}.
  - intros st [i l] [j k] _ [Hi Hl] [Hj Hk] E. simpl in *. subst. congruence.
  - intros st l _ _. eexists _, _. split; [done|]. split; [done|]. simpl. split_and!; [lia| |done|].
    + rewrite Nat2Z.id. by apply list_lookup_middle.
    + intros [i k] [Hi Hk]. simpl in *. split; [done|by apply lookup_app_l_Some].
Defined.

(** 2 and 4 include each other, both include 6, which includes 8 and has the
    input 10; 8 has diagnostics. *)
Definition sample_children (v : Z) : list Z :=
  if v =? 2 then [4; 6] else if v =? 4 then [2; 6] else if v =? 6 then [8] else [].
#[local] Instance sample_tree : Files := {
  children := sample_children; opaqueInputs v := if v =? 6 then [10] else [];
  mainOut _ := 0; opaqueMainOut _ := 0; hasOwnDiagnostics v := v =? 8 }.

Lemma sample_own u x : x ∈ own u → x = u ∨ u = 6 ∧ x = 10.
Proof.
  unfold own, basic. simpl. assert (sample_children u ≫= (λ _, some 0) = []) as ->.
  { generalize (sample_children u) as l. induction l; [done|]. cbn. exact IHl. }
  destruct (Z.eqb_spec u 6); rewrite app_nil_r; set_solver.
Qed.

Lemma sample_tidy : tidy.
Proof.
  split; [|done]. intros u x [?|[-> ->]]%sample_own Hne; [done|]. left. by split_and!.
Qed.


(** ** The limits of the closures *)

Section limit.
Context `{Files} (hint : nat).
Definition fits (acc : gset Z * list Z) : Prop := (length acc.2 <= hint)%nat.

Lemma splice_fits acc x a : splice hint acc x = Ok a → fits acc → fits a.
Proof.
  unfold splice, fits. case_decide; [by intros [= <-]|]. case_decide; [|done]. intros [= <-] _.
  simpl. rewrite length_app. simpl. lia.
Qed.

Lemma spliceAll_fits acc vs a : spliceAll hint acc vs = Ok a → fits acc → fits a.
Proof.
  revert acc. induction vs as [|v vs IH]; intros acc; cbn [spliceAll]; [by intros [= <-]|].
  intros (a1 & H1 & H2)%res_bind_Ok Hf. by eapply IH, splice_fits.
Qed.

Lemma spliceChildren_fits t cls sp chs sp' :
  spliceChildren hint t cls sp chs = Ok sp' → fits sp.2 → fits sp'.2.
Proof.
  revert sp. induction chs as [|ch chs IH]; intros sp; cbn [spliceChildren]; [by intros [= <-]|].
  intros (sp1 & H1 & H2)%res_bind_Ok Hf. eapply IH; [done|].
  apply res_bind_Ok in H1 as ([] & _ & H1); [by simplify_eq|]. case_decide; [by simplify_eq|].
  apply res_bind_Ok in H1 as (a1 & Ha1 & H1). apply res_bind_Ok in H1 as (a2 & Ha2 & [= <-]).
  apply res_bind_Ok in Ha1 as (a0 & Ha0 & Ha1). simpl.
  eapply spliceAll_fits, spliceAll_fits, splice_fits; done.
Qed.
End limit.



(** A file 2 with the opaque input 4, which it also includes; 4 includes 6. *)
Definition untidy_tree : Files :=
  {| children v := if v =? 2 then [4] else if v =? 4 then [6] else [];
     opaqueInputs v := if v =? 2 then [4] else [];
     mainOut _ := 0; opaqueMainOut _ := 0; hasOwnDiagnostics _ := false |}.

(** The condition on attached files is needed: a file that is attached to its
    includer as an opaque input counts as present when the includer's closure is
    united, so what it includes is left out although it can be reached. *)
Theorem attached_include_hidden :
  @sees untidy_tree 2 6 ∧
  match @closureOf untidy_tree _ plain_store closureAllocHint 3 (newScanner []) 2 with
  | Ok (_, cl) => each cl = [2; 4]
  | _ => False
  end.
Proof.
  split; [|vm_compute; reflexivity].
  exists 6. split; [|apply own_self]. apply (rtc_l _ _ 4); [|apply rtc_once]; unfold includes; simpl; set_solver.
Qed.
