(* ===== verification/Includes.v ===== *)
(** * Include directives (parser.go, parser_c.go)

    The parsers read files that come in chunks.  [eachLine] cuts them into lines;
    the C parser looks for number signs, goes back to the start of the line and
    forward through the directive, and keeps apart what is in block comments.
    Forward scanning takes the rest of the data, backward scanning indices.  Shown:
    lines do not depend on the chunks; the C parser always ends, inside the data;
    without block comments it reads the file line by line, whatever the chunks.  With
    them it does not. *)

From S2P Require Import Prelude.
Local Open Scope string_scope.
Local Open Scope list_scope.
Local Open Scope Z_scope.

Abbreviation text := (list Z) (only parsing).

Inductive IncludeKind :=
  | includeSystem | includeRos | includeQuoted | includeCythonOptional | includeCythonModule | includeCythonName
  | includeCythonFallback | includeCythonSibling | includeCythonImportEnd | includeTypeScript | includeMacro.
Record IncludeDirective := mkDirective { kind : IncludeKind; target : text }.

(** ** Lines *)

(** The bytes before the first [c] and those after it. *)
Fixpoint cutByte (c : Z) (s : text) : option (text * text) :=
  match s with
  | [] => None
  | b :: s => if b =? c then Some ([], s) else '(a, r) ← cutByte c s; Some (b :: a, r)
  end.

(** A line without the carriage return at its end. *)
Definition trimCR (line : text) : text := match last line with Some 13 => take (length line - 1) line | _ => line end.

(** The lines of one piece of data; [fuel] is its length. *)
Fixpoint dataLines (fuel : nat) (data : text) : list text :=
  match fuel, data with
  | S fuel, _ :: _ => match cutByte 10 data with None => [data] | Some (line, rest) => trimCR line :: dataLines fuel rest end
  | _, _ => []
  end.

(** The loop over the rest of a chunk: the lines, and what is left for the next one. *)
Fixpoint chunkLines (fuel : nat) (last : bool) (chunk : text) : list text * text :=
  match fuel, chunk with
  | S fuel, _ :: _ =>
      match cutByte 10 chunk with
      | None => if last then ([chunk], []) else ([], chunk)
      | Some (line, rest) => let '(ls, pending) := chunkLines fuel last rest in (trimCR line :: ls, pending)
      end
  | _, _ => ([], [])
  end.

Fixpoint chunksLoop (pending : text) (chunks : list text) : list text :=
  match chunks with
  | [] => []
  | chunk :: chunks =>
      let last := match chunks with [] => true | _ => false end in
      match pending with
      | [] => let '(ls, pending) := chunkLines (length chunk) last chunk in ls ++ chunksLoop pending chunks
      | _ :: _ =>
          match cutByte 10 chunk with
          | None => let pending := pending ++ chunk in (if last then [pending] else []) ++ chunksLoop pending chunks
          | Some (a, rest) => let '(ls, pending') := chunkLines (length rest) last rest in trimCR (pending ++ a) :: ls ++ chunksLoop pending' chunks
          end
      end
  end.

Definition eachLine (chunks : list text) : list text :=
  match chunks with [data] => dataLines (length data) data | _ => chunksLoop [] chunks end.

Lemma cutByte_Some c s a r : cutByte c s = Some (a, r) → s = a ++ c :: r ∧ c ∉ a.
Proof.
  revert a. induction s as [|b s IH]; intros a; simpl; [done|]. destruct (Z.eqb_spec b c) as [->|Hne]; [intros [= <- <-]; split; [done|apply not_elem_of_nil]|].
  destruct (cutByte c s) as [[a' r']|]; [|done]. intros [= <- <-]. destruct (IH _ eq_refl) as [-> Hn]. split; [done|]. by apply not_elem_of_cons.
Qed.

Lemma cutByte_None c s : cutByte c s = None ↔ c ∉ s.
Proof.
  induction s as [|b s IH]; simpl; [split; [intros _; apply not_elem_of_nil|done]|]. rewrite not_elem_of_cons. destruct (Z.eqb_spec b c) as [->|Hne]; [naive_solver|].
  destruct (cutByte c s) as [[??]|]; simpl; naive_solver.
Qed.

Lemma cutByte_app c a r : c ∉ a → cutByte c (a ++ c :: r) = Some (a, r).
Proof. induction a as [|b a IH]; simpl; [by rewrite Z.eqb_refl|]. intros [H1 H2]%not_elem_of_cons. rewrite (proj2 (Z.eqb_neq b c)), IH by congruence. done. Qed.

(** The plain definition: cut at each newline, the last line only if it is not empty. *)
Lemma dataLines_fuel f f' s : (length s <= f)%nat → (length s <= f')%nat → dataLines f s = dataLines f' s.
Proof.
  revert f' s. induction f as [|f IH]; intros [|f'] [|b s] H1 H2; simpl in *; try done; try lia. destruct (if b =? 10 then _ else _) as [[a r]|] eqn:E; [|done]. f_equal.
  assert (Hc : cutByte 10 (b :: s) = Some (a, r)) by exact E. apply cutByte_Some in Hc as [Hs _]. apply (f_equal length) in Hs. rewrite length_app in Hs. simpl in Hs. apply IH; lia.
Qed.

Definition lines (s : text) : list text := dataLines (length s) s.

Lemma lines_cut a r : 10 ∉ a → lines (a ++ 10 :: r) = trimCR a :: lines r.
Proof.
  intros Ha. unfold lines. rewrite length_app. cbn [length]. rewrite Nat.add_succ_r. cbn [dataLines]. rewrite (cutByte_app 10 a r Ha).
  destruct (a ++ 10 :: r) eqn:E; [by destruct a|]. f_equal. apply dataLines_fuel; lia.
Qed.

Lemma lines_last a : 10 ∉ a → a ≠ [] → lines a = [a].
Proof. intros Ha Hne. unfold lines. destruct a as [|b a]; [done|]. cbn [length dataLines]. by rewrite (proj2 (cutByte_None 10 (b :: a)) Ha). Qed.

(** The lines of a chunk and what is pending are those of the data they start. *)
Lemma chunkLines_spec f chunk rest : (length chunk <= f)%nat → let '(ls, pending) := chunkLines f false chunk in lines (chunk ++ rest) = ls ++ lines (pending ++ rest) ∧ 10 ∉ pending.
Proof.
  revert chunk. induction f as [|f IH]; intros [|b chunk] Hf; cbn [chunkLines]; try (split; [done|apply not_elem_of_nil]); [simpl in Hf; lia|].
  destruct (cutByte 10 (b :: chunk)) as [[line r]|] eqn:E; [|split; [done|by apply cutByte_None]].
  apply cutByte_Some in E as [Hs Hn]. rewrite Hs in Hf |- *. rewrite length_app in Hf. simpl in Hf. specialize (IH r ltac:(lia)). destruct (chunkLines f false r) as [ls pending]. destruct IH as [IH Hp].
  split; [|done]. rewrite <-app_assoc. cbn [app]. rewrite lines_cut by done. by rewrite IH.
Qed.

Lemma chunkLines_last f chunk : (length chunk <= f)%nat → chunkLines f true chunk = (lines chunk, []).
Proof.
  revert chunk. induction f as [|f IH]; intros [|b chunk] Hf; cbn [chunkLines]; try done; [simpl in Hf; lia|].
  destruct (cutByte 10 (b :: chunk)) as [[line r]|] eqn:E.
  - apply cutByte_Some in E as [Hs Hn]. rewrite Hs in Hf |- *. rewrite length_app in Hf. simpl in Hf. rewrite IH by lia. by rewrite lines_cut.
  - apply cutByte_None in E. by rewrite lines_last.
Qed.

Lemma chunksLoop_lines pending chunks : 10 ∉ pending → chunks ≠ [] → chunksLoop pending chunks = lines (pending ++ mjoin chunks).
Proof.
  revert pending. induction chunks as [|chunk chunks IH]; intros pending Hp Hne; [done|]. cbn [chunksLoop]. change (mjoin (chunk :: chunks)) with (chunk ++ mjoin chunks).
  assert (Hnext : ∀ p, 10 ∉ p → (if match chunks with [] => true | _ => false end then p = [] else True) → chunksLoop p chunks = match chunks with [] => [] | _ => lines (p ++ mjoin chunks) end).
  { intros p Hpp _. destruct chunks; [done|]. by apply IH. }
  assert (Htail : ∀ c, let '(ls, p) := chunkLines (length c) (match chunks with [] => true | _ => false end) c in ls ++ chunksLoop p chunks = lines (c ++ mjoin chunks)).
  { intros c. destruct chunks as [|c2 chunks].
    - rewrite chunkLines_last by lia. simpl. by rewrite !app_nil_r.
    - pose proof (chunkLines_spec (length c) c (mjoin (c2 :: chunks)) ltac:(lia)) as Hc. destruct (chunkLines (length c) false c) as [ls p]. destruct Hc as [-> Hpp]. by rewrite Hnext. }
  destruct pending as [|b pending].
  - specialize (Htail chunk). destruct (chunkLines (length chunk) _ chunk) as [ls p]. by rewrite Htail.
  - destruct (cutByte 10 chunk) as [[a rest]|] eqn:E.
    + apply cutByte_Some in E as [-> Ha]. specialize (Htail rest). destruct (chunkLines (length rest) _ rest) as [ls p]. rewrite Htail. rewrite <-app_assoc. cbn [app].
      change (b :: pending ++ a ++ 10 :: rest ++ mjoin chunks) with ((b :: pending) ++ a ++ 10 :: (rest ++ mjoin chunks)). rewrite (app_assoc (b :: pending) a). rewrite lines_cut; [done|]. by apply not_elem_of_app.
    + apply cutByte_None in E. assert (Hpc : 10 ∉ (b :: pending) ++ chunk) by (by apply not_elem_of_app). rewrite app_assoc. destruct chunks as [|c2 chunks].
      * cbn [chunksLoop app]. simpl. rewrite app_nil_r. symmetry. by apply lines_last.
      * cbn [app]. rewrite IH by done. done.
Qed.

(** The lines handed out do not depend on how the file is cut into chunks. *)
Theorem eachLine_chunks chunks : eachLine chunks = lines (mjoin chunks).
Proof.
  unfold eachLine. destruct chunks as [|c [|c2 chunks]]; [done| |].
  - simpl. by rewrite app_nil_r.
  - by rewrite chunksLoop_lines by (done || apply not_elem_of_nil).
Qed.

(** ** Forward scanning in C sources *)

Definition isCWSByte (c : Z) : bool := (c =? 32) || (c =? 9) || (c =? 11) || (c =? 12) || (c =? 13).
Definition isIdentByte (b : Z) : bool := (97 <=? b) && (b <=? 122) || (65 <=? b) && (b <=? 90) || (48 <=? b) && (b <=? 57) || (b =? 95).
Definition identByteAt (s : text) : bool := match s with b :: _ => isIdentByte b | [] => false end.

(** The rest after white space and block comments; [inside] a comment. *)
Fixpoint skipFrom (inside : bool) (s : text) : text :=
  match s with
  | [] => []
  | c :: s' =>
      if inside then
        match s' with [] => [] | d :: s'' => if (c =? 42) && (d =? 47) then skipFrom false s'' else skipFrom true s' end
      else if isCWSByte c then skipFrom false s'
      else if c =? 47 then match s' with d :: s'' => if d =? 42 then skipFrom true s'' else s | [] => s end
      else s
  end.
Definition skipWSAndBlockComments : text → text := skipFrom false.

(** The rest from the next line on. *)
Definition nextLine (s : text) : text := match cutByte 10 s with Some (_, r) => r | None => [] end.

Fixpoint cutPrefix (p s : text) : option text :=
  match p, s with
  | [], _ => Some s
  | a :: p, b :: s => if a =? b then cutPrefix p s else None
  | _ :: _, [] => None
  end.

Fixpoint dropSpaces (s : text) : text := match s with c :: s' => if c =? 32 then dropSpaces s' else s | [] => [] end.

Definition hasYIgnoreComment (s : text) : bool :=
  match skipWSAndBlockComments s with
  | 47 :: 47 :: r => match cutPrefix (bs "Y_IGNORE") (dropSpaces r) with Some _ => true | None => false end
  | _ => false
  end.

Definition brackets (t : text) : bool := bool_decide (91 ∈ t) || bool_decide (93 ∈ t).

(** The longest prefix before a byte with the property, and the rest. *)
Fixpoint spanUntil (f : Z → bool) (s : text) : text * text :=
  match s with
  | [] => ([], [])
  | b :: s' => if f b then ([], s) else let '(a, r) := spanUntil f s' in (b :: a, r)
  end.

Definition includeKeyword (s : text) : option text :=
  match cutPrefix (bs "include") s with
  | Some r => if identByteAt r then match cutPrefix (bs "import") s with Some r => if identByteAt r then None else Some r | None => None end else Some r
  | None => match cutPrefix (bs "import") s with Some r => if identByteAt r then None else Some r | None => None end
  end.

(** On the bytes after the number sign: the directive, and the rest to go on with. *)
Definition parseDirectiveInline (s : text) : option IncludeDirective * text :=
  let q := skipWSAndBlockComments s in
  match includeKeyword q with
  | None => (None, nextLine q)
  | Some q =>
      match skipWSAndBlockComments q with
      | [] => (None, [])
      | (c :: q') as q =>
          if (c =? 60) || (c =? 34) then
            let close := if c =? 60 then 62 else 34 in
            let '(targetBytes, r) := spanUntil (λ b, (b =? close) || (b =? 10) || (b =? 36)) q' in
            match r with
            | b :: r' =>
                if b =? close then
                  if negb (hasYIgnoreComment r') && negb (brackets targetBytes)
                  then (Some (mkDirective (if close =? 34 then includeQuoted else includeSystem) targetBytes), nextLine r')
                  else (None, nextLine r')
                else (None, nextLine r)
            | [] => (None, nextLine r)
            end
          else
            let '(word, r) := spanUntil (λ b, isCWSByte b || (b =? 10)) q in
            match word with
            | b :: _ =>
                if negb (b =? 36) && negb (hasYIgnoreComment r) && negb (brackets word) then
                  if bool_decide (word = bs "BACKTRACE_HEADER") then (None, nextLine r)
                  else if bool_decide (word = bs "OPENSSL_UNISTD") then (Some (mkDirective includeSystem (bs "unistd.h")), nextLine r)
                  else (Some (mkDirective includeMacro word), nextLine r)
                else (None, nextLine r)
            | [] => (None, nextLine r)
            end
      end
  end.

(** ** The block *)

(** [for ls > 0 && data[ls-1] != '\n' { ls-- }] *)
Fixpoint lineStart (data : text) (ls : nat) : nat :=
  match ls with
  | O => O
  | S l => match data !! l with Some b => if b =? 10 then ls else lineStart data l | None => lineStart data l end
  end.

(** Whether only white space is between the start of the line and [k]. *)
Fixpoint lineLeading (data : text) (k : nat) : bool :=
  match k with
  | O => true
  | S l => match data !! l with Some b => if b =? 10 then true else if isCWSByte b then lineLeading data l else false | None => false end
  end.

(** [bytes.Index] for two bytes. *)
Fixpoint indexPair (a b : Z) (s : text) : option nat :=
  match s with
  | x :: (y :: _) as s' => if (x =? a) && (y =? b) then Some 0%nat else S <$> indexPair a b s'
  | _ => None
  end.

(** The end, whether [hi] is covered, and whether the comment stays open.  [None]: out of fuel. *)
Fixpoint leadingBlockCoversHi (fuel : nat) (data : text) (i hi : nat) : option (nat * bool * bool) :=
  if decide (i < hi)%nat then
    match fuel with
    | O => None
    | S fuel =>
        match indexPair 47 42 (take (hi - i) (drop i data)) with
        | None => Some (0%nat, false, false)
        | Some rel =>
            let open := (i + rel)%nat in
            if lineLeading data open then
              match indexPair 42 47 (drop (open + 2) data) with
              | None => Some (length data, true, true)
              | Some cl => let e := (open + 2 + cl + 2)%nat in
                  if decide (hi < e)%nat then Some (e, true, false) else leadingBlockCoversHi fuel data e hi
              end
            else leadingBlockCoversHi fuel data (open + 2)%nat hi
        end
    end
  else Some (0%nat, false, false).

(** The directives and whether a comment stays open at the end. *)
Fixpoint blockLoop (fuel : nat) (data : text) (p clean : nat) (track : bool) : option (list IncludeDirective * bool) :=
  let finish := if track then '(_, _, open) ← leadingBlockCoversHi (S (length data)) data clean (length data); Some ([], open) else Some ([], false) in
  if decide (p < length data)%nat then
    match fuel with
    | O => None
    | S fuel =>
        match cutByte 35 (drop p data) with
        | None => finish
        | Some (before, after) =>
            let hi := (p + length before)%nat in
            let q0 := (length data - length (skipWSAndBlockComments (drop (lineStart data hi) data)))%nat in
            if decide (q0 = hi) then
              '(e, covered, open) ← leadingBlockCoversHi (S (length data)) data clean hi;
              if (covered : bool) then if (open : bool) then Some ([], true) else blockLoop fuel data e e track
              else
                let '(d, rest) := parseDirectiveInline after in
                let next := (length data - length rest)%nat in
                '(ds, open) ← blockLoop fuel data next next track;
                Some (option_list d ++ ds, open)
            else blockLoop fuel data (length data - length (nextLine (drop q0 data)))%nat clean track
        end
    end
  else finish.

Definition parseCIncludesBlock (data : text) (track : bool) : option (list IncludeDirective * bool) := blockLoop (length data) data 0 0 track.
Definition parseCIncludes (data : text) : option (list IncludeDirective) := fst <$> parseCIncludesBlock data false.

(** ** Chunks *)

Definition parseBlock (inBlockComment : bool) (data : text) : option (list IncludeDirective * bool) :=
  if inBlockComment then
    match indexPair 42 47 data with
    | None => Some ([], true)
    | Some e => parseCIncludesBlock (drop (e + 2) data) true
    end
  else parseCIncludesBlock data true.

Definition lastNewline (s : text) : option (text * text) :=
  match cutByte 10 (reverse s) with Some (a, r) => Some (reverse r, reverse a) | None => None end.

(** One block parsed, then the rest of the file: [next] gets the comment state. *)
Definition blockThen (state : bool) (data : text) (next : bool → option (list IncludeDirective)) : option (list IncludeDirective) :=
  '(ds, state) ← parseBlock state data; ds' ← next state; Some (ds ++ ds').

(** What is left of a chunk after the pending line; [next] is the loop on the chunks behind it. *)
Definition chunkRest (last : bool) (next : bool → text → option (list IncludeDirective)) (state : bool) (chunk : text) : option (list IncludeDirective) :=
  if last then
    match chunk with [] => next state [] | _ => blockThen state chunk (λ state, next state []) end
  else
    match lastNewline chunk with
    | None => next state chunk
    | Some (a, r) => blockThen state (a ++ [10]) (λ state, next state r)
    end.

Fixpoint cChunks (state : bool) (pending : text) (chunks : list text) : option (list IncludeDirective) :=
  match chunks with
  | [] => Some []
  | chunk :: chunks =>
      let last := match chunks with [] => true | _ => false end in
      let next := λ state pending, cChunks state pending chunks in
      match pending with
      | [] => chunkRest last next state chunk
      | _ :: _ =>
          match cutByte 10 chunk with
          | Some (a, r) => blockThen state (pending ++ a ++ [10]) (λ state, chunkRest last next state r)
          | None =>
              if last then blockThen state (pending ++ chunk) (λ state, next state (pending ++ chunk))
              else next state (pending ++ chunk)
          end
      end
  end.

Definition parseCIncludesChunks (chunks : list text) : option (list IncludeDirective) :=
  match chunks with [data] => parseCIncludes data | _ => cChunks false [] chunks end.

(** ** The parser ends *)

Lemma indexPair_cons a b x y s : indexPair a b (x :: y :: s) = if (x =? a) && (y =? b) then Some 0%nat else S <$> indexPair a b (y :: s).
Proof. done. Qed.

Lemma indexPair_Some a b s n : indexPair a b s = Some n → (n + 2 <= length s)%nat ∧ ∃ l r, s = l ++ a :: b :: r ∧ length l = n.
Proof.
  revert n. induction s as [|x s IH]; intros n; [done|]. destruct s as [|y s]; [done|]. rewrite indexPair_cons.
  destruct ((x =? a) && (y =? b)) eqn:E.
  - apply andb_true_iff in E as [->%Z.eqb_eq ->%Z.eqb_eq]. intros [= <-]. split; [simpl; lia|]. by exists [], s.
  - destruct (indexPair a b (y :: s)) as [m|]; [|done]. intros [= <-]. destruct (IH m eq_refl) as (Hl & l & r & Heq & Hlen). split; [simpl in *; lia|].
    exists (x :: l), r. split; [by rewrite Heq|simpl; lia].
Qed.

Lemma covers_total fuel data i hi : (hi - i <= fuel)%nat → (hi <= length data)%nat →
  ∃ e covered open, leadingBlockCoversHi fuel data i hi = Some (e, covered, open) ∧ (covered = true → (hi < e ∨ open = true) ∧ e <= length data)%nat.
Proof.
  revert i. induction fuel as [|fuel IH]; intros i Hf Hhi; cbn [leadingBlockCoversHi]; case_decide as Hd; try lia; try (eexists _, _, _; split; [done|]; done).
  destruct (indexPair 47 42 (take (hi - i) (drop i data))) as [rel|] eqn:E; [|by eexists _, _, _].
  apply indexPair_Some in E as [Hrel _]. rewrite length_take, length_drop in Hrel. destruct (lineLeading data (i + rel)); [|apply IH; lia].
  destruct (indexPair 42 47 (drop (i + rel + 2) data)) as [cl|] eqn:E2; [|eexists _, _, _; split; [done|]; intros _; split; [by right|lia]].
  apply indexPair_Some in E2 as [Hcl _]. rewrite length_drop in Hcl. case_decide; [|apply IH; lia]. eexists _, _, _. split; [done|]. intros _. split; [left; lia|lia].
Qed.

Lemma skipFrom_suffix inside s : skipFrom inside s `suffix_of` s.
Proof.
  assert (H : ∀ n s inside, (length s <= n)%nat → skipFrom inside s `suffix_of` s).
  { clear s inside. induction n as [|n IH]; intros [|c s] inside Hn; simpl in Hn; try lia; [done..|]. cbn [skipFrom].
    assert (Hs : ∀ b, skipFrom b s `suffix_of` c :: s) by (intros b; apply suffix_cons_r, IH; lia). destruct inside.
    - destruct s as [|d s']; [by exists [c]|]. destruct ((c =? 42) && (d =? 47)); [|apply Hs]. do 2 apply suffix_cons_r. apply IH. simpl in Hn. lia.
    - destruct (isCWSByte c); [apply Hs|]. destruct (c =? 47); [|done]. destruct s as [|d s']; [done|]. destruct (d =? 42); [|done]. do 2 apply suffix_cons_r. apply IH. simpl in Hn. lia. }
  by apply (H (length s)).
Qed.

Lemma nextLine_suffix s : nextLine s `suffix_of` s.
Proof. unfold nextLine. destruct (cutByte 10 s) as [[a r]|] eqn:E; [apply cutByte_Some in E as [-> _]; by exists (a ++ [10]); rewrite <-app_assoc|by exists s; rewrite app_nil_r]. Qed.

Lemma cutPrefix_suffix p s r : cutPrefix p s = Some r → s = p ++ r.
Proof. revert s. induction p as [|a p IH]; intros [|b s]; simpl; try done; [by intros [= <-]..|]. destruct (Z.eqb_spec a b) as [->|]; [|done]. intros ->%IH. done. Qed.

Lemma spanUntil_app f s : let '(a, r) := spanUntil f s in s = a ++ r ∧ Forall (λ b, f b = false) a.
Proof. induction s as [|b s IH]; simpl; [by split|]. destruct (f b) eqn:E; [by split|]. destruct (spanUntil f s) as [a r]. destruct IH as [-> Hf]. split; [done|by constructor]. Qed.

Lemma includeKeyword_suffix s r : includeKeyword s = Some r → r `suffix_of` s.
Proof.
  unfold includeKeyword. intros H. assert (Hr : cutPrefix (bs "include") s = Some r ∨ cutPrefix (bs "import") s = Some r).
  { revert H. repeat case_match; naive_solver. }
  destruct Hr as [->%cutPrefix_suffix| ->%cutPrefix_suffix]; eexists; done.
Qed.

Lemma parseDirective_suffix s : (parseDirectiveInline s).2 `suffix_of` s.
Proof.
  unfold parseDirectiveInline. pose proof (skipFrom_suffix false s) as H1. change (skipFrom false s) with (skipWSAndBlockComments s) in H1. set (q := skipWSAndBlockComments s) in *.
  assert (Hn : ∀ r, r `suffix_of` s → nextLine r `suffix_of` s) by (intros r Hr; etrans; [apply nextLine_suffix|done]).
  destruct (includeKeyword q) as [q1|] eqn:Ek; [|by apply Hn]. apply includeKeyword_suffix in Ek. assert (H2 : q1 `suffix_of` s) by (by etrans).
  pose proof (skipFrom_suffix false q1) as H3. change (skipFrom false q1) with (skipWSAndBlockComments q1) in H3. destruct (skipWSAndBlockComments q1) as [|c q2]; [apply suffix_nil|].
  assert (H4 : c :: q2 `suffix_of` s) by (by etrans). assert (H5 : q2 `suffix_of` s) by (etrans; [|exact H4]; by exists [c]).
  destruct ((c =? 60) || (c =? 34)).
  - set (close := if c =? 60 then 62 else 34). pose proof (spanUntil_app (λ b, (b =? close) || (b =? 10) || (b =? 36)) q2) as Hs. destruct (spanUntil _ q2) as [t r]. destruct Hs as [Hs _].
    assert (H6 : r `suffix_of` s) by (etrans; [|exact H5]; by exists t). destruct r as [|b r]; [by apply Hn|].
    assert (H7 : r `suffix_of` s) by (etrans; [|exact H6]; by exists [b]). repeat case_match; by apply Hn.
  - pose proof (spanUntil_app (λ b, isCWSByte b || (b =? 10)) (c :: q2)) as Hs. destruct (spanUntil _ (c :: q2)) as [t r]. destruct Hs as [Hs _].
    assert (H6 : r `suffix_of` s) by (etrans; [|exact H4]; by exists t). destruct t as [|b t']; [by apply Hn|].
    destruct (_ && negb (brackets _)); [|by apply Hn]. destruct (bool_decide _); [by apply Hn|]. destruct (bool_decide _); by apply Hn.
Qed.

Lemma lineStart_spec data hi : (lineStart data hi <= hi)%nat ∧ ∀ j, (lineStart data hi <= j < hi)%nat → data !! j ≠ Some 10.
Proof.
  induction hi as [|hi IH]; cbn [lineStart]; [split; [lia|intros; lia]|]. destruct IH as [IH1 IH2]. destruct (data !! hi) as [b|] eqn:E.
  - destruct (Z.eqb_spec b 10) as [->|Hne]; [split; [lia|intros; lia]|]. split; [lia|]. intros j Hj. destruct (decide (j = hi)) as [->|]; [congruence|apply IH2; lia].
  - split; [lia|]. intros j Hj. destruct (decide (j = hi)) as [->|]; [congruence|apply IH2; lia].
Qed.

(** The line after [q] starts behind [hi] if no newline is between. *)
Lemma nextLine_behind data q hi : (q <= hi < length data)%nat → (∀ j, (q <= j <= hi)%nat → data !! j ≠ Some 10) → (hi < length data - length (nextLine (drop q data)))%nat.
Proof.
  intros Hq Hno. unfold nextLine. destruct (cutByte 10 (drop q data)) as [[a r]|] eqn:E; [|simpl; lia]. apply cutByte_Some in E as [E _].
  assert (Hlen : (length data - q = length a + S (length r))%nat) by (rewrite <-length_drop, E, length_app; simpl; lia).
  destruct (decide (hi < q + length a)%nat); [lia|]. exfalso. apply (Hno (q + length a)%nat); [lia|]. rewrite <-lookup_drop, E. by rewrite list_lookup_middle.
Qed.

Lemma blockLoop_total fuel data p clean track : (length data - p <= fuel)%nat → (clean <= length data)%nat → ∃ r, blockLoop fuel data p clean track = Some r.
Proof.
  revert p clean. induction fuel as [|fuel IH]; intros p clean Hf Hc; cbn [blockLoop].
  all: destruct (covers_total (S (length data)) data clean (length data) ltac:(lia) ltac:(lia)) as (e0 & c0 & o0 & Hfin & _); rewrite Hfin; cbn [mbind option_bind].
  all: assert (Hfinish : ∃ r, (if track then Some (([] : list IncludeDirective), o0) else Some ([], false)) = Some r) by (destruct track; eauto).
  all: case_decide as Hp; [|exact Hfinish].
  1: lia.
  destruct (cutByte 35 (drop p data)) as [[before after]|] eqn:E; [|exact Hfinish]. apply cutByte_Some in E as [E _].
  assert (Hlen : (length data - p = length before + S (length after))%nat) by (rewrite <-length_drop, E, length_app; simpl; lia). set (hi := (p + length before)%nat).
  assert (Hhash : data !! hi = Some 35). { unfold hi. rewrite <-lookup_drop, E. by rewrite list_lookup_middle. }
  destruct (lineStart_spec data hi) as [Hls Hno]. set (ls := lineStart data hi) in *. pose proof (skipFrom_suffix false (drop ls data)) as Hq%suffix_length.
  change (skipFrom false (drop ls data)) with (skipWSAndBlockComments (drop ls data)) in Hq. rewrite length_drop in Hq. set (q0 := (length data - length (skipWSAndBlockComments (drop ls data)))%nat) in *.
  case_decide as Hq0.
  - destruct (covers_total (S (length data)) data clean hi ltac:(lia) ltac:(lia)) as (e & covered & open & -> & Hcov). cbn [mbind option_bind]. destruct covered.
    + destruct (Hcov eq_refl) as [[He|He] Hle]; destruct open; try (by eauto); try done; apply IH; lia.
    + pose proof (parseDirective_suffix after) as Hsuf%suffix_length. destruct (parseDirectiveInline after) as [d rest]. simpl in Hsuf.
      destruct (IH (length data - length rest)%nat (length data - length rest)%nat) as [[ds open'] ->]; [lia..|]. simpl. eauto.
  - apply IH; [|done]. assert (hi < length data - length (nextLine (drop q0 data)))%nat; [|lia]. destruct (decide (q0 < hi)%nat).
    + apply nextLine_behind; [lia|]. intros j Hj. destruct (decide (j = hi)) as [->|]; [congruence|apply Hno; lia].
    + pose proof (nextLine_suffix (drop q0 data)) as Hn%suffix_length. rewrite length_drop in Hn. lia.
Qed.

(** ** Without block comments: line by line *)

Definition NoOpen (s : text) : Prop := ∀ l r, s ≠ l ++ 47 :: 42 :: r.

Lemma NoOpen_app_l a b : NoOpen (a ++ b) → NoOpen a.
Proof. intros H l r ->. apply (H l (r ++ b)). by rewrite <-app_assoc. Qed.
Lemma NoOpen_app_r a b : NoOpen (a ++ b) → NoOpen b.
Proof. intros H l r ->. apply (H (a ++ l) r). by rewrite <-app_assoc. Qed.
Lemma NoOpen_cons x s : NoOpen (x :: s) → NoOpen s.
Proof. apply (NoOpen_app_r [x]). Qed.

Lemma indexPair_None s : NoOpen s → indexPair 47 42 s = None.
Proof. intros H. destruct (indexPair 47 42 s) as [n|] eqn:E; [|done]. apply indexPair_Some in E as (_ & l & r & -> & _). by destruct (H l r). Qed.

(** The end of the data or of the line. *)
Definition atEnd (rest : text) : Prop := rest = [] ∨ ∃ r, rest = 10 :: r.

Definition stops (rest : text) : Prop := match rest with [] => True | c :: _ => isCWSByte c = false ∧ c ≠ 47 ∧ c ≠ 42 end.

Lemma atEnd_stops rest : atEnd rest → stops rest.
Proof. by intros [->|[r ->]]. Qed.

Lemma skip_stops line rest : stops rest → NoOpen (line ++ rest) → skipWSAndBlockComments (line ++ rest) = skipWSAndBlockComments line ++ rest.
Proof.
  intros Hr. unfold skipWSAndBlockComments. induction line as [|c line IH]; intros Hno.
  { destruct rest as [|c rest]; [done|]. destruct Hr as (Hw & H1 & H2). simpl. by rewrite Hw, (proj2 (Z.eqb_neq c 47)). }
  cbn [app skipFrom]. destruct (isCWSByte c); [apply IH; by eapply NoOpen_cons|]. destruct (Z.eqb_spec c 47) as [->|]; [|done].
  destruct line as [|d line]; [|cbn [app]; destruct (Z.eqb_spec d 42) as [->|]; [|done]; by destruct (Hno [] (line ++ rest))].
  destruct rest as [|d rest]; [done|]. destruct Hr as (Hw & H1 & H2). cbn [app]. by rewrite (proj2 (Z.eqb_neq d 42)).
Qed.

Lemma skip_line line rest : atEnd rest → NoOpen (line ++ rest) → skipWSAndBlockComments (line ++ rest) = skipWSAndBlockComments line ++ rest.
Proof. intros Hr. by apply skip_stops, atEnd_stops. Qed.

Lemma nextLine_line line rest : 10 ∉ line → nextLine (line ++ rest) = nextLine rest.
Proof. intros Hn. unfold nextLine. induction line as [|c line IH]; [done|]. apply not_elem_of_cons in Hn as [Hc Hn]. cbn [app cutByte]. rewrite (proj2 (Z.eqb_neq c 10)) by done. specialize (IH Hn). destruct (cutByte 10 (line ++ rest)) as [[??]|]; done. Qed.

Lemma spanUntil_line f line rest : atEnd rest → f 10 = true → spanUntil f (line ++ rest) = ((spanUntil f line).1, (spanUntil f line).2 ++ rest).
Proof.
  intros Hr Hf. induction line as [|c line IH]; [destruct Hr as [->|[r ->]]; [done|]; simpl; by rewrite Hf|]. cbn [app spanUntil]. destruct (f c); [done|]. rewrite IH. by destruct (spanUntil f line).
Qed.

Lemma cutPrefix_line p line rest : atEnd rest → 10 ∉ p → cutPrefix p (line ++ rest) = (λ r, r ++ rest) <$> cutPrefix p line.
Proof.
  intros Hr. revert line. induction p as [|a p IH]; intros line Hp; [done|]. apply not_elem_of_cons in Hp as [Ha Hp]. destruct line as [|b line].
  - destruct Hr as [->|[r ->]]; [done|]. simpl. by rewrite (proj2 (Z.eqb_neq a 10)) by done.
  - cbn [app cutPrefix]. destruct (a =? b); [by apply IH|done].
Qed.

Lemma ident_line line rest : atEnd rest → identByteAt (line ++ rest) = identByteAt line.
Proof. intros [->|[r ->]]; [by rewrite app_nil_r|]. by destruct line. Qed.

Lemma dropSpaces_line line rest : atEnd rest → dropSpaces (line ++ rest) = dropSpaces line ++ rest.
Proof. intros Hr. induction line as [|c line IH]; [destruct Hr as [->|[r ->]]; done|]. cbn [app dropSpaces]. by destruct (c =? 32). Qed.

Lemma skip_NoOpen a s : NoOpen (a ++ s) → ∀ b, skipWSAndBlockComments a = b → NoOpen (b ++ s).
Proof. intros H b <-. pose proof (skipFrom_suffix false a) as [k Hk]. unfold skipWSAndBlockComments. rewrite Hk, <-app_assoc in H. by apply NoOpen_app_r in H. Qed.

Lemma yignore_line line rest : atEnd rest → NoOpen (line ++ rest) → hasYIgnoreComment (line ++ rest) = hasYIgnoreComment line.
Proof.
  intros Hr Hno. unfold hasYIgnoreComment. rewrite skip_line by done. destruct (skipWSAndBlockComments line) as [|a [|b r]]; cbn [app].
  - destruct Hr as [->|[r ->]]; done.
  - destruct Hr as [->|[r ->]]; [done|]. by repeat case_match.
  - assert (Hc : cutPrefix (bs "Y_IGNORE") (dropSpaces (r ++ rest)) = (λ r, r ++ rest) <$> cutPrefix (bs "Y_IGNORE") (dropSpaces r)).
    { rewrite dropSpaces_line by done. apply cutPrefix_line; [done|]. apply (bool_decide_eq_true_1 _). by vm_compute. }
    rewrite Hc. destruct (cutPrefix (bs "Y_IGNORE") (dropSpaces r)); done.
Qed.

Lemma keyword_line line rest : atEnd rest → includeKeyword (line ++ rest) = (λ r, r ++ rest) <$> includeKeyword line.
Proof.
  intros Hr. unfold includeKeyword. rewrite !cutPrefix_line; [|done|apply (bool_decide_eq_true_1 _); by vm_compute|done|apply (bool_decide_eq_true_1 _); by vm_compute].
  destruct (cutPrefix (bs "include") line) as [r1|]; destruct (cutPrefix (bs "import") line) as [r2|]; cbn [fmap option_fmap option_map]; rewrite ?ident_line by done; by repeat case_match.
Qed.

Lemma suffix_no10 a line : a `suffix_of` line → 10 ∉ line → 10 ∉ a.
Proof. intros [k ->] H Ha. apply H, elem_of_app. by right. Qed.

Lemma directive_line line rest : atEnd rest → 10 ∉ line → NoOpen (line ++ rest) → parseDirectiveInline (line ++ rest) = ((parseDirectiveInline line).1, nextLine rest).
Proof.
  intros Hr Hn Hno. unfold parseDirectiveInline. rewrite skip_line by done. pose proof (skipFrom_suffix false line) as H1. change (skipFrom false line) with (skipWSAndBlockComments line) in H1.
  pose proof (skip_NoOpen _ _ Hno _ eq_refl) as Hno1. set (q := skipWSAndBlockComments line) in *. pose proof (suffix_no10 _ _ H1 Hn) as Hn1. rewrite keyword_line by done.
  destruct (includeKeyword q) as [q1|] eqn:Ek; cbn [fmap option_fmap option_map]; [|simpl; by rewrite nextLine_line]. apply includeKeyword_suffix in Ek as Hs2. pose proof (suffix_no10 _ _ Hs2 Hn1) as Hn2.
  assert (Hno2 : NoOpen (q1 ++ rest)) by (destruct Hs2 as [k Hk]; rewrite Hk, <-app_assoc in Hno1; by apply NoOpen_app_r in Hno1).
  rewrite skip_line by done. pose proof (skip_NoOpen _ _ Hno2 _ eq_refl) as Hno3. pose proof (skipFrom_suffix false q1) as H3. change (skipFrom false q1) with (skipWSAndBlockComments q1) in H3.
  pose proof (suffix_no10 _ _ H3 Hn2) as Hn3. destruct (skipWSAndBlockComments q1) as [|c q2].
  { cbn [app]. destruct Hr as [->|[r ->]]; [done|]. cbn [orb]. change (isCWSByte 10) with false. done. }
  cbn [app]. apply not_elem_of_cons in Hn3 as Hn4. destruct Hn4 as [_ Hn4]. assert (Hno4 : NoOpen (q2 ++ rest)) by (by eapply NoOpen_cons).
  destruct ((c =? 60) || (c =? 34)).
  - set (close := if c =? 60 then 62 else 34). set (f := λ b, (b =? close) || (b =? 10) || (b =? 36)). rewrite (spanUntil_line f) by (done || by unfold f; rewrite orb_true_r).
    pose proof (spanUntil_app f q2) as Hs. destruct (spanUntil f q2) as [t r]. destruct Hs as [-> _]. cbn [fst snd].
    assert (Hn5 : 10 ∉ r) by (intros H; apply Hn4, elem_of_app; by right). destruct r as [|b r].
    + cbn [app]. destruct Hr as [->|[r ->]]; [done|]. replace (10 =? close) with false by (unfold close; by destruct (c =? 60)). done.
    + cbn [app]. apply not_elem_of_cons in Hn5 as [Hb Hn5]. assert (Hno5 : NoOpen (r ++ rest)) by (rewrite <-app_assoc in Hno4; apply NoOpen_app_r in Hno4; by eapply NoOpen_cons).
      rewrite yignore_line, (nextLine_line r) by done. change (b :: r ++ rest) with ((b :: r) ++ rest). rewrite (nextLine_line (b :: r)) by (by apply not_elem_of_cons).
      destruct (b =? close); [|done]. by destruct (negb _ && negb _).
  - set (f := λ b, isCWSByte b || (b =? 10)). change (c :: q2 ++ rest) with ((c :: q2) ++ rest). rewrite (spanUntil_line f) by done.
    pose proof (spanUntil_app f (c :: q2)) as Hs. destruct (spanUntil f (c :: q2)) as [t r]. destruct Hs as [Hs _]. cbn [fst snd]. rewrite Hs in Hn3, Hno3.
    assert (Hn5 : 10 ∉ r) by (intros H; apply Hn3, elem_of_app; by right). assert (Hno5 : NoOpen (r ++ rest)) by (rewrite <-app_assoc in Hno3; by apply NoOpen_app_r in Hno3).
    rewrite yignore_line, (nextLine_line r) by done. destruct t as [|b t]; [done|]. destruct (_ && negb (brackets _)); [|done]. destruct (bool_decide _); [done|]. by destruct (bool_decide _).
Qed.

(** The lines as they are, the last one only if it is not empty. *)
Fixpoint rawFrom (fuel : nat) (s : text) : list text :=
  match fuel, s with
  | S fuel, _ :: _ => match cutByte 10 s with None => [s] | Some (a, r) => a :: rawFrom fuel r end
  | _, _ => []
  end.
Definition rawLines (s : text) : list text := rawFrom (length s) s.

Definition lineDirective (line : text) : option IncludeDirective :=
  match skipWSAndBlockComments line with c :: s => if c =? 35 then (parseDirectiveInline s).1 else None | [] => None end.

Lemma rawFrom_fuel f f' s : (length s <= f)%nat → (length s <= f')%nat → rawFrom f s = rawFrom f' s.
Proof.
  revert f' s. induction f as [|f IH]; intros [|f'] [|b s] H1 H2; try done; simpl in H1, H2; try lia. cbn [rawFrom]. destruct (cutByte 10 (b :: s)) as [[a r]|] eqn:E; [|done]. f_equal.
  apply cutByte_Some in E as [Hs _]. apply (f_equal length) in Hs. rewrite length_app in Hs. simpl in Hs. apply IH; lia.
Qed.

Lemma raw_cut a r : 10 ∉ a → rawLines (a ++ 10 :: r) = a :: rawLines r.
Proof.
  intros Ha. unfold rawLines. rewrite length_app. cbn [length]. rewrite Nat.add_succ_r. cbn [rawFrom]. rewrite (cutByte_app 10 a r Ha).
  destruct (a ++ 10 :: r) eqn:E; [by destruct a|]. f_equal. apply rawFrom_fuel; lia.
Qed.

Lemma raw_last a : 10 ∉ a → a ≠ [] → rawLines a = [a].
Proof. intros Ha Hne. unfold rawLines. destruct a as [|b a]; [done|]. cbn [length rawFrom]. by rewrite (proj2 (cutByte_None 10 (b :: a)) Ha). Qed.

Lemma raw_line line rest : 10 ∉ line → line ≠ [] → atEnd rest → rawLines (line ++ rest) = line :: rawLines (nextLine rest).
Proof. intros Hn Hne [->|[r ->]]; [rewrite app_nil_r; by apply raw_last|]. by rewrite raw_cut. Qed.

(** Data that ends with a newline, or is empty. *)
Definition whole (s : text) : Prop := s = [] ∨ ∃ s', s = s' ++ [10].

Lemma raw_app a b : whole a → rawLines (a ++ b) = rawLines a ++ rawLines b.
Proof.
  remember (length a) as n eqn:Hn. revert a Hn. induction n as [n IH] using lt_wf_ind. intros a -> Hw. destruct Hw as [->|[s ->]]; [done|].
  destruct (cutByte 10 s) as [[x y]|] eqn:E.
  - apply cutByte_Some in E as [-> Hx]. rewrite <-!app_assoc. cbn [app]. rewrite (raw_cut x (y ++ 10 :: b)), (raw_cut x (y ++ [10])) by done. cbn [app]. f_equal. change (y ++ 10 :: b) with (y ++ [10] ++ b). rewrite (app_assoc y [10] b). apply (IH (length (y ++ [10]))); [|done|by right; exists y].
    rewrite !length_app. simpl. lia.
  - apply cutByte_None in E. rewrite <-app_assoc. cbn [app]. by rewrite !raw_cut.
Qed.

Lemma cut_last s : ∃ l c, s = l ++ c ∧ 10 ∉ c ∧ whole l.
Proof.
  induction s as [|b s IH] using rev_ind; [exists [], []; split_and!; [done|apply not_elem_of_nil|by left]|]. destruct IH as (l & c & -> & Hc & Hl). destruct (decide (b = 10)) as [->|Hb].
  - exists ((l ++ c) ++ [10]), []. rewrite app_nil_r. split_and!; [done|apply not_elem_of_nil|by right; eexists].
  - exists l, (c ++ [b]). rewrite app_assoc. split_and!; [done| |done]. rewrite not_elem_of_app, list_elem_of_singleton. by split.
Qed.

Lemma raw_elem s l : l ∈ rawLines s → ∃ a b, s = a ++ l ++ b.
Proof.
  remember (length s) as n eqn:Hn. revert s Hn. induction n as [n IH] using lt_wf_ind. intros s ->. destruct s as [|b s]; [by intros ?%elem_of_nil|]. destruct (cutByte 10 (b :: s)) as [[x y]|] eqn:E.
  - apply cutByte_Some in E as [Hs Hx]. rewrite Hs. rewrite raw_cut by done. intros [->|Hl]%elem_of_cons; [by exists [], (10 :: y)|].
    destruct (IH (length y) ltac:(rewrite Hs, length_app; simpl; lia) y eq_refl Hl) as (a1 & b1 & ->). exists (x ++ 10 :: a1), b1. by rewrite <-app_assoc.
  - apply cutByte_None in E. rewrite raw_last by done. intros ->%list_elem_of_singleton. exists [], []. by rewrite app_nil_r.
Qed.

Lemma no_hash s : 35 ∉ s → omap lineDirective (rawLines s) = [].
Proof.
  intros Hs. assert (Hall : ∀ l, l ∈ rawLines s → lineDirective l = None).
  { intros l (a & b & ->)%raw_elem. unfold lineDirective. pose proof (skipFrom_suffix false l) as [k Hk]. unfold skipWSAndBlockComments. destruct (skipFrom false l) as [|c r]; [done|].
    destruct (Z.eqb_spec c 35) as [->|]; [|done]. exfalso. apply Hs. rewrite Hk. rewrite !elem_of_app, elem_of_cons. auto. }
  induction (rawLines s) as [|l ls IH]; [done|]. cbn [omap list_omap]. rewrite Hall by (by left). apply IH. intros l' Hl. apply Hall. by right.
Qed.

Lemma covers_none fuel data i hi : NoOpen data → leadingBlockCoversHi (S fuel) data i hi = Some (0%nat, false, false).
Proof.
  intros Hno. cbn [leadingBlockCoversHi]. case_decide; [|done]. rewrite indexPair_None; [done|].
  apply (NoOpen_app_l _ (drop (hi - i) (drop i data))). rewrite take_drop. apply (NoOpen_app_r (take i data)). by rewrite take_drop.
Qed.

Lemma blockLoop_end fuel data p clean track : NoOpen data → (length data <= p)%nat → blockLoop fuel data p clean track = Some ([], false).
Proof. intros Hno Hp. destruct fuel; cbn [blockLoop]; rewrite decide_False by lia; rewrite covers_none by done; by destruct track. Qed.

Lemma lineStart_eq pre cur r : whole pre → 10 ∉ cur → lineStart (pre ++ cur ++ r) (length pre + length cur) = length pre.
Proof.
  intros Hw. revert r. induction cur as [|b cur IH] using rev_ind; intros r Hn.
  - cbn [length app]. rewrite Nat.add_0_r. destruct Hw as [->|[s ->]]; [done|]. rewrite length_app. cbn [length]. rewrite Nat.add_1_r. cbn [lineStart].
    rewrite <-app_assoc. cbn [app]. rewrite list_lookup_middle by done. done.
  - apply not_elem_of_app in Hn as [Hn Hb]. rewrite list_elem_of_singleton in Hb. rewrite length_app. cbn [length]. rewrite Nat.add_1_r, Nat.add_succ_r. cbn [lineStart].
    rewrite <-(app_assoc cur). cbn [app]. rewrite (app_assoc pre cur). rewrite list_lookup_middle by (by rewrite length_app). rewrite (proj2 (Z.eqb_neq b 10)) by congruence.
    rewrite <-app_assoc. by apply IH.
Qed.

Lemma drop_suffix_of (s data : text) : s `suffix_of` data → drop (length data - length s) data = s.
Proof. intros [k ->]. rewrite length_app. replace (length k + length s - length s)%nat with (length k) by lia. apply drop_app_length. Qed.

Lemma cut_atEnd (s : text) : ∃ a rest, s = a ++ rest ∧ 10 ∉ a ∧ atEnd rest.
Proof.
  destruct (cutByte 10 s) as [[a r]|] eqn:E; [apply cutByte_Some in E as [-> Ha]; exists a, (10 :: r); split_and!; [done..|right; eauto]|].
  exists s, []. rewrite app_nil_r. split_and!; [done|by apply cutByte_None|by left].
Qed.

Lemma blockLoop_lines fuel pre suf clean track : NoOpen (pre ++ suf) → whole pre → (length suf <= fuel)%nat →
  blockLoop fuel (pre ++ suf) (length pre) clean track = Some (omap lineDirective (rawLines suf), false).
Proof.
  revert pre suf clean. induction fuel as [|fuel IH]; intros pre suf clean Hno Hw Hf.
  { destruct suf; [|simpl in Hf; lia]. apply blockLoop_end; [done|]. rewrite app_nil_r. lia. }
  destruct (decide (suf = [])) as [->|Hne]; [apply blockLoop_end; [done|rewrite app_nil_r; lia]|]. set (data := pre ++ suf) in *. cbn [blockLoop].
  rewrite decide_True by (unfold data; rewrite length_app; destruct suf; simpl; [done|lia]). rewrite !covers_none by done. cbn [mbind option_bind].
  assert (Hdrop : drop (length pre) data = suf) by (unfold data; apply drop_app_length). rewrite Hdrop. destruct (cutByte 35 suf) as [[before after]|] eqn:E.
  2: { apply cutByte_None in E. rewrite no_hash by done. by destruct track. }
  apply cutByte_Some in E as [-> Hb]. destruct (cut_last before) as (L & cur & -> & Hcur & HL). destruct (cut_atEnd after) as (a1 & rest & -> & Ha1 & Hrest).
  apply not_elem_of_app in Hb as [HbL Hbc]. set (line := cur ++ 35 :: a1).
  assert (Hdata : data = (pre ++ L) ++ cur ++ (35 :: a1 ++ rest)) by (unfold data; by rewrite <-!app_assoc).
  assert (HwL : whole (pre ++ L)). { destruct HL as [->|[s ->]]; [by rewrite app_nil_r|]. right. exists (pre ++ s). by rewrite <-app_assoc. }
  assert (Hline : 10 ∉ line). { unfold line. rewrite not_elem_of_app, not_elem_of_cons. by split_and!. }
  assert (Hhi : (length pre + length (L ++ cur) = length (pre ++ L) + length cur)%nat) by (rewrite !length_app; lia).
  assert (Hls : lineStart data (length pre + length (L ++ cur)) = length (pre ++ L)) by (rewrite Hhi, Hdata; by apply lineStart_eq).
  rewrite Hls. replace (drop (length (pre ++ L)) data) with (cur ++ 35 :: a1 ++ rest) by (by rewrite Hdata, drop_app_length).
  assert (Hno1 : NoOpen (cur ++ 35 :: a1 ++ rest)) by (rewrite Hdata in Hno; by apply NoOpen_app_r in Hno). rewrite skip_stops by done.
  assert (Hno2 : NoOpen (a1 ++ rest)) by (apply NoOpen_app_r in Hno1; by apply NoOpen_cons in Hno1).
  assert (Hlen : length data = (length (pre ++ L) + length cur + S (length (a1 ++ rest)))%nat) by (rewrite Hdata, !length_app; simpl; rewrite !length_app; lia).
  assert (Hspec : omap lineDirective (rawLines ((L ++ cur) ++ 35 :: a1 ++ rest)) = option_list (lineDirective line) ++ omap lineDirective (rawLines (nextLine rest))).
  { rewrite <-app_assoc, raw_app by done. rewrite omap_app, no_hash by done. cbn [app]. replace (cur ++ 35 :: a1 ++ rest) with (line ++ rest) by (unfold line; by rewrite <-app_assoc).
    rewrite raw_line by (done || by unfold line; destruct cur). cbn [omap list_omap]. by destruct (lineDirective line). }
  rewrite Hspec. clear Hspec. assert (Hskipline : skipWSAndBlockComments line = skipWSAndBlockComments cur ++ 35 :: a1).
  { unfold line. apply skip_stops; [done|]. apply (NoOpen_app_l _ rest). by rewrite <-app_assoc. }
  assert (Hnext : ∀ c, blockLoop fuel data (length data - length (nextLine rest)) c track = Some (omap lineDirective (rawLines (nextLine rest)), false)).
  { intros c. destruct Hrest as [->|[r ->]]; [apply blockLoop_end; [done|simpl; lia]|]. change (nextLine (10 :: r)) with r.
    set (pre2 := pre ++ L ++ line ++ [10]). assert (Hd2 : data = pre2 ++ r) by (rewrite Hdata; unfold pre2, line; by rewrite <-!app_assoc).
    replace (length data - length r)%nat with (length pre2) by (rewrite Hd2, length_app; lia). rewrite Hd2. apply IH; [by rewrite <-Hd2| |].
    - right. exists (pre ++ L ++ line). by rewrite <-!app_assoc.
    - rewrite !length_app in Hf. simpl in Hf. rewrite length_app in Hf. simpl in Hf. lia. }
  assert (Hsk : (length (skipWSAndBlockComments cur) <= length cur)%nat) by (pose proof (skipFrom_suffix false cur) as [k Hk]; apply (f_equal length) in Hk; rewrite length_app in Hk; unfold skipWSAndBlockComments; lia).
  rewrite !length_app. cbn [length]. case_decide as Hq.
  - assert (Hcur0 : skipWSAndBlockComments cur = []) by (apply nil_length_inv; rewrite Hlen, length_app in Hq; lia).
    rewrite (directive_line a1 rest) by done. cbv beta iota zeta. rewrite Hnext. cbn [mbind option_bind]. replace (lineDirective line) with (parseDirectiveInline a1).1 by (unfold lineDirective; by rewrite Hskipline, Hcur0). by rewrite covers_none.
  - destruct (skipWSAndBlockComments cur) as [|x xs] eqn:Ecur; [exfalso; apply Hq; rewrite Hlen, length_app; simpl; lia|].
    pose proof (skipFrom_suffix false cur) as [k Hk]. change (skipFrom false cur) with (skipWSAndBlockComments cur) in Hk. rewrite Ecur in Hk.
    set (q0 := (length data - (length (x :: xs) + S (length (a1 ++ rest))))%nat). assert (Hdq : drop q0 data = (x :: xs) ++ 35 :: a1 ++ rest).
    { transitivity (drop (length data - length ((x :: xs) ++ 35 :: a1 ++ rest)) data); [f_equal; unfold q0; rewrite (length_app (x :: xs)); simpl; lia|].
      apply drop_suffix_of. exists ((pre ++ L) ++ k). rewrite Hdata, Hk. by rewrite <-!app_assoc. }
    assert (Hx : (x :: xs) ++ 35 :: a1 ++ rest = ((x :: xs) ++ 35 :: a1) ++ rest) by (by rewrite <-app_assoc). rewrite Hdq, Hx, nextLine_line.
    + rewrite Hnext. replace (lineDirective line) with (@None IncludeDirective); [done|]. unfold lineDirective. rewrite Hskipline. cbn [app]. destruct (Z.eqb_spec x 35) as [->|]; [exfalso|done].
       apply Hbc. rewrite Hk. apply elem_of_app. right. by left.
    + apply not_elem_of_app. split; [intros Hin; apply Hcur; rewrite Hk; apply elem_of_app; by right|]. by apply not_elem_of_cons.
Qed.

Lemma block_lines data track : NoOpen data → parseCIncludesBlock data track = Some (omap lineDirective (rawLines data), false).
Proof. intros Hno. by apply (blockLoop_lines (length data) [] data 0 track Hno); [left|]. Qed.

Lemma block_total data track : ∃ r, parseCIncludesBlock data track = Some r.
Proof. apply blockLoop_total; lia. Qed.

Lemma parseBlock_total state data : ∃ r, parseBlock state data = Some r.
Proof. unfold parseBlock. destruct state; [destruct (indexPair 42 47 data); [|by eexists]|]; apply block_total. Qed.

Lemma lastNewline_Some s a r : lastNewline s = Some (a, r) → s = a ++ 10 :: r ∧ 10 ∉ r.
Proof.
  unfold lastNewline. destruct (cutByte 10 (reverse s)) as [[x y]|] eqn:E; [|done]. intros [= <- <-]. apply cutByte_Some in E as [E Hx].
  rewrite <-(reverse_involutive s), E, reverse_app, reverse_cons, <-app_assoc. split; [done|]. by rewrite elem_of_reverse.
Qed.

Lemma lastNewline_None s : lastNewline s = None → 10 ∉ s.
Proof. unfold lastNewline. destruct (cutByte 10 (reverse s)) as [[]|] eqn:E; [done|]. intros _. apply cutByte_None in E. by rewrite elem_of_reverse in E. Qed.

Lemma blockThen_total state data next : (∀ s, ∃ ds, next s = Some ds) → ∃ ds, blockThen state data next = Some ds.
Proof. intros Hn. unfold blockThen. destruct (parseBlock_total state data) as [[ds s] ->]. cbn [mbind option_bind]. destruct (Hn s) as [ds' ->]. by eexists. Qed.

Lemma chunkRest_total last next state chunk : (∀ s p, ∃ ds, next s p = Some ds) → ∃ ds, chunkRest last next state chunk = Some ds.
Proof. intros Hn. unfold chunkRest. destruct last; [destruct chunk|destruct (lastNewline chunk) as [[]|]]; try apply Hn; apply blockThen_total; intros s; apply Hn. Qed.

Lemma cChunks_total state pending chunks : ∃ ds, cChunks state pending chunks = Some ds.
Proof.
  revert state pending. induction chunks as [|chunk chunks IH]; intros state pending; [by eexists|]. cbn [cChunks].
  destruct pending; [by apply chunkRest_total|]. destruct (cutByte 10 chunk) as [[]|]; [apply blockThen_total; intros s; by apply chunkRest_total|].
  destruct chunks; [by apply blockThen_total; intros s|apply IH].
Qed.

(** The C include parser ends on every file, however the file is cut into chunks: the fuel of its loops (the length of the data) is enough, and its indices stay inside the data. *)
Theorem parse_chunks_total chunks : ∃ ds, parseCIncludesChunks chunks = Some ds.
Proof.
  unfold parseCIncludesChunks, parseCIncludes. destruct chunks as [|data [|c cs]]; try apply cChunks_total. destruct (block_total data false) as [r ->]. by eexists.
Qed.

(** What is expected of a file: the directive of each of its lines. *)
Definition lineDirectives (s : text) : list IncludeDirective := omap lineDirective (rawLines s).

Lemma lineDirectives_app a b : whole a → lineDirectives (a ++ b) = lineDirectives a ++ lineDirectives b.
Proof. intros Hw. unfold lineDirectives. by rewrite raw_app, omap_app. Qed.

Lemma blockThen_lines data next : NoOpen data → blockThen false data next = (ds ← next false; Some (lineDirectives data ++ ds)).
Proof. intros Hno. unfold blockThen, parseBlock. by rewrite block_lines. Qed.

Lemma whole_newline a : whole (a ++ [10]).
Proof. right. by exists a. Qed.

Lemma nl_assoc (a x : text) : a ++ 10 :: x = (a ++ [10]) ++ x.
Proof. by rewrite <-app_assoc. Qed.

Lemma NoOpen_nil : NoOpen [].
Proof. intros [|? l] r; discriminate. Qed.

Lemma NoOpen_infix a b c : NoOpen (a ++ b ++ c) → NoOpen b.
Proof. intros H%NoOpen_app_r. by apply NoOpen_app_l in H. Qed.
#[local] Hint Resolve whole_newline NoOpen_app_l NoOpen_app_r NoOpen_infix : core.

Lemma chunkRest_lines next chunk chunks : NoOpen (chunk ++ mjoin chunks) →
  (∀ pending, NoOpen (pending ++ mjoin chunks) → 10 ∉ pending → (chunks = [] → pending = []) → next false pending = Some (lineDirectives (pending ++ mjoin chunks))) →
  chunkRest (match chunks with [] => true | _ => false end) next false chunk = Some (lineDirectives (chunk ++ mjoin chunks)).
Proof.
  intros Hno Hn. unfold chunkRest. destruct chunks as [|c cs].
  - cbn [mjoin list_join] in *. rewrite app_nil_r in *. destruct chunk as [|b chunk]; [by rewrite Hn; [|apply NoOpen_nil|apply not_elem_of_nil|]|].
    rewrite blockThen_lines, Hn by (done || apply NoOpen_nil || apply not_elem_of_nil). cbn [mbind option_bind app]. unfold lineDirectives at 2. cbn. by rewrite app_nil_r.
  - destruct (lastNewline chunk) as [[a r]|] eqn:E; [apply lastNewline_Some in E as [-> Hr]|apply lastNewline_None in E; by apply Hn].
    rewrite <-app_assoc in *. cbn [app] in *. rewrite (nl_assoc a (r ++ _)) in Hno |- *.
    rewrite blockThen_lines by eauto. rewrite Hn by (discriminate || solve [eauto]). cbn [mbind option_bind]. rewrite (lineDirectives_app (a ++ [10])) by apply whole_newline. done.
Qed.

Lemma cChunks_lines pending chunks : NoOpen (pending ++ mjoin chunks) → 10 ∉ pending → (chunks = [] → pending = []) →
  cChunks false pending chunks = Some (lineDirectives (pending ++ mjoin chunks)).
Proof.
  revert pending. induction chunks as [|chunk chunks IH]; intros pending Hno Hp He; [by rewrite He|]. cbn [cChunks mjoin list_join] in *. destruct pending as [|b pending]; [by apply chunkRest_lines|].
  set (pd := b :: pending) in *. destruct (cutByte 10 chunk) as [[a r]|] eqn:E.
  - apply cutByte_Some in E as [-> Ha]. rewrite <-app_assoc in *. cbn [app] in *. rewrite (nl_assoc a (r ++ _)), (app_assoc pd (a ++ [10])) in Hno |- *. rewrite blockThen_lines by eauto.
    rewrite chunkRest_lines by eauto. cbn [mbind option_bind]. rewrite (lineDirectives_app (pd ++ a ++ [10])); [done|]. rewrite app_assoc. apply whole_newline.
  - apply cutByte_None in E. assert (Hn : 10 ∉ pd ++ chunk) by (by apply not_elem_of_app). rewrite (app_assoc pd) in *. destruct chunks as [|c cs].
    + cbn [mjoin list_join] in *. rewrite app_nil_r in *. rewrite blockThen_lines by done. cbn. by rewrite app_nil_r.
    + by apply IH.
Qed.

(** C20: On files without an opening comment mark, however they are cut into chunks, the C include parser finds the directive of each line and nothing else, so the cuts do not matter. *)
Theorem parse_chunks_lines chunks : NoOpen (mjoin chunks) → parseCIncludesChunks chunks = Some (lineDirectives (mjoin chunks)) ∧ parseCIncludes (mjoin chunks) = Some (lineDirectives (mjoin chunks)).
Proof.
  intros Hno. assert (Hone : ∀ s, NoOpen s → parseCIncludes s = Some (lineDirectives s)) by (intros s Hs; unfold parseCIncludes; by rewrite block_lines).
  split; [|by apply Hone]. unfold parseCIncludesChunks. destruct chunks as [|c [|d ds]]; try (apply cChunks_lines; [done|apply not_elem_of_nil|done]).
  cbn [mjoin list_join] in *. rewrite app_nil_r in *. by apply Hone.
Qed.

Lemma NoOpen_check s : indexPair 47 42 s = None → NoOpen s.
Proof.
  intros Hi l r ->. revert Hi. induction l as [|x l IH]; [done|]. destruct l as [|y l]; cbn [app].
  - rewrite indexPair_cons. destruct (_ && _); [done|]. rewrite indexPair_cons. done.
  - rewrite indexPair_cons. destruct (_ && _); [done|]. destruct (indexPair 47 42 (y :: l ++ 47 :: 42 :: r)) eqn:E; [done|]. intros _. by apply IH.
Qed.

(** Two lines with directives, cut in the middle of a name. *)
Definition example_chunks : list text := [bs "#include <a.h>
 # import "; bs "<b"; bs "/c.h> // last"].

Lemma parse_chunks_lines_witness : parseCIncludesChunks example_chunks = Some [mkDirective includeSystem (bs "a.h"); mkDirective includeSystem (bs "b/c.h")].
Proof.
  destruct (parse_chunks_lines example_chunks) as [-> _]; [by apply NoOpen_check; vm_compute|]. by vm_compute.
Defined.

(** With block comments the cuts do matter: after a comment that starts a line and closes on the line of a directive, the directive is passed over in the whole file and found when a chunk ends inside the comment. *)
Theorem cuts_matter : ∃ chunks, parseCIncludesChunks chunks ≠ parseCIncludes (mjoin chunks).
Proof. exists [bs "/*
"; bs "*/ #include <x>"]. by vm_compute. Qed.
