(* ===== verification/Trie.v ===== *)
(** * Double-array tries (darts.go, ext_matcher.go)

    A set of keys is entered in a trie of linked edges, the trie is laid out in
    two arrays, [base] and [check], and a text is looked up by array steps without
    bounds checks.  Shown: the look-up finds the longest key the text begins
    with, and touches no cell outside the arrays. *)

From S2P Require Import Prelude.
Local Open Scope Z_scope.

Abbreviation text := (list Z) (only parsing).

Record Darts := mkDarts { base : list Z; check : list Z; value : list Z; baseHint : Z }.
Record DartsNode := mkDNode { first : Z; nkey : Z }.
Record DartsEdge := mkDEdge { enext : Z; child : Z; code : Z }.

(** ** The trie *)

(** [for edge := first; edge != 0; edge = edges[edge].next] *)
Fixpoint walk (fuel : nat) (edges : list DartsEdge) (e : Z) : option (list DartsEdge) :=
  match fuel with
  | O => None
  | S fuel =>
      if e =? 0 then Some []
      else ed ← zget edges e; more ← walk fuel edges (enext ed); Some (ed :: more)
  end.

Definition edgesOf (nodes : list DartsNode) (edges : list DartsEdge) (n : Z) : option (list DartsEdge) :=
  nd ← zget nodes n; walk (S (length edges)) edges (first nd).

(** One byte of a key: the child of node [n], made if there is none. *)
Definition addByte (nodes : list DartsNode) (edges : list DartsEdge) (n b : Z)
    : option (list DartsNode * list DartsEdge * Z) :=
  ks ← edgesOf nodes edges n;
  let c := match List.find (λ ed, code ed =? b) ks with Some ed => child ed | None => 0 end in
  if c =? 0 then
    nd ← zget nodes n;
    let c := Z.of_nat (length nodes) in
    nodes ← zset (nodes ++ [mkDNode 0 0]) n (mkDNode (Z.of_nat (length edges)) (nkey nd));
    Some (nodes, edges ++ [mkDEdge (first nd) c b], c)
  else Some (nodes, edges, c).

Fixpoint addBytes (nodes : list DartsNode) (edges : list DartsEdge) (n : Z) (k : text)
    : option (list DartsNode * list DartsEdge * Z) :=
  match k with
  | [] => Some (nodes, edges, n)
  | b :: k => '(nodes, edges, n) ← addByte nodes edges n b; addBytes nodes edges n k
  end.

Fixpoint addKeys (nodes : list DartsNode) (edges : list DartsEdge) (i : Z) (keys : list text)
    : option (list DartsNode * list DartsEdge) :=
  match keys with
  | [] => Some (nodes, edges)
  | k :: keys =>
      '(nodes, edges, n) ← addBytes nodes edges 0 k;
      nd ← zget nodes n;
      nodes ← zset nodes n (mkDNode (first nd) (i + 1));
      addKeys nodes edges (i + 1) keys
  end.

(** ** The arrays *)

Definition ensure (d : Darts) (n : Z) : Darts :=
  let k := Z.to_nat (n + 1) in
  let pad l := l ++ replicate (k - length l) 0 in
  mkDarts (pad (base d)) (pad (check d)) (pad (value d)) (baseHint d).

Definition maxCode (codes : list Z) : Z := foldl (λ m c, if m <? c then c else m) 0 codes.

(** All the cells of the codes are free at [b]; [None]: a cell does not exist. *)
Fixpoint free (d : Darts) (b : Z) (codes : list Z) : option bool :=
  match codes with
  | [] => Some true
  | c :: codes => x ← zget (check d) (b + c); if negb (x =? 0) then Some false else free d b codes
  end.

Fixpoint findBase_loop (fuel : nat) (d : Darts) (b : Z) (codes : list Z) : option (Darts * Z) :=
  match fuel with
  | O => None
  | S fuel =>
      let d := ensure d (b + maxCode codes) in
      f ← free d b codes;
      if (f : bool) then Some (mkDarts (base d) (check d) (value d) b, b)
      else findBase_loop fuel d (b + 1) codes
  end.

Definition findBase (d : Darts) (codes : list Z) : option (Darts * Z) :=
  findBase_loop (S (length (check d)) + 1) d (if baseHint d <? 1 then 1 else baseHint d) codes.

(** The children of one state. *)
Fixpoint place (d : Darts) (nodes : list DartsNode) (state b : Z) (ks : list DartsEdge) : option (Darts * list (Z * Z)) :=
  match ks with
  | [] => Some (d, [])
  | ed :: ks =>
      let t := b + (code ed + 1) in
      check' ← zset (check d) t (state + 1);
      nd ← zget nodes (child ed);
      value' ← zset (value d) t (nkey nd);
      '(d, q) ← place (mkDarts (base d) check' value' (baseHint d)) nodes state b ks;
      Some (d, (child ed, t) :: q)
  end.

(** The queue of nodes and their states. *)
Fixpoint build (fuel : nat) (d : Darts) (nodes : list DartsNode) (edges : list DartsEdge) (queue : list (Z * Z)) : option Darts :=
  match queue with
  | [] => Some d
  | (n, state) :: queue =>
      match fuel with
      | O => None
      | S fuel =>
          ks ← edgesOf nodes edges n;
          if bool_decide (ks = []) then build fuel d nodes edges queue
          else
            '(d, b) ← findBase d ((λ ed, code ed + 1) <$> ks);
            base' ← zset (base d) state b;
            '(d, more) ← place (mkDarts base' (check d) (value d) (baseHint d)) nodes state b ks;
            build fuel d nodes edges (queue ++ more)
      end
  end.

Definition newDarts (keys : list text) : option Darts :=
  '(nodes, edges) ← addKeys [mkDNode 0 0] [mkDEdge 0 0 0] 0 keys;
  build (length nodes) (mkDarts [0] [0] [0] 0) nodes edges [(0, 0)].

(** ** Look-up *)

(** [None]: an access out of the arrays; [Some None]: no such transition. *)
Definition transition (d : Darts) (st b : Z) : option (option Z) :=
  x ← zget (base d) st;
  let t := x + b + 1 in
  if Z.of_nat (length (check d)) <=? t then Some None
  else c ← zget (check d) t; if negb (c =? st + 1) then Some None else Some (Some t).

Fixpoint match_loop (d : Darts) (st best : Z) (found : bool) (s : text) : option (Z * bool) :=
  match s with
  | [] => Some (best, found)
  | b :: s =>
      t ← transition d st b;
      match t with
      | None => Some (best, found)
      | Some t =>
          v ← zget (value d) t;
          if negb (v =? 0) then match_loop d t (v - 1) true s else match_loop d t best found s
      end
  end.

Definition longestMatch (d : Darts) (parts : list text) : option (Z * bool) := match_loop d 0 0 false (mjoin parts).
Definition longestSuffixMatch (d : Darts) (s : text) : option (Z * bool) := match_loop d 0 0 false (reverse s).

(** The calls [visit(key, whole)]. *)
Fixpoint walk_loop (d : Darts) (st : Z) (s : text) : option (list (Z * bool)) :=
  match s with
  | [] => Some []
  | b :: s =>
      t ← transition d st b;
      match t with
      | None => Some []
      | Some t =>
          v ← zget (value d) t;
          more ← walk_loop d t s;
          Some (if negb (v =? 0) then (v - 1, bool_decide (s = [])) :: more else more)
      end
  end.
Definition walkKeys (d : Darts) (s : text) : option (list (Z * bool)) := walk_loop d 0 s.

(** ext_matcher.go *)
Record ExtMatcher (T : Type) := mkExt { darts : Darts; values : list T }.
Arguments mkExt {T}.
Arguments darts {T}.
Arguments values {T}.

Definition newExtMatcher {T} (entries : list (text * T)) : option (ExtMatcher T) :=
  d ← newDarts (reverse <$> entries.*1); Some (mkExt d entries.*2).

Definition extMatch {T} (m : ExtMatcher T) (path : text) : option (option T) :=
  '(i, ok) ← longestSuffixMatch (darts m) path;
  if (ok : bool) then v ← zget (values m) i; Some (Some v) else Some None.

(** ** The trie is right *)

(** The number of the last occurrence of a key, from 1; 0 if there is none. *)
Fixpoint keyNumber (i : Z) (keys : list text) (p : text) : Z :=
  match keys with
  | [] => 0
  | k :: keys => let r := keyNumber (i + 1) keys p in if r =? 0 then if decide (k = p) then i + 1 else 0 else r
  end.

(** Edges point to earlier edges. *)
Definition edges_ok (edges : list DartsEdge) : Prop :=
  edges ≠ [] ∧ ∀ i ed, edges !! S i = Some ed → 0 <= enext ed < Z.of_nat (S i).

Lemma walk_app edges more fuel e : edges_ok edges → 0 <= e < Z.of_nat (length edges) → e < Z.of_nat fuel →
  ∃ ks, walk fuel edges e = Some ks ∧ walk fuel (edges ++ more) e = Some ks ∧ Forall (λ ed, ed ∈ edges) ks.
Proof.
  intros [Hne Hok]. revert e. induction fuel as [|fuel IH]; intros e He Hf; [lia|]. cbn [walk].
  destruct (Z.eqb_spec e 0) as [->|Hz]; [by exists []|].
  destruct (lookup_lt_is_Some_2 edges (Z.to_nat e)) as [ed Hed]; [lia|].
  assert (Hg : zget edges e = Some ed) by (rewrite <-(Z2Nat.id e) by lia; by rewrite zget_nat).
  assert (Hg' : zget (edges ++ more) e = Some ed).
  { rewrite <-(Z2Nat.id e) by lia. rewrite zget_nat. by apply lookup_app_l_Some. }
  rewrite Hg, Hg'. cbn [mbind option_bind]. destruct (Z.to_nat e) as [|i] eqn:Hi; [lia|].
  specialize (Hok i ed Hed). destruct (IH (enext ed)) as (ks & -> & -> & Hks); [lia..|]. eexists. split; [done|]. split; [done|].
  constructor; [by eapply list_elem_of_lookup_2|done].
Qed.

(** More fuel does not matter. *)
Lemma walk_fuel edges fuel fuel' e : edges_ok edges → 0 <= e < Z.of_nat (length edges) → e < Z.of_nat fuel → e < Z.of_nat fuel' →
  walk fuel edges e = walk fuel' edges e.
Proof.
  intros [Hne Hok]. revert fuel' e. induction fuel as [|fuel IH]; intros fuel' e He Hf Hf'; [lia|].
  destruct fuel' as [|fuel']; [lia|]. cbn [walk]. destruct (Z.eqb_spec e 0) as [->|Hz]; [done|].
  destruct (zget edges e) as [ed|] eqn:Hed; [|done]. cbn [mbind option_bind].
  pose proof (zget_Some_range _ _ _ Hed). rewrite <-(Z2Nat.id e) in Hed by lia. rewrite zget_nat in Hed.
  destruct (Z.to_nat e) as [|i] eqn:Hi; [lia|]. specialize (Hok i ed Hed). by rewrite (IH fuel') by lia.
Qed.

(** The nodes of the trie stand for texts; [P] lists them by node. *)
Record trie_ok (nodes : list DartsNode) (edges : list DartsEdge) (P : list text) : Prop := {
  t_len : length P = length nodes;
  t_root : P !! 0%nat = Some [];
  t_nodup : NoDup P;
  t_closed : ∀ q b, q ++ [b] ∈ P → q ∈ P;
  t_edges : edges_ok edges;
  t_first : ∀ n nd, nodes !! n = Some nd → 0 <= first nd < Z.of_nat (length edges);
  t_kids : ∀ n p, P !! n = Some p → ∃ ks, edgesOf nodes edges (Z.of_nat n) = Some ks ∧ NoDup (code <$> ks) ∧
    Forall (λ ed, ∃ m : nat, child ed = Z.of_nat m ∧ (0 < m)%nat ∧ P !! m = Some (p ++ [code ed])) ks ∧
    (∀ b, p ++ [b] ∈ P → b ∈ code <$> ks) }.

Definition keys_ok (nodes : list DartsNode) (P : list text) (number : text → Z) : Prop :=
  ∀ n nd p, nodes !! n = Some nd → P !! n = Some p → nkey nd = number p.

Lemma edgesOf_Some nodes edges n nd : nodes !! n = Some nd → edgesOf nodes edges (Z.of_nat n) = walk (S (length edges)) edges (first nd).
Proof. intros Hn. unfold edgesOf. by rewrite zget_nat, Hn. Qed.

(** A new child of node [n]. *)
Lemma trie_grow nodes edges P n p nd b :
  trie_ok nodes edges P → P !! n = Some p → nodes !! n = Some nd → p ++ [b] ∉ P →
  trie_ok (<[n := mkDNode (Z.of_nat (length edges)) (nkey nd)]> (nodes ++ [mkDNode 0 0]))
    (edges ++ [mkDEdge (first nd) (Z.of_nat (length nodes)) b]) (P ++ [p ++ [b]]).
Proof.
  intros [Hlen Hroot Hnd Hcl Hed Hfirst Hkids] Hp Hn Hnew. pose proof (lookup_lt_Some _ _ _ Hn) as Hlt.
  pose proof (lookup_lt_Some _ _ _ Hp) as HltP. pose proof Hed as [Hne Hdec].
  assert (Hl0 : (0 < length edges)%nat) by (destruct edges; [done|simpl; lia]).
  assert (Hed' : edges_ok (edges ++ [mkDEdge (first nd) (Z.of_nat (length nodes)) b])).
  { split; [by destruct edges|]. intros i ed [Hi|[Hi Hi']]%lookup_app_Some; [by apply Hdec|].
    apply list_lookup_singleton_Some in Hi' as [Hi0 <-]. simpl. pose proof (Hfirst n nd Hn). lia. }
  split.
  - rewrite length_insert, !length_app. simpl. lia.
  - by apply lookup_app_l_Some.
  - apply NoDup_app. split_and!; [done| |apply NoDup_singleton]. intros x Hx ->%list_elem_of_singleton. done.
  - intros q c [Hq|Hq]%elem_of_app; apply elem_of_app; [left; by eapply Hcl|].
    apply list_elem_of_singleton in Hq. apply app_inj_tail in Hq as [-> _]. left. by eapply list_elem_of_lookup_2.
  - done.
  - intros j nd' Hj. rewrite length_app. simpl. destruct (decide (n = j)) as [<-|Hj'].
    + rewrite list_lookup_insert_eq in Hj by (rewrite length_app; lia). simplify_eq. simpl. lia.
    + rewrite list_lookup_insert_ne in Hj by done. apply lookup_app_Some in Hj as [Hj|[_ Hj]].
      * pose proof (Hfirst j nd' Hj). lia.
      * apply list_lookup_singleton_Some in Hj as [_ <-]. simpl. lia.
  - intros j q Hj. set (nodes' := <[n := _]> _). set (edges' := edges ++ _). apply lookup_app_Some in Hj as [Hj|[Hj1 Hj2]].
    + destruct (Hkids j q Hj) as (ks & Hks & Hndk & Hf & Hcomp).
      assert (Hold : ∀ ed, (∃ m : nat, child ed = Z.of_nat m ∧ (0 < m)%nat ∧ P !! m = Some (q ++ [code ed])) →
        ∃ m : nat, child ed = Z.of_nat m ∧ (0 < m)%nat ∧ (P ++ [p ++ [b]]) !! m = Some (q ++ [code ed])).
      { intros ed (m & ? & ? & ?). exists m. split_and!; [done..|]. by apply lookup_app_l_Some. }
      destruct (decide (n = j)) as [<-|Hne'].
      * simplify_eq. rewrite (edgesOf_Some _ _ _ nd Hn) in Hks.
        assert (Hn' : nodes' !! n = Some (mkDNode (Z.of_nat (length edges)) (nkey nd))).
        { apply list_lookup_insert_eq. rewrite length_app. lia. }
        exists (mkDEdge (first nd) (Z.of_nat (length nodes)) b :: ks). rewrite (edgesOf_Some _ _ _ _ Hn'). split_and!.
        -- assert (Hget : zget edges' (Z.of_nat (length edges)) = Some (mkDEdge (first nd) (Z.of_nat (length nodes)) b)).
           { rewrite zget_nat. unfold edges'. by rewrite lookup_app_r, Nat.sub_diag by lia. }
           cbn [first]. cbn [walk]. rewrite (proj2 (Z.eqb_neq _ 0)) by lia. rewrite Hget. cbn [mbind option_bind enext].
           pose proof (Hfirst n nd Hn). unfold edges'. rewrite length_app. simpl length. replace (length edges + 1)%nat with (S (length edges)) by lia.
           destruct (walk_app edges [mkDEdge (first nd) (Z.of_nat (length nodes)) b] (S (length edges)) (first nd) Hed ltac:(lia) ltac:(lia)) as (ks' & E1 & E2 & _).
           rewrite E1 in Hks. simplify_eq. by rewrite E2.
        -- csimpl. constructor; [|done]. intros Hin. apply list_elem_of_fmap in Hin as (ed & Hb & Hin). simpl in Hb.
           rewrite Forall_forall in Hf. destruct (Hf ed Hin) as (m & _ & _ & Hm). rewrite <-Hb in Hm. apply Hnew. by eapply list_elem_of_lookup_2.
        -- constructor; [|by eapply Forall_impl]. exists (length nodes). simpl. split_and!; [done|lia|].
           rewrite lookup_app_r, Hlen, Nat.sub_diag by lia. done.
        -- intros c [Hc|Hc]%elem_of_app; csimpl; apply elem_of_cons; [right; by apply Hcomp|].
           apply list_elem_of_singleton in Hc. apply app_inj_tail in Hc as [_ ->]. by left.
      * assert (Hjl : (j < length nodes)%nat) by (rewrite <-Hlen; by eapply lookup_lt_Some).
        destruct (lookup_lt_is_Some_2 nodes j Hjl) as [ndj Hndj]. rewrite (edgesOf_Some _ _ _ ndj Hndj) in Hks.
        exists ks. rewrite (edgesOf_Some nodes' edges' j ndj).
        2: { unfold nodes'. rewrite list_lookup_insert_ne by done. by apply lookup_app_l_Some. }
        pose proof (Hfirst j ndj Hndj). split_and!; [|done|by eapply Forall_impl|].
        -- destruct (walk_app edges [mkDEdge (first nd) (Z.of_nat (length nodes)) b] (S (length edges')) (first ndj) Hed) as (ks' & E1 & E2 & _);
             [lia|unfold edges'; rewrite length_app; simpl; lia|].
           unfold edges' in *. rewrite E2, <-E1. rewrite <-Hks. apply walk_fuel; [done|lia|rewrite length_app; simpl; lia|lia].
        -- intros c [Hc|Hc]%elem_of_app; [by apply Hcomp|]. apply list_elem_of_singleton in Hc. apply app_inj_tail in Hc as [-> _].
           destruct Hne'. by eapply (NoDup_lookup P).
    + apply list_lookup_singleton_Some in Hj2 as [Hj2 <-]. assert (j = length nodes) as -> by lia.
      exists []. assert (Hnj : nodes' !! length nodes = Some (mkDNode 0 0)).
      { unfold nodes'. rewrite list_lookup_insert_ne by lia. by rewrite lookup_app_r, Nat.sub_diag by lia. }
      rewrite (edgesOf_Some _ _ _ _ Hnj). split_and!; [done|constructor|constructor|].
      intros c [Hc|Hc]%elem_of_app; [destruct Hnew; by eapply Hcl|]. apply list_elem_of_singleton in Hc.
      apply (f_equal length) in Hc. rewrite length_app in Hc. simpl in Hc. lia.
Qed.

(** Nodes keep their texts. *)
Definition extends (P P' : list text) : Prop := ∀ n p, P !! n = Some p → P' !! n = Some p.

Lemma addByte_ok nodes edges P number n p b :
  trie_ok nodes edges P → keys_ok nodes P number → (∀ q, q ∉ P → number q = 0) → P !! n = Some p →
  ∃ nodes' edges' P' (m : nat), addByte nodes edges (Z.of_nat n) b = Some (nodes', edges', Z.of_nat m) ∧
    trie_ok nodes' edges' P' ∧ keys_ok nodes' P' number ∧ extends P P' ∧ P' !! m = Some (p ++ [b]) ∧
    (length nodes' <= S (length nodes))%nat ∧ (∀ q, q ∈ P' → q ∈ P ∨ q = p ++ [b]).
Proof.
  intros Ht Hk Hno Hp. pose proof (t_kids _ _ _ Ht n p Hp) as (ks & Hks & Hnd & Hf & Hcomp). unfold addByte. rewrite Hks. cbn [mbind option_bind].
  assert (Hnl : (n < length nodes)%nat) by (rewrite <-(t_len _ _ _ Ht); by eapply lookup_lt_Some).
  destruct (lookup_lt_is_Some_2 nodes n Hnl) as [nd Hn].
  destruct (List.find (λ ed, code ed =? b) ks) as [ed|] eqn:Hfind.
  - apply find_some in Hfind as [Hin Hb%Z.eqb_eq]. apply list_elem_of_In in Hin. rewrite Forall_forall in Hf.
    destruct (Hf ed Hin) as (m & Hm & Hm0 & HP). subst b. rewrite (proj2 (Z.eqb_neq (child ed) 0)) by lia.
    exists nodes, edges, P, m. rewrite Hm. by split_and!; [| | |intros ? ?| |lia|intros q ?; left].
  - assert (Hnew : p ++ [b] ∉ P).
    { intros Hin%Hcomp. apply list_elem_of_fmap in Hin as (ed & -> & Hin). pose proof (find_none _ _ Hfind ed (proj1 (list_elem_of_In _ _) Hin)) as Hb.
      simpl in Hb. by rewrite Z.eqb_refl in Hb. }
    rewrite Z.eqb_refl, zget_nat, Hn. cbn [mbind option_bind]. unfold zset. rewrite bool_decide_true by (rewrite length_app; simpl; lia).
    cbn [mbind option_bind]. rewrite Nat2Z.id. eexists _, _, (P ++ [p ++ [b]]), (length nodes). split; [done|].
    split; [by apply trie_grow|]. split_and!.
    + intros j nd' q Hj Hq. destruct (decide (n = j)) as [<-|Hne].
      * rewrite list_lookup_insert_eq in Hj by (rewrite length_app; lia). simplify_eq. simpl.
        rewrite lookup_app_l in Hq by (rewrite (t_len _ _ _ Ht); lia). by eapply Hk.
      * rewrite list_lookup_insert_ne in Hj by done. apply lookup_app_Some in Hj as [Hj|[Hj1 Hj2]].
        -- rewrite lookup_app_l in Hq by (rewrite (t_len _ _ _ Ht); by eapply lookup_lt_Some). by eapply Hk.
        -- apply list_lookup_singleton_Some in Hj2 as [? <-]. simpl. symmetry. apply Hno.
           rewrite lookup_app_r in Hq by (rewrite (t_len _ _ _ Ht); lia). by apply list_lookup_singleton_Some in Hq as [_ <-].
    + intros j q Hj. by apply lookup_app_l_Some.
    + rewrite lookup_app_r, (t_len _ _ _ Ht), Nat.sub_diag by (rewrite (t_len _ _ _ Ht); lia). done.
    + rewrite length_insert, length_app. simpl. lia.
    + intros q [Hq|Hq%list_elem_of_singleton]%elem_of_app; auto.
Qed.

Lemma addBytes_ok k nodes edges P number n p :
  trie_ok nodes edges P → keys_ok nodes P number → (∀ q, q ∉ P → number q = 0) → P !! n = Some p →
  ∃ nodes' edges' P' (m : nat), addBytes nodes edges (Z.of_nat n) k = Some (nodes', edges', Z.of_nat m) ∧
    trie_ok nodes' edges' P' ∧ keys_ok nodes' P' number ∧ extends P P' ∧ P' !! m = Some (p ++ k) ∧
    (length nodes' <= length nodes + length k)%nat ∧ (∀ q, q ∈ P' → q ∈ P ∨ ∃ j, q = p ++ take j k).
Proof.
  revert nodes edges P n p. induction k as [|b k IH]; intros nodes edges P n p Ht Hk Hno Hp.
  { exists nodes, edges, P, n. rewrite app_nil_r. by split_and!; [| | |intros ? ?| |simpl; lia|intros q ?; left]. }
  destruct (addByte_ok nodes edges P number n p b) as (nodes1 & edges1 & P1 & m1 & E1 & Ht1 & Hk1 & Hx1 & HP1 & Hl1 & Ho1); [done..|].
  cbn [addBytes]. rewrite E1. cbn [mbind option_bind].
  destruct (IH nodes1 edges1 P1 m1 (p ++ [b])) as (nodes2 & edges2 & P2 & m2 & E2 & Ht2 & Hk2 & Hx2 & HP2 & Hl2 & Ho2); [done|done| |done|].
  { intros q Hq. apply Hno. intros [j Hj]%list_elem_of_lookup_1. apply Hq. eapply list_elem_of_lookup_2. by apply Hx1. }
  exists nodes2, edges2, P2, m2. rewrite <-app_assoc in HP2. split_and!; [done..| |done|simpl; lia|].
  - intros j q Hj. by apply Hx2, Hx1.
  - intros q Hq. apply Ho2 in Hq as [Hq|(j & ->)]; [apply Ho1 in Hq as [Hq| ->]|]; [by left|right..].
    + by exists 1%nat.
    + exists (S j). simpl. by rewrite <-app_assoc.
Qed.

Lemma keyNumber_snoc i keys k p : 0 <= i →
  keyNumber i (keys ++ [k]) p = if decide (k = p) then i + Z.of_nat (length keys) + 1 else keyNumber i keys p.
Proof.
  revert i. induction keys as [|k' keys IH]; intros i Hi; cbn [keyNumber app length].
  - simpl. case_decide; [lia|done].
  - rewrite IH by lia. case_decide; [|done]. rewrite (proj2 (Z.eqb_neq _ 0)); lia.
Qed.

Definition number (keys : list text) (p : text) : Z := keyNumber 0 keys p.

Lemma number_none keys p : p ∉ keys → number keys p = 0.
Proof.
  unfold number. generalize 0 at 1. induction keys as [|k keys IH]; intros i Hp; [done|]. cbn [keyNumber].
  rewrite IH by set_solver. simpl. rewrite decide_False by set_solver. done.
Qed.

Definition total (keys : list text) : nat := sum_list (length <$> keys).

Lemma addKeys_ok todo done nodes edges P :
  trie_ok nodes edges P → keys_ok nodes P (number done) → (∀ k, k ∈ done → k ∈ P) →
  ∃ nodes' edges' P', addKeys nodes edges (Z.of_nat (length done)) todo = Some (nodes', edges') ∧
    trie_ok nodes' edges' P' ∧ keys_ok nodes' P' (number (done ++ todo)) ∧ (∀ k, k ∈ done ++ todo → k ∈ P') ∧
    (length nodes' <= length nodes + total todo)%nat ∧ (∀ q, q ∈ P' → q ∈ P ∨ ∃ k j, k ∈ todo ∧ q = take j k).
Proof.
  revert done nodes edges P. induction todo as [|k todo IH]; intros done nodes edges P Ht Hk Hin.
  { exists nodes, edges, P. rewrite app_nil_r. split_and!; [done..| |by intros q ?; left]. unfold total. simpl. lia. }
  cbn [addKeys].
  destruct (addBytes_ok k nodes edges P (number done) 0 []) as (nodes1 & edges1 & P1 & m & E1 & Ht1 & Hk1 & Hx1 & HP1 & Hl1 & Ho1); [done|done| |apply Ht|].
  { intros q Hq. apply number_none. intros Hd. by apply Hq, Hin. }
  change (Z.of_nat 0) with 0 in E1. rewrite E1. cbn [mbind option_bind]. simpl in HP1.
  assert (Hml : (m < length nodes1)%nat) by (rewrite <-(t_len _ _ _ Ht1); by eapply lookup_lt_Some).
  destruct (lookup_lt_is_Some_2 nodes1 m Hml) as [nd Hm]. rewrite zget_nat, Hm. cbn [mbind option_bind].
  unfold zset. rewrite bool_decide_true by lia. cbn [mbind option_bind]. rewrite Nat2Z.id.
  assert (Hfirst : ∀ j nd', <[m := mkDNode (first nd) (Z.of_nat (length done) + 1)]> nodes1 !! j = Some nd' →
    ∃ nd'', nodes1 !! j = Some nd'' ∧ first nd'' = first nd').
  { intros j nd' Hj. destruct (decide (m = j)) as [<-|Hne].
    - rewrite list_lookup_insert_eq in Hj by done. simplify_eq. by exists nd.
    - rewrite list_lookup_insert_ne in Hj by done. by exists nd'. }
  destruct (IH (done ++ [k]) (<[m := mkDNode (first nd) (Z.of_nat (length done) + 1)]> nodes1) edges1 P1)
    as (nodes2 & edges2 & P2 & E2 & Ht2 & Hk2 & Hin2 & Hl2 & Ho2).
  - destruct Ht1 as [? ? ? ? ? Hf Hkids]. split; try done.
    + by rewrite length_insert.
    + intros j nd' Hj. destruct (Hfirst j nd' Hj) as (nd'' & Hj' & <-). by eapply Hf.
    + intros j q Hj. destruct (Hkids j q Hj) as (ks & Hks & Hrest). exists ks. split; [|done]. rewrite <-Hks.
      assert (Hjl : (j < length nodes1)%nat) by (by rewrite <-t_len0; eapply lookup_lt_Some).
      destruct (lookup_lt_is_Some_2 (<[m := mkDNode (first nd) (Z.of_nat (length done) + 1)]> nodes1) j) as [nd' Hj']; [by rewrite length_insert|].
      destruct (Hfirst j nd' Hj') as (nd'' & Hj'' & Heq). by rewrite (edgesOf_Some _ _ _ _ Hj'), (edgesOf_Some _ _ _ _ Hj''), Heq.
  - intros j nd' q Hj Hq. unfold number. rewrite keyNumber_snoc by lia. destruct (decide (m = j)) as [<-|Hne].
    + rewrite list_lookup_insert_eq in Hj by done. simplify_eq. rewrite decide_True by done. simpl. lia.
    + rewrite list_lookup_insert_ne in Hj by done. rewrite decide_False; [by eapply Hk1|].
      intros ->. apply Hne. by eapply (NoDup_lookup P1); [apply Ht1|..].
  - intros q [Hq|Hq]%elem_of_app.
    + apply Hin in Hq. apply list_elem_of_lookup_1 in Hq as [j Hj]. eapply list_elem_of_lookup_2. by apply Hx1.
    + apply list_elem_of_singleton in Hq as ->. by eapply list_elem_of_lookup_2.
  - exists nodes2, edges2, P2. rewrite <-app_assoc in Hk2, Hin2. rewrite length_app in E2. simpl in E2.
    replace (Z.of_nat (length done + 1)) with (Z.of_nat (length done) + 1) in E2 by lia.
    split_and!; [done..| |].
    + rewrite length_insert in Hl2. unfold total in *. csimpl. lia.
    + intros q Hq. apply Ho2 in Hq as [Hq|(k' & j & Hin' & ->)]; [apply Ho1 in Hq as [Hq|[j ->]]|]; [by left|right..].
      * exists k, j. split; [by left|done].
      * exists k', j. split; [by right|done].
Qed.

Lemma trie_start : trie_ok [mkDNode 0 0] [mkDEdge 0 0 0] [[]].
Proof.
  split; try done.
  - apply NoDup_singleton.
  - intros q b Hq. apply list_elem_of_singleton in Hq. by destruct q.
  - intros n nd Hn. apply list_lookup_singleton_Some in Hn as [_ <-]. simpl. lia.
  - intros n p Hn. apply list_lookup_singleton_Some in Hn as [-> <-]. exists []. split_and!; [done|constructor|constructor|].
    intros b Hb. apply list_elem_of_singleton in Hb. done.
Qed.

Lemma keys_start : keys_ok [mkDNode 0 0] [[]] (number []).
Proof. intros n nd p Hn _. apply list_lookup_singleton_Some in Hn as [_ <-]. done. Qed.

(** ** The arrays are right *)

Definition pad (l : list Z) (k : nat) : list Z := l ++ replicate (k - length l) 0.

Lemma zget_pad l k t : zget (pad l k) t = match zget l t with Some x => Some x | None => if decide (0 <= t < Z.of_nat k) then Some 0 else None end.
Proof.
  unfold zget, pad. destruct (bool_decide_reflect (0 <= t)) as [Ht|Ht]; [|rewrite decide_False by lia; done].
  destruct (decide (Z.to_nat t < length l)%nat) as [Hlt|Hge].
  - rewrite lookup_app_l by done. destruct (lookup_lt_is_Some_2 l _ Hlt) as [x ->]. done.
  - rewrite lookup_app_r, (lookup_ge_None_2 l) by lia. destruct (decide (0 <= t < Z.of_nat k)).
    + apply lookup_replicate. split; [done|lia].
    + apply lookup_ge_None_2. rewrite length_replicate. lia.
Qed.

Lemma length_pad l k : length (pad l k) = Nat.max (length l) k.
Proof. unfold pad. rewrite length_app, length_replicate. lia. Qed.

Definition same_len (d : Darts) : Prop := length (base d) = length (check d) ∧ length (value d) = length (check d).

Lemma maxCode_ge codes c : c ∈ codes → c <= maxCode codes.
Proof.
  unfold maxCode. generalize 0 at 1. induction codes as [|x codes IH]; intros m Hin; [by apply not_elem_of_nil in Hin|]. simpl.
  assert (Hmono : ∀ l m, m <= foldl (λ m c, if m <? c then c else m) m l).
  { clear. induction l as [|y l IH]; intros m; simpl; [lia|]. specialize (IH (if m <? y then y else m)). destruct (Z.ltb_spec m y); lia. }
  apply elem_of_cons in Hin as [->|Hin]; [|by apply IH]. pose proof (Hmono codes (if m <? x then x else m)). destruct (Z.ltb_spec m x); lia.
Qed.

Lemma maxCode_le codes B : 0 <= B → Forall (λ c, c <= B) codes → maxCode codes <= B.
Proof.
  intros HB Hf. unfold maxCode. assert (Hm : ∀ m, m <= B → foldl (λ m c, if m <? c then c else m) m codes <= B); [|by apply Hm].
  induction Hf as [|x codes Hx _ IH]; intros m Hm; simpl; [done|]. apply IH. destruct (m <? x); lia.
Qed.

Lemma free_spec d b codes : (∀ c, c ∈ codes → 0 <= b + c < Z.of_nat (length (check d))) →
  ∃ f, free d b codes = Some f ∧ (f = true ↔ ∀ c, c ∈ codes → zget (check d) (b + c) = Some 0).
Proof.
  induction codes as [|c codes IH]; intros Hr; cbn [free].
  { exists true. split; [done|]. split; [|done]. intros _ c Hc. by apply not_elem_of_nil in Hc. }
  destruct (lookup_lt_is_Some_2 (check d) (Z.to_nat (b + c))) as [x Hx]; [specialize (Hr c ltac:(by left)); lia|].
  assert (Hg : zget (check d) (b + c) = Some x).
  { specialize (Hr c ltac:(by left)). rewrite <-(Z2Nat.id (b + c)) by lia. by rewrite zget_nat. }
  rewrite Hg. cbn [mbind option_bind]. destruct (Z.eqb_spec x 0) as [->|Hne]; simpl.
  - destruct IH as (f & -> & Hf); [intros; apply Hr; by right|]. exists f. split; [done|]. rewrite Hf. split.
    + intros H c' [->|Hc]%elem_of_cons; [done|by apply H].
    + intros H c' Hc. apply H. by right.
  - exists false. split; [done|]. split; [done|]. intros H. specialize (H c ltac:(by left)). congruence.
Qed.

(** [d'] is [d] with zero cells added at the end. *)
Definition padded (d d' : Darts) : Prop :=
  ∃ k, base d' = pad (base d) k ∧ check d' = pad (check d) k ∧ value d' = pad (value d) k.

Lemma pad_pad l j k : pad (pad l j) k = pad l (Nat.max j k).
Proof.
  unfold pad. rewrite length_app, length_replicate, <-app_assoc, <-replicate_add. do 2 f_equal. lia.
Qed.

Lemma padded_trans d d1 d2 : padded d d1 → padded d1 d2 → padded d d2.
Proof.
  intros (j & Hb & Hc & Hv) (k & Hb' & Hc' & Hv'). exists (Nat.max j k).
  by rewrite Hb', Hc', Hv', Hb, Hc, Hv, !pad_pad.
Qed.

(** One attempt: the cells are free, or some cell of [b + codes] is taken. *)
Lemma findBase_try d b codes : 1 <= b → Forall (λ c, 1 <= c <= 256) codes →
  let d1 := ensure d (b + maxCode codes) in
  padded d d1 ∧ (length (check d1) <= Nat.max (length (check d)) (Z.to_nat b + 257))%nat ∧
  ∃ f, free d1 b codes = Some f ∧
    if (f : bool) then ∀ c, c ∈ codes → zget (check d1) (b + c) = Some 0
    else ∃ c x, c ∈ codes ∧ zget (check d) (b + c) = Some x ∧ x ≠ 0.
Proof.
  intros Hb Hc d1. set (k := Z.to_nat (b + maxCode codes + 1)).
  assert (Hmax : maxCode codes <= 256) by (apply maxCode_le; [lia|]; eapply Forall_impl; [exact Hc|]; simpl; lia).
  rewrite Forall_forall in Hc. assert (Hc1 : check d1 = pad (check d) k) by done.
  split; [by exists k|]. split; [rewrite Hc1, length_pad; lia|].
  destruct (free_spec d1 b codes) as (f & Hfree & Hfs).
  { intros c Hin. specialize (Hc c Hin). pose proof (maxCode_ge codes c Hin). rewrite Hc1, length_pad. lia. }
  exists f. split; [done|]. destruct f; [by apply Hfs|].
  destruct (decide (Forall (λ c, zget (check d1) (b + c) = Some 0) codes)) as [Hall|Hall].
  { rewrite Forall_forall in Hall. discriminate (proj2 Hfs Hall). }
  apply not_Forall_Exists in Hall; [|apply _]. apply Exists_exists in Hall as (c & Hin & Hx). exists c. 
  unfold compose in Hx. rewrite Hc1, zget_pad in Hx. destruct (zget (check d) (b + c)) as [x|].
  - exists x. split_and!; [done..|]. by intros ->.
  - destruct Hx. rewrite decide_True; [done|]. specialize (Hc c Hin). pose proof (maxCode_ge codes c Hin). lia.
Qed.

Lemma findBase_loop_ok fuel d L b codes :
  1 <= b → Forall (λ c, 1 <= c <= 256) codes → (L <= length (check d))%nat →
  Z.of_nat L <= b + Z.of_nat fuel → (∀ t c, zget (check d) t = Some c → Z.of_nat L <= t → c = 0) →
  ∃ d' b', findBase_loop (S fuel) d b codes = Some (d', b') ∧ padded d d' ∧ baseHint d' = b' ∧ b <= b' ∧
    b' <= Z.max b (Z.of_nat L) ∧ (length (check d') <= Nat.max (length (check d)) (Z.to_nat b' + 257))%nat ∧
    (∀ c, c ∈ codes → zget (check d') (b' + c) = Some 0).
Proof.
  revert d b. induction fuel as [|fuel IH]; intros d b Hb Hc HL Hf Hz;
    destruct (findBase_try d b codes Hb Hc) as (Hpad & Hlen & f & Hfree & Hcase);
    remember (ensure d (b + maxCode codes)) as d1 eqn:Hd1.
  all: assert (Hbig : f = false → b < Z.of_nat L).
  1,3: intros ->; destruct Hcase as (c & x & Hin & Hg & Hx); rewrite Forall_forall in Hc; specialize (Hc c Hin);
    destruct (decide (Z.of_nat L <= b + c)) as [Hle|Hgt]; [by destruct Hx; apply (Hz _ _ Hg)|lia].
  - destruct f; [|specialize (Hbig eq_refl); lia]. cbn [findBase_loop]. rewrite <-Hd1, Hfree. cbn [mbind option_bind].
    eexists _, b. split; [done|]. split_and!; [done|done|lia|lia|done|done].
  - change (findBase_loop (S (S fuel)) d b codes) with
      (let d := ensure d (b + maxCode codes) in f ← free d b codes;
       if (f : bool) then Some (mkDarts (base d) (check d) (value d) b, b) else findBase_loop (S fuel) d (b + 1) codes).
    cbv zeta. rewrite <-Hd1, Hfree. cbn [mbind option_bind]. destruct f.
    + eexists _, b. split; [done|]. split_and!; [done|done|lia|lia|done|done].
    + specialize (Hbig eq_refl). destruct Hpad as (k & Hpb & Hpc & Hpv).
      destruct (IH d1 (b + 1)) as (d' & b' & -> & Hpad' & Hhint & Hbb & Hmax & Hlen' & Hfree'); [lia|done| |lia| |].
      { rewrite Hpc, length_pad. lia. }
      { intros t c. rewrite Hpc, zget_pad. destruct (zget (check d) t) eqn:E; [intros [= <-]; by eapply Hz|]. case_decide; [by intros [= <-]|done]. }
      exists d', b'. split; [done|]. split_and!; [|done|lia|lia|lia|done]. eapply padded_trans; [|done]. by exists k.
Qed.

Lemma findBase_ok d codes : 0 <= baseHint d <= Z.of_nat (length (check d)) → (0 < length (check d))%nat → Forall (λ c, 1 <= c <= 256) codes →
  ∃ d' b, findBase d codes = Some (d', b) ∧ padded d d' ∧ baseHint d' = b ∧ 1 <= b <= Z.of_nat (length (check d)) ∧
    (length (check d') <= length (check d) + 257)%nat ∧ (∀ c, c ∈ codes → zget (check d') (b + c) = Some 0).
Proof.
  intros Hh Hl Hc. unfold findBase. rewrite Nat.add_1_r.
  destruct (findBase_loop_ok (S (length (check d))) d (length (check d)) (if baseHint d <? 1 then 1 else baseHint d) codes)
    as (d' & b & -> & Hp & Hb & H1 & H2 & H3 & H4); [destruct (Z.ltb_spec (baseHint d) 1); lia|done|lia|destruct (Z.ltb_spec (baseHint d) 1); lia| |].
  { intros t c Ht%zget_Some_range. lia. }
  exists d', b. destruct (Z.ltb_spec (baseHint d) 1); split_and!; (done || lia).
Qed.

(** Where [place] writes. *)
Definition cells (b : Z) (ks : list DartsEdge) : list (Z * Z) := (λ ed, (child ed, b + (code ed + 1))) <$> ks.

Lemma place_ok ks d nodes st b :
  same_len d → NoDup (code <$> ks) →
  (∀ ed, ed ∈ ks → is_Some (zget (check d) (b + (code ed + 1))) ∧ is_Some (zget nodes (child ed))) →
  ∃ d', place d nodes st b ks = Some (d', cells b ks) ∧ same_len d' ∧ base d' = base d ∧ baseHint d' = baseHint d ∧
    length (check d') = length (check d) ∧
    (∀ ed, ed ∈ ks → zget (check d') (b + (code ed + 1)) = Some (st + 1) ∧
      ∃ nd, zget nodes (child ed) = Some nd ∧ zget (value d') (b + (code ed + 1)) = Some (nkey nd)) ∧
    (∀ t, t ∉ (cells b ks).*2 → zget (check d') t = zget (check d) t ∧ zget (value d') t = zget (value d) t).
Proof.
  revert d. induction ks as [|ed ks IH]; intros d Hs Hnd Hr.
  { exists d. cbn [place]. split_and!; try done. intros ed Hin. by apply not_elem_of_nil in Hin. }
  csimpl in Hnd. apply NoDup_cons in Hnd as [Hnew Hnd]. destruct (Hr ed ltac:(by left)) as [[x Hx] [nd Hn]]. pose proof (zget_Some_range _ _ _ Hx) as Hrange.
  destruct Hs as [Hs1 Hs2]. cbn [place]. rewrite zset_in by done. cbn [mbind option_bind]. rewrite Hn. cbn [mbind option_bind].
  rewrite zset_in by lia. cbn [mbind option_bind]. set (t := b + (code ed + 1)) in *.
  destruct (IH (mkDarts (base d) (<[Z.to_nat t := st + 1]> (check d)) (<[Z.to_nat t := nkey nd]> (value d)) (baseHint d)))
    as (d' & -> & Hs' & Hb' & Hh' & Hl' & Hin' & Hout'); [| done | |].
  - split; simpl; by rewrite !length_insert.
  - intros ed' Hin. destruct (Hr ed' ltac:(by right)) as [Hc' Hn']. split; [|done]. cbn [check]. rewrite zget_insert by lia. by case_decide.
  - cbn [check value base baseHint] in *. rewrite length_insert in Hl'.
    assert (Hfresh : t ∉ (cells b ks).*2).
    { unfold cells. rewrite <-list_fmap_compose. intros (ed' & Ht & Hin)%list_elem_of_fmap. simpl in Ht. apply Hnew, list_elem_of_fmap. exists ed'. split; [lia|done]. }
    exists d'. cbn [mbind option_bind]. split_and!; try done.
    + intros ed' [->|Hin]%elem_of_cons; [|by apply Hin'].
      fold t. destruct (Hout' t Hfresh) as [-> ->]. rewrite !zget_insert_eq by lia. split; [done|]. by exists nd.
    + intros t' Ht'. csimpl in Ht'. apply not_elem_of_cons in Ht' as [Hne Ht']. destruct (Hout' t' Ht') as [-> ->].
      by rewrite !zget_insert_ne by (fold t in Hne; lia || done).
Qed.

(** [m] is the child of [n] along [b]. *)
Definition kid (P : list text) (n m : nat) (b : Z) : Prop := ∃ p, P !! n = Some p ∧ P !! m = Some (p ++ [b]).

Lemma kid_parent P n n' m b b' : NoDup P → kid P n m b → kid P n' m b' → n = n' ∧ b = b'.
Proof.
  intros Hnd (p & Hn & Hm) (p' & Hn' & Hm'). rewrite Hm in Hm'. apply Some_inj, app_inj_tail in Hm' as [-> ->].
  split; [|done]. by eapply (NoDup_lookup P).
Qed.

Lemma kid_child P n m m' b : NoDup P → kid P n m b → kid P n m' b → m = m'.
Proof. intros Hnd (p & Hn & Hm) (p' & Hn' & Hm'). simplify_eq. by eapply (NoDup_lookup P). Qed.

Lemma kid_irrefl P n b : ¬ kid P n n b.
Proof. intros (p & Hn & Hm). rewrite Hn in Hm. apply Some_inj, (f_equal length) in Hm. rewrite length_app in Hm. simpl in Hm. lia. Qed.

Lemma trie_kids nodes edges P n p : trie_ok nodes edges P → P !! n = Some p →
  ∃ ks, edgesOf nodes edges (Z.of_nat n) = Some ks ∧ NoDup (code <$> ks) ∧
    (∀ ed, ed ∈ ks → ∃ m : nat, child ed = Z.of_nat m ∧ kid P n m (code ed)) ∧
    (∀ m b, kid P n m b → ∃ ed, ed ∈ ks ∧ child ed = Z.of_nat m ∧ code ed = b).
Proof.
  intros Ht Hp. destruct (t_kids _ _ _ Ht n p Hp) as (ks & Hks & Hnd & Hf & Hc). exists ks. split_and!; [done..| |].
  - intros ed Hin. rewrite Forall_forall in Hf. destruct (Hf ed Hin) as (m & ? & _ & Hm). exists m. split; [done|]. by exists p.
  - intros m b (p' & Hp' & Hm). simplify_eq. pose proof (Hc b (list_elem_of_lookup_2 _ _ _ Hm)) as Hb.
    apply list_elem_of_fmap in Hb as (ed & -> & Hin). rewrite Forall_forall in Hf. destruct (Hf ed Hin) as (m' & Hm' & _ & Hm'').
    exists ed. split_and!; [done| |done]. rewrite Hm'. f_equal. by eapply (NoDup_lookup P); [apply Ht|..].
Qed.

(** [σ] gives the states of the nodes that have one; the nodes of the queue wait
    for their children to be placed. *)
Record layout (nodes : list DartsNode) (P : list text) (d : Darts) (σ : gmap nat Z) (queue : list (Z * Z)) : Prop := {
  l_same : same_len d;
  l_hint : 0 <= baseHint d <= Z.of_nat (length (check d));
  l_root : σ !! 0%nat = Some 0;
  l_dom : ∀ m t, σ !! m = Some t → (m < length P)%nat ∧ 0 <= t < Z.of_nat (length (check d));
  l_inj : ∀ m n t, σ !! m = Some t → σ !! n = Some t → m = n;
  l_value : ∀ m t nd, σ !! m = Some t → m ≠ 0%nat → nodes !! m = Some nd → zget (value d) t = Some (nkey nd);
  l_taken : ∀ m t, σ !! m = Some t → m ≠ 0%nat → ∃ c, zget (check d) t = Some c ∧ c ≠ 0;
  l_queue : ∀ z st, (z, st) ∈ queue → ∃ n : nat, z = Z.of_nat n ∧ σ !! n = Some st;
  l_nodup : NoDup queue.*1;
  l_todo : ∀ n m b, Z.of_nat n ∈ queue.*1 → kid P n m b → σ !! m = None;
  l_done : ∀ n m b st, σ !! n = Some st → Z.of_nat n ∉ queue.*1 → kid P n m b →
    ∃ x, zget (base d) st = Some x ∧ σ !! m = Some (x + b + 1) ∧ zget (check d) (x + b + 1) = Some (st + 1);
  l_check : ∀ t c, zget (check d) t = Some c → c ≠ 0 →
    ∃ n m b st x, c = st + 1 ∧ σ !! n = Some st ∧ Z.of_nat n ∉ queue.*1 ∧ kid P n m b ∧ zget (base d) st = Some x ∧
      t = x + b + 1 ∧ σ !! m = Some t;
  l_base : ∀ t x, zget (base d) t = Some x → 0 <= x }.

(** A placed node has a placed parent. *)
Lemma layout_parent nodes edges P d σ queue n m b : trie_ok nodes edges P → layout nodes P d σ queue →
  kid P n m b → is_Some (σ !! m) → is_Some (σ !! n).
Proof.
  intros Ht L Hk [t Hm]. assert (Hm0 : m ≠ 0%nat).
  { intros ->. destruct Hk as (p & _ & Hp). rewrite (t_root _ _ _ Ht) in Hp. by destruct p. }
  destruct (l_taken _ _ _ _ _ L m t Hm Hm0) as (c & Hc & Hne).
  destruct (l_check _ _ _ _ _ L t c Hc Hne) as (n' & m' & b' & st & x & _ & Hn' & _ & Hk' & _ & _ & Hm').
  pose proof (l_inj _ _ _ _ _ L m m' t Hm Hm') as <-. by destruct (kid_parent P n n' m b b' (t_nodup _ _ _ Ht) Hk Hk') as [<- _].
Qed.

Lemma layout_pad nodes P d d' σ queue : layout nodes P d σ queue → padded d d' → 0 <= baseHint d' <= Z.of_nat (length (check d')) →
  layout nodes P d' σ queue.
Proof.
  intros L (k & Hb & Hc & Hv) Hh. destruct L as [[Hs1 Hs2] _ Hroot Hdom Hinj Hval Htak Hq Hnd Htodo Hdone Hchk Hbase].
  assert (Hle : (length (check d) <= length (check d'))%nat) by (rewrite Hc, length_pad; lia).
  assert (Hg : ∀ l t x, zget l t = Some x → zget (pad l k) t = Some x) by (intros l t x Hx; by rewrite zget_pad, Hx).
  split; try done.
  - split; rewrite ?Hb, ?Hc, ?Hv, !length_pad; lia.
  - intros m t Hm. pose proof (Hdom m t Hm). split; [tauto|lia].
  - intros. rewrite Hv. eauto.
  - intros m t Hm Hne. destruct (Htak m t Hm Hne) as (c & ? & ?). exists c. rewrite Hc. eauto.
  - intros n m b st H1 H2 H3. destruct (Hdone n m b st H1 H2 H3) as (x & ? & ? & ?). exists x. rewrite Hb, Hc. eauto.
  - intros t c Ht Hne. rewrite Hc, zget_pad in Ht. destruct (zget (check d) t) as [c'|] eqn:E; [|case_decide; simplify_eq].
    simplify_eq. destruct (Hchk t c E Hne) as (n & m & b & st & x & ? & ? & ? & ? & ? & ? & ?).
    exists n, m, b, st, x. rewrite Hb. split_and!; eauto.
  - intros t x. rewrite Hb, zget_pad. destruct (zget (base d) t) eqn:E; [intros [= <-]; eauto|]. case_decide; [intros [= <-]; lia|done].
Qed.

Section Step.
  Context (nodes : list DartsNode) (edges : list DartsEdge) (P : list text) (Ht : trie_ok nodes edges P).
  Context (Hbyte : ∀ n m b, kid P n m b → 0 <= b < 256).
  Context (d : Darts) (σ : gmap nat Z) (n : nat) (st : Z) (queue : list (Z * Z)).
  Context (L : layout nodes P d σ ((Z.of_nat n, st) :: queue)).

Lemma head_not_queued : Z.of_nat n ∉ queue.*1.
Proof. pose proof (l_nodup _ _ _ _ _ L) as Hnd. csimpl in Hnd. by apply NoDup_cons in Hnd as [? _]. Qed.

Lemma head_kids m b : kid P n m b → σ !! m = None.
Proof. apply (l_todo _ _ _ _ _ L). csimpl. by left. Qed.

Lemma head_state : σ !! n = Some st.
Proof. destruct (l_queue _ _ _ _ _ L (Z.of_nat n) st ltac:(by left)) as (n' & Hn' & Hs). by apply Nat2Z.inj in Hn' as ->. Qed.

(** A node without children is done at once. *)
Lemma layout_leaf : (∀ m b, ¬ kid P n m b) → layout nodes P d σ queue.
Proof.
  intros Hno. pose proof L as [Hs Hh Hroot Hdom Hinj Hval Htak Hq Hnd Htodo Hdone Hchk Hbase]. csimpl in Hnd. csimpl in Htodo. csimpl in Hdone. csimpl in Hchk.
  split; try done.
  - intros z s Hin. apply Hq. by right.
  - by apply NoDup_cons in Hnd as [_ ?].
  - intros n' m b Hin Hk. eapply Htodo; [by right|done].
  - intros n' m b s Hs' Hin Hk. eapply Hdone; [done| |done]. intros [He|He]%elem_of_cons; [|done]. apply Nat2Z.inj in He as ->. by eapply Hno.
  - intros t c Hc Hne. destruct (Hchk t c Hc Hne) as (n' & m & b & s & x & ? & ? & Hin & ? & ? & ? & ?).
    apply not_elem_of_cons in Hin as [_ Hin]. exists n', m, b, s, x. by split_and!.
Qed.

  Context (d' : Darts) (σ' : gmap nat Z) (b : Z) (more : list (Z * Z)).
  Context (Hb : 1 <= b) (Hfree : ∀ m c, kid P n m c → zget (check d) (b + c + 1) = Some 0).
  Context (Hσ : ∀ m t, σ' !! m = Some t ↔ (∃ c, kid P n m c ∧ t = b + c + 1) ∨ σ !! m = Some t).
  Context (Hmore : ∀ z t, (z, t) ∈ more ↔ ∃ m c, z = Z.of_nat m ∧ kid P n m c ∧ t = b + c + 1).
  Context (Hnd' : NoDup more.*1) (Hsame : same_len d') (Hlen : length (check d') = length (check d)).
  Context (Hhint : 0 <= baseHint d' <= Z.of_nat (length (check d'))) (Hbase' : base d' = <[Z.to_nat st := b]> (base d)).
  Context (Hin : ∀ m c, kid P n m c → zget (check d') (b + c + 1) = Some (st + 1) ∧
    ∀ nd, nodes !! m = Some nd → zget (value d') (b + c + 1) = Some (nkey nd)).
  Context (Hout : ∀ t, t ∉ more.*2 → zget (check d') t = zget (check d) t ∧ zget (value d') t = zget (value d) t).

Lemma more_state t : t ∈ more.*2 ↔ ∃ m c, kid P n m c ∧ t = b + c + 1.
Proof.
  rewrite list_elem_of_fmap. split.
  - intros ([z t'] & -> & (m & c & _ & ? & ?)%Hmore). by exists m, c.
  - intros (m & c & Hk & ->). exists (Z.of_nat m, b + c + 1). split; [done|]. apply Hmore. by exists m, c.
Qed.

Lemma more_node m : Z.of_nat m ∈ more.*1 ↔ ∃ c, kid P n m c.
Proof.
  rewrite list_elem_of_fmap. split.
  - intros ([z t'] & Hz & (m' & c & -> & ? & ?)%Hmore). simpl in Hz. apply Nat2Z.inj in Hz as ->. by exists c.
  - intros (c & Hk). exists (Z.of_nat m, b + c + 1). split; [done|]. apply Hmore. by exists m, c.
Qed.

Lemma free_not_taken t c : zget (check d) t = Some c → c ≠ 0 → t ∉ more.*2.
Proof. intros Hc Hne Hm. apply more_state in Hm as (m & c' & Hk & ->). rewrite (Hfree m c' Hk) in Hc. congruence. Qed.

(** The new cells are the cells of no node. *)
Lemma new_not_old m t : σ !! m = Some t → t ∉ more.*2.
Proof.
  intros Hm. destruct (decide (m = 0%nat)) as [->|Hne].
  - rewrite (l_root _ _ _ _ _ L) in Hm. intros (m & c & Hk & Hc)%more_state. pose proof (Hbyte _ _ _ Hk). simplify_eq. lia.
  - destruct (l_taken _ _ _ _ _ L m t Hm Hne) as (c & Hc & Hc0). by eapply free_not_taken.
Qed.

Lemma base_other n' s : σ !! n' = Some s → n' ≠ n → zget (base d') s = zget (base d) s.
Proof.
  intros Hs Hne. rewrite Hbase'. apply zget_insert_ne; [apply (l_dom _ _ _ _ _ L n st head_state)|].
  intros <-. apply Hne. exact (l_inj _ _ _ _ _ L n' n st Hs head_state).
Qed.

Lemma base_head : zget (base d') st = Some b.
Proof.
  rewrite Hbase'. apply zget_insert_eq. pose proof (l_dom _ _ _ _ _ L n st head_state) as [_ ?].
  by rewrite (proj1 (l_same _ _ _ _ _ L)).
Qed.

Lemma queued' m : Z.of_nat m ∈ (queue ++ more).*1 ↔ Z.of_nat m ∈ queue.*1 ∨ ∃ c, kid P n m c.
Proof. by rewrite fmap_app, elem_of_app, more_node. Qed.

Lemma step_inj m m' t : σ' !! m = Some t → σ' !! m' = Some t → m = m'.
Proof.
  intros [(c & Hk & ->)|Hm]%Hσ [(c' & Hk' & He)|Hm']%Hσ.
  - assert (c = c') as <- by lia. by eapply kid_child; [apply Ht|..].
  - destruct (new_not_old m' _ Hm'). apply more_state. by exists m, c.
  - subst t. destruct (new_not_old m _ Hm). apply more_state. by exists m', c'.
  - by eapply (l_inj _ _ _ _ _ L).
Qed.

Lemma step_todo n' m c : Z.of_nat n' ∈ (queue ++ more).*1 → kid P n' m c → σ' !! m = None.
Proof.
  intros Hq Hk. destruct (σ' !! m) as [t|] eqn:Hm; [exfalso|done]. apply queued' in Hq. apply Hσ in Hm as [(c' & Hk' & _)|Hm].
  - destruct (kid_parent P n n' m c' c (t_nodup _ _ _ Ht) Hk' Hk) as [<- _]. destruct Hq as [Hq|[c'' Hq]]; [by apply head_not_queued|by apply kid_irrefl in Hq].
  - destruct Hq as [Hq|[c' Hq]].
    + rewrite (l_todo _ _ _ _ _ L n' m c) in Hm; [done|csimpl; by right|done].
    + destruct (layout_parent _ _ _ _ _ _ _ _ _ Ht L Hk (ex_intro _ t Hm)) as [t' Ht']. by rewrite (head_kids n' c' Hq) in Ht'.
Qed.

Lemma step_done n' m c s : σ' !! n' = Some s → Z.of_nat n' ∉ (queue ++ more).*1 → kid P n' m c →
  ∃ x, zget (base d') s = Some x ∧ σ' !! m = Some (x + c + 1) ∧ zget (check d') (x + c + 1) = Some (s + 1).
Proof.
  intros Hs Hq Hk. rewrite queued' in Hq. apply Hσ in Hs as [(c' & Hk' & _)|Hs]; [destruct Hq; right; by exists c'|].
  destruct (decide (n' = n)) as [->|Hne].
  - assert (s = st) as -> by (rewrite head_state in Hs; congruence). exists b. split; [apply base_head|]. split; [apply Hσ; left; by exists c|by apply (Hin m)].
  - destruct (l_done _ _ _ _ _ L n' m c s Hs) as (x & Hx & Hm & Hc); [|done|].
    { csimpl. intros [He|He]%elem_of_cons; [by apply Nat2Z.inj in He|]. destruct Hq. by left. }
    exists x. rewrite (base_other n' s Hs Hne). split; [done|]. split; [apply Hσ; by right|].
    pose proof (l_dom _ _ _ _ _ L n' s Hs) as [_ ?]. destruct (Hout (x + c + 1)) as [-> _]; [|done]. eapply free_not_taken; [done|lia].
Qed.

Lemma step_check t c : zget (check d') t = Some c → c ≠ 0 →
  ∃ n' m c' s x, c = s + 1 ∧ σ' !! n' = Some s ∧ Z.of_nat n' ∉ (queue ++ more).*1 ∧ kid P n' m c' ∧ zget (base d') s = Some x ∧
    t = x + c' + 1 ∧ σ' !! m = Some t.
Proof.
  intros Hc Hne. destruct (decide (t ∈ more.*2)) as [Hm|Hm].
  - apply more_state in Hm as (m & c' & Hk & ->). rewrite (proj1 (Hin m c' Hk)) in Hc. apply Some_inj in Hc as <-.
    exists n, m, c', st, b. split_and!; [done|apply Hσ; right; apply head_state| |done|apply base_head|done|apply Hσ; left; by exists c'].
    rewrite queued'. intros [Hq|[c'' Hq]]; [by apply head_not_queued|by apply kid_irrefl in Hq].
  - rewrite (proj1 (Hout t Hm)) in Hc. destruct (l_check _ _ _ _ _ L t c Hc Hne) as (n' & m & c' & s & x & -> & Hs & Hq & Hk & Hx & -> & Hm').
    csimpl in Hq. apply not_elem_of_cons in Hq as [Hn' Hq]. exists n', m, c', s, x.
    rewrite (base_other n' s Hs) by (intros ->; done). split_and!; [done|apply Hσ; by right| |done..|apply Hσ; by right].
    rewrite queued'. intros [?|[c'' Hk'']]; [done|]. by rewrite (head_kids n' c'' Hk'') in Hs.
Qed.

Lemma layout_step : layout nodes P d' σ' (queue ++ more).
Proof.
  split; [done|done|apply Hσ; right; apply L| |apply step_inj| | | | |apply step_todo|apply step_done|apply step_check|].
  - intros m t [(c & Hk & ->)|Hm]%Hσ; rewrite Hlen; [|by apply (l_dom _ _ _ _ _ L)].
    destruct Hk as (p & Hp & Hm). split; [by eapply lookup_lt_Some|]. eapply zget_Some_range, (Hfree m c). by exists p.
  - intros m t nd [(c & Hk & ->)|Hm]%Hσ Hne Hn; [by apply (Hin m)|]. rewrite (proj2 (Hout t (new_not_old m t Hm))). by eapply (l_value _ _ _ _ _ L).
  - intros m t [(c & Hk & ->)|Hm]%Hσ Hne.
    + exists (st + 1). split; [by apply (Hin m)|]. pose proof (l_dom _ _ _ _ _ L n st head_state). lia.
    + rewrite (proj1 (Hout t (new_not_old m t Hm))). by apply (l_taken _ _ _ _ _ L m).
  - intros z t [Hq|Hq]%elem_of_app.
    + destruct (l_queue _ _ _ _ _ L z t) as (n' & -> & Hn'); [by right|]. exists n'. split; [done|]. apply Hσ. by right.
    + apply Hmore in Hq as (m & c & -> & Hk & ->). exists m. split; [done|]. apply Hσ. left. by exists c.
  - rewrite fmap_app. apply NoDup_app. split_and!; [|intros z Hz Hz'|done].
    + pose proof (l_nodup _ _ _ _ _ L) as Hnd. csimpl in Hnd. by apply NoDup_cons in Hnd as [_ ?].
    + apply list_elem_of_fmap in Hz as ([z' t] & -> & Hz). destruct (l_queue _ _ _ _ _ L z' t) as (n' & -> & Hn'); [by right|].
      apply more_node in Hz' as [c Hk]. by rewrite (head_kids n' c Hk) in Hn'.
  - intros t x Hx. rewrite Hbase' in Hx. rewrite zget_insert in Hx; [case_decide; [simplify_eq; lia|by eapply (l_base _ _ _ _ _ L)]|].
    pose proof (l_dom _ _ _ _ _ L n st head_state) as [_ ?]. by rewrite (proj1 (l_same _ _ _ _ _ L)).
Qed.
End Step.

Section Build.
  Context (nodes : list DartsNode) (edges : list DartsEdge) (P : list text) (Ht : trie_ok nodes edges P).
  Context (Hbyte : ∀ n m b, kid P n m b → 0 <= b < 256).

Definition kidMap (b : Z) (ks : list DartsEdge) : gmap nat Z := list_to_map ((λ ed, (Z.to_nat (child ed), b + code ed + 1)) <$> ks).

Section KidMap.
  Context (n : nat) (ks : list DartsEdge) (b : Z) (Hnd : NoDup (code <$> ks)).
  Context (Hks : ∀ ed, ed ∈ ks → ∃ m : nat, child ed = Z.of_nat m ∧ kid P n m (code ed)).
  Context (Hall : ∀ m c, kid P n m c → ∃ ed, ed ∈ ks ∧ child ed = Z.of_nat m ∧ code ed = c).

Lemma children_nodup : NoDup (child <$> ks).
Proof using Hnd Hks Ht.
  clear Hall. induction ks as [|ed ks' IH]; [constructor|]. csimpl in Hnd. csimpl. apply NoDup_cons in Hnd as [Hnew Hnd']. constructor.
  - intros (ed' & He & Hin)%list_elem_of_fmap. apply Hnew. destruct (Hks ed ltac:(by left)) as (m & Hm & Hk).
    destruct (Hks ed' ltac:(by right)) as (m' & Hm' & Hk'). assert (m = m') as <- by lia.
    destruct (kid_parent P n n m _ _ (t_nodup _ _ _ Ht) Hk Hk') as [_ ->]. apply list_elem_of_fmap. by exists ed'.
  - apply IH; [done|]. intros; apply Hks; by right.
Qed.

Lemma kidMap_nodup : NoDup ((λ ed, (Z.to_nat (child ed), b + code ed + 1)) <$> ks).*1.
Proof using Hnd Hks Ht.
  rewrite <-list_fmap_compose. replace ((fst ∘ _) <$> ks) with (Z.to_nat <$> (child <$> ks)) by (rewrite <-list_fmap_compose; done).
  pose proof children_nodup as Hc. assert (Hpos : ∀ z, z ∈ child <$> ks → 0 <= z).
  { intros z (ed & -> & Hin)%list_elem_of_fmap. destruct (Hks ed Hin) as (m & -> & _). lia. }
  revert Hc Hpos. generalize (child <$> ks). clear. induction l as [|z l IH]; intros Hc Hpos; [constructor|]. csimpl.
  apply NoDup_cons in Hc as [Hn Hc]. constructor; [|apply IH; [done|]; intros; apply Hpos; by right].
  intros (z' & He & Hin)%list_elem_of_fmap. apply Hn. replace z with z'; [done|].
  pose proof (Hpos z ltac:(by left)). pose proof (Hpos z' ltac:(by right)). lia.
Qed.

Lemma kidMap_spec m t : kidMap b ks !! m = Some t ↔ ∃ c, kid P n m c ∧ t = b + c + 1.
Proof using Hnd Hks Hall Ht.
  unfold kidMap. rewrite <-elem_of_list_to_map by apply kidMap_nodup. rewrite list_elem_of_fmap. split.
  - intros (ed & He & Hin). simplify_eq. destruct (Hks ed Hin) as (m & Hm & Hk). rewrite Hm, Nat2Z.id. by exists (code ed).
  - intros (c & Hk & ->). destruct (Hall m c Hk) as (ed & Hin & Hc & <-). exists ed. by rewrite Hc, Nat2Z.id.
Qed.

Lemma kidMap_size : size (kidMap b ks) = length ks.
Proof using Hnd Hks Ht. unfold kidMap. rewrite map_size_list_to_map by apply kidMap_nodup. by rewrite length_fmap. Qed.

Lemma cells_spec z t : (z, t) ∈ cells b ks ↔ ∃ m c, z = Z.of_nat m ∧ kid P n m c ∧ t = b + c + 1.
Proof using Hks Hall.
  unfold cells. rewrite list_elem_of_fmap. split.
  - intros (ed & He & Hin). simplify_eq. destruct (Hks ed Hin) as (m & Hm & Hk). exists m, (code ed). split_and!; [done..|lia].
  - intros (m & c & -> & Hk & ->). destruct (Hall m c Hk) as (ed & Hin & Hc & <-). exists ed. split; [|done]. rewrite Hc. f_equal. lia.
Qed.
End KidMap.

Lemma layout_size d σ queue : layout nodes P d σ queue → (size σ <= length P)%nat.
Proof.
  intros L. rewrite <-(size_dom σ). rewrite <-(length_seq (length P) 0). rewrite <-(size_list_to_set (C := gset nat) (seq 0 (length P))) by apply NoDup_seq.
  apply subseteq_size. intros m [t Hm]%elem_of_dom. apply (l_dom _ _ _ _ _ L) in Hm as [? _]. apply elem_of_list_to_set, elem_of_seq. lia.
Qed.

(** One node of the queue. *)
Lemma build_node d σ n st queue ks p : layout nodes P d σ ((Z.of_nat n, st) :: queue) → P !! n = Some p →
  edgesOf nodes edges (Z.of_nat n) = Some ks → ks ≠ [] →
  ∃ d1 b base1 d2 σ', findBase d ((λ ed, code ed + 1) <$> ks) = Some (d1, b) ∧ zset (base d1) st b = Some base1 ∧
    place (mkDarts base1 (check d1) (value d1) (baseHint d1)) nodes st b ks = Some (d2, cells b ks) ∧
    layout nodes P d2 σ' (queue ++ cells b ks) ∧ size σ' = (length ks + size σ)%nat ∧
    (length (check d2) <= length (check d) + 257)%nat.
Proof.
  intros L Hp Hks Hne. destruct (trie_kids _ _ _ n p Ht Hp) as (ks' & Hks' & Hnd & Hk & Hall). simplify_eq.
  pose proof (l_dom _ _ _ _ _ L n st (head_state _ _ _ _ _ _ _ L)) as [_ Hst].
  destruct (findBase_ok d ((λ ed, code ed + 1) <$> ks)) as (d1 & b & Hfb & Hpad & Hhint & Hb & Hlen & Hfree); [apply L|lia| |].
  { apply Forall_fmap, Forall_forall. intros ed Hin. destruct (Hk ed Hin) as (m & _ & Hkid). apply Hbyte in Hkid. simpl. lia. }
  assert (Hge : (length (check d) <= length (check d1))%nat) by (destruct Hpad as (k & _ & -> & _); rewrite length_pad; lia).
  assert (L1 : layout nodes P d1 σ ((Z.of_nat n, st) :: queue)) by (eapply layout_pad; [done..|lia]).
  assert (Hfree' : ∀ m c, kid P n m c → zget (check d1) (b + c + 1) = Some 0).
  { intros m c (ed & Hin & _ & <-)%Hall. replace (b + code ed + 1) with (b + (code ed + 1)) by lia. apply Hfree, list_elem_of_fmap. by exists ed. }
  pose proof (l_same _ _ _ _ _ L1) as [Hs1 Hs2].
  destruct (place_ok ks (mkDarts (<[Z.to_nat st := b]> (base d1)) (check d1) (value d1) (baseHint d1)) nodes st b)
    as (d2 & Hpl & Hs' & Hb' & Hh' & Hl' & Hin' & Hout'); [|done| |].
  { split; simpl; [by rewrite length_insert|done]. }
  { intros ed Hin. destruct (Hk ed Hin) as (m & -> & Hkid). split.
    - exists 0. simpl. rewrite <-(Hfree' m _ Hkid). f_equal. lia.
    - rewrite zget_nat. apply lookup_lt_is_Some_2. rewrite <-(t_len _ _ _ Ht). destruct Hkid as (? & _ & ?). by eapply lookup_lt_Some. }
  cbn [base check value baseHint] in *.
  exists d1, b, (<[Z.to_nat st := b]> (base d1)), d2, (kidMap b ks ∪ σ). split; [done|]. split; [apply zset_in; lia|]. split; [done|].
  assert (Hdisj : kidMap b ks ##ₘ σ).
  { apply map_disjoint_spec. intros m t t' (c & Hkid & _)%(kidMap_spec n ks b Hnd Hk Hall) Hm. by rewrite (head_kids _ _ _ _ _ _ _ L m c Hkid) in Hm. }
  split_and!; [| |lia].
  - eapply (layout_step nodes edges P Ht Hbyte d1 σ n st queue L1 d2 (kidMap b ks ∪ σ) b (cells b ks)); [lia|done| |apply (cells_spec n ks b Hk Hall)| |done|done| |done| |done].
    + intros m t. rewrite lookup_union_Some by done. by rewrite (kidMap_spec n ks b Hnd Hk Hall).
    + unfold cells. rewrite <-list_fmap_compose. exact (children_nodup n ks Hnd Hk).
    + lia.
    + intros m c (ed & Hin & Hc & <-)%Hall. destruct (Hin' ed Hin) as [E1 (nd & En & E2)]. replace (b + code ed + 1) with (b + (code ed + 1)) by lia.
      split; [done|]. intros nd' Hnd'. rewrite Hc, zget_nat in En. by simplify_eq.
  - rewrite map_size_disj_union by done. by rewrite (kidMap_size n ks b Hnd Hk).
Qed.

Lemma build_ok fuel d σ queue : layout nodes P d σ queue → (length queue + length P <= fuel + size σ)%nat →
  ∃ d' σ', build fuel d nodes edges queue = Some d' ∧ layout nodes P d' σ' [] ∧ (length (check d') <= length (check d) + 257 * fuel)%nat.
Proof.
  revert d σ queue. induction fuel as [|fuel IH]; intros d σ [|[z st] queue] L Hf.
  1,3: exists d, σ; split_and!; [done|done|lia].
  { pose proof (layout_size _ _ _ L). simpl in Hf. lia. }
  destruct (l_queue _ _ _ _ _ L z st ltac:(by left)) as (n & -> & Hn). pose proof (l_dom _ _ _ _ _ L n st Hn) as [Hlt _].
  destruct (lookup_lt_is_Some_2 P n Hlt) as [p Hp]. destruct (trie_kids _ _ _ n p Ht Hp) as (ks & Hks & Hnd & Hk & Hall).
  cbn [build]. rewrite Hks. cbn [mbind option_bind]. destruct (bool_decide_reflect (ks = [])) as [->|Hne].
  - destruct (IH d σ queue) as (d' & σ' & -> & L' & Hl'); [|simpl in Hf; lia|exists d', σ'; split_and!; [done|done|lia]].
    eapply layout_leaf; [done|]. intros m b (ed & Hin & _)%Hall. by apply not_elem_of_nil in Hin.
  - destruct (build_node d σ n st queue ks p L Hp Hks Hne) as (d1 & b & base1 & d2 & σ' & -> & Hz & Hpl & L' & Hsz & Hlen).
    cbn [mbind option_bind]. rewrite Hz. cbn [mbind option_bind]. rewrite Hpl. cbn [mbind option_bind].
    destruct (IH d2 σ' (queue ++ cells b ks) L') as (d' & σ'' & -> & L'' & Hl'').
    { rewrite length_app, Hsz. unfold cells. rewrite length_fmap. simpl in Hf. lia. }
    exists d', σ''. split_and!; [done|done|lia].
Qed.
End Build.

(** ** Look-up is right *)

Lemma keyNumber_spec i keys p : 0 <= i → let v := keyNumber i keys p in
  (v = 0 ∧ p ∉ keys) ∨ (∃ j : nat, v = i + Z.of_nat j + 1 ∧ keys !! j = Some p ∧ ∀ j', (j < j')%nat → keys !! j' ≠ Some p).
Proof.
  revert i. induction keys as [|k keys IH]; intros i Hi; cbn [keyNumber]; [left; split; [done|apply not_elem_of_nil]|].
  destruct (IH (i + 1) ltac:(lia)) as [[Hz Hn]|(j & Hv & Hj & Hlast)].
  - rewrite Hz. simpl. case_decide as Hk.
    + right. exists 0%nat. split_and!; [lia|by subst|]. intros [|j'] Hlt; [lia|]. simpl. intros Hj'%list_elem_of_lookup_2. done.
    + left. split; [done|]. apply not_elem_of_cons. split; [congruence|done].
  - rewrite Hv, (proj2 (Z.eqb_neq _ 0)) by lia. right. exists (S j). split_and!; [lia|done|].
    intros [|j'] Hlt; [lia|]. apply Hlast. lia.
Qed.

(** The entry [i] is the longest key that begins [s], and the last of equal keys. *)
Definition longest (keys : list text) (s : text) (i : Z) (ok : bool) : Prop :=
  if ok then ∃ k, zget keys i = Some k ∧ (∀ j, i < j → zget keys j ≠ Some k) ∧ k ≠ [] ∧ k `prefix_of` s ∧
    (∀ k', k' ∈ keys → k' `prefix_of` s → (length k' <= length k)%nat)
  else i = 0 ∧ ∀ k, k ∈ keys → k `prefix_of` s → k = [].

Lemma prefix_snoc (k p : text) b : k `prefix_of` p ++ [b] ↔ k `prefix_of` p ∨ k = p ++ [b].
Proof.
  split.
  - intros [x Hx]. destruct x as [|y x _] using rev_ind; [right; by rewrite app_nil_r in Hx|].
    rewrite app_assoc in Hx. apply app_inj_tail in Hx as [-> _]. left. by exists x.
  - intros [[x ->]| ->]; [|done]. exists (x ++ [b]). by rewrite app_assoc.
Qed.

Lemma longest_snoc keys p b i ok : longest keys p i ok →
  let v := number keys (p ++ [b]) in
  if v =? 0 then longest keys (p ++ [b]) i ok else longest keys (p ++ [b]) (v - 1) true.
Proof.
  intros Hl. cbv zeta. destruct (keyNumber_spec 0 keys (p ++ [b]) ltac:(lia)) as [[Hv Hn]|(j & Hv & Hj & Hlast)]; fold (number keys (p ++ [b])) in Hv; rewrite Hv.
  - simpl. destruct ok; simpl in *.
    + destruct Hl as (k & Hk & Hlast & Hne & Hpre & Hmax). exists k. split_and!; [done..|apply prefix_snoc; by left|].
      intros k' Hin [?| ->]%prefix_snoc; [by apply Hmax|done].
    + destruct Hl as [-> Hl]. split; [done|]. intros k Hin [?| ->]%prefix_snoc; [by apply Hl|done].
  - rewrite (proj2 (Z.eqb_neq _ 0)) by lia. exists (p ++ [b]). replace (0 + Z.of_nat j + 1 - 1) with (Z.of_nat j) by lia. split_and!.
    + by rewrite zget_nat.
    + intros j' Hlt. rewrite <-(Z2Nat.id j') by lia. rewrite zget_nat. apply Hlast. lia.
    + by destruct p.
    + done.
    + intros k' _ Hk'. by apply prefix_length.
Qed.

(** The keys among the nonempty prefixes of a text, by length, with their numbers;
    the flag tells the whole text. *)
Fixpoint prefixKeys (keys : list text) (p s : text) : list (Z * bool) :=
  match s with
  | [] => []
  | b :: s =>
      let v := number keys (p ++ [b]) in
      if v =? 0 then prefixKeys keys (p ++ [b]) s else (v - 1, bool_decide (s = [])) :: prefixKeys keys (p ++ [b]) s
  end.

Section Lookup.
  Context (keys : list text) (nodes : list DartsNode) (edges : list DartsEdge) (P : list text) (Ht : trie_ok nodes edges P).
  Context (Hkeys : keys_ok nodes P (number keys)) (Hin : ∀ k, k ∈ keys → k ∈ P).
  Context (d : Darts) (σ : gmap nat Z) (L : layout nodes P d σ []).

Lemma node_prefix q k : q ++ k ∈ P → q ∈ P.
Proof using Ht. induction k as [|b k IH] using rev_ind; [by rewrite app_nil_r|]. rewrite app_assoc. intros Hq%(t_closed _ _ _ Ht). by apply IH. Qed.

Lemma longest_stop p b s i ok : p ++ [b] ∉ P → longest keys p i ok → longest keys (p ++ b :: s) i ok.
Proof using Ht Hin.
  intros Hno Hl. assert (Hpre : ∀ k, k ∈ keys → k `prefix_of` p ++ b :: s → k `prefix_of` p).
  { intros k Hk Hpre. destruct (prefix_weak_total k p (p ++ b :: s)) as [Hx|Hx]; [done|by exists (b :: s)|done|].
    destruct Hx as [[|c x] ->]; [by rewrite app_nil_r|]. destruct Hpre as [y Hy]. rewrite <-app_assoc in Hy. apply app_inv_head in Hy.
    simplify_eq/=. destruct Hno. apply (node_prefix _ x). rewrite <-app_assoc. by apply Hin. }
  destruct ok; simpl in *.
  - destruct Hl as (k & Hk & Hlast & Hne & Hp & Hmax). exists k. split_and!; [done..| |].
    + by apply prefix_app_r.
    + intros k' Hk' ?. apply Hmax; eauto.
  - destruct Hl as [-> Hl]. split; [done|]. eauto.
Qed.

Lemma transition_yes n m st b : σ !! n = Some st → kid P n m b → ∃ t, transition d st b = Some (Some t) ∧ σ !! m = Some t.
Proof using L.
  intros Hn Hk. destruct (l_done _ _ _ _ _ L n m b st Hn ltac:(apply not_elem_of_nil) Hk) as (x & Hx & Hm & Hc).
  exists (x + b + 1). split; [|done]. unfold transition. rewrite Hx. cbn [mbind option_bind]. cbv zeta.
  rewrite (proj2 (Z.leb_gt _ _)) by (apply zget_Some_range in Hc; lia). rewrite Hc. cbn [mbind option_bind]. by rewrite Z.eqb_refl.
Qed.

Lemma transition_no n st p b : σ !! n = Some st → P !! n = Some p → 0 <= b → p ++ [b] ∉ P → transition d st b = Some None.
Proof using L.
  intros Hn Hp Hb Hno. pose proof (l_dom _ _ _ _ _ L n st Hn) as [_ Hst]. pose proof (l_same _ _ _ _ _ L) as [Hs _].
  destruct (zget_in (base d) st) as [x Hx]; [lia|]. pose proof (l_base _ _ _ _ _ L st x Hx). unfold transition. rewrite Hx. cbn [mbind option_bind]. cbv zeta.
  destruct (Z.leb_spec (Z.of_nat (length (check d))) (x + b + 1)) as [|Hlt]; [done|].
  destruct (zget_in (check d) (x + b + 1)) as [c Hc]; [lia|]. rewrite Hc. cbn [mbind option_bind].
  destruct (Z.eqb_spec c (st + 1)) as [->|]; [exfalso|done].
  destruct (l_check _ _ _ _ _ L _ _ Hc) as (n' & m & b' & s & x' & Hs' & Hn' & _ & Hk & Hx' & Ht' & _); [lia|].
  assert (s = st) as -> by lia. pose proof (l_inj _ _ _ _ _ L n n' st Hn Hn') as <-. assert (b' = b) as -> by (rewrite Hx in Hx'; simplify_eq; lia).
  destruct Hk as (p' & Hp' & Hm). rewrite Hp in Hp'. simplify_eq. apply Hno. by eapply list_elem_of_lookup_2.
Qed.

Lemma state_value n st p : σ !! n = Some st → P !! n = Some p → p ≠ [] → zget (value d) st = Some (number keys p).
Proof using Ht Hkeys L.
  intros Hn Hp Hne. assert (Hlt : (n < length nodes)%nat) by (rewrite <-(t_len _ _ _ Ht); by eapply lookup_lt_Some).
  destruct (lookup_lt_is_Some_2 nodes n Hlt) as [nd Hnd]. rewrite <-(Hkeys n nd p Hnd Hp). eapply (l_value _ _ _ _ _ L); [done| |done].
  intros ->. rewrite (t_root _ _ _ Ht) in Hp. congruence.
Qed.

Lemma match_loop_ok s n st p i ok : Forall (λ b, 0 <= b) s → σ !! n = Some st → P !! n = Some p → longest keys p i ok →
  ∃ i' ok', match_loop d st i ok s = Some (i', ok') ∧ longest keys (p ++ s) i' ok'.
Proof using Ht Hkeys Hin L.
  revert n st p i ok. induction s as [|b s IH]; intros n st p i ok Hs Hn Hp Hl.
  { exists i, ok. by rewrite app_nil_r. }
  apply Forall_cons in Hs as [Hb Hs]. cbn [match_loop]. destruct (decide (p ++ [b] ∈ P)) as [Hyes|Hno].
  - apply list_elem_of_lookup_1 in Hyes as [m Hm]. destruct (transition_yes n m st b Hn) as (t & -> & Hmt); [by exists p|].
    cbn [mbind option_bind]. rewrite (state_value m t (p ++ [b]) Hmt Hm) by (by destruct p). cbn [mbind option_bind].
    replace (p ++ b :: s) with ((p ++ [b]) ++ s) by (by rewrite <-app_assoc). pose proof (longest_snoc keys p b i ok Hl) as Hl'. cbv zeta in Hl'.
    destruct (Z.eqb_spec (number keys (p ++ [b])) 0); simpl; by apply (IH m t).
  - rewrite (transition_no n st p b Hn Hp Hb Hno). cbn [mbind option_bind]. exists i, ok. split; [done|]. by apply longest_stop.
Qed.

Lemma prefixKeys_none p s : p ∉ P → prefixKeys keys p s = [].
Proof using Ht Hin.
  revert p. induction s as [|b s IH]; intros p Hp; [done|]. assert (Hpb : p ++ [b] ∉ P) by (intros Hb; by apply Hp, (node_prefix p [b])).
  cbn [prefixKeys]. rewrite number_none by (intros Hk; by apply Hpb, Hin). simpl. by apply IH.
Qed.

Lemma walk_loop_ok s n st p : Forall (λ b, 0 <= b) s → σ !! n = Some st → P !! n = Some p → walk_loop d st s = Some (prefixKeys keys p s).
Proof using Ht Hkeys Hin L.
  revert n st p. induction s as [|b s IH]; intros n st p Hs Hn Hp; [done|].
  apply Forall_cons in Hs as [Hb Hs]. cbn [walk_loop prefixKeys]. destruct (decide (p ++ [b] ∈ P)) as [Hyes|Hno].
  - apply list_elem_of_lookup_1 in Hyes as [m Hm]. destruct (transition_yes n m st b Hn) as (t & -> & Hmt); [by exists p|].
    cbn [mbind option_bind]. rewrite (state_value m t (p ++ [b]) Hmt Hm) by (by destruct p). cbn [mbind option_bind].
    rewrite (IH m t (p ++ [b])) by done. cbn [mbind option_bind]. by destruct (number keys (p ++ [b]) =? 0).
  - rewrite (transition_no n st p b Hn Hp Hb Hno). cbn [mbind option_bind].
    rewrite number_none by (intros Hk; by apply Hno, Hin). simpl. by rewrite prefixKeys_none.
Qed.
End Lookup.

Definition byteText (s : text) : Prop := Forall (λ b, 0 <= b < 256) s.

Lemma layout_start nodes edges P : trie_ok nodes edges P → layout nodes P (mkDarts [0] [0] [0] 0) {[0%nat := 0]} [(0, 0)].
Proof.
  intros Ht. assert (Hl : (0 < length P)%nat) by (eapply lookup_lt_Some, Ht). split; try done.
  - intros m t Hm. apply lookup_singleton_Some in Hm as [<- <-]. simpl. split; [done|lia].
  - intros m n t Hm Hn. apply lookup_singleton_Some in Hm as [<- _]. by apply lookup_singleton_Some in Hn as [<- _].
  - intros m t nd Hm. by apply lookup_singleton_Some in Hm as [<- _].
  - intros m t Hm. by apply lookup_singleton_Some in Hm as [<- _].
  - intros z st Hin. apply list_elem_of_singleton in Hin. simplify_eq. by exists 0%nat.
  - apply NoDup_singleton.
  - intros n m b _ Hk. apply lookup_singleton_None. intros <-. destruct Hk as (p & _ & Hk). rewrite (t_root _ _ _ Ht) in Hk. by destruct p.
  - intros n m b st Hn Hq. apply lookup_singleton_Some in Hn as [<- _]. destruct Hq. by left.
  - intros t c Hc Hne. simpl in Hc. rewrite zget_cons, zget_nil in Hc. case_decide; simplify_eq.
  - intros t x Hx. simpl in Hx. rewrite zget_cons, zget_nil in Hx. case_decide; simplify_eq. lia.
Qed.

Lemma newDarts_ok keys : Forall byteText keys → ∃ d nodes edges P σ, newDarts keys = Some d ∧ trie_ok nodes edges P ∧
  keys_ok nodes P (number keys) ∧ (∀ k, k ∈ keys → k ∈ P) ∧ layout nodes P d σ [] ∧
  (length (check d) <= 258 + 257 * total keys)%nat.
Proof.
  intros Hk. destruct (addKeys_ok keys [] [mkDNode 0 0] [mkDEdge 0 0 0] [[]]) as (nodes & edges & P & E & Ht & Hkeys & Hin & Hlen & Hold);
    [apply trie_start|apply keys_start|intros k Hk'; by apply not_elem_of_nil in Hk'|].
  assert (Hbyte : ∀ n m b, kid P n m b → 0 <= b < 256).
  { intros n m b (p & _ & Hm%list_elem_of_lookup_2). apply Hold in Hm as [Hm|(k & j & Hkin & Hm)].
    - apply list_elem_of_singleton in Hm. by destruct p.
    - rewrite Forall_forall in Hk. specialize (Hk k Hkin). unfold byteText in Hk. apply (Forall_take _ j) in Hk.
      rewrite <-Hm in Hk. by apply Forall_app in Hk as [_ [? _]%Forall_cons]. }
  destruct (build_ok nodes edges P Ht Hbyte (length nodes) (mkDarts [0] [0] [0] 0) {[0%nat := 0]} [(0, 0)]) as (d & σ & Hd & L & Hl).
  - by apply (layout_start nodes edges).
  - rewrite map_size_singleton, (t_len _ _ _ Ht). simpl. lia.
  - exists d, nodes, edges, P, σ. unfold newDarts. change (Z.of_nat (length [])) with 0 in E. rewrite E. cbn [mbind option_bind].
    simpl in Hl, Hlen. split_and!; (done || lia).
Qed.

(** C32: for any byte keys the trie is built, its arrays have at most
    [258 + 257 * total] cells ([total]: the bytes of all keys), and every look-up of a
    text stays inside them.  The two matchers find the longest nonempty key that
    begins (for suffixes: reversed) the text, the last entry of equal keys, and
    report nothing exactly if no key but the empty one does; [walk] visits the keys
    among the prefixes of the text, from the shortest, the flag telling the text itself. *)
Theorem darts_lookup keys : Forall byteText keys →
  ∃ d, newDarts keys = Some d ∧ (length (check d) <= 258 + 257 * total keys)%nat ∧
    (∀ parts, Forall byteText parts → ∃ i ok, longestMatch d parts = Some (i, ok) ∧ longest keys (mjoin parts) i ok) ∧
    (∀ s, byteText s → ∃ i ok, longestSuffixMatch d s = Some (i, ok) ∧ longest keys (reverse s) i ok) ∧
    (∀ s, byteText s → walkKeys d s = Some (prefixKeys keys [] s)).
Proof.
  intros Hk. destruct (newDarts_ok keys Hk) as (d & nodes & edges & P & σ & Hd & Ht & Hkeys & Hin & L & Hlen).
  assert (Hpos : ∀ s, byteText s → Forall (λ b, 0 <= b) s) by (intros s Hs; eapply Forall_impl; [exact Hs|]; simpl; lia).
  assert (Hm : ∀ s, byteText s → ∃ i ok, match_loop d 0 0 false s = Some (i, ok) ∧ longest keys s i ok).
  { intros s Hs. apply (match_loop_ok keys nodes edges P Ht Hkeys Hin d σ L s 0%nat 0 [] 0 false); [auto|apply L|apply Ht|].
    split; [done|]. intros k _ Hp. by apply prefix_nil_inv. }
  exists d. split_and!; [done|done| | |].
  - intros parts Hp. apply Hm. unfold byteText in *. induction Hp; [constructor|]. simpl. by apply Forall_app.
  - intros s Hs. apply Hm. unfold byteText in *. by apply Forall_reverse.
  - intros s Hs. apply (walk_loop_ok keys nodes edges P Ht Hkeys Hin d σ L s 0%nat 0 []); [auto|apply L|apply Ht].
Qed.

Lemma darts_lookup_witness : ∃ d, newDarts [[97; 98]; [97]; []; [97; 98]] = Some d ∧ longestMatch d [[97]; [98; 99]] = Some (3, true).
Proof.
  destruct (darts_lookup [[97; 98]; [97]; []; [97; 98]]) as (d & Hd & _); [unfold byteText; repeat constructor; lia|].
  exists d. split; [done|]. vm_compute in Hd. injection Hd as <-. vm_compute. reflexivity.
Defined.

(** A file name gets the value of the longest nonempty extension it ends with. *)
Theorem extMatch_longest {T} (entries : list (text * T)) : Forall (λ e, byteText e.1) entries →
  ∃ m, newExtMatcher entries = Some m ∧ ∀ path, byteText path →
    (∃ e v, extMatch m path = Some (Some v) ∧ (e, v) ∈ entries ∧ e ≠ [] ∧ e `suffix_of` path ∧
      ∀ e', e' ∈ entries.*1 → e' `suffix_of` path → (length e' <= length e)%nat) ∨
    (extMatch m path = Some None ∧ ∀ e, e ∈ entries.*1 → e `suffix_of` path → e = []).
Proof.
  intros He. destruct (newDarts_ok (reverse <$> entries.*1)) as (d & nodes & edges & P & σ & Hd & Ht & Hkeys & Hin & L & _).
  { rewrite !Forall_fmap. eapply Forall_impl; [exact He|]. intros e Hb. by apply Forall_reverse. }
  exists (mkExt d entries.*2). unfold newExtMatcher. rewrite Hd. split; [done|]. intros path Hp. unfold extMatch, longestSuffixMatch. cbn [darts values].
  assert (Hsuf : ∀ e, e ∈ entries.*1 → e `suffix_of` path → reverse e ∈ reverse <$> entries.*1 ∧ reverse e `prefix_of` reverse path).
  { intros e Hin' Hs. split; [apply list_elem_of_fmap; by exists e|]. by apply suffix_prefix_reverse in Hs. }
  destruct (match_loop_ok _ nodes edges P Ht Hkeys Hin d σ L (reverse path) 0%nat 0 [] 0 false) as (i & [|] & -> & Hl);
    [apply Forall_reverse; eapply Forall_impl; [exact Hp|]; simpl; lia|apply L|apply Ht|split; [done|]; intros k _ Hk; by apply prefix_nil_inv| |];
    cbn [mbind option_bind].
  - left. destruct Hl as (k & Hk & _ & Hne & Hpre & Hmax). pose proof (zget_Some_range _ _ _ Hk) as Hr.
    rewrite <-(Z2Nat.id i) in Hk by lia. rewrite zget_nat, !list_lookup_fmap in Hk.
    destruct (entries !! Z.to_nat i) as [[e v]|] eqn:Ei; [|done]. simplify_eq/=. exists e, v. split_and!.
    + rewrite <-(Z2Nat.id i) by lia. rewrite zget_nat, list_lookup_fmap, Ei. done.
    + by eapply list_elem_of_lookup_2.
    + by intros ->.
    + by apply suffix_prefix_reverse.
    + intros e' Hin' Hs. destruct (Hsuf e' Hin' Hs) as [H1 H2]. specialize (Hmax _ H1 H2). by rewrite !length_reverse in Hmax.
  - right. split; [done|]. destruct Hl as [_ Hl]. intros e Hin' Hs. destruct (Hsuf e Hin' Hs) as [H1 H2].
    specialize (Hl _ H1 H2). apply (f_equal reverse) in Hl. by rewrite reverse_involutive in Hl.
Qed.
