(* ===== verification/Glob.v ===== *)
(** * Glob matching (glob_match.go)

    A glob is compiled to a regular expression, and a regular expression of the
    shape globs have to a few sequences of words ([globWords]): literals, "?", "*"
    and the "**/" of paths.  [matchGlobWords] matches a sequence in one pass,
    falling back to the last "*" only.  Names are sequences of characters; the
    standard library's regexp/syntax trees are given, with their meaning. *)

From S2P Require Import Prelude.
Local Open Scope Z_scope.

Abbreviation name := (list Z) (only parsing).

Definition slash : Z := 47.
Definition nl : Z := 10.

Inductive globWord :=
| Text (text : name)
| One (exclude : Z)       (** '?' *)
| Many (exclude : Z)      (** '*' *)
| Dirs.                   (** 'r': nothing, or anything up to a slash *)

(** The words from the first one on, a star passed (the words after it, what it
    excludes, and where it was last tried). *)
Record star := mkStar { after : list globWord; excl : Z; retry : name }.

Definition HasPrefix (s p : name) : option name :=
  if decide (p `prefix_of` s) then Some (drop (length p) s) else None.

(** The loop of the 'r' case over the slashes of the current line. *)
Fixpoint tryDirs (rec : name → option bool) (s : name) : option bool :=
  match s with
  | [] => Some false
  | c :: s =>
      if c =? nl then Some false
      else if c =? slash then b ← rec s; if (b : bool) then Some true else tryDirs rec s
      else tryDirs rec s
  end.

(** The main loop; [rec] is the recursive call on the words after a 'r'. *)
Fixpoint glob_loop (rec : list globWord → name → option bool) (fuel : nat)
    (words : list globWord) (s : name) (st : option star) : option bool :=
  match fuel with
  | O => None
  | S fuel =>
      let back :=
        match st with
        | None => Some false
        | Some (mkStar w e []) => Some false
        | Some (mkStar w e (c :: r)) =>
            if c =? e then Some false else glob_loop rec fuel w r (Some (mkStar w e r))
        end in
      match words with
      | [] => if decide (s = []) then Some true else back
      | Dirs :: words =>
          b ← rec words s;
          if (b : bool) then Some true
          else b ← tryDirs (rec words) s; if (b : bool) then Some true else back
      | Many e :: words => glob_loop rec fuel words s (Some (mkStar words e s))
      | One e :: words =>
          match s with
          | c :: s => if c =? e then back else glob_loop rec fuel words s st
          | [] => back
          end
      | Text t :: words =>
          match HasPrefix s t with
          | Some s => glob_loop rec fuel words s st
          | None => back
          end
      end
  end.

Definition glob_fuel (words : list globWord) (s : name) : nat :=
  S ((length words + 2) * (length s + 2) * (length words + 2)).

(** [depth] bounds the nesting of 'r'. *)
Fixpoint matchGlobWords (depth : nat) (words : list globWord) (s : name) : option bool :=
  match words with
  | [Many e; Text t] =>
      if decide (t `suffix_of` s)
      then Some (negb (bool_decide (e ∈ take (length s - length t) s))) else Some false
  | _ =>
      match depth with
      | O => None
      | S depth => glob_loop (matchGlobWords depth) (glob_fuel words s) words s None
      end
  end.

(** The test of [newGlobMatcher] on one sequence; 0 stands for no alphabet yet. *)
Fixpoint sameAlphabet (alphabet : Z) (words : list globWord) : bool :=
  match words with
  | [] => true
  | Dirs :: words => sameAlphabet 0 words
  | (Many e | One e) :: words =>
      (bool_decide (alphabet = 0) || bool_decide (alphabet = e)) && sameAlphabet e words
  | Text _ :: words => sameAlphabet alphabet words
  end.

(** ** What the words mean *)

Definition dirs (u : name) : Prop := u = [] ∨ ∃ v, u = v ++ [slash] ∧ nl ∉ v.

Fixpoint matches (words : list globWord) (s : name) : Prop :=
  match words with
  | [] => s = []
  | Text t :: words => ∃ v, s = t ++ v ∧ matches words v
  | One e :: words => ∃ c v, s = c :: v ∧ c ≠ e ∧ matches words v
  | Many e :: words => ∃ u v, s = u ++ v ∧ e ∉ u ∧ matches words v
  | Dirs :: words => ∃ u v, s = u ++ v ∧ dirs u ∧ matches words v
  end.

(** Words have an alphabet: the excluded characters are not 0. *)
Definition word_ok (w : globWord) : Prop :=
  match w with One e | Many e => e ≠ 0 | _ => True end.

(** ** The one-pass matcher *)

(** Words without "*" and 'r' as patterns of single characters. *)
Definition fixed (w : globWord) : Prop := match w with Text _ | One _ => True | _ => False end.

Definition pattern (w : globWord) : list (option Z) :=
  match w with Text t => Some <$> t | One _ => [None] | _ => [] end.

Definition fits (e : Z) (p : option Z) (c : Z) : Prop :=
  match p with Some a => c = a | None => c ≠ e end.

Fixpoint uniform (e : Z) (words : list globWord) : Prop :=
  match words with
  | [] | Dirs :: _ => True
  | (Many e' | One e') :: words => e' = e ∧ uniform e words
  | Text _ :: words => uniform e words
  end.

Lemma sameAlphabet_uniform e words : e ≠ 0 → sameAlphabet e words = true → uniform e words.
Proof.
  intros He. induction words as [|[t|e'|e'|] words IH]; simpl; [done|done|..|done];
    rewrite (bool_decide_false (e = 0)) by done; simpl; intros [Ha Hs]%andb_true_iff;
    apply bool_decide_eq_true in Ha as <-; auto.
Qed.

Lemma matches_fixed e seg words s :
  Forall fixed seg → uniform e (seg ++ words) →
  matches (seg ++ words) s ↔
  ∃ x v, s = x ++ v ∧ Forall2 (fits e) (seg ≫= pattern) x ∧ matches words v.
Proof.
  intros Hf. revert s. induction Hf as [|w seg Hw Hf IH]; intros s Hu; simpl.
  - split; [intros; exists [], s; by split_and!|]. intros (x & v & -> & Hx & ?). by inversion Hx.
  - destruct w as [t|e'| |]; try done; simpl in Hu.
    + split.
      * intros (v & -> & (x & v' & -> & Hx & Hm)%IH); [|done]. exists (t ++ x), v'. split_and!; [by rewrite app_assoc| |done].
        apply Forall2_app; [|done]. clear. induction t; constructor; done.
      * intros (x & v & -> & Hx & Hm). apply Forall2_app_inv_l in Hx as (x1 & x2 & Hx1 & Hx2 & ->).
        exists (x2 ++ v). split; [|apply IH; [done|]; by exists x2, v].
        assert (x1 = t) as ->; [|by rewrite <-app_assoc].
        clear -Hx1. revert x1 Hx1. induction t as [|a t IH]; intros x1 Hx1; inversion Hx1; simplify_eq/=; [done|].
        f_equal; auto.
    + destruct Hu as [-> Hu]. split.
      * intros (c & v & -> & Hc & (x & v' & -> & Hx & Hm)%IH); [|done]. exists (c :: x), v'.
        split_and!; [done| |done]. by constructor.
      * intros (x & v & -> & Hx & Hm). inversion Hx as [|? c ? x' Hc Hx']; simplify_eq/=.
        exists c, (x' ++ v). split_and!; [done..|]. apply IH; [done|]. by exists x', v.
Qed.

(** If a fixed pattern fits at the start of [r] and again behind a non-empty [u]
    without the excluded character, neither stretch has that character. *)
Lemma no_excluded e (pat : list (option Z)) (x u x' s s' r : name) :
  r = x ++ s → r = u ++ x' ++ s' → Forall2 (fits e) pat x → Forall2 (fits e) pat x' →
  u ≠ [] → e ∉ u → ∀ k, (k < length u + length pat)%nat → r !! k ≠ Some e.
Proof.
  intros Hr1 Hr2 Hx Hx' Hne Hu k. induction (lt_wf k) as [k _ IH]. intros Hk Hek.
  pose proof (Forall2_length _ _ _ Hx) as Hlx. pose proof (Forall2_length _ _ _ Hx') as Hlx'.
  assert (0 < length u)%nat by (destruct u; [done|simpl; lia]).
  rewrite Hr2 in Hek. destruct (decide (k < length u)%nat) as [Hlt|Hge].
  - rewrite lookup_app_l in Hek by done. apply Hu. by eapply list_elem_of_lookup_2.
  - rewrite lookup_app_r in Hek by lia. rewrite lookup_app_l in Hek by lia.
    destruct (Forall2_lookup_r _ _ _ _ _ Hx' Hek) as (p & Hp & Hfit).
    destruct p as [a|]; [|done]. simpl in Hfit. subst a.
    destruct (Forall2_lookup_l _ _ _ _ _ Hx Hp) as (c & Hc & Hfc). simpl in Hfc. subst c.
    apply (IH (k - length u)%nat); [lia|lia|]. rewrite Hr1. by apply lookup_app_l_Some.
Qed.

(** The attempts a star still has: at least one more character. *)
Definition later (st : option star) : Prop :=
  match st with
  | None => False
  | Some (mkStar w e r) => ∃ u v, r = u ++ v ∧ u ≠ [] ∧ e ∉ u ∧ matches w v
  end.

(** The current position was reached from the star through fixed words. *)
Definition reached (st : option star) (words : list globWord) (s : name) : Prop :=
  match st with
  | None => True
  | Some (mkStar w e r) => uniform e w ∧ e ≠ 0 ∧
      ∃ seg x, w = seg ++ words ∧ r = x ++ s ∧ Forall fixed seg ∧ Forall2 (fits e) (seg ≫= pattern) x
  end.

Lemma uniform_app e seg words : Forall fixed seg → uniform e (seg ++ words) → uniform e words.
Proof. induction 1 as [|[t|e'| |] seg Hw _ IH]; simpl; try done. intros [_ ?]. auto. Qed.

(** Reaching a second star, the first one is not needed any more. *)
Lemma star_absorbs st e words s :
  reached st (Many e :: words) s → later st → matches (Many e :: words) s.
Proof.
  destruct st as [[w e0 r]|]; [|done]. intros (Hu & _ & seg & x & -> & -> & Hseg & Hx) (u & v & Hr & Hne & Heu & Hm).
  pose proof (uniform_app _ _ _ Hseg Hu) as [<- _].
  apply (matches_fixed e seg _ _ Hseg Hu) in Hm as (x' & v' & -> & Hx' & Hm).
  pose proof (no_excluded e _ x u x' s v' (x ++ s) eq_refl Hr Hx Hx' Hne Heu) as Hno.
  pose proof (Forall2_length _ _ _ Hx) as Hlx. pose proof (Forall2_length _ _ _ Hx') as Hlx'.
  assert (Hs : s = take (length u) s ++ v').
  { rewrite <-(take_drop (length u) s) at 1. f_equal.
    assert (Hd : drop (length x + length u) (x ++ s) = drop (length x + length u) (u ++ x' ++ v')) by by rewrite Hr.
    rewrite drop_app_add in Hd. rewrite Hd, app_assoc. apply drop_app_length'. rewrite length_app. lia. }
  destruct Hm as (u2 & v2 & -> & Hu2 & Hm). exists (take (length u) s ++ u2), v2.
  split_and!; [by rewrite <-app_assoc| |done]. apply not_elem_of_app. split; [|done].
  intros Hin. apply list_elem_of_lookup in Hin as [i Hi]. apply lookup_take_Some in Hi as [Hi Hlt].
  apply (Hno (length x + i)%nat); [lia|]. rewrite lookup_app_r by lia. rewrite <-Hi. f_equal. lia.
Qed.

(** ** The loop *)

Section loop.
Context (rec : list globWord → name → option bool) (W N : nat).
Context (Hrec : ∀ words s, (length words < W)%nat → sameAlphabet 0 words = true → Forall word_ok words →
  ∃ b, rec words s = Some b ∧ (b = true ↔ matches words s)).

Definition star_ok (st : option star) : Prop :=
  match st with
  | None => True
  | Some (mkStar w e r) =>
      sameAlphabet e w = true ∧ Forall word_ok w ∧ e ≠ 0 ∧ (length w < W)%nat ∧ (length r <= N)%nat
  end.

Definition rank (words : list globWord) (st : option star) : nat :=
  match st with
  | None => (W + 1) * ((N + 2) * (W + 2)) + length words
  | Some (mkStar w e r) => length w * ((N + 2) * (W + 2)) + length r * (W + 2) + length words
  end.

Lemma tryDirs_ok words s :
  (length words < W)%nat → sameAlphabet 0 words = true → Forall word_ok words →
  ∃ b, tryDirs (rec words) s = Some b ∧
    (b = true ↔ ∃ u v, s = u ++ [slash] ++ v ∧ nl ∉ u ∧ matches words v).
Proof.
  intros Hl Ha Hw. induction s as [|c s (b & Hb & IH)]; simpl.
  { exists false. split; [done|]. split; [done|]. by intros ([] & v & ? & _). }
  destruct (Z.eqb_spec c nl) as [->|Hnl].
  { exists false. split; [done|]. split; [done|]. intros ([|? u] & v & E & Hu & _); simplify_eq/=. set_solver. }
  assert (Hshift : (∃ u v, s = u ++ [slash] ++ v ∧ nl ∉ u ∧ matches words v) →
    ∃ u v, c :: s = u ++ [slash] ++ v ∧ nl ∉ u ∧ matches words v).
  { intros (u & v & -> & Hu & Hm). exists (c :: u), v. split_and!; [done|set_solver|done]. }
  assert (Hback : (∃ u v, c :: s = u ++ [slash] ++ v ∧ nl ∉ u ∧ matches words v) →
    (c = slash ∧ matches words s) ∨ ∃ u v, s = u ++ [slash] ++ v ∧ nl ∉ u ∧ matches words v).
  { intros ([|c' u] & v & E & Hu & Hm); simplify_eq/=; [by left|]. right. exists u, v. split_and!; [done|set_solver|done]. }
  destruct (Z.eqb_spec c slash) as [->|Hs].
  - destruct (Hrec words s Hl Ha Hw) as ([|] & -> & Hr); simpl.
    + exists true. split; [done|]. split; [|done]. intros _. exists [], s. split_and!; [done|set_solver|by apply Hr].
    + exists b. split; [done|]. rewrite IH. split; [auto|]. intros [[_ Hm]|?]%Hback; [|done].
      by apply Hr in Hm.
  - exists b. split; [done|]. rewrite IH. split; [auto|]. intros [[? _]|?]%Hback; done.
Qed.

Lemma dirs_matches words s :
  matches (Dirs :: words) s ↔ matches words s ∨ ∃ u v, s = u ++ [slash] ++ v ∧ nl ∉ u ∧ matches words v.
Proof.
  simpl. split.
  - intros (u & v & -> & [->|(u' & -> & Hu)] & Hm); [by left|]. right. exists u', v. by rewrite <-app_assoc.
  - intros [Hm|(u & v & -> & Hu & Hm)]; [exists [], s; split_and!; [done|by left|done]|].
    exists (u ++ [slash]), v. rewrite <-app_assoc. split_and!; [done|right; by exists u|done].
Qed.

Lemma reached_step st w words s x s' :
  reached st (w :: words) s → s = x ++ s' → fixed w →
  (∀ e, (match w with One e' => e' = e | _ => True end) → Forall2 (fits e) (pattern w) x) →
  reached st words s'.
Proof.
  destruct st as [[ws e r]|]; [|done]. intros (Hu & He & seg & y & -> & -> & Hseg & Hy) -> Hw Hx.
  split_and!; [done..|]. exists (seg ++ [w]), (y ++ x).
  pose proof (uniform_app _ _ _ Hseg Hu) as Hu'. split_and!.
  - by rewrite <-app_assoc.
  - by rewrite <-app_assoc.
  - apply Forall_app. split; [done|by constructor].
  - rewrite bind_app. apply Forall2_app; [done|]. simpl. rewrite app_nil_r. apply Hx.
    destruct w; try done. by destruct Hu'.
Qed.

Lemma rank_step st w words : (rank words st < rank (w :: words) st)%nat.
Proof. destruct st as [[? ? ?]|]; simpl; lia. Qed.

Lemma glob_loop_ok fuel words s st a :
  sameAlphabet a words = true → Forall word_ok words → (length words <= W)%nat → (length s <= N)%nat →
  star_ok st → reached st words s → (rank words st < fuel)%nat →
  ∃ b, glob_loop rec fuel words s st = Some b ∧ (b = true ↔ matches words s ∨ later st).
Proof.
  revert words s st a. induction fuel as [|fuel IH]; intros words s st a Ha Hw Hl Hs Hst Hre Hfuel; [lia|].
  cbn [glob_loop].
  match goal with |- context [match st with None => Some false | _ => _ end] =>
    set (back := match st with None => Some false | _ => _ end) end.
  assert (Hback : ∃ b, back = Some b ∧ (b = true ↔ later st)).
  { subst back. destruct st as [[w e r]|]; [|by exists false].
    destruct Hst as (Hsa & Hsw & He & Hsl & Hsr). destruct r as [|c r].
    { exists false. split; [done|]. split; [done|]. by intros ([] & v & ? & ? & _). }
    destruct (Z.eqb_spec c e) as [->|Hce].
    { exists false. split; [done|]. split; [done|]. intros ([|? u] & v & ? & ? & ? & _); simplify_eq/=. set_solver. }
    destruct (IH w r (Some (mkStar w e r)) e) as (b & -> & Hb); [done|done|lia|simpl in Hsr; lia|..].
    - split_and!; try done. simpl in Hsr. lia.
    - split_and!; [by apply sameAlphabet_uniform|done|]. exists [], []. by split_and!.
    - simpl in *. nia.
    - exists b. split; [done|]. rewrite Hb. simpl. split.
      + intros [Hm|(u & v & -> & _ & Hu & Hm)]; [exists [c], r|exists (c :: u), v]; split_and!; try done; set_solver.
      + intros ([|? u] & v & ? & ? & Hu & Hm); simplify_eq/=. destruct u as [|d u]; [by left|right].
        exists (d :: u), v. split_and!; try done. set_solver. }
  destruct Hback as (bb & Hbb & Hlater). rewrite Hbb. clear Hbb back.
  destruct words as [|w words].
  { case_decide as Hd; [exists true|exists bb]; (split; [done|]); [|rewrite Hlater]; simpl; tauto. }
  apply Forall_cons in Hw as [Hw0 Hw]. simpl in Hl. pose proof (rank_step st w words) as Hrank.
  destruct w as [t|e|e|]; simpl in Ha.
  - unfold HasPrefix. case_decide as Hp.
    + destruct Hp as [v ->]. rewrite drop_app_length. rewrite length_app in Hs.
      destruct (IH words v st a) as (b & -> & Hb); [done|done|lia|lia|done| |lia|].
      { eapply reached_step; [done|done|done|]. intros e _. clear. induction t; constructor; done. }
      exists b. split; [done|]. rewrite Hb. simpl. split; [intros [?|?]; [left; by exists v|by right]|].
      intros [(v' & E & ?)|?]; [|by right]. simplify_list_eq. by left.
    + exists bb. split; [done|]. rewrite Hlater. simpl. split; [by right|]. intros [(v & -> & _)|?]; [|done].
      destruct Hp. by exists v.
  - apply andb_true_iff in Ha as [_ Ha]. destruct s as [|c s].
    { exists bb. split; [done|]. rewrite Hlater. simpl. split; [by right|]. by intros [(? & ? & ? & _)|?]. }
    destruct (Z.eqb_spec c e) as [->|Hce].
    { exists bb. split; [done|]. rewrite Hlater. simpl. split; [by right|]. intros [(? & ? & ? & ? & _)|?]; [|done]. by simplify_eq. }
    simpl in Hs. destruct (IH words s st e) as (b & -> & Hb); [done|done|lia|lia|done| |lia|].
    { eapply (reached_step _ _ _ _ [c]); [done|done|done|]. intros e' ->. by constructor. }
    exists b. split; [done|]. rewrite Hb. simpl. split; [intros [?|?]; [left; by exists c, s|by right]|].
    intros [(c' & v & E & _ & ?)|?]; [|by right]. simplify_eq. by left.
  - apply andb_true_iff in Ha as [_ Ha]. simpl in Hw0.
    destruct (IH words s (Some (mkStar words e s)) e) as (b & -> & Hb); [done|done|lia|done|..].
    { split_and!; done || lia. }
    { split_and!; [by apply sameAlphabet_uniform|done|]. exists [], []. by split_and!. }
    { destruct st as [[ws e0 r]|]; simpl in *; [|nia].
      destruct Hre as (_ & _ & seg & x & -> & -> & _). rewrite length_app in Hfuel. simpl in Hfuel. nia. }
    exists b. split; [done|]. rewrite Hb. simpl. split.
    + intros [Hm|(u & v & -> & _ & Hu & Hm)]; left; [exists [], s|exists u, v]; split_and!; try done. set_solver.
    + intros Hor. assert (matches (Many e :: words) s) as (u & v & -> & Hu & Hm).
      { destruct Hor as [Hm|Hm]; [exact Hm|by eapply star_absorbs]. }
      destruct u as [|c u]; [by left|right]. by exists (c :: u), v.
  - assert (Hlw : (length words < W)%nat) by lia. setoid_rewrite dirs_matches.
    destruct (Hrec words s Hlw Ha Hw) as ([|] & -> & Hr); simpl.
    { exists true. split; [done|]. split; [|done]. intros _. left. left. by apply Hr. }
    destruct (tryDirs_ok words s Hlw Ha Hw) as ([|] & -> & Ht); simpl.
    { exists true. split; [done|]. split; [|done]. intros _. left. right. by apply Ht. }
    exists bb. split; [done|]. rewrite Hlater. split; [by right|]. intros [[Hm|Hm]|?]; [by apply Hr in Hm|by apply Ht in Hm|done].
Qed.
End loop.

Lemma suffix_matches e t s :
  matches [Many e; Text t] s ↔ t `suffix_of` s ∧ e ∉ take (length s - length t) s.
Proof.
  simpl. split.
  - intros (u & v & -> & Hu & w & -> & ->). rewrite app_nil_r. split; [by exists u|].
    rewrite length_app, Nat.add_sub. by rewrite take_app_length.
  - intros [[u ->] Hu]. rewrite length_app, Nat.add_sub, take_app_length in Hu.
    exists u, t. split_and!; [done..|]. exists []. by rewrite app_nil_r.
Qed.

Lemma matchGlobWords_ok depth words s :
  sameAlphabet 0 words = true → Forall word_ok words → (length words < depth)%nat →
  ∃ b, matchGlobWords depth words s = Some b ∧ (b = true ↔ matches words s).
Proof.
  revert words s. induction depth as [|depth IH]; intros words s Ha Hw Hd; [lia|].
  assert (Hgen : ∃ b, glob_loop (matchGlobWords depth) (glob_fuel words s) words s None = Some b ∧
    (b = true ↔ matches words s)).
  { destruct (glob_loop_ok (matchGlobWords depth) (length words) (length s)) with
      (fuel := glob_fuel words s) (words := words) (s := s) (st := @None star) (a := 0) as (b & -> & Hb); try done.
    - intros ws s' Hl. intros. apply IH; [done..|lia].
    - unfold glob_fuel. simpl. lia.
    - exists b. split; [done|]. rewrite Hb. simpl. tauto. }
  destruct words as [|[t|e|e|] [|[t'|e'|e'|] [|w words]]]; try exact Hgen.
  clear Hgen. cbn [matchGlobWords]. case_decide as Hs; eexists; (split; [done|]); rewrite suffix_matches.
  - rewrite negb_true_iff, bool_decide_eq_false. tauto.
  - split; [done|tauto].
Qed.

(** ** From regular expressions to words *)

Definition RuneError : Z := 65533.
Definition MaxRune : Z := 1114111.

(** The trees of regexp/syntax; [OpOther] stands for the remaining operators. *)
Inductive regexp :=
| OpEmptyMatch
| OpLiteral (fold : bool) (runes : list Z)
| OpCharClass (ranges : list (Z * Z))
| OpAnyCharNotNL
| OpBeginText
| OpEndText
| OpCapture (sub : regexp)
| OpStar (sub : regexp)
| OpQuest (sub : regexp)
| OpConcat (subs : list regexp)
| OpAlternate (subs : list regexp)
| OpOther (n : Z).

Definition globFilenameChar (r : regexp) : bool :=
  match r with
  | OpCharClass ranges => bool_decide (ranges = [(0, slash - 1); (slash + 1, MaxRune)])
  | _ => false
  end.

(** Appending a sequence to another, joining the texts that meet. *)
Definition joinPart (w : list globWord) (part : globWord) : list globWord :=
  match last w, part with
  | Some (Text t), Text t' => removelast w ++ [Text (t ++ t')]
  | _, _ => w ++ [part]
  end.
Definition joinWords (a b : list globWord) : list globWord := foldl joinPart a b.

(** The characters of a range, from [lo] on. *)
Fixpoint rangeWords (lo : Z) (n : nat) : list (list globWord) :=
  match n with O => [] | S n => [Text [lo]] :: rangeWords (lo + 1) n end.

Fixpoint classWords (ranges : list (Z * Z)) : option (list (list globWord)) :=
  match ranges with
  | [] => Some []
  | (lo, hi) :: ranges =>
      if (32 <? hi - lo) || (lo <=? RuneError) && (RuneError <=? hi) then None
      else ws ← classWords ranges; Some (rangeWords lo (Z.to_nat (hi - lo + 1)) ++ ws)
  end.

Definition is_dirs (sub : regexp) : bool :=
  match (match sub with OpCapture s => s | s => s end) with
  | OpConcat [OpStar OpAnyCharNotNL; OpLiteral _ [c]] => c =? slash
  | _ => false
  end.

(** The loop over the parts of a concatenation or an alternative. *)
Fixpoint concatWords (words : list (list globWord)) (subs : list (option (list (list globWord))))
    : option (list (list globWord)) :=
  match subs with
  | [] => Some words
  | sub :: subs =>
      tail ← sub;
      if decide (64 < length words * length tail)%nat then None
      else concatWords (words ≫= λ a, joinWords a <$> tail) subs
  end.

Fixpoint alternateWords (words : list (list globWord)) (subs : list (option (list (list globWord))))
    : option (list (list globWord)) :=
  match subs with
  | [] => Some words
  | sub :: subs =>
      tail ← sub;
      if decide (64 < length (words ++ tail))%nat then None else alternateWords (words ++ tail) subs
  end.

Fixpoint globWords (r : regexp) : option (list (list globWord)) :=
  match r with
  | OpEmptyMatch => Some [[]]
  | OpLiteral fold runes =>
      if fold then None else if bool_decide (RuneError ∈ runes) then None else Some [[Text runes]]
  | OpAnyCharNotNL => Some [[One nl]]
  | OpStar sub =>
      match sub with
      | OpAnyCharNotNL => Some [[Many nl]]
      | _ => if globFilenameChar sub then Some [[Many slash]] else None
      end
  | OpQuest sub => if is_dirs sub then Some [[Dirs]] else None
  | OpCapture sub => globWords sub
  | OpCharClass ranges => if globFilenameChar r then Some [[One slash]] else classWords ranges
  | OpConcat subs => concatWords [[]] (map globWords subs)
  | OpAlternate subs => alternateWords [] (map globWords subs)
  | _ => None
  end.

(** [newGlobMatcher] when it finds words; [match] then tries the sequences. *)
Definition globMatcherWords (r : regexp) : option (list (list globWord)) :=
  match r with
  | OpConcat (OpBeginText :: subs) =>
      match last subs with
      | Some OpEndText =>
          words ← globWords (OpConcat (removelast subs));
          if forallb (sameAlphabet 0) words then Some words else None
      | _ => None
      end
  | _ => None
  end.

Fixpoint matchAny (words : list (list globWord)) (s : name) : option bool :=
  match words with
  | [] => Some false
  | w :: words => b ← matchGlobWords (S (length w)) w s; if (b : bool) then Some true else matchAny words s
  end.

(** ** The languages *)

Inductive repeated (P : name → Prop) : name → Prop :=
| rep_nil : repeated P []
| rep_app u v : P u → repeated P v → repeated P (u ++ v).

Lemma rangeWords_elem lo n w : w ∈ rangeWords lo n ↔ ∃ c, w = [Text [c]] ∧ lo <= c < lo + Z.of_nat n.
Proof.
  revert lo. induction n as [|n IH]; intros lo; simpl; [set_solver by lia|].
  rewrite elem_of_cons, IH. split.
  - intros [->|(c & -> & ?)]; [exists lo|exists c]; (split; [done|lia]).
  - intros (c & -> & ?). destruct (decide (c = lo)) as [->|]; [by left|right]. exists c. split; [done|lia].
Qed.

Section lang.
(** What the operators that have no words match. *)
Context (folded : list Z → name → Prop) (other : Z → name → Prop).

Fixpoint lang (r : regexp) (s : name) : Prop :=
  match r with
  | OpEmptyMatch | OpBeginText | OpEndText => s = []
  | OpLiteral fold runes => if fold then folded runes s else s = runes
  | OpCharClass ranges => ∃ c, s = [c] ∧ ∃ lo hi, (lo, hi) ∈ ranges ∧ lo <= c <= hi
  | OpAnyCharNotNL => ∃ c, s = [c] ∧ c ≠ nl
  | OpCapture sub => lang sub s
  | OpStar sub => repeated (lang sub) s
  | OpQuest sub => s = [] ∨ lang sub s
  | OpConcat subs => foldr (λ (p : name → Prop) q s, ∃ u v, s = u ++ v ∧ p u ∧ q v) (λ s, s = []) (map lang subs) s
  | OpAlternate subs => foldr (λ (p : name → Prop) q s, p s ∨ q s) (λ _, False) (map lang subs) s
  | OpOther n => other n s
  end.

Lemma regexp_nested_ind (P : regexp → Prop) :
  P OpEmptyMatch → (∀ f l, P (OpLiteral f l)) → (∀ l, P (OpCharClass l)) → P OpAnyCharNotNL →
  P OpBeginText → P OpEndText → (∀ r, P r → P (OpCapture r)) → (∀ r, P r → P (OpStar r)) →
  (∀ r, P r → P (OpQuest r)) → (∀ l, Forall P l → P (OpConcat l)) →
  (∀ l, Forall P l → P (OpAlternate l)) → (∀ n, P (OpOther n)) → ∀ r, P r.
Proof.
  intros He Hl Hc Ha Hb Ht Hcap Hstar Hq Hcat Halt Ho. fix IH 1.
  intros [| | | | | |r|r|r|l|l|n]; [exact He|apply Hl|apply Hc|exact Ha|exact Hb|exact Ht|apply Hcap, IH|apply Hstar, IH|apply Hq, IH|..|apply Ho].
  - apply Hcat. induction l as [|x l IHl]; constructor; [apply IH|exact IHl].
  - apply Halt. induction l as [|x l IHl]; constructor; [apply IH|exact IHl].
Qed.

Lemma matches_app a b s : matches (a ++ b) s ↔ ∃ u v, s = u ++ v ∧ matches a u ∧ matches b v.
Proof.
  revert s. induction a as [|[t|e|e|] a IH]; intros s; simpl.
  - split; [intros; by exists [], s|]. by intros (u & v & -> & -> & ?).
  - setoid_rewrite IH. split.
    + intros (v & -> & u' & v' & -> & ? & ?). exists (t ++ u'), v'. rewrite <-app_assoc. eauto 10.
    + intros (u & v & -> & (u' & -> & ?) & ?). exists (u' ++ v). rewrite <-app_assoc. eauto 10.
  - setoid_rewrite IH. split.
    + intros (c & v & -> & ? & u' & v' & -> & ? & ?). exists (c :: u'), v'. eauto 10.
    + intros (u & v & -> & (c & u' & -> & ? & ?) & ?). exists c, (u' ++ v). eauto 10.
  - setoid_rewrite IH. split.
    + intros (x & v & -> & ? & u' & v' & -> & ? & ?). exists (x ++ u'), v'. rewrite <-app_assoc. eauto 10.
    + intros (u & v & -> & (x & u' & -> & ? & ?) & ?). exists x, (u' ++ v). rewrite <-app_assoc. eauto 10.
  - setoid_rewrite IH. split.
    + intros (x & v & -> & ? & u' & v' & -> & ? & ?). exists (x ++ u'), v'. rewrite <-app_assoc. eauto 10.
    + intros (u & v & -> & (x & u' & -> & ? & ?) & ?). exists x, (u' ++ v). rewrite <-app_assoc. eauto 10.
Qed.

Lemma joinPart_matches w p s : matches (joinPart w p) s ↔ matches (w ++ [p]) s.
Proof.
  unfold joinPart. destruct (last w) as [[t| | |]|] eqn:Hl; try done. destruct p as [t'| | |]; try done.
  apply last_Some in Hl as [l ->]. rewrite removelast_last, <-app_assoc, !matches_app. simpl.
  split; intros (u & v & -> & Hu & Hv); exists u, v; (split_and!; [done..|]).
  - destruct Hv as (v' & -> & ->). exists t'. rewrite !app_nil_r. split; [done|]. exists []. by rewrite app_nil_r.
  - destruct Hv as (v' & -> & v'' & -> & ->). exists []. by rewrite <-app_assoc.
Qed.

Lemma joinWords_matches a b s : matches (joinWords a b) s ↔ matches (a ++ b) s.
Proof.
  unfold joinWords. revert a s. induction b as [|p b IH]; intros a s; simpl; [by rewrite app_nil_r|].
  rewrite IH, (cons_middle p a b), app_assoc, (matches_app (joinPart a p)), (matches_app (a ++ [p])).
  by setoid_rewrite joinPart_matches.
Qed.

(** Characters. *)
Definition runes (s : name) : Prop := Forall (λ c, 0 <= c <= MaxRune) s.

(** The sequences [ws] match exactly the language [L]. *)
Definition denotes (ws : list (list globWord)) (L : name → Prop) : Prop :=
  ∀ s, runes s → L s ↔ ∃ w, w ∈ ws ∧ matches w s.

Lemma denotes_single w (L : name → Prop) : (∀ s, runes s → L s ↔ matches w s) → denotes [w] L.
Proof. intros H s Hs. rewrite (H s Hs). set_solver. Qed.

Lemma concatWords_denotes subs Ls words ws (L0 : name → Prop) :
  Forall2 (λ o L, ∀ ws, o = Some ws → denotes ws L) subs Ls →
  denotes words L0 → concatWords words subs = Some ws →
  denotes ws (λ s, ∃ u v, s = u ++ v ∧ L0 u ∧
    foldr (λ (p : name → Prop) q s, ∃ u v, s = u ++ v ∧ p u ∧ q v) (λ s, s = []) Ls v).
Proof.
  intros Hall. revert words ws L0. induction Hall as [|o L subs Ls Ho _ IH]; intros words ws L0 H0 Hc; simpl in *.
  - simplify_eq. intros s Hs. rewrite <-(H0 s Hs). split; [|intros; exists s, []; by rewrite app_nil_r].
    intros (u & v & -> & ? & ->). by rewrite app_nil_r.
  - destruct o as [tail|]; simpl in Hc; [|done]. case_decide; [done|]. specialize (Ho tail eq_refl).
    assert (Hj : denotes (words ≫= λ a, joinWords a <$> tail) (λ s, ∃ u v, s = u ++ v ∧ L0 u ∧ L v)).
    { intros s' Hs'. split.
      * intros (u & v & -> & Hu & Hv). apply Forall_app in Hs' as [Hsu Hsv].
        apply (H0 u Hsu) in Hu as (a & Ha & Hu). apply (Ho v Hsv) in Hv as (b & Hb & Hv).
        exists (joinWords a b). split; [|by apply joinWords_matches, matches_app; eauto].
        apply list_elem_of_bind. exists a. split; [|done]. apply list_elem_of_fmap. eauto.
      * intros (w & (a & (b & -> & Hb)%list_elem_of_fmap & Ha)%list_elem_of_bind & Hm).
        apply joinWords_matches, matches_app in Hm as (u & v & -> & Hu & Hv). apply Forall_app in Hs' as [Hsu Hsv].
        exists u, v. split_and!; [done|apply H0; eauto|apply Ho; eauto]. }
    intros s Hs. rewrite <-(IH _ _ _ Hj Hc s Hs). split.
    + intros (u & v & -> & ? & u' & v' & -> & ? & ?). exists (u ++ u'), v'. rewrite <-app_assoc. eauto 10.
    + intros (u & v & -> & (u' & v' & -> & ? & ?) & ?). exists u', (v' ++ v). rewrite <-app_assoc. eauto 10.
Qed.

Lemma alternateWords_denotes subs Ls words ws (L0 : name → Prop) :
  Forall2 (λ o L, ∀ ws, o = Some ws → denotes ws L) subs Ls →
  denotes words L0 → alternateWords words subs = Some ws →
  denotes ws (λ s, L0 s ∨ foldr (λ (p : name → Prop) q s, p s ∨ q s) (λ _, False) Ls s).
Proof.
  intros Hall. revert words ws L0. induction Hall as [|o L subs Ls Ho _ IH]; intros words ws L0 H0 Hc; simpl in *.
  - simplify_eq. intros s Hs. rewrite <-(H0 s Hs). tauto.
  - destruct o as [tail|]; simpl in Hc; [|done]. case_decide; [done|]. specialize (Ho tail eq_refl).
    assert (Hj : denotes (words ++ tail) (λ s, L0 s ∨ L s)).
    { intros s' Hs'. rewrite (H0 s' Hs'), (Ho s' Hs'). setoid_rewrite elem_of_app. naive_solver. }
    intros s Hs. rewrite <-(IH _ _ _ Hj Hc s Hs). tauto.
Qed.

Lemma repeated_single (P : Z → Prop) (L : name → Prop) e :
  (∀ s, runes s → L s ↔ ∃ c, s = [c] ∧ c ≠ e) → ∀ s, runes s → repeated L s ↔ e ∉ s.
Proof.
  intros HL s Hs. split.
  - intros Hr. revert Hs. induction Hr as [|u v Hu Hv IH]; intros Hs; [apply not_elem_of_nil|].
    apply Forall_app in Hs as [Hsu Hsv]. apply (HL u Hsu) in Hu as (c & -> & Hc). specialize (IH Hsv). set_solver.
  - induction Hs as [|c s Hc Hs IH]; intros He; [constructor|]. apply not_elem_of_cons in He as [? ?].
    apply (rep_app L [c] s); [|auto]. apply HL; [by constructor|]. eauto.
Qed.

Lemma many_matches e s : matches [Many e] s ↔ e ∉ s.
Proof.
  simpl. split; [intros (u & v & -> & ? & ->); by rewrite app_nil_r|].
  intros. exists s, []. by rewrite app_nil_r.
Qed.

Lemma one_matches e s : matches [One e] s ↔ ∃ c, s = [c] ∧ c ≠ e.
Proof. simpl. split; [intros (c & v & -> & ? & ->); eauto|intros (c & -> & ?); eauto]. Qed.

Lemma filename_char r s : globFilenameChar r = true → runes s → lang r s ↔ ∃ c, s = [c] ∧ c ≠ slash.
Proof.
  destruct r; try done. simpl. intros ->%bool_decide_eq_true Hs. split; intros (c & -> & Hc); exists c; (split; [done|]).
  - destruct Hc as (lo & hi & Hin & Hr). unfold slash, MaxRune in *. set_unfold. destruct Hin as [?|[?|?]]; simplify_eq; lia.
  - apply Forall_cons in Hs as [Hs _]. unfold slash, MaxRune in *.
    destruct (decide (c < 47)); [exists 0, 46|exists 48, 1114111]; (split; [set_solver|lia]).
Qed.

Lemma classWords_denotes ranges ws :
  classWords ranges = Some ws →
  denotes ws (λ s, ∃ c, s = [c] ∧ ∃ lo hi, (lo, hi) ∈ ranges ∧ lo <= c <= hi).
Proof.
  revert ws. induction ranges as [|[lo hi] ranges IH]; intros ws Hc; simpl in Hc.
  - simplify_eq. intros s _. set_solver.
  - destruct (_ || _); [done|]. destruct (classWords ranges) as [ws'|]; simplify_eq/=.
    intros s Hs. setoid_rewrite elem_of_app. setoid_rewrite rangeWords_elem.
    specialize (IH ws' eq_refl s Hs). simpl in IH. split.
    + intros (c & -> & lo' & hi' & [?|Hin]%elem_of_cons & Hr); simplify_eq.
      * exists [Text [c]]. split; [left; exists c; split; [done|lia]|]. simpl. eauto.
      * destruct (proj1 IH) as (w & ? & ?); [eauto 10|]. eauto.
    + intros (w & [(c & -> & Hr)|Hin] & Hm).
      * destruct Hm as (v & -> & Hv). simpl in Hv. subst v. exists c. split; [done|]. exists lo, hi. split; [set_solver|lia].
      * destruct (proj2 IH) as (c & -> & lo' & hi' & ? & ?); [eauto|]. exists c. split; [done|]. exists lo', hi'. set_solver.
Qed.

(** A slash has no other case. *)
Context (Hfolded : ∀ s, folded [slash] s ↔ s = [slash]).

Lemma any_star s : runes s → repeated (lang OpAnyCharNotNL) s ↔ nl ∉ s.
Proof. apply (repeated_single (λ _, True)). done. Qed.

Lemma is_dirs_concat f s :
  runes s → lang (OpConcat [OpStar OpAnyCharNotNL; OpLiteral f [slash]]) s ↔ ∃ u, s = u ++ [slash] ∧ nl ∉ u.
Proof.
  intros Hs. cbn [lang map foldr]. split.
  - intros (u & v & -> & Hu & v1 & v2 & -> & Hv & ->). apply Forall_app in Hs as [Hs _].
    apply (any_star u Hs) in Hu. exists u. rewrite app_nil_r. split; [|done]. f_equal.
    destruct f; [by apply Hfolded|done].
  - intros (u & -> & Hu). apply Forall_app in Hs as [Hs _]. exists u, [slash]. split_and!; [done|by apply any_star|].
    exists [slash], []. split_and!; [done| |done]. destruct f; [by apply Hfolded|done].
Qed.

Lemma is_dirs_lang sub s : is_dirs sub = true → runes s → (s = [] ∨ lang sub s) ↔ matches [Dirs] s.
Proof.
  intros Hd Hs. assert (lang sub s ↔ ∃ u, s = u ++ [slash] ∧ nl ∉ u) as ->.
  { assert (Hcat : ∀ r, match r with OpConcat [OpStar OpAnyCharNotNL; OpLiteral _ [c]] => c =? slash | _ => false end
      = true → lang r s ↔ ∃ u, s = u ++ [slash] ∧ nl ∉ u).
    { intros [| | | | | | | | |[|[| | | | | | |[]| | | |] [|[|f [|c []]| | | | | | | | | |] []]]| |]; try done.
      intros ->%Z.eqb_eq. by apply is_dirs_concat. }
    unfold is_dirs in Hd. destruct sub as [| | | | | |sub'| | |subs| |]; try discriminate Hd;
      [apply (Hcat sub' Hd)|apply (Hcat (OpConcat subs) Hd)]. }
  rewrite dirs_matches. simpl. split.
  - intros [->|(u & -> & Hu)]; [by left|right]. exists u, []. done.
  - intros [->|(u & v & -> & Hu & ->)]; [by left|right]. exists u. done.
Qed.

Lemma globWords_denotes r ws : globWords r = Some ws → denotes ws (lang r).
Proof.
  revert ws. induction r as [|f l|l| | | |r IH|r IH|r IH|l IH|l IH|n] using regexp_nested_ind; intros ws Hw; cbn [globWords] in Hw; try done.
  - simplify_eq. apply denotes_single. done.
  - destruct f; [done|]. case_bool_decide; [done|]. simplify_eq. apply denotes_single. intros s _. simpl.
    split; [intros ->; exists []; by rewrite app_nil_r|]. intros (v & -> & ->). by rewrite app_nil_r.
  - destruct (globFilenameChar (OpCharClass l)) eqn:Hf; [|by apply classWords_denotes].
    simplify_eq. apply denotes_single. intros s Hs. rewrite one_matches. by apply filename_char.
  - simplify_eq. apply denotes_single. intros s Hs. by rewrite one_matches.
  - by apply IH.
  - assert (Hstar : ∀ e, (∀ s, runes s → lang r s ↔ ∃ c, s = [c] ∧ c ≠ e) → denotes [[Many e]] (lang (OpStar r))).
    { intros e He. apply denotes_single. intros s Hs. rewrite many_matches. by apply (repeated_single (λ _, True)). }
    destruct r; try (destruct (globFilenameChar _) eqn:Hf; [|done]); simplify_eq; apply Hstar; try done;
      intros s Hs; by apply filename_char.
  - destruct (is_dirs r) eqn:Hd; [|done]. simplify_eq. apply denotes_single. intros s Hs. by apply is_dirs_lang.
  - assert (Hall : Forall2 (λ o L, ∀ ws, o = Some ws → denotes ws L) (map globWords l) (map lang l)).
    { clear Hw. induction IH; constructor; auto. }
    assert (H0 : denotes [[]] (λ s, s = [])) by by apply denotes_single.
    intros s Hs. rewrite <-(concatWords_denotes _ _ _ _ _ Hall H0 Hw s Hs).
    cbn [lang]. split; [intros; by exists [], s|]. by intros (u & v & -> & -> & ?).
  - assert (Hall : Forall2 (λ o L, ∀ ws, o = Some ws → denotes ws L) (map globWords l) (map lang l)).
    { clear Hw. induction IH; constructor; auto. }
    assert (H0 : denotes [] (λ _, False)) by (intros s' _; set_solver).
    intros s Hs. rewrite <-(alternateWords_denotes _ _ _ _ _ Hall H0 Hw s Hs).
    cbn [lang]. tauto.
Qed.
End lang.

(** The words made have an alphabet. *)
Lemma joinWords_ok a b : Forall word_ok a → Forall word_ok b → Forall word_ok (joinWords a b).
Proof.
  intros Ha Hb. unfold joinWords. revert a Ha. induction Hb as [|p b Hp _ IH]; intros a Ha; [done|].
  simpl. apply IH. unfold joinPart. assert (Forall word_ok (a ++ [p])) by (apply Forall_app; split; [done|by constructor]).
  destruct (last a) as [[t| | |]|] eqn:Hl; try done. destruct p as [t'| | |]; try done.
  apply last_Some in Hl as [l ->]. rewrite removelast_last. apply Forall_app in Ha as [? _].
  apply Forall_app. split; [done|]. by constructor.
Qed.

Lemma globWords_ok r ws : globWords r = Some ws → Forall (Forall word_ok) ws.
Proof.
  assert (H1 : ∀ w, word_ok w → Forall (Forall word_ok) [[w]]) by (intros; by repeat constructor).
  revert ws. induction r as [|f l|l| | | |r IH|r IH|r IH|l IH|l IH|n] using regexp_nested_ind; intros ws Hw; cbn [globWords] in Hw; try done.
  - simplify_eq. by repeat constructor.
  - destruct f; [done|]. case_bool_decide; [done|]. simplify_eq. by apply H1.
  - destruct (globFilenameChar _); [simplify_eq; by apply H1|]. revert ws Hw.
    induction l as [|[lo hi] l IH]; intros ws Hw; simpl in Hw; [by simplify_eq|]. destruct (_ || _); [done|].
    destruct (classWords l) as [ws'|]; [|done]. cbn in Hw. injection Hw as <-. apply Forall_app. split; [|by apply IH].
    apply Forall_forall. intros w (c & -> & _)%rangeWords_elem. by repeat constructor.
  - simplify_eq. by apply H1.
  - by apply IH.
  - destruct r; try (destruct (globFilenameChar _) eqn:Hf; [|done]); simplify_eq; by apply H1.
  - destruct (is_dirs r) eqn:Hd; [|done]. simplify_eq. by apply H1.
  - assert (Hgen : ∀ words ws, Forall (Forall word_ok) words → concatWords words (map globWords l) = Some ws → Forall (Forall word_ok) ws).
    { clear Hw. induction IH as [|r l Hr _ IHl]; intros words ws' Hwords Hc; simpl in Hc; [by simplify_eq|].
      destruct (globWords r) as [tail|]; [|done]. simpl in Hc. case_decide; [done|]. eapply IHl; [|done].
      apply Forall_forall. intros w (a & (b & -> & Hb)%list_elem_of_fmap & Ha)%list_elem_of_bind.
      rewrite Forall_forall in Hwords. specialize (Hr tail eq_refl). rewrite Forall_forall in Hr. apply joinWords_ok; auto. }
    eapply Hgen, Hw. by repeat constructor.
  - assert (Hgen : ∀ words ws, Forall (Forall word_ok) words → alternateWords words (map globWords l) = Some ws → Forall (Forall word_ok) ws).
    { clear Hw. induction IH as [|r l Hr _ IHl]; intros words ws' Hwords Hc; simpl in Hc; [by simplify_eq|].
      destruct (globWords r) as [tail|]; [|done]. simpl in Hc. case_decide; [done|]. eapply IHl; [|done].
      apply Forall_app. auto. }
    by eapply Hgen, Hw.
Qed.

Lemma matchAny_ok words s :
  forallb (sameAlphabet 0) words = true → Forall (Forall word_ok) words →
  ∃ b, matchAny words s = Some b ∧ (b = true ↔ ∃ w, w ∈ words ∧ matches w s).
Proof.
  induction words as [|w words IH]; intros Ha Hw.
  { exists false. split; [done|]. set_solver. }
  simpl in Ha. apply andb_true_iff in Ha as [Ha1 Ha]. apply Forall_cons in Hw as [Hw1 Hw].
  cbn [matchAny]. destruct (matchGlobWords_ok (S (length w)) w s) as ([|] & -> & Hm); [done..|lia| |]; simpl.
  - exists true. split; [done|]. split; [|done]. intros _. exists w. split; [set_solver|by apply Hm].
  - destruct (IH Ha Hw) as (b & -> & Hb). exists b. split; [done|]. rewrite Hb. setoid_rewrite elem_of_cons.
    split; [naive_solver|]. intros (w' & [->|?] & Hm'); [by apply Hm in Hm'|eauto].
Qed.

(** C31: a glob that is matched by words is matched as its regular expression says:
    on every name the one-pass matcher with a single fallback star terminates, for
    every sequence of words, and the matcher's answer is whether the name belongs
    to the language of the expression between the anchors. *)
Theorem globMatcher_correct (folded : list Z → name → Prop) (other : Z → name → Prop) r body words s :
  (∀ s, folded [slash] s ↔ s = [slash]) → r = OpConcat (OpBeginText :: body ++ [OpEndText]) →
  globMatcherWords r = Some words → runes s →
  ∃ b, matchAny words s = Some b ∧ (b = true ↔ lang folded other (OpConcat body) s).
Proof.
  intros Hfold -> Hw Hs. unfold globMatcherWords in Hw. rewrite last_snoc, removelast_last in Hw.
  destruct (globWords (OpConcat body)) as [ws|] eqn:Hg; [|done]. simpl in Hw.
  destruct (forallb _ ws) eqn:Ha; [|done]. simplify_eq.
  destruct (matchAny_ok words s Ha (globWords_ok _ _ Hg)) as (b & Hb & Hm). exists b. split; [done|].
  by rewrite Hm, (globWords_denotes folded other Hfold _ _ Hg s Hs).
Qed.

(** "^(.*/)?a[^/]*b[^/]*\.c$", i.e. "**/a*b*.c". *)
Definition sample_glob : list regexp :=
  [OpQuest (OpCapture (OpConcat [OpStar OpAnyCharNotNL; OpLiteral false [slash]])); OpLiteral false (bs "a");
   OpStar (OpCharClass [(0, slash - 1); (slash + 1, MaxRune)]); OpLiteral false (bs "b");
   OpStar (OpCharClass [(0, slash - 1); (slash + 1, MaxRune)]); OpLiteral false (bs ".c")].

Lemma globMatcher_correct_witness :
  (match globMatcherWords (OpConcat (OpBeginText :: sample_glob ++ [OpEndText])) with
   | Some words => (matchAny words (bs "x/y/axbb.b.c"), matchAny words (bs "x/ay/b.c")) | None => (None, None) end) =
    (Some true, Some false) ∧
  lang (λ l s, s = l) (λ _ _, False) (OpConcat sample_glob) (bs "x/y/axbb.b.c").
Proof.
  split; [vm_compute; reflexivity|].
  destruct (globMatcher_correct (λ l s, s = l) (λ _ _, False)
    (OpConcat (OpBeginText :: sample_glob ++ [OpEndText])) sample_glob
    [[Dirs; Text (bs "a"); Many slash; Text (bs "b"); Many slash; Text (bs ".c")]] (bs "x/y/axbb.b.c")) as (b & Hb & Hl).
  - intros s. reflexivity.
  - reflexivity.
  - vm_compute. reflexivity.
  - unfold runes. apply (bool_decide_unpack _). vm_compute. exact I.
  - apply Hl. vm_compute in Hb. injection Hb as <-. reflexivity.
Defined.
