(* ===== verification/Intern.v ===== *)
(** * Interned strings and tagged ids (str_intern.go, page_vec.go, vfs.go, any.go)

    Every string of the build has a 32-bit id, handed out in order and found again
    through a 128-bit hash: the first half indexes a hash table, the second is
    compared, and strings whose first halves collide go to a map keyed by the
    string.  The strings are kept in a flat array and in pages that never move,
    which other goroutines read.  File ids (VFS) and arguments (ANY) are string ids
    with a tag bit. *)

From S2P Require Import Prelude.
Local Open Scope Z_scope.

Abbreviation text := (list Z) (only parsing).

(** ** Paged vectors *)

Module PageVec.
Section pages.
Context {T : Type} (zero : T).

Abbreviation PageVec := (list (option (list T))).
Definition newPageVec : PageVec := replicate 32 None.

Definition pageOffset (id : Z) : nat * nat :=
  let n := id + 1 in
  let p := Z.log2 n in
  (Z.to_nat p, Z.to_nat (n - 2 ^ p)).

Definition pageLen (p : nat) : nat := Z.to_nat (2 ^ Z.of_nat p).

Definition set (v : PageVec) (id : Z) (x : T) : option PageVec :=
  let '(p, off) := pageOffset id in
  page ← v !! p;
  match page with
  | Some page => if decide (off < length page)%nat then Some (<[p := Some (<[off := x]> page)]> v) else None
  | None => Some (<[p := Some (<[off := x]> (replicate (pageLen p) zero))]> v)
  end.

(** [get] faults on a page that was never stored, [getSafe] returns the zero value. *)
Definition get (v : PageVec) (id : Z) : option T :=
  let '(p, off) := pageOffset id in
  page ← v !! p; page ← page; page !! off.

Definition getSafe (v : PageVec) (id : Z) : option T :=
  let '(p, off) := pageOffset id in
  page ← v !! p;
  match page with Some page => page !! off | None => Some zero end.

(** [at]: the page is made if need be. *)
Definition ensure (v : PageVec) (id : Z) : option PageVec :=
  let '(p, off) := pageOffset id in
  page ← v !! p;
  match page with
  | Some page => Some v
  | None => Some (<[p := Some (replicate (pageLen p) zero)]> v)
  end.

Record pages_ok (v : PageVec) : Prop := {
  pg_len : length v = 32%nat;
  pg_page : ∀ p page, v !! p = Some (Some page) → length page = pageLen p }.

Lemma pageOffset_spec id :
  0 <= id < 2 ^ 32 - 1 → let '(p, off) := pageOffset id in
  (p < 32)%nat ∧ (off < pageLen p)%nat ∧ id = 2 ^ Z.of_nat p - 1 + Z.of_nat off.
Proof.
  intros Hid. unfold pageOffset, pageLen.
  assert (Hl := Z.log2_spec (id + 1) ltac:(lia)). assert (Hn := Z.log2_nonneg (id + 1)).
  assert (Hp : Z.log2 (id + 1) < 32) by (apply Z.log2_lt_pow2; lia).
  rewrite Z.pow_succ_r in Hl by done. rewrite !Z2Nat.id by lia. split_and!; lia.
Qed.

Lemma pageOffset_inj id id' :
  0 <= id < 2 ^ 32 - 1 → 0 <= id' < 2 ^ 32 - 1 → pageOffset id = pageOffset id' → id = id'.
Proof.
  intros H1 H2 E. pose proof (pageOffset_spec id H1) as S1. pose proof (pageOffset_spec id' H2) as S2.
  rewrite E in S1. destruct (pageOffset id'). destruct S1 as (_ & _ & ->), S2 as (_ & _ & ->). done.
Qed.

Lemma pageOffset_at p off :
  (off < pageLen p)%nat → pageOffset (2 ^ Z.of_nat p - 1 + Z.of_nat off) = (p, off).
Proof.
  unfold pageOffset, pageLen. intros Ho. assert (0 < 2 ^ Z.of_nat p) by (apply Z.pow_pos_nonneg; lia).
  assert (Hl : Z.log2 (2 ^ Z.of_nat p - 1 + Z.of_nat off + 1) = Z.of_nat p).
  { apply Z.log2_unique; [lia|]. rewrite Z.pow_succ_r by lia. lia. }
  rewrite Hl. f_equal; lia.
Qed.

Lemma get_set v id x :
  pages_ok v → 0 <= id < 2 ^ 32 - 1 →
  ∃ v', set v id x = Some v' ∧ pages_ok v' ∧ get v' id = Some x ∧
    ∀ id', 0 <= id' < 2 ^ 32 - 1 → id' ≠ id → getSafe v' id' = getSafe v id' ∧
      (is_Some (get v id') → get v' id' = get v id').
Proof.
  intros [Hlen Hpage] Hid. pose proof (pageOffset_spec id Hid) as Hsp.
  unfold set. destruct (pageOffset id) as [p off] eqn:Hpo. destruct Hsp as (Hp & Hoff & Hideq).
  destruct (lookup_lt_is_Some_2 v p) as [page Hpg]; [lia|]. rewrite Hpg. cbn [mbind option_bind].
  set (old := default (replicate (pageLen p) zero) page).
  assert (Hold : length old = pageLen p).
  { subst old. destruct page as [page|]; simpl; [by eapply Hpage|apply length_replicate]. }
  assert (Heq : (match page with
    | Some page => if decide (off < length page)%nat then Some (<[p:=Some (<[off:=x]> page)]> v) else None
    | None => Some (<[p:=Some (<[off:=x]> (replicate (pageLen p) zero))]> v) end) =
    Some (<[p := Some (<[off := x]> old)]> v)).
  { subst old. destruct page as [page|]; simpl in *; [|done]. by rewrite decide_True by lia. }
  rewrite Heq. eexists. split; [done|]. split_and!.
  - split; [by rewrite length_insert|]. intros q pg Hq. destruct (decide (p = q)) as [<-|].
    + rewrite list_lookup_insert_eq in Hq by lia. simplify_eq. by rewrite length_insert.
    + rewrite list_lookup_insert_ne in Hq by done. by eapply Hpage.
  - unfold get. rewrite Hpo, list_lookup_insert_eq by lia. cbn [mbind option_bind]. apply list_lookup_insert_eq. lia.
  - intros id' Hid' Hne. pose proof (pageOffset_spec id' Hid') as Hsp'. unfold get, getSafe.
    destruct (pageOffset id') as [q off'] eqn:Hpo'. destruct Hsp' as (Hq & Hoff' & _).
    destruct (decide (p = q)) as [<-|Hpq].
    + assert (off ≠ off') by (intros <-; apply Hne, pageOffset_inj; [done..|congruence]).
      rewrite list_lookup_insert_eq, Hpg by lia. cbn [mbind option_bind]. rewrite list_lookup_insert_ne by done.
      subst old. destruct page as [page|]; simpl; [done|].
      split; [by apply lookup_replicate_2|]. by intros [? ?].
    + by rewrite list_lookup_insert_ne by done.
Qed.

Fixpoint setAll (v : PageVec) (ops : list (Z * T)) : option PageVec :=
  match ops with
  | [] => Some v
  | (id, x) :: ops => v ← set v id x; setAll v ops
  end.

Lemma newPageVec_ok : pages_ok newPageVec.
Proof. split; [apply length_replicate|]. intros p page [? _]%lookup_replicate. done. Qed.

Lemma getSafe_new id : 0 <= id < 2 ^ 32 - 1 → getSafe newPageVec id = Some zero.
Proof.
  intros Hid. pose proof (pageOffset_spec id Hid) as Hsp. unfold getSafe.
  destruct (pageOffset id) as [p off]. unfold newPageVec. by rewrite lookup_replicate_2 by lia.
Qed.

Lemma get_getSafe v id x : get v id = Some x → getSafe v id = Some x.
Proof.
  unfold get, getSafe. destruct (pageOffset id) as [p off]. destruct (v !! p) as [[page|]|]; done.
Qed.

Lemma setAll_ok v ops (M : gmap Z T) :
  pages_ok v → Forall (λ o, 0 <= o.1 < 2 ^ 32 - 1) ops →
  (∀ id, 0 <= id < 2 ^ 32 - 1 → getSafe v id = Some (default zero (M !! id))) →
  ∃ v', setAll v ops = Some v' ∧ ∀ id, 0 <= id < 2 ^ 32 - 1 →
    getSafe v' id = Some (default zero (foldl (λ M o, <[o.1 := o.2]> M) M ops !! id)).
Proof.
  intros Hv Hops. revert v M Hv. induction Hops as [|[id x] ops Hid _ IH]; intros v M Hv HM; simpl.
  { by exists v. }
  destruct (get_set v id x Hv Hid) as (v1 & -> & Hv1 & Hg & Hothers). simpl. apply IH; [done|].
  intros id' Hid'. destruct (decide (id' = id)) as [->|Hne].
  - rewrite lookup_insert_eq. by apply get_getSafe.
  - rewrite lookup_insert_ne by done. destruct (Hothers id' Hid' Hne) as [-> _]. by apply HM.
Qed.
End pages.

(** A paged vector after any sequence of [set]s, in any order, answers
    [getSafe] with the value last written, or with the zero value, for every 32-bit
    index below the last; no access leaves a page. *)
Theorem pagevec_refines_map {T} (zero : T) (ops : list (Z * T)) :
  Forall (λ o, 0 <= o.1 < 2 ^ 32 - 1) ops →
  ∃ v, setAll zero newPageVec ops = Some v ∧ ∀ id, 0 <= id < 2 ^ 32 - 1 →
    getSafe zero v id = Some (default zero (foldl (λ M o, <[o.1 := o.2]> M) (∅ : gmap Z T) ops !! id)).
Proof.
  intros Hops. apply setAll_ok; [apply newPageVec_ok|done|]. intros id Hid. rewrite lookup_empty. by apply getSafe_new.
Qed.

Lemma pagevec_refines_map_witness :
  ∃ v, setAll 0 newPageVec [(5, 1); (0, 2); (6, 3); (5, 4)] = Some v ∧
    (getSafe 0 v 5, getSafe 0 v 6, getSafe 0 v 7, get v 7) = (Some 4, Some 3, Some 0, None).
Proof.
  destruct (pagevec_refines_map 0 [(5, 1); (0, 2); (6, 3); (5, 4)]) as (v & Hv & Hget).
  - repeat (apply Forall_cons_2; [simpl; lia|]). apply Forall_nil_2.
  - exists v. split; [exact Hv|]. rewrite !Hget by lia. vm_compute in Hv. injection Hv as <-. vm_compute. reflexivity.
Defined.
End PageVec.

(** ** The intern table *)

Record InternCell := mkCell { cstr : text; clo : Z }.
Definition noCell : InternCell := mkCell [] 0.

Record InternTable := mkIntern {
  ids : gmap Z Z;              (** by the first hash *)
  overflow : gmap text Z;
  flatStr : list text;
  flatLo : list Z;
  cells : list (option (list InternCell));
  cellBase : Z;
  cellIdx : nat;               (** [cellPage] is the page of this number, none if 0 *)
  count : Z }.

Definition newInternTable : InternTable :=
  mkIntern ∅ ∅ [[]] [0] PageVec.newPageVec 0 0 1.

Section intern.
Context (hash128 : text → Z * Z).

(** [ids.get]: the key 0 finds an empty cell (IntMap.v). *)
Definition idsGet (t : InternTable) (hi : Z) : option Z := if hi =? 0 then Some 0 else ids t !! hi.
Definition idsPut (t : InternTable) (hi id : Z) : InternTable :=
  mkIntern (<[hi := id]> (ids t)) (overflow t) (flatStr t) (flatLo t) (cells t) (cellBase t) (cellIdx t) (count t).
Definition overflowPut (t : InternTable) (s : text) (id : Z) : InternTable :=
  mkIntern (ids t) (<[s := id]> (overflow t)) (flatStr t) (flatLo t) (cells t) (cellBase t) (cellIdx t) (count t).

Definition internString (t : InternTable) (id : Z) : option text := zget (flatStr t) id.
Definition internLo (t : InternTable) (id : Z) : option Z := zget (flatLo t) id.
Definition sharedString (t : InternTable) (id : Z) : option text := cstr <$> PageVec.get (cells t) id.

(** Where the new cell goes: the first page, a page twice as long, the current page. *)
Definition appendCell (t : InternTable) (cell : InternCell)
    : option (list (option (list InternCell)) * Z * nat) :=
  if decide (cellIdx t = 0%nat) then
    Some (<[1%nat := Some [cell; noCell]]> (<[0%nat := Some [noCell]]> (cells t)), count t, 1%nat)
  else
    let off := u32 (count t - cellBase t) in
    page ← cells t !! cellIdx t; page ← page;
    if decide (off = Z.of_nat (length page)) then
      if decide (S (cellIdx t) < length (cells t))%nat then
        Some (<[S (cellIdx t) := Some (cell :: replicate (2 * length page - 1) noCell)]> (cells t), count t,
              S (cellIdx t))
      else None
    else if decide (off < Z.of_nat (length page)) then
      Some (<[cellIdx t := Some (<[Z.to_nat off := cell]> page)]> (cells t), cellBase t, cellIdx t)
    else None.

Definition internAppend (t : InternTable) (s : text) (lo : Z) : option (InternTable * Z) :=
  '(cs, base, idx) ← appendCell t (mkCell s lo);
  Some (mkIntern (ids t) (overflow t) (flatStr t ++ [s]) (flatLo t ++ [lo]) cs base idx (u32 (count t + 1)),
        count t).

(** [internStr], [internBytes] and [internBlock]: they differ in how the bytes are
    kept. *)
Definition internStr (t : InternTable) (s : text) : option (InternTable * Z) :=
  let '(hi, lo) := hash128 s in
  match idsGet t hi with
  | Some p =>
      lo' ← internLo t p;
      if lo' =? lo then Some (t, p)
      else
        match overflow t !! s with
        | Some oid => Some (t, oid)
        | None => '(t, id) ← internAppend t s lo; Some (overflowPut t s id, id)
        end
  | None => '(t, id) ← internAppend t s lo; Some (idsPut t hi id, id)
  end.

(** [interned] and [internedBytes]: 0 if the string has no id. *)
Definition interned (t : InternTable) (s : text) : option Z :=
  let '(hi, lo) := hash128 s in
  match idsGet t hi with
  | Some p =>
      lo' ← internLo t p;
      if lo' =? lo then Some p else Some (default 0 (overflow t !! s))
  | None => Some 0
  end.

Fixpoint internAll (t : InternTable) (ss : list text) : option (InternTable * list Z) :=
  match ss with
  | [] => Some (t, [])
  | s :: ss => '(t, id) ← internStr t s; '(t, rest) ← internAll t ss; Some (t, id :: rest)
  end.

(** ** Every string has one id *)

Record paged (t : InternTable) : Prop := {
  pd_pages : PageVec.pages_ok (cells t);
  pd_fresh : ∀ p, (cellIdx t < p < 32)%nat → cells t !! p = Some None;
  pd_idx : if decide (cellIdx t = 0%nat) then count t = 1
           else cellBase t = 2 ^ Z.of_nat (cellIdx t) - 1 ∧
             cellBase t < count t <= 2 ^ Z.of_nat (S (cellIdx t)) - 1 ∧
             (∃ page, cells t !! cellIdx t = Some (Some page)) }.

(** The page that [appendCell] grows is the page [set] would write. *)
Lemma appendCell_set t cell :
  paged t → 1 <= count t < 2 ^ 32 - 1 →
  let v := if decide (cellIdx t = 0%nat) then <[0%nat := Some [noCell]]> (cells t) else cells t in
  ∃ cs base idx, appendCell t cell = Some (cs, base, idx) ∧ PageVec.set noCell v (count t) cell = Some cs ∧
    idx ≠ 0%nat ∧ base = 2 ^ Z.of_nat idx - 1 ∧ base <= count t < 2 ^ Z.of_nat (S idx) - 1 ∧
    (∃ page, cs !! idx = Some (Some page)) ∧ (∀ p, (idx < p < 32)%nat → cs !! p = Some None).
Proof.
  intros [Hpg Hfresh Hidx] Hc. unfold appendCell. pose proof (PageVec.pg_len _ Hpg) as Hlen.
  destruct (decide (cellIdx t = 0%nat)) as [Hz|Hnz0]; simpl in Hidx |- *.
  - exists (<[1%nat := Some [cell; noCell]]> (<[0%nat := Some [noCell]]> (cells t))), 1, 1%nat.
    rewrite Hidx. split; [done|]. split.
    { unfold PageVec.set. change (PageVec.pageOffset 1) with (1%nat, 0%nat). cbv iota beta.
      rewrite list_lookup_insert_ne, Hfresh by lia. done. }
    split; [done|]. split; [done|]. split; [simpl; lia|]. split.
    + eexists. apply list_lookup_insert_eq. rewrite length_insert. lia.
    + intros p Hp. rewrite !list_lookup_insert_ne by lia. apply Hfresh. lia.
  - destruct Hidx as (Hb & Hcount & page & Hpage). rewrite Hpage. cbn [mbind option_bind].
    pose proof (PageVec.pg_page _ Hpg _ _ Hpage) as Hplen. unfold PageVec.pageLen in Hplen.
    assert (0 < 2 ^ Z.of_nat (cellIdx t)) by (apply Z.pow_pos_nonneg; lia).
    assert (Hpow : 2 ^ Z.of_nat (S (cellIdx t)) = 2 * 2 ^ Z.of_nat (cellIdx t)).
    { rewrite Nat2Z.inj_succ, Z.pow_succ_r by lia. done. }
    rewrite (u32_id (count t - cellBase t)) by lia.
    destruct (decide (count t - cellBase t = Z.of_nat (length page))) as [Hfull|Hnfull].
    + assert (Hct : count t = 2 ^ Z.of_nat (S (cellIdx t)) - 1) by lia.
      assert (Hs : (S (cellIdx t) < 32)%nat).
      { apply Nat2Z.inj_lt, (Z.pow_lt_mono_r_iff 2); lia. }
      rewrite decide_True by lia. do 3 eexists. split; [done|]. split.
      { unfold PageVec.set. rewrite Hct.
        replace (2 ^ Z.of_nat (S (cellIdx t)) - 1) with (2 ^ Z.of_nat (S (cellIdx t)) - 1 + Z.of_nat 0) by lia.
        rewrite PageVec.pageOffset_at by (unfold PageVec.pageLen; lia). rewrite Hfresh by lia.
        cbn [mbind option_bind]. do 3 f_equal. unfold PageVec.pageLen. rewrite Hpow.
        replace (Z.to_nat (2 * 2 ^ Z.of_nat (cellIdx t))) with (S (2 * length page - 1)) by lia. done. }
      split; [done|]. split; [done|]. split.
      { rewrite (Nat2Z.inj_succ (S (cellIdx t))), Z.pow_succ_r by lia. lia. }
      split; [eexists; apply list_lookup_insert_eq; lia|].
      intros p Hp. rewrite list_lookup_insert_ne by lia. apply Hfresh. lia.
    + rewrite decide_True by lia. do 3 eexists. split; [done|]. split.
      { unfold PageVec.set.
        replace (count t) with (2 ^ Z.of_nat (cellIdx t) - 1 + Z.of_nat (Z.to_nat (count t - cellBase t))) at 1 by lia.
        rewrite PageVec.pageOffset_at by (unfold PageVec.pageLen; lia). rewrite Hpage. cbn [mbind option_bind].
        by rewrite decide_True by lia. }
      split; [done|]. split; [done|]. split; [lia|].
      assert (cellIdx t < 32)%nat by (rewrite <-Hlen; by eapply lookup_lt_Some).
      split; [eexists; apply list_lookup_insert_eq; lia|].
      intros p Hp. rewrite list_lookup_insert_ne by lia. apply Hfresh. lia.
Qed.

(** The flat arrays and the pages hold the same strings. *)
Record stored (t : InternTable) : Prop := {
  st_count : 1 <= count t;
  st_str : Z.of_nat (length (flatStr t)) = count t;
  st_lo : Z.of_nat (length (flatLo t)) = count t;
  st_zero : zget (flatLo t) 0 = Some 0;
  st_paged : paged t;
  st_cells : ∀ id s lo, 1 <= id → zget (flatStr t) id = Some s → zget (flatLo t) id = Some lo →
    PageVec.get (cells t) id = Some (mkCell s lo) }.

(** The two indexes are not part of it. *)
Lemma stored_ids t i o :
  stored t → stored (mkIntern i o (flatStr t) (flatLo t) (cells t) (cellBase t) (cellIdx t) (count t)).
Proof. intros [? ? ? ? [? ? ?] ?]. done. Qed.

Lemma new_stored : stored newInternTable.
Proof.
  split; try done.
  - split; [apply PageVec.newPageVec_ok| |done]. intros p Hp. apply lookup_replicate_2. simpl in Hp. lia.
  - intros id s lo Hid Hs%zget_Some_range. simpl in Hs. lia.
Qed.

Lemma zeroPage_ok t : paged t → cellIdx t = 0%nat →
  PageVec.pages_ok (<[0%nat := Some [noCell]]> (cells t)).
Proof.
  intros Hp Hz. destruct (pd_pages _ Hp) as [Hl Hpg]. split; [by rewrite length_insert|].
  intros p page Hpp. destruct p as [|p].
  - rewrite list_lookup_insert_eq in Hpp by lia. by simplify_eq.
  - rewrite list_lookup_insert_ne in Hpp by lia. by eapply Hpg.
Qed.

Lemma zget_snoc_inv {A} (l : list A) x i y :
  zget (l ++ [x]) i = Some y → zget l i = Some y ∨ (i = Z.of_nat (length l) ∧ y = x).
Proof.
  intros Hi. pose proof (zget_Some_range _ _ _ Hi) as Hr. rewrite length_app in Hr. simpl in Hr.
  destruct (decide (i = Z.of_nat (length l))) as [->|].
  - rewrite zget_app_r, Z.sub_diag, zget_cons in Hi by lia. simpl in Hi. simplify_eq. by right.
  - rewrite zget_app_l in Hi by lia. by left.
Qed.

Lemma zget_snoc {A} (l : list A) x n : Z.of_nat (length l) = n → zget (l ++ [x]) n = Some x.
Proof. intros <-. by rewrite zget_app_r, Z.sub_diag, zget_cons by lia. Qed.

Lemma zget_snoc_old {A} (l : list A) x i y : zget l i = Some y → zget (l ++ [x]) i = Some y.
Proof. intros Hi. pose proof (zget_Some_range _ _ _ Hi). by rewrite zget_app_l by lia. Qed.

Lemma internAppend_ok t s lo :
  stored t → count t < 2 ^ 32 - 1 →
  ∃ t', internAppend t s lo = Some (t', count t) ∧ stored t' ∧ ids t' = ids t ∧ overflow t' = overflow t ∧
    flatStr t' = flatStr t ++ [s] ∧ flatLo t' = flatLo t ++ [lo] ∧ count t' = count t + 1.
Proof.
  intros [Hc Hs Hl Hz Hp Hcells] Hmax. unfold internAppend.
  destruct (appendCell_set t (mkCell s lo) Hp ltac:(lia)) as (cs & base & idx & -> & Hset & Hi & Hb & Hbc & Hpage & Hfr).
  cbn [mbind option_bind]. eexists. split; [done|]. rewrite (u32_id (count t + 1)) by lia. split; [|done].
  set (v := if decide (cellIdx t = 0%nat) then <[0%nat := Some [noCell]]> (cells t) else cells t) in Hset.
  assert (Hv : PageVec.pages_ok v).
  { subst v. case_decide; [by apply zeroPage_ok|apply Hp]. }
  destruct (PageVec.get_set noCell v (count t) (mkCell s lo) Hv ltac:(lia)) as (v' & Hset' & Hv' & Hget & Hold).
  rewrite Hset in Hset'. injection Hset' as <-.
  split; simpl.
  - lia.
  - rewrite length_app. simpl. lia.
  - rewrite length_app. simpl. lia.
  - by apply zget_snoc_old.
  - split; [done|done|]. rewrite decide_False by done. simpl. split; [done|]. split; [lia|done].
  - intros id s0 lo0 Hid Hs0 Hl0. apply zget_snoc_inv in Hs0 as [Hs0|[Hs0 ->]].
    + pose proof (zget_Some_range _ _ _ Hs0) as Hr. apply zget_snoc_inv in Hl0 as [Hl0|[Hl0 _]]; [|lia].
      pose proof (Hcells id s0 lo0 Hid Hs0 Hl0) as Hg. destruct (Hold id ltac:(lia) ltac:(lia)) as [_ Ho].
      assert (Hvg : PageVec.get v id = Some (mkCell s0 lo0)).
      { subst v. case_decide as Hz0; [|done]. pose proof (pd_idx _ Hp) as Hx. rewrite decide_True in Hx by done. lia. }
      rewrite Ho; [done|by eexists].
    + apply zget_snoc_inv in Hl0 as [Hl0%zget_Some_range|[_ ->]]; [lia|]. rewrite Hs0, Hs. done.
Qed.

Context (U : text → Prop).
Context (Hinj : ∀ s s', U s → U s' → hash128 s = hash128 s' → s = s').
Context (Hnz : ∀ s, U s → hash128 s ≠ (0, 0)).

Record intern_ok (t : InternTable) : Prop := {
  in_stored : stored t;
  in_ids : ∀ hi id, ids t !! hi = Some id → 1 <= id ∧
    ∃ s lo, U s ∧ zget (flatStr t) id = Some s ∧ zget (flatLo t) id = Some lo ∧ hash128 s = (hi, lo);
  in_over : ∀ s id, overflow t !! s = Some id → 1 <= id ∧ zget (flatStr t) id = Some s;
  in_all : ∀ id s, 1 <= id → zget (flatStr t) id = Some s → U s ∧ interned t s = Some id }.

Lemma new_intern_ok : intern_ok newInternTable.
Proof.
  split; [apply new_stored|done|done|]. intros id s Hid Hs%zget_Some_range. simpl in Hs. lia.
Qed.

(** What the first half of the hash finds. *)
Lemma idsGet_found t s hi lo p :
  intern_ok t → U s → hash128 s = (hi, lo) → idsGet t hi = Some p →
  ∃ lo', internLo t p = Some lo' ∧ (lo' = lo → 1 <= p ∧ zget (flatStr t) p = Some s).
Proof.
  intros Ht Hu Hh. unfold idsGet, internLo. destruct (Z.eqb_spec hi 0) as [->|Hhi]; intros Hp.
  - simplify_eq. exists 0. split; [apply Ht|]. intros <-. by destruct (Hnz s Hu).
  - destruct (in_ids _ Ht _ _ Hp) as (Hp1 & s' & lo' & Hu' & Hs' & Hlo & Hh'). exists lo'. split; [done|].
    intros ->. split; [done|]. rewrite Hs'. f_equal. apply Hinj; [done..|congruence].
Qed.

(** [t'] has every string of [t] under the same id. *)
Definition extends (t t' : InternTable) : Prop :=
  count t <= count t' ∧ ∀ id s, zget (flatStr t) id = Some s → zget (flatStr t') id = Some s.

Lemma interned_pos t s id : interned t s = Some id → 1 <= id → ∃ p lo',
  idsGet t (hash128 s).1 = Some p ∧ internLo t p = Some lo' ∧
  ((lo' = (hash128 s).2 ∧ id = p) ∨ (lo' ≠ (hash128 s).2 ∧ overflow t !! s = Some id)).
Proof.
  unfold interned. destruct (hash128 s) as [hi lo]. simpl. destruct (idsGet t hi) as [p|]; [|intros; simplify_eq; lia].
  destruct (internLo t p) as [lo'|] eqn:Hlo; [|done]. cbn [mbind option_bind]. intros Hi Hid. exists p, lo'. split_and!; [done..|].
  destruct (Z.eqb_spec lo' lo); [left; by simplify_eq|right]. split; [done|].
  destruct (overflow t !! s); injection Hi as <-; [done|simpl in Hid; lia].
Qed.

Lemma internStr_found t s id :
  intern_ok t → U s → 1 <= id → zget (flatStr t) id = Some s → internStr t s = Some (t, id).
Proof.
  intros Ht Hu Hid Hs. destruct (in_all _ Ht _ _ Hid Hs) as [_ Hi].
  destruct (interned_pos t s id Hi Hid) as (p & lo' & Hp & Hlo & Hcase).
  unfold internStr. destruct (hash128 s) as [hi lo]. simpl in *. rewrite Hp, Hlo. cbn [mbind option_bind].
  destruct Hcase as [[-> ->]|[Hne Ho]]; [by rewrite Z.eqb_refl|].
  by rewrite (proj2 (Z.eqb_neq lo' lo)), Ho.
Qed.

(** The id of a string is found again in a table with one more string. *)
Lemma interned_snoc t t' s s0 id :
  flatLo t' = flatLo t ++ [(hash128 s).2] → interned t s0 = Some id → 1 <= id →
  (∀ p, idsGet t (hash128 s0).1 = Some p → idsGet t' (hash128 s0).1 = Some p) →
  (∀ i, overflow t !! s0 = Some i → overflow t' !! s0 = Some i) → interned t' s0 = Some id.
Proof.
  intros Hlo Hi Hid Hget Hover. destruct (interned_pos t s0 id Hi Hid) as (p & lo' & Hp & Hl & Hcase).
  unfold interned. destruct (hash128 s0) as [hi0 lo0]. simpl in *. rewrite (Hget p Hp).
  unfold internLo in Hl |- *. rewrite Hlo, (zget_snoc_old _ _ _ _ Hl). cbn [mbind option_bind].
  destruct Hcase as [[-> ->]|[Hne Ho]]; [by rewrite Z.eqb_refl|].
  by rewrite (proj2 (Z.eqb_neq lo' lo0)), (Hover id Ho).
Qed.

(** A table with one more string, found again under the next id. *)
Lemma snoc_intern_ok t t' s :
  intern_ok t → U s → stored t' → count t' = count t + 1 →
  flatStr t' = flatStr t ++ [s] → flatLo t' = flatLo t ++ [(hash128 s).2] →
  (∀ hi id, ids t' !! hi = Some id → ids t !! hi = Some id ∨ (hi, id) = ((hash128 s).1, count t)) →
  (∀ x id, overflow t' !! x = Some id → overflow t !! x = Some id ∨ (x, id) = (s, count t)) →
  interned t' s = Some (count t) → (∀ s0 id, interned t s0 = Some id → 1 <= id → interned t' s0 = Some id) →
  intern_ok t' ∧ extends t t' ∧ zget (flatStr t') (count t) = Some s.
Proof.
  intros Ht Hu Hst Hc Hs Hlo Hids Hover Hnew Hold. pose proof (in_stored _ Ht) as Ht0.
  assert (Hcs : zget (flatStr t') (count t) = Some s) by (rewrite Hs; apply zget_snoc, Ht0).
  assert (Hcl : zget (flatLo t') (count t) = Some (hash128 s).2) by (rewrite Hlo; apply zget_snoc, Ht0).
  pose proof (st_count _ Ht0) as Hcount.
  split; [|split; [split; [lia|]; intros id x Hx; rewrite Hs; by apply zget_snoc_old|done]]. split; [done|..].
  - intros hi id Hi. destruct (Hids hi id Hi) as [Hi0|Heq].
    + destruct (in_ids _ Ht _ _ Hi0) as (Hid & x & lo & Hux & Hx & Hl & Hh). split; [done|]. exists x, lo.
      rewrite Hs, Hlo. split_and!; [done|by apply zget_snoc_old..|done].
    + injection Heq as -> ->. split; [lia|]. exists s, (hash128 s).2. split_and!; [done..|]. by destruct (hash128 s).
  - intros x id Hx. destruct (Hover x id Hx) as [Hx0|Heq].
    + destruct (in_over _ Ht _ _ Hx0) as [Hid Hg]. rewrite Hs. split; [done|by apply zget_snoc_old].
    + injection Heq as -> ->. split; [lia|done].
  - intros id x Hid Hx. rewrite Hs in Hx. apply zget_snoc_inv in Hx as [Hx|[-> ->]].
    + destruct (in_all _ Ht _ _ Hid Hx) as [Hux Hi]. split; [done|]. by apply Hold.
    + split; [done|]. by rewrite (st_str _ Ht0).
Qed.

Lemma internStr_ok t s :
  intern_ok t → U s → count t < 2 ^ 32 - 1 →
  ∃ t' id, internStr t s = Some (t', id) ∧ intern_ok t' ∧ extends t t' ∧ count t' <= count t + 1 ∧
    1 <= id ∧ zget (flatStr t') id = Some s ∧ (t' = t ∨ id = count t).
Proof.
  intros Ht Hu Hc. unfold internStr. destruct (hash128 s) as [hi lo] eqn:Hh.
  pose proof (st_count _ (in_stored _ Ht)) as Hc1.
  destruct (internAppend_ok t s lo (in_stored _ Ht) Hc) as (t1 & Happ & Hst & Hids & Hov & Hfs & Hfl & Hct).
  assert (Hsame_ok : ∀ id, 1 <= id ∧ zget (flatStr t) id = Some s → intern_ok t ∧ extends t t ∧ count t <= count t + 1 ∧
    1 <= id ∧ zget (flatStr t) id = Some s ∧ (t = t ∨ id = count t)).
  { intros id [? ?]. split; [done|]. split; [done|]. split; [lia|]. by split_and!; [..|left]. }
  destruct (idsGet t hi) as [p|] eqn:Hp.
  - destruct (idsGet_found t s hi lo p Ht Hu Hh Hp) as (lo' & Hlo & Hsame). rewrite Hlo. cbn [mbind option_bind].
    destruct (Z.eqb_spec lo' lo) as [Heq|Hne].
    { exists t, p. split; [done|]. by apply Hsame_ok, Hsame. }
    destruct (overflow t !! s) as [oid|] eqn:Ho.
    { exists t, oid. split; [done|]. by apply Hsame_ok, (in_over _ Ht). }
    rewrite Happ. cbn [mbind option_bind]. exists (overflowPut t1 s (count t)), (count t). split; [done|].
    destruct (snoc_intern_ok t (overflowPut t1 s (count t)) s) as (Hok & Hext & Hget); simpl; try done.
    + by apply stored_ids.
    + by rewrite Hh.
    + rewrite Hids. by left.
    + intros x id. rewrite Hov. rewrite lookup_insert_Some. intros [[<- <-]|[_ ?]]; [by right|by left].
    + unfold interned. rewrite Hh. unfold idsGet in Hp |- *. simpl. rewrite Hids, Hp.
      unfold internLo in Hlo |- *. simpl. rewrite Hfl, (zget_snoc_old _ _ _ _ Hlo). cbn [mbind option_bind].
      by rewrite (proj2 (Z.eqb_neq lo' lo)), lookup_insert_eq.
    + intros s0 id Hi Hid. eapply interned_snoc; [simpl; by rewrite Hfl, Hh|done..| |].
      * intros q. unfold idsGet. simpl. by rewrite Hids.
      * intros i Hs0. simpl. rewrite Hov, lookup_insert_ne; [done|congruence].
    + split; [done|]. split; [done|]. simpl. split_and!; [lia|done|done|by right].
  - rewrite Happ. cbn [mbind option_bind]. exists (idsPut t1 hi (count t)), (count t). split; [done|].
    assert (Hhi : hi ≠ 0) by (intros ->; unfold idsGet in Hp; simpl in Hp; done).
    assert (Hget0 : idsGet (idsPut t1 hi (count t)) hi = Some (count t)).
    { unfold idsGet. simpl. rewrite (proj2 (Z.eqb_neq hi 0)) by done. apply lookup_insert_eq. }
    destruct (snoc_intern_ok t (idsPut t1 hi (count t)) s) as (Hok & Hext & Hget); simpl; try done.
    + by apply stored_ids.
    + by rewrite Hh.
    + intros x id. rewrite Hids, Hh. rewrite lookup_insert_Some. intros [[<- <-]|[_ ?]]; [by right|by left].
    + rewrite Hov. by left.
    + unfold interned. rewrite Hh, Hget0. unfold internLo. simpl. rewrite Hfl, zget_snoc by apply Ht.
      cbn [mbind option_bind]. by rewrite Z.eqb_refl.
    + intros s0 id Hi Hid. eapply interned_snoc; [simpl; by rewrite Hfl, Hh|done..| |].
      * intros q Hq. unfold idsGet in Hq, Hp |- *. simpl. rewrite Hids.
        rewrite (proj2 (Z.eqb_neq hi 0)) in Hp by done.
        destruct (_ =? 0); [done|]. rewrite lookup_insert_ne; [done|congruence].
      * intros i. simpl. by rewrite Hov.
    + split; [done|]. split; [done|]. simpl. split_and!; [lia|done|done|by right].
Qed.
End intern.

Lemma internAll_ok hash128 (U : text → Prop) ss t :
  (∀ s s', U s → U s' → hash128 s = hash128 s' → s = s') → (∀ s, U s → hash128 s ≠ (0, 0)) →
  intern_ok hash128 U t → Forall U ss → count t + Z.of_nat (length ss) < 2 ^ 32 →
  ∃ t' rs, internAll hash128 t ss = Some (t', rs) ∧ intern_ok hash128 U t' ∧ extends t t' ∧
    Forall2 (λ s id, 1 <= id ∧ zget (flatStr t') id = Some s) ss rs.
Proof.
  intros Hinj Hnz Ht Hu. revert t Ht. induction Hu as [|s ss Hs _ IH]; intros t Ht Hc; simpl in *.
  { exists t, []. split; [done|]. split; [done|]. by split. }
  destruct (internStr_ok hash128 U Hinj Hnz t s Ht Hs ltac:(lia))
    as (t1 & id & -> & Ht1 & [Hc1 Hext1] & Hc1' & Hid & Hget & _). cbn [mbind option_bind].
  destruct (IH t1 Ht1 ltac:(lia)) as (t2 & rs & -> & Ht2 & [Hc2 Hext2] & Hall). cbn [mbind option_bind].
  exists t2, (id :: rs). split; [done|]. split; [done|]. split.
  - split; [lia|]. intros i x Hx. by apply Hext2, Hext1.
  - constructor; [|done]. split; [done|by apply Hext2].
Qed.

Lemma interned_unknown hash128 (U V : text → Prop) t s :
  (∀ s s', V s → V s' → hash128 s = hash128 s' → s = s') → (∀ s, V s → hash128 s ≠ (0, 0)) →
  (∀ s, U s → V s) → intern_ok hash128 U t → V s → ¬ U s → interned hash128 t s = Some 0.
Proof.
  intros Hinj Hnz Huv Ht Hv Hnu. unfold interned. destruct (hash128 s) as [hi lo] eqn:Hh.
  destruct (idsGet t hi) as [p|] eqn:Hp; [|done]. unfold idsGet in Hp.
  assert (Hover : overflow t !! s = None).
  { destruct (overflow t !! s) as [i|] eqn:Ho; [|done]. destruct (in_over _ _ _ Ht _ _ Ho) as [Hi Hs].
    by destruct (in_all _ _ _ Ht _ _ Hi Hs). }
  assert (∃ lo', internLo t p = Some lo' ∧ lo' ≠ lo) as (lo' & -> & Hne).
  { destruct (Z.eqb_spec hi 0) as [->|Hhi].
    - simplify_eq. exists 0. split; [apply Ht|]. intros <-. by apply (Hnz s).
    - destruct (in_ids _ _ _ Ht _ _ Hp) as (_ & x & lo' & Hx & _ & Hl & Hhx). exists lo'. split; [done|].
      intros ->. apply Hnu. rewrite (Hinj s x); [done|done|by apply Huv|congruence]. }
  cbn [mbind option_bind]. by rewrite (proj2 (Z.eqb_neq lo' lo)), Hover.
Qed.

(** C33: interning any sequence of strings (fewer than 2^32 - 1, whose 128-bit
    hashes differ and are not 0) gives every string an id under which it reads
    back from the flat array and from the shared pages, equal strings and only
    those the same id; [interned] then finds every such id, interning again
    returns it without changing the table, and any other string is not found. *)
Theorem intern_correct hash128 (V : text → Prop) ss :
  (∀ s s', V s → V s' → hash128 s = hash128 s' → s = s') → (∀ s, V s → hash128 s ≠ (0, 0)) →
  Forall V ss → Z.of_nat (length ss) < 2 ^ 32 - 1 →
  ∃ t rs, internAll hash128 newInternTable ss = Some (t, rs) ∧
    Forall2 (λ s id, 1 <= id < count t ∧ internString t id = Some s ∧ sharedString t id = Some s ∧
      interned hash128 t s = Some id ∧ internStr hash128 t s = Some (t, id)) ss rs ∧
    (∀ i j s s' id id', ss !! i = Some s → ss !! j = Some s' → rs !! i = Some id → rs !! j = Some id' →
      id = id' ↔ s = s') ∧
    (∀ s, V s → s ∉ ss → interned hash128 t s = Some 0).
Proof.
  intros Hinj Hnz Hv Hlen. set (U s := s ∈ ss).
  assert (HU : ∀ s, U s → V s) by (intros s; by apply (proj1 (Forall_forall V ss) Hv)).
  destruct (internAll_ok hash128 U ss newInternTable) as (t & rs & Hrun & Ht & _ & Hall).
  { intros s s' Hs Hs'. by apply Hinj; apply HU. }
  { intros s Hs. by apply Hnz, HU. }
  { apply new_intern_ok. }
  { apply Forall_forall. done. }
  { simpl. lia. }
  exists t, rs. split; [done|]. split; [|split].
  - eapply Forall2_impl; [apply Hall|]. intros s id [Hid Hs]. pose proof (in_stored _ _ _ Ht) as Hst.
    pose proof (zget_Some_range _ _ _ Hs) as Hr. rewrite (st_str _ Hst) in Hr.
    destruct (in_all _ _ _ Ht _ _ Hid Hs) as [Hu Hi]. split; [lia|]. split; [done|]. split.
    + unfold sharedString. destruct (zget_in (flatLo t) id) as [lo Hlo]; [rewrite (st_lo _ Hst); lia|].
      by rewrite (st_cells _ Hst id s lo).
    + split; [done|]. eapply internStr_found; done.
  - intros i j s s' id id' Hi Hj Hid Hid'.
    destruct (Forall2_lookup_lr _ _ _ _ _ _ Hall Hi Hid) as [H1 Hs].
    destruct (Forall2_lookup_lr _ _ _ _ _ _ Hall Hj Hid') as [H1' Hs'].
    split; [congruence|]. intros <-. apply (in_all _ _ _ Ht _ _ H1) in Hs as [_ ?].
    apply (in_all _ _ _ Ht _ _ H1') in Hs' as [_ ?]. congruence.
  - intros s Hs Hn. by apply (interned_unknown hash128 U V).
Qed.

(** Strings of one length share the first half of this hash. *)
Definition toyHash (s : text) : Z * Z := (Z.of_nat (length s), 1 + foldl Z.add 0 s).

Lemma intern_correct_witness :
  ∃ t rs, internAll toyHash newInternTable [[97]; [98]; [97]; []; [98]] = Some (t, rs) ∧
    rs = [1; 2; 1; 3; 2] ∧ interned toyHash t [99] = Some 0.
Proof.
  set (V s := s = [97] ∨ s = [98] ∨ s = [99] ∨ s = @nil Z).
  destruct (intern_correct toyHash V [[97]; [98]; [97]; []; [98]]) as (t & rs & Hrun & _ & _ & Hother).
  - intros s s' [->|[->|[->| ->]]] [->|[->|[->| ->]]]; vm_compute; intros [=]; reflexivity.
  - intros s [->|[->|[->| ->]]]; vm_compute; intros [=].
  - repeat (apply Forall_cons_2; [unfold V; tauto|]). apply Forall_nil_2.
  - simpl. lia.
  - exists t, rs. split; [exact Hrun|]. split; [vm_compute in Hrun; by injection Hrun as <- <-|].
    apply Hother; [unfold V; tauto|]. apply (bool_decide_unpack _). vm_compute. exact I.
Defined.
