(* ===== verification/Tags.v ===== *)
(** * Tagged ids: files and arguments (vfs.go, any.go)

    A file (VFS) is the id of its path with a bit that says whether it is under
    the source or the build root; a command argument (ANY) is a string id or a
    file with one more bit.  The theorems are about any string store that hands
    out ids the way the intern table does. *)

From S2P Require Import Prelude Intern.
Local Open Scope Z_scope.

(** ** What the tags need of the string table *)

Class StrStore (T : Type) := {
  sIntern : T → text → option (T * Z);
  sString : T → Z → option text }.

(** [store_ok n t]: [t] has given out at most [n] ids, all at least 1. *)
Class StrStoreLaws (T : Type) `{StrStore T} := {
  known : text → Prop;
  store_ok : nat → T → Prop;
  store_intern n t s : store_ok n t → known s → Z.of_nat n < 2 ^ 32 - 2 →
    ∃ t' id, sIntern t s = Some (t', id) ∧ store_ok (S n) t' ∧ 1 <= id ∧ sString t' id = Some s ∧
      ∀ i x, 1 <= i → sString t i = Some x → sString t' i = Some x;
  store_again n t id s : store_ok n t → 1 <= id → sString t id = Some s → sIntern t s = Some (t, id);
  store_range n t id s : store_ok n t → 1 <= id → sString t id = Some s → id <= Z.of_nat n }.

#[export] Instance intern_store (hash128 : text → Z * Z) : StrStore InternTable :=
  {| sIntern := internStr hash128; sString := internString |}.

(** The intern table keeps the promise for strings whose hashes do not collide. *)
Definition intern_laws (hash128 : text → Z * Z) (U : text → Prop)
    (Hinj : ∀ s s', U s → U s' → hash128 s = hash128 s' → s = s') (Hnz : ∀ s, U s → hash128 s ≠ (0, 0)) :
  @StrStoreLaws InternTable (intern_store hash128).
Proof.
  refine {| known := U; store_ok n t := intern_ok hash128 U t ∧ count t <= Z.of_nat n + 1 |}; simpl.
  - intros n t s [Ht Hn] Hs Hmax.
    destruct (internStr_ok hash128 U Hinj Hnz t s Ht Hs ltac:(lia)) as (t' & id & ? & ? & [_ Hext] & ? & ? & ? & _).
    exists t', id. split; [done|]. split; [split; [done|lia]|]. split; [done|]. split; [done|]. intros i x _. apply Hext.
  - intros n t id s [Ht _] Hid Hs. eapply internStr_found; [done| |done..]. by eapply (in_all _ _ _ Ht).
  - intros n t id s [Ht Hn] Hid Hs%zget_Some_range. rewrite (st_str _ (in_stored _ _ _ Ht)) in Hs. lia.
Defined.

(** ** Operations *)

Definition vfsPrefixLen : nat := 5.
Definition VFSRootSource : Z := 0.
Definition VFSRootBuild : Z := 1.

(** Bytes of "$(S)/". *)
Definition srcPrefix : text := [36; 40; 83; 41; 47].
Definition bldPrefix : text := [36; 40; 66; 41; 47].

Definition str_source (id : Z) : Z := Z.lor (u32 (Z.shiftl id 1)) VFSRootSource.
Definition str_build (id : Z) : Z := Z.lor (u32 (Z.shiftl id 1)) VFSRootBuild.
Definition str_any (s : Z) : Z := u32 (Z.shiftl s 1).

Definition vfs_rel (v : Z) : Z := Z.shiftr v 1.
Definition isSource (v : Z) : bool := Z.land v 1 =? 0.
Definition isBuild (v : Z) : bool := negb (Z.land v 1 =? 0).
Definition prefix (v : Z) : text := if isBuild v then bldPrefix else srcPrefix.
Definition vfs_any (v : Z) : Z := Z.lor (u32 (Z.shiftl v 1)) 1.
Definition vfs_cwd (v : Z) : Z := if v =? 0 then 0 else vfs_any v.

Definition any_vfs (a : Z) : Z := if Z.land a 1 =? 0 then 0 else Z.shiftr a 1.
Definition any_str (a : Z) : Z := if negb (Z.land a 1 =? 0) then 0 else Z.shiftr a 1.
Definition relOrSelf (a : Z) : Z :=
  let v := any_vfs a in if negb (v =? 0) then vfs_rel v else any_str a.

Definition vfsHasPrefix (s : text) : bool :=
  match s with
  | s0 :: s1 :: s2 :: s3 :: s4 :: _ => (s0 =? 36) && (s1 =? 40) && ((s2 =? 83) || (s2 =? 66)) && (s3 =? 41) && (s4 =? 47)
  | _ => false
  end.

(** [strings.Compare] *)
Fixpoint Compare (a b : text) : Z :=
  match a, b with
  | [], [] => 0
  | [], _ :: _ => -1
  | _ :: _, [] => 1
  | x :: a, y :: b => if x <? y then -1 else if y <? x then 1 else Compare a b
  end.

Section ops.
Context {T : Type} `{StrStore T}.

(** [full[2]] and [full[vfsPrefixLen:]] fault on a shorter string. *)
Definition rootOf (full : text) : option Z :=
  c ← full !! 2%nat; Some (if c =? 66 then VFSRootBuild else VFSRootSource).
Definition afterPrefix (full : text) : option text :=
  if decide (vfsPrefixLen <= length full)%nat then Some (drop vfsPrefixLen full) else None.

Definition intern (t : T) (full : text) : option (T * Z) :=
  root ← rootOf full;
  rest ← afterPrefix full;
  '(t, id) ← sIntern t rest;
  Some (t, Z.lor (u32 (Z.shiftl id 1)) root).

(** [internPrefixedJoin]: the text is put together before it is interned. *)
Definition internPrefixedJoin (t : T) (full suffix : text) : option (T * Z) :=
  root ← rootOf full;
  rest ← afterPrefix full;
  '(t, id) ← sIntern t (rest ++ suffix);
  Some (t, Z.lor (u32 (Z.shiftl id 1)) root).

(** [STR.vfs]: 0 if the text names no file. *)
Definition str_vfs (t : T) (id : Z) : option (T * Z) :=
  s ← sString t id;
  if negb (vfsHasPrefix s) then Some (t, 0)
  else
    root ← rootOf s;
    rest ← afterPrefix s;
    '(t, id) ← sIntern t rest;
    Some (t, Z.lor (u32 (Z.shiftl id 1)) root).

Definition relString (t : T) (v : Z) : option text := sString t (vfs_rel v).

Definition vfs_string (t : T) (v : Z) : option text :=
  rel ← relString t v;
  Some (if decide (rel = []) then take (vfsPrefixLen - 1) (prefix v) else prefix v ++ rel).

Definition stringLen (t : T) (v : Z) : option nat :=
  rel ← relString t v;
  Some (if decide (length rel = 0%nat) then (vfsPrefixLen - 1)%nat else (vfsPrefixLen + length rel)%nat).

Definition appendVFSText (t : T) (out : text) (v : Z) : option text :=
  rel ← relString t v;
  Some (if decide (rel ≠ []) then (out ++ prefix v) ++ rel else out ++ take (vfsPrefixLen - 1) (prefix v)).

Definition any_string (t : T) (a : Z) : option text :=
  let v := any_vfs a in
  if negb (v =? 0) then vfs_string t v else sString t (any_str a).

Definition textSTR (t : T) (a : Z) : option (T * Z) :=
  let v := any_vfs a in
  if negb (v =? 0) then s ← vfs_string t v; sIntern t s else Some (t, any_str a).

Definition canonicalANY (t : T) (a : Z) : option (T * Z) :=
  if any_vfs a =? 0 then
    s ← sString t (any_str a);
    if vfsHasPrefix s then '(t, v) ← intern t s; Some (t, vfs_any v) else Some (t, a)
  else Some (t, a).

Definition internAny (t : T) (s : text) : option (T * Z) :=
  if vfsHasPrefix s then '(t, v) ← intern t s; Some (t, vfs_any v)
  else '(t, id) ← sIntern t s; Some (t, str_any id).

Definition vfsCompare (t : T) (a b : Z) : option Z :=
  if a =? b then Some 0
  else
    let ab := isBuild a in let bb := isBuild b in
    if negb (bool_decide (ab = bb)) then Some (if ab then -1 else 1)
    else ra ← relString t a; rb ← relString t b; Some (Compare ra rb).
End ops.

(** ** Tags come off again *)

Lemma lor_1 x : Z.lor (2 * x) 1 = 2 * x + 1.
Proof.
  symmetry. apply Z.add_nocarry_lor. change (Z.land (2 * x) (Z.ones 1) = 0).
  rewrite Z.land_ones by lia. change (2 ^ 1) with 2. rewrite Z.mul_comm. apply Z.mod_mul. lia.
Qed.

Lemma tag_spec x b : 0 <= x < 2 ^ 31 → b = 0 ∨ b = 1 → Z.lor (u32 (Z.shiftl x 1)) b = 2 * x + b.
Proof.
  intros Hx Hb. rewrite Z.shiftl_mul_pow2 by lia. change (2 ^ 1) with 2. rewrite Z.mul_comm.
  rewrite u32_id by lia. destruct Hb as [-> | ->]; [rewrite Z.lor_0_r; lia|apply lor_1].
Qed.

Lemma land_tag x b : b = 0 ∨ b = 1 → Z.land (2 * x + b) 1 = b.
Proof.
  intros Hb. change (Z.land (2 * x + b) (Z.ones 1) = b). rewrite Z.land_ones by lia. change (2 ^ 1) with 2.
  rewrite Z.add_comm, Z.mul_comm, Z.mod_add by lia. by destruct Hb as [-> | ->].
Qed.

Lemma shiftr_tag x b : b = 0 ∨ b = 1 → Z.shiftr (2 * x + b) 1 = x.
Proof.
  intros Hb. rewrite Z.shiftr_div_pow2 by lia. change (2 ^ 1) with 2. symmetry. apply Z.div_unique with b; lia.
Qed.

Lemma str_any_spec x : 0 <= x < 2 ^ 31 → str_any x = 2 * x + 0.
Proof. intros. unfold str_any. rewrite <-(tag_spec x 0) by (lia || by left). by rewrite Z.lor_0_r. Qed.

Lemma any_of_vfs v : 0 <= v < 2 ^ 31 → any_vfs (vfs_any v) = v ∧ any_str (vfs_any v) = 0.
Proof.
  intros Hv. unfold vfs_any, any_vfs, any_str. rewrite tag_spec, land_tag, shiftr_tag by (lia || by right). done.
Qed.

Lemma any_of_str s : 0 <= s < 2 ^ 31 → any_vfs (str_any s) = 0 ∧ any_str (str_any s) = s.
Proof.
  intros Hs. unfold any_vfs, any_str. rewrite str_any_spec, land_tag, shiftr_tag by (lia || by left). done.
Qed.

Lemma vfs_parts id root : 0 <= id < 2 ^ 31 → root = 0 ∨ root = 1 →
  let v := Z.lor (u32 (Z.shiftl id 1)) root in
  vfs_rel v = id ∧ isBuild v = (root =? 1) ∧ v = 2 * id + root.
Proof.
  intros Hid Hr. simpl. unfold vfs_rel, isBuild. rewrite tag_spec, land_tag, shiftr_tag by done.
  by destruct Hr as [-> | ->].
Qed.

(** ** Text and ids *)

Definition prefixOf (root : Z) : text := if root =? 1 then bldPrefix else srcPrefix.

Lemma vfsHasPrefix_inv s : vfsHasPrefix s = true → ∃ root rest,
  (root = 0 ∨ root = 1) ∧ s = prefixOf root ++ rest ∧ rootOf s = Some root ∧ afterPrefix s = Some rest.
Proof.
  destruct s as [|s0 [|s1 [|s2 [|s3 [|s4 rest]]]]]; simpl; try done.
  rewrite !andb_true_iff, orb_true_iff, !Z.eqb_eq. intros [[[[-> ->] [-> | ->]] ->] ->].
  - exists 0, rest. by split_and!; [left|..].
  - exists 1, rest. by split_and!; [right|..].
Qed.

Lemma vfsHasPrefix_app root rest : root = 0 ∨ root = 1 → vfsHasPrefix (prefixOf root ++ rest) = true.
Proof. by intros [-> | ->]. Qed.

(** The text an argument keeps: the root directories lose their slash. *)
Definition kept (s : text) : text :=
  if decide (s = srcPrefix ∨ s = bldPrefix) then take 4 s else s.

Lemma kept_prefix root rest : root = 0 ∨ root = 1 →
  kept (prefixOf root ++ rest) = if decide (rest = []) then take 4 (prefixOf root) else prefixOf root ++ rest.
Proof.
  intros Hr. unfold kept, prefixOf. destruct Hr as [-> | ->]; simpl; destruct rest as [|c rest]; simpl; try done;
    by rewrite decide_False by (intros [[=]|[=]]).
Qed.

Lemma kept_noprefix s : vfsHasPrefix s = false → kept s = s.
Proof. intros Hp. unfold kept. rewrite decide_False; [done|]. intros [-> | ->]; done. Qed.

Lemma take4_noprefix root : root = 0 ∨ root = 1 → vfsHasPrefix (take 4 (prefixOf root)) = false.
Proof. by intros [-> | ->]. Qed.

Section texts.
Context {T : Type} `{StrStoreLaws T}.

(** Reading back a tagged id. *)
Lemma read_vfs t id root s : 1 <= id < 2 ^ 30 → root = 0 ∨ root = 1 → sString t id = Some s →
  any_string t (vfs_any (Z.lor (u32 (Z.shiftl id 1)) root)) = Some (kept (prefixOf root ++ s)).
Proof.
  intros Hid Hr Hs. destruct (vfs_parts id root) as (Hrel & Hb & Hv); [lia|done|].
  unfold any_string. destruct (any_of_vfs (Z.lor (u32 (Z.shiftl id 1)) root)) as [-> _]; [lia|].
  rewrite (proj2 (Z.eqb_neq _ 0)) by lia. simpl. unfold vfs_string, relString. rewrite Hrel, Hs. cbn [mbind option_bind].
  rewrite kept_prefix by done. unfold prefix. rewrite Hb. done.
Qed.

Lemma read_str t id s : 1 <= id < 2 ^ 30 → sString t id = Some s → any_string t (str_any id) = Some s.
Proof.
  intros Hid Hs. unfold any_string. destruct (any_of_str id) as [-> ->]; [lia|]. done.
Qed.

(** The strings [internAny] may intern for the text [s]. *)
Definition knows (s : text) : Prop := known s ∧ known (drop vfsPrefixLen s).

Lemma drop_prefix root rest : root = 0 ∨ root = 1 → drop vfsPrefixLen (prefixOf root ++ rest) = rest.
Proof. by intros [-> | ->]. Qed.

End texts.

(** The length and the text written in place agree with the string. *)
Lemma stringLen_vfs {T} `{StrStore T} (t : T) v : stringLen t v = length <$> vfs_string t v.
Proof.
  unfold stringLen, vfs_string. destruct (relString t v) as [[|c rel]|]; simpl; [..|done];
    unfold prefix; by destruct (isBuild v).
Qed.

Lemma appendVFSText_vfs {T} `{StrStore T} (t : T) out v : appendVFSText t out v = app out <$> vfs_string t v.
Proof.
  unfold appendVFSText, vfs_string. destruct (relString t v) as [[|c rel]|]; simpl; [done|by rewrite <-app_assoc|done].
Qed.

(** ** Arguments *)

(** [Forall2] of the fact that an argument is the canonical one of its text. *)
Definition names {T} `{StrStore T} (t : T) (s : text) (a : Z) : Prop :=
  any_string t a = Some (kept s) ∧ internAny t s = Some (t, a) ∧ canonicalANY t a = Some (t, a).

Fixpoint internAnys {T} `{StrStore T} (t : T) (ss : list text) : option (T * list Z) :=
  match ss with
  | [] => Some (t, [])
  | s :: ss => '(t, a) ← internAny t s; '(t, rest) ← internAnys t ss; Some (t, a :: rest)
  end.

Section anys.
Context {T : Type} `{StrStoreLaws T}.

(** An argument made from [s], in terms of what the store has. *)
Definition made (t : T) (s : text) (a : Z) : Prop :=
  if vfsHasPrefix s then
    ∃ id root rest, 1 <= id ∧ (root = 0 ∨ root = 1) ∧ s = prefixOf root ++ rest ∧
      sString t id = Some rest ∧ a = vfs_any (Z.lor (u32 (Z.shiftl id 1)) root)
  else ∃ id, 1 <= id ∧ sString t id = Some s ∧ a = str_any id.

Lemma rootOf_prefix root rest : root = 0 ∨ root = 1 →
  rootOf (prefixOf root ++ rest) = Some root ∧ afterPrefix (prefixOf root ++ rest) = Some rest.
Proof. by intros [-> | ->]. Qed.

Lemma internAny_made n t s : store_ok n t → knows s → Z.of_nat n < 2 ^ 30 - 1 →
  ∃ t' a, internAny t s = Some (t', a) ∧ store_ok (S n) t' ∧ made t' s a ∧
    ∀ i x, 1 <= i → sString t i = Some x → sString t' i = Some x.
Proof.
  intros Ht [Hk Hkd] Hn. unfold internAny, made. destruct (vfsHasPrefix s) eqn:Hp.
  - destruct (vfsHasPrefix_inv s Hp) as (root & rest & Hr & Hs & Hroot & Hrest). unfold intern.
    rewrite Hroot, Hrest. cbn [mbind option_bind]. rewrite Hs, drop_prefix in Hkd by done.
    destruct (store_intern n t rest Ht Hkd ltac:(lia)) as (t' & id & -> & Ht' & Hid & Hget & Hold).
    eexists t', _. split; [done|]. split; [done|]. split; [|done]. by exists id, root, rest.
  - destruct (store_intern n t s Ht Hk ltac:(lia)) as (t' & id & -> & Ht' & Hid & Hget & Hold).
    eexists t', _. split; [done|]. split; [done|]. split; [|done]. by exists id.
Qed.

Lemma made_names n t s a : store_ok n t → Z.of_nat n < 2 ^ 30 → made t s a → names t s a.
Proof.
  intros Ht Hn. unfold made, names, internAny, canonicalANY. destruct (vfsHasPrefix s) eqn:Hp.
  - intros (id & root & rest & Hid & Hr & -> & Hget & ->). destruct (rootOf_prefix root rest Hr) as [Hro Haf].
    pose proof (store_range _ _ _ _ Ht Hid Hget) as Hmax. unfold intern. rewrite Hro, Haf. cbn [mbind option_bind].
    rewrite (store_again _ _ _ _ Ht Hid Hget). cbn [mbind option_bind].
    split; [apply read_vfs; [lia|done..]|]. split; [done|].
    destruct (vfs_parts id root) as (_ & _ & Hv); [lia|done|].
    destruct (any_of_vfs (Z.lor (u32 (Z.shiftl id 1)) root)) as [-> _]; [lia|].
    by rewrite (proj2 (Z.eqb_neq _ 0)) by lia.
  - intros (id & Hid & Hget & ->). pose proof (store_range _ _ _ _ Ht Hid Hget) as Hmax.
    rewrite (store_again _ _ _ _ Ht Hid Hget). cbn [mbind option_bind].
    rewrite kept_noprefix by done. split; [apply read_str; [lia|done]|]. split; [done|].
    destruct (any_of_str id) as [-> ->]; [lia|]. simpl. rewrite Hget. cbn [mbind option_bind]. by rewrite Hp.
Qed.

Lemma made_mono t t' s a :
  (∀ i x, 1 <= i → sString t i = Some x → sString t' i = Some x) → made t s a → made t' s a.
Proof.
  intros Hold. unfold made. destruct (vfsHasPrefix s).
  - intros (id & root & rest & Hid & Hr & Hs & Hget & Ha). exists id, root, rest. by eauto 10.
  - intros (id & Hid & Hget & Ha). exists id. by eauto.
Qed.

Lemma made_inj n t s s' a : store_ok n t → Z.of_nat n < 2 ^ 30 → made t s a → made t s' a → s = s'.
Proof.
  intros Ht Hn. unfold made.
  assert (Hv : ∀ id root rest, 1 <= id → root = 0 ∨ root = 1 → sString t id = Some rest →
    vfs_any (Z.lor (u32 (Z.shiftl id 1)) root) = 2 * (2 * id + root) + 1).
  { intros id root rest Hid Hr Hget. pose proof (store_range _ _ _ _ Ht Hid Hget).
    rewrite tag_spec by (lia || done). unfold vfs_any. apply tag_spec; [lia|by right]. }
  assert (Hs : ∀ id x, 1 <= id → sString t id = Some x → str_any id = 2 * id).
  { intros id x Hid Hget. pose proof (store_range _ _ _ _ Ht Hid Hget). rewrite str_any_spec; lia. }
  destruct (vfsHasPrefix s), (vfsHasPrefix s').
  - intros (id & r & rest & Hid & Hr & -> & Hg & ->) (id' & r' & rest' & Hid' & Hr' & -> & Hg' & E).
    rewrite (Hv id r rest), (Hv id' r' rest') in E by done. assert (id = id' ∧ r = r') as [<- <-] by lia. congruence.
  - intros (id & r & rest & Hid & Hr & -> & Hg & ->) (id' & Hid' & Hg' & E).
    rewrite (Hv id r rest), (Hs id' s') in E by done. lia.
  - intros (id' & Hid' & Hg' & ->) (id & r & rest & Hid & Hr & -> & Hg & E).
    rewrite (Hv id r rest), (Hs id' s) in E by done. lia.
  - intros (id & Hid & Hg & ->) (id' & Hid' & Hg' & E). rewrite (Hs id s), (Hs id' s') in E by done.
    assert (id = id') as <- by lia. congruence.
Qed.

Lemma internAnys_ok n t ss : store_ok n t → Forall knows ss → Z.of_nat (n + length ss) < 2 ^ 30 →
  ∃ t' rs m, internAnys t ss = Some (t', rs) ∧ store_ok m t' ∧ Z.of_nat m < 2 ^ 30 ∧ Forall2 (made t') ss rs ∧
    ∀ i x, 1 <= i → sString t i = Some x → sString t' i = Some x.
Proof.
  intros Ht Hk. revert n t Ht. induction Hk as [|s ss Hs _ IH]; intros n t Ht Hn; simpl in *.
  { exists t, [], n. split; [done|]. split; [done|]. split; [lia|]. by split. }
  destruct (internAny_made n t s Ht Hs ltac:(lia)) as (t1 & a & -> & Ht1 & Hm & Hold). cbn [mbind option_bind].
  destruct (IH (S n) t1 Ht1 ltac:(lia)) as (t2 & rs & m & -> & Ht2 & Hm2 & Hall & Hold2). cbn [mbind option_bind].
  exists t2, (a :: rs), m. split; [done|]. split; [done|]. split; [done|]. split; [|auto].
  constructor; [|done]. by eapply made_mono.
Qed.

(** Arguments interned from any sequence of texts (fewer than 2^30) print as
    their texts, except that the two root directories lose their trailing slash;
    they are canonical, interning the text again gives the same argument, and two
    arguments are the same word exactly when their texts are equal. *)
Theorem arguments_are_texts n t ss :
  store_ok n t → Forall knows ss → Z.of_nat (n + length ss) < 2 ^ 30 →
  ∃ t' rs, internAnys t ss = Some (t', rs) ∧ Forall2 (names t') ss rs ∧
    ∀ i j s s' a a', ss !! i = Some s → ss !! j = Some s' → rs !! i = Some a → rs !! j = Some a' →
      a = a' ↔ s = s'.
Proof.
  intros Ht Hk Hn. destruct (internAnys_ok n t ss Ht Hk Hn) as (t' & rs & m & Hrun & Ht' & Hm & Hall & _).
  exists t', rs. split; [done|].
  assert (Hnames : Forall2 (names t') ss rs).
  { eapply Forall2_impl; [exact Hall|]. intros s a. by apply (made_names m). }
  split; [done|]. intros i j s s' a a' Hi Hj Ha Ha'.
  pose proof (Forall2_lookup_lr _ _ _ _ _ _ Hall Hi Ha) as Hma. pose proof (Forall2_lookup_lr _ _ _ _ _ _ Hall Hj Ha') as Hma'.
  destruct (Forall2_lookup_lr _ _ _ _ _ _ Hnames Hi Ha) as (_ & Hs & _).
  destruct (Forall2_lookup_lr _ _ _ _ _ _ Hnames Hj Ha') as (_ & Hs' & _).
  split; [|congruence]. intros <-. by eapply (made_inj m).
Qed.
End anys.

Lemma arguments_are_texts_witness :
  ∃ t' rs, @internAnys _ (intern_store toyHash) newInternTable
      [srcPrefix ++ [97]; [97]; bldPrefix ++ [97]; srcPrefix ++ [97]; srcPrefix] = Some (t', rs) ∧
    rs = [5; 2; 7; 5; 9] ∧ (λ a, @any_string _ (intern_store toyHash) t' a) <$> rs =
      [Some (srcPrefix ++ [97]); Some [97]; Some (bldPrefix ++ [97]); Some (srcPrefix ++ [97]); Some (take 4 srcPrefix)].
Proof.
  set (ss := [srcPrefix ++ [97]; [97]; bldPrefix ++ [97]; srcPrefix ++ [97]; srcPrefix]).
  set (U s := s ∈ ss ++ [[]]).
  assert (Hinj : ∀ s s', U s → U s' → toyHash s = toyHash s' → s = s').
  { intros s s' Hs Hs'. pattern s' in Hs'. revert s s' Hs Hs'.
    assert (HF : Forall (λ s, Forall (λ s', toyHash s = toyHash s' → s = s') (ss ++ [[]])) (ss ++ [[]])).
    { apply (bool_decide_unpack _). vm_compute. exact I. }
    intros s s' Hs Hs'. rewrite Forall_forall in HF. specialize (HF s Hs). rewrite Forall_forall in HF. by apply HF. }
  assert (Hnz : ∀ s, U s → toyHash s ≠ (0, 0)).
  { intros s Hs. assert (HF : Forall (λ s, toyHash s ≠ (0, 0)) (ss ++ [[]])).
    { apply (bool_decide_unpack _). vm_compute. exact I. }
    rewrite Forall_forall in HF. by apply HF. }
  destruct (@arguments_are_texts _ _ (intern_laws toyHash U Hinj Hnz) 0 newInternTable ss) as (t' & rs & Hrun & Hall & _).
  - split; [apply new_intern_ok|simpl; lia].
  - assert (HF : Forall (λ s, s ∈ ss ++ [[]] ∧ drop vfsPrefixLen s ∈ ss ++ [[]]) ss).
    { apply (bool_decide_unpack _). vm_compute. exact I. }
    exact HF.
  - simpl. lia.
  - exists t', rs. split; [exact Hrun|]. vm_compute in Hrun. injection Hrun as <- <-. split; vm_compute; reflexivity.
Defined.

(** ** The order of files *)

Lemma Compare_spec a b : (Compare a b = 0 ↔ a = b) ∧ Compare b a = - Compare a b ∧ -1 <= Compare a b <= 1.
Proof.
  revert b. induction a as [|x a IH]; intros [|y b]; simpl.
  - split; [done|]. lia.
  - split; [done|lia].
  - split; [done|lia].
  - destruct (IH b) as (Heq & Hopp & Hr). destruct (Z.ltb_spec x y), (Z.ltb_spec y x); try lia.
    + split; [|lia]. split; [lia|]. intros [= -> _]. lia.
    + split; [|lia]. split; [lia|]. intros [= -> _]. lia.
    + assert (x = y) as -> by lia. split; [|lia]. rewrite Heq. split; [by intros ->|by intros [= ->]].
Qed.

Lemma Compare_trans a b c : Compare a b <= 0 → Compare b c <= 0 → Compare a c <= 0.
Proof.
  revert b c. induction a as [|x a IH]; intros [|y b] [|z c]; simpl; try lia.
  destruct (Z.ltb_spec x y), (Z.ltb_spec y x), (Z.ltb_spec y z), (Z.ltb_spec z y), (Z.ltb_spec x z), (Z.ltb_spec z x);
    try lia. apply IH.
Qed.

Section order.
Context {T : Type} `{StrStoreLaws T}.

Definition file (t : T) (v : Z) : Prop :=
  ∃ id root s, 1 <= id ∧ (root = 0 ∨ root = 1) ∧ sString t id = Some s ∧ v = 2 * id + root.

(** What [vfsCompare] compares: the root, build first, then the path. *)
Definition fileKey (t : T) (v : Z) : text := (if isBuild v then 0 else 1) :: default [] (relString t v).

Lemma file_parts t v : file t v → ∃ s, relString t v = Some s ∧ fileKey t v = (if isBuild v then 0 else 1) :: s.
Proof.
  intros (id & root & s & Hid & Hr & Hs & ->). unfold fileKey, relString, vfs_rel.
  rewrite shiftr_tag, Hs by done. by exists s.
Qed.

Lemma fileKey_inj n t a b : store_ok n t → file t a → file t b → fileKey t a = fileKey t b → a = b.
Proof.
  intros Ht (id & r & s & Hid & Hr & Hs & ->) (id' & r' & s' & Hid' & Hr' & Hs' & ->).
  unfold fileKey, relString, vfs_rel, isBuild. rewrite !shiftr_tag, !land_tag, Hs, Hs' by done. simpl.
  intros [= Hroot <-]. pose proof (store_again _ _ _ _ Ht Hid Hs) as H1.
  pose proof (store_again _ _ _ _ Ht Hid' Hs') as H2. assert (id = id') as <- by congruence.
  destruct Hr as [-> | ->], Hr' as [-> | ->]; done.
Qed.

Lemma vfsCompare_key n t a b : store_ok n t → file t a → file t b →
  vfsCompare t a b = Some (Compare (fileKey t a) (fileKey t b)).
Proof.
  intros Ht Ha Hb. unfold vfsCompare. destruct (Z.eqb_spec a b) as [->|Hne].
  { destruct (Compare_spec (fileKey t b) (fileKey t b)) as [Hz _]. by rewrite (proj2 Hz). }
  destruct (file_parts t a Ha) as (sa & -> & ->), (file_parts t b Hb) as (sb & -> & ->).
  by destruct (isBuild a), (isBuild b).
Qed.

(** Comparing files is a total order on the files of a store: it is defined,
    0 only for equal ids, antisymmetric and transitive. *)
Theorem vfsCompare_order n t a b c :
  store_ok n t → file t a → file t b → file t c →
  ∃ ab bc ac, vfsCompare t a b = Some ab ∧ vfsCompare t b c = Some bc ∧ vfsCompare t a c = Some ac ∧
    (ab = 0 ↔ a = b) ∧ vfsCompare t b a = Some (- ab) ∧ (ab <= 0 → bc <= 0 → ac <= 0).
Proof.
  intros Ht Ha Hb Hc. rewrite !(vfsCompare_key n) by done. do 3 eexists. do 3 (split; [done|]).
  destruct (Compare_spec (fileKey t a) (fileKey t b)) as (Hz & Hopp & _). split.
  - rewrite Hz. split; [by apply (fileKey_inj n)|by intros ->].
  - split; [by rewrite Hopp|]. apply Compare_trans.
Qed.
End order.

Lemma vfsCompare_order_witness :
  ∃ t rs, internAll toyHash newInternTable [[97]; [98]] = Some (t, rs) ∧
    @vfsCompare _ (intern_store toyHash) t (str_source 1) (str_build 2) = Some 1 ∧
    @vfsCompare _ (intern_store toyHash) t (str_source 2) (str_source 1) = Some 1.
Proof.
  set (U s := s = [97] ∨ s = [98]).
  assert (Hinj : ∀ s s', U s → U s' → toyHash s = toyHash s' → s = s').
  { intros s s' [-> | ->] [-> | ->]; vm_compute; intros [=]; reflexivity. }
  assert (Hnz : ∀ s, U s → toyHash s ≠ (0, 0)) by (intros s [-> | ->]; vm_compute; intros [=]).
  destruct (internAll_ok toyHash U [[97]; [98]] newInternTable) as (t & rs & Hrun & Ht & _ & _).
  - exact Hinj.
  - exact Hnz.
  - apply new_intern_ok.
  - repeat (apply Forall_cons_2; [unfold U; tauto|]). apply Forall_nil_2.
  - simpl. lia.
  - assert (Hok : intern_ok toyHash U t ∧ count t <= Z.of_nat 2 + 1).
    { split; [exact Ht|]. vm_compute in Hrun. injection Hrun as <- <-. vm_compute. discriminate. }
    exists t, rs. split; [exact Hrun|]. vm_compute in Hrun. injection Hrun as <- <-.
    destruct (@vfsCompare_order _ _ (intern_laws toyHash U Hinj Hnz) 2 _ (str_source 1) (str_build 2) (str_source 2) Hok) as (ab & bc & ac & Hab & _ & _ & _ & _ & _).
    + by exists 1, 0, [97]; split_and!; [|left|..].
    + by exists 2, 1, [98]; split_and!; [|right|..].
    + by exists 2, 0, [98]; split_and!; [|left|..].
    + split; vm_compute; reflexivity.
Defined.
