(* ===== verification/Env.v ===== *)
(** * Variables of a build file (env.go, command_resource_uses.go)

    The environment keeps two arrays, kinds and values, by variable id.
    SET_APPEND is lazy: the words are queued per variable and joined when the
    variable is read.  A queued variable has its bit set in [pending].  Shown: the
    laziness cannot be observed by the readers.  Interned strings are
    represented by their texts, [None] being the id 0, and files by their root
    and path, as Intern.v and Tags.v justify. *)

From S2P Require Import Prelude Vec BitSets Cond Tags.
From stdpp Require Import pretty.
Local Open Scope Z_scope.

Abbreviation text := (list Z) (only parsing).
Abbreviation STR := (option (list Z)) (only parsing).
Abbreviation ENV := Z (only parsing).

Record VFS := mkVFS { isBuild : bool; rel : text }.
Inductive ANY := AStr (s : STR) | AVfs (v : VFS).
Inductive EnvKind := envAbsent | envStr | envInt | envVFS.

(** A cell of [val]: the kind beside it tells how the word is meant. *)
Inductive Word := WStr (s : STR) | WVfs (v : VFS).

#[export] Instance VFS_eq_dec : EqDecision VFS.
Proof. solve_decision. Defined.
#[export] Instance ANY_eq_dec : EqDecision ANY.
Proof. solve_decision. Defined.
#[export] Instance EnvKind_eq_dec : EqDecision EnvKind.
Proof. solve_decision. Defined.
#[export] Instance Word_eq_dec : EqDecision Word.
Proof. solve_decision. Defined.

Definition asSTR (w : Word) : option STR := match w with WStr s => Some s | WVfs _ => None end.
Definition asVFS (w : Word) : option VFS := match w with WVfs v => Some v | WStr _ => None end.

(** ** Texts *)

Definition strEmpty : STR := Some [].
Definition str_string (s : STR) : text := default [] s.
Definition vfs_string (v : VFS) : text :=
  let p := if isBuild v then bldPrefix else srcPrefix in
  if decide (rel v = []) then take (vfsPrefixLen - 1) p else p ++ rel v.
Definition vfs_stringLen (v : VFS) : Z :=
  if decide (rel v = []) then Z.of_nat (vfsPrefixLen - 1) else Z.of_nat (vfsPrefixLen + length (rel v)).

Definition intern (full : text) : option VFS :=
  root ← rootOf full; rest ← afterPrefix full; Some (mkVFS (root =? VFSRootBuild) rest).

Definition appendANYText (b : text) (a : ANY) : text :=
  match a with
  | AStr s => b ++ str_string s
  | AVfs v =>
      let p := if isBuild v then bldPrefix else srcPrefix in
      if decide (rel v ≠ []) then (b ++ p) ++ rel v else b ++ take (vfsPrefixLen - 1) p
  end.

(** [for k, part := range parts { if k > 0 { sep }; appendANYText }] *)
Fixpoint joinLoop (buf : text) (first : bool) (sep : text) (parts : list ANY) : text :=
  match parts with
  | [] => buf
  | a :: parts => joinLoop (appendANYText (if first then buf else buf ++ sep) a) false sep parts
  end.

Definition joinAnysSTR (as_ : list ANY) (sep : text) : STR :=
  match as_ with
  | [AStr s] => s
  | _ => Some (joinLoop [] true sep as_)
  end.

Definition strHasDollar (s : STR) : bool := bool_decide (36 ∈ str_string s).

(** ** State *)

Record envAppend := mkAppend { aid : ENV; counted : nat; an : Z; parts : list ANY }.
Record SourceTextRange := mkRange { Start : Z; End_ : Z }.

(** [confBase] is the address of a store; the scratch buffer [joined] is left out. *)
Record EnvStore := mkStore {
  val : list Word; kind : list EnvKind; capVal : nat; capKind : nat;
  appends : list envAppend; pending : BitSet.BitSet;
  textInputs : gmap ENV (list SourceTextRange);
  resourceBindings : list (ENV * STR);
  included : gmap text bool;
  confBase : option Z; confWrites : list ENV }.

Definition set_cells v k s := mkStore v k (capVal s) (capKind s) (appends s) (pending s) (textInputs s) (resourceBindings s) (included s) (confBase s) (confWrites s).
Definition set_grown v k n s := mkStore v k n n (appends s) (pending s) (textInputs s) (resourceBindings s) (included s) (confBase s) (confWrites s).
Definition set_appends a s := mkStore (val s) (kind s) (capVal s) (capKind s) a (pending s) (textInputs s) (resourceBindings s) (included s) (confBase s) (confWrites s).
Definition set_pending p s := mkStore (val s) (kind s) (capVal s) (capKind s) (appends s) p (textInputs s) (resourceBindings s) (included s) (confBase s) (confWrites s).
Definition set_texts t s := mkStore (val s) (kind s) (capVal s) (capKind s) (appends s) (pending s) t (resourceBindings s) (included s) (confBase s) (confWrites s).
Definition set_bindings r s := mkStore (val s) (kind s) (capVal s) (capKind s) (appends s) (pending s) (textInputs s) r (included s) (confBase s) (confWrites s).
Definition set_writes w s := mkStore (val s) (kind s) (capVal s) (capKind s) (appends s) (pending s) (textInputs s) (resourceBindings s) (included s) (confBase s) w.

Definition emptyStore : EnvStore := mkStore [] [] 0 0 [] BitSet.BitSet_go_zero ∅ [] ∅ None [].

(** [resourceUses] is nil where uses are not collected. *)
Record Environment := mkEnv { store : EnvStore; resourceUses : option (list STR) }.
Definition newEnvironment : Environment := mkEnv emptyStore None.

Section env.
(** [envTable.count] *)
Context (count : nat).

Definition ensure (s : EnvStore) (e : ENV) : EnvStore :=
  let old := length (kind s) in
  if e <? Z.of_nat old then s
  else
    let n := Nat.max (Z.to_nat e + 1) count in
    let grow_to n := (take old (val s) ++ replicate (n - old) (WStr None), kind s ++ replicate (n - old) envAbsent) in
    if decide (n <= capKind s ∧ n <= capVal s)%nat then set_cells (grow_to n).1 (grow_to n).2 s
    else let n := Nat.max n (old + old / 8 + 64) in set_grown (grow_to n).1 (grow_to n).2 n s.

(** Binary search for the first binding whose id is not less. *)
Fixpoint bindingLoop (fuel : nat) (l : list (ENV * STR)) (id : ENV) (lo hi : Z) : option Z :=
  if lo <? hi then
    match fuel with
    | O => None
    | S fuel =>
        let mid := Z.shiftr (lo + hi) 1 in
        b ← zget l mid;
        if b.1 <? id then bindingLoop fuel l id (mid + 1) hi else bindingLoop fuel l id lo mid
    end
  else Some lo.
Definition resourceBindingIndex (s : EnvStore) (id : ENV) : option Z :=
  bindingLoop (length (resourceBindings s)) (resourceBindings s) id 0 (Z.of_nat (length (resourceBindings s))).

Definition clearResourceBinding (s : EnvStore) (id : ENV) : option EnvStore :=
  at_ ← resourceBindingIndex s id;
  Some (match zget (resourceBindings s) at_ with
        | Some b => if b.1 =? id then set_bindings (delete (Z.to_nat at_) (resourceBindings s)) s else s
        | None => s
        end).

Definition confWrite (s : EnvStore) (id : ENV) : EnvStore :=
  match confBase s with Some _ => set_writes (confWrites s ++ [id]) s | None => s end.

(** [slices.Delete] of the first append of the variable. *)
Fixpoint takeAppend (e : ENV) (l : list envAppend) : option (envAppend * list envAppend) :=
  match l with
  | [] => None
  | a :: l => if aid a =? e then Some (a, l) else '(x, l) ← takeAppend e l; Some (x, a :: l)
  end.

Definition dropAppend (s : EnvStore) (e : ENV) : option EnvStore :=
  p ← BitSet.has (pending s) e;
  if negb p then Some s
  else match takeAppend e (appends s) with
       | Some (_, rest) => b ← BitSet.remove (pending s) e; Some (set_pending b (set_appends rest s))
       | None => Some s
       end.

(** What [setVFS] and [setStrID] share. *)
Definition setCell (s : EnvStore) (id : ENV) (k : EnvKind) (w : Word) : option EnvStore :=
  s ← (if decide (appends s ≠ []) then dropAppend s id else Some s);
  let s := set_texts (delete id (textInputs s)) s in
  s ← clearResourceBinding s id;
  let s := ensure (confWrite s id) id in
  ks ← zset (kind s) id k;
  vs ← zset (val s) id w;
  Some (set_cells vs ks s).

Definition setVFS (s : EnvStore) (id : ENV) (v : VFS) : option EnvStore := setCell s id envVFS (WVfs v).
Definition setStrID (s : EnvStore) (id : ENV) (v : STR) : option EnvStore := setCell s id envStr (WStr v).

Definition settle (s : EnvStore) (e : ENV) : option EnvStore :=
  match takeAppend e (appends s) with
  | None => Some s
  | Some (a, rest) =>
      let buf := joinLoop [] true [32] (parts a) in
      b ← BitSet.remove (pending s) e;
      let s := set_pending b (set_appends rest s) in
      let ranges := textInputs s !! e in
      s ← (if vfsHasPrefix buf then v ← intern buf; setVFS s e v else setStrID s e (Some buf));
      Some (match ranges with Some r => set_texts (<[e := r]> (textInputs s)) s | None => s end)
  end.

Definition lookup (s : EnvStore) (e : ENV) : option (EnvKind * Word * EnvStore) :=
  s ← (if decide (appends s ≠ []) then
         p ← BitSet.has (pending s) e; if (p : bool) then settle s e else Some s
       else Some s);
  if e <? Z.of_nat (length (kind s)) then k ← zget (kind s) e; v ← zget (val s) e; Some (k, v, s)
  else Some (envAbsent, WStr None, s).

Fixpoint settleAll (fuel : nat) (s : EnvStore) : option EnvStore :=
  match appends s with
  | [] => Some s
  | a :: _ => match fuel with O => None | S fuel => s ← settle s (aid a); settleAll fuel s end
  end.

(** ** Writers *)

Definition setFromSTR (s : EnvStore) (id : ENV) (v : STR) : option EnvStore :=
  if strHasDollar v && vfsHasPrefix (str_string v) then f ← intern (str_string v); setVFS s id f
  else setStrID s id v.

Definition setFromANY (s : EnvStore) (id : ENV) (v : ANY) : option EnvStore :=
  match v with AVfs f => setVFS s id f | AStr v => setFromSTR s id v end.

Definition setString (s : EnvStore) (id : ENV) (v : text) : option EnvStore :=
  if vfsHasPrefix v then f ← intern v; setVFS s id f else setStrID s id (Some v).

Definition setANY (s : EnvStore) (id : ENV) (a : ANY) : option EnvStore :=
  match a with
  | AVfs v => setVFS s id v
  | AStr v => if vfsHasPrefix (str_string v) then f ← intern (str_string v); setVFS s id f else setStrID s id v
  end.

Definition setBool (s : EnvStore) (id : ENV) (v : bool) : option EnvStore :=
  setStrID s id (Some (if v then bs "yes" else bs "no")).

Definition setFromString (s : EnvStore) (id : ENV) (v : text) : option EnvStore :=
  if decide (v = bs "yes") then setBool s id true
  else if decide (v = bs "no") then setBool s id false
  else setString s id v.

(** [intSTR] has the numbers below 1024. *)
Definition intSTR (n : Z) : option STR :=
  if decide (0 <= n < 1024) then Some (Some (bs (pretty (Z.to_N n)))) else None.

Definition setInt (s : EnvStore) (id : ENV) (n : Z) : option EnvStore :=
  let s := set_texts (delete id (textInputs s)) s in
  s ← clearResourceBinding s id;
  let s := ensure (confWrite s id) id in
  ks ← zset (kind s) id envInt;
  i ← intSTR n;
  vs ← zset (val s) id (WStr i);
  Some (set_cells vs ks s).

Fixpoint addParts (id : ENV) (args : list ANY) (l : list envAppend) : option (list envAppend) :=
  match l with
  | [] => None
  | a :: l =>
      if aid a =? id then Some (mkAppend (aid a) (counted a) (an a) (parts a ++ args) :: l)
      else l ← addParts id args l; Some (a :: l)
  end.

(** [prev] of [appendANYs]: [None] is 0. *)
Definition previous (s : EnvStore) (id : ENV) : option (option ANY) :=
  if id <? Z.of_nat (length (kind s)) then
    k ← zget (kind s) id;
    w ← zget (val s) id;
    match k with
    | envVFS => v ← asVFS w; Some (Some (AVfs v))
    | envStr | envInt => v ← asSTR w; Some (match v with None => None | Some t => Some (AStr (Some t)) end)
    | envAbsent => Some None
    end
  else Some None.

Definition appendANYs (s : EnvStore) (id : ENV) (args : list ANY) : option EnvStore :=
  let args := if decide (args = []) then [AStr strEmpty] else args in
  match addParts id args (appends s) with
  | Some l => Some (set_appends l s)
  | None =>
      prev ← previous s id;
      match prev with
      | None | Some (AStr (Some [])) =>
          match args with
          | [a] => setFromANY s id a
          | _ => setFromSTR s id (joinAnysSTR args [32])
          end
      | Some prev =>
          b ← BitSet.add (pending s) id;
          Some (set_pending b (set_appends (appends s ++ [mkAppend id 0 0 (prev :: args)]) s))
      end
  end.

Definition unbind (s : EnvStore) (id : ENV) : option (EnvKind * EnvStore) :=
  s ← (if decide (appends s ≠ []) then dropAppend s id else Some s);
  '(k, _, s) ← lookup s id;
  if decide (k ≠ envAbsent) then
    let s := confWrite s id in
    ks ← zset (kind s) id envAbsent;
    Some (k, set_cells (val s) ks s)
  else Some (k, s).

Definition rebind (s : EnvStore) (id : ENV) (k : EnvKind) : option EnvStore :=
  if decide (k ≠ envAbsent) then
    let s := confWrite s id in
    ks ← zset (kind s) id k;
    Some (set_cells (val s) ks s)
  else Some s.

Definition setTextInputs (s : EnvStore) (id : ENV) (ranges : list SourceTextRange) : EnvStore :=
  if decide (ranges = []) then s else set_texts (<[id := ranges]> (textInputs s)) s.

Definition setResource (s : EnvStore) (id : ENV) (v : VFS) (key : STR) : option EnvStore :=
  s ← setVFS s id v;
  at_ ← resourceBindingIndex s id;
  Some (set_bindings (take (Z.to_nat at_) (resourceBindings s) ++ (id, key) :: drop (Z.to_nat at_) (resourceBindings s)) s).

(** ** Copies *)

(** [capV] and [capK]: the room [append] allocates. *)
Definition clone (capV capK : nat) (s : EnvStore) : option (EnvStore * EnvStore) :=
  s ← settleAll (length (appends s)) s;
  Some (mkStore (val s) (kind s) capV capK [] BitSet.BitSet_go_zero (textInputs s) (resourceBindings s) (included s) None [], s).

(** [self] is the address of the copied store, [extra] the room [append] adds. *)
Definition cloneInto (extra : nat) (self : Z) (src dst : EnvStore) : EnvStore :=
  let n := Nat.max (length (kind src)) count in
  let dst := if (0 <? Z.of_nat n) then ensure dst (Z.of_nat n - 1) else dst in
  let over {A} (z : A) (d s : list A) := take (length d) s ++ replicate (length d - length s) z in
  mkStore (over (WStr None) (val dst) (val src)) (over envAbsent (kind dst) (kind src)) (capVal dst) (capKind dst)
    (appends src) (BitSet.copyFrom extra (pending dst) (pending src)) (textInputs src) (resourceBindings src) (included src)
    (if decide (confBase src = Some self) then Some self else None) [].

(** ** Readers *)

Definition recordResourceUse (e : Environment) (id : ENV) : option Environment :=
  match resourceUses e with
  | None => Some e
  | Some uses =>
      at_ ← resourceBindingIndex (store e) id;
      Some (match zget (resourceBindings (store e)) at_ with
            | Some (id', Some key) => if (id' =? id) && bool_decide (Some key ∉ uses) then mkEnv (store e) (Some (uses ++ [Some key])) else e
            | _ => e
            end)
  end.

Definition look (e : Environment) (id : ENV) : option (EnvKind * Word * Environment) :=
  '(k, v, s) ← lookup (store e) id; Some (k, v, mkEnv s (resourceUses e)).

Definition strIsTruthy (v : STR) : bool :=
  match v with
  | None => false
  | Some t => if decide (t = bs "yes") then true else if decide (t = bs "no") then false else stringIsTruthy t
  end.

Definition bool_ (e : Environment) (id : ENV) : option (bool * Environment) :=
  '(k, v, e) ← look e id;
  match k with
  | envStr | envInt => v ← asSTR v; Some (strIsTruthy v, e)
  | envVFS => Some (true, e)
  | envAbsent => Some (false, e)
  end.

(** The text of a cell, as [string] gives it. *)
Definition cellText (k : EnvKind) (v : Word) : option text :=
  match k with
  | envVFS => v ← asVFS v; Some (vfs_string v)
  | _ => v ← asSTR v; Some (str_string v)
  end.

Definition string_ (e : Environment) (id : ENV) : option (text * Environment) :=
  '(k, v, e) ← look e id;
  if decide (k ≠ envAbsent) then e ← recordResourceUse e id; t ← cellText k v; Some (t, e)
  else Some ([], e).

Definition is_ (e : Environment) (id : ENV) (want : STR) : option (bool * Environment) :=
  '(k, v, e) ← look e id;
  match k with
  | envAbsent => Some (bool_decide (want = strEmpty), e)
  | envVFS => e ← recordResourceUse e id; Some (false, e)
  | _ => e ← recordResourceUse e id; v ← asSTR v; Some (bool_decide (v = want) || bool_decide (want = strEmpty) && bool_decide (v = None), e)
  end.

Definition str_ (e : Environment) (id : ENV) : option (STR * Environment) :=
  '(k, v, e) ← look e id;
  match k with
  | envAbsent => Some (strEmpty, e)
  | envVFS => e ← recordResourceUse e id; v ← asVFS v; Some (Some (vfs_string v), e)
  | _ => e ← recordResourceUse e id; v ← asSTR v; Some (match v with None => strEmpty | Some _ => v end, e)
  end.

Definition stringID (e : Environment) (id : ENV) : option (STR * Environment) :=
  '(k, v, e) ← look e id;
  match k with
  | envStr | envInt => e ← recordResourceUse e id; v ← asSTR v; Some (v, e)
  | _ => Some (None, e)
  end.

Definition hasBindingID (e : Environment) (id : ENV) : option (bool * Environment) :=
  '(k, _, e) ← look e id; Some (bool_decide (k ≠ envAbsent), e).

Definition lookupANY (e : Environment) (id : ENV) : option (ANY * Environment) :=
  '(k, v, e) ← look e id;
  match k with
  | envAbsent => Some (AStr strEmpty, e)
  | envVFS => e ← recordResourceUse e id; v ← asVFS v; Some (AVfs v, e)
  | _ =>
      e ← recordResourceUse e id;
      v ← asSTR v;
      match v with
      | None => Some (AStr strEmpty, e)
      | Some t => if vfsHasPrefix t then f ← intern t; Some (AVfs f, e) else Some (AStr v, e)
      end
  end.

Definition lookupSTR (e : Environment) (id : ENV) : option (STR * bool * Environment) :=
  '(k, v, e) ← look e id;
  match k with
  | envAbsent => Some (None, false, e)
  | envVFS => e ← recordResourceUse e id; v ← asVFS v; Some (Some (vfs_string v), true, e)
  | _ => e ← recordResourceUse e id; v ← asSTR v; Some (match v with None => strEmpty | Some _ => v end, true, e)
  end.

Definition lookupENV (e : Environment) (id : ENV) : option (text * bool * Environment) :=
  if id =? 0 then Some ([], false, e)
  else
    '(k, v, e) ← look e id;
    if decide (k = envAbsent) then Some ([], false, e)
    else e ← recordResourceUse e id; t ← cellText k v; Some (t, true, e).

Definition lookupValueENV (e : Environment) (id : ENV) : option (text * option VFS * bool * Environment) :=
  if id =? 0 then Some ([], None, false, e)
  else
    '(k, v, e) ← look e id;
    match k with
    | envAbsent => Some ([], None, false, e)
    | envVFS => e ← recordResourceUse e id; v ← asVFS v; Some ([], Some v, true, e)
    | _ => e ← recordResourceUse e id; v ← asSTR v; Some (str_string v, None, true, e)
    end.

Definition setDefaultSTR (e : Environment) (id : ENV) (v : STR) : option Environment :=
  '(b, e) ← hasBindingID e id;
  if (b : bool) then Some e else s ← setANY (store e) id (AStr v); Some (mkEnv s (resourceUses e)).

Definition setDefaultString (e : Environment) (id : ENV) (v : text) : option Environment :=
  '(b, e) ← hasBindingID e id;
  if (b : bool) then Some e else s ← setString (store e) id v; Some (mkEnv s (resourceUses e)).

(** [part.vfs() != 0 ? 1 + v.stringLen() : 1 + len(...)] *)
Definition partLen (a : ANY) : Z :=
  match a with AVfs v => 1 + vfs_stringLen v | AStr s => 1 + Z.of_nat (length (str_string s)) end.

(** The length of a queued variable, counted on from where the last call stopped. *)
Definition countAppend (a : envAppend) : envAppend :=
  let n0 := if decide (counted a = 0%nat) then -1 else an a in
  mkAppend (aid a) (length (parts a)) (foldl (λ n p, n + partLen p) n0 (drop (counted a) (parts a))) (parts a).

Fixpoint countLoop (id : ENV) (l : list envAppend) : option (Z * list envAppend) :=
  match l with
  | [] => None
  | a :: l =>
      if aid a =? id then let a := countAppend a in Some (an a, a :: l)
      else '(n, l) ← countLoop id l; Some (n, a :: l)
  end.

Definition stringLen (s : EnvStore) (id : ENV) : option (Z * EnvStore) :=
  p ← (if decide (appends s ≠ []) then BitSet.has (pending s) id else Some false);
  match (if (p : bool) then countLoop id (appends s) else None) with
  | Some (n, l) => Some (n, set_appends l s)
  | None =>
      if Z.of_nat (length (kind s)) <=? id then Some (0, s)
      else
        k ← zget (kind s) id;
        w ← zget (val s) id;
        match k with
        | envVFS => v ← asVFS w; Some (vfs_stringLen v, s)
        | envAbsent => Some (0, s)
        | _ => v ← asSTR w; Some (Z.of_nat (length (str_string v)), s)
        end
  end.
End env.

(** ** Texts and values *)

(** The value a text becomes when it is stored. *)
Definition canon (t : text) : EnvKind * Word :=
  match (if vfsHasPrefix t then intern t else None) with
  | Some v => (envVFS, WVfs v)
  | None => (envStr, WStr (Some t))
  end.

Definition any_string (a : ANY) : text := match a with AStr s => str_string s | AVfs v => vfs_string v end.

Lemma appendANYText_eq b a : appendANYText b a = b ++ any_string a.
Proof.
  destruct a as [s|v]; [done|]. simpl. unfold vfs_string. destruct (decide (rel v = [])) as [E|E].
  - by rewrite decide_False by tauto.
  - rewrite decide_True by done. by rewrite app_assoc.
Qed.

(** [strings.Join] of the texts. *)
Fixpoint joined (parts : list ANY) : text :=
  match parts with
  | [] => []
  | [a] => any_string a
  | a :: parts => any_string a ++ 32 :: joined parts
  end.

Lemma joinLoop_false buf parts : joinLoop buf false [32] parts = buf ++ (match parts with [] => [] | _ => 32 :: joined parts end).
Proof.
  revert buf. induction parts as [|a parts IH]; intros buf; cbn [joinLoop]; [by rewrite app_nil_r|].
  rewrite IH, appendANYText_eq, <-!app_assoc. f_equal. simpl. f_equal. by destruct parts; [rewrite app_nil_r|].
Qed.

Lemma joinLoop_eq parts : joinLoop [] true [32] parts = joined parts.
Proof.
  destruct parts as [|a parts]; [done|]. cbn [joinLoop]. rewrite joinLoop_false, appendANYText_eq. simpl.
  by destruct parts; [rewrite app_nil_r|].
Qed.

Lemma joined_app ps qs : ps ≠ [] → qs ≠ [] → joined (ps ++ qs) = joined ps ++ 32 :: joined qs.
Proof.
  intros Hp Hq. induction ps as [|p ps IH]; [done|]. destruct ps as [|p' ps].
  - simpl. by destruct qs.
  - specialize (IH ltac:(done)). simpl in *. rewrite IH. by rewrite <-app_assoc.
Qed.

Lemma joinAnysSTR_text as_ : str_string (joinAnysSTR as_ [32]) = joined as_.
Proof.
  unfold joinAnysSTR. destruct as_ as [|a as_]; [done|]. destruct a as [s|v], as_ as [|b as_]; [done| | |].
  all: match goal with |- _ = joined ?l => exact (joinLoop_eq l) end.
Qed.

Lemma vfs_stringLen_eq v : vfs_stringLen v = Z.of_nat (length (vfs_string v)).
Proof. unfold vfs_stringLen, vfs_string. case_decide; [by destruct (isBuild v)|]. rewrite length_app. by destruct (isBuild v). Qed.

Lemma partLen_eq a : partLen a = 1 + Z.of_nat (length (any_string a)).
Proof. destruct a; simpl; [done|]. by rewrite vfs_stringLen_eq. Qed.

Lemma intern_some t : vfsHasPrefix t = true → ∃ v, intern t = Some v ∧ vfs_string v = kept t.
Proof.
  intros (root & rest & Hr & -> & Hroot & Hrest)%vfsHasPrefix_inv. unfold intern. rewrite Hroot, Hrest. cbn [mbind option_bind].
  eexists. split; [done|]. rewrite kept_prefix by done. unfold vfs_string. simpl. by destruct Hr as [-> | ->].
Qed.

(** The text of a stored value. *)
Definition valueText (kw : EnvKind * Word) : text := match kw.2 with WStr s => str_string s | WVfs v => vfs_string v end.

Lemma canon_text t : 32 ∈ t → valueText (canon t) = t.
Proof.
  intros Hsp. unfold canon. destruct (vfsHasPrefix t) eqn:E; [|done]. destruct (intern_some t E) as (v & -> & Hv).
  unfold valueText. simpl. rewrite Hv. unfold kept. rewrite decide_False; [done|]. intros [-> | ->]; set_solver.
Qed.

(** ** Cells *)

Definition typed (k : EnvKind) (w : Word) : Prop :=
  match k with envVFS => is_Some (asVFS w) | envStr | envInt => is_Some (asSTR w) | envAbsent => True end.

(** The array cell of a variable; [None]: not bound. *)
Definition cellAt (ks : list EnvKind) (vs : list Word) (id : ENV) : option (EnvKind * Word) :=
  k ← zget ks id; w ← zget vs id; if decide (k = envAbsent) then None else Some (k, w).
Definition cell (s : EnvStore) (id : ENV) : option (EnvKind * Word) := cellAt (kind s) (val s) id.

Record cells_ok (s : EnvStore) : Prop := {
  c_len : length (val s) = length (kind s);
  c_typed : ∀ id k w, zget (kind s) id = Some k → zget (val s) id = Some w → typed k w }.

Lemma cells_ok_empty : cells_ok emptyStore.
Proof. split; [done|]. intros id k w Hk. cbn [kind emptyStore] in Hk. by rewrite zget_nil in Hk. Qed.

Lemma zget_grow {A} (l : list A) n z i :
  zget (l ++ replicate n z) i = match zget l i with Some x => Some x | None => if decide (0 <= i < Z.of_nat (length l + n)) then Some z else None end.
Proof.
  destruct (decide (0 <= i < Z.of_nat (length l))) as [Hi|Hi].
  - rewrite zget_app_l by done. by destruct (zget_in l i Hi) as [x ->].
  - rewrite (proj2 (zget_None l i)) by done. case_decide.
    + rewrite zget_app_r by lia. apply zget_replicate. lia.
    + apply zget_None. rewrite length_app, length_replicate. done.
Qed.

(** Absent variables added at the end. *)
Lemma grow_cells vs ks n : length vs = length ks → (∀ id k w, zget ks id = Some k → zget vs id = Some w → typed k w) →
  let vs' := vs ++ replicate n (WStr None) in let ks' := ks ++ replicate n envAbsent in
  length vs' = length ks' ∧ (∀ id k w, zget ks' id = Some k → zget vs' id = Some w → typed k w) ∧ ∀ id, cellAt ks' vs' id = cellAt ks vs id.
Proof.
  intros Hl Ht vs' ks'.
  assert (Hboth : ∀ id, (∃ k w, zget ks id = Some k ∧ zget vs id = Some w ∧ zget ks' id = Some k ∧ zget vs' id = Some w) ∨
    (zget ks id = None ∧ ∀ k, zget ks' id = Some k → k = envAbsent)).
  { intros id. unfold ks', vs'. rewrite !zget_grow. destruct (zget ks id) as [k|] eqn:Ek.
    - left. apply zget_Some_range in Ek as Hr. destruct (zget_in vs id) as [w ->]; [lia|]. by exists k, w.
    - right. split; [done|]. intros k. case_decide; intros; by simplify_eq. }
  split; [unfold vs', ks'; rewrite !length_app, !length_replicate; lia|]. split.
  - intros id k w Hk Hw. destruct (Hboth id) as [(k0 & w0 & E1 & E2 & E3 & E4)|[_ Ha]]; [simplify_eq; by eapply Ht|by rewrite (Ha k Hk)].
  - intros id. unfold cellAt. destruct (Hboth id) as [(k0 & w0 & -> & -> & -> & ->)|[-> Ha]]; [done|].
    destruct (zget ks' id) as [k|]; [|done]. rewrite (Ha k eq_refl). simpl. by destruct (zget vs' id).
Qed.

Lemma ensure_ok count s e : cells_ok s → 0 <= e →
  let s' := ensure count s e in
  cells_ok s' ∧ e < Z.of_nat (length (kind s')) ∧ (∀ id, cell s' id = cell s id) ∧
  ∃ v k cv ck, s' = mkStore v k cv ck (appends s) (pending s) (textInputs s) (resourceBindings s) (included s) (confBase s) (confWrites s).
Proof.
  intros [Hl Ht] He s'. unfold s', ensure. destruct (Z.ltb_spec e (Z.of_nat (length (kind s)))) as [Hlt|Hge].
  { split; [done|]. split; [done|]. split; [done|]. destruct s. by do 4 eexists. }
  rewrite (take_ge (val s)) by lia. set (n1 := Nat.max (Z.to_nat e + 1) count). cbv zeta. cbn [fst snd].
  case_decide.
  - destruct (grow_cells (val s) (kind s) (n1 - length (kind s)) Hl Ht) as (H1 & H2 & H3).
    split_and!; [by split| |exact H3|by do 4 eexists]. simpl. rewrite length_app, length_replicate. lia.
  - set (n2 := Nat.max n1 _). destruct (grow_cells (val s) (kind s) (n2 - length (kind s)) Hl Ht) as (H1 & H2 & H3).
    split_and!; [by split| |exact H3|by do 4 eexists]. simpl. rewrite length_app, length_replicate. lia.
Qed.

(** ** Resource bindings *)

Definition ordered (l : list (ENV * STR)) : Prop := StronglySorted (λ x y, x.1 < y.1) l.
Definition boundTo (l : list (ENV * STR)) : gmap ENV STR := list_to_map l.

Lemma boundTo_mid l1 id key l2 : id ∉ l1.*1 → boundTo (l1 ++ (id, key) :: l2) = <[id := key]> (boundTo (l1 ++ l2)).
Proof.
  unfold boundTo. induction l1 as [|[j y] l1 IH]; csimpl; [done|]. intros [Hne Hn]%not_elem_of_cons. rewrite IH by done. by apply insert_insert_ne.
Qed.

(** The loop narrows the split point. *)
Lemma bindingLoop_ok l id fuel lo hi : ordered l → (0 <= lo <= hi) → hi <= Z.of_nat (length l) → hi - lo <= Z.of_nat fuel →
  (∀ i b, l !! i = Some b → Z.of_nat i < lo → b.1 < id) → (∀ i b, l !! i = Some b → hi <= Z.of_nat i → id <= b.1) →
  ∃ at_ : nat, bindingLoop fuel l id lo hi = Some (Z.of_nat at_) ∧ (at_ <= length l)%nat ∧
    (∀ i b, l !! i = Some b → (i < at_)%nat → b.1 < id) ∧ (∀ i b, l !! i = Some b → (at_ <= i)%nat → id <= b.1).
Proof.
  intros Hs. assert (Hmono : ∀ i j x y, l !! i = Some x → l !! j = Some y → (i <= j)%nat → x.1 <= y.1).
  { clear -Hs. intros i j x y Hi Hj Hle. destruct (decide (i = j)) as [<-|Hne]; [simplify_eq; lia|].
    apply Z.lt_le_incl. rewrite <-(take_drop (S i) l) in Hs. apply (StronglySorted_app_1_elem_of _ _ _ _ _ Hs).
    - apply list_elem_of_lookup_2 with i. by rewrite lookup_take_lt by lia.
    - apply list_elem_of_lookup_2 with (j - S i)%nat. rewrite lookup_drop. by replace (S i + (j - S i))%nat with j by lia. }
  revert lo hi. induction fuel as [|fuel IH]; intros lo hi Hlo Hhi Hf Hlt Hge.
  all: cbn [bindingLoop]; destruct (Z.ltb_spec lo hi) as [Hr|Hr];
    try (exists (Z.to_nat lo); rewrite Z2Nat.id by lia; split_and!; [done|lia|intros i b Hi ?; eapply Hlt; [done|lia]|intros i b Hi ?; eapply Hge; [done|lia]]).
  { lia. }
  rewrite Z.shiftr_div_pow2 by lia. change (2 ^ 1) with 2. set (mid := (lo + hi) / 2).
  assert (Hmid : lo <= mid < hi) by (unfold mid; split; [apply Z.div_le_lower_bound; lia|apply Z.div_lt_upper_bound; lia]).
  destruct (zget_in l mid) as [b Hb]; [lia|]. rewrite Hb. cbn [mbind option_bind].
  rewrite <-(Z2Nat.id mid) in Hb by lia. rewrite zget_nat in Hb. destruct (Z.ltb_spec b.1 id) as [Hbi|Hbi].
  - apply IH; [lia..| |done]. intros i x Hi Hlt'. pose proof (Hmono i (Z.to_nat mid) x b Hi Hb ltac:(lia)). lia.
  - apply IH; [lia..|done|]. intros i x Hi Hge'. pose proof (Hmono (Z.to_nat mid) i b x Hb Hi ltac:(lia)). lia.
Qed.

(** The index splits the bindings at the variable. *)
Lemma bindingIndex_ok s id : ordered (resourceBindings s) →
  ∃ l1 l2, resourceBindings s = l1 ++ l2 ∧ resourceBindingIndex s id = Some (Z.of_nat (length l1)) ∧
    id ∉ l1.*1 ∧ Forall (λ b, b.1 < id) l1 ∧ Forall (λ b, id <= b.1) l2.
Proof.
  intros Hs. unfold resourceBindingIndex. set (l := resourceBindings s) in *.
  destruct (bindingLoop_ok l id (length l) 0 (Z.of_nat (length l))) as (at_ & -> & Hle & H1 & H2); [done|lia|lia|lia|lia| |].
  { intros i b Hi Hge. apply lookup_lt_Some in Hi. lia. }
  exists (take at_ l), (drop at_ l). rewrite take_drop, length_take, Nat.min_l by lia.
  assert (Hl1 : Forall (λ b, b.1 < id) (take at_ l)) by (apply Forall_lookup_2; intros i b [Hi ?]%lookup_take_Some; by eapply H1).
  split_and!; [done..| |done|].
  - intros (b & -> & Hin)%list_elem_of_fmap. rewrite Forall_forall in Hl1. specialize (Hl1 b Hin). simpl in Hl1. lia.
  - apply Forall_lookup_2. intros i b Hi. rewrite lookup_drop in Hi. eapply H2; [done|lia].
Qed.

(** The binding at the index, if it is the variable's. *)
Lemma boundTo_split id l1 l2 : ordered (l1 ++ l2) → id ∉ l1.*1 → Forall (λ b, id <= b.1) l2 →
  (∃ key l3, l2 = (id, key) :: l3 ∧ boundTo (l1 ++ l2) = <[id := key]> (boundTo (l1 ++ l3)) ∧ boundTo (l1 ++ l3) !! id = None) ∨
  ((∀ key l3, l2 ≠ (id, key) :: l3) ∧ boundTo (l1 ++ l2) !! id = None).
Proof.
  intros Hs Hn Hge. apply StronglySorted_app in Hs as (_ & _ & Hs2). unfold boundTo.
  destruct l2 as [|[j key] l3].
  { right. split; [done|]. rewrite app_nil_r. by apply not_elem_of_list_to_map_1. }
  apply StronglySorted_cons in Hs2 as [Hf _]. apply Forall_cons in Hge as [Hj _]. simpl in Hj.
  assert (Hl3 : ∀ k, k <= j → k ∉ l3.*1).
  { intros k Hk (b & -> & Hin)%list_elem_of_fmap. rewrite Forall_forall in Hf. specialize (Hf b Hin). simpl in Hf. lia. }
  destruct (decide (j = id)) as [->|Hne].
  - left. exists key, l3. split; [done|]. split; [by apply boundTo_mid|]. apply not_elem_of_list_to_map_1. rewrite fmap_app.
    apply not_elem_of_app. split; [done|]. apply Hl3. lia.
  - right. split; [by intros key' l3' [=]|]. apply not_elem_of_list_to_map_1. rewrite fmap_app. csimpl.
    apply not_elem_of_app. split; [done|]. apply not_elem_of_cons. split; [done|]. apply Hl3. lia.
Qed.

Lemma ordered_mid l1 b l2 : ordered (l1 ++ b :: l2) → ordered (l1 ++ l2).
Proof.
  unfold ordered. rewrite !StronglySorted_app. intros (H1 & H2 & H3). apply StronglySorted_cons in H3 as [_ H3].
  split_and!; [|done..]. intros x y Hx Hy. apply H1; [done|by right].
Qed.

Lemma clearResourceBinding_ok s id : ordered (resourceBindings s) →
  ∃ l, clearResourceBinding s id = Some (set_bindings l s) ∧ ordered l ∧ boundTo l = delete id (boundTo (resourceBindings s)).
Proof.
  intros Hs. destruct (bindingIndex_ok s id Hs) as (l1 & l2 & El & Ei & Hn & _ & Hge). unfold clearResourceBinding. rewrite Ei. cbn [mbind option_bind].
  rewrite zget_nat, El, lookup_app_r, Nat.sub_diag by done. rewrite El in Hs.
  assert (Hs' : ∀ l, resourceBindings s = l → set_bindings l s = s) by (intros l <-; by destruct s).
  destruct (boundTo_split id l1 l2 Hs Hn Hge) as [(key & l3 & -> & Hb & Hnone)|[Hno Hnone]].
  - simpl. rewrite Z.eqb_refl, Nat2Z.id, delete_middle. exists (l1 ++ l3). split; [done|]. split; [by eapply ordered_mid|].
    rewrite Hb. by rewrite delete_insert_id.
  - exists (l1 ++ l2). rewrite (Hs' _ El). split; [|split; [done|by rewrite delete_id]].
    destruct l2 as [|[j key] l3]; simpl; [done|]. destruct (Z.eqb_spec j id) as [->|]; [|done]. by destruct (Hno key l3).
Qed.

(** ** What the environment stands for

    A map of bound variables to their values, in which an append is done at
    once; the ranges of text that came from files; the resources of variables. *)

Record Spec := mkSpec { sv : gmap ENV (EnvKind * Word); st : gmap ENV (list SourceTextRange); sb : gmap ENV STR }.

Definition specSet (m : Spec) (id : ENV) (kw : EnvKind * Word) : Spec :=
  mkSpec (<[id := kw]> (sv m)) (delete id (st m)) (delete id (sb m)).

Definition queue (l : list envAppend) : gmap ENV (list ANY) := list_to_map ((λ a, (aid a, parts a)) <$> l).

Definition view (s : EnvStore) (id : ENV) : option (EnvKind * Word) :=
  match queue (appends s) !! id with Some ps => Some (canon (joined ps)) | None => cell s id end.

Definition append_ok (a : envAppend) : Prop :=
  is_u32 (aid a) ∧ (2 <= length (parts a))%nat ∧ (counted a <= length (parts a))%nat ∧
  (counted a = 0%nat ∨ an a = foldl (λ n p, n + partLen p) (-1) (take (counted a) (parts a))).

Record Rel (s : EnvStore) (m : Spec) : Prop := {
  r_cells : cells_ok s;
  r_nodup : NoDup (aid <$> appends s);
  r_bits : BitSet.bounded (pending s);
  r_pending : ∀ id, id ∈ aid <$> appends s → BitSet.member (pending s) id = true;
  r_appends : Forall append_ok (appends s);
  r_order : ordered (resourceBindings s);
  r_view : ∀ id, view s id = sv m !! id;
  r_text : textInputs s = st m;
  r_bound : ∀ id, id ∉ aid <$> appends s → is_Some (sv m !! id) → boundTo (resourceBindings s) !! id = sb m !! id;
  r_queued : ∀ id, id ∈ aid <$> appends s → sb m !! id = None }.


Lemma queue_fst l : ((λ a, (aid a, parts a)) <$> l).*1 = aid <$> l.
Proof. by rewrite <-list_fmap_compose. Qed.

Lemma queue_None l id : queue l !! id = None ↔ id ∉ aid <$> l.
Proof. unfold queue. by rewrite <-not_elem_of_list_to_map, queue_fst. Qed.

Lemma queue_Some l a : NoDup (aid <$> l) → a ∈ l → queue l !! aid a = Some (parts a).
Proof. intros Hn Hin. unfold queue. apply elem_of_list_to_map_1; [by rewrite queue_fst|]. apply list_elem_of_fmap. by exists a. Qed.

Lemma takeAppend_ok e l : NoDup (aid <$> l) →
  match takeAppend e l with
  | None => e ∉ aid <$> l
  | Some (a, rest) => a ∈ l ∧ aid a = e ∧ NoDup (aid <$> rest) ∧ queue rest = delete e (queue l) ∧ (∀ x, x ∈ rest → x ∈ l) ∧ e ∉ aid <$> rest ∧
      (∀ id, id ∈ aid <$> l → id = e ∨ id ∈ aid <$> rest)
  end.
Proof.
  induction l as [|x l IH]; csimpl; [by intros _ ?%not_elem_of_nil|]. intros [Hx Hn]%NoDup_cons. destruct (Z.eqb_spec (aid x) e) as [<-|Hne].
  - split_and!; [by left|done|done| |by right|done|].
    + unfold queue. csimpl. symmetry. apply delete_insert_id. fold (queue l). by apply queue_None.
    + intros id [->|?]%elem_of_cons; auto.
  - specialize (IH Hn). destruct (takeAppend e l) as [[a rest]|]; simpl.
    + destruct IH as (Ha & He & Hn' & Hq & Hsub & Hne' & Hids). split_and!; [by right|done| | | | |].
      * constructor; [|done]. intros (y & Hy & Hin)%list_elem_of_fmap. apply Hx, list_elem_of_fmap. exists y. auto.
      * unfold queue in *. csimpl. rewrite Hq. by rewrite delete_insert_ne.
      * intros y [->|Hy]%elem_of_cons; [by left|right; auto].
      * intros [He'|?]%elem_of_cons; [congruence|done].
      * intros id [->|Hid]%elem_of_cons; [right; by left|]. apply Hids in Hid as [->|Hid]; [by left|right; by right].
    + intros [->|?]%elem_of_cons; done.
Qed.

(** Bound variables have a kind. *)
Lemma Rel_bound s m id kw : Rel s m → sv m !! id = Some kw → kw.1 ≠ envAbsent.
Proof.
  intros R. rewrite <-(r_view _ _ R). unfold view. destruct (queue (appends s) !! id).
  - intros [= <-]. unfold canon. by destruct (if vfsHasPrefix _ then _ else _).
  - unfold cell, cellAt. destruct (zget (kind s) id), (zget (val s) id); simpl; try done. case_decide; [done|]. by intros [= <-].
Qed.

(** ** Taking a variable off the queue *)

Definition dequeued (s : EnvStore) (m : Spec) (id : ENV) : Spec :=
  mkSpec (partial_alter (λ _, cell s id) id (sv m)) (st m) (partial_alter (λ _, boundTo (resourceBindings s) !! id) id (sb m)).

Lemma dequeued_set s m id kw : specSet (dequeued s m id) id kw = specSet m id kw.
Proof. unfold specSet, dequeued. simpl. by rewrite insert_partial_alter_eq, delete_partial_alter_eq. Qed.

Lemma dequeue_ok s m id a rest : Rel s m → takeAppend id (appends s) = Some (a, rest) →
  ∃ b, BitSet.remove (pending s) id = Some b ∧ Rel (set_pending b (set_appends rest s)) (dequeued s m id) ∧
    view s id = Some (canon (joined (parts a))) ∧ id ∉ aid <$> rest ∧ append_ok a.
Proof.
  intros [Hc Hnd Hb Hp Ha Ho Hv Ht Hbd Hq] Htake. pose proof (takeAppend_ok id (appends s) Hnd) as Hok. rewrite Htake in Hok.
  destruct Hok as (Hin & <- & Hnd' & Hqueue & Hsub & Hnot & Hids). rewrite Forall_forall in Ha. pose proof (Ha a Hin) as Haok.
  destruct (BitSet.bounded_remove (pending s) (aid a) Hb ltac:(apply Haok)) as (b & Hrem & Hb' & Hmem). exists b. split; [done|].
  assert (Hsub' : ∀ j, j ∈ aid <$> rest → j ∈ aid <$> appends s ∧ j ≠ aid a).
  { intros j Hj. split; [|by intros ->]. apply list_elem_of_fmap in Hj as (x & -> & Hx). apply list_elem_of_fmap. eauto. }
  split; [|split_and!; [unfold view; by rewrite (queue_Some _ _ Hnd Hin)|done|done]].
  split; try done; cbn [appends pending set_pending set_appends resourceBindings sv sb dequeued].
  - split; apply Hc.
  - intros j Hj. pose proof Hj as (x & -> & Hx)%list_elem_of_fmap. destruct (Hsub' _ Hj) as [Hj1 Hj2].
    rewrite Hmem by (by apply Ha, Hsub). rewrite bool_decide_false by congruence. by apply Hp.
  - apply Forall_forall. auto.
  - intros j. unfold view. cbn [appends set_pending set_appends]. rewrite Hqueue. destruct (decide (j = aid a)) as [->|Hne].
    + by rewrite lookup_delete_eq, lookup_partial_alter_eq.
    + rewrite lookup_delete_ne, lookup_partial_alter_ne by done. rewrite <-Hv. done.
  - intros j Hj Hsome. destruct (decide (j = aid a)) as [->|Hne]; [by rewrite lookup_partial_alter_eq|].
    rewrite lookup_partial_alter_ne in Hsome by done. rewrite lookup_partial_alter_ne by done. apply Hbd; [|done]. intros Hj'. by destruct (Hids j Hj').
  - intros j Hj. destruct (Hsub' j Hj). rewrite lookup_partial_alter_ne by done. by apply Hq.
Qed.

(** ** Writing a cell *)

Lemma write_cell_ok s id k w : cells_ok s → 0 <= id < Z.of_nat (length (kind s)) → typed k w →
  ∃ ks vs, zset (kind s) id k = Some ks ∧ zset (val s) id w = Some vs ∧ cells_ok (set_cells vs ks s) ∧
    ∀ j, cell (set_cells vs ks s) j = if decide (id = j) then (if decide (k = envAbsent) then None else Some (k, w)) else cell s j.
Proof.
  intros [Hl Ht] Hid Hty. rewrite !zset_in by lia. do 2 eexists. split; [done|]. split; [done|]. split.
  - split; simpl; [by rewrite !length_insert|]. intros j k' w'. rewrite !zget_insert by lia.
    case_decide; [intros; by simplify_eq|]. apply Ht.
  - intros j. unfold cell, cellAt. simpl. rewrite !zget_insert by lia. by case_decide.
Qed.

Definition specUnbind (m : Spec) (id : ENV) : Spec := mkSpec (delete id (sv m)) (st m) (delete id (sb m)).

Lemma dequeued_unbind s m id : specUnbind (dequeued s m id) id = specUnbind m id.
Proof. unfold specUnbind, dequeued. simpl. by rewrite !delete_partial_alter_eq. Qed.

(** Only the queue changes. *)
Definition same_rest (s s' : EnvStore) : Prop := ∃ ap p, s' = set_pending p (set_appends ap s).

Lemma dropAppend_ok s m id : Rel s m → is_u32 id →
  ∃ s' m', (if decide (appends s ≠ []) then dropAppend s id else Some s) = Some s' ∧ Rel s' m' ∧ id ∉ aid <$> appends s' ∧ same_rest s s' ∧
    (∀ kw, specSet m' id kw = specSet m id kw) ∧ specUnbind m' id = specUnbind m id ∧ (id ∉ aid <$> appends s → s' = s ∧ m' = m).
Proof.
  intros R Hid. assert (Hsame : same_rest s s) by (destruct s; by eexists _, _).
  assert (Hno : id ∉ aid <$> appends s → ∃ s' m', Some s = Some s' ∧ Rel s' m' ∧ id ∉ aid <$> appends s' ∧ same_rest s s' ∧
    (∀ kw, specSet m' id kw = specSet m id kw) ∧ specUnbind m' id = specUnbind m id ∧ (id ∉ aid <$> appends s → s' = s ∧ m' = m)).
  { intros Hn. exists s, m. by split_and!. }
  case_decide as Hne; [|apply Hno; rewrite Hne; apply not_elem_of_nil].
  unfold dropAppend. rewrite BitSet.bounded_has by (done || apply R). cbn [mbind option_bind].
  destruct (BitSet.member (pending s) id) eqn:Hm; simpl.
  2: { apply Hno. intros Hin%(r_pending _ _ R). congruence. }
  destruct (takeAppend id (appends s)) as [[a rest]|] eqn:Htake.
  - destruct (dequeue_ok s m id a rest R Htake) as (b & -> & R' & _ & Hnot & _). simpl. eexists _, _. split; [done|]. split; [done|]. split; [done|].
    split; [by eexists _, _|]. split; [apply dequeued_set|]. split; [apply dequeued_unbind|]. intros Hn. exfalso. apply Hn.
    pose proof (takeAppend_ok id (appends s) (r_nodup _ _ R)) as Hok. rewrite Htake in Hok. destruct Hok as (Hin & <- & _). apply list_elem_of_fmap. by exists a.
  - apply Hno. pose proof (takeAppend_ok id (appends s) (r_nodup _ _ R)) as Hok. by rewrite Htake in Hok.
Qed.

Lemma confWrite_eq s id : ∃ w, confWrite s id = set_writes w s.
Proof. unfold confWrite. destruct (confBase s); [by eexists|]. exists (confWrites s). by destruct s. Qed.

Lemma setCell_ok count s m id k w : Rel s m → is_u32 id → typed k w → k ≠ envAbsent →
  ∃ s', setCell count s id k w = Some s' ∧ Rel s' (specSet m id (k, w)) ∧ id ∉ aid <$> appends s' ∧
    (id ∉ aid <$> appends s → appends s' = appends s).
Proof.
  intros R Hid Hty Hk. unfold setCell. destruct (dropAppend_ok s m id R Hid) as (s1 & m1 & -> & R1 & Hn1 & (ap & p & Hs1) & Hset & _ & Hkeep).
  cbn [mbind option_bind]. rewrite <-Hset. clear R Hset. destruct R1 as [Hc Hnd Hb Hp Ha Ho Hv Ht Hbd Hq].
  destruct (clearResourceBinding_ok (set_texts (delete id (textInputs s1)) s1) id) as (l & -> & Hol & Hbl); [done|]. cbn [mbind option_bind].
  destruct (confWrite_eq (set_bindings l (set_texts (delete id (textInputs s1)) s1)) id) as [wr ->]. set (s2 := set_writes wr _).
  assert (Hc2 : cells_ok s2) by (split; apply Hc).
  destruct (ensure_ok count s2 id Hc2 ltac:(lia)) as (Hc3 & Hlt & Hcell & (v3 & k3 & cv & ck & Es3)).
  destruct (write_cell_ok (ensure count s2 id) id k w Hc3 ltac:(lia) Hty) as (ks & vs & -> & E2 & Hc4 & Hcell4). cbn [mbind option_bind]. rewrite E2. cbn [mbind option_bind].
  eexists. split; [done|]. rewrite Es3 in *. set (s4 := set_cells vs ks _) in *. split; [|split; [done|]; intros Hnq; by destruct (Hkeep Hnq) as [-> _]].
  assert (Hv' : ∀ j, view s4 j = <[id := (k, w)]> (sv m1) !! j).
  { intros j. unfold view. change (appends s4) with (appends s1). rewrite Hcell4. destruct (decide (id = j)) as [<-|Hne].
    - rewrite decide_False by done. rewrite lookup_insert_eq. by rewrite (proj2 (queue_None _ _) Hn1).
    - rewrite lookup_insert_ne, <-Hv by done. unfold view. by rewrite Hcell. }
  split; try done; cbn [sv st sb specSet].
  - cbn. by rewrite Ht.
  - intros j Hj Hsome. change (resourceBindings s4) with l. rewrite Hbl. destruct (decide (id = j)) as [<-|Hne]; [by rewrite !lookup_delete_eq|].
    rewrite lookup_insert_ne in Hsome by done. rewrite !lookup_delete_ne by done. by apply Hbd.
  - intros j Hj. destruct (decide (id = j)) as [<-|Hne]; [by rewrite lookup_delete_eq|]. rewrite lookup_delete_ne by done. by apply Hq.
Qed.

Lemma Rel_texts s m t : Rel s m → Rel (set_texts t s) (mkSpec (sv m) t (sb m)).
Proof. intros [Hc ? ? ? ? ? Hv ? ? ?]. split; try done. split; apply Hc. Qed.

Lemma canon_bound t : (canon t).1 ≠ envAbsent ∧ typed (canon t).1 (canon t).2.
Proof. unfold canon. destruct (if vfsHasPrefix t then intern t else None); simpl; split; (done || by eexists). Qed.

(** Storing a text. *)
Lemma setCanon_eq count s id t : (if vfsHasPrefix t then v ← intern t; setVFS count s id v else setStrID count s id (Some t)) =
  setCell count s id (canon t).1 (canon t).2.
Proof. unfold canon. destruct (vfsHasPrefix t) eqn:E; [|done]. by destruct (intern_some t E) as (v & -> & _). Qed.

Lemma settle_ok count s m id : Rel s m → ∃ s', settle count s id = Some s' ∧ Rel s' m ∧ id ∉ aid <$> appends s' ∧
  ∀ a rest, takeAppend id (appends s) = Some (a, rest) → appends s' = rest.
Proof.
  intros R. unfold settle. pose proof (takeAppend_ok id (appends s) (r_nodup _ _ R)) as Hok.
  destruct (takeAppend id (appends s)) as [[a rest]|] eqn:Htake; [|by exists s].
  destruct (dequeue_ok s m id a rest R Htake) as (b & -> & R1 & Hview & Hnot & (Hu & _)). cbn [mbind option_bind]. cbv zeta.
  destruct Hok as (Hin & Hida & _). rewrite Hida in Hu. rewrite joinLoop_eq. set (t := joined (parts a)) in *.
  destruct (canon_bound t) as [Hb Hty]. rewrite setCanon_eq.
  destruct (setCell_ok count _ _ id _ _ R1 Hu Hty Hb) as (s2 & -> & R2 & Hn2 & Hkeep). cbn [mbind option_bind].
  assert (Happ : ∀ a' rest', Some (a, rest) = Some (a', rest') → appends s2 = rest') by (intros a' rest' [= _ <-]; by apply Hkeep).
  rewrite <-surjective_pairing, dequeued_set in R2. change (textInputs (set_pending b (set_appends rest s))) with (textInputs s). rewrite (r_text _ _ R).
  assert (Hsv : <[id := canon t]> (sv m) = sv m) by (apply insert_id; by rewrite <-(r_view _ _ R)).
  assert (Hsb : delete id (sb m) = sb m).
  { apply delete_id, (r_queued _ _ R). apply list_elem_of_fmap. by exists a. }
  pose proof (r_text _ _ R2) as Ht2. destruct m as [v t' b']. unfold specSet in R2. cbn [sv st sb] in *. destruct (t' !! id) as [r|] eqn:Er.
  - eexists. split; [done|]. split; [|done]. apply (Rel_texts _ _ (<[id := r]> (textInputs s2))) in R2. cbn [sv sb] in R2. rewrite Hsv, Hsb in R2.
    rewrite Ht2 in R2 |- *. cbn [specSet st] in *. rewrite insert_delete_eq, insert_id in R2 |- * by done. done.
  - exists s2. split; [done|]. split; [|done]. by rewrite Hsv, Hsb, delete_id in R2.
Qed.

Lemma cell_zget s id : cells_ok s → 0 <= id < Z.of_nat (length (kind s)) → ∃ k w, zget (kind s) id = Some k ∧ zget (val s) id = Some w ∧
  typed k w ∧ cell s id = if decide (k = envAbsent) then None else Some (k, w).
Proof.
  intros [Hl Ht] Hid. destruct (zget_in (kind s) id Hid) as [k Hk]. destruct (zget_in (val s) id) as [w Hw]; [lia|].
  exists k, w. split_and!; [done|done|by eapply Ht|]. unfold cell, cellAt. by rewrite Hk, Hw.
Qed.

(** What a look-up finds. *)
Definition found (v : option (EnvKind * Word)) (k : EnvKind) (w : Word) : Prop :=
  match v with Some kw => kw = (k, w) ∧ k ≠ envAbsent ∧ typed k w | None => k = envAbsent end.

Lemma lookup_ok count s m id : Rel s m → is_u32 id →
  ∃ k w s', lookup count s id = Some (k, w, s') ∧ Rel s' m ∧ id ∉ aid <$> appends s' ∧ found (sv m !! id) k w ∧
    (∀ j, j ∉ aid <$> appends s → j ∉ aid <$> appends s').
Proof.
  intros R Hid. unfold lookup.
  assert (∃ s', (if decide (appends s ≠ []) then p ← BitSet.has (pending s) id; if (p : bool) then settle count s id else Some s else Some s) = Some s' ∧
    Rel s' m ∧ id ∉ aid <$> appends s' ∧ ∀ j, j ∉ aid <$> appends s → j ∉ aid <$> appends s') as (s' & -> & R' & Hn & Hsub).
  { case_decide as Hne; [|exists s; split_and!; [done..|rewrite Hne; apply not_elem_of_nil|done]].
    rewrite BitSet.bounded_has by (done || apply R). cbn [mbind option_bind]. destruct (BitSet.member (pending s) id) eqn:Hm.
    - destruct (settle_ok count s m id R) as (s' & E & R' & Hn & Hrest). exists s'. split_and!; [done..|]. intros j Hj.
      pose proof (takeAppend_ok id (appends s) (r_nodup _ _ R)) as Hok. unfold settle in E. destruct (takeAppend id (appends s)) as [[a rest]|]; [|by simplify_eq].
      rewrite (Hrest a rest eq_refl). destruct Hok as (_ & _ & _ & _ & Hsub & _). intros (x & -> & Hx)%list_elem_of_fmap. apply Hj, list_elem_of_fmap. eauto.
    - exists s. split_and!; [done..| |done]. intros Hin%(r_pending _ _ R). congruence. }
  cbn [mbind option_bind]. pose proof (r_view _ _ R' id) as Hv. unfold view in Hv. rewrite (proj2 (queue_None _ _) Hn) in Hv.
  destruct (Z.ltb_spec id (Z.of_nat (length (kind s')))) as [Hlt|Hge].
  - destruct (cell_zget s' id (r_cells _ _ R') ltac:(lia)) as (k & w & -> & -> & Hty & Hcell). cbn [mbind option_bind].
    exists k, w, s'. split_and!; [done..| |done]. rewrite <-Hv, Hcell. by case_decide.
  - eexists _, _, s'. split_and!; [done..| |done]. rewrite <-Hv. unfold cell, cellAt. by rewrite (proj2 (zget_None (kind s') id)) by lia.
Qed.

(** ** Appending *)

Definition storeSTR (s : STR) : EnvKind * Word := match s with None => (envStr, WStr None) | Some t => canon t end.
Definition storeANY (a : ANY) : EnvKind * Word := match a with AVfs v => (envVFS, WVfs v) | AStr s => storeSTR s end.

(** An append is the old text, a space and the joined words; an empty value is replaced. *)
Definition specAppend (m : Spec) (id : ENV) (args : list ANY) : Spec :=
  let args := if decide (args = []) then [AStr strEmpty] else args in
  let first := specSet m id (match args with [a] => storeANY a | _ => canon (joined args) end) in
  match sv m !! id with
  | Some kw =>
      if decide (valueText kw = []) then first
      else mkSpec (<[id := canon (valueText kw ++ 32 :: joined args)]> (sv m)) (st m) (delete id (sb m))
  | None => first
  end.

Lemma dollar_prefix s : vfsHasPrefix (str_string s) = true → strHasDollar s = true.
Proof.
  intros (root & rest & Hr & Hs & _)%vfsHasPrefix_inv. unfold strHasDollar. rewrite Hs. apply bool_decide_eq_true_2.
  destruct Hr as [-> | ->]; simpl; by left.
Qed.

Lemma setFromSTR_eq count s id v : setFromSTR count s id v = setCell count s id (storeSTR v).1 (storeSTR v).2.
Proof.
  unfold setFromSTR. destruct (vfsHasPrefix (str_string v)) eqn:E.
  - rewrite (dollar_prefix v E). destruct v as [t|]; [|done]. simpl in *. pose proof (setCanon_eq count s id t) as H. by rewrite E in H.
  - rewrite andb_false_r. destruct v as [t|]; [|done]. simpl in *. pose proof (setCanon_eq count s id t) as H. by rewrite E in H.
Qed.

Lemma setFromANY_eq count s id a : setFromANY count s id a = setCell count s id (storeANY a).1 (storeANY a).2.
Proof. destruct a; [apply setFromSTR_eq|done]. Qed.

Lemma store_bound a : (storeANY a).1 ≠ envAbsent ∧ typed (storeANY a).1 (storeANY a).2.
Proof. destruct a as [[t|]|v]; simpl; [apply canon_bound| |]; split; (done || by eexists). Qed.

Lemma addParts_ok id args l : NoDup (aid <$> l) →
  match addParts id args l with
  | None => id ∉ aid <$> l
  | Some l' => ∃ ps, queue l !! id = Some ps ∧ queue l' = <[id := ps ++ args]> (queue l) ∧ aid <$> l' = aid <$> l ∧
      (Forall append_ok l → Forall append_ok l' ∧ (2 <= length ps)%nat)
  end.
Proof.
  induction l as [|x l IH]; csimpl; [by intros _ ?%not_elem_of_nil|]. intros [Hx Hn]%NoDup_cons. destruct (Z.eqb_spec (aid x) id) as [<-|Hne].
  - exists (parts x). unfold queue. csimpl. rewrite lookup_insert_eq, insert_insert_eq. split_and!; [done..|].
    intros [(H1 & H2 & H3 & H4) Hf]%Forall_cons. split; [|done]. constructor; [|done]. split; [done|]. simpl. rewrite length_app, take_app_le by done.
    split_and!; [lia|lia|done].
  - specialize (IH Hn). destruct (addParts id args l) as [l'|]; simpl.
    + destruct IH as (ps & H1 & H2 & H3 & H4). exists ps. unfold queue in *. csimpl. rewrite lookup_insert_ne by done. rewrite H2, H3.
      split_and!; [done|by rewrite insert_insert_ne|done|]. intros [Hax Hf]%Forall_cons. destruct (H4 Hf). split; [by constructor|done].
    + intros [->|?]%elem_of_cons; done.
Qed.

Lemma joined_space ps : (2 <= length ps)%nat → 32 ∈ joined ps.
Proof. destruct ps as [|p [|q ps]]; simpl; [lia|lia|]. intros _. apply elem_of_app. right. by left. Qed.

Lemma joined_snoc p args : args ≠ [] → joined (p :: args) = any_string p ++ 32 :: joined args.
Proof. by destruct args. Qed.

Lemma valueText_typed k w : k ≠ envAbsent → typed k w → valueText (k, w) = [] ↔ (w = WStr None ∨ w = WStr (Some [])).
Proof.
  intros Hk Hty. unfold valueText. simpl. destruct w as [s|v].
  - destruct s as [t|]; simpl; split; [intros ->; by right|intros [|]; by simplify_eq|by left|done].
  - unfold vfs_string. split; [|by intros []]. case_decide as E; destruct (isBuild v); simpl; done.
Qed.

Lemma previous_ok s id : cells_ok s → 0 <= id →
  ∃ prev, previous s id = Some prev ∧
    match cell s id with
    | None => prev = None
    | Some kw => kw.1 ≠ envAbsent ∧ typed kw.1 kw.2 ∧ match prev with None => kw.2 = WStr None | Some a => any_string a = valueText kw ∧ kw.2 ≠ WStr None ∧ (kw.2 = WStr (Some []) → a = AStr (Some [])) end
    end.
Proof.
  intros Hc Hid. unfold previous. destruct (Z.ltb_spec id (Z.of_nat (length (kind s)))) as [Hlt|Hge].
  - destruct (cell_zget s id Hc ltac:(lia)) as (k & w & -> & -> & Hty & ->). cbn [mbind option_bind].
    destruct k; [by exists None|..]; destruct Hty as [x Hx]; destruct w; simplify_eq/=; eexists; (split; [done|]); simpl.
    1,2: destruct x; simpl; split_and!; try done; try (by eexists); intros; by simplify_eq.
    by split_and!; [|eexists|..].
  - exists None. split; [done|]. unfold cell, cellAt. by rewrite (proj2 (zget_None (kind s) id)) by lia.
Qed.

(** A queued variable takes more words. *)
Lemma append_queued s m id args l : Rel s m → args ≠ [] → addParts id args (appends s) = Some l →
  Rel (set_appends l s) (specAppend m id args).
Proof.
  intros [Hc Hnd Hb Hp Ha Ho Hv Ht Hbd Hq] Hargs Hadd. pose proof (addParts_ok id args (appends s) Hnd) as Hok. rewrite Hadd in Hok.
  destruct Hok as (ps & Hps & Hqueue & Hids & Hf). destruct (Hf Ha) as [Ha' Hlen].
  assert (Hin : id ∈ aid <$> appends s) by (apply dec_stable; intros Hn%queue_None; congruence).
  assert (Hsv : sv m !! id = Some (canon (joined ps))) by (rewrite <-Hv; unfold view; by rewrite Hps).
  pose proof (joined_space ps Hlen) as Hsp. unfold specAppend. rewrite decide_False by done. rewrite Hsv.
  rewrite canon_text by done. rewrite decide_False by (intros E; rewrite E in Hsp; by apply not_elem_of_nil in Hsp).
  split; cbn [set_appends appends pending textInputs resourceBindings sv st sb]; try done; try (by rewrite Hids).
  - split; apply Hc.
  - intros j. unfold view. cbn [set_appends appends]. rewrite Hqueue. destruct (decide (id = j)) as [<-|Hne].
    + rewrite !lookup_insert_eq. rewrite joined_app by (by destruct ps; [simpl in Hlen; lia|] || done). done.
    + rewrite !lookup_insert_ne, <-Hv by done. done.
  - intros j. rewrite Hids. intros Hj Hs. destruct (decide (id = j)) as [<-|Hne]; [done|]. rewrite lookup_insert_ne in Hs by done.
    rewrite lookup_delete_ne by done. by apply Hbd.
  - intros j. rewrite Hids. intros Hj. destruct (decide (id = j)) as [<-|Hne]; [by rewrite lookup_delete_eq|]. rewrite lookup_delete_ne by done. by apply Hq.
Qed.

(** A bound variable that is not empty is queued. *)
Lemma append_start s m id prev args kw : Rel s m → is_u32 id → id ∉ aid <$> appends s → args ≠ [] →
  sv m !! id = Some kw → any_string prev = valueText kw → valueText kw ≠ [] →
  ∃ b, BitSet.add (pending s) id = Some b ∧
    Rel (set_pending b (set_appends (appends s ++ [mkAppend id 0 0 (prev :: args)]) s)) (specAppend m id args).
Proof.
  intros [Hc Hnd Hb Hp Ha Ho Hv Ht Hbd Hq] Hid Hn Hargs Hsv Htext Hne. destruct (BitSet.bounded_add (pending s) id Hb Hid) as (b & Hadd & Hb' & Hm & Hmono).
  exists b. split; [done|]. unfold specAppend. rewrite decide_False by done. rewrite Hsv, decide_False by done.
  split; cbn [set_pending set_appends appends pending textInputs resourceBindings sv st sb]; try done; rewrite ?fmap_app; csimpl.
  - split; apply Hc.
  - apply NoDup_app. split_and!; [done| |apply NoDup_singleton]. intros j Hj ->%list_elem_of_singleton. done.
  - intros j [Hj|Hj]%elem_of_app; [|by apply list_elem_of_singleton in Hj as ->]. apply Hmono; [|by apply Hp].
    apply list_elem_of_fmap in Hj as (a & -> & Hin). rewrite Forall_forall in Ha. by destruct (Ha a Hin) as [? _].
  - apply Forall_app. split; [done|]. constructor; [|done]. split; [done|]. simpl. split_and!; [destruct args; [done|simpl; lia]|lia|by left].
  - intros j. unfold view. cbn [set_pending set_appends appends]. unfold queue. rewrite fmap_app. csimpl.
    rewrite list_to_map_snoc by (by rewrite queue_fst). destruct (decide (id = j)) as [<-|Hnj].
    + rewrite !lookup_insert_eq. by rewrite joined_snoc, Htext by done.
    + rewrite !lookup_insert_ne, <-Hv by done. done.
  - intros j [Hj Hj']%not_elem_of_app Hs. apply not_elem_of_cons in Hj' as [Hj' _]. rewrite lookup_insert_ne in Hs by done.
    rewrite lookup_delete_ne by done. by apply Hbd.
  - intros j [Hj|Hj]%elem_of_app; [|apply list_elem_of_singleton in Hj as ->; by rewrite lookup_delete_eq].
    destruct (decide (id = j)) as [<-|Hnj]; [by rewrite lookup_delete_eq|]. rewrite lookup_delete_ne by done. by apply Hq.
Qed.

Lemma appendANYs_ok count s m id args : Rel s m → is_u32 id → ∃ s', appendANYs count s id args = Some s' ∧ Rel s' (specAppend m id args).
Proof.
  intros R Hid. unfold appendANYs. set (args' := if decide (args = []) then [AStr strEmpty] else args).
  assert (Hne : args' ≠ []) by (unfold args'; by case_decide). 
  assert (Hspec : specAppend m id args = specAppend m id args').
  { unfold specAppend. rewrite (decide_False (P := args' = [])) by done. done. }
  rewrite Hspec. clearbody args'. destruct (addParts id args' (appends s)) as [l|] eqn:Hadd.
  { eexists. split; [done|]. by apply append_queued. }
  pose proof (addParts_ok id args' (appends s) (r_nodup _ _ R)) as Hn. rewrite Hadd in Hn.
  assert (Hcell : cell s id = sv m !! id) by (rewrite <-(r_view _ _ R); unfold view; by rewrite (proj2 (queue_None _ _) Hn)).
  destruct (previous_ok s id (r_cells _ _ R) ltac:(lia)) as (prev & -> & Hprev). rewrite Hcell in Hprev. cbn [mbind option_bind].
  set (first := match args' with [a] => setFromANY count s id a | _ => setFromSTR count s id (joinAnysSTR args' [32]) end).
  assert (Hfirst : (∀ kw, sv m !! id = Some kw → valueText kw = []) → ∃ s', first = Some s' ∧ Rel s' (specAppend m id args')).
  { intros Hempty. assert (Hset : ∃ kw, first = setCell count s id kw.1 kw.2 ∧ kw.1 ≠ envAbsent ∧ typed kw.1 kw.2 ∧ specAppend m id args' = specSet m id kw).
    { assert (Hs : specAppend m id args' = specSet m id (match args' with [a] => storeANY a | _ => canon (joined args') end)).
      { unfold specAppend. rewrite decide_False by done. destruct (sv m !! id) as [kw|] eqn:E; [|done]. by rewrite decide_True by auto. }
      rewrite Hs. unfold first. destruct args' as [|a [|b args']]; [done| |].
      - exists (storeANY a). rewrite setFromANY_eq. destruct (store_bound a). done.
      - exists (canon (joined (a :: b :: args'))). rewrite setFromSTR_eq.
        assert (joinAnysSTR (a :: b :: args') [32] = Some (joined (a :: b :: args'))) as ->.
        { unfold joinAnysSTR. destruct a; by rewrite joinLoop_eq. }
        destruct (canon_bound (joined (a :: b :: args'))). done. }
    destruct Hset as (kw & -> & Hk & Hty & ->). destruct (setCell_ok count s m id kw.1 kw.2 R Hid Hty Hk) as (s' & -> & R' & _).
    exists s'. split; [done|]. by rewrite <-surjective_pairing in R'. }
  destruct (sv m !! id) as [kw|] eqn:Hsv.
  2: { subst prev. by apply Hfirst. }
  destruct kw as [k w]. destruct Hprev as (Hk & Hty & Hprev). simpl in *. destruct prev as [p|].
  - destruct Hprev as (Htext & Hnone & Hemp). destruct (decide (valueText (k, w) = [])) as [E|E].
    + destruct (Hfirst ltac:(intros kw [= <-]; done)) as (s' & Hf & R').
      destruct (proj1 (valueText_typed k w Hk Hty) E) as [?|Hw]; [done|]. rewrite (Hemp Hw). eauto.
    + assert (Hp : p ≠ AStr (Some [])) by (intros ->; apply E; by rewrite <-Htext).
      destruct (append_start s m id p args' (k, w) R Hid Hn Hne Hsv Htext E) as (b & Hb & R').
      destruct p as [[[|c t]|]|v]; [done|..]; rewrite Hb; simpl; eauto.
  - subst w. apply Hfirst. by intros kw [= <-].
Qed.

(** ** Other writers *)

Lemma Rel_writes s m w : Rel s m → Rel (set_writes w s) m.
Proof. intros [Hc ? ? ? ? ? Hv ? ? ?]. split; try done. split; apply Hc. Qed.

(** The resource of a variable that is not bound does not matter. *)
Lemma Rel_forget s m id : Rel s m → id ∉ aid <$> appends s → sv m !! id = None → Rel s (specUnbind m id).
Proof.
  intros [Hc Hnd Hb Hp Ha Ho Hv Ht Hbd Hq] Hn Hnone. unfold specUnbind. rewrite (delete_id (sv m)) by done. split; try done; cbn [sv sb].
  - intros j Hj Hs. destruct (decide (id = j)) as [<-|Hne]; [rewrite Hnone in Hs; by destruct Hs|]. rewrite lookup_delete_ne by done. by apply Hbd.
  - intros j Hj. destruct (decide (id = j)) as [<-|Hne]; [done|]. rewrite lookup_delete_ne by done. by apply Hq.
Qed.

(** Clearing the kind of a variable. *)
Lemma clear_kind s m id : Rel s m → id ∉ aid <$> appends s → is_Some (sv m !! id) →
  ∃ ks, zset (kind s) id envAbsent = Some ks ∧ Rel (set_cells (val s) ks s) (specUnbind m id).
Proof.
  intros R Hn [kw Hkw]. pose proof R as [Hc Hnd Hb Hp Ha Ho Hv Ht Hbd Hq].
  assert (Hcell : cell s id = Some kw) by (rewrite <-Hkw, <-Hv; unfold view; by rewrite (proj2 (queue_None _ _) Hn)).
  destruct (zget (kind s) id) as [k|] eqn:Ek; [|unfold cell, cellAt in Hcell; by rewrite Ek in Hcell]. pose proof (zget_Some_range _ _ _ Ek) as Hr.
  destruct (zget_in (val s) id) as [w Ew]; [destruct Hc; lia|]. destruct (write_cell_ok s id envAbsent w Hc Hr I) as (ks & vs & E1 & E2 & Hc' & Hcell').
  assert (vs = val s) as ->.
  { apply zset_Some in E2 as [_ ->]. rewrite <-(Z2Nat.id id) in Ew by lia. rewrite zget_nat in Ew. by apply list_insert_id. }
  exists ks. split; [done|]. split; try done; cbn [sv st sb specUnbind].
  - intros j. unfold view. cbn [set_cells appends]. rewrite Hcell'. destruct (decide (id = j)) as [<-|Hne].
    + by rewrite decide_True, lookup_delete_eq, (proj2 (queue_None _ _) Hn) by done.
    + rewrite lookup_delete_ne, <-Hv by done. done.
  - intros j Hj Hs. destruct (decide (id = j)) as [<-|Hne]; [rewrite lookup_delete_eq in Hs; by destruct Hs|].
    rewrite lookup_delete_ne in Hs by done. rewrite lookup_delete_ne by done. by apply Hbd.
  - intros j Hj. destruct (decide (id = j)) as [<-|Hne]; [done|]. rewrite lookup_delete_ne by done. by apply Hq.
Qed.

Lemma unbind_ok count s m id : Rel s m → is_u32 id → ∃ k s', unbind count s id = Some (k, s') ∧ Rel s' (specUnbind m id) ∧ id ∉ aid <$> appends s'.
Proof.
  intros R Hid. unfold unbind. destruct (dropAppend_ok s m id R Hid) as (s1 & m1 & -> & R1 & Hn1 & _ & _ & <- & _). cbn [mbind option_bind].
  destruct (lookup_ok count s1 m1 id R1 Hid) as (k & w & s2 & -> & R2 & Hn2 & Hf & _). cbn [mbind option_bind]. unfold found in Hf.
  destruct (sv m1 !! id) as [kw|] eqn:E.
  - destruct Hf as (-> & Hk & _). rewrite decide_True by done. destruct (confWrite_eq s2 id) as [wr ->].
    destruct (clear_kind (set_writes wr s2) m1 id) as (ks & -> & R3); [by apply Rel_writes|done|by eexists|]. simpl. eexists _, _. by split_and!.
  - subst k. rewrite decide_False by tauto. eexists _, s2. split; [done|]. split; [|done]. by apply Rel_forget.
Qed.

Definition specResource (m : Spec) (id : ENV) (v : VFS) (key : STR) : Spec :=
  let m := specSet m id (envVFS, WVfs v) in mkSpec (sv m) (st m) (<[id := key]> (sb m)).

Lemma setResource_ok count s m id v key : Rel s m → is_u32 id → ∃ s', setResource count s id v key = Some s' ∧ Rel s' (specResource m id v key).
Proof.
  intros R Hid. unfold setResource, setVFS.
  assert (Hty : typed envVFS (WVfs v)) by (by eexists). destruct (setCell_ok count s m id envVFS (WVfs v) R Hid Hty ltac:(done)) as (s' & -> & R' & Hn & _).
  cbn [mbind option_bind]. destruct (bindingIndex_ok s' id (r_order _ _ R')) as (l1 & l2 & El & -> & Hn1 & Hl1 & Hl2). cbn [mbind option_bind].
  eexists. split; [done|]. rewrite El, Nat2Z.id, take_app_length, drop_app_length. pose proof R' as [Hc Hnd Hb Hp Ha Ho Hv Ht Hbd Hq].
  assert (Hnone : boundTo (resourceBindings s') !! id = None).
  { rewrite Hbd by (done || cbn [sv specSet]; rewrite lookup_insert_eq; by eexists). cbn [sb specSet]. by rewrite lookup_delete_eq. }
  rewrite El in Ho, Hnone. unfold specResource. cbv zeta. split; try done; cbn [sv st sb resourceBindings appends set_bindings].
  - split; apply Hc.
  - unfold ordered in *. apply StronglySorted_app in Ho as (Ho1 & Ho2 & Ho3). apply StronglySorted_app. split_and!; [|done|].
    + intros x y Hx [->|Hy]%elem_of_cons; [|by apply Ho1]. rewrite Forall_forall in Hl1. by apply Hl1.
    + apply StronglySorted_cons. split; [|done]. apply Forall_forall. intros x Hx. rewrite Forall_forall in Hl2. specialize (Hl2 x Hx). simpl in *.
      assert (x.1 ≠ id); [|lia]. intros <-. apply not_elem_of_list_to_map_2 in Hnone. apply Hnone. rewrite fmap_app. apply elem_of_app. right. apply list_elem_of_fmap. by exists x.
  - intros j Hj Hs. rewrite boundTo_mid by done. destruct (decide (id = j)) as [<-|Hne]; [by rewrite !lookup_insert_eq|].
    rewrite !lookup_insert_ne by done. rewrite <-El. by apply Hbd.
  - intros j Hj. destruct (decide (id = j)) as [<-|Hne]; [done|]. rewrite lookup_insert_ne by done. by apply Hq.
Qed.

(** ** Lengths *)

Definition boundText (v : option (EnvKind * Word)) : text := match v with Some kw => valueText kw | None => [] end.

Lemma foldl_partLen ps n : foldl (λ n p, n + partLen p) n ps = n + foldl (λ n p, n + partLen p) 0 ps.
Proof. revert n. induction ps as [|p ps IH]; intros n; cbn [foldl]; [lia|]. rewrite (IH (n + partLen p)), (IH (0 + partLen p)). lia. Qed.

Lemma joined_length ps : ps ≠ [] → foldl (λ n p, n + partLen p) (-1) ps = Z.of_nat (length (joined ps)).
Proof.
  induction ps as [|p ps IH]; [done|]. intros _. simpl. destruct ps as [|q ps].
  - simpl. rewrite partLen_eq. lia.
  - specialize (IH ltac:(done)). rewrite foldl_partLen in IH. rewrite foldl_partLen, partLen_eq. rewrite length_app. cbn [length joined] in *. lia.
Qed.

Lemma countAppend_ok a : append_ok a → append_ok (countAppend a) ∧ an (countAppend a) = Z.of_nat (length (joined (parts a))).
Proof.
  intros (Hu & Hl & Hc & Hn). assert (Han : an (countAppend a) = Z.of_nat (length (joined (parts a)))).
  { rewrite <-joined_length by (destruct (parts a); [simpl in Hl; lia|done]). unfold countAppend. cbn [an].
    rewrite <-(take_drop (counted a) (parts a)) at 2. rewrite foldl_app. f_equal. case_decide as E; [by rewrite E|]. by destruct Hn. }
  split; [|done]. split; [done|]. unfold countAppend in *. cbn [parts counted an aid] in *. split_and!; [done|lia|]. right. rewrite Han.
  rewrite take_ge by lia. symmetry. apply joined_length. destruct (parts a); [simpl in Hl; lia|done].
Qed.

Lemma countLoop_ok id l : NoDup (aid <$> l) → Forall append_ok l →
  match countLoop id l with
  | None => id ∉ aid <$> l
  | Some (n, l') => ∃ ps, queue l !! id = Some ps ∧ n = Z.of_nat (length (joined ps)) ∧ (2 <= length ps)%nat ∧
      queue l' = queue l ∧ aid <$> l' = aid <$> l ∧ Forall append_ok l'
  end.
Proof.
  induction l as [|x l IH]; csimpl; [by intros _ _ ?%not_elem_of_nil|]. intros [Hx Hn]%NoDup_cons [Hax Hf]%Forall_cons. destruct (Z.eqb_spec (aid x) id) as [<-|Hne].
  - destruct (countAppend_ok x Hax) as [Hok Han]. exists (parts x). split; [unfold queue; csimpl; by rewrite lookup_insert_eq|].
    split_and!; [exact Han|apply Hax|done|done|by constructor].
  - specialize (IH Hn Hf). destruct (countLoop id l) as [[n l']|]; simpl.
    + destruct IH as (ps & H1 & H2 & H3 & H4 & H5 & H6). exists ps. unfold queue in *. csimpl. rewrite lookup_insert_ne by done. rewrite H4, H5.
      split_and!; [done..|by constructor].
    + intros [->|?]%elem_of_cons; done.
Qed.

Lemma stringLen_ok s m id : Rel s m → is_u32 id →
  ∃ s', stringLen s id = Some (Z.of_nat (length (boundText (sv m !! id))), s') ∧ Rel s' m.
Proof.
  intros R Hid. unfold stringLen. pose proof (countLoop_ok id (appends s) (r_nodup _ _ R) (r_appends _ _ R)) as Hcount.
  assert (∃ p, (if decide (appends s ≠ []) then BitSet.has (pending s) id else Some false) = Some p ∧ (p = false → id ∉ aid <$> appends s)) as (p & -> & Hp).
  { case_decide as E; [|exists false; split; [done|]; intros _; rewrite E; apply not_elem_of_nil].
    rewrite BitSet.bounded_has by (done || apply R). eexists. split; [done|]. intros Hm Hin%(r_pending _ _ R). congruence. }
  cbn [mbind option_bind]. destruct (if p then countLoop id (appends s) else None) as [[n l]|] eqn:E.
  - destruct p; [|done]. rewrite E in Hcount. destruct Hcount as (ps & Hq & -> & Hlen & Hq' & Hids & Hf).
    exists (set_appends l s). split.
    + rewrite <-(r_view _ _ R). unfold view. rewrite Hq. simpl. by rewrite canon_text by (by apply joined_space).
    + destruct R as [Hc Hnd Hb Hpp Ha Ho Hv Ht Hbd Hqq]. split; cbn [appends set_appends pending textInputs resourceBindings]; try done; try (by rewrite Hids).
      * split; apply Hc.
      * intros j. rewrite <-Hv. unfold view. cbn [appends set_appends]. by rewrite Hq'.
  - exists s. assert (Hn : id ∉ aid <$> appends s) by (destruct p; [by rewrite E in Hcount|auto]).
    rewrite <-(r_view _ _ R). unfold view. rewrite (proj2 (queue_None _ _) Hn).
    destruct (Z.leb_spec (Z.of_nat (length (kind s))) id) as [Hge|Hlt].
    + split; [|done]. unfold cell, cellAt. by rewrite (proj2 (zget_None (kind s) id)) by lia.
    + destruct (cell_zget s id (r_cells _ _ R) ltac:(lia)) as (k & w & -> & -> & Hty & ->). cbn [mbind option_bind]. split; [|done].
      destruct k; simpl in Hty; [done|..]; destruct Hty as [x Hx]; destruct w; simplify_eq/=; try done. by rewrite vfs_stringLen_eq.
Qed.

(** ** Uses of resources *)

Definition specUse (m : Spec) (u : option (list STR)) (id : ENV) : option (list STR) :=
  match u, sb m !! id with
  | Some uses, Some (Some key) => if decide (Some key ∉ uses) then Some (uses ++ [Some key]) else u
  | _, _ => u
  end.

Lemma recordUse_ok s m u id : Rel s m → id ∉ aid <$> appends s → is_Some (sv m !! id) →
  recordResourceUse (mkEnv s u) id = Some (mkEnv s (specUse m u id)).
Proof.
  intros R Hn Hb. unfold recordResourceUse, specUse. destruct u as [uses|]; cbn [resourceUses store]; [|done].
  destruct (bindingIndex_ok s id (r_order _ _ R)) as (l1 & l2 & El & -> & Hn1 & _ & Hge). cbn [mbind option_bind]. rewrite <-(r_bound _ _ R id Hn Hb).
  pose proof (r_order _ _ R) as Ho. rewrite El in Ho |- *. rewrite zget_nat, lookup_app_r, Nat.sub_diag by done.
  destruct (boundTo_split id l1 l2 Ho Hn1 Hge) as [(key & l3 & -> & Hbt & _)|[Hno Hnone]].
  - rewrite Hbt, lookup_insert_eq. simpl. destruct key as [key|]; [|done]. rewrite Z.eqb_refl. simpl. case_bool_decide as Hu; case_decide; (done || by destruct Hu).
  - rewrite Hnone. destruct l2 as [|[j key] l3]; simpl; [done|]. destruct key as [key|]; [|done]. destruct (Z.eqb_spec j id) as [->|]; [|done]. by destruct (Hno (Some key) l3).
Qed.

(** ** Copies *)

Lemma settleAll_ok count fuel s m : Rel s m → (length (appends s) <= fuel)%nat → ∃ s', settleAll count fuel s = Some s' ∧ Rel s' m ∧ appends s' = [].
Proof.
  revert s. induction fuel as [|fuel IH]; intros s R Hf; cbn [settleAll]; destruct (appends s) as [|a l] eqn:E; try by exists s.
  { simpl in Hf. lia. }
  destruct (settle_ok count s m (aid a) R) as (s' & -> & R' & _ & Hl). cbn [mbind option_bind]. apply IH; [done|].
  rewrite (Hl a l) by (rewrite E; simpl; by rewrite Z.eqb_refl). simpl in Hf. lia.
Qed.

Lemma clone_ok count capV capK s m : Rel s m → ∃ d s', clone count capV capK s = Some (d, s') ∧ Rel s' m ∧ Rel d m.
Proof.
  intros R. unfold clone. destruct (settleAll_ok count (length (appends s)) s m R ltac:(lia)) as (s' & -> & R' & E). cbn [mbind option_bind].
  eexists _, s'. split; [done|]. split; [done|]. destruct R' as [Hc Hnd Hb Hp Ha Ho Hv Ht Hbd Hq]. rewrite E in *. split; cbn [appends]; try done.
  - split; apply Hc.
  - apply BitSet.wf_bounded, BitSet.bitset_wf_zero.
  - intros id Hid. by apply not_elem_of_nil in Hid.
  - intros id. rewrite <-Hv. unfold view. cbn [appends]. by rewrite E.
Qed.

(** Whatever the reused store held. *)
Lemma cloneInto_ok count extra self src dst m : Rel src m → cells_ok dst → vwf (BitSet.words (pending dst)) →
  Rel (cloneInto count extra self src dst) m.
Proof.
  intros [Hc Hnd Hb Hp Ha Ho Hv Ht Hbd Hq] Hd Hw. unfold cloneInto. set (n := Nat.max (length (kind src)) count).
  set (dst1 := if _ <? _ then _ else _).
  assert (cells_ok dst1 ∧ (length (kind src) <= length (kind dst1))%nat ∧ pending dst1 = pending dst) as (Hd1 & Hlen & Hpend).
  { unfold dst1. destruct (Z.ltb_spec 0 (Z.of_nat n)) as [Hn|Hn].
    - destruct (ensure_ok count dst (Z.of_nat n - 1) Hd ltac:(lia)) as (H1 & H2 & _ & (v & k & cv & ck & E)). split_and!; [done|lia|by rewrite E].
    - split_and!; [done|lia|done]. }
  destruct Hc as [Hl Hty]. pose proof (c_len _ Hd1) as Hl1.
  rewrite !take_ge by lia. replace (length (val dst1) - length (val src))%nat with (length (kind dst1) - length (kind src))%nat by lia.
  destruct (grow_cells (val src) (kind src) (length (kind dst1) - length (kind src)) Hl Hty) as (H1 & H2 & H3).
  destruct (BitSet.copyFrom_spec extra (pending dst1) (pending src)) as [Hcw Hcm]; [by rewrite Hpend|apply Hb|].
  split; cbn [appends pending textInputs resourceBindings]; try done.
  - split; [done|]. unfold BitSet.copyFrom, appendOver. simpl. destruct Hb as [Hbv Hbl].
    case_bool_decide; simpl; rewrite length_vslice by done; done.
  - intros id Hid. rewrite Hcm. by apply Hp.
  - intros id. rewrite <-Hv. unfold view. cbn [appends]. unfold cell. cbn [kind val]. by rewrite H3.
Qed.

(** ** Sequences of operations *)

Inductive op :=
| OSetVFS (id : ENV) (v : VFS) | OSetStrID (id : ENV) (s : STR) | OSetANY (id : ENV) (a : ANY) | OSetString (id : ENV) (t : text)
| OSetBool (id : ENV) (b : bool) | OSetFromString (id : ENV) (t : text) | OSetFromSTR (id : ENV) (s : STR) | OSetFromANY (id : ENV) (a : ANY)
| OAppend (id : ENV) (args : list ANY) | OUnbind (id : ENV) | OSetTextInputs (id : ENV) (r : list SourceTextRange)
| OSetResource (id : ENV) (v : VFS) (key : STR) | ODefaultSTR (id : ENV) (s : STR) | ODefaultString (id : ENV) (t : text)
| OClone (capV capK : nat) | OCloneInto (extra : nat) (self : Z) (dst : EnvStore)
| OBool (id : ENV) | OString (id : ENV) | OIs (id : ENV) (want : STR) | OStr (id : ENV) | OStringID (id : ENV) | OHas (id : ENV)
| OLookupANY (id : ENV) | OLookupSTR (id : ENV) | OLookupENV (id : ENV) | OLookupValue (id : ENV) | OLen (id : ENV) | OTextInputs (id : ENV).

Inductive out :=
| RUnit | RBool (b : bool) | RText (t : text) | RSTR (s : STR) | RANY (a : ANY) | RSTRok (r : STR * bool) | RTextok (r : text * bool)
| RValue (r : text * option VFS * bool) | RLen (n : Z) | RRanges (r : option (list SourceTextRange)).

Definition writes (e : Environment) (r : option EnvStore) : option (out * Environment) := s ← r; Some (RUnit, mkEnv s (resourceUses e)).
Definition reads {A} (c : A → out) (r : option (A * Environment)) : option (out * Environment) := '(x, e) ← r; Some (c x, e).

(** Copies go on in the copy, which collects no uses. *)
Definition exec (count : nat) (e : Environment) (o : op) : option (out * Environment) :=
  let s := store e in
  match o with
  | OSetVFS id v => writes e (setVFS count s id v)
  | OSetStrID id v => writes e (setStrID count s id v)
  | OSetANY id a => writes e (setANY count s id a)
  | OSetString id t => writes e (setString count s id t)
  | OSetBool id b => writes e (setBool count s id b)
  | OSetFromString id t => writes e (setFromString count s id t)
  | OSetFromSTR id v => writes e (setFromSTR count s id v)
  | OSetFromANY id a => writes e (setFromANY count s id a)
  | OAppend id args => writes e (appendANYs count s id args)
  | OUnbind id => writes e ('(_, s) ← unbind count s id; Some s)
  | OSetTextInputs id r => writes e (Some (setTextInputs s id r))
  | OSetResource id v key => writes e (setResource count s id v key)
  | ODefaultSTR id v => e ← setDefaultSTR count e id v; Some (RUnit, e)
  | ODefaultString id t => e ← setDefaultString count e id t; Some (RUnit, e)
  | OClone capV capK => '(d, _) ← clone count capV capK s; Some (RUnit, mkEnv d None)
  | OCloneInto extra self dst => Some (RUnit, mkEnv (cloneInto count extra self s dst) None)
  | OBool id => reads RBool (bool_ count e id)
  | OString id => reads RText (string_ count e id)
  | OIs id want => reads RBool (is_ count e id want)
  | OStr id => reads RSTR (str_ count e id)
  | OStringID id => reads RSTR (stringID count e id)
  | OHas id => reads RBool (hasBindingID count e id)
  | OLookupANY id => reads RANY (lookupANY count e id)
  | OLookupSTR id => reads RSTRok (lookupSTR count e id)
  | OLookupENV id => reads RTextok (lookupENV count e id)
  | OLookupValue id => reads RValue (lookupValueENV count e id)
  | OLen id => '(n, s) ← stringLen s id; Some (RLen n, mkEnv s (resourceUses e))
  | OTextInputs id => Some (RRanges (textInputs s !! id), e)
  end.

(** The same over the map of values, where nothing is delayed. *)
Definition spec (mu : Spec * option (list STR)) (o : op) : out * (Spec * option (list STR)) :=
  let '(m, u) := mu in
  let set id kw := (RUnit, (specSet m id kw, u)) in
  let used id (b : bool) r := (r, (m, if b && bool_decide (is_Some (sv m !! id)) then specUse m u id else u)) in
  let unused r := (r, (m, u)) in
  match o with
  | OSetVFS id v => set id (envVFS, WVfs v)
  | OSetStrID id v => set id (envStr, WStr v)
  | OSetANY id a | OSetFromANY id a => set id (storeANY a)
  | OSetFromSTR id v => set id (storeSTR v)
  | OSetString id t | OSetFromString id t => set id (canon t)
  | OSetBool id b => set id (envStr, WStr (Some (if b then bs "yes" else bs "no")))
  | OAppend id args => (RUnit, (specAppend m id args, u))
  | OUnbind id => (RUnit, (specUnbind m id, u))
  | OSetTextInputs id r => (RUnit, (if decide (r = []) then m else mkSpec (sv m) (<[id := r]> (st m)) (sb m), u))
  | OSetResource id v key => (RUnit, (specResource m id v key, u))
  | ODefaultSTR id v => if decide (is_Some (sv m !! id)) then unused RUnit else set id (storeSTR v)
  | ODefaultString id t => if decide (is_Some (sv m !! id)) then unused RUnit else set id (canon t)
  | OClone _ _ | OCloneInto _ _ _ => (RUnit, (m, None))
  | OBool id => unused (RBool (match sv m !! id with Some (_, WStr v) => strIsTruthy v | Some (_, WVfs _) => true | None => false end))
  | OString id => used id true (RText (boundText (sv m !! id)))
  | OIs id want =>
      used id true (RBool (match sv m !! id with
        | Some (_, WStr v) => bool_decide (v = want) || bool_decide (want = strEmpty) && bool_decide (v = None)
        | Some (_, WVfs _) => false
        | None => bool_decide (want = strEmpty) end))
  | OStr id => used id true (RSTR (Some (boundText (sv m !! id))))
  | OStringID id => match sv m !! id with Some (_, WStr v) => used id true (RSTR v) | _ => unused (RSTR None) end
  | OHas id => unused (RBool (bool_decide (is_Some (sv m !! id))))
  | OLookupANY id =>
      used id true (RANY (match sv m !! id with
        | Some (_, WVfs v) => AVfs v
        | Some (_, WStr (Some t)) => match (canon t).2 with WVfs v => AVfs v | WStr v => AStr v end
        | _ => AStr strEmpty end))
  | OLookupSTR id => used id true (RSTRok (match sv m !! id with Some kw => (Some (valueText kw), true) | None => (None, false) end))
  | OLookupENV id => if id =? 0 then unused (RTextok ([], false)) else used id true (RTextok (boundText (sv m !! id), bool_decide (is_Some (sv m !! id))))
  | OLookupValue id =>
      if id =? 0 then unused (RValue ([], None, false))
      else used id true (RValue (match sv m !! id with
        | Some (_, WVfs v) => ([], Some v, true)
        | Some (_, WStr v) => (str_string v, None, true)
        | None => ([], None, false) end))
  | OLen id => unused (RLen (Z.of_nat (length (boundText (sv m !! id)))))
  | OTextInputs id => unused (RRanges (st m !! id))
  end.

(** Ids are 32-bit; a store that is reused for a copy is one. *)
Definition op_ok (o : op) : Prop :=
  match o with
  | OSetVFS id _ | OSetStrID id _ | OSetANY id _ | OSetString id _ | OSetBool id _ | OSetFromString id _ | OSetFromSTR id _ | OSetFromANY id _
  | OAppend id _ | OUnbind id | OSetTextInputs id _ | OSetResource id _ _ | ODefaultSTR id _ | ODefaultString id _
  | OBool id | OString id | OIs id _ | OStr id | OStringID id | OHas id | OLookupANY id | OLookupSTR id | OLookupENV id | OLookupValue id | OLen id | OTextInputs id => is_u32 id
  | OClone _ _ => True
  | OCloneInto _ _ dst => cells_ok dst ∧ vwf (BitSet.words (pending dst))
  end.

Fixpoint run (count : nat) (e : Environment) (ops : list op) : option (list out * Environment) :=
  match ops with
  | [] => Some ([], e)
  | o :: ops => '(r, e) ← exec count e o; '(rs, e) ← run count e ops; Some (r :: rs, e)
  end.
Fixpoint runSpec (mu : Spec * option (list STR)) (ops : list op) : list out * (Spec * option (list STR)) :=
  match ops with
  | [] => ([], mu)
  | o :: ops => let '(r, mu) := spec mu o in let '(rs, mu) := runSpec mu ops in (r :: rs, mu)
  end.

Lemma setANY_eq count s id a : setANY count s id a = setCell count s id (storeANY a).1 (storeANY a).2.
Proof.
  destruct a as [v|v]; [|done]. destruct v as [t|]; [|done]. simpl. pose proof (setCanon_eq count s id t) as H. exact H.
Qed.

Lemma setFromString_eq count s id t : setFromString count s id t = setCell count s id (canon t).1 (canon t).2.
Proof.
  unfold setFromString. case_decide as E; [by rewrite E|]. case_decide as E'; [by rewrite E'|]. apply setCanon_eq.
Qed.

(** The outcome of one operation against the specification. *)
Definition agrees (mu : Spec * option (list STR)) (o : op) (r : option (out * Environment)) : Prop :=
  ∃ e, r = Some ((spec mu o).1, e) ∧ Rel (store e) (spec mu o).2.1 ∧ resourceUses e = (spec mu o).2.2.

Lemma write_agrees count s m u o id kw : Rel s m → is_u32 id → kw.1 ≠ envAbsent → typed kw.1 kw.2 → spec (m, u) o = (RUnit, (specSet m id kw, u)) →
  agrees (m, u) o (writes (mkEnv s u) (setCell count s id kw.1 kw.2)).
Proof.
  intros R Hid Hk Hty Ho. destruct (setCell_ok count s m id kw.1 kw.2 R Hid Hty Hk) as (s' & -> & R' & _). eexists. rewrite Ho. split; [done|].
  by rewrite <-surjective_pairing in R'.
Qed.

(** A look-up, and the use it records if the variable is bound. *)
Lemma look_ok count s m u id : Rel s m → is_u32 id →
  ∃ k w s', look count (mkEnv s u) id = Some (k, w, mkEnv s' u) ∧ Rel s' m ∧ found (sv m !! id) k w ∧
    (is_Some (sv m !! id) → recordResourceUse (mkEnv s' u) id = Some (mkEnv s' (specUse m u id))) ∧
    id ∉ aid <$> appends s' ∧ (∀ j, j ∉ aid <$> appends s → j ∉ aid <$> appends s').
Proof.
  intros R Hid. destruct (lookup_ok count s m id R Hid) as (k & w & s' & E & R' & Hn & Hf & Hsub). exists k, w, s'. unfold look. cbn [store]. rewrite E. cbn [mbind option_bind].
  split_and!; [done..| |done|done]. intros Hs. by apply recordUse_ok.
Qed.

Ltac reader id :=
  let k := fresh "k" in let w := fresh "w" in let s' := fresh "s" in let Hl := fresh "Hl" in let Hf := fresh "Hf" in let Hu := fresh "Hu" in
  let R' := fresh "R'" in let kw := fresh "kw" in let Hb := fresh "Hb" in let Hty := fresh "Hty" in let x := fresh "x" in let Hx := fresh "Hx" in
  match goal with R : Rel ?s ?m |- agrees (?m, ?u) _ (reads _ (_ ?count _ _)) => destruct (look_ok count s m u id R ltac:(done)) as (k & w & s' & Hl & R' & Hf & Hu & _)
                | R : Rel ?s ?m |- agrees (?m, ?u) _ (reads _ (_ ?count _ _ _)) => destruct (look_ok count s m u id R ltac:(done)) as (k & w & s' & Hl & R' & Hf & Hu & _)
  end;
  unfold bool_, string_, is_, str_, stringID, hasBindingID, lookupANY, lookupSTR, lookupENV, lookupValueENV;
  rewrite ?Hl; cbn [mbind option_bind]; unfold agrees, spec, found in *; cbv zeta;
  match goal with R : Rel _ ?m |- _ =>
    destruct (sv m !! id) as [kw|];
    [destruct Hf as (-> & Hb & Hty); specialize (Hu (ex_intro _ _ eq_refl)); destruct k; [done|..]; destruct Hty as [x Hx]; destruct w; simplify_eq/=; rewrite ?Hu; simpl|
     subst; simpl]
  end.

(** A default is set if the variable is not bound. *)
Lemma default_agrees count s m u o id kw f : Rel s m → is_u32 id → kw.1 ≠ envAbsent → typed kw.1 kw.2 →
  (∀ s, f s = setCell count s id kw.1 kw.2) →
  spec (m, u) o = (if decide (is_Some (sv m !! id)) then (RUnit, (m, u)) else (RUnit, (specSet m id kw, u))) →
  agrees (m, u) o (e ← ('(b, e) ← hasBindingID count (mkEnv s u) id;
    if (b : bool) then Some e else s ← f (store e); Some (mkEnv s (resourceUses e))); Some (RUnit, e)).
Proof.
  intros R Hid Hk Hty Hf Ho. unfold agrees. rewrite Ho. unfold hasBindingID. destruct (look_ok count s m u id R Hid) as (k & w & s' & -> & R' & Hfound & _).
  cbn [mbind option_bind]. unfold found in Hfound. destruct (sv m !! id) as [kw'|].
  - destruct Hfound as (-> & Hb & _). rewrite bool_decide_true by done. rewrite decide_True by (by eexists). by eexists.
  - subst k. rewrite bool_decide_false by tauto. rewrite decide_False by (by intros []). cbn [store resourceUses]. rewrite Hf.
    destruct (setCell_ok count s' m id kw.1 kw.2 R' Hid Hty Hk) as (s2 & -> & R2 & _). rewrite <-surjective_pairing in R2. by eexists.
Qed.

Lemma exec_ok count s m u o : Rel s m → op_ok o → agrees (m, u) o (exec count (mkEnv s u) o).
Proof.
  intros R Ho. destruct o; simpl in Ho; unfold exec; cbn [store resourceUses].
  - apply (write_agrees count s m u _ id (envVFS, WVfs v)); [done..|by eexists|done].
  - apply (write_agrees count s m u _ id (envStr, WStr s0)); [done..|by eexists|done].
  - rewrite setANY_eq. destruct (store_bound a). by apply write_agrees.
  - unfold setString. rewrite setCanon_eq. destruct (canon_bound t). by apply write_agrees.
  - apply (write_agrees count s m u _ id (envStr, WStr (Some (if b then bs "yes" else bs "no")))); [done..|by eexists|done].
  - rewrite setFromString_eq. destruct (canon_bound t). by apply write_agrees.
  - rewrite setFromSTR_eq. destruct (store_bound (AStr s0)). by apply write_agrees.
  - rewrite setFromANY_eq. destruct (store_bound a). by apply write_agrees.
  - destruct (appendANYs_ok count s m id args R Ho) as (s' & -> & R'). by eexists.
  - destruct (unbind_ok count s m id R Ho) as (k & s' & -> & R' & _). by eexists.
  - unfold setTextInputs. eexists. split; [done|]. simpl. case_decide; [done|]. split; [|done]. rewrite (r_text _ _ R). by apply Rel_texts.
  - destruct (setResource_ok count s m id v key R Ho) as (s' & -> & R'). by eexists.
  - apply (default_agrees count s m u _ id (storeSTR s0) (λ s, setANY count s id (AStr s0)));
      [done|done|apply (store_bound (AStr s0))|apply (store_bound (AStr s0))|intros s'; apply (setANY_eq count s' id (AStr s0))|done].
  - apply (default_agrees count s m u _ id (canon t) (λ s, setString count s id t)); [done|done|apply canon_bound|apply canon_bound|intros s'; apply setCanon_eq|done].
  - destruct (clone_ok count capV capK s m R) as (d & s' & -> & _ & R'). by eexists.
  - destruct Ho. eexists. split; [done|]. split; [|done]. by apply cloneInto_ok.
  - reader id; by eexists.
  - reader id; by eexists.
  - reader id; by eexists.
  - reader id; try (by eexists); destruct x; by eexists.
  - reader id; by eexists.
  - reader id; by eexists.
  - reader id; try (by eexists); (destruct x as [t|]; [|by eexists]); simpl; unfold canon;
      (destruct (vfsHasPrefix t) eqn:E; [destruct (intern_some t E) as (v & -> & _)|]; by eexists).
  - reader id; try (by eexists); destruct x; by eexists.
  - destruct (decide (id = 0)) as [->|Hz]; [by eexists|].
    assert (Ez : (id =? 0) = false) by (by apply Z.eqb_neq). reader id; rewrite ?Ez; by eexists.
  - destruct (decide (id = 0)) as [->|Hz]; [by eexists|].
    assert (Ez : (id =? 0) = false) by (by apply Z.eqb_neq). reader id; rewrite ?Ez; by eexists.
  - destruct (stringLen_ok s m id R Ho) as (s' & -> & R'). by eexists.
  - eexists. split; [by rewrite (r_text _ _ R)|done].
Qed.

Lemma Rel_empty : Rel emptyStore (mkSpec ∅ ∅ ∅).
Proof.
  split; try done.
  - apply cells_ok_empty.
  - constructor.
  - apply BitSet.wf_bounded, BitSet.bitset_wf_zero.
  - intros id Hid. by apply not_elem_of_nil in Hid.
  - constructor.
  - intros id. unfold view. rewrite (proj2 (queue_None _ _)) by apply not_elem_of_nil. unfold cell, cellAt. cbn [kind emptyStore]. rewrite zget_nil. symmetry. apply lookup_empty.
Qed.

Lemma run_ok count ops s m u : Rel s m → Forall op_ok ops →
  ∃ e, run count (mkEnv s u) ops = Some ((runSpec (m, u) ops).1, e) ∧ Rel (store e) (runSpec (m, u) ops).2.1 ∧ resourceUses e = (runSpec (m, u) ops).2.2.
Proof.
  revert s m u. induction ops as [|o ops IH]; intros s m u R Hops; [by eexists|]. apply Forall_cons in Hops as [Ho Hops].
  destruct (exec_ok count s m u o R Ho) as ([s' u'] & E & R' & Hu). cbn [run runSpec]. rewrite E. cbn [mbind option_bind]. cbn [store resourceUses] in *.
  destruct (spec (m, u) o) as [r [m' u'']]. cbn [fst snd] in *. subst u'. destruct (IH s' m' u'' R' Hops) as (e & -> & Hrest). cbn [mbind option_bind].
  destruct (runSpec (m', u'') ops) as [rs mu]. by exists e.
Qed.



(** Appending to a bound variable that has a text changes its value but does
    not enter it among the variables written since the copy from the base
    ([confWrites]), although setting it would. *)
Theorem append_not_recorded count s m id args kw : Rel s m → is_u32 id → sv m !! id = Some kw → valueText kw ≠ [] → args ≠ [] →
  ∃ s', appendANYs count s id args = Some s' ∧ confWrites s' = confWrites s ∧
    view s' id = Some (canon (valueText kw ++ 32 :: joined args)).
Proof.
  intros R Hid Hsv Hne Hargs. destruct (appendANYs_ok count s m id args R Hid) as (s' & E & R'). exists s'. split; [done|]. split.
  - revert E. unfold appendANYs. rewrite decide_False by done. destruct (addParts id args (appends s)) as [l|] eqn:Hadd; [by intros [= <-]|].
    pose proof (addParts_ok id args (appends s) (r_nodup _ _ R)) as Hn. rewrite Hadd in Hn.
    destruct (previous_ok s id (r_cells _ _ R) ltac:(lia)) as (prev & -> & Hprev). cbn [mbind option_bind].
    assert (cell s id = Some kw) as Hcell by (rewrite <-Hsv, <-(r_view _ _ R); unfold view; by rewrite (proj2 (queue_None _ _) Hn)).
    rewrite Hcell in Hprev. destruct Hprev as (Hk & Hty & Hprev). destruct kw as [k w]. simpl in *.
    destruct prev as [p|]; [|subst w; by destruct Hne]. destruct Hprev as (Htext & _).
    destruct (BitSet.add (pending s) id) as [b|]; destruct p as [[[|c t]|]|v]; simpl; try done; try (by intros [= <-]); exfalso; apply Hne; by rewrite <-Htext.
  - rewrite (r_view _ _ R'). unfold specAppend. rewrite decide_False by done. rewrite Hsv, decide_False by done. simpl. by rewrite lookup_insert_eq.
Qed.

(** The environment of a module: the variable 3 is "a", copied from a base. *)
Definition moduleStore : EnvStore :=
  mkStore (replicate 3 (WStr None) ++ [WStr (Some [97])]) (replicate 3 envAbsent ++ [envStr]) 4 4 [] BitSet.BitSet_go_zero ∅ [] ∅ (Some 7) [].

Lemma moduleStore_ok : Rel moduleStore (mkSpec {[3 := (envStr, WStr (Some [97]))]} ∅ ∅).
Proof.
  assert (Hcells : ∀ id, cell moduleStore id = ({[3 := (envStr, WStr (Some [97]))]} : gmap Z (EnvKind * Word)) !! id).
  { intros id. unfold cell, cellAt, moduleStore. simpl. rewrite !zget_cons, !zget_nil. repeat case_decide; simpl; simplify_map_eq; try done; try lia.
    all: try (symmetry; apply lookup_singleton_ne; lia). assert (id = 3) as -> by lia. done. }
  split; try done.
  - split; [done|]. intros id k w. unfold moduleStore. simpl. rewrite !zget_cons, !zget_nil. repeat case_decide; intros; simplify_eq; by eexists.
  - constructor.
  - apply BitSet.wf_bounded, BitSet.bitset_wf_zero.
  - intros id Hid. by apply not_elem_of_nil in Hid.
  - constructor.
Qed.

Lemma append_not_recorded_witness :
  ∃ s', appendANYs 4 moduleStore 3 [AStr (Some [98])] = Some s' ∧ confWrites s' = [] ∧ view s' 3 = Some (canon [97; 32; 98]).
Proof.
  apply (append_not_recorded 4 moduleStore _ 3 [AStr (Some [98])] (envStr, WStr (Some [97])) moduleStore_ok); done.
Defined.

(** A variable that is hidden and brought back has the value it had before the
    appends that were still queued: [unbind] drops them. *)
Theorem unbind_rebind_cell count s m id : Rel s m → is_u32 id →
  ∃ k s1 s2, unbind count s id = Some (k, s1) ∧ rebind s1 id k = Some s2 ∧ view s2 id = cell s id.
Proof.
  intros R Hid. unfold unbind. destruct (dropAppend_ok s m id R Hid) as (s1 & m1 & -> & R1 & Hn1 & (ap & p & Hs1) & _). cbn [mbind option_bind].
  destruct (lookup_ok count s1 m1 id R1 Hid) as (k & w & s2 & E & R2 & Hn2 & Hf & _). rewrite E. cbn [mbind option_bind].
  assert (Hs2 : s2 = s1).
  { revert E. unfold lookup. case_decide as Hne.
    - rewrite BitSet.bounded_has by (done || apply R1). cbn [mbind option_bind]. unfold settle.
      pose proof (takeAppend_ok id (appends s1) (r_nodup _ _ R1)) as Hok.
      destruct (takeAppend id (appends s1)) as [[a rest]|]; [destruct Hok as (Hin & Ha & _); destruct Hn1; apply list_elem_of_fmap; by exists a|].
      destruct (BitSet.member (pending s1) id); cbn [mbind option_bind]; destruct (id <? _); try (by intros [= _ _ <-]);
        destruct (zget (kind s1) id), (zget (val s1) id); simpl; intros; by simplify_eq.
    - cbn [mbind option_bind]. destruct (id <? _); [|by intros [= _ _ <-]]. destruct (zget (kind s1) id), (zget (val s1) id); simpl; intros; by simplify_eq. }
  subst s2. assert (Hcell : cell s1 id = cell s id) by (by rewrite Hs1).
  assert (Hv : cell s1 id = sv m1 !! id) by (rewrite <-(r_view _ _ R1); unfold view; by rewrite (proj2 (queue_None _ _) Hn1)).
  unfold found in Hf. destruct (sv m1 !! id) as [kw|] eqn:Em.
  - destruct Hf as (-> & Hk & Hty). rewrite decide_True by done. destruct (confWrite_eq s1 id) as [wr ->].
    destruct (clear_kind (set_writes wr s1) m1 id) as (ks & Hks & R3); [by apply Rel_writes|done|by eexists|]. rewrite Hks. cbn [mbind option_bind].
    destruct (confWrite_eq (set_cells (val (set_writes wr s1)) ks (set_writes wr s1)) id) as [wr' Hwr]. apply zset_Some in Hks as [Hr ->].
    eexists _, _, _. split; [done|]. unfold rebind. rewrite decide_True by done. rewrite Hwr. cbn [kind set_writes set_cells].
    rewrite zset_in by (rewrite length_insert; done). cbn [mbind option_bind]. split; [done|].
    unfold view. cbn [appends set_cells set_writes]. rewrite (proj2 (queue_None _ _) Hn1), <-Hcell, Hv. unfold cell, cellAt in *. cbn [kind val set_cells set_writes] in *.
    rewrite zget_insert_eq by (rewrite length_insert; done). cbn [mbind option_bind]. destruct (zget (kind s1) id) as [k'|]; simpl in Hv; [|done].
    destruct (zget (val s1) id) as [w'|]; simpl in *; [|done]. rewrite decide_False by done. case_decide; by simplify_eq.
  - subst k. rewrite decide_False by tauto. eexists _, s1, s1. split; [done|]. split; [done|]. rewrite (r_view _ _ R1), Em. by rewrite <-Hcell, Hv.
Qed.

(** ** Conditions read this environment *)

(** The interface of Cond.v; the expansion of make expressions stays a parameter. *)
#[export] Instance env_CondEnv (count : nat) (expr : text → Environment → text) (commandOnly : ENV → bool) : CondEnv Environment := {|
  env_bool e id := default false (fst <$> bool_ count e id);
  env_string e id := default [] (fst <$> string_ count e id);
  env_has_binding e id := default false (fst <$> hasBindingID count e id);
  env_is_empty e id := default false (fst <$> is_ count e id strEmpty);
  evalIfExpr := expr;
  commandOnlyVar := commandOnly |}.

(** What conditions see is the specification's value. *)
Lemma cond_reads count expr commandOnly s m u id : Rel s m → is_u32 id →
  let E := env_CondEnv count expr commandOnly in
  @env_string _ E (mkEnv s u) id = boundText (sv m !! id) ∧
  @env_has_binding _ E (mkEnv s u) id = bool_decide (is_Some (sv m !! id)) ∧
  @env_bool _ E (mkEnv s u) id = match sv m !! id with Some (_, WStr v) => strIsTruthy v | Some (_, WVfs _) => true | None => false end ∧
  @env_is_empty _ E (mkEnv s u) id = bool_decide (boundText (sv m !! id) = []).
Proof.
  intros R Hid. cbv zeta. unfold env_string, env_has_binding, env_bool, env_is_empty, env_CondEnv.
  destruct (exec_ok count s m u (OString id) R Hid) as (e1 & H1 & _). destruct (exec_ok count s m u (OHas id) R Hid) as (e2 & H2 & _).
  destruct (exec_ok count s m u (OBool id) R Hid) as (e3 & H3 & _). destruct (exec_ok count s m u (OIs id strEmpty) R Hid) as (e4 & H4 & _).
  unfold exec, reads in *. simpl in *.
  destruct (string_ count (mkEnv s u) id) as [[? ?]|], (hasBindingID count (mkEnv s u) id) as [[? ?]|], (bool_ count (mkEnv s u) id) as [[? ?]|],
    (is_ count (mkEnv s u) id strEmpty) as [[? ?]|]; simpl in *; simplify_eq. split_and!; try done.
  destruct (lookup_ok count s m id R Hid) as (k & w & s' & _ & _ & _ & Hf & _). unfold found in Hf. destruct (sv m !! id) as [kw|]; [|done]. destruct Hf as (-> & Hk & Hty).
  pose proof (valueText_typed k w Hk Hty) as Hvt. simpl. destruct w as [v|v].
  - destruct v as [[|c t]|]; [done| |done]. by rewrite !bool_decide_false by done.
  - rewrite bool_decide_false; [done|]. rewrite Hvt. by intros [|].
Qed.


