(* ===== verification/Expansion.v ===== *)
(** * The memo of expansions (expansion_memo.go)

    Expanding a text reads variables of the environment.  The memo keeps, per
    text and purpose, up to eight traces of the variables an expansion read, with
    what it found and what it produced; a later expansion in an environment that
    agrees with a trace takes the words from there.  Expansions nest.  Shown: the
    memo changes neither the words nor the recorded uses of resources, and words
    handed out for retained results are never overwritten. *)

From S2P Require Import Prelude Words Env.
Local Open Scope Z_scope.

Definition expansionMemoDepth : nat := 8.

Record ExpansionStep := mkStep { sid : ENV; skind : EnvKind; sval : Word }.
Record ExpansionEntry := mkEntry { next : Z; esteps : Z; nsteps : Z; ewords : Z; nwords : Z }.

(** [heads] is the map IntMap.v implements; offsets into the arrays, 32 bits in the
    code, are not bounded here. *)
Record ExpansionMemo := mkMemo {
  heads : gmap Z Z; entries : list ExpansionEntry; steps : list ExpansionStep; words : list ANY;
  trace : list ExpansionStep; tracing : bool; poisoned : bool }.

Definition newMemo : ExpansionMemo := mkMemo ∅ [] [] [] [] false false.

Definition expansionKey (id tag : Z) : Z := Mix.splitMix64 id tag.

(** [l[off : off+n]] *)
Definition slice {A} (l : list A) (off n : Z) : option (list A) :=
  if decide (0 <= off ∧ 0 <= n ∧ off + n <= Z.of_nat (length l)) then Some (take (Z.to_nat n) (drop (Z.to_nat off) l)) else None.

(** [copy(l[off : off+n], xs)] of [n] elements. *)
Definition overwrite {A} (l : list A) (off : Z) (xs : list A) : list A :=
  take (Z.to_nat off) l ++ xs ++ drop (Z.to_nat off + length xs) l.

Section memo.
Context (count : nat).

(** [if k == envAbsent { v = 0 }] *)
Definition norm (k : EnvKind) (v : Word) : Word := if decide (k = envAbsent) then WStr None else v.

Fixpoint valid (sts : list ExpansionStep) (e : Environment) : option (bool * Environment) :=
  match sts with
  | [] => Some (true, e)
  | st :: sts =>
      '(k, v, e) ← look count e (sid st);
      if decide (k ≠ skind st ∨ norm k v ≠ sval st) then Some (false, e) else valid sts e
  end.

(** The uses of the variables that were bound are recorded again. *)
Fixpoint replayUses (sts : list ExpansionStep) (e : Environment) : option Environment :=
  match sts with
  | [] => Some e
  | st :: sts => e ← (if decide (skind st ≠ envAbsent) then recordResourceUse e (sid st) else Some e); replayUses sts e
  end.

(** The result of a hit is a window on [words]. *)
Fixpoint find_loop (fuel : nat) (m : ExpansionMemo) (i : Z) (e : Environment) : option (option (Z * Z) * Environment) :=
  if i =? 0 then Some (None, e)
  else
    match fuel with
    | O => None
    | S fuel =>
        en ← zget (entries m) (i - 1);
        sts ← slice (steps m) (esteps en) (nsteps en);
        '(ok, e) ← valid sts e;
        if (ok : bool) then e ← replayUses sts e; Some (Some (ewords en, nwords en), e)
        else find_loop fuel m (next en) e
    end.

Definition find (m : ExpansionMemo) (key : Z) (e : Environment) : option (option (Z * Z) * ExpansionMemo * Environment) :=
  match heads m !! key with
  | None => Some (None, mkMemo (<[key := 0]> (heads m)) (entries m) (steps m) (words m) (trace m) false (poisoned m), e)
  | Some head =>
      '(r, e) ← find_loop (length (entries m)) m head e;
      match r with
      | Some w => Some (Some w, mkMemo (heads m) (entries m) (steps m) (words m) (trace m) false (poisoned m), e)
      | None => Some (None, mkMemo (heads m) (entries m) (steps m) (words m) [] true false, e)
      end
  end.

Definition note (m : ExpansionMemo) (e : Environment) (id : ENV) : option (ExpansionMemo * Environment) :=
  if id =? 0 then Some (mkMemo (heads m) (entries m) (steps m) (words m) (trace m) (tracing m) true, e)
  else
    '(k, v, e) ← look count e id;
    Some (mkMemo (heads m) (entries m) (steps m) (words m) (trace m ++ [mkStep id k (norm k v)]) (tracing m) (poisoned m), e).

Definition cancel (m : ExpansionMemo) : ExpansionMemo := mkMemo (heads m) (entries m) (steps m) (words m) (trace m) false (poisoned m).

(** The number of entries of a key and the last of them with the same sizes. *)
Fixpoint chain_loop (fuel : nat) (m : ExpansionMemo) (nw : nat) (i : Z) (depth : nat) (reuse : Z) : option (nat * Z) :=
  if i =? 0 then Some (depth, reuse)
  else
    match fuel with
    | O => None
    | S fuel =>
        en ← zget (entries m) (i - 1);
        let reuse := if (nsteps en =? Z.of_nat (length (trace m))) && (nwords en =? Z.of_nat nw) then i else reuse in
        chain_loop fuel m nw (next en) (S depth) reuse
    end.

Definition store (m : ExpansionMemo) (key : Z) (over : bool) (ws : list ANY) : option ExpansionMemo :=
  if negb (tracing m) then Some m
  else
    let m := cancel m in
    if poisoned m then Some m
    else
      head ← heads m !! key;
      '(depth, reuse) ← chain_loop (length (entries m)) m (length ws) head 0 0;
      if decide (expansionMemoDepth <= depth)%nat then
        if over && negb (reuse =? 0) then
          en ← zget (entries m) (reuse - 1);
          Some (mkMemo (heads m) (entries m) (overwrite (steps m) (esteps en) (trace m)) (overwrite (words m) (ewords en) ws) (trace m) false (poisoned m))
        else Some m
      else
        let en := mkEntry head (Z.of_nat (length (steps m))) (Z.of_nat (length (trace m))) (Z.of_nat (length (words m))) (Z.of_nat (length ws)) in
        Some (mkMemo (<[key := Z.of_nat (length (entries m)) + 1]> (heads m)) (entries m ++ [en]) (steps m ++ trace m) (words m ++ ws) (trace m) false (poisoned m)).

Definition end_ (m : ExpansionMemo) (key : Z) (ws : list ANY) : option ExpansionMemo := store m key true ws.
Definition endRetained (m : ExpansionMemo) (key : Z) (ws : list ANY) : option ExpansionMemo := store m key false ws.

(** ** Expansions

    What the callers do: an expansion yields words, or reads a variable and goes
    on from what it finds, or runs another memoised expansion, or gives up being kept.  Each read is noted
    while the memo traces ([id] 0, a name that is no variable, poisons the trace). *)

Inductive prog :=
| Ret (ws : list ANY)
| Read (id : ENV) (k : EnvKind → Word → prog)
| Call (id tag : Z) (sub : prog) (k : list ANY → prog)
| Cancel (p : prog).

(** [retained]: the purposes whose words are kept by the caller. *)
Context (retained : Z → bool).

Fixpoint exec (m : ExpansionMemo) (e : Environment) (p : prog) : option (list ANY * ExpansionMemo * Environment) :=
  match p with
  | Ret ws => Some (ws, m, e)
  | Read id k =>
      '(m, e) ← (if tracing m then note m e id else Some (m, e));
      '(kd, v, e) ← look count e id;
      e ← (if decide (kd ≠ envAbsent) then recordResourceUse e id else Some e);
      exec m e (k kd (norm kd v))
  | Call id tag sub k =>
      '(r, m, e) ← find m (expansionKey id tag) e;
      match r with
      | Some (off, n) => ws ← slice (words m) off n; exec m e (k ws)
      | None =>
          '(ws, m, e) ← exec m e sub;
          m ← (if retained tag then endRetained m (expansionKey id tag) ws else end_ m (expansionKey id tag) ws);
          exec m e (k ws)
      end
  | Cancel p => exec (cancel m) e p
  end.

(** The same without a memo, over the values of the variables. *)
Definition readSpec (sp : Spec) (id : ENV) : EnvKind * Word := match sv sp !! id with Some kw => kw | None => (envAbsent, WStr None) end.
Definition useSpec (sp : Spec) (u : option (list STR)) (id : ENV) : option (list STR) :=
  match sv sp !! id with Some _ => specUse sp u id | None => u end.

Fixpoint eval (sp : Spec) (u : option (list STR)) (p : prog) : list ANY * option (list STR) :=
  match p with
  | Ret ws => (ws, u)
  | Read id k => eval sp (useSpec sp u id) (k (readSpec sp id).1 (readSpec sp id).2)
  | Call _ _ sub k => let '(ws, u) := eval sp u sub in eval sp u (k ws)
  | Cancel p => eval sp u p
  end.
End memo.

(** ** Traces *)

(** Going on from a program along noted reads. *)
Fixpoint follow (p : prog) (sts : list ExpansionStep) {struct sts} : option prog :=
  match sts with
  | [] => Some p
  | st :: sts =>
      match p with
      | Read id k => if decide (sid st = id ∧ id ≠ 0) then follow (k (skind st) (sval st)) sts else None
      | _ => None
      end
  end.

Lemma follow_app p sts sts' : follow p (sts ++ sts') = (q ← follow p sts; follow q sts').
Proof. revert p. induction sts as [|st sts IH]; intros p; [done|]. simpl. destruct p; try done. case_decide; [apply IH|done]. Qed.

Definition matches (sp : Spec) (st : ExpansionStep) : Prop := readSpec sp (sid st) = (skind st, sval st).
Definition usesOf (sp : Spec) (u : option (list STR)) (sts : list ExpansionStep) : option (list STR) := foldl (λ u st, useSpec sp u (sid st)) u sts.

Lemma eval_follow sp u p sts q : Forall (matches sp) sts → follow p sts = Some q → eval sp u p = eval sp (usesOf sp u sts) q.
Proof.
  intros Hm. revert u p. induction Hm as [|st sts Hst _ IH]; intros u p; simpl; [by intros [= ->]|].
  destruct p as [|id k| |]; try done. case_decide as E; [|done]. destruct E as [<- _]. intros Hf. simpl. unfold matches in Hst. rewrite Hst. by apply IH.
Qed.

(** ** Windows *)

Lemma slice_Some {A} (l : list A) off n : 0 <= off → 0 <= n → off + n <= Z.of_nat (length l) →
  slice l off n = Some (take (Z.to_nat n) (drop (Z.to_nat off) l)).
Proof. intros. unfold slice. by rewrite decide_True. Qed.

Lemma slice_inv {A} (l : list A) off n x : slice l off n = Some x → 0 <= off ∧ 0 <= n ∧ off + n <= Z.of_nat (length l) ∧ x = take (Z.to_nat n) (drop (Z.to_nat off) l).
Proof. unfold slice. case_decide as H; [|done]. intros [= <-]. destruct H as (? & ? & ?). by split_and!. Qed.

Lemma slice_app {A} (l k : list A) off n x : slice l off n = Some x → slice (l ++ k) off n = Some x.
Proof.
  intros (H1 & H2 & H3 & ->)%slice_inv. rewrite slice_Some by (rewrite ?length_app; lia). f_equal.
  rewrite drop_app_le by lia. apply take_app_le. rewrite length_drop. lia.
Qed.

Lemma slice_end {A} (l k : list A) : slice (l ++ k) (Z.of_nat (length l)) (Z.of_nat (length k)) = Some k.
Proof. rewrite slice_Some by (rewrite ?length_app; lia). by rewrite !Nat2Z.id, drop_app_length, take_ge. Qed.

Lemma length_overwrite {A} (l : list A) off xs : 0 <= off → off + Z.of_nat (length xs) <= Z.of_nat (length l) → length (overwrite l off xs) = length l.
Proof. intros. unfold overwrite. rewrite !length_app, length_take, length_drop. lia. Qed.

Lemma slice_overwrite_same {A} (l : list A) off xs : 0 <= off → off + Z.of_nat (length xs) <= Z.of_nat (length l) →
  slice (overwrite l off xs) off (Z.of_nat (length xs)) = Some xs.
Proof.
  intros H1 H2. rewrite slice_Some by (rewrite ?length_overwrite; lia). f_equal. unfold overwrite.
  rewrite drop_app_length' by (rewrite length_take; lia). by rewrite Nat2Z.id, take_app_length.
Qed.

Lemma slice_overwrite_other {A} (l : list A) off xs off' n' : 0 <= off → off + Z.of_nat (length xs) <= Z.of_nat (length l) →
  off' + n' <= off ∨ off + Z.of_nat (length xs) <= off' → slice (overwrite l off xs) off' n' = slice l off' n'.
Proof.
  intros H1 H2 Hd. unfold slice. rewrite length_overwrite by done. case_decide as H; [|done]. f_equal. apply list_eq. intros i.
  destruct (decide (i < Z.to_nat n')%nat) as [Hi|Hi]; [|by rewrite !lookup_take_ge by lia]. rewrite !lookup_take_lt, !lookup_drop by done. unfold overwrite.
  destruct Hd as [Hd|Hd].
  - rewrite lookup_app_l by (rewrite length_take; lia). by rewrite lookup_take_lt by lia.
  - rewrite lookup_app_r, lookup_app_r by (rewrite ?length_take; lia). rewrite lookup_drop, length_take. f_equal. lia.
Qed.

(** ** Keys *)

Lemma expansionKey_inj id tag id' tag' : is_u32 id → is_u32 tag → is_u32 id' → is_u32 tag' →
  expansionKey id tag = expansionKey id' tag' → id = id' ∧ tag = tag'.
Proof.
  intros H1 H2 H3 H4. assert (Hpack : ∀ p s, is_u32 p → is_u32 s → Z.lor (u64 (Z.shiftl p 32)) s = p * 2 ^ 32 + s).
  { intros p x Hp Hx. rewrite Z.shiftl_mul_pow2, u64_id by lia. symmetry. apply Z.add_nocarry_lor. apply Z.bits_inj'. intros n Hn.
    rewrite Z.land_spec, Z.bits_0. destruct (decide (n < 32)) as [Hlt|Hge].
    - rewrite Z.mul_pow2_bits_low by lia. done.
    - rewrite (Z.bits_above_log2 x n), andb_false_r; [done|lia|]. destruct (decide (x = 0)) as [->|]; [simpl; lia|]. apply Z.log2_lt_pow2; [lia|]. 
      eapply Z.lt_le_trans; [apply Hx|]. apply Z.pow_le_mono_r; lia. }
  unfold expansionKey, Mix.splitMix64. rewrite !Hpack by done. clear Hpack. change (2 ^ 32) with 4294967296 in *. intros Heq.
  apply Mix.mix64_inj in Heq; [lia|change (2 ^ 64) with 18446744073709551616; lia..].
Qed.

Section proofs.
Context (count : nat) (retained : Z → bool).

(** ** Reading the environment *)

Definition settled (e : Environment) (id : ENV) : Prop := id ∉ aid <$> appends (Env.store e).

Lemma read_ok s sp u id : Rel s sp → is_u32 id →
  ∃ k v s', look count (mkEnv s u) id = Some (k, v, mkEnv s' u) ∧ Rel s' sp ∧ readSpec sp id = (k, norm k v) ∧
    (∀ u', (if decide (k ≠ envAbsent) then recordResourceUse (mkEnv s' u') id else Some (mkEnv s' u')) = Some (mkEnv s' (useSpec sp u' id))) ∧
    settled (mkEnv s' u) id ∧ (∀ j, settled (mkEnv s u) j → settled (mkEnv s' u) j).
Proof.
  intros R Hid. destruct (look_ok count s sp u id R Hid) as (k & v & s' & E & R' & Hf & _ & Hn & Hsub). exists k, v, s'.
  split_and!; [done|done| | |done|done].
  - unfold readSpec, found, norm in *. destruct (sv sp !! id) as [kw|]; [destruct Hf as (-> & Hk & _); by rewrite decide_False|]. by subst k.
  - intros u'. unfold useSpec, found in *. destruct (sv sp !! id) as [kw|] eqn:Es.
    + destruct Hf as (-> & Hk & _). rewrite decide_True by done. apply recordUse_ok; [done|done|by rewrite Es].
    + subst k. by rewrite decide_False by tauto.
Qed.

Lemma valid_ok sts s sp u : Rel s sp → Forall (λ st, is_u32 (sid st)) sts →
  ∃ b s', valid count sts (mkEnv s u) = Some (b, mkEnv s' u) ∧ Rel s' sp ∧ (∀ j, settled (mkEnv s u) j → settled (mkEnv s' u) j) ∧
    (b = true → Forall (matches sp) sts ∧ Forall (λ st, settled (mkEnv s' u) (sid st)) sts).
Proof.
  revert s. induction sts as [|st sts IH]; intros s R Hu; cbn [valid].
  { exists true, s. by split_and!. }
  apply Forall_cons in Hu as [Hst Hu]. destruct (read_ok s sp u (sid st) R Hst) as (k & v & s1 & -> & R1 & Hr & _ & Hn & Hsub). cbn [mbind option_bind].
  case_decide as Hne.
  - exists false, s1. by split_and!.
  - destruct (decide (k = skind st)) as [Hk|Hk]; [|destruct Hne; by left]. destruct (decide (norm k v = sval st)) as [Hv|Hv]; [|destruct Hne; by right].
    destruct (IH s1 R1 Hu) as (b & s2 & -> & R2 & Hsub2 & Hb). exists b, s2. split_and!; [done|done|auto|]. intros ->. destruct Hb as [Hm Hs]; [done|].
    split; [constructor; [|done]|constructor; [by apply Hsub2|done]]. unfold matches. by rewrite Hr, Hv, Hk.
Qed.

Lemma replayUses_ok sts s sp u : Rel s sp → Forall (matches sp) sts → Forall (λ st, settled (mkEnv s u) (sid st)) sts →
  replayUses sts (mkEnv s u) = Some (mkEnv s (usesOf sp u sts)).
Proof.
  intros R Hm. revert u. induction Hm as [|st sts Hst Hm IH]; intros u Hs; [done|]. apply Forall_cons in Hs as [Hs1 Hs]. cbn [replayUses].
  assert ((if decide (skind st ≠ envAbsent) then recordResourceUse (mkEnv s u) (sid st) else Some (mkEnv s u)) = Some (mkEnv s (useSpec sp u (sid st)))) as ->.
  { unfold matches, readSpec in Hst. unfold useSpec. destruct (sv sp !! sid st) as [kw|] eqn:E.
    - pose proof (Rel_bound _ _ _ _ R E) as Hb. rewrite Hst in Hb. rewrite decide_True by done. apply recordUse_ok; [done|done|by rewrite E].
    - simplify_eq. by rewrite decide_False by (intros Hx; by apply Hx). }
  cbn [mbind option_bind]. by rewrite IH.
Qed.

(** ** What the memo keeps *)

Context (body : Z → Z → prog).

(** The expansion behind a call is determined by the text and the purpose. *)
Inductive wf_prog : prog → Prop :=
| wf_ret ws : wf_prog (Ret ws)
| wf_read id k : is_u32 id → (∀ kd v, wf_prog (k kd v)) → wf_prog (Read id k)
| wf_call id tag k : is_u32 id → 1 <= tag < 2 ^ 32 → wf_prog (body id tag) → (∀ ws, wf_prog (k ws)) → wf_prog (Call id tag (body id tag) k)
| wf_cancel p : wf_prog p → wf_prog (Cancel p).

Definition keyOf (c : Z * Z) : Z := expansionKey c.1 c.2.
Definition key_ok (c : Z * Z) : Prop := is_u32 c.1 ∧ 1 <= c.2 < 2 ^ 32.

Lemma keyOf_inj c c' : key_ok c → key_ok c' → keyOf c = keyOf c' → c = c'.
Proof.
  destruct c as [a b], c' as [a' b']. intros [Ha Hb] [Ha' Hb'] Hk. cbn [fst snd] in *. unfold keyOf in Hk. cbn [fst snd] in Hk.
  destruct (expansionKey_inj a b a' b') as [-> ->]; [exact Ha|clear Hk; lia|exact Ha'|clear Hk; lia|exact Hk|reflexivity].
Qed.

(** An index of the entries of the key [c]. *)
Definition owned (owner : list (Z * Z)) (c : Z * Z) (i : Z) (below : nat) : Prop := i = 0 ∨ ∃ n, i = Z.of_nat n + 1 ∧ (n < below)%nat ∧ owner !! n = Some c.

Record inv (m : ExpansionMemo) (owner : list (Z * Z)) : Prop := {
  i_len : length owner = length (entries m);
  i_key : ∀ n c, owner !! n = Some c → key_ok c;
  i_next : ∀ n e c, entries m !! n = Some e → owner !! n = Some c → owned owner c (next e) n;
  i_heads : ∀ c h, key_ok c → heads m !! keyOf c = Some h → owned owner c h (length owner);
  i_span : ∀ n e, entries m !! n = Some e → 0 <= esteps e ∧ 0 <= nsteps e ∧ esteps e + nsteps e <= Z.of_nat (length (steps m)) ∧
    0 <= ewords e ∧ 0 <= nwords e ∧ ewords e + nwords e <= Z.of_nat (length (words m));
  i_order : ∀ n n' e e', (n < n')%nat → entries m !! n = Some e → entries m !! n' = Some e' →
    esteps e + nsteps e <= esteps e' ∧ ewords e + nwords e <= ewords e';
  i_entry : ∀ n e c, entries m !! n = Some e → owner !! n = Some c →
    ∃ sts ws, slice (steps m) (esteps e) (nsteps e) = Some sts ∧ slice (words m) (ewords e) (nwords e) = Some ws ∧
      follow (body c.1 c.2) sts = Some (Ret ws) ∧ Forall (λ st, is_u32 (sid st)) sts }.

(** Words of entries of retained keys stay where they are. *)
Definition keeps (m : ExpansionMemo) (owner : list (Z * Z)) (m' : ExpansionMemo) (owner' : list (Z * Z)) : Prop :=
  (∀ key, is_Some (heads m !! key) → is_Some (heads m' !! key)) ∧
  ∀ n e c, entries m !! n = Some e → owner !! n = Some c →
    entries m' !! n = Some e ∧ owner' !! n = Some c ∧ (retained c.2 = true → slice (words m') (ewords e) (nwords e) = slice (words m) (ewords e) (nwords e)).

Lemma keeps_refl m owner : keeps m owner m owner.
Proof. by split. Qed.

Lemma keeps_trans m1 o1 m2 o2 m3 o3 : keeps m1 o1 m2 o2 → keeps m2 o2 m3 o3 → keeps m1 o1 m3 o3.
Proof.
  intros [H1 K1] [H2 K2]. split; [auto|]. intros n e c He Ho. destruct (K1 n e c He Ho) as (He' & Ho' & Hw). destruct (K2 n e c He' Ho') as (He2 & Ho2 & Hw2).
  split_and!; [done..|]. intros Hr. rewrite Hw2, Hw by done. done.
Qed.

Lemma find_loop_ok m owner c fuel h s sp u : inv m owner → Rel s sp → owned owner c h fuel →
  ∃ r s' u', find_loop count fuel m h (mkEnv s u) = Some (r, mkEnv s' u') ∧ Rel s' sp ∧
    match r with
    | None => u' = u
    | Some (off, n) => ∃ i e ws, entries m !! i = Some e ∧ owner !! i = Some c ∧ off = ewords e ∧ n = nwords e ∧
        slice (words m) off n = Some ws ∧ eval sp u (body c.1 c.2) = (ws, u')
    end.
Proof.
  intros I. revert h s. induction fuel as [|fuel IH]; intros h s R Ho; cbn [find_loop].
  { destruct Ho as [->|(n & _ & ? & _)]; [|lia]. exists None, s, u. done. }
  destruct Ho as [->|(n & -> & Hn & Hown)]; [exists None, s, u; done|]. rewrite (proj2 (Z.eqb_neq _ 0)) by lia.
  replace (Z.of_nat n + 1 - 1) with (Z.of_nat n) by lia. rewrite zget_nat.
  destruct (lookup_lt_is_Some_2 (entries m) n) as [e He]; [rewrite <-(i_len _ _ I); by eapply lookup_lt_Some|]. rewrite He. cbn [mbind option_bind].
  destruct (i_entry _ _ I n e c He Hown) as (sts & ws & Hsts & Hws & Hfol & Hids). rewrite Hsts. cbn [mbind option_bind].
  destruct (valid_ok sts s sp u R Hids) as (b & s1 & -> & R1 & _ & Hb). cbn [mbind option_bind]. destruct b.
  - destruct (Hb eq_refl) as [Hm Hset]. rewrite (replayUses_ok sts s1 sp u R1 Hm Hset). cbn [mbind option_bind]. eexists _, s1, _. split; [done|]. split; [done|].
    exists n, e, ws. split_and!; [done..|]. by rewrite (eval_follow sp u _ _ _ Hm Hfol).
  - apply IH; [done|]. destruct (i_next _ _ I n e c He Hown) as [->|(n' & -> & Hn' & Hown')]; [by left|]. right. exists n'. split_and!; [done|lia|done].
Qed.

Lemma chain_loop_ok m owner c nw fuel h depth reuse : inv m owner → owned owner c h fuel →
  ∃ depth' reuse', chain_loop fuel m nw h depth reuse = Some (depth', reuse') ∧
    (reuse' = reuse ∨ ∃ n e, reuse' = Z.of_nat n + 1 ∧ owner !! n = Some c ∧ entries m !! n = Some e ∧
      nsteps e = Z.of_nat (length (trace m)) ∧ nwords e = Z.of_nat nw).
Proof.
  intros I. revert h depth reuse. induction fuel as [|fuel IH]; intros h depth reuse Ho; cbn [chain_loop].
  { destruct Ho as [->|(n & _ & ? & _)]; [|lia]. simpl. eauto. }
  destruct Ho as [->|(n & -> & Hn & Hown)]; [simpl; eauto|]. rewrite (proj2 (Z.eqb_neq _ 0)) by lia.
  replace (Z.of_nat n + 1 - 1) with (Z.of_nat n) by lia. rewrite zget_nat.
  destruct (lookup_lt_is_Some_2 (entries m) n) as [e He]; [rewrite <-(i_len _ _ I); by eapply lookup_lt_Some|]. rewrite He. cbn [mbind option_bind].
  set (reuse1 := if _ && _ then _ else _). destruct (IH (next e) (S depth) reuse1) as (d' & r' & -> & Hr).
  { destruct (i_next _ _ I n e c He Hown) as [->|(n' & -> & Hn' & Hown')]; [by left|]. right. exists n'. split_and!; [done|lia|done]. }
  exists d', r'. split; [done|]. destruct Hr as [->|Hr]; [|by right]. unfold reuse1.
  destruct (Z.eqb_spec (nsteps e) (Z.of_nat (length (trace m)))); [|by left]. destruct (Z.eqb_spec (nwords e) (Z.of_nat nw)); [|by left]. right. by exists n, e.
Qed.

(** The trace of the expansion under way leads from its start to [p]. *)
Definition on_trace (m : ExpansionMemo) (c : Z * Z) (p : prog) : Prop :=
  tracing m = true → key_ok c ∧ is_Some (heads m !! keyOf c) ∧
    (poisoned m = false → follow (body c.1 c.2) (trace m) = Some p ∧ Forall (λ st, is_u32 (sid st)) (trace m)).

Definition overwritten (m : ExpansionMemo) (e : ExpansionEntry) (ws : list ANY) : ExpansionMemo :=
  mkMemo (heads m) (entries m) (overwrite (steps m) (esteps e) (trace m)) (overwrite (words m) (ewords e) ws) (trace m) false (poisoned m).

Lemma overwrite_entry m owner c n e ws : inv m owner → entries m !! n = Some e → owner !! n = Some c →
  nsteps e = Z.of_nat (length (trace m)) → nwords e = Z.of_nat (length ws) →
  follow (body c.1 c.2) (trace m) = Some (Ret ws) → Forall (λ st, is_u32 (sid st)) (trace m) → retained c.2 = false →
  inv (overwritten m e ws) owner ∧ keeps m owner (overwritten m e ws) owner.
Proof.
  intros I He Hown Hns Hnw Hfol Hids Hret. pose proof (i_span _ _ I n e He) as (S1 & S2 & S3 & W1 & W2 & W3).
  assert (Hother : ∀ n' e', entries m !! n' = Some e' → n' ≠ n →
    slice (overwrite (steps m) (esteps e) (trace m)) (esteps e') (nsteps e') = slice (steps m) (esteps e') (nsteps e') ∧
    slice (overwrite (words m) (ewords e) ws) (ewords e') (nwords e') = slice (words m) (ewords e') (nwords e')).
  { intros n' e' He' Hne. assert (Hd : (esteps e' + nsteps e' <= esteps e ∧ ewords e' + nwords e' <= ewords e) ∨ (esteps e + nsteps e <= esteps e' ∧ ewords e + nwords e <= ewords e')).
    { destruct (decide (n' < n)%nat); [left; by eapply (i_order _ _ I n' n)|right; eapply (i_order _ _ I n n'); [lia|done..]]. }
    split; apply slice_overwrite_other; lia. }
  split.
  - destruct I as [Hlen Hkey Hnext Hheads Hspan Hord Hent]. split; cbn [overwritten heads entries steps words trace]; try done.
    + intros n' e' He'. rewrite !length_overwrite by lia. by apply (Hspan n').
    + intros n' e' c' He' Ho'. destruct (decide (n' = n)) as [->|Hne].
      * simplify_eq. exists (trace m), ws. rewrite Hns, Hnw, !slice_overwrite_same by lia. done.
      * destruct (Hother n' e' He' Hne) as [-> ->]. by apply (Hent n').
  - split; [done|]. intros n' e' c' He' Ho'. split_and!; [done..|]. intros Hr'. cbn [overwritten words]. destruct (decide (n' = n)) as [->|Hne]; [simplify_eq; congruence|].
    by apply (Hother n').
Qed.

Definition extended (m : ExpansionMemo) (c : Z * Z) (head : Z) (ws : list ANY) : ExpansionMemo :=
  mkMemo (<[keyOf c := Z.of_nat (length (entries m)) + 1]> (heads m))
    (entries m ++ [mkEntry head (Z.of_nat (length (steps m))) (Z.of_nat (length (trace m))) (Z.of_nat (length (words m))) (Z.of_nat (length ws))])
    (steps m ++ trace m) (words m ++ ws) (trace m) false (poisoned m).

Lemma extend_entry m owner c head ws : inv m owner → key_ok c → heads m !! keyOf c = Some head →
  follow (body c.1 c.2) (trace m) = Some (Ret ws) → Forall (λ st, is_u32 (sid st)) (trace m) →
  inv (extended m c head ws) (owner ++ [c]) ∧ keeps m owner (extended m c head ws) (owner ++ [c]).
Proof.
  intros I Hc Hhead Hfol Hids. pose proof I as [Hlen Hkey Hnext Hheads Hspan Hord Hent].
  assert (Hown : ∀ c' i b, owned owner c' i b → owned (owner ++ [c]) c' i b).
  { intros c' i b [->|(n & -> & ? & Hn)]; [by left|]. right. exists n. split_and!; [done..|]. by apply lookup_app_l_Some. }
  split.
  - split; cbn [extended heads entries steps words trace].
    + rewrite !length_app. simpl. lia.
    + intros n c' [Hn|[_ Hn]]%lookup_app_Some; [by eapply Hkey|]. by apply list_lookup_singleton_Some in Hn as [_ <-].
    + intros n e c' [He|[Hge He]]%lookup_app_Some Ho.
      * rewrite lookup_app_l in Ho by (rewrite Hlen; by eapply lookup_lt_Some). by apply Hown, (Hnext n).
      * apply list_lookup_singleton_Some in He as [? <-]. rewrite lookup_app_r in Ho by lia. apply list_lookup_singleton_Some in Ho as [_ <-]. cbn [next].
        destruct (Hheads c head Hc Hhead) as [->|(n' & -> & Hlt & Ho')]; [by left|]. right. exists n'. split_and!; [done|lia|by apply lookup_app_l_Some].
    + intros c' h Hc' Hh. destruct (decide (keyOf c' = keyOf c)) as [Hk|Hk].
      * rewrite Hk, lookup_insert_eq in Hh. simplify_eq. apply keyOf_inj in Hk as ->; [|done..]. right. exists (length (entries m)).
        split; [done|]. rewrite length_app, lookup_app_r, Hlen, Nat.sub_diag by lia. simpl. split; [lia|done].
      * rewrite lookup_insert_ne in Hh by done. destruct (Hheads c' h Hc' Hh) as [->|(n' & -> & Hlt & Ho')]; [by left|]. right. exists n'.
        rewrite length_app. split_and!; [done|lia|by apply lookup_app_l_Some].
    + intros n e [He|[_ He]]%lookup_app_Some; rewrite !length_app; [specialize (Hspan n e He); lia|].
      apply list_lookup_singleton_Some in He as [_ <-]. simpl. lia.
    + intros n n' e e' Hlt [He|[Hge He]]%lookup_app_Some [He'|[Hge' He']]%lookup_app_Some; [by eapply (Hord n n')| |apply lookup_lt_Some in He'; lia|].
      * apply list_lookup_singleton_Some in He' as [_ <-]. simpl. specialize (Hspan n e He). lia.
      * apply list_lookup_singleton_Some in He as [? _]. apply list_lookup_singleton_Some in He' as [? _]. lia.
    + intros n e c' [He|[Hge He]]%lookup_app_Some Ho.
      * rewrite lookup_app_l in Ho by (rewrite Hlen; by eapply lookup_lt_Some). destruct (Hent n e c' He Ho) as (sts & ws' & ? & ? & ?).
        exists sts, ws'. split; [by apply slice_app|]. split; [by apply slice_app|done].
      * apply list_lookup_singleton_Some in He as [? <-]. rewrite lookup_app_r in Ho by lia. apply list_lookup_singleton_Some in Ho as [_ <-].
        exists (trace m), ws. cbn [esteps nsteps ewords nwords]. rewrite !slice_end. done.
  - split.
    + intros key Hk. cbn [extended heads]. destruct (decide (keyOf c = key)) as [<-|Hne]; [rewrite lookup_insert_eq; by eexists|]. by rewrite lookup_insert_ne.
    + intros n e c' He Ho. cbn [extended entries words]. split_and!; [by apply lookup_app_l_Some..|]. intros _.
      destruct (Hent n e c' He Ho) as (sts & ws' & _ & Hw & _). rewrite Hw. by apply slice_app.
Qed.

Lemma inv_state m owner h es st w t tr po : heads m = h → entries m = es → steps m = st → words m = w → inv m owner → inv (mkMemo h es st w t tr po) owner.
Proof. intros <- <- <- <- []. by split. Qed.

Lemma memo_store_ok m owner c ws : inv m owner → on_trace m c (Ret ws) → 
  ∃ m' owner', store m (keyOf c) (negb (retained c.2)) ws = Some m' ∧ inv m' owner' ∧ keeps m owner m' owner' ∧ tracing m' = false.
Proof.
  intros I Ht. unfold store. destruct (tracing m) eqn:Et; simpl; [|exists m, owner; split_and!; [done..|apply keeps_refl|done]].
  destruct (Ht Et) as (Hc & [head Hhead] & Hfol). assert (Ic : inv (cancel m) owner) by (by apply (inv_state m)).
  assert (Kc : keeps m owner (cancel m) owner) by (by split). destruct (poisoned m) eqn:Ep.
  { exists (cancel m), owner. by split_and!. }
  destruct (Hfol eq_refl) as [Hf Hids]. rewrite Hhead. cbn [mbind option_bind].
  destruct (chain_loop_ok (cancel m) owner c (length ws) (length (entries m)) head 0 0 Ic) as (depth & reuse & -> & Hreuse).
  { rewrite <-(i_len _ _ I). by apply (i_heads _ _ I). }
  cbn [mbind option_bind]. case_decide.
  - destruct Hreuse as [->|(n & e & -> & Hown & He & Hns & Hnw)].
    { rewrite andb_false_r. exists (cancel m), owner. by split_and!. }
    rewrite (proj2 (Z.eqb_neq _ 0)) by lia. replace (Z.of_nat n + 1 - 1) with (Z.of_nat n) by lia.
    destruct (retained c.2) eqn:Er; simpl; [exists (cancel m), owner; by split_and!|]. rewrite zget_nat. cbn [cancel entries] in He. rewrite He. cbn [mbind option_bind].
    destruct (overwrite_entry (cancel m) owner c n e ws Ic He Hown Hns Hnw Hf Hids Er) as [I' K']. eexists (overwritten (cancel m) e ws), owner.
    split; [by unfold overwritten; simpl; rewrite Ep|]. split; [done|]. split; [by eapply keeps_trans|done].
  - destruct (extend_entry (cancel m) owner c head ws Ic Hc Hhead Hf Hids) as [I' K']. eexists (extended (cancel m) c head ws), (owner ++ [c]).
    split; [by unfold extended; simpl; rewrite Ep|]. split; [done|]. split; [by eapply keeps_trans|done].
Qed.

Lemma off_trace m c p : tracing m = false → on_trace m c p.
Proof. intros E E'. congruence. Qed.

Lemma note_ok m owner c id k s sp u : inv m owner → Rel s sp → is_u32 id → on_trace m c (Read id k) →
  ∃ m' s', (if tracing m then note count m (mkEnv s u) id else Some (m, mkEnv s u)) = Some (m', mkEnv s' u) ∧ Rel s' sp ∧ inv m' owner ∧
    keeps m owner m' owner ∧ tracing m' = tracing m ∧ on_trace m' c (k (readSpec sp id).1 (readSpec sp id).2).
Proof.
  intros I R Hid Ht. destruct (tracing m) eqn:Et.
  2: { exists m, s. split_and!; [done..|apply keeps_refl|done|by apply off_trace]. }
  unfold note. destruct (Ht Et) as (Hc & Hh & Hf). destruct (Z.eqb_spec id 0) as [Hz|Hz].
  - eexists _, s. split; [done|]. split; [done|]. split; [by apply (inv_state m)|]. split; [done|]. split; [done|]. intros _. by split_and!.
  - destruct (read_ok s sp u id R Hid) as (kd & v & s' & -> & R' & Hr & _). cbn [mbind option_bind]. eexists _, s'. split; [done|]. split; [done|].
    split; [by apply (inv_state m)|]. split; [done|]. split; [done|]. intros _. split; [done|]. split; [done|]. intros Hp. destruct (Hf Hp) as [Hfol Hids].
    cbn [trace]. rewrite follow_app, Hfol. cbn [mbind option_bind follow sid]. rewrite decide_True by done. rewrite Hr. split; [done|].
    apply Forall_app. split; [done|]. by constructor.
Qed.

Lemma find_ok m owner c s sp u : inv m owner → Rel s sp → key_ok c →
  ∃ r m' s' u', find count m (keyOf c) (mkEnv s u) = Some (r, m', mkEnv s' u') ∧ Rel s' sp ∧ inv m' owner ∧ keeps m owner m' owner ∧
    match r with
    | None => u' = u ∧ on_trace m' c (body c.1 c.2)
    | Some (off, n) => tracing m' = false ∧ ∃ i e ws, entries m' !! i = Some e ∧ owner !! i = Some c ∧ off = ewords e ∧ n = nwords e ∧
        slice (words m') off n = Some ws ∧ eval sp u (body c.1 c.2) = (ws, u')
    end.
Proof.
  intros I R Hc. unfold find. destruct (heads m !! keyOf c) as [head|] eqn:Eh.
  - destruct (find_loop_ok m owner c (length (entries m)) head s sp u I R) as (r & s' & u' & -> & R' & Hr).
    { rewrite <-(i_len _ _ I). by apply (i_heads _ _ I). }
    cbn [mbind option_bind]. destruct r as [[off n]|].
    + eexists _, _, s', u'. split; [done|]. split; [done|]. split; [by apply (inv_state m)|]. by split.
    + eexists _, _, s', u'. split; [done|]. split; [done|]. split; [by apply (inv_state m)|]. split; [done|]. split; [done|].
      intros _. split; [done|]. split; [by eexists|done].
  - eexists _, _, s, u. split; [done|]. split; [done|]. split; [|split; [|split; [done|by apply off_trace]]].
    + destruct I as [H1 H2 H3 H4 H5 H6 H7]. split; try done. intros c' h Hc' Hh. cbn [heads] in Hh. destruct (decide (keyOf c = keyOf c')) as [E|E].
      * rewrite E, lookup_insert_eq in Hh. simplify_eq. by left.
      * rewrite lookup_insert_ne in Hh by done. by apply H4.
    + split; [|done]. intros key Hk. cbn [heads]. destruct (decide (keyOf c = key)) as [<-|Hne]; [rewrite lookup_insert_eq; by eexists|]. by rewrite lookup_insert_ne.
Qed.

Definition runs (p : prog) : Prop := ∀ m owner c s sp u, inv m owner → Rel s sp → on_trace m c p →
  ∃ ws m' owner' s' u', exec count retained m (mkEnv s u) p = Some (ws, m', mkEnv s' u') ∧ eval sp u p = (ws, u') ∧ Rel s' sp ∧ inv m' owner' ∧
    keeps m owner m' owner' ∧ (tracing m' = true → tracing m = true) ∧ on_trace m' c (Ret ws).

Lemma runs_read id k : is_u32 id → (∀ kd v, runs (k kd v)) → runs (Read id k).
Proof.
  intros Hid IH m owner c s sp u I R Ht. cbn [exec eval]. destruct (note_ok m owner c id k s sp u I R Hid Ht) as (m1 & s1 & -> & R1 & I1 & K1 & T1 & Ht1).
  cbn [mbind option_bind]. destruct (read_ok s1 sp u id R1 Hid) as (kd & v & s2 & -> & R2 & Hr & Huse & _). cbn [mbind option_bind]. rewrite Huse. cbn [mbind option_bind].
  rewrite Hr in *. cbn [fst snd] in *.
  destruct (IH kd (norm kd v) m1 owner c s2 sp (useSpec sp u id) I1 R2 Ht1) as (ws & m' & owner' & s' & u' & -> & Hev & R' & I' & K' & T' & Ht').
  exists ws, m', owner', s', u'. rewrite T1 in T'. split_and!; [done..|by eapply keeps_trans|done|done].
Qed.

Lemma runs_call id tag k : is_u32 id → 1 <= tag < 2 ^ 32 → runs (body id tag) → (∀ ws, runs (k ws)) → runs (Call id tag (body id tag) k).
Proof.
  intros Hid Htag IH1 IH2 m owner c s sp u I R Ht. cbn [exec eval]. change (expansionKey id tag) with (keyOf (id, tag)).
  destruct (find_ok m owner (id, tag) s sp u I R) as (r & m1 & s1 & u1 & -> & R1 & I1 & K1 & Hr); [done|]. cbn [mbind option_bind].
  assert (Hgo : ∀ ws m2 owner2 s2 u2, inv m2 owner2 → keeps m owner m2 owner2 → Rel s2 sp → tracing m2 = false →
    ∃ ws' m' owner' s' u', exec count retained m2 (mkEnv s2 u2) (k ws) = Some (ws', m', mkEnv s' u') ∧ eval sp u2 (k ws) = (ws', u') ∧ Rel s' sp ∧
      inv m' owner' ∧ keeps m owner m' owner' ∧ (tracing m' = true → tracing m = true) ∧ on_trace m' c (Ret ws')).
  { intros ws m2 owner2 s2 u2 I2 K2 R2 T2.
    destruct (IH2 ws m2 owner2 c s2 sp u2 I2 R2 ltac:(by apply off_trace)) as (ws' & m' & owner' & s' & u' & E & Hev & R' & I' & K' & T' & Ht').
    exists ws', m', owner', s', u'. rewrite T2 in T'. split_and!; [done..|by eapply keeps_trans|by intros ?%T'|done]. }
  destruct r as [[off n]|].
  - destruct Hr as (T1 & i & e & ws & _ & _ & _ & _ & Hws & Hev). rewrite Hws. cbn [mbind option_bind]. cbn [fst snd] in Hev. rewrite Hev. by eapply Hgo.
  - destruct Hr as [-> Ht1]. cbn [fst snd] in Ht1.
    destruct (IH1 m1 owner (id, tag) s1 sp u I1 R1 Ht1) as (ws & m2 & owner2 & s2 & u2 & -> & -> & R2 & I2 & K2 & _ & Ht2). cbn [mbind option_bind].
    destruct (memo_store_ok m2 owner2 (id, tag) ws I2 Ht2) as (m3 & owner3 & E3 & I3 & K3 & T3). cbn [snd] in E3.
    assert ((if retained tag then endRetained m2 (keyOf (id, tag)) ws else end_ m2 (keyOf (id, tag)) ws) = Some m3) as ->.
    { rewrite <-E3. unfold endRetained, end_. by destruct (retained tag). }
    cbn [mbind option_bind]. apply (Hgo ws m3 owner3 s2 u2); [done| |done|done]. eapply keeps_trans; [done|]. by eapply keeps_trans.
Qed.

Lemma runs_cancel p : runs p → runs (Cancel p).
Proof.
  intros IH m owner c s sp u I R Ht. cbn [exec eval].
  destruct (IH (cancel m) owner c s sp u) as (ws & m' & owner' & s' & u' & E & Hev & R' & I' & K' & T' & Ht'); [by apply (inv_state m)|done|by apply off_trace|].
  exists ws, m', owner', s', u'. split_and!; [done..|by intros ?%T'|done].
Qed.

Lemma runs_ok p : wf_prog p → runs p.
Proof.
  induction 1 as [ws|id k Hid _ IH|id tag k Hid Htag _ IH1 _ IH2|p _ IH].
  - intros m owner c s sp u I R Ht. exists ws, m, owner, s, u. split_and!; [done..|apply keeps_refl|done|done].
  - by apply runs_read.
  - by apply runs_call.
  - by apply runs_cancel.
Qed.

(** Expansions one after the other, each in its environment. *)
Fixpoint expandAll (m : ExpansionMemo) (reqs : list (Environment * prog)) : option (list (list ANY * option (list STR)) * ExpansionMemo) :=
  match reqs with
  | [] => Some ([], m)
  | (e, p) :: reqs => '(ws, m, e) ← exec count retained m e p; '(rs, m) ← expandAll m reqs; Some ((ws, resourceUses e) :: rs, m)
  end.

Lemma expandAll_ok reqs sps m owner : inv m owner → tracing m = false → Forall2 (λ r sp, Rel (Env.store r.1) sp ∧ wf_prog r.2) reqs sps →
  ∃ m' owner', expandAll m reqs = Some (zip_with (λ r sp, eval sp (resourceUses r.1) r.2) reqs sps, m') ∧ inv m' owner' ∧ keeps m owner m' owner'.
Proof.
  intros I T Hr. revert m owner I T. induction Hr as [|[[s u] p] sp reqs sps [R Hp] Hr IH]; intros m owner I T; cbn [expandAll zip_with].
  { exists m, owner. split_and!; [done..|apply keeps_refl]. }
  destruct (runs_ok p Hp m owner (0, 0) s sp u I R ltac:(by apply off_trace)) as (ws & m1 & owner1 & s1 & u1 & -> & Hev & R1 & I1 & K1 & T1 & _). cbn [mbind option_bind].
  destruct (IH m1 owner1 I1) as (m' & owner' & -> & I' & K').
  { destruct (tracing m1); [|done]. by rewrite T in T1; specialize (T1 eq_refl). }
  cbn [mbind option_bind fst snd resourceUses]. exists m', owner'. rewrite Hev. split_and!; [done..|by eapply keeps_trans].
Qed.

Lemma inv_new : inv newMemo [].
Proof. by split. Qed.
End proofs.

(** C14: expansions that run one after the other, each in its own environment,
    nested and cancelled ones among them, produce with the memo exactly the words
    and record exactly the uses of resources that they do without it, provided that an
    expansion is determined by its text and purpose and by what it finds in the
    variables it reads.  The memo never faults. *)
Theorem expansion_memo_transparent count retained body reqs sps :
  Forall2 (λ r sp, Rel (Env.store r.1) sp ∧ wf_prog body r.2) reqs sps →
  ∃ m, expandAll count retained newMemo reqs = Some (zip_with (λ r sp, eval sp (resourceUses r.1) r.2) reqs sps, m).
Proof.
  intros Hr. destruct (expandAll_ok count retained body reqs sps newMemo [] (inv_new body) eq_refl Hr) as (m & _ & E & _). by exists m.
Qed.

(** A text that reads the variable 3 twice. *)
Definition sampleBody (id tag : Z) : prog := Read 3 (λ k v, Read 3 (λ k' v', Ret (match v with WStr s => [AStr s; AStr (Some [id])] | WVfs f => [AVfs f] end))).
Definition sampleReqs : list (Environment * prog) :=
  (λ s, (mkEnv s None, Call 5 1 (sampleBody 5 1) Ret)) <$> [moduleStore; moduleStore; moduleStore; emptyStore].

Lemma sample_wf : wf_prog sampleBody (Call 5 1 (sampleBody 5 1) Ret).
Proof. constructor; [lia|lia| |constructor]. constructor; [lia|]. intros k v. constructor; [lia|]. constructor. Qed.

Lemma expansion_memo_transparent_witness :
  ∃ m, expandAll 4 (λ _, false) newMemo sampleReqs = Some (replicate 3 ([AStr (Some [97]); AStr (Some [5])], None) ++ [([AStr None; AStr (Some [5])], None)], m).
Proof.
  pose (a := mkSpec {[3 := (envStr, WStr (Some [97]))]} ∅ ∅). pose (z := mkSpec ∅ ∅ ∅).
  destruct (expansion_memo_transparent 4 (λ _, false) sampleBody sampleReqs [a; a; a; z]) as [m Hm].
  { repeat constructor; try apply moduleStore_ok; try apply Rel_empty; try lia. }
  exists m. rewrite Hm. reflexivity.
Defined.

(** The window of words that a hit hands out for a retained purpose keeps its
    words whatever expansions run afterwards. *)
Theorem retained_words_stay count retained body reqs1 sps1 rs1 m1 id tag e sp off n m2 e2 reqs2 sps2 rs2 m3 :
  Forall2 (λ r sp, Rel (Env.store r.1) sp ∧ wf_prog body r.2) reqs1 sps1 → expandAll count retained newMemo reqs1 = Some (rs1, m1) →
  is_u32 id → 1 <= tag < 2 ^ 32 → retained tag = true → Rel (Env.store e) sp →
  find count m1 (expansionKey id tag) e = Some (Some (off, n), m2, e2) →
  Forall2 (λ r sp, Rel (Env.store r.1) sp ∧ wf_prog body r.2) reqs2 sps2 → expandAll count retained m2 reqs2 = Some (rs2, m3) →
  ∃ ws, slice (words m2) off n = Some ws ∧ slice (words m3) off n = Some ws.
Proof.
  intros Hr1 E1 Hid Htag Hret R Hf Hr2 E2. destruct (expandAll_ok count retained body reqs1 sps1 newMemo [] (inv_new body) eq_refl Hr1) as (m1' & owner1 & E1' & I1 & _).
  rewrite E1 in E1'. simplify_eq. destruct e as [s u].
  destruct (find_ok count retained body m1' owner1 (id, tag) s sp u I1 R) as (r & m2' & s2 & u2 & Hf' & R2 & I2 & _ & Hr); [done|].
  change (keyOf (id, tag)) with (expansionKey id tag) in Hf'. rewrite Hf in Hf'. simplify_eq.
  destruct Hr as (T2 & i & en & ws & He & Ho & -> & -> & Hws & _). exists ws. split; [done|].
  destruct (expandAll_ok count retained body reqs2 sps2 m2' owner1 I2 T2 Hr2) as (m3' & owner3 & E3 & _ & K3). rewrite E2 in E3. simplify_eq.
  destruct K3 as [_ K3]. destruct (K3 i en (id, tag) He Ho) as (_ & _ & Hk). by rewrite Hk.
Qed.

Lemma retained_words_stay_witness :
  ∃ m1 m2 m3 off n rs1 rs2 e2, expandAll 4 (λ _, true) newMemo sampleReqs = Some (rs1, m1) ∧
    find 4 m1 (expansionKey 5 1) (mkEnv moduleStore None) = Some (Some (off, n), m2, e2) ∧ expandAll 4 (λ _, true) m2 sampleReqs = Some (rs2, m3) ∧
    slice (words m3) off n = Some [AStr (Some [97]); AStr (Some [5])].
Proof.
  pose (a := mkSpec {[3 := (envStr, WStr (Some [97]))]} ∅ ∅). pose (z := mkSpec ∅ ∅ ∅).
  assert (Hr : Forall2 (λ r sp, Rel (Env.store r.1) sp ∧ wf_prog sampleBody r.2) sampleReqs [a; a; a; z]).
  { repeat constructor; try apply moduleStore_ok; try apply Rel_empty; try lia. }
  destruct (expandAll 4 (λ _, true) newMemo sampleReqs) as [[rs1 m1]|] eqn:E1; [|vm_compute in E1; discriminate].
  destruct (find 4 m1 (expansionKey 5 1) (mkEnv moduleStore None)) as [[[[[off n]|] m2] e2]|] eqn:E2;
    [|vm_compute in E1; injection E1 as <- <-; vm_compute in E2; discriminate..].
  destruct (expandAll 4 (λ _, true) m2 sampleReqs) as [[rs2 m3]|] eqn:E3;
    [|vm_compute in E1; injection E1 as <- <-; vm_compute in E2; injection E2 as <- <- <- <-; vm_compute in E3; discriminate].
  destruct (retained_words_stay 4 (λ _, true) sampleBody sampleReqs [a; a; a; z] rs1 m1 5 1 (mkEnv moduleStore None) a off n m2 e2 sampleReqs [a; a; a; z] rs2 m3
    Hr E1 ltac:(lia) ltac:(lia) eq_refl moduleStore_ok E2 Hr E3) as (ws & Hw2 & Hw3).
  exists m1, m2, m3, off, n, rs1, rs2, e2. split_and!; [done..|]. rewrite Hw3, <-Hw2.
  vm_compute in E1; injection E1 as <- <-; vm_compute in E2; injection E2 as <- <- <- <-; vm_compute; reflexivity.
Defined.
