(* ===== verification/MacroString.v ===== *)
(** * Substitution of variables in texts (macro_string.go)

    References [$NAME], [${mod=value;mod:NAME.suf}] and, in make expressions,
    [${NAME}] are found in a text and replaced by the values of variables, with the
    modifiers applied; whole texts are substituted again until nothing changes.
    A cursor is the rest of the text.  The values of the environment are a
    parameter (Env.v shows that reading them changes nothing), as are MD5 and the
    variables of the process; letters change case as in ASCII.  The tracking of
    text ranges that came from files is left out ([policy.track] is nil). *)

From S2P Require Import Prelude Tags Env.
Local Open Scope string_scope.
Local Open Scope list_scope.
Local Open Scope Z_scope.

Abbreviation text := (list Z) (only parsing).

(** ** Modifiers *)

(** In the order of the constants; [modUnknown] is the bit after them. *)
Definition macroModifiers : list string :=
  ["input"; "tool"; "output_include"; "tmp"; "pre"; "suf"; "ext"; "stdout"; "cwd"; "env"; "noext"; "noauto"; "hide"; "tobindir"; "notransformbuilddir";
   "norel"; "join"; "rootrel"; "rootdir"; "quo"; "bq"; "qe"; "bksl"; "addincl"; "defext"; "noallext"; "nopath"; "toupper"; "tolower"; "dirallowed";
   "cmdsep"; "add_to_outs"; "kv"; "result"; "lastext"; "main"; "requirements"; "modlocal"; "comma"; "tags_in"; "tags_out"; "resource"; "context";
   "global"; "tared"; "hash"; "induced_deps"; "to_namespace"; "skip_by_ext"; "from_input"].

Fixpoint bitOf (l : list string) (name : text) (i : Z) : Z :=
  match l with
  | [] => Z.shiftl 1 i
  | n :: l => if decide (bs n = name) then Z.shiftl 1 i else bitOf l name (i + 1)
  end.
Definition macroModifierNames (name : text) : Z := bitOf macroModifiers name 0.
Definition mod_ (n : string) : Z := macroModifierNames (bs n).
Definition hasFlag (flags : Z) (n : string) : bool := negb (Z.land flags (mod_ n) =? 0).

Record macroRef := mkRef {
  name : text; flags : Z; raw : bool; process : bool;
  prefix_ : text; suffix_ : text; join_ : text; ext : text; skipExt : text }.
Definition noRef : macroRef := mkRef [] 0 false false [] [] [] [] [].

Definition setMod (ref : macroRef) (n value : text) : macroRef :=
  let flag := macroModifierNames n in
  let '(mkRef nm fl rw pr pre suf jn ex sk) := ref in
  let fl' := Z.lor fl flag in
  if flag =? mod_ "pre" then mkRef nm fl' rw pr value suf jn ex sk
  else if (flag =? mod_ "suf") || (flag =? mod_ "defext") then mkRef nm fl' rw pr pre value jn ex sk
  else if flag =? mod_ "join" then mkRef nm fl' rw pr pre suf value ex sk
  else if flag =? mod_ "ext" then mkRef nm fl' rw pr pre suf jn value sk
  else if flag =? mod_ "skip_by_ext" then mkRef nm fl' rw pr pre suf jn ex value
  else if (flag =? mod_ "toupper") && hasFlag fl "tolower" then ref
  else if (flag =? mod_ "tolower") && hasFlag fl "toupper" then ref
  else mkRef nm fl' rw pr pre suf jn ex sk.

(** ** Scanning *)

Definition isMacroAlnum (b : Z) : bool := (97 <=? b) && (b <=? 122) || (65 <=? b) && (b <=? 90) || (48 <=? b) && (b <=? 57).
Definition isConfIdentByte (b : Z) (first : bool) : bool :=
  (97 <=? b) && (b <=? 122) || (65 <=? b) && (b <=? 90) || (b =? 95) || negb first && (48 <=? b) && (b <=? 57).

(** The longest prefix of bytes with a property, and the rest. *)
Fixpoint spanWhile (f : Z → bool) (s : text) : text * text :=
  match s with
  | [] => ([], [])
  | b :: s' => if f b then let '(a, r) := spanWhile f s' in (b :: a, r) else ([], s)
  end.

(** The rest after the closing quote. *)
Fixpoint macroString (s : text) : option text :=
  match s with
  | [] => None
  | b :: s =>
      if b =? 34 then Some s
      else if b =? 92 then match s with [] => None | _ :: s => macroString s end
      else macroString s
  end.

Definition cmdIdentLen (s : text) : nat :=
  match s with
  | [] => 0
  | b :: s => if (b =? 95) || (97 <=? b) && (b <=? 122) || (65 <=? b) && (b <=? 90)
              then S (length (spanWhile (λ c, (c =? 95) || isMacroAlnum c) s).1) else 0
  end.

(** The loop of [confVarNameLen], on what follows. *)
Fixpoint confVarLoop (fuel : nat) (s : text) : nat :=
  match fuel, s with
  | S fuel, b :: s' =>
      if isConfIdentByte b false then S (confVarLoop fuel s')
      else
        let dashes := length (spanWhile (λ c, c =? 45) s).1 in
        match drop dashes s with
        | c :: _ => if (dashes =? 0)%nat || negb (isConfIdentByte c false) then 0 else (dashes + confVarLoop fuel (drop dashes s))%nat
        | [] => 0
        end
  | _, _ => 0
  end.
Definition confVarNameLen (s : text) : nat :=
  match s with
  | [] => 0
  | b :: s => if isConfIdentByte b true then S (confVarLoop (length s) s) else 0
  end.

(** The value of a modifier and the rest, which starts with [;] or [:] or is empty.
    [None]: the cursor leaves the text and the slice faults; [Some None]: no reference. *)
Fixpoint modValue (fuel : nat) (s : text) : option (option (text * text)) :=
  match fuel, s with
  | _, [] => Some (Some ([], []))
  | S fuel, b :: s' =>
      let cons_all (a : text) (r : option (option (text * text))) := match r with Some (Some (v, rest)) => Some (Some (a ++ v, rest)) | r => r end in
      if (b =? 59) || (b =? 58) then Some (Some ([], s))
      else if b =? 92 then match s' with [] => None | c :: s' => cons_all [b; c] (modValue fuel s') end
      else if b =? 34 then
        match macroString s' with
        | None => Some None
        | Some rest => cons_all (take (length s - length rest) s) (modValue fuel rest)
        end
      else cons_all [b] (modValue fuel s')
  | O, _ => Some (Some ([], s))
  end.

(** The modifiers: the reference with them and the cursor of the name. *)
Fixpoint modLoop (fuel : nat) (ref : macroRef) (j k : text) : option (option (macroRef * text)) :=
  match fuel with
  | O => Some None
  | S fuel =>
      let '(n, k1) := spanWhile (λ b, (97 <=? b) && (b <=? 122) || (b =? 95)) k in
      if decide (n = []) then Some (Some (ref, j))
      else
        v ← (match k1 with 61 :: k2 => modValue (length k2) k2 | _ => Some (Some ([], k1)) end);
        match v with
        | None => Some None
        | Some (value, 59 :: k4) => modLoop fuel (setMod ref n value) j k4
        | Some (value, 58 :: k4) => Some (Some (setMod ref n value, k4))
        | Some _ => Some (Some (ref, j))
        end
  end.

(** [.a..b]: the rest after the dotted suffix. *)
Fixpoint dotsLoop (fuel : nat) (s : text) : option text :=
  match fuel, s with
  | S fuel, 46 :: _ =>
      let s := (spanWhile (λ b, b =? 46) s).2 in
      let '(a, r) := spanWhile isMacroAlnum s in
      if decide (a = []) then None else dotsLoop fuel r
  | _, _ => Some s
  end.

Definition setName (ref : macroRef) (n : text) (rw : bool) : macroRef :=
  mkRef n (flags ref) rw (process ref) (prefix_ ref) (suffix_ ref) (join_ ref) (ext ref) (skipExt ref).

(** On the text after the dollar sign: the reference and the rest. *)
Definition scanMacroRef (command : bool) (s : text) : option (option (macroRef * text)) :=
  let nameLen := if command then cmdIdentLen else confVarNameLen in
  match s with
  | [] => Some None
  | 123 :: s =>
      r ← modLoop (S (length s)) noRef s s;
      match r with
      | None => Some None
      | Some (ref, j) =>
          match (match j with
                 | 34 :: j => match macroString j with None => None | Some r => Some (setName ref (take (length j - length r - 1) j) true, r) end
                 | _ => let n := nameLen j in if (n =? 0)%nat then None else Some (setName ref (take n j) (raw ref), drop n j)
                 end) with
          | None => Some None
          | Some (ref, j) =>
              match (match j with
                     | 46 :: _ => match dotsLoop (length j) j with None => None | Some r => Some (setMod ref (bs "suf") (take (length j - length r) j), r) end
                     | _ => Some (ref, j)
                     end) with
              | Some (ref, 125 :: rest) => Some (Some (ref, rest))
              | _ => Some None
              end
          end
      end
  | _ => let n := nameLen s in if (n =? 0)%nat then Some None else Some (Some (setName noRef (take n s) false, drop n s))
  end.

Definition scanMakefileRef (s : text) : option (macroRef * text) :=
  let '(macro, s) := spanWhile isMacroAlnum s in
  match s with
  | 123 :: s =>
      let '(n, s) := spanWhile (λ b, negb ((b =? 36) || (b =? 123) || (b =? 125))) s in
      match s with
      | 125 :: rest =>
          if decide (n = []) then None
          else if decide (macro = []) then Some (setName noRef n false, rest)
          else if decide (macro = bs "ENV") then Some (mkRef n 0 false true [] [] [] [] [], rest)
          else Some (setName noRef n true, rest)
      | _ => None
      end
  | _ => None
  end.

(** ** Values *)

Record macroValues := mkValues { vlist : list ANY; single : text; vfs : option VFS; one : bool }.
Definition count (v : macroValues) : nat := if one v then 1 else length (vlist v).
Definition at_ (v : macroValues) (i : nat) : option text :=
  match vfs v with
  | Some f => Some (vfs_string f)
  | None => if one v then Some (single v) else any_string <$> vlist v !! i
  end.

Record substPolicy := mkPolicy {
  makefile : bool; command : bool; emptyUnknown : bool; keepModifiers : bool;
  literal : option (text → bool); reserved : option (text → bool) }.
Record confMacroBinding := mkBinding { bname : text; bvalues : list ANY; bound : bool }.

(** [strings.LastIndexByte] *)
Fixpoint LastIndexByte_from (s : text) (c : Z) (i best : Z) : Z :=
  match s with
  | [] => best
  | b :: s => LastIndexByte_from s c (i + 1) (if b =? c then i else best)
  end.
Definition LastIndexByte (s : text) (c : Z) : Z := LastIndexByte_from s c 0 (-1).
Fixpoint IndexByte_from (s : text) (c : Z) (i : Z) : Z :=
  match s with
  | [] => -1
  | b :: s => if b =? c then i else IndexByte_from s c (i + 1)
  end.
Definition IndexByte (s : text) (c : Z) : Z := IndexByte_from s c 0.

Definition HasSuffix (s t : text) : bool := bool_decide (t `suffix_of` s).
Definition upper (c : Z) : Z := if (97 <=? c) && (c <=? 122) then c - 32 else c.

Definition zdrop (n : Z) (s : text) : text := drop (Z.to_nat n) s.
Definition ztake (n : Z) (s : text) : text := take (Z.to_nat n) s.

Definition applyMacroMods (ref : macroRef) (value prefix suffix : text) : option text :=
  let fl := flags ref in
  if hasFlag fl "comma" then Some (bs ",")
  else if hasFlag fl "kv" || hasFlag fl "requirements" then None
  else if bool_decide (ext ref ≠ []) && negb (HasSuffix value (ext ref)) then None
  else if bool_decide (skipExt ref ≠ []) && HasSuffix value (skipExt ref) then None
  else
    let value :=
      if hasFlag fl "noext" || hasFlag fl "noallext" then
        let slash := Z.max (LastIndexByte value 47) 0 in
        let dot := LastIndexByte value 46 in
        let dot := if hasFlag fl "noallext" then let d := IndexByte (zdrop slash value) 46 in if 0 <=? d then d + slash else d else dot in
        if slash <=? dot then ztake dot value else value
      else value in
    let value :=
      if hasFlag fl "lastext" then
        let slash := LastIndexByte value 47 in
        let dot := LastIndexByte value 46 in
        if (0 <=? dot) && (slash <? dot) then zdrop (dot + 1) value else []
      else value in
    let value := if hasFlag fl "nopath" then zdrop (LastIndexByte value 47 + 1) value else value in
    let suffix :=
      if hasFlag fl "defext" then
        let dot := LastIndexByte value 46 in
        let slash := LastIndexByte value 47 in
        if (0 <=? dot) && (slash <? dot) then [] else suffix
      else suffix in
    let value := prefix ++ value ++ suffix in
    let value := if hasFlag fl "toupper" then upper <$> value else value in
    Some (if hasFlag fl "tolower" then Cond.lower <$> value else value).

Definition nextMacroSpecial (s : text) : nat :=
  let d := length (spanWhile (λ b, negb (b =? 36)) s).1 in
  let b := length (spanWhile (λ b, negb (b =? 92)) (take d s)).1 in
  if decide (b < d)%nat then b else d.

Definition hexDigit (d : Z) : Z := if d <? 10 then 48 + d else 87 + d.
Definition hexOf (sum : text) : text := mjoin ((λ b, [hexDigit (Z.shiftr b 4); hexDigit (Z.land b 15)]) <$> sum).

(** [text[a:b]] *)
Definition sub (t : text) (a b : nat) : text := take (b - a) (drop a t).

Section subst.
Context (getenv md5 : text → text) (locals : list confMacroBinding) (env : option (text → option (text * option VFS))) (policy : substPolicy).

(** The values of a name, and whether the environment was asked: then the
    result is not constant.  [env] is [None] where there is no environment. *)
Definition macroLookup (n : text) (constant : bool) : option macroValues * bool :=
  match List.find (λ b, bool_decide (bname b = n) && bound b) locals with
  | Some b => (Some (mkValues (bvalues b) [] None false), constant)
  | None =>
      match env with
      | None => (None, constant)
      | Some look =>
          (match look n with
           | Some (value, f) => Some (mkValues [] value f true)
           | None => None
           end, false)
      end
  end.

(** The values joined, each with its modifiers. *)
Fixpoint valueLoop (ref : macroRef) (v : macroValues) (prefix suffix sep : text) (ks : list nat) (first : bool) (out : text) : option text :=
  match ks with
  | [] => Some out
  | k :: ks =>
      match (if (flags ref =? 0) && bool_decide (ext ref = []) && bool_decide (skipExt ref = []) then vfs v else None) with
      | Some f => valueLoop ref v prefix suffix sep ks false (appendANYText (out ++ prefix) (AVfs f) ++ suffix)
      | None =>
          value ← at_ v k;
          match applyMacroMods ref value prefix suffix with
          | None => valueLoop ref v prefix suffix sep ks first out
          | Some value => valueLoop ref v prefix suffix sep ks false ((if first then out else out ++ sep) ++ value)
          end
      end
  end.

(** [substMacroDeeply], which expands the values of modifiers. *)
Context (deeply : text → bool → res (text * bool)).

Definition deeplyIf (t : text) (constant : bool) : res (text * bool) :=
  if bool_decide (36 ∈ t) then deeply t constant else Ok (t, constant).

(** What is appended to [out] for a reference. *)
Definition insertion (ref : macroRef) (v : macroValues) (out : text) (constant : bool) : res (text * bool) :=
  '(prefix, constant) ← deeplyIf (prefix_ ref) constant;
  '(suffix, constant) ← deeplyIf (suffix_ ref) constant;
  let sep := if hasFlag (flags ref) "join" then join_ ref else [32] in
  let mark := length out in
  let quoted := hasFlag (flags ref) "quo" in
  out ← lift (valueLoop ref v prefix suffix sep (seq 0 (count v)) true (if quoted then out ++ [34] else out));
  let out := if quoted then out ++ [34] else out in
  Ok (if hasFlag (flags ref) "hash" then take mark out ++ hexOf (md5 (drop mark out)) else out, constant).

(** A reference that was scanned: it stays as it is, or becomes values ([None]: nothing). *)
Inductive decision := Stay | Replace (v : option macroValues).

Definition decideRef (ref : macroRef) (constant : bool) : decision * bool :=
  if raw ref || keepModifiers policy && negb (flags ref =? 0) then (Stay, constant)
  else if process ref then (Replace (Some (mkValues [] (getenv (name ref)) None true)), constant)
  else if match literal policy with Some f => f (name ref) | None => false end then (Stay, constant)
  else
    let '(v, constant) := macroLookup (name ref) constant in
    match v with
    | Some _ => (Replace v, constant)
    | None => if negb (emptyUnknown policy) || match reserved policy with Some f => f (name ref) | None => false end then (Stay, constant) else (Replace None, constant)
    end.

Definition scanRef (s : text) : option (option (macroRef * text)) :=
  if makefile policy then Some (scanMakefileRef s) else scanMacroRef (command policy) s.

Fixpoint substLoop (fuel : nat) (t out : text) (i copied : nat) (constant : bool) : res (text * bool * bool) :=
  if decide (length t <= i)%nat then
    if decide (copied = 0%nat) then Ok (out, false, constant) else Ok (out ++ drop copied t, true, constant)
  else
    match fuel with
    | O => NoFuel
    | S fuel =>
        match t !! i with
        | Some 92 =>
            if makefile policy && bool_decide (i + 1 < length t)%nat then substLoop fuel t (out ++ sub t copied i) (i + 2) (i + 1) constant
            else substLoop fuel t out (i + 2) copied constant
        | Some 36 =>
            r ← lift (scanRef (drop (i + 1) t));
            match r with
            | None => substLoop fuel t out (i + 1) copied constant
            | Some (ref, rest) =>
                let e := (length t - length rest)%nat in
                let '(dec, constant) := decideRef ref constant in
                match dec with
                | Stay => substLoop fuel t out e copied constant
                | Replace v =>
                    let out := out ++ sub t copied i in
                    match v with
                    | Some v => if hasFlag (flags ref) "hide" then substLoop fuel t out e e constant
                                else '(out, constant) ← insertion ref v out constant; substLoop fuel t out e e constant
                    | None => substLoop fuel t out e e constant
                    end
                end
            end
        | _ => substLoop fuel t out (i + nextMacroSpecial (drop i t)) copied constant
        end
    end.

Definition substMacroAppend (out t : text) (constant : bool) : res (text * bool * bool) := substLoop (length t) t out 0 0 constant.
Definition substMacro (t : text) (constant : bool) : res (text * bool) :=
  '(out, changed, constant) ← substMacroAppend [] t constant; Ok (if (changed : bool) then out else t, constant).

(** The loop of [substMacroDeeply]; [n] substitutions are left. *)
Fixpoint iterate (n : nat) (t : text) (constant : bool) : res (text * bool) :=
  '(next, constant) ← substMacro t constant;
  if bool_decide (next = t) || bool_decide (36 ∉ next) then Ok (next, constant)
  else match n with O => Throw | S n => iterate n next constant end.

(** The text is in one of two buffers or outside; the output goes to buffer [k].
    [None]: a buffer is written while it is read. *)
Inductive source := Outside (t : text) | InBuf (k : bool).
Definition readFrom (bufs : bool → text) (s : source) (k : bool) : option text :=
  match s with Outside t => Some t | InBuf k' => if Bool.eqb k k' then None else Some (bufs k') end.
Definition textOf (bufs : bool → text) (s : source) : text := match s with Outside t => t | InBuf k => bufs k end.

Fixpoint iterateInto (n : nat) (k : bool) (bufs : bool → text) (s : source) (constant : bool) : res (source * (bool → text) * bool) :=
  t ← lift (readFrom bufs s k);
  '(next, changed, constant) ← substMacroAppend [] t constant;
  let bufs := λ j, if Bool.eqb j k then next else bufs j in
  if negb changed then Ok (s, bufs, constant)
  else if makefile policy || bool_decide (36 ∉ next) || bool_decide (next = t) then Ok (InBuf k, bufs, constant)
  else match n with O => Throw | S n => iterateInto n (negb k) bufs (InBuf k) constant end.

Definition plainText (t : text) : bool := bool_decide (36 ∉ t) && (negb (makefile policy) || bool_decide (92 ∉ t)).

Definition substMacroDeeplyInto (t : text) (bufs : bool → text) (constant : bool) : res (source * (bool → text) * bool) :=
  if plainText t then Ok (Outside t, bufs, constant) else iterateInto 127 true bufs (Outside t) constant.
End subst.

(** The fuel is the depth of modifiers inside values of modifiers. *)
Fixpoint substMacroDeeply (getenv md5 : text → text) (locals : list confMacroBinding) (env : option (text → option (text * option VFS))) (policy : substPolicy)
    (fuel : nat) (t : text) (constant : bool) : res (text * bool) :=
  if plainText policy t then Ok (t, constant)
  else
    match fuel with
    | O => NoFuel
    | S fuel =>
        let deeply := substMacroDeeply getenv md5 locals env policy fuel in
        if makefile policy then substMacro getenv md5 locals env policy deeply t constant
        else iterate getenv md5 locals env policy deeply 127 t constant
    end.

(** ** One pass, piece by piece *)

Lemma spanWhile_app f s : let '(a, r) := spanWhile f s in s = a ++ r ∧ Forall (λ b, f b = true) a.
Proof.
  induction s as [|b s IH]; simpl; [by split|]. destruct (f b) eqn:E; [|by split]. destruct (spanWhile f s) as [a r]. destruct IH as [-> Hf]. split; [done|by constructor].
Qed.

Lemma spanWhile_length f s : length s = (length (spanWhile f s).1 + length (spanWhile f s).2)%nat.
Proof. pose proof (spanWhile_app f s) as H. destruct (spanWhile f s) as [a r]. destruct H as [-> _]. simpl. apply length_app. Qed.

Lemma macroString_suffix n s r : (length s <= n)%nat → macroString s = Some r → r `suffix_of` s ∧ (length r < length s)%nat.
Proof.
  revert s. induction n as [|n IH]; intros [|b s] Hn; simpl in *; try done; [lia|]. destruct (b =? 34).
  - intros [= ->]. split; [by exists [b]|lia].
  - destruct (b =? 92).
    + destruct s as [|c s]; [done|]. intros Hr. destruct (IH s ltac:(simpl in Hn; lia) Hr) as [[k ->] Hl]. split; [by exists (b :: c :: k)|]. simpl in *. lia.
    + intros Hr. destruct (IH s ltac:(lia) Hr) as [[k ->] Hl]. split; [by exists (b :: k)|lia].
Qed.

Lemma suffix_drop (s : text) n : drop n s `suffix_of` s.
Proof. exists (take n s). by rewrite take_drop. Qed.

Lemma suffix_span f (s : text) : (spanWhile f s).2 `suffix_of` s.
Proof. pose proof (spanWhile_app f s) as H. destruct (spanWhile f s) as [a r]. destruct H as [-> _]. by exists a. Qed.

Lemma modValue_suffix fuel s v r : modValue fuel s = Some (Some (v, r)) → r `suffix_of` s.
Proof.
  revert s v r. induction fuel as [|fuel IH]; intros [|b s] v r; simpl; try (by intros [= _ <-]).
  destruct ((b =? 59) || (b =? 58)); [by intros [= _ <-]|]. destruct (b =? 92).
  { destruct s as [|c s]; [done|]. destruct (modValue fuel s) as [[[v' r']|]|] eqn:E; try done. intros [= _ <-]. apply IH in E as [k ->]. by exists (b :: c :: k). }
  destruct (b =? 34).
  - destruct (macroString s) as [rest|] eqn:Em; [|done]. destruct (modValue fuel rest) as [[[v' r']|]|] eqn:E; try done. intros [= _ <-].
    apply IH in E as [k ->]. destruct (macroString_suffix (length s) s _ ltac:(lia) Em) as [[k' ->] _]. exists (b :: k' ++ k). simpl. by rewrite app_assoc.
  - destruct (modValue fuel s) as [[[v' r']|]|] eqn:E; try done. intros [= _ <-]. apply IH in E as [k ->]. by exists (b :: k).
Qed.

Lemma modLoop_suffix fuel ref j k ref' j' : modLoop fuel ref j k = Some (Some (ref', j')) → j' = j ∨ j' `suffix_of` k.
Proof.
  revert ref k. induction fuel as [|fuel IH]; intros ref k; cbn [modLoop]; [done|].
  pose proof (suffix_span (λ b, (97 <=? b) && (b <=? 122) || (b =? 95)) k) as Hs. destruct (spanWhile _ k) as [n k1]. simpl in Hs.
  case_decide; [intros [= _ ->]; by left|].
  assert (Hv : ∀ v, (match k1 with 61 :: k2 => modValue (length k2) k2 | _ => Some (Some ([], k1)) end) = Some (Some v) → v.2 `suffix_of` k1).
  { intros [v r] Hv. simpl. destruct k1 as [|c k2]; [by simplify_eq|].
    destruct (decide (c = 61)) as [->|Hne]; [apply modValue_suffix in Hv as [l ->]; by exists (61 :: l)|].
    assert (Some (Some ([], c :: k2)) = Some (Some (v, r))) as Heq; [|by simplify_eq]. rewrite <-Hv. repeat (done || case_match). }
  destruct (match k1 with 61 :: k2 => _ | _ => _ end) as [v|] eqn:Ev; [|done]. cbn [mbind option_bind]. destruct v as [[value r]|]; [|done]. specialize (Hv _ eq_refl). simpl in Hv.
  destruct r as [|c r]; [intros [= _ ->]; by left|]. destruct (decide (c = 59)) as [->|H59].
  { intros [->|Hj]%IH; [by left|]. right. etrans; [exact Hj|]. etrans; [|exact Hs]. etrans; [|exact Hv]. by exists [59]. }
  destruct (decide (c = 58)) as [->|H58].
  { intros [= _ <-]. right. etrans; [|exact Hs]. etrans; [|exact Hv]. by exists [58]. }
  intros Heq. left. revert Heq. repeat case_match; try done; by intros [= _ ->].
Qed.

Lemma dotsLoop_suffix fuel s r : dotsLoop fuel s = Some r → r `suffix_of` s.
Proof.
  revert s. induction fuel as [|fuel IH]; intros [|b s]; cbn [dotsLoop]; try (by intros [= <-]).
  destruct (decide (b = 46)) as [->|Hne]; [|intros H; assert (r = b :: s) as ->; [revert H; repeat case_match; congruence|done]].
  pose proof (suffix_span (λ b, b =? 46) (46 :: s)) as H1. set (s1 := (spanWhile (λ b, b =? 46) (46 :: s)).2) in *.
  pose proof (suffix_span isMacroAlnum s1) as H2. destruct (spanWhile isMacroAlnum s1) as [a r']. case_decide; [done|]. intros H3%IH. etrans; [exact H3|]. by etrans.
Qed.

Lemma scanMakefileRef_suffix s ref r : scanMakefileRef s = Some (ref, r) → r `suffix_of` s.
Proof.
  unfold scanMakefileRef. pose proof (suffix_span isMacroAlnum s) as H1. destruct (spanWhile isMacroAlnum s) as [macro s1]. simpl in H1.
  destruct s1 as [|c s1]; [done|]. destruct (decide (c = 123)) as [->|Hc]; [|intros H; exfalso; revert H; repeat case_match; congruence].
  pose proof (suffix_span (λ b, negb ((b =? 36) || (b =? 123) || (b =? 125))) s1) as H2. destruct (spanWhile _ s1) as [n s2]. simpl in H2.
  destruct s2 as [|d s2]; [done|]. destruct (decide (d = 125)) as [->|Hd]; [|intros H; exfalso; revert H; repeat case_match; congruence].
  intros H. assert (r = s2) as ->. { revert H. repeat case_decide; congruence. }
  etrans; [|exact H1]. etrans; [|by exists [123]]. etrans; [|exact H2]. by exists [125].
Qed.

Lemma scanMacroRef_suffix command s ref r : scanMacroRef command s = Some (Some (ref, r)) → r `suffix_of` s.
Proof.
  unfold scanMacroRef. set (nameLen := if command then cmdIdentLen else confVarNameLen). destruct s as [|b s]; [done|].
  destruct (decide (b = 123)) as [->|Hb].
  2: { intros H. assert (Hn : r = drop (nameLen (b :: s)) (b :: s)).
       { revert H. repeat case_match; simplify_eq; intros; by simplify_eq. }
       subst r. apply suffix_drop. }
  destruct (modLoop (S (length s)) noRef s s) as [[[ref1 j]|]|] eqn:Em; cbn [mbind option_bind]; [|done..].
  assert (Hj : j `suffix_of` 123 :: s).
  { etrans; [|by exists [123]]. apply modLoop_suffix in Em as [->|?]; done. }
  clear Em. set (nm := match j with 34 :: j => _ | _ => _ end).
  assert (Hnm : ∀ ref2 j2, nm = Some (ref2, j2) → j2 `suffix_of` j).
  { intros ref2 j2. unfold nm. destruct j as [|c j'].
    - destruct (nameLen [] =? 0)%nat; [done|]. intros [= _ <-]. apply suffix_drop.
    - destruct (decide (c = 34)) as [->|Hc].
      + destruct (macroString j') as [r'|] eqn:E; [|done]. intros [= _ <-]. destruct (macroString_suffix (length j') j' r' ltac:(lia) E) as [[k ->] _]. by exists (34 :: k).
      + intros H. assert (Hd : j2 = drop (nameLen (c :: j')) (c :: j')); [|rewrite Hd; apply suffix_drop].
        revert H. repeat case_match; simplify_eq; intros; by simplify_eq. }
  destruct nm as [[ref2 j2]|]; [|done]. specialize (Hnm _ _ eq_refl).
  set (dots := match j2 with 46 :: _ => _ | _ => _ end).
  assert (Hd : ∀ ref3 j3, dots = Some (ref3, j3) → j3 `suffix_of` j2).
  { intros ref3 j3. unfold dots. destruct j2 as [|c j2']; [by intros [= _ <-]|]. destruct (decide (c = 46)) as [->|Hc].
    - destruct (dotsLoop _ _) as [r'|] eqn:E; [|done]. intros [= _ <-]. by eapply dotsLoop_suffix.
    - intros H. assert (j3 = c :: j2') as ->; [|done]. revert H. repeat case_match; congruence. }
  destruct dots as [[ref3 j3]|]; [|done]. specialize (Hd _ _ eq_refl). intros H. assert (Hr : j3 = 125 :: r). { revert H. repeat case_match; congruence. }
  subst j3. etrans; [|exact Hj]. etrans; [|exact Hnm]. etrans; [|exact Hd]. by exists [125].
Qed.

Section onepass.
Context (getenv md5 : text → text) (locals : list confMacroBinding) (env : option (text → option (text * option VFS))) (policy : substPolicy).
Context (deeply : text → bool → res (text * bool)).
Implicit Types (out t : text).

Lemma scanRef_suffix s ref r : scanRef policy s = Some (Some (ref, r)) → r `suffix_of` s.
Proof using Type.
  unfold scanRef. destruct (makefile policy); [|apply scanMacroRef_suffix]. intros H. apply (scanMakefileRef_suffix s ref). congruence.
Qed.

(** The text of a reference, by itself. *)
Abbreviation insertion := (insertion md5 deeply).
Abbreviation decideRef := (decideRef getenv locals env policy).
Abbreviation substLoop := (substLoop getenv md5 locals env policy deeply).

Lemma valueLoop_app ref v prefix suffix sep ks first out :
  valueLoop ref v prefix suffix sep ks first out = app out <$> valueLoop ref v prefix suffix sep ks first [].
Proof using Type.
  revert first out. induction ks as [|k ks IH]; intros first out; cbn [valueLoop]; [simpl; by rewrite app_nil_r|].
  destruct (if (flags ref =? 0) && bool_decide (ext ref = []) && bool_decide (skipExt ref = []) then vfs v else None) as [f|].
  - rewrite (IH false (appendANYText (out ++ prefix) (AVfs f) ++ suffix)), (IH false (appendANYText ([] ++ prefix) (AVfs f) ++ suffix)).
    destruct (valueLoop ref v prefix suffix sep ks false []); [|done]. cbn [fmap option_fmap option_map]. f_equal. rewrite !appendANYText_eq, <-!app_assoc. done.
  - destruct (at_ v k) as [value|]; [|done]. cbn [mbind option_bind]. destruct (applyMacroMods ref value prefix suffix) as [value'|]; [|apply IH].
    rewrite (IH false ((if first then out else out ++ sep) ++ value')), (IH false ((if first then [] else [] ++ sep) ++ value')).
    destruct (valueLoop ref v prefix suffix sep ks false []); [|done]. simpl. f_equal. destruct first; simpl; by rewrite <-?app_assoc.
Qed.

Lemma insertion_app ref v out c : insertion ref v out c = ('(r, c) ← insertion ref v [] c; Ok (out ++ r, c)).
Proof using Type.
  unfold MacroString.insertion. destruct (deeplyIf deeply (prefix_ ref) c) as [[prefix c1]| |]; [|done..]. cbn [mbind res_bind].
  destruct (deeplyIf deeply (suffix_ ref) c1) as [[suffix c2]| |]; [|done..]. cbn [mbind res_bind]. cbv zeta.
  set (sep := if hasFlag (flags ref) "join" then join_ ref else [32]). destruct (hasFlag (flags ref) "quo").
  - rewrite (valueLoop_app _ _ _ _ _ _ _ (out ++ [34])), (valueLoop_app _ _ _ _ _ _ _ ([] ++ [34])). destruct (valueLoop _ _ _ _ _ _ _ []) as [w|]; [|done].
    simpl. f_equal. f_equal. destruct (hasFlag (flags ref) "hash"); [|by rewrite <-!app_assoc]. rewrite <-!app_assoc. by rewrite take_app_length, drop_app_length.
  - rewrite (valueLoop_app _ _ _ _ _ _ _ out). destruct (valueLoop _ _ _ _ _ _ _ []) as [w|]; [|done].
    simpl. f_equal. f_equal. destruct (hasFlag (flags ref) "hash"); [|done]. by rewrite take_app_length, drop_app_length.
Qed.

(** A piece that was kept and a piece that was replaced, before the rest. *)
Definition copyPiece (a : text) (x : text * bool * bool) : text * bool * bool := let '(r, ch, c) := x in (a ++ r, ch, c).
Definition changePiece (a : text) (x : text * bool * bool) : text * bool * bool := let '(r, _, c) := x in (a ++ r, true, c).

(** The reference: each piece of the text in turn, with a flag that tells whether
    a piece was replaced. *)
Fixpoint render (fuel : nat) (s : text) (c : bool) : res (text * bool * bool) :=
  match s with
  | [] => Ok ([], false, c)
  | b :: s' =>
      match fuel with
      | O => NoFuel
      | S fuel =>
          let copy (a rest : text) c := copyPiece a <$> render fuel rest c in
          let change (a rest : text) c := changePiece a <$> render fuel rest c in
          if b =? 92 then
            match s' with
            | [] => copy [b] [] c
            | x :: s'' => if makefile policy then change [x] s'' c else copy [b; x] s'' c
            end
          else if b =? 36 then
            r ← lift (scanRef policy s');
            match r with
            | None => copy [b] s' c
            | Some (ref, rest) =>
                let '(dec, c) := decideRef ref c in
                match dec with
                | Stay => copy (take (length s - length rest) s) rest c
                | Replace None => change [] rest c
                | Replace (Some v) => if hasFlag (flags ref) "hide" then change [] rest c else '(w, c) ← insertion ref v [] c; change w rest c
                end
            end
          else copy [b] s' c
      end
  end.

(** More fuel than the text is long makes no difference. *)
Lemma render_fuel fuel fuel' s c : (length s <= fuel)%nat → (length s <= fuel')%nat → render fuel s c = render fuel' s c.
Proof using Type.
  revert fuel' s c. induction fuel as [|fuel IH]; intros [|fuel'] [|b s] c Hf Hf'; simpl in Hf, Hf'; try done; try lia. cbn [render].
  assert (Hr : ∀ r c, (length r <= length s)%nat → render fuel r c = render fuel' r c) by (intros; apply IH; lia).
  destruct (b =? 92). { destruct s as [|x s]; [by rewrite Hr|]. simpl in Hr. destruct (makefile policy); by rewrite Hr by lia. }
  destruct (b =? 36); [|by rewrite Hr]. destruct (lift (scanRef policy s)) as [[[ref rest]|]| |] eqn:E; cbn [mbind res_bind]; [|by rewrite Hr|done..].
  assert (Hs : rest `suffix_of` s).
  { apply scanRef_suffix with ref. destruct (scanRef policy s); simpl in E; congruence. }
  apply suffix_length in Hs. destruct (decideRef ref c) as [dec c']. destruct dec as [|[v|]]; try by rewrite Hr.
  destruct (hasFlag (flags ref) "hide"); [by rewrite Hr|]. destruct (insertion ref v [] c') as [[w c'']| |]; cbn [mbind res_bind]; [|done..]. by rewrite Hr.
Qed.

(** Bytes that are neither a dollar sign nor a backslash are copied. *)
Definition plain (b : Z) : bool := negb (b =? 36) && negb (b =? 92).

Lemma render_plain fuel a s c : Forall (λ b, plain b = true) a → (length (a ++ s) <= fuel)%nat →
  render fuel (a ++ s) c = copyPiece a <$> render fuel s c.
Proof using Type.
  intros Ha. revert fuel. induction Ha as [|b a Hb Ha IH]; intros fuel Hf; [simpl; by destruct (render fuel s c) as [[[??]?]| |]|].
  destruct fuel as [|fuel]; [simpl in Hf; lia|]. unfold plain in Hb. simpl in Hf. rewrite length_app in Hf. rewrite (render_fuel (S fuel) fuel s) by lia.
  cbn [app render]. destruct (b =? 92); [by rewrite andb_false_r in Hb|]. destruct (b =? 36); [done|].
  rewrite IH by (rewrite length_app; lia). by destruct (render fuel s c) as [[[??]?]| |].
Qed.

Lemma spanWhile_max f s : match (spanWhile f s).2 with [] => True | b :: _ => f b = false end.
Proof using Type. induction s as [|b s IH]; simpl; [done|]. destruct (f b) eqn:E; [|done]. by destruct (spanWhile f s). Qed.

Lemma nextMacroSpecial_plain s : Forall (λ b, plain b = true) (take (nextMacroSpecial s) s).
Proof using Type.
  unfold nextMacroSpecial. pose proof (spanWhile_app (λ b, negb (b =? 36)) s) as H1. destruct (spanWhile _ s) as [a r]. destruct H1 as [-> Ha]. simpl.
  rewrite take_app_length. pose proof (spanWhile_app (λ b, negb (b =? 92)) a) as H2. pose proof (spanWhile_max (λ b, negb (b =? 92)) a) as H3.
  destruct (spanWhile _ a) as [a1 a2]. destruct H2 as [-> Ha1]. simpl in *. apply Forall_app in Ha as [Ha2 _]. case_decide as Hd.
  - rewrite <-app_assoc, take_app_length. rewrite Forall_forall in *. intros b Hb. unfold plain. by rewrite Ha1, Ha2.
  - assert (a2 = []) as ->. { apply length_zero_iff_nil. rewrite length_app in Hd. lia. }
    rewrite app_nil_r, take_app_length. rewrite Forall_forall in *. intros b Hb. unfold plain. by rewrite Ha1, Ha2.
Qed.

Lemma nextMacroSpecial_pos b s : plain b = true → (0 < nextMacroSpecial (b :: s))%nat.
Proof using Type.
  unfold plain, nextMacroSpecial. intros Hb. cbn [spanWhile]. destruct (b =? 36) eqn:E; [done|]. simpl in *. destruct (spanWhile _ s) as [a r]. simpl. rewrite Hb.
  destruct (spanWhile _ (take (length a) s)) as [a1 a2]. simpl. case_decide; lia.
Qed.

Lemma sub_app t i j k : (i <= j <= k)%nat → sub t i j ++ sub t j k = sub t i k.
Proof using Type.
  intros H. unfold sub. replace (k - i)%nat with ((j - i) + (k - j))%nat by lia. rewrite <-take_take_drop, drop_drop. by replace (i + (j - i))%nat with j by lia.
Qed.

(** The run of the index loop from the run piece by piece: nothing is copied to the
    output before the first change. *)
Definition packed (out pre : text) (copied : nat) (x : text * bool * bool) : text * bool * bool :=
  let '(r, ch, c) := x in if (copied =? 0)%nat && negb ch then (out, false, c) else (out ++ pre ++ r, true, c).

Lemma packed_copy out t copied i j a (r : res (text * bool * bool)) : (copied <= i <= j)%nat → sub t i j = a →
  packed out (sub t copied j) copied <$> r = packed out (sub t copied i) copied <$> (copyPiece a <$> r).
Proof using Type.
  intros Hi <-. destruct r as [[[r ch] c]| |]; simpl; [|done..]. by rewrite (app_assoc (sub t copied i)), sub_app by lia.
Qed.

Lemma packed_change out pre w copied copied' (r : res (text * bool * bool)) : copied' ≠ 0%nat →
  packed (out ++ pre) w copied' <$> r = packed out pre copied <$> (changePiece w <$> r).
Proof using Type.
  intros H. destruct r as [[[r ch] c]| |]; simpl; [|done..]. f_equal. rewrite (proj2 (Nat.eqb_neq copied' 0)) by done. rewrite andb_false_r. by rewrite <-!app_assoc.
Qed.

Lemma packed_written out w copied (r : res (text * bool * bool)) : copied ≠ 0%nat → packed (out ++ w) [] copied <$> r = packed out w copied <$> r.
Proof using Type.
  intros H. destruct r as [[[r ch] c]| |]; simpl; [|done..]. f_equal. rewrite (proj2 (Nat.eqb_neq copied 0)) by done. simpl. by rewrite <-app_assoc.
Qed.

Lemma sub_nil t i : sub t i i = [].
Proof using Type. unfold sub. by rewrite Nat.sub_diag. Qed.

Lemma drop_suffix t i rest : rest `suffix_of` drop i t → drop (length t - length rest) t = rest.
Proof using Type.
  intros Hs. assert (rest `suffix_of` t) as [k ->]. { etrans; [exact Hs|apply suffix_drop]. }
  rewrite length_app. replace (length k + length rest - length rest)%nat with (length k) by lia. apply drop_app_length.
Qed.

Lemma stop_packed (t out : text) i copied c fuel : (length t <= i)%nat → (copied <= length t)%nat →
  (if decide (copied = 0%nat) then Ok (out, false, c) else Ok (out ++ drop copied t, true, c)) = packed out (sub t copied i) copied <$> render fuel [] c.
Proof using Type.
  intros Hi Hc. replace (render fuel [] c) with (Ok (([] : text), false, c)) by (by destruct fuel). simpl. unfold sub. rewrite take_ge by (rewrite length_drop; lia).
  rewrite app_nil_r. case_decide as H; [subst; done|]. by rewrite (proj2 (Nat.eqb_neq copied 0)).
Qed.

Section step.
Context (fuel n : nat) (t : text) (i copied : nat).
Hypothesis IH : ∀ n' out i' copied' c, (i < i')%nat → (length t - i' <= n')%nat → (copied' <= i')%nat → (copied' <= length t)%nat →
  substLoop fuel t out i' copied' c = packed out (sub t copied' i') copied' <$> render n' (drop i' t) c.
Hypothesis Hn : (length t - i <= S n)%nat.
Hypothesis Hc : (copied <= i < length t)%nat.

Lemma step_backslash out c : t !! i = Some 92 →
  (if makefile policy && bool_decide (i + 1 < length t)%nat then substLoop fuel t (out ++ sub t copied i) (i + 2) (i + 1) c else substLoop fuel t out (i + 2) copied c) =
  packed out (sub t copied i) copied <$> render (S n) (92 :: drop (S i) t) c.
Proof using IH Hn Hc.
  intros Hb. cbn [render]. change (92 =? 92) with true. cbv iota. destruct (drop (S i) t) as [|x s] eqn:Ed.
  - assert (Hl : (length t <= S i)%nat). { apply (f_equal length) in Ed. rewrite length_drop in Ed. simpl in Ed. lia. }
    rewrite bool_decide_eq_false_2 by lia. rewrite andb_false_r, (IH n) by lia. rewrite (drop_ge t (i + 2)) by lia. apply packed_copy; [lia|].
    unfold sub. rewrite (drop_S t _ i Hb), Ed. by replace (i + 2 - i)%nat with 2%nat by lia.
  - assert (Hx : t !! S i = Some x). { rewrite <-(Nat.add_0_r (S i)), <-lookup_drop, Ed. done. }
    pose proof (lookup_lt_Some _ _ _ Hx). assert (Hs : s = drop (i + 2) t). { rewrite (drop_S t _ _ Hx) in Ed. replace (i + 2)%nat with (S (S i)) by lia. congruence. }
    rewrite bool_decide_eq_true_2 by lia. rewrite Hs. destruct (makefile policy); simpl; rewrite (IH n) by lia.
    + replace (sub t (i + 1) (i + 2)) with [x]; [apply packed_change; lia|]. unfold sub. replace (i + 1)%nat with (S i) by lia. rewrite Ed. by replace (i + 2 - S i)%nat with 1%nat by lia.
    + apply packed_copy; [lia|]. unfold sub. rewrite (drop_S t _ i Hb), Ed. by replace (i + 2 - i)%nat with 2%nat by lia.
Qed.

Lemma step_dollar out c : t !! i = Some 36 →
  (r ← lift (scanRef policy (drop (i + 1) t));
   match r with
   | None => substLoop fuel t out (i + 1) copied c
   | Some (ref, rest) =>
       let e := (length t - length rest)%nat in
       let '(dec, c) := decideRef ref c in
       match dec with
       | Stay => substLoop fuel t out e copied c
       | Replace v =>
           let out := out ++ sub t copied i in
           match v with
           | Some v => if hasFlag (flags ref) "hide" then substLoop fuel t out e e c
                       else '(out, c) ← insertion ref v out c; substLoop fuel t out e e c
           | None => substLoop fuel t out e e c
           end
       end
   end) = packed out (sub t copied i) copied <$> render (S n) (36 :: drop (S i) t) c.
Proof using IH Hn Hc.
  intros Hb. cbn [render]. change (36 =? 92) with false. change (36 =? 36) with true. cbv iota. replace (i + 1)%nat with (S i) by lia.
  assert (Hfirst : 36 :: drop (S i) t = drop i t) by (by rewrite (drop_S t _ i Hb)).
  destruct (scanRef policy (drop (S i) t)) as [[[ref rest]|]|] eqn:Es; cbn [lift mbind res_bind]; [| |done].
  2: { rewrite (IH n) by lia. apply packed_copy; [lia|]. unfold sub. rewrite <-Hfirst. by replace (S i - i)%nat with 1%nat by lia. }
  apply scanRef_suffix in Es. pose proof (suffix_length _ _ Es) as Hl. rewrite length_drop in Hl. pose proof (drop_suffix _ _ _ Es) as Hd. cbv zeta.
  set (e := (length t - length rest)%nat) in *. assert (i < e <= length t)%nat by lia. destruct (decideRef ref c) as [[|[v|]] c'].
  - rewrite (IH n), Hd by lia. apply packed_copy; [lia|]. unfold sub. rewrite Hfirst, length_drop. f_equal. lia.
  - destruct (hasFlag (flags ref) "hide"). { rewrite (IH n), Hd, sub_nil by lia. apply packed_change. lia. }
    rewrite insertion_app. destruct (insertion ref v [] c') as [[w c2]| |]; cbn [mbind res_bind]; [|done..].
    rewrite (IH n), Hd, sub_nil, packed_written by lia. apply packed_change. lia.
  - rewrite (IH n), Hd, sub_nil by lia. apply packed_change. lia.
Qed.
End step.

Lemma match_special {A} (b : Z) (x y z : A) : b ≠ 92 → b ≠ 36 → match b with 92 => x | 36 => y | _ => z end = z.
Proof using Type. intros H92 H36. destruct b as [|p|p]; [done| |done]. do 7 (destruct p as [p|p|]; try done). Qed.

Lemma substLoop_render fuel n t out i copied c :
  (length t - i <= fuel)%nat → (length t - i <= n)%nat → (copied <= i)%nat → (copied <= length t)%nat →
  substLoop fuel t out i copied c = packed out (sub t copied i) copied <$> render n (drop i t) c.
Proof using Type.
  revert n out i copied c. induction fuel as [|fuel IH]; intros n out i copied c Hf Hn Hc Ht.
  { cbn [MacroString.substLoop]. rewrite decide_True by lia. rewrite (drop_ge t i) by lia. apply stop_packed; lia. }
  cbn [MacroString.substLoop]. case_decide as Hi. { rewrite (drop_ge t i) by lia. apply stop_packed; lia. }
  destruct n as [|n]; [lia|]. destruct (lookup_lt_is_Some_2 t i ltac:(lia)) as [b Hb]. rewrite Hb. rewrite (drop_S t b i Hb).
  destruct (decide (b = 92)) as [->|H92]; [|destruct (decide (b = 36)) as [->|H36]].
  - apply step_backslash; [intros; apply IH; lia|lia..|done].
  - apply step_dollar; [intros; apply IH; lia|lia..|done].
  - assert (Hp : plain b = true). { unfold plain. by rewrite (proj2 (Z.eqb_neq b 36)), (proj2 (Z.eqb_neq b 92)). }
    transitivity (substLoop fuel t out (i + nextMacroSpecial (drop i t)) copied c). { rewrite (drop_S t b i Hb). by apply match_special. }
    rewrite <-(drop_S t b i Hb). set (m := nextMacroSpecial (drop i t)).
    assert (Hm : (0 < m)%nat). { unfold m. rewrite (drop_S t b i Hb). by apply nextMacroSpecial_pos. }
    rewrite (IH (S n)) by lia. rewrite <-(take_drop m (drop i t)) at 1. rewrite render_plain; [|apply nextMacroSpecial_plain|rewrite take_drop, length_drop; lia].
    rewrite drop_drop. apply packed_copy; [lia|]. unfold sub. by replace (i + m - i)%nat with m by lia.
Qed.

Lemma render_unchanged fuel s c r c' : (length s <= fuel)%nat → render fuel s c = Ok (r, false, c') → r = s.
Proof using Type.
  revert s c r c'. induction fuel as [|fuel IH]; intros [|b s] c r c' Hf; simpl in Hf; try lia; try (by intros [= <- _]).
  assert (Hcopy : ∀ a rest c r c', (length rest <= fuel)%nat → copyPiece a <$> render fuel rest c = Ok (r, false, c') → r = a ++ rest).
  { intros a rest c0 r0 c0' Hl. destruct (render fuel rest c0) as [[[r1 ch] c1]| |] eqn:E; simpl; try done. intros [= <- -> ->]. f_equal. by eapply IH. }
  assert (Hchange : ∀ a rest c r c', changePiece a <$> render fuel rest c ≠ Ok (r, false, c')).
  { intros a rest c0 r0 c0'. destruct (render fuel rest c0) as [[[r1 ch] c1]| |]; simpl; congruence. }
  cbn [render]. destruct (b =? 92).
  { destruct s as [|x s]; [intros ->%Hcopy; [done|simpl in *; lia]|]. simpl in Hf. destruct (makefile policy); [by intros ?%Hchange|intros ->%Hcopy; [done|lia]]. }
  destruct (b =? 36); [|intros ->%Hcopy; [done|lia]]. destruct (scanRef policy s) as [[[ref rest]|]|] eqn:Es; cbn [lift mbind res_bind]; [| |done].
  2: { intros ->%Hcopy; [done|lia]. }
  apply scanRef_suffix in Es as [k ->]. rewrite length_app in Hf. destruct (decideRef ref c) as [[|[v|]] c1].
  - intros ->%Hcopy; [|lia]. change (b :: k ++ rest) with ((b :: k) ++ rest). rewrite length_app. replace (length (b :: k) + length rest - length rest)%nat with (length (b :: k)) by lia.
    by rewrite take_app_length.
  - destruct (hasFlag (flags ref) "hide"); [by intros ?%Hchange|]. destruct (insertion ref v [] c1) as [[w c2]| |]; cbn [mbind res_bind]; try done. by intros ?%Hchange.
  - by intros ?%Hchange.
Qed.

Lemma substMacroAppend_render out t c :
  substMacroAppend getenv md5 locals env policy deeply out t c = (λ '(r, ch, c), if (ch : bool) then (out ++ r, true, c) else (out, false, c)) <$> render (length t) t c.
Proof using Type.
  unfold substMacroAppend. rewrite (substLoop_render (length t) (length t)) by lia. rewrite sub_nil, drop_0.
  by destruct (render (length t) t c) as [[[r []] c']| |].
Qed.

Lemma substMacro_render t c : substMacro getenv md5 locals env policy deeply t c = (λ '(r, _, c), (r, c)) <$> render (length t) t c.
Proof using Type.
  unfold substMacro. rewrite substMacroAppend_render. destruct (render (length t) t c) as [[[r []] c']| |] eqn:E; [done| |done..].
  apply render_unchanged in E as ->; done.
Qed.

(** C18: one pass over a text, which copies lazily and by indices, gives the text of the
    pieces replaced one by one; it reports a change exactly when a piece was replaced. *)
Theorem substMacro_pieces out t c :
  substMacro getenv md5 locals env policy deeply t c = (λ '(r, _, c), (r, c)) <$> render (length t) t c
  ∧ substMacroAppend getenv md5 locals env policy deeply out t c = (λ '(r, ch, c), if (ch : bool) then (out ++ r, true, c) else (out, false, c)) <$> render (length t) t c.
Proof using Type. split; [apply substMacro_render|apply substMacroAppend_render]. Qed.

(** ** The two buffers *)

Definition apart (s : source) (k : bool) : bool := match s with Outside _ => true | InBuf k' => Bool.eqb k' (negb k) end.

Lemma readFrom_apart bufs s k : apart s k = true → readFrom bufs s k = Some (textOf bufs s).
Proof using Type. destruct s as [u|k']; [done|]. simpl. by destruct k, k'. Qed.

Lemma iterateInto_iterate n k bufs s c : apart s k = true → makefile policy = false →
  (λ '(s, bufs, c), (textOf bufs s, c)) <$> iterateInto getenv md5 locals env policy deeply n k bufs s c =
  iterate getenv md5 locals env policy deeply n (textOf bufs s) c.
Proof using Type.
  intros Hs Hm. revert k bufs s c Hs. induction n as [|n IH]; intros k bufs s c Hs; cbn [iterateInto iterate];
    rewrite (readFrom_apart _ _ _ Hs); cbn [lift mbind res_bind]; unfold substMacro; destruct (substMacroAppend _ _ _ _ _ _ _ _ _) as [[[next ch] c']| |] eqn:E;
    cbn [mbind res_bind]; try done; rewrite Hm; (destruct ch; [|cbn [negb]; rewrite bool_decide_eq_true_2 by done; simpl; do 2 f_equal; destruct s as [|k']; [done|]; simpl in *; by destruct k, k']).
  - cbn [negb orb]. rewrite orb_comm. case_match; [|done]. simpl. by rewrite eqb_reflx.
  - cbn [negb orb]. rewrite orb_comm. case_match; [simpl; by rewrite eqb_reflx|].
    rewrite IH by (by destruct k). simpl. by rewrite eqb_reflx.
Qed.
End onepass.

(** ** The whole substitution *)

Section deep.
Context (getenv md5 : text → text) (locals : list confMacroBinding) (env : option (text → option (text * option VFS))) (policy : substPolicy).
Abbreviation deeply := (substMacroDeeply getenv md5 locals env policy).

Lemma deeply_into_eq fuel t bufs c :
  (λ '(s, bufs, c), (textOf bufs s, c)) <$> substMacroDeeplyInto getenv md5 locals env policy (deeply fuel) t bufs c = deeply (S fuel) t c.
Proof.
  unfold substMacroDeeplyInto. cbn [substMacroDeeply]. destruct (plainText policy t); [done|]. destruct (makefile policy) eqn:Hm.
  - cbn [iterateInto]. cbn [readFrom lift mbind res_bind]. unfold substMacro.
    destruct (substMacroAppend _ _ _ _ _ _ _ _ _) as [[[next []] c']| |]; cbn [mbind res_bind]; try done. by rewrite Hm.
  - by apply iterateInto_iterate.
Qed.

(** The substitution that alternates between two shared buffers gives the text
    that the one with fresh strings gives: no pass writes the buffer it reads, and
    both stop, throw and count passes alike. *)
Theorem deeply_into fuel t bufs c :
  (λ '(s, bufs, c), (textOf bufs s, c)) <$> substMacroDeeplyInto getenv md5 locals env policy (deeply fuel) t bufs c = deeply (S fuel) t c.
Proof. apply deeply_into_eq. Qed.
End deep.

(** ** Constant texts *)

Section constant.
Context (getenv md5 : text → text) (locals : list confMacroBinding) (policy : substPolicy).

(** The second run agrees with the first where the first stays constant. *)
Definition constantly {A} (r1 r2 : res (A * bool)) (c : bool) : Prop := ∀ a, r1 = Ok (a, true) → c = true ∧ r2 = Ok (a, true).

Lemma constantly_ok {A} (a : A) c : constantly (Ok (a, c)) (Ok (a, c)) c.
Proof using Type. by intros ? [= <- ->]. Qed.

Lemma constantly_bind {A B} (r1 r2 : res (A * bool)) (f1 f2 : A → bool → res (B * bool)) c :
  constantly r1 r2 c → (∀ a c', constantly (f1 a c') (f2 a c') c') →
  constantly (r1 ≫= λ p, f1 p.1 p.2) (r2 ≫= λ p, f2 p.1 p.2) c.
Proof using Type.
  intros Hr Hf b. destruct r1 as [[a1 c1]| |]; simpl; [|done..]. intros Hb. destruct (Hf _ _ _ Hb) as [-> Hb2]. destruct (Hr a1 eq_refl) as [-> ->]. done.
Qed.

Section pass.
Context (env1 env2 : option (text → option (text * option VFS))) (d1 d2 : text → bool → res (text * bool)).
Hypothesis Hsome : is_Some env1.
Hypothesis Hd : ∀ t c, constantly (d1 t c) (d2 t c) c.

Lemma macroLookup_constantly n c : (macroLookup locals env1 n c).2 = true → c = true ∧ macroLookup locals env2 n c = macroLookup locals env1 n c.
Proof using Hsome.
  unfold macroLookup. destruct (List.find _ locals); [done|]. destruct Hsome as [look ->]. done.
Qed.

Lemma decideRef_constantly ref c : (decideRef getenv locals env1 policy ref c).2 = true → c = true ∧ decideRef getenv locals env2 policy ref c = decideRef getenv locals env1 policy ref c.
Proof using Hsome.
  unfold decideRef. destruct (raw ref || _); [done|]. destruct (process ref); [done|]. destruct (match literal policy with Some _ => _ | _ => _ end); [done|].
  pose proof (macroLookup_constantly (name ref) c) as H. destruct (macroLookup locals env1 (name ref) c) as [v c']. intros Hc.
  assert (c' = true) as ->. { revert Hc. repeat case_match; simpl; congruence. }
  destruct (H eq_refl) as [-> ->]. done.
Qed.

Lemma insertion_constantly ref v out c : constantly (insertion md5 d1 ref v out c) (insertion md5 d2 ref v out c) c.
Proof using Hd.
  assert (Hif : ∀ t c, constantly (deeplyIf d1 t c) (deeplyIf d2 t c) c).
  { intros u c0. unfold deeplyIf. case_bool_decide; [apply Hd|apply constantly_ok]. }
  unfold insertion. intros w. destruct (deeplyIf d1 (prefix_ ref) c) as [[prefix c1]| |] eqn:E1; cbn [mbind res_bind]; [|done..].
  destruct (deeplyIf d1 (suffix_ ref) c1) as [[suffix c2]| |] eqn:E2; cbn [mbind res_bind]; [|done..]. cbv zeta.
  destruct (valueLoop _ _ _ _ _ _ _ _) as [o|] eqn:Ev; cbn [lift mbind res_bind]; [|done]. intros [= <- ->].
  destruct (Hif _ _ _ E2) as [-> E2']. destruct (Hif _ _ _ E1) as [-> E1']. split; [done|].
  rewrite E1'. cbn [mbind res_bind]. rewrite E2'. cbn [mbind res_bind]. rewrite Ev. done.
Qed.

Lemma render_constantly fuel s c r ch : render getenv md5 locals env1 policy d1 fuel s c = Ok (r, ch, true) →
  c = true ∧ render getenv md5 locals env2 policy d2 fuel s c = Ok (r, ch, true).
Proof using Hsome Hd.
  revert s c r ch. induction fuel as [|fuel IH]; intros [|b s] c r ch; try (by intros [= <- <- ->]).
  assert (Hp : ∀ (f : text * bool * bool → text * bool * bool) rest c r ch, (∀ r ch c, (f (r, ch, c)).2 = c) →
    f <$> render getenv md5 locals env1 policy d1 fuel rest c = Ok (r, ch, true) → c = true ∧ f <$> render getenv md5 locals env2 policy d2 fuel rest c = Ok (r, ch, true)).
  { intros f rest c0 r0 ch0 Hf. destruct (render _ _ _ env1 _ _ _ _ _) as [[[r1 ch1] c1]| |] eqn:E; [|done..]. cbn [fmap res_fmap]. intros [= Hx].
    assert (c1 = true) as -> by (rewrite <-(Hf r1 ch1 c1), Hx; done). destruct (IH _ _ _ _ E) as [-> ->]. cbn [fmap res_fmap]. by rewrite Hx. }
  assert (Hcopy : ∀ a rest c r ch, _) by (intros a; exact (λ rest c r ch, Hp (copyPiece a) rest c r ch (λ _ _ _, eq_refl))).
  assert (Hchange : ∀ a rest c r ch, _) by (intros a; exact (λ rest c r ch, Hp (changePiece a) rest c r ch (λ _ _ _, eq_refl))).
  cbn [render]. destruct (b =? 92). { destruct s; [apply Hcopy|]. destruct (makefile policy); [apply Hchange|apply Hcopy]. }
  destruct (b =? 36); [|apply Hcopy]. destruct (scanRef policy s) as [[[ref rest]|]|]; cbn [lift mbind res_bind]; [| apply Hcopy|done].
  pose proof (decideRef_constantly ref c) as Hdec. destruct (decideRef _ _ env1 _ ref c) as [dec c1].
  intros HX. assert (c1 = true) as ->.
  { destruct dec as [|[v|]]; [by apply Hcopy in HX as [-> _]| |by apply Hchange in HX as [-> _]].
    destruct (hasFlag (flags ref) "hide"); [by apply Hchange in HX as [-> _]|]. pose proof (insertion_constantly ref v [] c1) as Hi.
    destruct (insertion md5 d1 ref v [] c1) as [[w c2]| |]; cbn [mbind res_bind] in HX; try done. apply Hchange in HX as [-> _]. by destruct (Hi w eq_refl) as [-> _]. }
  destruct (Hdec eq_refl) as [-> ->]. split; [done|]. destruct dec as [|[v|]]; [by apply Hcopy in HX as [_ ->]| |by apply Hchange in HX as [_ ->]].
  destruct (hasFlag (flags ref) "hide"); [by apply Hchange in HX as [_ ->]|]. pose proof (insertion_constantly ref v [] true) as Hi.
  destruct (insertion md5 d1 ref v [] true) as [[w c2]| |]; cbn [mbind res_bind] in HX; try done. apply Hchange in HX as [-> HX]. destruct (Hi w eq_refl) as [_ ->]. done.
Qed.

Lemma substMacro_constantly t c : constantly (substMacro getenv md5 locals env1 policy d1 t c) (substMacro getenv md5 locals env2 policy d2 t c) c.
Proof using Hsome Hd.
  intros r. rewrite !substMacro_render. destruct (render _ _ _ env1 _ _ _ _ _) as [[[r1 ch1] c1]| |] eqn:E; simpl; try done. intros [= <- ->].
  destruct (render_constantly _ _ _ _ _ E) as [-> ->]. done.
Qed.

Lemma iterate_constantly n t c : constantly (iterate getenv md5 locals env1 policy d1 n t c) (iterate getenv md5 locals env2 policy d2 n t c) c.
Proof using Hsome Hd.
  revert t c. induction n as [|n IH]; intros t c r; cbn [iterate]; pose proof (substMacro_constantly t c) as Hs;
    destruct (substMacro _ _ _ env1 _ _ _ _) as [[next c1]| |]; cbn [mbind res_bind]; try done; intros Hr.
  - destruct (_ || _) eqn:Eb; [|done]. injection Hr as -> ->. destruct (Hs _ eq_refl) as [-> ->]. cbn [mbind res_bind]. by rewrite Eb.
  - assert (c1 = true) as ->. { destruct (_ || _); [congruence|]. by apply IH in Hr as [-> _]. }
    destruct (Hs _ eq_refl) as [-> ->]. cbn [mbind res_bind]. split; [done|]. destruct (_ || _); [done|]. by apply IH in Hr as [_ ->].
Qed.
End pass.

Lemma deeply_constantly look env2 fuel t c :
  constantly (substMacroDeeply getenv md5 locals (Some look) policy fuel t c) (substMacroDeeply getenv md5 locals env2 policy fuel t c) c.
Proof using Type.
  revert t c. induction fuel as [|fuel IH]; intros t c; cbn [substMacroDeeply]; (destruct (plainText policy t); [apply constantly_ok|]); [done|].
  destruct (makefile policy); [apply substMacro_constantly|apply iterate_constantly]; eauto.
Qed.

(** A substitution that leaves [constant] set asked nothing of the environment:
    it gives the same text with any other environment, or with none, which is what
    lets a call's arguments be kept for every module. *)
Theorem constant_any_env look env2 fuel t r :
  substMacroDeeply getenv md5 locals (Some look) policy fuel t true = Ok (r, true) →
  substMacroDeeply getenv md5 locals env2 policy fuel t true = Ok (r, true).
Proof using Type. intros H. by apply (deeply_constantly look env2) in H as [_ ->]. Qed.
End constant.

(** ** Normal forms *)

Section normal.
Context (getenv md5 : text → text) (locals : list confMacroBinding) (env : option (text → option (text * option VFS))) (policy : substPolicy).

(** The constant flag does not influence the text. *)
Definition flagged {A} (f : bool → res (A * bool)) : Prop := ∀ c, f c = (λ '(r, k), (r, c && k)) <$> f true.

Section pass.
Context (d : text → bool → res (text * bool)).
Hypothesis Hd : ∀ t, flagged (d t).

Lemma decideRef_flagged ref c : decideRef getenv locals env policy ref c = ((decideRef getenv locals env policy ref true).1, c && (decideRef getenv locals env policy ref true).2).
Proof using Type.
  unfold decideRef. destruct (raw ref || _); [by rewrite andb_true_r|]. destruct (process ref); [by rewrite andb_true_r|].
  destruct (match literal policy with Some _ => _ | _ => _ end); [by rewrite andb_true_r|]. unfold macroLookup.
  destruct (List.find _ locals); [by rewrite andb_true_r|]. destruct env as [look|].
  - destruct (look (name ref)) as [[??]|]; [by rewrite andb_false_r|]. destruct (negb _ || _); by rewrite andb_false_r.
  - destruct (negb _ || _); by rewrite andb_true_r.
Qed.

Lemma insertion_flagged ref v out : flagged (insertion md5 d ref v out).
Proof using Hd.
  assert (Hif : ∀ t, flagged (deeplyIf d t)). { intros u c0. unfold deeplyIf. case_bool_decide; [apply Hd|simpl; by rewrite andb_true_r]. }
  intros c. unfold insertion. rewrite (Hif _ c). destruct (deeplyIf d (prefix_ ref) true) as [[prefix c1]| |]; cbn [mbind res_bind fmap res_fmap]; [|done..].
  rewrite (Hif _ (c && c1)), (Hif _ c1). destruct (deeplyIf d (suffix_ ref) true) as [[suffix c2]| |]; cbn [mbind res_bind fmap res_fmap]; [|done..].
  cbv zeta. destruct (valueLoop _ _ _ _ _ _ _ _); cbn [lift mbind res_bind fmap res_fmap]; [|done]. by rewrite andb_assoc.
Qed.

Lemma render_flagged fuel s c :
  render getenv md5 locals env policy d fuel s c = (λ '(r, ch, k), (r, ch, c && k)) <$> render getenv md5 locals env policy d fuel s true.
Proof using Hd.
  revert s c. induction fuel as [|fuel IH]; intros [|b s] c; [simpl; by rewrite andb_true_r|done|simpl; by rewrite andb_true_r|].
  assert (Hp : ∀ (f : text * bool * bool → text * bool * bool) rest c0 c1, (∀ r ch k, f (r, ch, c0 && k) = ((f (r, ch, k)).1, c0 && k)) → (∀ r ch k, (f (r, ch, k)).2 = k) →
    f <$> render getenv md5 locals env policy d fuel rest (c0 && c1) = (λ '(r, ch, k), (r, ch, c0 && k)) <$> (f <$> render getenv md5 locals env policy d fuel rest c1)).
  { intros f rest c0 c1 H1 H2. rewrite (IH rest (c0 && c1)), (IH rest c1). destruct (render _ _ _ _ _ _ fuel rest true) as [[[r ch] k]| |]; cbn [fmap res_fmap]; [|done..].
    f_equal. rewrite <-andb_assoc, H1. specialize (H2 r ch (c1 && k)). destruct (f (r, ch, c1 && k)) as [[??]?]. simpl in *. by subst. }
  assert (Hcopy : ∀ a rest c0 c1, _) by (intros a rest c0 c1; exact (Hp (copyPiece a) rest c0 c1 (λ _ _ _, eq_refl) (λ _ _ _, eq_refl))).
  assert (Hchange : ∀ a rest c0 c1, _) by (intros a rest c0 c1; exact (Hp (changePiece a) rest c0 c1 (λ _ _ _, eq_refl) (λ _ _ _, eq_refl))).
  assert (Hcopy1 := λ a rest, Hcopy a rest c true). assert (Hchange1 := λ a rest, Hchange a rest c true). rewrite andb_true_r in Hcopy1, Hchange1.
  cbn [render]. destruct (b =? 92). { destruct s; [apply Hcopy1|]. destruct (makefile policy); [apply Hchange1|apply Hcopy1]. }
  destruct (b =? 36); [|apply Hcopy1]. destruct (scanRef policy s) as [[[ref rest]|]|]; cbn [lift mbind res_bind]; [|apply Hcopy1|done].
  rewrite (decideRef_flagged ref c). destruct (decideRef _ _ env _ ref true) as [dec c1]. cbn [fst snd]. destruct dec as [|[v|]]; [apply Hcopy| |apply Hchange].
  destruct (hasFlag (flags ref) "hide"); [apply Hchange|]. rewrite (insertion_flagged _ _ _ (c && c1)), (insertion_flagged _ _ _ c1).
  destruct (insertion md5 d ref v [] true) as [[w c2]| |]; cbn [mbind res_bind fmap res_fmap]; [|done..]. rewrite <-andb_assoc. apply Hchange.
Qed.

Lemma substMacro_flagged t : flagged (substMacro getenv md5 locals env policy d t).
Proof using Hd.
  intros c. rewrite !substMacro_render, (render_flagged _ _ c). by destruct (render _ _ _ _ _ _ _ _ _) as [[[r ch] k]| |].
Qed.

Lemma iterate_flagged n t : flagged (iterate getenv md5 locals env policy d n t).
Proof using Hd.
  revert t. induction n as [|n IH]; intros t c; cbn [iterate]; rewrite (substMacro_flagged _ c); destruct (substMacro _ _ _ _ _ _ t true) as [[next c1]| |];
    cbn [mbind res_bind fmap res_fmap]; try done; destruct (_ || _); try done.
  rewrite (IH _ (c && c1)), (IH _ c1). destruct (iterate _ _ _ _ _ _ _ _ _) as [[??]| |]; cbn [fmap res_fmap]; [|done..]. by rewrite andb_assoc.
Qed.

Lemma iterate_normal n t c r c' : iterate getenv md5 locals env policy d n t c = Ok (r, c') → 36 ∉ r ∨ ∃ k, substMacro getenv md5 locals env policy d r true = Ok (r, k).
Proof using Hd.
  revert t c. induction n as [|n IH]; intros t c; cbn [iterate]; pose proof (substMacro_flagged t c) as Hf;
    destruct (substMacro _ _ _ _ _ _ t c) as [[next c1]| |]; cbn [mbind res_bind]; try done;
    (destruct (bool_decide (next = t)) eqn:E1; [apply bool_decide_eq_true in E1 as ->; intros [= <- ->]; right;
      destruct (substMacro _ _ _ _ _ _ t true) as [[??]| |]; cbn [fmap res_fmap] in Hf; try done; injection Hf as -> _; eauto|]);
    (destruct (bool_decide (36 ∉ next)) eqn:E2; [apply bool_decide_eq_true in E2; intros [= <- ->]; by left|]); cbn [orb]; [done|apply IH].
Qed.
End pass.

Lemma deeply_flagged fuel t : flagged (substMacroDeeply getenv md5 locals env policy fuel t).
Proof using Type.
  revert t. induction fuel as [|fuel IH]; intros t c; cbn [substMacroDeeply]; (destruct (plainText policy t); [simpl; by rewrite andb_true_r|]); [done|].
  destruct (makefile policy); [by apply substMacro_flagged|by apply iterate_flagged].
Qed.

(** C19: what a substitution gives outside of make expressions is a normal form:
    substituting it again changes nothing, whatever the flag. *)
Theorem deeply_normal fuel t c r c' :
  makefile policy = false → substMacroDeeply getenv md5 locals env policy fuel t c = Ok (r, c') →
  ∀ c2, ∃ c3, substMacroDeeply getenv md5 locals env policy fuel r c2 = Ok (r, c3).
Proof using Type.
  intros Hm Hr c2. assert (Hplain : ∀ u, 36 ∉ u → plainText policy u = true). { intros u Hu. unfold plainText. rewrite Hm. by rewrite bool_decide_eq_true_2. }
  destruct fuel as [|fuel]; cbn [substMacroDeeply] in *; rewrite ?Hm in *.
  - destruct (plainText policy t) eqn:E; [|done]. injection Hr as -> ->. rewrite E. eauto.
  - destruct (plainText policy t) eqn:E; [injection Hr as -> ->; rewrite E; eauto|]. apply iterate_normal in Hr as [Hn|[k Hk]]; [| |intros; apply deeply_flagged].
    + rewrite (Hplain _ Hn). eauto.
    + destruct (plainText policy r); [eauto|]. cbn [iterate]. rewrite substMacro_flagged by (intros; apply deeply_flagged). rewrite Hk. cbn [mbind res_bind fmap res_fmap].
      rewrite bool_decide_eq_true_2 by done. eauto.
Qed.
End normal.

(** ** Make expressions *)

Section makefile.
Context (getenv md5 : text → text) (locals : list confMacroBinding) (env : option (text → option (text * option VFS))) (policy : substPolicy).
Hypothesis Hm : makefile policy = true.

Lemma scanMakefileRef_plain s ref r : scanMakefileRef s = Some (ref, r) → prefix_ ref = [] ∧ suffix_ ref = [].
Proof using Type.
  unfold scanMakefileRef. destruct (spanWhile isMacroAlnum s) as [macro s1]. destruct s1 as [|c s1]; [done|].
  destruct (spanWhile _ s1) as [n s2]. intros H. repeat (case_match || case_decide); simplify_eq; done.
Qed.

Lemma valueLoop_total ref v prefix suffix sep ks first out : (∀ k, k ∈ ks → is_Some (at_ v k)) → is_Some (valueLoop ref v prefix suffix sep ks first out).
Proof using Type.
  revert first out. induction ks as [|k ks IH]; intros first out Hk; cbn [valueLoop]; [done|].
  assert (Hks : ∀ j, j ∈ ks → is_Some (at_ v j)) by (intros; apply Hk; by right).
  destruct (if (flags ref =? 0) && bool_decide (ext ref = []) && bool_decide (skipExt ref = []) then vfs v else None); [by apply IH|].
  destruct (Hk k ltac:(by left)) as [value ->]. cbn [mbind option_bind]. destruct (applyMacroMods ref value prefix suffix); by apply IH.
Qed.

Lemma at_total v k : k ∈ seq 0 (count v) → is_Some (at_ v k).
Proof using Type.
  rewrite elem_of_seq. unfold at_, count. destruct (vfs v); [done|]. destruct (one v); [done|]. intros Hk. apply fmap_is_Some. apply lookup_lt_is_Some_2. lia.
Qed.

Lemma insertion_total d ref v out c : prefix_ ref = [] → suffix_ ref = [] → ∃ r, insertion md5 d ref v out c = Ok (r, c).
Proof using Type.
  intros Hp Hs. unfold insertion, deeplyIf. rewrite Hp, Hs. cbn [mbind res_bind]. cbv zeta.
  rewrite (bool_decide_eq_false_2 (36 ∈ [])) by apply not_elem_of_nil. cbn [mbind res_bind].
  destruct (valueLoop_total ref v [] [] (if hasFlag (flags ref) "join" then join_ ref else [32]) (seq 0 (count v)) true (if hasFlag (flags ref) "quo" then out ++ [34] else out) (at_total v)) as [o ->].
  cbn [lift mbind res_bind]. eauto.
Qed.

Lemma render_total d fuel s c : (length s <= fuel)%nat → ∃ x, render getenv md5 locals env policy d fuel s c = Ok x.
Proof using Hm.
  revert s c. induction fuel as [|fuel IH]; intros [|b s] c Hf; simpl in Hf; [eauto|lia|eauto|]. cbn [render]. rewrite Hm.
  assert (Hp : ∀ (f : text * bool * bool → text * bool * bool) rest c, (length rest <= fuel)%nat → ∃ x, f <$> render getenv md5 locals env policy d fuel rest c = Ok x).
  { intros f rest c0 Hl. destruct (IH rest c0 Hl) as [x ->]. simpl. eauto. }
  destruct (b =? 92). { destruct s; apply Hp; simpl in *; lia. }
  destruct (b =? 36); [|apply Hp; lia]. unfold scanRef. rewrite Hm. cbn [lift mbind res_bind].
  destruct (scanMakefileRef s) as [[ref rest]|] eqn:Es; [|apply Hp; lia]. destruct (scanMakefileRef_plain _ _ _ Es) as [Hpre Hsuf].
  apply scanMakefileRef_suffix, suffix_length in Es. destruct (decideRef _ _ _ _ _ _) as [[|[v|]] c1]; [apply Hp; lia| |apply Hp; lia].
  destruct (hasFlag (flags ref) "hide"); [apply Hp; lia|]. destruct (insertion_total d ref v [] c1 Hpre Hsuf) as [w ->]. cbn [mbind res_bind]. apply Hp. lia.
Qed.

(** The substitution in make expressions always gives a text: one pass, which
    neither throws nor recurses, whatever the variables hold. *)
Theorem makefile_total t c : ∃ r c', substMacroDeeply getenv md5 locals env policy 1 t c = Ok (r, c').
Proof using Hm.
  cbn [substMacroDeeply]. rewrite Hm. destruct (plainText policy t); [eauto|]. rewrite substMacro_render.
  match goal with |- context [render _ _ _ _ _ ?d _ _ _] => destruct (render_total d (length t) t c ltac:(lia)) as [[[r ch] c'] Hr] end.
  exists r, c'. by rewrite Hr.
Qed.
End makefile.

(** ** Policies *)

Definition rootVarNames : list string := ["BINDIR"; "CURDIR"; "ARCADIA_ROOT"; "ARCADIA_BUILD_ROOT"].
Definition rootVar (n : text) : bool := bool_decide (n ∈ (bs <$> rootVarNames)).
Definition substVariables : substPolicy := mkPolicy false false false false (Some rootVar) None.
Definition substCommand : substPolicy := mkPolicy false true true false None None.

(** The cyclic value of a modifier and the environment that holds it. *)
Definition cyclicEnv (n : text) : option (text * option VFS) :=
  if decide (n = bs "X") then Some (bs "${pre=$X:Y}", None) else if decide (n = bs "Y") then Some ([], None) else None.

Lemma cyclic_step getenv md5 d n c : (∀ c, d (bs "$X") c = NoFuel) → iterate getenv md5 [] (Some cyclicEnv) substVariables d (S n) (bs "$X") c = NoFuel.
Proof.
  intros Hd. assert (H1 : substMacro getenv md5 [] (Some cyclicEnv) substVariables d (bs "$X") c = Ok (bs "${pre=$X:Y}", false)) by (by destruct c).
  assert (H2 : substMacro getenv md5 [] (Some cyclicEnv) substVariables d (bs "${pre=$X:Y}") false = NoFuel).
  { specialize (Hd false). vm_compute in Hd |- *. by rewrite Hd. }
  destruct n as [|n]; cbn [iterate]; rewrite H1; cbn [mbind res_bind]; rewrite (bool_decide_eq_false_2 (bs "${pre=$X:Y}" = bs "$X")) by done;
    replace (bool_decide (36 ∉ bs "${pre=$X:Y}")) with false by (by vm_compute); cbn [orb]; rewrite H2; done.
Qed.

(** A modifier's value that leads back to its own variable is never
    substituted: the recursion has no end, and the limit of 128 passes does not
    stop it. *)
Theorem cyclic_modifier_diverges getenv md5 fuel c : substMacroDeeply getenv md5 [] (Some cyclicEnv) substVariables fuel (bs "$X") c = NoFuel.
Proof.
  revert c. induction fuel as [|fuel IH]; intros c; [done|]. cbn [substMacroDeeply]. by apply cyclic_step.
Qed.

Lemma substMacro_fault getenv md5 locals env policy d t s c : t = 36 :: s → scanRef policy s = None → substMacro getenv md5 locals env policy d t c = Throw.
Proof. intros -> Hs. rewrite substMacro_render. cbn [length render]. change (36 =? 92) with false. change (36 =? 36) with true. cbv iota. by rewrite Hs. Qed.

(** A text that ends inside an escape in the value of a modifier makes the
    substitution fault, in any environment, instead of leaving the text as it is. *)
Theorem modifier_escape_faults getenv md5 locals env policy fuel c : makefile policy = false →
  substMacroDeeply getenv md5 locals env policy (S fuel) (bs "${pre=\") c = Throw.
Proof.
  intros Hm. cbn [substMacroDeeply]. rewrite Hm. assert (Hp : plainText policy (bs "${pre=\") = false) by (unfold plainText; by replace (bool_decide (36 ∉ bs "${pre=\")) with false by (by vm_compute)).
  rewrite Hp. cbn [iterate]. rewrite (substMacro_fault _ _ _ _ _ _ _ (bs "{pre=\")); [done|done|]. unfold scanRef. rewrite Hm. by destruct (command policy).
Qed.

Lemma modifier_escape_faults_witness : substMacroDeeply id id [] None substCommand 1 (bs "${pre=\") true = Throw.
Proof. apply (modifier_escape_faults id id [] None substCommand 0 true). reflexivity. Defined.

Definition oneEnv (n : text) : option (text * option VFS) := if decide (n = bs "X") then Some (bs "$P.$P", None) else None.
Definition oneLocal : list confMacroBinding := [mkBinding (bs "P") [AStr (Some (bs "a")); AStr (Some (bs "b"))] true].

Lemma deeply_normal_witness : ∃ c3, substMacroDeeply id id oneLocal (Some oneEnv) substVariables 1 (bs "a b.a b $Z") true = Ok (bs "a b.a b $Z", c3).
Proof. apply (deeply_normal id id oneLocal (Some oneEnv) substVariables 1 (bs "$X $Z") true _ false); [reflexivity|vm_compute; reflexivity]. Defined.

Lemma constant_any_env_witness : substMacroDeeply id id oneLocal None substVariables 1 (bs "${toupper;suf=.c:P}") true = Ok (bs "A.C B.C", true).
Proof. apply (constant_any_env id id oneLocal substVariables oneEnv None 1). vm_compute. reflexivity. Defined.

Lemma makefile_total_witness : ∃ r c', substMacroDeeply id id oneLocal None (mkPolicy true false true false None None) 1 (bs "x${P}\${Q}") true = Ok (r, c').
Proof. apply (makefile_total id id oneLocal None (mkPolicy true false true false None None)). reflexivity. Defined.
