(* ===== verification/ConfMacros.v ===== *)
(** * Macros of the configuration (conf.go)

    A macro has a signature of keywords, positional parameters and a variadic one.
    [sig_bind] gives each argument of a call to a parameter.  The expansion of a call
    is kept per macro and arguments, in a hash table of chains, and the arguments of
    the calls in its body are kept as well where they do not depend on the
    environment.  Shown: no argument is lost or doubled, a call written from values
    binds those values, and a kept expansion is the one a fresh one would be.
    A pointer to an expansion is its place in the arena, from 1 on; 0 is nil. *)

From S2P Require Import Prelude Vec Words Probing IntMap Tags Env MacroString.
Local Open Scope string_scope.
Local Open Scope list_scope.
Local Open Scope Z_scope.

Abbreviation text := (list Z) (only parsing).
Abbreviation STR := (option (list Z)) (only parsing).
Abbreviation look := (list Z → option (list Z * option VFS)) (only parsing).

(** ** Signatures *)

Inductive ConfKeywordKind := confKeywordFlag | confKeywordScalar | confKeywordArray.
#[export] Instance ConfKeywordKind_eq_dec : EqDecision ConfKeywordKind.
Proof. solve_decision. Defined.

Record ConfKeyword := mkKeyword { kname : text; kind : ConfKeywordKind; present : list ANY; missing : list ANY }.
Record ConfMacroSignature := mkSig { keywords : list ConfKeyword; positional : list text; vararg : STR }.

Definition named (n : text) : ANY := AStr (Some n).

(** [None] is the code's -1. *)
Fixpoint keyword_from (ks : list ConfKeyword) (arg : ANY) (i : nat) : option (nat * ConfKeyword) :=
  match ks with
  | [] => None
  | k :: ks => if decide (named (kname k) = arg) then Some (i, k) else keyword_from ks arg (S i)
  end.
Definition keyword (sig : ConfMacroSignature) (arg : ANY) : option (nat * ConfKeyword) := keyword_from (keywords sig) arg 0.
Definition isKeyword (sig : ConfMacroSignature) (arg : ANY) : bool := match keyword sig arg with Some _ => true | None => false end.

(** The arguments up to the next keyword, and the rest. *)
Fixpoint arrayEnd (sig : ConfMacroSignature) (args : list ANY) : list ANY * list ANY :=
  match args with
  | [] => ([], [])
  | a :: args' => if isKeyword sig a then ([], args) else let '(l, r) := arrayEnd sig args' in (a :: l, r)
  end.

Definition binding_append (values : list ANY) (b : confMacroBinding) : confMacroBinding :=
  mkBinding (bname b)
    (if decide (bvalues b = []) then values else if decide (values = []) then bvalues b else bvalues b ++ values) true.

Definition fail_missing (n : text) : text := bs "Value for '" ++ n ++ bs "' argument is missing.".
Definition fail_twice (n : text) : text := bs "Keyword '" ++ n ++ bs "' appears more than once and is not an array.".
Definition fail_scalar (n : text) : text := bs "Missing value for scalar keyword '" ++ n ++ bs "'.".
Definition fail_mixed (a : ANY) (n : text) : text :=
  bs "Mixing positional arguments with named arrays is error prone and forbidden." ++ [10; 9] ++
  bs "Got positional arg '" ++ any_string a ++ bs "' after named array '" ++ n ++ bs "' has been started.".
Definition fail_many (a : ANY) : text := bs "More positional arguments passed than expected. Can't handle arg: '" ++ any_string a ++ bs "'.".

(** The loop over the arguments; the second result is the failure, [""] for none. *)
Fixpoint bindLoop (fuel : nat) (sig : ConfMacroSignature) (args : list ANY) (next : nat) (array : STR) (locals : list confMacroBinding)
    : res (list confMacroBinding * text) :=
  match args with
  | [] => Ok (locals, match positional sig !! next with Some n => fail_missing n | None => [] end)
  | a :: args' =>
      match fuel with
      | O => NoFuel
      | S fuel =>
          match keyword sig a with
          | Some (k, kw) =>
              b ← lift (locals !! k);
              if bound b && negb (bool_decide (kind kw = confKeywordArray)) then Ok (locals, fail_twice (kname kw))
              else
                match kind kw with
                | confKeywordFlag => bindLoop fuel sig args' next array (alter (binding_append (present kw)) k locals)
                | confKeywordScalar =>
                    match args' with
                    | [] => Ok (locals, fail_scalar (kname kw))
                    | v :: args'' =>
                        if isKeyword sig v then Ok (locals, fail_scalar (kname kw))
                        else bindLoop fuel sig args'' next array (alter (binding_append [v]) k locals)
                    end
                | confKeywordArray =>
                    let '(vs, rest) := arrayEnd sig args' in
                    bindLoop fuel sig rest next (Some (kname kw)) (alter (binding_append vs) k locals)
                end
          | None =>
              match array with
              | Some n => Ok (locals, fail_mixed a n)
              | None =>
                  if decide (next < length (positional sig))%nat then
                    bindLoop fuel sig args' (S next) array (alter (binding_append [a]) (length (keywords sig) + next)%nat locals)
                  else
                    match vararg sig with
                    | None => Ok (locals, fail_many a)
                    | Some _ =>
                        let '(vs, rest) := arrayEnd sig args in
                        bindLoop fuel sig rest next array (alter (binding_append vs) (length locals - 1)%nat locals)
                    end
              end
          end
      end
  end.

(** The values of keywords that were not given. *)
Fixpoint bindMissing (ks : list ConfKeyword) (i : nat) (locals : list confMacroBinding) : res (list confMacroBinding) :=
  match ks with
  | [] => Ok locals
  | kw :: ks =>
      b ← lift (locals !! i);
      bindMissing ks (S i) (if bound b then locals else alter (binding_append (missing kw)) i locals)
  end.

Definition emptyLocals (sig : ConfMacroSignature) : list confMacroBinding :=
  ((λ k, mkBinding (kname k) [] false) <$> keywords sig) ++ ((λ n, mkBinding n [] false) <$> positional sig) ++
  match vararg sig with Some n => [mkBinding n [] false] | None => [] end.

Definition sig_bind (sig : ConfMacroSignature) (args : list ANY) : res (list confMacroBinding * text) :=
  '(locals, failure) ← bindLoop (length args) sig args 0 None (emptyLocals sig);
  if decide (failure = []) then
    locals ← bindMissing (keywords sig) 0 locals;
    Ok (match vararg sig with
        | Some _ => alter (λ b, mkBinding (bname b) (bvalues b) true) (length locals - 1)%nat locals
        | None => locals
        end, [])
  else Ok (locals, failure).

(** ** What a call binds *)

Lemma keyword_from_spec ks arg i j kw : keyword_from ks arg i = Some (j, kw) → (i <= j)%nat ∧ ks !! (j - i)%nat = Some kw ∧ named (kname kw) = arg.
Proof.
  revert i. induction ks as [|k ks IH]; intros i; simpl; [done|]. case_decide as Hk.
  - intros [= -> ->]. rewrite Nat.sub_diag. by split_and!.
  - intros (Hl & Hj & Ha)%IH. split_and!; [lia| |done]. by replace (j - i)%nat with (S (j - S i))%nat by lia.
Qed.

Lemma keyword_spec sig arg j kw : keyword sig arg = Some (j, kw) → keywords sig !! j = Some kw ∧ named (kname kw) = arg.
Proof. intros (_ & Hj & Ha)%keyword_from_spec. by rewrite Nat.sub_0_r in Hj. Qed.

Lemma arrayEnd_app sig args : let '(l, r) := arrayEnd sig args in args = l ++ r ∧ Forall (λ a, isKeyword sig a = false) l.
Proof.
  induction args as [|a args IH]; simpl; [by split|]. destruct (isKeyword sig a) eqn:E; [by split|]. destruct (arrayEnd sig args) as [l r]. destruct IH as [-> Hf]. split; [done|by constructor].
Qed.

Lemma binding_append_values vs b : bvalues (binding_append vs b) = bvalues b ++ vs.
Proof. unfold binding_append. simpl. repeat case_decide; subst; [by rewrite H|by rewrite app_nil_r|done]. Qed.

Section sig.
Context (sig : ConfMacroSignature).
Local Abbreviation nk := (length (keywords sig)).
Local Abbreviation np := (length (positional sig)).

Definition varargs : nat := match vararg sig with Some _ => 1 | None => 0 end.
Definition slots (locals : list confMacroBinding) : Prop := length locals = (nk + np + varargs)%nat.

Lemma emptyLocals_slots : slots (emptyLocals sig).
Proof using Type. unfold slots, emptyLocals, varargs. rewrite !length_app, !length_fmap. destruct (vararg sig); simpl; lia. Qed.

Lemma slots_alter f i locals : slots locals → slots (alter f i locals).
Proof using Type. unfold slots. by rewrite length_alter. Qed.

Lemma keyword_slot locals a k kw : slots locals → keyword sig a = Some (k, kw) → ∃ b, locals !! k = Some b.
Proof using Type. intros Hs [Hk _]%keyword_spec. apply lookup_lt_is_Some. apply lookup_lt_Some in Hk. unfold slots in Hs. lia. Qed.

(** The loop always comes to an end, with a binding for each parameter. *)
Lemma bindLoop_total fuel args next array locals : (length args <= fuel)%nat → slots locals →
  ∃ locals' failure, bindLoop fuel sig args next array locals = Ok (locals', failure) ∧ slots locals'.
Proof using Type.
  revert args next array locals. induction fuel as [|fuel IH]; intros [|a args] next array locals Hf Hs; simpl in Hf; try lia; cbn [bindLoop]; [by eauto..|].
  assert (Ha : ∀ vs i args' next array, (length args' <= length args)%nat →
    ∃ locals' failure, bindLoop fuel sig args' next array (alter (binding_append vs) i locals) = Ok (locals', failure) ∧ slots locals').
  { intros vs i args' next' array' Hl. apply IH; [lia|by apply slots_alter]. }
  assert (Hrest : ∀ l, (length (arrayEnd sig l).2 <= length l)%nat).
  { intros l. pose proof (arrayEnd_app sig l) as H. destruct (arrayEnd sig l). destruct H as [-> _]. rewrite length_app. simpl. lia. }
  destruct (keyword sig a) as [[k kw]|] eqn:Ek.
  - destruct (keyword_slot locals a k kw Hs Ek) as [b ->]. cbn [lift mbind res_bind]. destruct (bound b && _); [by eauto|]. destruct (kind kw); [by apply Ha| |].
    + destruct args as [|v args]; [by eauto|]. destruct (isKeyword sig v); [by eauto|]. apply Ha. simpl. lia.
    + specialize (Hrest args). destruct (arrayEnd sig args) as [vs rest]. by apply Ha.
  - destruct array as [n|]; [by eauto|]. case_decide; [by apply Ha|]. destruct (vararg sig); [|by eauto].
    assert (Hk : isKeyword sig a = false) by (unfold isKeyword; by rewrite Ek). cbn [arrayEnd]. rewrite Hk.
    specialize (Hrest args). destruct (arrayEnd sig args) as [vs rest]. by apply Ha.
Qed.

Lemma bindMissing_total ks i locals : (i + length ks <= length locals)%nat → ∃ locals', bindMissing ks i locals = Ok locals' ∧ length locals' = length locals.
Proof using Type.
  revert i locals. induction ks as [|kw ks IH]; intros i locals Hl; simpl in *; [eauto|].
  destruct (lookup_lt_is_Some_2 locals i ltac:(lia)) as [b ->]. cbn [lift mbind res_bind].
  destruct (IH (S i) (if bound b then locals else alter (binding_append (missing kw)) i locals)) as (l' & Hb & Hlen).
  { destruct (bound b); rewrite ?length_alter; lia. }
  exists l'. split; [done|]. rewrite Hlen. by destruct (bound b); rewrite ?length_alter.
Qed.

Lemma sig_bind_total args : ∃ locals failure, sig_bind sig args = Ok (locals, failure) ∧ slots locals.
Proof using Type.
  unfold sig_bind. destruct (bindLoop_total (length args) args 0 None (emptyLocals sig) ltac:(lia) emptyLocals_slots) as (l & f & -> & Hs).
  cbn [mbind res_bind]. case_decide; [|by eauto]. destruct (bindMissing_total (keywords sig) 0 l) as (l' & -> & Hl); [unfold slots in Hs; lia|].
  cbn [mbind res_bind]. eexists _, _. split; [done|]. destruct (vararg sig); [apply slots_alter|]; unfold slots in *; lia.
Qed.

(** The values of the slots in [used]. *)
Definition valuesAt (locals : list confMacroBinding) (i : nat) : list ANY := default [] (bvalues <$> locals !! i).
Definition given (used : nat → bool) (locals : list confMacroBinding) : list ANY :=
  mjoin ((λ i, if used i then valuesAt locals i else []) <$> seq 0 (length locals)).
Definition notFlag (i : nat) : bool := match keywords sig !! i with Some kw => negb (bool_decide (kind kw = confKeywordFlag)) | None => true end.
Definition keyName (i : nat) : ANY := match keywords sig !! i with Some kw => named (kname kw) | None => AStr None end.

Lemma mjoin_update (f g : nat → list ANY) l i vs : NoDup l → i ∈ l → g i = f i ++ vs → (∀ j, j ≠ i → g j = f j) → mjoin (g <$> l) ≡ₚ vs ++ mjoin (f <$> l).
Proof using Type.
  intros Hnd Hi Hg Hj. induction Hnd as [|x l Hx Hnd IH]; [by apply elem_of_nil in Hi|].
  assert (Hc : ∀ (h : nat → list ANY), mjoin (h <$> x :: l) = h x ++ mjoin (h <$> l)) by done. rewrite !Hc. apply elem_of_cons in Hi as [<-|Hi].
  - rewrite Hg. assert (mjoin (g <$> l) = mjoin (f <$> l)) as ->. { f_equal. apply list_fmap_ext. intros n y Hy. apply Hj. intros ->. by apply Hx, (list_elem_of_lookup_2 _ n). }
    rewrite app_assoc. apply Permutation_app_tail, Permutation_app_comm.
  - rewrite (Hj x) by (intros ->; done). rewrite IH by done. rewrite !app_assoc. apply Permutation_app_tail, Permutation_app_comm.
Qed.

Lemma given_alter locals i vs : (i < length locals)%nat → notFlag i = true →
  given notFlag (alter (binding_append vs) i locals) ≡ₚ vs ++ given notFlag locals.
Proof using Type.
  intros Hi Hn. unfold given. rewrite length_alter. apply (mjoin_update _ _ _ i); [apply NoDup_seq|apply elem_of_seq; lia| |].
  - rewrite Hn. unfold valuesAt. destruct (lookup_lt_is_Some_2 _ _ Hi) as [b Hb]. rewrite list_lookup_alter_eq, Hb. simpl. apply binding_append_values.
  - intros j Hj. unfold valuesAt. by rewrite list_lookup_alter_ne by done.
Qed.

Lemma given_flag locals i vs : notFlag i = false → given notFlag (alter (binding_append vs) i locals) = given notFlag locals.
Proof using Type.
  intros Hn. unfold given. rewrite length_alter. f_equal. apply list_fmap_ext. intros n j _. destruct (notFlag j) eqn:E; [|done].
  unfold valuesAt. by rewrite list_lookup_alter_ne by (intros ->; congruence).
Qed.

(** The state of the loop: the keywords seen and the positional arguments taken. *)
Record taking (marks : list nat) (next : nat) (locals : list confMacroBinding) : Prop := {
  tk_slots : slots locals;
  tk_key : ∀ i b, (i < nk)%nat → locals !! i = Some b → (bound b = true ↔ i ∈ marks) ∧ (i ∉ marks → bvalues b = []);
  tk_pos : ∀ j b, (j < np)%nat → locals !! (nk + j)%nat = Some b → if decide (j < next)%nat then ∃ v, bvalues b = [v] else bvalues b = [];
}.

Lemma taking_keyword marks next locals k vs : taking marks next locals → (k < nk)%nat → taking (k :: marks) next (alter (binding_append vs) k locals).
Proof using Type.
  intros [Hs Hk Hp] Hlt. split; [by apply slots_alter| |].
  - intros i b Hi. destruct (decide (i = k)) as [->|Hne].
    + rewrite list_lookup_alter_eq. intros (b' & _ & ->)%fmap_Some. split; [|intros H; exfalso; apply H; by left]. split; [by left|done].
    + rewrite list_lookup_alter_ne by done. intros Hb. destruct (Hk i b Hi Hb) as [H1 H2]. rewrite not_elem_of_cons, elem_of_cons, H1. naive_solver.
  - intros j b Hj. rewrite list_lookup_alter_ne by lia. by apply Hp.
Qed.

Lemma taking_next marks next locals v : taking marks next locals → (next < np)%nat → taking marks (S next) (alter (binding_append [v]) (nk + next)%nat locals).
Proof using Type.
  intros [Hs Hk Hp] Hlt. split; [by apply slots_alter| |].
  - intros i b Hi. rewrite list_lookup_alter_ne by lia. by apply Hk.
  - intros j b Hj. destruct (decide (j = next)) as [->|Hne].
    + rewrite list_lookup_alter_eq. intros (b' & Hb & Hl)%fmap_Some. specialize (Hp next b' Hj Hb). rewrite decide_False in Hp by lia. rewrite decide_True by lia.
      exists v. subst b. by rewrite binding_append_values, Hp.
    + rewrite list_lookup_alter_ne by lia. intros Hb. specialize (Hp j b Hj Hb). repeat case_decide; try done; lia.
Qed.

Lemma taking_vararg marks next locals vs : taking marks next locals → is_Some (vararg sig) → taking marks next (alter (binding_append vs) (length locals - 1)%nat locals).
Proof using Type.
  intros [Hs Hk Hp] [n Hv]. unfold slots, varargs in Hs. rewrite Hv in Hs. split; [by apply slots_alter; unfold slots, varargs; rewrite Hv| |].
  - intros i b Hi. rewrite list_lookup_alter_ne by lia. by apply Hk.
  - intros j b Hj. rewrite list_lookup_alter_ne by lia. by apply Hp.
Qed.

Lemma failures_nonempty : (∀ n, fail_missing n ≠ []) ∧ (∀ n, fail_twice n ≠ []) ∧ (∀ n, fail_scalar n ≠ []) ∧ (∀ a n, fail_mixed a n ≠ []) ∧ (∀ a, fail_many a ≠ []).
Proof using Type. split_and!; done. Qed.

(** What was bound in the slots and the keywords are what was in the arguments. *)
Definition takes (args : list ANY) (marks : list nat) (locals locals' : list confMacroBinding) : Prop :=
  args ++ given notFlag locals ≡ₚ (keyName <$> marks) ++ given notFlag locals'.

Lemma takes_values l rest marks locals locals' i vs : (i < length locals)%nat → notFlag i = true → l ≡ₚ vs →
  takes rest marks (alter (binding_append vs) i locals) locals' → takes (l ++ rest) marks locals locals'.
Proof using Type.
  unfold takes. intros Hi Hn Hl. rewrite given_alter by done. intros <-. rewrite Hl. rewrite !app_assoc. apply Permutation_app_tail, Permutation_app_comm.
Qed.

Lemma takes_mark rest marks locals locals' k : takes rest marks locals locals' → takes (keyName k :: rest) (marks ++ [k]) locals locals'.
Proof using Type. unfold takes. intros H. rewrite fmap_app, <-app_assoc. cbn [fmap list_fmap app]. rewrite <-Permutation_middle. by rewrite H. Qed.

Lemma notFlag_keyword a k kw : keyword sig a = Some (k, kw) → (k < nk)%nat ∧ keyName k = a ∧ notFlag k = negb (bool_decide (kind kw = confKeywordFlag)).
Proof using Type. intros [Hk Ha]%keyword_spec. unfold keyName, notFlag. rewrite Hk. split; [by apply lookup_lt_Some in Hk|done]. Qed.

Lemma notFlag_ge i : (nk <= i)%nat → notFlag i = true.
Proof using Type. intros Hi. unfold notFlag. by rewrite lookup_ge_None_2. Qed.

Lemma bindLoop_takes fuel args next array locals marks0 locals' :
  taking marks0 next locals → (next <= np)%nat → bindLoop fuel sig args next array locals = Ok (locals', []) →
  ∃ marks, taking (marks ++ marks0) np locals' ∧ takes args marks locals locals'.
Proof using Type.
  revert args next array locals marks0. induction fuel as [|fuel IH]; intros [|a args] next array locals marks0 Ht Hn; cbn [bindLoop]; try done.
  1-2: destruct (positional sig !! next) as [n|] eqn:Ep; [intros Hf; exfalso; apply (proj1 failures_nonempty n); congruence|]; intros [= <-]; exists []; split; [|by unfold takes];
    apply lookup_ge_None_1 in Ep; by replace np with next by lia.
  pose proof (tk_slots _ _ _ Ht) as Hs. destruct (keyword sig a) as [[k kw]|] eqn:Ek.
  - destruct (notFlag_keyword a k kw Ek) as (Hlt & Hname & Hnf). destruct (keyword_slot locals a k kw Hs Ek) as [b Hb]. rewrite Hb. cbn [lift mbind res_bind].
    assert (Hlen : (k < length locals)%nat) by (by apply lookup_lt_Some in Hb).
    destruct (bound b && _); [done|]. destruct (kind kw).
    + intros (marks & Hi & Htk)%(IH _ _ _ _ (k :: marks0)); [|by apply taking_keyword|done]. exists (marks ++ [k]). split; [by rewrite <-app_assoc|].
      rewrite <-Hname. apply takes_mark. unfold takes in *. by rewrite given_flag in Htk.
    + destruct args as [|v args]; [done|]. destruct (isKeyword sig v); [done|].
      intros (marks & Hi & Htk)%(IH _ _ _ _ (k :: marks0)); [|by apply taking_keyword|done]. exists (marks ++ [k]). split; [by rewrite <-app_assoc|].
      rewrite <-Hname. apply takes_mark. change (v :: args) with ([v] ++ args). by eapply takes_values.
    + pose proof (arrayEnd_app sig args) as Hr. destruct (arrayEnd sig args) as [vs rest]. destruct Hr as [-> _].
      intros (marks & Hi & Htk)%(IH _ _ _ _ (k :: marks0)); [|by apply taking_keyword|done]. exists (marks ++ [k]). split; [by rewrite <-app_assoc|].
      rewrite <-Hname. apply takes_mark. by eapply takes_values.
  - destruct array as [n|]; [done|]. unfold slots in Hs. case_decide as Hpos.
    + intros (marks & Hi & Htk)%(IH _ _ _ _ marks0); [|by apply taking_next|lia]. exists marks. split; [done|]. change (a :: args) with ([a] ++ args).
      eapply takes_values; [|apply notFlag_ge|done|done]; lia.
    + destruct (vararg sig) as [n|] eqn:Ev; [|done]. assert (Hv : varargs = 1%nat) by (unfold varargs; by rewrite Ev).
      pose proof (arrayEnd_app sig (a :: args)) as Hr. destruct (arrayEnd sig (a :: args)) as [vs rest]. destruct Hr as [-> _].
      intros (marks & Hi & Htk)%(IH _ _ _ _ marks0); [|apply taking_vararg; [done|by rewrite Ev]|done]. exists marks. split; [done|].
      eapply takes_values; [|apply notFlag_ge|done|done]; lia.
Qed.

Lemma bindMissing_spec ks i locals locals' : bindMissing ks i locals = Ok locals' →
  length locals' = length locals ∧
  ∀ j b, locals !! j = Some b → locals' !! j =
    Some (match (if decide (i <= j)%nat then ks !! (j - i)%nat else None) with Some kw => if bound b then b else binding_append (missing kw) b | None => b end).
Proof using Type.
  revert i locals. induction ks as [|kw ks IH]; intros i locals; cbn [bindMissing].
  - intros [= <-]. split; [done|]. intros j b Hb. rewrite lookup_nil. by case_decide.
  - destruct (locals !! i) as [b|] eqn:Hb; [|done]. cbn [lift mbind res_bind]. intros [Hl Hj]%IH. split; [rewrite Hl; by destruct (bound b); rewrite ?length_alter|].
    intros j b' Hb'. destruct (decide (j = i)) as [->|Hne].
    + replace b' with b by congruence. rewrite decide_True, Nat.sub_diag by lia. simpl.
      rewrite (Hj i (if bound b then b else binding_append (missing kw) b)) by (destruct (bound b); [done|]; by rewrite list_lookup_alter_eq, Hb).
      by rewrite decide_False by lia.
    + rewrite (Hj j b') by (destruct (bound b); [done|]; by rewrite list_lookup_alter_ne). do 2 f_equal.
      destruct (decide (i <= j)%nat) as [Hij|Hij]; [|by rewrite decide_False by lia]. rewrite decide_True by lia. by replace (j - i)%nat with (S (j - S i)) by lia.
Qed.

Lemma emptyLocals_unbound i b : emptyLocals sig !! i = Some b → bound b = false ∧ bvalues b = [].
Proof using Type.
  intros Hb%list_elem_of_lookup_2. unfold emptyLocals in Hb. rewrite !elem_of_app, !list_elem_of_fmap in Hb.
  destruct Hb as [(? & -> & _)|[(? & -> & _)|Hb]]; [done..|]. destruct (vararg sig); [|by apply elem_of_nil in Hb]. by apply list_elem_of_singleton in Hb as ->.
Qed.

Lemma taking_empty : taking [] 0 (emptyLocals sig).
Proof using Type.
  split; [apply emptyLocals_slots| |].
  - intros i b _ [H1 H2]%emptyLocals_unbound. rewrite H1. split; [|done]. split; [done|]. intros H%elem_of_nil. done.
  - intros j b _ [_ H2]%emptyLocals_unbound. by rewrite decide_False by lia.
Qed.

Lemma given_empty : given notFlag (emptyLocals sig) = [].
Proof using Type.
  unfold given. apply elem_of_nil_inv. intros a (l & Ha & (i & -> & Hi)%list_elem_of_fmap)%list_elem_of_join. destruct (notFlag i); [|by apply elem_of_nil in Ha].
  unfold valuesAt in Ha. destruct (emptyLocals sig !! i) as [b|] eqn:Hb; simpl in Ha; [|by apply elem_of_nil in Ha].
  apply emptyLocals_unbound in Hb as [_ Hv]. rewrite Hv in Ha. by apply elem_of_nil in Ha.
Qed.

(** The slots that hold arguments of the call: the positional ones, the variadic one and the keywords that were given, flags apart. *)
Definition holding (marks : list nat) (i : nat) : bool := notFlag i && (bool_decide (nk <= i)%nat || bool_decide (i ∈ marks)).

Lemma given_holding marks next l l' : taking marks next l → length l' = length l →
  (∀ i b, l !! i = Some b → (nk <= i)%nat ∨ i ∈ marks → bvalues <$> l' !! i = Some (bvalues b)) → given (holding marks) l' = given notFlag l.
Proof using Type.
  intros [Hs Hk Hp] Hlen Hkeep. unfold given. rewrite Hlen. f_equal. apply list_fmap_ext. intros n i Hi. apply list_elem_of_lookup_2, elem_of_seq in Hi.
  unfold holding. destruct (notFlag i); [|done]. cbn [andb]. unfold valuesAt. destruct (lookup_lt_is_Some_2 l i ltac:(lia)) as [b Hb]. rewrite Hb. cbn [fmap option_fmap option_map default].
  destruct (bool_decide (nk <= i)%nat) eqn:E1; [apply bool_decide_eq_true in E1; cbn [orb]; by rewrite (Hkeep i b Hb) by (by left)|]. cbn [orb].
  destruct (bool_decide (i ∈ marks)) eqn:E2; [apply bool_decide_eq_true in E2; by rewrite (Hkeep i b Hb) by (by right)|].
  apply bool_decide_eq_false in E1, E2. destruct (Hk i b ltac:(lia) Hb) as [_ ->]; done.
Qed.

(** C17: a call that binds without failure loses no argument and doubles none: the
    arguments are the keywords given and the values of the slots that hold
    arguments; each positional parameter has one value, and a keyword that was not
    given has the values of its default. *)
Theorem sig_bind_arguments args locals : sig_bind sig args = Ok (locals, []) →
  ∃ marks, args ≡ₚ (keyName <$> marks) ++ given (holding marks) locals
    ∧ (∀ j, (j < np)%nat → ∃ v, valuesAt locals (nk + j)%nat = [v])
    ∧ (∀ k kw, keywords sig !! k = Some kw → k ∉ marks → valuesAt locals k = missing kw).
Proof using Type.
  unfold sig_bind. destruct (bindLoop _ _ _ _ _ _) as [[l f]| |] eqn:El; [|done..]. cbn [mbind res_bind]. case_decide as Hf; [subst f|by intros [= -> ->]].
  apply (bindLoop_takes _ _ _ _ _ []) in El as (marks & Ht & Hperm); [|apply taking_empty|lia]. rewrite app_nil_r in Ht. unfold takes in Hperm. rewrite given_empty, app_nil_r in Hperm.
  destruct (bindMissing (keywords sig) 0 l) as [l1| |] eqn:Em; [|done..]. cbn [mbind res_bind]. intros [= <-]. apply bindMissing_spec in Em as [Hlen Hm].
  set (l2 := match vararg sig with Some _ => _ | None => l1 end). pose proof Ht as [Hs Hk Hp].
  assert (Hv : ∀ i, bvalues <$> l2 !! i = bvalues <$> l1 !! i).
  { intros i. unfold l2. destruct (vararg sig); [|done]. destruct (decide (i = length l1 - 1)%nat) as [->|Hne]; [|by rewrite list_lookup_alter_ne by done].
    rewrite list_lookup_alter_eq. by destruct (l1 !! _). }
  assert (Hl2 : length l2 = length l). { unfold l2. destruct (vararg sig); by rewrite ?length_alter. }
  exists marks. split_and!.
  - rewrite Hperm. f_equiv. erewrite given_holding; [done|done|done|]. intros i b Hb Hor. rewrite Hv, (Hm i b Hb). cbn [fmap option_fmap option_map]. f_equal.
    rewrite decide_True, Nat.sub_0_r by lia. destruct (keywords sig !! i) as [kw|] eqn:Ekw; [|done]. destruct Hor as [Hge|Hin].
    + apply lookup_lt_Some in Ekw. lia.
    + apply lookup_lt_Some in Ekw. destruct (Hk i b Ekw Hb) as [Hbd _]. by rewrite (proj2 Hbd Hin).
  - intros j Hj. unfold slots in Hs. destruct (lookup_lt_is_Some_2 l (nk + j)%nat ltac:(lia)) as [b Hb]. specialize (Hp j b Hj Hb). rewrite decide_True in Hp by done.
    unfold valuesAt. rewrite Hv, (Hm _ _ Hb), decide_True, Nat.sub_0_r by lia. by rewrite (lookup_ge_None_2 (keywords sig)) by lia.
  - intros k kw Hkw Hnk. pose proof (lookup_lt_Some _ _ _ Hkw) as Hlt. unfold slots in Hs. destruct (lookup_lt_is_Some_2 l k ltac:(lia)) as [b Hb].
    destruct (Hk k b Hlt Hb) as [Hbd Hnil]. unfold valuesAt. rewrite Hv, (Hm _ _ Hb), decide_True, Nat.sub_0_r, Hkw by lia.
    destruct (bound b) eqn:Eb; [exfalso; by apply Hnk, Hbd|]. cbn [fmap option_fmap option_map default]. by rewrite binding_append_values, Hnil.
Qed.
End sig.

(** ** Expansions and their table *)

Record ConfMacroCall := mkCall { callName : text; callArgs : text }.
Record confMacroLocal := mkLocal { localName : text; localValue : ANY }.
Record confMacroCallExpansion := mkCallExpansion { cargs : list ANY; constant : bool }.

(** [owner] is the macro whose table holds the expansion: the code knows it from
    where it got the pointer. *)
Record confMacroExpansion := mkExpansion {
  owner : nat; next : Z; eargs : list ANY; elocals : list confMacroBinding; ecalls : list confMacroCallExpansion; failure : text }.

Record ConfMacro := mkMacro { sig : ConfMacroSignature; calls : list ConfMacroCall; mlocals : list confMacroLocal; expansions : option (IntMap.IntMap Z) }.

(** The macros by number, the arena of expansions, the memo of split texts and the
    depth of calls of the module that is read. *)
Record ConfState := mkState { macros : list ConfMacro; arena : list confMacroExpansion; argsMemo : gmap text (list ANY); depth : Z }.

Definition deref (st : ConfState) (p : Z) : option confMacroExpansion := if decide (0 < p) then arena st !! Z.to_nat (p - 1) else None.

Definition setExpansions (im : IntMap.IntMap Z) (m : ConfMacro) : ConfMacro := mkMacro (sig m) (calls m) (mlocals m) (Some im).
Definition setArena (st : ConfState) (a : list confMacroExpansion) : ConfState := mkState (macros st) a (argsMemo st) (depth st).
Definition setMacros (st : ConfState) (ms : list ConfMacro) : ConfState := mkState ms (arena st) (argsMemo st) (depth st).
Definition setMemo (st : ConfState) (m : gmap text (list ANY)) : ConfState := mkState (macros st) (arena st) m (depth st).
Definition setDepth (st : ConfState) (d : Z) : ConfState := mkState (macros st) (arena st) (argsMemo st) d.

Definition localBinding (l : confMacroLocal) : confMacroBinding := mkBinding (localName l) [localValue l] true.

(** The bindings of a call and its failure, made anew. *)
Definition bindAnew (m : ConfMacro) (args : list ANY) : res (list confMacroBinding * text) :=
  '(locals, failure) ← sig_bind (sig m) args;
  Ok (match mlocals m with [] => locals | _ => locals ++ (localBinding <$> mlocals m) end, failure).

(** [for expansion := *cell; expansion != nil; expansion = expansion.next] *)
Fixpoint chainFind (fuel : nat) (st : ConfState) (p : Z) (args : list ANY) : res (option Z) :=
  if decide (p = 0) then Ok None
  else
    match fuel with
    | O => NoFuel
    | S fuel => e ← lift (deref st p); if decide (eargs e = args) then Ok (Some p) else chainFind fuel st (next e) args
    end.

(** The hash of the arguments is a parameter. *)
Section state.
Context (hash : list ANY → Z).

Definition keyOf (args : list ANY) : Z := if decide (args = []) then 1 else Z.lor (hash args) 1.

Definition bind (m : nat) (args : list ANY) (st : ConfState) : res (Z * ConfState) :=
  macro ← lift (macros st !! m);
  im ← lift (match expansions macro with None => IntMap.newIntMap 4 | Some im => Some im end);
  '(im, (cell, _)) ← lift (IntMap.cell im (keyOf args));
  head ← lift (IntMap.load im cell);
  found ← chainFind (length (arena st)) st head args;
  match found with
  | Some p => Ok (p, setMacros st (<[m := setExpansions im macro]> (macros st)))
  | None =>
      '(locals, failure) ← bindAnew macro args;
      let expansion := mkExpansion m head args locals (replicate (length (calls macro)) (mkCallExpansion [] false)) failure in
      let p := Z.of_nat (length (arena st)) + 1 in
      im ← lift (IntMap.store im cell p);
      Ok (p, setArena (setMacros st (<[m := setExpansions im macro]> (macros st))) (arena st ++ [expansion]))
  end.
End state.

(** [strings.SplitSeq(text, " ")] without the empty pieces. *)
Fixpoint splitSpaces (s cur : text) : list text :=
  match s with
  | [] => [cur]
  | b :: s => if b =? 32 then cur :: splitSpaces s [] else splitSpaces s (cur ++ [b])
  end.
Definition macroArgsSeq (s : text) : list text := List.filter (λ a, negb (bool_decide (a = []))) (splitSpaces s []).

Definition macroArgs (t : text) (st : ConfState) : list ANY * ConfState :=
  match argsMemo st !! t with
  | Some args => (args, st)
  | None => let args := named <$> macroArgsSeq t in (args, setMemo st (<[t := args]> (argsMemo st)))
  end.

Section calls.
Context (getenv md5 : text → text) (fuel : nat).

(** The text of a call's arguments in an environment. *)
Definition callText (locals : list confMacroBinding) (env : look) (t : text) : res (text * bool) :=
  if bool_decide (36 ∈ t) then substMacroDeeply getenv md5 locals (Some env) substVariables fuel t true else Ok (t, true).

(** One turn of the loop of [macroCalls], up to the call of [visit]. *)
Definition callStep (m : nat) (p : Z) (i : nat) (env : look) (st : ConfState) : res (text * list ANY * ConfState) :=
  macro ← lift (macros st !! m);
  call ← lift (calls macro !! i);
  e ← lift (deref st p);
  cached ← lift (ecalls e !! i);
  if constant cached then Ok (callName call, cargs cached, st)
  else
    '(t, constant) ← callText (elocals e) env (callArgs call);
    let '(args, st) := macroArgs t st in
    Ok (callName call, args,
        if (constant : bool) then
          setArena st (alter (λ e, mkExpansion (owner e) (next e) (eargs e) (elocals e) (<[i := mkCallExpansion args true]> (ecalls e)) (failure e)) (Z.to_nat (p - 1)) (arena st))
        else st).

Context (hash : list ANY → Z).
Context {W : Type} (envOf : W → look) (visit : text → list ANY → W → ConfState → res (W * ConfState)).

(** What the loop visits is recorded, with the world of the moment. *)
Fixpoint callLoop (m : nat) (p : Z) (is_ : list nat) (w : W) (st : ConfState) : res (list (nat * W * text * list ANY) * W * ConfState) :=
  match is_ with
  | [] => Ok ([], w, st)
  | i :: is_ =>
      '(name, args, st) ← callStep m p i (envOf w) st;
      '(w', st) ← visit name args w st;
      '(log, w'', st) ← callLoop m p is_ w' st;
      Ok ((i, w, name, args) :: log, w'', st)
  end.

Definition confMacroCallStackSize : Z := 100.

(** The failure that is warned about, the visits, and the depth back as it was. *)
Definition macroCalls (m : nat) (args : list ANY) (w : W) (st : ConfState) : res (text * list (nat * W * text * list ANY) * W * ConfState) :=
  if depth st =? confMacroCallStackSize then Throw
  else
    macro ← lift (macros st !! m);
    '(p, st) ← bind hash m args st;
    e ← lift (deref st p);
    '(log, w, st) ← callLoop m p (seq 0 (length (calls macro))) w (setDepth st (depth st + 1));
    Ok (failure e, log, w, setDepth st (depth st - 1)).
End calls.

(** ** The kept expansions are what fresh ones would be *)

Definition static (m : ConfMacro) : ConfMacroSignature * list ConfMacroCall * list confMacroLocal := (sig m, calls m, mlocals m).

Lemma bindAnew_static m m' args : static m = static m' → bindAnew m args = bindAnew m' args.
Proof. unfold static, bindAnew. by intros [= -> _ ->]. Qed.

Lemma bindAnew_total m args : ∃ locals f, bindAnew m args = Ok (locals, f).
Proof. unfold bindAnew. destruct (sig_bind_total (sig m) args) as (l & f & -> & _). cbn [mbind res_bind]. eauto. Qed.

Section invariant.
Context (getenv md5 : text → text) (fuel : nat) (hash : list ANY → Z).
Local Abbreviation callText := (callText getenv md5 fuel).
Local Abbreviation callStep := (callStep getenv md5 fuel).

Definition split (t : text) : list ANY := named <$> macroArgsSeq t.

(** A constant call of an expansion has the arguments that any environment gives. *)
Definition keptCall (locals : list confMacroBinding) (c : confMacroCallExpansion) (call : ConfMacroCall) : Prop :=
  constant c = true → ∃ t, (∀ env, callText locals env (callArgs call) = Ok (t, true)) ∧ cargs c = split t.

(** [ms] are the macros without their tables: what does not change. *)
Definition good (ms : list (ConfMacroSignature * list ConfMacroCall * list confMacroLocal)) (e : confMacroExpansion) : Prop :=
  ∃ macro, ms !! owner e = Some (static macro) ∧ bindAnew macro (eargs e) = Ok (elocals e, failure e) ∧ Forall2 (keptCall (elocals e)) (ecalls e) (calls macro).

Definition owned (st : ConfState) (m : nat) (p : Z) : Prop := ∃ e, deref st p = Some e ∧ owner e = m.
Definition chained (st : ConfState) (m : nat) (p : Z) : Prop := p = 0 ∨ owned st m p.

Record Inv ms (st : ConfState) : Prop := {
  inv_static : static <$> macros st = ms;
  inv_arena : ∀ n e, arena st !! n = Some e → good ms e ∧ next e <= Z.of_nat n ∧ chained st (owner e) (next e);
  inv_tables : ∀ m macro im, macros st !! m = Some macro → expansions macro = Some im → ∃ M, IntMap.repr im M ∧ ∀ k p, M !! k = Some p → chained st m p;
  inv_memo : ∀ t args, argsMemo st !! t = Some args → args = split t;
}.

Definition handle (st : ConfState) (m : nat) (args : list ANY) (p : Z) : Prop := ∃ e, deref st p = Some e ∧ owner e = m ∧ eargs e = args.
Definition extends (st st' : ConfState) : Prop := (∀ m args p, handle st m args p → handle st' m args p) ∧ depth st' = depth st.

Lemma deref_lt st p e : deref st p = Some e → 0 < p <= Z.of_nat (length (arena st)) ∧ arena st !! Z.to_nat (p - 1) = Some e.
Proof using Type. unfold deref. case_decide; [|done]. intros He. split; [|done]. apply lookup_lt_Some in He. lia. Qed.

Lemma chainFind_spec ms st f m p args : Inv ms st → chained st m p → p <= Z.of_nat f →
  ∃ o, chainFind f st p args = Ok o ∧ match o with Some q => handle st m args q | None => True end.
Proof using Type.
  intros HI. revert p. induction f as [|f IH]; intros p Hc Hp; cbn [chainFind]; case_decide as H0; try (by exists None).
  - destruct Hc as [->|(e & He & _)]; [done|]. apply deref_lt in He. lia.
  - destruct Hc as [->|(e & He & Ho)]; [done|]. rewrite He. cbn [lift mbind res_bind]. case_decide as Ha; [exists (Some p); split; [done|by exists e]|].
    apply deref_lt in He as [Hr He]. destruct (inv_arena _ _ HI _ _ He) as (_ & Hn & Hch). apply IH; [by rewrite <-Ho|lia].
Qed.

Lemma extends_arena st st' : (∀ n e, arena st !! n = Some e → ∃ e', arena st' !! n = Some e' ∧ owner e' = owner e ∧ eargs e' = eargs e) → depth st' = depth st → extends st st'.
Proof using Type.
  intros Ha Hd. split; [|done]. intros m args p (e & He & <- & <-). apply deref_lt in He as [Hr He]. destruct (Ha _ _ He) as (e' & He' & Ho & Hx).
  exists e'. split; [|done]. unfold deref. by rewrite decide_True by lia.
Qed.

Lemma chained_extends st st' m p : extends st st' → chained st m p → chained st' m p.
Proof using Type. intros [He _] [->|(e & Hd & Ho)]; [by left|]. right. destruct (He m (eargs e) p) as (e' & ? & ? & _); [by exists e|by exists e']. Qed.

Lemma Inv_table ms st m macro im M : Inv ms st → macros st !! m = Some macro → IntMap.repr im M → (∀ k p, M !! k = Some p → chained st m p) →
  Inv ms (setMacros st (<[m := setExpansions im macro]> (macros st))).
Proof using Type.
  intros [H1 H2 H3 H4] Hm HR HM. split; [|done| |done].
  - simpl. rewrite list_fmap_insert. rewrite list_insert_id; [done|]. by rewrite list_lookup_fmap, Hm.
  - simpl. intros m' macro' im'. destruct (decide (m' = m)) as [->|Hne].
    + rewrite list_lookup_insert_eq by (by eapply lookup_lt_Some). intros [= <-] [= <-]. by exists M.
    + rewrite list_lookup_insert_ne by done. apply H3.
Qed.

Lemma extends_push st e : extends st (setArena st (arena st ++ [e])).
Proof using Type. apply extends_arena; [|done]. intros n e' He. exists e'. split; [|done]. by apply lookup_app_l_Some. Qed.

Lemma Inv_push ms st e : Inv ms st → good ms e → chained st (owner e) (next e) → Inv ms (setArena st (arena st ++ [e])).
Proof using Type.
  intros HI He Hc. pose proof (extends_push st e) as Hx. pose proof HI as [H1 H2 H3 H4]. split; [done| | |done].
  - intros n e'. simpl. rewrite lookup_app_Some. intros [Hn|[Hl Hn]].
    + destruct (H2 _ _ Hn) as (Hg & Hle & Hch). split_and!; [done..|by eapply chained_extends].
    + apply list_lookup_singleton_Some in Hn as [Hn <-]. split_and!; [done| |by eapply chained_extends].
      destruct Hc as [->|(e' & He' & _)]; [lia|]. apply deref_lt in He' as [? _]. lia.
  - intros m macro im Hm Him. destruct (H3 m macro im Hm Him) as (M & HR & HM). exists M. split; [done|]. intros k p Hp. eapply chained_extends; [done|by eapply HM].
Qed.

Lemma keyOf_nonzero args : keyOf hash args ≠ 0.
Proof using Type. unfold keyOf. case_decide; [lia|]. intros [_ H1]%Z.lor_eq_0_iff. lia. Qed.

Lemma deref_push st e : deref (setArena st (arena st ++ [e])) (Z.of_nat (length (arena st)) + 1) = Some e.
Proof using Type. unfold deref. rewrite decide_True by lia. simpl. replace (Z.to_nat (Z.of_nat (length (arena st)) + 1 - 1)) with (length (arena st)) by lia. by rewrite list_lookup_middle. Qed.

Lemma bind_spec ms st m args macro : Inv ms st → macros st !! m = Some macro →
  ∃ p st', bind hash m args st = Ok (p, st') ∧ Inv ms st' ∧ extends st st' ∧ handle st' m args p.
Proof using Type.
  intros HI Hm. unfold bind. rewrite Hm. cbn [lift mbind res_bind].
  assert (∃ im M, match expansions macro with None => IntMap.newIntMap 4 | Some im => Some im end = Some im ∧ IntMap.repr im M ∧ ∀ k p, M !! k = Some p → chained st m p)
    as (im & M & -> & HR & HM).
  { destruct (expansions macro) as [im|] eqn:E; [destruct (inv_tables _ _ HI m macro im Hm E) as (M & ? & ?); by exists im, M|].
    destruct (IntMap.newIntMap_repr (V := Z) 4) as (im & -> & HR). by exists im, ∅. }
  cbn [lift mbind res_bind]. destruct (IntMap.cell_repr im M (keyOf hash args) HR (keyOf_nonzero args)) as (im1 & i & -> & Hat & HR1). cbn [lift mbind res_bind].
  set (M1 := match M !! keyOf hash args with Some _ => M | None => _ end) in HR1.
  assert (HM1 : ∀ k p, M1 !! k = Some p → chained st m p).
  { intros k p. unfold M1. destruct (M !! keyOf hash args); [apply HM|]. rewrite lookup_insert_Some. intros [[_ <-]|[_ Hp]]; [by left|by eapply HM]. }
  assert (∃ head, M1 !! keyOf hash args = Some head) as [head Hhead]. { unfold M1. destruct (M !! keyOf hash args) eqn:E; [eauto|]. rewrite lookup_insert_eq. eauto. }
  rewrite (IntMap.repr_load _ _ _ _ HR1 Hat), Hhead. cbn [lift mbind res_bind]. pose proof (HM1 _ _ Hhead) as Hch.
  destruct (chainFind_spec ms st (length (arena st)) m head args HI Hch) as (o & -> & Ho).
  { destruct Hch as [->|(e & He & _)]; [lia|]. apply deref_lt in He. lia. }
  cbn [mbind res_bind]. destruct o as [p|].
  - eexists p, _. split; [done|]. split; [by eapply Inv_table|]. split; [by apply extends_arena; eauto|]. exact Ho.
  - destruct (bindAnew_total macro args) as (locals & f & Hb). rewrite Hb. cbn [mbind res_bind]. set (e := mkExpansion m head args locals _ f).
    destruct (IntMap.store_repr im1 M1 _ i (Z.of_nat (length (arena st)) + 1) HR1 Hat) as (im2 & -> & HR2). cbn [lift mbind res_bind].
    assert (Hgood : good ms e).
    { exists macro. split_and!; [rewrite <-(inv_static _ _ HI), list_lookup_fmap; simpl; by rewrite Hm|exact Hb|]. apply Forall2_replicate_l; [done|]. apply Forall_true. by intros. }
    assert (HI1 : Inv ms (setArena st (arena st ++ [e]))) by (by apply Inv_push).
    eexists _, _. split; [done|]. split; [|split].
    + eapply (Inv_table ms (setArena st (arena st ++ [e])) m macro im2); [done|done|exact HR2|]. intros k p. rewrite lookup_insert_Some. intros [[_ <-]|[_ Hp]].
      * right. exists e. split; [apply deref_push|done].
      * eapply chained_extends; [apply extends_push|by eapply HM1].
    + apply (extends_push st e).
    + exists e. split; [apply (deref_push st e)|done].
Qed.

Lemma callText_constant locals env t r : callText locals env t = Ok (r, true) → ∀ env', callText locals env' t = Ok (r, true).
Proof using Type.
  unfold ConfMacros.callText. case_bool_decide; [|done]. intros Hr env'. by destruct (deeply_constantly _ _ _ _ _ (Some env') _ _ _ _ Hr) as [_ Hr'].
Qed.

Lemma macroArgs_spec ms st t : Inv ms st → ∃ st', macroArgs t st = (split t, st') ∧ Inv ms st' ∧ arena st' = arena st ∧ macros st' = macros st ∧ depth st' = depth st.
Proof using Type.
  intros HI. unfold macroArgs. destruct (argsMemo st !! t) as [args|] eqn:E; [exists st; split_and!; [|done..]; by rewrite (inv_memo _ _ HI _ _ E)|].
  eexists. split; [done|]. split; [|done]. destruct HI as [H1 H2 H3 H4]. split; [done..|]. simpl. intros t' args. rewrite lookup_insert_Some. intros [[<- <-]|[_ Ha]]; [done|by apply H4].
Qed.

Definition keepCall (i : nat) (args : list ANY) (e : confMacroExpansion) : confMacroExpansion :=
  mkExpansion (owner e) (next e) (eargs e) (elocals e) (<[i := mkCallExpansion args true]> (ecalls e)) (failure e).

Lemma extends_keep st n i args : extends st (setArena st (alter (keepCall i args) n (arena st))).
Proof using Type.
  apply extends_arena; [|done]. intros j e He. simpl. destruct (decide (j = n)) as [->|Hne].
  - rewrite list_lookup_alter_eq, He. simpl. eauto.
  - rewrite list_lookup_alter_ne by done. eauto.
Qed.

Lemma Inv_keep ms st n i t macro e call : Inv ms st → arena st !! n = Some e → ms !! owner e = Some (static macro) → calls macro !! i = Some call →
  (∀ env, callText (elocals e) env (callArgs call) = Ok (t, true)) → Inv ms (setArena st (alter (keepCall i (split t)) n (arena st))).
Proof using Type.
  intros HI He Hms Hcall Ht. pose proof (extends_keep st n i (split t)) as Hx. pose proof HI as [H1 H2 H3 H4]. split; [done| | |done].
  - intros j e'. simpl. destruct (decide (j = n)) as [->|Hne].
    + rewrite list_lookup_alter_eq, He. intros [= <-]. destruct (H2 _ _ He) as ((macro' & Ho & Hb & Hf) & Hle & Hch). split_and!; [|done|by eapply chained_extends].
      assert (Heq : static macro = static macro') by congruence. exists macro'. split_and!; [done..|]. simpl. assert (Hc' : calls macro' !! i = Some call) by (injection Heq; congruence).
      rewrite <-(list_insert_id _ _ _ Hc'). apply Forall2_insert; [done|]. intros _. exists t. split; [exact Ht|done].
    + rewrite list_lookup_alter_ne by done. intros He'. destruct (H2 _ _ He') as (Hg & Hle & Hch). split_and!; [done..|by eapply chained_extends].
  - intros m macro' im Hm Him. destruct (H3 m macro' im Hm Him) as (M & HR & HM). exists M. split; [done|]. intros k p Hp. eapply chained_extends; [done|by eapply HM].
Qed.

Lemma callStep_spec ms st m args p i env macro locals f call :
  Inv ms st → handle st m args p → macros st !! m = Some macro → bindAnew macro args = Ok (locals, f) → calls macro !! i = Some call →
  (λ '(n, a, _), (n, a)) <$> callStep m p i env st = (λ '(t, _), (callName call, split t)) <$> callText locals env (callArgs call)
  ∧ ∀ n a st', callStep m p i env st = Ok (n, a, st') → Inv ms st' ∧ extends st st' ∧ macros st' = macros st.
Proof using Type.
  intros HI (e & He & Ho & Hargs) Hm Hb Hcall. unfold ConfMacros.callStep. rewrite Hm. cbn [lift mbind res_bind]. rewrite Hcall. cbn [lift mbind res_bind]. rewrite He. cbn [lift mbind res_bind].
  apply deref_lt in He as [Hr He]. destruct (inv_arena _ _ HI _ _ He) as ((macro' & Hms & Hb' & Hkept) & _). pose proof Hms as Hms'.
  rewrite <-(inv_static _ _ HI), list_lookup_fmap, Ho, Hm in Hms'. injection Hms' as Hst. assert (Heq : static macro = static macro') by (unfold static; congruence).
  rewrite <-(bindAnew_static _ _ _ Heq), Hargs, Hb in Hb'. injection Hb' as -> ->. assert (Hc' : calls macro' !! i = Some call) by (injection Heq; congruence).
  destruct (Forall2_lookup_r _ _ _ _ _ Hkept Hc') as (c & Hc & Hkc). rewrite Hc. cbn [lift mbind res_bind]. destruct (constant c) eqn:Ec.
  { destruct (Hkc Ec) as (t & Ht & Ha). rewrite (Ht env). simpl. rewrite Ha. split; [done|]. by intros ??? [= _ _ <-]. }
  destruct (callText (elocals e) env (callArgs call)) as [[t k]| |] eqn:Et; cbn [mbind res_bind fmap res_fmap]; [|done..].
  destruct (macroArgs_spec ms st t HI) as (st1 & -> & HI1 & Ha1 & Hm1 & Hd1). cbn [fmap res_fmap]. split; [done|]. intros n a st' [= _ _ <-].
  assert (Hx1 : extends st st1) by (apply extends_arena; [rewrite Ha1; eauto|done]). destruct k; [|done]. split; [|split; [|done]].
  - apply (Inv_keep ms st1 _ i t macro' e call); [done|by rewrite Ha1|done|done|]. by eapply callText_constant.
  - destruct Hx1 as [Hx1 _]. destruct (extends_keep st1 (Z.to_nat (p - 1)) i (split t)) as [Hx2 Hd2]. split; [|exact Hd1]. intros m' args' p' Hh. by apply Hx2, Hx1.
Qed.

(** ** Any interleaving of calls *)

(** [OBind] enters a macro; [OCall h i env] is turn [i] of the call that was
    entered as number [h], in the environment of that moment. *)
Inductive op := OBind (m : nat) (args : list ANY) | OCall (h i : nat) (env : look).
Inductive out := RBind (failure : res text) | RCall (visited : res (text * list ANY)).

Definition failureOf (st : ConfState) (p : Z) : res text := e ← lift (deref st p); Ok (failure e).

(** A call that throws leaves the state as it was. *)
Definition exec (o : op) (st : ConfState) (hs : list (nat * list ANY * Z)) : out * ConfState * list (nat * list ANY * Z) :=
  match o with
  | OBind m args =>
      match bind hash m args st with
      | Ok (p, st') => (RBind (failureOf st' p), st', hs ++ [(m, args, p)])
      | Throw => (RBind Throw, st, hs)
      | NoFuel => (RBind NoFuel, st, hs)
      end
  | OCall h i env =>
      match hs !! h with
      | None => (RCall Throw, st, hs)
      | Some (m, args, p) =>
          match callStep m p i env st with
          | Ok (n, a, st') => (RCall (Ok (n, a)), st', hs)
          | Throw => (RCall Throw, st, hs)
          | NoFuel => (RCall NoFuel, st, hs)
          end
      end
  end.

Fixpoint run (ops : list op) (st : ConfState) (hs : list (nat * list ANY * Z)) : list out :=
  match ops with [] => [] | o :: ops => let '(r, st, hs) := exec o st hs in r :: run ops st hs end.

(** The same without any table: everything is made anew. *)
Definition specExec (ms : list ConfMacro) (o : op) (hs : list (nat * list ANY)) : out * list (nat * list ANY) :=
  match o with
  | OBind m args =>
      match ms !! m with
      | None => (RBind Throw, hs)
      | Some macro => (RBind (snd <$> bindAnew macro args), hs ++ [(m, args)])
      end
  | OCall h i env =>
      (RCall ('(m, args) ← lift (hs !! h);
              macro ← lift (ms !! m);
              call ← lift (calls macro !! i);
              '(locals, _) ← bindAnew macro args;
              '(t, _) ← callText locals env (callArgs call);
              Ok (callName call, split t)), hs)
  end.

Fixpoint specRun (ms : list ConfMacro) (ops : list op) (hs : list (nat * list ANY)) : list out :=
  match ops with [] => [] | o :: ops => let '(r, hs) := specExec ms o hs in r :: specRun ms ops hs end.

Definition fresh (ms : list ConfMacro) (d : Z) : ConfState := mkState ((λ m, mkMacro (sig m) (calls m) (mlocals m) None) <$> ms) [] ∅ d.

Lemma Inv_fresh ms d : Inv (static <$> ms) (fresh ms d).
Proof using Type.
  split; simpl; [|done| |done].
  - rewrite <-list_fmap_compose. apply list_fmap_ext. done.
  - intros m macro im. rewrite list_lookup_fmap. intros (m' & _ & ->)%fmap_Some. done.
Qed.

Definition opened (st : ConfState) (hs : list (nat * list ANY * Z)) : Prop := ∀ h m args p, hs !! h = Some (m, args, p) → handle st m args p ∧ is_Some (macros st !! m).

Lemma opened_extends st st' hs : extends st st' → static <$> macros st' = static <$> macros st → opened st hs → opened st' hs.
Proof using Type.
  intros [Hx _] Hs Ho h m args p Hh. destruct (Ho _ _ _ _ Hh) as [H1 H2]. split; [by apply Hx|]. apply lookup_lt_is_Some. apply lookup_lt_is_Some in H2.
  apply (f_equal length) in Hs. rewrite !length_fmap in Hs. lia.
Qed.

Lemma macro_static ms st m macro : Inv (static <$> ms) st → macros st !! m = Some macro → ∃ macro0, ms !! m = Some macro0 ∧ static macro0 = static macro.
Proof using Type. intros HI Hm. pose proof (inv_static _ _ HI) as Hs. apply (f_equal (.!! m)) in Hs; simpl in Hs. rewrite !list_lookup_fmap, Hm in Hs. destruct (ms !! m) as [m0|]; [|done]. exists m0. split; [done|]. simpl in Hs. congruence. Qed.

Lemma macro_none ms st m : Inv (static <$> ms) st → macros st !! m = None → ms !! m = None.
Proof using Type. intros HI Hm. pose proof (inv_static _ _ HI) as Hs. apply (f_equal (.!! m)) in Hs; simpl in Hs. rewrite !list_lookup_fmap, Hm in Hs. by destruct (ms !! m). Qed.

Lemma expansion_exec_spec ms o st hs : Inv (static <$> ms) st → opened st hs →
  let '(r, st', hs') := exec o st hs in specExec ms o (fst <$> hs) = (r, fst <$> hs') ∧ Inv (static <$> ms) st' ∧ opened st' hs'.
Proof using Type.
  intros HI Ho. destruct o as [m args|h i env]; cbn [exec specExec].
  - destruct (macros st !! m) as [macro|] eqn:Hm.
    + destruct (bind_spec _ st m args macro HI Hm) as (p & st' & -> & HI' & Hx & Hh). destruct (macro_static ms st m macro HI Hm) as (macro0 & -> & Hs0).
      rewrite fmap_app. assert (Hss : static <$> macros st' = static <$> macros st) by (rewrite (inv_static _ _ HI'); by rewrite (inv_static _ _ HI)).
      split; [|split; [done|]].
      * f_equal. f_equal. destruct Hh as (e & He & Hoe & Hae). unfold failureOf. rewrite He. cbn [lift mbind res_bind]. apply deref_lt in He as [_ He].
        destruct (inv_arena _ _ HI' _ _ He) as ((mac & Hmac & Hb & _) & _). rewrite Hoe in Hmac. rewrite Hae in Hb.
        assert (static macro0 = static mac) as Heq.
        { rewrite Hs0. rewrite <-(inv_static _ _ HI), list_lookup_fmap, Hm in Hmac. simpl in Hmac. unfold static in *. congruence. }
        by rewrite (bindAnew_static _ _ _ Heq), Hb.
      * intros h m' args' p'. rewrite lookup_app_Some. intros [Hh'|[_ [_ [= <- <- <-]]%list_lookup_singleton_Some]]; [by eapply (opened_extends st)|].
        split; [done|]. apply lookup_lt_is_Some. apply (f_equal length) in Hss. rewrite !length_fmap in Hss. apply lookup_lt_Some in Hm. lia.
    + rewrite (macro_none ms st m HI Hm). unfold bind. rewrite Hm. done.
  - rewrite list_lookup_fmap. destruct (hs !! h) as [[[m args] p]|] eqn:Hh; cbn [fmap option_fmap option_map lift mbind res_bind fst]; [|done].
    destruct (Ho _ _ _ _ Hh) as [Hhd [macro Hm]]. destruct (macro_static ms st m macro HI Hm) as (macro0 & -> & Hs0). cbn [lift mbind res_bind].
    injection Hs0 as Hsig Hcalls Hlocs. rewrite Hcalls. destruct (calls macro !! i) as [call|] eqn:Hcall.
    + cbn [lift mbind res_bind]. destruct (bindAnew_total macro args) as (locals & f & Hb). rewrite (bindAnew_static macro0 macro), Hb by (unfold static; congruence). cbn [mbind res_bind].
      destruct (callStep_spec _ st m args p i env macro locals f call HI Hhd Hm Hb Hcall) as [Heq Hinv].
      destruct (callStep m p i env st) as [[[n a] st']| |]; destruct (callText locals env (callArgs call)) as [[t c]| |]; cbn [fmap res_fmap] in Heq; try done; cbn [mbind res_bind].
      injection Heq as -> ->. destruct (Hinv _ _ _ eq_refl) as (HI' & Hx & Hmm). split_and!; [done..|]. eapply opened_extends; [done|by rewrite Hmm|done].
    + cbn [lift mbind res_bind]. unfold ConfMacros.callStep. rewrite Hm. cbn [lift mbind res_bind]. rewrite Hcall. done.
Qed.

Lemma expansion_run_spec ms ops st hs : Inv (static <$> ms) st → opened st hs → run ops st hs = specRun ms ops (fst <$> hs).
Proof using Type.
  revert st hs. induction ops as [|o ops IH]; intros st hs HI Ho; cbn [run specRun]; [done|].
  pose proof (expansion_exec_spec ms o st hs HI Ho) as He. destruct (exec o st hs) as [[r st'] hs']. destruct He as (-> & HI' & Ho'). by rewrite IH.
Qed.

(** C16: entering macros and taking turns of their calls, in any interleaving and in
    whatever environments, gives what it would give if nothing were kept: the same
    failures, the same calls with the same arguments, the same errors. *)
Theorem expansions_transparent ms d ops : run ops (fresh ms d) [] = specRun ms ops [].
Proof using Type. apply (expansion_run_spec ms ops (fresh ms d) []); [apply Inv_fresh|]. intros h m args p Hh. by rewrite lookup_nil in Hh. Qed.

(** ** The whole handler, with visits that may enter macros again *)

Section visits.
Context {W : Type} (envOf : W → look) (visit : text → list ANY → W → ConfState → res (W * ConfState)).
Context (ms : list ConfMacro).
Local Abbreviation statics := (static <$> ms).
Hypothesis visit_ok : ∀ n a w st w' st', Inv statics st → visit n a w st = Ok (w', st') → Inv statics st' ∧ extends st st'.

(** A visit of the log is the turn of a fresh expansion in the environment of the moment. *)
Definition visited (macro : ConfMacro) (locals : list confMacroBinding) (i : nat) (v : nat * W * text * list ANY) : Prop :=
  let '(j, w, n, a) := v in j = i ∧ ∃ call t c, calls macro !! i = Some call ∧ n = callName call ∧ callText locals (envOf w) (callArgs call) = Ok (t, c) ∧ a = split t.

Lemma extends_trans st1 st2 st3 : extends st1 st2 → extends st2 st3 → extends st1 st3.
Proof using Type. intros [H1 H2] [H3 H4]. split; [eauto|congruence]. Qed.

Lemma same_macro st st' m macro : Inv statics st → Inv statics st' → macros st !! m = Some macro → ∃ macro', macros st' !! m = Some macro' ∧ static macro' = static macro.
Proof using Type.
  intros HI HI' Hm. pose proof (inv_static _ _ HI') as Hs. rewrite <-(inv_static _ _ HI) in Hs. apply (f_equal (.!! m)) in Hs. simpl in Hs.
  rewrite !list_lookup_fmap, Hm in Hs. destruct (macros st' !! m) as [m0|]; [|done]. exists m0. split; [done|]. simpl in Hs. congruence.
Qed.

Lemma callLoop_visits m p args macro locals f is_ w st log w' st' : Inv statics st → handle st m args p → macros st !! m = Some macro → bindAnew macro args = Ok (locals, f) →
  Forall (λ i, i < length (calls macro))%nat is_ → callLoop getenv md5 fuel envOf visit m p is_ w st = Ok (log, w', st') →
  Forall2 (visited macro locals) is_ log ∧ Inv statics st' ∧ extends st st'.
Proof using visit_ok.
  revert macro w st log. induction is_ as [|i is_ IH]; intros macro w st log HI Hh Hm Hb Hall; cbn [callLoop]; [intros [= <- <- <-]; split_and!; [constructor|done|done]|].
  apply Forall_cons in Hall as [Hi Hall]. destruct (lookup_lt_is_Some_2 _ _ Hi) as [call Hcall].
  destruct (callStep_spec _ st m args p i (envOf w) macro locals f call HI Hh Hm Hb Hcall) as [Heq Hinv].
  destruct (callStep m p i (envOf w) st) as [[[n a] st1]| |]; cbn [mbind res_bind]; [|done..]. destruct (Hinv _ _ _ eq_refl) as (HI1 & Hx1 & Hm1).
  destruct (visit n a w st1) as [[w1 st2]| |] eqn:Ev; cbn [mbind res_bind]; [|done..]. destruct (visit_ok _ _ _ _ _ _ HI1 Ev) as [HI2 Hx2].
  destruct (same_macro st st2 m macro HI HI2 Hm) as (macro2 & Hm2 & Hs2). injection Hs2 as Hsig Hcalls Hlocs.
  destruct (callLoop _ _ _ _ _ _ _ _ w1 st2) as [[[log2 w2] st3]| |] eqn:El; cbn [mbind res_bind]; [|done..]. intros [= <- <- <-].
  destruct (IH macro2 w1 st2 log2) as (Hf & HI3 & Hx3); [done|by apply Hx2, Hx1|done|rewrite (bindAnew_static _ macro); [done|unfold static; congruence]|by rewrite Hcalls|done|].
  split_and!; [|done|by eapply extends_trans; [|eapply extends_trans]]. constructor.
  - split; [done|]. cbn [fmap res_fmap] in Heq. destruct (callText locals (envOf w) (callArgs call)) as [[t c]| |] eqn:Et; cbn [fmap res_fmap] in Heq; [|done..].
    injection Heq as -> ->. by exists call, t, c.
  - eapply Forall2_impl; [exact Hf|]. intros j [[[k wk] nk] ak]. unfold visited. by rewrite Hcalls.
Qed.

Lemma Inv_depth st d : Inv statics st → Inv statics (setDepth st d).
Proof using Type. intros [H1 H2 H3 H4]. by split. Qed.

(** Whatever its visits do, macros they enter included, a call of a macro visits
    the calls of the body in order, each with the arguments that a fresh expansion
    has in the environment of that moment; the depth is back where it was. *)
Theorem macroCalls_visits m macro args w st f log w' st' : Inv statics st → macros st !! m = Some macro →
  macroCalls getenv md5 fuel hash envOf visit m args w st = Ok (f, log, w', st') →
  ∃ locals, bindAnew macro args = Ok (locals, f) ∧ Forall2 (visited macro locals) (seq 0 (length (calls macro))) log ∧ Inv statics st' ∧ extends st st'.
Proof using visit_ok.
  intros HI Hm. unfold macroCalls. destruct (depth st =? _); [done|]. rewrite Hm. cbn [lift mbind res_bind].
  destruct (bind_spec _ st m args macro HI Hm) as (p & st1 & -> & HI1 & [Hx1 Hd1] & Hh). cbn [mbind res_bind]. pose proof Hh as (e & He & Hoe & Hae). rewrite He. cbn [lift mbind res_bind].
  destruct (same_macro st st1 m macro HI HI1 Hm) as (macro1 & Hm1 & Hs1). destruct (bindAnew_total macro args) as (locals & f0 & Hb).
  destruct (callLoop _ _ _ _ _ _ _ _ w (setDepth st1 (depth st1 + 1))) as [[[log2 w2] st2]| |] eqn:El; cbn [mbind res_bind]; [|done..]. intros [= <- <- <- <-].
  injection Hs1 as Hsig Hcalls Hlocs. assert (Hb1 : bindAnew macro1 args = Ok (locals, f0)) by (rewrite (bindAnew_static _ macro); [done|unfold static; congruence]).
  eapply (callLoop_visits m p args macro1 locals f0) in El as (Hf & HI2 & [Hx2 Hd2]); [|by apply Inv_depth|exact Hh|done|done|rewrite Hcalls; apply Forall_seq; lia].
  exists locals. apply deref_lt in He as [_ He]. destruct (inv_arena _ _ HI1 _ _ He) as ((mac & Hmac & Hbm & _) & _).
  assert (Heq : static macro = static mac).
  { rewrite Hoe, <-(inv_static _ _ HI), list_lookup_fmap, Hm in Hmac. simpl in Hmac. unfold static in *. congruence. }
  rewrite <-(bindAnew_static _ _ _ Heq), Hae, Hb in Hbm. injection Hbm as -> ->. split_and!; [done| |by apply Inv_depth|].
  - eapply Forall2_impl; [exact Hf|]. intros j [[[k wk] nk] ak]. unfold visited. by rewrite Hcalls.
  - split; [|simpl in *; lia]. intros m' args' p' Hp. by apply Hx2, Hx1.
Qed.
End visits.
End invariant.

(** ** A macro with all kinds of parameters *)

Definition sampleSig : ConfMacroSignature :=
  mkSig [mkKeyword (bs "OUT") confKeywordArray [] []; mkKeyword (bs "FLAG") confKeywordFlag [named (bs "-f")] []; mkKeyword (bs "NAME") confKeywordScalar [] [named (bs "x")]]
    [bs "Src"] (Some (bs "Rest")).
Definition sampleArgs : list ANY := named ∘ bs <$> ["a.c"; "b"; "c"; "OUT"; "o1"; "o2"; "FLAG"].
Definition sampleMacro : ConfMacro := mkMacro sampleSig [mkCall (bs "RUN") (bs "${Src} $Rest $HOST"); mkCall (bs "SET") (bs "N ${NAME}")] [mkLocal (bs "L") (named (bs "l"))] None.
Definition sampleLook (n : text) : option (text * option VFS) := if decide (n = bs "HOST") then Some (bs "h", None) else None.

Definition sampleLocals : list confMacroBinding :=
  [mkBinding (bs "OUT") (named ∘ bs <$> ["o1"; "o2"]) true; mkBinding (bs "FLAG") [named (bs "-f")] true; mkBinding (bs "NAME") [named (bs "x")] true;
   mkBinding (bs "Src") [named (bs "a.c")] true; mkBinding (bs "Rest") (named ∘ bs <$> ["b"; "c"]) true].

Lemma sig_bind_arguments_witness :
  ∃ marks, sampleArgs ≡ₚ (keyName sampleSig <$> marks) ++ given (holding sampleSig marks) sampleLocals
    ∧ (∀ j, (j < 1)%nat → ∃ v, valuesAt sampleLocals (3 + j)%nat = [v])
    ∧ (∀ k kw, keywords sampleSig !! k = Some kw → k ∉ marks → valuesAt sampleLocals k = missing kw).
Proof. apply (sig_bind_arguments sampleSig sampleArgs sampleLocals). vm_compute. reflexivity. Defined.

Lemma macroCalls_visits_witness :
  ∃ f log st', macroCalls id id 2 (λ _, 7) (λ _ : unit, sampleLook) (λ n a w st, Ok (w, st)) 0 sampleArgs tt (fresh [sampleMacro] 0) = Ok (f, log, tt, st')
    ∧ ∃ locals, bindAnew sampleMacro sampleArgs = Ok (locals, f)
        ∧ Forall2 (visited id id 2 (λ _ : unit, sampleLook) sampleMacro locals) (seq 0 2) log ∧ Inv id id 2 [static sampleMacro] st' ∧ extends (fresh [sampleMacro] 0) st'.
Proof.
  eexists _, _, _. split; [vm_compute; reflexivity|].
  apply (macroCalls_visits id id 2 (λ _, 7) (λ _ : unit, sampleLook) (λ n a w st, Ok (w, st)) [sampleMacro]) with (m := 0%nat) (macro := sampleMacro) (w := tt) (w' := tt).
  - intros n a w st w' st' HI [= <- <-]. split; [exact HI|]. by split.
  - apply (Inv_fresh id id 2 [sampleMacro] 0).
  - reflexivity.
  - vm_compute. reflexivity.
Defined.
