(* ===== verification/SetVars.v ===== *)
(** * Variables set by a module (modules.go, SetVars)

    Appends are lazy: the parts of each variable are a chain in one shared array,
    joined when the variable is read.  Shown: the readers cannot tell, whatever
    operations run in whatever order. *)

From S2P Require Import Prelude Tags Env.
Local Open Scope string_scope.
Local Open Scope list_scope.
Local Open Scope Z_scope.

Abbreviation text := (list Z) (only parsing).
Abbreviation STR := (option (list Z)) (only parsing).

Record setVarChain := mkChain { head : Z; tail : Z }.
Record setVarPart := mkPart { part : ANY; next : Z }.
Record SetVars := mkVars { vals : gmap text STR; appends : gmap text setVarChain; parts : list setVarPart }.

Definition emptyVars : SetVars := mkVars ∅ ∅ [].
Definition strAt (m : gmap text STR) (k : text) : STR := default None (m !! k).

Definition len (v : SetVars) : Z := Z.of_nat (size (vals v)).
Definition has (v : SetVars) (k : text) : bool := bool_decide (is_Some (vals v !! k)).

(** [for i := chain.head; i >= 0; i = v.parts[i].next] *)
Fixpoint joinChain (fuel : nat) (ps : list setVarPart) (i : Z) (b : text) : res text :=
  if i <? 0 then Ok b
  else
    match fuel with
    | O => NoFuel
    | S fuel => p ← lift (ps !! Z.to_nat i); joinChain fuel ps (next p) (appendANYText (b ++ [32]) (part p))
    end.

Definition get (v : SetVars) (k : text) : res (STR * SetVars) :=
  match appends v !! k with
  | Some chain =>
      b ← joinChain (length (parts v)) (parts v) (head chain) (str_string (strAt (vals v) k));
      let v := mkVars (<[k := Some b]> (vals v)) (delete k (appends v)) (parts v) in
      Ok (strAt (vals v) k, v)
  | None => Ok (strAt (vals v) k, v)
  end.

Definition set (v : SetVars) (k : text) (val : STR) : SetVars := mkVars (<[k := val]> (vals v)) (delete k (appends v)) (parts v).

(** The loop over the words: a new part, linked after the last one of the chain. *)
Fixpoint addParts (args : list ANY) (ps : list setVarPart) (chain : option setVarChain) : res (list setVarPart * option setVarChain) :=
  match args with
  | [] => Ok (ps, chain)
  | a :: args =>
      let i := Z.of_nat (length ps) in
      let ps := ps ++ [mkPart a (-1)] in
      match chain with
      | Some c =>
          last ← lift (ps !! Z.to_nat (tail c));
          addParts args (<[Z.to_nat (tail c) := mkPart (part last) i]> ps) (Some (mkChain (head c) i))
      | None => addParts args ps (Some (mkChain i i))
      end
  end.

Definition emptyAppendArgs : list ANY := [AStr strEmpty].

Definition append (v : SetVars) (k : text) (args : list ANY) : res SetVars :=
  let args := match args with [] => emptyAppendArgs | _ => args end in
  if decide (strAt (vals v) k = None) then Ok (set v k (joinAnysSTR args [32]))
  else
    '(ps, chain) ← addParts args (parts v) (appends v !! k);
    c ← lift chain;
    Ok (mkVars (vals v) (<[k := c]> (appends v)) ps).

(** ** Chains *)

Definition partsText (l : list ANY) : text := mjoin ((λ a, 32 :: any_string a) <$> l).

(** The places of a chain in the array, each linked to the next one. *)
Fixpoint linked (ps : list setVarPart) (i : Z) (l : list nat) (as_ : list ANY) : Prop :=
  match l, as_ with
  | [], [] => i = -1
  | j :: l, a :: as_ => i = Z.of_nat j ∧ ∃ n, ps !! j = Some (mkPart a n) ∧ (n = -1 ∨ Z.of_nat j < n) ∧ linked ps n l as_
  | _, _ => False
  end.

Lemma linked_ext ps ps' i l as_ : (∀ j, j ∈ l → ps' !! j = ps !! j) → linked ps i l as_ → linked ps' i l as_.
Proof.
  revert i as_. induction l as [|j l IH]; intros i [|a as_] He; simpl; try done. intros (-> & n & Hj & Hn & Hl). split; [done|]. exists n.
  split_and!; [rewrite He by (by left); done|done|]. apply IH; [|done]. intros x Hx. apply He. by right.
Qed.

Lemma linked_ge ps i l as_ : linked ps i l as_ → ∀ j, j ∈ l → i <= Z.of_nat j.
Proof.
  revert i as_. induction l as [|j l IH]; intros i [|a as_]; simpl; try done; [intros _ j []%elem_of_nil|]. intros (-> & n & Hj & Hn & Hl) x [->|Hx]%elem_of_cons; [lia|].
  pose proof (IH n as_ Hl x Hx). destruct Hn as [->|?]; [|lia]. destruct l, as_; simpl in Hl; try done; [by apply elem_of_nil in Hx|]. destruct Hl. lia.
Qed.

Lemma joinChain_linked ps l as_ i b fuel : linked ps i l as_ → (∀ j, j ∈ l → (j < length ps)%nat) → (length ps - Z.to_nat i <= fuel)%nat ∨ l = [] →
  joinChain fuel ps i b = Ok (b ++ partsText as_).
Proof.
  revert i as_ b fuel. induction l as [|j l IH]; intros i [|a as_] b fuel; simpl; try done.
  - intros -> _ _. destruct fuel; simpl; by rewrite app_nil_r.
  - intros (-> & n & Hj & Hn & Hl) Hlt Hf. destruct Hf as [Hf|]; [|done]. assert (Hjl : (j < length ps)%nat) by (apply Hlt; by left).
    destruct fuel as [|fuel]; [lia|]. cbn [joinChain]. rewrite (proj2 (Z.ltb_ge _ _)), Nat2Z.id, Hj by lia. cbn [lift mbind res_bind next part].
    rewrite (IH n as_); [|done|intros x Hx; apply Hlt; by right|].
    + rewrite appendANYText_eq. unfold partsText. cbn [fmap list_fmap mjoin list_join]. by rewrite <-!app_assoc.
    + destruct Hn as [->|Hn]; [|left; lia]. right. destruct l, as_; simpl in Hl; try done. destruct Hl. lia.
Qed.

(** One more part at the end of a chain. *)
Lemma linked_snoc ps i l as_ t a n : linked ps i (l ++ [t]) as_ → Z.of_nat t < n →
  ∃ last as', as_ = as' ++ [last] ∧ ps !! t = Some (mkPart last (-1)) ∧
    ∀ m ps', (m < length ps')%nat → n = Z.of_nat m → ps' !! m = Some (mkPart a (-1)) → ps' !! t = Some (mkPart last n) → (∀ j, j ∈ l → ps' !! j = ps !! j) → linked ps' i (l ++ [t; m]) (as_ ++ [a]).
Proof.
  intros Hl Hn. revert i as_ Hl. induction l as [|j l IH]; intros i as_ Hl.
  - destruct as_ as [|last [|? ?]]; simpl in Hl; [done| |by destruct Hl as (_ & ? & _ & _ & ?)]. destruct Hl as (-> & n' & Ht & Hn' & ->). exists last, []. split_and!; [done..|].
    intros m ps' Hm -> Hpm Hpt _. simpl. split; [done|]. exists (Z.of_nat m). split_and!; [done|by right|done|]. exists (-1). split_and!; [done|by left|done].
  - destruct as_ as [|a0 as_]; [done|]. simpl in Hl. destruct Hl as (-> & n' & Hj & Hn' & Hl). destruct (IH _ _ Hl) as (last & as' & -> & Ht & Hm). exists last, (a0 :: as'). split_and!; [done..|].
    intros m ps' Hm1 Hm2 Hm3 Hm4 Hm5. simpl. split; [done|]. exists n'. split_and!; [rewrite Hm5 by (by left); done|done|]. apply Hm; try done. intros x Hx. apply Hm5. by right.
Qed.

Lemma linked_NoDup ps i l as_ : linked ps i l as_ → NoDup l.
Proof.
  revert i as_. induction l as [|j l IH]; intros i [|a as_]; simpl; try done; [constructor|]. intros (-> & n & Hj & Hn & Hl). constructor; [|by eapply IH]. intros Hin.
  pose proof (linked_ge _ _ _ _ Hl _ Hin). destruct Hn as [->|?]; [|lia]. destruct l, as_; simpl in Hl; try done; [by apply elem_of_nil in Hin|]. destruct Hl. lia.
Qed.

(** A chain with its places and its words. *)
Definition chainOf (ps : list setVarPart) (c : setVarChain) (l : list nat) (as_ : list ANY) : Prop :=
  ∃ l0 t, l = l0 ++ [t] ∧ tail c = Z.of_nat t ∧ linked ps (head c) l as_ ∧ ∀ j, j ∈ l → (j < length ps)%nat.

Lemma chainOf_ext ps ps' c l as_ : (∀ j, j ∈ l → ps' !! j = ps !! j) → (length ps <= length ps')%nat → chainOf ps c l as_ → chainOf ps' c l as_.
Proof. intros He Hlen (l0 & t & -> & Ht & Hl & Hj). exists l0, t. split_and!; [done..|by eapply linked_ext|]. intros j Hin. specialize (Hj j Hin). lia. Qed.

Lemma chainOf_more ps c l as_ a : chainOf ps c l as_ →
  ∃ last, (ps ++ [mkPart a (-1)]) !! Z.to_nat (tail c) = Some last ∧
    let ps' := <[Z.to_nat (tail c) := mkPart (part last) (Z.of_nat (length ps))]> (ps ++ [mkPart a (-1)]) in
    chainOf ps' (mkChain (head c) (Z.of_nat (length ps))) (l ++ [length ps]) (as_ ++ [a]) ∧ length ps' = S (length ps) ∧ ∀ j, (j < length ps)%nat → j ∉ l → ps' !! j = ps !! j.
Proof.
  intros (l0 & t & -> & Ht & Hl & Hj). assert (Htl : (t < length ps)%nat) by (apply Hj, elem_of_app; right; by left). rewrite Ht, Nat2Z.id.
  destruct (linked_snoc ps (head c) l0 as_ t a (Z.of_nat (length ps)) Hl ltac:(lia)) as (last & as' & -> & Hpt & Hm).
  exists (mkPart last (-1)). split; [by apply lookup_app_l_Some|]. cbv zeta. cbn [part].
  assert (Hnd : t ∉ l0). { apply linked_NoDup, NoDup_app in Hl as (_ & Hd & _). intros Hin. apply (Hd t Hin). by left. }
  assert (Hlen : length (<[t:=mkPart last (Z.of_nat (length ps))]> (ps ++ [mkPart a (-1)])) = S (length ps)) by (rewrite length_insert, length_app; simpl; lia).
  split_and!; [|done|].
  - exists (l0 ++ [t]), (length ps). split_and!; [done|done| |].
    + rewrite <-(app_assoc l0 [t] [length ps]). apply Hm; [lia|done| | |].
      * rewrite list_lookup_insert_ne by lia. by rewrite list_lookup_middle.
      * apply list_lookup_insert_eq. rewrite length_app. lia.
      * intros j Hin. rewrite list_lookup_insert_ne by (intros ->; done). apply lookup_app_l. apply Hj, elem_of_app. by left.
    + intros j [Hin|Hin%list_elem_of_singleton]%elem_of_app; rewrite Hlen; [apply Hj in Hin; lia|lia].
  - intros j Hlt Hnin. rewrite list_lookup_insert_ne by (intros ->; apply Hnin, elem_of_app; right; by left). by apply lookup_app_l.
Qed.

Lemma chainOf_first ps a : chainOf (ps ++ [mkPart a (-1)]) (mkChain (Z.of_nat (length ps)) (Z.of_nat (length ps))) [length ps] [a].
Proof.
  exists [], (length ps). split_and!; [done..| |].
  - simpl. split; [done|]. exists (-1). split_and!; [by rewrite list_lookup_middle|by left|done].
  - intros j ->%list_elem_of_singleton. rewrite length_app. simpl. lia.
Qed.

Lemma addParts_more args ps c l as_ : chainOf ps c l as_ →
  ∃ ps' c' l', addParts args ps (Some c) = Ok (ps', Some c') ∧ chainOf ps' c' l' (as_ ++ args) ∧ (length ps <= length ps')%nat ∧
    (∀ j, j ∈ l' → j ∈ l ∨ (length ps <= j)%nat) ∧ ∀ j, (j < length ps)%nat → j ∉ l → ps' !! j = ps !! j.
Proof.
  revert ps c l as_. induction args as [|a args IH]; intros ps c l as_ Hc; cbn [addParts].
  { exists ps, c, l. rewrite app_nil_r. split_and!; [done..|by left|done]. }
  destruct (chainOf_more ps c l as_ a Hc) as (last & -> & Hc' & Hlen & Hsame). cbn [lift mbind res_bind]. set (ps1 := <[_ := _]> _) in *.
  destruct (IH ps1 _ _ _ Hc') as (ps' & c' & l' & -> & Hc2 & Hlen2 & Hin2 & Hsame2). exists ps', c', l'. split_and!; [done| |lia| |].
  - by rewrite <-app_assoc in Hc2.
  - intros j [Hj|Hj]%Hin2; [|right; lia]. apply elem_of_app in Hj as [?|Hx%list_elem_of_singleton]; [by left|right; lia].
  - intros j Hj Hnin. rewrite Hsame2; [by apply Hsame|lia|]. intros [?|Hx%list_elem_of_singleton]%elem_of_app; [done|lia].
Qed.

Lemma addParts_first a args ps :
  ∃ ps' c' l', addParts (a :: args) ps None = Ok (ps', Some c') ∧ chainOf ps' c' l' (a :: args) ∧ (length ps <= length ps')%nat ∧
    (∀ j, j ∈ l' → (length ps <= j)%nat) ∧ ∀ j, (j < length ps)%nat → ps' !! j = ps !! j.
Proof.
  cbn [addParts]. destruct (addParts_more args _ _ _ _ (chainOf_first ps a)) as (ps' & c' & l' & -> & Hc & Hlen & Hin & Hsame). rewrite length_app in *. simpl in *.
  exists ps', c', l'. split_and!; [done..|lia| |].
  - intros j [Hx%list_elem_of_singleton|?]%Hin; lia.
  - intros j Hj. rewrite Hsame; [by apply lookup_app_l|lia|]. intros ->%list_elem_of_singleton. lia.
Qed.

(** ** Refinement *)

Section refine.
Implicit Types (v : SetVars) (M : gmap text STR).

(** What a variable's entry means: the value with the queued words after it. *)
Definition entry v (L : gmap text (list nat)) M (k : text) : Prop :=
  match appends v !! k with
  | None => L !! k = None ∧ M !! k = vals v !! k
  | Some c => ∃ l as_ base, L !! k = Some l ∧ chainOf (parts v) c l as_ ∧ vals v !! k = Some (Some base) ∧ M !! k = Some (Some (base ++ partsText as_))
  end.

Definition disjointL (L : gmap text (list nat)) : Prop := ∀ k k' l l', k ≠ k' → L !! k = Some l → L !! k' = Some l' → ∀ j, j ∈ l → j ∉ l'.
Definition repr v M : Prop := ∃ L, disjointL L ∧ ∀ k, entry v L M k.

Lemma repr_empty : repr emptyVars ∅.
Proof using Type. exists ∅. split; [by intros k k' l l' _ H|]. intros k. unfold entry. simpl. by rewrite !lookup_empty. Qed.

Lemma entry_ext v v' L L' M M' k : appends v' !! k = appends v !! k → vals v' !! k = vals v !! k → L' !! k = L !! k → M' !! k = M !! k →
  (∀ l, L !! k = Some l → ∀ j, j ∈ l → parts v' !! j = parts v !! j) → (length (parts v) <= length (parts v'))%nat → entry v L M k → entry v' L' M' k.
Proof using Type.
  unfold entry. intros -> -> -> -> Hp Hlen. destruct (appends v !! k); [|done]. intros (l & as_ & base & HL & Hc & Hv & HM). exists l, as_, base. split_and!; [done| |done..].
  eapply chainOf_ext; [by apply Hp|done|done].
Qed.

Lemma disjointL_delete L k : disjointL L → disjointL (delete k L).
Proof using Type. intros Hd k1 k2 l l' Hne [_ H1]%lookup_delete_Some [_ H2]%lookup_delete_Some. by eapply Hd. Qed.

(** A value written for a variable drops what was queued. *)
Lemma repr_write v M k val : repr v M → repr (mkVars (<[k := val]> (vals v)) (delete k (appends v)) (parts v)) (<[k := val]> M).
Proof using Type.
  intros (L & Hd & He). exists (delete k L). split; [by apply disjointL_delete|]. intros k'. destruct (decide (k' = k)) as [->|Hne].
  - unfold entry. simpl. rewrite !lookup_delete_eq, !lookup_insert_eq. done.
  - eapply entry_ext; [..|apply (He k')]; simpl; rewrite ?lookup_delete_ne, ?lookup_insert_ne by done; done.
Qed.

Lemma get_repr v M k : repr v M → ∃ v', get v k = Ok (strAt M k, v') ∧ repr v' M.
Proof using Type.
  intros HR. pose proof HR as (L & Hd & He). specialize (He k). unfold entry in He. unfold get. destruct (appends v !! k) as [c|] eqn:Ec.
  - destruct He as (l & as_ & base & HL & (l0 & t & -> & Ht & Hl & Hj) & Hv & HM). assert (Hs : strAt (vals v) k = Some base) by (unfold strAt; by rewrite Hv). rewrite Hs. cbn [str_string default from_option id].
    rewrite (joinChain_linked _ _ _ _ _ _ Hl Hj) by (left; lia). cbn [mbind res_bind]. eexists. split.
    + f_equal. f_equal. unfold strAt. simpl. by rewrite lookup_insert_eq, HM.
    + pose proof (repr_write v M k (Some (base ++ partsText as_)) HR) as HR'. by rewrite (insert_id M k) in HR'.
  - destruct He as [_ HM]. exists v. split; [|done]. unfold strAt. by rewrite HM.
Qed.

Definition specAppend M (k : text) (args : list ANY) : gmap text STR :=
  let args := match args with [] => emptyAppendArgs | _ => args end in
  match strAt M k with
  | None => <[k := joinAnysSTR args [32]]> M
  | Some b => <[k := Some (b ++ partsText args)]> M
  end.

Lemma strAt_none v M L k : entry v L M k → (strAt (vals v) k = None ↔ strAt M k = None).
Proof using Type.
  unfold entry, strAt. destruct (appends v !! k); [|by intros [_ ->]]. intros (l & as_ & base & _ & _ & -> & ->). done.
Qed.

Lemma partsText_app l1 l2 : partsText (l1 ++ l2) = partsText l1 ++ partsText l2.
Proof using Type. unfold partsText. by rewrite fmap_app, join_app. Qed.

Lemma entry_range v L M k l j : entry v L M k → L !! k = Some l → j ∈ l → (j < length (parts v))%nat.
Proof using Type.
  unfold entry. destruct (appends v !! k); [|by intros [-> _]]. intros (l' & as_ & base & HL & (l0 & t & _ & _ & _ & Hj) & _) HL'. replace l with l' by congruence. apply Hj.
Qed.

Definition placesOf (L : gmap text (list nat)) (k : text) : list nat := default [] (L !! k).

Lemma repr_extend v M L k base as_ ps' c' l' : disjointL L → (∀ k, entry v L M k) → vals v !! k = Some (Some base) → chainOf ps' c' l' as_ → (length (parts v) <= length ps')%nat →
  (∀ j, j ∈ l' → j ∈ placesOf L k ∨ (length (parts v) <= j)%nat) → (∀ j, (j < length (parts v))%nat → j ∉ placesOf L k → ps' !! j = parts v !! j) →
  repr (mkVars (vals v) (<[k := c']> (appends v)) ps') (<[k := Some (base ++ partsText as_)]> M).
Proof using Type.
  intros Hd He Hv Hc Hlen Hin Hsame. exists (<[k := l']> L).
  assert (Hother : ∀ k' l, k' ≠ k → L !! k' = Some l → ∀ j, j ∈ l → (j < length (parts v))%nat ∧ j ∉ placesOf L k).
  { intros k' l Hne HL j Hj. split; [by eapply entry_range|]. unfold placesOf. destruct (L !! k) as [lk|] eqn:Ek; simpl; [by eapply (Hd k' k)|apply not_elem_of_nil]. }
  assert (Hfar : ∀ k' l, k' ≠ k → L !! k' = Some l → ∀ j, j ∈ l' → j ∉ l).
  { intros k' l Hne HL j Hj Hjl. destruct (Hother k' l Hne HL j Hjl) as [Hlt Hnin]. destruct (Hin j Hj); [done|lia]. }
  split.
  - intros k1 k2 l1 l2 Hne. destruct (decide (k1 = k)) as [->|H1]; [|destruct (decide (k2 = k)) as [->|H2]].
    + rewrite lookup_insert_eq, lookup_insert_ne by done. intros [= <-] HL2 j Hj. by eapply (Hfar k2).
    + rewrite lookup_insert_ne, lookup_insert_eq by done. intros HL1 [= <-] j Hj Hj'. by eapply (Hfar k1).
    + rewrite !lookup_insert_ne by done. by apply Hd.
  - intros k'. destruct (decide (k' = k)) as [->|Hne].
    + unfold entry. simpl. rewrite !lookup_insert_eq. exists l', as_, base. by split_and!.
    + eapply entry_ext; [..|apply (He k')]; simpl; rewrite ?lookup_insert_ne by done; try done. intros l HL j Hj. destruct (Hother k' l Hne HL j Hj). by apply Hsame.
Qed.

Lemma append_repr v M k args : repr v M → ∃ v', append v k args = Ok v' ∧ repr v' (specAppend M k args).
Proof using Type.
  intros HR. pose proof HR as (L & Hd & He). unfold append, specAppend. set (args' := match args with [] => emptyAppendArgs | _ => args end).
  assert (Hne : args' ≠ []) by (unfold args'; by destruct args). clearbody args'. pose proof (strAt_none _ _ _ _ (He k)) as Hnone. case_decide as Hs.
  { rewrite (proj1 Hnone Hs). eexists. split; [done|]. by apply repr_write. }
  pose proof (He k) as Hk. unfold entry in Hk. destruct (appends v !! k) as [c|] eqn:Ec.
  - destruct Hk as (l & as_ & base & HL & Hc & Hv & HM). destruct (addParts_more args' _ _ _ _ Hc) as (ps' & c' & l' & -> & Hc' & Hlen & Hin & Hsame). cbn [mbind res_bind lift].
    eexists. split; [done|]. unfold strAt. rewrite HM. cbn [default from_option id]. rewrite <-app_assoc, <-partsText_app.
    apply (repr_extend v M L k base (as_ ++ args') ps' c' l'); try done; unfold placesOf; by rewrite HL.
  - destruct Hk as [HL HM]. destruct args' as [|a args']; [done|]. destruct (addParts_first a args' (parts v)) as (ps' & c' & l' & -> & Hc' & Hlen & Hin & Hsame). cbn [mbind res_bind lift].
    eexists. split; [done|]. unfold strAt in *. rewrite HM. destruct (vals v !! k) as [[base|]|] eqn:Ev; [|done..]. cbn [default from_option id].
    apply (repr_extend v M L k base (a :: args') ps' c' l'); try done; unfold placesOf; rewrite HL; simpl; auto.
Qed.

Lemma repr_dom v M : repr v M → dom (vals v) = dom M.
Proof using Type.
  intros (L & _ & He). apply set_eq. intros k. rewrite !elem_of_dom. specialize (He k). unfold entry in He. destruct (appends v !! k); [|by destruct He as [_ ->]].
  destruct He as (l & as_ & base & _ & _ & -> & ->). by split.
Qed.

(** ** Runs *)

Inductive op := OGet (k : text) | OHas (k : text) | OLen | OSet (k : text) (val : STR) | OAppend (k : text) (args : list ANY).
Inductive out := RStr (s : STR) | RBool (b : bool) | RInt (n : Z) | RNone.

Definition exec (o : op) v : res (out * SetVars) :=
  match o with
  | OGet k => '(s, v) ← get v k; Ok (RStr s, v)
  | OHas k => Ok (RBool (has v k), v)
  | OLen => Ok (RInt (len v), v)
  | OSet k val => Ok (RNone, set v k val)
  | OAppend k args => v ← append v k args; Ok (RNone, v)
  end.

Definition specExec (o : op) M : out * gmap text STR :=
  match o with
  | OGet k => (RStr (strAt M k), M)
  | OHas k => (RBool (bool_decide (is_Some (M !! k))), M)
  | OLen => (RInt (Z.of_nat (size M)), M)
  | OSet k val => (RNone, <[k := val]> M)
  | OAppend k args => (RNone, specAppend M k args)
  end.

Fixpoint run (ops : list op) v : res (list out) :=
  match ops with [] => Ok [] | o :: ops => '(r, v) ← exec o v; rs ← run ops v; Ok (r :: rs) end.
Fixpoint specRun (ops : list op) M : list out :=
  match ops with [] => [] | o :: ops => (specExec o M).1 :: specRun ops (specExec o M).2 end.

Lemma setvars_exec_repr o v M : repr v M → ∃ v', exec o v = Ok ((specExec o M).1, v') ∧ repr v' (specExec o M).2.
Proof using Type.
  intros HR. destruct o as [k|k| |k val|k args]; cbn [exec specExec fst snd].
  - destruct (get_repr v M k HR) as (v' & -> & HR'). eauto.
  - exists v. split; [|done]. f_equal. f_equal. f_equal. unfold has. apply bool_decide_ext. pose proof (repr_dom _ _ HR) as Hd. by rewrite <-!elem_of_dom, Hd.
  - exists v. split; [|done]. unfold len. do 4 f_equal. by rewrite <-!size_dom, (repr_dom _ _ HR).
  - eexists. split; [done|]. by apply repr_write.
  - destruct (append_repr v M k args HR) as (v' & -> & HR'). eauto.
Qed.

Lemma run_repr ops v M : repr v M → run ops v = Ok (specRun ops M).
Proof using Type.
  revert v M. induction ops as [|o ops IH]; intros v M HR; cbn [run specRun]; [done|]. destruct (setvars_exec_repr o v M HR) as (v' & -> & HR'). cbn [mbind res_bind]. by rewrite (IH v' _ HR').
Qed.

(** Whatever operations run, the chains of queued parts give each reader what
    joining at once would, and no access leaves the array. *)
Theorem setvars_refine_map ops : run ops emptyVars = Ok (specRun ops ∅).
Proof using Type. apply run_repr, repr_empty. Qed.
End refine.
