(* ===== verification/ShellWords.v ===== *)
(** * Splitting command lines into words (string_utils.go)

    A word without quotes and escapes is a slice of the text; otherwise its bytes
    are written to a block whose size was fixed when the block was taken.  Shown:
    the block always suffices, the words are those of a plain machine that collects
    bytes, and words written with escapes come back. *)

From S2P Require Import Prelude.
Local Open Scope Z_scope.

Abbreviation text := (list Z) (only parsing).

(** A block: what was written and how much fits. *)
Record block := mkBlock { written : text; room : nat }.

Record splitter := mkSplitter { start : nat; blk : option block; quote : Z; escaped : bool; emitted : list text }.

(** [block[k] = ch; k++]; [None]: no block, or past its end. *)
Definition push (ch : Z) (b : option block) : option (option block) :=
  match b with
  | Some (mkBlock w n) => if decide (length w < n)%nat then Some (Some (mkBlock (w ++ [ch]) n)) else None
  | None => None
  end.

Fixpoint pushes (n : nat) (ch : Z) (b : option block) : option (option block) :=
  match n with O => Some b | S n => b ← push ch b; pushes n ch b end.

Section split.
Context (s : text) (quotedEscapeSlashes : nat).

Definition slice (a b : nat) : text := take (b - a) (drop a s).

Definition materialize (start end_ : nat) (b : option block) : option block :=
  match b with
  | Some b => Some b
  | None => Some (mkBlock (slice start end_) ((length s - start) * (1 + quotedEscapeSlashes) + 1))
  end.

Definition flush (end_ : nat) (st : splitter) : splitter :=
  mkSplitter (S end_) None (quote st) (escaped st)
    (match blk st with
     | Some b => if decide (written b = []) then emitted st else emitted st ++ [written b]
     | None => if decide (start st < end_)%nat then emitted st ++ [slice (start st) end_] else emitted st
     end).

(** The body of the loop for the byte [ch] at [i]. *)
Definition step (i : nat) (ch : Z) (st : splitter) : option splitter :=
  let '(mkSplitter start blk quote escaped out) := st in
  if escaped then
    b ← (if bool_decide (0 < quotedEscapeSlashes)%nat && negb (quote =? 0) && negb (ch =? 39) && negb (ch =? 34) && negb (ch =? 92) && negb (ch =? 47)
         then pushes quotedEscapeSlashes 92 blk else Some blk);
    b ← push ch b;
    Some (mkSplitter start b quote false out)
  else if ch =? 92 then Some (mkSplitter start (materialize start i blk) quote true out)
  else if negb (quote =? 0) then
    if ch =? quote then Some (mkSplitter start blk 0 false out) else b ← push ch blk; Some (mkSplitter start b quote false out)
  else if (ch =? 9) || (ch =? 10) || (ch =? 13) || (ch =? 32) then Some (flush i st)
  else if (ch =? 39) || (ch =? 34) then Some (mkSplitter start (materialize start i blk) ch false out)
  else match blk with Some _ => b ← push ch blk; Some (mkSplitter start b quote false out) | None => Some st end.

Fixpoint loop (i : nat) (rest : text) (st : splitter) : option splitter :=
  match rest with [] => Some st | ch :: rest => st ← step i ch st; loop (S i) rest st end.

Definition eachQuotedWord : option (list text) :=
  st ← loop 0 s (mkSplitter 0 None 0 false []);
  b ← (if escaped st then push 92 (blk st) else Some (blk st));
  Some (emitted (flush (length s) (mkSplitter (start st) b (quote st) (escaped st) (emitted st)))).

(** ** The plain machine *)

Record plainState := mkPlain { cur : text; pquote : Z; pescaped : bool; pout : list text }.

Definition pflush (st : plainState) : plainState := mkPlain [] (pquote st) (pescaped st) (if decide (cur st = []) then pout st else pout st ++ [cur st]).

Definition pstep (ch : Z) (st : plainState) : plainState :=
  let '(mkPlain cur quote escaped out) := st in
  if escaped then
    let extra := if bool_decide (0 < quotedEscapeSlashes)%nat && negb (quote =? 0) && negb (ch =? 39) && negb (ch =? 34) && negb (ch =? 92) && negb (ch =? 47)
                 then replicate quotedEscapeSlashes 92 else [] in
    mkPlain (cur ++ extra ++ [ch]) quote false out
  else if ch =? 92 then mkPlain cur quote true out
  else if negb (quote =? 0) then
    if ch =? quote then mkPlain cur 0 false out else mkPlain (cur ++ [ch]) quote false out
  else if (ch =? 9) || (ch =? 10) || (ch =? 13) || (ch =? 32) then pflush st
  else if (ch =? 39) || (ch =? 34) then mkPlain cur ch false out
  else mkPlain (cur ++ [ch]) quote false out.

Definition ploop (rest : text) (st : plainState) : plainState := foldl (λ st ch, pstep ch st) st rest.

Definition plainWords : list text :=
  let st := ploop s (mkPlain [] 0 false []) in
  pout (pflush (if pescaped st then mkPlain (cur st ++ [92]) (pquote st) true (pout st) else st)).

(** The two machines before byte [i]: with no block the word is the slice, which
    then holds neither quotes nor escapes; with a block there is room left. *)
Record matched (i : nat) (st : splitter) (p : plainState) : Prop := {
  mt_quote : pquote p = quote st; mt_escaped : pescaped p = escaped st; mt_out : pout p = emitted st;
  mt_start : (start st <= i)%nat;
  mt_blk : match blk st with
           | None => cur p = slice (start st) i ∧ quote st = 0 ∧ escaped st = false
           | Some (mkBlock w n) => cur p = w ∧ (length w + (length s - i) * (1 + quotedEscapeSlashes) + 1 <= n)%nat
           end;
}.

Lemma slice_snoc a i ch : (a <= i)%nat → s !! i = Some ch → slice a (S i) = slice a i ++ [ch].
Proof using Type.
  intros Ha Hi. unfold slice. replace (S i - a)%nat with (S (i - a)) by lia. apply take_S_r. rewrite lookup_drop. by replace (a + (i - a))%nat with i by lia.
Qed.

Lemma slice_length a i : (a <= i <= length s)%nat → length (slice a i) = (i - a)%nat.
Proof using Type. intros H. unfold slice. rewrite length_take, length_drop. lia. Qed.

Lemma push_ok ch w n : (length w < n)%nat → push ch (Some (mkBlock w n)) = Some (Some (mkBlock (w ++ [ch]) n)).
Proof using Type. intros H. simpl. by rewrite decide_True. Qed.

Lemma pushes_ok k ch w n : (length w + k <= n)%nat → pushes k ch (Some (mkBlock w n)) = Some (Some (mkBlock (w ++ replicate k ch) n)).
Proof using Type.
  revert w. induction k as [|k IH]; intros w H; cbn [pushes replicate]; [by rewrite app_nil_r|]. rewrite push_ok by lia. cbn [mbind option_bind].
  rewrite IH by (rewrite length_app; simpl; lia). by rewrite <-app_assoc.
Qed.

Lemma materialize_room i a b c : (a <= i <= length s)%nat →
  match b with None => c = slice a i | Some (mkBlock w n) => c = w ∧ (length w + (length s - i) * (1 + quotedEscapeSlashes) + 1 <= n)%nat end →
  ∃ w n, materialize a i b = Some (mkBlock w n) ∧ c = w ∧ (length w + (length s - i) * (1 + quotedEscapeSlashes) + 1 <= n)%nat.
Proof using Type.
  intros Hi. destruct b as [[w n]|]; [eauto|]. intros ->. eexists _, _. split; [done|]. split; [done|]. rewrite slice_length by lia. nia.
Qed.

Lemma flush_out i st p : matched i st p → (i <= length s)%nat → emitted (flush i st) = pout (pflush p).
Proof using Type.
  intros [Hq He Ho Hs Hb] Hi. destruct st as [a b q e out]; destruct p as [c pq pe po]; simpl in *. subst.
  destruct b as [[w n]|]; simpl in *; [by destruct Hb as [-> _]|]. destruct Hb as (-> & _). pose proof (slice_length a i ltac:(lia)) as Hl.
  destruct (decide (a < i)%nat) as [Hlt|Hlt]; case_decide as Hc; try done; [rewrite Hc in Hl; simpl in Hl; lia|]. exfalso. apply Hc. apply nil_length_inv. lia.
Qed.

Lemma flush_matched i st p : matched i st p → (i <= length s)%nat → quote st = 0 → escaped st = false → matched (S i) (flush i st) (pflush p).
Proof using Type.
  intros Hm Hi Hq He. pose proof (flush_out i st p Hm Hi) as Ho. destruct Hm. split; simpl; try done. split_and!; [|done..]. unfold slice. by rewrite Nat.sub_diag.
Qed.

Lemma step_matched i ch st p : matched i st p → s !! i = Some ch → ∃ st', step i ch st = Some st' ∧ matched (S i) st' (pstep ch p).
Proof using Type.
  intros Hm Hch. pose proof (lookup_lt_Some _ _ _ Hch) as Hi. pose proof Hm as [Hq He Ho Hs Hb].
  destruct st as [a b q e out]; destruct p as [c pq pe po]; simpl in Hq, He, Ho, Hs, Hb. subst pq pe po. unfold step, pstep.
  assert (Hroom : ∀ (w : text) n k, (length w + (length s - i) * (1 + quotedEscapeSlashes) + 1 <= n)%nat → (k <= 1 + quotedEscapeSlashes)%nat →
    (length w + k < n ∧ length w + k + (length s - S i) * (1 + quotedEscapeSlashes) + 1 <= n)%nat).
  { intros w n k H1 H2. replace (length s - i)%nat with (S (length s - S i)) in H1 by lia. nia. }
  assert (Hput : ∀ q', b ≠ None → ∃ st', (b ← push ch b; Some (mkSplitter a b q' false out)) = Some st' ∧ matched (S i) st' (mkPlain (c ++ [ch]) q' false out)).
  { intros q' Hsome. destruct b as [[w n]|]; [|done]. destruct Hb as [-> Hn]. destruct (Hroom w n 1%nat Hn ltac:(lia)). rewrite push_ok by lia. cbn [mbind option_bind].
    eexists. split; [done|]. split; simpl; try done; [lia|]. rewrite length_app. split; [done|]. simpl in *. lia. }
  assert (Hmat : ∀ q' e', ∃ st', Some (mkSplitter a (materialize a i b) q' e' out) = Some st' ∧ matched (S i) st' (mkPlain c q' e' out)).
  { intros q' e'. destruct (materialize_room i a b c ltac:(lia)) as (w & n & -> & -> & Hn). { destruct b as [[w n]|]; [done|by destruct Hb]. }
    destruct (Hroom w n 0%nat Hn ltac:(lia)). eexists. split; [done|]. split; simpl; try done; [lia|]. split; [done|]. lia. }
  destruct e.
  - destruct b as [[w n]|]; [|by destruct Hb as (_ & _ & ?)]. destruct Hb as [-> Hn]. destruct (_ && negb (ch =? 47)).
    + destruct (Hroom w n (1 + quotedEscapeSlashes)%nat Hn ltac:(lia)). rewrite pushes_ok by lia. cbn [mbind option_bind]. rewrite push_ok by (rewrite length_app, length_replicate; lia).
      cbn [mbind option_bind]. eexists. split; [done|]. split; simpl; try done; [lia|]. rewrite <-app_assoc. split; [done|]. rewrite !length_app, length_replicate. simpl in *. lia.
    + cbn [mbind option_bind]. by apply Hput.
  - destruct (ch =? 92); [apply Hmat|]. destruct (q =? 0) eqn:Eq; cbn [negb].
    + apply Z.eqb_eq in Eq as ->. destruct ((ch =? 9) || _ || _ || _); [eexists; split; [done|]; by apply flush_matched; [..|lia| |]|].
      destruct ((ch =? 39) || (ch =? 34)); [apply Hmat|]. destruct b as [bb|]; [by apply Hput|]. eexists. split; [done|]. destruct Hb as (-> & _).
      split; simpl; try done; [lia|]. split_and!; [by rewrite (slice_snoc a i ch) by done|done..].
    + apply Z.eqb_neq in Eq. assert (Hsome : b ≠ None) by (intros ->; by destruct Hb as (_ & ? & _)). destruct (ch =? q); [|by apply Hput].
      eexists. split; [done|]. destruct b as [[w n]|]; [|done]. destruct Hb as [-> Hn]. destruct (Hroom w n 0%nat Hn ltac:(lia)). split; simpl; try done; [lia|]. split; [done|]. lia.
Qed.

Lemma loop_matched rest i st p : matched i st p → drop i s = rest → ∃ st', loop i rest st = Some st' ∧ matched (length s) st' (ploop rest p) ∨ (length s < i)%nat.
Proof using Type.
  revert i st p. induction rest as [|ch rest IH]; intros i st p Hm Hd; cbn [loop].
  - destruct (decide (length s < i)%nat) as [|Hle]; [exists st; by right|]. exists st. left. split; [done|]. apply (f_equal length) in Hd. rewrite length_drop in Hd. simpl in Hd.
    by replace (length s) with i by lia.
  - assert (Hch : s !! i = Some ch). { rewrite <-(Nat.add_0_r i), <-lookup_drop, Hd. done. }
    destruct (step_matched i ch st p Hm Hch) as (st' & -> & Hm'). cbn [mbind option_bind]. rewrite (drop_S _ _ _ Hch) in Hd. injection Hd as Hd.
    destruct (IH (S i) st' _ Hm' Hd) as (st2 & [[Hl Hm2]|Hlt]); [|apply lookup_lt_Some in Hch; exists st'; right; lia]. exists st2. left. split; [done|]. exact Hm2.
Qed.

Lemma words_of_plain : eachQuotedWord = Some plainWords.
Proof using Type.
  unfold eachQuotedWord. assert (Hm0 : matched 0 (mkSplitter 0 None 0 false []) (mkPlain [] 0 false [])) by (split; done).
  destruct (loop_matched s 0 _ _ Hm0 eq_refl) as (st & [[-> Hm]|Hlt]); [|lia]. cbn [mbind option_bind]. unfold plainWords. set (p := ploop s _) in *. clearbody p.
  pose proof Hm as [Hq He Ho Hs Hb]. rewrite He. destruct (escaped st) eqn:Ee.
  - destruct (blk st) as [[w n]|] eqn:Eb; [|by destruct Hb as (_ & _ & ?)]. destruct Hb as [Hc Hn]. rewrite push_ok by lia. cbn [mbind option_bind].
    simpl. rewrite Hc, Ho. done.
  - cbn [mbind option_bind]. f_equal. rewrite <-(flush_out (length s) st p Hm) by lia. destruct st. simpl in *. by subst.
Qed.

(** Splitting never leaves a block it took, and gives the words that the plain
    machine collects byte by byte. *)
Theorem words_of_plain_machine : eachQuotedWord = Some plainWords.
Proof using Type. apply words_of_plain. Qed.
End split.

Definition splitQuotedWords (s : text) (quotedEscapeSlashes : nat) : option (list text) := eachQuotedWord s quotedEscapeSlashes.
Definition splitShellWords (s : text) : option (list text) := splitQuotedWords s 0.

(** ** Words written with escapes *)

Definition special (ch : Z) : bool := (ch =? 9) || (ch =? 10) || (ch =? 13) || (ch =? 32) || (ch =? 39) || (ch =? 34) || (ch =? 92).
Definition escape (ch : Z) : text := if special ch then [92; ch] else [ch].
Definition writeWord (w : text) : text := mjoin (escape <$> w).
Fixpoint writeWords (ws : list text) : text := match ws with [] => [] | [w] => writeWord w | w :: ws => writeWord w ++ 32 :: writeWords ws end.

Lemma ploop_app q a b st : ploop q (a ++ b) st = ploop q b (ploop q a st).
Proof. apply foldl_app. Qed.

Lemma ploop_word w c out : ploop 0 (writeWord w) (mkPlain c 0 false out) = mkPlain (c ++ w) 0 false out.
Proof.
  revert c. induction w as [|ch w IH]; intros c; [by rewrite app_nil_r|]. unfold writeWord in *. cbn [fmap list_fmap mjoin list_join]. rewrite ploop_app.
  assert (Hch : ploop 0 (escape ch) (mkPlain c 0 false out) = mkPlain (c ++ [ch]) 0 false out).
  { unfold escape. destruct (special ch) eqn:E; [done|]. unfold special in E. repeat (apply orb_false_iff in E as [E ?]). unfold ploop. simpl. by repeat match goal with H : (ch =? _) = false |- _ => rewrite H; clear H end. }
  rewrite Hch, IH. by rewrite <-app_assoc.
Qed.

Lemma ploop_space s w out : w ≠ [] → ploop 0 (32 :: s) (mkPlain w 0 false out) = ploop 0 s (mkPlain [] 0 false (out ++ [w])).
Proof. intros Hw. unfold ploop. cbn [foldl]. f_equal. unfold pstep, pflush. simpl. by rewrite decide_False. Qed.

Lemma ploop_words ws out : Forall (λ w, w ≠ []) ws → pout (pflush (ploop 0 (writeWords ws) (mkPlain [] 0 false out))) = out ++ ws ∧ pescaped (ploop 0 (writeWords ws) (mkPlain [] 0 false out)) = false.
Proof.
  intros Hne. revert out. induction Hne as [|w ws Hw Hne IH]; intros out; [simpl; by rewrite app_nil_r|]. destruct ws as [|w2 ws].
  - cbn [writeWords]. rewrite ploop_word. simpl. by rewrite decide_False.
  - cbn [writeWords]. rewrite ploop_app, ploop_word, app_nil_l, ploop_space by done. destruct (IH (out ++ [w])) as [IH1 IH2]. split; [|exact IH2]. etrans; [exact IH1|]. by rewrite <-app_assoc.
Qed.

(** Words that are not empty, written with a backslash before each quote, space
    and backslash and joined by spaces, are the words the line is split into. *)
Theorem words_roundtrip ws : Forall (λ w, w ≠ []) ws → splitShellWords (writeWords ws) = Some ws.
Proof.
  intros Hne. unfold splitShellWords, splitQuotedWords. rewrite words_of_plain. f_equal. unfold plainWords. destruct (ploop_words ws [] Hne) as [H1 H2].
  cbv zeta. rewrite H2. exact H1.
Qed.

Lemma words_roundtrip_witness : splitShellWords (writeWords [bs "a b"%string; bs "it's"%string; [92]]) = Some [bs "a b"%string; bs "it's"%string; [92]].
Proof. apply words_roundtrip. repeat constructor; done. Defined.
