(* ===== verification/Tokens.v ===== *)
(** * Expansion of the words of statements (modules.go)

    The words of a statement are expanded in an environment: a word that is one
    reference by itself gives the words of the value, another word is substituted,
    first as a make expression and then with modifiers, and split at white space.  A word
    that expands to itself without asking the environment is entered in a set, per
    phase, and is not looked at again.  Shown: the set changes nothing.  The memo of
    expansions (Expansion.v) and the tracking of text that came from files are left
    out; interned words are their texts. *)

From S2P Require Import Prelude Tags Env MacroString ShellWords.
Local Open Scope string_scope.
Local Open Scope list_scope.
Local Open Scope Z_scope.

Abbreviation text := (list Z) (only parsing).
Abbreviation look := (list Z → option (list Z * option VFS)) (only parsing).

Inductive TokenExpansion :=
  tokenExpandLazy | tokenExpandArguments | tokenExpandFinal | tokenExpandAssignment | tokenExpandPathArguments | tokenExpandStatement | tokenExpandRoots.
#[export] Instance TokenExpansion_eq_dec : EqDecision TokenExpansion.
Proof. solve_decision. Defined.

(** ** Which variables stay *)

Definition dontExpandVarNames : list string :=
  ["ARCADIA_BUILD_ROOT"; "ARCADIA_ROOT"; "BINDIR"; "CURDIR"; "PYTHON_BIN"; "TEST_CASE_ROOT"; "TEST_OUT_ROOT"; "TEST_SOURCE_ROOT"; "TEST_WORK_ROOT"].
Definition dontExpandVar (n : text) : bool := bool_decide (n ∈ (bs <$> dontExpandVarNames)).
Definition resourceGlobalSuffix : text := bs "_RESOURCE_GLOBAL".
Definition keepDeferredVar (n : text) : bool :=
  bool_decide (n ∈ (bs <$> ["BINDIR"; "CURDIR"; "S"; "B"; "MANAGED_PEERS"; "MANAGED_PEERS_CLOSURE"; "APPLIED_EXCLUDES"; "_FMT_INDUCED_DEPS"])) ||
  HasSuffix n resourceGlobalSuffix || bool_decide ([95] `prefix_of` n) && HasSuffix n (bs "__INCLUDE").
Definition notRootVar (n : text) : bool := negb (rootVar n).
Definition pathArgumentsReservedVar (n : text) : bool := dontExpandVar n || HasSuffix n resourceGlobalSuffix.

Definition policies (phase : TokenExpansion) : substPolicy * substPolicy :=
  let deref e l r := mkPolicy true false e false l r in
  let render e r := mkPolicy false false e false None r in
  match phase with
  | tokenExpandLazy => (deref false None None, render false None)
  | tokenExpandArguments => (deref true None (Some keepDeferredVar), render true (Some keepDeferredVar))
  | tokenExpandFinal => (deref true None None, render true None)
  | tokenExpandAssignment => (deref true None (Some dontExpandVar), render true (Some dontExpandVar))
  | tokenExpandPathArguments => (deref true None (Some pathArgumentsReservedVar), render true (Some pathArgumentsReservedVar))
  | tokenExpandStatement => (deref true (Some pathArgumentsReservedVar) None, render true None)
  | tokenExpandRoots => (deref false (Some notRootVar) None, render false None)
  end.

(** ** White space *)

(** The bytes of the white space that a text starts with: the code points of
    [unicode.IsSpace], whose first bytes never occur inside another character. *)
Definition spaceLen (s : text) : nat :=
  match s with
  | 9 :: _ | 10 :: _ | 11 :: _ | 12 :: _ | 13 :: _ | 32 :: _ => 1
  | 194 :: 133 :: _ | 194 :: 160 :: _ => 2
  | 225 :: 154 :: 128 :: _ => 3
  | 226 :: 128 :: b :: _ => if (128 <=? b) && (b <=? 138) || (b =? 168) || (b =? 169) || (b =? 175) then 3 else 0
  | 226 :: 129 :: 159 :: _ => 3
  | 227 :: 128 :: 128 :: _ => 3
  | _ => 0
  end.

(** [strings.IndexFunc(s, unicode.IsSpace) >= 0] *)
Fixpoint hasSpace (s : text) : bool := negb (spaceLen s =? 0)%nat || match s with [] => false | _ :: s => hasSpace s end.

(** [strings.Fields]; [skip] bytes of a white space are left, [cur] is the word so far. *)
Fixpoint fieldsLoop (s : text) (skip : nat) (cur : text) : list text :=
  let done := match cur with [] => [] | _ => [cur] end in
  match s with
  | [] => done
  | b :: s' =>
      match skip with
      | S skip => fieldsLoop s' skip cur
      | O => match spaceLen s with O => fieldsLoop s' 0 (cur ++ [b]) | S n => done ++ fieldsLoop s' n [] end
      end
  end.
Definition Fields (s : text) : list text := fieldsLoop s 0 [].

Definition internAny (s : text) : option ANY := if vfsHasPrefix s then AVfs <$> intern s else Some (AStr (Some s)).

(** ** One word *)

Section tokens.
Context (getenv md5 : text → text) (fuel : nat).

(** The substitution with shared buffers, [bufs 0] and [bufs 1] for its two stages. *)
Definition expandTokenInto (s : text) (env : look) (phase : TokenExpansion) (bufs : bool → bool → text) (constant : bool) : res (text * bool * (bool → bool → text)) :=
  if decide (s = bs "$S") then Ok (bs "$(S)", constant, bufs)
  else if decide (s = bs "$B") then Ok (bs "$(B)", constant, bufs)
  else
    let '(deref, render) := policies phase in
    '(src, b0, constant) ← substMacroDeeplyInto getenv md5 [] (Some env) deref (substMacroDeeply getenv md5 [] (Some env) deref fuel) s (bufs false) constant;
    let bufs := λ k, if (k : bool) then bufs k else b0 in
    if decide (phase = tokenExpandStatement ∨ phase = tokenExpandRoots) then Ok (textOf b0 src, constant, bufs)
    else
      '(src, b1, constant) ← substMacroDeeplyInto getenv md5 [] (Some env) render (substMacroDeeply getenv md5 [] (Some env) render fuel) (textOf b0 src) (bufs true) constant;
      Ok (textOf b1 src, constant, λ k, if (k : bool) then b1 else bufs k).

Definition expandTokenWith (s : text) (env : look) (phase : TokenExpansion) (constant : bool) : res (text * bool) :=
  if decide (s = bs "$S") then Ok (bs "$(S)", constant)
  else if decide (s = bs "$B") then Ok (bs "$(B)", constant)
  else
    let '(deref, render) := policies phase in
    '(derefed, constant) ← substMacroDeeply getenv md5 [] (Some env) deref (S fuel) s constant;
    if decide (phase = tokenExpandStatement ∨ phase = tokenExpandRoots) then Ok (derefed, constant)
    else substMacroDeeply getenv md5 [] (Some env) render (S fuel) derefed constant.

(** [${NAME}] by itself: the name. *)
Definition singleRef (t : text) : option text :=
  match t with
  | 36 :: 123 :: rest =>
      match last rest with
      | Some 125 => let name := take (length rest - 1) rest in
          if decide (length t < 4)%nat then None
          else if bool_decide (36 ∈ name) || bool_decide (123 ∈ name) || bool_decide (125 ∈ name) then None else Some name
      | _ => None
      end
  | _ => None
  end.

Definition staysIn (phase : TokenExpansion) (name : text) : bool :=
  match phase with tokenExpandStatement => pathArgumentsReservedVar name | tokenExpandRoots => notRootVar name | _ => false end.

(** The words of the value; [None]: not such a word, or not such a value. *)
Definition expandSingleRef (t : text) (env : look) (phase : TokenExpansion) : option (list text) :=
  name ← singleRef t;
  if staysIn phase name then None
  else match env name with Some (value, None) => if bool_decide (36 ∈ value) then None else Some (Fields value) | _ => None end.

Definition itemDollar (item : ANY) : bool := match item with AStr (Some t) => bool_decide (36 ∈ t) | _ => false end.

(** The words of an expanded text. *)
Definition wordsOf (command : bool) (item : ANY) (t expanded : text) : res (list ANY) :=
  if command then ws ← lift (splitShellWords expanded); lift (mapM internAny ws)
  else if bool_decide (expanded = t) && negb (bool_decide (t = [])) && negb (vfsHasPrefix t) && negb (hasSpace t) then Ok [item]
  else lift (mapM internAny (Fields expanded)).

(** ** All words *)

Record tokenState := mkTokens { self : TokenExpansion → gset text; buffers : bool → bool → text }.

Definition addSelf (phase : TokenExpansion) (t : text) (f : TokenExpansion → gset text) : TokenExpansion → gset text :=
  λ p, if decide (p = phase) then {[ t ]} ∪ f p else f p.

(** The words an item gives, [None] where it stays as it is. *)
Definition expandItem (item : ANY) (env : look) (command : bool) (phase : TokenExpansion) (st : tokenState) : res (option (list ANY)) * tokenState :=
  let t := any_string item in
  if negb (itemDollar item) || negb command && bool_decide (t ∈ self st phase) then (Ok None, st)
  else
    match (if command then None else expandSingleRef t env phase) with
    | Some words => (Some <$> lift (mapM internAny words), st)
    | None =>
        match expandTokenInto t env phase (buffers st) true with
        | Ok (expanded, constant, bufs) =>
            let st := mkTokens (self st) bufs in
            if negb command && constant && bool_decide (expanded = t) && negb (vfsHasPrefix t) && negb (hasSpace t)
            then (Ok None, mkTokens (addSelf phase t (self st)) bufs)
            else (Some <$> wordsOf command item t expanded, st)
        | Throw => (Throw, st)
        | NoFuel => (NoFuel, st)
        end
    end.

(** [out] is nil until an item changes; [items] are those before. *)
Fixpoint expandLoop (before items : list ANY) (env : look) (command : bool) (phase : TokenExpansion) (out : option (list ANY)) (st : tokenState) : res (option (list ANY)) * tokenState :=
  match items with
  | [] => (Ok out, st)
  | item :: items =>
      let '(r, st) := expandItem item env command phase st in
      match r with
      | Ok None => expandLoop (before ++ [item]) items env command phase ((λ o, o ++ [item]) <$> out) st
      | Ok (Some words) => expandLoop (before ++ [item]) items env command phase (Some (default before out ++ words)) st
      | Throw => (Throw, st)
      | NoFuel => (NoFuel, st)
      end
  end.

Definition expandTokens (items : list ANY) (env : look) (command : bool) (phase : TokenExpansion) (st : tokenState) : res (list ANY) * tokenState :=
  let '(r, st) := expandLoop [] items env command phase None st in
  (default items <$> r, st).

(** ** Without the set and the buffers *)

Lemma expandTokenInto_with s env phase bufs c : (λ '(t, c, _), (t, c)) <$> expandTokenInto s env phase bufs c = expandTokenWith s env phase c.
Proof using Type.
  unfold expandTokenInto, expandTokenWith. case_decide; [done|]. case_decide; [done|]. destruct (policies phase) as [deref render].
  rewrite <-(deeply_into_eq getenv md5 [] (Some env) deref fuel s (bufs false) c).
  destruct (substMacroDeeplyInto getenv md5 [] (Some env) deref _ s (bufs false) c) as [[[src b0] c1]| |]; cbn [mbind res_bind fmap res_fmap]; [|done..].
  case_decide; [done|]. rewrite <-(deeply_into_eq getenv md5 [] (Some env) render fuel (textOf b0 src) (bufs true) c1).
  by destruct (substMacroDeeplyInto getenv md5 [] (Some env) render _ _ (bufs true) c1) as [[[src' b1] c2]| |].
Qed.

Definition itemWords (item : ANY) (env : look) (command : bool) (phase : TokenExpansion) : res (list ANY) :=
  let t := any_string item in
  if negb (itemDollar item) then Ok [item]
  else
    match (if command then None else expandSingleRef t env phase) with
    | Some words => lift (mapM internAny words)
    | None => '(expanded, _) ← expandTokenWith t env phase true; wordsOf command item t expanded
    end.

Fixpoint refTokens (items : list ANY) (env : look) (command : bool) (phase : TokenExpansion) : res (list ANY) :=
  match items with
  | [] => Ok []
  | item :: items => ws ← itemWords item env command phase; rest ← refTokens items env command phase; Ok (ws ++ rest)
  end.

Lemma singleRef_shape t name : singleRef t = Some name → t = 36 :: 123 :: name ++ [125] ∧ name ≠ [] ∧ Forall (λ b, negb ((b =? 36) || (b =? 123) || (b =? 125)) = true) name.
Proof using Type.
  unfold singleRef. intros H. assert (∃ rest, t = 36 :: 123 :: rest ∧ last rest = Some 125 ∧ name = take (length rest - 1) rest ∧ (4 <= length t)%nat ∧ 36 ∉ name ∧ 123 ∉ name ∧ 125 ∉ name)
    as (rest & -> & Hl & -> & Hlen & H1 & H2 & H3).
  { revert H. repeat case_match; try done; intros [= <-]; eexists; (split; [done|]); match goal with Ho : (_ || _ = false)%bool |- _ => apply orb_false_iff in Ho as [[?%bool_decide_eq_false ?%bool_decide_eq_false]%orb_false_iff ?%bool_decide_eq_false] end; split_and!; try done; lia. }
  apply last_Some in Hl as [l ->]. rewrite length_app in *. simpl in *. replace (length l + 1 - 1)%nat with (length l) in * by lia. rewrite take_app_length in *. split; [done|]. split; [intros ->; simpl in *; lia|].
  apply Forall_forall. intros b Hb. apply negb_true_iff. rewrite !orb_false_iff, !Z.eqb_neq. split_and!; intros ->; done.
Qed.

Lemma spanWhile_stop f a b r : Forall (λ x, f x = true) a → f b = false → spanWhile f (a ++ b :: r) = (a, b :: r).
Proof using Type. intros Ha Hb. induction Ha as [|x a Hx Ha IH]; simpl; [by rewrite Hb|]. by rewrite Hx, IH. Qed.

Lemma scan_single name : name ≠ [] → Forall (λ b, negb ((b =? 36) || (b =? 123) || (b =? 125)) = true) name →
  scanMakefileRef (123 :: name ++ [125]) = Some (setName noRef name false, []).
Proof using Type.
  intros Hne Hf. unfold scanMakefileRef. change (spanWhile isMacroAlnum (123 :: name ++ [125])) with (([] : text), 123 :: name ++ [125]). cbv iota beta.
  rewrite spanWhile_stop by done. rewrite decide_False by done. by rewrite decide_True.
Qed.

(** A reference by itself that does not stay asks the environment. *)
Lemma single_asks t name env phase c r c' : singleRef t = Some name → staysIn phase name = false → expandTokenWith t env phase c = Ok (r, c') → c' = false.
Proof using Type.
  intros (-> & Hne & Hf)%singleRef_shape Hstay. unfold expandTokenWith. rewrite decide_False, decide_False by (intros [=]; done).
  assert (Hd : ∃ d1, substMacroDeeply getenv md5 [] (Some env) (policies phase).1 (S fuel) (36 :: 123 :: name ++ [125]) c = Ok (d1, false)).
  { assert (Hmk : makefile (policies phase).1 = true) by (by destruct phase). assert (Hkm : keepModifiers (policies phase).1 = false) by (by destruct phase).
    assert (Hlit : match literal (policies phase).1 with Some f => f name | None => false end = false) by (by destruct phase).
    cbn [substMacroDeeply]. unfold plainText. rewrite bool_decide_eq_false_2 by (intros Hn; apply Hn; by left). cbn [andb]. rewrite Hmk, substMacro_render. set (d := substMacroDeeply _ _ _ _ _ _).
    cbn [length render]. change (36 =? 92) with false. change (36 =? 36) with true. cbv iota. unfold scanRef. rewrite Hmk, scan_single by done. cbn [lift mbind res_bind].
    unfold decideRef. cbn [setName raw flags process MacroString.name noRef]. rewrite Hkm. cbn [orb andb]. rewrite Hlit. unfold macroLookup. cbn [List.find].
    destruct (env name) as [[value f]|].
    - change (hasFlag 0 "hide") with false. cbv iota. destruct (insertion_total md5 d (setName noRef name false) (mkValues [] value f true) [] false eq_refl eq_refl) as [w ->]. cbn [mbind res_bind].
      eexists. reflexivity.
    - destruct (negb _ || _); eexists; reflexivity. }
  destruct Hd as [d1 Hd]. destruct (policies phase) as [deref render] eqn:Ep. cbn [fst] in Hd. rewrite Hd. cbn [mbind res_bind]. case_decide; [by intros [= _ <-]|].
  rewrite deeply_flagged. destruct (substMacroDeeply _ _ _ _ render _ d1 true) as [[??]| |]; cbn [fmap res_fmap]; [|done..]. by intros [= _ <-].
Qed.

Lemma expandTokenWith_constant t env phase r : expandTokenWith t env phase true = Ok (r, true) → ∀ env', expandTokenWith t env' phase true = Ok (r, true).
Proof using Type.
  unfold expandTokenWith. intros H env'. case_decide; [done|]. case_decide; [done|]. destruct (policies phase) as [deref render].
  destruct (substMacroDeeply getenv md5 [] (Some env) deref (S fuel) t true) as [[d1 c1]| |] eqn:E1; cbn [mbind res_bind] in H; [|done..].
  assert (c1 = true) as ->. { case_decide; [congruence|]. by destruct (deeply_constantly _ _ _ _ _ (Some env') _ _ _ _ H). }
  destruct (deeply_constantly _ _ _ _ _ (Some env') _ _ _ _ E1) as [_ ->]. cbn [mbind res_bind]. case_decide; [done|]. by destruct (deeply_constantly _ _ _ _ _ (Some env') _ _ _ _ H) as [_ ->].
Qed.

Definition selfInv (st : tokenState) : Prop := ∀ phase t, t ∈ self st phase → ∀ env, itemWords (AStr (Some t)) env false phase = Ok [AStr (Some t)].

Lemma self_always t env phase : 36 ∈ t → expandSingleRef t env phase = None → expandTokenWith t env phase true = Ok (t, true) → vfsHasPrefix t = false → hasSpace t = false →
  ∀ env', itemWords (AStr (Some t)) env' false phase = Ok [AStr (Some t)].
Proof using Type.
  intros Hin Hnone Hexp Hp Hs env'. unfold itemWords. cbn [itemDollar any_string str_string default from_option id]. rewrite bool_decide_eq_true_2 by done. cbn [negb].
  assert (expandSingleRef t env' phase = None) as ->.
  { unfold expandSingleRef. destruct (singleRef t) as [name|] eqn:E; [|done]. cbn [mbind option_bind]. destruct (staysIn phase name) eqn:Es; [done|].
    by pose proof (single_asks t name env phase true t true E Es Hexp). }
  rewrite (expandTokenWith_constant _ _ _ _ Hexp). cbn [mbind res_bind]. unfold wordsOf. rewrite bool_decide_eq_true_2, Hp, Hs by done.
  rewrite bool_decide_eq_false_2 by (intros ->; by apply elem_of_nil in Hin). done.
Qed.

Lemma expandItem_spec item env command phase st : selfInv st →
  let '(r, st') := expandItem item env command phase st in default [item] <$> r = itemWords item env command phase ∧ selfInv st'.
Proof using Type.
  intros HI. unfold expandItem. destruct (itemDollar item) eqn:Ed; cbn [negb orb]; [|unfold itemWords; by rewrite Ed].
  destruct item as [[t|]|]; cbn [itemDollar] in Ed; try done. apply bool_decide_eq_true in Ed as Hin. cbn [any_string str_string default from_option id].
  destruct (negb command && bool_decide (t ∈ self st phase)) eqn:Eself.
  { apply andb_true_iff in Eself as [Hc%negb_true_iff Hs%bool_decide_eq_true]. subst command. split; [|done]. by rewrite (HI phase t Hs env). }
  unfold itemWords. cbn [itemDollar any_string str_string default from_option id]. rewrite Ed. cbn [negb]. destruct (if command then None else expandSingleRef t env phase) as [words|] eqn:Esr.
  { split; [|done]. by destruct (lift (mapM internAny words)). }
  rewrite <-(expandTokenInto_with t env phase (buffers st) true).
  destruct (expandTokenInto t env phase (buffers st) true) as [[[expanded constant] bufs]| |] eqn:Ei; cbn [mbind res_bind fmap res_fmap]; [|done..].
  destruct (negb command && constant && bool_decide (expanded = t) && negb (vfsHasPrefix t) && negb (hasSpace t)) eqn:Econd.
  - apply andb_true_iff in Econd as [[[[Hc%negb_true_iff Hk]%andb_true_iff He%bool_decide_eq_true]%andb_true_iff Hp%negb_true_iff]%andb_true_iff Hs%negb_true_iff]. subst command expanded. cbn [self]. destruct constant; [|done].
    assert (Hw : expandTokenWith t env phase true = Ok (t, true)) by (by rewrite <-(expandTokenInto_with t env phase (buffers st) true), Ei). split.
    + cbn [fmap res_fmap default from_option id]. unfold wordsOf. rewrite bool_decide_eq_true_2, Hp, Hs by done. by rewrite bool_decide_eq_false_2 by (intros ->; by apply elem_of_nil in Hin).
    + intros ph u. cbn [self]. unfold addSelf. destruct (decide (ph = phase)) as [->|Hph]; [|exact (HI ph u)]. rewrite elem_of_union, elem_of_singleton. intros [->|Hu]; [|exact (HI phase u Hu)]. by eapply self_always.
  - split; [by destruct (wordsOf command (AStr (Some t)) t expanded)|]. intros ph u. cbn [self]. exact (HI ph u).
Qed.

Lemma expandLoop_spec before items env command phase out st : selfInv st →
  let '(r, st') := expandLoop before items env command phase out st in
  default (before ++ items) <$> r = app (default before out) <$> refTokens items env command phase ∧ selfInv st'.
Proof using Type.
  revert before out st. induction items as [|item items IH]; intros before out st HI; cbn [expandLoop refTokens].
  { split; [|done]. simpl. rewrite !app_nil_r. done. }
  pose proof (expandItem_spec item env command phase st HI) as Hi. destruct (expandItem item env command phase st) as [r st1]. destruct Hi as [Hr HI1]. rewrite <-Hr.
  destruct r as [[words|]| |]; cbn [fmap res_fmap mbind res_bind default from_option id]; [| |done..].
  - specialize (IH (before ++ [item]) (Some (default before out ++ words)) st1 HI1). destruct (expandLoop _ _ _ _ _ _ st1) as [r2 st2]. destruct IH as [IH HI2]. split; [|done].
    rewrite <-app_assoc in IH. cbn [app] in IH. rewrite IH. cbn [default from_option id]. destruct (refTokens items env command phase); cbn [fmap res_fmap mbind res_bind]; [|done..]. by rewrite <-app_assoc.
  - specialize (IH (before ++ [item]) ((λ o, o ++ [item]) <$> out) st1 HI1). destruct (expandLoop _ _ _ _ _ _ st1) as [r2 st2]. destruct IH as [IH HI2]. split; [|done].
    rewrite <-app_assoc in IH. cbn [app] in IH. rewrite IH. destruct (refTokens items env command phase); cbn [fmap res_fmap mbind res_bind]; [|done..].
    destruct out; cbn [fmap option_fmap option_map default from_option id]; by rewrite <-app_assoc.
Qed.

(** ** Sequences of expansions *)

Fixpoint run (calls : list (list ANY * look * bool * TokenExpansion)) (st : tokenState) : list (res (list ANY)) :=
  match calls with
  | [] => []
  | (items, env, command, phase) :: calls => let '(r, st) := expandTokens items env command phase st in r :: run calls st
  end.

Definition noTokens : tokenState := mkTokens (λ _, ∅) (λ _ _, []).

Lemma tokens_run_spec calls st : selfInv st → run calls st = (λ '(items, env, command, phase), refTokens items env command phase) <$> calls.
Proof using Type.
  revert st. induction calls as [|[[[items env] command] phase] calls IH]; intros st HI; cbn [run]; [done|]. unfold expandTokens.
  pose proof (expandLoop_spec [] items env command phase None st HI) as Hl. destruct (expandLoop [] items env command phase None st) as [r st1]. destruct Hl as [Hr HI1].
  rewrite (IH st1 HI1). cbn [fmap list_fmap]. f_equal. cbn [app default from_option id] in Hr. rewrite Hr. by destruct (refTokens items env command phase).
Qed.

(** C15: expansions of word lists in different environments and phases, one after
    another with the shared set of words that expand to themselves and the shared
    buffers, give for each list the words of its items expanded one by one. *)
Theorem tokens_transparent calls : run calls noTokens = (λ '(items, env, command, phase), refTokens items env command phase) <$> calls.
Proof using Type. apply tokens_run_spec. intros phase t Ht. exfalso. by apply (not_elem_of_empty (C := gset text) t). Qed.
End tokens.
