(* ===== verification/PeerPolicies.v ===== *)
(** * Rules about dependencies between directories (peer_policy.go, dir_rows.go)

    A policy is a list of rules, each a pair of patterns and a verdict; the first
    rule whose patterns match the two directories decides, and without one the
    dependency is allowed.  The code does not try the rules one by one: it files each
    pattern under the literal prefixes it begins with in a double-array trie, keeps
    the rules that match anything apart in a bit set, remembers the matching rules of
    a directory in packed words by the row of the directory, and merges sorted lists.
    Shown: the answers are those of the first matching rule.

    Compiled regular expressions are values with a matcher, given by Go's regexp
    package; of the syntax trees the operators [literalPrefixes] looks at are
    modelled, the others are [OpOther]. *)

From S2P Require Import Prelude Tokens Vec BitSets IndexMaps Trie.
Local Open Scope string_scope.
Local Open Scope list_scope.
Local Open Scope Z_scope.

#[local] Existing Instances BitSet.BitSet_go_zero DenseIndex.DenseIndex_go_zero.

(** ** Literal prefixes of regular expressions *)

(** The parser never makes a concatenation of nothing.  [Rune] is the text of the runes. *)
Inductive Syntax :=
  | OpEmptyMatch
  | OpBeginText
  | OpLiteral (FoldCase : bool) (Rune : text)
  | OpCapture (Sub : Syntax)
  | OpAlternate (Sub : list Syntax)
  | OpConcat (first : Syntax) (rest : list Syntax)
  | OpOther.

Definition isLiteral (re : Syntax) : bool :=
  match re with OpLiteral _ _ => true | OpCapture (OpLiteral _ _) => true | _ => false end.

(** The first branch without prefixes leaves the alternative without any. *)
Definition altPrefixes (branches : list (list text)) : list text :=
  if bool_decide ([] ∈ branches) then [] else mjoin branches.

(** [head] are the prefixes of the first part, [tail] those of the others. *)
Definition concatPrefixes (literal : bool) (head : list text) (tail : option (list text)) : list text :=
  match head, tail with
  | [h], Some ((_ :: _) as tail) => if literal then app h <$> tail else head
  | _, _ => head
  end.

Fixpoint literalPrefixes (re : Syntax) : list text :=
  match re with
  | OpLiteral _ r => [r]
  | OpCapture sub => literalPrefixes sub
  | OpAlternate subs => altPrefixes (literalPrefixes <$> subs)
  | OpConcat first rest =>
      (fix conc (literal : bool) (head : list text) (rest : list Syntax) :=
         concatPrefixes literal head (match rest with [] => None | next :: rest => Some (conc (isLiteral next) (literalPrefixes next) rest) end))
        (isLiteral first) (literalPrefixes first) rest
  | OpEmptyMatch | OpBeginText | OpOther => []
  end.

(** The texts an expression can begin a match with.  Other operators, and literals
    matched in either case, can begin with anything. *)
Fixpoint denotes (re : Syntax) (w : text) : Prop :=
  match re with
  | OpEmptyMatch | OpBeginText => w = []
  | OpLiteral fold r => fold = true ∨ w = r
  | OpCapture sub => denotes sub w
  | OpAlternate subs => (fix some l := match l with [] => False | s :: l => denotes s w ∨ some l end) subs
  | OpConcat first rest =>
      (fix all (l : list Syntax) (first : text → Prop) (w : text) : Prop :=
         ∃ w1 w2, w = w1 ++ w2 ∧ first w1 ∧ match l with [] => w2 = [] | s :: l => all l (denotes s) w2 end) rest (denotes first) w
  | OpOther => True
  end.

(** No literal is empty (the parser makes none) or matched in either case. *)
Fixpoint plainTree (re : Syntax) : bool :=
  match re with
  | OpLiteral fold r => negb fold && bool_decide (r ≠ [])
  | OpCapture sub => plainTree sub
  | OpAlternate subs => forallb plainTree subs
  | OpConcat first rest => plainTree first && forallb plainTree rest
  | OpEmptyMatch | OpBeginText | OpOther => true
  end.

(** Every text the expression begins a match with has one of the prefixes, and no prefix is empty. *)
Definition covered (ps : list text) (P : text → Prop) : Prop :=
  [] ∉ ps ∧ (ps ≠ [] → ∀ w, P w → ∃ p, p ∈ ps ∧ p `prefix_of` w).

Lemma concat_covered literal head tail (P Q : text → Prop)   : covered head P → covered tail Q →
  (literal = true → ∀ w, P w → head = [w]) → covered (concatPrefixes literal head (Some tail)) (λ w, ∃ w1 w2, w = w1 ++ w2 ∧ P w1 ∧ Q w2).
Proof.
  intros [Hh1 Hh2] [Ht1 Ht2] Hlit. assert (Hhead : covered head (λ w, ∃ w1 w2, w = w1 ++ w2 ∧ P w1 ∧ Q w2)).
  { split; [done|]. intros Hne w (w1 & w2 & -> & H1 & _). destruct (Hh2 Hne w1 H1) as (p & Hp & Hw). exists p. split; [done|]. by apply prefix_app_r. }
  unfold concatPrefixes. destruct head as [|h [|]]; [done| |done]. destruct tail as [|t tail]; [done|]. destruct literal; [|done]. split.
  - intros (x & Hx & Hin)%list_elem_of_fmap. symmetry in Hx. apply app_nil in Hx as [-> ->]. done.
  - intros _ w (w1 & w2 & -> & H1 & H2). specialize (Hlit eq_refl w1 H1) as [= ->]. destruct (Ht2 ltac:(done) w2 H2) as (p & Hp & Hw).
    exists (w1 ++ p). split; [apply list_elem_of_fmap; eauto|]. by apply prefix_app.
Qed.

Lemma isLiteral_denotes re w : isLiteral re = true → plainTree re = true → denotes re w → literalPrefixes re = [w].
Proof. destruct re as [| |[] r|[| |[] r| | | |]| | |]; try done; cbn; intros _ Hp [?| ->]; try done; apply andb_prop in Hp as [? _]; done. Qed.

Lemma literalPrefixes_covered : ∀ re, plainTree re = true → covered (literalPrefixes re) (denotes re).
Proof.
  fix IH 1. intros [| |fold r|sub|subs|first rest|] Hp; cbn [plainTree] in Hp.
  - split; [apply not_elem_of_nil|done].
  - split; [apply not_elem_of_nil|done].
  - apply andb_prop in Hp as [Hf Hr%bool_decide_eq_true]. destruct fold; [done|]. cbn. split; [rewrite list_elem_of_singleton; congruence|].
    intros _ w [?| ->]; [done|]. exists r. split; [by left|done].
  - by apply (IH sub).
  - cbn. unfold altPrefixes. assert (Hall : Forall (λ s, covered (literalPrefixes s) (denotes s)) subs).
    { clear -IH Hp. induction subs as [|s subs IHs]; [constructor|]. cbn in Hp. apply andb_prop in Hp as [H1 H2]. constructor; [by apply IH|by apply IHs]. }
    case_bool_decide as He; [split; [apply not_elem_of_nil|done]|]. clear Hp. split.
    + clear He. induction Hall as [|s subs [Hs _] _ IHs]; [apply not_elem_of_nil|]. cbn. by apply not_elem_of_app.
    + intros _ w. induction Hall as [|s subs [_ Hs] _ IHs]; [done|]. cbn in He. apply not_elem_of_cons in He as [He1 He2]. cbn. intros [Hw|Hw].
      * destruct (Hs ltac:(congruence) w Hw) as (p & ? & ?). exists p. split; [|done]. apply elem_of_app. by left.
      * destruct (IHs He2 Hw) as (p & ? & ?). exists p. split; [|done]. apply elem_of_app. by right.
  - apply andb_prop in Hp as [Hfirst Hrest]. cbn [literalPrefixes denotes].
    pose proof (IH first Hfirst) as Hc. pose proof (λ w H, isLiteral_denotes first w H Hfirst) as Hl. clear Hfirst. revert Hc Hl.
    generalize (literalPrefixes first) (denotes first) (isLiteral first). induction rest as [|next rest IHr]; intros head P lit Hc Hl.
    + replace (concatPrefixes lit head None) with head by (by destruct head as [|? []]). destruct Hc as [Hc1 Hc2]. split; [done|].
      intros Hne w (w1 & w2 & -> & Hw & ->). rewrite app_nil_r. by apply Hc2.
    + cbn in Hrest. apply andb_prop in Hrest as [Hn Hrest]. apply concat_covered; [done| |intros E w; by apply Hl].
      apply IHr; [done|by apply IH|]. intros w E. by apply isLiteral_denotes.
  - split; [apply not_elem_of_nil|done].
Qed.

(** ** Patterns *)

Section Patterns.
Context {Regexp : Type} (MustCompile : text → Regexp) (MatchString : Regexp → text → bool) (ParseSimplify : text → option Syntax).

Record PeerPolicyPattern := mkPattern {
  prefix : text; prefixes : list text; contains : text; re : option Regexp; exact : bool; suffix : bool }.

Definition escapable (c : Z) : bool := bool_decide (c ∈ bs "-_./").
Definition plainByte (exact : bool) (c : Z) : bool :=
  (97 <=? c) && (c <=? 122) || (65 <=? c) && (c <=? 90) || (48 <=? c) && (c <=? 57) || (c =? 47) || (c =? 45) || (c =? 95) || (c =? 46) && negb exact.

Fixpoint peerPolicyLiteral (exact : bool) (value : text) : option text :=
  match value with
  | [] => Some []
  | c :: v =>
      let plain := if plainByte exact c then cons c <$> peerPolicyLiteral exact v else None in
      if c =? 92 then match v with n :: v' => if escapable n then cons n <$> peerPolicyLiteral exact v' else plain | [] => plain end
      else plain
  end.

Definition TrimPrefix (p s : text) : text := if bool_decide (p `prefix_of` s) then drop (length p) s else s.
Definition CutSuffix (p s : text) : text * bool := if bool_decide (p `suffix_of` s) then (take (length s - length p) s, true) else (s, false).
Definition CutPrefix (p s : text) : text * bool := if bool_decide (p `prefix_of` s) then (drop (length p) s, true) else (s, false).

Definition compiledPattern (pattern : text) : PeerPolicyPattern :=
  mkPattern [] (match ParseSimplify pattern with Some t => filter (λ p, p ≠ []) (literalPrefixes t) | None => [] end) [] (Some (MustCompile (bs "^" ++ pattern))) false false.

Definition peerPolicyPattern (pattern : text) : PeerPolicyPattern :=
  let pattern := TrimPrefix (bs "^") pattern in
  if bool_decide (pattern = bs ".*") then mkPattern [] [] [] None false false
  else
    let '(value, exact) := CutSuffix (bs "$") pattern in
    match peerPolicyLiteral exact value with
    | Some literal => mkPattern literal [] [] None exact false
    | None =>
        let head := match CutSuffix (bs ".*") value with (head, true) => peerPolicyLiteral false head | _ => None end in
        match head with
        | Some literal => mkPattern literal [] [] None false false
        | None =>
            let tail := match CutPrefix (bs ".*") value with (tail, true) => peerPolicyLiteral exact tail | _ => None end in
            match tail with
            | Some ((_ :: _) as literal) => mkPattern [] [] literal None false exact
            | _ => compiledPattern pattern
            end
        end
    end.

Definition Contains (s sub : text) : bool := existsb (λ n, bool_decide (sub `prefix_of` drop n s)) (seq 0 (S (length s))).

Definition matches (p : PeerPolicyPattern) (dir : text) : bool :=
  if suffix p then bool_decide (contains p `suffix_of` dir)
  else if bool_decide (contains p ≠ []) then Contains dir (contains p)
  else bool_decide (prefix p `prefix_of` dir) && match re p with None => true | Some r => MatchString r dir end.

Record PeerPolicyRule := mkRule { from : PeerPolicyPattern; to : PeerPolicyPattern; allow : bool }.

(** ** Filing patterns *)

Record sideBuilder := mkBuilder {
  keys : list text; index : gmap text nat; b_prefix : list (list nat); b_exact : list (list nat); b_loose : list nat; b_any : list nat }.
Definition newBuilder : sideBuilder := mkBuilder [] ∅ [] [] [] [].

Definition key (b : sideBuilder) (p : text) : sideBuilder * nat :=
  match index b !! p with
  | Some i => (b, i)
  | None =>
      let i := length (keys b) in
      (mkBuilder (keys b ++ [p]) (<[p := i]> (index b)) (b_prefix b ++ [[]]) (b_exact b ++ [[]]) (b_loose b) (b_any b), i)
  end.

(** [b.prefix[k] = append(b.prefix[k], index)], and the same for [exact]. *)
Definition filePrefix (n : nat) (b : sideBuilder) (p : text) : option sideBuilder :=
  let '(b, k) := key b p in
  l ← b_prefix b !! k;
  Some (mkBuilder (keys b) (index b) (<[k := l ++ [n]]> (b_prefix b)) (b_exact b) (b_loose b) (b_any b)).
Definition fileExact (n : nat) (b : sideBuilder) (p : text) : option sideBuilder :=
  let '(b, k) := key b p in
  l ← b_exact b !! k;
  Some (mkBuilder (keys b) (index b) (b_prefix b) (<[k := l ++ [n]]> (b_exact b)) (b_loose b) (b_any b)).
Definition fileLoose (n : nat) (b : sideBuilder) : sideBuilder := mkBuilder (keys b) (index b) (b_prefix b) (b_exact b) (b_loose b ++ [n]) (b_any b).
Definition fileAny (n : nat) (b : sideBuilder) : sideBuilder := mkBuilder (keys b) (index b) (b_prefix b) (b_exact b) (b_loose b) (b_any b ++ [n]).

Fixpoint filePrefixes (n : nat) (b : sideBuilder) (ps : list text) : option sideBuilder :=
  match ps with [] => Some b | p :: ps => b ← filePrefix n b p; filePrefixes n b ps end.

Definition place (b : sideBuilder) (n : nat) (p : PeerPolicyPattern) : option sideBuilder :=
  if bool_decide (contains p ≠ []) then Some (fileLoose n b)
  else if exact p then fileExact n b (prefix p)
  else
    match re p, prefixes p with
    | Some _, _ :: _ => filePrefixes n b (prefixes p)
    | r, _ =>
        if bool_decide (prefix p = []) then match r with None => Some (fileAny n b) | Some _ => Some (fileLoose n b) end
        else filePrefix n b (prefix p)
    end.

(** ** The index of one side *)

Record peerPolicySide := mkSide {
  darts : Darts; s_prefix : list (list nat); s_exact : list (list nat); s_loose : list nat; s_any : list nat;
  anySet : BitSet.BitSet; memo : vec Z; store : list nat }.

Fixpoint addAll (s : BitSet.BitSet) (l : list nat) : option BitSet.BitSet :=
  match l with [] => Some s | n :: l => s ← BitSet.add s (u32 (Z.of_nat n)); addAll s l end.

Definition side (b : sideBuilder) : option peerPolicySide :=
  d ← newDarts (keys b);
  s ← addAll go_zero (b_any b);
  Some (mkSide d (b_prefix b) (b_exact b) (b_loose b) (b_any b) s go_zero []).

Record PeerPolicies := mkPolicies { rules : list PeerPolicyRule; p_from : peerPolicySide; p_to : peerPolicySide }.

Fixpoint placeRules (n : nat) (fb tb : sideBuilder) (rs : list PeerPolicyRule) : option (sideBuilder * sideBuilder) :=
  match rs with
  | [] => Some (fb, tb)
  | r :: rs => fb ← place fb n (from r); tb ← place tb n (to r); placeRules (S n) fb tb rs
  end.

(** The end of [peerPolicies], for the rules read. *)
Definition newPolicies (rs : list PeerPolicyRule) : option PeerPolicies :=
  '(fb, tb) ← placeRules 0 newBuilder newBuilder rs;
  f ← side fb; t ← side tb; Some (mkPolicies rs f t).

(** ** Rows of directories *)

Record DirRows := mkRows { idx : DenseIndex.DenseIndex; count : Z }.
#[export] Instance DirRows_go_zero : GoZero DirRows := mkRows go_zero 0.

Definition rowOf (d : DirRows) (dir : Z) : option Z := DenseIndex.get (idx d) dir.
Definition rowFor (d : DirRows) (dir : Z) : option (DirRows * Z) :=
  row ← DenseIndex.get (idx d) dir;
  if negb (row =? 0) then Some (d, row)
  else
    let c := u32 (count d + 1) in
    i ← DenseIndex.put (idx d) dir c; Some (mkRows i c, c).

(** ** Queries *)

Context (string_ : Z → text).

Definition selfMatches (self : PeerPolicyRule → PeerPolicyPattern) (rs : list PeerPolicyRule) (path : text) (n : nat) : option bool :=
  r ← rs !! n; Some (matches (self r) path).
Definition selfRe (self : PeerPolicyRule → PeerPolicyPattern) (rs : list PeerPolicyRule) (path : text) (n : nat) : option bool :=
  r ← rs !! n; Some (match re (self r) with None => true | Some e => MatchString e path end).

Fixpoint keepIf (f : nat → option bool) (l : list nat) : option (list nat) :=
  match l with [] => Some [] | n :: l => b ← f n; rest ← keepIf f l; Some (if (b : bool) then n :: rest else rest) end.

(** The visits of the trie's walk. *)
Fixpoint visits (sd : peerPolicySide) (f : nat → option bool) (calls : list (Z * bool)) : option (list nat) :=
  match calls with
  | [] => Some []
  | (k, whole) :: calls =>
      l ← zget (s_prefix sd) k;
      kept ← keepIf f l;
      ex ← (if (whole : bool) then zget (s_exact sd) k else Some []);
      rest ← visits sd f calls;
      Some (kept ++ ex ++ rest)
  end.

Fixpoint Compact (l : list nat) : list nat :=
  match l with
  | x :: (y :: _) as l' => if decide (x = y) then Compact l' else x :: Compact l'
  | _ => l
  end.

Definition matchingSlow (rows : DirRows) (sd : peerPolicySide) (rs : list PeerPolicyRule) (dir : Z) (self : PeerPolicyRule → PeerPolicyPattern)
    : option (DirRows * peerPolicySide * list nat) :=
  '(rows, row) ← rowFor rows dir;
  let path := string_ dir in
  calls ← walkKeys (darts sd) path;
  found ← visits sd (selfRe self rs path) calls;
  loose ← keepIf (selfMatches self rs path) (s_loose sd);
  let ms := Compact (merge_sort Nat.le (found ++ loose)) in
  let off := Z.of_nat (length (store sd)) in
  let cells := ensureLen (memo sd) (Z.to_nat row + 1) in
  cells ← vset cells row (Z.lor (u64 (Z.shiftl off 32)) (u64 (Z.of_nat (length ms) + 1)));
  Some (rows, mkSide (darts sd) (s_prefix sd) (s_exact sd) (s_loose sd) (s_any sd) (anySet sd) cells (store sd ++ ms), ms).

(** [side.store[off : off+n]] with 32-bit bounds. *)
Definition stored (sd : peerPolicySide) (m : Z) : option (list nat) :=
  let off := u32 (Z.shiftr m 32) in
  let n := u32 (u32 m - 1) in
  let stop := u32 (off + n) in
  if bool_decide (off <= stop <= Z.of_nat (length (store sd))) then Some (take (Z.to_nat (stop - off)) (drop (Z.to_nat off) (store sd))) else None.

Definition matching (rows : DirRows) (sd : peerPolicySide) (rs : list PeerPolicyRule) (dir : Z) (self : PeerPolicyRule → PeerPolicyPattern)
    : option (DirRows * peerPolicySide * list nat) :=
  row ← rowOf rows dir;
  m ← (if row <? Z.of_nat (vlen (memo sd)) then vget (memo sd) row else Some 0);
  if negb (m =? 0) then l ← stored sd m; Some (rows, sd, l) else matchingSlow rows sd rs dir self.

(** [slices.BinarySearch]: the half-open interval [i, j) and the fuel of the loop. *)
Fixpoint searchLoop (fuel : nat) (l : list nat) (x : nat) (i j : nat) : option nat :=
  if decide (i < j)%nat then
    match fuel with
    | O => None
    | S fuel => let h := ((i + j) / 2)%nat in y ← l !! h; if decide (y < x)%nat then searchLoop fuel l x (S h) j else searchLoop fuel l x i h
    end
  else Some i.
Definition BinarySearch (l : list nat) (x : nat) : option bool :=
  i ← searchLoop (length l) l x 0 (length l); Some (bool_decide (l !! i = Some x)).

(** The loop of [allows] ends because each turn takes a rule from one of the lists. *)
Fixpoint allowsLoop (fuel : nat) (rs : list PeerPolicyRule) (fromAny : BitSet.BitSet) (froms tos anyTo : list nat) : option bool :=
  match fuel with
  | O => None
  | S fuel =>
      let turn n tos anyTo :=
        any ← BitSet.has fromAny (u32 (Z.of_nat n));
        if (any : bool) then r ← rs !! n; Some (allow r)
        else ok ← BinarySearch froms n; if (ok : bool) then r ← rs !! n; Some (allow r) else allowsLoop fuel rs fromAny froms tos anyTo in
      match tos, anyTo with
      | [], [] => Some true
      | t :: tos', [] => turn t tos' []
      | [], a :: any' => turn a [] any'
      | t :: tos', a :: any' => if decide (t < a)%nat then turn t tos' anyTo else turn a tos any'
      end
  end.

Definition allows (rows : DirRows) (p : PeerPolicies) (fromDir toDir : Z) : option (DirRows * PeerPolicies * bool) :=
  '(rows, f, froms) ← matching rows (p_from p) (rules p) fromDir from;
  '(rows, t, tos) ← matching rows (p_to p) (rules p) toDir to;
  ok ← allowsLoop (S (length tos + length (s_any t))) (rules p) (anySet f) froms tos (s_any t);
  Some (rows, mkPolicies (rules p) f t, ok).

(** ** Reading rules *)

(** A line gives the two patterns and whether they allow.  Only the start of the line is left of
    [TrimSpace]: a line without words is empty, and [#] begins the first word. *)
Definition ruleOf (line : text) : res (option (text * text * bool)) :=
  match Fields line with
  | [] => Ok None
  | (35 :: _) :: _ => Ok None
  | fields =>
      let '(policy, fields) := match fields with [p; a; b; c] => (p, [a; b; c]) | _ => (bs "DENY", fields) end in
      match fields with
      | [f; arrow; t] =>
          if bool_decide (arrow = bs "->") && (bool_decide (policy = bs "ALLOW") || bool_decide (policy = bs "DENY") || bool_decide (policy = bs "DEFAULT"))
          then Ok (Some (f, t, bool_decide (policy = bs "ALLOW"))) else Throw
      | _ => Throw
      end
  end.

(** [strings.Split(data, newline)] *)
Fixpoint splitLines (data : text) : list text :=
  match data with
  | [] => [[]]
  | c :: data => if c =? 10 then [] :: splitLines data else match splitLines data with l :: ls => (c :: l) :: ls | [] => [[c]] end
  end.

Fixpoint readRules (lines : list text) : res (list (text * text * bool)) :=
  match lines with
  | [] => Ok []
  | l :: ls => r ← ruleOf l; rs ← readRules ls; Ok (option_list r ++ rs)
  end.

Definition compileRule (r : text * text * bool) : PeerPolicyRule := let '(f, t, a) := r in mkRule (peerPolicyPattern f) (peerPolicyPattern t) a.

(** The files of a policy, by content.  The code compiles equal patterns once. *)
Definition peerPolicies (files : list text) : res PeerPolicies :=
  rs ← readRules (mjoin (splitLines <$> files)); lift (newPolicies (compileRule <$> rs)).

(** ** What a pattern means *)

Definition holds (p : PeerPolicyPattern) (dir : text) : bool :=
  if bool_decide (contains p ≠ []) then if suffix p then bool_decide (contains p `suffix_of` dir) else Contains dir (contains p)
  else if exact p then bool_decide (dir = prefix p)
  else match re p with Some r => MatchString r dir | None => bool_decide (prefix p `prefix_of` dir) end.

(** The first rule that matches both directories decides. *)
Definition verdict (rs : list PeerPolicyRule) (fromDir toDir : text) : bool :=
  match List.find (λ r, holds (from r) fromDir && holds (to r) toDir) rs with Some r => allow r | None => true end.

Record goodPattern (p : PeerPolicyPattern) : Prop := {
  g_suffix : suffix p = true → contains p ≠ [];
  g_re : ∀ r, re p = Some r → prefix p = [] ∧ [] ∉ prefixes p ∧
    (prefixes p ≠ [] → ∀ d, MatchString r d = true → ∃ q, q ∈ prefixes p ∧ q `prefix_of` d);
  g_bytes : byteText (prefix p) ∧ Forall byteText (prefixes p) }.

(** A compiled expression matches only where its tree says, from the start of the text. *)
Definition anchored (pattern : text) : Prop := ∀ t, ParseSimplify pattern = Some t →
  plainTree t = true ∧ Forall byteText (literalPrefixes t) ∧
  ∀ d, MatchString (MustCompile (bs "^" ++ pattern)) d = true → ∃ w, w `prefix_of` d ∧ denotes t w.

Lemma compiled_good pattern : anchored pattern → goodPattern (compiledPattern pattern).
Proof.
  intros Ha. unfold compiledPattern. split; cbn; [done| |].
  - intros r [= <-]. destruct (ParseSimplify pattern) as [t|] eqn:Et; [|split_and!; [done|apply not_elem_of_nil|done]]. destruct (Ha t Et) as (Hp & _ & Hd).
    destruct (literalPrefixes_covered t Hp) as [Hn Hc]. split_and!; [done|by intros [? _]%list_elem_of_filter|].
    intros Hne d (w & Hw & Hdn)%Hd. destruct (Hc ltac:(by intros E; rewrite E in Hne) w Hdn) as (q & Hq & Hpre). exists q. split; [|by etrans].
    apply list_elem_of_filter. split; [|done]. by intros ->.
  - split; [constructor|]. destruct (ParseSimplify pattern) as [t|] eqn:Et; [|constructor]. destruct (Ha t Et) as (_ & Hb & _).
    apply Forall_forall. intros q [_ Hq]%list_elem_of_filter. rewrite Forall_forall in Hb. by apply Hb.
Qed.

Lemma literal_bytes ex v l : byteText v → peerPolicyLiteral ex v = Some l → byteText l.
Proof.
  intros Hv. revert l. induction v as [v IH] using (induction_ltof1 _ (@length Z)). unfold ltof in IH. destruct v as [|c v]; cbn [peerPolicyLiteral]; intros l; [by intros [= <-]|].
  apply Forall_cons in Hv as [Hc Hv]. assert (Hpl : (if plainByte ex c then cons c <$> peerPolicyLiteral ex v else None) = Some l → byteText l).
  { destruct (plainByte ex c); [|done]. intros (l' & E & ->)%fmap_Some. constructor; [done|]. apply (IH v); [cbn; lia|done..]. }
  destruct (c =? 92); [|done]. destruct v as [|n v]; [done|]. destruct (escapable n); [|done]. apply Forall_cons in Hv as [Hn Hv].
  intros (l' & E & ->)%fmap_Some. constructor; [done|]. apply (IH v); [cbn; lia|done..].
Qed.

Lemma byteText_take n s : byteText s → byteText (take n s).
Proof. apply Forall_take. Qed.
Lemma byteText_drop n s : byteText s → byteText (drop n s).
Proof. apply Forall_drop. Qed.

(** A pattern without a regular expression is good when its prefix is made of bytes. *)
Lemma simple_good q ex c suf : byteText q → (suf = true → c ≠ []) → goodPattern (mkPattern q [] c None ex suf).
Proof. intros Hq Hs. by split. Qed.

Lemma pattern_good pattern : byteText pattern → anchored (TrimPrefix (bs "^") pattern) → goodPattern (peerPolicyPattern pattern).
Proof.
  intros Hb Ha. unfold peerPolicyPattern. set (pat := TrimPrefix (bs "^") pattern) in *.
  assert (Hpat : byteText pat). { unfold pat, TrimPrefix. case_bool_decide; [by apply byteText_drop|done]. }
  case_bool_decide; [apply simple_good; [constructor|done]|]. destruct (CutSuffix (bs "$") pat) as [value ex] eqn:Ev.
  assert (Hval : byteText value). { unfold CutSuffix in Ev. case_bool_decide; simplify_eq; [by apply byteText_take|done]. }
  destruct (peerPolicyLiteral ex value) as [l|] eqn:El; [apply simple_good; [by eapply literal_bytes|done]|].
  set (h := match CutSuffix (bs ".*") value with (head, true) => _ | _ => _ end). destruct h as [l|] eqn:Eh.
  { apply simple_good; [|done]. unfold h, CutSuffix in Eh. case_bool_decide; [|done]. eapply literal_bytes; [|done]. by apply byteText_take. }
  set (t := match CutPrefix (bs ".*") value with (tail, true) => _ | _ => _ end). destruct t as [[|]|]; try by apply compiled_good.
  apply simple_good; [constructor|done].
Qed.

(** ** The builder *)

(** Where a pattern is filed. *)
Inductive filing := FLoose | FExact (q : text) | FPrefixes (qs : list text) | FAny.
#[local] Instance filing_eq_dec : EqDecision filing.
Proof. solve_decision. Defined.

Definition filingOf (p : PeerPolicyPattern) : filing :=
  if bool_decide (contains p ≠ []) then FLoose
  else if exact p then FExact (prefix p)
  else match re p, prefixes p with
       | Some _, _ :: _ => FPrefixes (prefixes p)
       | r, _ => if bool_decide (prefix p = []) then match r with None => FAny | Some _ => FLoose end else FPrefixes [prefix p]
       end.

Definition fileUnder (b : sideBuilder) (n : nat) (f : filing) : option sideBuilder :=
  match f with FLoose => Some (fileLoose n b) | FExact q => fileExact n b q | FPrefixes qs => filePrefixes n b qs | FAny => Some (fileAny n b) end.

Lemma place_filing b n p : place b n p = fileUnder b n (filingOf p).
Proof.
  unfold place, filingOf. destruct (bool_decide (contains p ≠ [])); [done|]. destruct (exact p); [done|].
  destruct (re p), (prefixes p); try destruct (bool_decide (prefix p = [])); try done; cbn; by destruct (filePrefix n b (prefix p)).
Qed.

(** The rules filed under a prefix, and under a whole text. *)
Definition under (ix : gmap text nat) (rows : list (list nat)) (q : text) : list nat := match ix !! q with Some k => default [] (rows !! k) | None => [] end.
Abbreviation prefAt b q := (under (index b) (b_prefix b) q).
Abbreviation exactAt b q := (under (index b) (b_exact b) q).

Record wfBuilder (b : sideBuilder) : Prop := {
  w_index : ∀ q k, index b !! q = Some k ↔ keys b !! k = Some q;
  w_prefix : length (b_prefix b) = length (keys b);
  w_exact : length (b_exact b) = length (keys b) }.

Lemma under_app b k rows q : wfBuilder b → index b !! k = None → length rows = length (keys b) →
  under (<[k := length (keys b)]> (index b)) (rows ++ [[]]) q = under (index b) rows q.
Proof.
  intros [Hi _ _] Hk Hl. unfold under. destruct (decide (q = k)) as [->|Hne].
  - rewrite lookup_insert_eq, Hk, list_lookup_middle by done. done.
  - rewrite lookup_insert_ne by congruence. destruct (index b !! q) as [i|] eqn:E; [|done]. apply Hi, lookup_lt_Some in E. by rewrite lookup_app_l by lia.
Qed.

Lemma key_spec b q : wfBuilder b → let '(b', k) := key b q in
  wfBuilder b' ∧ index b' !! q = Some k ∧ (k < length (keys b'))%nat ∧ (∀ q', prefAt b' q' = prefAt b q') ∧ (∀ q', exactAt b' q' = exactAt b q') ∧
  b_loose b' = b_loose b ∧ b_any b' = b_any b ∧ (∀ q', q' ∈ keys b' ↔ q' ∈ keys b ∨ q' = q).
Proof.
  intros Hw. unfold key. destruct (index b !! q) as [i|] eqn:E.
  - assert (Hk : keys b !! i = Some q) by (by apply Hw). split_and!; try done; [by eapply lookup_lt_Some|]. intros q'. split; [by left|]. intros [?| ->]; [done|]. by eapply list_elem_of_lookup_2.
  - pose proof Hw as [Hi Hp He]. split_and!; cbn; try done.
    + split; cbn; [|rewrite !length_app; cbn; lia..]. intros q' k. destruct (decide (q' = q)) as [->|Hne].
      * rewrite lookup_insert_eq. split; [intros [= <-]; by rewrite list_lookup_middle|]. intros Hk. f_equal. apply lookup_snoc_Some in Hk as [[? Hk]|[-> _]]; [|done].
        apply Hi in Hk. congruence.
      * rewrite lookup_insert_ne by congruence. rewrite Hi, lookup_snoc_Some. split; [intros Hk; left; split; [by eapply lookup_lt_Some|done]|]. intros [[_ ?]|[_ ?]]; congruence.
    + by rewrite lookup_insert_eq.
    + rewrite length_app. cbn. lia.
    + intros q'. by apply under_app.
    + intros q'. by apply under_app.
    + intros q'. rewrite elem_of_app, list_elem_of_singleton. done.
Qed.

(** A row with one more rule. *)
Lemma under_insert b rows k q n l : wfBuilder b → index b !! q = Some k → rows !! k = Some l →
  ∀ q', under (index b) (<[k := l ++ [n]]> rows) q' = under (index b) rows q' ++ (if decide (q' = q) then [n] else []).
Proof.
  intros [Hi _ _] Hk Hl q'. unfold under. destruct (index b !! q') as [k'|] eqn:E.
  - case_decide as Hq.
    + subst q'. assert (k' = k) as -> by congruence. rewrite list_lookup_insert_eq by (by eapply lookup_lt_Some). by rewrite Hl.
    + rewrite list_lookup_insert_ne, app_nil_r; [done|]. intros ->. apply Hi in E, Hk. congruence.
  - case_decide; [congruence|done].
Qed.

Lemma filePrefix_spec n b q : wfBuilder b → ∃ b', filePrefix n b q = Some b' ∧ wfBuilder b' ∧
  (∀ q', prefAt b' q' = prefAt b q' ++ (if decide (q' = q) then [n] else [])) ∧ (∀ q', exactAt b' q' = exactAt b q') ∧
  b_loose b' = b_loose b ∧ b_any b' = b_any b ∧ (∀ q', q' ∈ keys b' ↔ q' ∈ keys b ∨ q' = q).
Proof.
  intros Hw. unfold filePrefix. pose proof (key_spec b q Hw) as H. destruct (key b q) as [b1 k]. destruct H as ([H1 H2 H3] & Hk & Hlt & Hp & He & Hl & Ha & Hin).
  destruct (lookup_lt_is_Some_2 (b_prefix b1) k) as [l El]; [lia|]. rewrite El. cbn. eexists. split; [done|]. split_and!; try done.
  - split; [done|cbn; by rewrite length_insert|done].
  - intros q'. rewrite <-Hp. by apply (under_insert b1).
Qed.

Lemma fileExact_spec n b q : wfBuilder b → ∃ b', fileExact n b q = Some b' ∧ wfBuilder b' ∧
  (∀ q', exactAt b' q' = exactAt b q' ++ (if decide (q' = q) then [n] else [])) ∧ (∀ q', prefAt b' q' = prefAt b q') ∧
  b_loose b' = b_loose b ∧ b_any b' = b_any b ∧ (∀ q', q' ∈ keys b' ↔ q' ∈ keys b ∨ q' = q).
Proof.
  intros Hw. unfold fileExact. pose proof (key_spec b q Hw) as H. destruct (key b q) as [b1 k]. destruct H as ([H1 H2 H3] & Hk & Hlt & Hp & He & Hl & Ha & Hin).
  destruct (lookup_lt_is_Some_2 (b_exact b1) k) as [l El]; [lia|]. rewrite El. cbn. eexists. split; [done|]. split_and!; try done.
  - split; [done|done|cbn; by rewrite length_insert].
  - intros q'. rewrite <-He. by apply (under_insert b1).
Qed.

Lemma filePrefixes_spec n qs b : wfBuilder b → ∃ b', filePrefixes n b qs = Some b' ∧ wfBuilder b' ∧
  (∀ q' m, m ∈ prefAt b' q' ↔ m ∈ prefAt b q' ∨ m = n ∧ q' ∈ qs) ∧ (∀ q', exactAt b' q' = exactAt b q') ∧
  b_loose b' = b_loose b ∧ b_any b' = b_any b ∧ (∀ q', q' ∈ keys b' ↔ q' ∈ keys b ∨ q' ∈ qs).
Proof.
  revert b. induction qs as [|q qs IH]; intros b Hw; cbn [filePrefixes].
  { exists b. split_and!; try done; intros; rewrite elem_of_nil; naive_solver. }
  destruct (filePrefix_spec n b q Hw) as (b1 & -> & Hw1 & Hp1 & He1 & Hl1 & Ha1 & Hk1). cbn [mbind option_bind].
  destruct (IH b1 Hw1) as (b2 & -> & Hw2 & Hp2 & He2 & Hl2 & Ha2 & Hk2). exists b2. split_and!; try done; try congruence.
  - intros q' m. rewrite Hp2, Hp1, elem_of_app, elem_of_cons. case_decide; rewrite ?list_elem_of_singleton, ?elem_of_nil; naive_solver.
  - intros q'. rewrite Hk2, Hk1, elem_of_cons. naive_solver.
Qed.

(** Positions of a list that satisfy a test, in order. *)
Definition positions {A} (f : A → bool) (l : list A) : list nat := filter (λ n, (f <$> l !! n) = Some true) (seq 0 (length l)).

Lemma filter_ext_in {A} (P Q : A → Prop) `{∀ x, Decision (P x), ∀ x, Decision (Q x)} (l : list A) : (∀ x, x ∈ l → P x ↔ Q x) → filter P l = filter Q l.
Proof.
  induction l as [|x l IH]; intros Hx; [done|]. rewrite !filter_cons. rewrite IH by (intros y Hy; apply Hx; by right). pose proof (Hx x ltac:(by left)).
  destruct (decide (P x)), (decide (Q x)); tauto || done.
Qed.

Lemma positions_elem {A} (f : A → bool) l n : n ∈ positions f l ↔ ∃ x, l !! n = Some x ∧ f x = true.
Proof.
  unfold positions. rewrite list_elem_of_filter, fmap_Some, elem_of_seq. split; [naive_solver|]. intros (x & Hx & Hf). pose proof (lookup_lt_Some _ _ _ Hx).
  split; [by exists x|lia].
Qed.

Lemma positions_snoc {A} (f : A → bool) l x : positions f (l ++ [x]) = positions f l ++ (if f x then [length l] else []).
Proof.
  unfold positions. rewrite length_app, Nat.add_1_r, seq_S, filter_app. cbn [Nat.add]. f_equal.
  - apply filter_ext_in. intros n Hn%elem_of_seq. by rewrite lookup_app_l by lia.
  - rewrite filter_cons, filter_nil, list_lookup_middle by done. cbn. by case_decide as E; destruct (f x); simplify_eq.
Qed.

Definition isAny (f : filing) : bool := bool_decide (f = FAny).

Record filed (b : sideBuilder) (fs : list filing) : Prop := {
  f_wf : wfBuilder b;
  f_pref : ∀ q n, n ∈ prefAt b q ↔ ∃ qs, fs !! n = Some (FPrefixes qs) ∧ q ∈ qs;
  f_exact : ∀ q n, n ∈ exactAt b q ↔ fs !! n = Some (FExact q);
  f_loose : ∀ n, n ∈ b_loose b ↔ fs !! n = Some FLoose;
  f_any : b_any b = positions isAny fs;
  f_keys : ∀ q, q ∈ keys b → ∃ f, f ∈ fs ∧ (f = FExact q ∨ ∃ qs, f = FPrefixes qs ∧ q ∈ qs) }.

Lemma filed_empty : filed newBuilder [].
Proof.
  split; [split; [|done|done]| | | |done|by intros q Hq%elem_of_nil]; intros; unfold under; cbn; rewrite ?lookup_empty, ?lookup_nil, ?elem_of_nil; naive_solver.
Qed.

(** Membership after one more filing. *)
Lemma snoc_lookup {A} (l : list A) x y n : (l ++ [x]) !! n = Some y ↔ l !! n = Some y ∨ n = length l ∧ x = y.
Proof. rewrite lookup_snoc_Some. split; [naive_solver|]. intros [H|[-> ->]]; [left; split; [by eapply lookup_lt_Some|done]|by right]. Qed.

Lemma filed_snoc b fs f : filed b fs → ∃ b', fileUnder b (length fs) f = Some b' ∧ filed b' (fs ++ [f]).
Proof.
  intros [Hw Hp He Hl Ha Hk].
  assert (Hkeys : ∀ q, q ∈ keys b → ∃ f', f' ∈ fs ++ [f] ∧ (f' = FExact q ∨ ∃ qs, f' = FPrefixes qs ∧ q ∈ qs)).
  { intros q (f' & ? & ?)%Hk. exists f'. split; [apply elem_of_app; by left|done]. }
  destruct f as [|q|qs|]; cbn [fileUnder].
  - eexists. split; [done|]. split; cbn; try done; intros; rewrite ?snoc_lookup.
    + destruct Hw; by split.
    + setoid_rewrite snoc_lookup. rewrite Hp. naive_solver.
    + rewrite He. naive_solver.
    + rewrite elem_of_app, list_elem_of_singleton, Hl. naive_solver.
    + rewrite positions_snoc, app_nil_r. done.
  - destruct (fileExact_spec (length fs) b q Hw) as (b' & -> & Hw' & He' & Hp' & Hl' & Ha' & Hk'). exists b'. split; [done|]. split; try done; intros.
    + rewrite Hp'. setoid_rewrite snoc_lookup. rewrite Hp. naive_solver.
    + rewrite He', elem_of_app, He, snoc_lookup. case_decide; rewrite ?list_elem_of_singleton, ?elem_of_nil; naive_solver.
    + rewrite Hl', Hl, snoc_lookup. naive_solver.
    + rewrite Ha', positions_snoc, app_nil_r. done.
    + rewrite Hk' in H. destruct H as [?| ->]; [by apply Hkeys|]. exists (FExact q). split; [apply elem_of_app; right; by left|by left].
  - destruct (filePrefixes_spec (length fs) qs b Hw) as (b' & -> & Hw' & Hp' & He' & Hl' & Ha' & Hk'). exists b'. split; [done|]. split; try done; intros.
    + rewrite Hp', Hp. setoid_rewrite snoc_lookup. naive_solver.
    + rewrite He', He, snoc_lookup. naive_solver.
    + rewrite Hl', Hl, snoc_lookup. naive_solver.
    + rewrite Ha', positions_snoc, app_nil_r. done.
    + rewrite Hk' in H. destruct H as [?|?]; [by apply Hkeys|]. exists (FPrefixes qs). split; [apply elem_of_app; right; by left|right; eauto].
  - eexists. split; [done|]. split; cbn; try done; intros; rewrite ?snoc_lookup.
    + destruct Hw; by split.
    + setoid_rewrite snoc_lookup. rewrite Hp. naive_solver.
    + rewrite He. naive_solver.
    + rewrite Hl. naive_solver.
    + rewrite positions_snoc. by rewrite Ha.
Qed.

Lemma placeRules_filed rs fb tb done : filed fb (filingOf ∘ from <$> done) → filed tb (filingOf ∘ to <$> done) →
  ∃ fb' tb', placeRules (length done) fb tb rs = Some (fb', tb') ∧ filed fb' (filingOf ∘ from <$> done ++ rs) ∧ filed tb' (filingOf ∘ to <$> done ++ rs).
Proof.
  revert fb tb done. induction rs as [|r rs IH]; intros fb tb done Hf Ht; cbn [placeRules]; [rewrite app_nil_r; eauto|].
  destruct (filed_snoc fb _ (filingOf (from r)) Hf) as (fb1 & E1 & Hf1). destruct (filed_snoc tb _ (filingOf (to r)) Ht) as (tb1 & E2 & Ht1).
  rewrite length_fmap in E1, E2. rewrite !place_filing, E1. cbn [mbind option_bind]. rewrite E2. cbn [mbind option_bind].
  destruct (IH fb1 tb1 (done ++ [r])) as (fb' & tb' & E & Hf' & Ht'); [by rewrite fmap_app..|].
  rewrite length_app, Nat.add_1_r in E. exists fb', tb'. rewrite <-app_assoc in Hf', Ht'. done.
Qed.

(** ** One side *)

Lemma addAll_spec l s : BitSet.wf s → Forall (λ n, Z.of_nat n < 2 ^ 32) l →
  ∃ s', addAll s l = Some s' ∧ BitSet.wf s' ∧ ∀ n, Z.of_nat n < 2 ^ 32 → BitSet.member s' (Z.of_nat n) = bool_decide (n ∈ l) || BitSet.member s (Z.of_nat n).
Proof.
  revert s. induction l as [|m l IH]; intros s Hs Hl; cbn [addAll].
  { exists s. split_and!; [done..|]. intros n _. by rewrite bool_decide_false by apply not_elem_of_nil. }
  apply Forall_cons in Hl as [Hm Hl]. rewrite u32_id by lia. destruct (BitSet.bitset_add_spec s (Z.of_nat m) Hs ltac:(lia)) as (s1 & -> & Hs1 & H1). cbn [mbind option_bind].
  destruct (IH s1 Hs1 Hl) as (s2 & -> & Hs2 & H2). exists s2. split_and!; [done..|]. intros n Hn. rewrite H2, H1 by lia. rewrite orb_assoc. f_equal.
  destruct (decide (n = m)) as [->|Hne].
  - rewrite !(bool_decide_true (Z.of_nat m = _)), (bool_decide_true (m ∈ m :: l)) by (done || by left). apply orb_true_r.
  - rewrite (bool_decide_false (Z.of_nat m = _)), orb_false_r by lia. apply bool_decide_ext. rewrite elem_of_cons. naive_solver.
Qed.

Lemma newDarts_walk ks : Forall byteText ks → ∃ d, newDarts ks = Some d ∧ ∀ s, byteText s → walkKeys d s = Some (prefixKeys ks [] s).
Proof.
  intros Hk. destruct (newDarts_ok ks Hk) as (d & nodes & edges & P & σ & Hd & Ht & Hkeys & Hin & L & _). exists d. split; [done|]. intros s Hs.
  apply (walk_loop_ok ks nodes edges P Ht Hkeys Hin d σ L s 0%nat 0 []); [|apply L|apply Ht]. eapply Forall_impl; [exact Hs|]. cbn. lia.
Qed.

Lemma number_nodup ks p k : NoDup ks → ks !! k = Some p → number ks p = Z.of_nat k + 1.
Proof.
  intros Hnd Hk. unfold number. destruct (keyNumber_spec 0 ks p ltac:(lia)) as [[_ Hn]|(j & -> & Hj & _)]; [by apply list_elem_of_lookup_2 in Hk|].
  rewrite (NoDup_lookup _ _ _ _ Hnd Hj Hk). lia.
Qed.

Lemma prefixKeys_elem ks p s i w : NoDup ks → (i, w) ∈ prefixKeys ks p s ↔ ∃ q k, q ≠ [] ∧ q `prefix_of` s ∧ i = Z.of_nat k ∧ ks !! k = Some (p ++ q) ∧ w = bool_decide (q = s).
Proof.
  intros Hnd. revert p. induction s as [|b s IH]; intros p; cbn [prefixKeys].
  { rewrite elem_of_nil. split; [done|]. intros (q & k & Hne & Hq & _). by apply prefix_nil_inv in Hq. }
  assert (Hmore : (i, w) ∈ prefixKeys ks (p ++ [b]) s ↔ ∃ q k, (∃ q', q = b :: q' ∧ q' ≠ []) ∧ q `prefix_of` b :: s ∧ i = Z.of_nat k ∧ ks !! k = Some (p ++ q) ∧ w = bool_decide (q = b :: s)).
  { rewrite IH. split.
    - intros (q & k & Hne & Hp & -> & Hk & ->). exists (b :: q), k. rewrite <-app_assoc in Hk. split_and!; [eauto|by apply prefix_cons|done|done|]. apply bool_decide_ext. naive_solver.
    - intros (q & k & (q' & -> & Hne) & Hp & -> & Hk & ->). exists q', k. rewrite <-app_assoc. apply prefix_cons_inv_2 in Hp. split_and!; try done. apply bool_decide_ext. naive_solver. }
  assert (Hone : number ks (p ++ [b]) ≠ 0 → ∃ k, number ks (p ++ [b]) = Z.of_nat k + 1 ∧ ks !! k = Some (p ++ [b])).
  { intros Hn. unfold number in *. destruct (keyNumber_spec 0 ks (p ++ [b]) ltac:(lia)) as [[? _]|(j & Hj & Hk & _)]; [done|]. exists j. split; [lia|done]. }
  destruct (Z.eqb_spec (number ks (p ++ [b])) 0) as [Ez|Ez].
  - rewrite Hmore. split; [intros (q & k & (q' & -> & _) & ?); by exists (b :: q'), k|]. intros (q & k & Hne & Hp & Hi & Hk & Hw).
    destruct q as [|b' q]; [done|]. pose proof (prefix_cons_inv_1 _ _ _ _ Hp) as ->. exists (b :: q), k. split_and!; try done. exists q. split; [done|]. intros ->.
    rewrite (number_nodup ks _ k Hnd Hk) in Ez. lia.
  - destruct (Hone Ez) as (k0 & Hk0 & Hl0). rewrite elem_of_cons, Hmore, Hk0. split.
    + intros [[= -> ->]|(q & k & (q' & -> & _) & ?)]; [|by exists (b :: q'), k]. exists [b], k0. split_and!; [done|by apply prefix_cons, prefix_nil|lia|done|]. apply bool_decide_ext. naive_solver.
    + intros (q & k & Hne & Hp & -> & Hk & ->). destruct q as [|b' q]; [done|]. pose proof (prefix_cons_inv_1 _ _ _ _ Hp) as ->. destruct q as [|c q].
      * left. rewrite (number_nodup ks _ k Hnd Hk) in Hk0. f_equal; [lia|]. apply bool_decide_ext. naive_solver.
      * right. exists (b :: c :: q), k. split_and!; try done. by exists (c :: q).
Qed.

(** What the place of a pattern says about its matches. *)
Lemma holds_filing p d : goodPattern p → holds p d = true ↔
  match filingOf p with
  | FAny => True
  | FLoose => matches p d = true
  | FExact q => d = q
  | FPrefixes qs => (∃ q, q ∈ qs ∧ q ≠ [] ∧ q `prefix_of` d) ∧ match re p with None => true | Some e => MatchString e d end = true
  end.
Proof.
  intros [Hs Hr _]. unfold holds, filingOf, matches. case_bool_decide as Hc; [by destruct (suffix p)|].
  assert (suffix p = false) as -> by (destruct (suffix p); naive_solver). destruct (exact p); [by rewrite bool_decide_eq_true|].
  destruct (re p) as [r|]; [destruct (Hr r eq_refl) as (Hp & Hn & Hpre)|].
  - destruct (prefixes p) as [|q qs] eqn:Eq; [rewrite Hp, !bool_decide_true by (done || apply prefix_nil); done|]. split; [|by intros [_ ?]].
    intros Hm. destruct (Hpre ltac:(done) d Hm) as (q' & Hq & Hd). split; [|done]. exists q'. split_and!; [done| |done]. by intros ->.
  - assert (Hlast : bool_decide (prefix p `prefix_of` d) = true ↔ match (if bool_decide (prefix p = []) then FAny else FPrefixes [prefix p]) with
      FAny => True | FPrefixes qs => (∃ q, q ∈ qs ∧ q ≠ [] ∧ q `prefix_of` d) ∧ true = true | _ => False end).
    { rewrite bool_decide_eq_true. case_bool_decide as He; [rewrite He; split; [done|intros _; apply prefix_nil]|]. split.
      - intros Hd. split; [|done]. exists (prefix p). split_and!; [by left|done..].
      - intros [(q & ->%list_elem_of_singleton & _ & ?) _]. done. }
    destruct (bool_decide (prefix p = [])); by destruct (prefixes p).
Qed.

(** ** Lists of rules *)

Lemma keepIf_spec f l : (∀ n, n ∈ l → is_Some (f n)) → ∃ l', keepIf f l = Some l' ∧ ∀ n, n ∈ l' ↔ n ∈ l ∧ f n = Some true.
Proof.
  induction l as [|m l IH]; intros Hf; cbn [keepIf]; [exists []; split; [done|]; intros n; rewrite elem_of_nil; naive_solver|].
  destruct (Hf m ltac:(by left)) as [b Hb]. rewrite Hb. cbn [mbind option_bind]. destruct IH as (l' & -> & Hl); [intros n Hn; apply Hf; by right|]. cbn [mbind option_bind].
  eexists. split; [done|]. intros n. destruct b; rewrite ?elem_of_cons, Hl; naive_solver.
Qed.

Lemma visits_spec sd f calls : (∀ i w, (i, w) ∈ calls → ∃ lp le, zget (s_prefix sd) i = Some lp ∧ zget (s_exact sd) i = Some le ∧ ∀ n, n ∈ lp → is_Some (f n)) →
  ∃ l, visits sd f calls = Some l ∧ ∀ n, n ∈ l ↔ ∃ i w, (i, w) ∈ calls ∧
    ((∃ lp, zget (s_prefix sd) i = Some lp ∧ n ∈ lp ∧ f n = Some true) ∨ (w = true ∧ ∃ le, zget (s_exact sd) i = Some le ∧ n ∈ le)).
Proof.
  induction calls as [|[i w] calls IH]; intros Hc; cbn [visits].
  { exists []. split; [done|]. intros n. rewrite elem_of_nil. split; [done|]. intros (? & ? & ?%elem_of_nil & _). done. }
  destruct (Hc i w ltac:(by left)) as (lp & le & Ep & Ee & Hf). destruct IH as (l & -> & Hl); [intros i' w' H; eapply Hc; by right|].
  rewrite Ep. cbn [mbind option_bind]. destruct (keepIf_spec f lp Hf) as (kept & -> & Hk). cbn [mbind option_bind].
  assert (Hex : ∃ ex, (if w then zget (s_exact sd) i else Some []) = Some ex ∧ ∀ n, n ∈ ex ↔ w = true ∧ n ∈ le).
  { destruct w; [exists le|exists []]; split; try done; intros n; rewrite ?elem_of_nil; naive_solver. }
  destruct Hex as (ex & -> & Hex). cbn [mbind option_bind]. eexists. split; [done|]. intros n. rewrite !elem_of_app, Hk, Hex, Hl. split.
  - intros [[? ?]|[[-> ?]|(i' & w' & ? & ?)]]; [exists i, w|exists i, true|exists i', w']; (split; [rewrite elem_of_cons; by auto|]); [left; eauto|right; eauto|done].
  - intros (i' & w' & [[= -> ->]|Hin]%elem_of_cons & H); [|by right; right; exists i', w'].
    destruct H as [(lp' & ? & ? & ?)|(-> & le' & ? & ?)]; simplify_eq; auto.
Qed.

Lemma Compact_elem l n : n ∈ Compact l ↔ n ∈ l.
Proof.
  induction l as [|x [|y l] IH]; [done|done|]. change (Compact (x :: y :: l)) with (if decide (x = y) then Compact (y :: l) else x :: Compact (y :: l)).
  case_decide as E; [subst|]; rewrite ?elem_of_cons in *; rewrite IH; naive_solver.
Qed.

Lemma Compact_sorted l : StronglySorted Nat.le l → StronglySorted Nat.lt (Compact l).
Proof.
  induction l as [|x [|y l] IH]; intros Hs; [constructor|constructor; constructor|]. apply StronglySorted_inv in Hs as [Hs Hx].
  change (Compact (x :: y :: l)) with (if decide (x = y) then Compact (y :: l) else x :: Compact (y :: l)). case_decide as E; [by apply IH|]. constructor; [by apply IH|].
  apply Forall_forall. intros n Hn. rewrite Compact_elem in Hn. pose proof (proj1 (Forall_forall _ _) Hx) as Hle. pose proof (Hle y ltac:(by left)). 
  apply StronglySorted_inv in Hs as [_ Hy]. apply elem_of_cons in Hn as [->|Hn]; [unfold Nat.lt, Nat.le in *; lia|]. pose proof (proj1 (Forall_forall _ _) Hy n Hn). unfold Nat.lt, Nat.le in *. lia.
Qed.

(** Strictly increasing lists with the same members are equal. *)
Lemma sorted_unique (l k : list nat) : StronglySorted Nat.lt l → StronglySorted Nat.lt k → (∀ n, n ∈ l ↔ n ∈ k) → l = k.
Proof.
  intros Hl. revert k. induction Hl as [|x l Hl IH Hx]; intros k Hk He.
  - destruct k as [|y k]; [done|]. exfalso. apply (not_elem_of_nil y), He. by left.
  - destruct Hk as [|y k Hk Hy]; [exfalso; apply (not_elem_of_nil x), He; by left|]. rewrite Forall_forall in Hx, Hy. unfold Nat.lt in Hx, Hy.
    assert (He' : ∀ n, n = x ∨ n ∈ l ↔ n = y ∨ n ∈ k) by (intros n; rewrite <-!elem_of_cons; apply He). assert (x = y) as ->.
    { destruct (proj1 (He' x)) as [?|Hin1]; [by left|done|]. destruct (proj2 (He' y)) as [?|Hin2]; [by left|done|]. specialize (Hx y Hin2). specialize (Hy x Hin1). lia. }
    f_equal. apply IH; [done|]. intros n. split; intros Hn.
    + destruct (proj1 (He' n)) as [->|]; [by right| |done]. specialize (Hx _ Hn). lia.
    + destruct (proj2 (He' n)) as [->|]; [by right| |done]. specialize (Hy _ Hn). lia.
Qed.

Lemma positions_sorted {A} (f : A → bool) l : StronglySorted Nat.lt (positions f l).
Proof.
  unfold positions. generalize 0%nat at 1. generalize (length l). intros m. induction m as [|m IH]; intros s; [constructor|]. cbn [seq]. rewrite filter_cons. case_decide; [|apply IH].
  constructor; [apply IH|]. apply Forall_forall. intros n [_ Hn%elem_of_seq]%list_elem_of_filter. unfold Nat.lt. lia.
Qed.

Lemma sort_compact found : StronglySorted Nat.lt (Compact (merge_sort Nat.le found)) ∧ ∀ n, n ∈ Compact (merge_sort Nat.le found) ↔ n ∈ found.
Proof.
  split; [apply Compact_sorted, StronglySorted_merge_sort; typeclasses eauto|]. intros n. rewrite Compact_elem. by rewrite (merge_sort_Permutation Nat.le found).
Qed.

(** ** Rows *)

Record rowsInv (rows : DirRows) (g : Z → Z) : Prop := {
  r_repr : DenseIndex.repr (idx rows) g;
  r_range : ∀ d, is_u32 d → 0 <= g d <= count rows;
  r_inj : ∀ d d', is_u32 d → is_u32 d' → g d = g d' → g d ≠ 0 → d = d';
  r_count : 0 <= count rows }.

(** Rows are never changed. *)
Definition rowsGrow (g g' : Z → Z) : Prop := ∀ d, is_u32 d → g d ≠ 0 → g' d = g d.

Lemma rowFor_spec rows g dir : rowsInv rows g → is_u32 dir → count rows + 1 < 2 ^ 32 →
  ∃ rows' g', rowFor rows dir = Some (rows', g' dir) ∧ rowsInv rows' g' ∧ rowsGrow g g' ∧ 0 < g' dir ∧ count rows' <= count rows + 1.
Proof.
  intros [Hr Hrg Hi Hc] Hd Hlt. unfold rowFor. rewrite (DenseIndex.dense_get_repr _ _ _ Hr Hd). cbn [mbind option_bind]. pose proof (Hrg dir Hd). destruct (Z.eqb_spec (g dir) 0) as [E|E]; cbn [negb].
  2: { exists rows, g. split_and!; [done|by split|done|lia|lia]. }
  rewrite u32_id by lia. destruct (DenseIndex.dense_put_repr (idx rows) g dir (count rows + 1) Hr Hd) as (i & -> & Hr'). cbn [mbind option_bind].
  exists (mkRows i (count rows + 1)), (λ k, if decide (k = dir) then count rows + 1 else g k). rewrite decide_True by done. split_and!; [done| |intros d _ Hne; case_decide; congruence|lia|cbn; lia].
  split; cbn; [done| | |lia].
  - intros d Hd'. pose proof (Hrg d Hd'). case_decide; lia.
  - intros d d' H1 H2. pose proof (Hrg d H1). pose proof (Hrg d' H2). repeat case_decide; subst; [done|lia|lia|by apply Hi].
Qed.

Lemma pack_spec off n : 0 <= off < 2 ^ 32 → 0 <= n < 2 ^ 32 - 1 → let m := Z.lor (u64 (Z.shiftl off 32)) (u64 (n + 1)) in
  m ≠ 0 ∧ u32 (Z.shiftr m 32) = off ∧ u32 (u32 m - 1) = n.
Proof.
  intros Ho Hn m. assert (Hm : m = off * 2 ^ 32 + (n + 1)).
  { unfold m. rewrite Z.shiftl_mul_pow2, !u64_id by lia. symmetry. apply Z.add_nocarry_lor. apply Z.bits_inj'. intros k Hk. rewrite Z.land_spec, Z.bits_0.
    destruct (Z.lt_ge_cases k 32); [rewrite Z.mul_pow2_bits_low by lia; done|]. rewrite (testbit_high (n + 1) 32) by lia. apply andb_false_r. }
  rewrite Z.shiftr_div_pow2 by lia. unfold u32. rewrite Hm. split_and!; [nia| |].
  - rewrite Z.div_add_l by lia. rewrite (Z.div_small (n + 1)) by lia. rewrite Z.add_0_r. by apply Z.mod_small.
  - rewrite (Z.add_comm (off * _)), Z.mod_add, (Z.mod_small (n + 1)) by lia. replace (n + 1 - 1) with n by lia. apply Z.mod_small. lia.
Qed.

(** ** The matching rules of a directory *)

Section Side.
Context (rs : list PeerPolicyRule) (self : PeerPolicyRule → PeerPolicyPattern) (Hgood : Forall (λ r, goodPattern (self r)) rs) (Hsize : Z.of_nat (length rs) < 2 ^ 32).

(** The rules that match, but for those that match anything. *)
Definition hits (d : text) : list nat := positions (λ r, negb (isAny (filingOf (self r))) && holds (self r) d) rs.
Definition anyRules : list nat := positions (λ r, isAny (filingOf (self r))) rs.

Lemma hits_elem d n : n ∈ hits d ↔ ∃ r, rs !! n = Some r ∧ filingOf (self r) ≠ FAny ∧ holds (self r) d = true.
Proof. unfold hits. rewrite positions_elem. setoid_rewrite andb_true_iff. unfold isAny. setoid_rewrite negb_true_iff. setoid_rewrite bool_decide_eq_false. naive_solver. Qed.

Lemma hits_length d : (length (hits d) <= length rs)%nat.
Proof. unfold hits, positions. etrans; [apply length_filter|]. by rewrite length_seq. Qed.

Record sideStatic (sd : peerPolicySide) (b : sideBuilder) : Prop := {
  st_filed : filed b ((λ r, filingOf (self r)) <$> rs);
  st_walk : ∀ s, byteText s → walkKeys (darts sd) s = Some (prefixKeys (keys b) [] s);
  st_prefix : s_prefix sd = b_prefix b; st_exact : s_exact sd = b_exact b; st_loose : s_loose sd = b_loose b; st_anys : s_any sd = anyRules;
  st_set : BitSet.wf (anySet sd) ∧ ∀ n, Z.of_nat n < 2 ^ 32 → BitSet.member (anySet sd) (Z.of_nat n) = bool_decide (n ∈ anyRules) }.

Lemma keys_nodup b : wfBuilder b → NoDup (keys b).
Proof. intros [Hi _ _]. apply NoDup_alt. intros i j q H1 H2. apply Hi in H1, H2. congruence. Qed.

Lemma under_row b rows k q n : wfBuilder b → keys b !! k = Some q → length rows = length (keys b) → (∃ l, zget rows (Z.of_nat k) = Some l ∧ n ∈ l) ↔ n ∈ under (index b) rows q.
Proof.
  intros [Hix _ _] Hk Hlen. unfold under. apply Hix in Hk as Hk'. rewrite Hk', zget_nat. pose proof (lookup_lt_Some _ _ _ Hk). destruct (lookup_lt_is_Some_2 rows k) as [l ->]; [lia|]. cbn. naive_solver.
Qed.

Lemma under_key b rows q n : wfBuilder b → n ∈ under (index b) rows q → ∃ k, keys b !! k = Some q.
Proof. intros [Hix _ _]. unfold under. destruct (index b !! q) as [k|] eqn:Ek; [|by intros ?%elem_of_nil]. exists k. by apply Hix. Qed.

(** The trie's walk and the loose rules find what matches. *)
Lemma found_spec sd b path : sideStatic sd b → byteText path → path ≠ [] →
  ∃ calls found loose, walkKeys (darts sd) path = Some calls ∧ visits sd (selfRe self rs path) calls = Some found ∧
    keepIf (selfMatches self rs path) (s_loose sd) = Some loose ∧ Compact (merge_sort Nat.le (found ++ loose)) = hits path.
Proof.
  intros [Hf Hwalk Hsp Hse Hsl _ _] Hb Hne. pose proof Hf as [Hw Hp He Hl _ _]. pose proof Hw as [Hix Hlp Hle].
  assert (Hlook : ∀ n f, ((λ r, filingOf (self r)) <$> rs) !! n = Some f ↔ ∃ r, rs !! n = Some r ∧ filingOf (self r) = f) by (intros n f; rewrite list_lookup_fmap, fmap_Some; naive_solver).
  assert (Hgood' : ∀ n r, rs !! n = Some r → goodPattern (self r)) by (intros n r Hr; by eapply Forall_lookup_1 in Hgood).
  pose proof (λ rows k q n, under_row b rows k q n Hw) as Hunder.
  exists (prefixKeys (keys b) [] path). destruct (visits_spec sd (selfRe self rs path) (prefixKeys (keys b) [] path)) as (found & Hfound & Hfin).
  { intros i w Hin. apply prefixKeys_elem in Hin as (q & k & Hq & _ & -> & Hk & _); [|by apply keys_nodup]. cbn [app] in Hk. rewrite Hsp, Hse, !zget_nat. pose proof (lookup_lt_Some _ _ _ Hk).
    destruct (lookup_lt_is_Some_2 (b_prefix b) k) as [lp Elp]; [lia|]. destruct (lookup_lt_is_Some_2 (b_exact b) k) as [le Ele]; [lia|]. exists lp, le. split_and!; [done..|].
    intros n Hn. assert (Hin : n ∈ prefAt b q) by (apply (Hunder _ k); [done..|]; exists lp; by rewrite zget_nat). apply Hp in Hin as (qs & Hqs%Hlook & _).
    destruct Hqs as (r & Hr & _). unfold selfRe. rewrite Hr. by eexists. }
  destruct (keepIf_spec (selfMatches self rs path) (s_loose sd)) as (loose & Hloose & Hlin).
  { intros n Hn. rewrite Hsl in Hn. apply Hl, Hlook in Hn as (r & Hr & _). unfold selfMatches. rewrite Hr. by eexists. }
  exists found, loose. split_and!; [by apply Hwalk|done|done|]. apply sorted_unique; [apply sort_compact|apply positions_sorted|]. intros n. rewrite (proj2 (sort_compact _)), elem_of_app, Hfin, Hlin, hits_elem. split.
  - intros [(i & w & Hin & H)|[Hlo Hm]].
    + apply prefixKeys_elem in Hin as (q & k & Hq & Hpre & -> & Hk & ->); [|by apply keys_nodup]. cbn [app] in Hk. destruct H as [(lp & Hlp' & Hn & Hre)|(Hwh & le & Hle' & Hn)].
      * assert (Hin : n ∈ prefAt b q) by (apply (Hunder _ k); [done..|]; exists lp; by rewrite <-Hsp). apply Hp in Hin as (qs & (r & Hr & Hfr)%Hlook & Hqs). exists r. split; [done|]. rewrite Hfr. split; [done|].
        apply holds_filing; [by eapply Hgood'|]. rewrite Hfr. unfold selfRe in Hre. rewrite Hr in Hre. cbn in Hre. split; [eauto|congruence].
      * assert (Hin : n ∈ exactAt b q) by (apply (Hunder _ k); [done..|]; exists le; by rewrite <-Hse). apply He, Hlook in Hin as (r & Hr & Hfr). exists r. split; [done|]. rewrite Hfr. split; [done|].
        apply holds_filing; [by eapply Hgood'|]. rewrite Hfr. symmetry. by apply bool_decide_eq_true in Hwh.
    + rewrite Hsl in Hlo. apply Hl, Hlook in Hlo as (r & Hr & Hfr). exists r. split; [done|]. rewrite Hfr. split; [done|]. apply holds_filing; [by eapply Hgood'|]. rewrite Hfr.
      unfold selfMatches in Hm. rewrite Hr in Hm. cbn in Hm. congruence.
  - intros (r & Hr & Hna & Hh). apply holds_filing in Hh; [|by eapply Hgood']. destruct (filingOf (self r)) as [|q|qs|] eqn:Hfr; [| | |done].
    + right. split; [rewrite Hsl; apply Hl, Hlook; eauto|]. unfold selfMatches. rewrite Hr. cbn. by rewrite Hh.
    + left. subst q. assert (Hin : n ∈ exactAt b path) by (apply He, Hlook; eauto). destruct (under_key _ _ _ _ Hw Hin) as [k Hk]. exists (Z.of_nat k), true. split; [|right; split; [done|]; apply (Hunder _ k) in Hin; [by rewrite Hse|done..]].
      apply prefixKeys_elem; [by apply keys_nodup|]. exists path, k. split_and!; try done. by rewrite bool_decide_true.
    + destruct Hh as [(q & Hq & Hqn & Hpre) Hre]. left. assert (Hin : n ∈ prefAt b q) by (apply Hp; exists qs; split; [apply Hlook; eauto|done]). destruct (under_key _ _ _ _ Hw Hin) as [k Hk]. exists (Z.of_nat k), (bool_decide (q = path)). split; [apply prefixKeys_elem; [by apply keys_nodup|]; by exists q, k|].
      left. destruct (proj2 (Hunder (b_prefix b) k q n Hk Hlp) Hin) as (lp & Hlp' & Hn). exists lp. rewrite Hsp. split_and!; [done..|]. unfold selfRe. rewrite Hr. cbn. by rewrite Hre.
Qed.

(** The words remembered for rows lead to the rules of the directory of the row. *)
Record sideInv (sd : peerPolicySide) (g : Z → Z) : Prop := {
  si_static : ∃ b, sideStatic sd b;
  si_vec : vwf (memo sd); si_clean : vclean (memo sd);
  si_cells : ∀ row m, zget (vslice (memo sd)) row = Some m → m ≠ 0 → ∃ dir, is_u32 dir ∧ g dir = row ∧ 0 < row ∧ stored sd m = Some (hits (string_ dir)) }.

Lemma stored_app sd sd' ms m l : store sd' = store sd ++ ms → stored sd m = Some l → stored sd' m = Some l.
Proof.
  intros Hs. unfold stored. rewrite Hs. set (off := u32 (Z.shiftr m 32)). set (stop := u32 (off + _)). pose proof (u32_range (Z.shiftr m 32)) as Ho. fold off in Ho. clearbody off stop.
  case_bool_decide as Hb; [|done]. intros Hl. rewrite <-Hl. rewrite bool_decide_true by (rewrite length_app; lia). f_equal.
  rewrite drop_app_le by lia. rewrite take_app_le; [done|]. rewrite length_drop. lia.
Qed.

Lemma sideInv_grow sd g g' : sideInv sd g → rowsGrow g g' → sideInv sd g'.
Proof.
  intros [Hst Hv Hc Hm] Hg. split; [done..|]. intros row m Hrow Hne. destruct (Hm row m Hrow Hne) as (dir & Hd & <- & Hpos & Hs). exists dir. split; [done|]. split; [apply Hg; [done|lia]|done].
Qed.

Lemma remembered sd rows g dir : sideInv sd g → rowsInv rows g → is_u32 dir →
  ∃ m, (if g dir <? Z.of_nat (vlen (memo sd)) then vget (memo sd) (g dir) else Some 0) = Some m ∧ (m ≠ 0 → stored sd m = Some (hits (string_ dir))).
Proof.
  intros [_ Hv Hc Hm] [_ Hrg Hinj _] Hd. pose proof (Hrg dir Hd). destruct (Z.ltb_spec (g dir) (Z.of_nat (vlen (memo sd)))) as [Hlt|]; [|by exists 0].
  rewrite DenseIndex.vget_slice by done. destruct (zget_in (vslice (memo sd)) (g dir)) as [m Em]; [rewrite length_vslice by done; lia|]. rewrite Em. exists m. split; [done|]. intros Hne.
  destruct (Hm _ _ Em Hne) as (dir' & Hd' & Hg & Hpos & Hs). by rewrite (Hinj dir dir') by (done || lia).
Qed.

Lemma stored_new sd n sd' : Z.of_nat (length (store sd)) + Z.of_nat (length n) < 2 ^ 32 - 1 → store sd' = store sd ++ n →
  let m := Z.lor (u64 (Z.shiftl (Z.of_nat (length (store sd))) 32)) (u64 (Z.of_nat (length n) + 1)) in m ≠ 0 ∧ stored sd' m = Some n.
Proof.
  intros Hlen Hs m. destruct (pack_spec (Z.of_nat (length (store sd))) (Z.of_nat (length n))) as (Hm & Hoff & Hcnt); [lia|lia|]. fold m in Hm, Hoff, Hcnt. split; [done|].
  unfold stored. rewrite Hoff, Hcnt, Hs, u32_id, bool_decide_true by (rewrite ?length_app; lia). f_equal.
  rewrite Nat2Z.id, drop_app_length. replace (Z.to_nat _) with (length n) by lia. by rewrite firstn_all.
Qed.

Lemma matching_spec rows sd g dir : sideInv sd g → rowsInv rows g → is_u32 dir → byteText (string_ dir) → string_ dir ≠ [] →
  count rows + 1 < 2 ^ 32 → Z.of_nat (length (store sd)) + Z.of_nat (length rs) < 2 ^ 32 - 1 →
  ∃ rows' sd' g', matching rows sd rs dir self = Some (rows', sd', hits (string_ dir)) ∧ rowsInv rows' g' ∧ sideInv sd' g' ∧ rowsGrow g g' ∧
    count rows' <= count rows + 1 ∧ (length (store sd') <= length (store sd) + length rs)%nat.
Proof.
  intros Hsd Hrows Hd Hb Hne Hcount Hstore. unfold matching, rowOf. rewrite (DenseIndex.dense_get_repr _ _ _ (r_repr _ _ Hrows) Hd). cbn [mbind option_bind].
  destruct (remembered sd rows g dir Hsd Hrows Hd) as (m & -> & Hm). cbn [mbind option_bind]. destruct (Z.eqb_spec m 0) as [_|Hm0]; cbn [negb].
  2: { rewrite Hm by done. cbn [mbind option_bind]. exists rows, sd, g. split_and!; [done..|lia|lia]. }
  clear m Hm. unfold matchingSlow. destruct (rowFor_spec rows g dir Hrows Hd Hcount) as (rows' & g' & -> & Hrows' & Hgrow & Hpos & Hcnt). cbn [mbind option_bind].
  destruct (sideInv_grow _ _ _ Hsd Hgrow) as [[b Hst] Hv Hc Hcells]. destruct (found_spec sd b (string_ dir) Hst Hb Hne) as (calls & found & loose & -> & E1 & E2 & E3). cbn [mbind option_bind]. rewrite E1. cbn [mbind option_bind].
  rewrite E2. cbn [mbind option_bind]. rewrite E3. pose proof (hits_length (string_ dir)) as Hhl. set (ms := hits (string_ dir)) in *. set (word := Z.lor _ _).
  destruct (ensureLen_spec (memo sd) (Z.to_nat (g' dir) + 1) Hv Hc) as (Hv1 & Hc1 & Hl1 & Hs1).
  destruct (DenseIndex.vset_slice (ensureLen (memo sd) (Z.to_nat (g' dir) + 1)) (g' dir) word Hv1 Hc1 ltac:(lia)) as (cells & -> & Hv2 & Hc2 & Hl2 & Hs2). cbn [mbind option_bind].
  set (sd' := mkSide _ _ _ _ _ _ cells _). exists rows', sd', g'. split_and!; [done|done| |done|done|cbn; rewrite length_app; lia].
  destruct (stored_new sd ms sd' ltac:(lia) eq_refl) as [Hw Hsw]. fold word in Hw, Hsw. split; cbn [memo sd']; [exists b; destruct Hst; by split|done..|].
  intros row m Hrow Hmne. rewrite Hs2 in Hrow. rewrite zget_insert in Hrow by (rewrite length_vslice by done; lia). case_decide as Hr.
  - subst row. injection Hrow as <-. exists dir. done.
  - rewrite Hs1 in Hrow. destruct (decide (row < Z.of_nat (length (vslice (memo sd))))) as [Hlt|Hge].
    + rewrite zget_app_l in Hrow by (apply zget_Some_range in Hrow; lia). destruct (Hcells row m Hrow Hmne) as (dir' & ? & ? & ? & Hst'). exists dir'. do 3 (split; [done|]). by apply (stored_app sd sd' ms).
    + rewrite zget_app_r in Hrow by lia. unfold zget in Hrow. case_bool_decide; [|done]. apply lookup_replicate_1 in Hrow as [-> _]. done.
Qed.
End Side.

(** ** The loop over the rules *)

Lemma sorted_lookup (l : list nat) i j x y : StronglySorted Nat.lt l → l !! i = Some x → l !! j = Some y → (i < j)%nat → (x < y)%nat.
Proof.
  intros Hs. revert i j. induction Hs as [|z l Hs IH Hz]; intros [|i] [|j] Hi Hj Hlt; try done; try lia.
  - cbn in Hi, Hj. injection Hi as <-. apply list_elem_of_lookup_2 in Hj. rewrite Forall_forall in Hz. by apply Hz.
  - apply (IH i j); [done..|lia].
Qed.

Lemma searchLoop_spec fuel l x i j : StronglySorted Nat.lt l → (i <= j <= length l)%nat → (j - i <= fuel)%nat →
  (∀ k y, (k < i)%nat → l !! k = Some y → (y < x)%nat) → (∀ k y, (j <= k)%nat → l !! k = Some y → (x <= y)%nat) →
  ∃ r, searchLoop fuel l x i j = Some r ∧ (∀ k y, (k < r)%nat → l !! k = Some y → (y < x)%nat) ∧ (∀ k y, (r <= k)%nat → l !! k = Some y → (x <= y)%nat).
Proof.
  intros Hs. revert i j. induction fuel as [|fuel IH]; intros i j Hij Hf Hlo Hhi; cbn [searchLoop]; (destruct (decide (i < j)%nat) as [Hlt|Hge]; [|exists i; split_and!; [done..|]; intros k y Hk; apply Hhi; lia]); [lia|].
  set (h := ((i + j) / 2)%nat). assert (Hh : (i <= h < j)%nat) by (unfold h; split; [apply Nat.div_le_lower_bound; lia|apply Nat.Div0.div_lt_upper_bound; lia]).
  destruct (lookup_lt_is_Some_2 l h) as [y Hy]; [lia|]. rewrite Hy. cbn [mbind option_bind]. destruct (decide (y < x)%nat) as [Hyx|Hyx].
  - apply IH; [lia|lia| |done]. intros k z Hk Hz. destruct (decide (k = h)) as [->|]; [congruence|]. pose proof (sorted_lookup l k h z y Hs Hz Hy ltac:(lia)). lia.
  - apply IH; [lia|lia|done|]. intros k z Hk Hz. destruct (decide (k = h)) as [->|]; [simplify_eq; lia|]. pose proof (sorted_lookup l h k y z Hs Hy Hz ltac:(lia)). lia.
Qed.

Lemma BinarySearch_spec l x : StronglySorted Nat.lt l → BinarySearch l x = Some (bool_decide (x ∈ l)).
Proof.
  intros Hs. unfold BinarySearch. destruct (searchLoop_spec (length l) l x 0 (length l) Hs) as (r & -> & Hlo & Hhi); [lia|lia|lia|intros k y Hk Hy%lookup_lt_Some; lia|].
  cbn. f_equal. apply bool_decide_ext. split; [apply list_elem_of_lookup_2|]. intros (k & Hk)%list_elem_of_lookup_1. destruct (decide (k < r)%nat) as [Hlt|Hge]; [specialize (Hlo k x Hlt Hk); lia|].
  destruct (decide (k = r)) as [->|]; [done|]. destruct (lookup_lt_is_Some_2 l r) as [y Hy]; [apply lookup_lt_Some in Hk; lia|].
  pose proof (Hhi r y ltac:(lia) Hy). pose proof (sorted_lookup l r k y x Hs Hy Hk ltac:(lia)). lia.
Qed.

Section Loop.
Context (rs : list PeerPolicyRule) (Hsize : Z.of_nat (length rs) < 2 ^ 32) (fromAny : BitSet.BitSet) (anyFrom froms : list nat).
Context (Hset : BitSet.wf fromAny ∧ ∀ n, Z.of_nat n < 2 ^ 32 → BitSet.member fromAny (Z.of_nat n) = bool_decide (n ∈ anyFrom)) (Hfroms : StronglySorted Nat.lt froms).

(** The rule matches both ways. *)
Definition decides (tos anyTo : list nat) (n : nat) : Prop := (n ∈ tos ∨ n ∈ anyTo) ∧ (n ∈ anyFrom ∨ n ∈ froms).

(** The answer is that of the first deciding rule. *)
Definition answers (o : option bool) (D : nat → Prop) : Prop :=
  (∃ n r, rs !! n = Some r ∧ D n ∧ (∀ m, (m < n)%nat → ¬ D m) ∧ o = Some (allow r)) ∨ ((∀ n, ¬ D n) ∧ o = Some true).

Lemma answers_iff o D D' : (∀ n, D n ↔ D' n) → answers o D → answers o D'.
Proof. intros HD [(n & r & ? & ? & Hm & ?)|[Hn ?]]; [left; exists n, r; split_and!; try done; [by apply HD|intros m Hlt Hd; apply (Hm m Hlt); by apply HD]|right; split; [|done]; intros n Hd; by apply (Hn n), HD]. Qed.

Definition turn (n : nat) (o : option bool) : option bool :=
  any ← BitSet.has fromAny (u32 (Z.of_nat n)); if (any : bool) then r ← rs !! n; Some (allow r)
  else ok ← BinarySearch froms n; if (ok : bool) then r ← rs !! n; Some (allow r) else o.

(** One turn with the smaller head [n]. *)
Lemma turn_spec n o tos anyTo : (n < length rs)%nat → (∀ m, m ∈ n :: tos → (n <= m)%nat) → (∀ m, m ∈ anyTo → (n <= m)%nat) →
  answers o (decides tos anyTo) → answers (turn n o) (decides (n :: tos) anyTo).
Proof.
  intros Hn H1 H2 Ho. unfold turn. destruct Hset as [Hwf Hmem]. rewrite u32_id, BitSet.bitset_has_spec, Hmem by (done || lia). cbn [mbind option_bind].
  destruct (lookup_lt_is_Some_2 rs n Hn) as [r Hr]. assert (Hyes : n ∈ anyFrom ∨ n ∈ froms → answers (Some (allow r)) (decides (n :: tos) anyTo)).
  { intros Hd. left. exists n, r. split_and!; [done|split; [left; by left|done]| |done]. intros m Hlt [[Hm|Hm] _]; [specialize (H1 m Hm)|specialize (H2 m Hm)]; lia. }
  case_bool_decide as Hany; [rewrite Hr; apply Hyes; by left|]. rewrite BinarySearch_spec by done. cbn [mbind option_bind].
  case_bool_decide as Hin; [rewrite Hr; apply Hyes; by right|]. eapply answers_iff; [|exact Ho]. intros m. unfold decides. rewrite elem_of_cons. clear -Hany Hin. split; [tauto|]. intros [[[->|?]|?] ?]; tauto.
Qed.

Lemma decides_swap o tos anyTo : answers o (decides tos anyTo) → answers o (decides anyTo tos).
Proof. apply answers_iff. intros n. unfold decides. tauto. Qed.

Lemma sorted_head x l : StronglySorted Nat.lt (x :: l) → StronglySorted Nat.lt l ∧ ∀ y, y ∈ x :: l → (x <= y)%nat.
Proof.
  intros [Hl Hx]%StronglySorted_inv. split; [done|]. intros y Hy. apply elem_of_cons in Hy as [->|Hy]; [lia|]. rewrite Forall_forall in Hx. specialize (Hx y Hy). unfold Nat.lt in Hx. lia.
Qed.

Lemma allowsLoop_spec fuel tos anyTo : StronglySorted Nat.lt tos → StronglySorted Nat.lt anyTo → Forall (λ n, n < length rs)%nat tos → Forall (λ n, n < length rs)%nat anyTo →
  (length tos + length anyTo < fuel)%nat → answers (allowsLoop fuel rs fromAny froms tos anyTo) (decides tos anyTo).
Proof.
  revert tos anyTo. induction fuel as [|fuel IH]; intros tos anyTo Ht Ha Hrt Hra Hf; [lia|]. cbn [allowsLoop].
  assert (Htake : ∀ t tos' any', tos = t :: tos' → anyTo = any' → (∀ m, m ∈ any' → (t <= m)%nat) → answers (turn t (allowsLoop fuel rs fromAny froms tos' any')) (decides tos anyTo)).
  { intros t tos' any' -> -> Hle. apply Forall_cons in Hrt as [? ?]. destruct (sorted_head _ _ Ht) as [Hs Hh]. apply turn_spec; [done..|]. apply IH; try done. cbn in Hf. lia. }
  assert (Htake' : ∀ a any' tos', anyTo = a :: any' → tos = tos' → (∀ m, m ∈ tos' → (a <= m)%nat) → answers (turn a (allowsLoop fuel rs fromAny froms tos' any')) (decides tos anyTo)).
  { intros a any' tos' -> -> Hle. apply Forall_cons in Hra as [? ?]. destruct (sorted_head _ _ Ha) as [Hs Hh]. apply decides_swap, turn_spec; [done..|]. apply decides_swap, IH; try done. cbn in Hf. lia. }
  destruct tos as [|t tos], anyTo as [|a anyTo].
  - right. split; [|done]. intros n [[?%elem_of_nil|?%elem_of_nil] _]; done.
  - by apply Htake'; [..|intros m ?%elem_of_nil].
  - by apply Htake; [..|intros m ?%elem_of_nil].
  - destruct (decide (t < a)%nat) as [Hlt|Hlt]; [apply Htake|apply Htake']; try done; intros m Hm.
    + pose proof (proj2 (sorted_head _ _ Ha) m Hm). lia.
    + pose proof (proj2 (sorted_head _ _ Ht) m Hm). lia.
Qed.
End Loop.

(** ** The answers *)

Definition goodRule (r : PeerPolicyRule) : Prop := goodPattern (from r) ∧ goodPattern (to r).

Lemma matched rs self d n : Forall (λ r, goodPattern (self r)) rs → n ∈ hits rs self d ∨ n ∈ anyRules rs self ↔ ∃ r, rs !! n = Some r ∧ holds (self r) d = true.
Proof.
  intros Hg. rewrite hits_elem. unfold anyRules, isAny. rewrite positions_elem. setoid_rewrite bool_decide_eq_true. split.
  - intros [(r & ? & _ & ?)|(r & Hr & Ha)]; [eauto|]. exists r. split; [done|]. apply holds_filing; [by eapply Forall_lookup_1 in Hg|]. by rewrite Ha.
  - intros (r & Hr & Hh). destruct (decide (filingOf (self r) = FAny)); [right|left]; eauto.
Qed.

Lemma verdict_answers rs f t o : answers rs o (λ n, ∃ r, rs !! n = Some r ∧ holds (from r) f && holds (to r) t = true) → o = Some (verdict rs f t).
Proof.
  unfold verdict. set (h := λ r, holds (from r) f && holds (to r) t). intros [(n & r & Hr & (r' & Hr' & Hh) & Hmin & ->)|[Hno ->]]; f_equal.
  - replace (List.find h rs) with (Some r); [done|]. symmetry. assert (r' = r) as -> by congruence. clear Hr'. revert n Hr Hmin. induction rs as [|x rs IH]; intros n Hr Hmin; [done|]. cbn [List.find].
    destruct n as [|n]; [injection Hr as ->; unfold h at 1; by rewrite Hh|]. destruct (h x) eqn:Ex; [destruct (Hmin 0%nat ltac:(lia)); by exists x|]. apply (IH n); [done|]. intros m Hlt. apply (Hmin (S m)). lia.
  - replace (List.find h rs) with (@None PeerPolicyRule); [done|]. symmetry. destruct (List.find h rs) as [r|] eqn:E; [|done]. apply find_some in E as [Hin%list_elem_of_In Eh].
    apply list_elem_of_lookup_1 in Hin as [n Hr]. destruct (Hno n). by exists r.
Qed.

Lemma positions_bound {A} (f : A → bool) l : Forall (λ n, n < length l)%nat (positions f l).
Proof. apply Forall_forall. intros n (x & Hx & _)%positions_elem. by eapply lookup_lt_Some. Qed.

Record policiesInv (p : PeerPolicies) (rs : list PeerPolicyRule) (g : Z → Z) : Prop := {
  pi_rules : rules p = rs; pi_from : sideInv rs from (p_from p) g; pi_to : sideInv rs to (p_to p) g }.

Definition askable (dir : Z) : Prop := is_u32 dir ∧ byteText (string_ dir) ∧ string_ dir ≠ [].
Definition stores (p : PeerPolicies) : nat := length (store (p_from p)) `max` length (store (p_to p)).

Lemma allows_spec rows p rs g f t : Forall goodRule rs → Z.of_nat (length rs) < 2 ^ 32 → policiesInv p rs g → rowsInv rows g → askable f → askable t →
  count rows + 2 < 2 ^ 32 → Z.of_nat (stores p) + Z.of_nat (length rs) < 2 ^ 32 - 1 →
  ∃ rows' p' g', allows rows p f t = Some (rows', p', verdict rs (string_ f) (string_ t)) ∧ policiesInv p' rs g' ∧ rowsInv rows' g' ∧
    count rows' <= count rows + 2 ∧ (stores p' <= stores p + length rs)%nat.
Proof.
  intros Hg Hn [Hr Hf Ht] Hrows (Hf1 & Hf2 & Hf3) (Ht1 & Ht2 & Ht3) Hc Hs. unfold stores in *.
  assert (Hgf : Forall (λ r, goodPattern (from r)) rs) by (eapply Forall_impl; [exact Hg|by intros ? [? _]]).
  assert (Hgt : Forall (λ r, goodPattern (to r)) rs) by (eapply Forall_impl; [exact Hg|by intros ? [_ ?]]). unfold allows. rewrite Hr.
  destruct (matching_spec rs from Hgf rows (p_from p) g f) as (rows1 & f1 & g1 & -> & Hrows1 & Hf' & Hgr1 & Hc1 & Hs1); [done..|lia|lia|]. cbn [mbind option_bind].
  destruct (matching_spec rs to Hgt rows1 (p_to p) g1 t) as (rows2 & t2 & g2 & -> & Hrows2 & Ht' & Hgr2 & Hc2 & Hs2); [by eapply sideInv_grow|done..|lia|lia|]. cbn [mbind option_bind].
  pose proof (sideInv_grow _ _ _ _ _ Hf' Hgr2) as Hf''. destruct (si_static _ _ _ _ Hf'') as [fb Hfb]. destruct (si_static _ _ _ _ Ht') as [tb Htb]. rewrite (st_anys _ _ _ _ Htb).
  rewrite (verdict_answers rs (string_ f) (string_ t) (allowsLoop _ _ _ _ _ _)).
  2: { eapply answers_iff; [|apply (allowsLoop_spec rs Hn (anySet f1) (anyRules rs from) (hits rs from (string_ f)) (st_set _ _ _ _ Hfb)); [apply positions_sorted..|apply positions_bound|apply positions_bound|lia]].
       intros n. unfold decides. rewrite (or_comm (n ∈ anyRules rs from)), !matched by done. setoid_rewrite andb_true_iff. clear. split; [intros [(r & ? & ?) (r' & ? & ?)]; simplify_eq; eauto|naive_solver]. }
  cbn [mbind option_bind]. eexists _, _, g2. split; [done|]. split; [by split|]. split; [done|]. cbn [p_from p_to]. split; [lia|]. lia.
Qed.

Lemma side_inv rs self b g : Forall (λ r, goodPattern (self r)) rs → Z.of_nat (length rs) < 2 ^ 32 → filed b ((λ r, filingOf (self r)) <$> rs) →
  ∃ sd, side b = Some sd ∧ sideInv rs self sd g ∧ store sd = [].
Proof.
  intros Hg Hn Hf. pose proof Hf as [_ _ _ _ Ha Hk]. unfold side. destruct (newDarts_walk (keys b)) as (d & -> & Hd).
  { apply Forall_forall. intros q (f & (r & -> & Hr)%list_elem_of_fmap & Hfil)%Hk. rewrite Forall_forall in Hg. destruct (Hg r Hr) as [_ _ [Hb1 Hb2]]. revert Hfil. unfold filingOf.
    rewrite Forall_forall in Hb2. repeat (case_match || case_bool_decide); intros [Heq|(qs & Heq & Hq)]; simplify_eq; try done; try (by apply Hb2; congruence); apply list_elem_of_singleton in Hq; by subst. }
  cbn [mbind option_bind]. assert (Hany : b_any b = anyRules rs self).
  { rewrite Ha. unfold anyRules, positions. rewrite length_fmap. apply filter_ext_in. intros n _. rewrite list_lookup_fmap. by destruct (rs !! n). }
  destruct (addAll_spec (b_any b) go_zero BitSet.bitset_wf_zero) as (s & -> & Hs & Hm).
  { rewrite Hany. eapply Forall_impl; [apply positions_bound|]. cbn. lia. }
  cbn [mbind option_bind]. eexists. split; [done|]. split; [|done]. split; cbn; [exists b; split; try done|apply vwf_zero|apply vclean_zero|].
  - split; [done|]. intros n Hlt. cbn. rewrite Hm by done. rewrite BitSet.member_zero, orb_false_r. by rewrite Hany.
  - intros row m Hrow. by rewrite zget_nil in Hrow.
Qed.

Lemma newPolicies_inv rs g : Forall goodRule rs → Z.of_nat (length rs) < 2 ^ 32 → ∃ p, newPolicies rs = Some p ∧ policiesInv p rs g ∧ stores p = 0%nat.
Proof.
  intros Hg Hn. unfold newPolicies. destruct (placeRules_filed rs newBuilder newBuilder []) as (fb & tb & E & Hf & Ht); [apply filed_empty..|]. cbn [length app] in *. rewrite E. cbn [mbind option_bind].
  destruct (side_inv rs from fb g) as (f & -> & Hf' & Hsf); [eapply Forall_impl; [exact Hg|by intros ? [? _]]|done|done|].
  destruct (side_inv rs to tb g) as (t & -> & Ht' & Hst); [eapply Forall_impl; [exact Hg|by intros ? [_ ?]]|done|done|]. cbn [mbind option_bind].
  eexists. split; [done|]. split; [by split|]. unfold stores. cbn. by rewrite Hsf, Hst.
Qed.

(** Questions, among requests of rows by other parts of the program. *)
Inductive event := Ask (f t : Z) | Row (dir : Z).

Fixpoint run (rows : DirRows) (p : PeerPolicies) (es : list event) : option (list bool) :=
  match es with
  | [] => Some []
  | Ask f t :: es => '(rows, p, ok) ← allows rows p f t; oks ← run rows p es; Some (ok :: oks)
  | Row dir :: es => '(rows, _) ← rowFor rows dir; run rows p es
  end.

Definition askableEvent (e : event) : Prop := match e with Ask f t => askable f ∧ askable t | Row dir => is_u32 dir end.
Definition expected (rs : list PeerPolicyRule) (es : list event) : list bool :=
  omap (λ e, match e with Ask f t => Some (verdict rs (string_ f) (string_ t)) | Row _ => None end) es.

Lemma ask_run_spec es rows p rs g : Forall goodRule rs → Z.of_nat (length rs) < 2 ^ 32 → policiesInv p rs g → rowsInv rows g → Forall askableEvent es →
  count rows + 2 * Z.of_nat (length es) < 2 ^ 32 → Z.of_nat (stores p) + Z.of_nat (length es) * Z.of_nat (length rs) < 2 ^ 32 - 1 → run rows p es = Some (expected rs es).
Proof.
  intros Hg Hn. revert rows p g. induction es as [|e es IH]; intros rows p g Hp Hrows He Hc Hs; [done|]. apply Forall_cons in He as [He1 He]. cbn [length] in Hc, Hs. destruct e as [f t|dir]; cbn [run].
  - destruct He1 as [Hf Ht]. destruct (allows_spec rows p rs g f t) as (rows' & p' & g' & -> & Hp' & Hrows' & Hc' & Hs'); [done..|lia|nia|]. cbn [mbind option_bind].
    rewrite (IH rows' p' g') by (done || lia || nia). done.
  - destruct (rowFor_spec rows g dir Hrows He1 ltac:(lia)) as (rows' & g' & -> & Hrows' & Hgr & _ & Hc'). cbn [mbind option_bind]. destruct Hp as [Hr Hf Ht].
    rewrite (IH rows' p g'); [done|split; [done|by eapply sideInv_grow..]|done|done|lia|nia].
Qed.

Lemma rowsInv_zero : rowsInv go_zero (λ _, 0).
Proof. split; [apply DenseIndex.repr_zero|intros; cbn; lia|done|cbn; lia]. Qed.


End Patterns.

(** ** Examples *)

Module Example.
Definition exPattern : text := bs "(a|b)/c".
Definition exMatch (e d : text) : bool := bool_decide (e = bs "^" ++ exPattern) && (bool_decide (bs "a/c" `prefix_of` d) || bool_decide (bs "b/c" `prefix_of` d)).
Definition exParse (p : text) : option Syntax :=
  if bool_decide (p = exPattern) then Some (OpConcat (OpCapture (OpAlternate [OpLiteral false (bs "a"); OpLiteral false (bs "b")])) [OpLiteral false (bs "/c")]) else None.
Definition exString (id : Z) : text :=
  if id =? 1 then bs "a/c/d" else if id =? 2 then bs "contrib" else if id =? 3 then bs "lib/x/y" else bs "util/tests".
Definition exFile : text := bs "# rules
ALLOW (a|b)/c -> .*
lib/x -> .*tests$

DENY .* -> contrib$".
Definition exSpecs : list (text * text * bool) := [(exPattern, bs ".*", true); (bs "lib/x", bs ".*tests$", false); (bs ".*", bs "contrib$", false)].
Definition exEvents : list event := [Ask 1 2; Row 7; Ask 3 2; Ask 3 4; Ask 1 4; Ask 3 4; Ask 4 1].

Lemma ex_anchored p : anchored (λ p, p) exMatch exParse p.
Proof.
  intros t. unfold exParse. case_bool_decide as Hp; [|done]. intros [= <-]. split_and!; [done|repeat constructor; cbn; lia|]. intros d. unfold exMatch. intros [_ Hd]%andb_true_iff.
  apply orb_true_iff in Hd as [Hd%bool_decide_eq_true|Hd%bool_decide_eq_true]; eexists; (split; [exact Hd|]); cbn; [exists (bs "a")|exists (bs "b")]; eexists (bs "/c"); (split; [done|]); (split; [auto|]); exists (bs "/c"), []; auto.
Qed.

Lemma byteText_check s : forallb (λ b, (0 <=? b) && (b <? 256)) s = true → byteText s.
Proof. intros Hs. apply Forall_forall. intros b Hb%list_elem_of_In. rewrite forallb_forall in Hs. specialize (Hs b Hb). lia. Qed.


(** A pattern that folds case, as the regexp package parses it. *)
Definition foldParse (p : text) : option Syntax := if bool_decide (p = bs "(?i)foo") then Some (OpLiteral true (bs "FOO")) else None.
Definition foldMatch (e d : text) : bool :=
  bool_decide (e = bs "^(?i)foo") && (bool_decide (bs "foo" `prefix_of` d) || bool_decide (bs "FOO" `prefix_of` d)).

(** A rule whose pattern folds case is filed under the one spelling of its literal and is not found for a directory in another spelling: the rule below matches the directory,
    so the dependency is prohibited, but the answer is that it is allowed. *)
Theorem folded_rule_lost : foldMatch (bs "^(?i)foo") (bs "foo/a") = true ∧
  (λ p, (verdict foldMatch (rules p) (bs "foo/a") (bs "lib"), run foldMatch (λ id, if id =? 1 then bs "foo/a" else bs "lib") go_zero p [Ask 1 2])) <$>
    peerPolicies (λ p, p) foldParse [bs "(?i)foo -> .*"] = Ok (false, Some [true]).
Proof. split; by vm_compute. Qed.
End Example.
