(* ===== verification/Sysincl.v ===== *)
(** * The table of system headers (sysincl.go, sysincl_ctx.go)

    Records read from configuration files map the names of system headers to files; a
    record may have a filter on the including file and may ignore the case of the names.
    The code does not go through the records: it collects the names in bit sets and a
    gate over length and first bytes, puts the entries of all records into buckets by the
    lower-case name, and remembers what it learnt about a name.  While it builds the
    buckets it merges equal names of a record in place, in records that the contexts
    of other platforms share.  Shown: the answers are those of the records gone through in
    order, whichever contexts were built from them before.

    Interned names are texts, and the id 0 is [None]; the maps and bit sets by id are
    finite maps and sets (their implementations are the subject of other files). *)

From S2P Require Import Prelude PeerPolicies.
Local Open Scope string_scope.
Local Open Scope list_scope.
Local Open Scope Z_scope.

Abbreviation text := (list Z) (only parsing).

(** ** Filters *)

Section Sysincl.
Context {Regexp : Type} (MatchString : Regexp → text → bool).

Record FilterAlt := mkAlt {
  excludePrefixes : list text; excludeRes : list Regexp; residual : option Regexp; lookPrefix : text; lookahead : bool;
  literalPrefix : text; containsLit : text; reGuard : text; a_re : option Regexp }.
Record SourceFilter := mkFilter { alts : list FilterAlt; unsupported : bool }.

Definition HasPrefix (s p : text) : bool := bool_decide (p `prefix_of` s).

(** [None] in the branch of the look-ahead: the rest of the tests decide. *)
Definition altMatches (a : FilterAlt) (path : text) : bool :=
  if existsb (HasPrefix path) (excludePrefixes a) then false
  else
    let look :=
      if lookahead a then
        if HasPrefix path (lookPrefix a) then
          let tail := drop (length (lookPrefix a)) path in
          if existsb (λ re, MatchString re tail) (excludeRes a) then Some false
          else match residual a with Some re => Some (MatchString re tail) | None => None end
        else Some false
      else None in
    match look with
    | Some b => b
    | None =>
        if bool_decide (literalPrefix a ≠ []) then HasPrefix path (literalPrefix a)
        else if bool_decide (containsLit a ≠ []) then Contains path (containsLit a)
        else match a_re a with
             | None => true
             | Some re => if bool_decide (reGuard a ≠ []) && negb (HasPrefix path (reGuard a)) then false else MatchString re path
             end
    end.

Definition filterMatch (f : SourceFilter) (path : text) : bool := if unsupported f then false else existsb (λ a, altMatches a path) (alts f).

(** ** Records *)

(** A file of a mapping: its path below the source root. *)
Record SysinclPair := mkPair { key : option text; keyCI : text; paths : list text }.
Record SysIncl := mkSys { Filter : option SourceFilter; HasMultiTarget : bool; CaseInsensitive : bool; pairs : list SysinclPair }.

Definition lowerByte (c : Z) : Z := if (65 <=? c) && (c <=? 90) then c + 32 else c.
Definition lower (s : text) : text := lowerByte <$> s.

Definition pid (p : SysinclPair) : text := match key p with Some k => k | None => keyCI p end.
Definition cleared (p : SysinclPair) : bool := bool_decide (key p = None) && bool_decide (keyCI p = []).

Definition setMapping (rec : SysIncl) (k : text) (ps : list text) : SysIncl :=
  let multi := if (2 <=? length ps)%nat then true else HasMultiTarget rec in
  let p := if CaseInsensitive rec then mkPair None (lower k) ps else mkPair (Some k) [] ps in
  mkSys (Filter rec) multi (CaseInsensitive rec) (pairs rec ++ [p]).

(** ** Equal names of one record *)

(** [slices.IndexFunc(rec.pairs, ...)] *)
Fixpoint firstWith (t : text) (ps : list SysinclPair) : option nat :=
  match ps with [] => None | p :: ps => if decide (pid p = t) then Some 0%nat else S <$> firstWith t ps end.

(** The pairs are changed in place; [i] runs over them, [seen] are the names met. *)
Fixpoint dedupLoop (n : nat) (i : nat) (seen : gset text) (ps : list SysinclPair) : option (list SysinclPair) :=
  match n with
  | O => Some ps
  | S n =>
      p ← ps !! i;
      if cleared p then dedupLoop n (S i) seen ps
      else if decide (pid p ∈ seen) then
        j ← firstWith (pid p) ps;
        first ← ps !! j;
        let ps := <[j := mkPair (key first) (keyCI first) (paths first ++ paths p)]> ps in
        dedupLoop n (S i) seen (<[i := mkPair None [] []]> ps)
      else dedupLoop n (S i) ({[pid p]} ∪ seen) ps
  end.
Definition dedupPairs (ps : list SysinclPair) : option (list SysinclPair) := dedupLoop (length ps) 0 ∅ ps.

(** ** The index *)

Record SysinclContribution := mkContrib { c_paths : list text; c_filter : option SourceFilter; rawKeyID : text; ci : bool; multi : bool }.
Record SysinclIndex := mkIndex { byLower : gmap text nat; buckets : list (list SysinclContribution); byID : gmap text nat; outScratch : option (list text) }.

Definition bucketFor (m : SysinclIndex) (k : text) : SysinclIndex * nat :=
  match byLower m !! lower k with
  | Some i => (m, i)
  | None => let i := length (buckets m) in (mkIndex (<[lower k := i]> (byLower m)) (buckets m ++ [[]]) (byID m) (outScratch m), i)
  end.

Definition contribute (rec : SysIncl) (m : SysinclIndex) (p : SysinclPair) : option SysinclIndex :=
  if cleared p then Some m
  else
    let '(m, bi) := bucketFor m (pid p) in
    b ← buckets m !! bi;
    let c := mkContrib (paths p) (Filter rec) (pid p) (bool_decide (key p = None)) (HasMultiTarget rec) in
    Some (mkIndex (byLower m) (<[bi := b ++ [c]]> (buckets m)) (<[pid p := bi]> (byID m)) (outScratch m)).

Fixpoint contributeAll (rec : SysIncl) (m : SysinclIndex) (ps : list SysinclPair) : option SysinclIndex :=
  match ps with [] => Some m | p :: ps => m ← contribute rec m p; contributeAll rec m ps end.

(** The index, and the records as they are left. *)
Fixpoint buildLoop (m : SysinclIndex) (set : list SysIncl) : option (SysinclIndex * list SysIncl) :=
  match set with
  | [] => Some (m, [])
  | rec :: set =>
      ps ← dedupPairs (pairs rec);
      m ← contributeAll rec m ps;
      '(m, set) ← buildLoop m set;
      Some (m, mkSys (Filter rec) (HasMultiTarget rec) (CaseInsensitive rec) ps :: set)
  end.
Definition buildSysinclIndex (set : list SysIncl) : option (SysinclIndex * list SysIncl) := buildLoop (mkIndex ∅ [] ∅ None) set.

(** [append]: nil stays nil when nothing is added. *)
Definition appendNil (out : option (list text)) (ps : list text) : option (list text) :=
  match out, ps with None, [] => None | _, _ => Some (default [] out ++ ps) end.

Record lookupState := mkLookup { out : option (list text); found : bool; hasMulti : bool; single : list text; singleMulti : bool }.

Definition lookupStep (scratch : option (list text)) (path target : text) (s : lookupState) (c : SysinclContribution) : lookupState :=
  if negb (ci c) && negb (bool_decide (rawKeyID c = target)) then s
  else if match c_filter c with Some f => negb (filterMatch f path) | None => false end then s
  else
    let cMulti := multi c && (2 <=? length (c_paths c))%nat in
    if negb (found s) then mkLookup (out s) true (hasMulti s) (c_paths c) cMulti
    else
      let '(o, h) := match out s with
                     | None => (appendNil ((λ _, []) <$> scratch) (single s), singleMulti s)
                     | Some _ => (out s, hasMulti s)
                     end in
      mkLookup (appendNil o (c_paths c)) true (if cMulti then true else h) (single s) (singleMulti s).

(** The files, whether the name is claimed, and whether several files may be meant. *)
Definition indexLookup (m : SysinclIndex) (path target : text) : option (SysinclIndex * (list text * bool * bool)) :=
  bi ← byID m !! target;
  bucket ← buckets m !! bi;
  let s := foldl (lookupStep (outScratch m) path target) (mkLookup None false false [] false) bucket in
  match out s with
  | None => Some (m, (single s, found s, singleMulti s))
  | Some o => Some (mkIndex (byLower m) (buckets m) (byID m) (Some o), (o, found s, hasMulti s))
  end.

(** ** Contexts *)

Record SysinclCtx := mkCtx { keyBits : gset text; keysCI : gset text; ciGate : gset Z; ciMaxLen : nat; ciMemo : gmap text bool; merged : SysinclIndex }.

Definition caseVariants (b : Z) : list Z := if (97 <=? b) && (b <=? 122) then [b; b - 32] else [b].
Definition gateOf (x0 l x1 : Z) : Z := u16 (u16 (u16 x0 * u16 l) + u16 x1).

Definition gateCodes (k : text) : list Z :=
  match k with
  | k0 :: k1 :: _ => x0 ← caseVariants k0; x1 ← caseVariants k1; [gateOf x0 (Z.of_nat (length k)) x1]
  | _ => []
  end.

Definition newSysinclCtx (set : list SysIncl) : option (SysinclCtx * list SysIncl) :=
  let ps := set ≫= pairs in
  let bits := list_to_set (omap key ps) in
  let cis := keyCI <$> filter (λ p, key p = None) ps in
  '(m, set) ← buildSysinclIndex set;
  Some (mkCtx bits (list_to_set cis) (list_to_set (cis ≫= gateCodes)) (foldr (λ k n, length k `max` n)%nat 0%nat cis) ∅ m, set).

(** [strings.ToLower]; [unicodeLower] is its part for texts that are not ASCII. *)
Context (unicodeLower : text → text).
Definition isAscii (s : text) : bool := forallb (λ b, b <? 128) s.
Definition ToLower (s : text) : text := if isAscii s then lower s else unicodeLower s.

Definition ciClaims (c : SysinclCtx) (raw : text) : SysinclCtx * bool :=
  if decide (ciMaxLen c < length raw)%nat then (c, false)
  else if match raw with r0 :: r1 :: _ => negb (bool_decide (gateOf r0 (Z.of_nat (length raw)) r1 ∈ ciGate c)) | _ => false end then (c, false)
  else
    let low := ToLower raw in
    if negb (bool_decide (low ∈ keysCI c)) then (c, false)
    else
      let m := merged c in
      (mkCtx (keyBits c) (keysCI c) (ciGate c) (ciMaxLen c) (ciMemo c)
         (mkIndex (byLower m) (buckets m) (<[raw := default 0%nat (byLower m !! low)]> (byID m)) (outScratch m)), true).

Definition mightClaim (c : SysinclCtx) (target : text) : SysinclCtx * bool :=
  if bool_decide (target ∈ keyBits c) then (c, true)
  else if bool_decide (keysCI c = ∅) then (c, false)
  else
    match ciMemo c !! target with
    | Some b => (c, b)
    | None =>
        let '(c, yes) := ciClaims c target in
        (mkCtx (keyBits c) (keysCI c) (ciGate c) (ciMaxLen c) (<[target := yes]> (ciMemo c)) (merged c), yes)
    end.

(** The files, whether there may be several, and whether the name is claimed. *)
Definition ctxLookup (c : SysinclCtx) (path target : text) : option (SysinclCtx * (list text * bool * bool)) :=
  let '(c, might) := mightClaim c target in
  if negb might then Some (c, ([], false, false))
  else
    '(m, (ps, claimed, multi)) ← indexLookup (merged c) path target;
    Some (mkCtx (keyBits c) (keysCI c) (ciGate c) (ciMaxLen c) (ciMemo c) m, (ps, multi || (2 <=? length ps)%nat, claimed)).

(** ** What the records say *)

Definition claims (t : text) (p : SysinclPair) : Prop := match key p with Some k => k = t | None => keyCI p ≠ [] ∧ keyCI p = lower t end.
#[local] Instance claims_dec t p : Decision (claims t p).
Proof. unfold claims. destruct (key p); apply _. Defined.

Definition passes (rec : SysIncl) (path : text) : bool := match Filter rec with None => true | Some f => filterMatch f path end.

(** The files of the records whose filter passes, in order, and whether one of them has the name. *)
Definition recPaths (path t : text) (rec : SysIncl) : list text := if passes rec path then filter (claims t) (pairs rec) ≫= paths else [].
Definition recClaims (path t : text) (rec : SysIncl) : bool := passes rec path && existsb (λ p, bool_decide (claims t p)) (pairs rec).
Definition answer (set : list SysIncl) (path t : text) : list text * bool * bool :=
  let ps := set ≫= recPaths path t in (ps, (2 <=? length ps)%nat, existsb (recClaims path t) set).

(** The pairs of a record are of one kind: all fold case, or none. *)
Definition okPair (fold : bool) (p : SysinclPair) : Prop :=
  cleared p = true ∨ if fold then key p = None ∧ keyCI p ≠ [] ∧ lower (keyCI p) = keyCI p else ∃ x, key p = Some x ∧ x ≠ [].
Definition okRec (rec : SysIncl) : Prop := ∃ fold, Forall (okPair fold) (pairs rec).

Definition nameFor (fold : bool) (t : text) : text := if fold then lower t else t.

Lemma lower_nil t : lower t = [] ↔ t = [].
Proof. by destruct t. Qed.

Lemma lower_lower t : lower (lower t) = lower t.
Proof. unfold lower. rewrite <-list_fmap_compose. apply list_fmap_ext. intros _ x _. cbn. unfold lowerByte. destruct ((65 <=? x) && (x <=? 90)) eqn:E; [|by rewrite E]. replace ((65 <=? x + 32) && (x + 32 <=? 90)) with false by lia. done. Qed.

Lemma cleared_spec p : cleared p = true ↔ key p = None ∧ keyCI p = [].
Proof. unfold cleared. by rewrite andb_true_iff, !bool_decide_eq_true. Qed.

Lemma pid_nil fold p : okPair fold p → pid p = [] ↔ cleared p = true.
Proof.
  rewrite cleared_spec. unfold pid. intros [[H1 H2]%cleared_spec|Hk]; [rewrite H1, H2; done|]. destruct fold; [destruct Hk as (-> & ? & _)|destruct Hk as (x & -> & ?)]; naive_solver.
Qed.

Lemma claims_pid fold t p : okPair fold p → t ≠ [] → claims t p ↔ pid p = nameFor fold t.
Proof.
  intros Hok Ht. pose proof (pid_nil _ _ Hok) as Hp. assert (Hn : nameFor fold t ≠ []) by (destruct fold; cbn; rewrite ?lower_nil; done). unfold claims. destruct Hok as [Hc|Hk].
  - apply Hp in Hc as Hc'. apply cleared_spec in Hc as [-> ->]. split; [tauto|]. congruence.
  - unfold pid. destruct fold; [destruct Hk as (-> & ? & _)|destruct Hk as (x & -> & ?)]; cbn; naive_solver.
Qed.

(** ** Equal names are merged *)

Definition withName (x : text) (ps : list SysinclPair) : list SysinclPair := filter (λ p, pid p = x) ps.

Lemma withName_app x ps qs : withName x (ps ++ qs) = withName x ps ++ withName x qs.
Proof. apply filter_app. Qed.
Lemma withName_cons x p ps : withName x (p :: ps) = (if decide (pid p = x) then [p] else []) ++ withName x ps.
Proof. unfold withName. rewrite filter_cons. by case_decide. Qed.
Lemma withName_nil x ps : x ∉ pid <$> ps → withName x ps = [].
Proof. induction ps as [|p ps IH]; [done|]. rewrite fmap_cons, not_elem_of_cons, withName_cons. intros [Hp Hx]. rewrite decide_False, IH by congruence. done. Qed.

(** The same files under each name. *)
Definition sameNames (ps qs : list SysinclPair) : Prop := ∀ x, x ≠ [] → withName x ps ≫= paths = withName x qs ≫= paths ∧ (withName x ps = [] ↔ withName x qs = []).

Lemma sameNames_trans ps qs rs : sameNames ps qs → sameNames qs rs → sameNames ps rs.
Proof. intros H1 H2 x Hx. destruct (H1 x Hx) as [-> ->]. by apply H2. Qed.

Lemma firstWith_app x A f B : x ∉ pid <$> A → pid f = x → firstWith x (A ++ f :: B) = Some (length A).
Proof.
  intros HA Hf. induction A as [|a A IH]; cbn; [by rewrite decide_True|]. rewrite fmap_cons, not_elem_of_cons in HA. rewrite decide_False, IH by naive_solver. done.
Qed.

Lemma first_name x ps : x ∈ pid <$> ps → ∃ A f B, ps = A ++ f :: B ∧ x ∉ pid <$> A ∧ pid f = x.
Proof.
  induction ps as [|p ps IH]; [by intros ?%elem_of_nil|]. rewrite fmap_cons, elem_of_cons. destruct (decide (pid p = x)) as [Hp|Hp].
  - intros _. exists [], p, ps. split_and!; [done|apply not_elem_of_nil|done].
  - intros [?|(A & f & B & -> & HA & Hf)%IH]; [congruence|]. exists (p :: A), f, B. split_and!; [done|rewrite fmap_cons, not_elem_of_cons; split; [congruence|done]|done].
Qed.

(** One merge. *)
Lemma merge_names A f B p C : pid p = pid f → pid f ∉ pid <$> B →
  sameNames (A ++ f :: B ++ p :: C) (A ++ mkPair (key f) (keyCI f) (paths f ++ paths p) :: B ++ mkPair None [] [] :: C).
Proof.
  intros Hp HB x Hx. rewrite !withName_app, !withName_cons, !withName_app, !withName_cons. rewrite (decide_False (P := pid (mkPair None [] []) = x)) by (cbn; congruence).
  change (pid (mkPair (key f) (keyCI f) (paths f ++ paths p))) with (pid f). rewrite Hp. cbn [app]. case_decide as Hf.
  - subst x. rewrite (withName_nil _ B HB). cbn [app]. rewrite !bind_app. cbn. rewrite <-app_assoc. split; [done|]. split; intros E; apply app_nil in E as [_ E]; done.
  - done.
Qed.

Lemma insert_at {T} n (A : list T) x y B : n = length A → <[n := y]> (A ++ x :: B) = A ++ y :: B.
Proof. intros ->. by rewrite insert_app_r_alt, Nat.sub_diag. Qed.

Definition names (ps : list SysinclPair) : list text := filter (λ x, x ≠ []) (pid <$> ps).
Lemma names_app ps qs : names (ps ++ qs) = names ps ++ names qs.
Proof. unfold names. by rewrite fmap_app, filter_app. Qed.
Lemma names_cons p ps : names (p :: ps) = (if decide (pid p = []) then [] else [pid p]) ++ names ps.
Proof. unfold names. rewrite fmap_cons, filter_cons. repeat case_decide; done || naive_solver. Qed.
Lemma names_elem x ps : x ∈ names ps ↔ x ≠ [] ∧ x ∈ pid <$> ps.
Proof. unfold names. by rewrite list_elem_of_filter. Qed.

Lemma dedupLoop_spec fold todo done seen : Forall (okPair fold) (done ++ todo) → (∀ x, x ≠ [] → x ∈ seen ↔ x ∈ pid <$> done) → NoDup (names done) →
  ∃ ps', dedupLoop (length todo) (length done) seen (done ++ todo) = Some ps' ∧ Forall (okPair fold) ps' ∧ sameNames (done ++ todo) ps'.
Proof.
  revert done seen. induction todo as [|p todo IH]; intros done seen Hok Hseen Hnd; cbn [length dedupLoop]; [eexists; by split_and!|].
  rewrite list_lookup_middle by done. cbn [mbind option_bind]. assert (Hp : okPair fold p) by (rewrite Forall_app, Forall_cons in Hok; tauto).
  assert (Hsnoc : ∀ d, S (length d) = length (d ++ [p])) by (intros d; rewrite length_app; cbn; lia). assert (Hassoc : done ++ p :: todo = (done ++ [p]) ++ todo) by (by rewrite <-app_assoc).
  destruct (cleared p) eqn:Ec.
  - rewrite Hassoc, Hsnoc. apply IH; [by rewrite <-Hassoc| |].
    + intros x Hx. rewrite fmap_app, elem_of_app, Hseen by done. cbn. rewrite list_elem_of_singleton. apply (pid_nil fold) in Ec; [|done]. naive_solver.
    + rewrite names_app, names_cons, decide_True by (by apply (pid_nil fold)). by rewrite !app_nil_r.
  - assert (Hpn : pid p ≠ []) by (intros E; apply (pid_nil fold) in E; [congruence|done]). destruct (decide (pid p ∈ seen)) as [Hin|Hin].
    + apply Hseen in Hin; [|done]. destruct (first_name _ _ Hin) as (A & f & B & -> & HA & Hf). rewrite <-app_assoc. cbn [app]. rewrite firstWith_app by done. cbn [mbind option_bind].
      rewrite list_lookup_middle by done. cbn [mbind option_bind]. rewrite (insert_at (length A)) by done. set (f' := mkPair (key f) _ _).
      replace (<[length (A ++ f :: B) := mkPair None [] []]> (A ++ f' :: B ++ p :: todo)) with ((A ++ f' :: B ++ [mkPair None [] []]) ++ todo).
      2: { change (A ++ f' :: B ++ p :: todo) with (A ++ (f' :: B) ++ p :: todo). rewrite (app_assoc A), (insert_at (length (A ++ f :: B)) (A ++ f' :: B)) by (rewrite !length_app; cbn; lia). rewrite <-!app_assoc. cbn. by rewrite <-app_assoc. }
      assert (HB : pid f ∉ pid <$> B).
      { rewrite names_app, names_cons, decide_False in Hnd by congruence. apply NoDup_app in Hnd as (_ & _ & Hnd). apply NoDup_cons in Hnd as [Hnd _]. intros Hin'. apply Hnd, names_elem. split; [congruence|done]. }
      assert (Hsame : sameNames (A ++ f :: B ++ p :: todo) ((A ++ f' :: B ++ [mkPair None [] []]) ++ todo)).
      { rewrite <-app_assoc. cbn [app]. rewrite <-app_assoc. by apply merge_names. }
      replace (S (length (A ++ f :: B))) with (length (A ++ f' :: B ++ [mkPair None [] []])) by (rewrite !length_app; cbn; rewrite length_app; cbn; lia).
      destruct (IH (A ++ f' :: B ++ [mkPair None [] []]) seen) as (ps' & -> & Hok' & Hs').
      * rewrite <-app_assoc in Hok. cbn [app] in Hok. rewrite <-app_assoc. cbn [app]. rewrite <-app_assoc. cbn [app]. rewrite !Forall_app, !Forall_cons, !Forall_app, !Forall_cons in Hok |- *.
        destruct Hok as (? & Hf1 & ? & ? & ?). split_and!; try done. by left.
      * intros x Hx. rewrite Hseen by done. rewrite !fmap_app, !fmap_cons, !fmap_app. cbn. change (pid f') with (pid f). rewrite !elem_of_app, !elem_of_cons, !elem_of_app, list_elem_of_singleton. change (pid (mkPair None [] [])) with (@nil Z). naive_solver.
      * rewrite !names_app, !names_cons, !names_app, names_cons in *. change (pid f') with (pid f). rewrite (decide_True (P := pid (mkPair None [] []) = [])), !app_nil_r by done. done.
      * exists ps'. split_and!; [done|done|by eapply sameNames_trans].
    + rewrite Hassoc, Hsnoc. apply IH; [by rewrite <-Hassoc| |].
      * intros x Hx. rewrite fmap_app, elem_of_app, elem_of_union, elem_of_singleton, Hseen by done. cbn. rewrite list_elem_of_singleton. naive_solver.
      * rewrite names_app, names_cons, decide_False, app_nil_r by done. apply NoDup_app. split_and!; [done| |apply NoDup_singleton].
        intros x [_ Hx]%names_elem ->%list_elem_of_singleton. apply Hin. by apply Hseen.
Qed.

Lemma dedup_spec fold ps : Forall (okPair fold) ps → ∃ ps', dedupPairs ps = Some ps' ∧ Forall (okPair fold) ps' ∧ sameNames ps ps'.
Proof. intros Hok. apply (dedupLoop_spec fold ps [] ∅ Hok); [set_solver|constructor]. Qed.

(** ** Buckets *)

Definition bucketAt (m : SysinclIndex) (l : text) : list SysinclContribution := match byLower m !! l with Some i => default [] (buckets m !! i) | None => [] end.

Record wfIndex (m : SysinclIndex) : Prop := {
  x_range : ∀ l i, byLower m !! l = Some i → (i < length (buckets m))%nat;
  x_inj : ∀ l l' i, byLower m !! l = Some i → byLower m !! l' = Some i → l = l';
  x_byID : ∀ x i, byID m !! x = Some i → byLower m !! lower x = Some i }.

Definition contribution (rec : SysIncl) (p : SysinclPair) : SysinclContribution := mkContrib (paths p) (Filter rec) (pid p) (bool_decide (key p = None)) (HasMultiTarget rec).

Lemma bucketFor_spec m k : wfIndex m → let '(m', i) := bucketFor m k in
  wfIndex m' ∧ byLower m' !! lower k = Some i ∧ (∀ l, bucketAt m' l = bucketAt m l) ∧ byID m' = byID m ∧ outScratch m' = outScratch m.
Proof.
  intros Hw. unfold bucketFor. destruct (byLower m !! lower k) as [i|] eqn:E; [done|]. destruct Hw as [Hr Hi Hb]. split; [split|]; cbn.
  - intros l i. rewrite length_app. cbn. intros [[_ <-]|[_ Hl%Hr]]%lookup_insert_Some; lia.
  - intros l l' i [[<- <-]|[_ H1]]%lookup_insert_Some [[<- H2]|[_ H2]]%lookup_insert_Some; try done; [apply Hr in H2; lia|apply Hr in H1; lia|by eapply Hi].
  - intros x i Hx%Hb. rewrite lookup_insert_ne; [done|]. congruence.
  - split; [by rewrite lookup_insert_eq|]. split; [|done]. intros l. unfold bucketAt. cbn. destruct (decide (l = lower k)) as [->|Hl].
    + rewrite lookup_insert_eq, E, list_lookup_middle by done. done.
    + rewrite lookup_insert_ne by done. destruct (byLower m !! l) as [i|] eqn:El; [|done]. by rewrite lookup_app_l by (by eapply Hr).
Qed.

Lemma contribute_spec rec m p : wfIndex m → ∃ m', contribute rec m p = Some m' ∧ wfIndex m' ∧
  (∀ l, bucketAt m' l = bucketAt m l ++ (if negb (cleared p) && bool_decide (lower (pid p) = l) then [contribution rec p] else [])) ∧
  (∀ x, is_Some (byID m' !! x) ↔ is_Some (byID m !! x) ∨ cleared p = false ∧ x = pid p) ∧ outScratch m' = outScratch m.
Proof.
  intros Hw. unfold contribute. destruct (cleared p) eqn:Ec; [exists m; split_and!; try done; [intros l; by rewrite app_nil_r|naive_solver]|].
  pose proof (bucketFor_spec m (pid p) Hw) as H. destruct (bucketFor m (pid p)) as [m1 i]. destruct H as ([Hr Hi Hb] & Hl & Hat & Hid & Hout).
  destruct (lookup_lt_is_Some_2 (buckets m1) i) as [b Eb]; [by eapply Hr|]. rewrite Eb. cbn [mbind option_bind]. eexists. split; [done|]. split; [split; cbn|split_and!; cbn].
  - intros l j. rewrite length_insert. apply Hr.
  - done.
  - intros x j [[<- <-]|[_ Hx]]%lookup_insert_Some; [done|by apply Hb].
  - intros l. rewrite <-Hat. unfold bucketAt. cbn [byLower buckets negb andb]. destruct (decide (lower (pid p) = l)) as [El|El]; [rewrite (bool_decide_true (lower _ = l)) by done|rewrite (bool_decide_false (lower _ = l)) by done].
    + subst l. rewrite Hl, list_lookup_insert_eq by (by eapply lookup_lt_Some). by rewrite Eb.
    + destruct (byLower m1 !! l) as [j|] eqn:Ej; [|done]. rewrite list_lookup_insert_ne, app_nil_r; [done|]. intros ->. by apply El, (Hi _ _ j).
  - intros x. rewrite Hid, lookup_insert_is_Some. destruct (decide (x = pid p)); naive_solver.
  - done.
Qed.

(** The entries of pairs in the bucket of a lower-case name. *)
Definition entries (rec : SysIncl) (l : text) (ps : list SysinclPair) : list SysinclContribution := contribution rec <$> filter (λ p, cleared p = false ∧ lower (pid p) = l) ps.

Lemma contributeAll_spec rec ps m : wfIndex m → ∃ m', contributeAll rec m ps = Some m' ∧ wfIndex m' ∧
  (∀ l, bucketAt m' l = bucketAt m l ++ entries rec l ps) ∧ (∀ x, is_Some (byID m' !! x) ↔ is_Some (byID m !! x) ∨ ∃ p, p ∈ ps ∧ cleared p = false ∧ x = pid p) ∧ outScratch m' = outScratch m.
Proof.
  revert m. induction ps as [|p ps IH]; intros m Hw; cbn [contributeAll].
  { exists m. split_and!; try done; [intros l; by rewrite app_nil_r|]. intros x. setoid_rewrite elem_of_nil. naive_solver. }
  destruct (contribute_spec rec m p Hw) as (m1 & -> & Hw1 & Hb1 & Hi1 & Ho1). cbn [mbind option_bind]. destruct (IH m1 Hw1) as (m2 & -> & Hw2 & Hb2 & Hi2 & Ho2). exists m2. split_and!; try done; [| |congruence].
  - intros l. rewrite Hb2, Hb1, <-app_assoc. f_equal. unfold entries. rewrite filter_cons. destruct (cleared p); cbn [negb andb]; [rewrite decide_False by naive_solver; done|]. case_bool_decide; [rewrite decide_True by done|rewrite decide_False by naive_solver]; done.
  - intros x. rewrite Hi2, Hi1. setoid_rewrite elem_of_cons. naive_solver.
Qed.

Definition withPairs (rec : SysIncl) (ps : list SysinclPair) : SysIncl := mkSys (Filter rec) (HasMultiTarget rec) (CaseInsensitive rec) ps.

(** The records after the index was built: equal names merged. *)
Definition mergedRec (rec rec' : SysIncl) : Prop :=
  ∃ fold, Forall (okPair fold) (pairs rec) ∧ Forall (okPair fold) (pairs rec') ∧ rec' = withPairs rec (pairs rec') ∧ sameNames (pairs rec) (pairs rec').

Lemma buildLoop_spec set m : Forall okRec set → wfIndex m → ∃ m' set', buildLoop m set = Some (m', set') ∧ wfIndex m' ∧ Forall2 mergedRec set set' ∧
  (∀ l, bucketAt m' l = bucketAt m l ++ (set' ≫= λ rec, entries rec l (pairs rec))) ∧
  (∀ x, is_Some (byID m' !! x) ↔ is_Some (byID m !! x) ∨ ∃ rec p, rec ∈ set' ∧ p ∈ pairs rec ∧ cleared p = false ∧ x = pid p) ∧ outScratch m' = outScratch m.
Proof.
  revert m. induction set as [|rec set IH]; intros m Hok Hw; cbn [buildLoop].
  { exists m, []. split_and!; try done; [intros l; cbn; by rewrite app_nil_r|]. intros x. setoid_rewrite elem_of_nil. naive_solver. }
  apply Forall_cons in Hok as [[fold Hrec] Hok]. destruct (dedup_spec fold (pairs rec) Hrec) as (ps & -> & Hps & Hsame). cbn [mbind option_bind].
  destruct (contributeAll_spec rec ps m Hw) as (m1 & -> & Hw1 & Hb1 & Hi1 & Ho1). cbn [mbind option_bind]. destruct (IH m1 Hok Hw1) as (m2 & set2 & -> & Hw2 & Hm2 & Hb2 & Hi2 & Ho2). cbn [mbind option_bind].
  exists m2, (withPairs rec ps :: set2). split_and!; [done|done|constructor; [by exists fold|done]| | |congruence].
  - intros l. rewrite Hb2, Hb1, <-app_assoc. done.
  - intros x. rewrite Hi2, Hi1. setoid_rewrite elem_of_cons. split.
    + intros [[?|(p & ? & ? & ?)]|(rec' & p & ? & ?)]; [by left|right; exists (withPairs rec ps), p; by auto|right; exists rec', p; naive_solver].
    + intros [?|(rec' & p & [->|?] & ? & ? & ?)]; [by auto|left; right; eauto|right; eauto 10].
Qed.

(** ** Going through a bucket *)

(** The entries that count. *)
Definition counts (path target : text) (c : SysinclContribution) : Prop :=
  (ci c = true ∨ rawKeyID c = target) ∧ match c_filter c with Some f => filterMatch f path = true | None => True end.
#[local] Instance counts_dec path target c : Decision (counts path target c).
Proof. unfold counts. destruct (c_filter c); apply _. Defined.

(** What was found after the entries [cs]. *)
Record wentThrough (s : lookupState) (cs : list SysinclContribution) : Prop := {
  g_found : found s = true ↔ cs ≠ [];
  g_start : cs = [] → out s = None;
  g_none : out s = None → single s = cs ≫= c_paths ∧ (singleMulti s = true → (2 <= length (single s))%nat);
  g_some : ∀ o, out s = Some o → o = cs ≫= c_paths ∧ (hasMulti s = true → (2 <= length o)%nat) }.

Lemma appendNil_default o ps : default [] (appendNil o ps) = default [] o ++ ps.
Proof. by destruct o, ps. Qed.

Lemma lookupStep_spec scratch path target s c cs : wentThrough s cs → wentThrough (lookupStep scratch path target s c) (cs ++ (if decide (counts path target c) then [c] else [])).
Proof.
  intros Hs. unfold lookupStep. set (a := negb (ci c) && _). set (b := match c_filter c with Some f => negb (filterMatch f path) | None => false end).
  assert (Hskip : counts path target c ↔ a = false ∧ b = false).
  { unfold counts, a, b. destruct (ci c); cbn; [|case_bool_decide; cbn]; (destruct (c_filter c) as [f|]; [destruct (filterMatch f path)|]); cbn; naive_solver. }
  destruct (decide (counts path target c)) as [Hc|Hc]; [|rewrite app_nil_r; by destruct a, b; [..|exfalso; apply Hc, Hskip]]. apply Hskip in Hc as [-> ->].
  set (cMulti := multi c && _). assert (Hm : cMulti = true → (2 <= length (c_paths c))%nat) by (unfold cMulti; rewrite andb_true_iff, Nat.leb_le; tauto).
  destruct Hs as [Hf Hst Hn Hsm]. destruct (found s) eqn:Ef; cbn [negb].
  2: { assert (cs = []) as -> by (destruct cs; [done|]; discriminate (proj2 Hf ltac:(done))). split; cbn; [done|done| |]; rewrite Hst by done; [|done]. intros _. by rewrite app_nil_r. }
  assert (Hcs : cs ++ [c] ≠ []) by (by destruct cs). destruct (out s) as [o|] eqn:Eo.
  - destruct (Hsm o eq_refl) as [-> Hmu]. split; cbn; [done|done|by destruct (cs ≫= c_paths), (c_paths c)|]. intros o Ho.
    assert (o = (cs ++ [c]) ≫= c_paths) as -> by (rewrite bind_app; cbn; rewrite app_nil_r; by destruct (cs ≫= c_paths), (c_paths c); injection Ho as <-).
    split; [done|]. rewrite bind_app. cbn. rewrite app_nil_r, length_app. destruct cMulti; [specialize (Hm eq_refl)|]; intros H; [lia|specialize (Hmu H); lia].
  - destruct (Hn eq_refl) as [Hsi Hmu]. set (o := appendNil (appendNil _ _) _). assert (Hd : default [] o = (cs ++ [c]) ≫= c_paths).
    { unfold o. rewrite !appendNil_default, bind_app, Hsi. cbn. rewrite app_nil_r. by destruct scratch. }
    split; cbn; [done|done| |].
    + intros Ho. rewrite Ho in Hd. cbn in Hd. rewrite <-Hd. rewrite bind_app in Hd. cbn in Hd. symmetry in Hd. apply app_nil in Hd as [Hd _]. rewrite <-Hsi in Hd. by rewrite Hd in *.
    + intros o' Ho. rewrite Ho in Hd. cbn in Hd. split; [done|]. rewrite Hd, bind_app. cbn. rewrite app_nil_r, length_app, <-Hsi. destruct cMulti; [specialize (Hm eq_refl)|]; intros H; [lia|specialize (Hmu H); lia].
Qed.

Lemma lookup_bucket scratch path target cs : wentThrough (foldl (lookupStep scratch path target) (mkLookup None false false [] false) cs) (filter (counts path target) cs).
Proof.
  induction cs as [|c cs IH] using rev_ind; [split; cbn; try done; naive_solver|]. rewrite foldl_snoc, filter_app, filter_cons, filter_nil. eapply lookupStep_spec in IH. destruct (decide (counts path target c)) as [Hc|Hc]; [rewrite decide_True in IH by done|rewrite decide_False in IH by done]; exact IH.
Qed.

(** ** Questions *)

Lemma entries_count fold rec path t : Forall (okPair fold) (pairs rec) → t ≠ [] →
  filter (counts path t) (entries rec (lower t) (pairs rec)) = if passes rec path then contribution rec <$> filter (claims t) (pairs rec) else [].
Proof.
  intros Hok Ht. unfold entries. induction Hok as [|p ps Hp _ IH]; [by destruct (passes rec path)|]. rewrite !filter_cons. pose proof (claims_pid fold t p Hp Ht) as Hcl.
  assert (Hcount : cleared p = false → counts path t (contribution rec p) ↔ passes rec path = true ∧ (key p = None ∨ pid p = t)).
  { intros _. unfold counts, passes. cbn. rewrite bool_decide_eq_true. destruct (Filter rec); naive_solver. }
  assert (Hsame : cleared p = false ∧ lower (pid p) = lower t ∧ (key p = None ∨ pid p = t) ↔ claims t p).
  { rewrite Hcl. pose proof (pid_nil fold p Hp) as Hnil. assert (Hn : nameFor fold t ≠ []) by (destruct fold; cbn; rewrite ?lower_nil; done). destruct Hp as [Hc|Hk]; [split; [intros [? _]; congruence|intros E; apply Hnil in Hc; congruence]|].
    destruct fold; [destruct Hk as (Hk & Hne & Hlow)|destruct Hk as (x & Hk & Hne)]; unfold pid, cleared in *; rewrite Hk in *; cbn in *.
    - rewrite bool_decide_false by done. rewrite Hlow. clear. tauto.
    - split; [intros (_ & _ & [?|?]); [done|done]|intros ->; auto]. }
  destruct (decide (cleared p = false ∧ lower (pid p) = lower t)) as [[Hc Hl]|Hno].
  - rewrite fmap_cons, filter_cons, IH. destruct (passes rec path).
    + destruct (decide (claims t p)) as [Hct|Hct].
      * rewrite decide_True; [done|]. apply Hcount; [done|]. split; [done|]. by apply Hsame in Hct as (_ & _ & ?).
      * rewrite decide_False; [done|]. intros Hno. apply Hcount in Hno as [_ ?]; [|done]. by apply Hct, Hsame.
    + rewrite decide_False; [done|]. intros Hno. by apply Hcount in Hno as [? _].
  - rewrite IH. destruct (passes rec path); [|done]. rewrite decide_False; [done|]. intros (? & ? & _)%Hsame. by apply Hno.
Qed.

Definition answerOf (ps : list text) (claimed : bool) : list text * bool * bool := (ps, (2 <=? length ps)%nat, claimed).

Lemma bind_contribution rec (ps : list SysinclPair) : (contribution rec <$> ps) ≫= c_paths = ps ≫= paths.
Proof. induction ps as [|p ps IH]; [done|]. cbn. by rewrite IH. Qed.

Lemma bucket_answer set path t : Forall okRec set → t ≠ [] → let cs := filter (counts path t) (set ≫= λ rec, entries rec (lower t) (pairs rec)) in
  cs ≫= c_paths = set ≫= recPaths path t ∧ (cs ≠ [] ↔ existsb (recClaims path t) set = true).
Proof.
  intros Hok Ht. induction Hok as [|rec set [fold Hrec] _ [IH1 IH2]]; [done|]. cbn. rewrite filter_app, (entries_count fold), bind_app by done. rewrite IH1. unfold recPaths at 2, recClaims at 1. destruct (passes rec path); cbn; [|done].
  rewrite bind_contribution. split; [done|]. rewrite orb_true_iff, <-IH2, existsb_exists. destruct (filter (claims t) (pairs rec)) as [|p ps] eqn:E; cbn.
  - split; [by right|]. intros [(p & Hin%list_elem_of_In & Hp%bool_decide_eq_true)|?]; [|done]. exfalso. apply (not_elem_of_nil p). rewrite <-E. by apply list_elem_of_filter.
  - split; [|done]. intros _. left. assert (Hin : p ∈ filter (claims t) (pairs rec)) by (rewrite E; by left). apply list_elem_of_filter in Hin as [Hp Hin]. exists p. split; [by apply list_elem_of_In|by apply bool_decide_eq_true].
Qed.

Lemma indexLookup_spec m set path t : Forall okRec set → t ≠ [] → wfIndex m → (∀ l, bucketAt m l = set ≫= λ rec, entries rec l (pairs rec)) → is_Some (byID m !! t) →
  ∃ o mu, indexLookup m path t = Some (mkIndex (byLower m) (buckets m) (byID m) o, ((answer set path t).1.1, (answer set path t).2, mu)) ∧ (mu = true → (2 <= length (answer set path t).1.1)%nat).
Proof.
  intros Hok Ht [Hr _ Hid] Hb [i Hi]. unfold indexLookup. rewrite Hi. cbn [mbind option_bind]. apply Hid in Hi as Hl. destruct (lookup_lt_is_Some_2 (buckets m) i) as [b Eb]; [by eapply Hr|]. rewrite Eb. cbn [mbind option_bind].
  specialize (Hb (lower t)). unfold bucketAt in Hb. rewrite Hl, Eb in Hb. cbn in Hb. rewrite Hb. pose proof (lookup_bucket (outScratch m) path t (set ≫= λ rec, entries rec (lower t) (pairs rec))) as [Hf _ Hn Hs].
  destruct (bucket_answer set path t Hok Ht) as [Hp Hc]. set (s := foldl _ _ _) in *. assert (Hfound : found s = (answer set path t).2) by (cbn; apply eq_bool_prop_intro; rewrite !Is_true_true; tauto). rewrite Hfound.
  destruct (out s) as [o|] eqn:Eo.
  - destruct (Hs o eq_refl) as [-> Hm]. rewrite Hp in Hm |- *. eexists _, _. split; [done|]. exact Hm.
  - destruct (Hn eq_refl) as [Hsi Hm]. rewrite Hsi, Hp. rewrite Hsi, Hp in Hm. exists (outScratch m), (singleMulti s). split; [by destruct m|]. exact Hm.
Qed.

(** Merging equal names changes no answer. *)
Lemma merged_answer path t rec rec' : mergedRec rec rec' → t ≠ [] → recPaths path t rec' = recPaths path t rec ∧ recClaims path t rec' = recClaims path t rec.
Proof.
  intros (fold & Hok & Hok' & -> & Hsame) Ht. assert (Hn : nameFor fold t ≠ []) by (destruct fold; cbn; rewrite ?lower_nil; done). destruct (Hsame _ Hn) as [Hp He].
  assert (Hview : ∀ ps, Forall (okPair fold) ps → filter (claims t) ps = withName (nameFor fold t) ps).
  { intros ps Hps. apply filter_ext_in. intros p Hin. apply claims_pid; [|done]. rewrite Forall_forall in Hps. by apply Hps. }
  assert (Hex : ∀ ps, Forall (okPair fold) ps → existsb (λ p, bool_decide (claims t p)) ps = true ↔ withName (nameFor fold t) ps ≠ []).
  { intros ps Hps. rewrite <-Hview, existsb_exists by done. setoid_rewrite <-list_elem_of_In. setoid_rewrite bool_decide_eq_true. split.
    - intros (p & Hin & Hc) E. apply (not_elem_of_nil p). rewrite <-E. by apply list_elem_of_filter.
    - intros Hne. destruct (filter (claims t) ps) as [|p l] eqn:E; [done|]. exists p. assert (H : p ∈ filter (claims t) ps) by (rewrite E; by left). by apply list_elem_of_filter in H as [? ?]. }
  cbn in Hok'. unfold recPaths, recClaims, passes, withPairs in *. cbn [Filter pairs] in *. rewrite !Hview, Hp by done. split; [done|]. f_equal. apply eq_bool_prop_intro. rewrite !Is_true_true, !Hex by done. tauto.
Qed.

Lemma merged_answers set set' path t : Forall2 mergedRec set set' → t ≠ [] → answer set' path t = answer set path t.
Proof.
  intros Hm Ht. assert (H : set' ≫= recPaths path t = set ≫= recPaths path t ∧ existsb (recClaims path t) set' = existsb (recClaims path t) set).
  { induction Hm as [|rec rec' set set' Hr _ [IH1 IH2]]; [done|]. cbn. destruct (merged_answer path t _ _ Hr Ht) as [-> ->]. by rewrite IH1, IH2. }
  destruct H as [H1 H2]. unfold answer. by rewrite H1, H2.
Qed.

(** A pair of the records. *)
Definition has (set : list SysIncl) (P : SysinclPair → Prop) : Prop := ∃ rec p, rec ∈ set ∧ p ∈ pairs rec ∧ P p.

Lemma has_elem set P : has set P ↔ ∃ p, p ∈ (set ≫= pairs) ∧ P p.
Proof. unfold has. setoid_rewrite list_elem_of_bind. naive_solver. Qed.

Lemma merged_has set set' x : Forall2 mergedRec set set' → x ≠ [] → has set (λ p, pid p = x) → has set' (λ p, pid p = x).
Proof.
  intros Hm Hx (rec & p & Hrec & Hp & Hpid). apply list_elem_of_lookup_1 in Hrec as [i Hi]. destruct (Forall2_lookup_l _ _ _ _ _ Hm Hi) as (rec' & Hi' & fold & _ & _ & _ & Hsame). destruct (Hsame x Hx) as [_ He].
  assert (Hne : withName x (pairs rec') ≠ []). { intros E. apply He in E. apply (not_elem_of_nil p). rewrite <-E. by apply list_elem_of_filter. }
  destruct (withName x (pairs rec')) as [|p' l] eqn:E; [done|]. assert (H : p' ∈ withName x (pairs rec')) by (rewrite E; by left). apply list_elem_of_filter in H as [? ?].
  exists rec', p'. split_and!; [by eapply list_elem_of_lookup_2|done|done].
Qed.

Record ctxStatic (c : SysinclCtx) (set set' : list SysIncl) : Prop := {
  t_ok : Forall okRec set; t_ok' : Forall okRec set'; t_merged : Forall2 mergedRec set set';
  t_bits : ∀ t, t ∈ keyBits c ↔ has set (λ p, key p = Some t);
  t_cis : ∀ x, x ∈ keysCI c ↔ has set (λ p, key p = None ∧ keyCI p = x);
  t_gate : ∀ x g, x ∈ keysCI c → g ∈ gateCodes x → g ∈ ciGate c;
  t_len : ∀ x, x ∈ keysCI c → (length x <= ciMaxLen c)%nat }.

Record ctxInv (c : SysinclCtx) (set set' : list SysIncl) : Prop := {
  v_static : ctxStatic c set set';
  v_index : wfIndex (merged c);
  v_buckets : ∀ l, bucketAt (merged c) l = set' ≫= λ rec, entries rec l (pairs rec);
  v_ids : ∀ x, x ≠ [] → has set' (λ p, pid p = x) → is_Some (byID (merged c) !! x);
  v_memo : ∀ t b, t ≠ [] → ciMemo c !! t = Some b → isAscii t = true → (b = true ↔ lower t ∈ keysCI c) ∧ (b = true → is_Some (byID (merged c) !! t)) }.

Lemma ok_elem set rec p : Forall okRec set → rec ∈ set → p ∈ pairs rec → ∃ fold, okPair fold p.
Proof. intros Hok Hr Hp. rewrite Forall_forall in Hok. destruct (Hok rec Hr) as [fold Hf]. rewrite Forall_forall in Hf. eauto. Qed.

Lemma claimed_names c set set' t : ctxStatic c set set' → t ≠ [] → has set (claims t) ↔ t ∈ keyBits c ∨ lower t ∈ keysCI c.
Proof.
  intros [Hok _ _ Hb Hc _ _] Ht. rewrite Hb, Hc. split.
  - intros (rec & p & Hr & Hp & Hcl). unfold claims in Hcl. destruct (key p) eqn:Ek; [left; exists rec, p; by subst|]. right. exists rec, p. destruct Hcl as [_ ?]. by split_and!.
  - intros [(rec & p & Hr & Hp & Hk)|(rec & p & Hr & Hp & Hk & Hci)]; exists rec, p; (split_and!; [done..|]); unfold claims; rewrite Hk; [done|]. split; [|done]. rewrite Hci, lower_nil. done.
Qed.

Lemma gate_open c set set' t : ctxStatic c set set' → lower t ∈ keysCI c →
  match t with r0 :: r1 :: _ => negb (bool_decide (gateOf r0 (Z.of_nat (length t)) r1 ∈ ciGate c)) | _ => false end = false.
Proof.
  intros [_ _ _ _ _ Hg _] Hin. destruct t as [|r0 [|r1 t]]; [done..|]. rewrite bool_decide_true; [done|]. apply (Hg (lower (r0 :: r1 :: t))); [done|]. cbn [lower fmap list_fmap gateCodes].
  assert (Hv : ∀ r, r ∈ caseVariants (lowerByte r)).
  { intros r. unfold caseVariants, lowerByte. destruct ((65 <=? r) && (r <=? 90)) eqn:E.
    - replace ((97 <=? r + 32) && (r + 32 <=? 122)) with true by lia. replace (r + 32 - 32) with r by lia. right. by left.
    - destruct ((97 <=? r) && (r <=? 122)); by left. }
  apply list_elem_of_bind. exists r0. split; [|apply Hv]. apply list_elem_of_bind. exists r1. split; [|apply Hv]. apply list_elem_of_singleton. f_equal. cbn. by rewrite length_fmap.
Qed.

Lemma ciClaims_spec c set set' t : ctxInv c set set' → t ≠ [] → isAscii t = true → let '(c', yes) := ciClaims c t in
  ctxInv c' set set' ∧ (yes = true ↔ lower t ∈ keysCI c) ∧ (yes = true → is_Some (byID (merged c') !! t)) ∧ keysCI c' = keysCI c ∧ ciMemo c' = ciMemo c.
Proof.
  intros Hinv Ht Ha. pose proof Hinv as [Hs Hw Hb Hids Hmemo]. unfold ciClaims. destruct (decide (lower t ∈ keysCI c)) as [Hin|Hin].
  - pose proof (t_len _ _ _ Hs _ Hin) as Hlen. unfold lower in Hlen. rewrite length_fmap in Hlen. rewrite decide_False by lia. rewrite (gate_open c set set') by done. unfold ToLower. rewrite Ha, bool_decide_true by done. cbn [negb].
    assert (Hlow : is_Some (byID (merged c) !! lower t)).
    { apply Hids; [by rewrite lower_nil|]. eapply merged_has; [apply Hs|by rewrite lower_nil|]. apply (t_cis _ _ _ Hs) in Hin as (rec & p & ? & ? & Hk & Hci). exists rec, p. split_and!; try done. unfold pid. by rewrite Hk. }
    destruct Hlow as [i Hi]. apply (x_byID _ Hw) in Hi. rewrite lower_lower in Hi. rewrite Hi. cbn [default]. split; [|split_and!; try done; cbn; intros _; rewrite lookup_insert_eq; by eexists].
    destruct Hw as [Hr Hj Hid]. split; cbn; [destruct Hs; by split|split; cbn; [done|done|]|done| |].
    + intros x j [[<- <-]|[_ Hx]]%lookup_insert_Some; [done|by apply Hid].
    + intros x Hx Hh. apply lookup_insert_is_Some'. right. by apply Hids.
    + intros t' b Ht' Hm Ha'. destruct (Hmemo t' b Ht' Hm Ha') as [? Hsome]. split; [done|]. intros Hbt. apply lookup_insert_is_Some'. right. by apply Hsome.
  - assert (Hno : ∀ c', c' = c → ctxInv c' set set' ∧ (false = true ↔ lower t ∈ keysCI c) ∧ (false = true → is_Some (byID (merged c') !! t)) ∧ keysCI c' = keysCI c ∧ ciMemo c' = ciMemo c) by (intros c' ->; split_and!; try done; tauto).
    case_decide; [by apply Hno|]. destruct (match t with r0 :: r1 :: _ => _ | _ => _ end); [by apply Hno|]. unfold ToLower. rewrite Ha, bool_decide_false by done. by apply Hno.
Qed.

Lemma mightClaim_spec c set set' t : ctxInv c set set' → t ≠ [] → isAscii t = true → let '(c', yes) := mightClaim c t in
  ctxInv c' set set' ∧ (yes = true ↔ has set (claims t)) ∧ (yes = true → is_Some (byID (merged c') !! t)).
Proof.
  intros Hinv Ht Ha. pose proof Hinv as [Hs Hw Hb Hids Hmemo]. pose proof (claimed_names c set set' t Hs Ht) as Hcl. unfold mightClaim. case_bool_decide as Hbit.
  { split_and!; [done|tauto|]. intros _. apply Hids; [done|]. eapply merged_has; [apply Hs|done|]. apply (t_bits _ _ _ Hs) in Hbit as (rec & p & ? & ? & Hk). exists rec, p. split_and!; try done. unfold pid. by rewrite Hk. }
  case_bool_decide as Hnone. { assert (lower t ∉ keysCI c) by (rewrite Hnone; apply not_elem_of_empty). split_and!; [done| |done]. split; [done|]. tauto. }
  destruct (ciMemo c !! t) as [b|] eqn:Em.
  { destruct (Hmemo t b Ht Em Ha) as [Hb1 Hb2]. split_and!; [done|tauto|done]. }
  pose proof (ciClaims_spec c set set' t Hinv Ht Ha) as H. destruct (ciClaims c t) as [c' yes]. destruct H as (Hinv' & Hyes & Hsome & Hk & Hm). split_and!; [|tauto|done].
  destruct Hinv' as [Hs' Hw' Hb' Hids' Hmemo']. split; cbn; [destruct Hs'; by split|done..|]. intros t' b' Ht' [[<- <-]|[_ Hl]]%lookup_insert_Some Ha'; [split; [by rewrite Hk|done]|by apply Hmemo'].
Qed.

Lemma ctxLookup_spec c set set' path t : ctxInv c set set' → t ≠ [] → isAscii t = true → ∃ c', ctxLookup c path t = Some (c', answer set path t) ∧ ctxInv c' set set'.
Proof.
  intros Hinv Ht Ha. unfold ctxLookup. pose proof (mightClaim_spec c set set' t Hinv Ht Ha) as H. destruct (mightClaim c t) as [c' yes]. destruct H as (Hinv' & Hyes & Hsome). destruct yes; cbn [negb].
  - pose proof Hinv' as [Hs' Hw' Hb' Hids' Hmemo']. destruct (indexLookup_spec (merged c') set' path t (t_ok' _ _ _ Hs') Ht Hw' Hb' (Hsome eq_refl)) as (o & mu & -> & Hmu). cbn [mbind option_bind].
    rewrite (merged_answers set set' path t (t_merged _ _ _ Hs') Ht) in *. set (a := answer set path t) in *.
    assert (Hans : (a.1.1, mu || (2 <=? length a.1.1)%nat, a.2) = a). { unfold a, answer in *. cbn [fst snd] in *. destruct mu; [|done]. by rewrite (proj2 (Nat.leb_le _ _) (Hmu eq_refl)). }
    rewrite Hans. eexists. split; [done|]. split; cbn; [destruct Hs'; by split|destruct Hw'; by split|done..].
  - exists c'. split; [|done]. f_equal. f_equal. assert (Hno : ∀ rec p, rec ∈ set → p ∈ pairs rec → ¬ claims t p) by (intros rec p ? ? ?; discriminate (proj2 Hyes ltac:(by exists rec, p))). clear -Hno.
    assert (H : set ≫= recPaths path t = [] ∧ existsb (recClaims path t) set = false).
    { induction set as [|rec set IH]; [done|]. destruct IH as [IH1 IH2]; [intros r p Hr; apply Hno; by right|]. cbn. rewrite IH1, IH2, app_nil_r, orb_false_r. unfold recPaths, recClaims. destruct (passes rec path); [|done]. cbn.
      assert (Hrec : ∀ p, p ∈ pairs rec → ¬ claims t p) by (intros p; apply Hno; by left). clear -Hrec. induction (pairs rec) as [|p ps IH]; [done|]. destruct IH as [IH1 IH2]; [intros q Hq; apply Hrec; by right|].
      rewrite filter_cons, decide_False by (apply Hrec; by left). cbn. rewrite (bool_decide_false (claims t p)) by (apply Hrec; by left). done. }
    destruct H as [H1 H2]. unfold answer. by rewrite H1, H2.
Qed.

Lemma newSysinclCtx_spec set : Forall okRec set → ∃ c set', newSysinclCtx set = Some (c, set') ∧ ctxInv c set set'.
Proof.
  intros Hok. unfold newSysinclCtx, buildSysinclIndex. destruct (buildLoop_spec set (mkIndex ∅ [] ∅ None) Hok) as (m & set' & -> & Hw & Hm & Hb & Hi & _).
  { split; cbn; intros *; rewrite lookup_empty; done. }
  cbn [mbind option_bind]. eexists _, set'. split; [done|].
  assert (Hok' : Forall okRec set'). { apply Forall_forall. intros rec' (i & Hi')%list_elem_of_lookup_1. destruct (Forall2_lookup_r _ _ _ _ _ Hm Hi') as (rec & _ & fold & _ & Hf & _). by exists fold. }
  split; cbn; [split; cbn; try done| |intros l; by rewrite Hb| |].
  - intros t. rewrite elem_of_list_to_set, list_elem_of_omap, has_elem. naive_solver.
  - intros x. rewrite elem_of_list_to_set, list_elem_of_fmap, has_elem. setoid_rewrite list_elem_of_filter. naive_solver.
  - intros x g Hx%elem_of_list_to_set Hg. apply elem_of_list_to_set, list_elem_of_bind. eauto.
  - intros x Hx%elem_of_list_to_set. revert Hx. generalize (keyCI <$> filter (λ p, key p = None) (set ≫= pairs)). intros l Hx. induction l as [|y l IH]; [by apply elem_of_nil in Hx|]. cbn. apply elem_of_cons in Hx as [->|Hx]; [lia|specialize (IH Hx); lia].
  - done.
  - intros x Hx (rec & p & Hr & Hp & <-). apply Hi. right. exists rec, p. split_and!; try done. destruct (ok_elem set' rec p Hok' Hr Hp) as [fold Hf]. destruct (cleared p) eqn:Ec; [|done]. by apply (pid_nil fold) in Ec.
  - intros t b _. by rewrite lookup_empty.
Qed.

(** ** The answers *)

Fixpoint lookups (c : SysinclCtx) (qs : list (text * text)) : option (list (list text * bool * bool)) :=
  match qs with [] => Some [] | (path, t) :: qs => '(c, a) ← ctxLookup c path t; as_ ← lookups c qs; Some (a :: as_) end.


End Sysincl.

(** ** Filters made of literals *)

(** Alternatives of a filter, cut at the bars outside of parentheses and brackets.  [skip]: the byte after a backslash; [cur] is the piece so far. *)
Fixpoint splitOr (depth : Z) (bracket skip : bool) (cur pat : text) : list text :=
  match pat with
  | [] => [cur]
  | c :: pat =>
      if skip then splitOr depth bracket false (cur ++ [c]) pat
      else if c =? 92 then splitOr depth bracket true (cur ++ [c]) pat
      else if c =? 91 then splitOr depth true false (cur ++ [c]) pat
      else if c =? 93 then splitOr depth false false (cur ++ [c]) pat
      else if (c =? 40) && negb bracket then splitOr (depth + 1) bracket false (cur ++ [c]) pat
      else if (c =? 41) && negb bracket then splitOr (depth - 1) bracket false (cur ++ [c]) pat
      else if (c =? 124) && (depth =? 0) && negb bracket then cur :: splitOr depth bracket false [] pat
      else splitOr depth bracket false (cur ++ [c]) pat
  end.
Definition splitTopLevelOr (pat : text) : list text := splitOr 0 false false [] pat.

Definition maxLiteralAltExpansion : nat := 64.
Definition crossConcat (ps ss : list text) : list text := p ← ps; (app p) <$> ss.
Definition limited (l : list text) : option (list text) := if (maxLiteralAltExpansion <? length l)%nat then None else Some l.

(** The loops over the parts of a concatenation and of an alternative; the last list is the result so far. *)
Fixpoint concatSets (sets : list (option (list text))) (acc : list text) : option (list text) :=
  match sets with [] => Some acc | s :: sets => s ← s; acc ← limited (crossConcat acc s); concatSets sets acc end.
Fixpoint altSets (sets : list (option (list text))) (acc : list text) : option (list text) :=
  match sets with [] => Some acc | s :: sets => s ← s; acc ← limited (acc ++ s); altSets sets acc end.

Fixpoint literalSet (re : Syntax) : option (list text) :=
  match re with
  | OpEmptyMatch => Some [[]]
  | OpLiteral fold r => if fold then None else Some [r]
  | OpCapture sub => literalSet sub
  | OpConcat first rest => concatSets (literalSet first :: (literalSet <$> rest)) [[]]
  | OpAlternate subs => altSets (literalSet <$> subs) []
  | _ => None
  end.

Definition literalAltsFromRegex (re : Syntax) : option (list text) :=
  match re with OpConcat OpBeginText rest => concatSets (literalSet <$> rest) [[]] | _ => None end.

(** The alternatives of a filter for a pattern that is made of literals. *)
Definition literalAlts {Regexp} (ps : list text) : list (@FilterAlt Regexp) := (λ p, mkAlt [] [] None [] false p [] [] None) <$> ps.

(** The parts of a concatenation, one after the other. *)
Fixpoint denotesAll (l : list Syntax) (w : text) : Prop :=
  match l with [] => w = [] | s :: l => ∃ w1 w2, w = w1 ++ w2 ∧ denotes s w1 ∧ denotesAll l w2 end.

Lemma denotes_concat first rest w : denotes (OpConcat first rest) w ↔ denotesAll (first :: rest) w.
Proof.
  cbn. revert first w. induction rest as [|s rest IH]; intros first w; [done|]. split; intros (w1 & w2 & -> & H1 & H2); exists w1, w2; (split_and!; [done..|]); by apply IH.
Qed.

Definition exactly (s : option (list text)) (P : text → Prop) : Prop := ∀ l, s = Some l → ∀ w, P w ↔ w ∈ l.

Lemma crossConcat_elem ps ss w : w ∈ crossConcat ps ss ↔ ∃ w1 w2, w = w1 ++ w2 ∧ w1 ∈ ps ∧ w2 ∈ ss.
Proof. unfold crossConcat. rewrite list_elem_of_bind. setoid_rewrite list_elem_of_fmap. naive_solver. Qed.

Lemma limited_Some l l' : limited l = Some l' → l' = l.
Proof. unfold limited. destruct (_ <? _)%nat; congruence. Qed.

Lemma concatSets_exact subs acc (P : text → Prop) : Forall (λ s, exactly (literalSet s) (denotes s)) subs → (∀ w, P w ↔ w ∈ acc) →
  exactly (concatSets (literalSet <$> subs) acc) (λ w, ∃ w1 w2, w = w1 ++ w2 ∧ P w1 ∧ denotesAll subs w2).
Proof.
  intros Hs. revert acc P. induction Hs as [|s subs Hs _ IH]; intros acc P HP l; cbn [concatSets fmap list_fmap].
  - intros [= <-] w. rewrite <-HP. split; [intros (w1 & w2 & -> & ? & ->); by rewrite app_nil_r|]. intros Hw. exists w, []. by rewrite app_nil_r.
  - intros (ls & Hls & (acc' & ->%limited_Some & Hl)%bind_Some)%bind_Some w. specialize (Hs ls Hls).
    rewrite <-(IH (crossConcat acc ls) (λ w, ∃ w1 w2, w = w1 ++ w2 ∧ P w1 ∧ denotes s w2) ltac:(intros w'; rewrite crossConcat_elem; naive_solver) l Hl). split.
    + intros (w1 & w2 & -> & H1 & w3 & w4 & -> & H3 & H4). exists (w1 ++ w3), w4. rewrite <-app_assoc. split_and!; [done|by exists w1, w3|done].
    + intros (w12 & w4 & -> & (w1 & w3 & -> & H1 & H3) & H4). exists w1, (w3 ++ w4). rewrite <-app_assoc. split_and!; [done..|]. by exists w3, w4.
Qed.

Lemma altSets_exact subs acc : Forall (λ s, exactly (literalSet s) (denotes s)) subs → exactly (altSets (literalSet <$> subs) acc) (λ w, w ∈ acc ∨ ∃ s, s ∈ subs ∧ denotes s w).
Proof.
  intros Hs. revert acc. induction Hs as [|s subs Hs _ IH]; intros acc l; cbn [altSets fmap list_fmap].
  - intros [= <-] w. setoid_rewrite elem_of_nil. naive_solver.
  - intros (ls & Hls & (acc' & ->%limited_Some & Hl)%bind_Some)%bind_Some w. specialize (Hs ls Hls w). rewrite <-(IH (acc ++ ls) l Hl w), elem_of_app. setoid_rewrite elem_of_cons. naive_solver.
Qed.

Lemma literalSet_exact : ∀ re, exactly (literalSet re) (denotes re).
Proof.
  fix IH 1. intros [| |fold r|sub|subs|first rest|] l.
  - intros [= <-] w. by rewrite list_elem_of_singleton.
  - done.
  - destruct fold; [done|]. intros [= <-] w. rewrite list_elem_of_singleton. cbn. naive_solver.
  - apply (IH sub).
  - assert (Hall : Forall (λ s, exactly (literalSet s) (denotes s)) subs) by (clear l; induction subs as [|s subs IHs]; constructor; [apply IH|apply IHs]).
    intros Hl w. rewrite <-(altSets_exact subs [] Hall l Hl w). setoid_rewrite elem_of_nil. clear. cbn. induction subs as [|s subs IHs]; [setoid_rewrite elem_of_nil; naive_solver|]. rewrite IHs. setoid_rewrite elem_of_cons. naive_solver.
  - assert (Hall : Forall (λ s, exactly (literalSet s) (denotes s)) rest) by (clear l; induction rest as [|s rest IHs]; constructor; [apply IH|apply IHs]).
    pose proof (Forall_cons_2 (λ s, exactly (literalSet s) (denotes s)) _ _ (IH first) Hall) as Hall'. intros Hl w. rewrite denotes_concat. rewrite <-(concatSets_exact (first :: rest) [[]] (λ w, w = []) Hall' ltac:(intros w'; by rewrite list_elem_of_singleton) l Hl w).
    split; [intros Hd; by exists [], w|]. by intros (w1 & w2 & -> & -> & ?).
  - done.
Qed.

(** A filter pattern anchored at the start and made of literals, groups and alternatives is replaced by a list of prefixes: a path passes the alternatives made from the list
    exactly if the expression matches at its start.  Patterns with more than 64 prefixes, or with anything else in them, are left to the regular expression. *)
Theorem literal_filter_exact {Regexp} (MatchString : Regexp → text → bool) re ps path : literalAltsFromRegex re = Some ps →
  filterMatch MatchString (mkFilter (literalAlts ps) false) path = true ↔ ∃ w, w `prefix_of` path ∧ denotes re w.
Proof.
  intros Hre. assert (Hps : ∀ w, denotes re w ↔ w ∈ ps).
  { destruct re as [| | | | |first rest|]; try done. destruct first; try done. intros w. rewrite denotes_concat. cbn in Hre.
    rewrite <-(concatSets_exact rest [[]] (λ w, w = []) (proj2 (Forall_forall _ _) (λ s _, literalSet_exact s)) ltac:(intros w'; by rewrite list_elem_of_singleton) ps Hre w). cbn. naive_solver. }
  unfold filterMatch, literalAlts. cbn [unsupported alts]. rewrite existsb_exists. setoid_rewrite <-list_elem_of_In. setoid_rewrite list_elem_of_fmap. split.
  - intros (a & (p & -> & Hp) & Hm). exists p. split; [|by apply Hps]. cbn in Hm. unfold HasPrefix in Hm. destruct p as [|b p]; [apply prefix_nil|]. by apply bool_decide_eq_true in Hm.
  - intros (w & Hw & Hd%Hps). exists (mkAlt [] [] None [] false w [] [] None). split; [by exists w|]. cbn. destruct w; [done|]. by apply bool_decide_eq_true.
Qed.

(** The alternatives joined by bars are the pattern. *)
Lemma splitOr_join pat : foldr (λ p rest, match rest with None => Some p | Some r => Some (p ++ 124 :: r) end) None (splitTopLevelOr pat) = Some pat.
Proof.
  assert (H : ∀ pat depth bracket skip cur, foldr (λ p rest, match rest with None => Some p | Some r => Some (p ++ 124 :: r) end) None (splitOr depth bracket skip cur pat) = Some (cur ++ pat)); [|apply H].
  clear pat. induction pat as [|c pat IH]; intros depth bracket skip cur; cbn [splitOr]; [by rewrite app_nil_r|]. assert (Hc : cur ++ c :: pat = (cur ++ [c]) ++ pat) by (by rewrite <-app_assoc).
  repeat case_match; rewrite ?Hc; try apply IH. cbn [foldr]. rewrite IH. assert (c = 124) as -> by lia. by rewrite <-Hc.
Qed.

(** ** Examples *)

Module SysinclExample.
(** Expressions match the texts that contain them. *)
Definition exMatch (e d : text) : bool := Contains d e.
Definition exFilter : @SourceFilter text := mkFilter [mkAlt [bs "contrib/libs/"] [] None [] false (bs "contrib/") [] [] None] false.
Definition exRec (fold : bool) (f : option (@SourceFilter text)) (ps : list (text * list text)) : @SysIncl text :=
  foldl (λ rec p, setMapping rec p.1 p.2) (mkSys f false fold []) ps.
Definition exSet : list (@SysIncl text) := [exRec true None [(bs "Windows.h", [bs "w.h"])]; exRec false (Some exFilter) [(bs "a.h", [bs "x/a.h"]); (bs "b.h", []); (bs "a.h", [bs "y/a.h"])]; exRec false None [(bs "a.h", [bs "z/a.h"])]].
Definition exQueries : list (text * text) := [(bs "contrib/m.c", bs "a.h"); (bs "util/m.c", bs "a.h"); (bs "util/m.c", bs "WINDOWS.H"); (bs "util/m.c", bs "A.h"); (bs "contrib/m.c", bs "b.h"); (bs "contrib/libs/m.c", bs "windows.h")].

Lemma ex_ok : Forall okRec exSet.
Proof. repeat apply Forall_cons_2; [exists true|exists false|exists false|apply Forall_nil_2]; repeat apply Forall_cons_2; try apply Forall_nil_2; right; vm_compute; (by split_and!) || (eexists; by split). Qed.


(** [^contrib/(a|b)] *)
Lemma literal_filter_exact_witness : filterMatch exMatch (mkFilter (literalAlts [bs "contrib/a"; bs "contrib/b"]) false) (bs "contrib/b/m.c") = true.
Proof.
  apply (literal_filter_exact exMatch (OpConcat OpBeginText [OpLiteral false (bs "contrib/"); OpCapture (OpAlternate [OpLiteral false (bs "a"); OpLiteral false (bs "b")])])); [by vm_compute|].
  exists (bs "contrib/b"). split; [by exists (bs "/m.c")|]. exists [], (bs "contrib/b"). split_and!; [done..|]. exists (bs "contrib/"), (bs "b"). split_and!; [done|by right|]. exists (bs "b"), []. split_and!; [done|cbn; auto|done].
Defined.

(** The pairs cleared by one context enter the empty name into the next one built from the same records, where it gets the first bucket: there an
    include of nothing is claimed, and found in the first record. *)
Lemma empty_name_claimed :
  ('(c, set') ← newSysinclCtx exSet; '(c', _) ← newSysinclCtx set'; a ← lookups exMatch (λ s, s) c [(bs "m.c", [])]; a' ← lookups exMatch (λ s, s) c' [(bs "m.c", [])]; Some (a, a')) =
  Some ([([], false, false)], [([bs "w.h"], false, true)]).
Proof. by vm_compute. Qed.
End SysinclExample.
