(* ===== verification/Registry.v ===== *)
(** * Generated files by their paths (codegen_registry.go)

    The outputs of the commands are registered by path.  Includes ask for a name below a
    directory, mostly in vain, so a look-up first tests a bit by the hash of the last two
    components and the depth, and a generation by the hash; then a table of earlier
    answers, where a kept miss counts only in the generation it was found in; and only
    then the path is put together.  Shown: any sequence of registrations and look-ups
    answers as the map from paths to outputs does.

    The hash is a parameter, ids of texts are numbers by an injective function, and what
    is interned at the time of a look-up is an argument of it.  Of an entry the fields are
    kept that these functions read. *)

From S2P Require Import Prelude Words Paths Expansion.
Local Open Scope Z_scope.

Abbreviation text := (list Z) (only parsing).

Record GeneratedFileInfo := mkInfo {
  OutputPath : text; InputsOnly : bool; ModuleType : Z; OwnerModule : Z; OwnerSerial : Z; ProducerRef : Z }.

#[export] Instance info_eq_dec : EqDecision GeneratedFileInfo.
Proof. solve_decision. Defined.

(** int32 arithmetic *)
Definition i32 (x : Z) : Z := (x + 2 ^ 31) mod 2 ^ 32 - 2 ^ 31.

Section Registry.
Context (xxh3 : text → Z) (num : text → Z).

(** ** Keys *)

Record splitKey := mkKey { tail : Z; base : text; depth : Z; hasTail : bool }.

(** [strings.Count(p, "/")] *)
Definition slashes (p : text) : Z := Z.of_nat (length (filter (λ c, c = c_slash) p)).

Definition splitKeyOf (suffix : text) : splitKey :=
  match cut_last suffix with
  | None => mkKey 0 suffix 1 false
  | Some (dir, name) => mkKey (xxh3 (baseName dir ++ c_slash :: name)) [] (i32 (i32 (slashes suffix) + 1)) true
  end.

Definition pathDepth (rel : text) : Z := if bool_decide (rel = []) then 0 else i32 (i32 (slashes rel) + 1).

Definition tailOf (k : splitKey) (dir : text) : Z :=
  if hasTail k then tail k else xxh3 (baseName dir ++ c_slash :: base k).

Definition splitBucket (tail : Z) : Z := Z.land (u32 (Mix.mix64 tail)) (2 ^ 18 - 1).
Definition splitTailBit (tail depth : Z) : Z :=
  u32 (Z.shiftr (Mix.mix64 (Z.lxor tail (u64 (u64 depth * 0x9e3779b97f4a7c15)))) (64 - 24)).

(** ** State *)

(** [byRel] in two parts: the slot of a path, counted from 1, and the entries by slot. *)
Record Registry := mkRegistry {
  idx : gmap text nat; vals : list GeneratedFileInfo;
  bySplit : gmap Z (nat * Z); splitGeneration : Z; splitGens : gmap Z Z; splitTails : gset Z; prefixDepths : gmap Z (Z * Z) }.

Definition newRegistry : Registry := mkRegistry ∅ [] ∅ 0 ∅ ∅ ∅.

Definition byRel (r : Registry) (p : text) : option GeneratedFileInfo := k ← idx r !! p; vals r !! pred k.

Definition gens (r : Registry) (b : Z) : Z := default 0 (splitGens r !! b).

Definition prefixDepth (r : Registry) (rel : text) : Registry * Z :=
  let id := num rel in
  let slot := Z.shiftr (u32 (id * 0x9e3779b1)) (32 - 12) in
  let cell := default (0, 0) (prefixDepths r !! slot) in
  if negb (cell.1 =? id) || (id =? 0) then
    (mkRegistry (idx r) (vals r) (bySplit r) (splitGeneration r) (splitGens r) (splitTails r) (<[slot := (id, pathDepth rel)]> (prefixDepths r)), pathDepth rel)
  else (r, cell.2).

Definition splitChanged (r : Registry) (output : text) : Registry :=
  let key := splitKeyOf output in
  let t := tailOf key [] in
  let b := splitBucket t in
  mkRegistry (idx r) (vals r) (bySplit r) (u32 (splitGeneration r + 1)) (<[b := u32 (gens r b + 1)]> (splitGens r))
    ({[splitTailBit t (depth key)]} ∪ splitTails r) (prefixDepths r).

(** [put] of a path without an entry. *)
Definition putRel (r : Registry) (info : GeneratedFileInfo) : Registry :=
  let vals' := vals r ++ [info] in
  splitChanged (mkRegistry (<[OutputPath info := length vals']> (idx r)) vals' (bySplit r) (splitGeneration r) (splitGens r) (splitTails r) (prefixDepths r)) (OutputPath info).

(** [store] into the entry of a slot. *)
Definition storeAt (r : Registry) (k : nat) (info : GeneratedFileInfo) : Registry :=
  mkRegistry (idx r) (<[pred k := info]> (vals r)) (bySplit r) (splitGeneration r) (splitGens r) (splitTails r) (prefixDepths r).

Definition register (r : Registry) (info : GeneratedFileInfo) : res (Registry * GeneratedFileInfo) :=
  match idx r !! OutputPath info with
  | Some k =>
      existing ← lift (vals r !! pred k);
      if InputsOnly existing then Ok (splitChanged (storeAt r k info) (OutputPath info), info)
      else if negb (OwnerModule existing =? OwnerModule info) || (OwnerSerial existing =? OwnerSerial info) then Throw
      else Ok (r, info)
  | None => Ok (putRel r info, info)
  end.

(** The entry the parts of a module that come before it are kept in. *)
Definition setModuleInputs (r : Registry) (output : text) (moduleType : Z) : Registry :=
  match idx r !! output with
  | Some _ => r
  | None => putRel r (mkInfo output true moduleType 0 0 0)
  end.

(** ** Look-ups *)

Definition lookup_ (r : Registry) (path : text) : option GeneratedFileInfo :=
  match byRel r path with Some info => if InputsOnly info then None else Some info | None => None end.

Definition includable (info : GeneratedFileInfo) : bool := negb (InputsOnly info) || negb (ModuleType info =? 0).

Definition lookupIncludeSTR (r : Registry) (id : text) : option GeneratedFileInfo :=
  match byRel r id with Some info => if includable info then Some info else None | None => None end.

Definition cleanPath (s : text) : option bool := if bool_decide (s = []) then Some false else pathIsClean s.

(** The generation a miss is kept with; [None] when there can be no such output. *)
Definition generationOf (r : Registry) (dir suffix : text) (split : splitKey) : option (Registry * option Z) :=
  clean ← cleanPath suffix;
  Some (if (clean : bool) then
    let t := tailOf split dir in
    let g := gens r (splitBucket t) in
    if g =? 0 then (r, None)
    else
      let '(r, d) := prefixDepth r dir in
      if bool_decide (splitTailBit t (i32 (d + depth split)) ∈ splitTails r) then (r, Some g) else (r, None)
  else (r, Some (splitGeneration r))).

(** The entry by the path itself, or by its normal form. *)
Definition directly (r : Registry) (known : text → bool) (dir suffix : text) : option (option GeneratedFileInfo) :=
  let p := joined dir suffix in
  let info := if bool_decide (dir = []) || known p then byRel r p else None in
  clean ← cleanPath suffix;
  if (match info with None => true | Some i => InputsOnly i end) && negb (bool_decide (suffix = [])) && negb clean then
    n ← cleanRel p;
    Some (if known n then
            match byRel r n with
            | Some alt => if bool_decide (info = None) || negb (InputsOnly alt) then Some alt else info
            | None => info
            end
          else info)
  else Some info.

Definition lookupSplitAny (r : Registry) (known : text → bool) (dir suffix : text) (split : splitKey) : option (Registry * option GeneratedFileInfo) :=
  '(r, g) ← generationOf r dir suffix split;
  match g with
  | None => Some (r, None)
  | Some generation =>
      let key := Mix.splitMix64 (num dir) (num suffix) in
      let compute :=
        info ← directly r known dir suffix;
        let slot := match info with Some i => default 0%nat (idx r !! OutputPath i) | None => 0%nat end in
        Some (mkRegistry (idx r) (vals r) (<[key := (slot, generation)]> (bySplit r)) (splitGeneration r) (splitGens r) (splitTails r) (prefixDepths r), info) in
      match bySplit r !! key with
      | Some (slot, g) =>
          if negb (slot =? 0)%nat then info ← vals r !! pred slot; Some (r, Some info)
          else if g =? generation then Some (r, None)
          else compute
      | None => compute
      end
  end.

Definition lookupIncludeSplit (r : Registry) (known : text → bool) (dir suffix : text) (key : splitKey) : option (Registry * option GeneratedFileInfo) :=
  '(r, o) ← lookupSplitAny r known dir suffix key;
  Some (r, match o with Some info => if includable info then Some info else None | None => None end).

Definition lookupSplit (r : Registry) (known : text → bool) (dir suffix : text) : option (Registry * option GeneratedFileInfo) :=
  '(r, o) ← lookupSplitAny r known dir suffix (splitKeyOf suffix);
  Some (r, match o with Some info => if InputsOnly info then None else Some info | None => None end).

(** ** Sessions *)

Inductive Op :=
  | Register (info : GeneratedFileInfo)
  | SetInputs (output : text) (moduleType : Z)
  | AskPath (path : text)
  | AskInclude (id : text)
  | AskSplit (known : text → bool) (dir suffix : text)
  | AskIncludeSplit (known : text → bool) (dir suffix : text).

Definition step (r : Registry) (op : Op) : res (Registry * option GeneratedFileInfo) :=
  match op with
  | Register info => '(r, i) ← register r info; Ok (r, Some i)
  | SetInputs output mt => Ok (setModuleInputs r output mt, None)
  | AskPath path => Ok (r, lookup_ r path)
  | AskInclude id => Ok (r, lookupIncludeSTR r id)
  | AskSplit known dir suffix => lift (lookupSplit r known dir suffix)
  | AskIncludeSplit known dir suffix => lift (lookupIncludeSplit r known dir suffix (splitKeyOf suffix))
  end.

Fixpoint run (r : Registry) (ops : list Op) : res (Registry * list (option GeneratedFileInfo)) :=
  match ops with
  | [] => Ok (r, [])
  | op :: ops => '(r, a) ← step r op; '(r, l) ← run r ops; Ok (r, a :: l)
  end.

(** ** What is meant: a map from paths to outputs *)

(** The path a look-up is about. *)
Definition pathOf (dir suffix : text) : option text :=
  if decide (isClean suffix) then Some (joined dir suffix)
  else if decide (suffix = []) then None else cleanRel (joined dir suffix).

Definition found (m : gmap text GeneratedFileInfo) (dir suffix : text) : option GeneratedFileInfo := p ← pathOf dir suffix; m !! p.

Definition onlyIf (b : GeneratedFileInfo → bool) (o : option GeneratedFileInfo) : option GeneratedFileInfo :=
  i ← o; if b i then Some i else None.

Definition meant (m : gmap text GeneratedFileInfo) (op : Op) : res (gmap text GeneratedFileInfo * option GeneratedFileInfo) :=
  match op with
  | Register info =>
      match m !! OutputPath info with
      | Some e =>
          if InputsOnly e then Ok (<[OutputPath info := info]> m, Some info)
          else if bool_decide (OwnerModule e = OwnerModule info ∧ OwnerSerial e ≠ OwnerSerial info) then Ok (m, Some info) else Throw
      | None => Ok (<[OutputPath info := info]> m, Some info)
      end
  | SetInputs output mt => Ok (match m !! output with Some _ => m | None => <[output := mkInfo output true mt 0 0 0]> m end, None)
  | AskPath path => Ok (m, onlyIf (λ i, negb (InputsOnly i)) (m !! path))
  | AskInclude id => Ok (m, onlyIf includable (m !! id))
  | AskSplit _ dir suffix => Ok (m, onlyIf (λ i, negb (InputsOnly i)) (found m dir suffix))
  | AskIncludeSplit _ dir suffix => Ok (m, onlyIf includable (found m dir suffix))
  end.

Fixpoint meantAll (m : gmap text GeneratedFileInfo) (ops : list Op) : res (list (option GeneratedFileInfo)) :=
  match ops with
  | [] => Ok []
  | op :: ops => '(m, a) ← meant m op; l ← meantAll m ops; Ok (a :: l)
  end.

(** ** Keys of joined paths *)

Lemma i32_add_l a b : i32 (i32 a + b) = i32 (a + b).
Proof.
  unfold i32. f_equal.
  replace ((a + 2 ^ 31) mod 2 ^ 32 - 2 ^ 31 + b + 2 ^ 31) with ((a + 2 ^ 31) mod 2 ^ 32 + b) by lia.
  rewrite Z.add_mod_idemp_l by lia. f_equal. lia.
Qed.

Lemma i32_add_r a b : i32 (a + i32 b) = i32 (a + b).
Proof. rewrite Z.add_comm, i32_add_l. f_equal. lia. Qed.

Lemma slashes_app a b : slashes (a ++ c_slash :: b) = slashes a + slashes b + 1.
Proof. unfold slashes. rewrite filter_app, length_app, filter_cons_True by done. cbn [length]. lia. Qed.

Lemma slashes_none p : noslash p → slashes p = 0.
Proof.
  unfold slashes, noslash. induction p as [|c p IH]; [done|]. rewrite not_elem_of_cons. intros [Hc Hp].
  rewrite filter_cons_False by congruence. by apply IH.
Qed.

Lemma tail_joined dir s : tailOf (splitKeyOf (joined dir s)) [] = tailOf (splitKeyOf s) dir.
Proof.
  unfold joined. case_bool_decide as Hd; [subst dir|].
  - done.
  - unfold splitKeyOf. pose proof (cut_last_spec s) as Hs. destruct (cut_last s) as [[b n]|].
    + destruct Hs as [-> Hn]. rewrite (app_assoc dir (c_slash :: b) (c_slash :: n) : dir ++ c_slash :: b ++ c_slash :: n = _).
      rewrite cut_last_app by done. unfold tailOf. simpl. by rewrite baseName_app.
    + rewrite cut_last_app by done. done.
Qed.

Lemma depth_splitKeyOf s : depth (splitKeyOf s) = i32 (slashes s + 1).
Proof.
  unfold splitKeyOf. pose proof (cut_last_spec s) as Hs. destruct (cut_last s) as [[b n]|]; simpl; [by rewrite i32_add_l|].
  rewrite slashes_none by done. reflexivity.
Qed.

Lemma depth_joined dir s : depth (splitKeyOf (joined dir s)) = i32 (pathDepth dir + depth (splitKeyOf s)).
Proof.
  rewrite !depth_splitKeyOf. unfold joined, pathDepth. rewrite i32_add_r. case_bool_decide; [done|].
  rewrite slashes_app, (i32_add_l (slashes dir) 1), i32_add_l. f_equal. lia.
Qed.

Lemma cleanPath_spec s : cleanPath s = Some (bool_decide (isClean s)).
Proof.
  unfold cleanPath, isClean. case_bool_decide as Hs; [subst; by rewrite bool_decide_eq_false_2 by tauto|].
  rewrite pathIsClean_spec by done. f_equal. apply bool_decide_ext. tauto.
Qed.

(** ** The invariant *)

Context (named : text → Prop) (num_u32 : ∀ p, named p → is_u32 (num p)) (num_inj : ∀ p q, named p → named q → num p = num q → p = q).

(** Outputs are clean paths, and by the time of a look-up those registered are interned; the texts asked about have numbers. *)
Definition opOk (m : gmap text GeneratedFileInfo) (op : Op) : Prop :=
  match op with
  | Register info => isClean (OutputPath info)
  | SetInputs output _ => isClean output
  | AskSplit known dir suffix | AskIncludeSplit known dir suffix => named dir ∧ named suffix ∧ ∀ p i, m !! p = Some i → known p = true
  | _ => True
  end.

Fixpoint opsOk (m : gmap text GeneratedFileInfo) (ops : list Op) : Prop :=
  match ops with
  | [] => True
  | op :: ops => opOk m op ∧ match meant m op with Ok (m, _) => opsOk m ops | _ => True end
  end.

(** The generation that a miss below a directory depends on. *)
Definition generation (r : Registry) (dir suffix : text) : Z :=
  if decide (isClean suffix) then gens r (splitBucket (tailOf (splitKeyOf suffix) dir)) else splitGeneration r.

Definition tailP (p : text) : Z := tailOf (splitKeyOf p) [].

Definition keptOk (m : gmap text GeneratedFileInfo) (r : Registry) (dir suffix : text) (e : nat * Z) : Prop :=
  if decide (e.1 = 0%nat) then e.2 <= generation r dir suffix ∧ (e.2 = generation r dir suffix → found m dir suffix = None)
  else ∃ p, pathOf dir suffix = Some p ∧ idx r !! p = Some e.1.

Record regOk (m : gmap text GeneratedFileInfo) (r : Registry) (n : Z) : Prop := {
  ro_map : ∀ p, byRel r p = m !! p;
  ro_slot : ∀ p k, idx r !! p = Some k → k ≠ 0%nat ∧ ∃ i, vals r !! pred k = Some i ∧ OutputPath i = p;
  ro_clean : ∀ p i, m !! p = Some i → isClean p;
  ro_gens : ∀ b, 0 <= gens r b <= n;
  ro_gen : 0 <= splitGeneration r <= n;
  ro_tails : ∀ p i, m !! p = Some i → gens r (splitBucket (tailP p)) ≠ 0 ∧ splitTailBit (tailP p) (depth (splitKeyOf p)) ∈ splitTails r;
  ro_depths : ∀ s id d, prefixDepths r !! s = Some (id, d) → ∃ rel, named rel ∧ id = num rel ∧ d = pathDepth rel;
  ro_kept : ∀ key e, bySplit r !! key = Some e → ∃ dir suffix, named dir ∧ named suffix ∧ key = Mix.splitMix64 (num dir) (num suffix) ∧ keptOk m r dir suffix e }.

Lemma newRegistry_ok : regOk ∅ newRegistry 0.
Proof. split; try done. Qed.

Lemma prefixDepth_ok m r n rel : named rel → regOk m r n → ∃ pd, prefixDepth r rel =
  (mkRegistry (idx r) (vals r) (bySplit r) (splitGeneration r) (splitGens r) (splitTails r) pd, pathDepth rel) ∧
  regOk m (mkRegistry (idx r) (vals r) (bySplit r) (splitGeneration r) (splitGens r) (splitTails r) pd) n.
Proof.
  intros Hnamed [H1 H2 H3 H4 H5 H6 H7 H8]. unfold prefixDepth. set (slot := Z.shiftr _ _).
  destruct (negb _ || _) eqn:Hc.
  - eexists. split; [done|]. split; try done. simpl. intros s id d [[_ [= <- <-]]|[_ Hl]]%lookup_insert_Some; [by exists rel|by eapply H7].
  - exists (prefixDepths r). apply orb_false_iff in Hc as [Hc Hz]. apply negb_false_iff, Z.eqb_eq in Hc. apply Z.eqb_neq in Hz.
    destruct (prefixDepths r !! slot) as [[id d]|] eqn:Hl; simpl in *; [|congruence].
    destruct (H7 _ _ _ Hl) as (rel' & Hn' & -> & ->). apply num_inj in Hc as ->; [|done..]. destruct r; done.
Qed.

Lemma gens_changed r p b : 0 <= gens r (splitBucket (tailP p)) → gens r (splitBucket (tailP p)) + 1 < 2 ^ 32 →
  gens (splitChanged r p) b = gens r b + (if decide (b = splitBucket (tailP p)) then 1 else 0).
Proof.
  intros H0 Hlt. unfold splitChanged, gens at 1. simpl. change (tailOf (splitKeyOf p) []) with (tailP p). case_decide as Hb.
  - subst b. rewrite lookup_insert_eq. simpl. apply u32_id. lia.
  - rewrite lookup_insert_ne by done. unfold gens. lia.
Qed.

Record sameCaches (r r0 : Registry) : Prop := {
  sc_split : bySplit r0 = bySplit r; sc_gen : splitGeneration r0 = splitGeneration r; sc_gens : splitGens r0 = splitGens r;
  sc_tails : splitTails r0 = splitTails r; sc_depths : prefixDepths r0 = prefixDepths r }.

Lemma generation_changed m r n r0 p dir suffix : regOk m r n → n + 1 < 2 ^ 32 → sameCaches r r0 →
  generation r dir suffix <= generation (splitChanged r0 p) dir suffix ∧
  (pathOf dir suffix = Some p → generation r dir suffix < generation (splitChanged r0 p) dir suffix).
Proof.
  intros Hok Hlt [_ Hgen Hgens _ _]. unfold generation, pathOf. pose proof (ro_gens _ _ _ Hok) as Hb.
  assert (Heq : ∀ b, gens r0 b = gens r b) by (intros b; unfold gens; by rewrite Hgens). case_decide as Hc.
  - rewrite gens_changed by (rewrite Heq; specialize (Hb (splitBucket (tailP p))); lia). rewrite !Heq. split; [case_decide; lia|].
    intros [= <-]. rewrite decide_True; [lia|]. f_equal. symmetry. apply tail_joined.
  - simpl. pose proof (ro_gen _ _ _ Hok). rewrite Hgen, u32_id by lia. split; [lia|]. intros _. lia.
Qed.

Lemma splitChanged_ok m r n r0 i : regOk m r n → n + 1 < 2 ^ 32 → isClean (OutputPath i) → sameCaches r r0 → idx r ⊆ idx r0 →
  (∀ p, byRel r0 p = <[OutputPath i := i]> m !! p) →
  (∀ p k, idx r0 !! p = Some k → k ≠ 0%nat ∧ ∃ j, vals r0 !! pred k = Some j ∧ OutputPath j = p) →
  regOk (<[OutputPath i := i]> m) (splitChanged r0 (OutputPath i)) (n + 1).
Proof.
  intros Hok Hlt Hclean Hsame Hsub Hmap Hslot. pose proof Hsame as [Hs1 Hs2 Hs3 Hs4 Hs5].
  set (p := OutputPath i) in *. pose proof (ro_gens _ _ _ Hok) as Hb. pose proof (ro_gen _ _ _ Hok) as Hg.
  assert (Heq : ∀ b, gens r0 b = gens r b) by (intros b; unfold gens; by rewrite Hs3).
  assert (Hch : ∀ b, gens (splitChanged r0 p) b = gens r b + (if decide (b = splitBucket (tailP p)) then 1 else 0)).
  { intros b. rewrite gens_changed by (rewrite Heq; specialize (Hb (splitBucket (tailP p))); lia). by rewrite Heq. }
  split.
  - exact Hmap.
  - exact Hslot.
  - intros q j [[<- _]|[_ Hq]]%lookup_insert_Some; [done|by eapply ro_clean].
  - intros b. rewrite Hch. specialize (Hb b). case_decide; lia.
  - simpl. rewrite Hs2, u32_id by lia. lia.
  - intros q j [[<- _]|[_ Hq]]%lookup_insert_Some; rewrite Hch; simpl; change (tailOf (splitKeyOf p) []) with (tailP p).
    + specialize (Hb (splitBucket (tailP p))). rewrite decide_True by done. split; [lia|set_solver].
    + destruct (ro_tails _ _ _ Hok _ _ Hq) as [H1 H2]. specialize (Hb (splitBucket (tailP q))). rewrite Hs4. split; [case_decide; lia|set_solver].
  - simpl. rewrite Hs5. apply (ro_depths _ _ _ Hok).
  - intros key e. simpl. rewrite Hs1. intros (dir & suffix & Hd & Hs & -> & Hk)%(ro_kept _ _ _ Hok). exists dir, suffix. do 3 (split; [done|]).
    unfold keptOk in *. destruct (generation_changed m r n r0 p dir suffix Hok Hlt Hsame) as [Hle Hgt]. case_decide as He.
    + destruct Hk as [Hk1 Hk2]. split; [lia|]. intros Hk. unfold found in *. destruct (pathOf dir suffix) as [q|]; [|done]. simpl in *.
      destruct (decide (q = p)) as [->|Hne]; [specialize (Hgt eq_refl); lia|]. rewrite lookup_insert_ne by done. apply Hk2. lia.
    + destruct Hk as (q & Hq & Hi). exists q. split; [done|]. simpl. by eapply lookup_weaken.
Qed.

Lemma putRel_ok m r n i : regOk m r n → n + 1 < 2 ^ 32 → isClean (OutputPath i) → idx r !! OutputPath i = None →
  regOk (<[OutputPath i := i]> m) (putRel r i) (n + 1).
Proof.
  intros Hok Hlt Hclean Hnone. unfold putRel. set (r0 := mkRegistry _ _ _ _ _ _ _). pose proof (ro_slot _ _ _ Hok) as Hslot.
  assert (Hin : ∀ p k, idx r !! p = Some k → (pred k < length (vals r))%nat).
  { intros p k (_ & j & Hj & _)%Hslot. by eapply lookup_lt_Some. }
  apply (splitChanged_ok m r n r0); [done..| | |].
  - simpl. by apply insert_subseteq.
  - intros p. unfold byRel. change (idx r0) with (<[OutputPath i := length (vals r ++ [i])]> (idx r)). change (vals r0) with (vals r ++ [i]).
    destruct (decide (p = OutputPath i)) as [->|Hne].
    + rewrite !lookup_insert_eq. simpl. rewrite length_app. simpl. rewrite Nat.add_1_r. simpl. by rewrite lookup_app_r, Nat.sub_diag by done.
    + rewrite !lookup_insert_ne by done. rewrite <- (ro_map _ _ _ Hok p). unfold byRel.
      destruct (idx r !! p) as [k|] eqn:Hk; [|done]. simpl. by rewrite lookup_app_l by eauto.
  - simpl. intros p k [[<- <-]|[Hne Hk]]%lookup_insert_Some.
    + rewrite length_app. simpl. split; [lia|]. exists i. split; [|done]. rewrite Nat.add_1_r. simpl. by rewrite lookup_app_r, Nat.sub_diag by done.
    + destruct (Hslot _ _ Hk) as (H0 & j & Hj & Hp). split; [done|]. exists j. split; [|done]. rewrite lookup_app_l by eauto. done.
Qed.

Lemma storeAt_ok m r n i k : regOk m r n → n + 1 < 2 ^ 32 → isClean (OutputPath i) → idx r !! OutputPath i = Some k →
  regOk (<[OutputPath i := i]> m) (splitChanged (storeAt r k i) (OutputPath i)) (n + 1).
Proof.
  intros Hok Hlt Hclean Hk. pose proof (ro_slot _ _ _ Hok) as Hslot. destruct (Hslot _ _ Hk) as (H0 & j & Hj & Hp).
  assert (Hother : ∀ p k', p ≠ OutputPath i → idx r !! p = Some k' → pred k ≠ pred k').
  { intros p k' Hne Hk' Heq. destruct (Hslot _ _ Hk') as (_ & j' & Hj' & Hp'). rewrite <- Heq in Hj'. simplify_eq. }
  apply (splitChanged_ok m r n); [done..| |].
  - intros p. unfold byRel. simpl. destruct (decide (p = OutputPath i)) as [->|Hne].
    + rewrite Hk, lookup_insert_eq. simpl. apply list_lookup_insert_eq. by eapply lookup_lt_Some.
    + rewrite lookup_insert_ne by done. rewrite <- (ro_map _ _ _ Hok p). unfold byRel.
      destruct (idx r !! p) as [k'|] eqn:Hk'; [|done]. simpl. rewrite list_lookup_insert_ne; [done|by eapply Hother].
  - simpl. intros p k' Hk'. destruct (Hslot _ _ Hk') as (H0' & j' & Hj' & Hp'). split; [done|].
    destruct (decide (p = OutputPath i)) as [->|Hne].
    + assert (k' = k) as -> by congruence. exists i. split; [|done]. apply list_lookup_insert_eq. by eapply lookup_lt_Some.
    + exists j'. split; [|done]. rewrite list_lookup_insert_ne; [done|by eapply Hother].
Qed.

Definition withDepths (r : Registry) pd := mkRegistry (idx r) (vals r) (bySplit r) (splitGeneration r) (splitGens r) (splitTails r) pd.

Lemma generationOf_spec m r n dir suffix : named dir → regOk m r n → ∃ pd g, generationOf r dir suffix (splitKeyOf suffix) = Some (withDepths r pd, g) ∧
  regOk m (withDepths r pd) n ∧ (if g is Some g then g = generation r dir suffix else found m dir suffix = None).
Proof.
  intros Hnamed Hok. assert (Hself : withDepths r (prefixDepths r) = r) by by destruct r.
  unfold generationOf. rewrite cleanPath_spec. simpl. unfold generation, found, pathOf. case_bool_decide as Hc.
  - rewrite !decide_True by done. simpl. set (t := tailOf _ dir).
    assert (Hnone : gens r (splitBucket t) = 0 ∨ splitTailBit t (depth (splitKeyOf (joined dir suffix))) ∉ splitTails r → m !! joined dir suffix = None).
    { intros Hn. apply eq_None_not_Some. intros [i Hi]. destruct (ro_tails _ _ _ Hok _ _ Hi) as [H1 H2]. unfold tailP in H1, H2.
      rewrite tail_joined in H1, H2. fold t in H1, H2. tauto. }
    destruct (Z.eqb_spec (gens r (splitBucket t)) 0) as [H0|H0].
    + exists (prefixDepths r), None. rewrite Hself. split_and!; [done..|auto].
    + destruct (prefixDepth_ok m r n dir Hnamed Hok) as (pd & -> & Hok'). exists pd.
      rewrite <- depth_joined. case_bool_decide as Hb; eexists; (split; [done|]); (split; [done|]); [done|auto].
  - rewrite !decide_False by done. exists (prefixDepths r), (Some (splitGeneration r)). rewrite Hself. done.
Qed.

Lemma directly_spec m r n known dir suffix : regOk m r n → (∀ p i, m !! p = Some i → known p = true) →
  directly r known dir suffix = Some (found m dir suffix).
Proof.
  intros Hok Hknown. pose proof (ro_map _ _ _ Hok) as Hmap.
  assert (Hk : ∀ p, (if known p then m !! p else None) = m !! p).
  { intros p. destruct (known p) eqn:Hp; [done|]. symmetry. apply eq_None_not_Some. intros [i Hi]. apply Hknown in Hi. congruence. }
  assert (Hi : (if bool_decide (dir = []) || known (joined dir suffix) then byRel r (joined dir suffix) else None) = m !! joined dir suffix).
  { rewrite Hmap. destruct (bool_decide (dir = [])); [done|]. apply Hk. }
  unfold directly. cbv zeta. rewrite Hi, cleanPath_spec. simpl. unfold found, pathOf. destruct (decide (isClean suffix)) as [Hc|Hc].
  - rewrite (bool_decide_eq_true_2 (isClean suffix)) by done. rewrite andb_false_r. done.
  - rewrite (bool_decide_eq_false_2 (isClean suffix)) by done. assert (m !! joined dir suffix = None) as ->.
    { apply eq_None_not_Some. intros [i Hm]. by apply (ro_clean _ _ _ Hok), joined_clean in Hm. }
    rewrite andb_true_r. simpl. case_decide as Hs; [by rewrite bool_decide_eq_true_2|]. rewrite bool_decide_eq_false_2 by done. simpl.
    destruct (cleanRel (joined dir suffix)) as [q|] eqn:Hq; [|by rewrite cleanRel_spec in Hq]. simpl. f_equal.
    rewrite Hmap. specialize (Hk q). destruct (known q); [|done]. by destruct (m !! q).
Qed.

Lemma found_slot m r n dir suffix i : regOk m r n → found m dir suffix = Some i →
  ∃ p k, pathOf dir suffix = Some p ∧ OutputPath i = p ∧ idx r !! p = Some k ∧ k ≠ 0%nat.
Proof.
  intros Hok Hf. unfold found in Hf. destruct (pathOf dir suffix) as [p|]; [|done]. simpl in Hf. rewrite <- (ro_map _ _ _ Hok) in Hf.
  unfold byRel in Hf. destruct (idx r !! p) as [k|] eqn:Hk; [|done]. simpl in Hf. destruct (ro_slot _ _ _ Hok _ _ Hk) as (H0 & j & Hj & Hp).
  exists p, k. split_and!; [done|congruence|done|done].
Qed.

Lemma lookupSplitAny_spec m r n known dir suffix : regOk m r n → named dir ∧ named suffix ∧ (∀ p i, m !! p = Some i → known p = true) →
  ∃ r', lookupSplitAny r known dir suffix (splitKeyOf suffix) = Some (r', found m dir suffix) ∧ regOk m r' n.
Proof.
  intros Hok0 (Hd & Hsx & Hknown). unfold lookupSplitAny. destruct (generationOf_spec m r n dir suffix Hd Hok0) as (pd & g & -> & Hok & Hg).
  change (generation r dir suffix) with (generation (withDepths r pd) dir suffix) in Hg. clear Hok0.
  generalize dependent (withDepths r pd). clear r pd. intros r Hok Hg. simpl.
  destruct g as [g|]; [subst g|exists r; by rewrite Hg]. set (key := Mix.splitMix64 _ _).
  assert (Hcompute : ∃ r', (info ← directly r known dir suffix;
    Some (mkRegistry (idx r) (vals r) (<[key := (match info with Some i => default 0%nat (idx r !! OutputPath i) | None => 0%nat end, generation r dir suffix)]> (bySplit r))
      (splitGeneration r) (splitGens r) (splitTails r) (prefixDepths r), info)) = Some (r', found m dir suffix) ∧ regOk m r' n).
  { rewrite (directly_spec m r n) by done. simpl. eexists. split; [done|]. pose proof Hok as [H1 H2 H3 H4 H5 H6 H7 H8]. split; try done.
    simpl. intros key' e [[<- <-]|[_ Hl]]%lookup_insert_Some; [|by apply H8]. exists dir, suffix. do 3 (split; [done|]). unfold keptOk.
    destruct (found m dir suffix) as [i|] eqn:Hf.
    - destruct (found_slot m r n dir suffix i Hok Hf) as (p & k & Hp & Hi & Hk & H0). cbn [fst snd]. rewrite Hi, Hk. simpl. rewrite decide_False by done. by exists p.
    - simpl. split; [reflexivity|done]. }
  destruct (bySplit r !! key) as [[slot g]|] eqn:Hs; [|done].
  destruct (ro_kept _ _ _ Hok _ _ Hs) as (dir' & suffix' & Hd' & Hs' & Hkey & Hk).
  apply expansionKey_inj in Hkey as [He1 He2]; [|by apply num_u32..]. apply num_inj in He1 as <-; [|done..]. apply num_inj in He2 as <-; [|done..]. unfold keptOk in Hk. cbn [fst snd] in Hk.
  destruct (Nat.eqb_spec slot 0) as [->|H0]; simpl.
  - rewrite decide_True in Hk by done. destruct Hk as [_ Hk]. destruct (Z.eqb_spec g (generation r dir suffix)) as [Hg|Hg]; [|done].
    exists r. by rewrite Hk.
  - rewrite decide_False in Hk by done. destruct Hk as (p & Hp & Hi). exists r. split; [|done].
    destruct (ro_slot _ _ _ Hok _ _ Hi) as (_ & j & Hj & _). rewrite Hj. simpl. unfold found. rewrite Hp. simpl.
    rewrite <- (ro_map _ _ _ Hok). unfold byRel. rewrite Hi. simpl. by rewrite Hj.
Qed.

(** ** Refinement *)

Lemma regOk_le m r n n' : regOk m r n → n <= n' → regOk m r n'.
Proof. intros [H1 H2 H3 H4 H5 H6 H7 H8] Hle. split; try done; [|lia]. intros b. specialize (H4 b). lia. Qed.

Lemma byRel_idx m r n p : regOk m r n →
  if idx r !! p is Some k then ∃ e, vals r !! pred k = Some e ∧ m !! p = Some e else m !! p = None.
Proof.
  intros Hok. rewrite <- (ro_map _ _ _ Hok). unfold byRel. destruct (idx r !! p) as [k|] eqn:Hk; [|done].
  destruct (ro_slot _ _ _ Hok _ _ Hk) as (_ & e & He & _). exists e. simpl. by rewrite He.
Qed.

Lemma step_refines m r n op : regOk m r n → opOk m op → n + 1 < 2 ^ 32 →
  match meant m op with
  | Ok (m', a) => ∃ r', step r op = Ok (r', a) ∧ regOk m' r' (n + 1)
  | _ => step r op = Throw
  end.
Proof.
  intros Hok Hop Hlt. assert (Hn : ∀ m r, regOk m r n → regOk m r (n + 1)) by (intros m0 r0 H; eapply regOk_le; [done|lia]).
  destruct op as [info|output mt|path|id|known dir suffix|known dir suffix]; simpl in *.
  - unfold register. pose proof (byRel_idx m r n (OutputPath info) Hok) as Hi. destruct (idx r !! OutputPath info) as [k|] eqn:Hk.
    + destruct Hi as (e & He & ->). rewrite He. simpl. destruct (InputsOnly e); simpl.
      * eexists. split; [done|]. by apply storeAt_ok.
      * case_bool_decide as Ho.
        -- destruct Ho as [-> Hs]. rewrite Z.eqb_refl, (proj2 (Z.eqb_neq _ _)) by done. simpl. eexists. split; [done|]. auto.
        -- destruct (Z.eqb_spec (OwnerModule e) (OwnerModule info)), (Z.eqb_spec (OwnerSerial e) (OwnerSerial info)); simpl; try done. tauto.
    + rewrite Hi. simpl. eexists. split; [done|]. by apply putRel_ok.
  - unfold setModuleInputs. pose proof (byRel_idx m r n output Hok) as Hi. destruct (idx r !! output) as [k|] eqn:Hk.
    + destruct Hi as (e & _ & ->). eexists. split; [done|]. auto.
    + rewrite Hi. eexists. split; [done|]. by apply (putRel_ok m r n (mkInfo output true mt 0 0 0)).
  - exists r. split; [|auto]. unfold lookup_. rewrite (ro_map _ _ _ Hok). unfold onlyIf. destruct (m !! path) as [i|]; [|done]. simpl. by destruct (InputsOnly i).
  - exists r. split; [|auto]. unfold lookupIncludeSTR. by rewrite (ro_map _ _ _ Hok).
  - unfold lookupSplit. destruct (lookupSplitAny_spec m r n known dir suffix Hok Hop) as (r' & -> & Hok'). exists r'. split; [|auto]. simpl.
    unfold onlyIf. destruct (found m dir suffix) as [i|]; [|done]. simpl. by destruct (InputsOnly i).
  - unfold lookupIncludeSplit. destruct (lookupSplitAny_spec m r n known dir suffix Hok Hop) as (r' & -> & Hok'). exists r'. split; [|auto]. simpl.
    unfold onlyIf. by destruct (found m dir suffix).
Qed.

Lemma run_refines ops : ∀ m r n, regOk m r n → opsOk m ops → n + Z.of_nat (length ops) < 2 ^ 32 →
  ('(_, l) ← run r ops; Ok l) = meantAll m ops.
Proof.
  induction ops as [|op ops IH]; intros m r n Hok Hops Hlt; [done|]. cbn [length run meantAll] in *. destruct Hops as [Hop Hops].
  pose proof (step_refines m r n op Hok Hop ltac:(lia)) as Hs. destruct (meant m op) as [[m' a]| |] eqn:Hm.
  - destruct Hs as (r' & -> & Hok'). cbn. specialize (IH m' r' (n + 1) Hok' Hops ltac:(lia)). rewrite <- IH. by destruct (run r' ops) as [[r2 l]| |].
  - rewrite Hs. done.
  - destruct op; simpl in Hm; repeat case_match; done.
Qed.

(** C29: Registrations and look-ups in any order answer as the map from paths to outputs does, and throw when it says so: neither the bits and
    generations that rule paths out nor the kept answers and depths show. *)
Theorem registry_refines_map (ops : list Op) : opsOk ∅ ops → Z.of_nat (length ops) < 2 ^ 32 →
  ('(_, l) ← run newRegistry ops; Ok l) = meantAll ∅ ops.
Proof. intros Hops Hlt. eapply run_refines; [apply newRegistry_ok|done|lia]. Qed.
End Registry.

(** ** A session *)

Module RegistryExample.
(** A toy hash, and numbers for a few texts. *)
Definition hash (t : text) : Z := foldl (λ h c, u64 (h * 31 + c)) 7 t.
Definition texts : list text := bs <$> ["nothing"; ""; "gen"; "gen/sub"; "a.h"; "sub/a.h"; "sub/../a.h"; "b.h"]%string.
Definition number (t : text) : Z := match list_find (t =.) texts with Some (k, _) => Z.of_nat k | None => 0 end.
Definition named (t : text) : Prop := t ∈ texts.
Definition all (t : text) : bool := true.
Definition out (p : string) (inputsOnly : bool) (owner serial : Z) : GeneratedFileInfo := mkInfo (bs p) inputsOnly 0 owner serial 5.

Definition session : list Op :=
  [AskSplit all (bs "gen") (bs "sub/a.h"); Register (out "gen/a.h" false 3 1); AskSplit all (bs "gen") (bs "sub/a.h");
   AskSplit all (bs "gen") (bs "a.h"); AskSplit all (bs "gen") (bs "sub/../a.h"); SetInputs (bs "gen/sub/a.h") 0;
   AskIncludeSplit all (bs "gen") (bs "sub/a.h"); Register (out "gen/sub/a.h" false 3 1); AskIncludeSplit all (bs "gen") (bs "sub/a.h");
   AskSplit all (bs "gen/sub") (bs "a.h"); Register (out "b.h" false 3 1); AskSplit all [] (bs "b.h"); Register (out "b.h" false 3 2); AskInclude (bs "b.h")].

Lemma number_u32 p : named p → is_u32 (number p).
Proof.
  intros _. unfold number. destruct (list_find (p =.) texts) as [[k x]|] eqn:Hf; [|lia].
  apply list_find_Some in Hf as (Hk & _ & _). apply lookup_lt_Some in Hk. vm_compute in Hk. lia.
Qed.

Lemma number_inj p q : named p → named q → number p = number q → p = q.
Proof.
  unfold named, number. intros Hp Hq. destruct (list_find_elem_of (p =.) texts p Hp eq_refl) as [[k x] Hk].
  destruct (list_find_elem_of (q =.) texts q Hq eq_refl) as [[k' x'] Hk']. rewrite Hk, Hk'.
  apply list_find_Some in Hk as (H1 & <- & _), Hk' as (H2 & <- & _). intros Heq. assert (k = k') as <- by lia. congruence.
Qed.

Lemma registry_refines_map_witness :
  ('(_, l) ← run hash number (newRegistry) session; Ok l) =
  Ok [None; Some (out "gen/a.h" false 3 1); None; Some (out "gen/a.h" false 3 1); Some (out "gen/a.h" false 3 1); None;
      None; Some (out "gen/sub/a.h" false 3 1); Some (out "gen/sub/a.h" false 3 1); Some (out "gen/sub/a.h" false 3 1);
      Some (out "b.h" false 3 1); Some (out "b.h" false 3 1); Some (out "b.h" false 3 2); Some (out "b.h" false 3 1)].
Proof.
  rewrite (registry_refines_map hash number named number_u32 number_inj session); [vm_compute; reflexivity| |done].
  repeat split; try done; unfold named; apply (bool_decide_unpack _); vm_compute; reflexivity.
Defined.
End RegistryExample.
