(* ===== verification/SourceTree.v ===== *)
(** * The source tree (fs_os.go)

    Files are looked up through listings of directories, which are read once and kept:
    the names of a listing go to one table by directory and name.  A name below a
    directory is looked for without putting the path together where that can be avoided;
    answers are kept by the pair of ids, in a table and a direct-mapped array.  Shown: the
    answers are those of the tree that the operating system lists, in whatever order the
    questions come, and a walk visits every file below its root once.

    The operating system is a finite map from the paths of readable directories to their
    listings, with laws ([Tree]).  Ids are texts; their numbers, which only the
    direct-mapped array uses, are a function. *)

From S2P Require Import Prelude Words Paths Expansion.
Local Open Scope Z_scope.

Abbreviation text := (list Z) (only parsing).

(** A listing: the names with whether they are directories. *)
Abbreviation listing := (list (list Z * bool)) (only parsing).

(** A ring of four, as the recently used names and directories are kept in. *)
Record Ring (A : Type) := mkRing { cells : list A; next : nat }.
Arguments mkRing {A}. Arguments cells {A}. Arguments next {A}.

Definition pushRing {A} (c : Ring A) (x : A) : Ring A :=
  mkRing (if bool_decide (next c < length (cells c))%nat then <[next c := x]> (cells c) else cells c ++ [x]) (Nat.land (next c + 1) 3).

Section SourceTree.
Context (tree : gmap text (list (text * bool))).

(** ** State *)

Record OsFS := mkFS {
  dirs : gmap text (option (list (text * bool)));
  dirEntries : gmap (text * text) bool;
  interned : gset text;
  recentNames : Ring text;
  joinedDirCache : Ring (text * text * text);
  knownFiles : gset text;
  sourceUnder : gmap Z (option text);
  sourceUnderHot : gmap Z (Z * option text) }.

Definition withRecent st x := mkFS (dirs st) (dirEntries st) (interned st) x (joinedDirCache st) (knownFiles st) (sourceUnder st) (sourceUnderHot st).
Definition withJoined st x := mkFS (dirs st) (dirEntries st) (interned st) (recentNames st) x (knownFiles st) (sourceUnder st) (sourceUnderHot st).

(** ** Listings *)

(** [readDirViewRel] enters every name. *)
Definition enter (d : text) (st : gmap (text * text) bool * gset text) (e : text * bool) : gmap (text * text) bool * gset text :=
  (<[(d, e.1) := e.2]> st.1, {[e.1]} ∪ st.2).

Definition listdirSlow (st : OsFS) (d : text) : OsFS * option listing :=
  let v := tree !! d in
  let '(ents, names) := foldl (enter d) (dirEntries st, interned st) (default [] v) in
  (mkFS (<[d := v]> (dirs st)) ents names (recentNames st) (joinedDirCache st) (knownFiles st) (sourceUnder st) (sourceUnderHot st), v).

Definition listdir (st : OsFS) (d : text) : OsFS * option listing :=
  match dirs st !! d with Some v => (st, v) | None => listdirSlow st d end.

Definition internedRecent (st : OsFS) (name : text) : OsFS * bool :=
  if bool_decide (name ∈ cells (recentNames st)) then (st, true)
  else if bool_decide (name ∈ interned st) then (withRecent st (pushRing (recentNames st) name), true)
  else (st, false).

(** Present and directory. *)
Definition dirHasID (st : OsFS) (d name : text) : bool * bool :=
  match dirEntries st !! (d, name) with Some isDir => (true, isDir) | None => (false, false) end.

Definition dirHas (st : OsFS) (d name : text) : OsFS * (bool * bool) :=
  let '(st, k) := internedRecent st name in (st, if (k : bool) then dirHasID st d name else (false, false)).

Definition internJoinedDir (st : OsFS) (prefix dname : text) : OsFS * text :=
  match list_find (λ c, c.1 = (prefix, dname)) (cells (joinedDirCache st)) with
  | Some (_, c) => (st, c.2)
  | None => let id := joined prefix dname in (withJoined st (pushRing (joinedDirCache st) (prefix, drop (length id - length dname) id, id)), id)
  end.

(** A listing that cannot be read has nothing. *)
Definition hasIn (st : OsFS) (d name : text) : OsFS * (bool * bool) :=
  let '(st, v) := listdir st d in if v is Some _ then dirHas st d name else (st, (false, false)).

Definition normalised (p : text) : option text :=
  '(n, ok) ← normaliseAppend [] 256 p; Some (if (ok : bool) then n else normalisePathSlow p).

Definition existsClean (st : OsFS) (prefix suffix : text) (clean : bool) : option (OsFS * (bool * bool)) :=
  if bool_decide (suffix = []) then let '(st, v) := listdir st prefix in Some (st, (bool_decide (is_Some v), true))
  else if negb clean then
    let p := joinRelInto [] prefix suffix in
    esc ← pathEscapesRoot p;
    if (esc : bool) then Some (st, (false, false))
    else
      rel ← normalised p;
      if bool_decide (rel = []) then Some (st, (true, true))
      else let '(dir, name) := splitDirName rel in d ← cleanRel dir; Some (hasIn st d name)
  else
    let '(st, v) := listdir st prefix in
    if v is Some _ then
      let '(first, more) := firstComponent suffix in
      if negb more then Some (dirHas st prefix first)
      else
        let '(st, (ok, d)) := dirHas st prefix first in
        if negb ok || negb d then Some (st, (false, false))
        else
          let '(dname, base) := splitDirName suffix in
          let '(st, dir) := internJoinedDir st prefix dname in
          Some (hasIn st dir base)
    else Some (st, (false, false)).

Definition cleanPath (s : text) : option bool := if bool_decide (s = []) then Some false else pathIsClean s.

Definition exists_ (st : OsFS) (prefix suffix : text) : option (OsFS * (bool * bool)) :=
  c ← cleanPath suffix; existsClean st prefix suffix c.

Definition existsID (st : OsFS) (prefix rel : text) : option (OsFS * (bool * bool)) :=
  if bool_decide (rel = []) then let '(st, v) := listdir st prefix in Some (st, (bool_decide (is_Some v), true))
  else
    c ← cleanPath rel;
    if negb c then existsClean st prefix rel false
    else if bool_decide (c_slash ∈ rel) then existsClean st prefix rel true
    else let '(st, v) := listdir st prefix in Some (if v is Some _ then (st, dirHasID st prefix rel) else (st, (false, false))).

Definition isFile (st : OsFS) (prefix suffix : text) : option (OsFS * bool) :=
  '(st, (p, d)) ← exists_ st prefix suffix; Some (st, (p : bool) && negb d).

Definition isDir (st : OsFS) (prefix suffix : text) : option (OsFS * bool) :=
  '(st, (p, d)) ← exists_ st prefix suffix; Some (st, (p : bool) && d).

Definition isFilePathClean (st : OsFS) (rel : text) : OsFS * bool :=
  let '(dir, name) := splitDirName rel in
  let '(st, (p, d)) := hasIn st dir name in (st, p && negb d).

Definition addKnown (st : OsFS) (v : text) : OsFS :=
  mkFS (dirs st) (dirEntries st) (interned st) (recentNames st) (joinedDirCache st) ({[v]} ∪ knownFiles st) (sourceUnder st) (sourceUnderHot st).

Definition isFileVFS (st : OsFS) (rel : text) : OsFS * bool :=
  if bool_decide (rel ∈ knownFiles st) then (st, true)
  else let '(st, f) := isFilePathClean st rel in if (f : bool) then (addKnown st rel, true) else (st, false).

Definition isFileClean (st : OsFS) (prefix suffix : text) : option (OsFS * bool) :=
  '(st, (p, d)) ← existsClean st prefix suffix true; Some (st, (p : bool) && negb d).

Definition isFileID (st : OsFS) (dir name : text) : OsFS * bool :=
  let '(st, v) := listdir st dir in
  if v is Some _ then let '(p, d) := dirHasID st dir name in (st, p && negb d) else (st, false).

Definition isFileVFSAny (st : OsFS) (rel : text) : option (OsFS * bool) :=
  c ← cleanPath rel; if (c : bool) then Some (isFileVFS st rel) else isFile st [] rel.

(** ** A name below a directory *)

Section under.
Context (num : text → Z).

Definition pairOf (prefix target : text) : Z := Z.lor (u64 (Z.shiftl (num prefix) 32)) (num target).
Definition hotSlot (prefix target : text) : Z := Z.land (Z.lxor (u32 (num prefix * 0x9e3779b1)) (num target)) (2 ^ 18 - 1).
Definition setHot (st : OsFS) (slot pair : Z) (v : option text) : OsFS :=
  mkFS (dirs st) (dirEntries st) (interned st) (recentNames st) (joinedDirCache st) (knownFiles st) (sourceUnder st) (<[slot := (pair, v)]> (sourceUnderHot st)).
Definition setUnder (st : OsFS) (key : Z) (v : option text) : OsFS :=
  mkFS (dirs st) (dirEntries st) (interned st) (recentNames st) (joinedDirCache st) (knownFiles st) (<[key := v]> (sourceUnder st)) (sourceUnderHot st).

Definition probeUnder (st : OsFS) (prefix suffix : text) (clean : bool) : option (OsFS * (bool * bool)) :=
  if clean && negb (bool_decide (suffix = [])) && negb (bool_decide (c_slash ∈ suffix)) then
    let '(st, v) := listdir st prefix in Some (if v is Some _ then (st, dirHasID st prefix suffix) else (st, (false, false)))
  else existsClean st prefix suffix clean.

Definition findUnder (st : OsFS) (prefix target : text) (clean : bool) : option (OsFS * option text) :=
  '(st, (present, isDir)) ← probeUnder st prefix target clean;
  v ← (if (present : bool) && negb isDir then
         if (clean : bool) then Some (Some (joined prefix target))
         else n ← normalised (joinRelInto [] prefix target); Some (Some n)
       else Some None);
  Some (st, v).

Definition resolveSourceUnder0 (st : OsFS) (prefix target : text) (targetClean cleanKnown : bool) : option (OsFS * option text) :=
  let pair := pairOf prefix target in
  let slot := hotSlot prefix target in
  let hot := default (0, None) (sourceUnderHot st !! slot) in
  if hot.1 =? pair then Some (st, hot.2)
  else
    let key := Mix.mix64 pair in
    match sourceUnder st !! key with
    | Some v => Some (setHot st slot pair v, v)
    | None =>
        clean ← (if cleanKnown then Some targetClean else cleanPath target);
        '(st, v) ← findUnder st prefix target clean;
        let st := match v with Some f => addKnown st f | None => st end in
        Some (setHot (setUnder st key v) slot pair v, v)
    end.

Definition resolveSourceUnder (st : OsFS) (prefix target : text) : option (OsFS * option text) :=
  resolveSourceUnder0 st prefix target false false.
Definition resolveSourceUnderClean (st : OsFS) (prefix target : text) (targetClean : bool) : option (OsFS * option text) :=
  resolveSourceUnder0 st prefix target targetClean true.

End under.

(** ** Walks *)

(** The names of a directory: what is visited, and the directories to go on with. *)
Definition visitNames (visit : text → bool → bool) (d : text) (names : listing) : list (text * bool) * list text :=
  ((λ e, (joined d e.1, e.2)) <$> names, filter (λ p, Is_true (visit p true)) ((λ e, joined d e.1) <$> filter (λ e, Is_true e.2) names)).

Fixpoint walkLoop (fuel : nat) (st : OsFS) (visit : text → bool → bool) (queue : list text) : option (OsFS * list (text * bool)) :=
  match queue with
  | [] => Some (st, [])
  | d :: queue =>
      match fuel with
      | O => None
      | S fuel =>
          let '(st, v) := listdir st d in
          let '(seen, more) := visitNames visit d (default [] v) in
          '(st, rest) ← walkLoop fuel st visit (queue ++ more);
          Some (st, seen ++ rest)
      end
  end.

(** As many steps as there are names in all the listings. *)
Definition allNames : list (text * bool) := map_to_list tree ≫= λ dl, (λ e, (joined dl.1 e.1, e.2)) <$> dl.2.
Definition walkFuel : nat := S (length allNames).

Definition walkDirID (st : OsFS) (root : text) (visit : text → bool → bool) : option (OsFS * list (text * bool)) :=
  let '(st, v) := listdir st root in
  if v is Some _ then
    if negb (visit root true) then Some (st, [(root, true)])
    else '(st, l) ← walkLoop walkFuel st visit [root]; Some (st, (root, true) :: l)
  else Some (st, []).

Definition existsRel (st : OsFS) (rel : text) : option (OsFS * (bool * bool)) :=
  rel ← cleanRel rel;
  if bool_decide (rel = []) then Some (st, (true, true))
  else let '(dir, name) := splitDirName rel in d ← cleanRel dir; Some (hasIn st d name).

Definition walk (st : OsFS) (rel : text) (visit : text → bool → bool) : option (OsFS * list (text * bool)) :=
  rel ← cleanRel rel;
  '(st, (present, isDir)) ← existsRel st rel;
  if negb present then Some (st, [])
  else if negb (visit rel isDir) || negb isDir then Some (st, [(rel, isDir)])
  else d ← cleanRel rel; '(st, l) ← walkLoop walkFuel st visit [d]; Some (st, (rel, true) :: l).

(** ** The tree *)

(** What the operating system promises: a readable directory is entered in the listing of its parent, by a clean path, and the
    names of a listing are distinct components. *)
Record Tree : Prop := {
  tr_clean : ∀ d l, tree !! d = Some l → d = [] ∨ isClean d;
  tr_parent : ∀ d l d' n, tree !! d = Some l → d ≠ [] → splitDirName d = (d', n) → ∃ l', tree !! d' = Some l' ∧ (n, true) ∈ l';
  tr_names : ∀ d l n b, tree !! d = Some l → (n, b) ∈ l → clean_seg n ∧ noslash n;
  tr_distinct : ∀ d l, tree !! d = Some l → NoDup l.*1 }.

(** A name in a directory. *)
Definition entry (d n : text) : bool * bool :=
  match l ← tree !! d; list_find (λ e, e.1 = n) l with Some (_, e) => (true, e.2) | None => (false, false) end.

Definition existsAt (p : text) : bool * bool :=
  if bool_decide (p = []) then (true, true) else let '(d, n) := splitDirName p in entry d n.

(** A name below a directory; an absolute one is nowhere, and the others are put in normal form unless they are clean. *)
Definition existsIn (prefix suffix : text) (clean : bool) : bool * bool :=
  if bool_decide (suffix = []) then (bool_decide (is_Some (tree !! prefix)), true)
  else if clean then if rooted suffix then (false, false) else existsAt (joined prefix suffix)
  else if bool_decide (pathEscapesRoot (joined prefix suffix) = Some true) then (false, false)
  else existsAt (normalisePathSlow (joined prefix suffix)).

Definition under (prefix target : text) (clean : bool) : option text :=
  let '(p, d) := existsIn prefix target clean in
  if (p : bool) && negb d then Some (if clean then joined prefix target else normalisePathSlow (joined prefix target)) else None.

Definition fileAt (p : text) : Prop := existsAt p = (true, false).

Context (Htree : Tree).

Lemma entry_spec d n b : entry d n = (true, b) ↔ ∃ l, tree !! d = Some l ∧ (n, b) ∈ l.
Proof.
  unfold entry. destruct (tree !! d) as [l|] eqn:Hl; simpl; [|split; [done|by intros (? & ? & _)]].
  pose proof (tr_distinct Htree _ _ Hl) as Hnd. destruct (list_find (λ e, e.1 = n) l) as [[k [n' b']]|] eqn:Hf.
  - apply list_find_Some in Hf as (Hk & Hn & _). simpl in Hn. subst n'. apply list_elem_of_lookup_2 in Hk as Hin. split.
    + intros [= <-]. by exists l.
    + intros (l' & [= <-] & Hb). f_equal. simpl. apply list_elem_of_lookup_1 in Hb as [k' Hk'].
      assert (k = k') as <-. { eapply (NoDup_lookup l.*1); [done|rewrite list_lookup_fmap, Hk; done|rewrite list_lookup_fmap, Hk'; done]. }
      congruence.
  - split; [done|]. intros (l' & [= <-] & Hb). apply list_find_None in Hf. rewrite Forall_forall in Hf. by destruct (Hf _ Hb).
Qed.

Lemma entry_none d n : entry d n = (false, false) ↔ ∀ l b, tree !! d = Some l → (n, b) ∉ l.
Proof.
  split.
  - intros He l b Hl Hin. assert (entry d n = (true, b)) as H by (apply entry_spec; eauto). congruence.
  - intros Hn. destruct (entry d n) as [[] b] eqn:He.
    + apply entry_spec in He as (l & Hl & Hin). by destruct (Hn l b).
    + unfold entry in He. destruct (_ ≫= _) as [[k e]|]; congruence.
Qed.

(** A readable directory below another: its first component is a directory there. *)
Lemma ancestor prefix dname l : tree !! joined prefix dname = Some l → dname ≠ [] → rooted dname = false →
  ∃ l0, tree !! prefix = Some l0 ∧ (hd [] (Paths.split dname), true) ∈ l0.
Proof.
  revert l. induction dname as [dname IH] using (well_founded_induction (Wf_nat.well_founded_ltof _ (@length Z))).
  intros l Hl Hne Hr. unfold Wf_nat.ltof in IH. pose proof (cut_last_spec dname) as Hs. destruct (cut_last dname) as [[x n]|].
  - destruct Hs as [-> Hn]. assert (Hx : x ≠ []) by by intros ->.
    rewrite joined_under in Hl by done. destruct (tr_parent Htree _ _ (joined prefix x) n Hl) as (l' & Hl' & _); [|by apply splitDirName_joined|].
    { apply joined_ne. left. apply joined_ne. by right. }
    destruct (IH x ltac:(rewrite length_app; simpl; lia) l' Hl' Hx) as (l0 & H0 & H1); [by destruct x|]. exists l0. split; [done|].
    rewrite split_app_slash. by destruct (split_cons x) as (s & ss & Hss); rewrite Hss in *.
  - destruct (tr_parent Htree _ _ prefix dname Hl) as (l' & Hl' & Hin); [|by apply splitDirName_joined|].
    + apply joined_ne. by right.
    + exists l'. split; [done|]. by rewrite split_noslash_id.
Qed.

(** ** Walks over the tree *)

Section walks.
Context (visit : text → bool → bool) (root : text).

(** What a walk is to visit: the root, and the names of the directories it visits and is sent into. *)
Inductive walked : text → bool → Prop :=
  | walked_root : walked root true
  | walked_name d n b l : walked d true → visit d true = true → tree !! d = Some l → (n, b) ∈ l → walked (joined d n) b.

Lemma walked_refused p b : visit root true = false → walked p b → p = root ∧ b = true.
Proof. intros Hv. induction 1 as [|d n b' l' _ [-> _] Hvd]; [done|]. congruence. Qed.

(** The walk without what is kept. *)
Fixpoint walkTree (fuel : nat) (queue : list text) : option (list (text * bool)) :=
  match queue with
  | [] => Some []
  | d :: queue =>
      match fuel with
      | O => None
      | S fuel => let '(seen, more) := visitNames visit d (default [] (tree !! d)) in rest ← walkTree fuel (queue ++ more); Some (seen ++ rest)
      end
  end.

(** The directories done, those queued and what was visited. *)
Record walkInv (D q : list text) (S : list (text * bool)) : Prop := {
  wi_nodup : NoDup (D ++ q);
  wi_seen : NoDup S.*1;
  wi_walked : ∀ p b, (p, b) ∈ S → walked p b;
  wi_root : (root, true) ∈ S;
  wi_in : ∀ d, d ∈ D ++ q → (d, true) ∈ S ∧ visit d true = true;
  wi_accepted : ∀ d, (d, true) ∈ S → visit d true = true → d ∈ D ++ q;
  wi_done : ∀ d l n b, d ∈ D → tree !! d = Some l → (n, b) ∈ l → (joined d n, b) ∈ S;
  wi_from : ∀ p b, (p, b) ∈ S → p = root ∨ ∃ d l n, d ∈ D ∧ tree !! d = Some l ∧ (n, b) ∈ l ∧ p = joined d n }.

Lemma walked_length p b : walked p b → (length root <= length p)%nat.
Proof.
  induction 1 as [|d n b l Hd IH _ Hl Hin]; [done|]. destruct (tr_names Htree _ _ _ _ Hl Hin) as [[Hn _] _].
  unfold joined. case_bool_decide; [subst; simpl in *; lia|]. rewrite length_app. lia.
Qed.

Lemma joined_longer d n : n ≠ [] → (length d < length (joined d n))%nat.
Proof. intros Hn. unfold joined. case_bool_decide; [subst; by destruct n; simpl; try lia|]. rewrite length_app. simpl. lia. Qed.

Lemma joined_inj d n d' n' : noslash n → noslash n' → joined d n = joined d' n' → d = d' ∧ n = n'.
Proof. intros Hn Hn' He. apply (f_equal splitDirName) in He. rewrite !splitDirName_joined in He by done. by simplify_eq. Qed.

Lemma joined_nodup d (l : list (text * bool)) : (∀ e, e ∈ l → noslash e.1) → NoDup l.*1 → NoDup ((λ e, joined d e.1) <$> l).
Proof.
  induction l as [|e l IH]; intros Hn Hnd; simpl in *; [constructor|]. apply NoDup_cons in Hnd as [He Hnd].
  constructor; [|apply IH; [intros; apply Hn; by right|done]]. intros (e' & Hj & He')%list_elem_of_fmap.
  apply joined_inj in Hj as [_ Hj]; [|apply Hn; by left|apply Hn; by right]. apply He. rewrite Hj. by apply list_elem_of_fmap_2.
Qed.

Lemma filter_nodup (P : text * bool → Prop) `{!∀ e, Decision (P e)} l : NoDup l.*1 → NoDup (filter P l).*1.
Proof.
  induction l as [|e l IH]; simpl; [done|]. intros [He Hnd]%NoDup_cons. rewrite filter_cons. case_decide; [|by apply IH]. simpl.
  constructor; [|by apply IH]. intros (e' & Hj & He')%list_elem_of_fmap. apply He. rewrite Hj. apply list_elem_of_fmap_2.
  by apply list_elem_of_filter in He' as [_ ?].
Qed.

(** What the names of one directory add. *)
Lemma visitNames_spec d seen more : visitNames visit d (default [] (tree !! d)) = (seen, more) →
  NoDup seen.*1 ∧ NoDup more ∧
  (∀ p b, (p, b) ∈ seen ↔ ∃ l n, tree !! d = Some l ∧ (n, b) ∈ l ∧ p = joined d n) ∧
  (∀ p, p ∈ more ↔ (p, true) ∈ seen ∧ visit p true = true).
Proof.
  unfold visitNames. set (l := default [] (tree !! d)). intros [= <- <-].
  assert (Hl : ∀ n b, (n, b) ∈ l ↔ ∃ l', tree !! d = Some l' ∧ (n, b) ∈ l').
  { intros n b. unfold l. destruct (tree !! d) as [l'|]; simpl; [|set_solver]. split; [by exists l'|]. by intros (? & [= <-] & ?). }
  assert (Hns : ∀ e, e ∈ l → noslash e.1). { intros [n b] (l' & Hl' & Hb)%Hl. by destruct (tr_names Htree _ _ _ _ Hl' Hb). }
  assert (Hnd : NoDup l.*1). { unfold l. destruct (tree !! d) as [l'|] eqn:Hd; [by eapply tr_distinct|constructor]. }
  assert (Hseen : ∀ p b, (p, b) ∈ ((λ e : text * bool, (joined d e.1, e.2)) <$> l) ↔ ∃ n, (n, b) ∈ l ∧ p = joined d n).
  { intros p b. rewrite list_elem_of_fmap. split; [intros ([n b'] & [= -> ->] & Hb); eauto|intros (n & Hb & ->); by exists (n, b)]. }
  split_and!.
  - rewrite <- list_fmap_compose. by apply joined_nodup.
  - apply NoDup_filter, joined_nodup; [|by apply filter_nodup]. intros e [_ ?]%list_elem_of_filter. auto.
  - intros p b. rewrite Hseen. split; [intros (n & (l' & ? & ?)%Hl & ->); eauto|]. intros (l' & n & ? & ? & ->). exists n. split; [|done]. apply Hl. eauto.
  - intros p. rewrite list_elem_of_filter, list_elem_of_fmap, Is_true_true, Hseen. split.
    + intros [Hv ([n b] & -> & Hb)]. apply list_elem_of_filter in Hb as [Hb Hb']. destruct b; [|done]. split; [by exists n|done].
    + intros [(n & Hb & ->) Hv]. split; [done|]. exists (n, true). split; [done|]. by apply list_elem_of_filter.
Qed.

Lemma walk_step D d q S seen more : visitNames visit d (default [] (tree !! d)) = (seen, more) →
  walkInv D (d :: q) S → walkInv (D ++ [d]) (q ++ more) (S ++ seen).
Proof.
  intros (Hseennd & Hmorend & Hnew & Hmore)%visitNames_spec [Hnd Hseen Hwalk Hroot Hin Hacc Hdone Hfrom].
  destruct (Hin d) as [HdS Hvd]; [set_solver|]. apply Hwalk in HdS as Hdw.
  assert (HnewD : d ∉ D) by (apply NoDup_app in Hnd as (_ & Hd & _); intros ?; by apply (Hd d); [|left]).
  assert (Hfresh : ∀ p b, (p, b) ∈ seen → p ∉ S.*1).
  { intros p b (l & n & Hl & Hb & ->)%Hnew Hp. destruct (tr_names Htree _ _ _ _ Hl Hb) as [Hc Hn].
    apply list_elem_of_fmap in Hp as ([p' b'] & Hp' & HS). simpl in Hp'. subst p'.
    destruct (Hfrom _ _ HS) as [Hr|(d' & l' & n' & Hd' & Hl' & Hb' & He)].
    - apply walked_length in Hdw. pose proof (joined_longer d n ltac:(apply Hc)). rewrite Hr in *. lia.
    - destruct (tr_names Htree _ _ _ _ Hl' Hb') as [_ Hn']. apply joined_inj in He as [-> _]; done. }
  assert (Hq : ∀ x, x ∈ (D ++ [d]) ++ q ++ more ↔ x ∈ D ++ d :: q ∨ x ∈ more) by set_solver.
  split.
  - rewrite <- app_assoc. change ([d] ++ q ++ more) with ((d :: q) ++ more). rewrite app_assoc. apply NoDup_app. split; [done|]. split; [|done].
    intros x [Hx _]%Hin [Hs _]%Hmore. apply (Hfresh _ _ Hs). by apply (list_elem_of_fmap_2 fst) in Hx.
  - rewrite fmap_app. apply NoDup_app. split; [done|]. split; [|done]. intros x Hx (e & -> & He)%list_elem_of_fmap. destruct e as [p b]. by apply (Hfresh p b).
  - intros p b [?|(l & n & Hl & Hb & ->)%Hnew]%elem_of_app; [auto|]. by eapply walked_name.
  - set_solver.
  - intros x [Hx|[Hx ?]%Hmore]%Hq; [|set_solver]. apply Hin in Hx. set_solver.
  - intros x [Hx|Hx]%elem_of_app Hv; apply Hq; [left; auto|right; by apply Hmore].
  - intros x l n b [Hx| ->%list_elem_of_singleton]%elem_of_app Hl Hb; apply elem_of_app; [left; eauto|right]. apply Hnew. eauto.
  - intros p b [Hp|(l & n & Hl & Hb & ->)%Hnew]%elem_of_app.
    + destruct (Hfrom _ _ Hp) as [?|(d' & l & n & ? & ?)]; [by left|right]. exists d', l, n. split; [set_solver|done].
    + right. exists d, l, n. split; [set_solver|done].
Qed.

Lemma walk_size D q S : walkInv D q S → (length D + length q <= walkFuel)%nat.
Proof.
  intros [Hnd Hseen _ Hroot Hin _ _ Hfrom]. rewrite <- length_app. unfold walkFuel.
  assert (H1 : (length (D ++ q) <= length S)%nat).
  { rewrite <- (length_fmap fst S). apply submseteq_length, NoDup_submseteq; [done|]. intros d [Hd _]%Hin. by apply (list_elem_of_fmap_2 fst) in Hd. }
  assert (H2 : (length S <= length ((root, true) :: allNames))%nat); [|simpl in H2; lia].
  assert (HS : NoDup S) by by eapply NoDup_fmap_1.
  apply submseteq_length, NoDup_submseteq; [done|]. intros [p b] Hp. destruct (Hfrom _ _ Hp) as [->|(d & l & n & _ & Hl & Hb & ->)].
  - destruct b; [by left|]. apply list_elem_of_lookup_1 in Hp as [k Hk], Hroot as [k' Hk'].
    assert (k = k') as <-; [|congruence]. apply (NoDup_lookup S.*1 k k' root); [done|by rewrite list_lookup_fmap, Hk|by rewrite list_lookup_fmap, Hk'].
  - right. unfold allNames. apply list_elem_of_bind. exists (d, l). split; [|by apply elem_of_map_to_list]. simpl. apply list_elem_of_fmap. by exists (n, b).
Qed.

Lemma walkTree_ok fuel : ∀ D q S, walkInv D q S → (walkFuel <= length D + fuel)%nat →
  ∃ l D', walkTree fuel q = Some l ∧ walkInv D' [] (S ++ l).
Proof.
  induction fuel as [|fuel IH]; intros D [|d q] S Hinv Hf; pose proof (walk_size _ _ _ Hinv) as Hsz; cbn [walkTree].
  - exists [], D. by rewrite app_nil_r.
  - simpl in Hsz. lia.
  - exists [], D. by rewrite app_nil_r.
  - destruct (visitNames visit d (default [] (tree !! d))) as [seen more] eqn:Hv. pose proof (walk_step _ _ _ _ _ _ Hv Hinv) as Hinv'.
    destruct (IH _ _ _ Hinv') as (l & D' & -> & Hfin); [rewrite length_app; simpl; lia|]. exists (seen ++ l), D'. split; [done|]. by rewrite app_assoc.
Qed.

Lemma walk_all : visit root true = true → ∃ seen, walkTree walkFuel [root] = Some seen ∧
  NoDup ((root, true) :: seen).*1 ∧ ∀ p b, (p, b) ∈ (root, true) :: seen ↔ walked p b.
Proof.
  intros Hv. assert (H0 : walkInv [] [root] [(root, true)]).
  { split; simpl; try set_solver; [apply NoDup_singleton|apply NoDup_singleton|]. intros p b [= -> ->]%list_elem_of_singleton. constructor. }
  destruct (walkTree_ok walkFuel _ _ _ H0) as (seen & D & Hw & [_ Hnd Hwalk Hroot _ Hacc Hdone _]); [simpl; lia|].
  exists seen. split; [done|]. split; [done|]. intros p b. split; [apply Hwalk|]. induction 1 as [|d n b l' Hd IH Hvd Hl' Hb]; [done|].
  apply (Hdone d l'); [|done..]. rewrite app_nil_r in Hacc. by apply Hacc.
Qed.
End walks.

(** ** The state *)

Context (num : text → Z) (named : text → Prop) (num_u32 : ∀ p, named p → is_u32 (num p) ∧ num p ≠ 0) (num_inj : ∀ p q, named p → named q → num p = num q → p = q).

(** Names about which both notions of clean agree: [a/] and [/a] are in normal form by one of them and not clean by the other. *)
Definition regular (t : text) : Prop := t = [] ∨ (normalisePath t = Some t → isClean t).

Definition keptOk (key : Z) (v : option text) : Prop :=
  ∃ prefix target, named prefix ∧ named target ∧ regular target ∧ key = pairOf num prefix target ∧ v = under prefix target (bool_decide (isClean target)).

Record fsOk (st : OsFS) : Prop := {
  fo_dirs : ∀ d v, dirs st !! d = Some v → v = tree !! d;
  fo_entries : ∀ d n b, dirEntries st !! (d, n) = Some b ↔ ∃ l, dirs st !! d = Some (Some l) ∧ (n, b) ∈ l;
  fo_interned : ∀ d l n b, dirs st !! d = Some (Some l) → (n, b) ∈ l → n ∈ interned st;
  fo_recent : ∀ n, n ∈ cells (recentNames st) → n ∈ interned st;
  fo_joined : ∀ c, c ∈ cells (joinedDirCache st) → c.2 = joined c.1.1 c.1.2;
  fo_known : ∀ f, f ∈ knownFiles st → fileAt f;
  fo_under : ∀ key v, sourceUnder st !! key = Some v → ∃ pair, key = Mix.mix64 pair ∧ keptOk pair v;
  fo_hot : ∀ slot pair v, sourceUnderHot st !! slot = Some (pair, v) → keptOk pair v }.

Definition newFS : OsFS := mkFS ∅ ∅ ∅ (mkRing [] 0) (mkRing [] 0) ∅ ∅ ∅.

Lemma newFS_ok : fsOk newFS.
Proof.
  split; simpl; try (intros *; rewrite ?lookup_empty; done); [|set_solver..].
  intros d n b. rewrite lookup_empty. split; [done|]. intros (l & Hl & _). by rewrite lookup_empty in Hl.
Qed.

Lemma pushRing_elem {A} (c : Ring A) x y : y ∈ cells (pushRing c x) → y = x ∨ y ∈ cells c.
Proof.
  unfold pushRing. simpl. case_bool_decide.
  - intros [k Hk]%list_elem_of_lookup_1. destruct (decide (k = next c)) as [->|Hne].
    + rewrite list_lookup_insert_eq in Hk by done. left. congruence.
    + rewrite list_lookup_insert_ne in Hk by done. right. by eapply list_elem_of_lookup_2.
  - rewrite elem_of_app, list_elem_of_singleton. tauto.
Qed.

Lemma enter_entries d l : ∀ st, NoDup l.*1 → (∀ n b, (n, b) ∈ l → st.1 !! (d, n) = None) →
  (∀ d' n b, (foldl (enter d) st l).1 !! (d', n) = Some b ↔ st.1 !! (d', n) = Some b ∨ (d' = d ∧ (n, b) ∈ l)) ∧
  (∀ n, n ∈ (foldl (enter d) st l).2 ↔ n ∈ st.2 ∨ n ∈ l.*1).
Proof.
  induction l as [|[n0 b0] l IH]; intros st Hnd Hfresh; simpl; [set_solver|]. apply NoDup_cons in Hnd as [Hn0 Hnd].
  destruct (IH (enter d st (n0, b0)) Hnd) as [H1 H2].
  { intros n b Hin. unfold enter. simpl. rewrite lookup_insert_ne; [apply (Hfresh n b); set_solver|]. intros [= <-]. apply Hn0. by apply (list_elem_of_fmap_2 fst) in Hin. }
  split.
  - intros d' n b. rewrite H1. unfold enter. simpl. rewrite lookup_insert_Some, elem_of_cons. split.
    + intros [[[[= <- <-] <-]|[_ Hl]]|[-> Hin]]; [by right; split; [|left]|by left|by right; split; [|right]].
    + intros [Hl|[-> [[= -> ->]|Hin]]]; [left; right|by left; left|by right]. split; [|done]. intros [= <- <-].
      rewrite (Hfresh n0 b0) in Hl by set_solver. done.
  - intros n. rewrite H2. unfold enter. simpl. set_solver.
Qed.

Lemma listdir_ok st d : fsOk st → ∃ st', listdir st d = (st', tree !! d) ∧ fsOk st' ∧ dirs st' !! d = Some (tree !! d).
Proof.
  intros Hok. pose proof Hok as [H1 H2 H3 H4 H5 H6 H7 H8]. unfold listdir. destruct (dirs st !! d) as [v|] eqn:Hd.
  - apply H1 in Hd as Hv. subst v. exists st. done.
  - unfold listdirSlow. destruct (foldl (enter d) (dirEntries st, interned st) (default [] (tree !! d))) as [ents names] eqn:Hf.
    destruct (enter_entries d (default [] (tree !! d)) (dirEntries st, interned st)) as [E1 E2].
    { destruct (tree !! d) as [l|] eqn:Hl; [by apply (tr_distinct Htree _ _ Hl)|constructor]. }
    { intros n b _. simpl. apply eq_None_not_Some. intros [b' (l & Hl & _)%H2]. congruence. }
    rewrite Hf in E1, E2. simpl in E1, E2. eexists. split; [done|]. split; [|simpl; by rewrite lookup_insert_eq]. split; simpl; try done.
    + intros d' v [[<- <-]|[_ ?]]%lookup_insert_Some; [done|by apply H1].
    + intros d' n b. rewrite E1, H2. split.
      * intros [(l & Hl & Hin)|[-> Hin]].
        -- exists l. split; [|done]. rewrite lookup_insert_ne; [done|congruence].
        -- destruct (tree !! d) as [l|]; [|by apply not_elem_of_nil in Hin]. exists l. by rewrite lookup_insert_eq.
      * intros (l & [[<- Hl]|[_ Hl]]%lookup_insert_Some & Hin); [right; by rewrite Hl|left; by exists l].
    + intros d' l n b [[<- Hl]|[_ Hl]]%lookup_insert_Some Hin; apply E2.
      * right. rewrite Hl. simpl. by apply (list_elem_of_fmap_2 fst) in Hin.
      * left. by eapply H3.
    + intros n Hn. apply E2. left. by apply H4.
Qed.

Lemma dirHasID_ok st d n : fsOk st → dirs st !! d = Some (tree !! d) → dirHasID st d n = entry d n.
Proof.
  intros Hok Hd. unfold dirHasID. destruct (dirEntries st !! (d, n)) as [b|] eqn:He.
  - apply (fo_entries _ Hok) in He as (l & Hl & Hin). symmetry. apply entry_spec. exists l. split; [congruence|done].
  - symmetry. apply entry_none. intros l b Hl Hin. assert (dirEntries st !! (d, n) = Some b); [|congruence].
    apply (fo_entries _ Hok). exists l. split; [congruence|done].
Qed.

Lemma dirHas_ok st d n : fsOk st → dirs st !! d = Some (tree !! d) →
  ∃ st', dirHas st d n = (st', entry d n) ∧ fsOk st'.
Proof.
  intros Hok Hd. pose proof Hok as [H1 H2 H3 H4 H5 H6 H7 H8]. unfold dirHas, internedRecent.
  case_bool_decide as Hr; [exists st; rewrite dirHasID_ok; done|]. case_bool_decide as Hi.
  - exists (withRecent st (pushRing (recentNames st) n)). split; [by rewrite <- (dirHasID_ok st)|].
    split; simpl; [done..| |done|done|done|done]. intros y [->|Hy]%pushRing_elem; auto.
  - exists st. split; [|done]. f_equal. symmetry. apply entry_none. intros l b Hl Hin. apply Hi. apply (H3 d l n b); [congruence|done].
Qed.

Lemma hasIn_ok st d n : fsOk st → ∃ st', hasIn st d n = (st', entry d n) ∧ fsOk st'.
Proof.
  intros Hok. unfold hasIn. destruct (listdir_ok st d Hok) as (st1 & -> & Hok1 & Hd). destruct (tree !! d) as [l|] eqn:Hl.
  - apply dirHas_ok; [done|congruence].
  - exists st1. split; [|done]. f_equal. symmetry. apply entry_none. congruence.
Qed.

Lemma internJoinedDir_ok st prefix dname : fsOk st → ∃ st', internJoinedDir st prefix dname = (st', joined prefix dname) ∧ fsOk st'.
Proof.
  intros Hok. pose proof Hok as [H1 H2 H3 H4 H5 H6 H7 H8]. unfold internJoinedDir.
  destruct (list_find _ _) as [[k c]|] eqn:Hf.
  - apply list_find_Some in Hf as (Hk & Hc & _). exists st. split; [|done]. f_equal. rewrite (H5 c) by by eapply list_elem_of_lookup_2. by rewrite Hc.
  - eexists. split; [done|]. split; simpl; [done..| |done|done|done]. intros c [->|Hc]%pushRing_elem; [|auto]. simpl. f_equal.
    unfold joined. case_bool_decide; [by rewrite Nat.sub_diag|]. rewrite length_app. simpl.
    replace (length prefix + S (length dname) - length dname)%nat with (length (prefix ++ [c_slash])) by (rewrite length_app; simpl; lia).
    rewrite (app_assoc prefix [c_slash] dname : prefix ++ c_slash :: dname = _), drop_app_length. done.
Qed.

Lemma normalised_ok p : normalised p = Some (normalisePathSlow p).
Proof.
  unfold normalised. destruct (normaliseAppend_spec [] 256 p) as (r & ok & -> & Hr). simpl. destruct ok; [|done]. by destruct Hr as [-> _].
Qed.

Lemma escapes_total p : ∃ b, pathEscapesRoot p = Some b.
Proof. destruct (escapes_loop_spec (S (length p)) p 0) as (b & Hb & _); [lia|]. by exists b. Qed.

Lemma joinRelInto_joined prefix suffix : suffix ≠ [] → joinRelInto [] prefix suffix = joined prefix suffix.
Proof.
  intros Hs. unfold joinRelInto, joined. repeat case_decide; case_bool_decide; subst; simpl; rewrite <-?app_assoc; try done; tauto.
Qed.

Lemma existsAt_joined prefix n : n ≠ [] → noslash n → existsAt (joined prefix n) = entry prefix n.
Proof.
  intros Hn Hs. unfold existsAt. rewrite bool_decide_eq_false_2 by (apply joined_ne; by right). by rewrite splitDirName_joined.
Qed.

Lemma existsAt_slow p : normalisePathSlow p ≠ [] → ∃ d n, splitDirName (normalisePathSlow p) = (d, n) ∧ cleanRel d = Some d ∧
  existsAt (normalisePathSlow p) = entry d n.
Proof.
  intros Hne. destruct (slow_isClean p) as [?|Hc]; [done|]. destruct (splitDirName (normalisePathSlow p)) as [d n] eqn:Hs.
  exists d, n. destruct (isClean_parent _ _ _ Hc Hs) as (Hd & _). split; [done|]. split; [by apply cleanRel_id|].
  unfold existsAt. rewrite bool_decide_eq_false_2 by done. by rewrite Hs.
Qed.

Lemma firstComponent_spec s : firstComponent s = (hd [] (Paths.split s), bool_decide (c_slash ∈ s)).
Proof.
  unfold firstComponent. pose proof (cut_last_spec s) as Hs. destruct (cut_last s) as [[x n]|].
  - destruct Hs as [-> Hn]. rewrite split_app_slash. destruct (split_cons x) as (a & l & ->). destruct (split_cons n) as (b & l' & ->).
    rewrite bool_decide_eq_true_2 by set_solver. simpl. by destruct l.
  - rewrite split_noslash_id by done. by rewrite bool_decide_eq_false_2.
Qed.

Lemma rooted_split s : rooted s = true → hd [] (Paths.split s) = [].
Proof.
  destruct s as [|c s]; [done|]. simpl. by intros ->%Z.eqb_eq.
Qed.

(** The way through the first component, for names with several. *)
Lemma existsAt_below prefix x n : x ≠ [] → rooted x = false → noslash n →
  existsAt (joined prefix (x ++ c_slash :: n)) =
  if bool_decide (entry prefix (hd [] (Paths.split x)) = (true, true)) then entry (joined prefix x) n else (false, false).
Proof.
  intros Hx Hr Hn. rewrite joined_under by done. unfold existsAt.
  rewrite bool_decide_eq_false_2 by (apply joined_ne; left; apply joined_ne; by right). rewrite splitDirName_joined by done.
  case_bool_decide as He; [done|]. apply entry_none. intros l b Hl Hin. apply He, entry_spec. by eapply ancestor.
Qed.

Lemma existsClean_ok st prefix suffix clean : fsOk st →
  ∃ st', existsClean st prefix suffix clean = Some (st', existsIn prefix suffix clean) ∧ fsOk st'.
Proof.
  intros Hok. unfold existsClean, existsIn. destruct (listdir_ok st prefix Hok) as (st1 & Hld & Hok1 & Hd1). rewrite !Hld.
  destruct (decide (suffix = [])) as [->|Hne]; [by exists st1|]. rewrite !(bool_decide_eq_false_2 (suffix = [])) by done.
  destruct clean; simpl.
  - rewrite firstComponent_spec. pose proof (cut_last_spec suffix) as Hs. unfold splitDirName.
    destruct (tree !! prefix) as [l|] eqn:Hl.
    2: { exists st1. split; [|done]. do 2 f_equal. destruct (rooted suffix) eqn:Hr; [done|]. symmetry.
         assert (Hnone : ∀ n, entry prefix n = (false, false)) by (intros n; apply entry_none; congruence).
         destruct (cut_last suffix) as [[x n]|]; [|by rewrite existsAt_joined].
         destruct Hs as [-> Hn]. rewrite existsAt_below; [by rewrite Hnone|by intros ->| |done]. by destruct x. }
    destruct (cut_last suffix) as [[x n]|] eqn:Hcut.
    + destruct Hs as [-> Hn]. rewrite (bool_decide_eq_true_2 (c_slash ∈ _)) by set_solver. simpl.
      destruct (dirHas_ok st1 prefix (hd [] (Paths.split (x ++ c_slash :: n))) Hok1) as (st2 & -> & Hok2); [congruence|].
      destruct (rooted (x ++ c_slash :: n)) eqn:Hr.
      * rewrite rooted_split by done. assert (entry prefix [] = (false, false)) as ->; [|by exists st2].
        apply entry_none. intros l' b Hl' Hin. by destruct (tr_names Htree _ _ _ _ Hl' Hin) as [[] _].
      * assert (Hx : x ≠ []) by by intros ->. rewrite existsAt_below; [|done|by destruct x|done].
        assert (hd [] (Paths.split (x ++ c_slash :: n)) = hd [] (Paths.split x)) as ->.
        { rewrite split_app_slash. by destruct (split_cons x) as (a & l' & ->). }
        destruct (entry prefix (hd [] (Paths.split x))) as [ok d]. destruct ok, d; simpl; try by exists st2.
        destruct (internJoinedDir_ok st2 prefix x Hok2) as (st3 & -> & Hok3).
        destruct (hasIn_ok st3 (joined prefix x) n Hok3) as (st4 & -> & Hok4). by exists st4.
    + rewrite (bool_decide_eq_false_2 (c_slash ∈ _)) by done. simpl. rewrite split_noslash_id by done. simpl.
      assert (rooted suffix = false) as ->. { destruct (rooted suffix) eqn:Hr; [|done]. apply rooted_split in Hr. rewrite split_noslash_id in Hr by done. done. }
      rewrite existsAt_joined by done. destruct (dirHas_ok st1 prefix suffix Hok1) as (st2 & -> & Hok2); [congruence|]. by exists st2.
  - rewrite joinRelInto_joined by done. destruct (escapes_total (joined prefix suffix)) as [b Hb]. rewrite Hb. simpl.
    destruct b; [rewrite bool_decide_eq_true_2 by done; by exists st|]. rewrite bool_decide_eq_false_2 by done. rewrite normalised_ok. simpl.
    destruct (decide (normalisePathSlow (joined prefix suffix) = [])) as [He|He].
    + rewrite He. by exists st.
    + rewrite bool_decide_eq_false_2 by done. destruct (existsAt_slow _ He) as (d & n & -> & -> & ->). simpl.
      destruct (hasIn_ok st d n Hok) as (st2 & -> & Hok2). by exists st2.
Qed.

Lemma existsAt_noslash prefix suffix : suffix ≠ [] → noslash suffix → existsIn prefix suffix true = entry prefix suffix.
Proof.
  intros Hne Hn. unfold existsIn. rewrite bool_decide_eq_false_2 by done. destruct (rooted suffix) eqn:Hr; [|by apply existsAt_joined].
  apply rooted_split in Hr. by rewrite split_noslash_id in Hr.
Qed.

Lemma listdir_entry st prefix n : fsOk st →
  ∃ st', (let '(st, v) := listdir st prefix in Some (if v is Some _ then (st, dirHasID st prefix n) else (st, (false, false)))) = Some (st', entry prefix n) ∧ fsOk st'.
Proof.
  intros Hok. destruct (listdir_ok st prefix Hok) as (st1 & -> & Hok1 & Hd). exists st1. split; [|done].
  destruct (tree !! prefix) as [l|] eqn:Hl; [by rewrite dirHasID_ok by (done || congruence)|].
  do 2 f_equal. symmetry. apply entry_none. congruence.
Qed.

Lemma probeUnder_ok st prefix suffix clean : fsOk st →
  ∃ st', probeUnder st prefix suffix clean = Some (st', existsIn prefix suffix clean) ∧ fsOk st'.
Proof.
  intros Hok. unfold probeUnder. destruct clean; [|by apply existsClean_ok]. simpl.
  destruct (decide (suffix ≠ [] ∧ c_slash ∉ suffix)) as [[Hne Hs]|Hn].
  - rewrite !bool_decide_eq_false_2 by done. simpl. rewrite existsAt_noslash by done. by apply listdir_entry.
  - assert (negb (bool_decide (suffix = [])) && negb (bool_decide (c_slash ∈ suffix)) = false) as ->; [|by apply existsClean_ok].
    case_bool_decide; [done|]. case_bool_decide; [done|]. tauto.
Qed.

Lemma cleanPath_ok s : cleanPath s = Some (bool_decide (isClean s)).
Proof.
  unfold cleanPath, isClean. case_bool_decide as Hs; [subst; by rewrite bool_decide_eq_false_2 by tauto|].
  rewrite pathIsClean_spec by done. f_equal. apply bool_decide_ext. tauto.
Qed.

Lemma existsID_ok st prefix rel : fsOk st →
  ∃ st', existsID st prefix rel = Some (st', existsIn prefix rel (bool_decide (isClean rel))) ∧ fsOk st'.
Proof.
  intros Hok. unfold existsID. destruct (decide (rel = [])) as [->|Hne].
  { destruct (listdir_ok st prefix Hok) as (st1 & -> & Hok1 & _). by exists st1. }
  rewrite bool_decide_eq_false_2 by done. rewrite cleanPath_ok. simpl. destruct (bool_decide (isClean rel)); simpl; [|by apply existsClean_ok].
  case_bool_decide as Hs; [by apply existsClean_ok|]. rewrite existsAt_noslash by done. by apply listdir_entry.
Qed.

Lemma under_file prefix target clean f : under prefix target clean = Some f → fileAt f.
Proof.
  unfold under, existsIn, fileAt. destruct (bool_decide (target = [])); [by rewrite andb_false_r|]. destruct clean.
  - destruct (rooted target); [done|]. destruct (existsAt (joined prefix target)) as [p d] eqn:He. destruct p, d; simpl; intros [= <-]; done.
  - destruct (bool_decide _); [done|]. destruct (existsAt (normalisePathSlow (joined prefix target))) as [p d] eqn:He. destruct p, d; simpl; intros [= <-]; done.
Qed.

Lemma kept_under pair prefix target v : named prefix → named target → pair = pairOf num prefix target → keptOk pair v →
  v = under prefix target (bool_decide (isClean target)).
Proof.
  intros Hp Ht -> (p' & t' & Hp' & Ht' & _ & Heq & ->). destruct (num_u32 p') as [? _], (num_u32 t') as [? _]; [done..|].
  destruct (num_u32 prefix) as [? _], (num_u32 target) as [? _]; [done..|].
  assert (Hk : Mix.splitMix64 (num prefix) (num target) = Mix.splitMix64 (num p') (num t')) by (apply (f_equal Mix.mix64) in Heq; exact Heq).
  apply expansionKey_inj in Hk as [E1 E2]; [|done..]. apply num_inj in E1 as ->; [|done..]. by apply num_inj in E2 as ->.
Qed.

Lemma pairOf_u64 prefix target : named prefix → named target → is_u64 (pairOf num prefix target) ∧ pairOf num prefix target ≠ 0.
Proof.
  intros Hp Ht. destruct (num_u32 prefix Hp) as [H1 _], (num_u32 target Ht) as [H2 H2']. split.
  - apply lor_range; [lia|apply u64_range|lia].
  - intros H0. apply H2'. assert (Hk : Mix.splitMix64 (num prefix) (num target) = Mix.splitMix64 0 0) by (apply (f_equal Mix.mix64) in H0; exact H0).
    by apply expansionKey_inj in Hk as [_ ?].
Qed.

Lemma under_flag prefix t : regular t → under prefix t (bool_decide (normalisePath t = Some t)) = under prefix t (bool_decide (isClean t)).
Proof.
  intros [->|Hr]; [unfold under, existsIn; simpl; by rewrite !andb_false_r|]. f_equal. apply bool_decide_ext. split; [done|apply normalisePath_id].
Qed.

Lemma setHot_ok st slot pair v : fsOk st → keptOk pair v → fsOk (setHot st slot pair v).
Proof.
  intros [H1 H2 H3 H4 H5 H6 H7 H8] Hk. split; simpl; try done. intros s p w [[_ [= <- <-]]|[_ Hl]]%lookup_insert_Some; [done|by eapply H8].
Qed.

Lemma setUnder_ok st pair v : fsOk st → keptOk pair v → fsOk (setUnder st (Mix.mix64 pair) v).
Proof.
  intros [H1 H2 H3 H4 H5 H6 H7 H8] Hk. split; simpl; try done. intros key w [[<- <-]|[_ Hl]]%lookup_insert_Some; [by exists pair|by apply H7].
Qed.

Lemma addKnown_ok st f : fsOk st → fileAt f → fsOk (addKnown st f).
Proof. intros [H1 H2 H3 H4 H5 H6 H7 H8] Hf. split; simpl; try done. intros g [->%elem_of_singleton|Hg]%elem_of_union; auto. Qed.

Lemma findUnder_ok st prefix target c : fsOk st → ∃ st', findUnder st prefix target c = Some (st', under prefix target c) ∧ fsOk st'.
Proof.
  intros Hok. unfold findUnder. destruct (probeUnder_ok st prefix target c Hok) as (st1 & -> & Hok1). simpl. exists st1. split; [|done].
  unfold under. destruct (existsIn prefix target c) as [p d] eqn:He. destruct p, d; simpl; try done. destruct c; [done|].
  rewrite normalised_ok, joinRelInto_joined; [done|]. intros ->. by unfold existsIn in He.
Qed.

Lemma resolve0_ok st prefix target tc ck : fsOk st → named prefix → named target → regular target →
  (ck = true → tc = bool_decide (normalisePath target = Some target)) →
  ∃ st', resolveSourceUnder0 num st prefix target tc ck = Some (st', under prefix target (bool_decide (isClean target))) ∧ fsOk st'.
Proof.
  intros Hok Hp Ht Hreg Hflag. unfold resolveSourceUnder0. set (pair := pairOf num prefix target). set (slot := hotSlot num prefix target).
  set (res := under prefix target (bool_decide (isClean target))).
  assert (Hkept : keptOk pair res) by by exists prefix, target. destruct (pairOf_u64 prefix target Hp Ht) as [Hu H0].
  destruct (Z.eqb_spec (default (0, None) (sourceUnderHot st !! slot)).1 pair) as [He|_].
  { destruct (sourceUnderHot st !! slot) as [[k v]|] eqn:Hh; simpl in *; [|by destruct (H0 (eq_sym He))]. exists st. split; [|done]. do 2 f_equal.
    apply (fo_hot _ Hok) in Hh. by eapply kept_under. }
  destruct (sourceUnder st !! Mix.mix64 pair) as [v|] eqn:Hs.
  { apply (fo_under _ Hok) in Hs as (pair' & Hm & Hk). assert (pair = pair') as <-.
    { destruct Hk as (p' & t' & ? & ? & _ & -> & _). apply Mix.mix64_inj; [done|by apply pairOf_u64|done]. }
    assert (v = res) as -> by by eapply kept_under. eexists. split; [done|]. by apply setHot_ok. }
  assert (∃ c, (if ck then Some tc else cleanPath target) = Some c ∧ under prefix target c = res) as (c & -> & Hc).
  { destruct ck; [exists tc; split; [done|]; rewrite Hflag by done; by apply under_flag|]. rewrite cleanPath_ok. by eexists. }
  simpl. destruct (findUnder_ok st prefix target c Hok) as (st1 & -> & Hok1). simpl. rewrite Hc.
  eexists. split; [done|]. apply setHot_ok; [|done]. apply setUnder_ok; [|done].
  destruct res as [f|] eqn:Hr; [|done]. apply addKnown_ok; [done|]. by eapply under_file.
Qed.

Lemma isFilePathClean_ok st rel : fsOk st → ∃ st', isFilePathClean st rel = (st', bool_decide (fileAt rel)) ∧ fsOk st'.
Proof.
  intros Hok. unfold isFilePathClean, fileAt, existsAt. destruct (splitDirName rel) as [d n] eqn:Hs.
  destruct (hasIn_ok st d n Hok) as (st' & -> & Hok'). destruct (decide (rel = [])) as [->|Hne].
  - injection Hs as <- <-. assert (entry [] [] = (false, false)) as ->; [|by exists st'].
    apply entry_none. intros l b Hl Hin. by destruct (tr_names Htree _ _ _ _ Hl Hin) as [[] _].
  - rewrite (bool_decide_eq_false_2 (rel = [])) by done. destruct (entry d n) as [[] []]; by exists st'.
Qed.

Lemma isFileVFS_ok st rel : fsOk st → ∃ st', isFileVFS st rel = (st', bool_decide (fileAt rel)) ∧ fsOk st'.
Proof.
  intros Hok. unfold isFileVFS. case_bool_decide as Hk.
  - exists st. split; [|done]. f_equal. symmetry. apply bool_decide_eq_true_2. by apply (fo_known _ Hok).
  - destruct (isFilePathClean_ok st rel Hok) as (st' & -> & Hok'). destruct (bool_decide (fileAt rel)) eqn:Hb; [|by exists st'].
    eexists. split; [done|]. apply addKnown_ok; [done|]. by eapply bool_decide_eq_true_1.
Qed.

Lemma walkLoop_tree visit fuel : ∀ st queue, fsOk st → ∀ l, walkTree visit fuel queue = Some l →
  ∃ st', walkLoop fuel st visit queue = Some (st', l) ∧ fsOk st'.
Proof.
  induction fuel as [|fuel IH]; intros st [|d queue] Hok l Hl; cbn [walkLoop walkTree] in *; [injection Hl as <-; by exists st|done|injection Hl as <-; by exists st|].
  destruct (listdir_ok st d Hok) as (st1 & -> & Hok1 & _). destruct (visitNames visit d (default [] (tree !! d))) as [seen more].
  cbn in Hl |- *. destruct (walkTree visit fuel (queue ++ more)) as [rest|] eqn:Hr; [|done]. cbn in Hl. injection Hl as <-.
  destruct (IH st1 _ Hok1 _ Hr) as (st2 & -> & Hok2). by exists st2.
Qed.

Lemma walkDirID_ok st root visit : fsOk st → ∃ st' l, walkDirID st root visit = Some (st', l) ∧ fsOk st' ∧
  (if tree !! root is Some _ then NoDup l.*1 ∧ ∀ p b, (p, b) ∈ l ↔ walked visit root p b else l = []).
Proof.
  intros Hok. unfold walkDirID. destruct (listdir_ok st root Hok) as (st1 & -> & Hok1 & _).
  destruct (tree !! root) as [l0|] eqn:Hl; [|by exists st1, []]. destruct (visit root true) eqn:Hv; cbn [negb].
  - destruct (walk_all visit root Hv) as (seen & Hw & Hnd & Hin). destruct (walkLoop_tree visit _ st1 _ Hok1 _ Hw) as (st2 & -> & Hok2).
    by exists st2, ((root, true) :: seen).
  - exists st1, [(root, true)]. split; [done|]. split; [done|]. split; [apply NoDup_singleton|]. intros p b. rewrite list_elem_of_singleton. split; [intros [= -> ->]; constructor|].
    by intros [-> ->]%(walked_refused _ _ _ _ Hv).
Qed.

Lemma existsRel_ok st rel : fsOk st → rel = [] ∨ isClean rel → ∃ st', existsRel st rel = Some (st', existsAt rel) ∧ fsOk st'.
Proof.
  intros Hok Hrel. unfold existsRel, existsAt. rewrite cleanRel_id by done. cbn [mbind option_bind]. case_bool_decide as Hne; [by exists st|].
  destruct Hrel as [?|Hrel]; [done|]. destruct (splitDirName rel) as [d n] eqn:Hs. destruct (isClean_parent _ _ _ Hrel Hs) as (Hd & _).
  rewrite cleanRel_id by done. simpl. destruct (hasIn_ok st d n Hok) as (st' & -> & Hok'). by exists st'.
Qed.

Lemma walk_ok st rel visit : fsOk st → rel = [] ∨ isClean rel → ∃ st' l, walk st rel visit = Some (st', l) ∧ fsOk st' ∧
  match existsAt rel with
  | (false, _) => l = []
  | (true, false) => l = [(rel, false)]
  | (true, true) => NoDup l.*1 ∧ ∀ p b, (p, b) ∈ l ↔ walked visit rel p b
  end.
Proof.
  intros Hok Hrel. unfold walk. rewrite cleanRel_id by done. cbn [mbind option_bind].
  destruct (existsRel_ok st rel Hok Hrel) as (st1 & -> & Hok1). cbn [mbind option_bind].
  destruct (existsAt rel) as [[] []]; cbn [negb orb andb].
  - rewrite orb_false_r. destruct (visit rel true) eqn:Hv; cbn [negb].
    + rewrite cleanRel_id by done. cbn [mbind option_bind]. destruct (walk_all visit rel Hv) as (seen & Hw & Hnd & Hin). destruct (walkLoop_tree visit _ st1 _ Hok1 _ Hw) as (st2 & -> & Hok2).
      by exists st2, ((rel, true) :: seen).
    + exists st1, [(rel, true)]. split; [done|]. split; [done|]. split; [apply NoDup_singleton|]. intros p b. rewrite list_elem_of_singleton.
      split; [intros [= -> ->]; constructor|]. by intros [-> ->]%(walked_refused _ _ _ _ Hv).
  - rewrite orb_true_r. by exists st1, [(rel, false)].
  - by exists st1, [].
  - by exists st1, [].
Qed.

(** ** Sessions *)

Inductive Ask :=
  | AskUnder (prefix target : text)
  | AskUnderClean (prefix target : text)
  | AskExists (prefix suffix : text)
  | AskExistsID (prefix rel : text)
  | AskFile (rel : text)
  | AskFileAny (rel : text)
  | AskFileID (dir name : text)
  | AskFileClean (prefix suffix : text)
  | AskExistsRel (rel : text)
  | AskWalk (root : text) (visit : text → bool → bool)
  | AskWalkRel (rel : text) (visit : text → bool → bool).

Inductive Answer := APath (o : option text) | AThere (b : bool * bool) | AFile (b : bool) | AVisits (l : list (text * bool)).

(** The search passes on that the normal form of the name is the name. *)
Definition ask (st : OsFS) (a : Ask) : option (OsFS * Answer) :=
  match a with
  | AskUnder p t => '(st, o) ← resolveSourceUnder num st p t; Some (st, APath o)
  | AskUnderClean p t => n ← normalisePath t; '(st, o) ← resolveSourceUnderClean num st p t (bool_decide (n = t)); Some (st, APath o)
  | AskExists p s => '(st, b) ← exists_ st p s; Some (st, AThere b)
  | AskExistsID p r => '(st, b) ← existsID st p r; Some (st, AThere b)
  | AskFile r => let '(st, b) := isFileVFS st r in Some (st, AFile b)
  | AskFileAny r => '(st, b) ← isFileVFSAny st r; Some (st, AFile b)
  | AskFileID d n => let '(st, b) := isFileID st d n in Some (st, AFile b)
  | AskFileClean p s => '(st, b) ← isFileClean st p s; Some (st, AFile b)
  | AskExistsRel r => '(st, b) ← existsRel st r; Some (st, AThere b)
  | AskWalk r v => '(st, l) ← walkDirID st r v; Some (st, AVisits l)
  | AskWalkRel r v => '(st, l) ← walk st r v; Some (st, AVisits l)
  end.

Fixpoint askAll (st : OsFS) (l : list Ask) : option (OsFS * list Answer) :=
  match l with
  | [] => Some (st, [])
  | a :: l => '(st, x) ← ask st a; '(st, xs) ← askAll st l; Some (st, x :: xs)
  end.

Definition askOk (a : Ask) : Prop :=
  match a with
  | AskUnder p t | AskUnderClean p t => named p ∧ named t ∧ regular t
  | AskExistsRel r | AskWalkRel r _ => r = [] ∨ isClean r
  | _ => True
  end.

(** What the tree says. *)
Definition answerOk (a : Ask) (x : Answer) : Prop :=
  match a, x with
  | AskUnder p t, APath o | AskUnderClean p t, APath o => o = under p t (bool_decide (isClean t))
  | AskExists p s, AThere b => b = existsIn p s (bool_decide (isClean s))
  | AskExistsID p s, AThere b => b = existsIn p s (bool_decide (isClean s))
  | AskFile r, AFile b => b = bool_decide (fileAt r)
  | AskFileAny r, AFile b => b = bool_decide (existsIn [] r (bool_decide (isClean r)) = (true, false))
  | AskFileID d n, AFile b => b = bool_decide (entry d n = (true, false))
  | AskFileClean p s, AFile b => b = bool_decide (existsIn p s true = (true, false))
  | AskWalk r v, AVisits l => if tree !! r is Some _ then NoDup l.*1 ∧ ∀ p b, (p, b) ∈ l ↔ walked v r p b else l = []
  | AskExistsRel r, AThere b => b = existsAt r
  | AskWalkRel r v, AVisits l =>
      match existsAt r with (false, _) => l = [] | (true, false) => l = [(r, false)] | (true, true) => NoDup l.*1 ∧ ∀ p b, (p, b) ∈ l ↔ walked v r p b end
  | _, _ => False
  end.

Lemma ask_ok st a : fsOk st → askOk a → ∃ st' x, ask st a = Some (st', x) ∧ fsOk st' ∧ answerOk a x.
Proof.
  intros Hok Ha. destruct a as [p t|p t|p s|p r|r|r|d n|p s|r|r v|r v]; simpl in *.
  - destruct Ha as (Hp & Ht & Hr). destruct (resolve0_ok st p t false false Hok Hp Ht Hr) as (st' & Hst & Hok'); [done|].
    unfold resolveSourceUnder. rewrite Hst. simpl. by eexists _, _.
  - destruct Ha as (Hp & Ht & Hr). assert (∃ n, normalisePath t = Some n) as [n Hn].
    { unfold normalisePath. destruct (_ && _); [by eexists|]. destruct (normaliseAppend_spec [] 256 t) as (r & ok & -> & _). by eexists. }
    destruct (resolve0_ok st p t (bool_decide (n = t)) true Hok Hp Ht Hr) as (st' & Hst & Hok').
    { intros _. rewrite Hn. apply bool_decide_ext. split; congruence. }
    rewrite Hn. cbn [mbind option_bind]. unfold resolveSourceUnderClean. rewrite Hst. simpl. by eexists _, _.
  - unfold exists_. rewrite cleanPath_ok. simpl. destruct (existsClean_ok st p s (bool_decide (isClean s)) Hok) as (st' & -> & Hok'). by eexists _, _.
  - destruct (existsID_ok st p r Hok) as (st' & -> & Hok'). by eexists _, _.
  - destruct (isFileVFS_ok st r Hok) as (st' & -> & Hok'). by eexists _, _.
  - unfold isFileVFSAny, isFile, exists_. rewrite !cleanPath_ok. cbn [mbind option_bind]. destruct (bool_decide (isClean r)) eqn:Hc.
    + destruct (isFileVFS_ok st r Hok) as (st' & -> & Hok'). simpl. eexists _, _. split; [reflexivity|]. split; [exact Hok'|]. apply bool_decide_ext.
      apply bool_decide_eq_true_1 in Hc as [Hne Hc]. unfold existsIn, fileAt. rewrite bool_decide_eq_false_2 by done. destruct (rooted r) eqn:Hr; [|done].
      apply rooted_split in Hr. destruct (split_cons r) as (x & xs & Hx). rewrite Hx in *. simpl in Hr. subst x. by apply Forall_cons in Hc as [[] _].
    + destruct (existsClean_ok st [] r false Hok) as (st' & -> & Hok'). cbn. destruct (existsIn [] r false) as [[] []]; by eexists _, _.
  - unfold isFileID. destruct (listdir_entry st d n Hok) as (st' & He & Hok'). destruct (listdir st d) as [st1 v]. injection He as He.
    destruct v as [l|]; injection He as -> He; [rewrite He|rewrite <- He]; destruct (entry d n) as [[] []]; try discriminate He; by eexists _, _.
  - unfold isFileClean. destruct (existsClean_ok st p s true Hok) as (st' & -> & Hok'). destruct (existsIn p s true) as [[] []]; by eexists _, _.
  - destruct (existsRel_ok st r Hok Ha) as (st' & -> & Hok'). by eexists _, _.
  - destruct (walkDirID_ok st r v Hok) as (st' & l & -> & Hok' & Hl). by eexists _, _.
  - destruct (walk_ok st r v Hok Ha) as (st' & l & -> & Hok' & Hl). by eexists _, _.
Qed.

Lemma askAll_ok l : ∀ st, fsOk st → Forall askOk l → ∃ st' xs, askAll st l = Some (st', xs) ∧ Forall2 answerOk l xs.
Proof.
  induction l as [|a l IH]; intros st Hok Hl; [by exists st, []|]. apply Forall_cons in Hl as [Ha Hl].
  destruct (ask_ok st a Hok Ha) as (st1 & x & Hx & Hok1 & Hans). destruct (IH st1 Hok1 Hl) as (st2 & xs & Hxs & Hall).
  cbn [askAll]. rewrite Hx. cbn. rewrite Hxs. cbn. exists st2, (x :: xs). split; [done|]. by constructor.
Qed.

End SourceTree.

(** ** A tree *)

Module TreeExample.
Definition tree : gmap text (list (text * bool)) :=
  {[ [] := [(bs "inc", true); (bs "top.h", false)]; bs "inc" := [(bs "a.h", false); (bs "x", true); (bs "y", true)]; bs "inc/x" := [(bs "b.h", false)] ]}.

Definition texts : list text := bs <$> ["nothing"; "inc"; "a.h"; "x/b.h"; "x/../a.h"; "/a.h"]%string.
Definition number (t : text) : Z := match list_find (t =.) texts with Some (k, _) => Z.of_nat k | None => 0 end.
Definition named (t : text) : Prop := t ∈ tail texts.

Lemma tree_ok : Tree tree.
Proof.
  assert (H1 : map_Forall (λ d (_ : list (text * bool)), d = [] ∨ isClean d) tree) by (apply (bool_decide_unpack _); vm_compute; reflexivity).
  assert (H2 : map_Forall (λ d (_ : list (text * bool)), d = [] ∨ (λ l, bool_decide (((splitDirName d).2, true) ∈ l)) <$> tree !! (splitDirName d).1 = Some true) tree)
    by (apply (bool_decide_unpack _); vm_compute; reflexivity).
  assert (H3 : map_Forall (λ (_ : text) (l : list (text * bool)), Forall (λ e, clean_seg e.1 ∧ c_slash ∉ e.1) l) tree) by (apply (bool_decide_unpack _); vm_compute; reflexivity).
  assert (H4 : map_Forall (λ (_ : text) (l : list (text * bool)), NoDup l.*1) tree) by (apply (bool_decide_unpack _); vm_compute; reflexivity).
  split.
  - exact H1.
  - intros d l d' n Hl Hd Hs. destruct (H2 _ _ Hl) as [?|He]; [done|]. rewrite Hs in He. cbn [fst snd] in He.
    destruct (tree !! d') as [l'|]; [|done]. injection He as He. exists l'. split; [done|]. by apply bool_decide_eq_true_1 in He.
  - intros d l n b Hl Hb. specialize (H3 _ _ Hl). rewrite Forall_forall in H3. by apply (H3 (n, b)).
  - exact H4.
Qed.

Lemma number_ok p : named p → is_u32 (number p) ∧ number p ≠ 0.
Proof. revert p. apply Forall_forall. repeat constructor; try done. Qed.

Lemma texts_inj p q : named p → named q → number p = number q → p = q.
Proof.
  assert (H : Forall (λ p, Forall (λ q, number p = number q → p = q) (tail texts)) (tail texts)) by (apply (bool_decide_unpack _); vm_compute; reflexivity).
  intros Hp Hq. rewrite Forall_forall in H. specialize (H p Hp). rewrite Forall_forall in H. by apply H.
Qed.

Definition questions : list Ask :=
  [AskUnder (bs "inc") (bs "a.h"); AskUnderClean (bs "inc") (bs "x/b.h"); AskUnder (bs "inc") (bs "x/../a.h"); AskWalk (bs "inc") (λ _ b, b);
   AskFile (bs "inc/x/b.h"); AskExists [] (bs "inc/y"); AskUnderClean (bs "inc") (bs "a.h")].


Example questions_answered : snd <$> askAll tree number newFS questions =
  Some [APath (Some (bs "inc/a.h")); APath (Some (bs "inc/x/b.h")); APath (Some (bs "inc/a.h"));
        AVisits [(bs "inc", true); (bs "inc/a.h", false); (bs "inc/x", true); (bs "inc/y", true); (bs "inc/x/b.h", false)];
        AFile true; AThere (true, true); APath (Some (bs "inc/a.h"))].
Proof. vm_compute. reflexivity. Qed.

(** The two notions of clean share the kept answers: whether an absolute name is found below a directory depends on who asked first. *)
Lemma odd_name_order :
  snd <$> askAll tree number newFS [AskUnder (bs "inc") (bs "/a.h"); AskUnderClean (bs "inc") (bs "/a.h")] =
    Some [APath (Some (bs "inc/a.h")); APath (Some (bs "inc/a.h"))] ∧
  snd <$> askAll tree number newFS [AskUnderClean (bs "inc") (bs "/a.h"); AskUnder (bs "inc") (bs "/a.h")] = Some [APath None; APath None].
Proof. vm_compute. done. Qed.
End TreeExample.
