(* ===== verification/Resolve.v ===== *)
(** * Search paths of includes (scanner.go, parsers_manager.go)

    An include that is not found beside its includer is searched in the outputs of
    generators, in the source root, in the directories of the module and of its peers and
    in the base paths, in this order.  The code does not probe the directories of a module
    and its peers one by one: the files below every such directory are entered in one
    index by name, each configuration ranks its directories, and the candidate of the least
    rank wins, unless a directory of generated files ranks before it.  Results are kept in a
    table, with a direct-mapped array and a set of names in front of it, under the mixed
    number of the configuration and the name.  Shown: the answers are those of the
    directories probed in order.

    The file system and the registry of generated files are a view with laws ([Files]);
    it does not change between questions.  Maps and sets by id are finite maps and sets. *)

From S2P Require Import Prelude Words Paths Expansion.
Local Open Scope Z_scope.

Abbreviation text := (list Z) (only parsing).

(** A file id: below the build root or the source root, and the path there. *)
Definition VFS : Type := bool * text.
Definition isBuild (v : VFS) : bool := v.1.
Definition rel (v : VFS) : text := v.2.
Definition source (r : text) : VFS := (false, r).

(** What the rest of the program answers. *)
Class Files := {
  sourceUnder : text → text → option text;       (** [resolveSourceUnderClean]: the file of a name below a directory *)
  walkFiles : text → list text;                  (** the files [walkDirID] visits, by their paths *)
  includeSTR : text → option VFS;                (** [lookupIncludeSTR]: the output with a path *)
  includeSplit : text → text → option VFS;       (** [lookupIncludeSplit]: the output with a name below a directory *)
  isInterned : text → bool }.                    (** [interned] finds the text *)

Definition cleanDir (d : text) : Prop := d ≠ [] ∧ pathIsClean d = Some true.

Class FilesLaws `{Files} : Prop := {
  walk_under : ∀ dir f, cleanDir dir →
    f ∈ walkFiles dir ↔ ∃ t, f = joined dir t ∧ normalisePath t = Some t ∧ is_Some (sourceUnder dir t);
  under_joined : ∀ dir t r, normalisePath t = Some t → sourceUnder dir t = Some r → r = joined dir t;
  split_root : ∀ t, isClean t → includeSplit [] t = includeSTR t }.

Section Resolve.
Context `{!Files}.

(** ** Configurations *)

Record CfgBuildAddincl := mkBuildEntry { prefix : VFS; prefixSrc : text; b_rank : nat }.
Record CfgResolveIndex := mkResolveIndex { indexable : bool; ranks : gmap VFS nat; buildEntries : list CfgBuildAddincl }.

Definition isRoot (p : VFS) : bool := negb (isBuild p) && bool_decide (rel p = []).

(** [add], with the next rank. *)
Definition addRank (s : gmap VFS nat * list CfgBuildAddincl * nat) (p : VFS) : gmap VFS nat * list CfgBuildAddincl * nat :=
  let '(m, bs, r) := s in
  match m !! p with
  | Some _ => s
  | None => (<[p := r]> m, if isBuild p then bs ++ [mkBuildEntry p (rel p) r] else bs, S r)
  end.

Definition buildCfgResolveIndex (own peer : list VFS) : CfgResolveIndex :=
  if existsb isRoot own || existsb isRoot peer then mkResolveIndex false ∅ []
  else let '(m, bs, _) := foldl addRank (foldl addRank (∅, [], 0%nat) own) peer in mkResolveIndex true m bs.

Record ScanConfig := mkConfig { num : Z; ownAddIncl : list VFS; peerAddInclSet : list VFS; baseSearchPaths : list VFS; ri : CfgResolveIndex }.

(** [hashScanConfig]; [word] is the number of a file id. *)
Context (word : VFS → Z).
Definition mixSlice (h : Z) (ss : list VFS) : Z := foldl (λ h v, Mix.mix64 (Z.lxor h (word v))) (Mix.mix64 (Z.lxor h (Z.of_nat (length ss)))) ss.
Definition hashScanConfig (own peer base : list VFS) : Z := mixSlice (mixSlice (mixSlice 0x9e3779b97f4a7c15 own) peer) base.

Record Manager := mkManager { scanConfigs : gmap Z ScanConfig; scanConfigCount : Z; addinclIndex : gmap text (list VFS); addinclIndexed : gset VFS }.

(** The name of a file below the directory is what follows the directory and a slash. *)
Fixpoint noteFiles (a : VFS) (m : gmap text (list VFS)) (files : list text) : option (gmap text (list VFS)) :=
  match files with
  | [] => Some m
  | f :: files =>
      if (S (length (rel a)) <=? length f)%nat then
        let t := drop (S (length (rel a))) f in noteFiles a (<[t := default [] (m !! t) ++ [a]]> m) files
      else None
  end.

Definition indexAddincl (pm : Manager) (a : VFS) : option Manager :=
  if isBuild a || bool_decide (rel a = []) then Some pm
  else if bool_decide (a ∈ addinclIndexed pm) then Some pm
  else
    clean ← pathIsClean (rel a);
    root ← (if (clean : bool) then Some (rel a) else cleanRel (rel a));
    m ← noteFiles a (addinclIndex pm) (walkFiles root);
    Some (mkManager (scanConfigs pm) (scanConfigCount pm) m ({[a]} ∪ addinclIndexed pm)).

Fixpoint indexAll (pm : Manager) (ps : list VFS) : option Manager :=
  match ps with [] => Some pm | p :: ps => pm ← indexAddincl pm p; indexAll pm ps end.

Definition resolveScanConfig (pm : Manager) (own peer base : list VFS) : option (Manager * ScanConfig) :=
  let h := hashScanConfig own peer base in
  match scanConfigs pm !! h with
  | Some sc => Some (pm, sc)
  | None =>
      let sc := mkConfig (scanConfigCount pm) own peer base (buildCfgResolveIndex own peer) in
      let pm := mkManager (<[h := sc]> (scanConfigs pm)) (u32 (scanConfigCount pm + 1)) (addinclIndex pm) (addinclIndexed pm) in
      pm ← (if indexable (ri sc) then pm ← indexAll pm own; indexAll pm peer else Some pm);
      Some (pm, sc)
  end.

(** ** Kept results *)

Record Scanner := mkScanner { searchTierFlat : gmap Z (option VFS); searchTierSeen : gset Z; searchTierHot : gmap Z (Z * option VFS) }.

(** The array starts with zeros: key 0, no file. *)
Definition hotSlot (key : Z) : Z := Z.land key 32767.
Definition hotAt (s : Scanner) (key : Z) : Z * option VFS := default (0, None) (searchTierHot s !! hotSlot key).

Definition cacheSearchTier (s : Scanner) (initialOnly : bool) (cfg : ScanConfig) (target : Z) (out : option VFS) : Scanner :=
  if initialOnly && bool_decide (out = None) then s
  else
    let key := Mix.splitMix64 (num cfg) target in
    mkScanner (<[key := out]> (searchTierFlat s)) ({[target]} ∪ searchTierSeen s) (<[hotSlot key := (key, out)]> (searchTierHot s)).

(** ** The search *)

(** The name generated files are looked up by: 0 ([None]) when the normal form of the target is no known text. *)
Definition buildSuffix (target norm : text) : option text :=
  if bool_decide (norm = target) then Some target else if isInterned norm then Some norm else None.

Definition addSource (p : VFS) (target : text) : option VFS := source <$> sourceUnder (rel p) target.
Definition addBuild (p : VFS) (suffix : option text) : option VFS :=
  s ← suffix; if bool_decide (p = (true, [])) then includeSTR s else includeSplit (rel p) s.
Definition addInclPath (target : text) (suffix : option text) (p : VFS) : option VFS := if isBuild p then addBuild p suffix else addSource p target.

Fixpoint probe (target : text) (suffix : option text) (ps : list VFS) : option VFS :=
  match ps with [] => None | p :: ps => match addInclPath target suffix p with Some v => Some v | None => probe target suffix ps end end.

Definition canRelFilter (first target : text) : bool :=
  negb (bool_decide (first = [])) && negb (bool_decide (first = dot)) && negb (bool_decide (first = dotdot)) && negb (contains target (c_slash :: dotdot)).

Definition canIndex (target norm : text) : bool :=
  bool_decide (norm = target) ||
  canRelFilter (firstComponent target).1 target && negb (contains target (c_slash :: dot ++ [c_slash])) && negb (contains target [c_slash; c_slash]).

(** The candidate of the least rank; [None] is [resolveNoRank]. *)
Definition betterSource (m : gmap VFS nat) (best : option (nat * VFS)) (a : VFS) : option (nat * VFS) :=
  match m !! a with
  | None => best
  | Some r => match best with Some (r0, _) => if (r <? r0)%nat then Some (r, a) else best | None => Some (r, a) end
  end.

(** The rank and the file; a directory of generated files replaces what ranks after it. *)
Definition betterBuild (suffix : text) (best : option (nat * VFS)) (b : CfgBuildAddincl) : option (nat * VFS) :=
  if match best with Some (r, _) => (r <=? b_rank b)%nat | None => false end then best
  else match includeSplit (prefixSrc b) suffix with Some info => Some (b_rank b, info) | None => best end.

Definition indexSearch (pm : Manager) (cfg : ScanConfig) (target : text) (suffix : option text) : option VFS :=
  let cands := default [] (addinclIndex pm !! target) in
  let best := (λ ra, (ra.1, source (joined (rel ra.2) target))) <$> foldl (betterSource (ranks (ri cfg))) None cands in
  let best := match suffix with Some s => foldl (betterBuild s) best (buildEntries (ri cfg)) | None => best end in
  match best with Some (_, out) => Some out | None => probe target suffix (baseSearchPaths cfg) end.

Definition findTier (pm : Manager) (cfg : ScanConfig) (target : text) : option (option VFS) :=
  norm ← normalisePath target;
  let suffix := buildSuffix target norm in
  match (s ← suffix; includeSTR s) with
  | Some v => Some (Some v)
  | None =>
      match sourceUnder [] target with
      | Some r => Some (Some (source r))
      | None =>
          if canIndex target norm && indexable (ri cfg) then Some (indexSearch pm cfg target suffix)
          else
            Some (match probe target suffix (ownAddIncl cfg) with
                  | Some v => Some v
                  | None => match probe target suffix (peerAddInclSet cfg) with Some v => Some v | None => probe target suffix (baseSearchPaths cfg) end
                  end)
      end
  end.

Context (string_ : Z → text).

Definition resolveContextSearchTier (pm : Manager) (s : Scanner) (initialOnly : bool) (cfg : ScanConfig) (target : Z) : option (Scanner * option VFS) :=
  let key := Mix.splitMix64 (num cfg) target in
  let hot := hotAt s key in
  if hot.1 =? key then Some (s, hot.2)
  else
    match (if bool_decide (target ∈ searchTierSeen s) then searchTierFlat s !! key else None) with
    | Some cached => Some (mkScanner (searchTierFlat s) (searchTierSeen s) (<[hotSlot key := (key, cached)]> (searchTierHot s)), cached)
    | None => out ← findTier pm cfg (string_ target); Some (cacheSearchTier s initialOnly cfg target out, out)
    end.

(** A question: the directories of a configuration, whether generators may still run, and the name. *)
Record Question := mkQuestion { q_own : list VFS; q_peer : list VFS; q_base : list VFS; q_initial : bool; q_target : Z }.

Definition ask (st : Manager * Scanner) (q : Question) : option (Manager * Scanner * option VFS) :=
  '(pm, cfg) ← resolveScanConfig st.1 (q_own q) (q_peer q) (q_base q);
  '(s, out) ← resolveContextSearchTier pm st.2 (q_initial q) cfg (q_target q);
  Some (pm, s, out).

Fixpoint askAll (st : Manager * Scanner) (qs : list Question) : option (Manager * Scanner * list (option VFS)) :=
  match qs with
  | [] => Some (st, [])
  | q :: qs => '(st, out) ← ask st q; '(st, outs) ← askAll st qs; Some (st, out :: outs)
  end.

Definition started : Manager * Scanner := (mkManager ∅ 0 ∅ ∅, mkScanner ∅ ∅ ∅).

(** ** What is meant *)

(** The generated file with the name, the source file of that path, then the places in order. *)
Definition searchTier (own peer base : list VFS) (target : text) : option VFS :=
  let suffix := buildSuffix target (default [] (normalisePath target)) in
  match (s ← suffix; includeSTR s) with
  | Some v => Some v
  | None => match sourceUnder [] target with Some r => Some (source r) | None => probe target suffix (own ++ peer ++ base) end
  end.

(** ** Ranks *)

Fixpoint firstSome {B} (f : VFS → option B) (ps : list VFS) : option B :=
  match ps with [] => None | p :: ps => match f p with Some v => Some v | None => firstSome f ps end end.

Lemma probe_firstSome target suffix ps : probe target suffix ps = firstSome (addInclPath target suffix) ps.
Proof. induction ps as [|p ps IH]; simpl; [done|]. by rewrite IH. Qed.

Lemma firstSome_app {B} (f : VFS → option B) ps qs :
  firstSome f (ps ++ qs) = match firstSome f ps with Some v => Some v | None => firstSome f qs end.
Proof. induction ps as [|p ps IH]; simpl; [done|]. destruct (f p); [done|apply IH]. Qed.

Lemma firstSome_None {B} (f : VFS → option B) ps p : firstSome f ps = None → p ∈ ps → f p = None.
Proof.
  induction ps as [|q ps IH]; simpl; intros Hf Hp; [by apply not_elem_of_nil in Hp|].
  destruct (f q) eqn:Hq; [done|]. apply elem_of_cons in Hp as [-> |Hp]; auto.
Qed.

(** The file of the least number for which [H] holds. *)
Definition least {B} (H : nat → B → Prop) (o : option (nat * B)) : Prop :=
  match o with None => ∀ k v, ¬ H k v | Some (k, v) => H k v ∧ ∀ k' v', H k' v' → (k <= k')%nat end.

Definition hit {B} (f : VFS → option B) (ds : list VFS) (k : nat) (v : B) : Prop := ∃ p, ds !! k = Some p ∧ f p = Some v.

Lemma firstSome_hit {B} (f : VFS → option B) ds v : firstSome f ds = Some v →
  ∃ k, hit f ds k v ∧ ∀ k' v', hit f ds k' v' → (k <= k')%nat.
Proof.
  induction ds as [|p ds IH]; simpl; [done|]. destruct (f p) as [w|] eqn:Hp.
  - intros [= ->]. exists 0%nat. split; [by exists p|]. intros; lia.
  - intros (k & (q & Hq & Hv) & Hmin)%IH. exists (S k). split; [by exists q|].
    intros [|k'] v' (q' & Hq' & Hv'); simpl in Hq'; [simplify_eq; congruence|].
    apply le_n_S, (Hmin k' v'). by exists q'.
Qed.

Lemma firstSome_least {B} (f : VFS → option B) ds o : least (hit f ds) o → firstSome f ds = snd <$> o.
Proof.
  intros Ho. destruct (firstSome f ds) as [v|] eqn:Hf.
  - apply firstSome_hit in Hf as (k & Hk & Hmin). destruct o as [[k0 v0]|]; [|by destruct (Ho _ _ Hk)].
    destruct Ho as [H0 Hmin0]. assert (k0 = k) as -> by (apply Nat.le_antisymm; eauto).
    destruct Hk as (p & Hp & Hv), H0 as (q & Hq & Hw). simplify_eq/=. congruence.
  - destruct o as [[k0 v0]|]; [|done]. destruct Ho as [(p & Hp & Hv) _].
    apply list_elem_of_lookup_2 in Hp. by rewrite (firstSome_None f ds p) in Hv.
Qed.

(** The distinct directories in order, with their ranks. *)
Record ranked (l : list VFS) (s : gmap VFS nat * list CfgBuildAddincl * nat) (ds : list VFS) : Prop := {
  rk_len : length ds = s.2;
  rk_map : ∀ p k, s.1.1 !! p = Some k ↔ ds !! k = Some p;
  rk_build : ∀ b, b ∈ s.1.2 ↔ ∃ p, isBuild p = true ∧ ds !! b_rank b = Some p ∧ prefixSrc b = rel p ∧ prefix b = p;
  rk_mem : ∀ p, p ∈ ds ↔ p ∈ l;
  rk_first : ∀ B (f : VFS → option B), firstSome f ds = firstSome f l }.

Lemma addRank_ranked l s ds p : ranked l s ds → ∃ ds', ranked (l ++ [p]) (addRank s p) ds'.
Proof.
  destruct s as [[m bs] r]. intros [Hlen Hmap Hbuild Hmem Hfirst]. simpl in *. destruct (m !! p) as [k|] eqn:Hp.
  - exists ds. pose proof Hp as Hin. apply Hmap, list_elem_of_lookup_2 in Hin. split; simpl; [done..| |].
    + intros q. rewrite Hmem, elem_of_app, list_elem_of_singleton. split; [by left|]. intros [?| ->]; [done|]. by apply Hmem.
    + intros B f. rewrite firstSome_app, <- Hfirst. destruct (firstSome f ds) eqn:Hf; [done|]. simpl. by rewrite (firstSome_None f ds p).
  - exists (ds ++ [p]). assert (Hnew : p ∉ ds). { intros [k Hk]%list_elem_of_lookup_1. apply Hmap in Hk. congruence. }
    split; simpl.
    + rewrite length_app. simpl. lia.
    + intros q k. rewrite lookup_insert_Some, Hmap, lookup_app_Some. split.
      * intros [[-> <-]|[Hne Hk]]; [|by left]. right. rewrite Hlen, Nat.sub_diag. split; [lia|done].
      * intros [Hk|[Hge Hk]]; [right|left].
        -- split; [|done]. intros <-. apply Hnew. by eapply list_elem_of_lookup_2.
        -- destruct (k - length ds)%nat as [|[|]] eqn:Hd; simplify_eq/=. split; [done|lia].
    + intros b. assert (Hnewb : ∀ q, (ds ++ [p]) !! b_rank b = Some q ↔ ds !! b_rank b = Some q ∨ (b_rank b = r ∧ q = p)).
      { intros q. rewrite lookup_app_Some. split; (intros [?|[H1 H2]]; [by left|right]).
        - destruct (b_rank b - length ds)%nat as [|[|]] eqn:Hd; simplify_eq/=. split; [lia|done].
        - subst q. rewrite H1, Hlen, Nat.sub_diag. split; [lia|done]. }
      setoid_rewrite Hnewb. destruct (isBuild p) eqn:Hb.
      * rewrite elem_of_app, Hbuild, list_elem_of_singleton. split.
        -- intros [(q & ? & ? & ? & ?)| ->]; [exists q; tauto|]. exists p. simpl. tauto.
        -- intros (q & Hq & [Hk|[Hr ->]] & Hs & Hpre); [left; by exists q|right]. destruct b; simpl in *; congruence.
      * rewrite Hbuild. split; intros (q & Hq & Hk & Hs & Hpre); exists q; [tauto|]. destruct Hk as [Hk|[_ ->]]; [done|congruence].
    + intros q. rewrite !elem_of_app, Hmem. done.
    + intros B f. by rewrite !firstSome_app, Hfirst.
Qed.

Lemma foldl_ranked l s ds ps : ranked l s ds → ∃ ds', ranked (l ++ ps) (foldl addRank s ps) ds'.
Proof.
  revert l s ds. induction ps as [|p ps IH]; intros l s ds Hs; simpl; [exists ds; by rewrite app_nil_r|].
  destruct (addRank_ranked _ _ _ p Hs) as [ds' Hs']. apply IH in Hs' as [ds2 Hs2]. exists ds2. by rewrite <- app_assoc in Hs2.
Qed.

Lemma build_ranked own peer : existsb isRoot own || existsb isRoot peer = false →
  indexable (buildCfgResolveIndex own peer) = true ∧
  ∃ r ds, ranked (own ++ peer) (ranks (buildCfgResolveIndex own peer), buildEntries (buildCfgResolveIndex own peer), r) ds.
Proof.
  intros Hroot. unfold buildCfgResolveIndex. rewrite Hroot.
  assert (H0 : ranked [] (∅, [], 0%nat) []).
  { split; simpl; [done| |set_solver|done|done]. intros p k. rewrite lookup_empty, lookup_nil. split; done. }
  destruct (foldl_ranked _ _ _ own H0) as [ds1 H1]. destruct (foldl_ranked _ _ _ peer H1) as [ds2 H2].
  destruct (foldl addRank (foldl addRank (∅, [], 0%nat) own) peer) as [[m bs] r]. split; [done|]. by exists r, ds2.
Qed.

(** ** The search by ranks *)

Lemma least_ext {B} (H1 H2 : nat → B → Prop) o : (∀ k v, H1 k v ↔ H2 k v) → least H1 o → least H2 o.
Proof.
  intros Heq. destruct o as [[k v]|]; simpl; [|intros Hn k v ?%Heq; by eapply Hn].
  intros [Hk Hmin]. split; [by apply Heq|]. intros k' v' ?%Heq. eauto.
Qed.

Lemma least_keep {B} (H0 : nat → B → Prop) k v k0 v0 : (k0 <= k)%nat → least H0 (Some (k0, v0)) →
  least (λ k' v', H0 k' v' ∨ (k' = k ∧ v' = v)) (Some (k0, v0)).
Proof. intros Hle [H1 Hmin]. split; [by left|]. intros k' v' [?|[-> ->]]; eauto. Qed.

Lemma least_take {B} (H0 : nat → B → Prop) k v o : least H0 o → (∀ k0 v0, o = Some (k0, v0) → (k <= k0)%nat) →
  least (λ k' v', H0 k' v' ∨ (k' = k ∧ v' = v)) (Some (k, v)).
Proof.
  intros Ho Hlt. split; [by right|]. intros k' v' [Hk|[-> ->]]; [|lia]. destruct o as [[k0 v0]|]; [|by apply Ho in Hk].
  destruct Ho as [_ Hmin]. specialize (Hlt _ _ eq_refl). apply Hmin in Hk. lia.
Qed.

Lemma foldl_least {B C} (step : option (nat * B) → C → option (nat * B)) (Q : C → nat → B → Prop) :
  (∀ H0 o c, least H0 o → least (λ k v, H0 k v ∨ Q c k v) (step o c)) →
  ∀ cs H0 o, least H0 o → least (λ k v, H0 k v ∨ ∃ c, c ∈ cs ∧ Q c k v) (foldl step o cs).
Proof.
  intros Hstep cs. induction cs as [|c cs IH]; intros H0 o Ho; simpl.
  - eapply least_ext; [|exact Ho]. set_solver.
  - eapply least_ext; [|exact (IH _ _ (Hstep _ _ c Ho))]. intros k v. simpl. set_solver.
Qed.

Lemma betterSource_least m H0 o a : least H0 o → least (λ k v, H0 k v ∨ (m !! a = Some k ∧ v = a)) (betterSource m o a).
Proof.
  intros Ho. unfold betterSource. destruct (m !! a) as [r|] eqn:Ha.
  - eapply (least_ext (λ k v, H0 k v ∨ (k = r ∧ v = a))); [intros k v; simpl; split; (intros [?|[? ?]]; [by left|right; split; congruence])|].
    destruct o as [[r0 a0]|]; [|by eapply least_take]. destruct (Nat.ltb_spec r r0).
    + eapply least_take; [exact Ho|]. intros ?? [= <- <-]. lia.
    + by apply least_keep.
  - eapply least_ext; [|exact Ho]. intros k v. simpl. split; [by left|]. by intros [?|[? _]].
Qed.

Lemma betterBuild_least s H0 o b : least H0 o →
  least (λ k v, H0 k v ∨ (k = b_rank b ∧ includeSplit (prefixSrc b) s = Some v)) (betterBuild s o b).
Proof.
  intros Ho. unfold betterBuild. destruct (includeSplit (prefixSrc b) s) as [w|] eqn:Hw.
  - eapply (least_ext (λ k v, H0 k v ∨ (k = b_rank b ∧ v = w))); [intros k v; simpl; split; (intros [?|[? ?]]; [by left|right; split; congruence])|].
    destruct o as [[r0 v0]|]; [|by eapply least_take]. destruct (Nat.leb_spec r0 (b_rank b)).
    + by apply least_keep.
    + eapply least_take; [exact Ho|]. intros ?? [= <- <-]. lia.
  - assert (∀ c : bool, (if c then o else o) = o) as -> by by intros [].
    eapply least_ext; [|exact Ho]. intros k v. simpl. split; [by left|]. by intros [?|[_ ?]].
Qed.

Lemma least_fmap {B C} (g : B → C) (H0 : nat → B → Prop) o : least H0 o →
  least (λ k v, ∃ a, H0 k a ∧ v = g a) ((λ ra, (ra.1, g ra.2)) <$> o).
Proof.
  destruct o as [[k v]|]; simpl.
  - intros [Hk Hmin]. split; [by exists v|]. intros k' v' (a & Ha & _). eauto.
  - intros Hn k v (a & Ha & _). by apply Hn in Ha.
Qed.

Context `{!FilesLaws}.

(** The root of the build is looked up as a directory in one search and by itself in the other. *)
Definition rootSafe (name : text) (dirs : list VFS) : Prop := isClean name ∨ (true, []) ∉ dirs.

Lemma addBuild_split p name dirs suffix : rootSafe name dirs → p ∈ dirs → suffix = Some name ∨ suffix = None →
  addBuild p suffix = (s ← suffix; includeSplit (rel p) s).
Proof.
  unfold addBuild. intros Hsafe Hp [->| ->]; simpl; [|done]. case_bool_decide as He; [|done]. subst p. simpl.
  destruct Hsafe as [Hc|Hn]; [by rewrite split_root|done].
Qed.

(** What the index has to hold about the directories of a configuration. *)
Definition covers (pm : Manager) (target : text) (dirs : list VFS) : Prop :=
  ∀ a, a ∈ dirs → a ∈ default [] (addinclIndex pm !! target) ↔ isBuild a = false ∧ is_Some (sourceUnder (rel a) target).

Lemma indexSearch_probe pm cfg target suffix : normalisePath target = Some target →
  existsb isRoot (ownAddIncl cfg) || existsb isRoot (peerAddInclSet cfg) = false →
  ri cfg = buildCfgResolveIndex (ownAddIncl cfg) (peerAddInclSet cfg) →
  covers pm target (ownAddIncl cfg ++ peerAddInclSet cfg) → rootSafe target (ownAddIncl cfg ++ peerAddInclSet cfg) →
  suffix = Some target ∨ suffix = None →
  indexSearch pm cfg target suffix = probe target suffix (ownAddIncl cfg ++ peerAddInclSet cfg ++ baseSearchPaths cfg).
Proof.
  intros Hclean Hroot Hri Hcov Hsafe Hsuf. destruct (build_ranked _ _ Hroot) as (_ & r & ds & Hds). rewrite <- Hri in Hds.
  destruct Hds as [_ Hmap Hbuild Hmem Hfirst]. simpl in *.
  assert (Hbs : ∀ k p, ds !! k = Some p → addBuild p suffix = (s ← suffix; includeSplit (rel p) s)).
  { intros k p Hk. eapply addBuild_split; [done| |done]. by eapply Hmem, list_elem_of_lookup_2. }
  set (f := addInclPath target suffix). rewrite probe_firstSome, app_assoc, firstSome_app, <- Hfirst. fold f.
  unfold indexSearch. set (cands := default [] _).
  pose proof (foldl_least _ _ (betterSource_least (ranks (ri cfg))) cands (λ _ _, False) None) as Hsrc.
  specialize (Hsrc ltac:(by intros ???)). apply (least_fmap (λ a, source (joined (rel a) target))) in Hsrc.
  set (best := fmap _ _) in *.
  assert (Hall : least (hit f ds) (match suffix with Some s => foldl (betterBuild s) best (buildEntries (ri cfg)) | None => best end)).
  { assert (Hsrc' : least (λ k v, ∃ p, ds !! k = Some p ∧ isBuild p = false ∧ f p = Some v) best).
    { eapply least_ext; [|exact Hsrc]. intros k v. split.
      - intros (a & [[]|(c & Hc & Hk & ->)] & ->). apply Hmap in Hk as Hd. exists c. split; [done|].
        apply (Hcov c) in Hc as [Hb [x Hx]]; [|by eapply Hmem, list_elem_of_lookup_2]. split; [done|].
        unfold f, addInclPath. rewrite Hb. unfold addSource. rewrite Hx. simpl. by rewrite (under_joined _ _ _ Hclean Hx).
      - intros (p & Hd & Hb & Hf). exists p. unfold f, addInclPath in Hf. rewrite Hb in Hf. unfold addSource in Hf.
        destruct (sourceUnder (rel p) target) as [x|] eqn:Hx; [|done]. simpl in Hf. injection Hf as <-.
        rewrite (under_joined _ _ _ Hclean Hx). split; [|done]. right. exists p. split; [|split; [by apply Hmap|done]].
        apply (Hcov p); [by eapply Hmem, list_elem_of_lookup_2|]. split; [done|by exists x]. }
    destruct suffix as [s|] eqn:Hs.
    - eapply least_ext; [|exact (foldl_least _ _ (betterBuild_least s) (buildEntries (ri cfg)) _ _ Hsrc')]. intros k v. split.
      + intros [(p & Hp & _ & Hf)|(b & Hb & -> & Hi)]; [by exists p|]. apply Hbuild in Hb as (p & Hb & Hp & Hps & _).
        exists p. split; [done|]. unfold f, addInclPath. rewrite Hb, (Hbs _ _ Hp). simpl. by rewrite <- Hps.
      + intros (p & Hp & Hf). destruct (isBuild p) eqn:Hb; [right|left; by exists p].
        exists (mkBuildEntry p (rel p) k). split; [apply Hbuild; exists p; done|]. split; [done|].
        unfold f, addInclPath in Hf. rewrite Hb, (Hbs _ _ Hp) in Hf. done.
    - eapply least_ext; [|exact Hsrc']. intros k v. split; intros (p & Hp & Hf); exists p; [tauto|].
      unfold f, addInclPath in *. destruct (isBuild p); [|done]. by rewrite (Hbs _ _ Hp) in Hf. }
  rewrite (firstSome_least f ds _ Hall). match goal with Hall : least _ ?o |- _ => destruct o as [[k v]|] end; [done|]. simpl. by rewrite probe_firstSome.
Qed.

Lemma normalisePath_total target : ∃ norm, normalisePath target = Some norm.
Proof.
  unfold normalisePath. destruct (_ && _); [by eexists|]. destruct (normaliseAppend_spec [] 256 target) as (r & ok & -> & _). by eexists.
Qed.

(** Names that go through the index are in normal form.  The exceptions are names such as [a../b/], with two dots inside a
    component and a slash or a dot at the end: the index, which has no such names, does not find their files. *)
Definition plainName (target : text) : Prop :=
  canIndex target (default [] (normalisePath target)) = true → normalisePath target = Some target.

Lemma findTier_searchTier pm cfg target : plainName target → rootSafe target (ownAddIncl cfg ++ peerAddInclSet cfg) →
  ri cfg = buildCfgResolveIndex (ownAddIncl cfg) (peerAddInclSet cfg) →
  (indexable (ri cfg) = true → normalisePath target = Some target → covers pm target (ownAddIncl cfg ++ peerAddInclSet cfg)) →
  findTier pm cfg target = Some (searchTier (ownAddIncl cfg) (peerAddInclSet cfg) (baseSearchPaths cfg) target).
Proof.
  intros Hplain Hsafe Hri Hcov. unfold findTier, searchTier, plainName in *. destruct (normalisePath_total target) as [norm Hn]. rewrite Hn in *. simpl in *.
  set (suffix := buildSuffix target norm). destruct (s ← suffix; includeSTR s) as [v|]; [done|]. destruct (sourceUnder [] target); [done|].
  destruct (canIndex target norm) eqn:Hc; simpl.
  - destruct (indexable (ri cfg)) eqn:Hx.
    + f_equal. specialize (Hplain eq_refl). apply indexSearch_probe; [congruence| |done|by apply Hcov|done|].
      2: { unfold suffix, buildSuffix. case_bool_decide; [by left|congruence]. }
      rewrite Hri in Hx. unfold buildCfgResolveIndex in Hx. by destruct (existsb _ _ || _).
    + f_equal. rewrite !probe_firstSome, !firstSome_app. by destruct (firstSome _ (ownAddIncl cfg)).
  - f_equal. rewrite !probe_firstSome, !firstSome_app. by destruct (firstSome _ (ownAddIncl cfg)).
Qed.

(** ** The index *)

(** A source directory other than the root is written cleanly. *)
Definition goodDir (a : VFS) : Prop := isBuild a = false → rel a ≠ [] → cleanDir (rel a).

Record indexOk (index : gmap text (list VFS)) (indexed : gset VFS) : Prop := {
  ix_dirs : ∀ a, a ∈ indexed → isBuild a = false ∧ cleanDir (rel a);
  ix_files : ∀ t a, a ∈ default [] (index !! t) ↔ a ∈ indexed ∧ joined (rel a) t ∈ walkFiles (rel a) }.

Lemma joined_dir (a : VFS) t : rel a ≠ [] → joined (rel a) t = rel a ++ c_slash :: t.
Proof. intros Ha. unfold joined. by rewrite bool_decide_eq_false_2. Qed.

Lemma noteFiles_spec a files : ∀ m, rel a ≠ [] → (∀ f, f ∈ files → ∃ t, f = joined (rel a) t) →
  ∃ m', noteFiles a m files = Some m' ∧
    ∀ t b, b ∈ default [] (m' !! t) ↔ b ∈ default [] (m !! t) ∨ (b = a ∧ joined (rel a) t ∈ files).
Proof.
  induction files as [|f files IH]; intros m Ha Hfs; cbn [noteFiles]; [exists m; split; [done|]; set_solver|].
  destruct (Hfs f ltac:(set_solver)) as [t Hf]. rewrite joined_dir in Hf by done.
  rewrite (proj2 (Nat.leb_le _ _)) by (subst f; rewrite length_app; simpl; lia).
  assert (Hd : drop (S (length (rel a))) f = t). { subst f. rewrite <- Nat.add_1_r, <- drop_drop, drop_app_length. done. } rewrite Hd.
  destruct (IH (<[t := default [] (m !! t) ++ [a]]> m)) as (m' & Hm' & Hspec); [done|set_solver|]. exists m'. split; [done|].
  intros t' b. rewrite Hspec, elem_of_cons. destruct (decide (t' = t)) as [->|Hne].
  - rewrite lookup_insert_eq. simpl. rewrite elem_of_app, list_elem_of_singleton, (joined_dir a t) by done. subst f. tauto.
  - rewrite lookup_insert_ne by done. split; [tauto|]. intros [?|[-> [He|?]]]; [by left| |by right].
    rewrite joined_dir in He by done. subst f. simplify_list_eq.
Qed.

Lemma indexAddincl_spec pm a : goodDir a → indexOk (addinclIndex pm) (addinclIndexed pm) →
  ∃ pm', indexAddincl pm a = Some pm' ∧ indexOk (addinclIndex pm') (addinclIndexed pm') ∧
    scanConfigs pm' = scanConfigs pm ∧ scanConfigCount pm' = scanConfigCount pm ∧ addinclIndexed pm ⊆ addinclIndexed pm' ∧
    (isBuild a = true ∨ rel a = [] ∨ a ∈ addinclIndexed pm').
Proof.
  intros Hgood [Hdirs Hfiles]. unfold indexAddincl. destruct (isBuild a) eqn:Hb; simpl; [exists pm; split_and!; try done; by left|].
  case_bool_decide as Hr; [exists pm; split_and!; try done; tauto|]. case_bool_decide as Hi; [exists pm; split_and!; try done; tauto|].
  destruct (Hgood Hb Hr) as [_ Hc]. pose proof (Hgood Hb Hr) as Hclean. rewrite Hc. simpl.
  destruct (noteFiles_spec a (walkFiles (rel a)) (addinclIndex pm)) as (m' & -> & Hm'); [done| |].
  { intros f (t & -> & _)%walk_under; [by exists t|done]. }
  simpl. eexists. split; [done|]. simpl. split_and!; [|done|done|set_solver|right; right; set_solver]. split.
  - intros b [->%elem_of_singleton|Hin]%elem_of_union; auto.
  - intros t b. rewrite Hm', Hfiles, elem_of_union, elem_of_singleton. split; [intros [[? ?]|[-> ?]]; auto|]. intros [[->|?] ?]; auto.
Qed.

Lemma indexAll_spec ps : ∀ pm, Forall goodDir ps → indexOk (addinclIndex pm) (addinclIndexed pm) →
  ∃ pm', indexAll pm ps = Some pm' ∧ indexOk (addinclIndex pm') (addinclIndexed pm') ∧
    scanConfigs pm' = scanConfigs pm ∧ scanConfigCount pm' = scanConfigCount pm ∧ addinclIndexed pm ⊆ addinclIndexed pm' ∧
    Forall (λ a, isBuild a = true ∨ rel a = [] ∨ a ∈ addinclIndexed pm') ps.
Proof.
  induction ps as [|a ps IH]; intros pm Hps Hok; simpl; [exists pm; by split_and!|]. apply Forall_cons in Hps as [Ha Hps].
  destruct (indexAddincl_spec pm a Ha Hok) as (pm1 & -> & Hok1 & Hs1 & Hc1 & Hsub1 & Ha1). simpl.
  destruct (IH pm1 Hps Hok1) as (pm2 & -> & Hok2 & Hs2 & Hc2 & Hsub2 & Hps2). exists pm2. split_and!; try done; [congruence..|set_solver|].
  constructor; [set_solver|done].
Qed.

Lemma index_covers pm target dirs : indexOk (addinclIndex pm) (addinclIndexed pm) → normalisePath target = Some target →
  Forall (λ a, isBuild a = true ∨ a ∈ addinclIndexed pm) dirs → covers pm target dirs.
Proof.
  intros [Hdirs Hfiles] Hclean Hall a Ha. rewrite Forall_forall in Hall. specialize (Hall a Ha). rewrite Hfiles. split.
  - intros [Hi Hw]. destruct (Hdirs a Hi) as [Hb Hd]. split; [done|]. apply walk_under in Hw as (t & Ht & _ & Hu); [|done].
    rewrite !joined_dir in Ht by apply Hd. by simplify_list_eq.
  - intros [Hb Hu]. destruct Hall as [?|Hi]; [congruence|]. split; [done|]. apply walk_under; [by apply Hdirs|]. by exists target.
Qed.

(** ** Sessions *)

Context (asked : list Question).

(** The configurations that are asked about do not collide under the hash. *)
Definition collisionFree : Prop := ∀ q q', q ∈ asked → q' ∈ asked →
  hashScanConfig (q_own q) (q_peer q) (q_base q) = hashScanConfig (q_own q') (q_peer q') (q_base q') →
  q_own q = q_own q' ∧ q_peer q = q_peer q' ∧ q_base q = q_base q'.

Definition goodQuestion (q : Question) : Prop :=
  is_u32 (q_target q) ∧ q_target q ≠ 0 ∧ plainName (string_ (q_target q)) ∧
  rootSafe (string_ (q_target q)) (q_own q ++ q_peer q) ∧ Forall goodDir (q_own q) ∧ Forall goodDir (q_peer q).

Definition answer (q : Question) : option VFS := searchTier (q_own q) (q_peer q) (q_base q) (string_ (q_target q)).

Record cfgOk (pm : Manager) (h : Z) (sc : ScanConfig) : Prop := {
  cf_asked : ∃ q, q ∈ asked ∧ ownAddIncl sc = q_own q ∧ peerAddInclSet sc = q_peer q ∧ baseSearchPaths sc = q_base q;
  cf_hash : h = hashScanConfig (ownAddIncl sc) (peerAddInclSet sc) (baseSearchPaths sc);
  cf_ri : ri sc = buildCfgResolveIndex (ownAddIncl sc) (peerAddInclSet sc);
  cf_num : 0 <= num sc < scanConfigCount pm;
  cf_index : indexable (ri sc) = true → Forall (λ a, isBuild a = true ∨ a ∈ addinclIndexed pm) (ownAddIncl sc ++ peerAddInclSet sc) }.

Record managerOk (pm : Manager) : Prop := {
  mo_count : 0 <= scanConfigCount pm;
  mo_index : indexOk (addinclIndex pm) (addinclIndexed pm);
  mo_cfg : ∀ h sc, scanConfigs pm !! h = Some sc → cfgOk pm h sc;
  mo_num : ∀ h sc h' sc', scanConfigs pm !! h = Some sc → scanConfigs pm !! h' = Some sc' → num sc = num sc' → h = h' }.

Definition tierOf (sc : ScanConfig) (target : Z) : option VFS :=
  searchTier (ownAddIncl sc) (peerAddInclSet sc) (baseSearchPaths sc) (string_ target).

Definition kept (pm : Manager) (key : Z) (out : option VFS) : Prop :=
  ∃ h sc target, scanConfigs pm !! h = Some sc ∧ is_u32 target ∧ target ≠ 0 ∧ key = Mix.splitMix64 (num sc) target ∧ out = tierOf sc target.

Record scannerOk (pm : Manager) (s : Scanner) : Prop := {
  so_flat : ∀ key out, searchTierFlat s !! key = Some out → kept pm key out;
  so_hot : ∀ i key out, searchTierHot s !! i = Some (key, out) → kept pm key out }.

Lemma indexable_noroot own peer : indexable (buildCfgResolveIndex own peer) = true → existsb isRoot (own ++ peer) = false.
Proof. unfold buildCfgResolveIndex. rewrite existsb_app. by destruct (existsb _ _ || _). Qed.

Lemma noroot_indexed (ds : list VFS) (indexed : gset VFS) : existsb isRoot ds = false →
  Forall (λ a, isBuild a = true ∨ rel a = [] ∨ a ∈ indexed) ds → Forall (λ a, isBuild a = true ∨ a ∈ indexed) ds.
Proof.
  intros Hn Hds. induction Hds as [|a l Ha _ IH]; constructor; simpl in *; apply orb_false_iff in Hn as [Hr Hn]; [|by apply IH].
  unfold isRoot in Hr. destruct (isBuild a); [by left|]. destruct Ha as [?|[He|?]]; [done| |by right].
  by rewrite bool_decide_eq_true_2 in Hr.
Qed.

Lemma cfgOk_mono pm pm' h sc : cfgOk pm h sc → scanConfigCount pm <= scanConfigCount pm' → addinclIndexed pm ⊆ addinclIndexed pm' → cfgOk pm' h sc.
Proof.
  intros [H1 H2 H3 H4 H5] Hc Hsub. split; [done..|lia|]. intros Hi. eapply Forall_impl; [by apply H5|]. intros a [?|?]; [by left|right; by apply Hsub].
Qed.

Lemma indexed_pm own peer pm : Forall goodDir own → Forall goodDir peer → indexOk (addinclIndex pm) (addinclIndexed pm) →
  ∃ pm', (if indexable (buildCfgResolveIndex own peer) then pm ← indexAll pm own; indexAll pm peer else Some pm) = Some pm' ∧
    indexOk (addinclIndex pm') (addinclIndexed pm') ∧ scanConfigs pm' = scanConfigs pm ∧ scanConfigCount pm' = scanConfigCount pm ∧
    addinclIndexed pm ⊆ addinclIndexed pm' ∧
    (indexable (buildCfgResolveIndex own peer) = true → Forall (λ a, isBuild a = true ∨ a ∈ addinclIndexed pm') (own ++ peer)).
Proof.
  intros Hown Hpeer Hok. destruct (indexable _) eqn:Hx; [|exists pm; by split_and!].
  destruct (indexAll_spec own pm Hown Hok) as (pm1 & -> & Hok1 & Hs1 & Hc1 & Hsub1 & Ho1). simpl.
  destruct (indexAll_spec peer pm1 Hpeer Hok1) as (pm2 & -> & Hok2 & Hs2 & Hc2 & Hsub2 & Hp2). exists pm2.
  split_and!; [done..|congruence|congruence|set_solver|]. intros _. apply noroot_indexed; [by apply indexable_noroot|].
  apply Forall_app. split; [|done]. eapply Forall_impl; [done|]. intros a [?|[?|?]]; [by left|right; by left|right; right; by apply Hsub2].
Qed.

Lemma resolveScanConfig_spec pm q : managerOk pm → q ∈ asked → collisionFree → goodQuestion q → scanConfigCount pm + 1 < 2 ^ 32 →
  ∃ pm' sc h, resolveScanConfig pm (q_own q) (q_peer q) (q_base q) = Some (pm', sc) ∧ managerOk pm' ∧
    scanConfigs pm' !! h = Some sc ∧ ownAddIncl sc = q_own q ∧ peerAddInclSet sc = q_peer q ∧ baseSearchPaths sc = q_base q ∧
    scanConfigs pm ⊆ scanConfigs pm' ∧ scanConfigCount pm' <= scanConfigCount pm + 1.
Proof.
  intros [Hcount Hindex Hcfg Hnum] Hq Hfree (_ & _ & _ & _ & Hown & Hpeer) Hlt. unfold resolveScanConfig. set (h := hashScanConfig _ _ _).
  destruct (scanConfigs pm !! h) as [sc|] eqn:Hh.
  - exists pm, sc, h. split; [done|]. split; [done|]. split; [done|]. destruct (Hcfg _ _ Hh) as [(q' & Hq' & E1 & E2 & E3) Hhash _ _ _].
    rewrite E1, E2, E3 in *. destruct (Hfree q q' Hq Hq' Hhash) as (-> & -> & ->). split_and!; try done. lia.
  - set (sc := mkConfig _ _ _ _ _). set (pm0 := mkManager _ _ _ _).
    assert (Hu : u32 (scanConfigCount pm + 1) = scanConfigCount pm + 1) by (apply u32_id; lia).
    destruct (indexed_pm (q_own q) (q_peer q) pm0 Hown Hpeer Hindex) as (pm' & Hpm' & Hok & Hs & Hc & Hsub & Hall).
    change (ri sc) with (buildCfgResolveIndex (q_own q) (q_peer q)). rewrite Hpm'. simpl. exists pm', sc, h. simpl in Hs, Hc, Hsub.
    split; [done|]. split; [|rewrite Hs, lookup_insert_eq; split_and!; [done..|by apply insert_subseteq|lia]].
    split; [lia|done| |]; rewrite Hs; clear Hs.
    + intros h' sc' [[<- <-]|[Hne Hl]]%lookup_insert_Some.
      * split; [by exists q|done|done|simpl; lia|exact Hall].
      * eapply cfgOk_mono; [by apply Hcfg|lia|done].
    + assert (Hfresh : ∀ h' sc', scanConfigs pm !! h' = Some sc' → num sc' ≠ num sc). { intros h' sc' [_ _ _ Hn _]%Hcfg. simpl. lia. }
      intros h1 sc1 h2 sc2 [[<- <-]|[_ H1]]%lookup_insert_Some [[<- <-]|[_ H2]]%lookup_insert_Some Hn; [done| | |by eapply Hnum].
      * by apply Hfresh in H2.
      * by apply Hfresh in H1.
Qed.

Lemma kept_tier pm h sc target out : managerOk pm → scanConfigs pm !! h = Some sc → scanConfigCount pm < 2 ^ 32 → is_u32 target →
  kept pm (Mix.splitMix64 (num sc) target) out → out = tierOf sc target.
Proof.
  intros [Hcount _ Hcfg Hnum] Hsc Hlt Ht (h' & sc' & t' & Hsc' & Ht' & _ & Hkey & ->).
  destruct (Hcfg _ _ Hsc) as [_ _ _ Hn _], (Hcfg _ _ Hsc') as [_ _ _ Hn' _].
  apply expansionKey_inj in Hkey as [Hne ->]; [|lia..]. assert (h = h') as <- by (eapply Hnum; eauto). congruence.
Qed.

Lemma resolveContextSearchTier_spec pm s h sc initial target : managerOk pm → scannerOk pm s → scanConfigs pm !! h = Some sc →
  scanConfigCount pm < 2 ^ 32 → is_u32 target → target ≠ 0 → plainName (string_ target) → rootSafe (string_ target) (ownAddIncl sc ++ peerAddInclSet sc) →
  ∃ s', resolveContextSearchTier pm s initial sc target = Some (s', tierOf sc target) ∧ scannerOk pm s'.
Proof.
  intros Hpm [Hflat Hhot] Hsc Hlt Ht Hne Hplain Hsafe. unfold resolveContextSearchTier.
  set (key := Mix.splitMix64 (num sc) target).
  assert (Hself : kept pm key (tierOf sc target)) by (exists h, sc, target; done).
  assert (Hkeep : ∀ s0, searchTierFlat s0 = searchTierFlat s ∨ searchTierFlat s0 = <[key := tierOf sc target]> (searchTierFlat s) →
    searchTierHot s0 = searchTierHot s ∨ searchTierHot s0 = <[hotSlot key := (key, tierOf sc target)]> (searchTierHot s) → scannerOk pm s0).
  { intros s0 H1 H2. split.
    - destruct H1 as [-> | ->]; [done|]. intros k out [[<- <-]|[_ ?]]%lookup_insert_Some; auto.
    - destruct H2 as [-> | ->]; [done|]. intros i k out [[_ [= <- <-]]|[_ ?]]%lookup_insert_Some; eauto. }
  destruct (Z.eqb_spec (hotAt s key).1 key) as [He|_].
  - exists s. split; [|by split]. do 2 f_equal. unfold hotAt in *. destruct (searchTierHot s !! hotSlot key) as [[k out]|] eqn:Hh; simpl in *.
    + subst k. apply Hhot in Hh. by eapply kept_tier.
    + exfalso. destruct (mo_cfg _ Hpm _ _ Hsc) as [_ _ _ Hn _]. apply Hne. symmetry.
      apply (expansionKey_inj 0 0 (num sc) target); [lia..|]. exact He.
  - destruct (if bool_decide _ then _ else _) as [cached|] eqn:Hf.
    + assert (cached = tierOf sc target) as ->. { case_bool_decide; [|done]. apply Hflat in Hf. by eapply kept_tier. }
      eexists. split; [done|]. apply Hkeep; simpl; auto.
    + destruct (mo_cfg _ Hpm _ _ Hsc) as [_ _ Hri _ Hix].
      rewrite findTier_searchTier; [|done|done|done|]; [|intros Hx Hcl; apply index_covers; [apply Hpm|done|by apply Hix]].
      simpl. eexists. split; [done|]. unfold cacheSearchTier. destruct (initial && _); apply Hkeep; simpl; auto.
Qed.

Lemma ask_spec pm s q : managerOk pm → scannerOk pm s → q ∈ asked → collisionFree → goodQuestion q → scanConfigCount pm + 1 < 2 ^ 32 →
  ∃ pm' s', ask (pm, s) q = Some (pm', s', answer q) ∧ managerOk pm' ∧ scannerOk pm' s' ∧ scanConfigCount pm' <= scanConfigCount pm + 1.
Proof.
  intros Hpm Hs Hq Hfree Hgood Hlt. destruct (resolveScanConfig_spec pm q) as (pm' & sc & h & Hr & Hpm' & Hsc & E1 & E2 & E3 & Hsub & Hc); [done..|].
  unfold ask. simpl. rewrite Hr. simpl. destruct Hgood as (Ht & Hne & Hplain & Hsafe & _).
  assert (Hs' : scannerOk pm' s).
  { assert (Hmono : ∀ key out, kept pm key out → kept pm' key out).
    { intros key out (h0 & sc0 & t0 & Hl & Hrest). exists h0, sc0, t0. split; [by eapply lookup_weaken|done]. }
    destruct Hs as [Hflat Hhot]. split; eauto. }
  destruct (resolveContextSearchTier_spec pm' s h sc (q_initial q) (q_target q)) as (s' & Hres & Hok); [done..|lia|done|done|done|by rewrite E1, E2|].
  rewrite Hres. simpl. exists pm', s'. split; [|done]. unfold answer, tierOf. by rewrite E1, E2, E3.
Qed.

Lemma askAll_spec qs : ∀ pm s, managerOk pm → scannerOk pm s → (∀ q, q ∈ qs → q ∈ asked ∧ goodQuestion q) → collisionFree →
  scanConfigCount pm + Z.of_nat (length qs) < 2 ^ 32 → ∃ st, askAll (pm, s) qs = Some (st, answer <$> qs).
Proof.
  induction qs as [|q qs IH]; intros pm s Hpm Hs Hqs Hfree Hlt; [by eexists|].
  cbn [length] in Hlt. destruct (Hqs q) as [Hq Hgood]; [by left|].
  destruct (ask_spec pm s q) as (pm' & s' & Ha & Hpm' & Hs' & Hc); [done..|lia|]. cbn [askAll]. rewrite Ha.
  destruct (IH pm' s') as [st Hst]; [done|done|intros; apply Hqs; by right|done|lia|]. exists st. cbn. by rewrite Hst.
Qed.

Lemma started_ok : managerOk started.1 ∧ scannerOk started.1 started.2.
Proof.
  split; split; try done. split; [set_solver|]. intros t a. simpl. rewrite lookup_empty. set_solver.
Qed.

End Resolve.

(** ** A tree with a few files *)

Module ResolveExample.
Definition files : list text := bs <$> ["inc1/a.h"; "inc2/a.h"; "inc2/x/b.h"; "top.h"]%string.
Definition outputs : list text := bs <$> ["gen/b.h"; "gen/x/b.h"]%string.

Definition strip (dir f : text) : option text :=
  if bool_decide (take (S (length dir)) f = dir ++ [c_slash]) then Some (drop (S (length dir)) f) else None.

#[local] Instance example_files : Files := {|
  sourceUnder dir t := if bool_decide (normalisePath t = Some t ∧ joined dir t ∈ files) then Some (joined dir t) else None;
  walkFiles dir := filter (λ f, Is_true (match strip dir f with Some t => bool_decide (normalisePath t = Some t) | None => false end)) files;
  includeSTR t := if bool_decide (t ∈ outputs) then Some (true, t) else None;
  includeSplit dir t := if bool_decide (joined dir t ∈ outputs) then Some (true, joined dir t) else None;
  isInterned t := true |}.

Lemma strip_joined dir f t : dir ≠ [] → strip dir f = Some t ↔ f = joined dir t.
Proof.
  intros Hd. unfold strip, joined. rewrite (bool_decide_eq_false_2 (dir = [])) by done. case_bool_decide as Ht.
  - split.
    + intros [= <-]. rewrite <- (take_drop (S (length dir)) f) at 1. rewrite Ht. by rewrite <- app_assoc.
    + intros ->. f_equal. rewrite <- Nat.add_1_r, <- drop_drop, drop_app_length. reflexivity.
  - split; [done|]. intros ->. destruct Ht. rewrite (app_assoc dir [c_slash] t : dir ++ c_slash :: t = _).
    rewrite take_app_length'; [done|]. rewrite length_app. simpl. lia.
Qed.

#[local] Instance example_laws : FilesLaws.
Proof.
  split.
  - intros dir f [Hd _]. simpl. rewrite list_elem_of_filter. split.
    + intros [Hs Hf]. destruct (strip dir f) as [t|] eqn:Ht; [|done]. apply strip_joined in Ht as ->; [|done].
      apply bool_decide_unpack in Hs. exists t. split; [done|]. split; [done|]. rewrite bool_decide_eq_true_2 by done. by eexists.
    + intros (t & -> & Hn & [r Hr]). case_bool_decide as Hc; [|done]. destruct Hc as [_ Hin]. split; [|done].
      rewrite (proj2 (strip_joined dir (joined dir t) t Hd)) by done. by apply bool_decide_pack.
  - intros dir t r _ Hr. simpl in Hr. case_bool_decide; by simplify_eq.
  - intros t _. simpl. done.
Qed.

Definition name (id : Z) : text := default [] ((bs <$> ["";"a.h";"x/b.h";"b.h";"top.h";"x/../a.h";"none.h"]%string) !! Z.to_nat id).
Definition number (v : VFS) : Z := 2 * Z.of_nat (length (rel v)) + (if isBuild v then 1 else 0).
Definition inc1 : VFS := (false, bs "inc1"). 
Definition inc2 : VFS := (false, bs "inc2").
Definition gen : VFS := (true, bs "gen").
Definition questions : list Question :=
  [mkQuestion [inc1] [gen; inc2] [] true 1; mkQuestion [inc1] [gen; inc2] [] false 2; mkQuestion [inc2] [gen; inc1; gen] [gen] true 2;
   mkQuestion [inc2] [gen; inc1; gen] [gen] false 1; mkQuestion [inc1] [gen; inc2] [] true 6; mkQuestion [inc1] [gen; inc2] [] true 1;
   mkQuestion [inc1] [gen; inc2] [] false 5; mkQuestion [] [] [gen] false 3; mkQuestion [] [] [gen] false 4].

End ResolveExample.
