(* ===== verification/Lookup.v ===== *)
(** * Includes over the source tree and the registry

    The interface that the search of includes (Resolve.v) is proved against is met by
    the source tree (SourceTree.v) and the registry of generated files (Registry.v): the
    walk that fills the index finds the names the look-ups find. *)

From S2P Require Import Prelude Paths SourceTree Registry Resolve.
Local Open Scope Z_scope.

Section Lookup.
Context (tree : gmap text (list (text * bool))) (Htree : SourceTree.Tree tree).

(** The files a walk into every directory visits. *)
Definition filesBelow (root : text) : list text :=
  match SourceTree.walkDirID tree SourceTree.newFS root (λ _ b, b) with
  | Some (_, l) => fst <$> filter (λ e, e.2 = false) l
  | None => []
  end.

(** The answer of the tree, with the flag the search passes on. *)
Definition treeUnder (dir t : text) : option text :=
  '(_, o) ← SourceTree.findUnder tree SourceTree.newFS dir t (bool_decide (normalisePath t = Some t)); o.

(** Nothing is kept yet. *)
Lemma newFS_none : SourceTree.fsOk tree (λ _, 0) (λ _, False) SourceTree.newFS.
Proof. by apply SourceTree.newFS_ok. Qed.

Lemma treeUnder_spec dir t : treeUnder dir t = SourceTree.under tree dir t (bool_decide (normalisePath t = Some t)).
Proof.
  unfold treeUnder. destruct (SourceTree.findUnder_ok tree Htree (λ _, 0) (λ _, False) (λ _, False_ind _) (λ _ _, False_ind _) SourceTree.newFS dir t (bool_decide (normalisePath t = Some t)) newFS_none)
    as (st & -> & _). done.
Qed.

Abbreviation walkedIn := (SourceTree.walked tree (λ _ b, b)).

Lemma walked_below root p b : root = [] ∨ isClean root → walkedIn root p b →
  (p = root ∧ b = true) ∨ ∃ t, isClean t ∧ p = joined root t ∧ SourceTree.existsAt tree p = (true, b).
Proof.
  intros Hroot. induction 1 as [|d n b l _ IH _ Hl Hb]; [by left|right].
  destruct (SourceTree.tr_names _ Htree _ _ _ _ Hl Hb) as [Hc Hn]. pose proof Hc as [Hne _].
  assert (He : SourceTree.existsAt tree (joined d n) = (true, b)).
  { rewrite SourceTree.existsAt_joined by done. apply SourceTree.entry_spec; eauto. }
  destruct IH as [[-> _]|(t & Ht & -> & _)].
  - exists n. split; [by apply seg_isClean|done].
  - exists (t ++ c_slash :: n). split; [|split; [|done]].
    + pose proof (joined_isClean t n (or_intror Ht) (seg_isClean n Hc Hn)) as Hj. unfold joined in Hj. by rewrite bool_decide_eq_false_2 in Hj by apply Ht.
    + by rewrite joined_under by apply Ht.
Qed.

(** Readable directories below the root are walked. *)
Lemma readable_walked root x l : tree !! joined root x = Some l → x ≠ [] → rooted x = false → walkedIn root (joined root x) true.
Proof.
  revert l. induction x as [x IH] using (well_founded_induction (Wf_nat.well_founded_ltof _ (@length Z))).
  intros l Hl Hne Hr. unfold Wf_nat.ltof in IH. pose proof (cut_last_spec x) as Hs. destruct (cut_last x) as [[y m]|].
  - destruct Hs as [-> Hm]. assert (Hy : y ≠ []) by by intros ->. rewrite joined_under in * by done.
    destruct (SourceTree.tr_parent _ Htree _ _ (joined root y) m Hl) as (l' & Hl' & Hin); [apply joined_ne; left; apply joined_ne; by right|by apply splitDirName_joined|].
    eapply SourceTree.walked_name; [|done|done|done]. eapply IH; [rewrite length_app; simpl; lia|done|done|by destruct y].
  - destruct (SourceTree.tr_parent _ Htree _ _ root x Hl) as (l' & Hl' & Hin); [apply joined_ne; by right|by apply splitDirName_joined|].
    eapply SourceTree.walked_name; [apply SourceTree.walked_root|done|done|done].
Qed.

Lemma file_walked root t : t ≠ [] → rooted t = false → SourceTree.existsAt tree (joined root t) = (true, false) → walkedIn root (joined root t) false.
Proof.
  intros Hne Hr He. pose proof (cut_last_spec t) as Hs. destruct (cut_last t) as [[x n]|].
  - destruct Hs as [-> Hn]. assert (Hx : x ≠ []) by by intros ->. rewrite SourceTree.existsAt_below in He; [|done|done|by destruct x|done].
    case_bool_decide; [|done]. apply SourceTree.entry_spec in He as (l & Hl & Hin); [|done]. rewrite joined_under by done.
    eapply SourceTree.walked_name; [|done|done|done]. eapply readable_walked; [done|done|by destruct x].
  - rewrite SourceTree.existsAt_joined in He by done. apply SourceTree.entry_spec in He as (l & Hl & Hin); [|done].
    eapply SourceTree.walked_name; [apply SourceTree.walked_root|done|done|done].
Qed.

Lemma file_root root t : t ≠ [] → rooted t = false → SourceTree.existsAt tree (joined root t) = (true, false) → is_Some (tree !! root).
Proof.
  intros Hne Hr He. pose proof (cut_last_spec t) as Hs. destruct (cut_last t) as [[x n]|].
  - destruct Hs as [-> Hn]. assert (Hx : x ≠ []) by by intros ->. rewrite SourceTree.existsAt_below in He; [|done|done|by destruct x|done].
    case_bool_decide as Hd; [|done]. apply SourceTree.entry_spec in Hd as (l & Hl & _); [|done]. by exists l.
  - rewrite SourceTree.existsAt_joined in He by done. apply SourceTree.entry_spec in He as (l & Hl & _); [|done]. by exists l.
Qed.

Lemma under_clean dir t : normalisePath t = Some t → is_Some (treeUnder dir t) ↔
  t ≠ [] ∧ rooted t = false ∧ SourceTree.existsAt tree (joined dir t) = (true, false).
Proof.
  intros Hn. rewrite treeUnder_spec. unfold SourceTree.under, SourceTree.existsIn. rewrite !(bool_decide_eq_true_2 (normalisePath t = Some t)) by done.
  case_bool_decide as Ht; [rewrite andb_false_r; split; [by intros []|tauto]|]. destruct (rooted t); simpl; [split; [by intros []|by intros (_ & ? & _)]|].
  destruct (SourceTree.existsAt tree (joined dir t)) as [[] []]; simpl; (split; [intros []|intros (_ & _ & ?)]); try done.
Qed.

Lemma filesBelow_spec root f : root = [] ∨ isClean root →
  f ∈ filesBelow root ↔ ∃ t, f = joined root t ∧ normalisePath t = Some t ∧ is_Some (treeUnder root t).
Proof.
  intros Hroot. unfold filesBelow.
  destruct (SourceTree.walkDirID_ok tree Htree (λ _, 0) (λ _, False) (λ _, False_ind _) (λ _ _, False_ind _) _ root (λ _ b, b) newFS_none) as (st & seen & -> & _ & Hspec).
  destruct (tree !! root) as [l|] eqn:Hl.
  - destruct Hspec as [_ Hin]. rewrite list_elem_of_fmap. split.
    + intros ([p b] & -> & [Hb Hs]%list_elem_of_filter). simpl in Hb. subst b. simpl.
      assert (Hw : walkedIn root p false) by by apply Hin.
      destruct (walked_below _ _ _ Hroot Hw) as [[_ ?]|(t & Ht & -> & He)]; [done|].
      exists t. split; [done|]. pose proof (normalisePath_id t Ht) as Hn. split; [done|]. apply under_clean; [done|].
      split; [apply Ht|]. split; [|done]. destruct Ht as [_ Hc]. destruct (rooted t) eqn:Hr; [|done].
      apply SourceTree.rooted_split in Hr. destruct (split_cons t) as (s & ss & Hss). rewrite Hss in *. simpl in Hr. subst s. by apply Forall_cons in Hc as [[] _].
    + intros (t & -> & Hn & (Hne & Hr & He)%under_clean); [|done]. exists (joined root t, false). split; [done|]. apply list_elem_of_filter. split; [done|].
      apply Hin. by apply file_walked.
  - subst seen. split; [by intros ?%not_elem_of_nil|]. intros (t & -> & Hn & (Hne & Hr & He)%under_clean); [|done]. exfalso.
    destruct (file_root root t Hne Hr He). congruence.
Qed.

(** ** The interface *)

Context (outputs : gmap text Registry.GeneratedFileInfo) (interned : text → bool).

Definition outputOf (o : option Registry.GeneratedFileInfo) : option VFS :=
  (λ i, (true, Registry.OutputPath i)) <$> Registry.onlyIf Registry.includable o.

#[local] Instance tree_files : Files := {|
  Resolve.sourceUnder := treeUnder;
  walkFiles := filesBelow;
  includeSTR t := outputOf (outputs !! t);
  includeSplit dir t := outputOf (Registry.found outputs dir t);
  isInterned := interned |}.

End Lookup.

