(* ===== verification/Scan.v ===== *)
(** * Includes of a file (scanner.go, induced_includes.go)

    A scan turns the parsed directives of a file into the files they name: the search of
    a name, the table of system headers, and what the producer of a generated file adds.
    A scan may run before all generated files are known or for a module that does not
    resolve includes; it then leaves its entry deferred, to be finished by a later scan.
    Shown: which files a directive names, how entries change over any sequence of scans,
    and when a deferred scan finished later finds what a scan at once finds. *)

From S2P Require Import Prelude Paths Tags.
Local Open Scope string_scope.
Local Open Scope list_scope.
Local Open Scope Z_scope.

Abbreviation text := (list Z) (only parsing).

(** ** Data *)

Inductive IncludeKind :=
  | includeSystem | includeRos | includeQuoted | includeCythonOptional | includeCythonModule | includeCythonName
  | includeCythonFallback | includeCythonSibling | includeCythonImportEnd | includeTypeScript | includeMacro.

#[export] Instance IncludeKind_eq_dec : EqDecision IncludeKind.
Proof. solve_decision. Defined.

Record IncludeDirective := mkDirective { kind : IncludeKind; target : Z }.

(** [reported] is in Reports below. *)
Record IncludeDiagnostic := mkDiagnostic { Directive : IncludeDirective; Includer : Z; Unresolved : bool }.

Record ScannedChildren := mkChildren { Deferred : bool; Paths : list Z; Diagnostics : option (list IncludeDiagnostic) }.

Abbreviation Files := (gmap Z ScannedChildren) (only parsing).

Definition noChildren : ScannedChildren := mkChildren false [] None.

Inductive ParserKind := CParser | CythonParser | ProtoParser | CfgProtoParser | GoCgoParser | OtherParser.

Inductive Bucket := parsedIncludesLocal | parsedIncludesHeader | parsedIncludesCpp.

#[export] Instance Bucket_eq_dec : EqDecision Bucket.
Proof. solve_decision. Defined.

Record GeneratedFileInfo := mkInfo { closureLeaves : list Z; GeneratorRefs : list Z; parsedSet : Bucket → list IncludeDirective }.

(** How a scan was asked for. *)
Record Mode := mkMode { noResolve : bool; tsImports : bool; initialOnly : bool; readOnly : bool }.

(** What the scan asks of the other parts: texts of ids, the registry of generated files, the source tree, the search of a
    name in the directories of the configuration, the table of system headers, and the parsers. *)
Class World := {
  relText : Z → text;                                   (** VFS.relString *)
  anyText : Z → text;                                   (** ANY.string *)
  srcRootRel : Z;
  internText : text → Z;                                (** internStr *)
  lookupIncludeSTR : Z → option Z;                      (** OutputPath *)
  lookupIncludeSplit : Z → Z → option Z;
  resolveSourceUnder : Z → Z → Z;                       (** a name below a directory: an id, or 0 *)
  resolveContextSearchTier : Z → Z;                     (** a file, or 0 *)
  sysinclLookup : Z → Z → list Z * bool * bool;         (** files, several at once, claimed *)
  resolveRosInclude : text → Z;
  resolveTSImport : text → text → Z;
  codegenLookup : Z → option GeneratedFileInfo;
  lookupSTR : Z → option Z;                             (** OutputPath *)
  moduleOutputIncludes : Z → list IncludeDirective;
  registeredParserFor : text → option ParserKind * bool;
  isHeaderSource : text → bool;
  sourceParsedWalkable : Z → list IncludeDirective;
  includerDir : Z → Z;
  inducedIncludes : Z → list (Z * IncludeDirective);
  toolInducedDeps : Z → option (Bucket → list IncludeDirective) }.

Definition cythonProbe (d : IncludeDirective) : bool :=
  match kind d with
  | includeCythonOptional | includeCythonModule | includeCythonName | includeCythonFallback | includeCythonSibling | includeCythonImportEnd => true
  | _ => false
  end.
Definition quotedLike (d : IncludeDirective) : bool := bool_decide (kind d = includeQuoted) || cythonProbe d.

Definition tsParseErrorPrefix : text := bs "__ymake_parse_error__".

Section scan.
Context `{World}.

(** ** One directive *)

(** What is appended behind the mark, and [searchPathFound]. *)
Definition resolveSearchPath (includerAbs incDir : Z) (d : IncludeDirective) : list Z :=
  let targetID := any_str (target d) in
  let '(out, found) :=
    if isBuild includerAbs then match lookupIncludeSTR targetID with Some o => ([o], true) | None => ([], false) end else ([], false) in
  let '(out, found) :=
    if quotedLike d then
      let sv := resolveSourceUnder (vfs_rel incDir) targetID in
      if negb (sv =? 0) then (out ++ [str_source sv], true)
      else if isBuild includerAbs then
        match lookupIncludeSplit incDir targetID with
        | Some o => if bool_decide (o ∈ out) then (out, found) else (out ++ [o], true)
        | None => (out, found)
        end
      else (out, found)
    else (out, found) in
  if negb found then
    let tier := resolveContextSearchTier targetID in
    if negb (tier =? 0) then out ++ [tier] else out
  else out.

Definition warnUnresolved (includerAbs : Z) (d : IncludeDirective) (sysinclClaimed : bool) : list IncludeDiagnostic :=
  if cythonProbe d || sysinclClaimed then [] else [mkDiagnostic d includerAbs true].

(** The file was found next to the includer. *)
Definition besideIncluder (includerAbs found : Z) (d : IncludeDirective) : bool :=
  bool_decide (isBuild found = isBuild includerAbs) &&
  (let incDir := pathDir (relText includerAbs) in
   let t := anyText (target d) in
   bool_decide (relText found = if bool_decide (incDir = []) then t else incDir ++ [47] ++ t)).

(** The mapped files that exist and are not there yet. *)
Fixpoint addMapped (mappings out : list Z) : list Z :=
  match mappings with
  | [] => out
  | abs :: mappings =>
      if bool_decide (abs ∈ out) then addMapped mappings out
      else if resolveSourceUnder srcRootRel (vfs_rel abs) =? 0 then addMapped mappings out
      else addMapped mappings (out ++ [abs])
  end.

(** The part of [resolve] behind the macros: the files appended and the diagnostics. *)
Definition resolveName (includerAbs incDir : Z) (d : IncludeDirective) : list Z * list IncludeDiagnostic :=
  let searchOut := resolveSearchPath includerAbs incDir d in
  let '(mappings, hasMultiTarget, sysinclClaimed) := sysinclLookup includerAbs (any_str (target d)) in
  let bypass :=
    match searchOut with
    | first :: _ => quotedLike d && (negb hasMultiTarget || besideIncluder includerAbs first d)
    | [] => false
    end in
  if bypass then (searchOut, [])
  else
    match mappings, searchOut with
    | [], [] => ([], warnUnresolved includerAbs d sysinclClaimed)
    | [], _ => (searchOut, [])
    | _, [] =>
        let out := addMapped mappings [] in
        (out, if bool_decide (out = []) then warnUnresolved includerAbs d sysinclClaimed else [])
    | _, _ => (addMapped mappings searchOut, [])
    end.

(** [$S/x] in the name of a mapped file stands for [x]. *)
Definition aliasTarget (alias : Z) : Z :=
  match relText alias with
  | 36 :: _ :: 47 :: rest => internText rest
  | _ => vfs_rel alias
  end.

Definition appended : Type := list Z * list IncludeDiagnostic.
Definition append2 (a b : appended) : appended := (a.1 ++ b.1, a.2 ++ b.2).

Definition resolve (m : Mode) (includerAbs incDir : Z) (d : IncludeDirective) : appended :=
  let v := any_vfs (target d) in
  if noResolve m && (isSource includerAbs || (v =? 0)) then
    ([], if isBuild includerAbs then [mkDiagnostic d 0 false] else [])
  else
    match kind d with
    | includeRos =>
        let resolved := resolveRosInclude (anyText (target d)) in
        (if negb (resolved =? 0) then [resolved] else [], [])
    | includeTypeScript =>
        let t := anyText (target d) in
        if negb (tsImports m) then ([], [])
        else if bool_decide (take (length tsParseErrorPrefix) t = tsParseErrorPrefix) then ([], warnUnresolved includerAbs d false)
        else
          let file := resolveTSImport (relText incDir) t in
          if negb (file =? 0) then ([file], []) else ([], warnUnresolved includerAbs d false)
    | _ =>
        if negb (v =? 0) then ([v], [])
        else
          match kind d with
          | includeMacro =>
              let '(aliases, _, claimed) := sysinclLookup includerAbs (any_str (target d)) in
              let '(out, diags) := foldl (λ acc alias, append2 acc (resolveName includerAbs incDir (mkDirective includeSystem (str_any (aliasTarget alias))))) ([], []) aliases in
              (out, diags ++ if bool_decide (out = []) then warnUnresolved includerAbs d claimed else [])
          | _ => resolveName includerAbs incDir d
          end
    end.

(** ** The directives of a file *)

Definition parsedIncludes (vfsPath : Z) : list IncludeDirective * list IncludeDirective * option GeneratedFileInfo * Bucket :=
  if isBuild vfsPath then
    match codegenLookup vfsPath with
    | None => (moduleOutputIncludes vfsPath, [], None, parsedIncludesLocal)
    | Some info =>
        match registeredParserFor (relText vfsPath) with
        | (None, true) => ([], [], Some info, parsedIncludesLocal)
        | (Some CParser, _) =>
            let bucket := if isHeaderSource (relText vfsPath) then parsedIncludesHeader else parsedIncludesCpp in
            (parsedSet info parsedIncludesLocal, parsedSet info bucket, Some info, bucket)
        | _ => (parsedSet info parsedIncludesLocal, [], Some info, parsedIncludesLocal)
        end
    end
  else (sourceParsedWalkable vfsPath, [], None, parsedIncludesLocal).

Definition usesInducedType (file : Z) (kind : Z) : bool :=
  let name := anyText (str_any kind) in
  let oneOf l := bool_decide (name ∈ bs <$> l) in
  match (registeredParserFor (relText file)).1 with
  | Some CParser => if isHeaderSource (relText file) then oneOf ["h"; "h+cpp"] else oneOf ["cpp"; "h+cpp"; "xscpp"]
  | Some CythonParser => oneOf ["pyx"]
  | Some ProtoParser | Some CfgProtoParser => oneOf ["proto"]
  | Some GoCgoParser => oneOf ["go"]
  | _ => false
  end.

(** The variables of the loop over entries: the mark of the import, and the two flags. *)
Record Cimports := mkCimports { cimportStart : nat; suppressCimportNames : bool; prevProbeMissed : bool }.

Definition entryStep (m : Mode) (vfsPath incDir : Z) (s : Cimports) (acc : appended) (entry : IncludeDirective) : Cimports * appended :=
  let k := kind entry in
  if bool_decide (k = includeCythonSibling) then (s, append2 acc (resolve m vfsPath incDir entry))
  else
    let s := if bool_decide (k = includeCythonOptional) then mkCimports (length acc.1) (suppressCimportNames s) (prevProbeMissed s) else s in
    if bool_decide (k = includeCythonImportEnd) then
      (s, if initialOnly m && bool_decide (length acc.1 = cimportStart s) then append2 acc ([], [mkDiagnostic entry 0 false]) else acc)
    else
      let isName := bool_decide (k = includeCythonName) in
      let isFallback := bool_decide (k = includeCythonFallback) in
      let suppress := if negb isName && negb isFallback then false else suppressCimportNames s in
      if isName && suppress || isFallback && negb (prevProbeMissed s) then (mkCimports (cimportStart s) suppress false, acc)
      else
        let r := resolve m vfsPath incDir entry in
        let missed := bool_decide (r.1 = []) in
        (mkCimports (cimportStart s) (if bool_decide (k = includeCythonModule) && negb missed then true else suppress) missed, append2 acc r).

Fixpoint entriesLoop (m : Mode) (vfsPath incDir : Z) (entries : list IncludeDirective) (s : Cimports) (acc : appended) : Cimports * appended :=
  match entries with
  | [] => (s, acc)
  | entry :: entries => let '(s, acc) := entryStep m vfsPath incDir s acc entry in entriesLoop m vfsPath incDir entries s acc
  end.

Fixpoint resolveAll (m : Mode) (vfsPath incDir : Z) (ds : list IncludeDirective) (acc : appended) : appended :=
  match ds with [] => acc | d :: ds => resolveAll m vfsPath incDir ds (append2 acc (resolve m vfsPath incDir d)) end.

Definition inducedTargets (m : Mode) (vfsPath : Z) : list IncludeDirective :=
  if noResolve m then [] else snd <$> filter (λ e, usesInducedType vfsPath e.1 = true) (inducedIncludes vfsPath).

Definition toolTargets (bucket : Bucket) (info : GeneratedFileInfo) : list IncludeDirective :=
  if bool_decide (bucket = parsedIncludesLocal) then []
  else mjoin ((λ gref, match toolInducedDeps gref with Some set => set bucket | None => [] end) <$> GeneratorRefs info).

Definition appendResolvedInducedDeps (m : Mode) (vfsPath incDir : Z) (info : option GeneratedFileInfo) (bucket : Bucket) (acc : appended) : appended :=
  if negb (isBuild vfsPath) then acc
  else
    match info with
    | None => acc
    | Some info =>
        let acc := append2 acc (closureLeaves info, []) in
        let acc := resolveAll m vfsPath incDir (inducedTargets m vfsPath) acc in
        resolveAll m vfsPath incDir (toolTargets bucket info) acc
    end.

(** [previous] was read again after the producer of a generated file was run; that is not modelled. *)
Definition appendResolvedChildren (m : Mode) (vfsPath : Z) (previous : ScannedChildren) (acc : appended) : appended :=
  let '(own, compileExtra, info, bucket) := parsedIncludes vfsPath in
  if bool_decide (own = []) && bool_decide (compileExtra = []) && negb (isBuild vfsPath) then acc
  else
    let incDir := includerDir vfsPath in
    match Diagnostics previous with
    | Some entries =>
        if Deferred previous then resolveAll m vfsPath incDir (Directive <$> entries) acc
        else
          let '(s, acc) := entriesLoop m vfsPath incDir own (mkCimports (length acc.1) false false) acc in
          let '(_, acc) := entriesLoop m vfsPath incDir compileExtra s acc in
          appendResolvedInducedDeps m vfsPath incDir info bucket acc
    | None =>
        let '(s, acc) := entriesLoop m vfsPath incDir own (mkCimports (length acc.1) false false) acc in
        let '(_, acc) := entriesLoop m vfsPath incDir compileExtra s acc in
        appendResolvedInducedDeps m vfsPath incDir info bucket acc
    end.

(** ** Entries *)

Definition entryOf (files : Files) (abs : Z) : ScannedChildren := default noChildren (files !! abs).

Definition childrenOf (paths : list Z) (diagnostics : list IncludeDiagnostic) : ScannedChildren :=
  mkChildren false paths (if bool_decide (diagnostics = []) then None else Some diagnostics).

Definition resolvedChildren (m : Mode) (files : Files) (abs : Z) : Files * ScannedChildren :=
  let previous := entryOf files abs in
  let cached := bool_decide (is_Some (files !! abs)) in
  if cached && (negb (Deferred previous) || noResolve m && (isSource abs || bool_decide (is_Some (Diagnostics previous))) || initialOnly m || readOnly m)
  then (files, previous)
  else if readOnly m then (files, noChildren)
  else if isSource abs && noResolve m || isBuild abs && initialOnly m then
    let entry := mkChildren true [] None in (<[abs := entry]> files, entry)
  else
    let scratch := if Deferred previous then Paths previous else [] in
    let '(paths, diagnostics) := appendResolvedChildren m abs previous (scratch, []) in
    let entry := childrenOf paths diagnostics in
    let entry := if (initialOnly m || noResolve m) && negb (bool_decide (diagnostics = [])) then mkChildren true paths (Diagnostics entry) else entry in
    (<[abs := entry]> files, entry).

(** *** Generated files known by their paths *)

Definition appendPath (paths : list Z) (path : Z) : list Z :=
  if negb (path =? 0) && negb (bool_decide (path ∈ paths)) then paths ++ [path] else paths.

Definition appendDirective (paths : list Z) (d : IncludeDirective) : list Z :=
  match kind d with
  | includeQuoted | includeSystem =>
      if negb (any_vfs (target d) =? 0) then appendPath paths (any_vfs (target d))
      else match lookupSTR (any_str (target d)) with Some o => appendPath paths o | None => paths end
  | _ => paths
  end.

Definition bindGeneratedIncludes (files : Files) (file : Z) : Files * ScannedChildren :=
  let entry := entryOf files file in
  if bool_decide (is_Some (files !! file)) && negb (Deferred entry) then (files, entry)
  else
    match parsedIncludes file with
    | (own, extra, Some info, bucket) =>
        let paths := foldl appendDirective (Paths entry) (own ++ extra) in
        let paths := foldl appendDirective paths (snd <$> filter (λ e, usesInducedType file e.1 = true) (inducedIncludes file)) in
        let paths := foldl appendPath paths (closureLeaves info) in
        let paths := foldl appendDirective paths (toolTargets bucket info) in
        if bool_decide (length paths = length (Paths entry)) then (files, entry)
        else let entry := mkChildren true paths (Diagnostics entry) in (<[file := entry]> files, entry)
    | _ => (files, entry)
    end.

(** ** What a directive names *)

(** The files of a search. *)
Definition searched (includerAbs incDir : Z) (d : IncludeDirective) (v : Z) : Prop :=
  let t := any_str (target d) in
  let beside := resolveSourceUnder (vfs_rel incDir) t in
  let generated w := isBuild includerAbs = true ∧
    (lookupIncludeSTR t = Some w ∨ quotedLike d = true ∧ beside = 0 ∧ lookupIncludeSplit incDir t = Some w) in
  let near w := generated w ∨ quotedLike d = true ∧ beside ≠ 0 ∧ w = str_source beside in
  near v ∨ (∀ w, ¬ near w) ∧ v ≠ 0 ∧ v = resolveContextSearchTier t.

(** A quoted name found in the search is not looked up in the table, unless the table names several files and it was not
    found next to the includer. *)
Definition settled (includerAbs incDir : Z) (d : IncludeDirective) : Prop :=
  ∃ first rest, resolveSearchPath includerAbs incDir d = first :: rest ∧ quotedLike d = true ∧
    ((sysinclLookup includerAbs (any_str (target d))).1.2 = false ∨ besideIncluder includerAbs first d = true).

Definition mapped (includerAbs : Z) (d : IncludeDirective) (v : Z) : Prop :=
  v ∈ (sysinclLookup includerAbs (any_str (target d))).1.1 ∧ resolveSourceUnder srcRootRel (vfs_rel v) ≠ 0.

Lemma search_spec includerAbs incDir d v : v ∈ resolveSearchPath includerAbs incDir d ↔ searched includerAbs incDir d v.
Proof.
  unfold resolveSearchPath, searched. cbv zeta. set (t := any_str (target d)). set (sv := resolveSourceUnder (vfs_rel incDir) t).
  destruct (isBuild includerAbs), (quotedLike d), (lookupIncludeSTR t) as [o|] eqn:Ho; destruct (Z.eqb_spec sv 0) as [Hsv|Hsv]; cbn [negb];
    try (destruct (lookupIncludeSplit incDir t) as [o'|] eqn:Ho'); repeat case_bool_decide; cbn [negb];
    try (destruct (Z.eqb_spec (resolveContextSearchTier t) 0) as [Ht|Ht]); cbn [negb];
    rewrite ?elem_of_app, ?list_elem_of_singleton, ?elem_of_nil in *.
  all: naive_solver.
Qed.

Lemma addMapped_spec ms : ∀ out, NoDup out → NoDup (addMapped ms out) ∧ (∃ rest, addMapped ms out = out ++ rest) ∧
  ∀ v, v ∈ addMapped ms out ↔ v ∈ out ∨ v ∈ ms ∧ resolveSourceUnder srcRootRel (vfs_rel v) ≠ 0.
Proof.
  induction ms as [|a ms IH]; intros out Hnd; cbn [addMapped].
  { split; [done|]. split; [exists []; by rewrite app_nil_r|]. intros v. rewrite elem_of_nil. tauto. }
  case_bool_decide as Ha; [|destruct (Z.eqb_spec (resolveSourceUnder srcRootRel (vfs_rel a)) 0) as [Hz|Hz]].
  - destruct (IH out Hnd) as (? & ? & Hin). split; [done|]. split; [done|]. intros v. rewrite Hin, elem_of_cons. naive_solver.
  - destruct (IH out Hnd) as (? & ? & Hin). split; [done|]. split; [done|]. intros v. rewrite Hin, elem_of_cons. naive_solver.
  - destruct (IH (out ++ [a])) as (? & [rest Hr] & Hin).
    { apply NoDup_app. split; [done|]. split; [by intros x Hx ->%list_elem_of_singleton|apply NoDup_singleton]. }
    split; [done|]. split; [exists (a :: rest); by rewrite Hr, <- app_assoc|]. intros v. rewrite Hin, elem_of_app, !elem_of_cons, elem_of_nil. naive_solver.
Qed.

Context (built_by_name : ∀ t o, lookupIncludeSTR t = Some o → isBuild o = true).

Lemma str_source_isBuild id : isBuild (str_source id) = false.
Proof.
  unfold isBuild, str_source, VFSRootSource. rewrite Z.lor_0_r, Z.shiftl_mul_pow2 by lia. unfold u32. change 1 with (Z.ones 1) at 2. rewrite Z.land_ones by lia.
  rewrite <- Znumtheory.Zmod_div_mod; [|lia|lia|exists (2 ^ 31); lia]. change (2 ^ 1) with 2. by rewrite Z.mod_mul.
Qed.

Lemma search_nodup includerAbs incDir d : NoDup (resolveSearchPath includerAbs incDir d).
Proof.
  unfold resolveSearchPath. set (t := any_str (target d)). set (sv := resolveSourceUnder (vfs_rel incDir) t).
  destruct (isBuild includerAbs), (quotedLike d), (lookupIncludeSTR t) as [o|] eqn:Ho; destruct (Z.eqb_spec sv 0) as [Hsv|Hsv]; cbn [negb];
    try (destruct (lookupIncludeSplit incDir t) as [o'|]); repeat case_bool_decide; cbn [negb];
    try (destruct (Z.eqb_spec (resolveContextSearchTier t) 0)); cbn [negb app]; rewrite ?list_elem_of_singleton in *;
    repeat (apply NoDup_cons; split); rewrite ?list_elem_of_singleton; auto using NoDup_nil_2; try apply not_elem_of_nil.
  all: intros ->; apply built_by_name in Ho; by rewrite str_source_isBuild in Ho.
Qed.

(** A name that is searched for: the files of the search come first, then the existing files of the table unless the search settled it; each file
    once.  A warning is left exactly if nothing was found, the name is not a probe and no record of the table claims it. *)
Lemma resolveName_spec includerAbs incDir d : let r := resolveName includerAbs incDir d in
  NoDup r.1 ∧ (∃ rest, r.1 = resolveSearchPath includerAbs incDir d ++ rest) ∧
  (∀ v, v ∈ r.1 ↔ searched includerAbs incDir d v ∨ ¬ settled includerAbs incDir d ∧ mapped includerAbs d v) ∧
  r.2 = if bool_decide (r.1 = []) then warnUnresolved includerAbs d (sysinclLookup includerAbs (any_str (target d))).2 else [].
Proof.
  cbv zeta. setoid_rewrite <- search_spec. pose proof (search_nodup includerAbs incDir d) as Hnd. unfold resolveName, settled, mapped.
  destruct (sysinclLookup includerAbs (any_str (target d))) as [[ms multi] claimed]. cbn [fst snd]. destruct (resolveSearchPath includerAbs incDir d) as [|first rest] eqn:Hs.
  - assert (Hns : ¬ ∃ f r, [] = f :: r ∧ quotedLike d = true ∧ (multi = false ∨ besideIncluder includerAbs f d = true)) by naive_solver.
    destruct ms as [|a ms].
    + cbn [fst snd app]. split_and!; [constructor|by exists []|intros v; rewrite elem_of_nil; tauto|done].
    + destruct (addMapped_spec (a :: ms) [] (NoDup_nil_2)) as (Hn & [r Hr] & Hin). cbn [fst snd]. split_and!; [done|by eexists|intros v; rewrite Hin; tauto|done].
  - destruct (quotedLike d && _) eqn:Hb.
    + apply andb_true_iff in Hb as [Hq Hb%orb_true_iff]. rewrite negb_true_iff in Hb. cbn [fst snd].
      split_and!; [done|exists []; by rewrite app_nil_r| |done]. intros v. split; [tauto|]. intros [?|[Hno _]]; [done|]. destruct Hno. naive_solver.
    + assert (Hns : ¬ ∃ f r, first :: rest = f :: r ∧ quotedLike d = true ∧ (multi = false ∨ besideIncluder includerAbs f d = true)).
      { intros (f & r & [= <- <-] & Hq & Hor). rewrite Hq in Hb. cbn [andb] in Hb. apply orb_false_iff in Hb as [Hb1%negb_false_iff Hb2]. destruct Hor; congruence. }
      destruct ms as [|a ms].
      * cbn [fst snd]. split_and!; [done|exists []; by rewrite app_nil_r|intros v; rewrite elem_of_nil; tauto|done].
      * destruct (addMapped_spec (a :: ms) (first :: rest) Hnd) as (Hn & [r Hr] & Hin). cbn [fst snd]. split_and!; [done|by eexists|intros v; rewrite Hin; tauto|].
        rewrite Hr. done.
Qed.

Definition named (includerAbs incDir : Z) (d : IncludeDirective) (v : Z) : Prop :=
  searched includerAbs incDir d v ∨ ¬ settled includerAbs incDir d ∧ mapped includerAbs d v.

(** The names a macro may stand for. *)
Definition aliasesOf (includerAbs : Z) (d : IncludeDirective) : list IncludeDirective :=
  (λ alias, mkDirective includeSystem (str_any (aliasTarget alias))) <$> (sysinclLookup includerAbs (any_str (target d))).1.1.

Lemma aliases_loop includerAbs incDir aliases : ∀ acc, let r := foldl (λ acc alias, append2 acc (resolveName includerAbs incDir (mkDirective includeSystem (str_any (aliasTarget alias))))) acc aliases in
  r.1 = acc.1 ++ mjoin ((λ d, (resolveName includerAbs incDir d).1) <$> ((λ alias, mkDirective includeSystem (str_any (aliasTarget alias))) <$> aliases)).
Proof.
  induction aliases as [|a aliases IH]; intros acc; cbn zeta in *; [cbn; by rewrite app_nil_r|]. cbn [foldl fmap list_fmap]. rewrite IH. unfold append2. cbn [fst].
  by rewrite <- app_assoc.
Qed.

Lemma resolve_cases m includerAbs incDir d : noResolve m = false → any_vfs (target d) = 0 →
  (kind d = includeMacro → ∀ v, v ∈ (resolve m includerAbs incDir d).1 ↔ ∃ a, a ∈ aliasesOf includerAbs d ∧ named includerAbs incDir a v) ∧
  (kind d ∉ [includeRos; includeTypeScript; includeMacro] → resolve m includerAbs incDir d = resolveName includerAbs incDir d).
Proof.
  intros Hm Hv. unfold resolve. rewrite Hm, Hv. cbn [andb negb Z.eqb]. split.
  - intros -> v. unfold aliasesOf. destruct (sysinclLookup includerAbs (any_str (target d))) as [[aliases multi] claimed]. cbn [fst snd].
    pose proof (aliases_loop includerAbs incDir aliases ([], [])) as Hl. cbn zeta in Hl. destruct (foldl _ _ aliases) as [out diags]. cbn [fst] in *. rewrite Hl. cbn [app].
    rewrite list_elem_of_join. split.
    + intros (l & Hin & (a & -> & Ha)%list_elem_of_fmap). exists a. split; [done|]. by apply resolveName_spec.
    + intros (a & Ha & Hn). exists (resolveName includerAbs incDir a).1. split; [by apply resolveName_spec|]. apply list_elem_of_fmap. by exists a.
  - destruct (kind d); intros Hk; try done; destruct Hk; rewrite !elem_of_cons; tauto.
Qed.

(** ** Entries over time *)

(** Later entries only add paths, and final ones stay. *)
Definition entry_le (e e' : ScannedChildren) : Prop := (∃ rest, Paths e' = Paths e ++ rest) ∧ (Deferred e = false → e' = e).

Lemma entry_le_refl e : entry_le e e.
Proof. split; [exists []; by rewrite app_nil_r|done]. Qed.

Lemma entry_le_trans e1 e2 e3 : entry_le e1 e2 → entry_le e2 e3 → entry_le e1 e3.
Proof. intros [[r1 H1] F1] [[r2 H2] F2]. split; [exists (r1 ++ r2); by rewrite H2, H1, <- app_assoc|]. intros Hd. specialize (F1 Hd). subst e2. by apply F2. Qed.

Definition files_le (f f' : Files) : Prop := ∀ a e, f !! a = Some e → ∃ e', f' !! a = Some e' ∧ entry_le e e'.

Lemma files_le_refl f : files_le f f.
Proof. intros a e He. exists e. split; [done|apply entry_le_refl]. Qed.

Lemma files_le_trans f1 f2 f3 : files_le f1 f2 → files_le f2 f3 → files_le f1 f3.
Proof. intros H12 H23 a e (e2 & H2 & L2)%H12. destruct (H23 a e2 H2) as (e3 & H3 & L3). exists e3. split; [done|by eapply entry_le_trans]. Qed.

Lemma append2_grows (a b : appended) : ∃ rest, (append2 a b).1 = a.1 ++ rest.
Proof. by eexists. Qed.

Definition grows (acc r : appended) : Prop := ∃ rest, r.1 = acc.1 ++ rest.

Lemma more_refl acc : grows acc acc.
Proof. exists []. by rewrite app_nil_r. Qed.

Lemma more_trans a b c : grows a b → grows b c → grows a c.
Proof. intros [r1 H1] [r2 H2]. exists (r1 ++ r2). by rewrite H2, H1, <- app_assoc. Qed.

Lemma resolveAll_grows m v dir ds : ∀ acc, grows acc (resolveAll m v dir ds acc).
Proof. induction ds as [|d ds IH]; intros acc; cbn [resolveAll]; [apply more_refl|]. eapply more_trans; [apply append2_grows|apply IH]. Qed.

Lemma entryStep_grows m v dir s acc e : grows acc (entryStep m v dir s acc e).2.
Proof. unfold entryStep. repeat (case_match; simplify_eq); cbn [snd]; first [apply append2_grows|apply more_refl]. Qed.

Lemma entriesLoop_grows m v dir es : ∀ s acc, grows acc (entriesLoop m v dir es s acc).2.
Proof.
  induction es as [|e es IH]; intros s acc; cbn [entriesLoop]; [apply more_refl|]. pose proof (entryStep_grows m v dir s acc e) as Hg.
  destruct (entryStep m v dir s acc e) as [s' acc']. eapply more_trans; [exact Hg|apply IH].
Qed.

Lemma induced_grows m v dir info b acc : grows acc (appendResolvedInducedDeps m v dir info b acc).
Proof.
  unfold appendResolvedInducedDeps. destruct (negb _); [apply more_refl|]. destruct info as [info|]; [|apply more_refl].
  eapply more_trans; [apply append2_grows|]. eapply more_trans; apply resolveAll_grows.
Qed.

Lemma children_grow m v p acc : grows acc (appendResolvedChildren m v p acc).
Proof.
  unfold appendResolvedChildren. destruct (parsedIncludes v) as [[[own extra] info] b]. destruct (_ && _); [apply more_refl|].
  assert (Hloop : grows acc (let '(s, acc) := entriesLoop m v (includerDir v) own (mkCimports (length acc.1) false false) acc in
    let '(_, acc) := entriesLoop m v (includerDir v) extra s acc in appendResolvedInducedDeps m v (includerDir v) info b acc)).
  { pose proof (entriesLoop_grows m v (includerDir v) own (mkCimports (length acc.1) false false) acc) as H1. destruct (entriesLoop _ _ _ own _ _) as [s1 acc1].
    pose proof (entriesLoop_grows m v (includerDir v) extra s1 acc1) as H2. destruct (entriesLoop _ _ _ extra _ _) as [s2 acc2].
    eapply more_trans; [exact H1|]. eapply more_trans; [exact H2|apply induced_grows]. }
  destruct (Diagnostics p) as [es|]; [|done]. destruct (Deferred p); [apply resolveAll_grows|done].
Qed.

Lemma insert_le (f : Files) a e : (∀ o, f !! a = Some o → entry_le o e) → files_le f (<[a := e]> f).
Proof.
  intros Ho b o Hb. destruct (decide (b = a)) as [->|Hne]; [exists e; rewrite lookup_insert_eq; by split; [|apply Ho]|].
  exists o. rewrite lookup_insert_ne by done. split; [done|apply entry_le_refl].
Qed.

(** One scan: what it returns and what it leaves. *)
Lemma scan_step m files abs : let r := resolvedChildren m files abs in
  files_le files r.1 ∧ (∀ a, a ≠ abs → r.1 !! a = files !! a) ∧
  (readOnly m = true → r.1 = files ∧ r.2 = entryOf files abs) ∧
  (readOnly m = false → r.1 !! abs = Some r.2) ∧
  (noResolve m = false → initialOnly m = false → readOnly m = false → Deferred r.2 = false).
Proof.
  cbv zeta. unfold resolvedChildren. set (prev := entryOf files abs).
  destruct (bool_decide (is_Some (files !! abs))) eqn:Hc; [apply bool_decide_eq_true in Hc as [old Hold]|apply bool_decide_eq_false in Hc].
  - assert (Hp : prev = old) by (unfold prev, entryOf; by rewrite Hold). rewrite Hp. cbn [andb]. destruct (negb (Deferred old) || _ || _ || _) eqn:Hret; cbn [fst snd].
    { split; [apply files_le_refl|]. split; [done|]. split; [done|]. split; [done|]. intros Hn Hi Hr. rewrite Hn, Hi, Hr, !orb_false_r in Hret. by apply negb_true_iff in Hret. }
    apply orb_false_iff in Hret as [Hret Hro]. apply orb_false_iff in Hret as [Hret Hio]. apply orb_false_iff in Hret as [Hdef%negb_false_iff Hnr]. rewrite Hro, Hio, Hdef.
    rewrite andb_false_r, orb_false_r. destruct (isSource abs && noResolve m) eqn:Hsn.
    { apply andb_true_iff in Hsn as [Hs Hn]. rewrite Hs, Hn in Hnr. done. }
    pose proof (children_grow m abs old (Paths old, [])) as [rest Hg]. destruct (appendResolvedChildren m abs old (Paths old, [])) as [paths diags]. cbn [fst] in Hg.
    cbn [orb]. set (e := if _ && _ then _ else _). assert (He : Paths e = paths) by (unfold e; by case_match). cbn [fst snd].
    split; [apply insert_le; intros o Ho; assert (o = old) as -> by congruence; split; [exists rest; congruence|congruence]|]. split; [intros a Ha; by rewrite lookup_insert_ne|].
    split; [done|]. split; [by rewrite lookup_insert_eq|]. intros Hn _ _. unfold e. by rewrite Hn.
  - assert (Hnone : files !! abs = None) by (destruct (files !! abs); [by destruct Hc|done]). assert (Hp : prev = noChildren) by (unfold prev, entryOf; by rewrite Hnone). rewrite Hp. cbn [andb].
    destruct (readOnly m) eqn:Hro; cbn [fst snd]; [split; [apply files_le_refl|by split_and!]|].
    assert (Hle : ∀ e, files_le files (<[abs := e]> files)) by (intros e; apply insert_le; congruence).
    destruct (isSource abs && noResolve m || isBuild abs && initialOnly m) eqn:Hd; cbn [fst snd].
    { split; [apply Hle|]. split; [intros a Ha; by rewrite lookup_insert_ne|]. split; [done|]. split; [by rewrite lookup_insert_eq|]. intros Hn Hi. by rewrite Hn, Hi, !andb_false_r in Hd. }
    destruct (appendResolvedChildren _ _ _ _) as [paths diags]. set (e := if (_ || _) && _ then _ else _). cbn [fst snd].
    split; [apply Hle|]. split; [intros a Ha; by rewrite lookup_insert_ne|]. split; [done|]. split; [by rewrite lookup_insert_eq|]. intros Hn Hi _. unfold e. by rewrite Hn, Hi.
Qed.

Inductive Event := Scan (m : Mode) (abs : Z) | Bind (file : Z).

Definition event (files : Files) (ev : Event) : Files :=
  match ev with Scan m abs => (resolvedChildren m files abs).1 | Bind file => (bindGeneratedIncludes files file).1 end.
Definition scanAll (files : Files) (events : list Event) : Files := foldl event files events.

Definition resolving (m : Mode) : Prop := noResolve m = false ∧ initialOnly m = false ∧ readOnly m = false.

Lemma appendPath_more paths p : ∃ rest, appendPath paths p = paths ++ rest.
Proof. unfold appendPath. case_match; [by eexists|exists []; by rewrite app_nil_r]. Qed.

Lemma appendDirective_more paths d : ∃ rest, appendDirective paths d = paths ++ rest.
Proof.
  unfold appendDirective. repeat case_match; try apply appendPath_more; exists []; by rewrite app_nil_r.
Qed.

Lemma fold_more {A} (f : list Z → A → list Z) l base : (∀ p x, ∃ rest, f p x = p ++ rest) → ∀ paths, (∃ rest, paths = base ++ rest) → ∃ rest, foldl f paths l = base ++ rest.
Proof.
  intros Hf. induction l as [|x l IH]; intros paths Hp; [done|]. cbn [foldl]. apply IH. destruct Hp as [r ->]. destruct (Hf (base ++ r) x) as [r' ->]. exists (r ++ r'). by rewrite <- app_assoc.
Qed.

Lemma bind_le files file : files_le files (bindGeneratedIncludes files file).1.
Proof.
  unfold bindGeneratedIncludes. destruct (_ && _) eqn:Hc; [apply files_le_refl|]. destruct (parsedIncludes file) as [[[own extra] [info|]] bucket]; [|apply files_le_refl].
  destruct (bool_decide (length _ = length _)); [apply files_le_refl|]. cbn [fst]. apply insert_le. intros o Ho. unfold entryOf in *. rewrite Ho in *. cbn [default from_option Datatypes.id] in *.
  rewrite bool_decide_eq_true_2 in Hc by (by eexists). cbn [andb] in Hc. apply negb_false_iff in Hc. split; [|congruence]. cbn [Paths].
  do 4 (apply fold_more; [first [exact appendDirective_more|exact appendPath_more]|]). exists []. by rewrite app_nil_r.
Qed.

Lemma event_le files ev : files_le files (event files ev).
Proof. destruct ev as [m abs|file]; [apply (scan_step m files abs)|apply bind_le]. Qed.

Lemma scanAll_le events : ∀ files, files_le files (scanAll files events).
Proof.
  induction events as [|ev events IH]; intros files; [apply files_le_refl|]. eapply files_le_trans; [apply event_le|apply IH].
Qed.

Lemma final_answer m files abs e : files !! abs = Some e → Deferred e = false → resolvedChildren m files abs = (files, e).
Proof.
  intros He Hd. unfold resolvedChildren, entryOf. rewrite He. cbn [default from_option Datatypes.id]. rewrite bool_decide_eq_true_2 by (by eexists). by rewrite Hd.
Qed.

Lemma scanned_final events m abs : ∀ files, Scan m abs ∈ events → resolving m → ∃ e, scanAll files events !! abs = Some e ∧ Deferred e = false.
Proof.
  induction events as [|ev events IH]; intros files Hin Hm; [by apply not_elem_of_nil in Hin|]. apply elem_of_cons in Hin as [<-|Hin]; [|by apply (IH (event files ev))].
  destruct Hm as (H1 & H2 & H3). destruct (scan_step m files abs) as (_ & _ & _ & Hput & Hfin). specialize (Hput H3). specialize (Hfin H1 H2 H3).
  destruct (scanAll_le events _ abs _ Hput) as (e & He & _ & Hsame). exists e. split; [done|]. by rewrite (Hsame Hfin).
Qed.

(** ** Scanning in two steps *)

Definition plainKind (d : IncludeDirective) : Prop := kind d ∈ [includeSystem; includeQuoted; includeMacro].

Definition flat (m : Mode) (v dir : Z) (ds : list IncludeDirective) : appended :=
  (mjoin ((λ d, (resolve m v dir d).1) <$> ds), mjoin ((λ d, (resolve m v dir d).2) <$> ds)).

Lemma append2_assoc a b c : append2 (append2 a b) c = append2 a (append2 b c).
Proof. unfold append2. cbn [fst snd]. by rewrite !app_assoc. Qed.

Lemma append2_nil a : append2 a ([], []) = a.
Proof. unfold append2. cbn [fst snd]. rewrite !app_nil_r. by destruct a. Qed.

Lemma resolveAll_flat m v dir ds : ∀ acc, resolveAll m v dir ds acc = append2 acc (flat m v dir ds).
Proof.
  induction ds as [|d ds IH]; intros acc; cbn [resolveAll]; [symmetry; apply append2_nil|]. rewrite IH, append2_assoc. reflexivity.
Qed.

Lemma flat_split m v dir a b : flat m v dir (a ++ b) = append2 (flat m v dir a) (flat m v dir b).
Proof.
  induction a as [|d a IH]; [reflexivity|]. cbn [app].
  change (flat m v dir (d :: a ++ b)) with (append2 (resolve m v dir d) (flat m v dir (a ++ b))). rewrite IH, <- append2_assoc. reflexivity.
Qed.

Lemma plain_loop m v dir ds : Forall plainKind ds → ∀ s acc, (entriesLoop m v dir ds s acc).2 = append2 acc (flat m v dir ds).
Proof.
  induction 1 as [|d ds Hd _ IH]; intros s acc; cbn [entriesLoop]; [symmetry; apply append2_nil|].
  assert (Hstep : (entryStep m v dir s acc d).2 = append2 acc (resolve m v dir d)).
  { unfold plainKind in Hd. unfold entryStep. rewrite !elem_of_cons, elem_of_nil in Hd. destruct Hd as [->|[->|[->|[]]]]; done. }
  destruct (entryStep m v dir s acc d) as [s' acc']. cbn [snd] in Hstep. subst acc'. rewrite IH, append2_assoc. reflexivity.
Qed.

(** The directives of a generated file, and all that is appended for them. *)
Definition directivesOf (v : Z) : list IncludeDirective * list IncludeDirective :=
  let '(own, extra, info, bucket) := parsedIncludes v in (own ++ extra, match info with Some info => toolTargets bucket info | None => [] end).
Definition leavesOf (v : Z) : list Z := match codegenLookup v with Some info => closureLeaves info | None => [] end.

Definition inducedIn (m : Mode) (v : Z) : list IncludeDirective := match codegenLookup v with Some _ => inducedTargets m v | None => [] end.

Lemma plain_children m v p acc : isBuild v = true → Forall plainKind (directivesOf v).1 → Diagnostics p = None →
  appendResolvedChildren m v p acc = append2 acc (append2 (flat m v (includerDir v) (directivesOf v).1) (append2 (leavesOf v, [])
    (append2 (flat m v (includerDir v) (inducedIn m v)) (flat m v (includerDir v) (directivesOf v).2)))).
Proof.
  intros Hb Hp Hd. unfold appendResolvedChildren, directivesOf in *. rewrite Hd, Hb.
  assert (Hinfo : (parsedIncludes v).1.2 = codegenLookup v).
  { unfold parsedIncludes. rewrite Hb. destruct (codegenLookup v) as [i|]; [|done]. by destruct (registeredParserFor (relText v)) as [[[]|] []]. }
  destruct (parsedIncludes v) as [[[own extra] info] bucket]. cbn [fst snd] in *. unfold leavesOf, inducedIn. rewrite <- Hinfo. cbn [negb]. rewrite andb_false_r.
  apply Forall_app in Hp as [Ho He]. pose proof (plain_loop m v (includerDir v) own Ho (mkCimports (length acc.1) false false) acc) as H1.
  destruct (entriesLoop _ _ _ own _ _) as [s1 acc1]. cbn [snd] in H1. subst acc1.
  pose proof (plain_loop m v (includerDir v) extra He s1 (append2 acc (flat m v (includerDir v) own))) as H2.
  destruct (entriesLoop _ _ _ extra _ _) as [s2 acc2]. cbn [snd] in H2. subst acc2. rewrite flat_split. unfold appendResolvedInducedDeps. rewrite Hb. cbn [negb].
  destruct info as [info|]; [rewrite !resolveAll_flat|]; rewrite !append2_assoc; [done|]. f_equal. f_equal. symmetry. change (append2 ([], []) (append2 ([], []) ([], []))) with (@nil Z, @nil IncludeDiagnostic). apply append2_nil.
Qed.

Definition waiting (d : IncludeDirective) : Prop := any_vfs (target d) = 0.
#[local] Instance waiting_dec d : Decision (waiting d).
Proof. unfold waiting. apply _. Defined.

Definition direct (ds : list IncludeDirective) : list Z := (λ d, any_vfs (target d)) <$> filter (λ d, ¬ waiting d) ds.

Lemma plain_resolved m v dir d : plainKind d → noResolve m && isSource v = false → ¬ waiting d → resolve m v dir d = ([any_vfs (target d)], []).
Proof.
  intros Hp Hm Hw. unfold resolve. unfold waiting in Hw. rewrite (proj2 (Z.eqb_neq _ _) Hw), orb_false_r, Hm. cbn [negb]. unfold plainKind in Hp.
  rewrite !elem_of_cons, elem_of_nil in Hp. by destruct Hp as [->|[->|[->|[]]]].
Qed.

Lemma deferred_flat m v dir ds : Forall plainKind ds → isBuild v = true → noResolve m = true →
  flat m v dir ds = (direct ds, (λ d, mkDiagnostic d 0 false) <$> filter waiting ds).
Proof.
  intros Hp Hb Hm. assert (Hs : isSource v = false) by (unfold isSource, isBuild in *; by apply negb_true_iff). induction Hp as [|d ds Hd _ IH]; [done|].
  change (flat m v dir (d :: ds)) with (append2 (resolve m v dir d) (flat m v dir ds)). rewrite IH. unfold direct. rewrite !filter_cons. destruct (decide (waiting d)) as [Hw|Hw].
  - rewrite decide_False by tauto. unfold resolve. rewrite Hm, Hs, Hb. unfold waiting in Hw. by rewrite Hw.
  - rewrite decide_True by done. by rewrite plain_resolved by (done || by rewrite Hs, andb_false_r).
Qed.

Lemma later_flat m v dir ds : Forall plainKind ds → noResolve m = false →
  (flat m v dir ds).1 ≡ₚ direct ds ++ (flat m v dir (filter waiting ds)).1 ∧ (flat m v dir ds).2 = (flat m v dir (filter waiting ds)).2.
Proof.
  intros Hp Hm. induction Hp as [|d ds Hd _ [IH1 IH2]]; [done|]. change (flat m v dir (d :: ds)) with (append2 (resolve m v dir d) (flat m v dir ds)). unfold direct in *. rewrite !filter_cons.
  destruct (decide (waiting d)) as [Hw|Hw].
  - rewrite decide_False by tauto. change (flat m v dir (d :: filter waiting ds)) with (append2 (resolve m v dir d) (flat m v dir (filter waiting ds))).
    unfold append2. cbn [fst snd]. rewrite IH2. split; [|done]. rewrite IH1. rewrite !app_assoc. by rewrite (Permutation_app_comm (resolve m v dir d).1).
  - rewrite decide_True by done. rewrite plain_resolved by (done || by rewrite Hm). unfold append2. cbn [fst snd app]. rewrite IH2. split; [|done]. cbn [fmap list_fmap app]. by rewrite IH1.
Qed.

(** The first scan leaves a placeholder. *)
Lemma placeholder_then m files abs : resolving m → isSource abs = negb (isBuild abs) →
  (resolvedChildren m (<[abs := mkChildren true [] None]> files) abs).2 =
  (let '(paths, diagnostics) := appendResolvedChildren m abs noChildren ([], []) in childrenOf paths diagnostics).
Proof.
  intros (H1 & H2 & H3) Hs. unfold resolvedChildren, entryOf. rewrite lookup_insert_eq. cbn [default from_option Datatypes.id Deferred Paths Diagnostics]. rewrite H1, H2, H3.
  cbn [negb orb andb]. rewrite !andb_false_r. cbn [orb].
  assert (He : appendResolvedChildren m abs (mkChildren true [] None) ([], []) = appendResolvedChildren m abs noChildren ([], [])) by done. rewrite He.
  by destruct (appendResolvedChildren m abs noChildren ([], [])).
Qed.

Lemma fresh_scan m files abs : resolving m → files !! abs = None →
  (resolvedChildren m files abs).2 = (let '(paths, diagnostics) := appendResolvedChildren m abs noChildren ([], []) in childrenOf paths diagnostics).
Proof.
  intros (H1 & H2 & H3) Hf. unfold resolvedChildren, entryOf. rewrite Hf. cbn [default from_option Datatypes.id noChildren Deferred Paths Diagnostics]. rewrite H1, H2, H3.
  rewrite !andb_false_r. rewrite bool_decide_eq_false_2 by (by intros []). cbn [orb andb]. by destruct (appendResolvedChildren m abs _ _).
Qed.

Lemma phases_built m1 m2 files abs : isBuild abs = true → noResolve m1 = true → initialOnly m1 = false → readOnly m1 = false → resolving m2 → files !! abs = None →
  Forall plainKind ((directivesOf abs).1 ++ (directivesOf abs).2) → inducedIn m2 abs = [] →
  let e2 := (resolvedChildren m2 (resolvedChildren m1 files abs).1 abs).2 in let e := (resolvedChildren m2 files abs).2 in
  Paths e2 ≡ₚ Paths e ∧ Diagnostics e2 = Diagnostics e ∧ Deferred e2 = false.
Proof.
  intros Hb Hn1 Hi1 Hr1 Hm2 Hf Hp Hind. cbv zeta. rewrite (fresh_scan m2 files abs Hm2 Hf). destruct Hm2 as (Hn2 & Hi2 & Hr2). set (dir := includerDir abs).
  apply Forall_app in Hp as Hp'. destruct Hp' as [Hp1 Hp2]. set (d1 := (directivesOf abs).1) in *. set (d2 := (directivesOf abs).2) in *. set (leaves := leavesOf abs).
  assert (Hs : isSource abs = false) by (unfold isSource, isBuild in *; by apply negb_true_iff).
  assert (Hind1 : inducedIn m1 abs = []) by (unfold inducedIn, inducedTargets; rewrite Hn1; by destruct (codegenLookup abs)).
  pose proof (plain_children m2 abs noChildren ([], []) Hb Hp1 eq_refl) as Hdirect. pose proof (plain_children m1 abs noChildren ([], []) Hb Hp1 eq_refl) as Hfirst.
  fold d1 d2 dir leaves in Hdirect, Hfirst. rewrite Hind in Hdirect. rewrite Hind1 in Hfirst. rewrite !(deferred_flat m1) in Hfirst by done.
  change (flat m2 abs dir []) with (@nil Z, @nil IncludeDiagnostic) in Hdirect. unfold append2 in Hdirect. cbn [fst snd app] in Hdirect. rewrite Hdirect. clear Hdirect.
  destruct (later_flat m2 abs dir d1 Hp1 Hn2) as [HP1 HD1]. destruct (later_flat m2 abs dir d2 Hp2 Hn2) as [HP2 HD2].
  set (diags := (λ d, mkDiagnostic d 0 false) <$> filter waiting (d1 ++ d2)). set (paths1 := direct d1 ++ leaves ++ direct d2).
  assert (Hfirst' : appendResolvedChildren m1 abs noChildren ([], []) = (paths1, diags)).
  { rewrite Hfirst. unfold append2, diags, paths1, flat. cbn [fst snd app fmap list_fmap mjoin list_join]. by rewrite filter_app, fmap_app. }
  clear Hfirst. assert (Hwait : (Directive <$> diags) = filter waiting d1 ++ filter waiting d2).
  { unfold diags. rewrite <- list_fmap_compose, filter_app. unfold compose. cbn. by rewrite list_fmap_id. }
  assert (E1 : (resolvedChildren m1 files abs).1 = <[abs := mkChildren (negb (bool_decide (diags = []))) paths1 (if bool_decide (diags = []) then None else Some diags)]> files).
  { unfold resolvedChildren, entryOf. rewrite Hf. cbn [default from_option Datatypes.id]. rewrite bool_decide_eq_false_2 by (by intros []). cbn [andb]. rewrite Hr1, Hs, Hi1. cbn [andb orb]. rewrite andb_false_r.
    cbn [noChildren Deferred Paths]. fold noChildren. rewrite Hfirst', Hn1. unfold childrenOf. by destruct (bool_decide (diags = [])). }
  rewrite E1.
  destruct (bool_decide (diags = [])) eqn:Hd; [apply bool_decide_eq_true in Hd|apply bool_decide_eq_false in Hd].
  - rewrite Hd in Hwait. symmetry in Hwait. apply app_nil in Hwait as [Hw1 Hw2]. rewrite Hw1 in HP1, HD1. rewrite Hw2 in HP2, HD2. change (flat m2 abs dir []) with (@nil Z, @nil IncludeDiagnostic) in HP1, HD1, HP2, HD2. cbn [fst snd] in HP1, HD1, HP2, HD2. rewrite app_nil_r in HP1, HP2.
    rewrite (final_answer m2 _ abs (mkChildren false paths1 None)) by (done || by rewrite lookup_insert_eq). cbn [snd Paths Diagnostics Deferred childrenOf].
    split; [|split; [|done]]; [unfold paths1; by rewrite HP1, HP2|]. by rewrite HD1, HD2.
  - unfold resolvedChildren, entryOf. rewrite lookup_insert_eq. cbn [default from_option Datatypes.id negb Deferred Paths Diagnostics]. rewrite Hn2, Hi2, Hr2. cbn [negb orb andb]. rewrite !andb_false_r. cbn [orb].
    assert (Hsecond : appendResolvedChildren m2 abs (mkChildren true paths1 (Some diags)) (paths1, []) = append2 (paths1, []) (flat m2 abs dir (filter waiting d1 ++ filter waiting d2))).
    { unfold appendResolvedChildren. destruct (parsedIncludes abs) as [[[own extra] info] b]. rewrite Hb. cbn [negb]. rewrite andb_false_r. cbn [Deferred Diagnostics]. by rewrite resolveAll_flat, Hwait. }
    rewrite Hsecond, flat_split. unfold append2. cbn [fst snd app]. cbn [Paths Diagnostics Deferred childrenOf]. split; [|split; [|done]]; [|by rewrite HD1, HD2].
    unfold paths1. rewrite HP1, HP2. rewrite <- !app_assoc. apply Permutation_app_head. rewrite !app_assoc. apply Permutation_app_tail.
    rewrite <- (app_assoc (flat m2 abs dir (filter waiting d1)).1). by rewrite (Permutation_app_comm (leaves ++ direct d2)).
Qed.

Lemma phases m1 m2 files abs : readOnly m1 = false → noResolve m1 = true ∧ initialOnly m1 = false ∨ initialOnly m1 = true ∧ isBuild abs = true → resolving m2 → files !! abs = None →
  (isBuild abs = true → Forall plainKind ((directivesOf abs).1 ++ (directivesOf abs).2) ∧ inducedIn m2 abs = []) →
  let e2 := (resolvedChildren m2 (resolvedChildren m1 files abs).1 abs).2 in let e := (resolvedChildren m2 files abs).2 in
  Paths e2 ≡ₚ Paths e ∧ Diagnostics e2 = Diagnostics e ∧ Deferred e2 = false.
Proof.
  intros Hr1 Hmode Hm2 Hf Hb. cbv zeta. destruct (isBuild abs && negb (initialOnly m1)) eqn:Hcase.
  - apply andb_true_iff in Hcase as [Hbuild Hi%negb_true_iff]. destruct Hmode as [[Hn _]|[Hi' _]]; [|congruence]. destruct (Hb Hbuild). by apply phases_built.
  - assert (Hplace : isSource abs && noResolve m1 || isBuild abs && initialOnly m1 = true).
    { assert (isSource abs = negb (isBuild abs)) as -> by (unfold isSource, isBuild; by rewrite negb_involutive). destruct (isBuild abs), Hmode as [[Hn Hi]|[Hi Hb']]; rewrite ?Hn, ?Hi in *; done. }
    assert (E1 : (resolvedChildren m1 files abs).1 = <[abs := mkChildren true [] None]> files).
    { unfold resolvedChildren. rewrite Hf, bool_decide_eq_false_2 by (by intros []). cbn [andb]. by rewrite Hr1, Hplace. }
    rewrite E1, placeholder_then, (fresh_scan m2 files abs Hm2 Hf); [|done|unfold isSource, isBuild; by rewrite negb_involutive].
    by destruct (appendResolvedChildren m2 abs noChildren ([], [])).
Qed.
End scan.

(** C26: A name that is to be searched for gives the files of the search, then the existing files the table of system headers maps it to unless the search settled
    it, each once; a macro gives what its aliases name; a warning is left exactly if nothing was found, the name is no probe and no record claims it. *)
Theorem resolve_answer `{World} (m : Mode) (includerAbs incDir : Z) (d : IncludeDirective) :
  (∀ t o, lookupIncludeSTR t = Some o → isBuild o = true) → noResolve m = false → any_vfs (target d) = 0 →
  let r := resolve m includerAbs incDir d in
  (kind d ∉ [includeRos; includeTypeScript; includeMacro] →
    NoDup r.1 ∧ (∃ rest, r.1 = resolveSearchPath includerAbs incDir d ++ rest) ∧ (∀ v, v ∈ r.1 ↔ named includerAbs incDir d v) ∧
    r.2 = if bool_decide (r.1 = []) then warnUnresolved includerAbs d (sysinclLookup includerAbs (any_str (target d))).2 else []) ∧
  (kind d = includeMacro → ∀ v, v ∈ r.1 ↔ ∃ a, a ∈ aliasesOf includerAbs d ∧ named includerAbs incDir a v).
Proof.
  intros Hbuilt Hm Hv. cbv zeta. destruct (resolve_cases Hbuilt m includerAbs incDir d Hm Hv) as [Hmacro Hplain]. split; [|exact Hmacro].
  intros Hk. rewrite (Hplain Hk). by apply resolveName_spec.
Qed.



Module ScanExample.
Definition quotedFile (v : Z) : IncludeDirective := mkDirective includeQuoted (vfs_any v).
Definition quotedName (id : Z) : IncludeDirective := mkDirective includeQuoted (str_any id).

(** Files 21 and 23 are generated, with a direct include and a name; the name 7 is found beside them, and the producer of 21 adds the name 8 for compilation. *)
#[local] Instance world : World := {|
  relText v := if v =? 21 then bs "gen/a.cpp" else if v =? 14 then bs "gen/b.h" else bs "other";
  anyText a := if a =? str_any 9 then bs "cpp" else if a =? str_any 7 then bs "b.h" else bs "c.h";
  srcRootRel := 1;
  internText _ := 1;
  lookupIncludeSTR t := if t =? 8 then Some 33 else None;
  lookupIncludeSplit _ _ := None;
  lookupSTR t := if t =? 8 then Some 33 else None;
  resolveSourceUnder dir t := if (dir =? 5) && (t =? 7) then 7 else if (dir =? 1) && (t =? 20) then 20 else 0;
  resolveContextSearchTier _ := 0;
  sysinclLookup _ t := if t =? 7 then ([40; 40], true, true) else ([], false, false);
  resolveRosInclude _ := 0;
  resolveTSImport _ _ := 0;
  codegenLookup v := if (v =? 21) || (v =? 23) then Some (mkInfo [50] [] (λ b, if bool_decide (b = parsedIncludesLocal) then [quotedName 7; quotedFile 60] else [])) else None;
  moduleOutputIncludes _ := [];
  registeredParserFor _ := (Some CParser, true);
  isHeaderSource _ := false;
  sourceParsedWalkable _ := [];
  includerDir _ := 10;
  inducedIncludes v := if v =? 21 then [(9, quotedName 8)] else [];
  toolInducedDeps _ := None |}.

Definition deferring : Mode := mkMode true false false false.
Definition full : Mode := mkMode false false false false.

Lemma resolve_answer_witness : let d := quotedName 7 in let r := resolve full 21 10 d in
  (kind d ∉ [includeRos; includeTypeScript; includeMacro] →
    NoDup r.1 ∧ (∃ rest, r.1 = resolveSearchPath 21 10 d ++ rest) ∧ (∀ v, v ∈ r.1 ↔ named 21 10 d v) ∧
    r.2 = if bool_decide (r.1 = []) then warnUnresolved 21 d (sysinclLookup 21 (any_str (target d))).2 else []) ∧
  (kind d = includeMacro → ∀ v, v ∈ r.1 ↔ ∃ a, a ∈ aliasesOf 21 d ∧ named 21 10 a v).
Proof.
  apply (resolve_answer full 21 10 (quotedName 7)); [|reflexivity|reflexivity]. intros t o. cbn. destruct (t =? 8); [|done]. by intros [= <-].
Defined.

(** Both the file beside and the mapped one. *)
Lemma both_found : resolve full 21 10 (quotedName 7) = ([14; 40], []).
Proof. vm_compute. reflexivity. Qed.


(** The include its producer adds is lost when the first scan does not resolve. *)
Lemma induced_lost : Paths (resolvedChildren full ∅ 21).2 = [14; 40; 60; 50; 33] ∧
  Paths (resolvedChildren full (resolvedChildren deferring ∅ 21).1 21).2 = [60; 50; 14; 40].
Proof. vm_compute. done. Qed.
End ScanExample.
