(* ===== verification/Json.v ===== *)
(** * JSON strings and values (json_write.go, json_split.go)

    The writer copies runs of plain bytes, found eight at a time by arithmetic on a
    64-bit word, and escapes the rest; the splitter finds where strings and values end
    without decoding them.  Shown: the word arithmetic only skips plain bytes, what was
    written is decoded to the text with malformed UTF-8 replaced, and the splitter finds
    the members of a written object, with their keys and their raw values. *)

From S2P Require Import Prelude.
Local Open Scope string_scope.
Local Open Scope list_scope.
Local Open Scope Z_scope.

Abbreviation text := (list Z) (only parsing).

Definition c_quote : Z := 34.
Definition c_back : Z := 92.

(** ** UTF-8 (unicode/utf8) *)

Definition cont (b : Z) : bool := (0x80 <=? b) && (b <=? 0xBF).

(** The length of a well-formed character of several bytes at the start of a text. *)
Definition charLen (s : text) : option nat :=
  match s with
  | a :: b :: r =>
      if (0xC2 <=? a) && (a <=? 0xDF) then if cont b then Some 2%nat else None
      else if (0xE0 <=? a) && (a <=? 0xEF) then
        let lo := if a =? 0xE0 then 0xA0 else 0x80 in
        let hi := if a =? 0xED then 0x9F else 0xBF in
        if (lo <=? b) && (b <=? hi) then match r with c :: _ => if cont c then Some 3%nat else None | [] => None end else None
      else if (0xF0 <=? a) && (a <=? 0xF4) then
        let lo := if a =? 0xF0 then 0x90 else 0x80 in
        let hi := if a =? 0xF4 then 0x8F else 0xBF in
        if (lo <=? b) && (b <=? hi) then match r with c :: d :: _ => if cont c && cont d then Some 4%nat else None | _ => None end else None
      else None
  | _ => None
  end.

(** [utf8.AppendRune], for characters up to U+FFFF *)
Definition encodeRune (c : Z) : text :=
  if c <? 0x80 then [c]
  else if c <? 0x800 then [0xC0 + Z.shiftr c 6; 0x80 + Z.land c 0x3F]
  else [0xE0 + Z.shiftr c 12; 0x80 + Z.land (Z.shiftr c 6) 0x3F; 0x80 + Z.land c 0x3F].

Definition runeError : text := [0xEF; 0xBF; 0xBD].
Definition lineSep (k : Z) : text := [0xE2; 0x80; 0xA8 + k].

(** ** The writer *)

Definition hexDigit (n : Z) : Z := if n <? 10 then 48 + n else 87 + n.

(** [htmlSafeNoEscape] *)
Definition plain (b : Z) : bool := (0x20 <=? b) && (b <? 0x80) && negb (b =? c_quote) && negb (b =? c_back).

Definition escapeByte (b : Z) : text :=
  if (b =? c_back) || (b =? c_quote) then [c_back; b]
  else if b =? 8 then [c_back; 98] else if b =? 12 then [c_back; 102] else if b =? 10 then [c_back; 110]
  else if b =? 13 then [c_back; 114] else if b =? 9 then [c_back; 116]
  else [c_back; 117; 48; 48; hexDigit (Z.shiftr b 4); hexDigit (Z.land b 0xf)].

(** [binary.LittleEndian.Uint64] *)
Definition wordOf (bs : text) : Z := foldr (λ b w, b + 256 * w) 0 bs.

Definition ones : Z := 0x0101010101010101.
Definition andNot (x y : Z) : Z := Z.land x (not64 y).
Definition special (word : Z) : Z :=
  let quote := Z.lxor word 0x2222222222222222 in
  let slash := Z.lxor word 0x5c5c5c5c5c5c5c5c in
  Z.lor (Z.lor (Z.lor (u64 (word - 0x2020202020202020)) word) (andNot (u64 (quote - ones)) quote)) (andNot (u64 (slash - ones)) slash).
Definition wordPlain (bs : text) : bool := Z.land (special (wordOf bs)) 0x8080808080808080 =? 0.

(** Eight bytes at a time: what was passed and what is left. *)
Fixpoint skipWords (fuel : nat) (pend rest : text) : text * text :=
  match fuel with
  | O => (pend, rest)
  | S fuel => if (8 <=? length rest)%nat && wordPlain (take 8 rest) then skipWords fuel (pend ++ take 8 rest) (drop 8 rest) else (pend, rest)
  end.

(** [pend] is [s[start:i]] and [rest] is [s[i:]]. *)
Fixpoint escapeLoop (fuel : nat) (buf pend rest : text) : option text :=
  match fuel with
  | O => None
  | S fuel =>
      let '(pend, rest) := skipWords (length rest) pend rest in
      match rest with
      | [] => Some (buf ++ pend)
      | b :: rest' =>
          if b <? 0x80 then
            if plain b then escapeLoop fuel buf (pend ++ [b]) rest'
            else escapeLoop fuel (buf ++ pend ++ escapeByte b) [] rest'
          else
            match charLen rest with
            | None => escapeLoop fuel (buf ++ pend ++ bs "\ufffd") [] rest'
            | Some n =>
                if bool_decide (take n rest = lineSep 0 ∨ take n rest = lineSep 1) then
                  escapeLoop fuel (buf ++ pend ++ bs "\u202" ++ [hexDigit (Z.land (default 0 (rest !! 2%nat)) 0xf)]) [] (drop n rest)
                else escapeLoop fuel buf (pend ++ take n rest) (drop n rest)
            end
      end
  end.

Definition appendStringEscapedBody (buf s : text) : option text := escapeLoop (S (length s)) buf [] s.

Definition appendString (buf s : text) : option text :=
  buf ← appendStringEscapedBody (buf ++ [c_quote]) s; Some (buf ++ [c_quote]).

(** ** The splitter *)

(** Positions are suffixes: [None] is -1. *)

Definition isSpace (b : Z) : bool := (b =? 32) || (b =? 9) || (b =? 10) || (b =? 13).

Fixpoint jsonSkipSpace (data : text) : text :=
  match data with b :: r => if isSpace b then jsonSkipSpace r else data | [] => [] end.

(** After the opening quote. *)
Fixpoint stringRest (data : text) : option text :=
  match data with
  | [] => None
  | b :: r =>
      if b =? c_back then match r with [] => None | _ :: r => stringRest r end
      else if b =? c_quote then Some r else stringRest r
  end.

Definition jsonStringEnd (data : text) : option text := stringRest (drop 1 data).

Definition opens (b : Z) : bool := (b =? 123) || (b =? 91).
Definition closes (b : Z) : bool := (b =? 125) || (b =? 93).

Fixpoint nestedEnd (fuel : nat) (depth : nat) (data : text) : res (option text) :=
  match fuel with
  | O => NoFuel
  | S fuel =>
      match data with
      | [] => Ok None
      | b :: r =>
          if b =? c_quote then match jsonStringEnd data with None => Ok None | Some r => nestedEnd fuel depth r end
          else if opens b then nestedEnd fuel (S depth) r
          else if closes b then if (pred depth =? 0)%nat then Ok (Some r) else nestedEnd fuel (pred depth) r
          else nestedEnd fuel depth r
      end
  end.

Definition ends (b : Z) : bool := (b =? 44) || closes b || isSpace b.

Fixpoint scalarEnd (data : text) : text :=
  match data with b :: r => if ends b then data else scalarEnd r | [] => [] end.

Definition jsonValueEnd (data : text) : res (option text) :=
  match data with
  | [] => Ok None
  | b :: _ =>
      if b =? c_quote then Ok (jsonStringEnd data)
      else if opens b then nestedEnd (S (length data)) 0 data
      else Ok (Some (scalarEnd data))
  end.

(** [data[i:end]] of two suffixes. *)
Definition between (i e : text) : text := take (length i - length e) i.

(** ** Decoding (encoding/json) *)

Definition hexVal (b : Z) : option Z :=
  if (48 <=? b) && (b <=? 57) then Some (b - 48)
  else if (97 <=? b) && (b <=? 102) then Some (b - 87)
  else if (65 <=? b) && (b <=? 70) then Some (b - 55) else None.

Definition u4 (s : text) : option Z :=
  match s with
  | a :: b :: c :: d :: _ => a ← hexVal a; b ← hexVal b; c ← hexVal c; d ← hexVal d; Some (((a * 16 + b) * 16 + c) * 16 + d)
  | _ => None
  end.

Definition surrogate (c : Z) : bool := (0xD800 <=? c) && (c <? 0xE000).

(** The second half of a pair of surrogates. *)
Definition pairOf (hi : Z) (s : text) : option Z :=
  match s with
  | 92 :: 117 :: r =>
      lo ← u4 r;
      if (0xD800 <=? hi) && (hi <? 0xDC00) && (0xDC00 <=? lo) && (lo <? 0xE000) then Some (0x10000 + (hi - 0xD800) * 0x400 + (lo - 0xDC00)) else None
  | _ => None
  end.

Definition encodeAstral (c : Z) : text :=
  [0xF0 + Z.shiftr c 18; 0x80 + Z.land (Z.shiftr c 12) 0x3F; 0x80 + Z.land (Z.shiftr c 6) 0x3F; 0x80 + Z.land c 0x3F].

Definition simpleEscape (b : Z) : option Z :=
  if (b =? c_quote) || (b =? c_back) || (b =? 47) then Some b
  else if b =? 98 then Some 8 else if b =? 102 then Some 12 else if b =? 110 then Some 10 else if b =? 114 then Some 13 else if b =? 116 then Some 9 else None.

(** The text of the inside of a string; [None] is an error. *)
Fixpoint unquote (fuel : nat) (s : text) : option text :=
  match fuel with
  | O => None
  | S fuel =>
      match s with
      | [] => Some []
      | b :: r =>
          if b =? c_back then
            match r with
            | 117 :: h =>
                c ← u4 h;
                if surrogate c then
                  match pairOf c (drop 4 h) with
                  | Some c => t ← unquote fuel (drop 10 h); Some (encodeAstral c ++ t)
                  | None => t ← unquote fuel (drop 4 h); Some (runeError ++ t)
                  end
                else t ← unquote fuel (drop 4 h); Some (encodeRune c ++ t)
            | e :: r => c ← simpleEscape e; t ← unquote fuel r; Some (c :: t)
            | [] => None
            end
          else if (b =? c_quote) || (b <? 0x20) then None
          else if b <? 0x80 then t ← unquote fuel r; Some (b :: t)
          else match charLen s with
               | None => t ← unquote fuel r; Some (runeError ++ t)
               | Some n => t ← unquote fuel (drop n s); Some (take n s ++ t)
               end
      end
  end.

Definition inside (quoted : text) : text := take (length quoted - 2) (drop 1 quoted).

(** An error gives the empty text. *)
Definition jsonDecodeString (quoted : text) : text :=
  if bool_decide (c_back ∈ quoted) then default [] (unquote (S (length quoted)) (inside quoted)) else inside quoted.

(** The members visited, and whether the object was well formed. *)
Fixpoint membersLoop (fuel : nat) (data : text) : res (list (text * text) * bool) :=
  match fuel with
  | O => NoFuel
  | S fuel =>
      match data with
      | b :: _ =>
          if negb (b =? c_quote) then Ok ([], false)
          else
            match jsonStringEnd data with
            | None => Ok ([], false)
            | Some keyEnd =>
                let key := jsonDecodeString (between data keyEnd) in
                match jsonSkipSpace keyEnd with
                | 58 :: r =>
                    let i := jsonSkipSpace r in
                    e ← jsonValueEnd i;
                    match e with
                    | None => Ok ([], false)
                    | Some e =>
                        let m := (key, between i e) in
                        match jsonSkipSpace e with
                        | 44 :: r => '(ms, ok) ← membersLoop fuel (jsonSkipSpace r); Ok (m :: ms, ok)
                        | 125 :: _ => Ok ([m], true)
                        | _ => Ok ([m], false)
                        end
                    end
                | _ => Ok ([], false)
                end
            end
      | [] => Ok ([], false)
      end
  end.

Definition jsonObjectMembers (data : text) : res (list (text * text) * bool) :=
  match jsonSkipSpace data with
  | 123 :: r =>
      match jsonSkipSpace r with
      | 125 :: _ => Ok ([], true)
      | i => membersLoop (S (length data)) i
      end
  | _ => Ok ([], false)
  end.

(** ** The word arithmetic *)

Definition isByte (b : Z) : Prop := 0 <= b < 256.

Lemma testbit_byte k w n : isByte k → 0 <= n < 8 → Z.testbit (k + 256 * w) n = Z.testbit k n.
Proof.
  intros Hk Hn. unfold isByte in Hk. rewrite <- (Z.mod_pow2_bits_low (k + 256 * w) 8) by lia. change (2 ^ 8) with 256.
  by rewrite Z.mul_comm, Z.mod_add, Z.mod_small by lia.
Qed.

Lemma testbit_low k w : isByte k → Z.testbit (k + 256 * w) 7 = (128 <=? k).
Proof.
  intros Hk. rewrite testbit_byte by (done || lia). unfold isByte in Hk.
  rewrite Z.testbit_eqb by lia. change (2 ^ 7) with 128. destruct (Z.leb_spec 128 k).
  - replace (k / 128) with 1; [done|]. apply Z.div_unique with (k - 128); lia.
  - rewrite Z.div_small by lia. done.
Qed.

Lemma testbit_next k w n : isByte k → 0 <= n → Z.testbit (k + 256 * w) (n + 8) = Z.testbit w n.
Proof.
  intros Hk Hn. unfold isByte in Hk. rewrite <- Z.div_pow2_bits by lia. change (2 ^ 8) with 256. f_equal.
  rewrite Z.mul_comm, Z.div_add, Z.div_small by lia. lia.
Qed.

Lemma wordOf_range bs : Forall isByte bs → 0 <= wordOf bs < 2 ^ (8 * Z.of_nat (length bs)).
Proof.
  induction 1 as [|b bs Hb _ IH]; simpl; [lia|]. unfold isByte in Hb.
  replace (8 * Z.of_nat (S (length bs))) with (8 + 8 * Z.of_nat (length bs)) by lia. rewrite Z.pow_add_r by lia. change (2 ^ 8) with 256. lia.
Qed.

(** The top bits of the bytes. *)
Lemma wordOf_tops bs i : Forall isByte bs → Z.testbit (wordOf bs) (8 * Z.of_nat i + 7) = match bs !! i with Some b => 128 <=? b | None => false end.
Proof.
  intros Hbs. revert i. induction Hbs as [|b bs Hb Hbs IH]; intros i; [by rewrite Z.testbit_0_l|].
  destruct i as [|i]; simpl wordOf; [by apply testbit_low|]. simpl lookup. rewrite <- IH, <- (testbit_next b (wordOf bs)) by (done || lia).
  f_equal. lia.
Qed.

(** Subtracting the same from all bytes: unless every byte is large enough, the lowest one that is not borrows and shows. *)
Lemma minus_tops c bs : 0 <= c <= 128 → Forall (λ b, 0 <= b < 128) bs →
  (∀ i, (i < length bs)%nat → Z.testbit (wordOf bs - c * wordOf (replicate (length bs) 1)) (8 * Z.of_nat i + 7) = false) →
  Forall (λ b, c <= b) bs.
Proof.
  intros Hc. induction 1 as [|b bs Hb Hbs IH]; intros Htop; [constructor|]. simpl in Htop. set (w := wordOf bs) in *. set (r := wordOf (replicate (length bs) 1)) in *.
  destruct (decide (c <= b)) as [Hle|Hgt].
  - assert (Heq : b + 256 * w - c * (1 + 256 * r) = (b - c) + 256 * (w - c * r)) by lia. constructor; [done|]. apply IH. intros i Hi.
    specialize (Htop (S i) ltac:(lia)). rewrite Heq in Htop. replace (8 * Z.of_nat (S i) + 7) with (8 * Z.of_nat i + 7 + 8) in Htop by lia.
    rewrite testbit_next in Htop; [done|unfold isByte; lia|lia].
  - exfalso. specialize (Htop 0%nat ltac:(lia)). assert (Heq : b + 256 * w - c * (1 + 256 * r) = (b - c + 256) + 256 * (w - c * r - 1)) by lia.
    rewrite Heq in Htop. change (8 * Z.of_nat 0 + 7) with 7 in Htop. rewrite testbit_low in Htop by (unfold isByte; lia). lia.
Qed.

Lemma wordOf_lxor c bs : 0 <= c < 256 → Forall isByte bs → Z.lxor (wordOf bs) (c * wordOf (replicate (length bs) 1)) = wordOf (Z.lxor c <$> bs).
Proof.
  intros Hc. assert (Hx : ∀ a b x y, isByte a → isByte b → Z.lxor (a + 256 * x) (b + 256 * y) = Z.lxor a b + 256 * Z.lxor x y).
  { intros a b x y Ha Hb. unfold isByte in *. apply Z.bits_inj'. intros n Hn. rewrite Z.lxor_spec.
    destruct (decide (n < 8)) as [Hlt|Hge].
    - rewrite !testbit_byte; [by rewrite Z.lxor_spec|..]; try lia; unfold isByte; try lia. apply (lxor_range a b 8); lia.
    - replace n with (n - 8 + 8) by lia. rewrite !testbit_next; [by rewrite Z.lxor_spec|..]; try lia; unfold isByte; try lia. apply (lxor_range a b 8); lia. }
  induction 1 as [|b bs Hb Hbs IH]; [simpl; by rewrite Z.mul_0_r|].
  change (wordOf (Z.lxor c <$> b :: bs)) with (Z.lxor c b + 256 * wordOf (Z.lxor c <$> bs)). rewrite <- IH.
  change (wordOf (b :: bs)) with (b + 256 * wordOf bs).
  change (wordOf (replicate (length (b :: bs)) 1)) with (1 + 256 * wordOf (replicate (length bs) 1)).
  replace (c * (1 + 256 * wordOf (replicate (length bs) 1))) with (c + 256 * (c * wordOf (replicate (length bs) 1))) by lia.
  rewrite Hx by done. by rewrite (Z.lxor_comm b c).
Qed.

Lemma special_tops w i : is_u64 w → Z.land (special w) 0x8080808080808080 = 0 → (i < 8)%nat →
  let k := 8 * Z.of_nat i + 7 in
  Z.testbit w k = false ∧ Z.testbit (w - 0x2020202020202020) k = false ∧
  (∀ c, c = 0x2222222222222222 ∨ c = 0x5c5c5c5c5c5c5c5c → Z.testbit (Z.lxor w c) k = false → Z.testbit (Z.lxor w c - ones) k = false).
Proof.
  intros Hw Hs Hi k. assert (Hk : 0 <= k < 64) by (unfold k; lia).
  assert (Hbit : Z.testbit (special w) k = false).
  { assert (Z.testbit (Z.land (special w) 0x8080808080808080) k = false) as H by by rewrite Hs, Z.bits_0. rewrite Z.land_spec in H.
    assert (Z.testbit 0x8080808080808080 k = true) as Ht; [|by rewrite Ht, andb_true_r in H].
    unfold k. do 8 (destruct i as [|i]; [reflexivity|]). lia. }
  assert (Hu : ∀ x, Z.testbit (u64 x) k = Z.testbit x k) by (intros x; apply Z.mod_pow2_bits_low; lia).
  assert (Hnot : ∀ q, is_u64 q → Z.testbit q k = false → Z.testbit (not64 q) k = true).
  { intros q Hq Hb. unfold not64. replace (2 ^ 64 - 1 - q) with (Z.lnot q + 1 * 2 ^ 64) by (unfold Z.lnot; lia).
    rewrite <- (Z.mod_pow2_bits_low _ 64), Z.mod_add, Z.mod_pow2_bits_low, Z.lnot_spec by lia. by rewrite Hb. }
  unfold special in Hbit. rewrite !Z.lor_spec, !Hu in Hbit. apply orb_false_iff in Hbit as [Hbit H4].
  apply orb_false_iff in Hbit as [Hbit H3]. apply orb_false_iff in Hbit as [H2 H1]. split; [done|]. split; [done|].
  intros c Hc Hq. assert (Hx : is_u64 (Z.lxor w c)) by (apply lxor_range; [lia|done|destruct Hc; subst; lia]).
  unfold andNot in H3, H4. rewrite Z.land_spec, Hu in H3, H4. destruct Hc as [-> | ->].
  - by rewrite Hnot, andb_true_r in H3.
  - by rewrite Hnot, andb_true_r in H4.
Qed.

Lemma lxor_small c b : 0 <= c < 128 → 0 <= b < 128 → 0 <= Z.lxor c b < 128.
Proof. intros Hc Hb. apply (lxor_range c b 7); lia. Qed.

(** Only plain bytes are skipped. *)
Lemma wordPlain_spec bs : length bs = 8%nat → Forall isByte bs → wordPlain bs = true → Forall (λ b, plain b = true) bs.
Proof.
  intros Hlen Hbs Hp. apply Z.eqb_eq in Hp. pose proof (wordOf_range bs Hbs) as Hr. rewrite Hlen in Hr. change (8 * Z.of_nat 8) with 64 in Hr.
  pose proof (λ i, special_tops (wordOf bs) i Hr Hp) as Htop.
  assert (Hlow : Forall (λ b, 0 <= b < 128) bs).
  { apply Forall_lookup. intros i b Hb. assert (Hi : (i < 8)%nat) by (rewrite <- Hlen; by eapply lookup_lt_Some).
    destruct (Htop i Hi) as [Ht _]. rewrite wordOf_tops, Hb in Ht by done. apply Z.leb_gt in Ht. rewrite Forall_lookup in Hbs.
    specialize (Hbs _ _ Hb). unfold isByte in Hbs. lia. }
  assert (Hsp : Forall (λ b, 0x20 <= b) bs).
  { apply minus_tops; [lia|done|]. rewrite Hlen. intros i Hi. by destruct (Htop i Hi) as (_ & Ht & _). }
  assert (Hxor : ∀ c, 0 <= c < 128 → (c * ones = 0x2222222222222222 ∨ c * ones = 0x5c5c5c5c5c5c5c5c) → Forall (λ b, b ≠ c) bs).
  { intros c Hc Hco. assert (Hq : Z.lxor (wordOf bs) (c * ones) = wordOf (Z.lxor c <$> bs)).
    { change ones with (wordOf (replicate 8 1)). rewrite <- Hlen. apply wordOf_lxor; [lia|done]. }
    assert (Hqlow : Forall (λ b, 0 <= b < 128) (Z.lxor c <$> bs)).
    { apply Forall_fmap. eapply Forall_impl; [exact Hlow|]. intros b Hb. by apply lxor_small. }
    assert (Hqb : Forall isByte (Z.lxor c <$> bs)) by (eapply Forall_impl; [exact Hqlow|]; intros b Hb; cbn beta in Hb; unfold isByte; lia).
    assert (Hge : Forall (λ b, 1 <= b) (Z.lxor c <$> bs)).
    { apply minus_tops; [lia|done|]. rewrite length_fmap, Hlen. intros i Hi. destruct (Htop i Hi) as (_ & _ & Ht). rewrite Z.mul_1_l.
      change (wordOf (replicate 8 1)) with ones. rewrite <- Hq. apply Ht; [done|]. rewrite Hq, wordOf_tops by done.
      destruct ((Z.lxor c <$> bs) !! i) as [b|] eqn:Hb; [|done]. rewrite Forall_lookup in Hqlow. specialize (Hqlow _ _ Hb). cbn beta in Hqlow. apply Z.leb_gt. lia. }
    apply Forall_forall. intros b Hb ->. rewrite Forall_forall in Hge. specialize (Hge (Z.lxor c c) (list_elem_of_fmap_2 _ _ _ Hb)).
    rewrite Z.lxor_nilpotent in Hge. lia. }
  pose proof (Hxor 34 ltac:(lia) ltac:(by left)) as Hquote. pose proof (Hxor 92 ltac:(lia) ltac:(by right)) as Hback.
  apply Forall_forall. intros b Hb. rewrite Forall_forall in Hlow, Hsp, Hquote, Hback. specialize (Hlow b Hb). specialize (Hsp b Hb). specialize (Hquote b Hb). specialize (Hback b Hb).
  simpl in *. unfold plain, c_quote, c_back. zcases; simpl; try lia; done.
Qed.

Lemma skipWords_spec fuel : ∀ pend rest, Forall isByte rest →
  ∃ p rest', skipWords fuel pend rest = (pend ++ p, rest') ∧ rest = p ++ rest' ∧ Forall (λ b, plain b = true) p.
Proof.
  induction fuel as [|fuel IH]; intros pend rest Hr; cbn [skipWords]; [exists [], rest; by rewrite app_nil_r|].
  destruct ((8 <=? length rest)%nat && wordPlain (take 8 rest)) eqn:Hc; [|exists [], rest; by rewrite app_nil_r].
  apply andb_true_iff in Hc as [Hl Hp]. apply Nat.leb_le in Hl.
  destruct (IH (pend ++ take 8 rest) (drop 8 rest)) as (p & rest' & -> & Hsplit & Hpl); [by apply Forall_drop|].
  exists (take 8 rest ++ p), rest'. split; [by rewrite app_assoc|]. split; [rewrite <- app_assoc, <- Hsplit; by rewrite take_drop|].
  apply Forall_app. split; [|done]. apply wordPlain_spec; [rewrite length_take; lia|by apply Forall_take|done].
Qed.

(** ** What is written: a unit at a time *)

(** A byte below 0x80, a byte that belongs to no character, a character of several bytes. *)
Inductive unit_ := UByte (b : Z) | UBad (b : Z) | UChar (c : text).

Fixpoint unitsLoop (fuel : nat) (s : text) : list unit_ :=
  match fuel, s with
  | S fuel, b :: r =>
      if b <? 0x80 then UByte b :: unitsLoop fuel r
      else match charLen s with None => UBad b :: unitsLoop fuel r | Some n => UChar (take n s) :: unitsLoop fuel (drop n s) end
  | _, _ => []
  end.
Definition units (s : text) : list unit_ := unitsLoop (length s) s.

Definition escapeUnit (u : unit_) : text :=
  match u with
  | UByte b => if plain b then [b] else escapeByte b
  | UBad _ => bs "\ufffd"
  | UChar c => if bool_decide (c = lineSep 0) then bs "\u2028" else if bool_decide (c = lineSep 1) then bs "\u2029" else c
  end.
Definition escaped (s : text) : text := mjoin (escapeUnit <$> units s).

(** The text with malformed bytes replaced. *)
Definition unitText (u : unit_) : text := match u with UByte b => [b] | UBad _ => runeError | UChar c => c end.
Definition sanitised (s : text) : text := mjoin (unitText <$> units s).

Definition unitBytes (u : unit_) : text := match u with UByte b | UBad b => [b] | UChar c => c end.

Lemma charLen_spec s n : charLen s = Some n → (2 <= n <= 4)%nat ∧ (n <= length s)%nat ∧ Forall (λ b, 0x80 <= b) (take n s) ∧ ∀ x, charLen (take n s ++ x) = Some n.
Proof.
  unfold charLen, cont. destruct s as [|a [|b r]]; [done..|]. intros H.
  repeat (case_match; try discriminate H; simplify_eq; simpl in * ); 
    repeat match goal with Hx : _ && _ = true |- _ => apply andb_true_iff in Hx as [? ?] end; split_and!; try (simpl; lia);
    try (repeat constructor; lia); intros x; simpl; 
    repeat match goal with Hx : ?c = true |- _ => rewrite Hx; clear Hx | Hx : ?c = false |- _ => rewrite Hx; clear Hx end; done.
Qed.

Lemma unitsLoop_enough fuel : ∀ fuel' s, (length s <= fuel)%nat → (length s <= fuel')%nat → unitsLoop fuel s = unitsLoop fuel' s.
Proof.
  induction fuel as [|fuel IH]; intros [|fuel'] [|b r] H1 H2; cbn [unitsLoop length] in *; try done; try lia. destruct (b <? 0x80); [f_equal; apply IH; lia|].
  destruct (charLen (b :: r)) as [n|] eqn:Hc; [|f_equal; apply IH; lia]. apply charLen_spec in Hc as (Hn & Hl & _). simpl in Hl.
  f_equal. apply IH; rewrite length_drop; simpl; lia.
Qed.

Lemma units_byte b r : b < 0x80 → units (b :: r) = UByte b :: units r.
Proof. intros Hb. unfold units. simpl. by rewrite (proj2 (Z.ltb_lt b 0x80)). Qed.

Lemma units_bad b r : 0x80 <= b → charLen (b :: r) = None → units (b :: r) = UBad b :: units r.
Proof. intros Hb Hc. unfold units. cbn [unitsLoop length]. by rewrite (proj2 (Z.ltb_ge b 0x80)), Hc. Qed.

Lemma units_char b r n : 0x80 <= b → charLen (b :: r) = Some n → units (b :: r) = UChar (take n (b :: r)) :: units (drop n (b :: r)).
Proof.
  intros Hb Hc. unfold units. cbn [unitsLoop length]. rewrite (proj2 (Z.ltb_ge b 0x80)), Hc by done. f_equal.
  apply charLen_spec in Hc as (Hn & Hl & _). apply unitsLoop_enough; rewrite length_drop; simpl in *; lia.
Qed.

Lemma plain_low b : plain b = true → b < 0x80.
Proof. unfold plain. intros H. repeat (apply andb_true_iff in H as [H ?]). lia. Qed.

Lemma units_plain p r : Forall (λ b, plain b = true) p → units (p ++ r) = (UByte <$> p) ++ units r.
Proof. induction 1 as [|b p Hb _ IH]; [done|]. simpl. rewrite units_byte by by apply plain_low. by rewrite IH. Qed.

Lemma escaped_plain p r : Forall (λ b, plain b = true) p → escaped (p ++ r) = p ++ escaped r.
Proof.
  intros Hp. unfold escaped. rewrite units_plain by done. rewrite fmap_app, join_app. f_equal. rewrite <- list_fmap_compose.
  induction Hp as [|b p Hb _ IH]; [done|]. simpl. rewrite Hb. simpl. f_equal. exact IH.
Qed.

Lemma join_fmap_cons {A B} (f : A → list B) x l : mjoin (f <$> x :: l) = f x ++ mjoin (f <$> l).
Proof. done. Qed.

Lemma escapeLoop_spec fuel : ∀ buf pend rest, Forall isByte rest → (length rest < fuel)%nat →
  escapeLoop fuel buf pend rest = Some (buf ++ pend ++ escaped rest).
Proof.
  induction fuel as [|fuel IH]; intros buf pend rest Hr Hf; [lia|]. cbn [escapeLoop].
  destruct (skipWords_spec (length rest) pend rest Hr) as (p & rest' & -> & -> & Hp). rewrite escaped_plain by done.
  apply Forall_app in Hr as [_ Hr]. rewrite length_app in Hf. destruct rest' as [|b r]; [unfold escaped; simpl; by rewrite app_nil_r|].
  apply Forall_cons in Hr as [Hb Hr]. simpl in Hf. unfold escaped. destruct (Z.ltb_spec b 0x80) as [Hlo|Hhi].
  - rewrite units_byte by done. cbn [fmap list_fmap mjoin list_join escapeUnit]. destruct (plain b) eqn:Hpl.
    + rewrite IH by (done || lia). by rewrite <- !app_assoc.
    + rewrite IH by (done || lia). by rewrite <- !app_assoc.
  - destruct (charLen (b :: r)) as [n|] eqn:Hc.
    + rewrite (units_char b r n) by done. destruct (charLen_spec _ _ Hc) as (Hn & Hl & _ & _).
      assert (Hr' : Forall isByte (drop n (b :: r))) by (apply Forall_drop; by constructor).
      assert (Hlen : (length (drop n (b :: r)) < fuel)%nat) by (rewrite length_drop; simpl in *; lia).
      cbn [fmap list_fmap mjoin list_join escapeUnit]. case_bool_decide as Hsep.
      * rewrite IH by done. rewrite <- !app_assoc. do 3 f_equal.
        assert (n = 3%nat) as ->. { destruct Hsep as [Hs|Hs]; apply (f_equal length) in Hs; rewrite length_take in Hs; cbn [length lineSep] in Hs; simpl in Hl; lia. }
        destruct r as [|b1 [|b2 r]]; try (simpl in Hl; lia). cbn [take] in *. destruct Hsep as [Hs|Hs]; injection Hs as -> -> ->; done.
      * rewrite IH by done. rewrite !bool_decide_eq_false_2 by tauto. by rewrite <- !app_assoc.
    + rewrite units_bad by done. cbn [fmap list_fmap mjoin list_join escapeUnit]. rewrite IH by (done || lia). by rewrite <- !app_assoc.
Qed.

Lemma appendString_spec buf s : Forall isByte s → appendString buf s = Some (buf ++ c_quote :: escaped s ++ [c_quote]).
Proof.
  intros Hs. unfold appendString, appendStringEscapedBody. rewrite escapeLoop_spec by (done || lia). simpl. by rewrite <- !app_assoc.
Qed.

(** ** Reading back *)

Definition goodUnit (u : unit_) : Prop :=
  match u with
  | UByte b => 0 <= b < 0x80
  | UBad _ => True
  | UChar c => (2 <= length c)%nat ∧ Forall (λ b, 0x80 <= b) c ∧ ∀ x, charLen (c ++ x) = Some (length c)
  end.

Lemma units_good s : Forall isByte s → Forall goodUnit (units s).
Proof.
  unfold units. generalize (length s) as fuel. intros fuel. revert s. induction fuel as [|fuel IH]; intros s Hs; [constructor|].
  destruct s as [|b r]; [constructor|]. apply Forall_cons in Hs as [Hb Hr]. cbn [unitsLoop]. unfold isByte in Hb. destruct (Z.ltb_spec b 0x80).
  - constructor; [simpl; lia|by apply IH].
  - destruct (charLen (b :: r)) as [n|] eqn:Hc.
    + destruct (charLen_spec _ _ Hc) as (Hn & Hl & Hhi & Hx). constructor; [|apply IH, Forall_drop; by constructor].
      assert (Hlen : length (take n (b :: r)) = n) by (rewrite length_take; lia). split; [lia|]. split; [done|]. by rewrite Hlen.
    + constructor; [done|by apply IH].
Qed.

(** The bytes that are escaped. *)
Lemma escape_cases b : 0 <= b < 0x80 → plain b = false → b ∈ seqZ 0 32 ++ [34; 92].
Proof.
  intros Hb Hp. rewrite elem_of_app, elem_of_seqZ. unfold plain, c_quote, c_back in Hp. destruct (decide (b < 32)); [left; lia|right].
  assert (b = 34 ∨ b = 92); [|set_solver]. zcases; simpl in *; try lia; done.
Qed.

Lemma for_escaped (P : Z → Prop) : (∀ b, b ∈ seqZ 0 32 ++ [34; 92] → P b) → ∀ b, 0 <= b < 0x80 → plain b = false → P b.
Proof. intros HP b Hb Hp. by apply HP, escape_cases. Qed.

Lemma unquote_escape b f x : 0 <= b < 0x80 → plain b = false → unquote (S f) (escapeByte b ++ x) = (b ::.) <$> unquote f x.
Proof.
  revert b. apply for_escaped. vm_compute (seqZ 0 32 ++ [34; 92]). intros b Hb.
  repeat (apply elem_of_cons in Hb as [->|Hb]; [simpl; rewrite ?drop_0; by destruct (unquote f x)|]).
  by apply not_elem_of_nil in Hb.
Qed.

Lemma lineSep_decode k f x : k = 0 ∨ k = 1 → unquote (S f) (bs "\u202" ++ (56 + k) :: x) = (lineSep k ++.) <$> unquote f x.
Proof. intros [-> | ->]; simpl; rewrite ?drop_0; by destruct (unquote f x). Qed.

Lemma unquote_unit u f x : goodUnit u → unquote (S f) (escapeUnit u ++ x) = (unitText u ++.) <$> unquote f x.
Proof.
  destruct u as [b|b|c]; simpl goodUnit; intros Hu.
  - cbn [escapeUnit unitText]. destruct (plain b) eqn:Hp; [|by apply unquote_escape]. cbn [unquote app].
    unfold plain in Hp. repeat (apply andb_true_iff in Hp as [Hp ?]). rewrite (proj2 (Z.eqb_neq b c_back)), (proj2 (Z.eqb_neq b c_quote)) by (unfold c_back, c_quote in *; lia).
    rewrite (proj2 (Z.ltb_ge b 0x20)), (proj2 (Z.ltb_lt b 0x80)) by lia. simpl. by destruct (unquote f x).
  - change (escapeUnit (UBad b)) with (bs "\ufffd"). simpl. rewrite ?drop_0. by destruct (unquote f x).
  - cbn [escapeUnit unitText]. case_bool_decide as H0; [subst; apply (lineSep_decode 0); by left|]. case_bool_decide as H1; [subst; apply (lineSep_decode 1); by right|].
    destruct Hu as (Hl & Hhi & Hc). specialize (Hc x). destruct c as [|a c]; [simpl in Hl; lia|]. apply Forall_cons in Hhi as [Ha _]. cbn [unquote app] in *.
    rewrite (proj2 (Z.eqb_neq a c_back)), (proj2 (Z.eqb_neq a c_quote)) by (unfold c_back, c_quote in *; lia).
    rewrite (proj2 (Z.ltb_ge a 0x20)), (proj2 (Z.ltb_ge a 0x80)) by lia. cbn [orb]. rewrite Hc.
    change (a :: c ++ x) with ((a :: c) ++ x). rewrite take_app_length, drop_app_length. by destruct (unquote f x).
Qed.

Lemma unquote_units us : Forall goodUnit us → ∀ f, (length us < f)%nat → unquote f (mjoin (escapeUnit <$> us)) = Some (mjoin (unitText <$> us)).
Proof.
  induction 1 as [|u us Hu _ IH]; intros [|f] Hf; simpl in Hf; try lia; [done|]. rewrite !join_fmap_cons.
  rewrite unquote_unit by done. by rewrite IH by lia.
Qed.

Lemma escapeUnit_length u : goodUnit u → (1 <= length (escapeUnit u))%nat.
Proof.
  destruct u as [b|b|c]; simpl goodUnit; intros Hu; [|simpl; lia|].
  - simpl. destruct (plain b); [simpl; lia|]. unfold escapeByte. repeat case_match; simpl; lia.
  - simpl. repeat case_match; [simpl; lia..|]. destruct Hu. lia.
Qed.

Lemma escaped_length s : Forall isByte s → (length (units s) <= length (escaped s))%nat.
Proof.
  intros Hs. apply units_good in Hs. unfold escaped. induction Hs as [|u us Hu _ IH]; [done|].
  rewrite join_fmap_cons, length_app. apply escapeUnit_length in Hu. cbn [length]. lia.
Qed.

Lemma unescaped_units us : Forall goodUnit us → c_back ∉ mjoin (escapeUnit <$> us) → mjoin (escapeUnit <$> us) = mjoin (unitText <$> us).
Proof.
  induction 1 as [|u us Hu _ IH]; [done|]. rewrite !join_fmap_cons, not_elem_of_app. intros [H1 H2]. f_equal; [|by apply IH].
  destruct u as [b|b|c]; cbn [escapeUnit unitText] in *.
  - destruct (plain b); [done|]. destruct H1. unfold escapeByte. repeat case_match; left.
  - destruct H1. left.
  - repeat case_match; [destruct H1; left..|done].
Qed.

Lemma inside_quoted t : inside (c_quote :: t ++ [c_quote]) = t.
Proof. unfold inside. simpl. rewrite drop_0, length_app. simpl. replace (length t + 1 - 1)%nat with (length t) by lia. apply take_app_length. Qed.

Lemma decode_written s : Forall isByte s → jsonDecodeString (c_quote :: escaped s ++ [c_quote]) = sanitised s.
Proof.
  intros Hs. unfold jsonDecodeString. rewrite inside_quoted. pose proof (units_good s Hs) as Hg. case_bool_decide as Hb.
  - unfold escaped at 2. rewrite unquote_units; [done|done|]. cbn [length]. rewrite length_app. apply escaped_length in Hs. lia.
  - apply unescaped_units; [done|]. intros Hin. apply Hb. right. apply elem_of_app. by left.
Qed.

Definition validUTF8 (s : text) : Prop := Forall (λ u, if u is UBad _ then False else True) (units s).

Lemma sanitised_valid s : validUTF8 s → sanitised s = s.
Proof.
  assert (Hg : ∀ fuel s, (length s <= fuel)%nat → Forall (λ u, if u is UBad _ then False else True) (unitsLoop fuel s) → mjoin (unitText <$> unitsLoop fuel s) = s);
    [|by apply Hg]. intros fuel. clear s.
  induction fuel as [|fuel IH]; intros [|b r] Hl Hu; cbn [unitsLoop length] in *; try done; try lia. destruct (b <? 0x80).
  - apply Forall_cons in Hu as [_ Hu]. rewrite join_fmap_cons. cbn [unitText app]. f_equal. apply IH; [lia|done].
  - destruct (charLen (b :: r)) as [n|] eqn:Hc; [|by apply Forall_cons in Hu as [[] _]]. apply Forall_cons in Hu as [_ Hu].
    destruct (charLen_spec _ _ Hc) as (Hn & Hln & _ & _). rewrite join_fmap_cons. cbn [unitText]. rewrite IH; [by rewrite take_drop| |done].
    rewrite length_drop. simpl in *. lia.
Qed.

(** ** Values *)

(** [JRaw] is a number or a word. *)
Inductive json := JStr (s : text) | JRaw (t : text) | JArr (l : list json) | JObj (l : list (text * json)).

Definition quoted (s : text) : text := c_quote :: escaped s ++ [c_quote].

Fixpoint commas (ts : list text) : text :=
  match ts with [] => [] | [t] => t | t :: ts => t ++ 44 :: commas ts end.

Fixpoint print (v : json) : text :=
  match v with
  | JStr s => quoted s
  | JRaw t => t
  | JArr l => 91 :: commas (List.map print l) ++ [93]
  | JObj l => 123 :: commas (List.map (λ kv, quoted kv.1 ++ 58 :: print kv.2) l) ++ [125]
  end.

(** The bytes of numbers and words. *)
Definition wordByte (b : Z) : bool := negb (ends b) && negb (opens b) && negb (b =? c_quote).

Fixpoint wf (v : json) : Prop :=
  match v with
  | JStr s => Forall isByte s
  | JRaw t => t ≠ [] ∧ Forall (λ b, wordByte b = true) t
  | JArr l => foldr (λ v P, wf v ∧ P) True l
  | JObj l => foldr (λ kv P, (Forall isByte kv.1 ∧ wf kv.2) ∧ P) True l
  end.

Lemma json_ind' (P : json → Prop) : (∀ s, P (JStr s)) → (∀ t, P (JRaw t)) → (∀ l, Forall P l → P (JArr l)) →
  (∀ l, Forall (λ kv, P kv.2) l → P (JObj l)) → ∀ v, P v.
Proof.
  intros H1 H2 H3 H4. fix IH 1. intros [s|t|l|l]; [apply H1|apply H2|apply H3|apply H4].
  - induction l as [|v l IHl]; constructor; [apply IH|apply IHl].
  - induction l as [|kv l IHl]; constructor; [apply IH|apply IHl].
Qed.

Lemma wf_list l : wf (JArr l) ↔ Forall wf l.
Proof. induction l as [|v l IH]; simpl in *; [done|]. rewrite Forall_cons. tauto. Qed.

Lemma wf_members l : wf (JObj l) ↔ Forall (λ kv, Forall isByte kv.1 ∧ wf kv.2) l.
Proof. induction l as [|v l IH]; simpl in *; [done|]. rewrite Forall_cons. tauto. Qed.

(** ** Where strings end *)

Lemma stringRest_escape b x : 0 <= b < 0x80 → plain b = false → stringRest (escapeByte b ++ x) = stringRest x.
Proof.
  revert b. apply for_escaped. vm_compute (seqZ 0 32 ++ [34; 92]). intros b Hb.
  repeat (apply elem_of_cons in Hb as [->|Hb]; [done|]). by apply not_elem_of_nil in Hb.
Qed.

Lemma stringRest_skip c x : Forall (λ b, b ≠ c_back ∧ b ≠ c_quote) c → stringRest (c ++ x) = stringRest x.
Proof. induction 1 as [|b c [H1 H2] _ IH]; [done|]. simpl. by rewrite (proj2 (Z.eqb_neq b c_back)), (proj2 (Z.eqb_neq b c_quote)). Qed.

Lemma stringRest_unit u x : goodUnit u → stringRest (escapeUnit u ++ x) = stringRest x.
Proof.
  destruct u as [b|b|c]; simpl goodUnit; intros Hu; [|done|].
  - cbn [escapeUnit]. destruct (plain b) eqn:Hp; [|by apply stringRest_escape]. apply stringRest_skip. constructor; [|done].
    unfold plain in Hp. repeat (apply andb_true_iff in Hp as [Hp ?]). lia.
  - cbn [escapeUnit]. case_bool_decide; [done|]. case_bool_decide; [done|]. apply stringRest_skip. destruct Hu as (_ & Hhi & _).
    eapply Forall_impl; [exact Hhi|]. intros b Hb. cbn beta in Hb. unfold c_back, c_quote. lia.
Qed.

Lemma stringEnd_quoted s x : Forall isByte s → jsonStringEnd (quoted s ++ x) = Some x.
Proof.
  intros Hs. unfold jsonStringEnd, quoted. cbn [app drop]. rewrite drop_0, <- app_assoc. apply units_good in Hs. unfold escaped. revert Hs. generalize (units s) as us.
  induction 1 as [|u us Hu _ IH]; [done|]. rewrite join_fmap_cons, <- app_assoc, stringRest_unit by done. exact IH.
Qed.

Lemma stringRest_shorter s : ∀ r, stringRest s = Some r → (length r < length s)%nat.
Proof.
  induction s as [s IH] using (well_founded_induction (Wf_nat.well_founded_ltof _ (@length Z))). unfold Wf_nat.ltof in IH. intros r. destruct s as [|b s]; [done|]. simpl.
  destruct (b =? c_back); [destruct s as [|b' s]; [done|]; intros Hr; apply IH in Hr; simpl; lia|].
  destruct (b =? c_quote); [intros [= ->]; lia|]. intros Hr. apply IH in Hr; simpl; lia.
Qed.

(** ** Where values end *)

Lemma nestedEnd_enough f : ∀ f' d s, (length s < f)%nat → (length s < f')%nat → nestedEnd f d s = nestedEnd f' d s.
Proof.
  induction f as [|f IH]; intros [|f'] d s H1 H2; try lia. cbn [nestedEnd]. destruct s as [|b r]; [done|]. cbn [length] in *.
  destruct (b =? c_quote).
  - destruct (jsonStringEnd (b :: r)) as [r'|] eqn:He; [|done]. unfold jsonStringEnd in He. cbn [drop] in He. rewrite drop_0 in He. apply stringRest_shorter in He. apply IH; lia.
  - destruct (opens b); [apply IH; lia|]. destruct (closes b); [|apply IH; lia]. destruct (pred d =? 0)%nat; [done|apply IH; lia].
Qed.

Definition nested (d : nat) (s : text) : res (option text) := nestedEnd (S (length s)) d s.

Lemma nested_open d b r : opens b = true → nested d (b :: r) = nested (S d) r.
Proof.
  intros Ho. unfold nested. cbn [nestedEnd length]. rewrite Ho. destruct (b =? c_quote) eqn:Hq; [|done].
  apply Z.eqb_eq in Hq. by subst.
Qed.

Lemma nested_close d b r : closes b = true → nested (S d) (b :: r) = if (d =? 0)%nat then Ok (Some r) else nested d r.
Proof.
  intros Hc. unfold nested. cbn [nestedEnd length]. rewrite Hc. destruct (Z.eqb_spec b c_quote) as [->|]; [done|].
  destruct (opens b) eqn:Ho; [|done]. exfalso. unfold opens, closes in *. zcases; simpl in *; done || lia.
Qed.

Lemma nested_skip d b r : opens b = false → closes b = false → b ≠ c_quote → nested d (b :: r) = nested d r.
Proof. intros Ho Hc Hq. unfold nested. cbn [nestedEnd length]. by rewrite Ho, Hc, (proj2 (Z.eqb_neq b c_quote)). Qed.

Lemma nested_quoted d s r : Forall isByte s → nested d (quoted s ++ r) = nested d r.
Proof.
  intros Hs. unfold nested at 1. pose proof (stringEnd_quoted s r Hs) as He. unfold quoted in *. cbn [nestedEnd app] in *. rewrite Z.eqb_refl, He.
  apply nestedEnd_enough; [|lia]. cbn [length]. rewrite !length_app. simpl. lia.
Qed.

Lemma nested_word d t r : Forall (λ b, wordByte b = true) t → nested d (t ++ r) = nested d r.
Proof.
  induction 1 as [|b t Hb _ IH]; [done|]. cbn [app]. rewrite <- IH. unfold wordByte in Hb. apply andb_true_iff in Hb as [Hb Hq].
  apply andb_true_iff in Hb as [He Ho]. apply nested_skip; [by apply negb_true_iff in Ho| |by apply negb_true_iff, Z.eqb_neq in Hq].
  unfold ends in He. apply negb_true_iff, orb_false_iff in He as [He _]. by apply orb_false_iff in He as [_ He].
Qed.

Lemma nested_commas d ts r : Forall (λ t, ∀ r, nested (S d) (t ++ r) = nested (S d) r) ts → nested (S d) (commas ts ++ r) = nested (S d) r.
Proof.
  induction 1 as [|t ts Ht Hts IH]; [done|]. destruct ts as [|t' ts]; [apply Ht|].
  change (commas (t :: t' :: ts)) with (t ++ 44 :: commas (t' :: ts)). rewrite <- app_assoc, Ht. cbn [app]. rewrite nested_skip by done. exact IH.
Qed.

Lemma nested_print v : wf v → ∀ d r, nested (S d) (print v ++ r) = nested (S d) r.
Proof.
  induction v as [s|t|l IH|l IH] using json_ind'; intros Hwf d r.
  - by apply nested_quoted.
  - destruct Hwf as [_ Ht]. by apply nested_word.
  - apply wf_list in Hwf. cbn [print app]. rewrite nested_open, <- app_assoc by done. rewrite nested_commas; [cbn [app]; by rewrite nested_close|].
    apply Forall_fmap, Forall_forall. intros v Hv r'. rewrite Forall_forall in IH, Hwf. by apply IH, Hwf.
  - apply wf_members in Hwf. cbn [print app]. rewrite nested_open, <- app_assoc by done. rewrite nested_commas; [cbn [app]; by rewrite nested_close|].
    apply Forall_fmap, Forall_forall. intros [k v] Hv r'. rewrite Forall_forall in IH, Hwf. destruct (Hwf _ Hv) as [Hk Hw]. cbn [compose fst snd] in *.
    rewrite <- app_assoc, nested_quoted by done. cbn [app]. rewrite nested_skip by done. by apply (IH _ Hv).
Qed.

Lemma scalarEnd_word t r : Forall (λ b, wordByte b = true) t → (∃ b r', r = b :: r' ∧ ends b = true) → scalarEnd (t ++ r) = r.
Proof.
  intros Ht (b & r' & -> & Hb). induction Ht as [|a t Ha _ IH]; cbn [app scalarEnd]; [by rewrite Hb|]. unfold wordByte in Ha.
  apply andb_true_iff in Ha as [Ha _]. apply andb_true_iff in Ha as [Ha _]. apply negb_true_iff in Ha. by rewrite Ha.
Qed.

Lemma valueEnd_print v r : wf v → (∃ b r', r = b :: r' ∧ ends b = true) → jsonValueEnd (print v ++ r) = Ok (Some r).
Proof.
  intros Hwf Hr. destruct v as [s|t|l|l].
  - pose proof (stringEnd_quoted s r Hwf) as He. unfold quoted in *. cbn [print quoted app jsonValueEnd] in *. by rewrite Z.eqb_refl, He.
  - destruct Hwf as [Hne Ht]. pose proof (scalarEnd_word t r Ht Hr) as Hs. destruct t as [|b t]; [done|]. cbn [print app jsonValueEnd] in *.
    apply Forall_cons in Ht as [Hb _]. unfold wordByte in Hb. apply andb_true_iff in Hb as [Hb Hq]. apply andb_true_iff in Hb as [_ Ho].
    apply negb_true_iff in Ho, Hq. by rewrite Hq, Ho, Hs.
  - cbn [print app jsonValueEnd]. change (91 =? c_quote) with false. change (opens 91) with true. cbn iota.
    change (nestedEnd (S (length (91 :: (commas (List.map print l) ++ [93]) ++ r))) 0 (91 :: (commas (List.map print l) ++ [93]) ++ r))
      with (nested 0 (91 :: (commas (List.map print l) ++ [93]) ++ r)).
    rewrite nested_open by done. rewrite <- app_assoc. rewrite nested_commas; [cbn [app]; by rewrite nested_close|].
    apply wf_list in Hwf. apply Forall_fmap. eapply Forall_impl; [exact Hwf|]. intros v Hv r'. by apply nested_print.
  - cbn [print app jsonValueEnd]. change (123 =? c_quote) with false. change (opens 123) with true. cbn iota.
    match goal with |- nestedEnd _ 0 ?s = _ => change (nested 0 s = Ok (Some r)) end.
    rewrite nested_open by done. rewrite <- app_assoc. rewrite nested_commas; [cbn [app]; by rewrite nested_close|].
    apply wf_members in Hwf. apply Forall_fmap. eapply Forall_impl; [exact Hwf|]. intros [k v] [Hk Hv] r'. cbn [compose fst snd] in *.
    rewrite <- app_assoc, nested_quoted by done. cbn [app]. rewrite nested_skip by done. by apply nested_print.
Qed.

(** ** The members of a written object *)

Lemma between_app a r : between (a ++ r) r = a.
Proof. unfold between. rewrite length_app. replace (length a + length r - length r)%nat with (length a) by lia. apply take_app_length. Qed.

Lemma skipSpace_print v r : wf v → jsonSkipSpace (print v ++ r) = print v ++ r.
Proof.
  destruct v as [s|t|l|l]; [done| |done|done]. intros [Hne Ht]. destruct t as [|b t]; [done|]. apply Forall_cons in Ht as [Hb _].
  cbn [print app jsonSkipSpace]. unfold wordByte, ends in Hb. destruct (isSpace b); [|done]. by rewrite orb_true_r in Hb.
Qed.

Definition member (kv : text * json) : text := quoted kv.1 ++ 58 :: print kv.2.

(** One turn: the member, and what follows it. *)
Lemma membersLoop_turn f k v b r : Forall isByte k → wf v → ends b = true → isSpace b = false →
  membersLoop (S f) (member (k, v) ++ b :: r) =
  match b :: r with
  | 44 :: r => '(ms, ok) ← membersLoop f (jsonSkipSpace r); Ok ((sanitised k, print v) :: ms, ok)
  | 125 :: _ => Ok ([(sanitised k, print v)], true)
  | _ => Ok ([(sanitised k, print v)], false)
  end.
Proof.
  intros Hk Hv He Hs. unfold member. cbn [fst snd]. rewrite <- app_assoc. cbn [membersLoop].
  pose proof (stringEnd_quoted k ((58 :: print v) ++ b :: r) Hk) as Hend. unfold quoted in Hend at 1 |- *. cbn [app] in Hend |- *.
  change (c_quote =? c_quote) with true. cbn [negb]. rewrite Hend. cbn [jsonSkipSpace app].
  change (isSpace 58) with false. cbn iota. rewrite skipSpace_print by done. rewrite valueEnd_print by eauto. cbn [mbind res_bind].
  assert (Hkey : between (c_quote :: (escaped k ++ [c_quote]) ++ 58 :: print v ++ b :: r) (58 :: print v ++ b :: r) = quoted k) by apply (between_app (quoted k)).
  rewrite Hkey. unfold quoted. rewrite decode_written by done. rewrite between_app. cbn [jsonSkipSpace]. rewrite Hs. done.
Qed.

Lemma membersLoop_print l r : l ≠ [] → Forall (λ kv, Forall isByte kv.1 ∧ wf kv.2) l → ∀ f, (length l <= f)%nat →
  membersLoop f (commas (List.map member l) ++ 125 :: r) = Ok ((λ kv, (sanitised kv.1, print kv.2)) <$> l, true).
Proof.
  intros Hne Hl. induction Hl as [|[k v] l [Hk Hv] Hl IH]; [done|]. intros [|f] Hf; [simpl in Hf; lia|]. cbn [length] in Hf.
  destruct l as [|kv l].
  - cbn [List.map commas]. by rewrite membersLoop_turn.
  - change (commas (List.map member ((k, v) :: kv :: l))) with (member (k, v) ++ 44 :: commas (List.map member (kv :: l))).
    rewrite <- app_assoc. cbn [app]. rewrite membersLoop_turn by done.
    assert (Hsk : jsonSkipSpace (commas (List.map member (kv :: l)) ++ 125 :: r) = commas (List.map member (kv :: l)) ++ 125 :: r).
    { destruct l; cbn [List.map commas]; unfold member, quoted; cbn [app]; done. }
    rewrite Hsk. rewrite IH by (done || lia). done.
Qed.

Lemma commas_nonempty l : (length l <= S (length (commas (List.map member l))))%nat.
Proof.
  induction l as [|kv l IH]; [simpl; lia|]. destruct l as [|kv' l]; [simpl; lia|].
  change (commas (List.map member (kv :: kv' :: l))) with (member kv ++ 44 :: commas (List.map member (kv' :: l))). rewrite length_app. cbn [length] in *. lia.
Qed.

Lemma members_found (l : list (text * json)) (r : text) : wf (JObj l) →
  jsonObjectMembers (print (JObj l) ++ r) = Ok ((λ kv, (sanitised kv.1, print kv.2)) <$> l, true).
Proof.
  intros Hwf. apply wf_members in Hwf. unfold jsonObjectMembers. cbn [print app jsonSkipSpace]. change (isSpace 123) with false. cbn iota.
  change (List.map (λ kv, quoted kv.1 ++ 58 :: print kv.2) l) with (List.map member l). rewrite <- app_assoc.
  destruct l as [|kv l]; [done|]. cbn [app].
  assert (Hhead : ∃ q, commas (List.map member (kv :: l)) ++ 125 :: r = c_quote :: q).
  { destruct l; cbn [List.map commas]; unfold member, quoted; cbn [app]; by eexists. }
  assert (Hloop : membersLoop (S (length (123 :: commas (List.map member (kv :: l)) ++ 125 :: r))) (commas (List.map member (kv :: l)) ++ 125 :: r) =
    Ok ((λ kv, (sanitised kv.1, print kv.2)) <$> kv :: l, true)).
  { apply membersLoop_print; [done|done|]. pose proof (commas_nonempty (kv :: l)) as Hn. cbn [length] in Hn |- *. rewrite length_app. lia. }
  destruct Hhead as [q Hq]. rewrite Hq in *. cbn [jsonSkipSpace]. change (isSpace c_quote) with false. cbn iota. exact Hloop.
Qed.

(** Texts that escaping does not lengthen it does not change. *)
Lemma unitBytes_units s : mjoin (unitBytes <$> units s) = s.
Proof.
  unfold units. remember (length s) as fuel eqn:Hf. assert (Hl : (length s <= fuel)%nat) by lia. clear Hf. revert s Hl.
  induction fuel as [|fuel IH]; intros [|b r] Hl; cbn [unitsLoop length] in *; try done; try lia. destruct (b <? 0x80).
  - rewrite join_fmap_cons. cbn [unitBytes app]. f_equal. apply IH. lia.
  - destruct (charLen (b :: r)) as [n|] eqn:Hc; rewrite join_fmap_cons; cbn [unitBytes app]; [|f_equal; apply IH; lia].
    destruct (charLen_spec _ _ Hc) as (Hn & Hln & _ & _). rewrite IH; [by rewrite take_drop|]. rewrite length_drop. simpl in *. lia.
Qed.

Lemma escapeUnit_grows u : escapeUnit u = unitBytes u ∨ (length (unitBytes u) < length (escapeUnit u))%nat.
Proof.
  destruct u as [b|b|c]; cbn [escapeUnit unitBytes].
  - destruct (plain b); [by left|]. right. unfold escapeByte. repeat case_match; simpl; lia.
  - right. simpl. lia.
  - repeat case_bool_decide; subst; first [by left|right; simpl; lia].
Qed.

Lemma escaped_grows us : mjoin (escapeUnit <$> us) = mjoin (unitBytes <$> us) ∨ (length (mjoin (unitBytes <$> us)) < length (mjoin (escapeUnit <$> us)))%nat.
Proof.
  induction us as [|u us IH]; [by left|]. rewrite !join_fmap_cons, !length_app. destruct (escapeUnit_grows u) as [->|Hu], IH as [->|IH]; [by left|right; lia..].
Qed.

Lemma escaped_same s : length (escaped s) = length s → escaped s = s.
Proof. intros Hl. unfold escaped in *. destruct (escaped_grows (units s)) as [Hs|Hs]; rewrite unitBytes_units in Hs; [done|lia]. Qed.

(** C36: A text written as a string is found by its end and decoded to itself, malformed UTF-8 replaced, whatever was written before and follows. *)
Theorem string_written_read (buf s r : text) : Forall isByte s →
  ∃ q, appendString buf s = Some (buf ++ q) ∧ jsonStringEnd (q ++ r) = Some r ∧ jsonDecodeString q = sanitised s ∧ (validUTF8 s → jsonDecodeString q = s).
Proof.
  intros Hs. exists (quoted s). split; [by rewrite appendString_spec|]. split; [by apply stringEnd_quoted|]. unfold quoted. rewrite decode_written by done.
  split; [done|]. apply sanitised_valid.
Qed.

(** The splitter finds the members of a written object, whatever follows it: the keys decoded, the values as they were written. *)
Theorem written_members_found (l : list (text * json)) (r : text) : wf (JObj l) →
  jsonObjectMembers (print (JObj l) ++ r) = Ok ((λ kv, (sanitised kv.1, print kv.2)) <$> l, true).
Proof. apply members_found. Qed.

Module JsonExample.
Definition sample : text := bs "a long line of plain text, then " ++ [34; 92; 10; 1; 0xC3; 0xA9; 0xE2; 0x80; 0xA8; 0xFF; 65].

Lemma sample_bytes : Forall isByte sample.
Proof. unfold isByte. apply (bool_decide_unpack _). vm_compute. exact I. Qed.

Lemma string_written_read_witness :
  ∃ q, appendString [91] sample = Some ([91] ++ q) ∧ jsonStringEnd (q ++ [93]) = Some [93] ∧ jsonDecodeString q = sanitised sample ∧ (validUTF8 sample → jsonDecodeString q = sample).
Proof. apply string_written_read, sample_bytes. Defined.

Definition value : list (text * json) :=
  [(bs "cmds", JArr [JObj [(bs "a]b", JStr sample)]; JRaw (bs "17")]); (bs "x" ++ [34], JRaw (bs "false")); (bs "r", JArr [])].

Lemma written_members_found_witness :
  jsonObjectMembers (print (JObj value) ++ bs "]") = Ok ((λ kv, (sanitised kv.1, print kv.2)) <$> value, true).
Proof.
  apply written_members_found. unfold value. repeat split; try exact sample_bytes; try discriminate; try (unfold isByte; apply (bool_decide_unpack _); vm_compute; exact I).
Defined.
End JsonExample.
