(* ===== verification/Emitter.v ===== *)
(** * The graph emitter (node_emitter.go, node.go, emit_foreign_tools.go)

    The generator reserves slots for nodes, fills them in any order, and at the
    end hands to the consumer the nodes that the requested results need, each
    after the nodes it depends on.  Proved here: exactly the nodes from which no
    cycle and no empty slot can be reached are handed over, once each and in
    dependency order, and the emitter complains exactly when some needed node
    is not among them.

    Bit sets of refs are finite sets, as BitSets.v shows. *)

From S2P Require Import Prelude.
Local Open Scope Z_scope.

(** ** Nodes *)

(** The parts of a node the emitter looks at.  [isPackage]: its KV says it packs
    or unpacks (pkPK, pkUN). *)
Record Node := mkNode {
  DepRefs : list Z;
  ForeignDepRefs : list Z;
  Resources : list Z;
  ResourceGlobals : list (Z * Z);     (** Name, FetchKey *)
  CmdResources : list (list Z);       (** Resources of each command *)
  Outputs : list Z;
  Module : bool;
  isPackage : bool }.

Section node.
Context (fetchRefs : gmap Z Z).

Fixpoint declared (name : Z) (decls : list (Z * Z)) : option Z :=
  match decls with
  | [] => None
  | (n, key) :: decls => if n =? name then Some key else declared name decls
  end.

Definition resourceRef (n : Node) (name : Z) : option Z :=
  match declared name (ResourceGlobals n) with
  | Some key => fetchRefs !! key
  | None => fetchRefs !! name
  end.

Definition buildDeps (n : Node) : list Z :=
  DepRefs n ++ ForeignDepRefs n ++ omap (resourceRef n) (Resources n).

(** [commandResources]: the resources of the commands that the node does not
    have yet, under their key or through another key for the same fetch. *)
Definition sameFetch (n : Node) (key : Z) : bool :=
  match resourceRef n key with
  | Some ref => existsb (λ old, bool_decide (resourceRef n old = Some ref)) (Resources n)
  | None => false
  end.

Definition addResource (n : Node) (resources : list Z) (key : Z) : list Z :=
  if bool_decide (key ∈ Resources n) || bool_decide (key ∈ resources) || sameFetch n key then resources
  else resources ++ [key].

Definition commandResources (n : Node) : Node :=
  let resources := foldl (addResource n) [] (concat (CmdResources n)) in
  if decide (0 < length resources)%nat then
    mkNode (DepRefs n) (ForeignDepRefs n) (Resources n ++ resources) (ResourceGlobals n) (CmdResources n)
      (Outputs n) (Module n) (isPackage n)
  else n.
End node.

(** ** The emitter *)

Record Emitter := mkEmitter {
  nodes : list (option Node);          (** [None]: reserved, not emitted *)
  fetchRefs : gmap Z Z;
  modules : gset Z;
  resolved : gset Z;
  exportEligible : gset Z;
  results : list Z;
  deferPublication : Z;
  publicationRoots : list Z;
  emitted : list Z;                    (** the calls of [onNode] *)
  warned : list Z }.                   (** the nodes warned about *)

(** What [newStreamingEmitter] and its callers set. *)
Record Options := mkOptions {
  addModulesToResults : bool; stripPackagesFromResults : bool; keepGoing : bool }.

Definition newStreamingEmitter : Emitter := mkEmitter [] ∅ ∅ ∅ ∅ [] 0 [] [] [].

Implicit Types e : Emitter.

Definition setNodes e (ns : list (option Node)) : Emitter :=
  mkEmitter ns (fetchRefs e) (modules e) (resolved e) (exportEligible e) (results e) (deferPublication e)
    (publicationRoots e) (emitted e) (warned e).
Definition setResults e (rs : list Z) : Emitter :=
  mkEmitter (nodes e) (fetchRefs e) (modules e) (resolved e) (exportEligible e) rs (deferPublication e)
    (publicationRoots e) (emitted e) (warned e).
Definition setEligible e (x : gset Z) : Emitter :=
  mkEmitter (nodes e) (fetchRefs e) (modules e) (resolved e) x (results e) (deferPublication e)
    (publicationRoots e) (emitted e) (warned e).

Definition nodeAt e (id : Z) : res (option Node) := lift (zget (nodes e) id).

Definition reserve e : Emitter * Z :=
  (setNodes e (nodes e ++ [None]), u32 (Z.of_nat (length (nodes e)))).

(** [resolveOrPend] with the node already in its slot. *)
Definition resolveOrPend e (n : Node) (id : Z) : res Emitter :=
  if decide (Outputs n = []) then Throw
  else
    ns ← lift (zset (nodes e) id (Some (commandResources (fetchRefs e) n)));
    let e := setNodes e ns in
    Ok (if deferPublication e =? 0 then
          mkEmitter (nodes e) (fetchRefs e) (modules e) (resolved e) (exportEligible e) (results e)
            (deferPublication e) (publicationRoots e ++ [id]) (emitted e) (warned e)
        else e).

Definition emit e (n : Node) : res (Emitter * Z) :=
  let id := u32 (Z.of_nat (length (nodes e))) in
  e ← resolveOrPend (setNodes e (nodes e ++ [Some n])) n id;
  Ok (e, id).

Definition emitReserved e (n : Node) (id : Z) : res Emitter :=
  ns ← lift (zset (nodes e) id (Some n));
  resolveOrPend (setNodes e ns) n id.

Definition result e (r : Z) : Emitter := setResults e (results e ++ [r]).

(** [reachableNodes]: the stack is kept with its top first. *)
Fixpoint reach_loop (fuel : nat) e (visited : gset Z) (stack : list Z) : res (gset Z) :=
  match fuel with
  | O => NoFuel
  | S fuel =>
      match stack with
      | [] => Ok visited
      | ref :: stack =>
          if decide (ref ∈ visited) then reach_loop fuel e visited stack
          else
            n ← nodeAt e ref;
            match n with
            | Some n => reach_loop fuel e ({[ref]} ∪ visited) (reverse (buildDeps (fetchRefs e) n) ++ stack)
            | None => reach_loop fuel e ({[ref]} ∪ visited) stack
            end
      end
  end.

(** Every node is expanded once. *)
Definition depCount e (o : option Node) : nat :=
  match o with Some n => length (buildDeps (fetchRefs e) n) | None => 0 end.
Definition reach_fuel e (roots : list Z) : nat := S (length roots + sum_list (depCount e <$> nodes e)).

Definition reachableNodes e (roots : list Z) : res (gset Z) :=
  reach_loop (reach_fuel e roots) e ∅ (reverse roots).

Definition publicationFrontier e : list Z := publicationRoots e ++ results e.

Definition hasUnresolvedDeps e (n : Node) : bool :=
  existsb (λ r, bool_decide (r ∉ resolved e)) (buildDeps (fetchRefs e) n).

Definition emitResolved e (id : Z) : Emitter :=
  mkEmitter (nodes e) (fetchRefs e) (modules e) ({[id]} ∪ resolved e) (exportEligible e) (results e)
    (deferPublication e) (publicationRoots e) (emitted e ++ [id]) (warned e).

(** One pass over the pending nodes. *)
Fixpoint finish_pass e (pending : list Z) : res (Emitter * list Z) :=
  match pending with
  | [] => Ok (e, [])
  | id :: pending =>
      n ← nodeAt e id;
      n ← lift n;
      if hasUnresolvedDeps e n then
        '(e, next) ← finish_pass e pending; Ok (e, id :: next)
      else finish_pass (emitResolved e id) pending
  end.

Definition hasOutputs e (id : Z) : bool :=
  match zget (nodes e) id with Some (Some n) => negb (bool_decide (Outputs n = [])) | _ => false end.

Definition dropUnresolvable e (stuck : list Z) : Emitter :=
  mkEmitter (nodes e) (fetchRefs e) (modules e) (resolved e) (exportEligible e ∖ list_to_set stuck)
    (filter (λ r, r ∈ resolved e) (results e)) (deferPublication e) (publicationRoots e) (emitted e)
    (warned e ++ filter (λ id, hasOutputs e id = true) stuck).

Fixpoint finish_loop (fuel : nat) (keepGoing : bool) e (pending : list Z) : res Emitter :=
  match fuel with
  | O => NoFuel
  | S fuel =>
      if decide (length pending = 0%nat) then Ok e
      else
        '(e, next) ← finish_pass e pending;
        if decide (length next = length pending) then
          if negb keepGoing then Throw else Ok (dropUnresolvable e next)
        else finish_loop fuel keepGoing e next
  end.

(** The emitted slots of a set, in order of their refs. *)
Definition slots e (keep : Z → Node → bool) : list Z :=
  mjoin (imap (λ i o, match o with
                       | Some n => if keep (Z.of_nat i) n then [Z.of_nat i] else []
                       | None => []
                       end) (nodes e)).

(** [stripPackageResults]: a dependency on an empty slot is a nil dereference. *)
Fixpoint live_loop (fuel : nat) e (live : gset Z) (stack : list Z) : res (gset Z) :=
  match fuel with
  | O => NoFuel
  | S fuel =>
      match stack with
      | [] => Ok live
      | ref :: stack =>
          if decide (ref ∈ live) then live_loop fuel e live stack
          else
            n ← nodeAt e ref;
            n ← lift n;
            live_loop fuel e ({[ref]} ∪ live) (reverse (buildDeps (fetchRefs e) n) ++ stack)
      end
  end.

Fixpoint keptResults e (rs : list Z) : res (list Z) :=
  match rs with
  | [] => Ok []
  | r :: rs =>
      n ← nodeAt e r;
      rest ← keptResults e rs;
      Ok (match n with Some n => if isPackage n then rest else r :: rest | None => rest end)
  end.

Definition stripPackageResults e : res Emitter :=
  rs ← keptResults e (results e);
  live ← live_loop (reach_fuel e rs) e ∅ (reverse rs);
  Ok (setNodes (setResults e rs) (imap (λ i o, if decide (Z.of_nat i ∈ live) then o else None) (nodes e))).

Fixpoint dedupResultRefs (seen : gset Z) (rs : list Z) : list Z :=
  match rs with
  | [] => []
  | r :: rs => if decide (r ∈ seen) then dedupResultRefs seen rs else r :: dedupResultRefs ({[r]} ∪ seen) rs
  end.

Definition finish (o : Options) e : res (Emitter * list Z) :=
  e ← (if stripPackagesFromResults o then stripPackageResults e else Ok e);
  eligible ← reachableNodes e (publicationFrontier e);
  let e := setEligible e eligible in
  let pending := slots e (λ i _, bool_decide (i ∈ exportEligible e)) in
  e ← finish_loop (S (length pending)) (keepGoing o) e pending;
  let e :=
    if addModulesToResults o then
      foldl result e (slots e (λ i n, bool_decide (i ∈ exportEligible e) && (Module n || bool_decide (i ∈ modules e))))
    else e in
  Ok (e, dedupResultRefs ∅ (results e)).

(** [graphFromEmitter]: the nodes and the results of the written graph. *)
Definition graphFromEmitter e : list Z * list Z :=
  (slots e (λ i _, bool_decide (i ∈ exportEligible e)), dedupResultRefs ∅ (results e)).

(** ** What the nodes need *)

Definition edge e (r d : Z) : Prop := ∃ n, zget (nodes e) r = Some (Some n) ∧ d ∈ buildDeps (fetchRefs e) n.

(** Reached from the frontier. *)
Definition needed e (r : Z) : Prop := ∃ root, root ∈ publicationFrontier e ∧ rtc (edge e) root r.

(** No cycle and no empty slot below. *)
Inductive buildable e : Z → Prop :=
| buildable_node r n :
    zget (nodes e) r = Some (Some n) → (∀ d, d ∈ buildDeps (fetchRefs e) n → buildable e d) → buildable e r.

Definition in_slots e (r : Z) : Prop := 0 <= r < Z.of_nat (length (nodes e)).

(** All refs name slots. *)
Record refs_ok e : Prop := {
  rf_deps : ∀ r d, edge e r d → in_slots e d;
  rf_roots : ∀ r, r ∈ publicationFrontier e → in_slots e r }.

(** Each ref of [order] comes after its dependencies. *)
Definition deps_first e (order : list Z) : Prop :=
  ∀ l1 r l2 d, order = l1 ++ r :: l2 → edge e r d → d ∈ l1.

(** ** Reachability *)

(** The dependencies of the nodes not visited yet. *)
Definition unseen e (visited : gset Z) : nat :=
  sum_list ((λ i : nat, if decide (Z.of_nat i ∈ visited) then 0%nat else default 0%nat (depCount e <$> nodes e !! i))
              <$> seq 0 (length (nodes e))).

Lemma sum_seq_step (f g : nat → nat) a n k :
  (a <= k < a + n)%nat → (∀ i, i ≠ k → f i = g i) → g k = 0%nat →
  sum_list (f <$> seq a n) = (f k + sum_list (g <$> seq a n))%nat.
Proof.
  revert a. induction n as [|n IH]; intros a Hk Hne Hg; [lia|]. csimpl. destruct (decide (a = k)) as [->|].
  - rewrite Hg. assert (E : f <$> seq (S k) n = g <$> seq (S k) n); [|rewrite E; lia].
    apply list_fmap_ext. intros i x [-> ?]%lookup_seq. apply Hne. lia.
  - rewrite (Hne a) by done. rewrite (IH (S a)); [lia|lia|done..].
Qed.

Lemma unseen_step e visited r o :
  zget (nodes e) r = Some o → r ∉ visited → unseen e visited = (depCount e o + unseen e ({[r]} ∪ visited))%nat.
Proof.
  intros Hr Hv. pose proof (zget_Some_range _ _ _ Hr) as Hrange. unfold unseen.
  assert (Hk : Z.of_nat (Z.to_nat r) = r) by lia. unfold zget in Hr. rewrite bool_decide_true in Hr by lia.
  rewrite (sum_seq_step _ (λ i : nat, if decide (Z.of_nat i ∈ {[r]} ∪ visited) then 0%nat
    else default 0%nat (depCount e <$> nodes e !! i)) 0 _ (Z.to_nat r)).
  - rewrite Hk, decide_False, Hr by done. done.
  - lia.
  - intros i Hi. rewrite (decide_ext (Z.of_nat i ∈ {[r]} ∪ visited) (Z.of_nat i ∈ visited)); [done|].
    assert (Z.of_nat i ≠ r) by lia. set_solver.
  - rewrite Hk, decide_True by set_solver. done.
Qed.

Lemma unseen_all e : unseen e ∅ = sum_list (depCount e <$> nodes e).
Proof.
  unfold unseen. f_equal. apply list_eq. intros i. rewrite !list_lookup_fmap.
  destruct (decide (i < length (nodes e))%nat) as [Hi|Hi].
  - rewrite lookup_seq_lt by done. simpl. rewrite decide_False by set_solver.
    destruct (lookup_lt_is_Some_2 _ _ Hi) as [o ->]. done.
  - rewrite lookup_seq_ge, lookup_ge_None_2 by lia. done.
Qed.

Section reach.
Context (e : Emitter) (roots : list Z).
Context (Hdeps : ∀ r d, edge e r d → in_slots e d) (Hroots : ∀ r, r ∈ roots → in_slots e r).

Definition from_roots (r : Z) : Prop := ∃ root, root ∈ roots ∧ rtc (edge e) root r.

(** Every root, and every dependency of a visited node, is visited or waits. *)
Record searching (visited : gset Z) (stack : list Z) : Prop := {
  se_visited : ∀ r, r ∈ visited → from_roots r;
  se_stack : ∀ r, r ∈ stack → from_roots r;
  se_roots : ∀ r, r ∈ roots → r ∈ visited ∨ r ∈ stack;
  se_edges : ∀ r d, r ∈ visited → edge e r d → d ∈ visited ∨ d ∈ stack }.

Lemma searching_start : searching ∅ (reverse roots).
Proof.
  split; [by intros r ?%not_elem_of_empty|intros r Hr|intros r Hr|by intros r d ?%not_elem_of_empty].
  - exists r. split; [by apply elem_of_reverse|done].
  - right. by apply elem_of_reverse.
Qed.

Lemma from_roots_in r : from_roots r → in_slots e r.
Proof. intros (root & Hr & Hp). destruct (rtc_inv_r _ _ Hp) as [<-|(x & _ & Hx)]; [by apply Hroots|by eapply Hdeps]. Qed.

Lemma searching_end visited r : searching visited [] → r ∈ visited ↔ from_roots r.
Proof.
  intros [Hv _ Hro He]. split; [apply Hv|]. intros (root & Hr & Hp).
  assert (Hroot : root ∈ visited) by (destruct (Hro root Hr) as [|?%not_elem_of_nil]; done).
  clear Hr. induction Hp as [|x y z Hxy _ IH]; [done|]. apply IH.
  destruct (He x y Hroot Hxy) as [|?%not_elem_of_nil]; done.
Qed.

Lemma searching_skip visited ref stack :
  searching visited (ref :: stack) → ref ∈ visited → searching visited stack.
Proof. intros [Hv Hs Hr He] Hin. split; set_solver. Qed.

Lemma searching_visit visited ref stack o :
  searching visited (ref :: stack) → zget (nodes e) ref = Some o →
  searching ({[ref]} ∪ visited)
    (match o with Some n => reverse (buildDeps (fetchRefs e) n) ++ stack | None => stack end).
Proof.
  intros [Hv Hs Hr He] Hn.
  assert (Hdep : ∀ d, edge e ref d ↔ d ∈ match o with Some n => buildDeps (fetchRefs e) n | None => [] end).
  { intros d. unfold edge. rewrite Hn. destruct o; [naive_solver|]. split; [naive_solver|by intros ?%not_elem_of_nil]. }
  assert (Hst : ∀ d, d ∈ match o with Some n => reverse (buildDeps (fetchRefs e) n) ++ stack | None => stack end ↔
    edge e ref d ∨ d ∈ stack).
  { intros d. rewrite Hdep. destruct o; [rewrite elem_of_app, elem_of_reverse; done|set_solver]. }
  assert (Href : from_roots ref) by (apply Hs; set_solver).
  split.
  - intros r [->%elem_of_singleton|?]%elem_of_union; auto.
  - intros r [Hd|?]%Hst; [|apply Hs; set_solver]. destruct Href as (root & ? & ?). exists root.
    split; [done|]. by eapply rtc_r.
  - intros r Hroot. rewrite Hst. destruct (Hr r Hroot) as [|[->|?]%elem_of_cons]; set_solver.
  - intros r d Hin Hd. rewrite Hst. apply elem_of_union in Hin as [->%elem_of_singleton|Hin]; [by right; left|].
    destruct (He r d Hin Hd) as [|[->|?]%elem_of_cons]; set_solver.
Qed.
Lemma reach_loop_ok fuel visited stack :
  searching visited stack → (length stack + unseen e visited < fuel)%nat →
  ∃ visited', reach_loop fuel e visited stack = Ok visited' ∧ ∀ r, r ∈ visited' ↔ from_roots r.
Proof.
  revert visited stack. induction fuel as [|fuel IH]; intros visited stack Hs Hf; [lia|]. simpl.
  destruct stack as [|ref stack]; [exists visited; split; [done|]; intros r; by apply searching_end|].
  destruct (decide (ref ∈ visited)) as [Hin|Hnin].
  { apply IH; [by eapply searching_skip|simpl in Hf; lia]. }
  destruct (zget_in (nodes e) ref) as [o Ho]; [apply from_roots_in, (se_stack _ _ Hs); set_solver|].
  unfold nodeAt. rewrite Ho. cbn [lift mbind res_bind]. pose proof (searching_visit _ _ _ o Hs Ho) as Hs'.
  rewrite (unseen_step e visited ref o) in Hf by done. simpl in Hf. destruct o as [n|]; apply IH; try done.
  - rewrite length_app, length_reverse. simpl in Hf. lia.
  - simpl in Hf. lia.
Qed.

Lemma live_loop_ok fuel visited stack :
  (∀ r, from_roots r → ∃ n, zget (nodes e) r = Some (Some n)) →
  searching visited stack → (length stack + unseen e visited < fuel)%nat →
  ∃ visited', live_loop fuel e visited stack = Ok visited' ∧ ∀ r, r ∈ visited' ↔ from_roots r.
Proof.
  intros Hfull. revert visited stack. induction fuel as [|fuel IH]; intros visited stack Hs Hf; [lia|]. simpl.
  destruct stack as [|ref stack]; [exists visited; split; [done|]; intros r; by apply searching_end|].
  destruct (decide (ref ∈ visited)) as [Hin|Hnin].
  { apply IH; [by eapply searching_skip|simpl in Hf; lia]. }
  destruct (Hfull ref) as [n Hn]; [apply (se_stack _ _ Hs); set_solver|].
  unfold nodeAt. rewrite Hn. cbn [lift mbind res_bind]. pose proof (searching_visit _ _ _ _ Hs Hn) as Hs'.
  rewrite (unseen_step e visited ref _ Hn) in Hf by done. simpl in Hf. apply IH; [done|].
  rewrite length_app, length_reverse. lia.
Qed.

Lemma reachableNodes_ok : ∃ x, reachableNodes e roots = Ok x ∧ ∀ r, r ∈ x ↔ from_roots r.
Proof.
  apply reach_loop_ok; [apply searching_start|]. unfold reach_fuel. rewrite length_reverse, unseen_all. lia.
Qed.
End reach.

(** ** Emission *)

Definition emitMany e (ids : list Z) : Emitter := foldl emitResolved e ids.

Lemma emitMany_frame e ids :
  nodes (emitMany e ids) = nodes e ∧ fetchRefs (emitMany e ids) = fetchRefs e ∧ modules (emitMany e ids) = modules e ∧
  exportEligible (emitMany e ids) = exportEligible e ∧ results (emitMany e ids) = results e ∧
  publicationRoots (emitMany e ids) = publicationRoots e ∧ emitted (emitMany e ids) = emitted e ++ ids ∧
  resolved (emitMany e ids) = list_to_set ids ∪ resolved e.
Proof.
  revert e. induction ids as [|id ids IH]; intros e; simpl; [rewrite app_nil_r; split_and!; try done; set_solver|].
  destruct (IH (emitResolved e id)) as (-> & -> & -> & -> & -> & -> & -> & ->). simpl.
  rewrite <-app_assoc. split_and!; try done. set_solver.
Qed.

Lemma hasUnresolvedDeps_true e n :
  hasUnresolvedDeps e n = true ↔ ∃ d, d ∈ buildDeps (fetchRefs e) n ∧ d ∉ resolved e.
Proof.
  unfold hasUnresolvedDeps. rewrite existsb_exists. setoid_rewrite bool_decide_eq_true.
  setoid_rewrite list_elem_of_In. done.
Qed.

Lemma hasUnresolvedDeps_false e n :
  hasUnresolvedDeps e n = false ↔ ∀ d, d ∈ buildDeps (fetchRefs e) n → d ∈ resolved e.
Proof.
  rewrite <-not_true_iff_false, hasUnresolvedDeps_true. split; [|set_solver].
  intros Hno d Hd. destruct (decide (d ∈ resolved e)); [done|]. exfalso. eauto.
Qed.

(** A pass emits, in order, nodes whose dependencies are resolved by then. *)
Lemma finish_pass_ok e pending :
  (∀ id, id ∈ pending → ∃ n, zget (nodes e) id = Some (Some n)) →
  ∃ order next, finish_pass e pending = Ok (emitMany e order, next) ∧ pending ≡ₚ order ++ next ∧
    (∀ l1 r l2 d, order = l1 ++ r :: l2 → edge e r d → d ∈ resolved e ∨ d ∈ l1) ∧
    (order = [] → next = pending ∧ ∀ id, id ∈ pending → ∃ d, edge e id d ∧ d ∉ resolved e).
Proof.
  revert e. induction pending as [|id pending IH]; intros e Hn.
  { exists [], []. split; [done|]. split; [done|]. split; [intros [|] ? ? ? [=]|]. split; [done|set_solver]. }
  destruct (Hn id) as [n Hid]; [set_solver|]. simpl. unfold nodeAt. rewrite Hid. cbn [lift mbind res_bind].
  destruct (hasUnresolvedDeps e n) eqn:Hu.
  - destruct (IH e) as (order & next & -> & Hp & Hfirst & Hstuck); [set_solver|]. cbn [mbind res_bind].
    exists order, (id :: next). split; [done|]. split; [by rewrite Hp, Permutation_middle|]. split; [done|].
    intros Ho. destruct (Hstuck Ho) as [-> Hs]. split; [done|]. intros x [->|Hx]%elem_of_cons; [|auto].
    apply hasUnresolvedDeps_true in Hu as (d & Hd & Hr). exists d. split; [|done]. by exists n.
  - destruct (IH (emitResolved e id)) as (order & next & -> & Hp & Hfirst & _).
    { intros x Hx. simpl. apply Hn. set_solver. }
    exists (id :: order), next. split; [done|]. split; [by rewrite Hp|]. split; [|done].
    intros [|x l1] r l2 d [= -> ->] Hd.
    + left. destruct Hd as (n' & Hn' & Hd). simplify_eq. by eapply hasUnresolvedDeps_false in Hu.
    + destruct (Hfirst l1 r l2 d eq_refl Hd) as [Hr|?]; [|by right; right].
      simpl in Hr. apply elem_of_union in Hr as [->%elem_of_singleton|?]; [by right; left|by left].
Qed.

Lemma deps_first_snoc e order r :
  deps_first e (order ++ [r]) ↔ deps_first e order ∧ ∀ d, edge e r d → d ∈ order.
Proof.
  split.
  - intros Hf. split.
    + intros l1 x l2 d -> Hd. eapply (Hf l1 x (l2 ++ [r])); [by rewrite <-app_assoc|done].
    + intros d Hd. by eapply (Hf order r []).
  - intros [Hf Hr] l1 x l2 d Heq Hd. destruct l2 as [|y l2 _] using rev_ind.
    + apply app_inj_tail in Heq as [-> ->]. by apply Hr.
    + rewrite app_comm_cons, app_assoc in Heq. apply app_inj_tail in Heq as [-> _]. by eapply Hf.
Qed.

Lemma deps_first_buildable e order :
  (∀ r, r ∈ order → ∃ n, zget (nodes e) r = Some (Some n)) → deps_first e order →
  ∀ r, r ∈ order → buildable e r.
Proof.
  induction order as [|r order IH] using rev_ind; [set_solver|]. intros Hn [Hf Hr]%deps_first_snoc.
  assert (Hall : ∀ x, x ∈ order → buildable e x) by (apply IH; [set_solver|done]).
  intros x [?|Hx]%elem_of_app; [by apply Hall|]. apply list_elem_of_singleton in Hx as ->.
  destruct (Hn r) as [n Hnr]; [set_solver|]. eapply buildable_node; [done|]. intros d Hd. apply Hall, Hr. by exists n.
Qed.

(** Emitting [order] after [done] keeps dependencies first. *)
Lemma deps_first_app e order done_ :
  deps_first e done_ → (∀ l1 r l2 d, order = l1 ++ r :: l2 → edge e r d → d ∈ done_ ∨ d ∈ l1) →
  deps_first e (done_ ++ order).
Proof.
  intros Hd. induction order as [|r order IH] using rev_ind; intros Ho; [by rewrite app_nil_r|].
  rewrite app_assoc. apply deps_first_snoc. split.
  - apply IH. intros l1 x l2 d -> Hx. eapply (Ho l1 x (l2 ++ [r])); [by rewrite <-app_assoc|done].
  - intros d Hx. apply elem_of_app. by apply (Ho order r []).
Qed.

(** Refs that all wait for one of themselves or for an empty slot. *)
Lemma stuck_not_buildable e (done_ stuck : list Z) :
  (∀ r d n, r ∈ stuck → edge e r d → zget (nodes e) d = Some (Some n) → d ∈ done_ ∨ d ∈ stuck) →
  (∀ r, r ∈ stuck → ∃ d, edge e r d ∧ d ∉ done_) → ∀ r, r ∈ stuck → ¬ buildable e r.
Proof.
  intros Hclosed Hwait r Hr Hb. induction Hb as [r n Hn Hd IH]. destruct (Hwait r Hr) as (d & He & Hnd).
  pose proof He as (n' & Hn' & Hin). simplify_eq. destruct (Hd d Hin) as [d n'' Hn'' _].
  destruct (Hclosed r d n'' Hr He Hn''); [done|]. by apply (IH d).
Qed.

Section finish.
Context (o : Options) (e0 : Emitter).
Context (Hres : resolved e0 = ∅) (Hem : emitted e0 = []).

Record passing (done_ pending : list Z) : Prop := {
  ps_nodup : NoDup (done_ ++ pending);
  ps_node : ∀ r, r ∈ done_ ++ pending → ∃ n, zget (nodes e0) r = Some (Some n);
  ps_closed : ∀ r d n, r ∈ done_ ++ pending → edge e0 r d → zget (nodes e0) d = Some (Some n) → d ∈ done_ ++ pending;
  ps_first : deps_first e0 done_ }.

Definition finished (all : list Z) (e' : Emitter) : Prop :=
  ∃ order stuck, all ≡ₚ order ++ stuck ∧ deps_first e0 order ∧ (∀ r, r ∈ order → buildable e0 r) ∧
    (∀ r, r ∈ stuck → ¬ buildable e0 r) ∧
    ((stuck = [] ∧ e' = emitMany e0 order) ∨ (keepGoing o = true ∧ e' = dropUnresolvable (emitMany e0 order) stuck)).

Lemma edge_emitMany done_ r d : edge (emitMany e0 done_) r d ↔ edge e0 r d.
Proof. unfold edge. destruct (emitMany_frame e0 done_) as (-> & -> & _). done. Qed.

Lemma finish_loop_ok fuel done_ pending :
  passing done_ pending → (length pending < fuel)%nat →
  match finish_loop fuel (keepGoing o) (emitMany e0 done_) pending with
  | Ok e' => finished (done_ ++ pending) e'
  | Throw => keepGoing o = false ∧ ∃ r, r ∈ done_ ++ pending ∧ ¬ buildable e0 r
  | NoFuel => False
  end.
Proof.
  revert done_ pending. induction fuel as [|fuel IH]; intros done_ pending Hp Hf; [lia|]. cbn [finish_loop].
  assert (Hbuilt : ∀ r, r ∈ done_ → buildable e0 r).
  { apply deps_first_buildable; [|apply Hp]. intros r Hr. apply (ps_node _ _ Hp). set_solver. }
  destruct (decide (length pending = 0%nat)) as [Hz|Hz].
  { apply nil_length_inv in Hz as ->. exists done_, []. split; [done|]. split; [apply Hp|]. split; [done|].
    split; [set_solver|]. by left. }
  destruct (finish_pass_ok (emitMany e0 done_) pending) as (order & next & -> & Hperm & Hfirst & Hstuck).
  { intros id Hid. destruct (emitMany_frame e0 done_) as (-> & _). apply (ps_node _ _ Hp). set_solver. }
  cbn [mbind res_bind]. setoid_rewrite edge_emitMany in Hfirst. setoid_rewrite edge_emitMany in Hstuck.
  destruct (emitMany_frame e0 done_) as (_ & _ & _ & _ & _ & _ & _ & Hr).
  assert (Hres' : ∀ d, d ∈ resolved (emitMany e0 done_) ↔ d ∈ done_) by (intros d; rewrite Hr; set_solver).
  setoid_rewrite Hres' in Hfirst. setoid_rewrite Hres' in Hstuck.
  pose proof (Permutation_length Hperm) as Hlen. rewrite length_app in Hlen.
  destruct (decide (length next = length pending)) as [Heq|Hne].
  - assert (order = []) as -> by (apply nil_length_inv; lia). destruct (Hstuck eq_refl) as [-> Hwait].
    assert (Hno : ∀ r, r ∈ pending → ¬ buildable e0 r).
    { apply (stuck_not_buildable e0 done_ pending); [|done]. intros r d n Hin He Hn.
      apply elem_of_app. eapply (ps_closed _ _ Hp r d n); [set_solver|done..]. }
    destruct (keepGoing o) eqn:Hk; simpl.
    + exists done_, pending. split; [done|]. split; [apply Hp|]. split; [done|]. split; [done|]. by right.
    + split; [done|]. destruct pending as [|r pending]; [done|]. exists r. split; [set_solver|]. apply Hno. set_solver.
  - replace (emitMany (emitMany e0 done_) order) with (emitMany e0 (done_ ++ order)) by apply foldl_app.
    assert (Happ : done_ ++ pending ≡ₚ (done_ ++ order) ++ next) by by rewrite <-app_assoc, <-Hperm.
    assert (Hin : ∀ r, r ∈ done_ ++ pending ↔ r ∈ (done_ ++ order) ++ next) by (intros r; by rewrite Happ).
    assert (Hp' : passing (done_ ++ order) next).
    { split.
      - by rewrite <-Happ; apply Hp.
      - intros r Hr'. apply (ps_node _ _ Hp). by apply Hin.
      - intros r d n Hr' He Hn. apply Hin. eapply (ps_closed _ _ Hp r d n); [by apply Hin|done..].
      - apply deps_first_app; [apply Hp|done]. }
    specialize (IH _ _ Hp' ltac:(lia)). destruct (finish_loop fuel (keepGoing o) (emitMany e0 (done_ ++ order)) next) as [e'| |]; [..|done].
    + destruct IH as (ord & stuck & Hall & Hrest). exists ord, stuck. split; [by rewrite Happ|done].
    + destruct IH as [Hk (r & Hr' & Hb)]. split; [done|]. exists r. split; [by apply Hin|done].
Qed.
End finish.

Lemma slots_spec e keep r :
  r ∈ slots e keep ↔ ∃ n, zget (nodes e) r = Some (Some n) ∧ keep r n = true.
Proof.
  unfold slots. rewrite list_elem_of_join. setoid_rewrite elem_of_lookup_imap. split.
  - intros (l & Hr & i & o & -> & Hi). destruct o as [n|]; [|set_solver].
    destruct (keep (Z.of_nat i) n) eqn:Hk; [|set_solver]. apply list_elem_of_singleton in Hr as ->.
    exists n. by rewrite zget_nat.
  - intros (n & Hn & Hk). pose proof (zget_Some_range _ _ _ Hn). unfold zget in Hn. rewrite bool_decide_true in Hn by lia.
    exists [r]. split; [set_solver|]. exists (Z.to_nat r), (Some n). rewrite Z2Nat.id by lia. by rewrite Hk.
Qed.

Lemma slots_nodup e keep : NoDup (slots e keep).
Proof.
  unfold slots. generalize (nodes e) as l. intros l.
  assert (Hgen : ∀ k, NoDup (mjoin (imap (λ i o, match o with
      | Some n => if keep (Z.of_nat (k + i)) n then [Z.of_nat (k + i)] else []
      | None => [] end) l)) ∧
    ∀ r, r ∈ mjoin (imap (λ i o, match o with
      | Some n => if keep (Z.of_nat (k + i)) n then [Z.of_nat (k + i)] else []
      | None => [] end) l) → Z.of_nat k <= r); [|exact (proj1 (Hgen 0%nat))].
  induction l as [|o l IH]; intros k; [split; [constructor|set_solver]|].
  destruct (IH (S k)) as [Hnd Hge]. rewrite imap_cons. cbn [mjoin list_join]. rewrite Nat.add_0_r.
  erewrite imap_ext with (l := l); [|intros i x _; simpl; rewrite <-Nat.add_succ_comm; reflexivity].
  split.
  - apply NoDup_app. split; [|split; [|done]].
    + destruct o as [n|]; [destruct (keep _ n)|]; auto using NoDup_nil_2, NoDup_singleton.
    + intros r Hr Hin%Hge. destruct o as [n|]; [destruct (keep _ n)|]; set_solver by lia.
  - intros r [Hr|?%Hge]%elem_of_app; [|lia]. destruct o as [n|]; [destruct (keep _ n)|]; set_solver by lia.
Qed.

Lemma dedupResultRefs_spec seen rs : NoDup (dedupResultRefs seen rs) ∧
  ∀ r, r ∈ dedupResultRefs seen rs ↔ r ∈ rs ∧ r ∉ seen.
Proof.
  revert seen. induction rs as [|x rs IH]; intros seen; simpl; [split; [constructor|set_solver]|].
  case_decide as Hx; [destruct (IH seen) as [? Hs]|destruct (IH ({[x]} ∪ seen)) as [? Hs]].
  - split; [done|]. intros r. rewrite Hs. set_solver.
  - split; [constructor; [rewrite Hs; set_solver|done]|]. intros r. rewrite elem_of_cons, Hs.
    destruct (decide (r = x)); set_solver.
Qed.

Lemma foldl_result_results e l :
  nodes (foldl result e l) = nodes e ∧ emitted (foldl result e l) = emitted e ∧ results (foldl result e l) = results e ++ l.
Proof.
  revert e. induction l as [|r l IH]; intros e; simpl; [by rewrite app_nil_r|].
  destruct (IH (result e r)) as (-> & -> & ->). simpl. by rewrite <-app_assoc.
Qed.

(** What [finish] leaves, for the emitter [e] after the packages are stripped. *)
Record handed_over (o : Options) (e e' : Emitter) (rs : list Z) : Prop := {
  ho_nodup : NoDup (emitted e');
  ho_emitted : ∀ r, r ∈ emitted e' ↔ needed e r ∧ buildable e r;
  ho_first : deps_first e (emitted e');
  ho_strict : keepGoing o = false → ∀ r n, needed e r → zget (nodes e) r = Some (Some n) → buildable e r;
  ho_results : ∀ r, r ∈ rs → r ∈ emitted e' ∨ zget (nodes e) r = Some None;
  ho_results_nodup : NoDup rs }.

Lemma pending_spec e x r :
  r ∈ slots (setEligible e x) (λ i _, bool_decide (i ∈ exportEligible (setEligible e x))) ↔
  r ∈ x ∧ ∃ n, zget (nodes e) r = Some (Some n).
Proof. rewrite slots_spec. simpl. setoid_rewrite bool_decide_eq_true. naive_solver. Qed.

Lemma buildable_eligible e x r : buildable (setEligible e x) r ↔ buildable e r.
Proof. split; induction 1 as [r n Hn _ IH]; by eapply buildable_node. Qed.

Lemma needed_edge e r d : needed e r → edge e r d → needed e d.
Proof. intros (root & Hr & Hp) Hd. exists root. split; [done|]. by eapply rtc_r. Qed.

Lemma finish_unstripped o e :
  refs_ok e → resolved e = ∅ → emitted e = [] → stripPackagesFromResults o = false →
  match finish o e with
  | Ok (e', rs) => handed_over o e e' rs
  | Throw => keepGoing o = false ∧ ∃ r n, needed e r ∧ zget (nodes e) r = Some (Some n) ∧ ¬ buildable e r
  | NoFuel => False
  end.
Proof.
  intros [Hd Hr] Hres Hem Hns. unfold finish. rewrite Hns. cbn [mbind res_bind].
  destruct (reachableNodes_ok e (publicationFrontier e) Hd Hr) as (x & -> & Hx). cbn [mbind res_bind].
  set (e0 := setEligible e x). set (pending := slots e0 _).
  assert (Hpend : ∀ r, r ∈ pending ↔ needed e r ∧ ∃ n, zget (nodes e) r = Some (Some n)).
  { intros r. unfold pending, e0. rewrite pending_spec. by rewrite Hx. }
  pose proof (finish_loop_ok o e0 Hres Hem (S (length pending)) [] pending) as Hloop.
  assert (Hpass : passing e0 [] pending).
  { split; simpl.
    - apply slots_nodup.
    - intros r Hr'. by apply Hpend in Hr' as [_ ?].
    - intros r d n Hr' He Hn. apply Hpend in Hr' as [Hn' _]. apply Hpend. split; [by eapply needed_edge|by exists n].
    - intros [|] ? ? ? [=]. }
  specialize (Hloop Hpass ltac:(lia)). cbn [emitMany foldl app] in Hloop.
  destruct (finish_loop _ (keepGoing o) e0 pending) as [e1| |]; cbn [mbind res_bind]; [..|done].
  2:{ destruct Hloop as [Hk (r & Hr' & Hb)]. split; [done|]. apply Hpend in Hr' as [? [n ?]]. exists r, n.
      unfold e0 in Hb. by rewrite buildable_eligible in Hb. }
  destruct Hloop as (order & stuck & Hperm & Hfirst & Hbuilt & Hstuck & Hcase).
  unfold e0 in Hbuilt, Hstuck. setoid_rewrite buildable_eligible in Hbuilt. setoid_rewrite buildable_eligible in Hstuck.
  assert (Hin : ∀ r, r ∈ pending ↔ r ∈ order ∨ r ∈ stuck) by (intros r; rewrite Hperm; apply elem_of_app).
  assert (Horder : ∀ r, r ∈ order ↔ needed e r ∧ buildable e r).
  { intros r. split.
    - intros Ho. split; [|by apply Hbuilt]. by apply Hpend, Hin; left.
    - intros [Hn Hb]. assert (∃ n, zget (nodes e) r = Some (Some n)) as [n Hr'] by (destruct Hb; eauto).
      destruct (proj1 (Hin r)) as [?|Hs]; [|done|].
      + apply Hpend. split; [done|by exists n].
      + by destruct (Hstuck r Hs). }
  assert (He1 : emitted e1 = order ∧ (∀ r, r ∈ results e1 → r ∈ results e ∧ (stuck = [] ∨ r ∈ order)) ∧
    (∀ r, r ∈ exportEligible e1 → needed e r ∧ r ∉ stuck) ∧ nodes e1 = nodes e).
  { destruct (emitMany_frame e0 order) as (Hn & _ & _ & Hel & Hrs & _ & Hemm & Hreso).
    destruct Hcase as [[-> ->]|[_ ->]]; simpl.
    - rewrite Hemm, Hrs, Hel, Hn. simpl. rewrite Hem. split; [done|]. split; [|split; [|done]].
      + intros r Hr'. split; [done|by left].
      + intros r Hr'%Hx. split; [done|set_solver].
    - rewrite Hemm, Hrs, Hel, Hn. simpl. rewrite Hem. split; [done|]. split; [|split; [|done]].
      + intros r [Hr1 Hr2]%list_elem_of_filter. rewrite Hreso in Hr1. simpl in Hr1. rewrite Hres in Hr1. split; [done|set_solver].
      + intros r [Hr1%Hx Hr2]%elem_of_difference. split; [done|set_solver]. }
  destruct He1 as (Hemit & Hresults & Helig & Hnodes).
  set (e2 := if addModulesToResults o then _ else e1).
  assert (He2 : emitted e2 = order ∧ ∀ r, r ∈ results e2 → r ∈ order ∨ zget (nodes e) r = Some None).
  { assert (Hold : ∀ r, r ∈ results e1 → r ∈ order ∨ zget (nodes e) r = Some None).
    { intros r [Hr' Ho]%Hresults. destruct Ho as [->|?]; [|by left].
      destruct (zget_in (nodes e) r) as [[n|] Hn]; [apply Hr, elem_of_app; by right| |by right].
      left. destruct (proj1 (Hin r)) as [|?%not_elem_of_nil]; [|done|done].
      apply Hpend. split; [|by exists n]. exists r. split; [apply elem_of_app; by right|done]. }
    unfold e2. destruct (addModulesToResults o); [|done].
    destruct (foldl_result_results e1 (slots e1 (λ i n, bool_decide (i ∈ exportEligible e1) &&
      (Module n || bool_decide (i ∈ modules e1))))) as (_ & -> & ->).
    split; [done|]. intros r [?|Hr']%elem_of_app; [by apply Hold|]. apply slots_spec in Hr' as (n & Hn & Hk).
    apply andb_true_iff in Hk as [Hk%bool_decide_eq_true _]. rewrite Hnodes in Hn. left.
    apply Helig in Hk as [Hk Hns']. destruct (proj1 (Hin r)) as [|]; [apply Hpend; split; [done|by exists n]|done|done]. }
  destruct He2 as [Hem2 Hrs2]. destruct (dedupResultRefs_spec ∅ (results e2)) as [Hnd Hded].
  split.
  - rewrite Hem2. assert (Hndp : NoDup (order ++ stuck)) by (rewrite <-Hperm; apply slots_nodup).
    by apply NoDup_app in Hndp as [? _].
  - intros r. by rewrite Hem2.
  - by rewrite Hem2.
  - intros Hk r n Hn Hnode. destruct Hcase as [[-> _]|[Hk' _]]; [|congruence].
    apply Hbuilt. destruct (proj1 (Hin r)) as [|?%not_elem_of_nil]; [apply Hpend; split; [done|by exists n]|done|done].
  - intros r [Hr' _]%Hded. rewrite Hem2. by apply Hrs2.
  - done.
Qed.

(** ** Stripping packages *)

Lemma keptResults_ok e rs : (∀ r, r ∈ rs → in_slots e r) →
  ∃ rs', keptResults e rs = Ok rs' ∧ ∀ r, r ∈ rs' ↔ r ∈ rs ∧ ∃ n, zget (nodes e) r = Some (Some n) ∧ isPackage n = false.
Proof.
  induction rs as [|r rs IH]; intros Hin; [exists []; split; [done|set_solver]|].
  destruct IH as (rs' & Hrs & Hs); [set_solver|]. destruct (zget_in (nodes e) r) as [o Ho]; [apply Hin; set_solver|].
  simpl. unfold nodeAt. rewrite Ho, Hrs. cbn [lift mbind res_bind]. eexists. split; [done|]. intros x.
  set (P x := ∃ n, zget (nodes e) x = Some (Some n) ∧ isPackage n = false) in *.
  assert (HP : P r ↔ ∃ n, o = Some n ∧ isPackage n = false).
  { unfold P. rewrite Ho. split; [intros (n & ? & ?); simplify_eq; eauto|intros (n & -> & ?); eauto]. }
  change (x ∈ match o with Some n => if isPackage n then rs' else r :: rs' | None => rs' end ↔ x ∈ r :: rs ∧ P x).
  rewrite elem_of_cons. destruct o as [n|]; [destruct (isPackage n) eqn:Hp|]; rewrite ?elem_of_cons, Hs.
  - split; [tauto|]. intros [[->|?] HPx]; [|done]. apply HP in HPx as (m & ? & ?). simplify_eq. congruence.
  - split; [intros [->|[? ?]]; [split; [by left|apply HP; eauto]|tauto]|tauto].
  - split; [tauto|]. intros [[->|?] HPx]; [|done]. by apply HP in HPx as (m & ? & ?).
Qed.

(** What is left of [e] once only [rs] is wanted. *)
Lemma strip_nodes e (live : gset Z) r :
  zget (imap (λ i o, if decide (Z.of_nat i ∈ live) then o else None) (nodes e)) r =
  (λ o : option Node, if decide (r ∈ live) then o else None) <$> zget (nodes e) r.
Proof.
  unfold zget. case_bool_decide as Hr; [|done]. rewrite list_lookup_imap. by rewrite Z2Nat.id by lia.
Qed.

Lemma strip_ok e :
  refs_ok e → (∀ r, r ∈ results e → in_slots e r) →
  (∀ root r n, root ∈ results e → zget (nodes e) root = Some (Some n) → rtc (edge e) root r →
     ∃ m, zget (nodes e) r = Some (Some m)) →
  ∃ e1, stripPackageResults e = Ok e1 ∧
    (∀ r, r ∈ results e1 ↔ r ∈ results e ∧ ∃ n, zget (nodes e) r = Some (Some n) ∧ isPackage n = false) ∧
    ∀ r, zget (nodes e1) r = Some None ∨ zget (nodes e1) r = zget (nodes e) r ∧
      (∀ n, zget (nodes e) r = Some (Some n) → ∃ root, root ∈ results e1 ∧ rtc (edge e) root r).
Proof.
  intros [Hd Hr] Hrs Hfull. destruct (keptResults_ok e (results e) Hrs) as (rs & Hk & Hin).
  unfold stripPackageResults. rewrite Hk. cbn [mbind res_bind].
  destruct (live_loop_ok e rs Hd) with (fuel := reach_fuel e rs) (visited := (∅ : gset Z)) (stack := reverse rs)
    as (live & Hll & Hlive).
  - intros r [Hin' _]%Hin. by apply Hrs.
  - intros r (root & Hroot & Hp). apply Hin in Hroot as [Hroot (n & Hn & _)]. by eapply Hfull.
  - apply searching_start.
  - unfold reach_fuel. rewrite length_reverse, unseen_all. lia.
  - rewrite Hll. cbn [mbind res_bind]. eexists. split; [done|]. split; [done|]. intros r. simpl. rewrite strip_nodes.
    destruct (zget (nodes e) r) as [o|] eqn:Ho; simpl; [|by right].
    destruct (decide (r ∈ live)) as [Hl|]; [right|by left]. split; [done|]. intros n _. by apply Hlive.
Qed.

Lemma strip_refs_ok e e1 : refs_ok e → stripPackageResults e = Ok e1 →
  refs_ok e1 ∧ resolved e1 = resolved e ∧ emitted e1 = emitted e.
Proof.
  intros [Hd Hr]. unfold stripPackageResults. intros (rs & Hk & Hrest)%res_bind_Ok.
  apply res_bind_Ok in Hrest as (live & Hl & [= <-]). split; [|done].
  assert (Hsub : ∀ r, r ∈ rs → r ∈ results e).
  { clear Hl. revert rs Hk. induction (results e) as [|x xs IH]; intros rs; simpl; [intros [= <-]; done|].
    intros (o & _ & (rest & Hrest & [= <-])%res_bind_Ok)%res_bind_Ok. specialize (IH rest Hrest).
    intros r Hin. destruct o as [n|]; [destruct (isPackage n)|]; set_solver. }
  split.
  - intros r d (n & Hn & Hin). simpl in Hn, Hin. rewrite strip_nodes in Hn.
    unfold in_slots. simpl. rewrite length_imap. eapply (Hd r d).
    destruct (zget (nodes e) r) as [o|] eqn:Ho; [|done]. simpl in Hn. exists n. split; [|done].
    rewrite Ho. destruct (decide (r ∈ live)); by simplify_eq.
  - intros r Hin. unfold in_slots. simpl. rewrite length_imap. apply Hr. unfold publicationFrontier in *. simpl in Hin.
    apply elem_of_app. apply elem_of_app in Hin as [?|?]; [by left|right; by apply Hsub].
Qed.

(** C2: finishing terminates, and hands over exactly the needed nodes below
    which there is no dependency cycle and no slot left empty: each once, after
    its dependencies.  It throws exactly when the emitter is strict and a needed
    node is not among them; the results it returns are distinct and handed over,
    apart from results whose slot is empty. *)
Theorem finish_topological o e e1 :
  refs_ok e → resolved e = ∅ → emitted e = [] →
  (if stripPackagesFromResults o then stripPackageResults e else Ok e) = Ok e1 →
  match finish o e with
  | Ok (e', rs) => handed_over o e1 e' rs
  | Throw => keepGoing o = false ∧ ∃ r n, needed e1 r ∧ zget (nodes e1) r = Some (Some n) ∧ ¬ buildable e1 r
  | NoFuel => False
  end.
Proof.
  intros Hok Hres Hem He1. set (o' := mkOptions (addModulesToResults o) false (keepGoing o)).
  assert (Hfin : finish o e = finish o' e1) by (unfold finish; rewrite He1; reflexivity). rewrite Hfin.
  assert (refs_ok e1 ∧ resolved e1 = ∅ ∧ emitted e1 = []) as (Hok1 & Hres1 & Hem1).
  { destruct (stripPackagesFromResults o); [|injection He1 as <-; split_and!; done].
    destruct (strip_refs_ok e e1 Hok He1) as (? & -> & ->). by split_and!. }
  pose proof (finish_unstripped o' e1 Hok1 Hres1 Hem1 eq_refl) as Hu.
  destruct (finish o' e1) as [[e' rs]| |]; [|done..]. by destruct Hu.
Qed.

(** Three nodes emitted in the wrong order, and two in a cycle. *)
Definition sample : res Emitter :=
  let node deps := mkNode deps [] [] [] [] [7] false false in
  let '(e, a) := reserve newStreamingEmitter in
  '(e, b) ← emit e (node [a]);
  '(e, c) ← emit e (node [b; a]);
  let '(e, x) := reserve e in
  '(e, y) ← emit e (node [x]);
  e ← emitReserved e (node [y]) x;
  e ← emitReserved e (node []) a;
  Ok (result e c).

Lemma finish_topological_witness :
  ∃ e e', sample = Ok e ∧ finish (mkOptions false false true) e = Ok (e', [2]) ∧ emitted e' = [0; 1; 2] ∧
    finish (mkOptions false false false) e = Throw.
Proof.
  assert (Hs : ∃ e, sample = Ok e) by (vm_compute; eexists; reflexivity). destruct Hs as [e Hs].
  assert (Hok : refs_ok e).
  { vm_compute in Hs. injection Hs as <-. split.
    - intros r d (n & Hn & Hd).
      assert (HF : Forall (λ o, Forall (λ d, 0 <= d < 5) (match o with Some n => buildDeps ∅ n | None => [] end))
        [Some (mkNode [] [] [] [] [] [7] false false); Some (mkNode [0] [] [] [] [] [7] false false);
         Some (mkNode [1; 0] [] [] [] [] [7] false false); Some (mkNode [4] [] [] [] [] [7] false false);
         Some (mkNode [3] [] [] [] [] [7] false false)]).
      { apply (bool_decide_unpack _). vm_compute. exact I. }
      unfold zget in Hn. case_bool_decide; [|done]. simpl in Hn. rewrite Forall_lookup in HF.
      specialize (HF _ _ Hn). simpl in HF. rewrite Forall_forall in HF. by apply HF.
    - intros r Hr. assert (HF : Forall (λ r, 0 <= r < 5) [1; 2; 4; 3; 0; 2]).
      { apply (bool_decide_unpack _). vm_compute. exact I. }
      rewrite Forall_forall in HF. by apply HF. }
  pose proof (finish_topological (mkOptions false false true) e e Hok) as Hfin.
  vm_compute in Hs. injection Hs as <-. specialize (Hfin eq_refl eq_refl eq_refl).
  eexists _, _. split; [vm_compute; reflexivity|]. split; [vm_compute; reflexivity|]. split; vm_compute; reflexivity.
Defined.
