(* ===== verification/ExecutorProofs.v ===== *)
(** * The executor: invariants, progress and termination

    The steps of the goroutines as a relation, the invariant of all reachable
    states by cases on the steps, and from it the theorems about schedules. *)

From S2P Require Import Prelude Executor.
Local Open Scope Z_scope.

Section exec.
Context (c : Config).
Implicit Types (s : State) (g : Goroutine).

(** ** Steps *)

Definition stopped g : bool := match ctl g with Stop => true | _ => false end.

(** What a step of a goroutine does to it and to the shared state. *)
Inductive move s (io : IO) : Goroutine → Goroutine → State → Prop :=
| m_unknown r st : futs s !! r = None → move s io (mkG (Visit r) st) (mkG (Return true) st) s
| m_enter r st : futs s !! r = Some Fresh →
    move s io (mkG (Visit r) st) (mkG (Deps r (deps c r)) st) (setOnce s r Running)
| m_done r st e : futs s !! r = Some (Done e) → move s io (mkG (Visit r) st) (mkG (Return e) st) s
| m_deps_end r st : move s io (mkG (Deps r []) st) (mkG (Sema r) st) s
| m_dep r d ds st : move s io (mkG (Deps r (d :: ds)) st) (mkG (Visit d) (FNode r ds :: st)) s
| m_dep_failed r ds st : move s io (mkG (Return true) (FNode r ds :: st)) (mkG (Finish r true) st) s
| m_dep_ok r ds st : move s io (mkG (Return false) (FNode r ds :: st)) (mkG (Deps r ds) st) s
| m_root e rs st : move s io (mkG (Return e) (FRoots rs :: st)) (mkG (Roots rs) st) s
| m_fired e : move s io (mkG (Return e) []) (mkG Stop []) s
| m_sema r st : (sema s < threads c)%nat →
    move s io (mkG (Sema r) st) (mkG (Lock r) st) (setSema s (S (sema s)))
| m_lock r st : io = IoOk → uid c r ∉ locks s →
    move s io (mkG (Lock r) st) (mkG (Work r) st) (setLocks s ({[uid c r]} ∪ locks s))
| m_nolock r st : io ≠ IoOk → move s io (mkG (Lock r) st) (mkG (Release r true) st) s
| m_work r st s1 e : work c s r io = (s1, e) → move s io (mkG (Work r) st) (mkG (Unlock r e) st) s1
| m_unlock r e st : move s io (mkG (Unlock r e) st) (mkG (Release r e) st) (setLocks s (locks s ∖ {[uid c r]}))
| m_release r e st : move s io (mkG (Release r e) st) (mkG (Finish r e) st) (setSema s (sema s - 1))
| m_finish r e st : move s io (mkG (Finish r e) st) (mkG (Return e) st)
    (setOnce (count s 1 (if e && keepGoing c then 1 else 0)) r (Done e))
| m_gen r todo st : move s io (mkG (Gen (r :: todo)) st) (mkG (Gen todo) st) (onNode s r)
| m_gen_end st : move s io (mkG (Gen []) st) (mkG Sync st) (flushPrepBatch s)
| m_sync st : queue s = [] → move s io (mkG Sync st) (mkG (Roots (roots c)) st) s
| m_visit_root r rs st : move s io (mkG (Roots (r :: rs)) st) (mkG (Visit r) [FRoots rs]) s
| m_roots_end st : move s io (mkG (Roots []) st) (mkG Wait []) s
| m_wait st : Forall (λ g, stopped g = true) (drop 1 (gs s)) → move s io (mkG Wait st) (mkG Stop []) s.

Lemma goStep_move s i io s' :
  goStep c s i io = Some s' →
  (s' = exit s ∧ keepGoing c = false ∧ ∃ st, gs s !! i = Some (mkG (Return true) st)) ∨
  ∃ g g' s1, gs s !! i = Some g ∧ move s io g g' s1 ∧ s' = setG s1 i g'.
Proof.
  unfold goStep. destruct (gs s !! i) as [[k st]|] eqn:Hg; [|done]. cbn [mbind option_bind ctl stack].
  assert (Hk : ∀ g' s1, move s io (mkG k st) g' s1 → Some (setG s1 i g') = Some s' →
    (s' = exit s ∧ keepGoing c = false ∧ ∃ st', Some (mkG k st) = Some (mkG (Return true) st')) ∨
    ∃ g g' s1, Some (mkG k st) = Some g ∧ move s io g g' s1 ∧ s' = setG s1 i g').
  { intros g' s1 Hm [= <-]. right. eauto 10. }
  destruct k as [r|r [|d ds]|r|r|r|r e|r e|r e|e|[|r todo]| |[|r rs]| |].
  - destruct (futs s !! r) as [[| |e]|] eqn:Ho; intros H; [|done|..]; (eapply Hk; [|exact H]); by constructor.
  - apply Hk. constructor.
  - apply Hk. constructor.
  - case_decide; [|done]. apply Hk. by constructor.
  - destruct io; [|apply Hk; by constructor..]. case_decide; [done|]. apply Hk. by constructor.
  - destruct (work c s r io) as [s1 e] eqn:Hw. apply Hk. by constructor.
  - apply Hk. constructor.
  - apply Hk. constructor.
  - apply Hk. constructor.
  - destruct st as [|[r ds|rs] st].
    + destruct e; simpl; [destruct (keepGoing c) eqn:Hkg; simpl|]; [apply Hk; constructor|intros [= <-]; left; eauto|
        apply Hk; constructor].
    + destruct e; apply Hk; constructor.
    + destruct e; simpl; [destruct (keepGoing c) eqn:Hkg; simpl|]; [apply Hk; constructor|intros [= <-]; left; eauto|
        apply Hk; constructor].
  - apply Hk. constructor.
  - apply Hk. constructor.
  - case_decide; [|done]. apply Hk. by constructor.
  - apply Hk. constructor.
  - apply Hk. constructor.
  - destruct (forallb _ _) eqn:Hf; [|done]. apply Hk. constructor. apply Forall_forall. intros g Hgin.
    rewrite forallb_forall in Hf. apply (Hf g). by apply list_elem_of_In.
  - done.
Qed.

(** ** The invariant *)

Definition own_ctl (k : Ctl) : list Z :=
  match k with
  | Deps r _ | Sema r | Lock r | Work r | Unlock r _ | Release r _ | Finish r _ => [r]
  | _ => []
  end.
Definition own_frame (f : Frame) : list Z := match f with FNode r _ => [r] | FRoots _ => [] end.

(** The nodes whose once.Do a goroutine is in. *)
Definition own g : list Z := own_ctl (ctl g) ++ (stack g ≫= own_frame).

Definition holds g : bool :=
  match ctl g with Lock _ | Work _ | Unlock _ _ | Release _ _ => true | _ => false end.

Definition locked g : option Z :=
  match ctl g with Work r | Unlock r _ => Some (uid c r) | _ => None end.

Definition ok_deps (F : gmap Z Once) (ds : list Z) : Prop := ∀ d, d ∈ ds → F !! d = Some (Done false).

(** The frames below a visit of [cur]. *)
Fixpoint wf_stack (F : gmap Z Once) (cur : Z) (st : list Frame) : Prop :=
  match st with
  | [] => True
  | FNode r ds :: st => (∃ pre, deps c r = pre ++ cur :: ds ∧ ok_deps F pre) ∧ wf_stack F r st
  | FRoots rs :: st => st = [] ∧ rs ⊆ roots c
  end.

Definition wf_g (prep : list Z) (F : gmap Z Once) g : Prop :=
  match ctl g with
  | Visit r => r ∈ prep ∧ wf_stack F r (stack g)
  | Deps r ds => (∃ pre, deps c r = pre ++ ds ∧ ok_deps F pre) ∧ wf_stack F r (stack g)
  | Sema r | Lock r | Work r | Unlock r _ | Release r _ => ok_deps F (deps c r) ∧ wf_stack F r (stack g)
  | Finish r e => (e = false → ok_deps F (deps c r)) ∧ wf_stack F r (stack g)
  | Return e => ∃ cur, F !! cur = Some (Done e) ∧ wf_stack F cur (stack g)
  | Roots rs => rs ⊆ roots c ∧ stack g = []
  | Gen _ | Sync | Wait | Stop => stack g = []
  end.

(** Only the first goroutine is main. *)
Definition not_main g : Prop :=
  match ctl g with Gen _ | Sync | Roots _ | Wait => False | _ => True end ∧ Forall (λ f, ∀ rs, f ≠ FRoots rs) (stack g).

Context (order : list Z).

Definition arrived (prep : list Z) s g : Prop :=
  match ctl g with
  | Gen todo => order = prep ++ queue s ++ prepBatch s ++ todo
  | Sync => order = prep ++ queue s ∧ prepBatch s = []
  | _ => order = prep ∧ queue s = [] ∧ prepBatch s = []
  end.

Record inv (prep : list Z) s : Prop := {
  iv_main : ∃ g, gs s !! 0%nat = Some g ∧ arrived prep s g;
  iv_fire : ∀ i g, i ≠ 0%nat → gs s !! i = Some g → not_main g;
  iv_dom : ∀ r, is_Some (futs s !! r) ↔ r ∈ prep ++ queue s ++ prepBatch s;
  iv_fresh : ∀ r, r ∈ queue s ++ prepBatch s → futs s !! r = Some Fresh;
  iv_wf : ∀ i g, gs s !! i = Some g → wf_g prep (futs s) g;
  iv_own : ∀ i g r, gs s !! i = Some g → r ∈ own g → futs s !! r = Some Running;
  iv_owner : ∀ r, futs s !! r = Some Running → ∃ i g, gs s !! i = Some g ∧ r ∈ own g;
  iv_unique : ∀ i j g g' r, gs s !! i = Some g → gs s !! j = Some g' → r ∈ own g → r ∈ own g' → i = j;
  iv_nodup : ∀ i g, gs s !! i = Some g → NoDup (own g);
  iv_sema : sema s = length (filter (λ g, holds g = true) (gs s)) ∧ (sema s <= threads c)%nat;
  iv_locks : ∀ u, u ∈ locks s ↔ ∃ i g, gs s !! i = Some g ∧ locked g = Some u;
  iv_one_lock : ∀ i j g g' u, gs s !! i = Some g → gs s !! j = Some g' → locked g = Some u → locked g' = Some u → i = j;
  iv_ran : ∀ r, r ∈ ran s → ok_deps (futs s) (deps c r) ∧
    (futs s !! r = Some (Done false) ∨
     ∃ i g, gs s !! i = Some g ∧ (ctl g = Unlock r false ∨ ctl g = Release r false ∨ ctl g = Finish r false));
  iv_ran_nodup : NoDup (ran s) }.

(** ** Steps keep the invariant *)

Lemma move_gs s io g g' s1 : move s io g g' s1 → gs s1 = gs s.
Proof.
  destruct 1 as [| | | | | | | | | | | |r st s1 e Hw| | | |r todo st| | | | |]; try done.
  - unfold work in Hw. case_decide; [by simplify_eq|]. destruct io; [|by simplify_eq|]; simplify_eq.
    + destruct (forallb _ _); by simplify_eq.
    + by case_bool_decide.
  - unfold onNode. destruct (_ <=? _); [|done]. unfold flushPrepBatch. by case_decide.
  - unfold flushPrepBatch. by case_decide.
Qed.

Lemma lookup_setG s io g g' s1 i j x :
  move s io g g' s1 → gs s !! i = Some g → gs (setG s1 i g') !! j = Some x →
  (j = i ∧ x = g') ∨ (j ≠ i ∧ gs s !! j = Some x).
Proof.
  intros Hm Hi. simpl. rewrite (move_gs _ _ _ _ _ Hm), list_lookup_insert_Some. naive_solver.
Qed.

Lemma lookup_setG_2 s io g g' s1 i j x :
  move s io g g' s1 → gs s !! i = Some g → (j = i ∧ x = g') ∨ (j ≠ i ∧ gs s !! j = Some x) →
  gs (setG s1 i g') !! j = Some x.
Proof.
  intros Hm Hi. simpl. rewrite (move_gs _ _ _ _ _ Hm), list_lookup_insert_Some.
  apply lookup_lt_Some in Hi. naive_solver.
Qed.

Lemma filter_insert_length {A} (P : A → bool) (l : list A) i x y :
  l !! i = Some x →
  (length (filter (λ a, P a = true) (<[i := y]> l)) + Nat.b2n (P x) = length (filter (λ a, P a = true) l) + Nat.b2n (P y))%nat.
Proof.
  revert i. induction l as [|a l IH]; intros [|i] Hi; simplify_eq/=.
  - rewrite !filter_cons. destruct (P x) eqn:Hx, (P y) eqn:Hy; simpl; lia.
  - rewrite !filter_cons. specialize (IH i Hi). case_decide; simpl; lia.
Qed.

Definition grows (F F' : gmap Z Once) : Prop := ∀ d e, F !! d = Some (Done e) → F' !! d = Some (Done e).

Lemma ok_deps_mono F F' ds : grows F F' → ok_deps F ds → ok_deps F' ds.
Proof. intros HF H d Hd. by apply HF, H. Qed.

Lemma wf_stack_mono F F' cur st : grows F F' → wf_stack F cur st → wf_stack F' cur st.
Proof.
  intros HF. revert cur. induction st as [|[r ds|rs] st IH]; intros cur; simpl; [done| |done].
  intros [(pre & Hd & Hok) Hst]. split; [|by apply IH]. exists pre. split; [done|by eapply ok_deps_mono].
Qed.

Lemma wf_g_mono prep prep' F F' g : grows F F' → prep ⊆ prep' → wf_g prep F g → wf_g prep' F' g.
Proof.
  intros HF Hp. pose proof (λ cur st, wf_stack_mono F F' cur st HF) as Hst.
  pose proof (λ ds, ok_deps_mono F F' ds HF) as Hok. unfold wf_g. destruct (ctl g); naive_solver.
Qed.

(** What happens to the once cells, and to the nodes the goroutine is in. *)
Inductive touch s g g' s1 : Prop :=
| t_enter r : futs s !! r = Some Fresh → ctl g = Visit r → own g' = r :: own g → futs s1 = <[r := Running]> (futs s) →
    touch s g g' s1
| t_finish r e : ctl g = Finish r e → own g = r :: own g' → futs s1 = <[r := Done e]> (futs s) → touch s g g' s1
| t_new r todo : futs s !! r = None → ctl g = Gen (r :: todo) → own g' = own g → futs s1 = <[r := Fresh]> (futs s) → touch s g g' s1
| t_none : own g' = own g → futs s1 = futs s → touch s g g' s1.

Lemma work_frame s io r s2 e : work c s r io = (s2, e) →
  futs s2 = futs s ∧ queue s2 = queue s ∧ prepBatch s2 = prepBatch s ∧ sema s2 = sema s ∧ locks s2 = locks s.
Proof.
  unfold work. case_decide; [by intros [= <- _]|]. destruct io.
  - destruct (forallb _ _); by intros [= <- _].
  - by intros [= <- _].
  - case_bool_decide; by intros [= <- _].
Qed.

Lemma flush_frame s0 : futs (flushPrepBatch s0) = futs s0 ∧ sema (flushPrepBatch s0) = sema s0 ∧
  locks (flushPrepBatch s0) = locks s0 ∧ ran (flushPrepBatch s0) = ran s0 ∧
  queue (flushPrepBatch s0) ++ prepBatch (flushPrepBatch s0) = queue s0 ++ prepBatch s0 ∧
  prepBatch (flushPrepBatch s0) = [].
Proof. unfold flushPrepBatch. case_decide as Hb; simpl; split_and!; try done. by rewrite app_nil_r. Qed.

Lemma onNode_frame s r : futs (onNode s r) = <[r := Fresh]> (futs s) ∧ sema (onNode s r) = sema s ∧
  locks (onNode s r) = locks s ∧ ran (onNode s r) = ran s ∧
  queue (onNode s r) ++ prepBatch (onNode s r) = (queue s ++ prepBatch s) ++ [r].
Proof.
  unfold onNode. cbv zeta. destruct (_ <=? _); [|simpl; split_and!; try done; by rewrite app_assoc].
  match goal with |- context [flushPrepBatch ?x] => destruct (flush_frame x) as (-> & -> & -> & -> & -> & _) end.
  simpl. split_and!; try done. by rewrite app_assoc.
Qed.

Context (Hnd : NoDup order).
Context (Hfirst : ∀ l1 r l2 d, order = l1 ++ r :: l2 → d ∈ deps c r → d ∈ l1).
Context (Hroots : roots c ⊆ order).

Lemma arrived_prefix prep s g : arrived prep s g → ∃ rest, order = prep ++ rest.
Proof.
  unfold arrived. destruct (ctl g); naive_solver (eauto using app_nil_r).
Qed.

Lemma prefix_deps prep rest r d : order = prep ++ rest → r ∈ prep → d ∈ deps c r → d ∈ prep.
Proof.
  intros Ho (l1 & l2 & ->)%list_elem_of_split Hd. assert (d ∈ l1); [|set_solver].
  apply (Hfirst l1 r (l2 ++ rest) d); [|done]. by rewrite Ho, <-app_assoc.
Qed.

Section step.
Context (prep : list Z) (s : State) (Hs : inv prep s).

Lemma running_prep r : futs s !! r = Some Running → r ∈ prep.
Proof.
  intros Hr. assert (Hin : r ∈ prep ++ queue s ++ prepBatch s) by (apply (iv_dom _ _ Hs); eauto).
  apply elem_of_app in Hin as [?|Hq]; [done|]. apply (iv_fresh _ _ Hs) in Hq. congruence.
Qed.

Lemma own_prep i g r : gs s !! i = Some g → r ∈ own g → r ∈ prep.
Proof. intros Hg Hr. eapply running_prep, iv_own; eauto. Qed.

Lemma prep_deps r d : r ∈ prep → d ∈ deps c r → d ∈ prep.
Proof.
  destruct (iv_main _ _ Hs) as (g & _ & Ha). destruct (arrived_prefix _ _ _ Ha) as [rest Ho]. by eapply prefix_deps.
Qed.

Lemma next_new g r todo : gs s !! 0%nat = Some g → ctl g = Gen (r :: todo) → futs s !! r = None.
Proof.
  intros Hg Hk. destruct (iv_main _ _ Hs) as (g0 & Hg0 & Ha). simplify_eq. unfold arrived in Ha. rewrite Hk in Ha.
  destruct (futs s !! r) eqn:Hr; [|done]. assert (Hin : r ∈ prep ++ queue s ++ prepBatch s) by (apply (iv_dom _ _ Hs); eauto).
  exfalso. clear Hfirst Hroots. rewrite Ha in Hnd. rewrite !app_assoc in Hnd. apply NoDup_app in Hnd as (_ & Hdis & _).
  apply (Hdis r); [|set_solver]. by rewrite <-app_assoc.
Qed.

(** A step of goroutine [i]. *)
Section move.
Context (i : nat) (io : IO) (g g' : Goroutine) (s1 : State).
Context (Hg : gs s !! i = Some g) (Hm : move s io g g' s1).

Lemma main_only : (match ctl g with Gen _ | Sync | Roots _ | Wait => True | _ => False end ∨
  ∃ rs, FRoots rs ∈ stack g) → i = 0%nat.
Proof.
  intros Hmain. destruct (decide (i = 0%nat)) as [|Hne]; [done|]. destruct (iv_fire _ _ Hs i g Hne Hg) as [Hk Hst].
  destruct Hmain as [Hk'|[rs Hrs]]; [by destruct (ctl g)|]. rewrite Forall_forall in Hst. by destruct (Hst _ Hrs rs).
Qed.

Lemma move_touch : touch s g g' s1.
Proof.
  pose proof (iv_wf _ _ Hs i g Hg) as Hwf. pose proof main_only as Hmain. pose proof Hg as Hgi.
  destruct Hm as [| | | | | | | |e| | | |r st s2 e Hw| | | |r todo st| | | | |];
    try (by apply t_none); try (by eapply t_enter); try (by eapply t_finish).
  - apply t_none; [done|]. by apply work_frame in Hw as (-> & _).
  - destruct (onNode_frame s r) as (Hf & _). apply (t_new _ _ _ _ r todo); [|done..].
    rewrite Hmain in Hgi by (by left). by eapply next_new.
  - apply t_none; [done|]. apply flush_frame.
  - destruct Hwf as [_ Hst]. simpl in Hst. subst. by apply t_none.
  - destruct Hwf as [_ Hst]. simpl in Hst. subst. by apply t_none.
  - unfold wf_g in Hwf. simpl in Hwf. subst. by apply t_none.
Qed.

Lemma own_running r : r ∈ own g → futs s !! r = Some Running.
Proof. by apply (iv_own _ _ Hs i). Qed.

Lemma touch_grows : grows (futs s) (futs s1).
Proof.
  intros d e Hd. destruct move_touch as [r Hr _ _ ->|r e' _ Hown ->|r todo Hr _ _ ->|_ ->]; [..|done].
  - rewrite lookup_insert_ne; [done|congruence].
  - rewrite lookup_insert_ne; [done|]. intros ->. rewrite own_running in Hd by (rewrite Hown; set_solver). done.
  - rewrite lookup_insert_ne; [done|congruence].
Qed.

Lemma keep_own j x r : gs (setG s1 i g') !! j = Some x → r ∈ own x → futs s1 !! r = Some Running.
Proof.
  intros Hx Hr. destruct (lookup_setG _ _ _ _ _ _ _ _ Hm Hg Hx) as [[-> ->]|[Hj Hx']].
  - destruct move_touch as [q Hq _ Ho ->|q e _ Ho ->|q todo Hq _ Ho ->|Ho ->].
    + rewrite Ho in Hr. apply elem_of_cons in Hr as [->|Hr]; [apply lookup_insert_eq|].
      rewrite lookup_insert_ne; [by apply own_running|]. intros ->. rewrite own_running in Hq; done.
    + pose proof (iv_nodup _ _ Hs i g Hg) as Hn. rewrite Ho in Hn. apply NoDup_cons in Hn as [Hn _].
      rewrite lookup_insert_ne by (intros ->; done). apply own_running. rewrite Ho. by right.
    + rewrite Ho in Hr. rewrite lookup_insert_ne; [by apply own_running|]. intros ->. rewrite own_running in Hq; done.
    + apply own_running. by rewrite <-Ho.
  - pose proof (iv_own _ _ Hs j x r Hx' Hr) as Hrun.
    destruct move_touch as [q Hq _ Ho ->|q e _ Ho ->|q todo Hq _ Ho ->|Ho ->]; [rewrite lookup_insert_ne; [done|congruence]| |
      rewrite lookup_insert_ne; [done|congruence]|done].
    rewrite lookup_insert_ne; [done|]. intros ->. apply Hj. symmetry.
    eapply (iv_unique _ _ Hs i j); [done..| |done]. rewrite Ho. set_solver.
Qed.

Lemma keep_owner r : futs s1 !! r = Some Running → ∃ j x, gs (setG s1 i g') !! j = Some x ∧ r ∈ own x.
Proof.
  assert (Hold : futs s !! r = Some Running → (r ∈ own g → r ∈ own g') →
    ∃ j x, gs (setG s1 i g') !! j = Some x ∧ r ∈ own x).
  { intros Hr Himp. destruct (iv_owner _ _ Hs r Hr) as (j & x & Hx & Hin). destruct (decide (j = i)) as [->|Hj].
    - simplify_eq. exists i, g'. split; [|by apply Himp]. eapply lookup_setG_2; [done..|by left].
    - exists j, x. split; [|done]. eapply lookup_setG_2; [done..|by right]. }
  destruct move_touch as [q Hq _ Ho ->|q e _ Ho ->|q todo Hq _ Ho ->|Ho ->].
  - rewrite lookup_insert_Some. intros [[<- _]|[_ Hr]].
    + exists i, g'. split; [eapply lookup_setG_2; [done..|by left]|]. rewrite Ho. set_solver.
    + apply Hold; [done|]. rewrite Ho. set_solver.
  - rewrite lookup_insert_Some. intros [[_ [=]]|[Hne Hr]]. apply Hold; [done|]. rewrite Ho. set_solver.
  - rewrite lookup_insert_Some. intros [[_ [=]]|[Hne Hr]]. apply Hold; [done|]. by rewrite Ho.
  - intros Hr. apply Hold; [done|]. by rewrite Ho.
Qed.

Lemma keep_unique j k x y r :
  gs (setG s1 i g') !! j = Some x → gs (setG s1 i g') !! k = Some y → r ∈ own x → r ∈ own y → j = k.
Proof.
  assert (Hne : ∀ k y, k ≠ i → gs s !! k = Some y → r ∈ own g' → r ∈ own y → False).
  { intros k' y' Hk Hy' Hr Hr'. pose proof (iv_own _ _ Hs k' y' r Hy' Hr') as Hrun.
    assert (Hin : r ∈ own g → False) by (intros Hin; apply Hk; by eapply (iv_unique _ _ Hs k' i)).
    destruct move_touch as [q Hq _ Ho _|q e _ Ho _|q todo Hq _ Ho _|Ho _].
    - rewrite Ho in Hr. apply elem_of_cons in Hr as [->|?]; [congruence|auto].
    - apply Hin. rewrite Ho. by right.
    - apply Hin. by rewrite <-Ho.
    - apply Hin. by rewrite <-Ho. }
  intros Hx Hy Hrx Hry. destruct (lookup_setG _ _ _ _ _ _ _ _ Hm Hg Hx) as [[-> ->]|[Hj Hx']],
    (lookup_setG _ _ _ _ _ _ _ _ Hm Hg Hy) as [[-> ->]|[Hk Hy']]; [done| | |].
  - by destruct (Hne k y).
  - by destruct (Hne j x).
  - by eapply (iv_unique _ _ Hs).
Qed.

Lemma keep_nodup j x : gs (setG s1 i g') !! j = Some x → NoDup (own x).
Proof.
  intros Hx. destruct (lookup_setG _ _ _ _ _ _ _ _ Hm Hg Hx) as [[-> ->]|[_ Hx']]; [|by eapply (iv_nodup _ _ Hs)].
  pose proof (iv_nodup _ _ Hs i g Hg) as Hn. destruct move_touch as [q Hq _ Ho _|q e _ Ho _|q todo Hq _ Ho _|Ho _].
  - rewrite Ho. apply NoDup_cons. split; [|done]. intros Hin. rewrite own_running in Hq; done.
  - rewrite Ho in Hn. by apply NoDup_cons in Hn as [_ ?].
  - by rewrite Ho.
  - by rewrite Ho.
Qed.

Lemma keep_fire j x : j ≠ 0%nat → gs (setG s1 i g') !! j = Some x → not_main x.
Proof.
  intros Hj Hx. destruct (lookup_setG _ _ _ _ _ _ _ _ Hm Hg Hx) as [[-> ->]|[_ Hx']]; [|by eapply (iv_fire _ _ Hs)].
  destruct (iv_fire _ _ Hs i g Hj Hg) as [Hk Hst].
  destruct Hm; simpl in *; try done; try (inversion Hst as [|? ? Hf]; subst);
    try (by destruct (Hf rs)); split; try done; simpl; by repeat constructor.
Qed.

Lemma keep_wf j x : gs (setG s1 i g') !! j = Some x → wf_g prep (futs s1) x.
Proof.
  pose proof touch_grows as Hgrow.
  intros Hx. destruct (lookup_setG _ _ _ _ _ _ _ _ Hm Hg Hx) as [[-> ->]|[_ Hx']].
  2:{ apply (wf_g_mono prep prep (futs s)); [done|done|]. by eapply (iv_wf _ _ Hs). }
  pose proof (iv_wf _ _ Hs i g Hg) as Hwf. pose proof (wf_g_mono prep prep _ _ _ Hgrow (reflexivity _) Hwf) as Hwf1.
  pose proof (own_prep i g) as Hprep. pose proof main_only as Hmain.
  destruct Hm; unfold wf_g in Hwf, Hwf1 |- *; simpl in *; try done.
  - exfalso. destruct Hwf as [Hr _]. assert (Hd : is_Some (futs s !! r)) by (apply (iv_dom _ _ Hs), elem_of_app; by left).
    destruct Hd. congruence.
  - split; [|apply Hwf1]. exists []. split; [done|by intros d ?%not_elem_of_nil].
  - exists r. split; [done|apply Hwf1].
  - split; [|apply Hwf1]. destruct Hwf1 as [(pre & -> & Hok) _]. by rewrite app_nil_r.
  - destruct Hwf1 as [(pre & Hd & Hok) Hst]. split; [|split; [by exists pre|done]].
    apply (prep_deps r); [|rewrite Hd; set_solver]. apply Hprep; [done|]. unfold own. simpl. by left.
  - split; [done|]. destruct Hwf1 as (cur & _ & _ & Hst). done.
  - destruct Hwf1 as (cur & Hcur & (pre & Hd & Hok) & Hst). split; [|done]. exists (pre ++ [cur]).
    split; [by rewrite Hd, <-app_assoc|]. intros d [Hin|Hin]%elem_of_app; [by apply Hok|]. by apply list_elem_of_singleton in Hin as ->.
  - destruct Hwf1 as (cur & _ & -> & Hrs). done.
  - destruct Hwf1 as [Hok Hst]. by split.
  - exists r. split; [apply lookup_insert_eq|]. destruct Hwf1 as [_ Hst]. done.
  - destruct Hwf1 as [Hrs ->]. split; [|split; [done|set_solver]].
    destruct (iv_main _ _ Hs) as (g0 & Hg0 & Ha). rewrite Hmain in Hg by (by left). simplify_eq. unfold arrived in Ha.
    simpl in Ha. destruct Ha as [<- _]. apply Hroots, Hrs. set_solver.
Qed.

Lemma keep_sema : sema s1 = length (filter (λ g, holds g = true) (gs (setG s1 i g'))) ∧ (sema s1 <= threads c)%nat.
Proof.
  destruct (iv_sema _ _ Hs) as [Hc Hle]. simpl. rewrite (move_gs _ _ _ _ _ Hm).
  pose proof (filter_insert_length holds (gs s) i g g' Hg) as Hf. rewrite <-Hc in Hf.
  destruct Hm as [| | | | | | | | | | | |r st s2 e Hw| | | |r todo st| | | | |]; simpl in *; try (split; lia).
  - apply work_frame in Hw as (_ & _ & _ & -> & _). split; lia.
  - destruct (onNode_frame s r) as (_ & -> & _). split; lia.
  - destruct (flush_frame s) as (_ & -> & _). split; lia.
Qed.

(** The lock a step takes or gives back. *)
Lemma move_locks : (locked g' = locked g ∧ locks s1 = locks s) ∨
  (∃ u, u ∉ locks s ∧ locked g = None ∧ locked g' = Some u ∧ locks s1 = {[u]} ∪ locks s) ∨
  (∃ u, locked g = Some u ∧ locked g' = None ∧ locks s1 = locks s ∖ {[u]}).
Proof.
  destruct Hm as [| | | | | | | | | |r| |r st s2 e Hw|r| | |r todo st| | | | |]; try (by left).
  - right; left. by exists (uid c r).
  - left. by apply work_frame in Hw as (_ & _ & _ & _ & ->).
  - right; right. by exists (uid c r).
  - left. by destruct (onNode_frame s r) as (_ & _ & -> & _).
  - left. by destruct (flush_frame s) as (_ & _ & -> & _).
Qed.

Lemma keep_locks u : u ∈ locks s1 ↔ ∃ j x, gs (setG s1 i g') !! j = Some x ∧ locked x = Some u.
Proof.
  assert (Hiff : (∃ j x, gs (setG s1 i g') !! j = Some x ∧ locked x = Some u) ↔
    locked g' = Some u ∨ ∃ j x, j ≠ i ∧ gs s !! j = Some x ∧ locked x = Some u).
  { split.
    - intros (j & x & Hx & Hl). destruct (lookup_setG _ _ _ _ _ _ _ _ Hm Hg Hx) as [[-> ->]|[? ?]]; [by left|right; eauto].
    - intros [Hl|(j & x & Hj & Hx & Hl)]; [exists i, g'|exists j, x]; (split; [eapply lookup_setG_2; [done..|]|done]); auto. }
  rewrite Hiff. pose proof (iv_locks _ _ Hs u) as Hu.
  assert (Hold : u ∈ locks s ↔ locked g = Some u ∨ ∃ j x, j ≠ i ∧ gs s !! j = Some x ∧ locked x = Some u).
  { rewrite Hu. split.
    - intros (j & x & Hx & Hl). destruct (decide (j = i)) as [->|]; [simplify_eq; by left|right; eauto].
    - intros [?|(j & x & _ & ? & ?)]; eauto. }
  destruct move_locks as [[-> ->]|[(v & Hv & Hn & -> & ->)|(v & Hl & -> & ->)]]; [done|..].
  - rewrite elem_of_union, elem_of_singleton, Hold, Hn. naive_solver.
  - rewrite elem_of_difference, elem_of_singleton, Hold, Hl. split; [naive_solver|].
    intros [?|(j & x & Hj & Hx & Hlx)]; [done|]. split; [right; eauto|]. intros ->. apply Hj. by eapply (iv_one_lock _ _ Hs).
Qed.

Lemma keep_one_lock j k x y u : gs (setG s1 i g') !! j = Some x → gs (setG s1 i g') !! k = Some y →
  locked x = Some u → locked y = Some u → j = k.
Proof.
  assert (Hne : ∀ k y, k ≠ i → gs s !! k = Some y → locked g' = Some u → locked y = Some u → False).
  { intros k' y' Hk Hy' Hr Hr'. assert (Hin : u ∈ locks s) by (apply (iv_locks _ _ Hs); eauto).
    destruct move_locks as [[Hl _]|[(v & Hv & Hn & Hl & _)|(v & Hl & Hl' & _)]]; [|congruence..].
    apply Hk. eapply (iv_one_lock _ _ Hs); [done|done|done|congruence]. }
  intros Hx Hy Hrx Hry. destruct (lookup_setG _ _ _ _ _ _ _ _ Hm Hg Hx) as [[-> ->]|[Hj Hx']],
    (lookup_setG _ _ _ _ _ _ _ _ Hm Hg Hy) as [[-> ->]|[Hk Hy']]; [done| | |].
  - by destruct (Hne k y).
  - by destruct (Hne j x).
  - by eapply (iv_one_lock _ _ Hs).
Qed.

(** Nodes that have arrived and wait to be prepared. *)
Lemma move_queue : (queue s1 ++ prepBatch s1 = queue s ++ prepBatch s ∧ ∀ r todo, ctl g ≠ Gen (r :: todo)) ∨
  ∃ r todo st, g = mkG (Gen (r :: todo)) st ∧ g' = mkG (Gen todo) st ∧ futs s1 = <[r := Fresh]> (futs s) ∧
    queue s1 ++ prepBatch s1 = (queue s ++ prepBatch s) ++ [r].
Proof.
  destruct Hm as [| | | | | | | | | | | |r st s2 e Hw| | | |r todo st| | | | |]; try (by left).
  - left. by apply work_frame in Hw as (_ & -> & -> & _).
  - right. exists r, todo, st. by destruct (onNode_frame s r) as (-> & _ & _ & _ & ->).
  - left. by destruct (flush_frame s) as (_ & _ & _ & _ & -> & _).
Qed.

Lemma keep_dom r : is_Some (futs s1 !! r) ↔ r ∈ prep ++ queue s1 ++ prepBatch s1.
Proof.
  pose proof (iv_dom _ _ Hs r) as Hd. destruct move_queue as [[-> Hng]|(q & todo & st & _ & _ & -> & ->)].
  - rewrite <-Hd. destruct move_touch as [q Hq _ _ ->|q e _ Ho ->|q todo Hq Hk' _ ->|_ ->]; [| | |done].
    + rewrite lookup_insert_is_Some'. naive_solver.
    + rewrite lookup_insert_is_Some'. split; [|by right]. intros [->|?]; [|done].
      rewrite (own_running r) by (rewrite Ho; by left). done.
    + by destruct (Hng q todo).
  - rewrite lookup_insert_is_Some', Hd. rewrite !elem_of_app, list_elem_of_singleton. naive_solver.
Qed.

Lemma keep_fresh r : r ∈ queue s1 ++ prepBatch s1 → futs s1 !! r = Some Fresh.
Proof.
  assert (Hold : r ∈ queue s ++ prepBatch s → futs s1 !! r = Some Fresh).
  { intros Hr. pose proof (iv_fresh _ _ Hs r Hr) as Hf.
    destruct move_touch as [q Hq Hk _ ->|q e _ Ho ->|q todo Hq Hk' _ ->|_ ->]; [| | |done].
    - rewrite lookup_insert_ne; [done|]. intros ->. pose proof (iv_wf _ _ Hs i g Hg) as Hwf. unfold wf_g in Hwf.
      rewrite Hk in Hwf. destruct Hwf as [Hp _]. destruct (iv_main _ _ Hs) as (g0 & _ & Ha).
      assert (Hord : ∃ rest, order = prep ++ (queue s ++ prepBatch s) ++ rest).
      { unfold arrived in Ha. destruct (ctl g0); first [exists []; destruct Ha as (-> & -> & ->); by rewrite !app_nil_r|idtac].
        - exists todo. by rewrite Ha, <-!app_assoc.
        - exists []. destruct Ha as [-> ->]. by rewrite !app_nil_r. }
      destruct Hord as [rest Hord]. clear Hfirst Hroots. rewrite Hord in Hnd. apply NoDup_app in Hnd as (_ & Hdis & _).
      apply (Hdis r Hp). set_solver.
    - rewrite lookup_insert_ne; [done|]. intros ->. rewrite own_running in Hf by (rewrite Ho; by left). done.
    - rewrite lookup_insert_ne; [done|]. congruence. }
  destruct move_queue as [[-> _]|(q & todo & st & _ & _ & Hf & ->)]; [done|].
  intros [?|Hq]%elem_of_app; [auto|]. apply list_elem_of_singleton in Hq as ->. rewrite Hf. apply lookup_insert_eq.
Qed.

Lemma keep_main : ∃ x, gs (setG s1 i g') !! 0%nat = Some x ∧ arrived prep s1 x.
Proof.
  destruct (iv_main _ _ Hs) as (g0 & Hg0 & Ha). destruct (decide (i = 0%nat)) as [->|Hi].
  - simplify_eq. exists g'. split; [eapply lookup_setG_2; [done..|by left]|].
    destruct Hm as [| | | | | | | | | | | |r st s2 e Hw| | | |r todo st| | | | |]; try done; unfold arrived in *; simpl in *.
    + by apply work_frame in Hw as (_ & -> & -> & _).
    + destruct (onNode_frame s r) as (_ & _ & _ & _ & Hq). rewrite Ha. rewrite (app_assoc (queue (onNode s r))), Hq.
      by rewrite <-!app_assoc.
    + destruct (flush_frame s) as (_ & _ & _ & _ & Hq & Hb). split; [|done]. rewrite Ha.
      rewrite Hb, app_nil_r in Hq. by rewrite Hq, !app_nil_r, app_assoc.
    + destruct Ha as [-> ->]. by rewrite H, app_nil_r.
  - exists g0. split; [eapply lookup_setG_2; [done..|by right]|].
    assert (Hq : queue s1 = queue s ∧ prepBatch s1 = prepBatch s).
    { pose proof main_only as Hmain.
      destruct Hm as [| | | | | | | | | | | |r st s2 e Hw| | | |r todo st| | | | |]; try done.
      - by apply work_frame in Hw as (_ & -> & -> & _).
      - destruct Hi. apply Hmain. by left.
      - destruct Hi. apply Hmain. by left. }
    unfold arrived in *. by destruct Hq as [-> ->].
Qed.

Definition after_work r x : Prop := ctl x = Unlock r false ∨ ctl x = Release r false ∨ ctl x = Finish r false.

Lemma after_work_own r x : after_work r x → r ∈ own x.
Proof. unfold own. intros [->|[->| ->]]; by left. Qed.

Lemma move_ran : ran s1 = ran s ∨ ∃ r st, g = mkG (Work r) st ∧ g' = mkG (Unlock r false) st ∧ ran s1 = ran s ++ [r].
Proof.
  destruct Hm as [| | | | | | | | | | | |r st s2 e Hw| | | |r todo st| | | | |]; try (by left).
  - unfold work in Hw. case_decide; [simplify_eq; by left|]. destruct io.
    + destruct (forallb _ _); simplify_eq; [right; by exists r, st|by left].
    + simplify_eq. by left.
    + simplify_eq. left. by case_bool_decide.
  - left. apply (onNode_frame s r).
  - left. apply (flush_frame s).
Qed.

Lemma keep_ran r : r ∈ ran s1 → ok_deps (futs s1) (deps c r) ∧
  (futs s1 !! r = Some (Done false) ∨ ∃ j x, gs (setG s1 i g') !! j = Some x ∧ after_work r x).
Proof.
  pose proof touch_grows as Hgrow. intros Hr.
  assert (Hcase : r ∈ ran s ∨ ∃ st, g = mkG (Work r) st ∧ g' = mkG (Unlock r false) st).
  { destruct move_ran as [<-|(q & st & -> & -> & Hq)]; [by left|]. rewrite Hq in Hr.
    apply elem_of_app in Hr as [?|Hr]; [by left|]. apply list_elem_of_singleton in Hr as ->. right. by exists st. }
  destruct Hcase as [Hin|(st & Hgw & Hgu)].
  - destruct (iv_ran _ _ Hs r Hin) as [Hok Hst]. split; [by eapply ok_deps_mono|].
    destruct Hst as [Hd|(j & x & Hx & Haw)]; [left; by apply Hgrow|]. destruct (decide (j = i)) as [->|Hj].
    + simplify_eq. assert (Hnext : after_work r g' ∨ futs s1 !! r = Some (Done false)).
      { unfold after_work in *. destruct Hm; simpl in Haw |- *; destruct Haw as [[=]|[[=]|[=]]]; subst.
        - left. by right; left.
        - left. by right; right.
        - right. apply lookup_insert_eq. }
      destruct Hnext as [?|?]; [|by left]. right. exists i, g'. split; [|done]. eapply lookup_setG_2; [done..|by left].
    + right. exists j, x. split; [|done]. eapply lookup_setG_2; [done..|by right].
  - pose proof (iv_wf _ _ Hs i g Hg) as Hwf. subst g g'. split.
    + destruct Hwf as [Hok _]. by eapply ok_deps_mono.
    + right. exists i, (mkG (Unlock r false) st). split; [eapply lookup_setG_2; [done..|by left]|by left].
Qed.

Lemma keep_ran_nodup : NoDup (ran s1).
Proof.
  pose proof (iv_ran_nodup _ _ Hs) as Hn. destruct move_ran as [->|(r & st & Hgw & _ & ->)]; [done|].
  apply NoDup_app. split; [done|]. split; [|apply NoDup_singleton]. intros x Hx Hr. apply list_elem_of_singleton in Hr as ->.
  destruct (iv_ran _ _ Hs r Hx) as [_ Hst]. assert (Hown : r ∈ own g) by (rewrite Hgw; unfold own; by left).
  destruct Hst as [Hd|(j & y & Hy & Haw)].
  - rewrite own_running in Hd; done.
  - pose proof (after_work_own r y Haw) as Hr. assert (i = j) as <- by (by eapply (iv_unique _ _ Hs)). simplify_eq.
    by destruct Haw as [[=]|[[=]|[=]]].
Qed.

Lemma move_inv : inv prep (setG s1 i g').
Proof.
  split.
  - exact keep_main.
  - exact keep_fire.
  - exact keep_dom.
  - exact keep_fresh.
  - exact keep_wf.
  - exact keep_own.
  - exact keep_owner.
  - exact keep_unique.
  - exact keep_nodup.
  - exact keep_sema.
  - exact keep_locks.
  - exact keep_one_lock.
  - exact keep_ran.
  - exact keep_ran_nodup.
Qed.
End move.

(** The event loop. *)
Lemma queue_head r q : queue s = r :: q →
  (∃ g, gs s !! 0%nat = Some g ∧ ∀ s', queue s' = q → prepBatch s' = prepBatch s → arrived (prep ++ [r]) s' g) ∧
  r ∉ q ++ prepBatch s.
Proof.
  intros Hq. destruct (iv_main _ _ Hs) as (g & Hg & Ha).
  assert (Hord : ∃ rest, order = prep ++ ((r :: q) ++ prepBatch s) ++ rest).
  { unfold arrived in Ha. rewrite Hq in Ha. destruct (ctl g); try (by destruct Ha as (_ & ? & _)).
    - exists todo. by rewrite Ha, <-!app_assoc.
    - exists []. destruct Ha as [-> ->]. by rewrite !app_nil_r. }
  split.
  - exists g. split; [done|]. intros s' Hq' Hb'. unfold arrived in *. rewrite Hq', Hb'. rewrite Hq in Ha.
    destruct (ctl g); try (by destruct Ha as (_ & ? & _)).
    + by rewrite Ha, <-app_assoc.
    + destruct Ha as [-> ->]. by rewrite <-app_assoc.
  - destruct Hord as [rest Hord]. clear Hfirst Hroots. rewrite Hord in Hnd. apply NoDup_app in Hnd as (_ & _ & Hn).
    apply NoDup_app in Hn as (Hn & _ & _). simpl in Hn. by apply NoDup_cons in Hn as [? _].
Qed.

Lemma prepare_inv_at r q s' : queue s = r :: q → prepare c s = Some s' → inv (prep ++ [r]) s'.
Proof.
  intros Hq. unfold prepare. rewrite Hq. destruct (queue_head r q Hq) as [(g0 & Hg0 & Harr) Hnq].
  assert (Hr : futs s !! r = Some Fresh) by (apply (iv_fresh _ _ Hs); rewrite Hq; by left).
  rewrite Hr. cbn [mbind option_bind].
  assert (Hin : ∀ x, x ∈ (prep ++ [r]) ++ q ++ prepBatch s ↔ x ∈ prep ++ queue s ++ prepBatch s).
  { intros x. rewrite Hq, <-app_assoc. done. }
  assert (Hfr : ∀ x, x ∈ q ++ prepBatch s → futs s !! x = Some Fresh).
  { intros x Hx. apply (iv_fresh _ _ Hs). rewrite Hq. by right. }
  destruct (uidCached c s (uid c r)); intros [= <-].
  - assert (Hgrow : grows (futs s) (<[r := Done false]> (futs s))).
    { intros d e Hd. rewrite lookup_insert_ne; [done|congruence]. }
    assert (Hrun : ∀ x, <[r := Done false]> (futs s) !! x = Some Running ↔ futs s !! x = Some Running).
    { intros x. rewrite lookup_insert_Some. split; [intros [[_ [=]]|[_ ?]]; done|]. intros Hx. right. split; congruence. }
    destruct Hs as [_ Hfire Hdom _ Hwf Hown Howner Huniq Hnodup Hsema Hlocks Hone Hran Hrn]. split; simpl; try done.
    + exists g0. split; [done|]. by apply Harr.
    + intros x. rewrite Hin, <-Hdom, lookup_insert_is_Some'. split; [|by right]. intros [->|?]; [by rewrite Hr|done].
    + intros x Hx. rewrite lookup_insert_ne; [by apply Hfr|]. intros ->. done.
    + intros i g Hg. apply (wf_g_mono prep (prep ++ [r]) (futs s)); [done|set_solver|by eapply Hwf].
    + intros i g x Hg Hx. apply Hrun. by eapply Hown.
    + intros x Hx%Hrun. by apply Howner.
    + intros x Hx. destruct (Hran x Hx) as [Hok Hst]. split; [by eapply ok_deps_mono|].
      destruct Hst as [Hd|?]; [left; by apply Hgrow|by right].
  - assert (Hlk : ∀ j x, (gs s ++ [mkG (Visit r) []]) !! j = Some x →
      gs s !! j = Some x ∨ (j = length (gs s) ∧ x = mkG (Visit r) [])).
    { intros j x [?|[? Hx]]%lookup_app_Some; [by left|right]. apply list_lookup_singleton_Some in Hx as [? <-].
      split; [lia|done]. }
    assert (Hlk' : ∀ j x, gs s !! j = Some x → (gs s ++ [mkG (Visit r) []]) !! j = Some x).
    { intros j x Hx. by apply lookup_app_l_Some. }
    rewrite insert_id by done.
    destruct Hs as [_ Hfire Hdom _ Hwf Hown Howner Huniq Hnodup Hsema Hlocks Hone Hran Hrn]. split; simpl.
    + exists g0. split; [by apply Hlk'|]. by apply Harr.
    + intros i g Hi [Hg|[_ ->]]%Hlk; [by eapply Hfire|by split].
    + intros x. by rewrite Hin, <-Hdom.
    + done.
    + intros i g [Hg|[_ ->]]%Hlk; [|by split; [set_solver|]].
      apply (wf_g_mono prep (prep ++ [r]) (futs s)); [by intros d e|set_solver|by eapply Hwf].
    + intros i g x [Hg|[_ ->]]%Hlk Hx; [by eapply Hown|by apply not_elem_of_nil in Hx].
    + intros x Hx. destruct (Howner x Hx) as (i & g & ? & ?). eauto.
    + intros i j g g' x [Hg|[_ ->]]%Hlk [Hg'|[_ ->]]%Hlk Hx Hx'; [by eapply Huniq|by apply not_elem_of_nil in Hx'|
        by apply not_elem_of_nil in Hx|by apply not_elem_of_nil in Hx].
    + intros i g [Hg|[_ ->]]%Hlk; [by eapply Hnodup|constructor].
    + assert (Hf : filter (λ g, holds g = true) [mkG (Visit r) []] = []) by done.
      by rewrite filter_app, Hf, app_nil_r.
    + intros u. rewrite Hlocks. split; [intros (i & g & ? & ?); eauto|].
      intros (i & g & [Hg|[_ ->]]%Hlk & Hl); [eauto|done].
    + intros i j g g' u [Hg|[_ ->]]%Hlk [Hg'|[_ ->]]%Hlk Hx Hx'; [by eapply Hone|done..].
    + intros x Hx. destruct (Hran x Hx) as [Hok Hst]. split; [done|]. destruct Hst as [?|(i & g & ? & ?)]; [by left|].
      right. eauto.
    + done.
Qed.

Lemma prepare_inv s' : prepare c s = Some s' → ∃ prep', inv prep' s'.
Proof.
  intros Hp. destruct (queue s) as [|r q] eqn:Hq; [unfold prepare in Hp; by rewrite Hq in Hp|].
  exists (prep ++ [r]). by eapply prepare_inv_at.
Qed.

Lemma exit_inv : inv prep (exit s).
Proof. by destruct Hs. Qed.

Lemma step_inv t io s' : step c s t io = Some s' → ∃ prep', inv prep' s'.
Proof.
  unfold step. destruct (exited s); [done|]. destruct t as [|i]; [apply prepare_inv|].
  intros [(-> & _ & _)|(g & g' & s1 & Hg & Hm & ->)]%goStep_move; exists prep; [apply exit_inv|by eapply move_inv].
Qed.
End step.

Lemma init_inv cached : inv [] (newExecutor cached order).
Proof.
  assert (Hlk : ∀ i g, [mkG (Gen order) []] !! i = Some g → i = 0%nat ∧ g = mkG (Gen order) []).
  { intros i g Hg. apply list_lookup_singleton_Some in Hg as [? <-]. done. }
  split; simpl.
  - exists (mkG (Gen order) []). done.
  - intros i g Hi [? _]%Hlk. done.
  - intros r. rewrite lookup_empty. split; [by intros [? ?]|by intros ?%not_elem_of_nil].
  - by intros r ?%not_elem_of_nil.
  - by intros i g [_ ->]%Hlk.
  - intros i g r [_ ->]%Hlk Hr. by apply not_elem_of_nil in Hr.
  - by intros r.
  - intros i j g g' r [-> _]%Hlk [-> _]%Hlk. done.
  - intros i g [_ ->]%Hlk. constructor.
  - split; [done|lia].
  - intros u. split; [by intros ?%not_elem_of_empty|]. by intros (i & g & [_ ->]%Hlk & ?).
  - intros i j g g' u [-> _]%Hlk [-> _]%Hlk. done.
  - by intros r ?%not_elem_of_nil.
  - constructor.
Qed.

Lemma schedule_inv prep s sched s' : inv prep s → runSchedule c s sched = Some s' → ∃ prep', inv prep' s'.
Proof.
  revert prep s. induction sched as [|[t io] sched IH]; intros prep s Hs; simpl; [intros [= <-]; eauto|].
  destruct (step c s t io) as [s1|] eqn:Hst; [|done]. destruct (step_inv prep s Hs t io s1 Hst) as [prep1 Hs1].
  by apply (IH prep1).
Qed.

(** ** Some goroutine can always go on *)

Lemma wf_stack_below F cur st r l1 l2 :
  wf_stack F cur st → r ∈ (st ≫= own_frame) → order = l1 ++ r :: l2 → cur ∈ l1.
Proof.
  revert cur. induction st as [|[q ds|rs] st IH]; intros cur; simpl; [by intros _ ?%not_elem_of_nil| |].
  - intros [(pre & Hd & _) Hst] [->|Hr]%elem_of_cons Ho.
    + apply (Hfirst _ _ _ _ Ho). rewrite Hd. set_solver.
    + specialize (IH q Hst Hr Ho). apply list_elem_of_split in IH as (a & b & ->).
      assert (cur ∈ a); [|set_solver]. apply (Hfirst a q (b ++ r :: l2)); [by rewrite Ho, <-app_assoc|].
      rewrite Hd. set_solver.
  - intros [-> _] Hr. by apply not_elem_of_nil in Hr.
Qed.

Section progress.
Context (prep : list Z) (s : State) (Hs : inv prep s) (Hthreads : (1 <= threads c)%nat).

(** Goroutine [i] can take a step, whatever the environment answers. *)
Definition can_go (i : nat) : Prop := ∀ io, is_Some (goStep c s i io).

Definition blockable g : bool :=
  match ctl g with Visit _ | Sema _ | Lock _ | Sync | Wait | Stop => true | _ => false end.

Lemma unblockable_goes i g : gs s !! i = Some g → blockable g = false → can_go i.
Proof.
  intros Hg Hb io. unfold goStep. rewrite Hg. cbn [mbind option_bind]. unfold blockable in Hb.
  destruct (ctl g) as [|r [|]| | | | | | |e|[|]| |[|]| |]; try done; try (by eexists).
  - destruct (work c s r io). by eexists.
  - destruct (stack g) as [|[] ?], (e && negb (keepGoing c)), e; by eexists.
Qed.

Lemma lock_goes i g r : gs s !! i = Some g → ctl g = Lock r → uid c r ∉ locks s → can_go i.
Proof.
  intros Hg Hk Hl io. unfold goStep. rewrite Hg. cbn [mbind option_bind]. rewrite Hk.
  destruct io; [rewrite decide_False by done|..]; by eexists.
Qed.

Lemma sema_goes i g r : gs s !! i = Some g → ctl g = Sema r → sema s = 0%nat → can_go i.
Proof.
  intros Hg Hk Hse io. unfold goStep. rewrite Hg. cbn [mbind option_bind]. rewrite Hk, decide_True by lia. by eexists.
Qed.

Lemma visit_goes i g r : gs s !! i = Some g → ctl g = Visit r → futs s !! r ≠ Some Running → can_go i.
Proof.
  intros Hg Hk Hr io. unfold goStep. rewrite Hg. cbn [mbind option_bind]. rewrite Hk.
  destruct (futs s !! r) as [[| |]|]; [by eexists|done|by eexists..].
Qed.

Lemma all_blocked_ctl : (∀ i, ¬ can_go i) → queue s = [] →
  ∀ i g, gs s !! i = Some g → (∃ r, ctl g = Visit r ∧ futs s !! r = Some Running) ∨ ctl g = Wait ∨ ctl g = Stop.
Proof.
  intros Hno Hq.
  assert (Hb : ∀ i g, gs s !! i = Some g → blockable g = true).
  { intros i g Hg. destruct (blockable g) eqn:Hb; [done|]. destruct (Hno i). by eapply unblockable_goes. }
  assert (Hnolock : ∀ u, u ∉ locks s).
  { intros u (i & g & Hg & Hl)%(iv_locks _ _ Hs). specialize (Hb i g Hg). unfold locked, blockable in *. by destruct (ctl g). }
  assert (Hnohold : ∀ i g, gs s !! i = Some g → holds g = false).
  { intros i g Hg. specialize (Hb i g Hg). unfold blockable, holds in *. destruct (ctl g) eqn:Hk; try done.
    destruct (Hno i). by eapply lock_goes. }
  assert (Hsema : sema s = 0%nat).
  { destruct (iv_sema _ _ Hs) as [-> _]. destruct (filter _ (gs s)) as [|g l] eqn:Hf; [done|].
    assert (Hin : g ∈ filter (λ g, holds g = true) (gs s)) by (rewrite Hf; by left).
    apply list_elem_of_filter in Hin as [Hh [i Hg]%list_elem_of_lookup_1]. rewrite (Hnohold i g Hg) in Hh. done. }
  intros i g Hg. specialize (Hb i g Hg). specialize (Hnohold i g Hg). unfold blockable, holds in *.
  destruct (ctl g) eqn:Hk; try done.
  - left. exists r. split; [done|]. destruct (decide (futs s !! r = Some Running)); [done|].
    destruct (Hno i). by eapply visit_goes.
  - destruct (Hno i). by eapply sema_goes.
  - destruct (Hno i). intros io. unfold goStep. rewrite Hg. cbn [mbind option_bind]. rewrite Hk, decide_True by done. by eexists.
  - by right; left.
  - by right; right.
Qed.

Lemma no_visit : (∀ i, ¬ can_go i) → queue s = [] → ∀ i g r, gs s !! i = Some g → ctl g ≠ Visit r.
Proof.
  intros Hno Hq. pose proof (all_blocked_ctl Hno Hq) as Hall.
  assert (Hgen : ∀ n l1 r l2 i g, length l1 = n → order = l1 ++ r :: l2 → gs s !! i = Some g → ctl g ≠ Visit r).
  { induction n as [n IH] using lt_wf_ind. intros l1 r l2 i g Hlen Ho Hg Hk.
    destruct (Hall i g Hg) as [(r' & Hk' & Hrun)|[?|?]]; [|congruence..]. rewrite Hk in Hk'. injection Hk' as <-.
    destruct (iv_owner _ _ Hs r Hrun) as (j & x & Hx & Hin). pose proof (iv_wf _ _ Hs j x Hx) as Hwf. unfold wf_g in Hwf.
    unfold own in Hin. destruct (Hall j x Hx) as [(q & Hkq & _)|[Hkq|Hkq]]; rewrite Hkq in Hwf, Hin; simpl in Hin.
    - destruct Hwf as [_ Hst]. pose proof (wf_stack_below _ _ _ _ _ _ Hst Hin Ho) as Hq1.
      apply list_elem_of_split in Hq1 as (a & b & ->).
      apply (IH (length a)) with (l1 := a) (r := q) (l2 := b ++ r :: l2) (i := j) (g := x); [|done|by rewrite Ho, <-app_assoc|done|done].
      rewrite length_app in Hlen. simpl in Hlen. lia.
    - rewrite Hwf in Hin. by apply not_elem_of_nil in Hin.
    - rewrite Hwf in Hin. by apply not_elem_of_nil in Hin. }
  intros i g r Hg Hk. pose proof (iv_wf _ _ Hs i g Hg) as Hwf. unfold wf_g in Hwf. rewrite Hk in Hwf. destruct Hwf as [Hr _].
  destruct (iv_main _ _ Hs) as (g0 & _ & Ha). destruct (arrived_prefix _ _ _ Ha) as [rest Ho].
  apply list_elem_of_split in Hr as (a & b & Hab). apply (Hgen (length a) a r (b ++ rest) i g); [done| |done|done].
  by rewrite Ho, Hab, <-app_assoc.
Qed.

Lemma goStep_any_io i : is_Some (goStep c s i IoOk) → can_go i.
Proof.
  intros Hok io. revert Hok. unfold goStep. destruct (gs s !! i) as [g|]; [|done]. cbn [mbind option_bind].
  destruct (ctl g) as [|r [|]| | | | | | |e|[|]| |[|]| |]; try done.
  - destruct io; [done|by eexists..].
  - intros _. destruct (work c s r io). by eexists.
Qed.

Lemma some_can_go : ¬ finished s → queue s = [] → ∃ i, can_go i.
Proof.
  intros Hnf Hq. destruct (decide (Exists (λ i, is_Some (goStep c s i IoOk)) (seq 0 (length (gs s))))) as [Hex|Hnex].
  { apply Exists_exists in Hex as (i & _ & Hi). exists i. by apply goStep_any_io. }
  exfalso. assert (Hno : ∀ i, ¬ can_go i).
  { intros i Hi. apply Hnex, Exists_exists. exists i. split; [|apply Hi]. apply elem_of_seq. split; [lia|].
    specialize (Hi IoOk). unfold goStep in Hi. destruct (gs s !! i) eqn:Hg; [|by destruct Hi]. apply lookup_lt_Some in Hg. lia. }
  assert (Hws : ∀ i g, gs s !! i = Some g → ctl g = Wait ∨ ctl g = Stop).
  { intros i g Hg. destruct (all_blocked_ctl Hno Hq i g Hg) as [(r & Hr & _)|?]; [|done].
    by destruct (no_visit Hno Hq i g r Hg). }
  apply Hnf. intros g [i Hg]%list_elem_of_lookup_1. destruct (Hws i g Hg) as [Hw|?]; [|done].
  assert (i = 0%nat) as ->.
  { destruct (decide (i = 0%nat)) as [|Hi]; [done|]. destruct (iv_fire _ _ Hs i g Hi Hg) as [Hk _]. by rewrite Hw in Hk. }
  destruct (Hno 0%nat). intros io. unfold goStep. rewrite Hg. cbn [mbind option_bind]. rewrite Hw.
  assert (Hf : forallb (λ g, match ctl g with Stop => true | _ => false end) (drop 1 (gs s)) = true); [|rewrite Hf; by eexists].
  apply forallb_forall. intros x Hx%list_elem_of_In. apply list_elem_of_lookup_1 in Hx as [j Hj].
  rewrite lookup_drop in Hj. destruct (Hws _ x Hj) as [Hwx| ->]; [|done].
  destruct (iv_fire _ _ Hs (1 + j) x) as [Hk _]; [lia|done|]. by rewrite Hwx in Hk.
Qed.

Lemma progress : exited s = false → ¬ finished s → ∃ t, ∀ io, is_Some (step c s t io).
Proof.
  intros He Hnf. unfold step. rewrite He. destruct (queue s) as [|r q] eqn:Hq.
  { destruct (some_can_go Hnf Hq) as [i Hi]. by exists (Go i). }
  exists EventLoop. intros io. unfold prepare. rewrite Hq.
  rewrite (iv_fresh _ _ Hs r) by (rewrite Hq; by left). cbn [mbind option_bind].
  destruct (uidCached c s (uid c r)); by eexists.
Qed.
End progress.

(** ** Every schedule ends *)

Definition w_frame (f : Frame) : nat :=
  match f with FNode _ ds => 3 * length ds + 8 | FRoots rs => 3 * length rs + 2 end.

Definition w_ctl (k : Ctl) : nat :=
  match k with
  | Visit _ => 2
  | Deps _ ds => 3 * length ds + 8
  | Sema _ => 7 | Lock _ => 6 | Work _ => 5 | Unlock _ _ => 4 | Release _ _ => 3 | Finish _ _ => 2 | Return _ => 1
  | Gen todo => 4 * length todo + 3 * length (roots c) + 4
  | Sync => 3 * length (roots c) + 3
  | Roots rs => 3 * length rs + 2
  | Wait => 1
  | Stop => 0
  end.

Definition w_g g : nat := w_ctl (ctl g) + sum_list (w_frame <$> stack g).

(** A node that was not entered yet will be. *)
Definition w_node s (r : Z) : nat :=
  match futs s !! r with None | Some Fresh => 3 * length (deps c r) + 7 | _ => 0 end.

Definition weight s : nat :=
  sum_list (w_g <$> gs s) + sum_list (w_node s <$> order) + 3 * length (queue s ++ prepBatch s) +
  (if exited s then 0 else 1).

Lemma sum_insert {A} (f : A → nat) l i x y : l !! i = Some x →
  (sum_list (f <$> <[i := y]> l) + f x = sum_list (f <$> l) + f y)%nat.
Proof.
  revert i. induction l as [|a l IH]; intros [|i] Hi; simplify_eq/=; csimpl; [lia|]. specialize (IH i Hi). lia.
Qed.

Lemma sum_nodes_le (f f' : Z → nat) l : (∀ r, f' r <= f r)%nat → (sum_list (f' <$> l) <= sum_list (f <$> l))%nat.
Proof. intros Hle. induction l as [|a l IH]; csimpl; [lia|]. specialize (Hle a). lia. Qed.

(** Entering or skipping a node uses up its share. *)
Lemma sum_nodes_drop (f f' : Z → nat) l r : r ∈ l → (∀ x, f' x <= f x)%nat → f' r = 0%nat →
  (sum_list (f' <$> l) + f r <= sum_list (f <$> l))%nat.
Proof.
  intros Hr Hle Hz. induction l as [|a l IH]; [by apply not_elem_of_nil in Hr|]. csimpl.
  pose proof (sum_nodes_le f f' l Hle). pose proof (Hle a). apply elem_of_cons in Hr as [->|Hr]; [lia|].
  specialize (IH Hr). lia.
Qed.

Section decrease.
Context (prep : list Z) (s : State) (Hs : inv prep s).

Lemma in_order r : r ∈ prep ++ queue s ++ prepBatch s → r ∈ order.
Proof.
  intros Hr. destruct (iv_main _ _ Hs) as (g & _ & Ha). unfold arrived in Ha. rewrite !elem_of_app in Hr.
  destruct (ctl g); try (destruct Ha as (-> & Hq & Hb); rewrite Hq, Hb in Hr; set_solver).
  - rewrite Ha. set_solver.
  - destruct Ha as [-> Hb]. rewrite Hb in Hr. set_solver.
Qed.

Lemma w_node_mono s1 : grows (futs s) (futs s1) →
  (∀ r, futs s !! r = Some Running → is_Some (futs s1 !! r) ∧ futs s1 !! r ≠ Some Fresh) → ∀ r, (w_node s1 r <= w_node s r)%nat.
Proof.
  intros Hgrow Hrun r. unfold w_node. destruct (futs s !! r) as [[| |e]|] eqn:Hr.
  - destruct (futs s1 !! r) as [[]|]; lia.
  - destruct (Hrun r Hr) as [[o Ho] Hnf]. rewrite Ho in Hnf |- *. destruct o; [done|lia..].
  - by rewrite (Hgrow r e Hr).
  - destruct (futs s1 !! r) as [[]|]; lia.
Qed.

Lemma move_weight i io g g' s1 : gs s !! i = Some g → move s io g g' s1 → exited s1 = exited s →
  (weight (setG s1 i g') < weight s)%nat.
Proof.
  intros Hg Hm He. unfold weight. cbn [exited setG gs futs queue prepBatch]. rewrite He, (move_gs _ _ _ _ _ Hm).
  pose proof (sum_insert w_g (gs s) i g g' Hg) as Hsum.
  pose proof (touch_grows _ _ Hs i io g g' s1 Hg Hm) as Hgrow.
  assert (Hmono : ∀ r, (w_node (setG s1 i g') r <= w_node s r)%nat).
  { intros r. change (w_node (setG s1 i g') r) with (w_node s1 r). apply w_node_mono; [done|]. intros q Hq.
    destruct (move_touch _ _ Hs i io g g' s1 Hg Hm) as [x Hx _ _ ->|x e _ _ ->|x todo Hx _ _ ->|_ ->].
    - destruct (decide (x = q)) as [->|]; [by rewrite lookup_insert_eq|rewrite lookup_insert_ne by done; by rewrite Hq].
    - destruct (decide (x = q)) as [->|]; [by rewrite lookup_insert_eq|rewrite lookup_insert_ne by done; by rewrite Hq].
    - rewrite lookup_insert_ne by congruence. by rewrite Hq.
    - by rewrite Hq. }
  pose proof (sum_nodes_le (w_node s) (w_node (setG s1 i g')) order Hmono) as Hnodes.
  assert (Hwg : (w_g g' + 3 * length (queue s1 ++ prepBatch s1) + sum_list (w_node (setG s1 i g') <$> order) <
    w_g g + 3 * length (queue s ++ prepBatch s) + sum_list (w_node s <$> order))%nat); [|lia].
  pose proof (iv_wf _ _ Hs i g Hg) as Hwf.
  destruct Hm as [|r st Hf| | | | | | | | | | |r st s2 e Hw| | | |r todo st| | | | |]; unfold w_g; csimpl; try lia.
  - assert (Hr : r ∈ order) by (apply in_order, (iv_dom _ _ Hs); by rewrite Hf).
    pose proof (sum_nodes_drop (w_node s) _ order r Hr Hmono) as Hdrop. unfold w_node in Hdrop at 1 3. simpl in Hdrop.
    rewrite lookup_insert_eq, Hf in Hdrop. specialize (Hdrop eq_refl). simpl. lia.
  - apply work_frame in Hw as (_ & -> & -> & _). lia.
  - destruct (onNode_frame s r) as (_ & _ & _ & _ & ->). rewrite (length_app _ [r]). simpl. lia.
  - destruct (flush_frame s) as (_ & _ & _ & _ & -> & _). lia.
Qed.

Lemma prepare_weight s' : prepare c s = Some s' → (weight s' < weight s)%nat.
Proof.
  unfold prepare. destruct (queue s) as [|r q] eqn:Hq; [done|].
  assert (Hr : futs s !! r = Some Fresh) by (apply (iv_fresh _ _ Hs); rewrite Hq; by left).
  rewrite Hr. cbn [mbind option_bind].
  assert (Hgen : (∀ x, (w_node s' x <= w_node s x)%nat) → queue s' = q → prepBatch s' = prepBatch s → exited s' = exited s →
    (sum_list (w_g <$> gs s') < sum_list (w_g <$> gs s) + 3)%nat → (weight s' < weight s)%nat).
  { intros Hle Hq' Hb He Hg. pose proof (sum_nodes_le _ _ order Hle). unfold weight. rewrite Hq', Hb, He, Hq.
    rewrite !length_app. simpl. lia. }
  destruct (uidCached c s (uid c r)); intros [= <-]; apply Hgen; try done.
  - intros x. apply w_node_mono; simpl.
    + intros d e Hd. rewrite lookup_insert_ne; [done|congruence].
    + intros d Hd. rewrite lookup_insert_ne by congruence. by rewrite Hd.
  - simpl. lia.
  - intros x. apply w_node_mono; simpl; rewrite insert_id by done; [by intros d e|by intros d ->].
  - cbn [gs]. rewrite fmap_app, sum_list_with_app.
    assert (Hw : sum_list (w_g <$> [mkG (Visit r) []]) = 2%nat) by done. unfold sum_list in *. lia.
Qed.

Lemma step_weight t io s' : step c s t io = Some s' → (weight s' < weight s)%nat.
Proof.
  unfold step. destruct (exited s) eqn:He; [done|]. destruct t as [|i]; [apply prepare_weight|].
  intros [(-> & _ & _)|(g & g' & s1 & Hg & Hm & ->)]%goStep_move.
  - unfold weight. simpl. rewrite He. unfold w_node. simpl. lia.
  - eapply move_weight; [done..|]. destruct Hm as [| | | | | | | | | | | |r st s2 e Hw| | | |r todo st| | | | |]; try done.
    + unfold work in Hw. case_decide; [by simplify_eq|]. destruct io; [destruct (forallb _ _)| |]; simplify_eq; try done.
      by case_bool_decide.
    + unfold onNode. cbv zeta. destruct (_ <=? _); [|done]. unfold flushPrepBatch. by case_decide.
    + unfold flushPrepBatch. by case_decide.
Qed.
End decrease.

Lemma schedule_weight prep s sched s' : inv prep s → runSchedule c s sched = Some s' →
  (length sched + weight s' <= weight s)%nat.
Proof.
  revert prep s. induction sched as [|[t io] sched IH]; intros prep s Hs; simpl; [intros [= <-]; lia|].
  destruct (step c s t io) as [s1|] eqn:Hst; [|done]. cbn [mbind option_bind]. intros Hrun.
  pose proof (step_weight prep s Hs t io s1 Hst). destruct (step_inv prep s Hs t io s1 Hst) as [prep1 Hs1].
  specialize (IH prep1 s1 Hs1 Hrun). lia.
Qed.

(** ** Which nodes fail *)

Section outcome.
(** [cached]: the uids stored before; [works]: whether the commands of a uid
    succeed.  Nodes with one uid have dependencies with the same uids. *)
Context (cached : gset Z) (works : Z → bool).
Context (Huids : uidSet c ⊆ cached).
Context (Hsame : ∀ r r', r ∈ order → r' ∈ order → uid c r = uid c r' → uid c <$> deps c r = uid c <$> deps c r').

Inductive good : Z → Prop :=
| good_cached r : uid c r ∈ cached → good r
| good_built r : (∀ d, d ∈ deps c r → good d) → works (uid c r) = true → good r.

(** What the environment answers then: the locks are taken, nothing is lost. *)
Definition answer s (t : Thread) : IO :=
  match t with
  | Go i => match gs s !! i with
            | Some g => match ctl g with Work r => if works (uid c r) then IoOk else IoFail | _ => IoOk end
            | None => IoOk
            end
  | EventLoop => IoOk
  end.

Fixpoint runThreads s (sched : list Thread) : option State :=
  match sched with
  | [] => Some s
  | t :: sched => s ← step c s t (answer s t); runThreads s sched
  end.

Lemma order_deps r d : r ∈ order → d ∈ deps c r → d ∈ order.
Proof.
  intros (l1 & l2 & Ho)%list_elem_of_split Hd. pose proof (Hfirst _ _ _ _ Ho Hd). rewrite Ho. set_solver.
Qed.

Lemma good_uid r r' : good r → r ∈ order → r' ∈ order → uid c r = uid c r' → good r'.
Proof.
  intros Hg. revert r'. induction Hg as [r Hr|r _ IH Hw]; intros r' Hin Hin' Hu; [apply good_cached; by rewrite <-Hu|].
  apply good_built; [|by rewrite <-Hu]. intros d' Hd'. pose proof Hd' as [k Hk]%list_elem_of_lookup_1.
  pose proof (f_equal (λ l, l !! k) (Hsame r r' Hin Hin' Hu)) as Hl. simpl in Hl. rewrite !list_lookup_fmap, Hk in Hl.
  destruct (deps c r !! k) as [d|] eqn:Hd; [|done]. simpl in Hl. apply list_elem_of_lookup_2 in Hd.
  apply (IH d); [done|by apply (order_deps r)|by apply (order_deps r')|by injection Hl].
Qed.

(** The verdict of a node that has been worked on. *)
Definition verdict s g : Prop :=
  match ctl g with
  | Unlock r false | Release r false | Finish r false => good r ∧ uid c r ∈ store s
  | Unlock r true | Release r true | Finish r true => ¬ good r
  | _ => True
  end.

Record oinv (prep : list Z) s : Prop := {
  ov_cached : cached ⊆ store s;
  ov_store : ∀ u, u ∈ store s → u ∈ cached ∨ ∃ r, r ∈ order ∧ uid c r = u ∧ good r;
  ov_ok : ∀ r, futs s !! r = Some (Done false) → good r ∧ uid c r ∈ store s;
  ov_bad : ∀ r, futs s !! r = Some (Done true) → ¬ good r;
  ov_verdict : ∀ i g, gs s !! i = Some g → verdict s g;
  ov_skipped : ∀ r, r ∈ prep → uid c r ∈ cached → futs s !! r = Some (Done false);
  ov_fired : ∀ r, r ∈ prep → futs s !! r = Some Fresh → ∃ i, gs s !! i = Some (mkG (Visit r) []);
  ov_ran : NoDup (uid c <$> ran s) ∧ ∀ r, r ∈ ran s → good r ∧ uid c r ∈ store s;
  ov_exit : exited s = true → keepGoing c = false ∧ ∃ r, ¬ good r }.

Section ostep.
Context (prep : list Z) (s : State) (Hs : inv prep s) (Ho : oinv prep s).

Lemma running_order r : futs s !! r = Some Running → r ∈ order.
Proof. intros Hr. apply (in_order _ _ Hs), (iv_dom _ _ Hs). by rewrite Hr. Qed.

(** A node being run is not in the cache. *)
Lemma running_uncached r : futs s !! r = Some Running → uid c r ∉ cached.
Proof. intros Hr Hu. rewrite (ov_skipped _ _ Ho r (running_prep _ _ Hs r Hr) Hu) in Hr. done. Qed.

Lemma bad_dep r d : futs s !! r = Some Running → d ∈ deps c r → ¬ good d → ¬ good r.
Proof. intros Hr Hd Hb Hg. destruct Hg as [r Hc|r Hg _]; [by eapply running_uncached|auto]. Qed.

Section omove.
Context (i : nat) (g g' : Goroutine) (s1 : State).
Context (Hg : gs s !! i = Some g) (Hm : move s (answer s (Go i)) g g' s1).

Lemma work_outcome r st : g = mkG (Work r) st → ∃ e, g' = mkG (Unlock r e) st ∧ work c s r (answer s (Go i)) = (s1, e) ∧
  (e = true → ¬ good r ∧ s1 = s) ∧
  (e = false → good r ∧ ((s1 = s ∧ uid c r ∈ store s) ∨
     (uid c r ∉ store s ∧ s1 = setStore s ({[uid c r]} ∪ store s) (ran s ++ [r])))).
Proof.
  intros ->. pose proof (iv_wf _ _ Hs i _ Hg) as [Hok _]. simpl in Hok.
  assert (Hrun : futs s !! r = Some Running) by (eapply (iv_own _ _ Hs i); [done|by left]).
  pose proof (running_uncached r Hrun) as Hunc.
  inversion Hm as [| | | | | | | | | | | |r' st' s1' e Hw| | | | | | | | |]; subst.
  exists e. split; [done|]. split; [done|]. unfold answer in Hw. rewrite Hg in Hw. simpl in Hw. unfold work in Hw.
  destruct (decide (uid c r ∈ store s)) as [Hin|Hnin].
  { injection Hw as <- <-. split; [done|]. intros _. split; [|by left].
    destruct (ov_store _ _ Ho _ Hin) as [?|(r' & Hr' & Hu & Hgr)]; [done|]. by apply (good_uid r'); [..|apply running_order|]. }
  destruct (works (uid c r)) eqn:Hworks.
  - assert (Hall : forallb (λ d, bool_decide (uid c d ∈ store s)) (deps c r) = true).
    { apply forallb_forall. intros d Hd%list_elem_of_In. apply bool_decide_eq_true. by apply (ov_ok _ _ Ho), Hok. }
    rewrite Hall in Hw. injection Hw as <- <-. split; [done|]. intros _. split; [|by right].
    apply good_built; [|done]. intros d Hd. by apply (ov_ok _ _ Ho), Hok.
  - injection Hw as <- <-. split; [|done]. intros _. split; [|done]. intros Hgood. inversion Hgood; subst; [done|congruence].
Qed.

(** Only a worked node is stored. *)
Lemma move_store : (store s1 = store s ∧ ran s1 = ran s) ∨
  ∃ r, r ∈ order ∧ good r ∧ uid c r ∉ store s ∧ store s1 = {[uid c r]} ∪ store s ∧ ran s1 = ran s ++ [r].
Proof.
  assert (Hcase : (∃ r st, g = mkG (Work r) st) ∨ (store s1 = store s ∧ ran s1 = ran s)).
  { destruct Hm as [| | | | | | | | | | | |r st s2 e Hw| | | |r todo st| | | | |]; try (by right); [left; eauto|..]; right.
    - unfold onNode. cbv zeta. destruct (_ <=? _); [|done]. unfold flushPrepBatch. by case_decide.
    - unfold flushPrepBatch. by case_decide. }
  destruct Hcase as [(r & st & Hgw)|?]; [|by left]. destruct (work_outcome r st Hgw) as (e & _ & _ & Ht & Hf). destruct e.
  - destruct (Ht eq_refl) as [_ ->]. by left.
  - destruct (Hf eq_refl) as [Hgood [[-> _]|[Hn ->]]]; [by left|]. right. exists r. split; [|done].
    apply running_order. eapply (iv_own _ _ Hs i); [done|]. rewrite Hgw. by left.
Qed.

Lemma store_grows : store s ⊆ store s1.
Proof. destruct move_store as [[-> _]|(r & _ & _ & _ & -> & _)]; set_solver. Qed.

Lemma verdict_mono x : store s ⊆ store s1 → verdict s x → verdict s1 x.
Proof. intros Hsub. unfold verdict. destruct (ctl x) as [| | | | |? []|? []|? []| | | | | |]; try done; intros [? ?]; set_solver. Qed.

Lemma omove_verdict : verdict s1 g'.
Proof.
  pose proof store_grows as Hsub. pose proof (ov_verdict _ _ Ho i g Hg) as Hv.
  pose proof work_outcome as Hwork. pose proof (iv_wf _ _ Hs i g Hg) as Hwf.
  destruct Hm as [| | | | |r ds st| | | | | |r st Hio|r st s2 e Hw|r e st|r e st| | | | | | |]; try done.
  - destruct Hwf as (cur & Hcur & (pre & Hd & _) & _). unfold verdict. simpl.
    apply (bad_dep r cur); [eapply (iv_own _ _ Hs i); [done|by left]|rewrite Hd; set_solver|by apply (ov_bad _ _ Ho)].
  - exfalso. apply Hio. unfold answer. by rewrite Hg.
  - destruct (Hwork r st eq_refl) as (e' & He & _ & Ht & Hf). injection He as <-. unfold verdict. simpl. destruct e.
    + by destruct (Ht eq_refl).
    + destruct (Hf eq_refl) as [Hgood [[-> ?]|[_ ->]]]; [done|]. split; [done|]. simpl. set_solver.
Qed.

(** The status a node gets when its once.Do ends. *)
Lemma move_done r e : futs s1 !! r = Some (Done e) → futs s !! r = Some (Done e) ∨ ctl g = Finish r e.
Proof.
  destruct (move_touch _ _ Hs i _ g g' s1 Hg Hm) as [q Hq _ _ ->|q e' Hk _ ->|q todo Hq _ _ ->|_ ->]; [..|by left].
  - rewrite lookup_insert_Some. intros [[_ [=]]|[_ ?]]. by left.
  - rewrite lookup_insert_Some. intros [[<- [= <-]]|[_ ?]]; [by right|by left].
  - rewrite lookup_insert_Some. intros [[_ [=]]|[_ ?]]. by left.
Qed.

Lemma omove_inv : oinv prep (setG s1 i g').
Proof.
  pose proof store_grows as Hsub. pose proof omove_verdict as Hv'. pose proof (ov_verdict _ _ Ho i g Hg) as Hv.
  split.
  - etrans; [apply (ov_cached _ _ Ho)|done].
  - intros u Hu. destruct move_store as [[Hst _]|(r & Hro & Hgood & _ & Hst & _)]; simpl in Hu; rewrite Hst in Hu.
    + by apply (ov_store _ _ Ho).
    + apply elem_of_union in Hu as [->%elem_of_singleton|Hu]; [right; eauto|by apply (ov_store _ _ Ho)].
  - intros r [Hd|Hk]%move_done.
    + destruct (ov_ok _ _ Ho r Hd). split; [done|set_solver].
    + unfold verdict in Hv. rewrite Hk in Hv. destruct Hv. split; [done|set_solver].
  - intros r [Hd|Hk]%move_done; [by apply (ov_bad _ _ Ho)|]. unfold verdict in Hv. by rewrite Hk in Hv.
  - intros j x Hx. destruct (lookup_setG _ _ _ _ _ _ _ _ Hm Hg Hx) as [[-> ->]|[_ Hx']].
    + exact Hv'.
    + apply (verdict_mono x Hsub). by eapply (ov_verdict _ _ Ho).
  - intros r Hr Hu. apply (touch_grows _ _ Hs i _ g g' s1 Hg Hm). by apply (ov_skipped _ _ Ho).
  - intros r Hr Hf. assert (Hfr : futs s !! r = Some Fresh).
    { simpl in Hf. revert Hf. assert (Hsome : is_Some (futs s !! r)) by (apply (iv_dom _ _ Hs), elem_of_app; by left).
      destruct (move_touch _ _ Hs i _ g g' s1 Hg Hm) as [q Hq _ _ ->|q e' Hk _ ->|q todo Hq _ _ ->|_ ->]; [..|done];
        rewrite lookup_insert_Some; intros [[<- ?]|[_ ?]]; try done. rewrite Hq in Hsome. by destruct Hsome. }
    destruct (ov_fired _ _ Ho r Hr Hfr) as [j Hj]. exists j. eapply lookup_setG_2; [done..|]. right. split; [|done].
    intros ->. rewrite Hg in Hj. injection Hj as ->. simpl in Hf. inversion Hm; subst; try congruence.
    simpl in Hf. rewrite lookup_insert_eq in Hf. done.
  - destruct (ov_ran _ _ Ho) as [Hn Hr]. destruct move_store as [[_ Hran]|(r & _ & Hgood & Hnin & Hst & Hran)]; simpl; rewrite Hran.
    + split; [done|]. intros x Hx. destruct (Hr x Hx). split; [done|set_solver].
    + split.
      * rewrite fmap_app. apply NoDup_app. split; [done|]. split; [|apply NoDup_singleton].
        intros u (x & -> & Hx)%list_elem_of_fmap Hu. apply list_elem_of_singleton in Hu. destruct (Hr x Hx). congruence.
      * rewrite Hst. intros x [Hx|Hx]%elem_of_app.
        -- destruct (Hr x Hx). split; [done|set_solver].
        -- apply list_elem_of_singleton in Hx as ->. split; [done|set_solver].
  - assert (He : exited s1 = exited s).
    { destruct Hm as [| | | | | | | | | | | |r st s2 e Hw| | | |r todo st| | | | |]; try done.
      - unfold work in Hw. case_decide; [by simplify_eq|]. destruct (answer _ _); [destruct (forallb _ _)| |]; simplify_eq; try done.
        by case_bool_decide.
      - unfold onNode. cbv zeta. destruct (_ <=? _); [|done]. unfold flushPrepBatch. by case_decide.
      - unfold flushPrepBatch. by case_decide. }
    simpl. rewrite He. apply (ov_exit _ _ Ho).
Qed.
End omove.

Lemma oprepare_inv s' : prepare c s = Some s' → ∃ prep', inv prep' s' ∧ oinv prep' s'.
Proof.
  intros Hp. pose proof Hp as Hp'. unfold prepare in Hp. destruct (queue s) as [|r q] eqn:Hq; [done|].
  assert (Hr : futs s !! r = Some Fresh) by (apply (iv_fresh _ _ Hs); rewrite Hq; by left).
  exists (prep ++ [r]). split; [by eapply prepare_inv_at|]. rewrite Hr in Hp. cbn [mbind option_bind] in Hp.
  assert (Hne : ∀ x, x ∈ prep → x ≠ r).
  { intros x Hx ->. destruct (queue_head _ _ Hs r q Hq) as [(g0 & _ & Harr) _].
    destruct (arrived_prefix _ _ _ (Harr (mkState ∅ (prepBatch s) 0 q 0 ∅ ∅ [] 0 0 0 [] false) eq_refl eq_refl)) as [rest Hord].
    clear Hfirst Hroots. rewrite Hord in Hnd. apply NoDup_app in Hnd as (Hn & _ & _).
    apply NoDup_app in Hn as (_ & Hdis & _). apply (Hdis r Hx). set_solver. }
  destruct Ho as [Hc Hst Hok Hbad Hver Hsk Hfi Hra Hex].
  unfold uidCached in Hp. destruct (bool_decide _ || bool_decide _) eqn:Hcached; injection Hp as <-.
  - assert (Hstored : uid c r ∈ store s).
    { apply orb_true_iff in Hcached as [Hu%bool_decide_eq_true|Hu%bool_decide_eq_true]; [|done]. set_solver. }
    assert (Hgood : good r).
    { assert (Hro : r ∈ order) by (apply (in_order _ _ Hs), (iv_dom _ _ Hs); by rewrite Hr).
      destruct (Hst _ Hstored) as [?|(r' & Hr' & Hu & Hg)]; [by apply good_cached|by apply (good_uid r')]. }
    split; simpl; try done.
    + intros x. rewrite lookup_insert_Some. intros [[<- _]|[_ ?]]; [done|auto].
    + intros x. rewrite lookup_insert_Some. intros [[_ [=]]|[_ ?]]. auto.
    + intros x [Hx|Hx]%elem_of_app Hu.
      * rewrite lookup_insert_ne by (by apply not_eq_sym, Hne). auto.
      * apply list_elem_of_singleton in Hx as ->. apply lookup_insert_eq.
    + intros x [Hx|Hx]%elem_of_app.
      * rewrite lookup_insert_ne by (by apply not_eq_sym, Hne). auto.
      * apply list_elem_of_singleton in Hx as ->. by rewrite lookup_insert_eq.
  - rewrite insert_id by done.
    assert (Hunc : uid c r ∉ cached).
    { intros Hu. apply orb_false_iff in Hcached as [_ Hu'%bool_decide_eq_false]. set_solver. }
    split; simpl; try done.
    + intros j x [Hx|[_ Hx]]%lookup_app_Some; [by eapply Hver|]. by apply list_lookup_singleton_Some in Hx as [_ <-].
    + intros x [Hx|Hx]%elem_of_app Hu; [auto|]. apply list_elem_of_singleton in Hx as ->. done.
    + intros x [Hx|Hx]%elem_of_app Hf.
      * destruct (Hfi x Hx Hf) as [j Hj]. exists j. by apply lookup_app_l_Some.
      * apply list_elem_of_singleton in Hx as ->. exists (length (gs s)). by rewrite lookup_app_r, Nat.sub_diag by lia.
Qed.

Lemma ostep_inv t s' : step c s t (answer s t) = Some s' → ∃ prep', inv prep' s' ∧ oinv prep' s'.
Proof.
  unfold step. destruct (exited s) eqn:He; [done|]. destruct t as [|i]; [apply oprepare_inv|].
  intros [(-> & Hkg & st & Hg)|(g & g' & s1 & Hg & Hm & ->)]%goStep_move; exists prep.
  - split; [by apply exit_inv|]. destruct (iv_wf _ _ Hs i _ Hg) as (cur & Hcur & _). apply (ov_bad _ _ Ho) in Hcur.
    destruct Ho. split; simpl; eauto.
  - split; [by eapply move_inv|by eapply omove_inv].
Qed.
End ostep.

Lemma oinit_inv : oinv [] (newExecutor cached order).
Proof.
  split; simpl.
  - done.
  - by left.
  - by intros r ?.
  - by intros r ?.
  - intros i g Hg. by apply list_lookup_singleton_Some in Hg as [_ <-].
  - by intros r ?%not_elem_of_nil.
  - by intros r ?%not_elem_of_nil.
  - split; [constructor|by intros r ?%not_elem_of_nil].
  - done.
Qed.

Lemma threads_inv prep s sched s' : inv prep s → oinv prep s → runThreads s sched = Some s' →
  ∃ prep', inv prep' s' ∧ oinv prep' s'.
Proof.
  revert prep s. induction sched as [|t sched IH]; intros prep s Hs Ho; simpl; [intros [= <-]; eauto|].
  destruct (step c s t (answer s t)) as [s1|] eqn:Hst; [|done].
  destruct (ostep_inv prep s Hs Ho t s1 Hst) as (prep1 & Hs1 & Ho1). by apply (IH prep1).
Qed.

(** Everything is decided at the end. *)
Lemma finished_status prep s r : inv prep s → oinv prep s → finished s → r ∈ order →
  ∃ e, futs s !! r = Some (Done e) ∧ (e = false ↔ good r).
Proof.
  intros Hs Ho Hf Hr.
  assert (Hstop : ∀ i g, gs s !! i = Some g → g = mkG Stop []).
  { intros i g Hg. pose proof (iv_wf _ _ Hs i g Hg) as Hwf. unfold wf_g in Hwf.
    assert (Hk : ctl g = Stop) by (apply Hf; by eapply list_elem_of_lookup_2). rewrite Hk in Hwf. destruct g. simpl in *. by subst. }
  destruct (iv_main _ _ Hs) as (g0 & Hg0 & Ha). apply Hstop in Hg0 as ->. destruct Ha as (Hord & _ & _). rewrite Hord in Hr.
  assert (Hsome : is_Some (futs s !! r)) by (apply (iv_dom _ _ Hs), elem_of_app; by left).
  destruct Hsome as [[| |e] Hst].
  - destruct (ov_fired _ _ Ho r Hr Hst) as [j Hj]. by apply Hstop in Hj.
  - destruct (iv_owner _ _ Hs r Hst) as (j & x & Hx & Hin). apply Hstop in Hx as ->. by apply not_elem_of_nil in Hin.
  - exists e. split; [done|]. destruct e.
    + split; [done|]. intros Hgood. by destruct (ov_bad _ _ Ho r Hst).
    + split; [|done]. intros _. by apply (ov_ok _ _ Ho).
Qed.
End outcome.
End exec.
