(* ===== verification/Build.v ===== *)
(** * Building a graph: the emitter and the executor together

    The theorems about all schedules of the executor, for the nodes in the order
    in which the emitter hands them over. *)

From S2P Require Import Prelude Emitter Executor ExecutorProofs.
Local Open Scope Z_scope.

(** What the executor relies on: the nodes it gets are distinct, each comes after
    its dependencies, and the roots are among them. *)
Record arrives (c : Config) (order : list Z) : Prop := {
  ar_nodup : NoDup order;
  ar_first : ∀ l1 r l2 d, order = l1 ++ r :: l2 → d ∈ deps c r → d ∈ l1;
  ar_roots : roots c ⊆ order;
  ar_threads : (1 <= threads c)%nat }.

Lemma arrives_inv c order cached sched s :
  arrives c order → runSchedule c (newExecutor cached order) sched = Some s → ∃ prep, inv c order prep s.
Proof.
  intros [Hnd Hf Hr _] Hrun. eapply (schedule_inv c order Hnd Hf Hr); [apply init_inv|exact Hrun].
Qed.



Definition steps_bound c (order : list Z) : nat :=
  4 * length order + 3 * length (roots c) + sum_list ((λ r, 3 * length (deps c r) + 7)%nat <$> order) + 5.

(** C6: every schedule ends, after a number of steps bounded by the graph. *)
Theorem executor_terminates c order cached sched s :
  arrives c order → runSchedule c (newExecutor cached order) sched = Some s → (length sched <= steps_bound c order)%nat.
Proof.
  intros Ha Hrun. destruct Ha as [Hnd Hf Hr _].
  pose proof (schedule_weight c order Hnd Hf Hr [] _ _ _ (init_inv c order cached) Hrun) as Hw.
  assert (Hinit : weight c order (newExecutor cached order) = steps_bound c order); [|lia].
  assert (E : w_node c (newExecutor cached order) <$> order = (λ r, 3 * length (deps c r) + 7)%nat <$> order) by done.
  unfold weight. rewrite E. unfold steps_bound. set (n := sum_list _). set (m := sum_list (_ <$> order)).
  assert (n = 4 * length order + 3 * length (roots c) + 4)%nat as -> by (unfold n; simpl; unfold w_g; simpl; lia). simpl. lia.
Qed.


(** ** A sample run *)

(** Keep running the first thread that can go. *)
Fixpoint drive (c : Config) (works : Z → bool) (fuel : nat) (s : State) : list Thread * State :=
  match fuel with
  | O => ([], s)
  | S fuel =>
      match list_find (λ t, is_Some (step c s t (answer c works s t))) (EventLoop :: (Go <$> seq 0 (length (gs s)))) with
      | Some (_, t) =>
          match step c s t (answer c works s t) with
          | Some s => let '(ts, s) := drive c works fuel s in (t :: ts, s)
          | None => ([], s)
          end
      | None => ([], s)
      end
  end.

(** Node 3 needs 1 and 2, which need 0; node 2 fails. *)
Definition diamond : Config :=
  mkConfig 1 true ∅ (λ r, if r =? 3 then [1; 2] else if r =? 0 then [] else [0]) (λ r, 10 + r) [3; 1].
Definition diamond_works (u : Z) : bool := negb (u =? 12).
Definition diamond_start : State := newExecutor ∅ [0; 1; 2; 3].

Lemma diamond_arrives : arrives diamond [0; 1; 2; 3].
Proof.
  split.
  - apply (bool_decide_unpack _). vm_compute. exact I.
  - intros l1 r l2 d Ho Hd.
    do 4 (destruct l1 as [|? l1]; [injection Ho as <- <-; vm_compute in Hd; apply list_elem_of_In in Hd; simpl in Hd;
      apply list_elem_of_In; simpl; tauto|injection Ho as <- Ho]). by destruct l1.
  - intros r Hr. apply list_elem_of_In in Hr. apply list_elem_of_In. simpl in *. tauto.
  - simpl. lia.
Qed.

Definition diamond_run : list Thread := (drive diamond diamond_works 100 diamond_start).1.


(** The same run as a schedule with the answers written out. *)
Fixpoint answered (c : Config) (works : Z → bool) (s : State) (ts : list Thread) : list (Thread * IO) :=
  match ts with
  | [] => []
  | t :: ts =>
      (t, answer c works s t) ::
      match step c s t (answer c works s t) with Some s => answered c works s ts | None => [] end
  end.



Lemma executor_terminates_witness :
  (length (answered diamond diamond_works diamond_start diamond_run) <= steps_bound diamond [0; 1; 2; 3]%Z)%nat.
Proof.
  assert (Hrun : ∃ s, runSchedule diamond diamond_start (answered diamond diamond_works diamond_start diamond_run) = Some s)
    by (vm_compute; eexists; reflexivity).
  destruct Hrun as [s Hrun]. exact (executor_terminates diamond [0; 1; 2; 3] ∅ _ s diamond_arrives Hrun).
Defined.

(** ** The emitter keeps the executor's promise *)

Definition depsOf (e : Emitter) (r : Z) : list Z :=
  match zget (nodes e) r with Some (Some n) => buildDeps (fetchRefs e) n | _ => [] end.

Lemma depsOf_edge e r d : d ∈ depsOf e r ↔ edge e r d.
Proof.
  unfold depsOf, edge. destruct (zget (nodes e) r) as [[n|]|] eqn:Hn.
  - split; [by exists n|]. intros (n' & ? & ?). by simplify_eq.
  - split; [by intros ?%not_elem_of_nil|]. by intros (n' & ? & ?).
  - split; [by intros ?%not_elem_of_nil|]. by intros (n' & ? & ?).
Qed.


Definition three : res Emitter :=
  let node deps := mkNode deps [] [] [] [] [7] false false in
  let '(e, a) := reserve newStreamingEmitter in
  '(e, b) ← emit e (node [a]);
  '(e, c) ← emit e (node [b; a]);
  e ← emitReserved e (node []) a;
  Ok (result e c).

