(* ===== verification/Uid.v ===== *)
(** * Node identities (uid.go, uid_accum_other.go)

    A node's uid is a hash of a canonical byte string: commands, dependency uids,
    environment, inputs, outputs, platform.  Strings enter through the second
    half of their hash ([lo]), inputs through four sums that do not depend on
    their order, memoised per chunk.  Proved here: the byte string determines
    everything it is made from, up to two ambiguities, and is determined by it. *)

From S2P Require Import Prelude Intern Emitter Tags.
Local Open Scope Z_scope.

(** ** Data *)

Record Cmd := mkCmd { CmdArgs : list (list Z); Cwd : Z; CmdEnv : list (Z * Z); Stdout : Z }.

(** The parts of a node that are hashed; a chunk of inputs is known by the
    address and the length of its slice. *)
Record UNode := mkUNode {
  base : Node;                 (** DepRefs, ForeignDepRefs, Resources, Outputs *)
  Cmds : list Cmd;
  NodeEnv : list (Z * Z);
  Target : list Z;
  UIDSalt : Z;
  ResourceURIs : list Z;
  InputNames : list Z }.

Record Chunk := mkChunk { addr : Z; files : list Z }.

Record Accum := mkAccum { sum : Z; xor : Z; sq : Z; cb : Z }.

Record Memo := mkMemo {
  chunkMemo : gmap (Z * Z) Accum;
  eVals : gmap Z Z }.          (** [eSeen] is its domain *)

(** The string table, the uids of the futures, the content hashes. *)
Class Hashes := {
  lo : Z → Z;
  uidHi : Z → Z; uidLo : Z → Z;
  envStr : Z → Z;              (** ENV to STR *)
  fetchRefs_ : gmap Z Z;
  sourceHash : Z → Z }.

Section uid.
Context `{Hashes}.

(** ** Writers *)

Definition writeByte (b : Z) : list Z := [b].
Definition writeUint32 (n : Z) : list Z := [u8 n; u8 (Z.shiftr n 8); u8 (Z.shiftr n 16); u8 (Z.shiftr n 24)].
Definition writeUint64 (n : Z) : list Z :=
  [u8 n; u8 (Z.shiftr n 8); u8 (Z.shiftr n 16); u8 (Z.shiftr n 24);
   u8 (Z.shiftr n 32); u8 (Z.shiftr n 40); u8 (Z.shiftr n 48); u8 (Z.shiftr n 56)].
Definition writeBytes (s : list Z) : list Z := writeUint32 (u32 (Z.of_nat (length s))) ++ s.
Definition writeSTR (s : Z) : list Z := writeUint64 (lo s).

Definition writeUid (r : Z) : list Z := writeUint64 (uidHi r) ++ writeUint64 (uidLo r).
Definition writeRefUIDs (refs : list Z) : list Z :=
  writeUint32 (u32 (Z.of_nat (length refs))) ++ mjoin (writeUid <$> refs).

(** The count is computed by a pass of its own. *)
Definition writeDepRefUIDs (n : Node) : list Z :=
  let fetched := omap (resourceRef fetchRefs_ n) (Resources n) in
  writeUint32 (u32 (Z.of_nat (length (DepRefs n)) + Z.of_nat (length fetched))) ++
  mjoin (writeUid <$> DepRefs n) ++ mjoin (writeUid <$> fetched).

Definition writeVFS (v : Z) : list Z := writeByte (u8 (Z.land v 1)) ++ writeUint64 (lo (Z.shiftr v 1)).

Definition writeANY (a : Z) : list Z :=
  let v := any_vfs a in
  if negb (v =? 0) then writeByte (u8 (Z.lor 1 (Z.shiftl (Z.land v 1) 1))) ++ writeUint64 (lo (Z.shiftr v 1))
  else writeByte 0 ++ writeUint64 (lo (any_str a)).

Definition writeAnyChunks (chunks : list (list Z)) : list Z :=
  writeUint32 (u32 (Z.of_nat (sum_list (length <$> chunks)))) ++ mjoin ((λ ch, mjoin (writeANY <$> ch)) <$> chunks).

Definition writeEnv (env : list (Z * Z)) : list Z :=
  writeUint32 (u32 (Z.of_nat (length env))) ++ mjoin ((λ e, writeSTR (envStr e.1) ++ writeANY e.2) <$> env).

Definition writeCwd (cwd : Z) : list Z :=
  let v := any_vfs cwd in if negb (v =? 0) || (cwd =? 0) then writeVFS v else writeANY cwd.

Definition writeCmd (cm : Cmd) : list Z :=
  writeAnyChunks (CmdArgs cm) ++ writeCwd (Cwd cm) ++ writeEnv (CmdEnv cm) ++ writeVFS (Stdout cm).

Definition writeCmdSlice (cmds : list Cmd) : list Z :=
  writeUint32 (u32 (Z.of_nat (length cmds))) ++ mjoin (writeCmd <$> cmds).

Definition writeVFSSliceBody (vs : list Z) : list Z := mjoin (writeVFS <$> vs).
Definition writeVFSSlice (vs : list Z) : list Z := writeUint32 (u32 (Z.of_nat (length vs))) ++ writeVFSSliceBody vs.

(** ** Inputs *)

(** [uidAccum], the portable loop *)
Definition accumStep (a : Accum) (e : Z) : Accum :=
  let t := u64 (e * e) in mkAccum (u64 (sum a + e)) (Z.lxor (xor a) e) (u64 (sq a + t)) (u64 (cb a + u64 (t * e))).
Definition noAccum : Accum := mkAccum 0 0 0 0.
Definition uidAccum (es : list Z) : Accum := foldl accumStep noAccum es.

(** [inputVal] without its memo *)
Definition inputHash (v : Z) : Z :=
  let e := Z.lxor (lo (Z.shiftr v 1)) (Z.land v 1) in if isSource v then Z.lxor e (sourceHash v) else e.

Definition inputVal (m : Memo) (v : Z) : Memo * Z :=
  match eVals m !! v with
  | Some e => (m, e)
  | None => (mkMemo (chunkMemo m) (<[v := inputHash v]> (eVals m)), inputHash v)
  end.

Fixpoint inputVals (m : Memo) (vs : list Z) : Memo * list Z :=
  match vs with
  | [] => (m, [])
  | v :: vs => let '(m, e) := inputVal m v in let '(m, es) := inputVals m vs in (m, e :: es)
  end.

Definition chunkAccumOf (m : Memo) (ch : list Z) : Memo * Accum :=
  let '(m, es) := inputVals m ch in (m, uidAccum es).

Definition addAccum (a b : Accum) : Accum :=
  mkAccum (u64 (sum a + sum b)) (Z.lxor (xor a) (xor b)) (u64 (sq a + sq b)) (u64 (cb a + cb b)).

Definition chunkKey (ch : Chunk) : Z * Z := (addr ch, Z.of_nat (length (files ch))).

Definition addChunk (s : Memo * Accum) (ch : Chunk) : Memo * Accum :=
  let '(m, acc) := s in
  if decide (files ch = []) then (m, acc)
  else
    match chunkMemo m !! chunkKey ch with
    | Some a => (m, addAccum acc a)
    | None =>
        let '(m, a) := chunkAccumOf m (files ch) in
        (mkMemo (<[chunkKey ch := a]> (chunkMemo m)) (eVals m), addAccum acc a)
    end.

Definition writeAccum (a : Accum) : list Z :=
  writeUint64 (sum a) ++ writeUint64 (xor a) ++ writeUint64 (sq a) ++ writeUint64 (cb a).

Definition totalFiles (chunks : list Chunk) : Z := Z.of_nat (sum_list ((λ ch, length (files ch)) <$> chunks)).

Definition writeVFSChunks (m : Memo) (chunks : list Chunk) : Memo * list Z :=
  let '(m', acc) := foldl addChunk (m, noAccum) chunks in
  (m', writeUint32 (u32 (totalFiles chunks)) ++ writeAccum acc).

(** [writeNode] *)
Definition writeNode (m : Memo) (n : UNode) (inputs : list Chunk) : Memo * list Z :=
  let '(m, ins) := writeVFSChunks m inputs in
  (m, writeCmdSlice (Cmds n) ++ writeDepRefUIDs (base n) ++ writeEnv (NodeEnv n) ++
      writeRefUIDs (ForeignDepRefs (base n)) ++ ins ++ writeVFSSlice (Outputs (base n)) ++ writeBytes (Target n) ++
      (if negb (UIDSalt n =? 0) then writeSTR (UIDSalt n) else []) ++
      mjoin (writeSTR <$> ResourceURIs n) ++ mjoin (writeSTR <$> InputNames n)).

Definition calcUID (hash128 : list Z → Z * Z) (m : Memo) (n : UNode) (inputs : list Chunk) : Memo * (Z * Z) :=
  let '(m, buf) := writeNode m n inputs in (m, hash128 buf).

(** ** What a node is hashed from *)

Record Finger := mkFinger {
  fCmds : list (list (Z * Z) * (Z * Z) * list (Z * (Z * Z)) * (Z * Z));
  fDeps : list (Z * Z);
  fEnv : list (Z * (Z * Z));
  fForeign : list (Z * Z);
  fTotal : Z;
  fAccum : Accum;
  fOutputs : list (Z * Z);
  fTarget : list Z;
  fTail : list Z }.

Definition vfsKey (v : Z) : Z * Z := (u8 (Z.land v 1), lo (Z.shiftr v 1)).
Definition anyKey (a : Z) : Z * Z :=
  let v := any_vfs a in
  if negb (v =? 0) then (u8 (Z.lor 1 (Z.shiftl (Z.land v 1) 1)), lo (Z.shiftr v 1)) else (0, lo (any_str a)).
Definition envKey (e : Z * Z) : Z * (Z * Z) := (lo (envStr e.1), anyKey e.2).
Definition uidKey (r : Z) : Z * Z := (uidHi r, uidLo r).

(** The directory of a command: a text is not told from a source directory. *)
Definition cwdKey (cwd : Z) : Z * Z :=
  let v := any_vfs cwd in if negb (v =? 0) || (cwd =? 0) then vfsKey v else anyKey cwd.
Definition cmdKey (cm : Cmd) : list (Z * Z) * (Z * Z) * list (Z * (Z * Z)) * (Z * Z) :=
  (anyKey <$> mjoin (CmdArgs cm), cwdKey (Cwd cm), envKey <$> CmdEnv cm, vfsKey (Stdout cm)).

(** The salt, the resources and the input names run into each other. *)
Definition tailKey (n : UNode) : list Z :=
  lo <$> ((if negb (UIDSalt n =? 0) then [UIDSalt n] else []) ++ ResourceURIs n ++ InputNames n).

Definition finger (n : UNode) (inputs : list Chunk) : Finger :=
  mkFinger (cmdKey <$> Cmds n)
    (uidKey <$> DepRefs (base n) ++ omap (resourceRef fetchRefs_ (base n)) (Resources (base n)))
    (envKey <$> NodeEnv n) (uidKey <$> ForeignDepRefs (base n)) (totalFiles inputs)
    (uidAccum (inputHash <$> mjoin (files <$> inputs))) (vfsKey <$> Outputs (base n)) (Target n) (tailKey n).
End uid.

(** ** The encoding of a fingerprint *)

Definition encTag (k : Z * Z) : list Z := k.1 :: writeUint64 k.2.
Definition encPair (k : Z * Z) : list Z := writeUint64 k.1 ++ writeUint64 k.2.
Definition encEnv (k : Z * (Z * Z)) : list Z := writeUint64 k.1 ++ encTag k.2.
Definition counted {A} (enc : A → list Z) (l : list A) : list Z :=
  writeUint32 (u32 (Z.of_nat (length l))) ++ mjoin (enc <$> l).
Definition encCmd (k : list (Z * Z) * (Z * Z) * list (Z * (Z * Z)) * (Z * Z)) : list Z :=
  counted encTag k.1.1.1 ++ encTag k.1.1.2 ++ counted encEnv k.1.2 ++ encTag k.2.
Definition encode (f : Finger) : list Z :=
  counted encCmd (fCmds f) ++ counted encPair (fDeps f) ++ counted encEnv (fEnv f) ++ counted encPair (fForeign f) ++
  (writeUint32 (u32 (fTotal f)) ++ writeAccum (fAccum f)) ++ counted encTag (fOutputs f) ++ writeBytes (fTarget f) ++
  mjoin (writeUint64 <$> fTail f).

Fixpoint le (k : nat) (n : Z) : list Z := match k with O => [] | S k => u8 n :: le k (Z.shiftr n 8) end.

Lemma writeUint32_le n : writeUint32 n = le 4 n.
Proof. unfold writeUint32. simpl. by rewrite !Z.shiftr_shiftr by lia. Qed.

Lemma writeUint64_le n : writeUint64 n = le 8 n.
Proof. unfold writeUint64. simpl. by rewrite !Z.shiftr_shiftr by lia. Qed.

Lemma le_inj k a b r r' : 0 <= a < 2 ^ (8 * Z.of_nat k) → 0 <= b < 2 ^ (8 * Z.of_nat k) →
  le k a ++ r = le k b ++ r' → a = b ∧ r = r'.
Proof.
  revert a b. induction k as [|k IH]; intros a b Ha Hb; simpl.
  { simpl in Ha, Hb. intros ->. split; [lia|done]. }
  intros [= Hlow Hrest]. rewrite !Z.shiftr_div_pow2 in Hrest by lia. unfold u8 in Hlow. change (2 ^ 8) with 256 in *.
  assert (Hk : 2 ^ (8 * Z.of_nat (S k)) = 256 * 2 ^ (8 * Z.of_nat k)).
  { replace (8 * Z.of_nat (S k)) with (8 + 8 * Z.of_nat k) by lia. by rewrite Z.pow_add_r by lia. }
  rewrite Hk in Ha, Hb. destruct (IH (a / 256) (b / 256)) as [Hd Hr]; [..|done|].
  - split; [apply Z.div_pos; lia|apply Z.div_lt_upper_bound; lia].
  - split; [apply Z.div_pos; lia|apply Z.div_lt_upper_bound; lia].
  - split; [|done]. rewrite (Z.div_mod a 256), (Z.div_mod b 256) by lia. lia.
Qed.

(** Reading one value off the front. *)
Definition prefix_free {A} (ok : A → Prop) (enc : A → list Z) : Prop :=
  ∀ a b r r', ok a → ok b → enc a ++ r = enc b ++ r' → a = b ∧ r = r'.

Lemma free_u32 : prefix_free (λ n, is_u32 n) writeUint32.
Proof. intros a b r r' Ha Hb. rewrite !writeUint32_le. by apply le_inj. Qed.

Lemma free_u64 : prefix_free (λ n, is_u64 n) writeUint64.
Proof. intros a b r r' Ha Hb. rewrite !writeUint64_le. by apply le_inj. Qed.

Definition ok_tag (k : Z * Z) : Prop := is_u64 k.2.
Definition ok_pair (k : Z * Z) : Prop := is_u64 k.1 ∧ is_u64 k.2.
Definition ok_env (k : Z * (Z * Z)) : Prop := is_u64 k.1 ∧ ok_tag k.2.
Definition ok_list {A} (ok : A → Prop) (l : list A) : Prop := Z.of_nat (length l) < 2 ^ 32 ∧ Forall ok l.
Definition ok_cmd (k : list (Z * Z) * (Z * Z) * list (Z * (Z * Z)) * (Z * Z)) : Prop :=
  ok_list ok_tag k.1.1.1 ∧ ok_tag k.1.1.2 ∧ ok_list ok_env k.1.2 ∧ ok_tag k.2.
Definition ok_accum (a : Accum) : Prop := is_u64 (sum a) ∧ is_u64 (xor a) ∧ is_u64 (sq a) ∧ is_u64 (cb a).

Record ok_finger (f : Finger) : Prop := {
  okf_cmds : ok_list ok_cmd (fCmds f);
  okf_deps : ok_list ok_pair (fDeps f);
  okf_env : ok_list ok_env (fEnv f);
  okf_foreign : ok_list ok_pair (fForeign f);
  okf_total : is_u32 (fTotal f);
  okf_accum : ok_accum (fAccum f);
  okf_outputs : ok_list ok_tag (fOutputs f);
  okf_target : Z.of_nat (length (fTarget f)) < 2 ^ 32;
  okf_tail : Forall (λ n, is_u64 n) (fTail f) }.

Lemma free_tag : prefix_free ok_tag encTag.
Proof.
  intros [a1 a2] [b1 b2] r r' Ha Hb. unfold encTag. cbn [fst snd]. intros E. rewrite <-!app_comm_cons in E.
  apply (inj2 cons) in E as [-> E]. apply free_u64 in E as [-> ->]; done.
Qed.

Lemma free_pair : prefix_free ok_pair encPair.
Proof.
  intros [a1 a2] [b1 b2] r r' [Ha1 Ha2] [Hb1 Hb2]. unfold encPair. cbn [fst snd sum xor sq cb] in *. rewrite <-!app_assoc. intros E.
  apply free_u64 in E as [-> E]; [|done..]. apply free_u64 in E as [-> ->]; done.
Qed.

Lemma free_env : prefix_free ok_env encEnv.
Proof.
  intros [a1 a2] [b1 b2] r r' [Ha1 Ha2] [Hb1 Hb2]. unfold encEnv. cbn [fst snd sum xor sq cb] in *. rewrite <-!app_assoc. intros E.
  apply free_u64 in E as [-> E]; [|done..]. apply free_tag in E as [-> ->]; done.
Qed.

Lemma free_join {A} (ok : A → Prop) enc l l' r r' : prefix_free ok enc → length l = length l' → Forall ok l → Forall ok l' →
  mjoin (enc <$> l) ++ r = mjoin (enc <$> l') ++ r' → l = l' ∧ r = r'.
Proof.
  intros Hf. revert l'. induction l as [|a l IH]; intros [|b l'] Hlen Hl Hl'; try done. csimpl. rewrite <-!app_assoc.
  apply Forall_cons in Hl as [Ha Hl]. apply Forall_cons in Hl' as [Hb Hl']. intros E.
  apply Hf in E as [-> E]; [|done..]. simpl in Hlen. destruct (IH l') as [-> ->]; [lia|done..].
Qed.

Lemma free_counted {A} (ok : A → Prop) enc : prefix_free ok enc → prefix_free (ok_list ok) (counted enc).
Proof.
  intros Hf l l' r r' [Hn Hl] [Hn' Hl']. unfold counted. rewrite <-!app_assoc. intros E.
  apply free_u32 in E as [Hlen E]; [|apply u32_range..]. rewrite !u32_id in Hlen by lia. by apply (free_join ok enc); [|lia|..].
Qed.

Lemma free_cmd : prefix_free ok_cmd encCmd.
Proof.
  intros [[[a1 a2] a3] a4] [[[b1 b2] b3] b4] r r' (Ha1 & Ha2 & Ha3 & Ha4) (Hb1 & Hb2 & Hb3 & Hb4). unfold encCmd.
  cbn [fst snd sum xor sq cb] in *. rewrite <-!app_assoc. intros E.
  apply (free_counted _ _ free_tag) in E as [-> E]; [|done..]. apply free_tag in E as [-> E]; [|done..].
  apply (free_counted _ _ free_env) in E as [-> E]; [|done..]. apply free_tag in E as [-> ->]; done.
Qed.

Lemma free_accum : prefix_free ok_accum writeAccum.
Proof.
  intros [] [] r r' (?&?&?&?) (?&?&?&?). unfold writeAccum. cbn [fst snd sum xor sq cb] in *. rewrite <-!app_assoc. intros E.
  apply free_u64 in E as [-> E]; [|done..]. apply free_u64 in E as [-> E]; [|done..].
  apply free_u64 in E as [-> E]; [|done..]. apply free_u64 in E as [-> ->]; done.
Qed.

Lemma free_bytes : prefix_free (λ s, Z.of_nat (length s) < 2 ^ 32) writeBytes.
Proof.
  intros a b r r' Ha Hb. unfold writeBytes. rewrite <-!app_assoc. intros E.
  apply free_u32 in E as [Hlen E]; [|apply u32_range..]. rewrite !u32_id in Hlen by lia. apply app_inj_1 in E; [done|lia].
Qed.

Lemma tail_inj l l' : Forall (λ n, is_u64 n) l → Forall (λ n, is_u64 n) l' →
  mjoin (writeUint64 <$> l) = mjoin (writeUint64 <$> l') → l = l'.
Proof.
  intros Hl. revert l'. induction Hl as [|a l Ha Hl IH]; intros [|b l'] Hl'; try done. csimpl. intros E.
  apply Forall_cons in Hl' as [Hb Hl']. apply free_u64 in E as [-> E]; [|done..]. f_equal. by apply IH.
Qed.

Lemma encode_inj f f' : ok_finger f → ok_finger f' → encode f = encode f' → f = f'.
Proof.
  intros [] []. unfold encode. rewrite <-!app_assoc. intros E.
  apply (free_counted _ _ free_cmd) in E as [? E]; [|done..]. apply (free_counted _ _ free_pair) in E as [? E]; [|done..].
  apply (free_counted _ _ free_env) in E as [? E]; [|done..]. apply (free_counted _ _ free_pair) in E as [? E]; [|done..].
  apply free_u32 in E as [Ht E]; [|apply u32_range..]. rewrite !u32_id in Ht by done. apply free_accum in E as [? E]; [|done..].
  apply (free_counted _ _ free_tag) in E as [? E]; [|done..]. apply free_bytes in E as [? E]; [|done..].
  apply tail_inj in E; [|done..]. destruct f, f'. simpl in *. by subst.
Qed.

(** ** The inputs *)

Definition norm_accum (a : Accum) : Prop := is_u64 (sum a) ∧ is_u64 (sq a) ∧ is_u64 (cb a).


Lemma accumStep_comm a x y : accumStep (accumStep a x) y = accumStep (accumStep a y) x.
Proof.
  unfold accumStep. simpl. rewrite !u64_add_l. f_equal; [f_equal; lia| |f_equal; lia..].
  rewrite !Z.lxor_assoc. f_equal. apply Z.lxor_comm.
Qed.

Lemma foldl_accum_perm es es' a : es ≡ₚ es' → foldl accumStep a es = foldl accumStep a es'.
Proof.
  intros Hp. revert a. induction Hp as [|x l l' _ IH|x y l|l1 l2 l3 _ IH1 _ IH2]; intros a; simpl.
  - done.
  - apply IH.
  - by rewrite accumStep_comm.
  - by rewrite IH1.
Qed.

Lemma accum_add a es : norm_accum a → addAccum a (uidAccum es) = foldl accumStep a es.
Proof.
  unfold uidAccum. induction es as [|e es IH] using rev_ind; intros Ha.
  - destruct Ha as (Hs & Hq & Hc). unfold addAccum. simpl. rewrite !Z.add_0_r, Z.lxor_0_r, !u64_id by done. by destruct a.
  - rewrite !foldl_app. simpl. rewrite <-IH by done. unfold addAccum, accumStep. simpl.
    f_equal; [|by rewrite Z.lxor_assoc| |]; rewrite u64_add_l, u64_add_r; f_equal; lia.
Qed.

Lemma norm_step a e : norm_accum (accumStep a e).
Proof. split_and!; apply u64_range. Qed.

Lemma norm_foldl a es : norm_accum a → norm_accum (foldl accumStep a es).
Proof. revert a. induction es as [|e es IH]; intros a Ha; [done|]. apply IH, norm_step. Qed.

Lemma norm_none : norm_accum noAccum.
Proof. split_and!; simpl; lia. Qed.

Section memo.
Context `{Hashes}.

(** Slices of input files do not change: [content] is what each holds. *)
Context (content : Z * Z → list Z).

Definition chunk_ok (ch : Chunk) : Prop := files ch = content (chunkKey ch).

Record memo_ok (m : Memo) : Prop := {
  mo_chunks : ∀ k a, chunkMemo m !! k = Some a → a = uidAccum (inputHash <$> content k);
  mo_vals : ∀ v e, eVals m !! v = Some e → e = inputHash v }.

Lemma inputVals_ok m vs : memo_ok m → ∃ m', inputVals m vs = (m', inputHash <$> vs) ∧ memo_ok m' ∧ chunkMemo m' = chunkMemo m.
Proof.
  revert m. induction vs as [|v vs IH]; intros m Hm; simpl; [by exists m|]. unfold inputVal.
  destruct (eVals m !! v) as [e|] eqn:He.
  - destruct (IH m Hm) as (m' & -> & ? & ?). exists m'. by rewrite (mo_vals _ Hm _ _ He).
  - destruct (IH (mkMemo (chunkMemo m) (<[v := inputHash v]> (eVals m)))) as (m' & -> & ? & ?).
    + split; simpl; [apply Hm|]. intros w e. rewrite lookup_insert_Some. intros [[<- <-]|[_ ?]]; [done|by apply Hm].
    + by exists m'.
Qed.

Lemma addChunk_ok m a ch : memo_ok m → chunk_ok ch → norm_accum a →
  ∃ m', addChunk (m, a) ch = (m', foldl accumStep a (inputHash <$> files ch)) ∧ memo_ok m'.
Proof.
  intros Hm Hc Ha. unfold addChunk. case_decide as Hf; [rewrite Hf; by exists m|].
  destruct (chunkMemo m !! chunkKey ch) as [x|] eqn:Hx.
  - exists m. by rewrite (mo_chunks _ Hm _ _ Hx), <-Hc, accum_add.
  - unfold chunkAccumOf. destruct (inputVals_ok m (files ch) Hm) as (m' & -> & Hm' & Hcm).
    eexists. rewrite accum_add by done. split; [done|]. split; simpl; [|apply Hm'].
    intros k y. rewrite lookup_insert_Some. intros [[<- <-]|[_ ?]]; [by rewrite <-Hc|by apply Hm'].
Qed.

Lemma addChunks_ok chs m a : memo_ok m → Forall chunk_ok chs → norm_accum a →
  ∃ m', foldl addChunk (m, a) chs = (m', foldl accumStep a (inputHash <$> mjoin (files <$> chs))) ∧ memo_ok m'.
Proof.
  intros Hm Hc. revert m a Hm. induction Hc as [|ch chs Hch _ IH]; intros m a Hm Ha; [by exists m|]. cbn [foldl]. rewrite fmap_cons.
  destruct (addChunk_ok m a ch Hm Hch Ha) as (m1 & -> & Hm1).
  destruct (IH m1 _ Hm1 (norm_foldl a (inputHash <$> files ch) Ha)) as (m2 & -> & Hm2). exists m2. split; [|done]. cbn [mjoin list_join]. by rewrite fmap_app, foldl_app.
Qed.

Lemma writeVFSChunks_ok m chs : memo_ok m → Forall chunk_ok chs →
  ∃ m', writeVFSChunks m chs =
    (m', writeUint32 (u32 (totalFiles chs)) ++ writeAccum (uidAccum (inputHash <$> mjoin (files <$> chs)))) ∧ memo_ok m'.
Proof.
  intros Hm Hc. unfold writeVFSChunks. destruct (addChunks_ok chs m noAccum Hm Hc norm_none) as (m' & -> & Hm').
  by exists m'.
Qed.

Lemma counted_fmap {A B} (enc : B → list Z) (key : A → B) (w : A → list Z) l :
  (∀ a, w a = enc (key a)) →
  writeUint32 (u32 (Z.of_nat (length l))) ++ mjoin (w <$> l) = counted enc (key <$> l).
Proof.
  intros Hw. unfold counted. rewrite length_fmap, <-list_fmap_compose. do 2 f_equal. apply list_fmap_ext. auto.
Qed.

Lemma writeANY_enc a : writeANY a = encTag (anyKey a).
Proof. unfold writeANY, anyKey. by destruct (negb _). Qed.

Lemma writeCmd_enc cm : writeCmd cm = encCmd (cmdKey cm).
Proof.
  unfold writeCmd, encCmd, cmdKey. cbn [fst snd]. f_equal; [|f_equal; [|f_equal]].
  - unfold writeAnyChunks, counted. rewrite length_fmap, <-list_fmap_compose. f_equal.
    + do 3 f_equal. induction (CmdArgs cm) as [|ch chs IH]; csimpl; [done|]. by rewrite length_app, IH.
    + induction (CmdArgs cm) as [|ch chs IH]; csimpl; [done|]. rewrite fmap_app, join_app, IH. f_equal. f_equal.
      apply list_fmap_ext. intros i a _. apply writeANY_enc.
  - unfold writeCwd, cwdKey. destruct (_ || _); [done|apply writeANY_enc].
  - unfold writeEnv. apply counted_fmap. intros e. unfold encEnv. simpl. by rewrite writeANY_enc.
Qed.

Lemma writeNode_encode m n inputs : memo_ok m → Forall chunk_ok inputs →
  ∃ m', writeNode m n inputs = (m', encode (finger n inputs)) ∧ memo_ok m'.
Proof.
  intros Hm Hc. unfold writeNode. destruct (writeVFSChunks_ok m inputs Hm Hc) as (m' & -> & Hm'). exists m'. split; [|done].
  f_equal. unfold encode, finger. cbn [fCmds fDeps fEnv fForeign fTotal fAccum fOutputs fTarget fTail].
  f_equal; [apply counted_fmap, writeCmd_enc|]. f_equal.
  { unfold writeDepRefUIDs. rewrite <-(counted_fmap encPair uidKey writeUid) by done.
    rewrite length_app, Nat2Z.inj_add, fmap_app, join_app. done. }
  f_equal; [apply counted_fmap; intros e; unfold encEnv; simpl; by rewrite writeANY_enc|].
  f_equal; [by apply counted_fmap|]. f_equal. f_equal; [by apply counted_fmap|]. f_equal.
  unfold tailKey. rewrite !fmap_app, !join_app, <-!list_fmap_compose. f_equal. destruct (negb _); simpl; [|done].
  by rewrite ?app_nil_r.
Qed.
End memo.


(** The order and the grouping of the inputs do not matter: nodes that differ
    only there have the same uid, whatever the memo holds. *)
Theorem uid_inputs_unordered `{Hashes} content hash128 m m' n inputs inputs' :
  memo_ok content m → memo_ok content m' → Forall (chunk_ok content) inputs → Forall (chunk_ok content) inputs' →
  mjoin (files <$> inputs) ≡ₚ mjoin (files <$> inputs') →
  (calcUID hash128 m n inputs).2 = (calcUID hash128 m' n inputs').2.
Proof.
  intros Hm Hm' Hc Hc' Hp. unfold calcUID. destruct (writeNode_encode content m n inputs Hm Hc) as (? & -> & _).
  destruct (writeNode_encode content m' n inputs' Hm' Hc') as (? & -> & _). simpl. do 2 f_equal. unfold finger. f_equal.
  - assert (Hlen : ∀ chs : list Chunk, sum_list ((λ ch, length (files ch)) <$> chs) = length (mjoin (files <$> chs))).
    { induction chs as [|ch chs IH]; csimpl; [done|]. by rewrite length_app, IH. }
    unfold totalFiles. by rewrite !Hlen, (Permutation_length Hp).
  - unfold uidAccum. apply foldl_accum_perm. by rewrite Hp.
Qed.

(** ** The ambiguities *)

(** A command that runs in the source directory [x] and one that runs in the
    directory with the text [x] give one byte string. *)
Theorem uid_cwd_ambiguous `{Hashes} x : 1 <= x < 2 ^ 30 →
  vfs_any (str_source x) ≠ str_any x ∧ writeCwd (vfs_any (str_source x)) = writeCwd (str_any x).
Proof.
  intros Hx. destruct (vfs_parts x 0) as (Hrel & _ & Hv); [lia|by left|].
  change (Z.lor (u32 (Z.shiftl x 1)) 0) with (str_source x) in *. unfold writeCwd.
  destruct (any_of_vfs (str_source x)) as [-> _]; [lia|]. destruct (any_of_str x) as [Hv0 Hs0]; [lia|]. rewrite Hv0.
  assert (Hva : vfs_any (str_source x) = 2 * str_source x + 1) by (apply tag_spec; [lia|by right]).
  pose proof (str_any_spec x ltac:(lia)) as Hsa. split; [lia|].
  rewrite (proj2 (Z.eqb_neq (str_source x) 0)), (proj2 (Z.eqb_neq (str_any x) 0)) by lia. simpl. unfold writeVFS, writeANY.
  rewrite Hv0, Hs0. simpl. unfold vfs_rel in Hrel. rewrite Hrel, Hv, land_tag by (by left). done.
Qed.

(** A salt and a resource cannot be told apart. *)
Theorem uid_salt_ambiguous `{Hashes} m b cmds env target inputs x : x ≠ 0 →
  (writeNode m (mkUNode b cmds env target x [] []) inputs).2 = (writeNode m (mkUNode b cmds env target 0 [x] []) inputs).2.
Proof.
  intros Hx. unfold writeNode. destruct (writeVFSChunks m inputs) as [m' ins]. cbn [snd base Cmds NodeEnv Target UIDSalt ResourceURIs InputNames].
  rewrite (proj2 (Z.eqb_neq x 0)) by done. simpl. by rewrite ?app_nil_r.
Qed.

(** ** Examples *)

Definition toyHashes : Hashes :=
  {| lo := λ s, 1000 + s; uidHi := λ r, r; uidLo := λ r, 7 * r; envStr := λ e, e; fetchRefs_ := ∅; sourceHash := λ v, 5 * v |}.

Definition toyNode (arg : Z) : UNode :=
  mkUNode (mkNode [3] [] [] [] [] [9] false false) [mkCmd [[2; arg]] 0 [] 0] [] [120] 0 [] [].
Definition toyContent (k : Z * Z) : list Z := match k with (1, 2) => [10; 12] | (2, 1) => [10] | _ => [12] end.
Definition toyInputs : list Chunk := [mkChunk 1 [10; 12]].
Definition toyInputs' : list Chunk := [mkChunk 3 [12]; mkChunk 2 [10]].

Lemma toy_memo_ok : @memo_ok toyHashes toyContent (mkMemo ∅ ∅).
Proof. split; intros ? ? Hl; simpl in Hl; by apply lookup_empty_Some in Hl. Qed.

Lemma toy_finger_ok arg : arg = 4 ∨ arg = 6 → ok_finger (@finger toyHashes (toyNode arg) toyInputs).
Proof.
  intros Harg. split; apply (bool_decide_unpack _); by destruct Harg as [-> | ->]; vm_compute.
Qed.


Lemma uid_inputs_unordered_witness :
  (@calcUID toyHashes toyHash (mkMemo ∅ ∅) (toyNode 4) toyInputs).2 = (@calcUID toyHashes toyHash (mkMemo ∅ ∅) (toyNode 4) toyInputs').2.
Proof.
  apply (@uid_inputs_unordered toyHashes toyContent).
  - exact toy_memo_ok.
  - exact toy_memo_ok.
  - apply Forall_cons_2; [reflexivity|apply Forall_nil_2].
  - apply Forall_cons_2; [reflexivity|]. apply Forall_cons_2; [reflexivity|apply Forall_nil_2].
  - simpl. apply Permutation_swap.
Defined.
