(* ===== verification/JsonGraph.v ===== *)
(** * The writer of graphs (json_write.go, node_attrs.go)

    Nodes are written as JSON through three caches: which strings and files need no
    escaping, the escaped files in blocks of one megabyte addressed by packed numbers,
    and the texts of slices already seen twice, known by address and length, in pages
    addressed by packed spans.  Shown: whatever the caches hold, the bytes written are
    the printed value of the graph, and the splitter finds its members. *)

From S2P Require Import Prelude Vec BitSets Emitter Tags Json.
Local Open Scope string_scope.
Local Open Scope list_scope.
Local Open Scope Z_scope.

Abbreviation text := (list Z) (only parsing).

(** ** Data *)

(** A slice by the address of its first element. *)
Record Slice (A : Type) := mkSlice { first : Z; elems : list A }.
Arguments mkSlice {A} _ _.
Arguments first {A} _.
Arguments elems {A} _.

Record Cmd := mkCmd { CmdArgs : list (Slice Z); CmdEnv : Slice (Z * Z); Cwd : Z; Stdout : Z }.

Record KV := mkKV {
  P : Z; PC : Z; ShowOut : bool; ShowOutBool : bool; Soe : bool; Name : text; KVDisableCache : bool;
  SpecialRunner : text; HasSpecialRunner : bool; RunTestNode : bool; LDTestNode : bool }.

(** [PresetUID], [UIDSalt] and [InputFixes] are not written. *)
Record NodeExtra := mkNodeExtra {
  InputNames : list Z; ResourceURIs : list Z; KVExts : list (text * text); DisableCache : bool;
  KVPath : text; SplitFile : Z; SplitIndex : Z; HasSplitIndex : bool }.

Definition procKindStr : list text := bs <$> [
  ""; "RC"; "TT"; "PI"; "SS"; "PC"; "ML"; "GL"; "PK"; "RS"; "IM"; "SM"; "FA"; "CI"; "AS"; "AR"; "BI"; "BC"; "BP"; "CC"; "CL"; "CF"; "CH"; "CP"; "CY"; 
  "EN"; "EV"; "FP"; "P3"; "FT"; "FG"; "FL"; "FL64"; "FJ"; "FM"; "GP"; "GZ"; "HT"; "JS"; "JV"; "LD"; "LC"; "GO"; "go"; "LX"; "LJ"; "LU"; "MN"; "OP"; 
  "PB"; "PR"; "PY"; "R5"; "R6"; "RD"; "SB"; "SF"; "STUB"; "SW"; "TEST"; "TEST2"; "TS"; "YC"; "GR"; "GM"; "GS"; "GC"; "ld"; "DX"; "BN"; "SV"; "SC"; 
  "PD"; "CU"; "TS_DEP"; "TS_LIB"; "TS_PKG"; "TS_TST"; "TS_JST"; "UN"; "UT"; "TS_PRO"; "DO"; "UJ"; "FS"; "IJ"; "JP"; "JT"; "RJ"; "TM"; "TA"; "DL"; "TR"; 
  "TL"; "FBS"; "IL"; "UG"; "RP"; "UD"; "PO"; "P2"].
Definition pColorStr : list text := bs <$> [
  ""; "red"; "cyan"; "green"; "light-blue"; "light-cyan"; "light-green"; "light-red"; "magenta"; "yellow"; "blue"].
Definition networkModeStr : list text := bs <$> [""; "restricted"; "full"].

(** Numbers of the language: 0 is told apart, and [strconv.AppendFloat v 'f' -1 64] prints one. *)
Class Floats := {
  Float : Type;
  isZero : Float → bool;
  ofInt : Z → Float;
  AppendFloat : Float → text;
  AppendFloat_word f : AppendFloat f ≠ [] ∧ Forall (λ b, wordByte b = true) (AppendFloat f) }.

Record Requirements `{Floats} := mkRequirements {
  CPU : Float; RAM : Float; RAMText : text; KVM : bool; DNS : text; Network : Z; RAMDisk : Float; HasRAMDisk : bool;
  TestOutputLimit : Z; SbVault : text; Yav : text }.

Record GNode `{Floats} := mkGNode {
  base : Node;                       (** DepRefs, ForeignDepRefs, Resources, ResourceGlobals, Outputs *)
  Extra : option NodeExtra;
  Cmds : list Cmd;
  NodeEnv : Slice (Z * Z);
  Inputs : list (list Z);
  NodeKV : KV;
  Target : text;
  NodeRequirements : option Requirements;
  Ref : Z }.

Record Graph `{Floats} := mkGraph { nodes : list GNode; Result : list Z; fetchRefs : gmap Z Z }.

(** ** The caches *)

(** A block is its capacity and its bytes. *)
Record vfsEscapeCache := mkEscapes { pos : list Z; blocks : list (Z * text) }.
Record jsonWriteCache := mkWriteCache { seen : gmap Z Z; spans : gmap (Z * Z) Z; pages : list text }.

Record Caches := mkCaches {
  strJSONState : TwoBitSet.TwoBitSet;
  vfsCleanJSON : BitSet.BitSet;
  vfsEscapedJSON : vfsEscapeCache;
  written : jsonWriteCache }.

Definition strJSONClean : Z := 1.
Definition strJSONEscaped : Z := 2.
Definition blockSize : Z := 2 ^ 20.
Definition jsonCachePage : Z := 2 ^ 20.

Definition len {A} (l : list A) : Z := Z.of_nat (length l).

(** [binary.AppendUvarint] and [binary.Uvarint] *)
Fixpoint uvarint (fuel : nat) (x : Z) : text :=
  match fuel with
  | O => [u8 x]
  | S fuel => if x <? 0x80 then [u8 x] else u8 (Z.lor x 0x80) :: uvarint fuel (Z.shiftr x 7)
  end.
Definition AppendUvarint (buf : text) (x : Z) : text := buf ++ uvarint 9 x.

Fixpoint Uvarint (s : Z) (buf : text) : option (Z * nat) :=
  match buf with
  | [] => None
  | b :: r =>
      if b <? 0x80 then Some (Z.shiftl b s, 1%nat)
      else '(x, k) ← Uvarint (s + 7) r; Some (Z.lor (Z.shiftl (Z.land b 0x7f) s) x, S k)
  end.

(** [b[i:j]]; [None] is a fault. *)
Definition sub (b : text) (i j : Z) : option text :=
  if (0 <=? i) && (i <=? j) && (j <=? len b) then Some (take (Z.to_nat (j - i)) (drop (Z.to_nat i) b)) else None.

(** [vfsEscapeCache.get]: [Some None] is nil. *)
Definition getEscaped (c : vfsEscapeCache) (id : Z) : option (option text) :=
  match zget (pos c) id with
  | None => Some None
  | Some p =>
      if p =? 0 then Some None
      else
        let p := u32 (p - 1) in
        '(_, block) ← zget (blocks c) (Z.shiftr p 20);
        b ← sub block (Z.land p (blockSize - 1)) (len block);
        let '(n, k) := default (0, 0%nat) (Uvarint 0 b) in
        e ← sub b (Z.of_nat k) (Z.of_nat k + n);
        Some (Some e)
  end.

(** [copy(grown, c.pos)] of a fresh array *)
Definition grown (bound : Z) (pos : list Z) : list Z :=
  take (Z.to_nat bound) pos ++ replicate (Z.to_nat bound - length pos) 0.

Definition MaxVarintLen32 : Z := 5.

Definition putEscaped (vfsBound : Z) (c : vfsEscapeCache) (id : Z) (entry : text) : option vfsEscapeCache :=
  let ps := if len (pos c) <=? id then grown vfsBound (pos c) else pos c in
  let need := MaxVarintLen32 + len entry in
  let full := match List.last (blocks c) (0, []) with (cap, b) => cap - len b <? need end in
  let bl := if (len (blocks c) =? 0) || full then blocks c ++ [(Z.max blockSize need, [])] else blocks c in
  let last := len bl - 1 in
  '(cap, block) ← zget bl last;
  ps ← zset ps id (u32 (Z.lor (u32 (Z.shiftl last 20)) (u32 (len block)) + 1));
  let block := AppendUvarint block (len entry) in
  Some (mkEscapes ps (<[Z.to_nat last := (cap, block ++ entry)]> bl)).

Definition newJSONWriteCache : jsonWriteCache := mkWriteCache ∅ ∅ [].

Definition cached (c : jsonWriteCache) (buf : text) (key : Z * Z) : option (option text) :=
  match spans c !! key with
  | None => Some None
  | Some span =>
      let page := Z.shiftr span 40 in
      let off := Z.land (Z.shiftr span 20) (jsonCachePage - 1) in
      let n := Z.land span (jsonCachePage - 1) in
      p ← zget (pages c) page;
      t ← sub p off (off + n);
      Some (Some (buf ++ t))
  end.

(** The three bits of a key: the bits set, and whether one was new. *)
Fixpoint markSeen (turns : nat) (i h : Z) (seen : gmap Z Z) (fresh : bool) : gmap Z Z * bool :=
  match turns with
  | O => (seen, fresh)
  | S turns =>
      let bit := Z.shiftr h (64 - 25) in
      let word := bit / 64 in let mask := u64 (Z.shiftl 1 (bit mod 64)) in
      let old := default 0 (seen !! word) in
      let new := Z.land old mask =? 0 in
      markSeen turns (i + 1) (u64 (u64 (h * 0xff51afd7ed558ccd) + i + 1))
        (if new then <[word := Z.lor old mask]> seen else seen) (fresh || new)
  end.

Definition keyHash (key : Z * Z) : Z :=
  Z.lxor (u64 (u64 key.1 * 0x9e3779b97f4a7c15)) (u64 (u64 key.2 * 0xc2b2ae3d27d4eb4f)).

Definition remember (c : jsonWriteCache) (key : Z * Z) (serialized : text) : option jsonWriteCache :=
  let '(seen, fresh) := markSeen 3 0 (keyHash key) (seen c) false in
  if fresh || (jsonCachePage <=? len serialized) then Some (mkWriteCache seen (spans c) (pages c))
  else
    let ps := if (len (pages c) =? 0) || (jsonCachePage <? len (List.last (pages c) []) + len serialized) then pages c ++ [[]] else pages c in
    let last := len ps - 1 in
    p ← zget ps last;
    let off := len p in
    Some (mkWriteCache seen
      (<[key := Z.lor (Z.lor (u64 (Z.shiftl last 40)) (u64 (Z.shiftl off 20))) (len serialized)]> (spans c))
      (<[Z.to_nat last := p ++ serialized]> ps)).

(** ** Writers *)

(** A writer takes the caches and the buffer. *)
Definition writer : Type := Caches → text → option (Caches * text).

Definition nothing : writer := λ c buf, Some (c, buf).
Definition lit (t : text) : writer := λ c buf, Some (c, buf ++ t).
Definition andThen (f g : writer) : writer := λ c buf, '(c, buf) ← f c buf; g c buf.
Definition plainly (f : text → option text) : writer := λ c buf, buf ← f buf; Some (c, buf).
Local Notation "f '+>' g" := (andThen f g) (at level 60, right associativity).

(** for-loops that put a comma between *)
Fixpoint each {A} (f : A → writer) (l : list A) : writer :=
  match l with [] => nothing | x :: l => f x +> each f l end.
Definition separated {A} (f : A → writer) (l : list A) : writer :=
  match l with [] => nothing | x :: l => f x +> each (λ x, lit [44] +> f x) l end.

(** A key with its quotes and colon. *)
Definition key (k : string) : text := c_quote :: bs k ++ [c_quote; 58].

Fixpoint digits (fuel : nat) (n : Z) (acc : text) : text :=
  match fuel with
  | O => acc
  | S fuel => let acc := (48 + n mod 10) :: acc in if n <? 10 then acc else digits fuel (n / 10) acc
  end.
(** [strconv.AppendUint] in base 10, of 64 bits *)
Definition decimal (n : Z) : text := digits 20 n [].

Definition appendRefNum (r : Z) : writer := lit (decimal r).
Definition appendRefNumsSeq (refs : list Z) : writer := lit [91] +> separated appendRefNum refs +> lit [93].
Definition appendRefNumSlice (refs : list Z) : writer := lit [91] +> separated appendRefNum refs +> lit [93].

(** The last byte replaced or a bracket added. *)
Definition appendArrayEnd (buf : text) : option text :=
  l ← last buf; Some (if l =? 44 then take (length buf - 1) buf ++ [93] else buf ++ [93]).

Definition chop (buf : text) : option text := match buf with [] => None | _ => Some (take (length buf - 1) buf) end.

(** *** Objects with a count of members *)

Definition JsonObj : Type := text * Z.
Definition sep (o : JsonObj) : JsonObj := ((if 0 <? o.2 then o.1 ++ [44] else o.1), o.2 + 1).

Definition forceStr (k v : text) (o : JsonObj) : option JsonObj :=
  let o := sep o in
  buf ← appendString o.1 k;
  buf ← appendString (buf ++ [58]) v;
  Some (buf, o.2).

Definition str (k v : text) (o : JsonObj) : option JsonObj := if bool_decide (v = []) then Some o else forceStr k v o.

Definition boolTrue (k : text) (v : bool) (o : JsonObj) : option JsonObj :=
  if negb v then Some o
  else
    let o := sep o in
    buf ← appendString o.1 k;
    Some (buf ++ bs ":true", o.2).

Definition num `{Floats} (k : text) (v : Float) (o : JsonObj) : option JsonObj :=
  let o := sep o in
  buf ← appendString o.1 k;
  Some (buf ++ [58] ++ AppendFloat v, o.2).

Definition when (b : bool) (f : JsonObj → option JsonObj) (o : JsonObj) : option JsonObj := if b then f o else Some o.
Definition nonempty (t : text) : bool := bool_decide (t ≠ []).

(** [{"cpu":1,"network":"restricted","ram":32}] *)
Definition defaultRequirements : text :=
  [123] ++ key "cpu" ++ bs "1," ++ key "network" ++ [34] ++ bs "restricted" ++ [34; 44] ++ key "ram" ++ bs "32}".

Definition appendRequirements `{Floats} (r : option Requirements) (buf : text) : option text :=
  match r with
  | None => Some (buf ++ defaultRequirements)
  | Some r =>
      o ← when (negb (isZero (CPU r))) (num (bs "cpu") (CPU r)) (buf ++ [123], 0);
      o ← str (bs "dns") (DNS r) o;
      o ← boolTrue (bs "kvm") (KVM r) o;
      network ← zget networkModeStr (Network r);
      o ← str (bs "network") network o;
      o ← (if negb (isZero (RAM r)) then num (bs "ram") (RAM r) else when (nonempty (RAMText r)) (str (bs "ram") (RAMText r))) o;
      o ← when (HasRAMDisk r) (num (bs "ram_disk") (RAMDisk r)) o;
      o ← when (nonempty (SbVault r)) (str (bs "sb_vault") (SbVault r)) o;
      o ← when (negb (TestOutputLimit r =? 0)) (num (bs "test_output_limit") (ofInt (TestOutputLimit r))) o;
      o ← when (nonempty (Yav r)) (str (bs "yav") (Yav r)) o;
      Some (o.1 ++ [125])
  end.

(** The order of equal keys is that of the insertion sort used on short slices. *)
Fixpoint insertExt (e : text * text) (l : list (text * text)) : list (text * text) :=
  match l with
  | [] => [e]
  | x :: l => if Compare e.1 x.1 <? 0 then e :: x :: l else x :: insertExt e l
  end.
Definition sortedKVExts (exts : list (text * text)) : list (text * text) :=
  if (length exts <? 2)%nat then exts else foldl (λ l e, insertExt e l) [] exts.

Fixpoint forceAll (l : list (text * text)) (o : JsonObj) : option JsonObj :=
  match l with [] => Some o | e :: l => o ← forceStr e.1 e.2 o; forceAll l o end.

(** ** Lengths of variable size *)

Lemma byte_tag a : 0 <= a < 256 → 128 <= Z.lor a 128 < 256 ∧ Z.land (Z.lor a 128) 127 = Z.land a 127.
Proof.
  intros Ha. assert (Hall : Forall (λ a, 128 <= Z.lor a 128 < 256 ∧ Z.land (Z.lor a 128) 127 = Z.land a 127) (seqZ 0 256)).
  { apply (bool_decide_unpack _). vm_compute. exact I. }
  rewrite Forall_forall in Hall. apply Hall, elem_of_seqZ. lia.
Qed.

Lemma uvarint_byte x : 0 <= x → u8 (Z.lor x 0x80) = Z.lor (x mod 256) 128 ∧ Z.land (x mod 256) 127 = Z.land x 127.
Proof.
  intros Hx. unfold u8. change (2 ^ 8) with 256. split.
  - change 256 with (2 ^ 8). rewrite <- !Z.land_ones by lia. by rewrite Z.land_lor_distr_l.
  - change 256 with (2 ^ 8). rewrite <- Z.land_ones by lia. by rewrite <- Z.land_assoc.
Qed.

Lemma shift_pieces x s : 0 <= x → 0 <= s → Z.lor (Z.shiftl (Z.land x 127) s) (Z.shiftl (Z.shiftr x 7) (s + 7)) = Z.shiftl x s.
Proof.
  intros Hx Hs. rewrite <- (Z.add_comm 7), <- Z.shiftl_shiftl by lia. rewrite <- Z.shiftl_lor. f_equal. apply Z.bits_inj'. intros n Hn.
  rewrite Z.lor_spec, Z.land_spec. change 127 with (Z.ones 7). destruct (decide (n < 7)).
  - rewrite Z.ones_spec_low, Z.shiftl_spec_low by lia. by rewrite andb_true_r, orb_false_r.
  - rewrite Z.ones_spec_high, andb_false_r, Z.shiftl_spec, Z.shiftr_spec by lia. simpl. f_equal. lia.
Qed.

Lemma uvarint_read f : ∀ x s r, 0 <= s → 0 <= x < 2 ^ (7 * (Z.of_nat f + 1)) → Uvarint s (uvarint f x ++ r) = Some (Z.shiftl x s, length (uvarint f x)).
Proof.
  induction f as [|f IH]; intros x s r Hs Hx; cbn [uvarint].
  - change (2 ^ (7 * (Z.of_nat 0 + 1))) with 128 in Hx. cbn [app Uvarint]. unfold u8. change (2 ^ 8) with 256.
    rewrite Z.mod_small by lia. by rewrite (proj2 (Z.ltb_lt _ _)) by lia.
  - destruct (Z.ltb_spec x 0x80) as [Hlt|Hge].
    + cbn [app Uvarint]. unfold u8. change (2 ^ 8) with 256. rewrite Z.mod_small by lia. by rewrite (proj2 (Z.ltb_lt _ _)) by lia.
    + cbn [app Uvarint length]. destruct (uvarint_byte x) as [-> Hland]; [lia|]. destruct (byte_tag (x mod 256)) as [Hb Hl]; [apply Z.mod_pos_bound; lia|].
      rewrite (proj2 (Z.ltb_ge _ _)) by lia. rewrite IH; [|lia|]; cycle 1.
      { rewrite Z.shiftr_div_pow2 by lia. split; [apply Z.div_pos; lia|]. apply Z.div_lt_upper_bound; [lia|]. rewrite <- Z.pow_add_r by lia.
        replace (7 + 7 * (Z.of_nat f + 1)) with (7 * (Z.of_nat (S f) + 1)) by lia. lia. }
      cbn [mbind option_bind]. rewrite Hl, Hland, shift_pieces by lia. done.
Qed.

Lemma uvarint_length f : ∀ x, 0 <= x → (1 <= length (uvarint f x))%nat ∧ ∀ k, 0 <= k → x < 2 ^ (7 * (k + 1)) → len (uvarint f x) <= k + 1.
Proof.
  induction f as [|f IH]; intros x Hx; cbn [uvarint]; [unfold len; simpl; split; [lia|intros; lia]|].
  destruct (Z.ltb_spec x 0x80) as [Hlt|Hge]; [unfold len; simpl; split; [lia|intros; lia]|]. cbn [length]. split; [lia|]. intros k Hk Hxk.
  destruct (decide (k = 0)) as [->|Hk0]; [change (2 ^ (7 * (0 + 1))) with 128 in Hxk; lia|].
  destruct (IH (Z.shiftr x 7)) as [_ IHk]; [by apply Z.shiftr_nonneg|]. specialize (IHk (k - 1) ltac:(lia)).
  rewrite Z.shiftr_div_pow2 in * by lia. unfold len in *. cbn [length]. rewrite Nat2Z.inj_succ. enough (Z.of_nat (length (uvarint f (x / 2 ^ 7))) <= k - 1 + 1) by lia.
  apply IHk. apply Z.div_lt_upper_bound; [lia|]. rewrite <- Z.pow_add_r by lia. replace (7 + 7 * (k - 1 + 1)) with (7 * (k + 1)) by lia. lia.
Qed.

(** ** Parts of blocks *)

Lemma len_app {A} (a b : list A) : len (a ++ b) = len a + len b.
Proof. unfold len. rewrite length_app. lia. Qed.

Lemma len_nonneg {A} (a : list A) : 0 <= len a.
Proof. unfold len. lia. Qed.

Lemma sub_middle a b c : sub (a ++ b ++ c) (len a) (len a + len b) = Some b.
Proof.
  unfold sub. rewrite !len_app. pose proof (len_nonneg a). pose proof (len_nonneg b). pose proof (len_nonneg c).
  rewrite !(proj2 (Z.leb_le _ _)) by lia. cbn [andb]. unfold len. replace (Z.to_nat (Z.of_nat (length a) + Z.of_nat (length b) - Z.of_nat (length a))) with (length b) by lia.
  rewrite Nat2Z.id, drop_app_length, take_app_length. done.
Qed.

Lemma sub_rest a b : sub (a ++ b) (len a) (len (a ++ b)) = Some b.
Proof. rewrite len_app. pose proof (sub_middle a b []) as Hs. by rewrite app_nil_r in Hs. Qed.

Lemma packed hi lo n : 0 <= n → 0 <= hi → 0 <= lo < 2 ^ n → Z.lor (Z.shiftl hi n) lo = hi * 2 ^ n + lo ∧ Z.shiftr (hi * 2 ^ n + lo) n = hi ∧ Z.land (hi * 2 ^ n + lo) (2 ^ n - 1) = lo.
Proof.
  intros Hn Hhi Hlo. rewrite Z.shiftl_mul_pow2 by lia. split_and!.
  - symmetry. apply Z.add_nocarry_lor. apply Z.bits_inj'. intros m Hm. rewrite Z.land_spec, Z.bits_0. destruct (decide (m < n)).
    + rewrite Z.mul_pow2_bits_low by lia. done.
    + replace (Z.testbit lo m) with false; [by rewrite andb_false_r|]. symmetry. rewrite <- (Z.mod_small lo (2 ^ n)) by lia. apply Z.mod_pow2_bits_high. lia.
  - rewrite Z.shiftr_div_pow2 by lia. rewrite Z.add_comm, Z.div_add, Z.div_small by lia. lia.
  - replace (2 ^ n - 1) with (Z.ones n) by (rewrite Z.ones_equiv; lia). rewrite Z.land_ones by lia. rewrite Z.add_comm, Z.mod_add, Z.mod_small by lia. done.
Qed.

(** ** The escaped files *)

Definition sumOf {A} (f : A → Z) (l : list A) : Z := foldr (λ x n, f x + n) 0 l.

Lemma sumOf_app {A} (f : A → Z) l k : sumOf f (l ++ k) = sumOf f l + sumOf f k.
Proof. induction l as [|x l IH]; simpl; [done|]. unfold sumOf in *. lia. Qed.

Lemma sumOf_nonneg {A} (f : A → Z) l : (∀ x, 0 <= f x) → 0 <= sumOf f l.
Proof. intros Hf. induction l as [|x l IH]; simpl; [lia|]. specialize (Hf x). unfold sumOf in *. lia. Qed.

Lemma sumOf_below {A} (f : A → Z) l : (∀ x, 0 <= f x) → ∀ k, NoDup l → (∀ x, x ∈ l → x ∈ k) → sumOf f l <= sumOf f k.
Proof.
  intros Hf. induction l as [|x l IH]; intros k Hl Hk; [by apply sumOf_nonneg|]. apply NoDup_cons in Hl as [Hx Hl].
  destruct (list_elem_of_split k x) as (k1 & k2 & ->); [by apply Hk; left|].
  specialize (IH (k1 ++ k2) Hl). rewrite sumOf_app in *. simpl. unfold sumOf in *. enough (foldr (λ x n, f x + n) 0 l <= foldr (λ x n, f x + n) 0 k1 + foldr (λ x n, f x + n) 0 k2) by lia.
  apply IH. intros y Hy. specialize (Hk y (list_elem_of_further _ _ _ Hy)). rewrite elem_of_app, elem_of_cons in Hk. rewrite elem_of_app.
  destruct Hk as [?|[->|?]]; [by left|done|by right].
Qed.

(** A run of storage in pieces of a megabyte: a new piece was opened only when the last could not take the next text, so the texts of two pieces fill more than one. *)
Definition filled (n : Z) (lastLen total : Z) : Prop := n = 0 ∨ (n - 1) * 2 ^ 20 + lastLen <= 2 * total.

Section escapes.
Context (vfsBound : Z) (entry : Z → text) (files : list Z).

Definition cost (id : Z) : Z := 5 + len (entry id).

Definition block_ok (x : Z * text) : Prop := len x.2 <= x.1 ∧ 2 ^ 20 <= x.1 ∧ (x.1 = 2 ^ 20 ∨ x.1 - len x.2 < 5).

Record escapes_ok (c : vfsEscapeCache) : Prop := {
  esc_pos id p : zget (pos c) id = Some p → p = 0 ∨ ∃ bi cap pre post,
    p = bi * 2 ^ 20 + len pre + 1 ∧ 0 <= bi < 4096 ∧ len pre <= 2 ^ 20 - 5 ∧
    zget (blocks c) bi = Some (cap, pre ++ uvarint 9 (len (entry id)) ++ entry id ++ post);
  esc_block : Forall block_ok (blocks c);
  esc_size : ∃ ids, NoDup ids ∧ (∀ id, id ∈ ids → id ∈ files ∧ ∃ p, zget (pos c) id = Some p ∧ p ≠ 0) ∧
    filled (len (blocks c)) (len (List.last (blocks c) (0, [])).2) (sumOf cost ids) }.

Definition absent (c : vfsEscapeCache) (id : Z) : Prop := zget (pos c) id = None ∨ zget (pos c) id = Some 0.

Lemma cost_nonneg id : 0 <= cost id.
Proof. unfold cost. pose proof (len_nonneg (entry id)). lia. Qed.

Hypothesis Hfit : sumOf cost files < 2 ^ 31.

Lemma cost_one id : id ∈ files → cost id < 2 ^ 31.
Proof.
  intros Hid. enough (sumOf cost [id] <= sumOf cost files) by (unfold sumOf in *; simpl in *; lia).
  apply sumOf_below; [apply cost_nonneg|apply NoDup_singleton|]. by intros x ->%list_elem_of_singleton.
Qed.

Lemma getEscaped_ok c id : escapes_ok c → id ∈ files →
  (getEscaped c id = Some None ∧ absent c id) ∨ getEscaped c id = Some (Some (entry id)).
Proof.
  intros Hc Hid. unfold getEscaped, absent. destruct (zget (pos c) id) as [p|] eqn:Hp; [|left; split; [done|by left]].
  destruct (Z.eqb_spec p 0) as [->|Hp0]; [left; split; [done|by right]|]. right.
  destruct (esc_pos c Hc id p Hp) as [?|(bi & cap & pre & post & -> & Hbi & Hpre & Hb)]; [done|]. pose proof (len_nonneg pre).
  rewrite u32_id by lia. replace (bi * 2 ^ 20 + len pre + 1 - 1) with (bi * 2 ^ 20 + len pre) by lia.
  destruct (packed bi (len pre) 20) as (_ & -> & Hl); [lia..|]. rewrite Hb. cbn [mbind option_bind]. unfold blockSize. rewrite Hl.
  rewrite sub_rest. cbn [mbind option_bind]. pose proof (cost_one id Hid) as Hcost. unfold cost in Hcost. pose proof (len_nonneg (entry id)).
  rewrite uvarint_read by (cbn; lia). unfold default, from_option, Datatypes.id. rewrite Z.shiftl_0_r. cbn iota.
  change (Z.of_nat (length (uvarint 9 (len (entry id))))) with (len (uvarint 9 (len (entry id)))). by rewrite sub_middle.
Qed.

(** The piece the next text goes to. *)
Lemma room_made (bl : list (Z * text)) need total : 5 <= need → filled (len bl) (len (List.last bl (0, [])).2) total → 0 <= total →
  Forall block_ok bl →
  ∃ bl0 cap b, (if (len bl =? 0) || (match List.last bl (0, []) with (cap, b) => cap - len b <? need end) then bl ++ [(Z.max blockSize need, [])] else bl) = bl0 ++ [(cap, b)] ∧
    len b + need <= cap ∧ 2 ^ 20 <= cap ∧ (cap = 2 ^ 20 ∨ b = [] ∧ cap = need) ∧ len bl0 * 2 ^ 20 + len b <= 2 * total + need ∧
    (∀ i x, zget bl i = Some x → zget (bl0 ++ [(cap, b)]) i = Some x) ∧ Forall block_ok bl0.
Proof.
  intros Hneed Hfill Htotal Hall. unfold blockSize. destruct bl as [|x bl _] using rev_ind.
  - exists [], (Z.max (2 ^ 20) need), []. cbn [len length Z.of_nat Z.eqb orb app]. unfold len. cbn [length Z.of_nat].
    split_and!; try done; [lia|lia| |lia|intros i x; by rewrite zget_nil]. destruct (Z.max_spec (2 ^ 20) need) as [[? ->]|[? ->]]; [by right|by left].
  - rewrite List.last_last in *. destruct x as [cap b]. rewrite len_app in *. change (len [(cap, b)]) with 1 in *. pose proof (len_nonneg bl).
    apply Forall_app in Hall as Hall'. destruct Hall' as [Hbl Hb]. apply Forall_cons in Hb as [Hb _]. destruct Hfill as [?|Hfill]; [lia|]. cbn [snd] in Hfill.
    rewrite (proj2 (Z.eqb_neq _ _)) by lia. cbn [orb]. destruct (Z.ltb_spec (cap - len b) need) as [Hlt|Hge].
    + exists (bl ++ [(cap, b)]), (Z.max (2 ^ 20) need), []. split; [done|]. change (len (@nil Z)) with 0. rewrite len_app. change (len [(cap, b)]) with 1.
      split_and!; try done; [lia|lia| | |].
      * destruct (Z.max_spec (2 ^ 20) need) as [[? ->]|[? ->]]; [by right|by left].
      * destruct Hb as (Hb1 & Hb2 & _). cbn in *. lia.
      * intros i x Hx. rewrite zget_app_l; [done|]. by eapply zget_Some_range.
    + exists bl, cap, b. split_and!; try done; [lia|by destruct Hb as (_ & ? & _)| |lia]. destruct Hb as (_ & _ & [?|?]); cbn in *; [by left|lia].
Qed.

Lemma grown_ok ps id : len ps <= id → 0 <= id < vfsBound →
  (∀ i p, i ≠ id → zget (grown vfsBound ps) i = Some p → p = 0 ∨ zget ps i = Some p) ∧ (∀ i p, zget ps i = Some p → zget (grown vfsBound ps) i = Some p) ∧ id < len (grown vfsBound ps).
Proof.
  unfold len, grown. intros Hl Hid. rewrite take_ge by lia. split_and!.
  - intros i p _ Hi. destruct (decide (i < Z.of_nat (length ps))).
    + right. rewrite zget_app_l in Hi; [done|]. apply zget_Some_range in Hi. lia.
    + left. rewrite zget_app_r in Hi by lia. pose proof (zget_Some_range _ _ _ Hi) as Hr. rewrite length_replicate in Hr. rewrite zget_replicate in Hi by lia. congruence.
  - intros i p Hi. rewrite zget_app_l; [done|]. by eapply zget_Some_range.
  - rewrite length_app, length_replicate. lia.
Qed.

Lemma putEscaped_ok c id : escapes_ok c → id ∈ files → 0 <= id < vfsBound → absent c id →
  ∃ c', putEscaped vfsBound c id (entry id) = Some c' ∧ escapes_ok c'.
Proof.
  intros Hc Hid Hrange Habs. destruct (esc_size c Hc) as (ids & Hnd & Hids & Hfill). unfold putEscaped, MaxVarintLen32. fold (cost id).
  assert (Hcost : 5 <= cost id) by (unfold cost; pose proof (len_nonneg (entry id)); lia).
  destruct (room_made (blocks c) (cost id) (sumOf cost ids)) as (bl & cap & b & -> & Hroom & Hbig & Hcap & Hsize & Hkeep & Hbl);
    [done|done|apply sumOf_nonneg, cost_nonneg|apply Hc|].
  assert (Hnew : id ∉ ids). { intros (_ & p & Hp & Hp0)%Hids. destruct Habs; congruence. }
  assert (Hsum : sumOf cost (id :: ids) < 2 ^ 31).
  { eapply Z.le_lt_trans; [|exact Hfit]. apply sumOf_below; [apply cost_nonneg|by apply NoDup_cons|]. intros x [->|Hx]%elem_of_cons; [done|by apply Hids]. }
  unfold sumOf in Hsum. simpl in Hsum. fold (sumOf cost ids) in Hsum. pose proof (len_nonneg b). pose proof (len_nonneg bl). pose proof (len_nonneg (entry id)).
  rewrite len_app. change (len [(cap, b)]) with 1. replace (len bl + 1 - 1) with (len bl) by lia. rewrite zget_app_r by (unfold len; lia). unfold len at 1 2.
  rewrite Z.sub_diag. cbn [zget mbind option_bind]. change (zget [(cap, b)] 0) with (Some (cap, b)). cbn [mbind option_bind]. fold (len bl).
  set (ps := if len (pos c) <=? id then _ else _). assert (Hps : (∀ i p, i ≠ id → zget ps i = Some p → p = 0 ∨ zget (pos c) i = Some p) ∧ (∀ i p, zget (pos c) i = Some p → zget ps i = Some p) ∧ id < len ps).
  { unfold ps. destruct (Z.leb_spec (len (pos c)) id) as [Hle|Hgt]; [|split_and!; [by right|done|lia]]. by apply grown_ok. }
  destruct Hps as (Hold & Hkept & Hin). rewrite zset_in by (unfold len in Hin; lia). cbn [mbind option_bind].
  destruct (packed (len bl) (len b) 20) as (Hpack & _ & _); [lia..|].
  assert (Hp : u32 (Z.lor (u32 (Z.shiftl (len bl) 20)) (u32 (len b)) + 1) = len bl * 2 ^ 20 + len b + 1).
  { rewrite (u32_id (len b)) by lia. rewrite (u32_id (Z.shiftl _ _)) by (rewrite Z.shiftl_mul_pow2; lia). rewrite Hpack. apply u32_id. lia. }
  rewrite Hp. eexists; split; [done|]. assert (Hlast : <[Z.to_nat (len bl) := (cap, AppendUvarint b (len (entry id)) ++ entry id)]> (bl ++ [(cap, b)]) = bl ++ [(cap, b ++ uvarint 9 (len (entry id)) ++ entry id)]).
  { unfold len, AppendUvarint. rewrite Nat2Z.id. rewrite <- (Nat.add_0_r (length bl)), insert_app_r. by rewrite <- app_assoc. }
  fold (len (entry id)). rewrite Hlast. clear Hlast. destruct (uvarint_length 9 (len (entry id))) as [Hv1 Hv2]; [done|]. specialize (Hv2 4 ltac:(lia) ltac:(unfold cost in *; lia)).
  split; cbn [pos blocks].
  - intros i p. rewrite zget_insert by (unfold len in Hin; lia). case_decide as Hi.
    + intros [= <-]. right. subst i. exists (len bl), cap, b, []. split_and!; try done; try lia. rewrite app_nil_r, zget_app_r by (unfold len; lia). unfold len at 1. rewrite Z.sub_diag. done.
    + intros [->|Hpi]%Hold; [by left| |done]. destruct (esc_pos c Hc i p Hpi) as [?|(bi & cap' & pre & post & -> & Hbi & Hpre & Hb)]; [by left|]. right.
      apply Hkeep in Hb. generalize dependent (uvarint 9 (len (entry i))). intros u Hb. destruct (decide (bi = len bl)) as [->|Hne].
      * rewrite zget_app_r in Hb by (unfold len; lia). unfold len in Hb at 1. rewrite Z.sub_diag in Hb. injection Hb as -> ->.
        exists (len bl), cap', pre, (post ++ uvarint 9 (len (entry id)) ++ entry id). split; [done|]. split; [done|]. split; [done|]. rewrite zget_app_r by (unfold len; lia). unfold len at 1. rewrite Z.sub_diag.
        change (Some (cap', (pre ++ u ++ entry i ++ post) ++ uvarint 9 (len (entry id)) ++ entry id) = Some (cap', pre ++ u ++ entry i ++ post ++ uvarint 9 (len (entry id)) ++ entry id)).
        by rewrite <- !app_assoc.
      * pose proof (zget_Some_range _ _ _ Hb) as Hr. rewrite length_app in Hr. cbn in Hr. exists bi, cap', pre, post. split; [done|]. split; [done|]. split; [done|].
        rewrite zget_app_l in Hb by (unfold len in *; lia). rewrite zget_app_l by (unfold len in *; lia). exact Hb.
  - apply Forall_app. split; [done|]. apply Forall_singleton. unfold block_ok. cbn [fst snd]. rewrite !len_app. unfold cost, len in *. split; [lia|]. split; [done|].
    destruct Hcap as [->|[-> ->]]; [by left|right]. cbn [length] in *. lia.
  - exists (id :: ids). split; [by apply NoDup_cons|]. split.
    + intros i. rewrite elem_of_cons. intros [->|Hi].
      * split; [done|]. eexists. rewrite zget_insert_eq by (unfold len in Hin; lia). split; [done|lia].
      * destruct (Hids i Hi) as (? & p & Hpi & Hp0). split; [done|]. exists p. rewrite zget_insert_ne by (try lia; congruence). split; [by apply Hkept|done].
    + right. rewrite len_app, List.last_last. cbn [snd]. rewrite !len_app. change (sumOf cost (id :: ids)) with (cost id + sumOf cost ids). unfold cost, len in *. cbn [length]. lia.
Qed.
End escapes.

(** ** The slices written before *)

Section pages.
Context (slices : gmap (Z * Z) text).

Definition sliceCost (k : Z * Z) : Z := len (default [] (slices !! k)).

Record pages_ok (w : jsonWriteCache) : Prop := {
  pg_span k sp : spans w !! k = Some sp → ∃ pi pre t post, slices !! k = Some t ∧ sp = (pi * 2 ^ 20 + len pre) * 2 ^ 20 + len t ∧
    0 <= pi < 2 ^ 24 ∧ len pre < 2 ^ 20 ∧ len t < 2 ^ 20 ∧ zget (pages w) pi = Some (pre ++ t ++ post);
  pg_page : Forall (λ p, len p <= 2 ^ 20) (pages w);
  pg_size : ∃ ks, NoDup ks ∧ (∀ k, k ∈ ks → is_Some (spans w !! k)) ∧ filled (len (pages w)) (len (List.last (pages w) [])) (sumOf sliceCost ks) }.

Lemma sliceCost_nonneg k : 0 <= sliceCost k.
Proof. apply len_nonneg. Qed.

Lemma new_pages_ok : pages_ok newJSONWriteCache.
Proof. split; cbn [spans pages newJSONWriteCache]; [intros k sp; by rewrite lookup_empty|constructor|]. exists []. split; [constructor|]. split; [intros k []%not_elem_of_nil|by left]. Qed.

Hypothesis Hfit : sumOf sliceCost (elements (dom slices)) < 2 ^ 42.

Lemma cached_ok w buf k t : pages_ok w → slices !! k = Some t →
  (cached w buf k = Some None ∧ spans w !! k = None) ∨ cached w buf k = Some (Some (buf ++ t)).
Proof.
  intros Hw Ht. unfold cached. destruct (spans w !! k) as [sp|] eqn:Hsp; [right|by left].
  destruct (pg_span w Hw k sp Hsp) as (pi & pre & t' & post & Ht' & -> & Hpi & Hpre & Hlt & Hp). assert (t' = t) as -> by congruence. unfold jsonCachePage.
  pose proof (len_nonneg pre). pose proof (len_nonneg t). set (hi := pi * 2 ^ 20 + len pre). assert (0 <= hi) by lia.
  destruct (packed hi (len t) 20) as (_ & Hs & ->); [lia..|]. destruct (packed pi (len pre) 20) as (_ & Hs' & Hl'); [lia..|]. fold hi in Hs', Hl'.
  rewrite <- (Z.shiftr_shiftr _ 20 20) by lia. rewrite Hs, Hs', Hl', Hp. cbn [mbind option_bind]. by rewrite sub_middle.
Qed.

Lemma room_page (ps : list text) (t : text) total : filled (len ps) (len (List.last ps [])) total → 0 <= total → t ≠ [] → len t < 2 ^ 20 → Forall (λ p : text, len p <= 2 ^ 20) ps →
  ∃ (ps0 : list text) (p : text), (if (len ps =? 0) || (2 ^ 20 <? len (List.last ps []) + len t) then ps ++ [[]] else ps) = ps0 ++ [p] ∧
    len p + len t <= 2 ^ 20 ∧ len ps0 * 2 ^ 20 + len p <= 2 * total + len t ∧
    (∀ i x, zget ps i = Some x → zget (ps0 ++ [p]) i = Some x) ∧ Forall (λ p : text, len p <= 2 ^ 20) ps0.
Proof.
  intros Hfill Htotal Ht Hlt Hall. pose proof (len_nonneg t). destruct ps as [|p ps _] using rev_ind.
  - exists [], []. cbn. split_and!; try done; [unfold len in *; cbn; lia..|]. intros i x. by rewrite zget_nil.
  - rewrite List.last_last in *. rewrite len_app in *. change (len [p]) with 1 in *. pose proof (len_nonneg ps). apply Forall_app in Hall as Hall'.
    destruct Hall' as [Hps _]. destruct Hfill as [?|Hfill]; [lia|]. rewrite (proj2 (Z.eqb_neq _ _)) by lia. cbn [orb].
    destruct (Z.ltb_spec (2 ^ 20) (len p + len t)) as [Hfull|Hroom].
    + exists (ps ++ [p]), []. split; [done|]. change (len (@nil Z)) with 0. rewrite len_app. change (len [p]) with 1. split_and!; try done; [lia|lia|].
      intros i x Hx. rewrite zget_app_l; [done|]. by eapply zget_Some_range.
    + exists ps, p. split_and!; try done; lia.
Qed.

Lemma remember_ok w k t : pages_ok w → slices !! k = Some t → t ≠ [] → spans w !! k = None → ∃ w', remember w k t = Some w' ∧ pages_ok w'.
Proof.
  intros Hw Hk Ht Hnew. unfold remember. destruct (markSeen _ _ _ _ _) as [sn fresh]. unfold jsonCachePage.
  assert (Hsame : pages_ok (mkWriteCache sn (spans w) (pages w))) by (split; apply Hw).
  destruct fresh; [by eexists|]. cbn [orb]. destruct (Z.leb_spec (2 ^ 20) (len t)) as [Hbig|Hlt]; [by eexists|]. clear Hsame.
  destruct (pg_size w Hw) as (ks & Hnd & Hks & Hfill).
  destruct (room_page (pages w) t (sumOf sliceCost ks)) as (ps & p & -> & Hroom & Hsize & Hkeep & Hps); [done|apply sumOf_nonneg, sliceCost_nonneg|done|done|apply Hw|].
  assert (Hkn : k ∉ ks) by (intros Hin%Hks; rewrite Hnew in Hin; by destruct Hin).
  assert (Hcost : sliceCost k = len t) by (unfold sliceCost; by rewrite Hk).
  assert (Hsum : sumOf sliceCost (k :: ks) < 2 ^ 42).
  { eapply Z.le_lt_trans; [|exact Hfit]. apply sumOf_below; [apply sliceCost_nonneg|by apply NoDup_cons|]. intros x Hx. apply elem_of_elements, elem_of_dom.
    apply elem_of_cons in Hx as [->|[sp Hx]%Hks]; [by eexists|]. destruct (pg_span w Hw x sp Hx) as (? & ? & ? & ? & ? & _). by eexists. }
  change (sumOf sliceCost (k :: ks)) with (sliceCost k + sumOf sliceCost ks) in Hsum.
  pose proof (len_nonneg p). pose proof (len_nonneg ps). assert (0 < len t) by (destruct t; [done|unfold len; cbn; lia]).
  rewrite len_app. change (len [p]) with 1. replace (len ps + 1 - 1) with (len ps) by lia. rewrite zget_app_r by (unfold len; lia).
  replace (len ps - Z.of_nat (length ps)) with 0 by (unfold len; lia). change (zget [p] 0) with (Some p). cbn [mbind option_bind]. eexists; split; [done|].
  replace (<[Z.to_nat (len ps) := p ++ t]> (ps ++ [p])) with (ps ++ [p ++ t]).
  2: { unfold len. rewrite Nat2Z.id, <- (Nat.add_0_r (length ps)), insert_app_r. done. }
  assert (Hpack : Z.lor (Z.lor (u64 (Z.shiftl (len ps) 40)) (u64 (Z.shiftl (len p) 20))) (len t) = (len ps * 2 ^ 20 + len p) * 2 ^ 20 + len t).
  { rewrite !u64_id by (rewrite Z.shiftl_mul_pow2; lia). rewrite <- (Z.shiftl_shiftl _ 20 20), <- Z.shiftl_lor by lia.
    destruct (packed (len ps) (len p) 20) as [-> _]; [lia..|]. by destruct (packed (len ps * 2 ^ 20 + len p) (len t) 20) as [-> _]; [lia..|]. }
  rewrite Hpack. split; cbn [spans pages].
  - intros k' sp. rewrite lookup_insert_Some. intros [[<- <-]|[Hne Hsp]].
    + exists (len ps), p, t, []. rewrite app_nil_r, zget_app_r by (unfold len; lia). replace (len ps - Z.of_nat (length ps)) with 0 by (unfold len; lia). split_and!; try done; lia.
    + destruct (pg_span w Hw k' sp Hsp) as (pi & pre & t' & post & ? & -> & Hpi & ? & ? & Hp). apply Hkeep in Hp. destruct (decide (pi = len ps)) as [->|Hpn].
      * rewrite zget_app_r in Hp by (unfold len; lia). replace (len ps - Z.of_nat (length ps)) with 0 in Hp by (unfold len; lia). injection Hp as ->.
        exists (len ps), pre, t', (post ++ t). rewrite zget_app_r by (unfold len; lia). replace (len ps - Z.of_nat (length ps)) with 0 by (unfold len; lia).
        cbn. rewrite <- !app_assoc. done.
      * pose proof (zget_Some_range _ _ _ Hp) as Hr. rewrite length_app in Hr. cbn in Hr. exists pi, pre, t', post. rewrite zget_app_l in * by (unfold len in *; lia). done.
  - apply Forall_app. split; [done|]. apply Forall_singleton. rewrite len_app. lia.
  - exists (k :: ks). split; [by apply NoDup_cons|]. split.
    + intros x Hx. apply elem_of_cons in Hx as [->|Hx]; [rewrite lookup_insert_eq; by eexists|]. rewrite lookup_insert_ne by (intros ->; done). by apply Hks.
    + right. rewrite len_app, List.last_last, len_app. change (len [_]) with 1. change (sumOf sliceCost (k :: ks)) with (sliceCost k + sumOf sliceCost ks). lia.
Qed.
End pages.

(** *** Members *)

Lemma commas_snoc ts t : ts ≠ [] → commas (ts ++ [t]) = commas ts ++ 44 :: t.
Proof.
  induction ts as [|u ts IH]; [done|]. intros _. destruct ts as [|v ts]; [done|].
  change (commas ((u :: v :: ts) ++ [t])) with (u ++ 44 :: commas ((v :: ts) ++ [t])). rewrite IH by done.
  change (commas (u :: v :: ts)) with (u ++ 44 :: commas (v :: ts)). by rewrite <- app_assoc.
Qed.

Definition adds (f : JsonObj → option JsonObj) (ms : list (text * json)) : Prop :=
  ∀ buf done_, f (buf ++ commas (member <$> done_), len done_) = Some (buf ++ commas (member <$> (done_ ++ ms)), len (done_ ++ ms)).

Lemma sep_adds buf done_ kv : (sep (buf ++ commas (member <$> done_), len done_)).1 ++ member kv = buf ++ commas (member <$> (done_ ++ [kv])) ∧
  (sep (buf ++ commas (member <$> done_), len done_)).2 = len (done_ ++ [kv]).
Proof.
  unfold sep. cbn [fst snd]. split; [|by rewrite len_app]. rewrite fmap_app. destruct done_ as [|x l]; [cbn; by rewrite app_nil_r|].
  rewrite (proj2 (Z.ltb_lt 0 _)) by (unfold len; cbn; lia). cbn [fmap list_fmap]. rewrite (commas_snoc (member x :: _)) by done. by rewrite <- !app_assoc.
Qed.

Lemma adds_one f kv : (∀ buf n, f (buf, n) = let o := sep (buf, n) in Some (o.1 ++ member kv, o.2)) → adds f [kv].
Proof. intros Hf buf done_. rewrite Hf. cbv zeta. by destruct (sep_adds buf done_ kv) as [-> ->]. Qed.

Lemma adds_none f : (∀ o, f o = Some o) → adds f [].
Proof. intros Hf buf done_. by rewrite Hf, app_nil_r. Qed.

Lemma adds_force k v : Forall isByte k → Forall isByte v → adds (forceStr k v) [(k, JStr v)].
Proof.
  intros Hk Hv. apply adds_one. intros buf n. unfold forceStr. cbv zeta. rewrite appendString_spec by done. cbn [mbind option_bind]. rewrite appendString_spec by done.
  cbn [mbind option_bind]. unfold member, quoted. cbn [fst snd print]. unfold quoted. by rewrite <- !app_assoc.
Qed.

Lemma adds_str k v : Forall isByte k → Forall isByte v → adds (str k v) (if nonempty v then [(k, JStr v)] else []).
Proof.
  intros Hk Hv. unfold str, nonempty. destruct (decide (v = [])) as [->|Hne].
  - rewrite (bool_decide_eq_false_2 ([] ≠ [])) by auto. by apply adds_none.
  - rewrite (bool_decide_eq_true_2 (v ≠ [])) by done. intros buf done_. rewrite bool_decide_eq_false_2 by done. by apply adds_force.
Qed.

Lemma adds_true k b : Forall isByte k → adds (boolTrue k b) (if b then [(k, JRaw (bs "true"))] else []).
Proof.
  intros Hk. destruct b; [|by apply adds_none]. apply adds_one. intros buf n. unfold boolTrue. cbn [negb]. cbv zeta. rewrite appendString_spec by done.
  cbn [mbind option_bind]. unfold member, quoted. cbn [fst snd print]. by rewrite <- !app_assoc.
Qed.

Lemma adds_num `{Floats} k v : Forall isByte k → adds (num k v) [(k, JRaw (AppendFloat v))].
Proof.
  intros Hk. apply adds_one. intros buf n. unfold num. cbv zeta. rewrite appendString_spec by done.
  cbn [mbind option_bind]. unfold member, quoted. cbn [fst snd print]. by rewrite <- !app_assoc.
Qed.

Lemma adds_when b f ms : adds f ms → adds (when b f) (if b then ms else []).
Proof. intros Hf. destruct b; [done|by apply adds_none]. Qed.

Lemma adds_all l : Forall (λ e : text * text, Forall isByte e.1 ∧ Forall isByte e.2) l → adds (forceAll l) ((λ e, (e.1, JStr e.2)) <$> l).
Proof.
  induction 1 as [|e l [H1 H2] _ IH]; [by apply adds_none|]. intros buf done_. cbn [forceAll]. rewrite adds_force by done. cbn [mbind option_bind].
  rewrite IH. cbn [fmap list_fmap]. by rewrite <- app_assoc.
Qed.

Lemma adds_if (b : bool) f g ms ms' : adds f ms → adds g ms' → adds (if b then f else g) (if b then ms else ms').
Proof. by destruct b. Qed.

Lemma adds_some_str k v : Forall isByte k → Forall isByte v → adds (when (nonempty v) (str k v)) (if nonempty v then [(k, JStr v)] else []).
Proof. intros Hk Hv. pose proof (adds_str k v Hk Hv) as Hs. destruct (nonempty v); [done|by apply adds_none]. Qed.

Lemma bs_bytes s : Forall isByte (bs s).
Proof.
  unfold bs. apply Forall_fmap, Forall_true. intros a. unfold compose, isByte. pose proof (Ascii.N_ascii_bounded a). lia.
Qed.

Lemma table_bytes (l : list string) i t : zget (bs <$> l) i = Some t → Forall isByte t.
Proof.
  unfold zget. case_bool_decide; [|done]. rewrite list_lookup_fmap. intros (s & _ & ->)%fmap_Some. apply bs_bytes.
Qed.

Lemma object_start buf : (buf ++ [123], 0) = ((buf ++ [123]) ++ commas (member <$> []), len (@nil (text * json))).
Proof. cbn. by rewrite app_nil_r. Qed.

Lemma object_end buf ms : ((buf ++ [123]) ++ commas (member <$> ms)) ++ [125] = buf ++ print (JObj ms).
Proof. by rewrite <- !app_assoc. Qed.

(** An object is built member by member. *)
Lemma adds_next f ms buf done_ (r : JsonObj → option text) t : adds f ms →
  r (buf ++ commas (member <$> (done_ ++ ms)), len (done_ ++ ms)) = t → (o ← f (buf ++ commas (member <$> done_), len done_); r o) = t.
Proof. intros Hf Hr. rewrite Hf. done. Qed.

(** ** Nodes *)

Section writing.
Context `{Floats}.
(** The table of strings, of names of variables, and [vfsBound]. *)
Context (strOf : Z → option text) (envStr : Z → option Z) (vfsBound : Z).

Definition anyString (a : Z) : option text :=
  let v := any_vfs a in
  if negb (v =? 0) then rel ← strOf (vfs_rel v); Some (if bool_decide (rel = []) then take 4 (prefix v) else prefix v ++ rel)
  else strOf (any_str a).

Definition appendKV (kv : KV) (extra : option NodeExtra) (buf : text) : option text :=
  let exts := from_option KVExts [] extra in
  let path := from_option KVPath [] extra in
  splitFile ← match extra with
              | Some x => if negb (SplitFile x =? 0) then anyString (SplitFile x) else Some []
              | None => Some []
              end;
  o ← when (KVDisableCache kv) (forceStr (bs "disable_cache") (bs "yes")) (buf ++ [123], 0);
  o ← forceAll (sortedKVExts exts) o;
  o ← when (LDTestNode kv) (forceStr (bs "ld_test_node") (bs "1")) o;
  o ← str (bs "name") (Name kv) o;
  p ← zget procKindStr (P kv);
  o ← str (bs "p") p o;
  o ← str (bs "path") path o;
  pc ← zget pColorStr (PC kv);
  o ← str (bs "pc") pc o;
  o ← boolTrue (bs "run_test_node") (RunTestNode kv) o;
  o ← (if ShowOut kv then forceStr (bs "show_out") (bs "yes") else boolTrue (bs "show_out") (ShowOutBool kv)) o;
  o ← when (Soe kv) (forceStr (bs "soe") (bs "yes")) o;
  o ← when (HasSpecialRunner kv) (forceStr (bs "special_runner") (SpecialRunner kv)) o;
  o ← str (bs "split_file") splitFile o;
  o ← when (from_option HasSplitIndex false extra) (num (bs "split_index") (ofInt (from_option SplitIndex 0 extra))) o;
  Some (o.1 ++ [125]).

Definition appendStrOf (id : Z) : writer := λ c buf, s ← strOf id; buf ← appendString buf s; Some (c, buf).

Definition withState (c : Caches) (b : TwoBitSet.TwoBitSet) : Caches := mkCaches b (vfsCleanJSON c) (vfsEscapedJSON c) (written c).
Definition withClean (c : Caches) (b : BitSet.BitSet) : Caches := mkCaches (strJSONState c) b (vfsEscapedJSON c) (written c).
Definition withEscaped (c : Caches) (e : vfsEscapeCache) : Caches := mkCaches (strJSONState c) (vfsCleanJSON c) e (written c).
Definition withWritten (c : Caches) (w : jsonWriteCache) : Caches := mkCaches (strJSONState c) (vfsCleanJSON c) (vfsEscapedJSON c) w.

Definition appendSTRComma (id : Z) : writer := λ c buf,
  s ← strOf id;
  st ← TwoBitSet.get (strJSONState c) id;
  if st =? strJSONClean then Some (c, ((buf ++ [34]) ++ s) ++ [34; 44])
  else if st =? strJSONEscaped then buf ← appendString buf s; Some (c, buf ++ [44])
  else
    let start := len buf in
    buf ← appendString buf s;
    b ← TwoBitSet.set (strJSONState c) id (if len buf - start =? len s + 2 then strJSONClean else strJSONEscaped);
    Some (withState c b, buf ++ [44]).

Definition appendVFSUncached (v id : Z) : writer := λ c buf,
  s ← strOf (vfs_rel v);
  let start := length buf in
  let buf := buf ++ [34] in
  buf ← (if bool_decide (s = []) then Some (buf ++ take 4 (prefix v)) else appendStringEscapedBody (buf ++ prefix v) s);
  let buf := buf ++ [34; 44] in
  if nonempty s && (len buf - Z.of_nat start =? len s + 5 + 3) then
    b ← BitSet.add (vfsCleanJSON c) id; Some (withClean c b, buf)
  else e ← putEscaped vfsBound (vfsEscapedJSON c) id (drop start buf); Some (withEscaped c e, buf).

Definition appendVFSComma (v : Z) : writer := λ c buf,
  let id := v in
  clean ← BitSet.has (vfsCleanJSON c) id;
  if (clean : bool) then s ← strOf (vfs_rel v); Some (c, (((buf ++ [34]) ++ prefix v) ++ s) ++ [34; 44])
  else
    e ← getEscaped (vfsEscapedJSON c) id;
    match e with
    | Some e => Some (c, buf ++ e)
    | None => appendVFSUncached v id c buf
    end.

Definition appendVFS (v : Z) : writer := appendVFSComma v +> plainly chop.

Definition appendVFSSlice (vs : list Z) : writer := lit [91] +> each appendVFSComma vs +> plainly appendArrayEnd.
Definition appendVFSChunks (chunks : list (list Z)) : writer :=
  lit [91] +> each (each appendVFSComma) chunks +> plainly appendArrayEnd.
Definition appendBuildOnlyVFSChunks (chunks : list (list Z)) : writer :=
  lit [91] +> each (each (λ v, if isSource v then nothing else appendVFSComma v)) chunks +> plainly appendArrayEnd.

Definition sliceKey {A} (s : Slice A) : Z * Z := (first s, len (elems s)).

(** What is written for a slice, unless it is in the cache. *)
Definition remembered (k : Z * Z) (f : writer) : writer := λ c buf,
  hit ← cached (written c) buf k;
  match hit with
  | Some buf => Some (c, buf)
  | None =>
      let start := length buf in
      '(c, buf) ← f c buf;
      w ← remember (written c) k (drop start buf);
      Some (withWritten c w, buf)
  end.

Definition appendArg (a : Z) : writer := let v := any_vfs a in if negb (v =? 0) then appendVFSComma v else appendSTRComma (any_str a).

Definition appendChunk (ch : Slice Z) : writer :=
  if bool_decide (elems ch = []) then nothing else remembered (sliceKey ch) (each appendArg (elems ch)).
Definition appendStrChunks (chunks : list (Slice Z)) : writer := lit [91] +> each appendChunk chunks +> plainly appendArrayEnd.

Definition appendEnvVar (e : Z * Z) : writer :=
  (λ c buf, name ← envStr e.1; appendStrOf name c buf) +> lit [58] +>
  (let v := any_vfs e.2 in if negb (v =? 0) then appendVFS v else appendStrOf (any_str e.2)).
Definition appendEnv (env : Slice (Z * Z)) : writer :=
  if bool_decide (elems env = []) then lit [123; 125]
  else remembered (sliceKey env) (lit [123] +> separated appendEnvVar (elems env) +> lit [125]).

Definition opt (b : bool) (f : writer) : writer := if b then f else nothing.

Definition appendCmd (cm : Cmd) : writer :=
  lit ([123] ++ key "cmd_args") +> appendStrChunks (CmdArgs cm) +>
  opt (negb (Cwd cm =? 0)) (lit (44 :: key "cwd") +>
    (let v := any_vfs (Cwd cm) in if negb (v =? 0) then appendVFS v else appendStrOf (any_str (Cwd cm)))) +>
  opt (bool_decide (elems (CmdEnv cm) ≠ [])) (lit (44 :: key "env") +> appendEnv (CmdEnv cm)) +>
  opt (negb (Stdout cm =? 0)) (lit (44 :: key "stdout") +> appendVFS (Stdout cm)) +>
  lit [125].
Definition appendCmdSlice (cmds : list Cmd) : writer := lit [91] +> separated appendCmd cmds +> lit [93].

Definition inputNames (n : GNode) : list Z := from_option InputNames [] (Extra n).
Definition resourceURIs (n : GNode) : list Z := from_option ResourceURIs [] (Extra n).
Definition disableCache (n : GNode) : bool := from_option DisableCache false (Extra n).

Definition appendName (id : Z) : writer :=
  (λ c buf, l ← last buf; Some (c, if l =? 91 then buf else buf ++ [44])) +> appendStrOf id.
Definition appendURI (id : Z) : writer := lit ([123] ++ key "uri") +> appendStrOf id +> lit [125].

Definition appendNode (fetchRefs : gmap Z Z) (dropSrcInputs : bool) (n : GNode) : writer :=
  lit [123] +>
  opt (disableCache n || KVDisableCache (NodeKV n)) (lit (key "cache" ++ bs "false,")) +>
  lit (key "cmds") +> appendCmdSlice (Cmds n) +>
  lit (44 :: key "deps") +> appendRefNumsSeq (buildDeps fetchRefs (base n)) +>
  lit (44 :: key "env") +> appendEnv (NodeEnv n) +>
  opt (bool_decide (ForeignDepRefs (base n) ≠ []))
    (lit (44 :: key "foreign_deps" ++ [123] ++ key "tool") +> appendRefNumSlice (ForeignDepRefs (base n)) +> lit [125]) +>
  lit (44 :: key "inputs") +>
  (if dropSrcInputs then appendBuildOnlyVFSChunks (Inputs n) else appendVFSChunks (Inputs n)) +>
  opt (bool_decide (inputNames n ≠ [])) (plainly chop +> each appendName (inputNames n) +> lit [93]) +>
  lit (44 :: key "kv") +> plainly (appendKV (NodeKV n) (Extra n)) +>
  lit (44 :: key "outputs") +> appendVFSSlice (Outputs (base n)) +>
  opt (nonempty (Target n)) (lit (44 :: key "platform") +> plainly (λ buf, appendString buf (Target n))) +>
  lit (44 :: key "requirements") +> plainly (appendRequirements (NodeRequirements n)) +>
  opt (bool_decide (resourceURIs n ≠ [])) (lit (44 :: key "resources" ++ [91]) +> separated appendURI (resourceURIs n) +> lit [93]) +>
  lit (44 :: key "self_uid") +> appendRefNum (Ref n) +>
  lit (44 :: key "uid") +> appendRefNum (Ref n) +>
  lit [125].

(** *** The graph *)

Section sink.
(** [w.Write] *)
Context {W : Type} (write : W → text → res W).

Fixpoint writeNodes (g : Graph) (drop_ : bool) (fst_ : bool) (ns : list GNode) (c : Caches) (w : W) (buf : text) : res (Caches * W * text) :=
  match ns with
  | [] => Ok (c, w, buf)
  | n :: ns =>
      let buf := if fst_ then buf else buf ++ [44] in
      '(c, buf) ← lift (appendNode (fetchRefs g) drop_ n c buf);
      if 2 ^ 20 <=? len buf then w ← write w buf; writeNodes g drop_ false ns c w []
      else writeNodes g drop_ false ns c w buf
  end.

Definition writeGraphCompact (c : Caches) (w : W) (g : Graph) (dropSrcInputs : bool) : res (Caches * W) :=
  let c := withWritten c newJSONWriteCache in
  '(c, w, buf) ← writeNodes g dropSrcInputs true (nodes g) c w ([123] ++ key "graph" ++ [91]);
  '(c, buf) ← lift ((lit ([93; 44] ++ key "inputs" ++ bs "{}," ++ key "result") +> appendRefNumSlice (Result g) +> lit [125]) c buf);
  w ← write w buf;
  Ok (c, w).
End sink.

(** ** The value of a graph *)

Definition strText (id : Z) : text := default [] (strOf id).
Definition fileText (v : Z) : text :=
  if bool_decide (strText (vfs_rel v) = []) then take 4 (prefix v) else prefix v ++ strText (vfs_rel v).
Definition anyText (a : Z) : text := if negb (any_vfs a =? 0) then fileText (any_vfs a) else strText (any_str a).
Definition nameText (e : Z) : text := default [] (envStr e ≫= strOf).

Definition strJson (id : Z) : json := JStr (strText id).
Definition fileJson (v : Z) : json := JStr (fileText v).
Definition anyJson (a : Z) : json := JStr (anyText a).
Definition refJson (r : Z) : json := JRaw (decimal r).
Definition varJson (e : Z * Z) : text * json := (nameText e.1, anyJson e.2).

Inductive content := Args (l : list Z) | Vars (l : list (Z * Z)).

Definition item (j : json) : text := print j ++ [44].
Definition sliceText (s : content) : text :=
  match s with
  | Args l => mjoin ((λ a, item (anyJson a)) <$> l)
  | Vars l => print (JObj (varJson <$> l))
  end.

Definition field (b : bool) (k : string) (j : json) : list (text * json) := if b then [(bs k, j)] else [].
Definition textField (k : string) (t : text) : list (text * json) := field (nonempty t) k (JStr t).

Definition cmdJson (cm : Cmd) : json := JObj (
  [(bs "cmd_args", JArr (anyJson <$> mjoin (elems <$> CmdArgs cm)))] ++
  field (negb (Cwd cm =? 0)) "cwd" (anyJson (Cwd cm)) ++
  field (bool_decide (elems (CmdEnv cm) ≠ [])) "env" (JObj (varJson <$> elems (CmdEnv cm))) ++
  field (negb (Stdout cm =? 0)) "stdout" (fileJson (Stdout cm))).

Definition kvJson (kv : KV) (x : option NodeExtra) : json := JObj (
  field (KVDisableCache kv) "disable_cache" (JStr (bs "yes")) ++
  ((λ e, (e.1, JStr e.2)) <$> sortedKVExts (from_option KVExts [] x)) ++
  field (LDTestNode kv) "ld_test_node" (JStr (bs "1")) ++
  textField "name" (Name kv) ++
  textField "p" (default [] (zget procKindStr (P kv))) ++
  textField "path" (from_option KVPath [] x) ++
  textField "pc" (default [] (zget pColorStr (PC kv))) ++
  field (RunTestNode kv) "run_test_node" (JRaw (bs "true")) ++
  (if ShowOut kv then [(bs "show_out", JStr (bs "yes"))] else field (ShowOutBool kv) "show_out" (JRaw (bs "true"))) ++
  field (Soe kv) "soe" (JStr (bs "yes")) ++
  field (HasSpecialRunner kv) "special_runner" (JStr (SpecialRunner kv)) ++
  textField "split_file" (match x with Some x => if negb (SplitFile x =? 0) then anyText (SplitFile x) else [] | None => [] end) ++
  field (from_option HasSplitIndex false x) "split_index" (JRaw (AppendFloat (ofInt (from_option SplitIndex 0 x))))).

Definition requirementsJson (r : option Requirements) : json := JObj
  match r with
  | None => [(bs "cpu", JRaw (bs "1")); (bs "network", JStr (bs "restricted")); (bs "ram", JRaw (bs "32"))]
  | Some r =>
      field (negb (isZero (CPU r))) "cpu" (JRaw (AppendFloat (CPU r))) ++
      textField "dns" (DNS r) ++
      field (KVM r) "kvm" (JRaw (bs "true")) ++
      textField "network" (default [] (zget networkModeStr (Network r))) ++
      (if negb (isZero (RAM r)) then [(bs "ram", JRaw (AppendFloat (RAM r)))] else textField "ram" (RAMText r)) ++
      field (HasRAMDisk r) "ram_disk" (JRaw (AppendFloat (RAMDisk r))) ++
      textField "sb_vault" (SbVault r) ++
      field (negb (TestOutputLimit r =? 0)) "test_output_limit" (JRaw (AppendFloat (ofInt (TestOutputLimit r)))) ++
      textField "yav" (Yav r)
  end.

Definition inputFiles (dropSrcInputs : bool) (n : GNode) : list Z :=
  (if dropSrcInputs then filter (λ v, isSource v = false) else λ l, l) (mjoin (Inputs n)).

Definition nodeJson (fetchRefs : gmap Z Z) (dropSrcInputs : bool) (n : GNode) : json := JObj (
  field (disableCache n || KVDisableCache (NodeKV n)) "cache" (JRaw (bs "false")) ++
  [(bs "cmds", JArr (cmdJson <$> Cmds n)); (bs "deps", JArr (refJson <$> buildDeps fetchRefs (base n))); (bs "env", JObj (varJson <$> elems (NodeEnv n)))] ++
  field (bool_decide (ForeignDepRefs (base n) ≠ [])) "foreign_deps" (JObj [(bs "tool", JArr (refJson <$> ForeignDepRefs (base n)))]) ++
  [(bs "inputs", JArr ((fileJson <$> inputFiles dropSrcInputs n) ++ (strJson <$> inputNames n))); (bs "kv", kvJson (NodeKV n) (Extra n));
   (bs "outputs", JArr (fileJson <$> Outputs (base n)))] ++
  textField "platform" (Target n) ++
  [(bs "requirements", requirementsJson (NodeRequirements n))] ++
  field (bool_decide (resourceURIs n ≠ [])) "resources" (JArr ((λ u, JObj [(bs "uri", strJson u)]) <$> resourceURIs n)) ++
  [(bs "self_uid", refJson (Ref n)); (bs "uid", refJson (Ref n))]).

Definition graphMembers (g : Graph) (dropSrcInputs : bool) : list (text * json) :=
  [(bs "graph", JArr (nodeJson (fetchRefs g) dropSrcInputs <$> nodes g)); (bs "inputs", JObj []); (bs "result", JArr (refJson <$> Result g))].

(** ** Invariant and writers *)

Section invariant.
Context (heap : gmap (Z * Z) content) (files : list Z).

Definition named (id : Z) : Prop := ∃ s, strOf id = Some s ∧ Forall isByte s.

(** The files and the slices of the graph: files are in the table, and what is kept of them fits the packed numbers. *)
Record fits : Prop := {
  fit_file v : v ∈ files → 0 <= v < vfsBound ∧ named (vfs_rel v);
  fit_bound : vfsBound <= 2 ^ 32;
  fit_escapes : sumOf (cost (λ v, item (fileJson v))) files < 2 ^ 31;
  fit_slices : sumOf (sliceCost (sliceText <$> heap)) (elements (dom (sliceText <$> heap))) < 2 ^ 42 }.

Record ok (c : Caches) : Prop := {
  ok_state : TwoBitSet.wf (strJSONState c);
  ok_str id s : is_u32 id → strOf id = Some s → TwoBitSet.get (strJSONState c) id = Some strJSONClean → escaped s = s;
  ok_bits : BitSet.wf (vfsCleanJSON c);
  ok_clean v s : is_u32 v → strOf (vfs_rel v) = Some s → BitSet.member (vfsCleanJSON c) v = true → s ≠ [] ∧ escaped s = s;
  ok_escaped : escapes_ok (λ v, item (fileJson v)) files (vfsEscapedJSON c);
  ok_written : pages_ok (sliceText <$> heap) (written c) }.

(** [q]: the slices written before are not touched. *)
Definition writes (q : bool) (f : writer) (t : text) : Prop :=
  ∀ c buf, ok c → ∃ c', f c buf = Some (c', buf ++ t) ∧ ok c' ∧ (q = true → written c' = written c).

Lemma writes_nothing q : writes q nothing [].
Proof. intros c buf Hc. exists c. by rewrite app_nil_r. Qed.

Lemma writes_lit q t : writes q (lit t) t.
Proof. intros c buf Hc. by exists c. Qed.

Lemma writes_seq q f g a b : writes q f a → writes q g b → writes q (f +> g) (a ++ b).
Proof.
  intros Hf Hg c buf Hc. destruct (Hf c buf Hc) as (c1 & E1 & Hc1 & Hq1). destruct (Hg c1 (buf ++ a) Hc1) as (c2 & E2 & Hc2 & Hq2).
  exists c2. unfold andThen. rewrite E1. cbn [mbind option_bind]. rewrite E2, <- app_assoc. split; [done|]. split; [done|]. intros Hq. by rewrite Hq2, Hq1.
Qed.

Lemma writes_quiet q f t : writes true f t → writes q f t.
Proof. intros Hf c buf Hc. destruct (Hf c buf Hc) as (c' & ? & ? & Hq). exists c'. by auto. Qed.

Lemma writes_each {A} q (f : A → writer) t l : Forall (λ x, writes q (f x) (t x)) l → writes q (each f l) (mjoin (t <$> l)).
Proof. induction 1 as [|x l Hx _ IH]; [apply writes_nothing|]. by apply writes_seq. Qed.

Lemma commas_cons t ts : commas (t :: ts) = t ++ mjoin ((λ t, 44 :: t) <$> ts).
Proof.
  revert t. induction ts as [|u ts IH]; intros t; [by rewrite app_nil_r|]. change (commas (t :: u :: ts)) with (t ++ 44 :: commas (u :: ts)). by rewrite IH.
Qed.

Lemma writes_separated {A} q (f : A → writer) t l : Forall (λ x, writes q (f x) (t x)) l → writes q (separated f l) (commas (t <$> l)).
Proof.
  destruct 1 as [|x l Hx Hl]; [apply writes_nothing|]. cbn [separated fmap list_fmap]. rewrite commas_cons. apply writes_seq; [done|].
  rewrite <- list_fmap_compose. apply writes_each. eapply Forall_impl; [done|]. intros y Hy. by apply (writes_seq _ _ _ [44]); [apply writes_lit|].
Qed.

Lemma writes_opt q b f t : (b = true → writes q f t) → writes q (opt b f) (if b then t else []).
Proof. destruct b; intros Hf; [by apply Hf|apply writes_nothing]. Qed.

(** Arrays of items with commas behind. *)
Lemma array_end ts buf : appendArrayEnd (buf ++ 91 :: mjoin ((λ t, t ++ [44]) <$> ts)) = Some (buf ++ 91 :: commas ts ++ [93]).
Proof.
  unfold appendArrayEnd. destruct ts as [|t ts _] using rev_ind.
  - cbn. rewrite last_snoc. cbn. by rewrite <- app_assoc.
  - assert (Hc : mjoin ((λ t, t ++ [44]) <$> ts ++ [t]) = commas (ts ++ [t]) ++ [44]).
    { clear. induction ts as [|u ts IH]; [cbn; by rewrite app_nil_r|]. cbn [app]. rewrite join_fmap_cons, IH. destruct ts as [|v ts]; cbn; by rewrite <- ?app_assoc. }
    rewrite Hc, (app_comm_cons (commas _)), app_assoc, last_snoc. cbn [mbind option_bind]. change (44 =? 44) with true. cbn iota. rewrite length_app. cbn [length].
    rewrite Nat.add_sub, take_app_length, <- app_assoc. done.
Qed.

Lemma writes_array q f js : writes q f (mjoin (item <$> js)) → writes q (lit [91] +> f +> plainly appendArrayEnd) (print (JArr js)).
Proof.
  intros Hf c buf Hc. unfold andThen, lit, plainly. cbn [mbind option_bind]. destruct (Hf c (buf ++ [91]) Hc) as (c' & -> & Hc' & Hq). exists c'. cbn [mbind option_bind].
  replace (mjoin (item <$> js)) with (mjoin ((λ t, t ++ [44]) <$> (print <$> js))) by (by rewrite <- list_fmap_compose).
  rewrite <- app_assoc. cbn [app]. rewrite array_end. done.
Qed.

Lemma writes_brackets q f js : writes q f (commas (print <$> js)) → writes q (lit [91] +> f +> lit [93]) (print (JArr js)).
Proof. intros Hf. apply (writes_seq _ _ _ [91] (commas (print <$> js) ++ [93])); [apply writes_lit|]. apply writes_seq; [done|apply writes_lit]. Qed.

Lemma writes_chop q f t b : writes q f (t ++ [b]) → writes q (f +> plainly chop) t.
Proof.
  intros Hf c buf Hc. destruct (Hf c buf Hc) as (c' & E & Hc' & Hq). exists c'. unfold andThen, plainly. rewrite E. cbn [mbind option_bind]. unfold chop. rewrite app_assoc.
  destruct ((buf ++ t) ++ [b]) eqn:Hb; [by destruct (buf ++ t)|]. rewrite <- Hb, length_app. cbn [length]. by rewrite Nat.add_sub, take_app_length.
Qed.

Lemma escapedBody_spec buf s : Forall isByte s → appendStringEscapedBody buf s = Some (buf ++ escaped s).
Proof. intros Hs. unfold appendStringEscapedBody. rewrite escapeLoop_spec by (done || lia). by rewrite app_nil_l. Qed.

Lemma writes_string s : Forall isByte s → writes true (plainly (λ buf, appendString buf s)) (quoted s).
Proof. intros Hs c buf Hc. exists c. unfold plainly. by rewrite appendString_spec. Qed.

Lemma writes_strOf id : named id → writes true (appendStrOf id) (print (strJson id)).
Proof. intros (s & Hs & Hb) c buf Hc. exists c. unfold appendStrOf, strJson, strText. cbn [print]. rewrite Hs. cbn [mbind option_bind]. by rewrite appendString_spec. Qed.

Lemma with_state_ok c b : ok c → TwoBitSet.wf b →
  (∀ id s, is_u32 id → strOf id = Some s → TwoBitSet.get b id = Some strJSONClean → escaped s = s) → ok (withState c b).
Proof. intros Hc Hb Hs. by split; cbn; try apply Hc. Qed.

Lemma writes_STR id : is_u32 id → named id → writes true (appendSTRComma id) (item (strJson id)).
Proof.
  intros Hid (s & Hs & Hb) c buf Hc. unfold appendSTRComma, item, strJson, strText. cbn [print]. rewrite Hs. cbn [mbind option_bind default from_option Datatypes.id].
  pose proof (TwoBitSet.get_spec _ id (ok_state c Hc) Hid) as Hst. rewrite Hst. cbn [mbind option_bind].
  destruct (Z.eqb_spec (TwoBitSet.state (strJSONState c) id) strJSONClean) as [E|_].
  { exists c. rewrite E in Hst. pose proof (ok_str c Hc id s Hid Hs Hst) as He. unfold quoted. rewrite He, <- !app_assoc. cbn [app]. by rewrite <- !app_assoc. }
  rewrite appendString_spec by done. cbn [mbind option_bind].
  destruct (Z.eqb_spec (TwoBitSet.state (strJSONState c) id) strJSONEscaped) as [_|_]; [exists c; by rewrite <- app_assoc|].
  set (val := if _ =? _ then _ else _).
  destruct (TwoBitSet.twobit_set_get (strJSONState c) id val id (ok_state c Hc) Hid Hid) as (b & Eb & Hwf & _). rewrite Eb. cbn [mbind option_bind].
  eexists; split; [by rewrite <- app_assoc|]. split; [|done]. apply with_state_ok; [done|done|]. intros i s' Hi Hs' Hget.
  destruct (TwoBitSet.twobit_set_get (strJSONState c) id val i (ok_state c Hc) Hid Hi) as (b' & Eb' & _ & Hg). assert (b' = b) as -> by congruence.
  rewrite Hg in Hget. destruct (decide (id = i)) as [<-|Hne]; [|by eapply (ok_str c Hc)]. assert (s' = s) as -> by congruence.
  apply escaped_same. unfold val in Hget. destruct (Z.eqb_spec (len (buf ++ c_quote :: escaped s ++ [c_quote]) - len buf) (len s + 2)) as [Hl|_]; [|done].
  unfold len in Hl. rewrite length_app in Hl. cbn [length] in Hl. rewrite length_app in Hl. cbn [length] in Hl. lia.
Qed.

Lemma prefix_plain v : Forall (λ b, plain b = true) (prefix v).
Proof. unfold prefix. destruct (isBuild v); by repeat constructor. Qed.

Lemma fileJson_quoted v s : strOf (vfs_rel v) = Some s →
  item (fileJson v) = ([34] ++ (if bool_decide (s = []) then take 4 (prefix v) else prefix v ++ escaped s)) ++ [34; 44].
Proof.
  intros Hs. unfold item, fileJson, fileText, strText. rewrite Hs. cbn [default from_option Datatypes.id print]. unfold quoted. case_bool_decide.
  - unfold prefix. by destruct (isBuild v).
  - rewrite escaped_plain by apply prefix_plain. cbn [app]. by rewrite <- !app_assoc.
Qed.

Context (Hfits : fits).

Lemma file_u32 v : v ∈ files → is_u32 v.
Proof. intros Hv. destruct (fit_file Hfits v Hv) as [? _]. pose proof (fit_bound Hfits). lia. Qed.

Lemma writes_file v : v ∈ files → writes true (appendVFSComma v) (item (fileJson v)).
Proof.
  intros Hv c buf Hc. pose proof (file_u32 v Hv) as Hu. destruct (fit_file Hfits v Hv) as [Hrange (s & Hs & Hb)]. pose proof (fileJson_quoted v s Hs) as Hq.
  unfold appendVFSComma. rewrite BitSet.bitset_has_spec by (done || apply Hc). cbn [mbind option_bind]. destruct (BitSet.member (vfsCleanJSON c) v) eqn:Hm.
  { rewrite Hs. cbn [mbind option_bind]. exists c. destruct (ok_clean c Hc v s Hu Hs Hm) as [Hne He]. rewrite Hq, He, bool_decide_eq_false_2 by done. by rewrite <- !app_assoc. }
  destruct (getEscaped_ok (λ v, item (fileJson v)) files (fit_escapes Hfits) (vfsEscapedJSON c) v (ok_escaped c Hc) Hv) as [[-> Habs]| ->];
    cbn [mbind option_bind]; [|by exists c].
  unfold appendVFSUncached. rewrite Hs. cbn [mbind option_bind].
  assert (Hbody : (if bool_decide (s = []) then Some ((buf ++ [34]) ++ take 4 (prefix v)) else appendStringEscapedBody ((buf ++ [34]) ++ prefix v) s) =
    Some (buf ++ [34] ++ (if bool_decide (s = []) then take 4 (prefix v) else prefix v ++ escaped s))).
  { case_bool_decide; [by rewrite <- app_assoc|]. rewrite escapedBody_spec by done. by rewrite <- !app_assoc. }
  rewrite Hbody. cbn [mbind option_bind]. clear Hbody. rewrite <- app_assoc, <- Hq. set (e := item (fileJson v)) in *.
  destruct (nonempty s && _) eqn:Hclean.
  - apply andb_true_iff in Hclean as [Hne%bool_decide_eq_true Hl%Z.eqb_eq].
    assert (He : escaped s = s).
    { apply escaped_same. rewrite Hq, bool_decide_eq_false_2 in Hl by done. unfold len in Hl. rewrite !length_app in Hl. cbn [length] in Hl.
      assert (length (prefix v) = 5%nat) by (unfold prefix; by destruct (isBuild v)). lia. }
    destruct (BitSet.bitset_add_spec (vfsCleanJSON c) v (ok_bits c Hc) Hu) as (b & -> & Hwf & Hmem). cbn [mbind option_bind].
    eexists; split; [done|]. split; [|done]. split; cbn [strJSONState vfsCleanJSON vfsEscapedJSON written withClean]; try apply Hc; [done|].
    intros i s' Hi Hs' Hm'. rewrite Hmem in Hm' by done. apply orb_true_iff in Hm' as [<-%bool_decide_eq_true|Hm']; [|by eapply (ok_clean c Hc)].
    assert (s' = s) as -> by congruence. done.
  - rewrite drop_app_length. destruct (putEscaped_ok vfsBound (λ v, item (fileJson v)) files (fit_escapes Hfits) (vfsEscapedJSON c) v (ok_escaped c Hc) Hv Hrange Habs) as (x & Ex & Hx).
    fold e in Ex. rewrite Ex. cbn [mbind option_bind]. eexists; split; [done|]. split; [|done]. split; try apply Hc. done.
Qed.

Lemma writes_VFS v : v ∈ files → writes true (appendVFS v) (print (fileJson v)).
Proof. intros Hv. eapply writes_chop. by apply writes_file. Qed.

Lemma writes_remembered k s f : heap !! k = Some s → sliceText s ≠ [] → writes true f (sliceText s) → writes false (remembered k f) (sliceText s).
Proof.
  intros Hk Hne Hf c buf Hc. unfold remembered. assert (Hk' : (sliceText <$> heap) !! k = Some (sliceText s)) by (by rewrite lookup_fmap, Hk).
  destruct (cached_ok (sliceText <$> heap) (written c) buf k _ (ok_written c Hc) Hk') as [[-> Hnew]| ->]; cbn [mbind option_bind]; [|by exists c].
  destruct (Hf c buf Hc) as (c' & -> & Hc' & Hsame). specialize (Hsame eq_refl). cbn [mbind option_bind]. rewrite drop_app_length, Hsame.
  destruct (remember_ok (sliceText <$> heap) (fit_slices Hfits) (written c) k _ (ok_written c Hc) Hk' Hne Hnew) as (w & -> & Hw). cbn [mbind option_bind].
  eexists; split; [done|]. split; [|done]. split; try apply Hc'. done.
Qed.

(** *** Requirements and KV *)

Definition okAny (a : Z) : Prop := if any_vfs a =? 0 then is_u32 (any_str a) ∧ named (any_str a) else any_vfs a ∈ files.

Definition requirements_good (r : Requirements) : Prop :=
  is_Some (zget networkModeStr (Network r)) ∧ Forall isByte (RAMText r) ∧ Forall isByte (DNS r) ∧ Forall isByte (SbVault r) ∧ Forall isByte (Yav r).

Lemma requirements_written r buf : (∀ x, r = Some x → requirements_good x) → appendRequirements r buf = Some (buf ++ print (requirementsJson r)).
Proof.
  intros Hr. destruct r as [r|]; [|done]. destruct (Hr r eq_refl) as ([nw Hnw] & Hram & Hdns & Hvault & Hyav). unfold appendRequirements, requirementsJson.
  assert (Hn : Forall isByte nw) by (by eapply table_bytes). rewrite Hnw. cbn [default from_option Datatypes.id].
  rewrite object_start.
  do 3 (eapply adds_next; [first [apply adds_when, adds_num|apply adds_str|apply adds_true]; first [apply bs_bytes|done]|]). cbn [mbind option_bind].
  eapply adds_next; [by apply adds_str; [apply bs_bytes|]|].
  eapply adds_next; [apply adds_if; [apply adds_num, bs_bytes|by apply adds_some_str; [apply bs_bytes|]]|].
  eapply adds_next; [apply adds_when, adds_num, bs_bytes|].
  eapply adds_next; [by apply adds_some_str; [apply bs_bytes|]|].
  eapply adds_next; [apply adds_when, adds_num, bs_bytes|].
  eapply adds_next; [by apply adds_some_str; [apply bs_bytes|]|].
  cbn [fst]. rewrite object_end. by rewrite <- !app_assoc.
Qed.

Definition extra_good (x : NodeExtra) : Prop :=
  Forall (λ e : text * text, Forall isByte e.1 ∧ Forall isByte e.2) (KVExts x) ∧ Forall isByte (KVPath x) ∧ (SplitFile x ≠ 0 → okAny (SplitFile x)) ∧
  Forall named (InputNames x) ∧ Forall named (ResourceURIs x).
Definition kv_good (kv : KV) : Prop :=
  is_Some (zget procKindStr (P kv)) ∧ is_Some (zget pColorStr (PC kv)) ∧ Forall isByte (Name kv) ∧ Forall isByte (SpecialRunner kv).

Lemma anyText_ok a : okAny a → anyString a = Some (anyText a) ∧ Forall isByte (anyText a).
Proof.
  unfold okAny, anyString, anyText. destruct (any_vfs a =? 0); cbn [negb].
  - intros (_ & s & Hs & Hb). unfold strText. by rewrite Hs.
  - intros Hv. destruct (fit_file Hfits _ Hv) as [_ (s & Hs & Hb)]. unfold fileText, strText. rewrite Hs. cbn [mbind option_bind default from_option Datatypes.id]. split; [done|].
    assert (Hp : Forall isByte (prefix (any_vfs a))) by (unfold prefix, isByte; destruct (isBuild _); repeat constructor; lia).
    case_bool_decide; [by apply Forall_take|by apply Forall_app].
Qed.

Lemma sorted_perm l : sortedKVExts l ≡ₚ l.
Proof.
  assert (Hins : ∀ e l, insertExt e l ≡ₚ e :: l).
  { intros e. induction l0 as [|x l0 IH]; [done|]. cbn [insertExt]. destruct (_ <? 0); [done|]. rewrite IH. apply perm_swap. }
  unfold sortedKVExts. destruct (_ <? _)%nat; [done|]. assert (Hf : ∀ l acc, foldl (λ l e, insertExt e l) acc l ≡ₚ l ++ acc).
  { induction l0 as [|e l0 IH]; intros acc; [done|]. cbn [foldl]. rewrite IH, Hins. by rewrite <- Permutation_middle. }
  rewrite Hf. by rewrite app_nil_r.
Qed.

Lemma kv_written kv x buf : kv_good kv → (∀ y, x = Some y → extra_good y) → appendKV kv x buf = Some (buf ++ print (kvJson kv x)).
Proof.
  intros ([p Hp] & [pc Hpc] & Hname & Hrunner) Hx. unfold appendKV, kvJson. rewrite Hp, Hpc. cbn [default from_option Datatypes.id].
  pose proof (table_bytes _ _ _ Hp) as Hpb. pose proof (table_bytes _ _ _ Hpc) as Hpcb.
  set (split := match x with Some x => if negb (SplitFile x =? 0) then anyText (SplitFile x) else [] | None => [] end).
  assert (Hsplit : match x with Some x => if negb (SplitFile x =? 0) then anyString (SplitFile x) else Some [] | None => Some [] end = Some split ∧ Forall isByte split).
  { unfold split. destruct x as [x|]; [|by split]. destruct (Hx x eq_refl) as (_ & _ & Hs & _). destruct (Z.eqb_spec (SplitFile x) 0); [by split|]. cbn [negb]. by apply anyText_ok, Hs. }
  destruct Hsplit as [-> Hsb]. cbn [mbind option_bind]. rewrite object_start.
  assert (Hext : Forall (λ e : text * text, Forall isByte e.1 ∧ Forall isByte e.2) (sortedKVExts (from_option KVExts [] x))).
  { rewrite sorted_perm. destruct x as [x|]; [|constructor]. by destruct (Hx x eq_refl) as (? & _). }
  assert (Hpath : Forall isByte (from_option KVPath [] x)) by (destruct x as [x|]; [|constructor]; by destruct (Hx x eq_refl) as (_ & ? & _)).
  eapply adds_next; [apply adds_when, adds_force; apply bs_bytes|].
  eapply adds_next; [by apply adds_all|].
  eapply adds_next; [apply adds_when, adds_force; apply bs_bytes|].
  eapply adds_next; [by apply adds_str; [apply bs_bytes|]|]. cbn [mbind option_bind].
  do 2 (eapply adds_next; [by apply adds_str; [apply bs_bytes|]|]). cbn [mbind option_bind].
  eapply adds_next; [by apply adds_str; [apply bs_bytes|]|].
  eapply adds_next; [apply adds_true, bs_bytes|].
  eapply adds_next; [apply adds_if; [apply adds_force; apply bs_bytes|apply adds_true, bs_bytes]|].
  eapply adds_next; [apply adds_when, adds_force; apply bs_bytes|].
  eapply adds_next; [by apply adds_when, adds_force; [apply bs_bytes|]|].
  eapply adds_next; [by apply adds_str; [apply bs_bytes|]|].
  eapply adds_next; [apply adds_when, adds_num, bs_bytes|].
  cbn [fst]. rewrite object_end. by rewrite <- !app_assoc.
Qed.

(** *** Arguments, variables, commands *)

Definition okVar (e : Z * Z) : Prop := (∃ n, envStr e.1 = Some n ∧ named n) ∧ okAny e.2.
Definition okSlice (ch : Slice Z) : Prop := elems ch ≠ [] → heap !! sliceKey ch = Some (Args (elems ch)) ∧ Forall okAny (elems ch).
Definition okEnv (env : Slice (Z * Z)) : Prop := elems env ≠ [] → heap !! sliceKey env = Some (Vars (elems env)) ∧ Forall okVar (elems env).
Definition okCmd (cm : Cmd) : Prop :=
  Forall okSlice (CmdArgs cm) ∧ okEnv (CmdEnv cm) ∧ (Cwd cm ≠ 0 → okAny (Cwd cm)) ∧ (Stdout cm ≠ 0 → Stdout cm ∈ files).

Lemma writes_eq q f t t' : writes q f t → t = t' → writes q f t'.
Proof. by intros ? <-. Qed.

Lemma writes_assoc q f g h t : writes q ((f +> g) +> h) t → writes q (f +> g +> h) t.
Proof.
  intros Hw c buf Hc. destruct (Hw c buf Hc) as (c' & E & Hrest). exists c'. split; [|done]. rewrite <- E. unfold andThen. by destruct (f c buf) as [[]|].
Qed.

Lemma writes_arg a : okAny a → writes true (appendArg a) (item (anyJson a)).
Proof.
  unfold okAny, appendArg, anyJson, anyText. destruct (any_vfs a =? 0); cbn [negb]; [intros [Hu Hn]; by apply writes_STR|apply writes_file].
Qed.

Lemma join_app' {A} (l k : list (list A)) : mjoin (l ++ k) = mjoin l ++ mjoin k.
Proof. induction l as [|x l IH]; [done|]. change (mjoin ((x :: l) ++ k)) with (x ++ mjoin (l ++ k)). rewrite IH. by rewrite app_assoc. Qed.

Lemma join_flat {A B} (g : A → list B) (l : list (list A)) : mjoin ((λ x, mjoin (g <$> x)) <$> l) = mjoin (g <$> mjoin l).
Proof. induction l as [|x l IH]; [done|]. rewrite join_fmap_cons, IH. change (mjoin (x :: l)) with (x ++ mjoin l). by rewrite fmap_app, join_app'. Qed.

Lemma writes_chunk ch : okSlice ch → writes false (appendChunk ch) (sliceText (Args (elems ch))).
Proof.
  intros Hch. unfold appendChunk. destruct (decide (elems ch = [])) as [E|Hne].
  - rewrite bool_decide_eq_true_2, E by done. apply writes_nothing.
  - rewrite bool_decide_eq_false_2 by done. destruct (Hch Hne) as [Hheap Hargs]. apply writes_remembered; [done|by destruct (elems ch)|].
    apply writes_each. eapply Forall_impl; [done|]. apply writes_arg.
Qed.

Lemma writes_chunks chunks : Forall okSlice chunks → writes false (appendStrChunks chunks) (print (JArr (anyJson <$> mjoin (elems <$> chunks)))).
Proof.
  intros Hch. apply writes_array. eapply writes_eq; [apply writes_each; eapply Forall_impl; [done|apply writes_chunk]|].
  rewrite <- list_fmap_compose, <- join_flat, <- list_fmap_compose. done.
Qed.

Lemma writes_any a : okAny a → writes true (let v := any_vfs a in if negb (v =? 0) then appendVFS v else appendStrOf (any_str a)) (print (anyJson a)).
Proof.
  unfold okAny, anyJson, anyText. cbv zeta. destruct (any_vfs a =? 0); cbn [negb]; [intros [_ Hn]; by apply writes_strOf|apply writes_VFS].
Qed.

Lemma writes_var e : okVar e → writes true (appendEnvVar e) (member (varJson e)).
Proof.
  intros [(n & Hn & Hs) Ha]. apply (writes_seq _ _ _ (quoted (nameText e.1)) ([58] ++ print (anyJson e.2))).
  - intros c buf Hc. destruct (writes_strOf n Hs c buf Hc) as (c' & E & Hrest). exists c'. rewrite Hn. cbn [mbind option_bind]. split; [|done].
    rewrite E. unfold strJson, strText, nameText. rewrite Hn. done.
  - apply writes_seq; [apply writes_lit|by apply writes_any].
Qed.

Lemma writes_env env : okEnv env → writes false (appendEnv env) (print (JObj (varJson <$> elems env))).
Proof.
  intros He. unfold appendEnv. destruct (decide (elems env = [])) as [E|Hne].
  - rewrite bool_decide_eq_true_2, E by done. apply writes_lit.
  - rewrite bool_decide_eq_false_2 by done. destruct (He Hne) as [Hheap Hvars]. apply (writes_remembered _ (Vars (elems env))); [done|done|].
    eapply (writes_seq _ _ _ [123]); [apply writes_lit|]. eapply writes_seq; [|apply writes_lit]. eapply writes_eq; [apply writes_separated|].
    + eapply Forall_impl; [done|apply writes_var].
    + change (List.map _ ?l) with (member <$> l). by rewrite <- list_fmap_compose.
Qed.

(** Members behind the first. *)
Definition more (ms : list (text * json)) : text := mjoin ((λ m, 44 :: member m) <$> ms).

Lemma more_app a b : more (a ++ b) = more a ++ more b.
Proof. unfold more. by rewrite fmap_app, join_app'. Qed.

Lemma members_more m ms : commas (member <$> m :: ms) = member m ++ more ms.
Proof. cbn [fmap list_fmap]. rewrite commas_cons, <- list_fmap_compose. done. Qed.

Lemma member_key k j : quoted (bs k) = c_quote :: bs k ++ [c_quote] → member (bs k, j) = key k ++ print j.
Proof. intros Hk. unfold member, key. cbn [fst snd]. rewrite Hk. cbn [app]. by rewrite <- !app_assoc. Qed.

Lemma writes_more q k j f g t : quoted (bs k) = c_quote :: bs k ++ [c_quote] → writes q f (print j) → writes q g t →
  writes q (lit (44 :: key k) +> f +> g) (more [(bs k, j)] ++ t).
Proof.
  intros Hk Hf Hg. eapply writes_eq; [by eapply writes_seq; [apply writes_lit|]; eapply writes_seq|].
  unfold more. cbn [fmap list_fmap mjoin list_join]. rewrite app_nil_r, member_key by done. cbn [app]. by rewrite <- !app_assoc.
Qed.

Lemma writes_maybe q b k j f g t : quoted (bs k) = c_quote :: bs k ++ [c_quote] → (b = true → writes q f (print j)) → writes q g t →
  writes q (opt b (lit (44 :: key k) +> f) +> g) (more (field b k j) ++ t).
Proof.
  intros Hk Hf Hg. destruct b; [|by apply (writes_seq _ _ _ []); [apply writes_nothing|]].
  eapply writes_eq; [eapply writes_seq; [eapply writes_seq; [apply writes_lit|by apply Hf]|done]|].
  unfold more, field. cbn [fmap list_fmap mjoin list_join]. rewrite app_nil_r, member_key by done. cbn [app]. by rewrite <- !app_assoc.
Qed.

Lemma writes_cmd cm : okCmd cm → writes false (appendCmd cm) (print (cmdJson cm)).
Proof.
  intros (Hargs & Henv & Hcwd & Hout). unfold appendCmd. eapply writes_eq.
  - eapply writes_seq; [apply writes_lit|]. eapply writes_seq; [by apply writes_chunks|].
    eapply writes_maybe; [done|intros Hb%negb_true_iff%Z.eqb_neq; by apply writes_quiet, writes_any, Hcwd|].
    eapply writes_maybe; [done|intros _; by apply writes_env|].
    eapply writes_maybe; [done|intros Hb%negb_true_iff%Z.eqb_neq; by apply writes_quiet, writes_VFS, Hout|apply writes_lit].
  - unfold cmdJson. change (print (JObj ?l)) with (123 :: commas (member <$> l) ++ [125]). cbn [app]. rewrite members_more, !more_app, member_key by done.
    cbn [app]. by rewrite <- !app_assoc.
Qed.

(** *** Nodes *)

Record okNode (n : GNode) : Prop := {
  on_cmds : Forall okCmd (Cmds n);
  on_env : okEnv (NodeEnv n);
  on_inputs : Forall (Forall (.∈ files)) (Inputs n);
  on_outputs : Forall (.∈ files) (Outputs (base n));
  on_kv : kv_good (NodeKV n);
  on_extra x : Extra n = Some x → extra_good x;
  on_target : Forall isByte (Target n);
  on_requirements r : NodeRequirements n = Some r → requirements_good r }.

Lemma writes_refs refs : writes false (appendRefNumSlice refs) (print (JArr (refJson <$> refs))).
Proof.
  apply writes_brackets. eapply writes_eq; [apply (writes_separated _ _ decimal); apply Forall_true; intros r; apply writes_lit|]. by rewrite <- list_fmap_compose.
Qed.

Lemma writes_files vs : Forall (.∈ files) vs → writes false (each appendVFSComma vs) (mjoin (item <$> (fileJson <$> vs))).
Proof.
  intros Hvs. rewrite <- list_fmap_compose. apply writes_each. eapply Forall_impl; [done|]. intros v Hv. by apply writes_quiet, writes_file.
Qed.

Lemma join_files (l : list (list Z)) : mjoin ((λ ch, mjoin (item <$> (fileJson <$> ch))) <$> l) = mjoin (item <$> (fileJson <$> mjoin l)).
Proof.
  rewrite <- list_fmap_compose, <- join_flat. f_equal. apply list_fmap_ext. intros _ ch _. by rewrite <- list_fmap_compose.
Qed.

Lemma join_filter (P : Z → Prop) `{∀ x, Decision (P x)} (l : list (list Z)) : mjoin (filter P <$> l) = filter P (mjoin l).
Proof. induction l as [|x l IH]; [done|]. change (mjoin (x :: l)) with (x ++ mjoin l). rewrite filter_app, <- IH. done. Qed.

Lemma writes_inputFiles (drop_ : bool) (n : GNode) : Forall (Forall (.∈ files)) (Inputs n) →
  writes false (if drop_ then appendBuildOnlyVFSChunks (Inputs n) else appendVFSChunks (Inputs n)) (print (JArr (fileJson <$> inputFiles drop_ n))).
Proof.
  intros Hin. unfold inputFiles. destruct drop_; apply writes_array.
  - rewrite <- join_filter, <- join_files, <- list_fmap_compose. apply writes_each. eapply Forall_impl; [done|]. clear Hin. cbn beta. intros ch Hch. unfold compose.
    induction Hch as [|v ch Hv _ IH]; [apply writes_nothing|]. rewrite filter_cons. cbn [each]. destruct (isSource v).
    + rewrite decide_False by done. apply (writes_seq _ _ _ []); [apply writes_nothing|done].
    + rewrite decide_True by done. cbn [fmap list_fmap]. apply (writes_seq _ _ _ (item (fileJson v))); [by apply writes_quiet, writes_file|done].
  - rewrite <- join_files. apply writes_each. eapply Forall_impl; [done|]. apply writes_files.
Qed.

Lemma names_written ids : Forall named ids → ∀ c buf ts, ok c → Forall (λ t, ∃ t', t = t' ++ [34]) ts →
  ∃ c', each appendName ids c (buf ++ 91 :: commas ts) = Some (c', buf ++ 91 :: commas (ts ++ (print <$> (strJson <$> ids)))) ∧ ok c'.
Proof.
  induction 1 as [|id ids Hid _ IH]; intros c buf ts Hc Hts; [exists c; by rewrite app_nil_r|]. cbn [each fmap list_fmap].
  set (t := print (strJson id)). assert (Hstep : ∃ c', appendName id c (buf ++ 91 :: commas ts) = Some (c', buf ++ 91 :: commas (ts ++ [t])) ∧ ok c').
  { unfold appendName, andThen. destruct ts as [|u ts _] using rev_ind.
    - cbn [commas]. rewrite last_snoc. cbn [mbind option_bind]. change (91 =? 91) with true. cbn iota.
      destruct (writes_strOf id Hid c (buf ++ [91]) Hc) as (c' & E & Hc' & _). exists c'. split; [|done]. rewrite E. by rewrite <- app_assoc.
    - apply Forall_app in Hts as [_ Hu]. apply Forall_cons in Hu as [[u' ->] _].
      assert (Hlast : ∃ x, buf ++ 91 :: commas (ts ++ [u' ++ [34]]) = x ++ [34]).
      { destruct ts as [|v ts]; [exists (buf ++ 91 :: u'); by rewrite <- app_assoc|]. rewrite commas_snoc by done. exists (buf ++ 91 :: commas (v :: ts) ++ 44 :: u').
        rewrite <- app_assoc. cbn [app]. by rewrite <- app_assoc. }
      destruct Hlast as [x Hx]. assert (Hl : last (buf ++ 91 :: commas (ts ++ [u' ++ [34]])) = Some 34) by (rewrite Hx; apply last_snoc). rewrite Hl. cbn [mbind option_bind]. change (34 =? 91) with false. cbn iota.
      destruct (writes_strOf id Hid c ((buf ++ 91 :: commas (ts ++ [u' ++ [34]])) ++ [44]) Hc) as (c' & E & Hc' & _). exists c'. split; [|done]. rewrite E.
      rewrite (commas_snoc (ts ++ _)) by (by destruct ts). rewrite <- !app_assoc. done. }
  destruct Hstep as (c1 & E1 & Hc1). destruct (IH c1 buf (ts ++ [t]) Hc1) as (c2 & E2 & Hc2).
  { apply Forall_app. split; [done|]. apply Forall_singleton. unfold t, strJson. cbn [print]. unfold quoted. exists (c_quote :: escaped (strText id)). done. }
  exists c2. split; [|done]. unfold andThen. rewrite E1. cbn [mbind option_bind]. rewrite E2, <- app_assoc. done.
Qed.

Lemma writes_inputs f js ids : Forall named ids → (∀ s, s ∈ js → ∃ v, s = fileJson v) → writes false f (print (JArr js)) →
  writes false (f +> opt (bool_decide (ids ≠ [])) (plainly chop +> each appendName ids +> lit [93])) (print (JArr (js ++ (strJson <$> ids)))).
Proof.
  intros Hids Hjs Hf. destruct (decide (ids = [])) as [->|Hne].
  { rewrite (bool_decide_eq_false_2 ([] ≠ [])) by auto. rewrite app_nil_r. eapply writes_eq; [eapply writes_seq; [done|apply writes_nothing]|]. apply app_nil_r. }
  rewrite bool_decide_eq_true_2 by done. intros c buf Hc. destruct (writes_chop false f (91 :: commas (print <$> js)) 93 Hf c buf Hc) as (c1 & E1 & Hc1 & _).
  destruct (names_written ids Hids c1 buf (print <$> js) Hc1) as (c2 & E2 & Hc2).
  { apply Forall_forall. intros t (j & -> & Hj)%list_elem_of_fmap. destruct (Hjs j Hj) as [v ->]. exists (c_quote :: escaped (fileText v)). done. }
  exists c2. split; [|done]. cbn [opt]. unfold andThen in E1 |- *. destruct (f c buf) as [[cf bf]|]; [|done]. cbn [mbind option_bind] in E1 |- *. rewrite E1. cbn [mbind option_bind].
  match goal with |- ?x ≫= _ = _ => replace x with (Some (c2, buf ++ 91 :: commas ((print <$> js) ++ (print <$> (strJson <$> ids))))) by (symmetry; exact E2) end.
  cbn [mbind option_bind]. unfold lit. rewrite <- fmap_app, <- app_assoc. done.
Qed.

Lemma writes_plain f t : (∀ buf, f buf = Some (buf ++ t)) → writes false (plainly f) t.
Proof. intros Hf c buf Hc. exists c. unfold plainly. by rewrite Hf. Qed.

Lemma names_named n : okNode n → Forall named (inputNames n) ∧ Forall named (resourceURIs n).
Proof.
  intros Hn. unfold inputNames, resourceURIs. destruct (Extra n) as [x|] eqn:Hx; [|by split]. by destruct (on_extra n Hn x Hx) as (_ & _ & _ & ? & ?).
Qed.

Lemma writes_foreign refs : writes false (lit (44 :: key "foreign_deps" ++ [123] ++ key "tool") +> appendRefNumSlice refs +> lit [125])
  (more [(bs "foreign_deps", JObj [(bs "tool", JArr (refJson <$> refs))])]).
Proof.
  eapply writes_eq; [eapply writes_seq; [apply writes_lit|]; eapply writes_seq; [apply writes_refs|apply writes_lit]|].
  unfold more. cbn [fmap list_fmap mjoin list_join]. rewrite app_nil_r, member_key by done.
  change (print (JObj [(bs "tool", JArr (refJson <$> refs))])) with (123 :: member (bs "tool", JArr (refJson <$> refs)) ++ [125]).
  rewrite member_key by done. cbn [app]. rewrite <- !app_assoc. done.
Qed.

Lemma writes_uri u : named u → writes false (appendURI u) (print (JObj [(bs "uri", strJson u)])).
Proof.
  intros Hu. eapply writes_eq; [eapply writes_seq; [apply writes_lit|]; eapply writes_seq; [by apply writes_quiet, writes_strOf|apply writes_lit]|].
  change (print (JObj [(bs "uri", strJson u)])) with (123 :: member (bs "uri", strJson u) ++ [125]). rewrite member_key by done. cbn [app]. by rewrite <- !app_assoc.
Qed.

Lemma writes_resources us : Forall named us → writes false (lit (44 :: key "resources" ++ [91]) +> separated appendURI us +> lit [93])
  (more [(bs "resources", JArr ((λ u, JObj [(bs "uri", strJson u)]) <$> us))]).
Proof.
  intros Hus. eapply writes_eq.
  { eapply writes_seq; [apply writes_lit|]. eapply writes_seq; [|apply writes_lit]. apply writes_separated. eapply Forall_impl; [done|apply writes_uri]. }
  unfold more. cbn [fmap list_fmap mjoin list_join]. rewrite app_nil_r, member_key by done.
  change (print (JArr ?l)) with (91 :: commas (print <$> l) ++ [93]). rewrite <- list_fmap_compose. cbn [app]. rewrite <- !app_assoc. done.
Qed.

Lemma first_member b k j m ms : quoted (bs k) = c_quote :: bs k ++ [c_quote] →
  commas (member <$> field b k j ++ m :: ms) = (if b then key k ++ print j ++ [44] else []) ++ member m ++ more ms.
Proof.
  intros Hk. destruct b; cbn [field app]; rewrite members_more; [|done]. rewrite member_key by done. change (more (m :: ms)) with (44 :: member m ++ more ms). by rewrite <- !app_assoc.
Qed.

Lemma more_pair a b : more [a; b] = more [a] ++ more [b].
Proof. exact (more_app [a] [b]). Qed.

Lemma more_triple a b c : more [a; b; c] = more [a] ++ more [b] ++ more [c].
Proof. rewrite <- more_pair. exact (more_app [a] [b; c]). Qed.

Lemma more_field b k j : more (field b k j) = if b then more [(bs k, j)] else [].
Proof. by destruct b. Qed.

Lemma more_one k j : quoted (bs k) = c_quote :: bs k ++ [c_quote] → more [(bs k, j)] = 44 :: key k ++ print j.
Proof. intros Hk. unfold more. cbn [fmap list_fmap mjoin list_join]. by rewrite app_nil_r, member_key. Qed.

Lemma writes_cmds cmds : Forall okCmd cmds → writes false (appendCmdSlice cmds) (print (JArr (cmdJson <$> cmds))).
Proof.
  intros Hc. apply writes_brackets. eapply writes_eq; [apply writes_separated; eapply Forall_impl; [done|apply writes_cmd]|]. by rewrite <- list_fmap_compose.
Qed.

Lemma writes_node refs drop_ n : okNode n → writes false (appendNode refs drop_ n) (print (nodeJson refs drop_ n)).
Proof.
  intros Hn. destruct (names_named n Hn) as [Hnames Huris]. unfold appendNode. eapply writes_eq.
  - eapply writes_seq; [apply writes_lit|]. eapply writes_seq; [apply writes_opt; intros _; apply writes_lit|]. eapply writes_seq; [apply writes_lit|].
    eapply writes_seq; [apply writes_cmds, Hn|].
    eapply writes_more; [done|apply writes_refs|]. eapply writes_more; [done|apply writes_env, Hn|].
    eapply writes_seq; [apply writes_opt; intros _; apply writes_foreign|].
    eapply writes_seq; [apply writes_lit|]. apply writes_assoc. eapply writes_seq.
    { apply writes_inputs; [done| |apply writes_inputFiles, Hn]. intros s (v & -> & _)%list_elem_of_fmap. by eexists. }
    eapply writes_more; [done|apply writes_plain; intros buf; apply kv_written; apply Hn|].
    eapply writes_more; [done|by apply writes_array, writes_files, Hn|].
    eapply (writes_maybe _ _ _ (JStr (Target n))); [done|intros _; apply writes_quiet, writes_string, Hn|].
    eapply writes_more; [done|apply writes_plain; intros buf; apply requirements_written, Hn|].
    eapply writes_seq; [apply writes_opt; intros _; by apply writes_resources|].
    eapply (writes_more _ _ (refJson (Ref n))); [done|apply writes_lit|]. eapply (writes_more _ _ (refJson (Ref n))); [done|apply writes_lit|apply writes_lit].
  - unfold nodeJson. match goal with |- _ = print (JObj ?l) => change (print (JObj l)) with (123 :: commas (member <$> l) ++ [125]) end.
    match goal with |- context [field ?b "cache" ?j ++ (?m :: ?ms) ++ ?r] => change (field b "cache" j ++ (m :: ms) ++ r) with (field b "cache" j ++ m :: (ms ++ r)) end.
    rewrite first_member by done. rewrite !more_app, !more_pair, more_triple. unfold textField. rewrite !more_field, !more_one, member_key by done.
    do 12 (cbn [app]; rewrite <- ?app_assoc). done.
Qed.

(** *** The value is well formed *)

Definition good (kv : text * json) : Prop := Forall isByte kv.1 ∧ wf kv.2.

Lemma good_key k j : wf j → good (bs k, j).
Proof. intros Hj. split; [apply bs_bytes|done]. Qed.

Lemma good_field b k j : (b = true → wf j) → Forall good (field b k j).
Proof. intros Hj. destruct b; [|constructor]. apply Forall_singleton. by apply good_key, Hj. Qed.

Lemma good_text k t : Forall isByte t → Forall good (textField k t).
Proof. intros Ht. by apply good_field. Qed.

Lemma wf_float f : wf (JRaw (AppendFloat f)).
Proof. apply AppendFloat_word. Qed.

Lemma wf_true : wf (JRaw (bs "true")).
Proof. split; [done|by repeat constructor]. Qed.

Lemma digits_words fuel : ∀ n acc, Forall (λ b, wordByte b = true) acc → Forall (λ b, wordByte b = true) (digits fuel n acc) ∧ (acc ≠ [] → digits fuel n acc ≠ []).
Proof.
  induction fuel as [|fuel IH]; intros n acc Hacc; [by split|]. cbn [digits].
  assert (Hd : Forall (λ b, wordByte b = true) (48 + n mod 10 :: acc)).
  { constructor; [|done]. pose proof (Z.mod_pos_bound n 10 ltac:(lia)). assert (Hin : 48 + n mod 10 ∈ seqZ 48 10) by (apply elem_of_seqZ; lia).
    revert Hin. generalize (48 + n mod 10). apply Forall_forall. by repeat constructor. }
  destruct (n <? 10); [by split|]. destruct (IH (n / 10) _ Hd) as [? Hne]. split; [done|]. intros _. by apply Hne.
Qed.

Lemma wf_refs refs : wf (JArr (refJson <$> refs)).
Proof.
  apply wf_list, Forall_fmap, Forall_true. intros r. unfold compose, refJson, decimal. cbn [wf]. change (digits 20 r []) with (if r <? 10 then [48 + r mod 10] else digits 19 (r / 10) [48 + r mod 10]).
  assert (Hd : Forall (λ b, wordByte b = true) [48 + r mod 10]) by (pose proof (digits_words 1 r [] (Forall_nil_2 _)) as [Hd _]; cbn in Hd; by destruct (r <? 10)).
  destruct (r <? 10); [by split|]. destruct (digits_words 19 (r / 10) _ Hd) as [? Hne]. split; [by apply Hne|done].
Qed.

Lemma fileText_bytes v : v ∈ files → Forall isByte (fileText v).
Proof.
  intros Hv. destruct (fit_file Hfits _ Hv) as [_ (s & Hs & Hb)]. unfold fileText, strText. rewrite Hs. cbn [default from_option Datatypes.id].
  assert (Hp : Forall isByte (prefix v)) by (unfold prefix, isByte; destruct (isBuild _); repeat constructor; lia). case_bool_decide; [by apply Forall_take|by apply Forall_app].
Qed.

Lemma strText_bytes id : named id → Forall isByte (strText id).
Proof. intros (s & Hs & Hb). unfold strText. by rewrite Hs. Qed.

Lemma wf_vars l : Forall okVar l → wf (JObj (varJson <$> l)).
Proof.
  intros Hl. apply wf_members, Forall_fmap. eapply Forall_impl; [done|]. intros e [(n & Hn & Hs) Ha]. unfold compose, varJson. cbn [fst snd]. split; [|by apply anyText_ok].
  destruct Hs as (s & Hs & Hb). unfold nameText. rewrite Hn. cbn [mbind option_bind]. by rewrite Hs.
Qed.

Lemma okEnv_vars env : okEnv env → Forall okVar (elems env).
Proof. intros He. destruct (elems env) eqn:E; [constructor|]. unfold okEnv in He. rewrite E in He. by apply He. Qed.

Lemma wf_cmd cm : okCmd cm → wf (cmdJson cm).
Proof.
  intros (Hargs & Henv & Hcwd & Hout). unfold cmdJson. apply wf_members. repeat (apply Forall_app; split).
  - apply Forall_singleton, good_key. apply wf_list, Forall_fmap. apply Forall_forall. intros a Ha. apply list_elem_of_join in Ha as (l & Ha & (ch & -> & Hch)%list_elem_of_fmap).
    rewrite Forall_forall in Hargs. destruct (Hargs ch Hch) as [_ Hok]; [by intros E; rewrite E in Ha; apply not_elem_of_nil in Ha|]. rewrite Forall_forall in Hok. by apply anyText_ok, Hok.
  - apply good_field. intros Hb%negb_true_iff%Z.eqb_neq. by apply anyText_ok, Hcwd.
  - apply good_field. intros _. by apply wf_vars, okEnv_vars.
  - apply good_field. intros Hb%negb_true_iff%Z.eqb_neq. by apply fileText_bytes, Hout.
Qed.

Lemma wf_kv kv x : kv_good kv → (∀ y, x = Some y → extra_good y) → wf (kvJson kv x).
Proof.
  intros ([p Hp] & [pc Hpc] & Hname & Hrunner) Hx. unfold kvJson. apply wf_members. rewrite Hp, Hpc. cbn [default from_option Datatypes.id]. repeat (apply Forall_app; split).
  all: try (apply good_field; intros _; first [apply bs_bytes|apply wf_true|apply wf_float|done]).
  - apply Forall_fmap. rewrite sorted_perm. destruct x as [x|]; [|constructor]. destruct (Hx x eq_refl) as (He & _). eapply Forall_impl; [exact He|]. done.
  - apply good_text. by eapply table_bytes.
  - apply good_text. destruct x as [x|]; [|constructor]. by destruct (Hx x eq_refl) as (_ & ? & _).
  - apply good_text. by eapply table_bytes.
  - destruct (ShowOut kv); [apply Forall_singleton, good_key, bs_bytes|apply good_field; intros _; apply wf_true].
  - apply good_text. destruct x as [x|]; [|constructor]. destruct (Hx x eq_refl) as (_ & _ & Hs & _). destruct (Z.eqb_spec (SplitFile x) 0); [constructor|]. by apply anyText_ok, Hs.
Qed.

Lemma wf_requirements r : (∀ x, r = Some x → requirements_good x) → wf (requirementsJson r).
Proof.
  intros Hr. unfold requirementsJson. apply wf_members. destruct r as [r|].
  - destruct (Hr r eq_refl) as ([nw Hnw] & Hram & Hdns & Hvault & Hyav). rewrite Hnw. cbn [default from_option Datatypes.id]. repeat (apply Forall_app; split).
    all: try (apply good_field; intros _; first [apply wf_true|apply wf_float]). all: try by apply good_text.
    + apply good_text. by eapply table_bytes.
    + destruct (negb _); [apply Forall_singleton, good_key, wf_float|by apply good_text].
  - repeat constructor; try apply bs_bytes; done.
Qed.

Lemma wf_node refs drop_ n : okNode n → wf (nodeJson refs drop_ n).
Proof.
  intros Hn. destruct (names_named n Hn) as [Hnames Huris]. unfold nodeJson. apply wf_members. repeat (apply Forall_app; split).
  - apply good_field. intros _. split; [done|by repeat constructor].
  - apply Forall_cons; split; [|apply Forall_cons; split; [|apply Forall_singleton]]; apply good_key.
    + apply wf_list, Forall_fmap. eapply Forall_impl; [apply Hn|]. apply wf_cmd.
    + apply wf_refs.
    + apply wf_vars, okEnv_vars, Hn.
  - apply good_field. intros _. apply wf_members, Forall_singleton. apply good_key, wf_refs.
  - apply Forall_cons; split; [|apply Forall_cons; split; [|apply Forall_singleton]]; apply good_key.
    + apply wf_list, Forall_app. split; apply Forall_fmap.
      * assert (Hin : Forall (.∈ files) (inputFiles drop_ n)); [|eapply Forall_impl; [exact Hin|apply fileText_bytes]].
        unfold inputFiles. pose proof (on_inputs n Hn) as Hi. apply Forall_join in Hi. destruct drop_; [|done]. rewrite Forall_forall in Hi |- *. intros v [_ Hv]%list_elem_of_filter. by apply Hi.
      * eapply Forall_impl; [exact Hnames|]. apply strText_bytes.
    + apply wf_kv; apply Hn.
    + apply wf_list, Forall_fmap. eapply Forall_impl; [apply Hn|]. apply fileText_bytes.
  - apply good_text, Hn.
  - apply Forall_singleton, good_key. apply wf_requirements, Hn.
  - apply good_field. intros _. apply wf_list, Forall_fmap. eapply Forall_impl; [exact Huris|]. intros u Hu. apply wf_members, Forall_singleton. by apply good_key, strText_bytes.
  - pose proof (wf_refs [Ref n]) as Hr%wf_list. apply Forall_cons in Hr as [Hr _]. apply Forall_cons; split; [|apply Forall_singleton]; by apply good_key.
Qed.

(** *** Graphs *)

Section sending.
Context {W : Type} (write : W → text → res W).

Fixpoint sendAll (w : W) (chunks : list text) : res W :=
  match chunks with [] => Ok w | t :: chunks => w ← write w t; sendAll w chunks end.

Lemma sendAll_snoc chunks t w : sendAll w (chunks ++ [t]) = w ← sendAll w chunks; write w t.
Proof. revert w. induction chunks as [|u chunks IH]; intros w; cbn [app sendAll]; [cbn [mbind res_bind]; by destruct (write w t)|]. destruct (write w u); [apply IH|done..]. Qed.

Lemma nodes_written g drop_ ns : Forall okNode ns → ∀ fst_ c w buf, ok c → ∃ c' chunks rest,
  writeNodes write g drop_ fst_ ns c w buf = (w ← sendAll w chunks; Ok (c', w, rest)) ∧ ok c' ∧
  mjoin chunks ++ rest = buf ++ (if fst_ then commas ((λ n, print (nodeJson (fetchRefs g) drop_ n)) <$> ns) else mjoin ((λ n, 44 :: print (nodeJson (fetchRefs g) drop_ n)) <$> ns)).
Proof.
  induction 1 as [|n ns Hn _ IH]; intros fst_ c w buf Hc; [exists c, [], buf; destruct fst_; by rewrite app_nil_r|]. cbn [writeNodes].
  destruct (writes_node (fetchRefs g) drop_ n Hn c (if fst_ then buf else buf ++ [44]) Hc) as (c1 & -> & Hc1 & _). cbn [lift mbind res_bind].
  set (buf1 := (if fst_ then buf else buf ++ [44]) ++ print (nodeJson (fetchRefs g) drop_ n)).
  assert (Hbuf : ∀ x, buf1 ++ mjoin ((λ n, 44 :: print (nodeJson (fetchRefs g) drop_ n)) <$> ns) = x → x = buf ++ (if fst_ then commas ((λ n, print (nodeJson (fetchRefs g) drop_ n)) <$> n :: ns)
    else mjoin ((λ n, 44 :: print (nodeJson (fetchRefs g) drop_ n)) <$> n :: ns))).
  { intros x <-. unfold buf1. destruct fst_; [cbn [fmap list_fmap]; rewrite commas_cons, <- list_fmap_compose|rewrite join_fmap_cons]; by rewrite <- !app_assoc. }
  destruct (2 ^ 20 <=? len buf1).
  - set (w1 := if write w buf1 is Ok w1 then w1 else w). destruct (IH false c1 w1 [] Hc1) as (c2 & chunks & rest & E & Hc2 & Hout).
    exists c2, (buf1 :: chunks), rest. split; [|split; [done|]]; [unfold w1 in E; cbn [sendAll]; by destruct (write w buf1)|].
    apply Hbuf. change (mjoin (buf1 :: chunks)) with (buf1 ++ mjoin chunks). rewrite <- app_assoc. f_equal. by rewrite Hout.
  - destruct (IH false c1 w buf1 Hc1) as (c2 & chunks & rest & E & Hc2 & Hout). exists c2, chunks, rest. split; [done|]. split; [done|]. apply Hbuf. by rewrite Hout.
Qed.

Lemma graph_sent g drop_ c w : Forall okNode (nodes g) → ok c → ∃ c' chunks,
  writeGraphCompact write c w g drop_ = (w ← sendAll w chunks; Ok (c', w)) ∧ ok c' ∧ mjoin chunks = print (JObj (graphMembers g drop_)).
Proof.
  intros Hns Hc. assert (Hc0 : ok (withWritten c newJSONWriteCache)) by (split; try apply Hc; apply new_pages_ok). unfold writeGraphCompact.
  destruct (nodes_written g drop_ (nodes g) Hns true _ w ([123] ++ key "graph" ++ [91]) Hc0) as (c1 & chunks & rest & E & Hc1 & Hout).
  destruct (writes_seq false _ _ _ _ (writes_lit false ([93; 44] ++ key "inputs" ++ bs "{}," ++ key "result")) (writes_seq false _ _ _ _ (writes_refs (Result g)) (writes_lit false [125])) c1 rest Hc1)
    as (c2 & E2 & Hc2 & _).
  eexists c2, (chunks ++ [_]). split; [|split; [exact Hc2|]].
  - rewrite E, sendAll_snoc. destruct (sendAll w chunks) as [w1| |]; cbn [mbind res_bind]; [|done..]. rewrite E2. cbn [lift mbind res_bind]. done.
  - rewrite join_app'. change (mjoin [?x]) with (x ++ []). rewrite app_nil_r, app_assoc, Hout. unfold graphMembers.
    match goal with |- _ = print (JObj ?l) => change (print (JObj l)) with (123 :: commas (member <$> l) ++ [125]) end. rewrite members_more, more_pair, !more_one, member_key by done.
    change (print (JArr (nodeJson (fetchRefs g) drop_ <$> nodes g))) with (91 :: commas (print <$> (nodeJson (fetchRefs g) drop_ <$> nodes g)) ++ [93]). rewrite <- list_fmap_compose.
    do 8 (cbn [app]; rewrite <- ?app_assoc). done.
Qed.
End sending.
End invariant.
End writing.

(** C35: Whatever the caches hold, the texts handed to the sink are together the printed value of the graph; they are handed over in order until one
    is refused, and the splitter finds the members of the whole. *)
Theorem graph_written `{Floats} (strOf : Z → option text) (envStr : Z → option Z) (vfsBound : Z) (heap : gmap (Z * Z) content) (files : list Z)
    {W : Type} (write : W → text → res W) (c : Caches) (w : W) (g : Graph) (dropSrcInputs : bool) :
  fits strOf envStr vfsBound heap files → ok strOf envStr heap files c → Forall (okNode strOf envStr heap files) (nodes g) →
  ∃ c' chunks, writeGraphCompact strOf envStr vfsBound write c w g dropSrcInputs = (w ← sendAll write w chunks; Ok (c', w)) ∧
    ok strOf envStr heap files c' ∧ mjoin chunks = print (JObj (graphMembers strOf envStr g dropSrcInputs)) ∧
    jsonObjectMembers (mjoin chunks) = Ok ((λ kv, (kv.1, print kv.2)) <$> graphMembers strOf envStr g dropSrcInputs, true).
Proof.
  intros Hfit Hc Hns. destruct (graph_sent strOf envStr vfsBound heap files Hfit write g dropSrcInputs c w Hns Hc) as (c' & chunks & E & Hc' & Hout).
  exists c', chunks. split; [done|]. split; [done|]. split; [done|]. rewrite Hout. rewrite <- (app_nil_r (print _)). rewrite members_found; [done|].
  apply wf_members. unfold graphMembers. repeat (apply Forall_cons; split); try apply Forall_nil_2; split; try apply bs_bytes; try exact I; cbn [snd].
  - apply wf_list, Forall_fmap. eapply Forall_impl; [exact Hns|]. intros n Hn. by eapply wf_node.
  - apply wf_refs.
Qed.

Module JsonGraphExample.
#[local] Instance whole_numbers : Floats.
Proof.
  refine {| Float := Z; isZero := Z.eqb 0; ofInt z := z; AppendFloat z := decimal z |}. intros z.
  pose proof (wf_refs [z]) as Hr%wf_list. apply Forall_cons in Hr as [Hr _]. exact Hr.
Defined.

Definition strOf (id : Z) : option text :=
  if id =? 1 then Some [] else if id =? 2 then Some (bs "dir/a.cpp") else if id =? 3 then Some (bs "-DX=" ++ [34; 92; 34]) else if id =? 4 then Some (bs "PATH") else if id =? 5 then Some ([9] ++ bs "odd") else None.
Definition envStr (e : Z) : option Z := if e =? 1 then Some 4 else None.

(** The source root, a built file, an odd file; arguments. *)
Definition files : list Z := [2; 5; 10].
Definition args : Slice Z := mkSlice 100 [2 * 5 + 1; 2 * 3; 2 * 4; 2 * 10 + 1].
Definition env : Slice (Z * Z) := mkSlice 200 [(1, 2 * 2 + 1)].
Definition heap : gmap (Z * Z) content := list_to_map [((100, 4), Args (elems args)); ((200, 1), Vars (elems env))].

Definition node (r : Z) : GNode := {|
  base := mkNode [1] [7] [] [] [] [5] false false;
  Extra := Some (mkNodeExtra [3] [4] [(bs "k2", bs "v"); (bs "k1", bs "w")] false (bs "p") (2 * 3) 4 true);
  Cmds := [mkCmd [args; mkSlice 0 []; args] env (2 * 2 + 1) 5];
  NodeEnv := env; Inputs := [[2; 5]; [10]];
  NodeKV := mkKV 3 1 true false true (bs "n") true [] false true false; Target := bs "linux";
  NodeRequirements := Some (mkRequirements _ 1 0 (bs "7g") true [] 1 0 false 5 [] []); Ref := r |}.
Definition graph : Graph := mkGraph _ [node 1; node 2; node 3] [2; 3] ∅.

Definition append (w t : text) : res text := Ok (w ++ t).
Definition start : Caches := mkCaches (TwoBitSet.mkTwoBitSet go_zero) (BitSet.mkBitSet go_zero) (mkEscapes [] []) newJSONWriteCache.
Definition output : text := match writeGraphCompact strOf envStr 20 append start [] graph true with Ok (_, w) => w | _ => [] end.

Lemma text_written : bool_decide (output = print (JObj (graphMembers strOf envStr graph true))) = true.
Proof. vm_compute. reflexivity. Qed.

Lemma known (id : Z) : id ∈ [1; 2; 3; 4; 5] → named strOf id.
Proof.
  intros Hid. assert (Hall : Forall (λ id, match strOf id with Some s => Forall isByte s | None => False end) [1; 2; 3; 4; 5]).
  { unfold isByte. repeat constructor; lia. }
  rewrite Forall_forall in Hall. specialize (Hall id Hid). unfold named. destruct (strOf id) as [t|]; [by exists t|done].
Qed.

Ltac is_known := apply known; apply (bool_decide_unpack _); vm_compute; exact I.

Lemma example_fits : fits strOf envStr 20 heap files.
Proof.
  split.
  - intros v Hv. assert (Hall : Forall (λ v, 0 <= v < 20 ∧ named strOf (vfs_rel v)) files) by (repeat constructor; try lia; is_known). rewrite Forall_forall in Hall. by apply Hall.
  - lia.
  - vm_compute. reflexivity.
  - vm_compute. reflexivity.
Qed.

Lemma start_ok : ok strOf envStr heap files start.
Proof.
  split.
  - apply TwoBitSet.twobit_wf_zero.
  - intros id s Hid _. rewrite TwoBitSet.get_spec by (done || apply TwoBitSet.twobit_wf_zero).
    replace (TwoBitSet.state (strJSONState start) id) with 0; [done|]. symmetry. unfold TwoBitSet.state. change (vslice _) with (@nil Z). by rewrite zget_nil.
  - apply BitSet.bitset_wf_zero.
  - intros v s _ _. rewrite BitSet.member_zero. done.
  - split; cbn [pos blocks start vfsEscapedJSON]; [intros id p; by rewrite zget_nil|constructor|]. exists []. split; [constructor|]. split; [by intros id Hid%not_elem_of_nil|by left].
  - apply new_pages_ok.
Qed.

Lemma args_ok : Forall (okAny strOf files) (elems args).
Proof.
  repeat constructor; try (vm_compute; done); try is_known; apply (bool_decide_unpack _); vm_compute; exact I.
Qed.

Lemma env_ok : okEnv strOf envStr heap files env.
Proof.
  intros _. split; [done|]. apply Forall_singleton. split; [exists 4; split; [done|is_known]|]. change (2 ∈ files). left.
Qed.

Lemma node_ok r : okNode strOf envStr heap files (node r).
Proof.
  assert (Hargs : okSlice strOf heap files args) by (intros _; split; [done|apply args_ok]).
  split; cbn [Cmds NodeEnv Inputs NodeKV Extra Target NodeRequirements base node Outputs].
  - apply Forall_singleton. split_and!; cbn [CmdArgs CmdEnv Cwd Stdout]; [|apply env_ok|intros _; change (2 ∈ files); left|intros _; right; left].
    repeat (apply Forall_cons; split); [done|by intros []|done|constructor].
  - apply env_ok.
  - repeat constructor; apply (bool_decide_unpack _); vm_compute; exact I.
  - repeat constructor.
  - split_and!; cbn; [by eexists|by eexists|apply (bs_bytes "n")|constructor].
  - intros x [= <-]. split_and!; cbn.
    + repeat constructor; cbn; lia.
    + apply (bs_bytes "p").
    + intros _. split; [vm_compute; done|is_known].
    + apply Forall_singleton. is_known.
    + apply Forall_singleton. is_known.
  - apply bs_bytes.
  - intros x [= <-]. split_and!; cbn; [by eexists|apply (bs_bytes "7g")|constructor..].
Qed.

Lemma graph_written_witness : ∃ c' chunks, writeGraphCompact strOf envStr 20 append start [] graph true = (w ← sendAll append [] chunks; Ok (c', w)) ∧
  ok strOf envStr heap files c' ∧ mjoin chunks = print (JObj (graphMembers strOf envStr graph true)) ∧
  jsonObjectMembers (mjoin chunks) = Ok ((λ kv, (kv.1, print kv.2)) <$> graphMembers strOf envStr graph true, true).
Proof.
  apply graph_written; [exact example_fits|exact start_ok|]. repeat (apply Forall_cons; split); try apply node_ok. constructor.
Defined.
End JsonGraphExample.
